(* ===== verification/_CoqProject ===== *)
-Q . S2P
Prelude.v
Number.v
NumberGuard.v
NumberRound.v
NumberArith.v
NumberAdd.v
NumberFacts.v
Text.v
RangeSet.v
ConsensusParms.v
DisputedTx.v
Consensus.v
ConsensusInv.v
ConsensusProps.v
Serializer.v
Views.v
Sandbox.v
ViewProps.v
LedgerTrie.v
TrieTree.v
TrieOps.v
TrieInsert.v
TrieQuery.v
TrieRemove.v
TrieCheck.v
TriePreferred.v
RclLedger.v
TrieProps.v
Validations.v
ValidationsInv.v
ValidationsProps.v
ShamapKey.v
ShamapNode.v
ShamapSlots.v
ShamapInner.v
ShamapTree.v
ShamapHeap.v
ShamapRepr.v
ShamapWalk.v
ShamapOrder.v
ShamapMutate.v
ShamapAdd.v
ShamapDelete.v
ShamapMap.v
ShamapHash.v
ShamapBinding.v
ShamapCodec.v
ShamapWire.v
ShamapProof.v
ShamapStore.v
ShamapFlush.v
ShamapCompare.v
LedgerHeader.v
LedgerState.v
LedgerBatch.v
LedgerWorld.v
LedgerView.v
LedgerStore.v
Replay.v
LedgerServer.v
ShamapProps.v
LedgerProps.v
BuildProps.v
ReplayProps.v
CompareProps.v
ServerProps.v
