(* ===== verification/Prelude.v ===== *)
(** * A verification of parts of the Rust XRP Ledger server

    The repository is a server of the XRP Ledger: nodes agree on the next ledger
    by exchanging proposals ([xrpld/consensus]), apply transactions to layered
    views of the ledger ([xrpld/ledger], [xrpld/tx]), keep its state in a hash tree
    that successive ledgers share ([xrpl/shamap]), compute with decimal
    floating-point amounts ([xrpl/basics], [xrpl/protocol]) and exchange
    serialised objects ([xrpl/protocol]).  This library translates some of these
    parts into definitions that compute, and proves what makes them correct.

    ** The parts and the files that model them

    - [Prelude] (this file): outcomes of Rust code, machine integers and loops.
    - [Number], [NumberGuard], [NumberRound], [NumberArith], [NumberAdd],
      [NumberFacts]: the decimal floating point of
      [xrpl/basics/src/math/number.rs].  [Number] holds the definitions, one per
      function; [NumberGuard] and [NumberRound] the meaning of the guard digits
      and of rounding; [NumberArith] multiplication, division and normalisation;
      [NumberAdd] addition; [NumberFacts] comparison and integers.
    - [Text]: decimal printing and parsing, splitting of strings.
    - [RangeSet]: sets of integers as lists of intervals,
      [xrpl/basics/src/collections/range_set.rs].
    - [ConsensusParms]: parameters, close times and the decisions of
      [xrpld/consensus/src/algorithm] ([params.rs], [timing.rs],
      [functions.rs], [types.rs]).
    - [DisputedTx]: votes on one transaction,
      [xrpld/consensus/src/model/disputed_tx.rs].
    - [Consensus], [ConsensusInv], [ConsensusProps]: the consensus state machine
      of [xrpld/consensus/src/algorithm/consensus.rs], its invariant and its
      properties.  The adaptor is a record of functions, every effect on it an
      event of a log.
    - [Serializer]: the writer and the reader of
      [xrpl/protocol/src/serialization/serializer.rs].
    - [Views]: the traits of [xrpld/ledger/src/views/read_view.rs] and
      [raw_view.rs] as classes, [raw_state_table.rs], [open_view.rs] and
      [apply_state_table.rs].
    - [Sandbox]: [apply_view.rs], [sandbox.rs] and [flow_sandbox.rs].
    - [ViewProps]: the properties of the stacked views.
    - [LedgerTrie]: the ancestry trie of validated ledgers, an arena of nodes,
      [xrpld/consensus/src/model/ledger_trie.rs].  [TrieTree], [TrieOps],
      [TrieInsert], [TrieQuery], [TrieRemove], [TrieCheck] and [TriePreferred]
      relate the arena to a tree and each operation to what it does to the tree;
      [TrieProps] states the result against a list of supports.
    - [RclLedger]: the ledgers the trie is used with, [RclValidatedLedger] of
      [xrpld/app/src/consensus/rcl_validation.rs], as an instance of the class of
      ledgers.
    - [Validations], [ValidationsInv], [ValidationsProps]: the store of validations
      that feeds the trie, [xrpld/consensus/src/rcl_support/validations.rs], its
      invariant and its properties.
    - [ShamapKey]: keys and positions in the hash tree,
      [xrpl/shamap/src/nodes/node_id.rs].
    - [ShamapNode]: its nodes, the sparse arrays of their children, their hashes and
      their wire and storage form, [xrpl/shamap/src/nodes/tree_node.rs] and [item.rs].
      [ShamapSlots] gives a node's arrays their meaning as sixteen slots, [ShamapInner]
      runs sequences of operations on a node and on its slots.
    - [ShamapHeap]: the nodes in memory, descents, lookups and the copy-on-write
      [MutableTree], [xrpl/shamap/src/traverse/traversal.rs] and
      [operations/search.rs], [read.rs], [mutation.rs].  [ShamapTree] holds the trees
      that nodes stand for, [ShamapRepr] what it means that a node stands for a tree
      (frozen, or owned by the tree being changed), [ShamapWalk], [ShamapMutate],
      [ShamapAdd] and [ShamapDelete] what each operation does to it, [ShamapMap] the
      operations as operations on a map.
    - [ShamapOrder]: walks in the order of keys, [traverse/iteration.rs].
    - [ShamapHash]: the recursive computation of hashes of
      [xrpl/shamap/src/owners/sync.rs]; [ShamapBinding]: what a root hash determines;
      [ShamapCodec]: what the wire and the storage form of a node determine.
    - [ShamapWire]: what the decoder of the wire form accepts; [ShamapProof]: proofs that
      an item is in a tree, [traverse/proof_path.rs].
    - [ShamapStore]: trees in a database of nodes and the fetcher that reads them,
      [node_fetcher] of [xrpld/app/src/state/application_root.rs].  [ShamapFlush]: the
      walks of [mutation.rs] that hash a tree and hand its new nodes to a writer, in
      place or on a copy.
    - [ShamapCompare]: the differences between two trees, [operations/compare.rs].
    - [LedgerHeader]: [xrpl/protocol/src/ledger/ledger_header.rs].
    - [LedgerState]: [Ledger] of [xrpld/ledger/src/lib.rs] on its [SyncTree]s (batches
      of changes, closing, the next ledger).  [LedgerBatch] specifies a batch,
      [LedgerWorld] any number of ledgers over one store of nodes in memory.
      [LedgerView]: the ledger as a view of entries, the base of the stacked views
      ([read_view.rs], [raw_view.rs]).
    - [LedgerStore]: how a [Ledger] writes its nodes to the node store, at once or as a
      checked batch, and is loaded by the hashes of a header.  [LedgerServer]: any number
      of ledgers over one node store.
    - [Replay]: the messages by which a node gets the skip list and the transactions of an
      old ledger from a peer,
      [xrpld/app/src/state/application_root/replay_callback_impl.rs].
    - [ShamapProps], [LedgerProps] and [ServerProps]: the properties of trees, of ledgers
      and of ledgers over a node store.  [BuildProps]: transactions on a ledger, from the
      views down to the nodes.  [ReplayProps]: proofs and deltas from peers.

    The views are proved against an interface of [Views]: [view_of] (what reading
    answers), the class [RawViewLaws] (what writing does) and the class [EntryRule] (the
    entries that the base can hold).  An open view satisfies it, and so does a ledger
    that shares its nodes with others ([LedgerView.ledger_laws]): [BuildProps] is the
    composition.

    ** How code is translated

    A function that can fail returns an [outcome]; a method with [&mut self]
    takes and returns the state; the consensus machine is a state monad with a
    log ([Consensus]), and a transaction view a state monad that keeps its state
    on errors ([Sandbox]).  The order in which a hash table is walked is a
    parameter of [Consensus] and [Validations], an arbitrary permutation.  Nodes of a
    hash tree are shared by reference: a store of nodes ([ShamapHeap.heap]) is threaded
    through every operation on them.  A machine integer is a [Z] and the width is where it
    is used: [plain] for the arithmetic operators, [checked] and [saturate] for the
    methods of these names, [cast] for [as].  A hash map or a [BTreeMap] is a
    [gmap]; where the order of iteration matters it is written out ([ascending]).
    A loop that is not structural takes fuel and returns [OutOfFuel] when it
    runs out, and the theorem about it says that it does not.

    ** What the theorems show

    - [Number]: multiplication, division and addition return the correctly rounded
      result in each of the four rounding modes, for every pair of normalised
      numbers of the scale [Large330], the default one (the older scales can
      misround); comparison is exact; integers survive conversion.
    - [RangeSet]: insertion and removal of intervals are union and difference,
      the representation is canonical, its text form can be read back.
    - [ConsensusParms] and [DisputedTx]: positions exclude each other, close times
      round to the nearest, votes are tallied, and exactly when a dispute is stalled.
    - [ConsensusProps]: from a new machine, whatever sequence of operations is
      called and whatever an adaptor that keeps [ConsensusInv.ConsensusLaws] answers, no
      assertion fails, disputes and positions stay consistent with our set, only decided
      results are accepted, proposals are sent only while proposing; the close time is
      the one most vote for, and a round that lasts too long is decided or given up.
    - [Serializer]: what is written is read back, for any sequence of items; the
      encoding of a field identifier is the only one the reader accepts; the
      outcome of reading variable-length data on every input.
    - [ViewProps]: a transaction run through the stack of views changes the open
      view as a map would change; a failed commit changes nothing; an open view
      commits what it shows.
    - [BuildProps]: any sequence of transactions, run through the whole stack of views
      and committed to an open ledger among others, changes that ledger as a map of
      entries would change and its total of drops by the fees, and no other ledger.
    - [TrieProps]: any sequence of insertions and removals leaves a trie whose
      queries answer as a list of supports would, and whose preferred ledger is
      the one a rule stated on that list picks; nothing panics and no count overflows.
    - [ValidationsProps]: whatever operations the store goes through, the trie
      counts one vote for each node's last ledger, the preferred last closed ledger
      follows the trie's rule on these votes, and a node's accepted sequences
      increase.
    - [ShamapProps]: any sequence of operations on a tree answers as a finite map does
      and leaves the trees it shares nodes with as they are; the root hash is a function
      of the map, and determines it unless the hash function fails on the texts of the
      nodes; a node's packed arrays stay well formed and act as sixteen slots; a node
      that is written is read back; walks follow the order of the keys.
    - [CompareProps]: comparing two shared trees reports the keys under which their maps
      differ, with the items of both, up to the number that the caller accepts.
    - [LedgerProps]: ledgers that share nodes are independent maps over any sequence of
      batches, closings, successions and reads, and a batch that fails leaves no trace;
      the account hash of a closed ledger is a function of its state, and its hash
      determines header and state; a header that is sent is read back.
    - [ServerProps]: the same with a node store: ledgers are flushed, stored as checked
      batches that may be refused, loaded again by the hashes of a header and built upon,
      and stay independent maps, unless the hash function fails on what was stored.
    - [ReplayProps]: a skip list that is accepted from a peer is the one of the ledger,
      whatever bytes the peer sends, unless the hash function fails; what a node serves is
      accepted; and two failures of the code: a proof of 65 inner nodes is a panic, and the
      delta of a ledger with transactions is refused when it is genuine.

    ** Bounds and fuel

    The loops of [Number] run at most a few times per decimal digit: their fuel is
    fixed at a number of steps larger than the exponent range allows, and every
    theorem about them includes termination.  The successor loops of the views
    have one step per entry of the table and one more.  The walks of the trie have
    one step per node of the arena, which bounds every path in it.  The recursion of
    [timer_entry] is bounded by fuel; with a stable preferred ledger two calls
    are enough ([ConsensusProps.recursion_depth_two]).  Walks down a hash tree have
    [ShamapHeap.LEVELS] steps, two more than a key has nibbles; the walk that flushes a
    tree has [2 ^ 384] steps, more than a full tree of 64 levels takes
    ([ShamapFlush.depth_enough]), and stops when it is done.  The fuel of a comparison is
    an argument: any number above the weights of the two trees is enough.  Where an operator can
    leave its width ([Wraps]), the theorem either excludes it or says so.

    ** Not modelled

    Input and output, threads and time-outs, storage, the network, JSON and the
    command line; cryptography and hashing, which are parameters where they are
    used; the transactors; of the SHAMap the acquisition of missing nodes, visitors and
    the cache of nodes, and of a node reference counts and locks; of [Ledger] the setup from entries (fees and rules) and skip lists; the node
    store itself, which is the list of writes it has taken; of [Number] the roots and the
    conversions to text; of [flow_sandbox.rs] the plan that builds metadata; of
    [open_view.rs] fees, rules and the iteration over transactions.  Sequence
    numbers of ledgers in the trie and the store of validations are integers, as
    the code is generic in them; supports are kept at 32 bits.

    ** What the trie needs of ledgers

    A ledger may know only some of its ancestors.  The theorems of [TrieProps] and
    [ValidationsProps] are about ledgers that satisfy [TrieTree.TrieLedgerLaws]: all of
    them but the genesis ledger know one common ancestor, at the sequence [floor], and
    their own ancestors from there on; below it [ancestor] may answer anything.  This
    holds of the ledgers of the network whose skip lists, of 256 hashes, reach down to
    that ancestor ([RclLedger.rcl_ledger_laws]).  Nothing is said of ledgers that are too
    far apart to have an ancestor in common that both know. *)

(** ** This file

    Outcomes and their monad, machine integers, loops with fuel, and the lemmas on
    them that the components share. *)

From Stdlib Require Import ZArith Lia List Bool.
Import ListNotations.

#[global] Open Scope Z_scope.

(** ** Outcomes of Rust code

    [Ok] and [Err] are the two constructors of [Result]; [Panic] is a panic (a
    failed assertion or [expect], a division by zero); [Wraps] is an unchecked
    arithmetic operator that leaves its width, a panic of a debug build and a
    wrapped value of a release build; [OutOfFuel] marks a loop whose fuel was
    too small, and is what every totality theorem rules out. *)

Inductive outcome (E A : Type) : Type :=
| Ok (a : A)
| Err (e : E)
| Panic
| Wraps
| OutOfFuel.

Arguments Ok {E A} a.
Arguments Err {E A} e.
Arguments Panic {E A}.
Arguments Wraps {E A}.
Arguments OutOfFuel {E A}.

Definition bind {E A B} (m : outcome E A) (k : A -> outcome E B) : outcome E B :=
  match m with
  | Ok a => k a
  | Err e => Err e
  | Panic => Panic
  | Wraps => Wraps
  | OutOfFuel => OutOfFuel
  end.

Definition map_err {E F A} (f : E -> F) (m : outcome E A) : outcome F A :=
  match m with
  | Ok a => Ok a
  | Err e => Err (f e)
  | Panic => Panic
  | Wraps => Wraps
  | OutOfFuel => OutOfFuel
  end.

Declare Scope outcome_scope.
Delimit Scope outcome_scope with outcome.
Notation "x <- m ;; k" := (bind m (fun x => k))
  (at level 20, m at level 99, k at level 200) : outcome_scope.
Notation "' p <- m ;; k" := (bind m (fun x => match x with p => k end))
  (at level 20, p pattern, m at level 99, k at level 200) : outcome_scope.
#[global] Open Scope outcome_scope.

(** [yields m Q R]: [m] returns, with [Q] of its value or [R] of its error.
    It never holds of the three failures. *)
Definition yields {E A} (m : outcome E A) (Q : A -> Prop) (R : E -> Prop) : Prop :=
  match m with
  | Ok a => Q a
  | Err e => R e
  | Panic | Wraps | OutOfFuel => False
  end.

(** [while fuel cond body s]: a [while] loop on the state [s]. *)
Fixpoint while {E S} (fuel : nat) (cond : S -> bool) (body : S -> outcome E S)
    (s : S) : outcome E S :=
  if cond s then
    match fuel with
    | O => OutOfFuel
    | Datatypes.S n => s' <- body s;; while n cond body s'
    end
  else Ok s.

(** ** Machine integers *)

Inductive int_type : Type :=
| U8 | U16 | U32 | U64 | U128 | Usize | I8 | I32 | I64 | I128.

Definition min_of (w : int_type) : Z :=
  match w with
  | U8 | U16 | U32 | U64 | U128 | Usize => 0
  | I8 => - 2 ^ 7
  | I32 => - 2 ^ 31
  | I64 => - 2 ^ 63
  | I128 => - 2 ^ 127
  end.

Definition max_of (w : int_type) : Z :=
  match w with
  | U8 => 2 ^ 8 - 1
  | U16 => 2 ^ 16 - 1
  | U32 => 2 ^ 32 - 1
  | U64 | Usize => 2 ^ 64 - 1
  | U128 => 2 ^ 128 - 1
  | I8 => 2 ^ 7 - 1
  | I32 => 2 ^ 31 - 1
  | I64 => 2 ^ 63 - 1
  | I128 => 2 ^ 127 - 1
  end.

Definition fits (w : int_type) (z : Z) : bool := (min_of w <=? z) && (z <=? max_of w).

(** The value of [z as w]: reduction modulo the width. *)
Definition cast (w : int_type) (z : Z) : Z :=
  min_of w + (z - min_of w) mod (max_of w - min_of w + 1).

(** [checked_op(..).ok_or(e)?] *)
Definition checked {E} (w : int_type) (e : E) (z : Z) : outcome E Z :=
  if fits w z then Ok z else Err e.

(** A plain [+], [-], [*] of Rust. *)
Definition plain {E} (w : int_type) (z : Z) : outcome E Z :=
  if fits w z then Ok z else Wraps.

Definition saturate (w : int_type) (z : Z) : Z := Z.max (min_of w) (Z.min (max_of w) z).

(** ** Reasoning about outcomes *)

Lemma yields_bind {E A B} (m : outcome E A) (k : A -> outcome E B) P Q R :
  yields m P R -> (forall a, P a -> yields (k a) Q R) -> yields (bind m k) Q R.
Proof. destruct m; simpl; auto. Qed.

Lemma bind_ok {E A B} (m : outcome E A) (k : A -> outcome E B) b :
  bind m k = Ok b -> exists a, m = Ok a /\ k a = Ok b.
Proof. destruct m; simpl; intros H; try discriminate. eauto. Qed.

Lemma yields_mono {E A} (m : outcome E A) (P Q : A -> Prop) (R T : E -> Prop) :
  yields m P R -> (forall a, P a -> Q a) -> (forall e, R e -> T e) -> yields m Q T.
Proof. destruct m; simpl; auto. Qed.

Lemma yields_and {E A} (m : outcome E A) (P Q : A -> Prop) (R T : E -> Prop) :
  yields m P R -> yields m Q T -> yields m (fun a => P a /\ Q a) (fun e => R e /\ T e).
Proof. destruct m; simpl; auto. Qed.

(** [sound m Q]: [m] does not panic and reports no error, and [Q] holds of its
    value; nothing is said when unchecked arithmetic wraps. *)
Definition sound {E A} (m : outcome E A) (Q : A -> Prop) : Prop :=
  match m with
  | Ok a => Q a
  | Wraps => True
  | Err _ | Panic | OutOfFuel => False
  end.

Lemma sound_bind {E A B} (m : outcome E A) (k : A -> outcome E B) P Q :
  sound m P -> (forall a, P a -> sound (k a) Q) -> sound (bind m k) Q.
Proof. destruct m; simpl; auto. Qed.

Lemma sound_mono {E A} (m : outcome E A) (P Q : A -> Prop) :
  sound m P -> (forall a, P a -> Q a) -> sound m Q.
Proof. destruct m; simpl; auto. Qed.

Lemma sound_ok {E A} (m : outcome E A) Q a : sound m Q -> m = Ok a -> Q a.
Proof. intros H ->. exact H. Qed.

(** When [m] has only one error, its postcondition is needed there only. *)
Lemma yields_error_only {E A} (m : outcome E A) (P : A -> Prop) (R T : E -> Prop) e0 :
  (forall e, m = Err e -> e = e0) -> yields m P R -> (R e0 -> T e0) -> yields m P T.
Proof. destruct m; simpl; auto. intros H Hr Ht. rewrite (H e eq_refl) in *. auto. Qed.

(** The loop rule: an invariant [I], and a measure that the fuel bounds. *)
Lemma while_rule {E S} (I : S -> Prop) (meas : S -> nat) (R : E -> Prop)
    (cond : S -> bool) (body : S -> outcome E S) :
  (forall s, I s -> cond s = true ->
     yields (body s) (fun s' => I s' /\ (meas s' < meas s)%nat) R) ->
  forall fuel s, I s -> (meas s < fuel)%nat ->
  yields (while fuel cond body s) (fun s' => I s' /\ cond s' = false) R.
Proof.
  intros Hbody; induction fuel as [|n IH]; intros s HI Hm; [lia|]; simpl.
  destruct (cond s) eqn:Hc; simpl; auto.
  eapply yields_bind; [apply (Hbody s HI Hc)|].
  intros s' [HI' Hlt]. apply IH; auto. lia.
Qed.

Lemma fits_true w z : fits w z = true <-> min_of w <= z <= max_of w.
Proof. unfold fits. rewrite andb_true_iff, !Z.leb_le. tauto. Qed.

Lemma fits_ok w z : min_of w <= z <= max_of w -> fits w z = true.
Proof. apply fits_true. Qed.

Lemma checked_yields {E} w (e : E) z (Q : Z -> Prop) (R : E -> Prop) :
  (min_of w <= z <= max_of w -> Q z) -> (~ min_of w <= z <= max_of w -> R e) ->
  yields (checked w e z) Q R.
Proof.
  intros HQ HR. unfold checked. destruct (fits w z) eqn:H; simpl.
  - apply HQ, fits_true, H.
  - apply HR. rewrite <- fits_true. congruence.
Qed.

Lemma checked_ok {E} w (e : E) z : min_of w <= z <= max_of w -> checked w e z = Ok z.
Proof. intros H. unfold checked. apply fits_true in H. now rewrite H. Qed.

Lemma plain_inv {E} w z v : plain (E := E) w z = Ok v -> v = z.
Proof. unfold plain. destruct (fits w z); congruence. Qed.

Lemma plain_ok {E} w z : min_of w <= z <= max_of w -> plain (E := E) w z = Ok z.
Proof. intros H. unfold plain. apply fits_true in H. now rewrite H. Qed.

Lemma sound_plain {E} w z (Q : Z -> Prop) : Q z -> sound (plain (E := E) w z) Q.
Proof. unfold plain. destruct (fits w z); simpl; auto. Qed.

Lemma sound_plain_bind {E A} w z (k : Z -> outcome E A) Q :
  sound (k z) Q -> sound (bind (plain w z) k) Q.
Proof. unfold plain. destruct (fits w z); simpl; auto. Qed.

Lemma cast_id w z : min_of w <= z <= max_of w -> cast w z = z.
Proof.
  intros H. unfold cast. rewrite Z.mod_small; [lia|].
  lia.
Qed.

Lemma cast_range w z : min_of w <= cast w z <= max_of w.
Proof.
  unfold cast.
  assert (0 < max_of w - min_of w + 1) as Hp by (destruct w; simpl; lia).
  pose proof (Z.mod_pos_bound (z - min_of w) _ Hp). lia.
Qed.

(** ** Automation *)

(** Splits boolean tests and conjunctions in the context into [Prop]. *)
Ltac bool_prop :=
  repeat match goal with
  | H : andb _ _ = true |- _ => apply andb_true_iff in H; destruct H
  | H : orb _ _ = false |- _ => apply orb_false_iff in H; destruct H
  | H : negb _ = true |- _ => apply negb_true_iff in H
  | H : negb _ = false |- _ => apply negb_false_iff in H
  | H : (_ <? _) = true |- _ => apply Z.ltb_lt in H
  | H : (_ <? _) = false |- _ => apply Z.ltb_ge in H
  | H : (_ <=? _) = true |- _ => apply Z.leb_le in H
  | H : (_ <=? _) = false |- _ => apply Z.leb_gt in H
  | H : (_ >? _) = true |- _ => rewrite Z.gtb_ltb in H
  | H : (_ >? _) = false |- _ => rewrite Z.gtb_ltb in H
  | H : (_ >=? _) = true |- _ => rewrite Z.geb_leb in H
  | H : (_ >=? _) = false |- _ => rewrite Z.geb_leb in H
  | H : (_ =? _) = true |- _ => apply Z.eqb_eq in H
  | H : (_ =? _) = false |- _ => apply Z.eqb_neq in H
  | H : _ /\ _ |- _ => destruct H
  end.

(** Cases on the test of an [if] of the goal, keeping the equation. *)
Ltac case_if :=
  match goal with
  | |- context [if ?b then _ else _] =>
      lazymatch b with
      | context [if _ then _ else _] => fail
      | _ => let H := fresh "Hif" in destruct b eqn:H
      end
  end.

Create HintDb rust.
#[export] Hint Resolve cast_range : rust.

(** ** Powers of ten *)

Lemma pow10_pos k : 0 <= k -> 0 < 10 ^ k.
Proof. intros. apply Z.pow_pos_nonneg; lia. Qed.

Lemma pow10_succ k : 0 <= k -> 10 ^ (k + 1) = 10 * 10 ^ k.
Proof. intros. rewrite Z.pow_add_r by lia. lia. Qed.

#[export] Hint Resolve pow10_pos : rust.

(** ** Bits *)

Lemma land_disjoint a b n : 0 <= n -> 0 <= a < 2 ^ n -> Z.land a (b * 2 ^ n) = 0.
Proof.
  intros Hn Ha. apply Z.bits_inj'. intros i Hi. rewrite Z.land_spec, Z.bits_0.
  destruct (Z.lt_ge_cases i n).
  - rewrite Z.mul_pow2_bits_low by lia. apply andb_false_r.
  - rewrite <- (Z.mod_small a (2 ^ n)) by lia.
    now rewrite Z.mod_pow2_bits_high by lia.
Qed.

Lemma lor_add_high a b n : 0 <= n -> 0 <= a < 2 ^ n -> Z.lor a (b * 2 ^ n) = a + b * 2 ^ n.
Proof.
  intros Hn Ha. pose proof (Z.add_lor_land a (b * 2 ^ n)).
  rewrite (land_disjoint a b n) in H by lia. lia.
Qed.

Lemma land_low a n : 0 <= n -> Z.land a (2 ^ n - 1) = a mod 2 ^ n.
Proof.
  intros. rewrite <- Z.land_ones by lia. f_equal. rewrite Z.ones_equiv. lia.
Qed.
