(* ===== verification/Number.v ===== *)
(** * Number: the decimal floating point of the ledger's arithmetic

    Models [xrpl/basics/src/math/number.rs]: the mantissa scales and rounding
    modes, [NumberParts] with its normalisation, the digit guard
    [ArithmeticGuard], and the four arithmetic operations.  The thread-local
    scale and rounding mode are the record [tls], passed to every operation
    that reads them.  The theorems are in [NumberGuard], [NumberFacts] and
    [NumberArith]. *)

From S2P Require Import Prelude.
From Stdlib Require Import ZArith Lia List Bool.
Import ListNotations.

Definition NUMBER_MIN_EXPONENT : Z := -32768.
Definition NUMBER_MAX_EXPONENT : Z := 32768.
Definition NUMBER_MAX_REP : Z := 9223372036854775807.
Definition NUMBER_MAX_REP_UP : Z := NUMBER_MAX_REP + 3.
Definition NUMBER_ZERO_EXPONENT : Z := -2147483648.

Definition MANTISSA_SMALL_MIN : Z := 1000000000000000.
Definition MANTISSA_SMALL_MAX : Z := 9999999999999999.
Definition MANTISSA_LARGE_MIN : Z := 1000000000000000000.
Definition MANTISSA_LARGE_MAX : Z := 9999999999999999999.

(** [log_ten]: [Err tt] stands for [None].  A [u64] has at most 20 digits. *)
Fixpoint log_ten_loop (fuel : nat) (value log : Z) : outcome unit Z :=
  if 10 <=? value then
    match fuel with
    | O => OutOfFuel
    | S n => if negb (value mod 10 =? 0) then Err tt
             else log_ten_loop n (value / 10) (log + 1)
    end
  else if value =? 1 then Ok log else Err tt.

Definition log_ten (value : Z) : outcome unit Z := log_ten_loop 20 value 0.

Definition is_power_of_ten (value : Z) : bool :=
  match log_ten value with Ok _ => true | _ => false end.

Inductive MantissaScale : Type := Small | LargeLegacy | Large320 | Large330.

Definition MantissaScale_eqb (a b : MantissaScale) : bool :=
  match a, b with
  | Small, Small | LargeLegacy, LargeLegacy
  | Large320, Large320 | Large330, Large330 => true
  | _, _ => false
  end.

Inductive RoundingMode : Type := ToNearest | TowardsZero | Downward | Upward.

(** The two thread-local cells. *)
Record tls : Type := mkTls { scale_cell : MantissaScale; mode_cell : RoundingMode }.

Definition initial_tls : tls := mkTls Large330 ToNearest.
Definition get_mantissa_scale (t : tls) : MantissaScale := scale_cell t.
Definition set_mantissa_scale (s : MantissaScale) (t : tls) : tls := mkTls s (mode_cell t).
Definition get_rounding_mode (t : tls) : RoundingMode := mode_cell t.
(** [set_rounding_mode] replaces the mode and returns the previous one. *)
Definition set_rounding_mode (m : RoundingMode) (t : tls) : RoundingMode * tls :=
  (mode_cell t, mkTls (scale_cell t) m).

Definition mantissa_range_min (s : MantissaScale) : Z :=
  match s with
  | Small => MANTISSA_SMALL_MIN
  | LargeLegacy | Large320 | Large330 => MANTISSA_LARGE_MIN
  end.

Definition mantissa_range_max (s : MantissaScale) : Z :=
  match s with
  | Small => MANTISSA_SMALL_MAX
  | LargeLegacy | Large320 | Large330 => MANTISSA_LARGE_MAX
  end.

Definition mantissa_range_log (s : MantissaScale) : Z :=
  match s with
  | Small => 15
  | LargeLegacy | Large320 | Large330 => 18
  end.

Definition signed_external_mantissa_bounds (s : MantissaScale) : Z * Z :=
  match s with
  | Small => (- MANTISSA_SMALL_MAX, MANTISSA_SMALL_MAX)
  | LargeLegacy | Large320 | Large330 => (- NUMBER_MAX_REP, NUMBER_MAX_REP)
  end.

Definition external_mantissa_in_range (s : MantissaScale) (value : Z) : bool :=
  let '(min, max) := signed_external_mantissa_bounds s in
  (min <=? value) && (value <=? max).

Definition cusp_rounding_320_enabled (s : MantissaScale) : bool :=
  match s with Large320 | Large330 => true | _ => false end.

Definition cusp_rounding_330_enabled (s : MantissaScale) : bool :=
  match s with Large330 => true | _ => false end.

Record MantissaRange : Type := mkRange {
  range_min : Z; range_max : Z; range_log : Z; range_scale : MantissaScale }.

Definition MantissaRange_new (s : MantissaScale) : MantissaRange :=
  mkRange (mantissa_range_min s) (mantissa_range_max s) (mantissa_range_log s) s.

Record NumberParts : Type := mkNumber { negative : bool; mantissa : Z; exponent : Z }.

Inductive NumberShiftExponentError : Type := ShiftOverflow.
Inductive NumberNormalizeError : Type := ExponentOverflow | RequiresRounding.
Inductive NumberArithmeticError : Type := Overflow | DivideByZero.

Definition number_eqb (a b : NumberParts) : bool :=
  Bool.eqb (negative a) (negative b) && (mantissa a =? mantissa b)
  && (exponent a =? exponent b).

Definition zero : NumberParts := mkNumber false 0 NUMBER_ZERO_EXPONENT.

Definition number_min (s : MantissaScale) : NumberParts :=
  mkNumber false (mantissa_range_min s) NUMBER_MIN_EXPONENT.

Definition number_max (s : MantissaScale) : NumberParts :=
  let m := mantissa_range_max s in
  mkNumber false (if m >? NUMBER_MAX_REP then NUMBER_MAX_REP else m) NUMBER_MAX_EXPONENT.

Definition number_lowest (s : MantissaScale) : NumberParts :=
  let m := mantissa_range_max s in
  mkNumber true (if m >? NUMBER_MAX_REP then NUMBER_MAX_REP else m) NUMBER_MAX_EXPONENT.

Definition one_small : NumberParts :=
  mkNumber false MANTISSA_SMALL_MIN (- mantissa_range_log Small).
Definition one_large : NumberParts :=
  mkNumber false MANTISSA_LARGE_MIN (- mantissa_range_log Large330).
Definition one (s : MantissaScale) : NumberParts :=
  match s with
  | Small => one_small
  | LargeLegacy | Large320 | Large330 => one_large
  end.

Definition is_normalized (self : NumberParts) (s : MantissaScale) : bool :=
  if mantissa self =? 0 then
    negb (negative self) && (exponent self =? NUMBER_ZERO_EXPONENT)
  else
    let min := mantissa_range_min s in
    let max := mantissa_range_max s in
    (mantissa self >=? min) && (mantissa self <=? max)
    && ((mantissa self <=? NUMBER_MAX_REP) || (mantissa self mod 10 =? 0))
    && (exponent self >=? NUMBER_MIN_EXPONENT) && (exponent self <=? NUMBER_MAX_EXPONENT).

(** A debug assertion. *)
Definition debug_assert {E} (b : bool) : outcome E unit := if b then Ok tt else Panic.

(** Fuel of the loops that multiply or divide a mantissa by ten: a mantissa
    below 2^64 is raised, one below 2^128 lowered, at most this many times. *)
Definition digit_fuel : nat := 130.

Definition normalize_to_range (self : NumberParts) (min_mantissa max_mantissa : Z)
    : outcome NumberNormalizeError NumberParts :=
  if mantissa self =? 0 then Ok zero else
  '(m, e) <- while digit_fuel
      (fun '(m, e) => (m <? min_mantissa) && (e >? NUMBER_MIN_EXPONENT))
      (fun '(m, e) =>
         m' <- checked U128 RequiresRounding (m * 10);;
         e' <- plain I32 (e - 1);;
         Ok (m', e'))
      (mantissa self, exponent self);;
  '(m, e) <- while digit_fuel
      (fun '(m, e) => m >? max_mantissa)
      (fun '(m, e) =>
         if e >=? NUMBER_MAX_EXPONENT then Err ExponentOverflow else
         if negb (m mod 10 =? 0) then Err RequiresRounding else
         e' <- plain I32 (e + 1);;
         Ok (m / 10, e'))
      (m, e);;
  if (e <? NUMBER_MIN_EXPONENT) || (m <? min_mantissa) then Ok zero else
  m' <- checked U64 RequiresRounding m;;
  Ok (mkNumber (negative self && negb (m' =? 0)) m' e).

Definition try_normalize_exact (self : NumberParts) (s : MantissaScale)
    : outcome NumberNormalizeError NumberParts :=
  normalize_to_range self (mantissa_range_min s) (mantissa_range_max s).

(** [-(mantissa)] of the two non-negative branches cannot overflow; the last
    branch negates at [i128]. *)
Definition external_to_internal_mantissa (m : Z) : Z :=
  if m >=? 0 then cast U64 m
  else if m >=? - max_of I64 then cast U64 (- m)
  else cast U64 (- m).

Definition try_from_external_parts (m e : Z) (s : MantissaScale)
    : outcome NumberNormalizeError NumberParts :=
  try_normalize_exact (mkNumber (m <? 0) (external_to_internal_mantissa m) e) s.

Definition external_parts (self : NumberParts) : outcome NumberNormalizeError (Z * Z) :=
  if mantissa self =? 0 then Ok (0, exponent self) else
  '(m, e) <- (if mantissa self >? NUMBER_MAX_REP then
                if negb (mantissa self mod 10 =? 0) then Err RequiresRounding else
                e' <- checked I32 ExponentOverflow (exponent self + 1);;
                Ok (mantissa self / 10, e')
              else Ok (mantissa self, exponent self));;
  m' <- checked I64 RequiresRounding m;;
  Ok ((if negative self then - m' else m'), e).

Definition signum (self : NumberParts) : Z :=
  if negative self then -1 else if mantissa self =? 0 then 0 else 1.

Definition compare (self other : NumberParts) : comparison :=
  if negb (Bool.eqb (negative self) (negative other)) then
    if negative self then Lt else Gt
  else if mantissa self =? 0 then
    if mantissa other >? 0 then Lt else Eq
  else if mantissa other =? 0 then Gt
  else if negb (exponent self =? exponent other) then
    if exponent self >? exponent other then
      if negative self then Lt else Gt
    else if negative self then Gt else Lt
  else if negative self then mantissa other ?= mantissa self
  else mantissa self ?= mantissa other.

Definition shift_exponent (self : NumberParts) (delta : Z) (s : MantissaScale)
    : outcome NumberShiftExponentError NumberParts :=
  _ <- debug_assert (is_normalized self s);;
  e <- checked I32 ShiftOverflow (exponent self + delta);;
  if e >=? NUMBER_MAX_EXPONENT then Err ShiftOverflow else
  if e <? NUMBER_MIN_EXPONENT then Ok zero else
  Ok (mkNumber (negative self) (mantissa self) e).

(** [Result::unwrap_or] *)
Definition unwrap_or {E F A} (m : outcome E A) (d : A) : outcome F A :=
  match m with
  | Ok a => Ok a
  | Err _ => Ok d
  | Panic => Panic
  | Wraps => Wraps
  | OutOfFuel => OutOfFuel
  end.

Definition truncate (self : NumberParts) (s : MantissaScale)
    : outcome NumberNormalizeError NumberParts :=
  if (exponent self >=? 0) || (mantissa self =? 0) then
    unwrap_or (normalize_to_range self (mantissa_range_min s) (mantissa_range_max s)) self
  else
    '(m, e) <- while digit_fuel
        (fun '(m, e) => (e <? 0) && negb (m =? 0))
        (fun '(m, e) => e' <- plain I32 (e + 1);; Ok (m / 10, e'))
        (mantissa self, exponent self);;
    let t := mkNumber (negative self && negb (m =? 0)) m e in
    unwrap_or (normalize_to_range t (mantissa_range_min s) (mantissa_range_max s)) t.

Definition neg (self : NumberParts) : NumberParts :=
  if mantissa self =? 0 then zero
  else mkNumber (negb (negative self)) (mantissa self) (exponent self).

(** ** The guard: dropped digits, most recent in the top nibble *)

Record ArithmeticGuard : Type := mkGuard { digits : Z; has_extra : bool; g_negative : bool }.

Definition default_guard : ArithmeticGuard := mkGuard 0 false false.

Definition set_negative (g : ArithmeticGuard) : ArithmeticGuard :=
  mkGuard (digits g) (has_extra g) true.

Definition push (g : ArithmeticGuard) (digit : Z) : ArithmeticGuard :=
  mkGuard (Z.lor (Z.shiftr (digits g) 4) (cast U64 (Z.shiftl (Z.land digit 15) 60)))
    (has_extra g || negb (Z.land (digits g) 15 =? 0))
    (g_negative g).

Definition pop (g : ArithmeticGuard) : Z * ArithmeticGuard :=
  (cast U8 (Z.shiftr (Z.land (digits g) 0xF000000000000000) 60),
   mkGuard (cast U64 (Z.shiftl (digits g) 4)) (has_extra g) (g_negative g)).

Definition empty (g : ArithmeticGuard) : bool := (digits g =? 0) && negb (has_extra g).

Definition round (t : tls) (g : ArithmeticGuard) : Z :=
  match get_rounding_mode t with
  | TowardsZero => -1
  | Downward => if g_negative g && ((digits g >? 0) || has_extra g) then 1 else -1
  | Upward => if g_negative g then -1
              else if (digits g >? 0) || has_extra g then 1 else -1
  | ToNearest =>
      let half := 0x5000000000000000 in
      if digits g >? half then 1
      else if digits g <? half then -1
      else if has_extra g then 1 else 0
  end.

(** The three variables the guard's methods update in place. *)
Record rounding : Type := mkRounding { rn : bool; rm : Z; re : Z }.

Definition bring_into_range {E} (r : rounding) (min_mantissa : Z) (s : MantissaScale)
    : outcome E rounding :=
  '(m, e) <- (if (rm r <? min_mantissa)
                 && (negb (cusp_rounding_330_enabled s) || negb (rm r =? 0)) then
                m' <- plain U128 (rm r * 10);;
                e' <- plain I32 (re r - 1);;
                Ok (m', e')
              else Ok (rm r, re r));;
  if (e <? NUMBER_MIN_EXPONENT) || (cusp_rounding_330_enabled s && (m =? 0))
  then Ok (mkRounding false 0 NUMBER_ZERO_EXPONENT)
  else Ok (mkRounding (rn r) m e).

(** [do_round_up]; the recursive call of the cusp branch is bounded by [fuel]. *)
Fixpoint do_round_up_loop (fuel : nat) (t : tls) (g : ArithmeticGuard) (r : rounding)
    (min_mantissa max_mantissa : Z) (s : MantissaScale)
    : outcome NumberArithmeticError (ArithmeticGuard * rounding) :=
  '(g, m) <- (if cusp_rounding_330_enabled s && (rm r >=? NUMBER_MAX_REP)
                 && (rm r <? NUMBER_MAX_REP_UP) then
                let m := if rm r mod 10 <? 9 then
                           let rounded := round t g in
                           if (rounded =? 1)
                              || ((rounded =? 0) && (rm r =? NUMBER_MAX_REP + 1))
                           then rm r + 1 else rm r
                         else rm r in
                let diff := m - NUMBER_MAX_REP in
                let digit := cast U8 (diff * 10 / (NUMBER_MAX_REP_UP - NUMBER_MAX_REP)) in
                Ok (push g digit, m)
              else Ok (g, rm r));;
  let rounded := round t g in
  let safe_to_increment m := (m <? max_mantissa) && (m <? NUMBER_MAX_REP) in
  let finish g m e :=
    r' <- bring_into_range (mkRounding (rn r) m e) min_mantissa s;;
    if re r' >? NUMBER_MAX_EXPONENT then Err Overflow else Ok (g, r') in
  if (rounded =? 1) || ((rounded =? 0) && (Z.land m 1 =? 1)) then
    if cusp_rounding_320_enabled s then
      if safe_to_increment m then finish g (m + 1) (re r)
      else if cusp_rounding_330_enabled s && (m >? NUMBER_MAX_REP)
              && (m <? NUMBER_MAX_REP_UP) then finish g NUMBER_MAX_REP_UP (re r)
      else
        let g := push g (cast U8 (m mod 10)) in
        let m := m / 10 in
        e <- checked I32 Overflow (re r + 1);;
        if negb (safe_to_increment m) then Err Overflow else
        match fuel with
        | O => OutOfFuel
        | S n => do_round_up_loop n t g (mkRounding (rn r) m e) min_mantissa max_mantissa s
        end
    else
      m <- checked U128 Overflow (m + 1);;
      if (m >? max_mantissa) || (m >? NUMBER_MAX_REP) then
        e <- checked I32 Overflow (re r + 1);;
        finish g (m / 10) e
      else finish g m (re r)
  else if cusp_rounding_330_enabled s && (m >? NUMBER_MAX_REP) && (m <? NUMBER_MAX_REP_UP)
  then finish g NUMBER_MAX_REP (re r)
  else finish g m (re r).

Definition do_round_up := do_round_up_loop 1.

Definition do_round_down {E} (t : tls) (g : ArithmeticGuard) (r : rounding)
    (min_mantissa : Z) (s : MantissaScale) : outcome E rounding :=
  let rounded := round t g in
  r' <- (if cusp_rounding_330_enabled s then
           if negb (empty g) then
             m <- plain U128 (rm r - 1);; Ok (mkRounding (rn r) m (re r))
           else Ok r
         else if (rounded =? 1) || ((rounded =? 0) && (Z.land (rm r) 1 =? 1)) then
           m <- plain U128 (rm r - 1);;
           if m <? min_mantissa then
             m <- plain U128 (m * 10);;
             e <- plain I32 (re r - 1);;
             Ok (mkRounding (rn r) m e)
           else Ok (mkRounding (rn r) m (re r))
         else Ok r);;
  bring_into_range r' min_mantissa s.

Definition do_round_i64 (t : tls) (g : ArithmeticGuard) (drops : Z)
    : outcome NumberArithmeticError Z :=
  let rounded := round t g in
  drops <- (if (rounded =? 1) || ((rounded =? 0) && (Z.land drops 1 =? 1)) then
              if drops =? NUMBER_MAX_REP then Err Overflow
              else plain I64 (drops + 1)
            else Ok drops);;
  if g_negative g then checked I64 Overflow (- drops) else Ok drops.

(** ** Normalising a result *)

Definition rep_limit (s : MantissaScale) : Z :=
  if cusp_rounding_330_enabled s then NUMBER_MAX_REP_UP else NUMBER_MAX_REP.

(** [finish_arithmetic_result] and [normalize_arithmetic_parts_with_dropped]
    call each other; [fuel] bounds the number of calls of the latter. *)
Definition finish_arithmetic_result_with
    (normalize : bool -> Z -> Z -> outcome NumberArithmeticError NumberParts)
    (n : bool) (m e : Z) (s : MantissaScale)
    : outcome NumberArithmeticError NumberParts :=
  if (m =? 0) || (e <? NUMBER_MIN_EXPONENT) then Ok zero else
  if e >? NUMBER_MAX_EXPONENT then Err Overflow else
  m <- checked U64 Overflow m;;
  let result := mkNumber (n && negb (m =? 0)) m e in
  if is_normalized result s then Ok result
  else normalize (negative result) (mantissa result) (exponent result).

Fixpoint normalize_loop (fuel : nat) (t : tls) (n : bool) (m e : Z)
    (min_mantissa max_mantissa : Z) (s : MantissaScale) (dropped : bool)
    : outcome NumberArithmeticError NumberParts :=
  match fuel with
  | O => OutOfFuel
  | S fuel' =>
      if m =? 0 then Ok zero else
      '(m, e) <- while digit_fuel
          (fun '(m, e) => (m <? min_mantissa) && (e >? NUMBER_MIN_EXPONENT))
          (fun '(m, e) =>
             m' <- checked U128 Overflow (m * 10);;
             e' <- plain I32 (e - 1);;
             Ok (m', e'))
          (m, e);;
      let g := if n then set_negative default_guard else default_guard in
      let g := if dropped then mkGuard (digits g) true (g_negative g) else g in
      '(g, m, e) <- while digit_fuel
          (fun '(g, m, e) => m >? max_mantissa)
          (fun '(g, m, e) =>
             if e >=? NUMBER_MAX_EXPONENT then Err Overflow else
             e' <- plain I32 (e + 1);;
             Ok (push g (cast U8 (m mod 10)), m / 10, e'))
          (g, m, e);;
      if (e <? NUMBER_MIN_EXPONENT) || (m <? min_mantissa) then Ok zero else
      '(g, m, e) <- (if m >? rep_limit s then
                       if e >=? NUMBER_MAX_EXPONENT then Err Overflow else
                       e' <- plain I32 (e + 1);;
                       Ok (push g (cast U8 (m mod 10)), m / 10, e')
                     else Ok (g, m, e));;
      '(_, r) <- do_round_up t g (mkRounding n m e) min_mantissa max_mantissa s;;
      finish_arithmetic_result_with
        (fun n m e => normalize_loop fuel' t n m e
                        (mantissa_range_min s) (mantissa_range_max s) s false)
        (rn r) (rm r) (re r) s
  end.

(** Two calls are enough: the second one is reached only from
    [finish_arithmetic_result] on a mantissa that is not yet normal, and its
    own result is normal ([NumberArith.normalize_330]). *)
Definition normalize_fuel : nat := 2.

Definition normalize_arithmetic_parts_with_dropped (t : tls) (n : bool) (m e : Z)
    (min_mantissa max_mantissa : Z) (s : MantissaScale) (dropped : bool) :=
  normalize_loop normalize_fuel t n m e min_mantissa max_mantissa s dropped.

Definition normalize_arithmetic_parts (t : tls) (n : bool) (m e : Z)
    (min_mantissa max_mantissa : Z) (s : MantissaScale) :=
  normalize_arithmetic_parts_with_dropped t n m e min_mantissa max_mantissa s false.

Definition finish_arithmetic_result (t : tls) (n : bool) (m e : Z) (s : MantissaScale) :=
  finish_arithmetic_result_with
    (fun n m e => normalize_arithmetic_parts t n m e
                    (mantissa_range_min s) (mantissa_range_max s) s)
    n m e s.

(** ** Arithmetic *)

(** One digit of the shrinking operand goes to the guard. *)
Definition drop_digit (g : ArithmeticGuard) (m e : Z)
    : outcome NumberArithmeticError (ArithmeticGuard * Z * Z) :=
  e' <- checked I32 Overflow (e + 1);;
  Ok (push g (cast U8 (m mod 10)), m / 10, e').

(** The [adjust] closure of [try_add_assign]: aligns the exponents. *)
Definition adjust (s : MantissaScale) (upper_limit : Z) (g : ArithmeticGuard)
    (expand_m expand_e shrink_m shrink_e : Z)
    : outcome NumberArithmeticError (ArithmeticGuard * Z * Z * Z * Z) :=
  let fuel := S (Z.to_nat (expand_e - shrink_e)) in
  '(g, xm, xe, sm, se) <-
    (if cusp_rounding_330_enabled s then
       '(g, sm, se) <- while fuel
           (fun '(g, sm, se) => (se <? expand_e) && (sm mod 10 =? 0))
           (fun '(g, sm, se) => drop_digit g sm se)
           (g, shrink_m, shrink_e);;
       '(xm, xe) <- while fuel
           (fun '(xm, xe) => (se <? xe) && (xe >? NUMBER_MIN_EXPONENT)
                             && (xm <? upper_limit))
           (fun '(xm, xe) =>
              xm' <- checked U128 Overflow (xm * 10);;
              xe' <- checked I32 Overflow (xe - 1);;
              Ok (xm', xe'))
           (expand_m, expand_e);;
       Ok (g, xm, xe, sm, se)
     else Ok (g, expand_m, expand_e, shrink_m, shrink_e));;
  '(g, sm, se) <- while fuel
      (fun '(g, sm, se) => se <? xe)
      (fun '(g, sm, se) => drop_digit g sm se)
      (g, sm, se);;
  Ok (g, xm, xe, sm, se).

(** Fuel of the loops of a subtraction that bring back guard digits: sixteen
    digits at most are popped before the mantissa only grows. *)
Definition pop_fuel : nat := 100.

Definition try_add (t : tls) (self other : NumberParts)
    : outcome NumberArithmeticError NumberParts :=
  if number_eqb other zero then Ok self else
  if number_eqb self zero then Ok other else
  if number_eqb self (neg other) then Ok zero else
  let s := get_mantissa_scale t in
  let min_mantissa := mantissa_range_min s in
  let max_mantissa := mantissa_range_max s in
  let xn := negative self in
  let yn := negative other in
  let limit := rep_limit s in
  let upper_limit := min_mantissa * 1000 in
  '(g, xm, xe, ym, ye) <-
    (if exponent self <? exponent other then
       let g := if xn then set_negative default_guard else default_guard in
       '(g, ym, ye, xm, xe) <- adjust s upper_limit g
           (mantissa other) (exponent other) (mantissa self) (exponent self);;
       Ok (g, xm, xe, ym, ye)
     else if exponent self >? exponent other then
       let g := if yn then set_negative default_guard else default_guard in
       adjust s upper_limit g
         (mantissa self) (exponent self) (mantissa other) (exponent other)
     else
       let g := if cusp_rounding_330_enabled s
                   && (((mantissa self <? mantissa other) && xn)
                       || ((mantissa other <? mantissa self) && yn))
                then set_negative default_guard else default_guard in
       Ok (g, mantissa self, exponent self, mantissa other, exponent other));;
  '(g, r) <-
    (if Bool.eqb xn yn then
       xm <- checked U128 Overflow (xm + ym);;
       if negb (cusp_rounding_330_enabled s) then
         '(g, xm, xe) <- (if (xm >? max_mantissa) || (xm >? limit)
                          then drop_digit g xm xe else Ok (g, xm, xe));;
         do_round_up t g (mkRounding xn xm xe) min_mantissa max_mantissa s
       else Ok (g, mkRounding xn xm xe)
     else
       let '(xm, xe, xn) := if xm >? ym then (xm - ym, xe, xn) else (ym - xm, ye, yn) in
       '(g, xm, xe) <-
         (if cusp_rounding_330_enabled s then
            while pop_fuel
              (fun '(g, xm, xe) => (xm <? upper_limit) && negb (empty g))
              (fun '(g, xm, xe) =>
                 xm <- checked U128 Overflow (xm * 10);;
                 let '(d, g) := pop g in
                 xe <- checked I32 Overflow (xe - 1);;
                 Ok (g, saturate U128 (xm - d), xe))
              (g, xm, xe)
          else
            while pop_fuel
              (fun '(g, xm, xe) =>
                 (xm <? min_mantissa) && (saturate U128 (xm * 10) <=? limit))
              (fun '(g, xm, xe) =>
                 xm <- plain U128 (xm * 10);;
                 let '(d, g) := pop g in
                 xe <- checked I32 Overflow (xe - 1);;
                 Ok (g, saturate U128 (xm - d), xe))
              (g, xm, xe));;
       r <- do_round_down t g (mkRounding xn xm xe) min_mantissa s;;
       Ok (g, r));;
  normalize_arithmetic_parts_with_dropped t (rn r) (rm r) (re r)
    min_mantissa max_mantissa s (cusp_rounding_330_enabled s && negb (empty g)).

Definition try_sub (t : tls) (self other : NumberParts) := try_add t self (neg other).

Definition try_mul (t : tls) (self other : NumberParts)
    : outcome NumberArithmeticError NumberParts :=
  if number_eqb self zero then Ok self else
  if number_eqb other zero then Ok zero else
  let s := get_mantissa_scale t in
  let min_mantissa := mantissa_range_min s in
  let max_mantissa := mantissa_range_max s in
  zm <- checked U128 Overflow (mantissa self * mantissa other);;
  ze <- checked I32 Overflow (exponent self + exponent other);;
  let zn := xorb (negative self) (negative other) in
  let g := if zn then set_negative default_guard else default_guard in
  '(g, zm, ze) <- while digit_fuel
      (fun '(g, zm, ze) => (zm >? max_mantissa) || (zm >? rep_limit s))
      (fun '(g, zm, ze) => drop_digit g zm ze)
      (g, zm, ze);;
  '(_, r) <- do_round_up t g (mkRounding zn zm ze) min_mantissa max_mantissa s;;
  finish_arithmetic_result t (rn r) (rm r) (re r) s.

Definition FACTOR_EXPONENT : Z := 17.
Definition CORRECTION_EXPONENT : Z := 5.

Definition try_div (t : tls) (self other : NumberParts)
    : outcome NumberArithmeticError NumberParts :=
  if number_eqb other zero then Err DivideByZero else
  if number_eqb self zero then Ok self else
  let s := get_mantissa_scale t in
  let min_mantissa := mantissa_range_min s in
  let max_mantissa := mantissa_range_max s in
  let cusp_fix := cusp_rounding_320_enabled s in
  numerator <- checked U128 Overflow (mantissa self * 100000000000000000);;
  let dm := mantissa other in
  if dm =? 0 then Panic else
  let zm := numerator / dm in
  ze <- checked I32 Overflow (exponent self - exponent other);;
  ze <- checked I32 Overflow (ze - FACTOR_EXPONENT);;
  let zn := xorb (negative self) (negative other) in
  '(zm, ze, dropped) <-
    (if negb (MantissaScale_eqb s Small) then
       let correction_factor := 100000 in
       let remainder := numerator mod dm in
       if negb (remainder =? 0) then
         partial_numerator <- plain U128 (remainder * correction_factor);;
         let correction := partial_numerator / dm in
         '(zm, ze) <-
           (if negb (correction =? 0) then
              zm <- checked U128 Overflow (zm * correction_factor);;
              ze <- checked I32 Overflow (ze - CORRECTION_EXPONENT);;
              zm <- checked U128 Overflow (zm + correction);;
              Ok (zm, ze)
            else Ok (zm, ze));;
         Ok (zm, ze, cusp_fix && negb (partial_numerator mod dm =? 0))
       else Ok (zm, ze, false)
     else Ok (zm, ze, false));;
  normalize_arithmetic_parts_with_dropped t zn zm ze min_mantissa max_mantissa s dropped.

Definition try_to_i64 (t : tls) (self : NumberParts) : outcome NumberArithmeticError Z :=
  '(external_mantissa, offset) <- map_err (fun _ => Overflow) (external_parts self);;
  if external_mantissa =? 0 then Ok 0 else
  let g := if negative self then set_negative default_guard else default_guard in
  drops <- (if negative self then checked I64 Overflow (- external_mantissa)
            else Ok external_mantissa);;
  let fuel := S (Z.to_nat (Z.abs offset)) in
  '(g, drops, offset) <- while fuel
      (fun '(g, drops, offset) => offset <? 0)
      (fun '(g, drops, offset) =>
         offset' <- plain I32 (offset + 1);;
         Ok (push g (cast U8 (Z.rem drops 10)), Z.quot drops 10, offset'))
      (g, drops, offset);;
  '(drops, offset) <- while fuel
      (fun '(drops, offset) => offset >? 0)
      (fun '(drops, offset) =>
         if drops >? NUMBER_MAX_REP / 10 then Err Overflow else
         drops' <- plain I64 (drops * 10);;
         offset' <- plain I32 (offset - 1);;
         Ok (drops', offset'))
      (drops, offset);;
  do_round_i64 t g drops.

Definition abs_number (value : NumberParts) : NumberParts :=
  match compare value zero with Lt => neg value | _ => value end.

Definition squelch_number (value limit : NumberParts) : NumberParts :=
  match compare (abs_number value) limit with Lt => zero | _ => value end.

(** [power_impl] halves its [u32] exponent: 32 halvings reach zero. *)
Fixpoint power_loop (fuel : nat) (t : tls) (f : NumberParts) (n : Z) (s : MantissaScale)
    : outcome NumberArithmeticError NumberParts :=
  match fuel with
  | O => OutOfFuel
  | S fuel' =>
      if n =? 0 then Ok (one s) else
      if n =? 1 then Ok f else
      r <- power_loop fuel' t f (n / 2) s;;
      r <- try_mul t r r;;
      if negb (n mod 2 =? 0) then try_mul t r f else Ok r
  end.

Definition power_impl (t : tls) (f : NumberParts) (n : Z) (s : MantissaScale) :=
  power_loop 33 t f n s.

Definition power (t : tls) (f : NumberParts) (n : Z) :=
  power_impl t f n (get_mantissa_scale t).

Fixpoint gcd_loop (fuel : nat) (lhs rhs : Z) : outcome NumberArithmeticError Z :=
  if rhs =? 0 then Ok lhs else
  match fuel with
  | O => OutOfFuel
  | S n => gcd_loop n rhs (lhs mod rhs)
  end.

(** [gcd_u32]; two steps halve the operands, so 65 steps are enough. *)
Definition gcd_u32 (lhs rhs : Z) : outcome NumberArithmeticError Z := gcd_loop 66 lhs rhs.
