(* ===== verification/NumberGuard.v ===== *)
(** * NumberGuard: what the digit guard remembers

    The guard of [number.rs] keeps the last sixteen dropped decimal digits as
    nibbles and one sticky bit.  [guards g k r st] relates it to the number
    that was dropped: the [k] digits of [r], plus something positive and
    smaller than one unit of the last of them when [st].  [push] and [pop]
    preserve the relation, and [round] decides as if it knew [r] exactly. *)

From S2P Require Import Prelude Number.
From Stdlib Require Import ZArith Lia List Bool.
Import ListNotations.

(** Reads [n] nibbles as decimal digits. *)
Fixpoint decimal (n : nat) (d : Z) : Z :=
  match n with
  | O => 0
  | S n => 10 * decimal n (d / 16) + d mod 16
  end.

(** The [n] low nibbles of [d] are decimal digits and there are no others. *)
Fixpoint digit_nibbles (n : nat) (d : Z) : Prop :=
  match n with
  | O => d = 0
  | S n => 0 <= d mod 16 <= 9 /\ digit_nibbles n (d / 16)
  end.

Definition guards (g : ArithmeticGuard) (k r : Z) (st : bool) : Prop :=
  0 <= k /\ 0 <= r < 10 ^ k /\ digit_nibbles 16 (digits g) /\
  exists low, r * 10 ^ 16 = decimal 16 (digits g) * 10 ^ k + low /\ 0 <= low < 10 ^ k /\
    (has_extra g = true <-> low > 0 \/ st = true).

(** The rounding decision on the exact dropped part: [-1] keeps the mantissa,
    [1] increments it, [0] is a tie. *)
Definition round_exact (md : RoundingMode) (neg : bool) (k r : Z) (st : bool) : Z :=
  let inexact := (r >? 0) || st in
  match md with
  | TowardsZero => -1
  | Downward => if neg && inexact then 1 else -1
  | Upward => if neg then -1 else if inexact then 1 else -1
  | ToNearest =>
      match 2 * r ?= 10 ^ k with
      | Lt => -1
      | Gt => 1
      | Eq => if st then 1 else 0
      end
  end.

(** ** Nibbles *)

Lemma digit_nibbles_nonneg n : forall d, digit_nibbles n d -> 0 <= d < 16 ^ Z.of_nat n.
Proof.
  induction n as [|n IH]; intros d H; cbn [digit_nibbles] in H.
  - subst; simpl; lia.
  - destruct H as [Hm Hd]. apply IH in Hd.
    rewrite Nat2Z.inj_succ, Z.pow_succ_r by lia.
    pose proof (Z.div_mod d 16 ltac:(lia)). nia.
Qed.

Lemma decimal_bound n : forall d, digit_nibbles n d -> 0 <= decimal n d < 10 ^ Z.of_nat n.
Proof.
  induction n as [|n IH]; intros d H; cbn [digit_nibbles decimal] in *.
  - simpl; lia.
  - destruct H as [Hm Hd]. apply IH in Hd.
    rewrite Nat2Z.inj_succ, Z.pow_succ_r by lia. lia.
Qed.

Lemma decimal_zero n : forall d, digit_nibbles n d -> decimal n d = 0 -> d = 0.
Proof.
  induction n as [|n IH]; intros d H E; cbn [digit_nibbles decimal] in *; auto.
  destruct H as [Hm Hd]. pose proof (decimal_bound _ _ Hd).
  assert (d / 16 = 0) by (apply IH; auto; lia).
  pose proof (Z.div_mod d 16 ltac:(lia)). lia.
Qed.

Lemma decimal_of_zero n : decimal n 0 = 0.
Proof. induction n; cbn [decimal]; auto. rewrite Z.div_0_l, IHn by lia. reflexivity. Qed.

Lemma digit_nibbles_zero n : digit_nibbles n 0.
Proof. induction n; cbn [digit_nibbles]; auto. split; auto. rewrite Z.mod_0_l; lia. Qed.

Lemma digit_nibbles_weaken n : forall d, digit_nibbles n d -> digit_nibbles (S n) d.
Proof.
  induction n as [|n IH]; intros d H; cbn [digit_nibbles] in *.
  - subst. rewrite Z.mod_0_l, Z.div_0_l by lia. lia.
  - destruct H; auto.
Qed.

(** A nibble put on top of [n] nibbles. *)
Lemma nibble_top n : forall c d, digit_nibbles n d -> 0 <= c <= 9 ->
  digit_nibbles (S n) (c * 16 ^ Z.of_nat n + d) /\
  decimal (S n) (c * 16 ^ Z.of_nat n + d) = c * 10 ^ Z.of_nat n + decimal n d.
Proof.
  induction n as [|n IH]; intros c d H Hc.
  - cbn [digit_nibbles decimal] in *. subst.
    replace (c * 16 ^ Z.of_nat 0 + 0) with c by (simpl; lia).
    rewrite Z.mod_small, Z.div_small by lia. simpl. lia.
  - destruct H as [Hm Hd].
    rewrite Nat2Z.inj_succ, !Z.pow_succ_r by lia.
    destruct (IH c (d / 16) Hd Hc) as [IH1 IH2].
    replace (c * (16 * 16 ^ Z.of_nat n) + d) with (d + (c * 16 ^ Z.of_nat n) * 16) by lia.
    cbn [digit_nibbles decimal] in *.
    rewrite Z_mod_plus_full, Z_div_plus_full by lia.
    replace (d / 16 + c * 16 ^ Z.of_nat n) with (c * 16 ^ Z.of_nat n + d / 16) by lia.
    split; [tauto|]. lia.
Qed.

(** Dropping the lowest nibble. *)
Lemma nibble_shift n d : digit_nibbles (S n) d ->
  digit_nibbles n (d / 16) /\ decimal n (d / 16) = decimal (S n) d / 10 /\
  d mod 16 = decimal (S n) d mod 10.
Proof.
  intros [Hm Hd]. split; auto. cbn [decimal].
  replace (10 * decimal n (d / 16) + d mod 16) with (d mod 16 + decimal n (d / 16) * 10) by lia.
  rewrite Z_div_plus_full, Z_mod_plus_full by lia.
  rewrite (Z.div_small (d mod 16)), (Z.mod_small (d mod 16) 10) by lia. lia.
Qed.

(** Splitting off the top nibble. *)
Lemma nibble_split n : forall d, digit_nibbles (S n) d ->
  exists c d', d = c * 16 ^ Z.of_nat n + d' /\ 0 <= c <= 9 /\ digit_nibbles n d'.
Proof.
  induction n as [|n IH]; intros d H.
  - cbn [digit_nibbles] in H. exists d, 0. simpl.
    pose proof (Z.div_mod d 16 ltac:(lia)). lia.
  - destruct H as [Hm Hd]. destruct (IH _ Hd) as (c & d' & Hc & Hc' & Hn).
    exists c, (16 * d' + d mod 16).
    rewrite Nat2Z.inj_succ, Z.pow_succ_r by lia. split; [|split; auto].
    + pose proof (Z.div_mod d 16 ltac:(lia)). lia.
    + cbn [digit_nibbles].
      replace (16 * d' + d mod 16) with (d mod 16 + d' * 16) by lia.
      rewrite Z_mod_plus_full, Z_div_plus_full, Z.div_small, Z.mod_mod by lia.
      split; auto. 
Qed.

(** ** The operations on nibbles *)

Lemma push_digits g d : digit_nibbles 16 (digits g) -> 0 <= d <= 9 ->
  digits (push g d) = d * 16 ^ Z.of_nat 15 + digits g / 16.
Proof.
  intros H Hd. pose proof (digit_nibbles_nonneg _ _ H) as Hb. unfold push; cbn [digits].
  change 15 with (2 ^ 4 - 1). rewrite land_low, Z.mod_small by lia.
  rewrite Z.shiftl_mul_pow2, Z.shiftr_div_pow2 by lia.
  rewrite cast_id by (cbn; lia).
  change (16 ^ Z.of_nat 16) with (2 ^ 60 * 16) in Hb.
  rewrite lor_add_high; [|lia|].
  - change (16 ^ Z.of_nat 15) with (2 ^ 60). change (2 ^ 4) with 16. lia.
  - change (2 ^ 4) with 16. split; [apply Z.div_pos; lia|apply Z.div_lt_upper_bound; lia].
Qed.

Lemma push_has_extra g d :
  has_extra (push g d) = has_extra g || negb (digits g mod 16 =? 0).
Proof. unfold push; cbn [has_extra]. change 15 with (2 ^ 4 - 1). now rewrite land_low by lia. Qed.

Lemma guards_default : guards default_guard 0 0 false.
Proof.
  split; [lia|]. split; [simpl; lia|]. split; [apply digit_nibbles_zero|].
  exists 0. cbn [digits default_guard]. rewrite decimal_of_zero.
  split; [lia|]. split; [simpl; lia|]. simpl. split; [discriminate|intros [?|?]; [lia|discriminate]].
Qed.

Lemma guards_negative g k r st : guards g k r st -> guards (set_negative g) k r st.
Proof. intros H; exact H. Qed.

Lemma guards_sticky g k r n : guards g k r false -> guards (mkGuard (digits g) true n) k r true.
Proof.
  intros (Hk & Hr & Hn & low & Hl & Hlo & _).
  refine (conj Hk (conj Hr (conj Hn (ex_intro _ low (conj Hl (conj Hlo _)))))).
  cbn; tauto.
Qed.

(** A push adds a leading digit to the dropped part. *)
Lemma guards_push g k r st d : guards g k r st -> 0 <= d <= 9 ->
  guards (push g d) (k + 1) (d * 10 ^ k + r) st.
Proof.
  intros (Hk & Hr & Hn & low & Hl & Hlo & Hx) Hd.
  pose proof (pow10_pos k Hk) as Hp.
  destruct (nibble_shift 15 _ Hn) as (Hn' & Hdiv & Hmod).
  destruct (nibble_top 15 d _ Hn' Hd) as (Hn'' & Hdec).
  pose proof (Z.div_mod (decimal 16 (digits g)) 10 ltac:(lia)) as HT.
  pose proof (Z.mod_pos_bound (decimal 16 (digits g)) 10 ltac:(lia)) as HT'.
  split; [lia|]. rewrite pow10_succ by lia. split; [nia|].
  rewrite push_digits, push_has_extra, Hdec, Hmod by auto. split; [exact Hn''|].
  rewrite Hdiv. set (T := decimal 16 (digits g)) in *.
  exists (T mod 10 * 10 ^ k + low).
  split; [|split; [nia|]].
  - change (Z.of_nat 15) with 15.
    change (10 ^ 16) with (10 * 10 ^ 15) in *. nia.
  - rewrite orb_true_iff, Hx, negb_true_iff, Z.eqb_neq.
    assert (T mod 10 * 10 ^ k > 0 <-> T mod 10 <> 0) by nia.
    split; intros; [|destruct (Z.eq_dec (T mod 10) 0)]; try nia; intuition nia.
Qed.

Lemma guards_nonempty g k r st : guards g k r st ->
  empty g = negb ((r >? 0) || st).
Proof.
  intros (Hk & Hr & Hn & low & Hl & Hlo & Hx). pose proof (pow10_pos k Hk) as Hp.
  pose proof (decimal_bound _ _ Hn) as Hb. unfold empty.
  destruct (digits g =? 0) eqn:E; bool_prop.
  - rewrite E, decimal_of_zero in Hl. simpl.
    f_equal. destruct (has_extra g), st; rewrite Z.gtb_ltb; destruct (0 <? r) eqn:Er;
      bool_prop; simpl; auto; exfalso; intuition lia.
  - assert (decimal 16 (digits g) <> 0) by (intros Hc; apply E; eapply decimal_zero; eauto).
    rewrite Z.gtb_ltb. destruct (0 <? r) eqn:Er; bool_prop; auto. nia.
Qed.

(** A pop returns the leading digit and leaves the rest; the sixteen nibbles
    then hold one digit less, which only the sticky bit may know about. *)
Lemma pop_digit g k r st : guards g k r st -> 1 <= k ->
  let '(d, g') := pop g in
  0 <= d <= 9 /\ r = d * 10 ^ (k - 1) + r mod 10 ^ (k - 1) /\
  empty g' = negb ((r mod 10 ^ (k - 1) >? 0) || st).
Proof.
  intros (Hk & Hr & Hn & low & Hl & Hlo & Hx) Hk1.
  pose proof (pow10_pos (k - 1) ltac:(lia)) as Hp.
  assert (10 ^ k = 10 * 10 ^ (k - 1)) as Hpk
    by (rewrite <- pow10_succ by lia; f_equal; lia).
  destruct (nibble_split 15 _ Hn) as (c & d' & Hc & Hc9 & Hn').
  pose proof (digit_nibbles_nonneg _ _ Hn') as Hd'.
  pose proof (decimal_bound _ _ Hn') as Hb'.
  destruct (nibble_top 15 c d' Hn' Hc9) as [_ Hdec]. rewrite <- Hc in Hdec.
  unfold pop. change 0xF000000000000000 with ((2 ^ 4 - 1) * 2 ^ 60).
  change (16 ^ Z.of_nat 15) with (2 ^ 60) in *. change (10 ^ Z.of_nat 15) with (10 ^ 15) in *.
  assert (Z.shiftr (Z.land (digits g) ((2 ^ 4 - 1) * 2 ^ 60)) 60 = c) as ->.
  { rewrite Z.shiftr_land, !Z.shiftr_div_pow2, Z.div_mul, land_low by lia.
    rewrite Hc, Z.div_add_l, (Z.div_small d'), Z.add_0_r by lia. apply Z.mod_small; lia. }
  rewrite cast_id by (cbn; lia). cbn [fst snd].
  assert (cast U64 (Z.shiftl (digits g) 4) = d' * 16) as Hsh.
  { rewrite Z.shiftl_mul_pow2 by lia. unfold cast. cbn [min_of max_of].
    rewrite Hc. replace ((c * 2 ^ 60 + d') * 2 ^ 4 - 0) with (d' * 16 + c * 2 ^ 64) by lia.
    replace (2 ^ 64 - 1 - 0 + 1) with (2 ^ 64) by lia.
    rewrite Z_mod_plus_full, Z.mod_small; lia. }
  assert (r / 10 ^ (k - 1) = c) as Hrc.
  { symmetry. apply Z.div_unique with (r - c * 10 ^ (k - 1)); [|lia]. left.
    change (10 ^ 16) with (10 * 10 ^ 15) in Hl. nia. }
  pose proof (Z.div_mod r (10 ^ (k - 1)) ltac:(lia)) as Hrd.
  pose proof (Z.mod_pos_bound r (10 ^ (k - 1)) Hp) as Hrm. rewrite Hrc in Hrd.
  split; [lia|]. split; [lia|].
  unfold empty; cbn [digits has_extra]. rewrite Hsh.
  set (q := r mod 10 ^ (k - 1)) in *.
  assert (q * 10 ^ 16 = decimal 15 d' * 10 ^ k + low) as Hq
    by (change (10 ^ 16) with (10 * 10 ^ 15) in *; nia).
  destruct (d' * 16 =? 0) eqn:E; bool_prop.
  - assert (d' = 0) by lia. subst d'. rewrite decimal_of_zero in Hq. simpl.
    f_equal. destruct (has_extra g), st; rewrite Z.gtb_ltb; destruct (0 <? q) eqn:Er;
      bool_prop; simpl; auto; exfalso; intuition lia.
  - assert (decimal 15 d' <> 0) by (intros Hz; apply decimal_zero in Hz; auto; lia).
    rewrite Z.gtb_ltb. destruct (0 <? q) eqn:Er; bool_prop; auto. nia.
Qed.

Lemma nibbles_half d : digit_nibbles 16 d ->
  (d ?= 0x5000000000000000) = (decimal 16 d ?= 5 * 10 ^ 15).
Proof.
  intros Hn. destruct (nibble_split 15 _ Hn) as (c & d' & Hc & Hc9 & Hn').
  pose proof (digit_nibbles_nonneg _ _ Hn') as Hd'. pose proof (decimal_bound _ _ Hn') as Hb'.
  destruct (nibble_top 15 c d' Hn' Hc9) as [_ Hdec]. rewrite <- Hc in Hdec.
  change 0x5000000000000000 with (5 * 2 ^ 60).
  change (16 ^ Z.of_nat 15) with (2 ^ 60) in *. change (10 ^ Z.of_nat 15) with (10 ^ 15) in *.
  assert (decimal 15 d' = 0 <-> d' = 0) as Hz.
  { split; intros; [now apply (decimal_zero 15)|subst; apply decimal_of_zero]. }
  destruct (Z.compare_spec d (5 * 2 ^ 60)), (Z.compare_spec (decimal 16 d) (5 * 10 ^ 15));
    auto; exfalso; nia.
Qed.

(** The nearest-mode decision of [round] on the exact remainder. *)
Lemma guards_compare_half g k r st : guards g k r st ->
  (2 * r ?= 10 ^ k) =
    match digits g ?= 0x5000000000000000 with
    | Eq => if has_extra g && negb st then Gt else (2 * r ?= 10 ^ k)
    | c => c
    end.
Proof.
  intros (Hk & Hr & Hn & low & Hl & Hlo & Hx). pose proof (pow10_pos k Hk) as Hp.
  rewrite nibbles_half by auto. set (T := decimal 16 (digits g)) in *.
  change (10 ^ 16) with (2 * (5 * 10 ^ 15)) in Hl.
  destruct (Z.compare_spec T (5 * 10 ^ 15)).
  - destruct (has_extra g && negb st) eqn:E; auto.
    apply andb_true_iff in E. destruct E as [E1 E2]. apply Hx in E1.
    destruct st; [discriminate|]. destruct E1; [|discriminate].
    apply Z.compare_gt_iff. nia.
  - apply Z.compare_lt_iff. nia.
  - apply Z.compare_gt_iff. nia.
Qed.

(** [round] decides as the exact rule does: the sixteen nibbles and the sticky
    bit lose nothing that the decision depends on. *)
Lemma round_guards t g k r st : guards g k r st ->
  round t g = round_exact (mode_cell t) (g_negative g) k r st.
Proof.
  intros H. pose proof (guards_nonempty _ _ _ _ H) as He.
  pose proof (guards_compare_half _ _ _ _ H) as Hc.
  assert ((digits g >? 0) || has_extra g = (r >? 0) || st) as Hi.
  { apply negb_sym in He. rewrite He. unfold empty.
    destruct H as (_ & _ & Hn & _). apply digit_nibbles_nonneg in Hn.
    rewrite Z.gtb_ltb. destruct (Z.eqb_spec (digits g) 0) as [->|].
    - now destruct (has_extra g).
    - destruct (Z.ltb_spec 0 (digits g)); auto; lia. }
  unfold round, round_exact, get_rounding_mode. cbv zeta. rewrite Hi.
  destruct (mode_cell t); auto.
  destruct H as (Hk & Hr & Hn & low & Hl & Hlo & Hx). pose proof (pow10_pos k Hk) as Hp.
  unfold Z.gtb, Z.ltb. destruct (digits g ?= 0x5000000000000000) eqn:E; rewrite Hc; auto.
  rewrite nibbles_half in E by auto. apply Z.compare_eq in E.
  change (10 ^ 16) with (2 * (5 * 10 ^ 15)) in Hl.
  destruct (has_extra g) eqn:Ex, st; cbn [andb negb]; auto.
  - assert (2 * r >= 10 ^ k) by nia.
    destruct (Z.compare_spec (2 * r) (10 ^ k)); auto; lia.
  - exfalso. assert (false = true) by (apply Hx; auto). discriminate.
  - assert (low = 0) by (destruct (Z.eq_dec low 0); auto; exfalso;
      assert (false = true) by (apply Hx; lia); discriminate).
    destruct (Z.compare_spec (2 * r) (10 ^ k)); auto; nia.
Qed.
