(* ===== verification/NumberRound.v ===== *)
(** * NumberRound: correct rounding on the default scale

    On [Large330] a mantissa above [NUMBER_MAX_REP] must be a multiple of ten,
    so the representable numbers have steps of one, a step of three at the
    cusp, and steps of ten.  This file shows that [do_round_up] and
    [normalize_arithmetic_parts_with_dropped] return, for every rounding mode,
    the representable number that the mode prescribes for the exact value. *)

From S2P Require Import Prelude Number NumberGuard.
From Stdlib Require Import ZArith Lia List Bool.
Import ListNotations.

(** The direction in which a mode moves a magnitude. *)
Inductive direction : Type := Toward | Away | Nearest.

Definition direction_of (md : RoundingMode) (neg : bool) : direction :=
  match md with
  | ToNearest => Nearest
  | TowardsZero => Toward
  | Downward => if neg then Away else Toward
  | Upward => if neg then Toward else Away
  end.

(** May a magnitude at distance [u] (and a bit more when [st]) above a
    representable number be rounded up, or down, over a gap of [w]? *)
Definition may_round_up (d : direction) (u w : Z) (st : bool) : Prop :=
  match d with
  | Toward => False
  | Away => u > 0 \/ st = true
  | Nearest => w <= 2 * u
  end.

Definition may_round_down (d : direction) (u w : Z) (st : bool) : Prop :=
  match d with
  | Toward => True
  | Away => u = 0 /\ st = false
  | Nearest => 2 * u < w \/ (2 * u = w /\ st = false)
  end.

Lemma round_exact_cases md neg k r st : 0 <= k -> 0 <= r < 10 ^ k ->
  let d := direction_of md neg in
  (round_exact md neg k r st = 1 /\ may_round_up d r (10 ^ k) st) \/
  (round_exact md neg k r st = 0 /\ d = Nearest /\ 2 * r = 10 ^ k /\ st = false) \/
  (round_exact md neg k r st = -1 /\ may_round_down d r (10 ^ k) st /\
   (d = Nearest -> 2 * r < 10 ^ k)).
Proof.
  intros Hk Hr d. subst d.
  assert ((r >? 0) || st = true -> r > 0 \/ st = true) as H1
    by (rewrite orb_true_iff, Z.gtb_lt; intuition lia).
  assert ((r >? 0) || st = false -> r = 0 /\ st = false) as H0
    by (rewrite orb_false_iff, Z.gtb_ltb, Z.ltb_ge; intuition lia).
  unfold round_exact. destruct md, neg; cbn [direction_of may_round_up may_round_down andb]; auto;
    try (destruct (Z.compare_spec (2 * r) (10 ^ k)); destruct st; intuition lia);
    destruct ((r >? 0) || st); intuition discriminate.
Qed.

(** Representable mantissas of [Large330], and the next one. *)
Definition lattice (m : Z) : Prop :=
  MANTISSA_LARGE_MIN <= m <= MANTISSA_LARGE_MAX /\ (m <= NUMBER_MAX_REP \/ m mod 10 = 0).

Definition next_mantissa (m : Z) : Z :=
  if m <? NUMBER_MAX_REP then m + 1
  else if m =? NUMBER_MAX_REP then NUMBER_MAX_REP_UP else m + 10.

(** [position q e k r m e1 u w]: a mantissa [q] with exponent [e] and [k]
    dropped digits [r] lies [u] above the representable [m] of exponent [e1],
    whose gap to the next one is [w], both in units of [10 ^ (e - k)]. *)
Inductive position (q e k r : Z) : Z -> Z -> Z -> Z -> Prop :=
| pos_inside : MANTISSA_LARGE_MIN <= q < NUMBER_MAX_REP -> position q e k r q e r (10 ^ k)
| pos_cusp : NUMBER_MAX_REP <= q < NUMBER_MAX_REP_UP ->
    position q e k r NUMBER_MAX_REP e ((q - NUMBER_MAX_REP) * 10 ^ k + r) (3 * 10 ^ k)
| pos_cusp_up : q = NUMBER_MAX_REP_UP -> position q e k r q e r (10 * 10 ^ k)
| pos_above : q < MANTISSA_LARGE_MIN -> NUMBER_MAX_REP_UP < 10 * q + 9 ->
    position q e k r (10 * q) (e - 1) r (10 ^ k).

Definition in_cusp_range (q : Z) : Prop :=
  MANTISSA_LARGE_MIN <= q <= NUMBER_MAX_REP_UP \/
  (q < MANTISSA_LARGE_MIN /\ NUMBER_MAX_REP_UP < 10 * q + 9).

(** The value of [(m', e')] is [m] at exponent [e]. *)
Definition same_value (m' e' m e : Z) : Prop :=
  (m' = m /\ e' = e) \/ (10 * m' = m /\ e' = e + 1).

Definition rounds_into (d : direction) (m e1 u w : Z) (st : bool) (m' e' : Z) : Prop :=
  lattice m' /\
  ((may_round_down d u w st /\ m' = m /\ e' = e1) \/
   (may_round_up d u w st /\ same_value m' e' (next_mantissa m) e1)).

Ltac number_consts :=
  unfold NUMBER_MAX_REP_UP, NUMBER_MAX_REP, MANTISSA_LARGE_MIN, MANTISSA_LARGE_MAX,
    NUMBER_MIN_EXPONENT, NUMBER_MAX_EXPONENT, NUMBER_ZERO_EXPONENT in *.

(** What rounding may return: an overflow, zero on underflow, or the rounded
    magnitude with its exponent in range. *)
Definition round_result (d : direction) (n : bool) (q e k r : Z) (st : bool)
    (x : rounding) : Prop :=
  (rm x = 0 /\ rn x = false /\
   (e < NUMBER_MIN_EXPONENT \/ (q < MANTISSA_LARGE_MIN /\ e - 1 < NUMBER_MIN_EXPONENT))) \/
  (rn x = n /\ NUMBER_MIN_EXPONENT <= re x <= NUMBER_MAX_EXPONENT /\
   exists m e1 u w, position q e k r m e1 u w /\ rounds_into d m e1 u w st (rm x) (re x)).

(** The final step of [do_round_up] on a mantissa that is in range or one
    digit short of it. *)
Lemma finish_range n m e (Q : rounding -> Prop) (R : NumberArithmeticError -> Prop) g :
  0 < m <= MANTISSA_LARGE_MAX -> -1000000 <= e <= 1000000 ->
  (let m' := if m <? MANTISSA_LARGE_MIN then m * 10 else m in
   let e' := if m <? MANTISSA_LARGE_MIN then e - 1 else e in
   (e' < NUMBER_MIN_EXPONENT -> Q (mkRounding false 0 NUMBER_ZERO_EXPONENT)) /\
   (NUMBER_MIN_EXPONENT <= e' <= NUMBER_MAX_EXPONENT -> Q (mkRounding n m' e')) /\
   (NUMBER_MAX_EXPONENT < e' -> R Overflow)) ->
  yields (r' <- bring_into_range (mkRounding n m e) MANTISSA_LARGE_MIN Large330;;
          if re r' >? NUMBER_MAX_EXPONENT then Err Overflow
          else Ok (g : ArithmeticGuard, r')) (fun '(_, x) => Q x) R.
Proof.
  intros Hm He H. unfold bring_into_range; cbn [rm re rn cusp_rounding_330_enabled andb orb negb].
  assert ((m =? 0) = false) as Hz by lia. rewrite Hz. cbn [negb].
  rewrite andb_true_r. destruct (m <? MANTISSA_LARGE_MIN) eqn:Hlt; cbv zeta in H; bool_prop.
  - rewrite !plain_ok by (cbn; number_consts; lia). cbn [bind].
    assert ((m * 10 =? 0) = false) as -> by lia. rewrite orb_false_r.
    destruct (e - 1 <? NUMBER_MIN_EXPONENT) eqn:Hu; bool_prop; cbn [bind re].
    + assert ((NUMBER_ZERO_EXPONENT >? NUMBER_MAX_EXPONENT) = false) as -> by reflexivity.
      cbn. tauto.
    + destruct (e - 1 >? NUMBER_MAX_EXPONENT) eqn:Ho; bool_prop; cbn; intuition lia.
  - cbn [bind]. assert ((m =? 0) = false) as -> by lia. rewrite orb_false_r.
    destruct (e <? NUMBER_MIN_EXPONENT) eqn:Hu; bool_prop; cbn [bind re].
    + assert ((NUMBER_ZERO_EXPONENT >? NUMBER_MAX_EXPONENT) = false) as -> by reflexivity.
      cbn. tauto.
    + destruct (e >? NUMBER_MAX_EXPONENT) eqn:Ho; bool_prop; cbn; intuition lia.
Qed.

Lemma lattice_cusp : lattice NUMBER_MAX_REP /\ lattice NUMBER_MAX_REP_UP.
Proof. repeat split; try (vm_compute; congruence); [now left|now right]. Qed.

Lemma next_mantissa_above m : NUMBER_MAX_REP < m -> next_mantissa m = m + 10.
Proof.
  intros H. unfold next_mantissa.
  destruct (Z.ltb_spec m NUMBER_MAX_REP), (Z.eqb_spec m NUMBER_MAX_REP); lia.
Qed.

(** When [do_round_up] reports an overflow. *)
Definition round_overflow (q e r : Z) (st : bool) : Prop :=
  NUMBER_MAX_EXPONENT < (if q + 1 <? MANTISSA_LARGE_MIN then e - 1 else e) /\
  (q + 1 = MANTISSA_LARGE_MIN -> NUMBER_MAX_EXPONENT < e - 1 \/ r > 0 \/ st = true).

(** The guarded cases of [do_round_up], one per position. *)
Section RoundUp.
Context (t : tls) (g : ArithmeticGuard) (n : bool) (q e k r : Z) (st : bool).
Hypothesis Hg : guards g k r st.
Hypothesis Hn : g_negative g = n.
Hypothesis He : -1000000 <= e <= 999999.

Let d := direction_of (mode_cell t) n.
Let result := round_result d n q e k r st.
Let spec (fuel : nat) : Prop :=
  yields (do_round_up_loop fuel t g (mkRounding n q e) MANTISSA_LARGE_MIN MANTISSA_LARGE_MAX
            Large330) (fun '(_, x) => result x)
    (fun _ => round_overflow q e r st).

Lemma guards_basic : 0 <= k /\ 0 <= r < 10 ^ k.
Proof. destruct Hg as (? & ? & _); auto. Qed.

(** Reading the decision of the guard after a further digit. *)
Lemma round_pushed c : 0 <= c <= 9 ->
  round t (push g c) = round_exact (mode_cell t) n (k + 1) (c * 10 ^ k + r) st.
Proof. intros Hc. rewrite <- Hn. apply (round_guards t (push g c)), guards_push; auto. Qed.

Lemma rounds_into_down m e1 u w : position q e k r m e1 u w -> lattice m ->
  may_round_down d u w st -> NUMBER_MIN_EXPONENT <= e1 <= NUMBER_MAX_EXPONENT ->
  result (mkRounding n m e1).
Proof.
  intros Hp Hl Hm Hr. right. split; [reflexivity|]. split; [exact Hr|].
  exists m, e1, u, w. split; [exact Hp|]. split; auto.
Qed.

Lemma rounds_into_up m e1 u w m' e' : position q e k r m e1 u w -> lattice m' ->
  may_round_up d u w st -> same_value m' e' (next_mantissa m) e1 ->
  NUMBER_MIN_EXPONENT <= e' <= NUMBER_MAX_EXPONENT -> result (mkRounding n m' e').
Proof.
  intros Hp Hl Hm Hs Hr. right. split; [reflexivity|]. split; [exact Hr|].
  exists m, e1, u, w. split; [exact Hp|]. split; auto.
Qed.

Lemma underflow_result :
  e < NUMBER_MIN_EXPONENT \/ (q < MANTISSA_LARGE_MIN /\ e - 1 < NUMBER_MIN_EXPONENT) ->
  result (mkRounding false 0 NUMBER_ZERO_EXPONENT).
Proof. left. cbn; auto. Qed.

Hint Resolve rounds_into_down rounds_into_up underflow_result : core.

Ltac step_round_up fuel :=
  destruct fuel; cbn [do_round_up_loop rm re rn cusp_rounding_320_enabled
    cusp_rounding_330_enabled andb bind].

(** Closes a rounding decision from the cases of [round_exact]. *)
Ltac decide_round Hcs Hif :=
  destruct Hcs as [[Hc Hd]|[(Hc & Hd & Ht & Hs)|(Hc & Hd & _)]]; rewrite Hc in Hif;
  try discriminate; auto; rewrite Hd; cbn [may_round_up may_round_down]; intuition lia.

Lemma round_up_inside fuel : MANTISSA_LARGE_MIN <= q < NUMBER_MAX_REP -> spec fuel.
Proof.
  intros Hq. pose proof guards_basic as [Hk Hr]. unfold spec.
  pose proof (round_guards t _ _ _ _ Hg) as Hrd. rewrite Hn in Hrd.
  pose proof (round_exact_cases (mode_cell t) n k r st Hk Hr) as Hcs. fold d in Hcs.
  assert ((q >=? NUMBER_MAX_REP) = false) as E1 by lia.
  assert ((q <? MANTISSA_LARGE_MAX) && (q <? NUMBER_MAX_REP) = true) as E2
    by (number_consts; lia).
  assert ((q >? NUMBER_MAX_REP) = false) as E3 by lia.
  assert ((q <? MANTISSA_LARGE_MIN) = false) as E4 by lia.
  assert ((q + 1 <? MANTISSA_LARGE_MIN) = false) as E5 by lia.
  assert (lattice q /\ lattice (q + 1)) as [Hl Hl1] by (unfold lattice; number_consts; lia).
  assert (next_mantissa q = q + 1) as Hnx by (unfold next_mantissa; number_consts; case_if; lia).
  assert (position q e k r q e r (10 ^ k)) as Hp by (constructor; auto).
  step_round_up fuel; rewrite E1; cbn [bind andb]; rewrite E2, E3; cbn [andb]; rewrite Hrd.
  all: case_if; apply finish_range; try (number_consts; lia); rewrite ?E4, ?E5;
    cbv zeta; (split; [intros; apply underflow_result; lia
    |split; [|intros; unfold round_overflow; rewrite ?E5; lia]]); intros Hx;
    [eapply rounds_into_up | eapply rounds_into_down]; eauto; try (left; lia);
    decide_round Hcs Hif.
Qed.

Lemma round_up_above fuel :
  q < MANTISSA_LARGE_MIN -> NUMBER_MAX_REP_UP < 10 * q + 9 -> spec fuel.
Proof.
  intros Hq Hq'. pose proof guards_basic as [Hk Hr]. unfold spec.
  pose proof (round_guards t _ _ _ _ Hg) as Hrd. rewrite Hn in Hrd.
  pose proof (round_exact_cases (mode_cell t) n k r st Hk Hr) as Hcs. fold d in Hcs.
  assert ((q >=? NUMBER_MAX_REP) = false) as E1 by (number_consts; lia).
  assert ((q <? MANTISSA_LARGE_MAX) && (q <? NUMBER_MAX_REP) = true) as E2
    by (number_consts; lia).
  assert ((q >? NUMBER_MAX_REP) = false) as E3 by (number_consts; lia).
  assert (lattice (10 * q)) as Hl
    by (unfold lattice; number_consts; split; [lia|right; rewrite Z.mul_comm; apply Z.mod_mul; lia]).
  pose proof (next_mantissa_above (10 * q) ltac:(number_consts; lia)) as Hnx.
  assert (position q e k r (10 * q) (e - 1) r (10 ^ k)) as Hp by (constructor 4; auto).
  assert ((q <? MANTISSA_LARGE_MIN) = true) as E4 by lia.
  assert (lattice (q * 10 + 10) \/ q + 1 = MANTISSA_LARGE_MIN) as Hl1.
  { unfold lattice. number_consts.
    destruct (Z.eq_dec (q + 1) 1000000000000000000); [now right|left].
    split; [lia|right]. replace (q * 10 + 10) with ((q + 1) * 10) by lia. apply Z.mod_mul; lia. }
  assert (may_round_up d r (10 ^ k) st ->
    (if q + 1 <? MANTISSA_LARGE_MIN then e - 1 else e) >= NUMBER_MIN_EXPONENT ->
    (if q + 1 <? MANTISSA_LARGE_MIN then e - 1 else e) <= NUMBER_MAX_EXPONENT ->
    result (mkRounding n (if q + 1 <? MANTISSA_LARGE_MIN then (q + 1) * 10 else q + 1)
              (if q + 1 <? MANTISSA_LARGE_MIN then e - 1 else e))) as Hup.
  { intros Hm Hx1 Hx2. destruct (Z.ltb_spec (q + 1) MANTISSA_LARGE_MIN).
    - eapply rounds_into_up; eauto; [|rewrite Hnx; unfold same_value; lia|lia].
      replace ((q + 1) * 10) with (q * 10 + 10) by lia. destruct Hl1; auto; lia.
    - eapply rounds_into_up; eauto; [|rewrite Hnx; unfold same_value; lia|lia].
      unfold lattice. number_consts. lia. }
  assert (may_round_down d r (10 ^ k) st -> e - 1 >= NUMBER_MIN_EXPONENT ->
    e - 1 <= NUMBER_MAX_EXPONENT -> result (mkRounding n (q * 10) (e - 1))) as Hdn.
  { intros. rewrite (Z.mul_comm q 10). eapply rounds_into_down; eauto. lia. }
  assert (NUMBER_MAX_EXPONENT < (if q + 1 <? MANTISSA_LARGE_MIN then e - 1 else e) ->
    may_round_up d r (10 ^ k) st -> round_overflow q e r st) as Hov.
  { intros Ho Hor. split; [auto|]. intros _. right. pose proof (pow10_pos k Hk). clearbody d.
    destruct d; cbn [may_round_up] in Hor; intuition lia. }
  assert (NUMBER_MAX_EXPONENT < e - 1 -> round_overflow q e r st) as Hov'
    by (split; [destruct (q + 1 <? MANTISSA_LARGE_MIN); lia|auto]).
  step_round_up fuel; rewrite E1; cbn [bind andb]; rewrite E2, E3; cbn [andb]; rewrite Hrd.
  all: case_if; apply finish_range; try (number_consts; lia); rewrite ?E4; cbv zeta;
    (split; [intros; apply underflow_result; destruct (q + 1 <? MANTISSA_LARGE_MIN); lia
            |split; intros]);
    [apply Hup; try lia | apply Hov; [auto|]
    |apply Hdn; try lia | apply Hov'; lia]; decide_round Hcs Hif.
Qed.

(** At the cusp the guard receives one more digit, the position between
    [NUMBER_MAX_REP] and [NUMBER_MAX_REP_UP] in tenths. *)
Definition cusp_mantissa : Z :=
  if q mod 10 <? 9 then
    if (round t g =? 1) || ((round t g =? 0) && (q =? NUMBER_MAX_REP + 1)) then q + 1 else q
  else q.

Definition cusp_digit : Z := cusp_mantissa - NUMBER_MAX_REP.

Let u := (q - NUMBER_MAX_REP) * 10 ^ k + r.
Let w := 3 * 10 ^ k.

Lemma cusp_decision : NUMBER_MAX_REP <= q < NUMBER_MAX_REP_UP ->
  0 <= cusp_digit <= 2 /\
  ((round t (push g (3 * cusp_digit)) = 1 /\ 0 < cusp_digit /\ may_round_up d u w st) \/
   (round t (push g (3 * cusp_digit)) = -1 /\ may_round_down d u w st)).
Proof.
  intros Hq. pose proof guards_basic as [Hk Hr]. pose proof (pow10_pos k Hk) as Hkp.
  pose proof (round_guards t _ _ _ _ Hg) as Hrd. rewrite Hn in Hrd.
  pose proof (round_exact_cases (mode_cell t) n k r st Hk Hr) as Hcs. fold d in Hcs.
  assert (forall c, 0 <= c <= 2 ->
    (round t (push g (3 * c)) = 1 /\
     may_round_up d (3 * c * 10 ^ k + r) (10 * 10 ^ k) st) \/
    (round t (push g (3 * c)) = -1 /\
     may_round_down d (3 * c * 10 ^ k + r) (10 * 10 ^ k) st)) as Hpc.
  { intros c Hc. rewrite round_pushed by lia.
    pose proof (pow10_succ k Hk) as Hks.
    assert (0 <= 3 * c * 10 ^ k + r < 10 ^ (k + 1)) as Hb by (rewrite Hks; nia).
    pose proof (round_exact_cases (mode_cell t) n (k + 1) _ st ltac:(lia) Hb) as H.
    fold d in H. rewrite Hks in H. destruct H as [H|[(_ & _ & H & _)|(H & H' & _)]]; auto. exfalso.
    assert (c = 0 \/ c = 1 \/ c = 2) as [-> | [-> | ->]] by lia; lia. }
  assert (forall c, 0 <= c <= 2 -> c = q - NUMBER_MAX_REP \/ c = q - NUMBER_MAX_REP + 1 ->
    (d = Nearest -> c = 0 -> 2 * r < 3 * 10 ^ k) ->
    (d = Nearest -> c = 1 -> 2 * ((q - NUMBER_MAX_REP) * 10 ^ k + r) < 3 * 10 ^ k) ->
    (d = Nearest -> c = 2 -> 3 * 10 ^ k <= 2 * ((q - NUMBER_MAX_REP) * 10 ^ k + r)) ->
    (d = Away -> c = 0 -> r = 0 /\ st = false) ->
    (d = Away -> q = NUMBER_MAX_REP -> c = 1 -> r > 0 \/ st = true) ->
    0 <= c <= 2 /\
    ((round t (push g (3 * c)) = 1 /\ 0 < c /\
      may_round_up d ((q - NUMBER_MAX_REP) * 10 ^ k + r) (3 * 10 ^ k) st) \/
     (round t (push g (3 * c)) = -1 /\
      may_round_down d ((q - NUMBER_MAX_REP) * 10 ^ k + r) (3 * 10 ^ k) st))) as Hc.
  { intros c Hc Hcq N0 N1 N2 A0 A1. split; [auto|]. specialize (Hpc c Hc). clear Hcs. clearbody d.
    assert (q = NUMBER_MAX_REP \/ NUMBER_MAX_REP < q) as Hqm by lia.
    assert (c = 0 \/ c = 1 \/ c = 2) as [-> | [-> | ->]] by lia; clear Hc;
      destruct Hpc as [[-> Hp]|[-> Hp]]; destruct d; cbn [may_round_up may_round_down] in *;
      intuition (try congruence; try nia). }
  assert (q = NUMBER_MAX_REP \/ q = NUMBER_MAX_REP + 1 \/ q = NUMBER_MAX_REP + 2) as Hq3
    by (number_consts; lia).
  unfold cusp_digit, cusp_mantissa. rewrite Hrd. subst u w. clear Hpc. clearbody d.
  destruct Hq3 as [-> | [-> | ->]].
  - change (NUMBER_MAX_REP mod 10 <? 9) with true.
    change (NUMBER_MAX_REP =? NUMBER_MAX_REP + 1) with false. cbv iota.
    rewrite andb_false_r, orb_false_r.
    destruct Hcs as [[-> H]|[(-> & H & H' & H'')|(-> & H & Hlt)]]; cbn [Z.eqb Pos.eqb]; cbv iota;
      apply Hc; try lia; intros Hd; rewrite Hd in *; cbn [may_round_up may_round_down] in H;
      intuition (try congruence; try lia).
  - change ((NUMBER_MAX_REP + 1) mod 10 <? 9) with true.
    change (NUMBER_MAX_REP + 1 =? NUMBER_MAX_REP + 1) with true. cbv iota.
    rewrite andb_true_r.
    destruct Hcs as [[-> H]|[(-> & H & H' & H'')|(-> & H & Hlt)]]; cbn [Z.eqb Pos.eqb orb]; cbv iota;
      apply Hc; try lia; intros Hd; rewrite Hd in *; cbn [may_round_up may_round_down] in H;
      intuition (try congruence; try lia).
  - change ((NUMBER_MAX_REP + 2) mod 10 <? 9) with false. cbv iota.
    apply Hc; try lia; intros; try lia.
Qed.

Lemma round_up_cusp fuel : NUMBER_MAX_REP <= q < NUMBER_MAX_REP_UP -> spec fuel.
Proof.
  intros Hq. destruct (cusp_decision Hq) as [Hc Hdec]. unfold spec.
  assert ((q >=? NUMBER_MAX_REP) && (q <? NUMBER_MAX_REP_UP) = true) as E1 by lia.
  assert (cusp_mantissa = NUMBER_MAX_REP + cusp_digit) as Hm by (unfold cusp_digit; lia).
  assert (cast U8 ((cusp_mantissa - NUMBER_MAX_REP) * 10 /
            (NUMBER_MAX_REP_UP - NUMBER_MAX_REP)) = 3 * cusp_digit) as Hd3.
  { rewrite Hm. replace (NUMBER_MAX_REP + cusp_digit - NUMBER_MAX_REP) with cusp_digit by lia.
    assert (cusp_digit = 0 \/ cusp_digit = 1 \/ cusp_digit = 2) as [-> | [-> | ->]] by lia;
      reflexivity. }
  pose proof (pos_cusp q e k r Hq) as Hp. fold u w in Hp.
  destruct lattice_cusp as [Hl Hl'].
  assert (forall m, NUMBER_MAX_REP <= m -> (m <? MANTISSA_LARGE_MIN) = false) as Hmin
    by (number_consts; lia).
  pose proof Hmin as Hmin'. pose proof (Hmin (q + 1) ltac:(lia)) as Hminq.
  specialize (Hmin NUMBER_MAX_REP ltac:(number_consts; lia)).
  specialize (Hmin' NUMBER_MAX_REP_UP ltac:(number_consts; lia)).
  assert ((cusp_mantissa <? MANTISSA_LARGE_MAX) && (cusp_mantissa <? NUMBER_MAX_REP) = false)
    as E2 by lia.
  step_round_up fuel; rewrite E1; cbn [bind]; fold cusp_mantissa; rewrite Hd3, E2.
  all: destruct Hdec as [(Hr1 & Hpos & Hup)|[Hr1 Hdn]]; rewrite Hr1;
    cbn [Z.eqb Pos.eqb orb andb]; cbv iota.
  all: try (assert ((cusp_mantissa >? NUMBER_MAX_REP) && (cusp_mantissa <? NUMBER_MAX_REP_UP)
    = true) as -> by (number_consts; lia)).
  2, 4: assert ((if (cusp_mantissa >? NUMBER_MAX_REP) && (cusp_mantissa <? NUMBER_MAX_REP_UP)
    then NUMBER_MAX_REP else cusp_mantissa) = NUMBER_MAX_REP) as Hsel
    by (number_consts; case_if; lia);
    destruct ((cusp_mantissa >? NUMBER_MAX_REP) && (cusp_mantissa <? NUMBER_MAX_REP_UP));
    rewrite ?Hsel.
  all: apply finish_range; try (number_consts; lia); rewrite ?Hmin, ?Hmin'; cbv zeta;
    (split; [intros; apply underflow_result; lia
    |split; [intros|intros; unfold round_overflow; rewrite ?Hminq; number_consts; lia]]);
    first [solve [eapply rounds_into_down; eauto]
          |solve [eapply rounds_into_up; eauto; left; auto]].
Qed.
End RoundUp.

(** [do_round_up] on [Large330] rounds as the mode prescribes. *)
Lemma round_up_330 t g n q e k r st :
  guards g k r st -> g_negative g = n -> -1000000 <= e <= 999998 -> in_cusp_range q ->
  yields (do_round_up t g (mkRounding n q e) MANTISSA_LARGE_MIN MANTISSA_LARGE_MAX Large330)
    (fun '(_, x) => round_result (direction_of (mode_cell t) n) n q e k r st x)
    (fun _ => round_overflow q e r st).
Proof.
  intros Hg Hn He Hq. unfold do_round_up.
  destruct Hq as [Hq|[Hq Hq']]; [|apply round_up_above; auto; lia].
  destruct (Z.lt_ge_cases q NUMBER_MAX_REP); [apply round_up_inside; auto; lia|].
  destruct (Z.lt_ge_cases q NUMBER_MAX_REP_UP); [apply round_up_cusp; auto; lia|].
  assert (q = NUMBER_MAX_REP_UP) as -> by lia. clear Hq H H0.
  pose proof (guards_push g k r st 0 Hg ltac:(lia)) as Hg'. rewrite Z.mul_0_l, Z.add_0_l in Hg'.
  assert (0 <= k /\ 0 <= r < 10 ^ k) as [Hk Hr] by (destruct Hg as (? & ? & _); auto).
  pose proof (round_up_above t (push g 0) n 922337203685477581 (e + 1) (k + 1) r st Hg' Hn
    ltac:(lia) 0 ltac:(number_consts; lia) ltac:(number_consts; lia)) as Hrec.
  cbn [do_round_up_loop rm re rn cusp_rounding_320_enabled cusp_rounding_330_enabled andb].
  change ((NUMBER_MAX_REP_UP >=? NUMBER_MAX_REP) && (NUMBER_MAX_REP_UP <? NUMBER_MAX_REP_UP))
    with false. cbn [bind].
  change ((NUMBER_MAX_REP_UP <? MANTISSA_LARGE_MAX) && (NUMBER_MAX_REP_UP <? NUMBER_MAX_REP))
    with false.
  change ((NUMBER_MAX_REP_UP >? NUMBER_MAX_REP) && (NUMBER_MAX_REP_UP <? NUMBER_MAX_REP_UP))
    with false. cbv iota.
  change (NUMBER_MAX_REP_UP / 10) with 922337203685477581.
  change (cast U8 (NUMBER_MAX_REP_UP mod 10)) with 0.
  change (negb ((922337203685477581 <? MANTISSA_LARGE_MAX)
                && (922337203685477581 <? NUMBER_MAX_REP))) with false.
  cbv iota. case_if.
  - rewrite checked_ok by (cbn; lia). cbn [bind].
    eapply yields_mono; [exact Hrec| |].
    + intros [_ x] [Hz|(Hsn & Hse & m & e1 & u & w & Hp & Hx)]; [left; intuition lia|right].
      split; [auto|]. split; [auto|]. exists NUMBER_MAX_REP_UP, e, r, (10 * 10 ^ k).
      split; [now constructor 3|]. inversion Hp; subst; try (exfalso; number_consts; lia).
      rewrite <- pow10_succ by lia.
      replace (e + 1 - 1) with e in Hx by lia. exact Hx.
    + intros ? [Ho _]. change (922337203685477581 + 1 <? MANTISSA_LARGE_MIN) with true in Ho.
      split; [change (NUMBER_MAX_REP_UP + 1 <? MANTISSA_LARGE_MIN) with false; cbv iota in *; lia
             |number_consts; lia].
  - apply finish_range; [number_consts; lia|lia|].
    change (NUMBER_MAX_REP_UP <? MANTISSA_LARGE_MIN) with false. cbv zeta.
    split; [intros; left; cbn; intuition lia|].
    split; [intros|intros; split; [exact H|number_consts; lia]].
    right. split; [auto|]. split; [auto|]. exists NUMBER_MAX_REP_UP, e, r, (10 * 10 ^ k).
    split; [now constructor 3|]. split; [apply lattice_cusp|]. left. split; [|auto].
    pose proof (round_guards t _ _ _ _ Hg) as Hrd. rewrite Hn in Hrd. rewrite Hrd in Hif.
    destruct (round_exact_cases (mode_cell t) n k r st Hk Hr)
      as [[Hx1 Hx2]|[(Hx1 & Hx2 & Hx3)|(Hx1 & Hx2 & Hx3)]].
    + rewrite Hx1 in Hif. discriminate.
    + rewrite Hx2. cbn [may_round_down]. left. lia.
    + destruct (direction_of (mode_cell t) n); cbn [may_round_down] in *; auto.
      left. specialize (Hx3 eq_refl). lia.
Qed.
