(* ===== verification/NumberArith.v ===== *)
(** * NumberArith: the arithmetic of the default scale is correctly rounded

    [correctly_rounded] says that a result is the representable number its
    rounding mode prescribes, measured against every other representable
    number.  The theorems show it of [try_mul], [try_div] and [try_add] on
    normalised operands under [Large330], the scale a thread starts with. *)

From S2P Require Import Prelude Number NumberGuard NumberRound.
From Stdlib Require Import ZArith Lia List Bool.
Import ListNotations.

(** [x] is the correct rounding, under mode [md] and with sign [neg], of the
    magnitude [N / D * 10 ^ E].  All magnitudes are compared as integers, in
    units of [10 ^ b / D] for any [b] below the exponents involved. *)
Definition correctly_rounded (md : RoundingMode) (neg : bool) (N D E : Z) (x : NumberParts)
    : Prop :=
  negative x = neg /\ is_normalized x Large330 = true /\
  forall y b, is_normalized y Large330 = true -> mantissa y <> 0 ->
    b <= E -> b <= exponent x -> b <= exponent y ->
    let V := N * 10 ^ (E - b) in
    let X := mantissa x * D * 10 ^ (exponent x - b) in
    let Y := mantissa y * D * 10 ^ (exponent y - b) in
    match direction_of md neg with
    | Toward => X <= V /\ (Y <= V -> Y <= X)
    | Away => V <= X /\ (V <= Y -> X <= Y)
    | Nearest => Z.abs (X - V) <= Z.abs (Y - V)
    end.

(** ** The lattice of representable magnitudes *)

Lemma normalized_lattice x : is_normalized x Large330 = true -> mantissa x <> 0 ->
  lattice (mantissa x) /\ NUMBER_MIN_EXPONENT <= exponent x <= NUMBER_MAX_EXPONENT.
Proof.
  unfold is_normalized, lattice. intros H Hz. cbn [mantissa_range_min mantissa_range_max] in H.
  destruct (mantissa x =? 0) eqn:E; bool_prop; [lia|].
  apply orb_true_iff in H2. rewrite Z.leb_le, Z.eqb_eq in H2. lia.
Qed.

Lemma lattice_normalized n m e : lattice m ->
  NUMBER_MIN_EXPONENT <= e <= NUMBER_MAX_EXPONENT ->
  is_normalized (mkNumber n m e) Large330 = true.
Proof.
  intros [Hm Hl] He. unfold is_normalized. cbn [mantissa exponent negative
    mantissa_range_min mantissa_range_max].
  assert ((m =? 0) = false) as -> by (number_consts; lia).
  assert ((m <=? NUMBER_MAX_REP) || (m mod 10 =? 0) = true) as ->
    by (apply orb_true_iff; rewrite Z.leb_le, Z.eqb_eq; auto).
  rewrite !Z.geb_leb. repeat (rewrite andb_true_iff || rewrite Z.leb_le). lia.
Qed.

Lemma next_mantissa_bounds m : lattice m -> m < next_mantissa m <= 10 * MANTISSA_LARGE_MIN.
Proof.
  intros [Hm Hl]. unfold next_mantissa. pose proof (Z.div_mod m 10 ltac:(lia)).
  destruct (Z.ltb_spec m NUMBER_MAX_REP), (Z.eqb_spec m NUMBER_MAX_REP);
    number_consts; lia.
Qed.

(** No representable mantissa lies strictly between [m] and the next one. *)
Lemma next_mantissa_gap m m' : lattice m -> lattice m' -> m' <= m \/ next_mantissa m <= m'.
Proof.
  intros [Hm Hl] [Hm' Hl']. unfold next_mantissa.
  pose proof (Z.div_mod m 10 ltac:(lia)). pose proof (Z.div_mod m' 10 ltac:(lia)).
  destruct (Z.ltb_spec m NUMBER_MAX_REP), (Z.eqb_spec m NUMBER_MAX_REP); number_consts; lia.
Qed.

(** The same with exponents. *)
Lemma lattice_gap m e m' e' b : lattice m -> lattice m' -> b <= e -> b <= e' ->
  m' * 10 ^ (e' - b) <= m * 10 ^ (e - b) \/
  next_mantissa m * 10 ^ (e - b) <= m' * 10 ^ (e' - b).
Proof.
  intros Hl Hl' He He'.
  pose proof (next_mantissa_bounds m Hl) as Hb.
  pose proof (pow10_pos (e - b) ltac:(lia)). pose proof (pow10_pos (e' - b) ltac:(lia)).
  destruct (Z.lt_trichotomy e e') as [Hlt|[->|Hlt]].
  - right. replace (e' - b) with ((e - b) + 1 + (e' - e - 1)) by lia.
    rewrite (Z.pow_add_r 10 _ (e' - e - 1)), pow10_succ by lia.
    pose proof (pow10_pos (e' - e - 1) ltac:(lia)). destruct Hl' as [Hm' _].
    set (P := 10 ^ (e - b)) in *. set (Q := 10 ^ (e' - e - 1)) in *.
    assert (m' <= m' * Q) by (number_consts; nia).
    assert (next_mantissa m * P <= 10 * (m' * Q) * P)
      by (apply Z.mul_le_mono_nonneg_r; number_consts; lia).
    lia.
  - destruct (next_mantissa_gap m m' Hl Hl'); [left|right]; nia.
  - left. replace (e - b) with ((e' - b) + 1 + (e - e' - 1)) by lia.
    rewrite (Z.pow_add_r 10 _ (e - e' - 1)), pow10_succ by lia.
    pose proof (pow10_pos (e - e' - 1) ltac:(lia)). destruct Hl as [Hm _], Hl' as [Hm' _].
    set (P := 10 ^ (e' - b)) in *. set (Q := 10 ^ (e - e' - 1)) in *.
    assert (m <= m * Q) by (number_consts; nia).
    assert (m' * P <= 10 * (m * Q) * P)
      by (apply Z.mul_le_mono_nonneg_r; number_consts; lia).
    lia.
Qed.

(** Where the exact value lies, for each position. *)
Lemma position_value q e k r m e1 u w : 0 <= k -> 0 <= r < 10 ^ k -> 0 <= q ->
  position q e k r m e1 u w ->
  lattice m /\ 0 <= u < w /\ (1 <= k -> exists w', w = 2 * w') /\
  forall b, b <= e - k -> b <= e1 ->
    (q * 10 ^ k + r) * 10 ^ (e - k - b) = m * 10 ^ (e1 - b) + u * 10 ^ (e - k - b) /\
    next_mantissa m * 10 ^ (e1 - b) = m * 10 ^ (e1 - b) + w * 10 ^ (e - k - b).
Proof.
  intros Hk Hr Hq Hp. pose proof (pow10_pos k Hk) as Hkp.
  assert (1 <= k -> exists h, 10 ^ k = 2 * h) as Heven.
  { intros. exists (5 * 10 ^ (k - 1)).
    replace k with (k - 1 + 1) at 1 by lia. rewrite pow10_succ by lia. lia. }
  assert (forall b, b <= e - k -> 10 ^ (e - b) = 10 ^ k * 10 ^ (e - k - b)) as Hs.
  { intros. rewrite <- Z.pow_add_r by lia. f_equal. lia. }
  inversion Hp; subst; clear Hp.
  - split; [unfold lattice; number_consts; lia|]. split; [lia|]. split; [auto|].
    intros b Hb Hb1. rewrite Hs by lia.
    assert (next_mantissa m = m + 1) as ->
      by (unfold next_mantissa; destruct (Z.ltb_spec m NUMBER_MAX_REP); lia).
    lia.
  - split; [apply lattice_cusp|]. split; [number_consts; nia|].
    split; [intros H1; destruct (Heven H1) as [h ->]; exists (3 * h); lia|].
    intros b Hb Hb1. rewrite Hs by lia.
    change (next_mantissa NUMBER_MAX_REP) with (NUMBER_MAX_REP + 3). lia.
  - split; [apply lattice_cusp|]. split; [lia|].
    split; [intros H1; destruct (Heven H1) as [h ->]; exists (10 * h); lia|].
    intros b Hb Hb1. rewrite Hs by lia.
    change (next_mantissa NUMBER_MAX_REP_UP) with (NUMBER_MAX_REP_UP + 10). lia.
  - assert (lattice (10 * q)) as Hl.
    { unfold lattice; number_consts. split; [lia|right]. rewrite Z.mul_comm. apply Z.mod_mul; lia. }
    split; [auto|]. split; [lia|]. split; [auto|].
    intros b Hb Hb1. rewrite next_mantissa_above by (number_consts; lia).
    assert (10 * 10 ^ (e - 1 - b) = 10 ^ k * 10 ^ (e - k - b)).
    { rewrite <- pow10_succ by lia. rewrite <- Z.pow_add_r by lia. f_equal. lia. }
    nia.
Qed.

(** The choice between two neighbours [L] and [L + W] of the exact value
    [L + U + p] is right for every number outside the gap.  [D] is the
    denominator; [p] is the part beyond the last recorded digit. *)
Lemma neighbour_choice d L u w S D p (st up : bool) Y :
  0 < S -> 0 < D -> 0 <= u < w -> 0 <= p < D -> (st = true <-> p > 0) ->
  ((exists h, w = 2 * h) \/ 2 * p <= D) ->
  (if up then may_round_up d u w st else may_round_down d u w st) ->
  Y <= L \/ L + w * S <= Y ->
  let V := L * D + (u * D + p) * S in
  let X := if up then (L + w * S) * D else L * D in
  match d with
  | Toward => X <= V /\ (Y * D <= V -> Y * D <= X)
  | Away => V <= X /\ (V <= Y * D -> X <= Y * D)
  | Nearest => Z.abs (X - V) <= Z.abs (Y * D - V)
  end.
Proof.
  intros HS HD Hu Hp Hst Hw Hc HY V X. subst V X.
  assert (0 <= u * D + p < w * D) as Hin by nia.
  assert (0 <= (u * D + p) * S <= w * D * S) as HinS by nia.
  assert ((u * D + p) * S < w * D * S) as HinS' by nia.
  assert (Y * D <= L * D \/ (L + w * S) * D <= Y * D) as HY' by nia.
  destruct d, up; cbn [may_round_up may_round_down] in Hc; try contradiction.
  - split; [lia|]. intros. nia.
  - split; [nia|]. intros.
    assert (0 < (u * D + p) * S) by (destruct Hc as [Hc|Hc]; [nia|apply Hst in Hc; nia]). nia.
  - destruct Hc as [-> Hc]. assert (p = 0) as ->
      by (destruct (Z.eq_dec p 0); auto; assert (st = true) by (apply Hst; lia); congruence).
    split; lia.
  - assert (w * D * S <= 2 * ((u * D + p) * S)) by nia. nia.
  - assert (2 * (u * D + p) <= w * D).
    { destruct Hc as [Hc|[Hc Hf]].
      - destruct Hw as [[h ->]|Hw]; [|nia]. assert (u <= h - 1) by lia. nia.
      - assert (p = 0) as -> by (destruct (Z.eq_dec p 0); auto;
          assert (st = true) by (apply Hst; lia); congruence). nia. }
    assert (2 * ((u * D + p) * S) <= w * D * S) by nia. nia.
Qed.

Lemma round_result_correct md n q e k r st x N D p :
  round_result (direction_of md n) n q e k r st x -> rm x <> 0 ->
  0 <= k -> 0 <= r < 10 ^ k -> 0 <= q -> (q < MANTISSA_LARGE_MIN -> 1 <= k) ->
  0 < D -> 0 <= p < D -> (st = true <-> p > 0) -> 1 <= k \/ 2 * p <= D ->
  N = (q * 10 ^ k + r) * D + p ->
  correctly_rounded md n N D (e - k) (mkNumber n (rm x) (re x)).
Proof.
  intros [Hz|(Hrn & Hre & m & e1 & u & w & Hp & Hl & Hx)] Hnz Hk Hr Hq Hqk HD Hpd Hst Hk2 HN;
    [lia|].
  split; [reflexivity|]. split; [apply lattice_normalized; auto|].
  intros y b Hy Hy0 HbE Hbx Hby. cbn [mantissa exponent] in *.
  destruct (position_value _ _ _ _ _ _ _ _ Hk Hr Hq Hp) as (Hlm & Hu & Hev & Hval).
  destruct (normalized_lattice y Hy Hy0) as [Hly _].
  assert (b <= e1) as Hb1 by (inversion Hp; subst; lia).
  destruct (Hval b HbE Hb1) as [Hv1 Hv2].
  pose proof (lattice_gap m e1 (mantissa y) (exponent y) b Hlm Hly Hb1 Hby) as Hgap.
  rewrite Hv2 in Hgap.
  set (S := 10 ^ (e - k - b)) in *. set (L := m * 10 ^ (e1 - b)) in *.
  assert (0 < S) as HS by (subst S; apply pow10_pos; lia).
  assert ((exists h, w = 2 * h) \/ 2 * p <= D) as Hw by (destruct Hk2; [left|right]; auto).
  replace (N * S) with (L * D + (u * D + p) * S) by (subst N; nia).
  set (Y := mantissa y * 10 ^ (exponent y - b)) in *.
  replace (mantissa y * D * 10 ^ (exponent y - b)) with (Y * D) by (subst Y; lia).
  cbv zeta. destruct Hx as [(Hdn & Hm & He)|(Hup & Hsv)].
  - replace (rm x * D * 10 ^ (re x - b)) with (L * D) by (subst L; rewrite Hm, He; lia).
    exact (neighbour_choice _ L u w S D p st false Y HS HD Hu Hpd Hst Hw Hdn Hgap).
  - assert (rm x * 10 ^ (re x - b) = L + w * S) as HX.
    { rewrite <- Hv2. destruct Hsv as [[-> ->]|[<- ->]]; [reflexivity|].
      replace (e1 + 1 - b) with (e1 - b + 1) by lia. rewrite pow10_succ by lia. lia. }
    replace (rm x * D * 10 ^ (re x - b)) with ((L + w * S) * D) by (rewrite <- HX; lia).
    exact (neighbour_choice _ L u w S D p st true Y HS HD Hu Hpd Hst Hw Hup Hgap).
Qed.

(** ** Loops that move the decimal point *)

Lemma log2_div10 m : 2 <= m -> (Z.to_nat (Z.log2 (m / 10)) < Z.to_nat (Z.log2 m))%nat.
Proof.
  intros Hm. pose proof (Z.log2_nonneg (m / 10)).
  assert (1 <= Z.log2 m) by (change 1 with (Z.log2 2); apply Z.log2_le_mono; lia).
  apply Z2Nat.inj_lt; [lia..|].
  pose proof (Z.div_mod m 10 ltac:(lia)). pose proof (Z.mod_pos_bound m 10 ltac:(lia)).
  destruct (Z.eq_dec (m / 10) 0) as [->|]; [cbn; lia|].
  assert (Z.log2 (2 * (m / 10)) <= Z.log2 m) by (apply Z.log2_le_mono; lia).
  rewrite Z.log2_double in * by lia. lia.
Qed.

Lemma log2_mul10 m : 1 <= m -> Z.log2 m + 3 <= Z.log2 (m * 10).
Proof.
  intros Hm. pose proof (Z.log2_mul_pow2 m 3 ltac:(lia) ltac:(lia)).
  assert (Z.log2 (m * 2 ^ 3) <= Z.log2 (m * 10)) by (apply Z.log2_le_mono; lia). lia.
Qed.

(** [m] with exponent [e] and the guard are what is left of [m0] with exponent
    [e0] after dropping digits while the mantissa exceeded [limit]. *)
Definition dropped_from (m0 e0 limit : Z) (st n : bool) (s : ArithmeticGuard * Z * Z) : Prop :=
  let '(g, m, e) := s in
  exists k r, guards g k r st /\ g_negative g = n /\ e = e0 + k /\
    m0 = m * 10 ^ k + r /\ 0 <= m /\ (k = 0 \/ limit < 10 * m + 9).

Lemma dropped_start g m e limit st : guards g 0 0 st -> 0 <= m ->
  dropped_from m e limit st (g_negative g) (g, m, e).
Proof. intros Hg Hm. exists 0, 0. split; [auto|]. split; [auto|]. rewrite Z.pow_0_r. lia. Qed.

Lemma mod10_digit m : cast U8 (m mod 10) = m mod 10 /\ 0 <= m mod 10 <= 9.
Proof.
  pose proof (Z.mod_pos_bound m 10 ltac:(lia)).
  split; [apply cast_id; cbn; lia|lia].
Qed.

Lemma dropped_step m0 e0 limit st n g m e :
  dropped_from m0 e0 limit st n (g, m, e) -> limit < m ->
  dropped_from m0 e0 limit st n (push g (cast U8 (m mod 10)), m / 10, e + 1).
Proof.
  intros (k & r & Hg & Hn & He & Hm & Hm0 & Hlim) Hlt.
  destruct (mod10_digit m) as [-> Hd].
  assert (0 <= k) as Hk by (destruct Hg; auto).
  pose proof (Z.div_mod m 10 ltac:(lia)).
  exists (k + 1), (m mod 10 * 10 ^ k + r).
  split; [now apply guards_push|]. split; [auto|]. split; [lia|].
  rewrite pow10_succ by lia. split; [nia|]. lia.
Qed.

(** The loop of [try_mul]. *)
Lemma drop_loop m0 e0 limit st n (cond : ArithmeticGuard * Z * Z -> bool) s0 :
  (forall g m e, cond (g, m, e) = true <-> limit < m) ->
  1 <= limit -> 0 <= m0 < 2 ^ 128 -> -500000 <= e0 <= 500000 ->
  dropped_from m0 e0 limit st n s0 ->
  yields (while digit_fuel cond (fun '(g, m, e) => drop_digit g m e) s0)
    (fun s => dropped_from m0 e0 limit st n s /\ snd (fst s) <= limit)
    (fun _ => False).
Proof.
  intros Hc Hlim Hm0 He0 Hs.
  eapply yields_mono.
  - apply (while_rule (fun s => dropped_from m0 e0 limit st n s)
      (fun s => Z.to_nat (Z.log2 (snd (fst s)))) (fun _ => False)).
    + intros [[g m] e] HI Ht. apply Hc in Ht. unfold drop_digit.
      assert (e <= 600000 /\ -500000 <= e) as He.
      { destruct HI as (k & r & Hg & _ & He & Hm & Hmm & Hl).
        assert (k <= 39); [|destruct Hg; lia].
        destruct (Z.le_gt_cases k 39); auto. exfalso.
        assert (10 ^ 39 <= 10 ^ k) by (apply Z.pow_le_mono_r; lia).
        destruct Hg as (_ & Hr & _). assert (2 ^ 128 < 10 ^ 39) by reflexivity. nia. }
      rewrite checked_ok by (cbn; lia). cbn [bind yields].
      split; [apply dropped_step; auto|]. cbn [fst snd]. apply log2_div10. lia.
    + exact Hs.
    + assert (Z.log2 (snd (fst s0)) < 128).
      { destruct s0 as [[g m] e]. cbn [fst snd].
        destruct Hs as (k & r & Hg & _ & _ & Hm & Hmm & _).
        destruct Hg as (Hk & Hr & _). pose proof (pow10_pos k Hk).
        destruct (Z.eq_dec m 0) as [->|]; [cbn; lia|].
        apply Z.log2_lt_pow2; nia. }
      unfold digit_fuel. lia.
  - intros [[g m] e] [HI Hf]. split; [auto|]. cbn [fst snd].
    destruct (Z.le_gt_cases m limit); auto. apply Hc with (g := g) (e := e) in H. congruence.
  - auto.
Qed.

(** ** Rounding a whole result *)

(** The exact magnitude is below the smallest, above the largest
    representable one. *)
Definition below_range (N D E : Z) : Prop :=
  forall b, b <= E -> b <= NUMBER_MIN_EXPONENT ->
    N * 10 ^ (E - b) < MANTISSA_LARGE_MIN * D * 10 ^ (NUMBER_MIN_EXPONENT - b).

Definition above_range (N D E : Z) : Prop :=
  forall y b, is_normalized y Large330 = true -> b <= E -> b <= exponent y ->
    mantissa y * D * 10 ^ (exponent y - b) < N * 10 ^ (E - b).

(** The exact magnitude exceeds [number_max], the bound the normalisation of
    sums and quotients enforces. *)
Definition above_max (N D E : Z) : Prop :=
  forall b, b <= E -> b <= NUMBER_MAX_EXPONENT ->
    mantissa (number_max Large330) * D * 10 ^ (NUMBER_MAX_EXPONENT - b) < N * 10 ^ (E - b).

(** [o] is what a correctly rounding operation returns for the exact value:
    an overflow only [beyond] the range, a flush to zero only below it. *)
Definition rounding_of (beyond : Z -> Z -> Z -> Prop) (md : RoundingMode) (n : bool) (N D E : Z)
    (o : outcome NumberArithmeticError NumberParts) : Prop :=
  yields o
    (fun z => (z = zero /\ below_range N D E) \/ correctly_rounded md n N D E z)
    (fun err => err = Overflow /\ beyond N D E).

Lemma underflow_below q e k r D p : 0 <= k -> 0 <= r < 10 ^ k -> 0 <= p < D ->
  0 <= q <= MANTISSA_LARGE_MAX ->
  e < NUMBER_MIN_EXPONENT \/ (q < MANTISSA_LARGE_MIN /\ e - 1 < NUMBER_MIN_EXPONENT) ->
  below_range ((q * 10 ^ k + r) * D + p) D (e - k).
Proof.
  intros Hk Hr Hp Hq Hu b Hb Hb'. pose proof (pow10_pos k Hk).
  pose proof (pow10_pos (e - k - b) ltac:(lia)).
  assert ((q * 10 ^ k + r) * D + p < (q + 1) * D * 10 ^ k) by nia.
  assert (((q * 10 ^ k + r) * D + p) * 10 ^ (e - k - b) < (q + 1) * D * 10 ^ (e - b)) as H2.
  { replace (e - b) with (k + (e - k - b)) by lia. rewrite Z.pow_add_r by lia. nia. }
  eapply Z.lt_le_trans; [exact H2|].
  pose proof (pow10_pos (e - b) ltac:(lia)). destruct Hu as [Hu|[Hu1 Hu2]].
  - replace (NUMBER_MIN_EXPONENT - b) with (e - b + 1 + (NUMBER_MIN_EXPONENT - e - 1)) by lia.
    rewrite Z.pow_add_r, pow10_succ by lia.
    pose proof (pow10_pos (NUMBER_MIN_EXPONENT - e - 1) ltac:(lia)).
    set (P := 10 ^ (e - b)) in *. set (Q := 10 ^ (NUMBER_MIN_EXPONENT - e - 1)) in *.
    assert (q + 1 <= 10 * MANTISSA_LARGE_MIN * Q) by (number_consts; nia).
    assert ((q + 1) * (D * P) <= 10 * MANTISSA_LARGE_MIN * Q * (D * P))
      by (apply Z.mul_le_mono_nonneg_r; nia). lia.
  - assert (10 ^ (e - b) <= 10 ^ (NUMBER_MIN_EXPONENT - b)) by (apply Z.pow_le_mono_r; lia).
    assert ((q + 1) * D <= MANTISSA_LARGE_MIN * D) by nia.
    apply Z.mul_le_mono_nonneg; nia.
Qed.

Lemma overflow_above q e k r st D p : 0 <= k -> 0 <= r < 10 ^ k -> 0 <= p < D ->
  (st = true -> 0 < p) -> 0 <= q -> (q < MANTISSA_LARGE_MIN -> NUMBER_MAX_REP_UP < 10 * q + 9) ->
  round_overflow q e r st -> above_range ((q * 10 ^ k + r) * D + p) D (e - k).
Proof.
  intros Hk Hr Hp Hst Hq0 Hq [Ho Ho'] y b Hy HbE Hby. pose proof (pow10_pos k Hk) as Hkp.
  pose proof (pow10_pos (e - k - b) ltac:(lia)) as HS.
  assert (exists f, 0 <= f /\ (0 < r \/ 0 < p -> 0 < f) /\
    q * D * 10 ^ (e - b) + f = ((q * 10 ^ k + r) * D + p) * 10 ^ (e - k - b)) as (f & Hf & Hf' & H2).
  { exists ((r * D + p) * 10 ^ (e - k - b)).
    assert (0 <= r * D) by nia. assert (0 < r -> 0 < r * D) by nia.
    replace (e - b) with (k + (e - k - b)) by lia. rewrite Z.pow_add_r by lia.
    split; [nia|]. split; [|lia]. intros. apply Z.mul_pos_pos; lia. }
  rewrite <- H2.
  pose proof (pow10_pos (e - b) ltac:(lia)) as Heb.
  destruct (Z.eq_dec (mantissa y) 0) as [->|Hy0].
  { assert (0 < q) by (number_consts; lia).
    assert (0 < q * D * 10 ^ (e - b)) by (apply Z.mul_pos_pos; [apply Z.mul_pos_pos|]; lia). lia. }
  destruct (normalized_lattice y Hy Hy0) as [[Hm Hl] He].
  assert (mantissa y <= 9999999999999999990) as Hmax.
  { pose proof (Z.div_mod (mantissa y) 10 ltac:(lia)). number_consts. lia. }
  pose proof (pow10_pos (exponent y - b) ltac:(lia)) as HP.
  assert (exists j, 1 <= j /\ e = exponent y + j /\
    (j = 1 -> 999999999999999999 < q \/ (999999999999999999 <= q /\ 0 < f))) as (j & Hj & Hej & Hj1).
  { exists (e - exponent y).
    destruct (Z.ltb_spec (q + 1) MANTISSA_LARGE_MIN) as [Hlt|Hge]; [lia|].
    split; [lia|]. split; [lia|]. intros Hj.
    destruct (Z.eq_dec (q + 1) MANTISSA_LARGE_MIN) as [Heq|]; [|number_consts; lia].
    right. split; [number_consts; lia|]. apply Hf'.
    destruct (Ho' Heq) as [H|[H|H]]; [lia|left; lia|right; auto]. }
  replace (e - b) with (exponent y - b + 1 + (j - 1)) by lia.
  rewrite Z.pow_add_r, pow10_succ by lia. pose proof (pow10_pos (j - 1) ltac:(lia)) as HQ.
  set (P := 10 ^ (exponent y - b)) in *.
  assert (mantissa y + 1 <= q * 10 * 10 ^ (j - 1) \/
    (0 < f /\ mantissa y <= q * 10 * 10 ^ (j - 1))) as Hbig.
  { destruct (Z.eq_dec j 1) as [->|]; [change (10 ^ (1 - 1)) with 1; lia|left].
    replace (j - 1) with (j - 2 + 1) by lia. rewrite pow10_succ by lia.
    pose proof (pow10_pos (j - 2) ltac:(lia)). number_consts. nia. }
  destruct Hbig as [Hbig|[Hf0 Hbig]].
  - assert (mantissa y * (D * P) < q * 10 * 10 ^ (j - 1) * (D * P))
      by (apply Z.mul_lt_mono_pos_r; nia). lia.
  - assert (mantissa y * (D * P) <= q * 10 * 10 ^ (j - 1) * (D * P))
      by (apply Z.mul_le_mono_nonneg_r; nia). lia.
Qed.

Lemma above_range_max N D E : above_range N D E -> above_max N D E.
Proof. intros H b Hb Hm. exact (H (number_max Large330) b eq_refl Hb Hm). Qed.

(** ** Rounding and finishing *)

Lemma finish_normalized F n m e : is_normalized (mkNumber n m e) Large330 = true -> m <> 0 ->
  finish_arithmetic_result_with F n m e Large330 = Ok (mkNumber n m e).
Proof.
  intros H Hm. destruct (normalized_lattice _ H Hm) as [[Hl _] He]. cbn [mantissa exponent] in *.
  unfold finish_arithmetic_result_with.
  assert ((m =? 0) || (e <? NUMBER_MIN_EXPONENT) = false) as -> by lia.
  assert ((e >? NUMBER_MAX_EXPONENT) = false) as -> by lia.
  rewrite checked_ok by (cbn; number_consts; lia). cbn [bind].
  assert ((m =? 0) = false) as -> by lia. rewrite andb_true_r, H. reflexivity.
Qed.

Lemma round_up_error fuel t : forall g r a b s err,
  do_round_up_loop fuel t g r a b s = Err err -> err = Overflow.
Proof.
  induction fuel as [|n IH]; intros g r a b s err; cbn [do_round_up_loop];
    unfold bring_into_range, checked, plain;
    repeat (match goal with
            | |- context [if ?c then _ else _] => destruct c
            end; cbn [bind]); try (intros [= <-]); try discriminate; eauto.
Qed.

(** [do_round_up] followed by [finish_arithmetic_result]: the digits dropped
    so far, and [p / D] beyond them, decide the rounding. *)
Lemma round_finish F md n g q e m0 e0 st N D p :
  dropped_from m0 e0 NUMBER_MAX_REP_UP st n (g, q, e) -> q <= NUMBER_MAX_REP_UP ->
  MANTISSA_LARGE_MIN <= q \/ e0 < e -> -1000000 <= e <= 999998 ->
  0 <= p < D -> (st = true <-> p > 0) -> e0 < e \/ 2 * p <= D -> N = m0 * D + p ->
  rounding_of above_range md n N D e0
    ('(_, r) <- do_round_up (mkTls Large330 md) g (mkRounding n q e)
                  MANTISSA_LARGE_MIN MANTISSA_LARGE_MAX Large330;;
     finish_arithmetic_result_with F (rn r) (rm r) (re r) Large330).
Proof.
  intros (k & r & Hg & Hn & -> & Hm0 & Hq0 & Hk) Hq Hmin He Hp Hst Hhalf HN.
  pose proof Hg as (Hk0 & Hr & _).
  assert (in_cusp_range q) as Hc by (unfold in_cusp_range; number_consts; lia).
  unfold rounding_of. eapply yields_bind.
  { eapply yields_error_only; [intros err; apply round_up_error| |].
    { apply (round_up_330 (mkTls Large330 md) g n q (e0 + k) k r st); auto. }
    intros Ho. split; [reflexivity|]. replace e0 with (e0 + k - k) by lia. rewrite HN, Hm0.
    apply (overflow_above q (e0 + k) k r st); auto; [rewrite Hst|]; lia. }
  intros [g' x] Hx. cbn [mode_cell] in Hx. replace e0 with (e0 + k - k) by lia.
  destruct (Z.eq_dec (rm x) 0) as [Hz|Hnz].
  - rewrite Hz. cbn. left. split; [reflexivity|]. rewrite HN, Hm0.
    apply underflow_below; auto; [number_consts; lia|].
    destruct Hx as [(_ & _ & Hx)|(_ & _ & m & e1 & u & w & _ & [Hl _] & _)]; [lia|].
    exfalso. rewrite Hz in Hl. number_consts. lia.
  - assert (correctly_rounded md n N D (e0 + k - k) (mkNumber n (rm x) (re x))) as Hcr.
    { apply (round_result_correct md n q (e0 + k) k r st x N D p); auto; lia. }
    assert (rn x = n) as -> by (destruct Hx as [|(? & _)]; [lia|auto]).
    pose proof Hcr as (_ & Hnorm & _).
    rewrite finish_normalized by auto. right. exact Hcr.
Qed.

(** ** Multiplication *)

Lemma number_eqb_zero x : mantissa x <> 0 -> number_eqb x zero = false.
Proof.
  intros H. unfold number_eqb. cbn [mantissa zero].
  assert ((mantissa x =? 0) = false) as -> by lia. rewrite andb_false_r. reflexivity.
Qed.

Lemma normalized_zero x : is_normalized x Large330 = true -> mantissa x = 0 -> x = zero.
Proof.
  unfold is_normalized. intros H Hz. rewrite Hz, Z.eqb_refl in H. bool_prop. destruct x as [n m e]. cbn in *. subst. reflexivity.
Qed.

Lemma signed_guard (n : bool) : let g := if n then set_negative default_guard else default_guard in
  guards g 0 0 false /\ g_negative g = n.
Proof. destruct n; split; try reflexivity; [apply guards_negative|]; apply guards_default. Qed.

(** C7: Multiplication is correctly rounded.  For any two normalised non-zero
    numbers of the default scale and any rounding mode, [try_mul] neither
    panics nor runs out of steps; its result is the representable number the
    mode prescribes for the exact product, compared with every representable
    number, or zero when the product is below the smallest one; it reports an
    overflow only when the product exceeds every representable number. *)
Theorem try_mul_correctly_rounded md x y :
  is_normalized x Large330 = true -> is_normalized y Large330 = true ->
  mantissa x <> 0 -> mantissa y <> 0 ->
  rounding_of above_range md (xorb (negative x) (negative y))
    (mantissa x * mantissa y) 1 (exponent x + exponent y) (try_mul (mkTls Large330 md) x y).
Proof.
  intros Hx Hy Hx0 Hy0. destruct (normalized_lattice x Hx Hx0) as [[Hmx _] Hex].
  destruct (normalized_lattice y Hy Hy0) as [[Hmy _] Hey].
  assert (MANTISSA_LARGE_MIN * MANTISSA_LARGE_MIN <= mantissa x * mantissa y
    <= MANTISSA_LARGE_MAX * MANTISSA_LARGE_MAX) as Hm by (number_consts; nia).
  unfold try_mul. rewrite !number_eqb_zero by auto. cbn [get_mantissa_scale scale_cell].
  cbn [mantissa_range_min mantissa_range_max].
  rewrite checked_ok by (cbn; number_consts; lia). cbn [bind].
  rewrite checked_ok by (cbn; number_consts; lia). cbn [bind].
  set (n := xorb (negative x) (negative y)).
  destruct (signed_guard n) as [Hg Hn]. set (g := if n then _ else _) in *.
  eapply yields_bind.
  { eapply yields_mono; [eapply (drop_loop (mantissa x * mantissa y) (exponent x + exponent y)
      NUMBER_MAX_REP_UP false n)| intros s Hs; exact Hs | contradiction].
    - intros. cbn [rep_limit cusp_rounding_330_enabled].
      rewrite orb_true_iff, !Z.gtb_lt. number_consts. lia.
    - number_consts. lia.
    - number_consts. lia.
    - number_consts. lia.
    - rewrite <- Hn. apply dropped_start; auto. number_consts. lia. }
  intros [[g' q] e] [Hd Hq]. cbn [fst snd] in Hq.
  assert (exponent x + exponent y < e <= exponent x + exponent y + 40) as He.
  { destruct Hd as (k & r & (Hk & Hr & _) & _ & -> & Heq & Hq0 & Hlim).
    split.
    - destruct (Z.eq_dec k 0) as [->|]; [|lia]. rewrite Z.pow_0_r in *. number_consts. lia.
    - destruct (Z.le_gt_cases k 40); [lia|]. exfalso.
      assert (10 ^ 40 <= 10 ^ k) by (apply Z.pow_le_mono_r; lia).
      assert (1 <= q) by (number_consts; lia). number_consts. nia. }
  apply (round_finish _ md n g' q e _ _ false _ 1 0 Hd Hq); number_consts; lia.
Qed.

Lemma try_mul_correctly_rounded_witness :
  rounding_of above_range Upward true (9223372036854775807 * 3000000000000000001) 1 (-20)
    (try_mul (mkTls Large330 Upward) (mkNumber true 9223372036854775807 (-2))
       (mkNumber false 3000000000000000001 (-18))).
Proof.
  apply (try_mul_correctly_rounded Upward (mkNumber true 9223372036854775807 (-2))
    (mkNumber false 3000000000000000001 (-18))); (reflexivity || discriminate).
Defined.

(** ** Normalisation *)

(** The exact value does not change when it is counted in smaller units. *)
Lemma scale_shift N j E b : 0 <= j -> b <= E - j -> N * 10 ^ j * 10 ^ (E - j - b) = N * 10 ^ (E - b).
Proof.
  intros Hj Hb. rewrite <- Z.mul_assoc, <- Z.pow_add_r by lia.
  replace (j + (E - j - b)) with (E - b) by lia. reflexivity.
Qed.

Lemma pow_split a b c : c <= b <= a -> 10 ^ (a - c) = 10 ^ (a - b) * 10 ^ (b - c).
Proof. intros. rewrite <- Z.pow_add_r by lia. f_equal. lia. Qed.

Lemma correctly_rounded_shift md n N D E j x : 0 <= j ->
  correctly_rounded md n (N * 10 ^ j) D (E - j) x -> correctly_rounded md n N D E x.
Proof.
  intros Hj (Hn & Hx & H). split; [auto|]. split; [auto|]. intros y b Hy Hy0 HE Hbx Hby.
  set (c := Z.min b (E - j)). specialize (H y c Hy Hy0 ltac:(lia) ltac:(lia) ltac:(lia)).
  cbv zeta in *. rewrite scale_shift in H by lia.
  rewrite (pow_split E b c), (pow_split (exponent x) b c), (pow_split (exponent y) b c) in H by lia.
  pose proof (pow10_pos (b - c) ltac:(lia)). rewrite !Z.mul_assoc in H.
  set (V := N * 10 ^ (E - b)) in *. set (X := mantissa x * D * 10 ^ (exponent x - b)) in *.
  set (Y := mantissa y * D * 10 ^ (exponent y - b)) in *.
  destruct (direction_of md n); [nia|nia|].
  rewrite <- !Z.mul_sub_distr_r, !Z.abs_mul in H. nia.
Qed.

Lemma below_range_shift N D E j : 0 <= j ->
  below_range (N * 10 ^ j) D (E - j) -> below_range N D E.
Proof.
  intros Hj H b Hb Hm. set (c := Z.min b (E - j)). specialize (H c ltac:(lia) ltac:(lia)).
  rewrite scale_shift in H by lia. rewrite (pow_split E b c), (pow_split NUMBER_MIN_EXPONENT b c) in H by lia.
  pose proof (pow10_pos (b - c) ltac:(lia)). rewrite !Z.mul_assoc in H. nia.
Qed.

Lemma above_max_shift N D E j : 0 <= j ->
  above_max (N * 10 ^ j) D (E - j) -> above_max N D E.
Proof.
  intros Hj H b Hb Hm. set (c := Z.min b (E - j)). specialize (H c ltac:(lia) ltac:(lia)).
  rewrite scale_shift in H by lia. rewrite (pow_split E b c), (pow_split NUMBER_MAX_EXPONENT b c) in H by lia.
  pose proof (pow10_pos (b - c) ltac:(lia)). rewrite !Z.mul_assoc in H. nia.
Qed.

Lemma rounding_of_shift md n N D E j o : 0 <= j ->
  rounding_of above_max md n (N * 10 ^ j) D (E - j) o -> rounding_of above_max md n N D E o.
Proof.
  intros Hj. unfold rounding_of. intros H. eapply yields_mono; [exact H| |].
  - intros z [[-> Hz]|Hz]; [left; split; [auto|]; eapply below_range_shift; eauto|right].
    eapply correctly_rounded_shift; eauto.
  - intros err [-> He]. split; [auto|]. eapply above_max_shift; eauto.
Qed.

(** The loop that raises a short mantissa, as long as the exponent allows. *)
Lemma raise_loop {E} (err : E) m0 e0 : 0 < m0 < 2 ^ 128 -> -1000000 <= e0 <= 1000000 ->
  yields (while digit_fuel
            (fun '(m, e) => (m <? MANTISSA_LARGE_MIN) && (e >? NUMBER_MIN_EXPONENT))
            (fun '(m, e) =>
               m' <- checked U128 err (m * 10);;
               e' <- plain I32 (e - 1);;
               Ok (m', e')) (m0, e0))
    (fun '(m, e) => exists j, 0 <= j /\ m = m0 * 10 ^ j /\ e = e0 - j /\
       (j = 0 \/ m < 10 * MANTISSA_LARGE_MIN) /\
       (MANTISSA_LARGE_MIN <= m \/ e <= NUMBER_MIN_EXPONENT))
    (fun _ => False).
Proof.
  intros Hm He. eapply yields_mono; [apply (while_rule
    (fun '(m, e) => exists j, 0 <= j /\ m = m0 * 10 ^ j /\ e = e0 - j /\
       (j = 0 \/ m < 10 * MANTISSA_LARGE_MIN /\ NUMBER_MIN_EXPONENT <= e))
    (fun '(m, _) => Z.to_nat (64 - Z.log2 m)) (fun _ => False))| |contradiction].
  - intros [m e] (j & Hj & Hmj & Hej & Hlim) Hc. bool_prop.
    pose proof (pow10_pos j Hj). assert (0 < m) by nia.
    rewrite checked_ok by (cbn; number_consts; lia). cbn [bind].
    rewrite plain_ok by (cbn; number_consts; lia). cbn [bind yields]. split.
    + exists (j + 1). rewrite pow10_succ by lia. lia.
    + pose proof (log2_mul10 m ltac:(lia)).
      assert (Z.log2 m < 64) by (apply Z.log2_lt_pow2; number_consts; lia). lia.
  - exists 0. rewrite Z.pow_0_r. lia.
  - unfold digit_fuel. pose proof (Z.log2_nonneg m0). lia.
  - intros [m e] [(j & Hj & Hmj & Hej & Hlim) Hc]. exists j. bool_prop.
    apply andb_false_iff in Hc. rewrite Z.ltb_ge, Z.gtb_ltb, Z.ltb_ge in Hc. lia.
Qed.

(** A mantissa that is still too long at the largest exponent. *)
Lemma too_long_above m e k r m0 e0 D p : m0 = m * 10 ^ k + r -> 0 <= k -> 0 <= r -> 0 <= p < D ->
  NUMBER_MAX_REP_UP < m -> e = e0 + k -> NUMBER_MAX_EXPONENT <= e -> above_max (m0 * D + p) D e0.
Proof.
  intros -> Hk Hr Hp Hm -> He b Hb Hb'. pose proof (pow10_pos (e0 - b) ltac:(lia)).
  assert (m * D * 10 ^ (e0 + k - b) <= ((m * 10 ^ k + r) * D + p) * 10 ^ (e0 - b)) as H1.
  { replace (e0 + k - b) with (k + (e0 - b)) by lia. rewrite Z.pow_add_r by lia.
    rewrite Z.mul_assoc. apply Z.mul_le_mono_nonneg_r; nia. }
  eapply Z.lt_le_trans; [|exact H1].
  assert (10 ^ (NUMBER_MAX_EXPONENT - b) <= 10 ^ (e0 + k - b)) by (apply Z.pow_le_mono_r; lia).
  pose proof (pow10_pos (NUMBER_MAX_EXPONENT - b) ltac:(lia)).
  change (mantissa (number_max Large330)) with NUMBER_MAX_REP.
  apply Z.lt_le_trans with (m * D * 10 ^ (NUMBER_MAX_EXPONENT - b)).
  - apply Z.mul_lt_mono_pos_r; [lia|]. number_consts. nia.
  - apply Z.mul_le_mono_nonneg_l; [number_consts; nia|lia].
Qed.

(** Dropping one digit, unless the exponent is at its maximum. *)
Definition drop_below_max (g : ArithmeticGuard) (m e : Z)
    : outcome NumberArithmeticError (ArithmeticGuard * Z * Z) :=
  if e >=? NUMBER_MAX_EXPONENT then Err Overflow else
  e' <- plain I32 (e + 1);;
  Ok (push g (cast U8 (m mod 10)), m / 10, e').

Lemma drop_below_max_step m0 e0 limit st n g m e D p :
  dropped_from m0 e0 limit st n (g, m, e) -> NUMBER_MAX_REP_UP <= limit < m ->
  -1000000 <= e0 -> 0 <= p < D ->
  yields (drop_below_max g m e)
    (fun '(g', m', e') => dropped_from m0 e0 limit st n (g', m', e') /\ m' = m / 10 /\
       e' = e + 1 /\ e' <= NUMBER_MAX_EXPONENT)
    (fun err => err = Overflow /\ above_max (m0 * D + p) D e0).
Proof.
  intros Hd Hm He0 Hp. unfold drop_below_max.
  pose proof Hd as (k & r & (Hk & Hr & _) & _ & He & Heq & _).
  destruct (Z.geb_spec e NUMBER_MAX_EXPONENT); cbn [yields].
  - split; [auto|]. eapply too_long_above; eauto; lia.
  - rewrite plain_ok by (cbn; number_consts; lia). cbn [bind yields].
    split; [apply dropped_step; auto; lia|lia].
Qed.

Lemma normalize_drop_loop m0 e0 st n g0 D p : 0 <= m0 < 2 ^ 128 -> -1000000 <= e0 <= 1000000 ->
  0 <= p < D -> dropped_from m0 e0 MANTISSA_LARGE_MAX st n (g0, m0, e0) ->
  yields (while digit_fuel (fun '(g, m, e) => m >? MANTISSA_LARGE_MAX)
            (fun '(g, m, e) => drop_below_max g m e) (g0, m0, e0))
    (fun '(g, m, e) => dropped_from m0 e0 MANTISSA_LARGE_MAX st n (g, m, e) /\
       m <= MANTISSA_LARGE_MAX /\ e <= Z.max e0 NUMBER_MAX_EXPONENT)
    (fun err => err = Overflow /\ above_max (m0 * D + p) D e0).
Proof.
  intros Hm0 He0 Hp Hs. eapply yields_mono; [apply (while_rule
    (fun s => dropped_from m0 e0 MANTISSA_LARGE_MAX st n s /\
       snd s <= Z.max e0 NUMBER_MAX_EXPONENT)
    (fun '(_, m, _) => Z.to_nat (Z.log2 m))
    (fun err => err = Overflow /\ above_max (m0 * D + p) D e0))| |auto].
  - intros [[g m] e] [HI _] Hc. bool_prop.
    eapply yields_mono; [eapply (drop_below_max_step m0 e0 MANTISSA_LARGE_MAX); eauto;
      number_consts; lia | |auto].
    intros [[g' m'] e'] (Hd & -> & -> & He). cbn [snd].
    split; [split; [auto|lia]|]. apply log2_div10. number_consts. lia.
  - split; [auto|cbn [snd]; lia].
  - assert (Z.log2 m0 < 128) by (destruct (Z.eq_dec m0 0) as [->|]; [reflexivity|];
      apply Z.log2_lt_pow2; lia). unfold digit_fuel. lia.
  - intros [[g m] e] [[HI He] Hc]. cbn [snd] in He. split; [auto|]. split; [|lia].
    rewrite Z.gtb_ltb, Z.ltb_ge in Hc. lia.
Qed.

Lemma dropped_weaken m0 e0 l l' st n s : l' <= l -> dropped_from m0 e0 l st n s ->
  dropped_from m0 e0 l' st n s.
Proof.
  destruct s as [[g m] e]. intros Hl (k & r & H1 & H2 & H3 & H4 & H5 & H6).
  exists k, r. repeat (split; auto). lia.
Qed.

Lemma sticky_guard (n st : bool) : let g0 := if n then set_negative default_guard else default_guard in
  let g := if st then mkGuard (digits g0) true (g_negative g0) else g0 in
  guards g 0 0 st /\ g_negative g = n.
Proof.
  cbv zeta. destruct (signed_guard n) as [Hg Hn]. destruct st; [|auto].
  split; [apply guards_sticky|]; auto.
Qed.

(** [normalize_arithmetic_parts_with_dropped] after its raising loop. *)
Definition normalize_raised (F : bool -> Z -> Z -> outcome NumberArithmeticError NumberParts)
    (t : tls) (g : ArithmeticGuard) (n : bool) (m e : Z)
    : outcome NumberArithmeticError NumberParts :=
  '(g, m, e) <- while digit_fuel (fun '(g, m, e) => m >? MANTISSA_LARGE_MAX)
      (fun '(g, m, e) => drop_below_max g m e) (g, m, e);;
  if (e <? NUMBER_MIN_EXPONENT) || (m <? MANTISSA_LARGE_MIN) then Ok zero else
  '(g, m, e) <- (if m >? NUMBER_MAX_REP_UP then drop_below_max g m e else Ok (g, m, e));;
  '(_, r) <- do_round_up t g (mkRounding n m e) MANTISSA_LARGE_MIN MANTISSA_LARGE_MAX Large330;;
  finish_arithmetic_result_with F (rn r) (rm r) (re r) Large330.

Lemma normalize_raised_correct F md n g m0 e0 st D p :
  guards g 0 0 st -> g_negative g = n ->
  0 < m0 < 2 ^ 128 -> -500000 <= e0 <= 500000 ->
  MANTISSA_LARGE_MIN <= m0 \/ e0 <= NUMBER_MIN_EXPONENT ->
  0 <= p < D -> (st = true <-> p > 0) -> (p > 0 -> MANTISSA_LARGE_MAX < m0 \/ 2 * p <= D) ->
  rounding_of above_max md n (m0 * D + p) D e0 (normalize_raised F (mkTls Large330 md) g n m0 e0).
Proof.
  intros Hg Hn Hm0 He0 Hmin Hp Hst Hhalf. unfold normalize_raised, rounding_of.
  eapply yields_bind.
  { apply (normalize_drop_loop m0 e0 st n g D p); auto; [lia..|].
    rewrite <- Hn. apply dropped_start; auto. lia. }
  intros [[g1 m] e] (Hd & Hm & He).
  assert (e0 <= e /\ (e = e0 -> m = m0) /\ (e0 < e -> MANTISSA_LARGE_MIN <= m) /\ 0 <= m)
    as (Hee & Heq & Hlt & Hm1).
  { destruct Hd as (k & r & (Hk & Hr & _) & _ & -> & Hmk & Hmm & Hl).
    split; [lia|]. split; [|number_consts; lia].
    intros. assert (k = 0) as -> by lia. rewrite Z.pow_0_r in *. lia. }
  destruct ((e <? NUMBER_MIN_EXPONENT) || (m <? MANTISSA_LARGE_MIN)) eqn:Hz.
  - cbn [yields]. left. split; [reflexivity|]. rewrite orb_true_iff, !Z.ltb_lt in Hz.
    destruct Hd as (k & r & (Hk & Hr & _) & _ & -> & -> & _ & _).
    replace e0 with (e0 + k - k) by lia. apply underflow_below; auto. lia.
  - rewrite orb_false_iff, !Z.ltb_ge in Hz.
    eapply (yields_bind _ _ (fun '(g', q, e') => dropped_from m0 e0 NUMBER_MAX_REP_UP st n (g', q, e')
      /\ q <= NUMBER_MAX_REP_UP /\ (MANTISSA_LARGE_MIN <= q \/ e0 < e') /\ e <= e' <= 600000)).
    + destruct (Z.gtb_spec m NUMBER_MAX_REP_UP).
      * eapply yields_mono; [apply (drop_below_max_step m0 e0 NUMBER_MAX_REP_UP st n g1 m e D p);
          auto; [eapply dropped_weaken; [|eauto]; number_consts; lia|lia..]| |auto].
        intros [[g' m'] e'] (Hd' & -> & -> & He'). split; [auto|]. pose proof (Z.mul_div_le m 10 ltac:(lia)). number_consts. lia.
      * cbn [yields]. split; [eapply dropped_weaken; [|eauto]|]; number_consts; lia.
    + intros [[g' q] e'] (Hd' & Hq & Hq' & He').
      assert (e0 < e' \/ 2 * p <= D).
      { destruct (Z.eq_dec p 0); [lia|]. destruct Hhalf as [H|H]; [lia| |auto].
        left. destruct (Z.eq_dec e e0); lia. }
      eapply yields_mono; [apply (round_finish F md n g' q e' m0 e0 st (m0 * D + p) D p); auto; lia|auto|].
      intros err [-> Ha]. split; [auto|]. apply above_range_max, Ha.
Qed.

(** Normalising [m0] and a remainder [p / D] below its last digit, which is
    known to be there when [st].  The remainder matters only when the mantissa
    has the digits of a full one, or nearly. *)
Lemma normalize_330 fuel md n m0 e0 st D p :
  0 < m0 < 2 ^ 128 -> -400000 <= e0 <= 400000 ->
  0 <= p < D -> (st = true <-> p > 0) ->
  (p > 0 -> MANTISSA_LARGE_MAX < m0 \/ (10 ^ 16 <= m0 /\ 1000 * p < D)) ->
  rounding_of above_max md n (m0 * D + p) D e0
    (normalize_loop (S fuel) (mkTls Large330 md) n m0 e0 MANTISSA_LARGE_MIN MANTISSA_LARGE_MAX
       Large330 st).
Proof.
  intros Hm0 He0 Hp Hst Hpre. cbn [normalize_loop].
  assert ((m0 =? 0) = false) as -> by lia. unfold rounding_of.
  eapply yields_bind.
  { eapply yields_mono; [apply (raise_loop Overflow m0 e0); lia|intros s Hs; exact Hs|contradiction]. }
  intros [m e] (j & Hj & Hm & He & Hlim & Hend).
  destruct (sticky_guard n st) as [Hg Hn]. set (g := if st then _ else _) in *.
  pose proof (pow10_pos j Hj) as Hjp.
  assert (p = 0 \/ j = 0 \/ j <= 2) as Hj2.
  { destruct (Z.eq_dec p 0); [auto|right]. destruct Hlim as [|Hlim]; [auto|right].
    destruct (Z.le_gt_cases j 2); [auto|exfalso].
    assert (10 ^ 3 <= 10 ^ j) by (apply Z.pow_le_mono_r; lia).
    destruct (Hpre ltac:(lia)) as [Hb|[Hb _]]; number_consts; nia. }
  assert (j <= 20) as Hj20.
  { destruct (Z.le_gt_cases j 20); [auto|exfalso].
    assert (10 ^ 20 <= 10 ^ j) by (apply Z.pow_le_mono_r; lia). number_consts. nia. }
  assert (0 <= p * 10 ^ j < D /\ (p * 10 ^ j > 0 -> MANTISSA_LARGE_MAX < m \/ 2 * (p * 10 ^ j) <= D))
    as [Hp' Hhalf].
  { destruct (Z.eq_dec p 0) as [->|]; [lia|]. 
    assert (j = 0 \/ 1 <= j <= 2) as [->|Hj'] by lia.
    - rewrite Z.pow_0_r in *. destruct (Hpre ltac:(lia)); lia.
    - assert (10 ^ j = 10 \/ 10 ^ j = 100) as Hjj
        by (assert (j = 1 \/ j = 2) as [-> | ->] by lia; auto).
      destruct (Hpre ltac:(lia)) as [Hb|[_ Hb]]; [|lia]. exfalso. number_consts. lia. }
  apply (rounding_of_shift md n _ D e0 j); [auto|].
  replace ((m0 * D + p) * 10 ^ j) with (m * D + p * 10 ^ j) by (subst m; lia).
  rewrite <- He.
  apply (normalize_raised_correct _ md n g m e st D (p * 10 ^ j)); auto; try lia.
  - destruct Hlim as [->|]; [rewrite Z.pow_0_r in Hm; lia|]. number_consts. nia.
  - rewrite Hst. nia.
Qed.

(** ** Division *)

(** C13: division is correctly rounded in the scale [Large330], which is in force by
    default and under the amendments with the rounding fixes.  For normalised
    operands and any rounding mode: dividing by zero is the error [DivideByZero];
    zero divided by another number is zero; otherwise the quotient the two integer
    divisions and the sticky bit produce is the representable number the mode
    prescribes for the exact quotient, or zero when the quotient is below the
    smallest one, and an overflow is reported only when the quotient exceeds
    [number_max].  The other scales keep the rounding of earlier versions, which can be wrong
    ([small_division_misrounds]). *)
Theorem try_div_correctly_rounded md x y :
  is_normalized x Large330 = true -> is_normalized y Large330 = true ->
  if mantissa y =? 0 then try_div (mkTls Large330 md) x y = Err DivideByZero
  else if mantissa x =? 0 then try_div (mkTls Large330 md) x y = Ok zero
  else rounding_of above_max md (xorb (negative x) (negative y))
    (mantissa x) (mantissa y) (exponent x - exponent y) (try_div (mkTls Large330 md) x y).
Proof.
  intros Hx Hy. destruct (Z.eqb_spec (mantissa y) 0) as [Hy0|Hy0]; [now rewrite (normalized_zero y Hy Hy0)|].
  destruct (Z.eqb_spec (mantissa x) 0) as [Hx0|Hx0].
  { rewrite (normalized_zero x Hx Hx0). unfold try_div. now rewrite (number_eqb_zero y Hy0). }
  destruct (normalized_lattice x Hx Hx0) as [[Hmx _] Hex].
  destruct (normalized_lattice y Hy Hy0) as [[Hmy _] Hey].
  unfold try_div. rewrite !number_eqb_zero by auto. cbn [get_mantissa_scale scale_cell].
  cbn [mantissa_range_min mantissa_range_max MantissaScale_eqb negb cusp_rounding_320_enabled andb].
  set (mx := mantissa x) in *. set (my := mantissa y) in *. set (n := xorb _ _).
  set (num := mx * 100000000000000000). cbv zeta.
  rewrite checked_ok by (subst num; cbn; number_consts; lia). cbn [bind].
  assert ((my =? 0) = false) as -> by lia.
  unfold FACTOR_EXPONENT, CORRECTION_EXPONENT.
  rewrite checked_ok by (cbn; number_consts; lia). cbn [bind].
  rewrite checked_ok by (cbn; number_consts; lia). cbn [bind].
  pose proof (Z.div_mod num my ltac:(lia)) as Hdm.
  pose proof (Z.mod_pos_bound num my ltac:(number_consts; lia)) as Hmod.
  set (zm := num / my) in *. set (rem := num mod my) in *.
  assert (10 ^ 16 <= zm <= 10 ^ 18) as Hzm.
  { subst num. number_consts. split; [destruct (Z.le_gt_cases (10 ^ 16) zm); auto
      |destruct (Z.le_gt_cases zm (10 ^ 18)); auto]; exfalso; nia. }
  apply (rounding_of_shift md n mx my _ 17); [lia|]. change (mx * 10 ^ 17) with num.
  destruct (Z.eqb_spec rem 0) as [Hr0|Hr0]; cbn [negb].
  - cbn [bind]. replace num with (zm * my + 0) by lia.
    apply normalize_330; try lia; number_consts; lia.
  - rewrite plain_ok by (cbn; number_consts; lia). cbn [bind].
    pose proof (Z.div_mod (rem * 100000) my ltac:(lia)) as Hdm2.
    pose proof (Z.mod_pos_bound (rem * 100000) my ltac:(number_consts; lia)) as Hmod2.
    set (corr := rem * 100000 / my) in *. set (p := rem * 100000 mod my) in *.
    assert (0 <= corr < 100000) as Hcorr by nia.
    destruct (Z.eqb_spec corr 0) as [Hc0|Hc0]; cbn [negb bind].
    + assert ((p =? 0) = false) as -> by lia. cbn [negb].
      replace num with (zm * my + rem) by lia.
      apply normalize_330; try (number_consts; lia).
    + rewrite checked_ok by (cbn; lia). cbn [bind].
      rewrite checked_ok by (cbn; number_consts; lia). cbn [bind].
      rewrite checked_ok by (cbn; lia). cbn [bind].
      apply (rounding_of_shift md n num my _ 5); [lia|].
      replace (num * 10 ^ 5) with ((zm * 100000 + corr) * my + p) by lia.
      apply normalize_330; try (number_consts; lia).
Qed.

(** Rounded upwards in the scale [Small], a quotient can be below the exact one. *)
Lemma small_division_misrounds :
  try_div (mkTls Small Upward) (mkNumber false 1568416432208836 0) (mkNumber false 2062116443042876 0)
    = Ok (mkNumber false 7605857746299078 (-16)) /\
  7605857746299078 * 2062116443042876 < 1568416432208836 * 10 ^ 16.
Proof. split; vm_compute; reflexivity. Qed.

Lemma try_div_correctly_rounded_witness :
  rounding_of above_max ToNearest true 1000000000000000000 3000000000000000000 (-18 - -18)
    (try_div initial_tls (mkNumber true 1000000000000000000 (-18))
       (mkNumber false 3000000000000000000 (-18))).
Proof.
  apply (try_div_correctly_rounded ToNearest (mkNumber true 1000000000000000000 (-18))
    (mkNumber false 3000000000000000000 (-18))); (reflexivity || discriminate).
Defined.
