(* ===== verification/NumberAdd.v ===== *)
(** * NumberAdd: sums and differences of the default scale are correctly rounded

    [try_add_assign] aligns the two exponents in three stages, keeping the
    digits that do not fit in the guard; [aligned] is what the stages
    establish.  A sum then carries the guard as a sticky bit into the
    normalisation; a difference first takes digits back from the guard. *)

From S2P Require Import Prelude Number NumberGuard NumberRound NumberArith.
From Stdlib Require Import ZArith Lia List Bool.
Import ListNotations.

(** ** Alignment *)

(** [m] at exponent [e] is what is left of [m0] at [e0]; the guard has the rest. *)
Definition shrunk (m0 e0 : Z) (s : ArithmeticGuard * Z * Z) : Prop :=
  let '(g, m, e) := s in
  exists r, guards g (e - e0) r false /\ m0 = m * 10 ^ (e - e0) + r /\ 0 <= m.

Lemma shrunk_step m0 e0 g m e : shrunk m0 e0 (g, m, e) -> -500000 <= e <= 500000 ->
  yields (drop_digit g m e)
    (fun s => shrunk m0 e0 s /\ s = (push g (cast U8 (m mod 10)), m / 10, e + 1))
    (fun _ => False).
Proof.
  intros (r & Hg & Hm & Hm0) He. unfold drop_digit. rewrite checked_ok by (cbn; lia).
  cbn [bind yields]. split; [|reflexivity]. destruct (mod10_digit m) as [-> Hd].
  pose proof (Z.div_mod m 10 ltac:(lia)). pose proof Hg as (Hk & _).
  exists (m mod 10 * 10 ^ (e - e0) + r). replace (e + 1 - e0) with (e - e0 + 1) by lia.
  split; [now apply guards_push|]. rewrite pow10_succ by lia. split; [nia|].
  apply Z.div_pos; lia.
Qed.

(** The first stage only drops zeros. *)
Lemma trim_loop m0 e0 limit g0 fuel : 0 < m0 -> guards g0 0 0 false -> e0 <= limit ->
  -400000 <= e0 -> limit <= 400000 -> (Z.to_nat (limit - e0) < fuel)%nat ->
  yields (while fuel (fun '(g, sm, se) => (se <? limit) && (sm mod 10 =? 0))
            (fun '(g, sm, se) => drop_digit g sm se) (g0, m0, e0))
    (fun '(g, m, e) => e0 <= e <= limit /\ guards g (e - e0) 0 false /\
       m0 = m * 10 ^ (e - e0))
    (fun _ => False).
Proof.
  intros Hm0 Hg0 He0 Hlo Hhi Hf. eapply yields_mono; [apply (while_rule
    (fun '(g, m, e) => e0 <= e <= limit /\ guards g (e - e0) 0 false /\
       m0 = m * 10 ^ (e - e0))
    (fun '(_, _, e) => Z.to_nat (limit - e)) (fun _ => False))| |contradiction].
  - intros [[g m] e] (He & Hg & Hm) Hc. bool_prop.
    unfold drop_digit. rewrite checked_ok by (cbn; lia). cbn [bind yields].
    rewrite H0. change (cast U8 0) with 0. pose proof (Z.div_mod m 10 ltac:(lia)) as Hdm.
    pose proof (guards_push g (e - e0) 0 false 0 Hg ltac:(lia)) as Hg'.
    rewrite Z.mul_0_l in Hg'. replace (e + 1 - e0) with (e - e0 + 1) by lia.
    rewrite pow10_succ by lia. split; [|lia]. split; [lia|]. split; [exact Hg'|]. nia.
  - replace (e0 - e0) with 0 by lia. rewrite Z.pow_0_r. split; [lia|]. auto with zarith.
  - exact Hf.
  - intros [[g m] e] [H _]. exact H.
Qed.

(** The second stage lengthens the other mantissa by up to three digits. *)
Lemma expand_loop a ea se fuel : 10 ^ 18 <= a < 10 ^ 19 -> NUMBER_MIN_EXPONENT <= se <= ea ->
  ea <= 400000 -> (Z.to_nat (ea - se) < fuel)%nat ->
  yields (while fuel
            (fun '(xm, xe) => (se <? xe) && (xe >? NUMBER_MIN_EXPONENT)
                              && (xm <? MANTISSA_LARGE_MIN * 1000))
            (fun '(xm, xe) =>
               xm' <- checked U128 Overflow (xm * 10);;
               xe' <- checked I32 Overflow (xe - 1);;
               Ok (xm', xe')) (a, ea))
    (fun '(xm, xe) => se <= xe <= ea /\ xm = a * 10 ^ (ea - xe) /\
       xm < 10 ^ 22 /\ (xe = se \/ 10 ^ 21 <= xm))
    (fun _ => False).
Proof.
  intros Ha Hse Hea Hf. eapply yields_mono; [apply (while_rule
    (fun '(xm, xe) => se <= xe <= ea /\ xm = a * 10 ^ (ea - xe) /\ xm < 10 ^ 22)
    (fun '(_, xe) => Z.to_nat (xe - se)) (fun _ => False))| |contradiction].
  - intros [xm xe] (He & Hm & Hlt) Hc. bool_prop.
    pose proof (pow10_pos (ea - xe) ltac:(lia)). assert (0 < xm) by nia.
    rewrite checked_ok by (cbn; number_consts; lia). cbn [bind].
    rewrite checked_ok by (cbn; number_consts; lia). cbn [bind yields].
    replace (ea - (xe - 1)) with (ea - xe + 1) by lia. rewrite pow10_succ by lia.
    number_consts. lia.
  - rewrite Z.sub_diag. lia.
  - exact Hf.
  - intros [xm xe] [(He & Hm & Hlt) Hc]. repeat split; try lia.
    rewrite !andb_false_iff, Z.ltb_ge, Z.gtb_ltb, !Z.ltb_ge in Hc. number_consts. lia.
Qed.

(** The third stage drops what is left. *)
Lemma shrink_loop m0 e0 limit g m e fuel : shrunk m0 e0 (g, m, e) ->
  -400000 <= e <= limit -> limit <= 400000 -> (Z.to_nat (limit - e) < fuel)%nat ->
  yields (while fuel (fun '(g, sm, se) => se <? limit)
            (fun '(g, sm, se) => drop_digit g sm se) (g, m, e))
    (fun s => shrunk m0 e0 s /\ snd s = limit) (fun _ => False).
Proof.
  intros Hs He Hl Hf. eapply yields_mono; [apply (while_rule
    (fun s => shrunk m0 e0 s /\ e <= snd s <= limit)
    (fun '(_, _, e) => Z.to_nat (limit - e)) (fun _ => False))| |contradiction].
  - intros [[g' m'] e'] [Hs' He'] Hc. cbn [snd] in He'. bool_prop.
    eapply yields_mono; [apply shrunk_step; [exact Hs'|lia]| |auto].
    intros s [Hs1 ->]. cbn [snd]. split; [split; [exact Hs1|lia]|lia].
  - split; [auto|cbn [snd]; lia].
  - exact Hf.
  - intros [[g' m'] e'] [[Hs' He'] Hc]. cbn [snd] in *. bool_prop. split; [auto|lia].
Qed.

(** The result of the alignment of [a] at [ea] with [b] at the smaller [eb]. *)
Definition adjusted (a ea b eb : Z) (s : ArithmeticGuard * Z * Z * Z * Z) : Prop :=
  let '(g, xm, xe, sm, se) := s in
  se = xe /\ eb <= xe <= ea /\
  exists r, guards g (xe - eb) r false /\ xm = a * 10 ^ (ea - xe) /\
    b = sm * 10 ^ (xe - eb) + r /\ 0 <= sm /\ xm < 10 ^ 22 /\ (r = 0 \/ 10 ^ 21 <= xm).

Lemma adjust_spec g a ea b eb : 10 ^ 18 <= a < 10 ^ 19 -> 0 < b -> eb < ea ->
  NUMBER_MIN_EXPONENT <= eb -> ea <= NUMBER_MAX_EXPONENT -> guards g 0 0 false ->
  yields (adjust Large330 (MANTISSA_LARGE_MIN * 1000) g a ea b eb) (adjusted a ea b eb)
    (fun _ => False).
Proof.
  intros Ha Hb Hlt Hlo Hhi Hg. unfold adjust. cbn [cusp_rounding_330_enabled].
  cbv zeta. set (fuel := S (Z.to_nat (ea - eb))).
  eapply (yields_bind _ _ (fun '(g1, xm, xe, m1, e1) => eb <= e1 <= xe /\ xe <= ea /\
    guards g1 (e1 - eb) 0 false /\ b = m1 * 10 ^ (e1 - eb) /\ xm = a * 10 ^ (ea - xe) /\
    xm < 10 ^ 22 /\ (xe = e1 \/ 10 ^ 21 <= xm))).
  { eapply yields_bind; [apply (trim_loop b eb ea g fuel); auto; number_consts; lia|].
    intros [[g1 m1] e1] (He1 & Hg1 & Hm1).
    eapply yields_bind; [apply (expand_loop a ea e1 fuel); number_consts; lia|].
    intros [xm xe] (Hxe & Hxm & Hx22 & Hx). cbn [yields]. repeat (split; auto with zarith). }
  intros [[[[g1 xm] xe] m1] e1] (He1 & Hxe & Hg1 & Hm1 & Hxm & Hx22 & Hx).
  assert (0 <= m1) by (pose proof (pow10_pos (e1 - eb) ltac:(lia)); nia).
  assert (shrunk b eb (g1, m1, e1)) as Hs by (exists 0; split; [auto|lia]).
  destruct Hx as [->|Hx].
  { unfold fuel. cbn [while]. rewrite Z.ltb_irrefl. cbn [bind yields].
    split; [auto|]. split; [lia|]. exists 0. rewrite Z.add_0_r. auto 10. }
  eapply yields_bind; [apply (shrink_loop b eb xe g1 m1 e1 fuel); auto; number_consts; lia|].
  intros [[g2 m2] e2] [(r & Hg2 & Hb2 & Hm2) He2]. cbn [snd yields] in *. subst e2.
  split; [auto|]. split; [lia|]. exists r. auto 10.
Qed.

(** ** Differences *)

(** Taking digits back from the guard.  One digit is enough: the lengthened
    mantissa exceeds the other one by far. *)
Lemma pop_loop g M e K r : guards g K r false -> 0 < M -> -400000 <= e <= 400000 ->
  r = 0 \/ 99 * 10 ^ 19 <= M < 10 ^ 22 ->
  yields (while pop_fuel
            (fun '(g, xm, xe) => (xm <? MANTISSA_LARGE_MIN * 1000) && negb (empty g))
            (fun '(g, xm, xe) =>
               xm <- checked U128 Overflow (xm * 10);;
               let '(d, g) := pop g in
               xe <- checked I32 Overflow (xe - 1);;
               Ok (g, saturate U128 (xm - d), xe)) (g, M, e))
    (fun '(g', M', e') => exists j K' r', K = K' + j /\ e' = e - j /\ 0 <= K' /\ 0 <= j <= 1 /\
       0 <= r' < 10 ^ K' /\ M * 10 ^ K - r = M' * 10 ^ K' - r' /\
       empty g' = negb (r' >? 0) /\
       ((r' = 0 /\ r = 0 /\ M' = M) \/ 10 ^ 20 * 9 <= M' < 10 ^ 23))
    (fun _ => False).
Proof.
  intros Hg HM He Hr. pose proof Hg as (HK & Hrk & _).
  pose proof (guards_nonempty _ _ _ _ Hg) as Hemp. rewrite orb_false_r in Hemp.
  change pop_fuel with (S (S 98)). cbn [while].
  destruct ((M <? MANTISSA_LARGE_MIN * 1000) && negb (empty g)) eqn:Hc.
  - rewrite Hemp, negb_involutive in Hc. bool_prop. destruct Hr as [|Hr]; [lia|].
    assert (1 <= K) as HK1 by (destruct (Z.eq_dec K 0) as [->|]; [rewrite Z.pow_0_r in *; lia|lia]).
    pose proof (pop_digit g K r false Hg HK1) as Hpop. destruct (pop g) as [d g'].
    destruct Hpop as (Hd & Hrd & Hemp'). rewrite orb_false_r in Hemp'.
    rewrite checked_ok by (cbn; lia). cbn [bind].
    rewrite checked_ok by (cbn; lia). cbn [bind].
    assert (saturate U128 (M * 10 - d) = M * 10 - d) as -> by (unfold saturate; cbn; lia).
    assert ((M * 10 - d <? MANTISSA_LARGE_MIN * 1000) = false) as -> by (number_consts; lia).
    cbn [andb yields]. pose proof (Z.mod_pos_bound r (10 ^ (K - 1)) (pow10_pos (K - 1) ltac:(lia))).
    exists 1, (K - 1), (r mod 10 ^ (K - 1)). do 5 (split; [lia|]).
    split; [|split; [auto|lia]].
    assert (10 ^ K = 10 * 10 ^ (K - 1)) as ->; [|lia].
    rewrite <- pow10_succ by lia. f_equal. lia.
  - cbn [yields]. exists 0, K, r. rewrite Z.add_0_r, Z.sub_0_r.
    do 6 (split; [lia|]). split; [auto|lia].
Qed.

(** A power of ten as denominator is an exponent. *)
Lemma rounding_of_denominator md n N K E o : 0 <= K ->
  rounding_of above_max md n N (10 ^ K) E o -> rounding_of above_max md n N 1 (E - K) o.
Proof.
  intros HK H. pose proof (pow10_pos K HK) as HKp.
  assert (forall b, b <= E - K -> N * 10 ^ (E - b) = N * 10 ^ (E - K - b) * 10 ^ K) as HV.
  { intros. rewrite <- Z.mul_assoc, <- Z.pow_add_r by lia.
    replace (E - K - b + K) with (E - b) by lia. reflexivity. }
  unfold rounding_of. eapply yields_mono; [exact H| |].
  - intros z [[-> Hz]|(Hn & Hz & Hc)]; [left; split; [auto|]|right].
    + intros b Hb Hb'. specialize (Hz b ltac:(lia) Hb'). rewrite HV in Hz by lia.
      pose proof (pow10_pos (E - K - b) ltac:(lia)). nia.
    + split; [auto|]. split; [auto|]. intros y b Hy Hy0 HE Hbx Hby.
      specialize (Hc y b Hy Hy0 ltac:(lia) Hbx Hby). cbv zeta in *. rewrite HV in Hc by lia.
      set (V := N * 10 ^ (E - K - b)) in *. rewrite !Z.mul_1_r.
      replace (mantissa z * 10 ^ K * _) with (mantissa z * 10 ^ (exponent z - b) * 10 ^ K)
        in Hc by lia.
      replace (mantissa y * 10 ^ K * _) with (mantissa y * 10 ^ (exponent y - b) * 10 ^ K)
        in Hc by lia.
      destruct (direction_of md n); [nia|nia|].
      rewrite <- !Z.mul_sub_distr_r, !Z.abs_mul in Hc. nia.
  - intros err [-> Ha]. split; [auto|]. intros b Hb Hb'. specialize (Ha b ltac:(lia) Hb').
    rewrite HV in Ha by lia. pose proof (pow10_pos (E - K - b) ltac:(lia)). nia.
Qed.

(** [do_round_down] on [Large330] borrows one for a non-empty guard. *)
Lemma round_down_borrow {E} t g n M e : empty g = false -> 0 < M - 1 < 2 ^ 128 ->
  MANTISSA_LARGE_MIN <= M - 1 -> NUMBER_MIN_EXPONENT <= e ->
  do_round_down (E := E) t g (mkRounding n M e) MANTISSA_LARGE_MIN Large330 =
    Ok (mkRounding n (M - 1) e).
Proof.
  intros Hg HM Hmin He. unfold do_round_down. cbn [cusp_rounding_330_enabled rm re rn].
  rewrite Hg. cbn [negb]. rewrite plain_ok by (cbn; lia). cbn [bind].
  unfold bring_into_range. cbn [cusp_rounding_330_enabled rm re rn negb orb andb].
  assert ((M - 1 <? MANTISSA_LARGE_MIN) = false) as -> by lia. cbn [andb bind].
  assert ((e <? NUMBER_MIN_EXPONENT) || (M - 1 =? 0) = false) as -> by lia. reflexivity.
Qed.

Lemma round_down_exact {E} t g n M e : empty g = true -> 0 < M < 2 ^ 120 ->
  -400000 <= e <= 400000 ->
  do_round_down (E := E) t g (mkRounding n M e) MANTISSA_LARGE_MIN Large330 =
    let j := if M <? MANTISSA_LARGE_MIN then 1 else 0 in
    Ok (if e - j <? NUMBER_MIN_EXPONENT then mkRounding false 0 NUMBER_ZERO_EXPONENT
        else mkRounding n (M * 10 ^ j) (e - j)).
Proof.
  intros Hg HM He. unfold do_round_down. cbn [cusp_rounding_330_enabled rm re rn].
  rewrite Hg. cbn [negb bind].
  unfold bring_into_range. cbn [cusp_rounding_330_enabled rm re rn negb orb andb].
  assert ((M =? 0) = false) as HM0 by lia. rewrite HM0, andb_true_r.
  destruct (M <? MANTISSA_LARGE_MIN).
  - rewrite !plain_ok by (cbn; lia). cbn [bind].
    assert ((M * 10 =? 0) = false) as -> by lia. rewrite orb_false_r.
    destruct (e - 1 <? NUMBER_MIN_EXPONENT); reflexivity.
  - cbn [bind]. rewrite HM0, orb_false_r, Z.sub_0_r, Z.pow_0_r, Z.mul_1_r.
    destruct (e <? NUMBER_MIN_EXPONENT); reflexivity.
Qed.

(** What the rest of [try_add_assign] does with a rounding and its guard. *)
Definition finish_sum (md : RoundingMode) (s : ArithmeticGuard * rounding)
    : outcome NumberArithmeticError NumberParts :=
  let '(g, r) := s in
  normalize_arithmetic_parts_with_dropped (mkTls Large330 md) (rn r) (rm r) (re r)
    MANTISSA_LARGE_MIN MANTISSA_LARGE_MAX Large330 (negb (empty g)).

Lemma finish_exact md n g M e K : empty g = true -> 0 < M < 2 ^ 120 -> 0 <= K ->
  NUMBER_MIN_EXPONENT <= e <= 300000 ->
  yields (r <- do_round_down (mkTls Large330 md) g (mkRounding n M e) MANTISSA_LARGE_MIN Large330;;
          Ok (g, r))
    (fun s => rounding_of above_max md n (M * 10 ^ K) (10 ^ K) e (finish_sum md s))
    (fun _ : NumberArithmeticError => False).
Proof.
  intros Hg HM HK He. pose proof (pow10_pos K HK).
  rewrite round_down_exact by (auto; number_consts; lia). cbv zeta. cbn [bind yields].
  destruct (Z.ltb_spec M MANTISSA_LARGE_MIN) as [Hlt|Hge].
  - destruct (Z.ltb_spec (e - 1) NUMBER_MIN_EXPONENT) as [Hu|Hu].
    + left. split; [reflexivity|].
      pose proof (underflow_below M e 0 0 (10 ^ K) 0) as Hb.
      rewrite Z.pow_0_r, Z.mul_1_r, !Z.add_0_r, Z.sub_0_r in Hb.
      apply Hb; try lia. number_consts. lia.
    + cbn [finish_sum rn rm re]. rewrite Hg. apply (rounding_of_shift md n _ _ e 1); [lia|].
      replace (M * 10 ^ K * 10 ^ 1) with (M * 10 ^ 1 * 10 ^ K + 0) by lia.
      apply normalize_330; number_consts; lia.
  - rewrite Z.sub_0_r, Z.pow_0_r, Z.mul_1_r.
    assert ((e <? NUMBER_MIN_EXPONENT) = false) as -> by lia.
    cbn [finish_sum rn rm re]. rewrite Hg. replace (M * 10 ^ K) with (M * 10 ^ K + 0) by lia.
    apply normalize_330; number_consts; lia.
Qed.

Lemma finish_borrow md n g M e K r : empty g = false -> 10 ^ 20 * 9 <= M < 10 ^ 23 -> 0 <= K ->
  0 < r < 10 ^ K -> NUMBER_MIN_EXPONENT <= e <= 300000 ->
  yields (r <- do_round_down (mkTls Large330 md) g (mkRounding n M e) MANTISSA_LARGE_MIN Large330;;
          Ok (g, r))
    (fun s => rounding_of above_max md n (M * 10 ^ K - r) (10 ^ K) e (finish_sum md s))
    (fun _ : NumberArithmeticError => False).
Proof.
  intros Hg HM HK Hr He.
  rewrite round_down_borrow by (auto; number_consts; lia). cbn [bind yields finish_sum rn rm re].
  rewrite Hg. replace (M * 10 ^ K - r) with ((M - 1) * 10 ^ K + (10 ^ K - r)) by lia.
  apply normalize_330; number_consts; lia.
Qed.

Lemma difference_rounded md n g M e E r : guards g (e - E) r false -> 0 < M < 10 ^ 22 ->
  NUMBER_MIN_EXPONENT <= E -> e <= NUMBER_MAX_EXPONENT -> r = 0 \/ 99 * 10 ^ 19 <= M ->
  yields
    ('(g, xm, xe) <- while pop_fuel
         (fun '(g, xm, xe) => (xm <? MANTISSA_LARGE_MIN * 1000) && negb (empty g))
         (fun '(g, xm, xe) =>
            xm <- checked U128 Overflow (xm * 10);;
            let '(d, g) := pop g in
            xe <- checked I32 Overflow (xe - 1);;
            Ok (g, saturate U128 (xm - d), xe)) (g, M, e);;
     r <- do_round_down (mkTls Large330 md) g (mkRounding n xm xe) MANTISSA_LARGE_MIN Large330;;
     Ok (g, r))
    (fun s => rounding_of above_max md n (M * 10 ^ (e - E) - r) 1 E (finish_sum md s))
    (fun _ => False).
Proof.
  intros Hg HM He He' Hr. pose proof Hg as (HK & _).
  eapply yields_bind; [apply (pop_loop g M e (e - E) r); auto; number_consts; lia|].
  intros [[g' M'] e'] (j & K' & r' & HKj & He1 & HK' & Hj & Hr' & Hval & Hemp & Hcase).
  rewrite Hval. assert (E = e' - K') as -> by lia.
  destruct (Z.gtb_spec r' 0) as [Hpos|Hz]; cbn [negb] in Hemp.
  - eapply yields_mono; [apply (finish_borrow md n g' M' e' K' r'); auto; number_consts; lia| |auto].
    intros s Hs. apply rounding_of_denominator; auto.
  - assert (r' = 0) as -> by lia. rewrite Z.sub_0_r.
    eapply yields_mono; [apply (finish_exact md n g' M' e' K'); auto; number_consts; lia| |auto].
    intros s Hs. apply rounding_of_denominator; auto.
Qed.

(** ** The whole operation *)

Definition signed (x : NumberParts) : Z := if negative x then - mantissa x else mantissa x.

Definition common_exponent (x y : NumberParts) : Z := Z.min (exponent x) (exponent y).

(** The exact sum, counted at the smaller exponent. *)
Definition exact_sum (x y : NumberParts) : Z :=
  let e := common_exponent x y in
  signed x * 10 ^ (exponent x - e) + signed y * 10 ^ (exponent y - e).

(** Two magnitudes, of which the second one may have lost the digits [r]. *)
Definition covers (X Y K r xm ym : Z) : Prop :=
  X = xm * 10 ^ K /\ Y = ym * 10 ^ K + r /\ (r = 0 \/ (10 ^ 21 <= xm /\ ym < 10 ^ 19)).

Definition aligned (x y : NumberParts) (s : ArithmeticGuard * Z * Z * Z * Z) : Prop :=
  let '(g, xm, xe, ym, ye) := s in
  let E := common_exponent x y in
  let X := mantissa x * 10 ^ (exponent x - E) in
  let Y := mantissa y * 10 ^ (exponent y - E) in
  ye = xe /\ xe <= NUMBER_MAX_EXPONENT /\ 0 <= xm < 10 ^ 22 /\ 0 <= ym < 10 ^ 22 /\
  exists r, guards g (xe - E) r false /\
    (covers X Y (xe - E) r xm ym \/ covers Y X (xe - E) r ym xm).

Lemma adjusted_covers a ea b eb g xm xe sm se : 10 ^ 18 <= a -> 0 < b < 10 ^ 19 -> eb < ea ->
  adjusted a ea b eb (g, xm, xe, sm, se) ->
  se = xe /\ eb <= xe <= ea /\ 0 <= xm < 10 ^ 22 /\ 0 <= sm < 10 ^ 19 /\
  exists r, guards g (xe - eb) r false /\ covers (a * 10 ^ (ea - eb)) b (xe - eb) r xm sm.
Proof.
  intros Ha Hb Hlt (-> & He & r & Hg & Hxm & Hbm & Hsm & Hx22 & Hr).
  pose proof Hg as (_ & Hrk & _). pose proof (pow10_pos (xe - eb) ltac:(lia)).
  pose proof (pow10_pos (ea - xe) ltac:(lia)).
  assert (sm <= b) by nia. split; [auto|]. split; [auto|]. split; [nia|]. split; [lia|].
  exists r. split; [auto|]. split; [|split; [auto|lia]].
  rewrite Hxm, <- Z.mul_assoc, <- Z.pow_add_r by lia.
  replace (ea - xe + (xe - eb)) with (ea - eb) by lia. reflexivity.
Qed.

Definition align (x y : NumberParts) : outcome NumberArithmeticError (ArithmeticGuard * Z * Z * Z * Z) :=
  if exponent x <? exponent y then
    let g := if negative x then set_negative default_guard else default_guard in
    '(g, ym, ye, xm, xe) <- adjust Large330 (MANTISSA_LARGE_MIN * 1000) g
        (mantissa y) (exponent y) (mantissa x) (exponent x);;
    Ok (g, xm, xe, ym, ye)
  else if exponent x >? exponent y then
    let g := if negative y then set_negative default_guard else default_guard in
    adjust Large330 (MANTISSA_LARGE_MIN * 1000) g
      (mantissa x) (exponent x) (mantissa y) (exponent y)
  else
    let g := if ((mantissa x <? mantissa y) && negative x)
                || ((mantissa y <? mantissa x) && negative y)
             then set_negative default_guard else default_guard in
    Ok (g, mantissa x, exponent x, mantissa y, exponent y).

Lemma align_spec x y : is_normalized x Large330 = true -> is_normalized y Large330 = true ->
  mantissa x <> 0 -> mantissa y <> 0 -> yields (align x y) (aligned x y) (fun _ => False).
Proof.
  intros Hx Hy Hx0 Hy0. destruct (normalized_lattice x Hx Hx0) as [[Hmx _] Hex].
  destruct (normalized_lattice y Hy Hy0) as [[Hmy _] Hey]. unfold align, aligned, common_exponent.
  assert (10 ^ 18 <= mantissa x < 10 ^ 19 /\ 10 ^ 18 <= mantissa y < 10 ^ 19) as [Hmx' Hmy']
    by (number_consts; lia).
  assert (forall m e, e - e = 0 /\ m * 10 ^ 0 = m) as Hsame by (intros; lia).
  destruct (Z.ltb_spec (exponent x) (exponent y)) as [Hlt|Hge];
    [|rewrite Z.gtb_ltb; destruct (Z.ltb_spec (exponent y) (exponent x)) as [Hgt|Heq]].
  - rewrite Z.min_l by lia. eapply yields_bind.
    { apply (adjust_spec _ _ (exponent y) (mantissa x) (exponent x)); auto; try lia.
      apply signed_guard. }
    intros [[[[g ym] ye] xm] xe] Ha. apply adjusted_covers in Ha; try lia.
    destruct Ha as (-> & He & Hym & Hxm & r & Hg & Hc). cbn [yields].
    rewrite (proj1 (Hsame 0 (exponent x))), (proj2 (Hsame (mantissa x) 0)).
    repeat (split; [lia|]). exists r. auto.
  - rewrite Z.min_r by lia. eapply yields_mono.
    { apply (adjust_spec _ _ (exponent x) (mantissa y) (exponent y)); auto; try lia.
      apply signed_guard. }
    2: contradiction.
    intros [[[[g xm] xe] ym] ye] Ha. apply adjusted_covers in Ha; try lia.
    destruct Ha as (-> & He & Hym & Hxm & r & Hg & Hc).
    rewrite (proj1 (Hsame 0 (exponent y))), (proj2 (Hsame (mantissa y) 0)).
    repeat (split; [lia|]). exists r. auto.
  - assert (exponent y = exponent x) as -> by lia. rewrite Z.min_id, Z.sub_diag. cbn [yields].
    repeat (split; [lia|]). exists 0. rewrite Z.sub_diag.
    split; [apply (signed_guard (_ || _))|]. left. unfold covers. lia.
Qed.

(** The sign and the magnitude of the sum, by the two signs. *)
Lemma exact_sum_same x y : negative x = negative y ->
  let X := mantissa x * 10 ^ (exponent x - common_exponent x y) in
  let Y := mantissa y * 10 ^ (exponent y - common_exponent x y) in
  0 < X -> 0 < Y -> (exact_sum x y <? 0) = negative x /\ Z.abs (exact_sum x y) = X + Y.
Proof.
  intros Hn X Y HX HY. unfold exact_sum, signed. rewrite <- Hn. cbv zeta.
  destruct (negative x); rewrite ?Z.mul_opp_l; fold X Y; lia.
Qed.

Lemma exact_sum_opposite x y : negative x <> negative y -> exact_sum x y <> 0 ->
  let X := mantissa x * 10 ^ (exponent x - common_exponent x y) in
  let Y := mantissa y * 10 ^ (exponent y - common_exponent x y) in
  X <> Y /\ (exact_sum x y <? 0) = (if Y <? X then negative x else negative y) /\
  Z.abs (exact_sum x y) = Z.abs (X - Y).
Proof.
  intros Hn Hs X Y. revert Hs. unfold exact_sum, signed. cbv zeta.
  destruct (negative x), (negative y); try congruence; rewrite ?Z.mul_opp_l; fold X Y;
    destruct (Z.ltb_spec Y X); lia.
Qed.

Lemma number_eqb_neg x y : mantissa y <> 0 -> exact_sum x y <> 0 -> number_eqb x (neg y) = false.
Proof.
  intros Hy Hs. destruct (number_eqb x (neg y)) eqn:Heq; [|reflexivity]. exfalso. apply Hs.
  unfold number_eqb, neg in Heq. assert ((mantissa y =? 0) = false) as Hy' by lia.
  rewrite Hy' in Heq. cbn [negative mantissa exponent] in Heq.
  rewrite !andb_true_iff, !Z.eqb_eq, eqb_true_iff in Heq. destruct Heq as [[Hn Hm] He].
  unfold exact_sum, common_exponent, signed. rewrite Hn, Hm, He. destruct (negative y); cbn; lia.
Qed.

Lemma difference_magnitude X Y K r xm ym : 0 <= K -> 0 <= r < 10 ^ K -> X <> Y ->
  0 <= xm -> 0 <= ym ->
  covers X Y K r xm ym \/ covers Y X K r ym xm ->
  let M := if xm >? ym then xm - ym else ym - xm in
  0 < M /\ (r = 0 \/ 99 * 10 ^ 19 <= M) /\ Z.abs (X - Y) = M * 10 ^ K - r /\
  (xm >? ym) = (Y <? X).
Proof.
  intros HK Hr Hne Hx Hy Hc M. pose proof (pow10_pos K HK). subst M. rewrite Z.gtb_ltb.
  destruct Hc as [(-> & -> & Hc)|(-> & -> & Hc)]; destruct (Z.ltb_spec ym xm);
    (split; [nia|]; split; [lia|]; split; [nia|]; symmetry;
     try apply Z.ltb_lt; try apply Z.ltb_ge; nia).
Qed.

Lemma sum_rounded md n g xm ym xe E r X Y : guards g (xe - E) r false ->
  covers X Y (xe - E) r xm ym \/ covers Y X (xe - E) r ym xm ->
  0 <= xm < 10 ^ 22 -> 0 <= ym < 10 ^ 22 -> 0 < X + Y -> -300000 <= xe <= 300000 ->
  rounding_of above_max md n (X + Y) 1 E (finish_sum md (g, mkRounding n (xm + ym) xe)).
Proof.
  intros Hg Hc Hx Hy Hpos He. pose proof Hg as (HK & Hrk & _).
  assert (X + Y = (xm + ym) * 10 ^ (xe - E) + r /\ (r = 0 \/ 10 ^ 21 <= xm + ym)) as [HXY Hr]
    by (destruct Hc as [(-> & -> & ?)|(-> & -> & ?)]; lia).
  replace E with (xe - (xe - E)) at 1 by lia.
  apply rounding_of_denominator; [auto|]. cbn [finish_sum rn rm re].
  rewrite (guards_nonempty _ _ _ _ Hg), orb_false_r, negb_involutive, HXY.
  assert (0 < xm + ym) by (destruct (Z.eq_dec (xm + ym) 0) as [Hz|]; [rewrite Hz in *|]; lia).
  apply normalize_330; number_consts; lia.
Qed.

Lemma difference_case md xn yn g xm ym xe E r X Y : guards g (xe - E) r false ->
  covers X Y (xe - E) r xm ym \/ covers Y X (xe - E) r ym xm ->
  0 <= xm < 10 ^ 22 -> 0 <= ym < 10 ^ 22 -> X <> Y ->
  NUMBER_MIN_EXPONENT <= E -> xe <= NUMBER_MAX_EXPONENT ->
  yields
    (let '(xm, xe, xn) := if xm >? ym then (xm - ym, xe, xn) else (ym - xm, xe, yn) in
     '(g, xm, xe) <- while pop_fuel
         (fun '(g, xm, xe) => (xm <? MANTISSA_LARGE_MIN * 1000) && negb (empty g))
         (fun '(g, xm, xe) =>
            xm <- checked U128 Overflow (xm * 10);;
            let '(d, g) := pop g in
            xe <- checked I32 Overflow (xe - 1);;
            Ok (g, saturate U128 (xm - d), xe)) (g, xm, xe);;
     r <- do_round_down (mkTls Large330 md) g (mkRounding xn xm xe) MANTISSA_LARGE_MIN Large330;;
     Ok (g, r))
    (fun s => rounding_of above_max md (if Y <? X then xn else yn) (Z.abs (X - Y)) 1 E
                (finish_sum md s))
    (fun _ => False).
Proof.
  intros Hg Hc Hx Hy Hne HE Hxe. pose proof Hg as (HK & Hrk & _).
  destruct (difference_magnitude X Y (xe - E) r xm ym HK Hrk Hne ltac:(lia) ltac:(lia) Hc)
    as (HM & Hr & Habs & Hsgn).
  rewrite Habs, <- Hsgn.
  destruct (Z.gtb_spec xm ym); apply difference_rounded; auto; lia.
Qed.

(** Normalised numbers that cancel are opposite. *)
Lemma cancel_neg x y : is_normalized x Large330 = true -> is_normalized y Large330 = true ->
  mantissa x <> 0 -> mantissa y <> 0 -> exact_sum x y = 0 -> number_eqb x (neg y) = true.
Proof.
  intros Hx Hy Hx0 Hy0. destruct (normalized_lattice x Hx Hx0) as [[Hmx _] _]. destruct (normalized_lattice y Hy Hy0) as [[Hmy _] _].
  unfold exact_sum, signed. cbv zeta. intros Hs. set (e := common_exponent x y) in *.
  assert (0 <= exponent x - e /\ 0 <= exponent y - e) as [Hex Hey] by (subst e; unfold common_exponent; lia).
  pose proof (pow10_pos _ Hex). pose proof (pow10_pos _ Hey).
  assert (negative x = negb (negative y) /\ mantissa x * 10 ^ (exponent x - e) = mantissa y * 10 ^ (exponent y - e)) as [Hn Heq]
    by (number_consts; destruct (negative x), (negative y); cbn [negb]; split; (reflexivity || nia)).
  assert (forall a b k, MANTISSA_LARGE_MIN <= a <= MANTISSA_LARGE_MAX -> MANTISSA_LARGE_MIN <= b <= MANTISSA_LARGE_MAX -> 0 <= k ->
    a * 10 ^ k = b -> k = 0) as Hone.
  { intros a b k Ha Hb Hk Hab. destruct (Z.eq_dec k 0) as [|Hk0]; [assumption|]. exfalso.
    assert (10 ^ 1 <= 10 ^ k) by (apply Z.pow_le_mono_r; lia). number_consts. nia. }
  assert (exponent x = exponent y) as He.
  { destruct (Z.le_ge_cases (exponent x) (exponent y)) as [Hle|Hge].
    - assert (e = exponent x) as Hee by (subst e; unfold common_exponent; lia). rewrite Hee, Z.sub_diag, Z.mul_1_r in Heq.
      pose proof (Hone (mantissa y) (mantissa x) (exponent y - exponent x) Hmy Hmx ltac:(lia) (eq_sym Heq)). lia.
    - assert (e = exponent y) as Hee by (subst e; unfold common_exponent; lia). rewrite Hee, Z.sub_diag, Z.mul_1_r in Heq.
      pose proof (Hone (mantissa x) (mantissa y) (exponent x - exponent y) Hmx Hmy ltac:(lia) Heq). lia. }
  rewrite He in Heq. apply Z.mul_reg_r in Heq; [|lia]. unfold number_eqb, neg.
  destruct (Z.eqb_spec (mantissa y) 0); [lia|]. cbn [negative mantissa exponent]. rewrite Hn, Heq, He, !Z.eqb_refl, eqb_reflx. reflexivity.
Qed.

(** Operands and a sum that are not zero. *)
Lemma try_add_rounded md x y :
  is_normalized x Large330 = true -> is_normalized y Large330 = true ->
  mantissa x <> 0 -> mantissa y <> 0 -> exact_sum x y <> 0 ->
  rounding_of above_max md (exact_sum x y <? 0) (Z.abs (exact_sum x y)) 1 (common_exponent x y)
    (try_add (mkTls Large330 md) x y).
Proof.
  intros Hx Hy Hx0 Hy0 Hs.
  pose proof (align_spec x y Hx Hy Hx0 Hy0) as Hal.
  destruct (normalized_lattice x Hx Hx0) as [[Hmx _] Hex].
  destruct (normalized_lattice y Hy Hy0) as [[Hmy _] Hey].
  unfold try_add. rewrite !number_eqb_zero, number_eqb_neg by auto.
  cbn [get_mantissa_scale scale_cell cusp_rounding_330_enabled andb negb
    mantissa_range_min mantissa_range_max].
  fold (align x y). unfold rounding_of.
  eapply yields_bind; [eapply yields_mono; [exact Hal|intros s H; exact H|contradiction]|].
  intros [[[[g xm] xe] ym] ye] (-> & Hxe & Hxm & Hym & r & Hg & Hc).
  pose proof Hg as (HK & Hr & _).
  assert (NUMBER_MIN_EXPONENT <= common_exponent x y) as HE by (unfold common_exponent; lia).
  assert (0 < mantissa x * 10 ^ (exponent x - common_exponent x y) /\
          0 < mantissa y * 10 ^ (exponent y - common_exponent x y)) as [HX HY].
  { pose proof (pow10_pos (exponent x - common_exponent x y) ltac:(unfold common_exponent; lia)).
    pose proof (pow10_pos (exponent y - common_exponent x y) ltac:(unfold common_exponent; lia)).
    number_consts. split; apply Z.mul_pos_pos; lia. }
  eapply (yields_bind _ _ (fun s => rounding_of above_max md (exact_sum x y <? 0)
    (Z.abs (exact_sum x y)) 1 (common_exponent x y) (finish_sum md s)));
    [|intros [g' r'] H; exact H].
  destruct (Bool.eqb (negative x) (negative y)) eqn:Hn.
  - apply eqb_prop in Hn. rewrite checked_ok by (cbn; lia). cbn [bind yields].
    destruct (exact_sum_same x y Hn) as [-> ->]; auto.
    apply (sum_rounded _ _ _ _ _ _ _ r); auto; number_consts; lia.
  - apply eqb_false_iff in Hn. destruct (exact_sum_opposite x y Hn Hs) as (Hne & -> & ->).
    eapply yields_mono; [exact (difference_case md _ _ g xm ym xe _ r _ _ Hg Hc Hxm Hym Hne HE Hxe)|auto|contradiction].
Qed.

(** C8: addition is correctly rounded in the scale [Large330], which is in force by
    default and under the amendments with the rounding fixes.  For normalised
    operands and any rounding mode: a number plus zero is the number; two numbers
    that cancel give zero; otherwise [try_add] returns the representable number the
    mode prescribes for the exact signed sum, whatever the distance of the
    exponents and whatever digits cancel, or zero when the sum is below the
    smallest one, and it reports an overflow only when the sum exceeds
    [number_max].  The other scales keep the rounding of earlier versions, which can be
    wrong ([small_addition_misrounds]). *)
Theorem try_add_correctly_rounded md x y :
  is_normalized x Large330 = true -> is_normalized y Large330 = true ->
  if mantissa y =? 0 then try_add (mkTls Large330 md) x y = Ok x
  else if mantissa x =? 0 then try_add (mkTls Large330 md) x y = Ok y
  else if exact_sum x y =? 0 then try_add (mkTls Large330 md) x y = Ok zero
  else rounding_of above_max md (exact_sum x y <? 0) (Z.abs (exact_sum x y)) 1 (common_exponent x y)
    (try_add (mkTls Large330 md) x y).
Proof.
  intros Hx Hy. destruct (Z.eqb_spec (mantissa y) 0) as [Hy0|Hy0]; [now rewrite (normalized_zero y Hy Hy0)|].
  destruct (Z.eqb_spec (mantissa x) 0) as [Hx0|Hx0].
  { rewrite (normalized_zero x Hx Hx0). unfold try_add. now rewrite (number_eqb_zero y Hy0). }
  destruct (Z.eqb_spec (exact_sum x y) 0) as [Hs|Hs].
  { unfold try_add. now rewrite (number_eqb_zero y Hy0), (number_eqb_zero x Hx0), (cancel_neg x y). }
  now apply try_add_rounded.
Qed.

(** Rounded towards zero in the scale [Small], a sum can be above the exact one in
    magnitude. *)
Lemma small_addition_misrounds :
  try_add (mkTls Small TowardsZero) (mkNumber true 9537610396283960 0) (mkNumber false 4556250748849463 (-1))
    = Ok (mkNumber true 9081985321399014 0) /\
  exact_sum (mkNumber true 9537610396283960 0) (mkNumber false 4556250748849463 (-1)) = - 90819853213990137.
Proof. split; vm_compute; reflexivity. Qed.

Lemma try_add_correctly_rounded_witness :
  let x := mkNumber false 1000000000000000000 (-18) in
  let y := mkNumber true 1000000000000000001 (-48) in
  rounding_of above_max Downward (exact_sum x y <? 0) (Z.abs (exact_sum x y)) 1
    (common_exponent x y) (try_add (mkTls Large330 Downward) x y).
Proof. intros x y. exact (try_add_correctly_rounded Downward x y eq_refl eq_refl). Defined.
