(* ===== verification/NumberFacts.v ===== *)
(** * NumberFacts: order and conversions of [Number]

    [compare] decides the order of the exact values on normalised numbers of
    any scale, and integers survive the way into a [Number] and back. *)

From S2P Require Import Prelude Number NumberGuard NumberRound NumberArith NumberAdd.
From Stdlib Require Import ZArith Lia List Bool.
Import ListNotations.

(** ** Order *)

Lemma normalized_range x s : is_normalized x s = true ->
  (mantissa x = 0 /\ negative x = false) \/
  (mantissa_range_min s <= mantissa x < 10 * mantissa_range_min s /\ 0 < mantissa_range_min s).
Proof.
  unfold is_normalized. intros H. destruct (mantissa x =? 0) eqn:E; bool_prop.
  - left. destruct (negative x); cbn in *; auto; discriminate.
  - right. destruct s; cbn in *; number_consts; unfold MANTISSA_SMALL_MIN, MANTISSA_SMALL_MAX in *; lia.
Qed.

(** With the same leading digit position, the larger exponent wins. *)
Lemma exponent_dominates lo m e m' e' b : 0 < lo -> lo <= m < 10 * lo -> lo <= m' < 10 * lo ->
  b <= e' -> e' < e -> m' * 10 ^ (e' - b) < m * 10 ^ (e - b).
Proof.
  intros Hlo Hm Hm' Hb He. pose proof (pow10_pos (e' - b) ltac:(lia)).
  replace (e - b) with (e' - b + 1 + (e - e' - 1)) by lia.
  rewrite Z.pow_add_r, pow10_succ by lia. pose proof (pow10_pos (e - e' - 1) ltac:(lia)).
  set (P := 10 ^ (e' - b)) in *. set (Q := 10 ^ (e - e' - 1)) in *.
  assert (m' * P < 10 * m * P) by (apply Z.mul_lt_mono_pos_r; lia).
  assert (0 < m * P) by (apply Z.mul_pos_pos; lia). nia.
Qed.

Lemma compare_scaled (m m' P : Z) : 0 < P -> (m * P ?= m' * P) = (m ?= m').
Proof. intros. symmetry. apply Zmult_compare_compat_r. lia. Qed.

(** [compare] decides the order of the exact values.  For numbers that are
    normalised at the same scale, whatever the scale, it returns the
    comparison of the two signed values, counted in any common unit. *)
Theorem compare_exact s x y b : is_normalized x s = true -> is_normalized y s = true ->
  b <= exponent x -> b <= exponent y ->
  compare x y = (signed x * 10 ^ (exponent x - b) ?= signed y * 10 ^ (exponent y - b)).
Proof.
  intros Hx Hy Hbx Hby. unfold compare, signed.
  pose proof (pow10_pos (exponent x - b) ltac:(lia)) as HP.
  pose proof (pow10_pos (exponent y - b) ltac:(lia)) as HQ.
  destruct (normalized_range _ _ Hx) as [[Hx0 Hxn]|[Hxr Hlo]];
    destruct (normalized_range _ _ Hy) as [[Hy0 Hyn]|[Hyr Hlo']]; rewrite ?Hx0, ?Hxn, ?Hy0, ?Hyn.
  - reflexivity.
  - assert (0 < mantissa y) by lia. assert ((mantissa y >? 0) = true) as -> by lia.
    destruct (negative y); cbn [eqb negb Z.eqb]; symmetry;
      [apply Z.compare_gt_iff|apply Z.compare_lt_iff]; nia.
  - assert ((mantissa x =? 0) = false) as -> by lia.
    destruct (negative x); cbn [eqb negb Z.eqb]; symmetry;
      [apply Z.compare_lt_iff|apply Z.compare_gt_iff]; nia.
  - assert ((mantissa x =? 0) = false) as -> by lia.
    assert ((mantissa y =? 0) = false) as -> by lia.
    destruct (Z.lt_trichotomy (exponent x) (exponent y)) as [Hlt|[Heq|Hgt]].
    + pose proof (exponent_dominates _ _ _ _ _ b Hlo Hyr Hxr Hbx Hlt).
      assert ((exponent x =? exponent y) = false) as -> by lia.
      assert ((exponent x >? exponent y) = false) as -> by lia.
      destruct (negative x), (negative y); cbn [eqb negb]; symmetry;
        (apply Z.compare_lt_iff || apply Z.compare_gt_iff); nia.
    + rewrite Heq, Z.eqb_refl in *. cbn [negb]. rewrite compare_scaled by lia.
      destruct (negative x), (negative y); cbn [eqb negb]; try reflexivity; symmetry.
      * apply Z.compare_opp.
      * apply Z.compare_lt_iff. lia.
      * apply Z.compare_gt_iff. lia.
    + pose proof (exponent_dominates _ _ _ _ _ b Hlo Hxr Hyr Hby Hgt).
      assert ((exponent x =? exponent y) = false) as -> by lia.
      assert ((exponent x >? exponent y) = true) as -> by lia.
      destruct (negative x), (negative y); cbn [eqb negb]; symmetry;
        (apply Z.compare_lt_iff || apply Z.compare_gt_iff); nia.
Qed.

Lemma compare_exact_witness :
  let x := mkNumber true 1000000000000000 (-15) in
  let y := mkNumber false 2500000000000000 (-20) in
  compare x y = (signed x * 10 ^ (exponent x - -20) ?= signed y * 10 ^ (exponent y - -20)).
Proof. intros x y. apply (compare_exact Small x y (-20)); vm_compute; congruence. Defined.

(** ** Integers *)

(** An integer below the representable limit becomes its mantissa, lengthened
    to eighteen digits after the first. *)
Lemma from_integer m : 0 < Z.abs m <= NUMBER_MAX_REP ->
  exists j, 0 <= j /\ Z.abs m * 10 ^ j <= MANTISSA_LARGE_MAX /\
    MANTISSA_LARGE_MIN <= Z.abs m * 10 ^ j /\
    try_from_external_parts m 0 Large330 = Ok (mkNumber (m <? 0) (Z.abs m * 10 ^ j) (- j)).
Proof.
  intros Hm. unfold try_from_external_parts, try_normalize_exact.
  assert (external_to_internal_mantissa m = Z.abs m) as ->.
  { unfold external_to_internal_mantissa. number_consts.
    destruct (Z.geb_spec m 0), (Z.geb_spec m (- max_of I64)); rewrite cast_id; cbn; lia. }
  unfold normalize_to_range. cbn [mantissa exponent negative mantissa_range_min mantissa_range_max].
  assert ((Z.abs m =? 0) = false) as -> by lia.
  pose proof (raise_loop RequiresRounding (Z.abs m) 0 ltac:(number_consts; lia) ltac:(lia)) as Hl.
  destruct (while digit_fuel _ _ (Z.abs m, 0)) as [[m' e']| | | |]; cbn [yields] in Hl; try contradiction.
  destruct Hl as (j & Hj & -> & -> & Hlim & Hend). pose proof (pow10_pos j Hj).
  assert (j <= 20) as Hj20.
  { destruct (Z.le_gt_cases j 20); [auto|exfalso].
    assert (10 ^ 20 <= 10 ^ j) by (apply Z.pow_le_mono_r; lia). number_consts. nia. }
  assert (Z.abs m * 10 ^ j <= MANTISSA_LARGE_MAX) as Hmax.
  { destruct Hlim as [->|]; [rewrite Z.pow_0_r|]; number_consts; lia. }
  assert (MANTISSA_LARGE_MIN <= Z.abs m * 10 ^ j) as Hmin by (number_consts; lia).
  exists j. do 3 (split; [auto|]). cbn [bind].
  assert ((Z.abs m * 10 ^ j >? MANTISSA_LARGE_MAX) = false) as Hgt by lia.
  unfold digit_fuel. cbn [while]. rewrite Hgt. cbn [bind].
  assert ((0 - j <? NUMBER_MIN_EXPONENT) || (Z.abs m * 10 ^ j <? MANTISSA_LARGE_MIN) = false) as ->
    by (number_consts; lia).
  rewrite checked_ok by (cbn; number_consts; lia). cbn [bind].
  assert ((Z.abs m * 10 ^ j =? 0) = false) as -> by (number_consts; lia).
  rewrite andb_true_r. reflexivity.
Qed.

(** Digits that are zero leave no trace in the guard. *)
Lemma push_zero g : digits g = 0 -> has_extra g = false ->
  push g 0 = g.
Proof. destruct g as [d x n]. cbn. intros -> ->. reflexivity. Qed.

Lemma integer_loop {E} g d o fuel : digits g = 0 -> has_extra g = false -> 0 <= o <= 1000 -> 0 <= d ->
  (Z.to_nat o < fuel)%nat ->
  while (E := E) fuel (fun '(g, drops, offset) => offset <? 0)
      (fun '(g, drops, offset) =>
         offset' <- plain I32 (offset + 1);;
         Ok (push g (cast U8 (Z.rem drops 10)), Z.quot drops 10, offset'))
      (g, d * 10 ^ o, - o) = Ok (g, d, 0).
Proof.
  intros Hd Hx Ho Hd0. revert o Ho. induction fuel as [|n IH]; intros o Ho Hf; [lia|].
  cbn [while]. destruct (Z.ltb_spec (- o) 0) as [Hlt|Hge].
  - rewrite plain_ok by (cbn; lia). cbn [bind].
    replace o with (o - 1 + 1) at 1 2 by lia. rewrite pow10_succ by lia.
    replace (d * (10 * 10 ^ (o - 1))) with (d * 10 ^ (o - 1) * 10) by lia.
    rewrite Z.rem_mul, Z.quot_mul by lia. change (cast U8 0) with 0. rewrite push_zero by auto.
    replace (- o + 1) with (- (o - 1)) by lia. apply IH; lia.
  - assert (o = 0) as -> by lia. rewrite Z.mul_1_r. reflexivity.
Qed.

Lemma round_empty t g : digits g = 0 -> has_extra g = false -> round t g = -1.
Proof.
  intros Hd Hx. unfold round. rewrite Hd, Hx.
  destruct (get_rounding_mode t), (g_negative g); reflexivity.
Qed.

Lemma mul_pow10_pred m j : 1 <= j -> m * 10 ^ j = m * 10 ^ (j - 1) * 10.
Proof. intros. replace j with (j - 1 + 1) at 1 by lia. rewrite pow10_succ by lia. lia. Qed.

(** The signed mantissa and exponent of a lengthened integer. *)
Lemma external_integer m j : 0 < Z.abs m <= NUMBER_MAX_REP -> 0 <= j <= 1000 ->
  MANTISSA_LARGE_MIN <= Z.abs m * 10 ^ j <= MANTISSA_LARGE_MAX ->
  exists i, 0 <= i <= j /\ Z.abs m * 10 ^ i <= NUMBER_MAX_REP /\
    external_parts (mkNumber (m <? 0) (Z.abs m * 10 ^ j) (- j)) =
      Ok (if m <? 0 then - (Z.abs m * 10 ^ i) else Z.abs m * 10 ^ i, - i).
Proof.
  intros Hm Hj Hr. unfold external_parts. cbn [mantissa exponent negative].
  assert ((Z.abs m * 10 ^ j =? 0) = false) as -> by (number_consts; lia).
  destruct (Z.gtb_spec (Z.abs m * 10 ^ j) NUMBER_MAX_REP) as [Hgt|Hle].
  - destruct (Z.eq_dec j 0) as [->|Hj0]; [rewrite Z.pow_0_r in *; lia|].
    exists (j - 1). rewrite (mul_pow10_pred (Z.abs m) j) in * by lia.
    rewrite Z.mod_mul, Z.div_mul by lia. cbn [Z.eqb negb].
    rewrite checked_ok by (cbn; lia). cbn [bind].
    rewrite checked_ok by (cbn; number_consts; lia). cbn [bind].
    split; [lia|]. split; [number_consts; lia|]. do 2 f_equal. lia.
  - exists j. cbn [bind]. rewrite checked_ok by (cbn; number_consts; lia). cbn [bind]. auto with zarith.
Qed.

(** Integers survive the conversion into a [Number] and back.  Every
    64-bit integer of magnitude at most [NUMBER_MAX_REP] is normalised exactly
    and [try_to_i64] returns it under every rounding mode. *)
Theorem integer_roundtrip t m : Z.abs m <= NUMBER_MAX_REP ->
  exists x, try_from_external_parts m 0 Large330 = Ok x /\ is_normalized x Large330 = true /\
    try_to_i64 t x = Ok m.
Proof.
  intros Hm. destruct (Z.eq_dec m 0) as [->|Hm0]; [exists zero; auto|].
  destruct (from_integer m ltac:(lia)) as (j & Hj & Hmax & Hmin & Hx).
  exists (mkNumber (m <? 0) (Z.abs m * 10 ^ j) (- j)). split; [exact Hx|].
  assert (j <= 20) as Hj20.
  { destruct (Z.le_gt_cases j 20); [auto|exfalso].
    assert (10 ^ 20 <= 10 ^ j) by (apply Z.pow_le_mono_r; lia). number_consts. nia. }
  split.
  { apply lattice_normalized; [split; [lia|]|number_consts; lia].
    destruct (Z.eq_dec j 0) as [->|Hj0]; [rewrite Z.pow_0_r; lia|right].
    rewrite mul_pow10_pred by lia. apply Z.mod_mul. lia. }
  destruct (external_integer m j ltac:(lia) ltac:(lia) ltac:(lia)) as (i & Hi & Hir & Hext).
  pose proof (pow10_pos i ltac:(lia)).
  unfold try_to_i64. rewrite Hext. cbn [map_err bind negative].
  assert (((if m <? 0 then - (Z.abs m * 10 ^ i) else Z.abs m * 10 ^ i) =? 0) = false) as ->
    by (destruct (m <? 0); nia).
  assert ((if m <? 0 then checked I64 Overflow (- (if m <? 0 then - (Z.abs m * 10 ^ i)
    else Z.abs m * 10 ^ i)) else Ok (if m <? 0 then - (Z.abs m * 10 ^ i) else Z.abs m * 10 ^ i))
    = Ok (Z.abs m * 10 ^ i)) as ->.
  { destruct (m <? 0); [|reflexivity]. rewrite Z.opp_involutive. apply checked_ok.
    number_consts. cbn. lia. }
  cbn [bind].
  destruct (signed_guard (m <? 0)) as [_ Hn].
  set (g := if m <? 0 then set_negative _ else _) in *.
  assert (digits g = 0 /\ has_extra g = false) as [Hd Hxx] by (subst g; destruct (m <? 0); auto).
  rewrite integer_loop by (auto; lia). cbn [bind while Z.gtb Z.compare].
  unfold do_round_i64. rewrite round_empty by auto. cbn [Z.eqb orb andb bind]. rewrite Hn.
  destruct (Z.ltb_spec m 0); [rewrite checked_ok by (number_consts; cbn; lia)|]; f_equal; lia.
Qed.

Lemma integer_roundtrip_witness : exists x,
  try_from_external_parts (-9223372036854775807) 0 Large330 = Ok x /\
  is_normalized x Large330 = true /\ try_to_i64 initial_tls x = Ok (-9223372036854775807).
Proof. apply (integer_roundtrip initial_tls (-9223372036854775807)). vm_compute. discriminate. Defined.
