(* ===== verification/Text.v ===== *)
(** * Text: the integer formatting, parsing and splitting of the Rust library

    [display] is the decimal [Display] of an integer type, [parse] its
    [FromStr], [split] is [str::split] with a [char] pattern and [join] writes
    tokens with a separator between them.  [parse_display] and [split_join]
    are the two round trips that textual formats rest on. *)

From S2P Require Import Prelude.
From Stdlib Require Import ZArith Lia List Bool String Ascii.
Import ListNotations.

(** ** Definitions *)

Definition digit_char (d : Z) : ascii := ascii_of_nat (Z.to_nat (48 + d)).

Definition char_digit (c : ascii) : option Z :=
  let n := Z.of_nat (nat_of_ascii c) in
  if (48 <=? n) && (n <=? 57) then Some (n - 48) else None.

(** The digits of [n], most significant first, in front of [acc].  The integer
    types have at most 39 digits. *)
Fixpoint display_loop (fuel : nat) (n : Z) (acc : string) : string :=
  let acc := String (digit_char (n mod 10)) acc in
  match fuel with
  | O => acc
  | S fuel => if n <? 10 then acc else display_loop fuel (n / 10) acc
  end.

Definition display (n : Z) : string :=
  if n <? 0 then String "-" (display_loop 40 (- n) EmptyString)
  else display_loop 40 n EmptyString.

(** The accumulation of [from_str_radix] with its two overflow checks per
    digit; [sign] is 1 or -1. *)
Fixpoint parse_digits (w : int_type) (sign acc : Z) (s : string) : option Z :=
  match s with
  | EmptyString => Some acc
  | String c s =>
      match char_digit c with
      | None => None
      | Some d =>
          if fits w (acc * 10) && fits w (acc * 10 + sign * d)
          then parse_digits w sign (acc * 10 + sign * d) s
          else None
      end
  end.

Definition is_signed (w : int_type) : bool := min_of w <? 0.

Definition parse (w : int_type) (s : string) : option Z :=
  match s with
  | EmptyString => None
  | String c rest =>
      if Ascii.eqb c "+" then
        match rest with EmptyString => None | _ => parse_digits w 1 0 rest end
      else if Ascii.eqb c "-" then
        match rest with
        | EmptyString => None
        | _ => if is_signed w then parse_digits w (-1) 0 rest else None
        end
      else parse_digits w 1 0 s
  end.

Fixpoint split (sep : ascii) (s : string) : list string :=
  match s with
  | EmptyString => [EmptyString]
  | String c s =>
      if Ascii.eqb c sep then EmptyString :: split sep s
      else match split sep s with
           | [] => [String c EmptyString]
           | t :: ts => String c t :: ts
           end
  end.

Fixpoint join (sep : ascii) (ts : list string) : string :=
  match ts with
  | [] => EmptyString
  | [t] => t
  | t :: ts => t ++ String sep (join sep ts)
  end.

(** Every character of the string satisfies [p]. *)
Fixpoint all_chars (p : ascii -> bool) (s : string) : bool :=
  match s with
  | EmptyString => true
  | String c s => p c && all_chars p s
  end.

Definition is_digit (c : ascii) : bool :=
  match char_digit c with Some _ => true | None => false end.

(** ** Digits *)

Lemma char_digit_char d : 0 <= d <= 9 -> char_digit (digit_char d) = Some d.
Proof.
  intros Hd. assert (exists k, (k <= 9)%nat /\ d = Z.of_nat k) as (k & Hk & ->)
    by (exists (Z.to_nat d); lia).
  do 10 (destruct k as [|k]; [reflexivity|]). lia.
Qed.

Lemma is_digit_not c d : is_digit c = true -> is_digit d = false -> Ascii.eqb c d = false.
Proof. intros Hc Hd. destruct (Ascii.eqb_spec c d); congruence. Qed.

Lemma display_loop_digits fuel : forall n acc, 0 <= n ->
  all_chars is_digit acc = true -> all_chars is_digit (display_loop fuel n acc) = true.
Proof.
  induction fuel as [|f IH]; intros n acc Hn Ha; cbn [display_loop];
    (assert (is_digit (digit_char (n mod 10)) = true) as Hd
       by (unfold is_digit; rewrite char_digit_char by (pose proof (Z.mod_pos_bound n 10); lia);
           reflexivity)).
  - cbn [all_chars]. now rewrite Hd, Ha.
  - destruct (n <? 10); [cbn [all_chars]; now rewrite Hd, Ha|].
    apply IH; [apply Z.div_pos; lia|]. cbn [all_chars]. now rewrite Hd, Ha.
Qed.

Lemma display_digits n : 0 <= n -> all_chars is_digit (display n) = true.
Proof.
  intros Hn. unfold display. destruct (Z.ltb_spec n 0); [lia|].
  apply display_loop_digits; auto.
Qed.

Lemma display_loop_nonempty fuel : forall n acc, display_loop fuel n acc <> EmptyString.
Proof.
  induction fuel as [|f IH]; intros n acc; cbn [display_loop]; [discriminate|].
  destruct (n <? 10); [discriminate|apply IH].
Qed.

Lemma display_nonempty n : display n <> EmptyString.
Proof. unfold display. destruct (n <? 0); [discriminate|apply display_loop_nonempty]. Qed.

(** Reading the digits that were written in front of [acc]. *)
Lemma parse_display_loop w fuel : forall n acc, min_of w <= 0 -> 0 <= n <= max_of w ->
  n < 10 ^ (Z.of_nat fuel + 1) ->
  parse_digits w 1 0 (display_loop fuel n acc) = parse_digits w 1 n acc.
Proof.
  induction fuel as [|f IH]; intros n acc Hmin Hn Hf; cbn [display_loop].
  - change (10 ^ (Z.of_nat 0 + 1)) with 10 in Hf. rewrite Z.mod_small by lia.
    cbn [parse_digits]. rewrite char_digit_char by lia.
    rewrite !fits_ok by lia. cbn [andb]. f_equal. lia.
  - pose proof (Z.mod_pos_bound n 10 ltac:(lia)). pose proof (Z.div_mod n 10 ltac:(lia)).
    destruct (Z.ltb_spec n 10) as [Hlt|Hge].
    + rewrite Z.mod_small by lia. cbn [parse_digits]. rewrite char_digit_char by lia.
      rewrite !fits_ok by lia. cbn [andb]. f_equal. lia.
    + assert (0 <= n / 10) by (apply Z.div_pos; lia).
      rewrite IH; [|lia|lia|].
      * cbn [parse_digits]. rewrite char_digit_char by lia. rewrite !fits_ok by lia.
        cbn [andb]. f_equal. lia.
      * rewrite Nat2Z.inj_succ in Hf. apply Z.div_lt_upper_bound; [lia|].
        replace (Z.succ (Z.of_nat f) + 1) with (Z.of_nat f + 1 + 1) in Hf by lia.
        rewrite (pow10_succ (Z.of_nat f + 1)) in Hf by lia. lia.
Qed.

(** Reading back what was written, for the natural values of a type. *)
Lemma parse_display w n : min_of w <= 0 -> 0 <= n <= max_of w -> max_of w < 10 ^ 41 ->
  parse w (display n) = Some n.
Proof.
  intros Hmin Hn Hmax. pose proof (display_digits n ltac:(lia)) as Hd.
  pose proof (parse_display_loop w 40 n EmptyString Hmin Hn ltac:(lia)) as Hp.
  unfold display in *. destruct (Z.ltb_spec n 0); [lia|].
  destruct (display_loop 40 n EmptyString) as [|c s] eqn:E;
    [exfalso; eapply display_loop_nonempty; eauto|].
  cbn [all_chars] in Hd. apply andb_true_iff in Hd as [Hc _].
  cbn [parse]. rewrite !(is_digit_not c) by auto. exact Hp.
Qed.

(** ** Splitting *)

Lemma split_no_sep sep s : all_chars (fun c => negb (Ascii.eqb c sep)) s = true ->
  split sep s = [s].
Proof.
  induction s as [|c s IH]; cbn [all_chars split]; [reflexivity|]. intros H.
  apply andb_true_iff in H as [Hc Hs]. rewrite IH by auto.
  destruct (Ascii.eqb c sep); [discriminate|reflexivity].
Qed.

Lemma split_app sep s t : all_chars (fun c => negb (Ascii.eqb c sep)) s = true ->
  split sep (s ++ String sep t) = s :: split sep t.
Proof.
  induction s as [|c s IH]; cbn [all_chars split append]; intros H.
  - now rewrite Ascii.eqb_refl.
  - apply andb_true_iff in H as [Hc Hs]. rewrite IH by auto.
    destruct (Ascii.eqb c sep); [discriminate|reflexivity].
Qed.

Lemma split_join sep ts : ts <> [] ->
  Forall (fun s => all_chars (fun c => negb (Ascii.eqb c sep)) s = true) ts ->
  split sep (join sep ts) = ts.
Proof.
  intros Hne H. induction ts as [|t ts IH]; [congruence|].
  inversion H as [|? ? Ht Hts]; subst. destruct ts as [|t' ts].
  - now apply split_no_sep.
  - change (join sep (t :: t' :: ts)) with (t ++ String sep (join sep (t' :: ts)))%string.
    rewrite split_app by auto. rewrite IH; [reflexivity|discriminate|auto].
Qed.

Lemma all_chars_mono (p q : ascii -> bool) s : (forall c, p c = true -> q c = true) ->
  all_chars p s = true -> all_chars q s = true.
Proof.
  intros Hpq. induction s as [|c s IH]; cbn [all_chars]; [auto|]. intros H.
  apply andb_true_iff in H as [Hc Hs]. now rewrite Hpq, IH.
Qed.

Lemma all_chars_app p s t : all_chars p (s ++ t) = all_chars p s && all_chars p t.
Proof. induction s as [|c s IH]; cbn; [reflexivity|]. now rewrite IH, andb_assoc. Qed.
