(* ===== verification/RangeSet.v ===== *)
(** * RangeSet: sets of integers as merged closed intervals

    Models [xrpl/basics/src/collections/range_set.rs].  The element type is one
    of the integer types [w] the [DiscreteValue] trait is implemented for, its
    values the integers that fit.  [well_formed] is the representation
    invariant: the intervals are non-empty, ascending and not adjacent.  Every
    operation preserves it, and [contains] refines the operations to those of
    a mathematical set. *)

From Stdlib Require Import ZArith Lia List Bool String Ascii FinFun.
From S2P Require Import Prelude Text.
Import ListNotations.

Record ClosedInterval : Type := range { first : Z; last : Z }.

Definition RangeSet : Type := list ClosedInterval.

Definition checked_add_one (w : int_type) (z : Z) : option Z :=
  if fits w (z + 1) then Some (z + 1) else None.

Definition checked_sub_one (w : int_type) (z : Z) : option Z :=
  if fits w (z - 1) then Some (z - 1) else None.

Definition strictly_before (w : int_type) (left right : ClosedInterval) : bool :=
  if last left >=? first right then false
  else match checked_add_one w (last left) with
       | Some next => next <? first right
       | None => false
       end.

(** One round of the loop of [insert_interval]. *)
Definition insert_step (w : int_type) (s : ClosedInterval * list ClosedInterval * bool)
    (current : ClosedInterval) : ClosedInterval * list ClosedInterval * bool :=
  let '(pending, merged, inserted) := s in
  if strictly_before w current pending then (pending, merged ++ [current], inserted)
  else if strictly_before w pending current then
    (pending, (if inserted then merged else merged ++ [pending]) ++ [current], true)
  else
    (range (Z.min (first pending) (first current)) (Z.max (last pending) (last current)),
     merged, inserted).

Definition insert_interval (w : int_type) (self : RangeSet) (interval : ClosedInterval) : RangeSet :=
  if first interval >? last interval then self
  else
    let '(pending, merged, inserted) := fold_left (insert_step w) self (interval, [], false) in
    if inserted then merged else merged ++ [pending].

Definition insert (w : int_type) (self : RangeSet) (value : Z) : RangeSet :=
  insert_interval w self (range value value).

(** One round of the loop of [erase_interval]. *)
Definition erase_step (w : int_type) (removed : ClosedInterval) (kept : list ClosedInterval)
    (current : ClosedInterval) : list ClosedInterval :=
  if (last current <? first removed) || (first current >? last removed) then kept ++ [current]
  else
    let kept :=
      if first current <? first removed then
        match checked_sub_one w (first removed) with
        | Some left_last => kept ++ [range (first current) left_last]
        | None => kept
        end
      else kept in
    if last current >? last removed then
      match checked_add_one w (last removed) with
      | Some right_first => kept ++ [range right_first (last current)]
      | None => kept
      end
    else kept.

Definition erase_interval (w : int_type) (self : RangeSet) (removed : ClosedInterval) : RangeSet :=
  if first removed >? last removed then self
  else fold_left (erase_step w removed) self [].

Definition contains (self : RangeSet) (value : Z) : bool :=
  existsb (fun i => (first i <=? value) && (value <=? last i)) self.

Definition set_first (self : RangeSet) : option Z := option_map first (hd_error self).

Definition set_last (self : RangeSet) : option Z := option_map last (hd_error (rev self)).

(** The sum is an unchecked [usize] sum. *)
Definition set_length (self : RangeSet) : outcome unit Z :=
  fold_left (fun acc i => acc <- acc;; plain Usize (acc + cast Usize (last i - first i + 1)))
    self (Ok 0).

Definition prev_missing (w : int_type) (self : RangeSet) (target min_value : Z) : option Z :=
  match self with
  | [] => None
  | _ =>
      if target =? min_value then None else
      match checked_sub_one w target with
      | None => None
      | Some upper =>
          set_last (fold_left (erase_interval w) self (insert_interval w [] (range min_value upper)))
      end
  end.

Definition display_interval (i : ClosedInterval) : string :=
  if first i =? last i then display (first i)
  else (display (first i) ++ String "-" (display (last i)))%string.

Definition display_range_set (self : RangeSet) : string :=
  match self with
  | [] => "empty"
  | _ => join "," (map display_interval self)
  end.

(** The loop of [from_string] over the tokens. *)
Fixpoint parse_tokens (w : int_type) (parsed : RangeSet) (tokens : list string) : option RangeSet :=
  match tokens with
  | [] => Some parsed
  | token :: tokens =>
      match split "-" token with
      | [single] =>
          match parse w single with
          | Some value => parse_tokens w (insert w parsed value) tokens
          | None => None
          end
      | [front; back] =>
          match parse w front, parse w back with
          | Some front, Some back => parse_tokens w (insert_interval w parsed (range front back)) tokens
          | _, _ => None
          end
      | _ => None
      end
  end.

(** The returned flag and the set the argument is left with. *)
Definition from_string (w : int_type) (input : string) : bool * RangeSet :=
  match parse_tokens w [] (split "," input) with
  | Some parsed => (true, parsed)
  | None => (false, [])
  end.

(** ** The representation invariant *)

Fixpoint sorted_from (w : int_type) (lo : Z) (l : RangeSet) : Prop :=
  match l with
  | [] => True
  | i :: l => lo <= first i /\ first i <= last i /\ last i <= max_of w /\
              sorted_from w (last i + 2) l
  end.

Definition well_formed (w : int_type) (l : RangeSet) : Prop := sorted_from w (min_of w) l.

Definition within (w : int_type) (i : ClosedInterval) : Prop :=
  min_of w <= first i /\ last i <= max_of w.

Lemma contains_cons i l v :
  contains (i :: l) v = true <-> (first i <= v <= last i) \/ contains l v = true.
Proof. unfold contains. cbn. rewrite orb_true_iff, andb_true_iff, !Z.leb_le. tauto. Qed.

Lemma contains_app l l' v :
  contains (l ++ l') v = true <-> contains l v = true \/ contains l' v = true.
Proof. unfold contains. rewrite existsb_app, orb_true_iff. tauto. Qed.

Lemma contains_nil v : contains [] v = false.
Proof. reflexivity. Qed.

Lemma sorted_weaken w l : forall lo lo', lo' <= lo -> sorted_from w lo l -> sorted_from w lo' l.
Proof. destruct l; cbn; intros; intuition lia. Qed.

Lemma sorted_contains w l : forall lo v, sorted_from w lo l -> contains l v = true ->
  lo <= v <= max_of w.
Proof.
  induction l as [|i l IH]; intros lo v Hs Hc; [discriminate|].
  destruct Hs as (H1 & H2 & H3 & Hs). apply contains_cons in Hc as [Hc|Hc]; [lia|].
  specialize (IH _ _ Hs Hc). lia.
Qed.

Lemma before_spec w a b : min_of w <= first a <= last a -> first b <= last b <= max_of w ->
  strictly_before w a b = (last a + 1 <? first b).
Proof.
  intros Ha Hb. unfold strictly_before, checked_add_one, fits.
  destruct (Z.geb_spec (last a) (first b)); [lia|].
  assert ((min_of w <=? last a + 1) && (last a + 1 <=? max_of w) = true) as -> by lia. reflexivity.
Qed.

(** ** Insertion *)

(** Once the new interval is in place the rest is copied. *)
Lemma insert_fold_done w l : forall p m, sorted_from w (last p + 2) l ->
  min_of w <= first p <= last p -> last p <= max_of w ->
  fold_left (insert_step w) l (p, m, true) = (p, m ++ l, true).
Proof.
  induction l as [|i l IH]; intros p m Hs Hp Hmax; cbn [fold_left]; [now rewrite app_nil_r|].
  destruct Hs as (H1 & H2 & H3 & Hs). unfold insert_step at 2.
  rewrite !before_spec by lia.
  assert ((last i + 1 <? first p) = false) as -> by lia.
  assert ((last p + 1 <? first i) = true) as -> by lia.
  rewrite IH; [|eapply sorted_weaken; [|exact Hs]; lia|lia|lia]. now rewrite <- app_assoc.
Qed.

Definition insert_finish (s : ClosedInterval * list ClosedInterval * bool) : list ClosedInterval :=
  let '(p, m, inserted) := s in if inserted then m else m ++ [p].

Lemma insert_fold w l : forall lo p m, sorted_from w lo l -> min_of w <= lo <= first p ->
  first p <= last p <= max_of w ->
  exists out, insert_finish (fold_left (insert_step w) l (p, m, false)) = m ++ out /\
    sorted_from w lo out /\
    forall v, contains out v = true <-> (first p <= v <= last p) \/ contains l v = true.
Proof.
  induction l as [|i l IH]; intros lo p m Hs Hlo Hp; cbn [fold_left].
  - exists [p]. split; [reflexivity|]. split; [cbn; lia|]. intros v. now rewrite contains_cons.
  - destruct Hs as (H1 & H2 & H3 & Hs). unfold insert_step at 2. rewrite !before_spec by lia.
    destruct (Z.ltb_spec (last i + 1) (first p)) as [Hb|Hb].
    + destruct (IH (last i + 2) p (m ++ [i]) Hs ltac:(lia) ltac:(lia)) as (out & He & Ho & Hc).
      exists (i :: out). rewrite He, <- app_assoc. split; [reflexivity|]. split; [cbn; auto|].
      intros v. rewrite !contains_cons, Hc. tauto.
    + destruct (Z.ltb_spec (last p + 1) (first i)) as [Hb'|Hb'].
      * rewrite insert_fold_done; [|eapply sorted_weaken; [|exact Hs]; lia|lia|lia].
        exists (p :: i :: l). cbn [insert_finish]. rewrite <- !app_assoc. split; [reflexivity|].
        split; [cbn; intuition lia|]. intros v. now rewrite contains_cons.
      * destruct (IH lo (range (Z.min (first p) (first i)) (Z.max (last p) (last i))) m)
          as (out & He & Ho & Hc); cbn [first last] in *; try lia.
        { eapply sorted_weaken; [|exact Hs]. lia. }
        exists out. split; [exact He|]. split; [exact Ho|].
        intros v. rewrite Hc, contains_cons.
        assert (Z.min (first p) (first i) <= v <= Z.max (last p) (last i) <->
          first p <= v <= last p \/ first i <= v <= last i) by lia. tauto.
Qed.

Lemma insert_interval_spec w l i : well_formed w l -> within w i -> first i <= last i ->
  well_formed w (insert_interval w l i) /\
  forall v, contains (insert_interval w l i) v = true <->
    (first i <= v <= last i) \/ contains l v = true.
Proof.
  intros Hl Hw Hi.
  assert (insert_interval w l i = insert_finish (fold_left (insert_step w) l (i, [], false))) as ->.
  { unfold insert_interval. destruct (Z.gtb_spec (first i) (last i)); [lia|reflexivity]. }
  destruct (insert_fold w l (min_of w) i [] Hl) as (out & He & Ho & Hc);
    [unfold within in Hw; lia..|].
  rewrite He. auto.
Qed.

(** ** Erasure *)

(** What one round of the loop of [erase_interval] keeps. *)
Definition remainder (r i : ClosedInterval) : list ClosedInterval :=
  if (last i <? first r) || (first i >? last r) then [i]
  else (if first i <? first r then [range (first i) (first r - 1)] else []) ++
       (if last i >? last r then [range (last r + 1) (last i)] else []).

Lemma erase_step_spec w r m i : within w r -> first r <= last r -> within w i ->
  erase_step w r m i = m ++ remainder r i.
Proof.
  intros [Hr1 Hr2] Hr [Hi1 Hi2]. unfold erase_step, remainder, checked_sub_one, checked_add_one, fits.
  destruct (_ || _) eqn:E; [reflexivity|].
  apply orb_false_iff in E as [E1 E2].
  destruct (Z.ltb_spec (first i) (first r)), (Z.gtb_spec (last i) (last r));
    repeat match goal with
    | |- context [(?a <=? ?b) && (?c <=? ?d)] =>
        replace ((a <=? b) && (c <=? d)) with true by lia
    end; cbn [app]; rewrite ?app_nil_r, <- ?app_assoc; reflexivity.
Qed.

Lemma erase_fold w r l : forall lo m, within w r -> first r <= last r -> sorted_from w lo l ->
  min_of w <= lo ->
  exists out, fold_left (erase_step w r) l m = m ++ out /\ sorted_from w lo out /\
    forall v, contains out v = true <-> contains l v = true /\ ~ (first r <= v <= last r).
Proof.
  induction l as [|i l IH]; intros lo m Hw Hr Hs Hlo; cbn [fold_left].
  - exists []. rewrite app_nil_r. split; [auto|]. split; [auto|]. intros v.
    rewrite contains_nil. intuition discriminate.
  - destruct Hs as (H1 & H2 & H3 & Hs).
    rewrite erase_step_spec by (auto; split; lia).
    destruct (IH (last i + 2) (m ++ remainder r i) Hw Hr Hs ltac:(lia)) as (out & He & Ho & Hc).
    exists (remainder r i ++ out). rewrite He, app_assoc. split; [reflexivity|].
    assert (forall v, contains (remainder r i) v = true <->
      first i <= v <= last i /\ ~ (first r <= v <= last r)) as Hrem.
    { intros v. unfold remainder. destruct (_ || _) eqn:E.
      - rewrite contains_cons, contains_nil. apply orb_true_iff in E as [E|E]; bool_prop; intuition lia.
      - apply orb_false_iff in E as [E1 E2]. rewrite contains_app.
        destruct (Z.ltb_spec (first i) (first r)), (Z.gtb_spec (last i) (last r));
          rewrite ?contains_cons, ?contains_nil; cbn [first last]; intuition lia. }
    split.
    + unfold remainder. destruct (_ || _) eqn:E; [cbn; auto|].
      apply orb_false_iff in E as [E1 E2].
      destruct (Z.ltb_spec (first i) (first r)), (Z.gtb_spec (last i) (last r)); cbn;
        intuition (try lia); try (eapply sorted_weaken; [|exact Ho]; lia).
    + intros v. rewrite contains_app, Hrem, Hc, contains_cons. tauto.
Qed.

Lemma erase_interval_spec w l r : well_formed w l -> within w r ->
  well_formed w (erase_interval w l r) /\
  forall v, contains (erase_interval w l r) v = true <->
    contains l v = true /\ ~ (first r <= v <= last r).
Proof.
  intros Hl Hw. unfold erase_interval. destruct (Z.gtb_spec (first r) (last r)) as [Hgt|Hle].
  - split; [auto|]. intros v. intuition lia.
  - destruct (erase_fold w r l (min_of w) [] Hw Hle Hl ltac:(lia)) as (out & He & Ho & Hc).
    rewrite He. auto.
Qed.

(** ** Extensionality *)

Lemma well_formed_ext w l : forall l' lo lo', sorted_from w lo l -> sorted_from w lo' l' ->
  (forall v, contains l v = true <-> contains l' v = true) -> l = l'.
Proof.
  induction l as [|[a b] l IH]; intros [|[a' b'] l'] lo lo' Hs Hs' H; cbn in Hs, Hs'.
  - reflexivity.
  - exfalso. specialize (H a'). rewrite contains_nil, contains_cons in H. cbn [first last] in H.
    intuition (try lia; discriminate).
  - exfalso. specialize (H a). rewrite contains_nil, contains_cons in H. cbn [first last] in H.
    intuition (try lia; discriminate).
  - destruct Hs as (H1 & H2 & H3 & Hs), Hs' as (H1' & H2' & H3' & Hs').
    assert (forall v, contains ({| first := a; last := b |} :: l) v = true <->
      a <= v <= b \/ contains l v = true) as Hl by (intros; rewrite contains_cons; reflexivity).
    assert (forall v, contains ({| first := a'; last := b' |} :: l') v = true <->
      a' <= v <= b' \/ contains l' v = true) as Hl' by (intros; rewrite contains_cons; reflexivity).
    assert (forall v, contains l v = true -> b + 2 <= v) as Hg
      by (intros v Hv; apply (sorted_contains w l _ v Hs) in Hv; lia).
    assert (forall v, contains l' v = true -> b' + 2 <= v) as Hg'
      by (intros v Hv; apply (sorted_contains w l' _ v Hs') in Hv; lia).
    assert (forall v, (a <= v <= b \/ contains l v = true) <->
      (a' <= v <= b' \/ contains l' v = true)) as Heq by (intros v; rewrite <- Hl, <- Hl'; apply H).
    assert (a' <= a)
      by (destruct (proj1 (Heq a) ltac:(left; lia)) as [|Hv]; [lia|apply Hg' in Hv; lia]).
    assert (a <= a')
      by (destruct (proj2 (Heq a') ltac:(left; lia)) as [|Hv]; [lia|apply Hg in Hv; lia]).
    assert (~ b < b') by (intros Hlt; destruct (proj2 (Heq (b + 1)) ltac:(left; lia)) as [|Hv];
      [lia|apply Hg in Hv; lia]).
    assert (~ b' < b) by (intros Hlt; destruct (proj1 (Heq (b' + 1)) ltac:(left; lia)) as [|Hv];
      [lia|apply Hg' in Hv; lia]).
    assert (a' = a) as -> by lia. assert (b' = b) as -> by lia. f_equal.
    apply (IH l' (b + 2) (b + 2)); auto. intros v.
    split; intros Hv; [pose proof (Hg v Hv); destruct (proj1 (Heq v) (or_intror Hv))
                      |pose proof (Hg' v Hv); destruct (proj2 (Heq v) (or_intror Hv))]; auto; lia.
Qed.

(** ** The specification: a set of integers *)

(** Insertion is set union.  Inserting a range, empty or not, into a
    well-formed set keeps the intervals non-empty, ascending and separated,
    and adds exactly the values of the range, whichever intervals it
    overlaps, touches or bridges. *)
Theorem insert_interval_union w l i : well_formed w l -> within w i ->
  well_formed w (insert_interval w l i) /\
  forall v, contains (insert_interval w l i) v = true <->
    (first i <= v <= last i) \/ contains l v = true.
Proof.
  intros Hl Hw. destruct (Z.le_gt_cases (first i) (last i)) as [Hle|Hgt].
  - now apply insert_interval_spec.
  - unfold insert_interval. destruct (Z.gtb_spec (first i) (last i)); [|lia].
    split; [auto|]. intros v. intuition lia.
Qed.

Lemma insert_interval_union_witness :
  let l := [range 1 3; range 7 9] in
  well_formed U32 (insert_interval U32 l (range 4 6)) /\
  forall v, contains (insert_interval U32 l (range 4 6)) v = true <->
    (4 <= v <= 6) \/ contains l v = true.
Proof.
  intros l. apply (insert_interval_union U32 l (range 4 6)); vm_compute; intuition congruence.
Defined.

(** Erasure is set difference, and keeps the representation invariant. *)
Theorem erase_interval_difference w l r : well_formed w l -> within w r ->
  well_formed w (erase_interval w l r) /\
  forall v, contains (erase_interval w l r) v = true <->
    contains l v = true /\ ~ (first r <= v <= last r).
Proof. apply erase_interval_spec. Qed.

Lemma erase_interval_difference_witness :
  let l := [range 0 9; range 20 4294967295] in
  well_formed U32 (erase_interval U32 l (range 5 4294967295)) /\
  forall v, contains (erase_interval U32 l (range 5 4294967295)) v = true <->
    contains l v = true /\ ~ (5 <= v <= 4294967295).
Proof.
  intros l. apply (erase_interval_difference U32 l (range 5 4294967295)); vm_compute;
    intuition congruence.
Defined.

(** The representation is canonical: two well-formed sets with the same
    elements are the same list of intervals, so that the derived equality of
    [RangeSet] is equality of sets. *)
Theorem range_set_canonical w l l' : well_formed w l -> well_formed w l' ->
  (forall v, contains l v = contains l' v) -> l = l'.
Proof.
  intros Hl Hl' H. eapply well_formed_ext; eauto. intros v. now rewrite H.
Qed.

Lemma range_set_canonical_witness :
  insert_interval U32 (insert U32 [] 5) (range 1 4) = insert_interval U32 [] (range 1 5).
Proof.
  apply (range_set_canonical U32); [vm_compute; intuition congruence..|].
  intros v. reflexivity.
Defined.

(** ** The largest missing value *)

Lemma sorted_within w l : forall lo, min_of w <= lo -> sorted_from w lo l -> Forall (within w) l.
Proof.
  induction l as [|i l IH]; intros lo Hlo Hs; constructor; destruct Hs as (H1 & H2 & H3 & Hs).
  - split; lia.
  - apply (IH (last i + 2)); [lia|auto].
Qed.

Lemma sorted_proper w l : forall lo, sorted_from w lo l ->
  Forall (fun i => lo <= first i <= last i /\ last i <= max_of w) l.
Proof.
  induction l as [|i l IH]; intros lo Hs; constructor; destruct Hs as (H1 & H2 & H3 & Hs); [lia|].
  eapply Forall_impl; [|exact (IH _ Hs)]. cbn. intros. lia.
Qed.

Lemma erase_all w ivs : Forall (within w) ivs -> forall cand, well_formed w cand ->
  well_formed w (fold_left (erase_interval w) ivs cand) /\
  forall v, contains (fold_left (erase_interval w) ivs cand) v = true <->
    contains cand v = true /\ contains ivs v = false.
Proof.
  induction 1 as [|i ivs Hi Hivs IH]; intros cand Hc; cbn [fold_left].
  - split; [auto|]. intros v. rewrite contains_nil. tauto.
  - destruct (erase_interval_spec w cand i Hc Hi) as [Hw Hv]. destruct (IH _ Hw) as [Hw' Hv'].
    split; [auto|]. intros v. rewrite Hv', Hv, <- !not_true_iff_false, contains_cons. tauto.
Qed.

Lemma sorted_last w l i : forall lo, sorted_from w lo (l ++ [i]) ->
  first i <= last i /\ forall v, contains (l ++ [i]) v = true -> v <= last i.
Proof.
  induction l as [|j l IH]; intros lo Hs.
  - destruct Hs as (H1 & H2 & H3 & _). split; [auto|]. intros v Hv.
    apply contains_cons in Hv as [|Hv]; [lia|discriminate].
  - destruct Hs as (H1 & H2 & H3 & Hs). destruct (IH _ Hs) as [Hi Hle]. split; [auto|].
    intros v Hv. cbn [app] in Hv. apply contains_cons in Hv as [Hv|Hv]; [|auto].
    assert (contains (l ++ [i]) (last i) = true) as Hlast
      by (apply contains_app; right; apply contains_cons; lia).
    pose proof (sorted_contains _ _ _ _ Hs Hlast). lia.
Qed.

Lemma set_last_spec w l v : well_formed w l ->
  set_last l = Some v <-> contains l v = true /\ forall u, contains l u = true -> u <= v.
Proof.
  intros Hw. destruct (rev l) as [|i r] eqn:E; unfold set_last; rewrite E; cbn [hd_error option_map].
  - apply (f_equal (@rev _)) in E. rewrite rev_involutive in E. subst l.
    rewrite contains_nil. intuition discriminate.
  - apply (f_equal (@rev _)) in E. rewrite rev_involutive in E. cbn [rev] in E. subst l.
    destruct (sorted_last _ _ _ _ Hw) as [Hi Hle].
    assert (contains (rev r ++ [i]) (last i) = true) as Hlast
      by (apply contains_app; right; apply contains_cons; lia).
    split.
    + intros [= <-]. auto.
    + intros [Hc Hmax]. f_equal. specialize (Hmax _ Hlast). specialize (Hle _ Hc). lia.
Qed.

(** [prev_missing] returns the largest value below the target that is at
    least the minimum and not in the set, when the set is not empty.  The loop
    over the intervals is the erasure the code performs. *)
Theorem prev_missing_spec w l target min_value v : well_formed w l -> l <> [] ->
  fits w target = true -> fits w min_value = true ->
  prev_missing w l target min_value = Some v <->
    (min_value <= v < target /\ contains l v = false /\
     forall u, v < u < target -> contains l u = true).
Proof.
  intros Hl Hne Ht Hm. apply fits_true in Ht, Hm. unfold prev_missing.
  destruct l as [|i l]; [congruence|]. clear Hne. set (ivs := i :: l) in *.
  destruct (Z.eqb_spec target min_value) as [->|Hneq]; [intuition (discriminate || lia)|].
  unfold checked_sub_one. destruct (fits w (target - 1)) eqn:Hf.
  2: { assert (~ (min_of w <= target - 1 <= max_of w)) by (rewrite <- fits_true; congruence).
       intuition (discriminate || lia). }
  apply fits_true in Hf.
  assert (well_formed w (insert_interval w [] (range min_value (target - 1))) /\
    forall u, contains (insert_interval w [] (range min_value (target - 1))) u = true <->
      min_value <= u <= target - 1) as [Hw Hc].
  { destruct (Z.le_gt_cases min_value (target - 1)).
    - destruct (insert_interval_spec w [] (range min_value (target - 1))) as [Hw Hc];
        [exact I|split; cbn; lia|cbn; lia|]. split; [auto|]. intros u. rewrite Hc, contains_nil.
      cbn [first last]. intuition discriminate.
    - unfold insert_interval. cbn [first last]. destruct (Z.gtb_spec min_value (target - 1)); [|lia].
      split; [exact I|]. intros u. rewrite contains_nil. intuition (discriminate || lia). }
  destruct (erase_all w ivs (sorted_within w ivs _ (Z.le_refl _) Hl) _ Hw) as [Hw' Hc'].
  rewrite (set_last_spec w) by auto. setoid_rewrite Hc'. setoid_rewrite Hc.
  split.
  - intros [[Hr Hn] Hmax]. split; [lia|]. split; [auto|]. intros u Hu.
    destruct (contains ivs u) eqn:E; [auto|]. assert (u <= v) by (apply Hmax; split; [lia|exact E]). lia.
  - intros (Hr & Hn & Hall). split; [split; [lia|auto]|]. intros u [Hu Hun].
    destruct (Z.le_gt_cases u v); [auto|]. rewrite (Hall u ltac:(lia)) in Hun. discriminate.
Qed.

Lemma prev_missing_spec_witness :
  let l := [range 3 5; range 8 9] in
  prev_missing U32 l 10 1 = Some 7 <->
    (1 <= 7 < 10 /\ contains l 7 = false /\ forall u, 7 < u < 10 -> contains l u = true).
Proof.
  intros l. apply (prev_missing_spec U32 l 10 1 7); vm_compute; intuition congruence.
Defined.

(** ** Text *)

Lemma digits_without c s : is_digit c = false -> all_chars is_digit s = true ->
  all_chars (fun d => negb (Ascii.eqb d c)) s = true.
Proof.
  intros Hc. apply all_chars_mono. intros d Hd. now rewrite (is_digit_not d c).
Qed.

Lemma display_interval_no_comma i : 0 <= first i -> 0 <= last i ->
  all_chars (fun c => negb (Ascii.eqb c ",")) (display_interval i) = true.
Proof.
  intros Hf Hl. pose proof (display_digits (first i) Hf) as Hd.
  pose proof (display_digits (last i) Hl) as Hd'. unfold display_interval.
  destruct (first i =? last i); [now apply digits_without|].
  rewrite all_chars_app. cbn [all_chars]. now rewrite !digits_without.
Qed.

Lemma parse_interval w parsed i ts : min_of w = 0 -> max_of w < 10 ^ 41 ->
  0 <= first i <= last i -> last i <= max_of w ->
  parse_tokens w parsed (display_interval i :: ts) =
    parse_tokens w (insert_interval w parsed i) ts.
Proof.
  intros Hmin Hmax Hi Hl. cbn [parse_tokens]. unfold display_interval.
  pose proof (display_digits (first i) ltac:(lia)) as Hd.
  pose proof (display_digits (last i) ltac:(lia)) as Hd'.
  destruct (Z.eqb_spec (first i) (last i)) as [Heq|Hne].
  - rewrite split_no_sep by now apply digits_without. rewrite parse_display by lia.
    unfold insert. destruct i as [a b]. cbn [first last] in *. now subst b.
  - rewrite split_app, split_no_sep by now apply digits_without.
    rewrite !parse_display by lia. now destruct i.
Qed.

Lemma parse_display_intervals w l : min_of w = 0 -> max_of w < 10 ^ 41 ->
  forall parsed lo, 0 <= lo -> sorted_from w lo l ->
  parse_tokens w parsed (map display_interval l) = Some (fold_left (insert_interval w) l parsed).
Proof.
  intros Hmin Hmax. induction l as [|i l IH]; intros parsed lo Hlo Hs; [reflexivity|].
  destruct Hs as (H1 & H2 & H3 & Hs). cbn [map fold_left].
  rewrite parse_interval by lia. apply (IH _ (last i + 2)); [lia|auto].
Qed.

Lemma insert_all w l : forall s lo, min_of w <= lo -> sorted_from w lo l -> well_formed w s ->
  well_formed w (fold_left (insert_interval w) l s) /\
  forall v, contains (fold_left (insert_interval w) l s) v = true <->
    contains s v = true \/ contains l v = true.
Proof.
  induction l as [|i l IH]; intros s lo Hlo Hs Hw; cbn [fold_left].
  - split; [auto|]. intros v. rewrite contains_nil. intuition discriminate.
  - destruct Hs as (H1 & H2 & H3 & Hs).
    destruct (insert_interval_spec w s i Hw ltac:(split; lia) ltac:(lia)) as [Hw' Hc].
    destruct (IH _ (last i + 2) ltac:(lia) Hs Hw') as [Hw'' Hc']. split; [auto|].
    intros v. rewrite Hc', Hc, contains_cons. tauto.
Qed.

(** A non-empty set of an unsigned type survives being written and read:
    [from_string] accepts what [Display] prints and rebuilds the same list of
    intervals. *)
Theorem range_set_text_roundtrip w l : min_of w = 0 -> max_of w < 10 ^ 41 ->
  well_formed w l -> l <> [] -> from_string w (display_range_set l) = (true, l).
Proof.
  intros Hmin Hmax Hl Hne. unfold from_string, display_range_set.
  assert (sorted_from w 0 l) as Hl0 by (unfold well_formed in Hl; now rewrite Hmin in Hl).
  destruct l as [|i l]; [congruence|]. clear Hne. set (ivs := i :: l) in *.
  rewrite split_join; [|discriminate|].
  2: { apply Forall_map. eapply Forall_impl; [|apply (sorted_proper w ivs _ Hl0)].
       intros j Hj. cbn in Hj. apply display_interval_no_comma; lia. }
  rewrite (parse_display_intervals w ivs Hmin Hmax [] 0) by (auto; lia).
  destruct (insert_all w ivs [] 0 ltac:(lia) Hl0 I) as [Hw Hc]. f_equal.
  eapply well_formed_ext; eauto. intros v. rewrite Hc, contains_nil. intuition discriminate.
Qed.

Lemma range_set_text_roundtrip_witness :
  from_string U32 (display_range_set [range 0 0; range 2 17; range 4294967295 4294967295]) =
    (true, [range 0 0; range 2 17; range 4294967295 4294967295]).
Proof.
  apply (range_set_text_roundtrip U32); vm_compute; intuition congruence.
Defined.


(** ** Size *)

Fixpoint size (l : RangeSet) : Z :=
  match l with
  | [] => 0
  | i :: l => (last i - first i + 1) + size l
  end.

Lemma size_bound w l : forall lo, sorted_from w lo l -> lo <= max_of w + 1 ->
  0 <= size l <= max_of w + 1 - lo.
Proof.
  induction l as [|i l IH]; intros lo Hs Hlo; cbn [size]; [lia|].
  destruct Hs as (H1 & H2 & H3 & Hs). destruct l as [|j l]; [cbn; lia|].
  assert (last i + 2 <= max_of w + 1) by (destruct Hs as (H4 & H5 & H6 & _); lia).
  specialize (IH _ Hs ltac:(lia)). lia.
Qed.

Lemma length_fold w l : forall lo acc, sorted_from w lo l -> min_of w <= lo ->
  max_of w + 1 - min_of w <= max_of Usize -> 0 <= acc -> acc + size l <= max_of Usize ->
  fold_left (fun acc i => acc <- acc;; plain Usize (acc + cast Usize (last i - first i + 1)))
    l (Ok (E := unit) acc) = Ok (acc + size l).
Proof.
  induction l as [|i l IH]; intros lo acc Hs Hlo Hfit Ha Hb; cbn [fold_left size].
  - now rewrite Z.add_0_r.
  - destruct Hs as (H1 & H2 & H3 & Hs). cbn [size] in Hb.
    assert (0 <= size l).
    { destruct (Z.le_gt_cases (last i + 2) (max_of w + 1)).
      - apply (size_bound w l (last i + 2)); auto.
      - destruct l as [|j l]; [cbn; lia|]. destruct Hs as (? & ? & ? & _). lia. }
    rewrite cast_id by (unfold min_of in *; lia). cbn [bind].
    rewrite plain_ok by (cbn; cbn in Hb; lia).
    rewrite (IH (last i + 2)) by (auto; lia). f_equal. lia.
Qed.

Definition enumerate_interval (i : ClosedInterval) : list Z :=
  map (fun k => first i + Z.of_nat k) (seq 0 (Z.to_nat (last i - first i + 1))).

Lemma enumerate_interval_in i v : In v (enumerate_interval i) <-> first i <= v <= last i.
Proof.
  unfold enumerate_interval. rewrite in_map_iff. setoid_rewrite in_seq. split.
  - intros (k & <- & Hk). lia.
  - intros Hv. exists (Z.to_nat (v - first i)). lia.
Qed.

Lemma enumerate_spec w l : forall lo, sorted_from w lo l ->
  let vs := flat_map enumerate_interval l in
  NoDup vs /\ (forall v, In v vs <-> contains l v = true) /\ Z.of_nat (List.length vs) = size l.
Proof.
  induction l as [|i l IH]; intros lo Hs vs; subst vs; cbn [flat_map size].
  - split; [constructor|]. split; [|reflexivity]. intros v. rewrite contains_nil. cbn; intuition discriminate.
  - destruct Hs as (H1 & H2 & H3 & Hs). destruct (IH _ Hs) as (Hnd & Hin & Hlen).
    split; [|split].
    + apply NoDup_app; [apply Injective_map_NoDup; [intros x y; lia|apply seq_NoDup]|exact Hnd|].
      intros v Hv Hv'. apply enumerate_interval_in in Hv. apply Hin in Hv'.
      apply (sorted_contains w _ _ _ Hs) in Hv'. lia.
    + intros v. rewrite in_app_iff, enumerate_interval_in, Hin, contains_cons. reflexivity.
    + rewrite length_app, Nat2Z.inj_add, Hlen. unfold enumerate_interval.
      rewrite length_map, length_seq. lia.
Qed.

(** [length] is the number of elements.  For a well-formed set of a type
    whose values can be counted in a [usize], the sum neither overflows nor
    wraps, and it is the length of a duplicate-free list of the elements. *)
Theorem range_set_length w l : well_formed w l -> max_of w + 1 - min_of w <= max_of Usize ->
  exists vs, NoDup vs /\ (forall v, In v vs <-> contains l v = true) /\
    set_length l = Ok (Z.of_nat (List.length vs)).
Proof.
  intros Hl Hfit. destruct (enumerate_spec w l _ Hl) as (Hnd & Hin & Hlen).
  exists (flat_map enumerate_interval l). split; [auto|]. split; [auto|]. rewrite Hlen.
  assert (min_of w <= max_of w + 1) by (destruct w; cbn; lia).
  pose proof (size_bound w l _ Hl ltac:(lia)).
  apply (length_fold w l (min_of w) 0); auto; lia.
Qed.

Lemma range_set_length_witness :
  let l := [range 1 3; range 10 10] in
  exists vs, NoDup vs /\ (forall v, In v vs <-> contains l v = true) /\
    set_length l = Ok (Z.of_nat (List.length vs)).
Proof. intros l. apply (range_set_length U32 l); vm_compute; intuition congruence. Defined.
