(* ===== verification/ConsensusParms.v ===== *)
(** * ConsensusParms: parameters, close times and the consensus decisions

    Models the pure part of [xrpld/consensus/src/algorithm]: [params.rs]
    ([ConsensusParms], [get_needed_weight]), [timing.rs] (close-time
    resolutions and rounding), [functions.rs] (the close and consensus
    decisions) and the timer and [participants_needed] of [types.rs].

    A [std::time::Duration] is its number of nanoseconds, a
    [NetClockTimePoint] its [u32] seconds, a [time::Duration] of whole seconds
    its seconds.  [usize] values are integers; the sums and products the
    decisions form are checked at their width. *)

From Stdlib Require Import ZArith Lia List Bool.
From S2P Require Import Prelude.
Import ListNotations.

(** ** Durations *)

Definition from_millis (n : Z) : Z := n * 1000000.
Definition from_secs (n : Z) : Z := n * 1000000000.

(** The largest [Duration]: [u64::MAX] seconds and 999,999,999 nanoseconds. *)
Definition DURATION_MAX : Z := from_secs (max_of U64) + 999999999.

Definition duration_add {E} (a b : Z) : outcome E Z :=
  if a + b <=? DURATION_MAX then Ok (a + b) else Panic.

Definition duration_saturating_mul (a k : Z) : Z := Z.min (a * k) DURATION_MAX.

(** [Ord::clamp] asserts that its bounds are ordered. *)
Definition clamp {E} (x lo hi : Z) : outcome E Z :=
  if lo <=? hi then Ok (Z.min (Z.max x lo) hi) else Panic.

(** ** Parameters *)

Inductive AvalancheState : Type := Init | Mid | Late | Stuck.

Definition AvalancheState_eqb (a b : AvalancheState) : bool :=
  match a, b with
  | Init, Init | Mid, Mid | Late, Late | Stuck, Stuck => true
  | _, _ => false
  end.

Record AvalancheCutoff : Type := mkCutoff {
  consensus_time : Z;
  consensus_pct : Z;
  next : AvalancheState
}.

Record ConsensusParms : Type := mkParms {
  validation_valid_wall : Z;
  validation_valid_local : Z;
  validation_valid_early : Z;
  propose_freshness : Z;
  propose_interval : Z;
  min_consensus_pct : Z;
  ledger_idle_interval : Z;
  ledger_min_consensus : Z;
  ledger_max_consensus : Z;
  ledger_min_close : Z;
  ledger_granularity : Z;
  ledger_abandon_consensus_factor : Z;
  ledger_abandon_consensus : Z;
  av_min_consensus_time : Z;
  avalanche_cutoffs : list (AvalancheState * AvalancheCutoff);
  av_ct_consensus_pct : Z;
  av_min_rounds : Z;
  av_stalled_rounds : Z
}.

Definition default_parms : ConsensusParms := {|
  validation_valid_wall := from_secs (5 * 60);
  validation_valid_local := from_secs (3 * 60);
  validation_valid_early := from_secs (3 * 60);
  propose_freshness := from_secs 20;
  propose_interval := from_secs 12;
  min_consensus_pct := 80;
  ledger_idle_interval := from_secs 15;
  ledger_min_consensus := from_millis 1950;
  ledger_max_consensus := from_secs 15;
  ledger_min_close := from_secs 2;
  ledger_granularity := from_secs 1;
  ledger_abandon_consensus_factor := 10;
  ledger_abandon_consensus := from_secs 120;
  av_min_consensus_time := from_secs 5;
  avalanche_cutoffs :=
    [(Init, mkCutoff 0 50 Mid); (Mid, mkCutoff 50 65 Late);
     (Late, mkCutoff 85 70 Stuck); (Stuck, mkCutoff 200 95 Stuck)];
  av_ct_consensus_pct := 75;
  av_min_rounds := 2;
  av_stalled_rounds := 4
|}.

(** [BTreeMap::get] followed by [expect]. *)
Fixpoint find_cutoff (l : list (AvalancheState * AvalancheCutoff)) (s : AvalancheState)
    : option AvalancheCutoff :=
  match l with
  | [] => None
  | (k, c) :: l => if AvalancheState_eqb k s then Some c else find_cutoff l s
  end.

Definition expect {E A} (o : option A) : outcome E A :=
  match o with Some a => Ok a | None => Panic end.

Definition cutoff_of {E} (p : ConsensusParms) (s : AvalancheState) : outcome E AvalancheCutoff :=
  expect (find_cutoff (avalanche_cutoffs p) s).

Definition get_needed_weight {E} (parms : ConsensusParms) (current_state : AvalancheState)
    (percent_time current_rounds minimum_rounds : Z) : outcome E (Z * option AvalancheState) :=
  current_cutoff <- cutoff_of parms current_state;;
  if negb (AvalancheState_eqb (next current_cutoff) current_state)
     && (current_rounds >=? minimum_rounds) then
    next_cutoff <- cutoff_of parms (next current_cutoff);;
    if negb (consensus_time next_cutoff >=? consensus_time current_cutoff) then Panic
    else if percent_time >=? consensus_time next_cutoff then
      Ok (consensus_pct next_cutoff, Some (next current_cutoff))
    else Ok (consensus_pct current_cutoff, None)
  else Ok (consensus_pct current_cutoff, None).

(** ** Close times *)

Definition LEDGER_POSSIBLE_TIME_RESOLUTIONS : list Z := [10; 20; 30; 60; 90; 120].

Definition INCREASE_LEDGER_TIME_RESOLUTION_EVERY : Z := 8.
Definition DECREASE_LEDGER_TIME_RESOLUTION_EVERY : Z := 1.

Fixpoint position_of (x : Z) (l : list Z) : option nat :=
  match l with
  | [] => None
  | y :: l => if x =? y then Some O else option_map S (position_of x l)
  end.

Definition get_next_ledger_time_resolution {E} (previous_resolution : Z) (previous_agree : bool)
    (ledger_seq : Z) : outcome E Z :=
  if ledger_seq =? 0 then Panic else
  match position_of previous_resolution LEDGER_POSSIBLE_TIME_RESOLUTIONS with
  | None => Ok previous_resolution
  | Some index =>
      if negb previous_agree && (ledger_seq mod DECREASE_LEDGER_TIME_RESOLUTION_EVERY =? 0) then
        match nth_error LEDGER_POSSIBLE_TIME_RESOLUTIONS (index + 1) with
        | Some coarser => Ok coarser
        | None => Ok previous_resolution
        end
      else if previous_agree && (ledger_seq mod INCREASE_LEDGER_TIME_RESOLUTION_EVERY =? 0) then
        match index with
        | O => Ok previous_resolution
        | S i => expect (nth_error LEDGER_POSSIBLE_TIME_RESOLUTIONS i)
        end
      else Ok previous_resolution
  end.

(** The sum is an [i64] sum; a [u32] and half a [Duration] of seconds. *)
Definition round_close_time {E} (close_time resolution : Z) : outcome E Z :=
  if close_time =? 0 then Ok close_time else
  let resolution_secs := Z.max resolution 1 in
  shifted <- plain I64 (close_time + Z.quot resolution_secs 2);;
  let rounded := shifted - shifted mod resolution_secs in
  Ok (cast U32 (Z.max rounded 0)).

Definition effective_close_time {E} (close_time resolution prior_close_time : Z) : outcome E Z :=
  if close_time =? 0 then Ok close_time else
  rounded <- round_close_time close_time resolution;;
  let min_allowed := saturate U32 (prior_close_time + 1) in
  Ok (Z.max rounded min_allowed).

(** ** Timers and thresholds *)

Record ConsensusTimer : Type := mkTimer { start : option Z; dur : Z }.

Definition default_timer : ConsensusTimer := mkTimer None 0.
Definition timer_read (t : ConsensusTimer) : Z := dur t.
Definition timer_tick_fixed {E} (fixed : Z) (t : ConsensusTimer) : outcome E ConsensusTimer :=
  d <- duration_add (dur t) fixed;; Ok (mkTimer (start t) d).
Definition timer_reset (tp : Z) (t : ConsensusTimer) : ConsensusTimer := mkTimer (Some tp) 0.
Definition timer_tick_to (tp : Z) (t : ConsensusTimer) : ConsensusTimer :=
  match start t with
  | Some s => mkTimer (start t) (Z.max 0 (tp - s))
  | None => t
  end.

Definition participants_needed {E} (participants percent : Z) : outcome E Z :=
  product <- plain I32 (participants * percent);;
  sum <- plain I32 (product + Z.quot percent 2);;
  let result := Z.quot sum 100 in
  Ok (if result =? 0 then 1 else result).

(** ** Decisions *)

Definition should_close_ledger {E} (any_transactions : bool)
    (prev_proposers proposers_closed proposers_validated : Z)
    (prev_round_time time_since_prev_close open_time idle_interval : Z) (parms : ConsensusParms)
    : outcome E bool :=
  if (prev_round_time >? from_secs 600) || (time_since_prev_close >? from_secs 600) then Ok true
  else
    others <- plain Usize (proposers_closed + proposers_validated);;
    if others >? prev_proposers / 2 then Ok true
    else if negb any_transactions then Ok (time_since_prev_close >=? idle_interval)
    else if open_time <? ledger_min_close parms then Ok false
    else if open_time <? prev_round_time / 2 then Ok false
    else Ok true.

Definition check_consensus_reached {E} (agreeing total : Z) (count_self : bool)
    (min_pct : Z) (reached_max stalled : bool) : outcome E bool :=
  if total =? 0 then Ok reached_max
  else if stalled then Ok true
  else
    '(agreeing, total) <-
      (if count_self then
         agreeing <- plain Usize (agreeing + 1);;
         total <- plain Usize (total + 1);;
         Ok (agreeing, total)
       else Ok (agreeing, total));;
    scaled <- plain Usize (agreeing * 100);;
    Ok (scaled / total >=? min_pct).

Inductive ConsensusState : Type := No | MovedOn | Expired | Yes.

Definition check_consensus {E} (prev_proposers current_proposers current_agree current_finished : Z)
    (previous_agree_time current_agree_time : Z) (stalled : bool) (parms : ConsensusParms)
    (proposing : bool) : outcome E ConsensusState :=
  if current_agree_time <=? ledger_min_consensus parms then Ok No else
  scaled <- plain Usize (prev_proposers * 3);;
  too_fast <-
    (if current_proposers <? scaled / 4 then
       limit <- duration_add previous_agree_time (ledger_min_consensus parms);;
       Ok (current_agree_time <? limit)
     else Ok false);;
  if too_fast : bool then Ok No else
  let reached_max := current_agree_time >? ledger_max_consensus parms in
  yes <- check_consensus_reached current_agree current_proposers proposing
           (min_consensus_pct parms) reached_max stalled;;
  if yes : bool then Ok Yes else
  moved <- check_consensus_reached current_finished current_proposers false
             (min_consensus_pct parms) reached_max false;;
  if moved : bool then Ok MovedOn else
  let max_agree_time := duration_saturating_mul previous_agree_time
                          (cast U32 (ledger_abandon_consensus_factor parms)) in
  clamped_max <- clamp max_agree_time (ledger_max_consensus parms) (ledger_abandon_consensus parms);;
  if current_agree_time >? clamped_max then Ok Expired else Ok No.

(** ** Well-formed parameters *)

(** What the code expects of a parameter set: every avalanche state has a
    cutoff, times do not decrease along the states, percentages are [i32]s, and
    the durations are in order. *)
Record well_formed_parms (p : ConsensusParms) : Prop := {
  cutoffs_total : forall s, exists c, find_cutoff (avalanche_cutoffs p) s = Some c;
  cutoffs_ordered : forall s c c', find_cutoff (avalanche_cutoffs p) s = Some c ->
    find_cutoff (avalanche_cutoffs p) (next c) = Some c' -> consensus_time c <= consensus_time c';
  cutoffs_fit : forall s c, find_cutoff (avalanche_cutoffs p) s = Some c ->
    fits I32 (consensus_pct c) = true;
  min_pct_fits : fits I32 (min_consensus_pct p) = true;
  max_before_abandon : ledger_max_consensus p <= ledger_abandon_consensus p;
  min_consensus_bounded : 0 <= ledger_min_consensus p <= 2 ^ 62;
  idle_interval_bounded : 0 <= ledger_idle_interval p <= 2 ^ 62;
  min_time_bounded : 0 <= av_min_consensus_time p <= 2 ^ 62
}.

Lemma default_parms_well_formed : well_formed_parms default_parms.
Proof.
  constructor.
  - intros []; eexists; reflexivity.
  - intros [] c c'; intros [= <-] [= <-]; cbn; lia.
  - intros [] c; intros [= <-]; reflexivity.
  - reflexivity.
  - vm_compute. discriminate.
  - vm_compute. split; discriminate.
  - vm_compute. split; discriminate.
  - vm_compute. split; discriminate.
Qed.

Lemma cutoff_sound {E} p s (Q : AvalancheCutoff -> Prop) : well_formed_parms p ->
  (forall c, find_cutoff (avalanche_cutoffs p) s = Some c -> Q c) ->
  sound (cutoff_of (E := E) p s) Q.
Proof.
  intros Hp HQ. unfold cutoff_of. destruct (cutoffs_total p Hp s) as [c Hc].
  rewrite Hc. simpl. auto.
Qed.

Lemma get_needed_weight_sound {E} p s t r mr : well_formed_parms p ->
  sound (get_needed_weight (E := E) p s t r mr) (fun '(pct, _) => fits I32 pct = true).
Proof.
  intros Hp. unfold get_needed_weight.
  eapply sound_bind; [apply (cutoff_sound p s (fun c => find_cutoff (avalanche_cutoffs p) s = Some c)); auto|].
  intros c Hc. case_if; [|exact (cutoffs_fit p Hp _ _ Hc)].
  eapply sound_bind; [apply (cutoff_sound p _ (fun c' =>
    find_cutoff (avalanche_cutoffs p) (next c) = Some c')); auto|].
  intros c' Hc'. pose proof (cutoffs_ordered p Hp _ _ _ Hc Hc').
  assert (negb (consensus_time c' >=? consensus_time c) = false) as -> by lia.
  case_if; [exact (cutoffs_fit p Hp _ _ Hc')|exact (cutoffs_fit p Hp _ _ Hc)].
Qed.

Lemma reached_sound {E} a n c pct rm st :
  sound (check_consensus_reached (E := E) a n c pct rm st) (fun _ => True).
Proof.
  unfold check_consensus_reached. case_if; [exact I|]. case_if; [exact I|].
  eapply (sound_bind _ _ (fun _ => True)).
  - destruct c; [|exact I]. do 2 apply sound_plain_bind. exact I.
  - intros [x y] _. apply sound_plain_bind. exact I.
Qed.

Lemma check_consensus_sound {E} pp cp ca cf prev time st p proposing : well_formed_parms p ->
  prev <= 2 ^ 62 ->
  sound (check_consensus (E := E) pp cp ca cf prev time st p proposing) (fun _ => True).
Proof.
  intros Hp Hprev. unfold check_consensus. case_if; [exact I|].
  apply sound_plain_bind.
  eapply (sound_bind _ _ (fun _ => True)).
  { case_if; [|exact I]. unfold duration_add.
    pose proof (min_consensus_bounded p Hp).
    assert ((prev + ledger_min_consensus p <=? DURATION_MAX) = true) as ->
      by (unfold DURATION_MAX, from_secs; cbn; lia). exact I. }
  intros [|] _; [exact I|].
  eapply sound_bind; [apply reached_sound|]. intros [|] _; [exact I|].
  eapply sound_bind; [apply reached_sound|]. intros [|] _; [exact I|].
  unfold clamp. pose proof (max_before_abandon p Hp).
  assert ((ledger_max_consensus p <=? ledger_abandon_consensus p) = true) as -> by lia.
  cbn [bind]. case_if; exact I.
Qed.

(** ** The consensus decision *)

(** The percentage test without the machine-width checks. *)
Lemma reached_true {E} a n count pct rm :
  check_consensus_reached (E := E) a n count pct rm false = Ok true -> 0 < n -> 0 <= a ->
  pct * (n + (if count : bool then 1 else 0)) <= (a + (if count then 1 else 0)) * 100.
Proof.
  unfold check_consensus_reached. intros H Hn Ha. assert ((n =? 0) = false) as Hn0 by lia.
  rewrite Hn0 in H. apply bind_ok in H as ([a' n'] & Hc & H).
  apply bind_ok in H as (scaled & Hs & H). apply plain_inv in Hs as ->. injection H as H.
  apply Z.geb_le in H. destruct count.
  - apply bind_ok in Hc as (x & Hx & Hc). apply bind_ok in Hc as (y & Hy & Hc).
    apply plain_inv in Hx as ->. apply plain_inv in Hy as ->. injection Hc as <- <-.
    pose proof (Z.mul_div_le ((a + 1) * 100) (n + 1) ltac:(lia)). nia.
  - injection Hc as <- <-. pose proof (Z.mul_div_le (a * 100) n ltac:(lia)). rewrite !Z.add_0_r. nia.
Qed.

(** Two conflicting positions cannot both reach consensus.  Of [n]
    proposers [a1] support one position and [a2] another one, so that
    [a1 + a2 <= n]; two nodes, each counting itself for its own position or
    not, evaluate the agreement.  With a threshold above 75%, as the default of
    80% is, at most one of them declares consensus, unless disputes stalled. *)
Theorem consensus_exclusive {E} n a1 a2 (count1 count2 : bool) pct rm1 rm2 :
  0 < n -> 0 <= a1 -> 0 <= a2 -> a1 + a2 <= n -> 75 < pct ->
  check_consensus_reached (E := E) a1 n count1 pct rm1 false = Ok true ->
  check_consensus_reached (E := E) a2 n count2 pct rm2 false <> Ok true.
Proof.
  intros Hn H1 H2 Hsum Hpct Hr Hr'. apply reached_true in Hr, Hr'; try lia.
  destruct count1, count2; nia.
Qed.

Lemma consensus_exclusive_witness :
  check_consensus_reached (E := unit) 0 5 true 80 false false <> Ok true.
Proof.
  apply (consensus_exclusive (E := unit) 5 5 0 true true 80 false false); (lia || reflexivity).
Defined.

(** Once the round has lasted longer than [ledger_abandon_consensus] and than the
    previous round plus [ledger_min_consensus], [check_consensus] does not answer
    [No], whatever the votes are. *)
Lemma check_consensus_decides {E} pp cp ca cf prev_time time stalled parms proposing :
  0 <= pp < 2 ^ 60 -> 0 <= cp < 2 ^ 50 -> 0 <= ca < 2 ^ 50 -> 0 <= cf < 2 ^ 50 ->
  0 <= prev_time < 2 ^ 80 -> 0 <= ledger_min_consensus parms < 2 ^ 80 ->
  ledger_max_consensus parms <= ledger_abandon_consensus parms ->
  ledger_abandon_consensus parms < time -> prev_time + ledger_min_consensus parms < time ->
  exists s, check_consensus (E := E) pp cp ca cf prev_time time stalled parms proposing = Ok s /\
    s <> No.
Proof.
  intros Hpp Hcp Hca Hcf Hprev Hmin Hle Hab Hmt. unfold check_consensus.
  destruct (Z.leb_spec time (ledger_min_consensus parms)); [lia|].
  rewrite plain_ok by (cbn; lia). cbn [bind].
  assert ((if cp <? pp * 3 / 4 then
     limit <- duration_add prev_time (ledger_min_consensus parms);; Ok (time <? limit)
     else Ok false) = Ok (E := E) false) as ->.
  { destruct (cp <? pp * 3 / 4); [|reflexivity]. unfold duration_add.
    assert ((prev_time + ledger_min_consensus parms <=? DURATION_MAX) = true) as ->
      by (unfold DURATION_MAX, from_secs; cbn; lia).
    cbn [bind]. f_equal. lia. }
  cbn [bind].
  assert (forall a count st, 0 <= a < 2 ^ 50 -> exists b, check_consensus_reached (E := E) a cp count
    (min_consensus_pct parms) (time >? ledger_max_consensus parms) st = Ok b) as Hreach.
  { intros a count st Ha. unfold check_consensus_reached. destruct (cp =? 0); [eauto|].
    destruct st; [eauto|]. destruct count; cbn [bind];
      repeat (rewrite plain_ok by (cbn; lia); cbn [bind]); eauto. }
  destruct (Hreach ca proposing stalled Hca) as [[|] ->]; cbn [bind];
    [exists Yes; split; [auto|discriminate]|].
  destruct (Hreach cf false false Hcf) as [[|] ->]; cbn [bind];
    [exists MovedOn; split; [auto|discriminate]|].
  unfold clamp. destruct (Z.leb_spec (ledger_max_consensus parms) (ledger_abandon_consensus parms));
    [|lia]. cbn [bind].
  match goal with |- context [time >? ?m] => assert ((time >? m) = true) as -> by lia end.
  exists Expired. split; [auto|discriminate].
Qed.

(** ** Close times *)

Lemma round_close_time_value {E} t res : 0 < t -> 1 <= res < 2 ^ 31 -> t + res / 2 < 2 ^ 32 ->
  round_close_time (E := E) t res = Ok (t + res / 2 - (t + res / 2) mod res).
Proof.
  intros Ht Hr Hfit. unfold round_close_time.
  assert ((t =? 0) = false) as -> by lia. rewrite Z.max_l by lia.
  rewrite Z.quot_div_nonneg by lia.
  pose proof (Z.div_le_upper_bound res 2 res ltac:(lia) ltac:(lia)).
  assert (0 <= res / 2) by (apply Z.div_pos; lia).
  rewrite plain_ok by (cbn; lia). cbn [bind].
  pose proof (Z.mod_pos_bound (t + res / 2) res ltac:(lia)).
  pose proof (Z.mod_le (t + res / 2) res ltac:(lia) ltac:(lia)).
  rewrite Z.max_l by lia. rewrite cast_id by (cbn; lia). reflexivity.
Qed.

(** Close times are rounded to the nearest multiple of the resolution, half
    a resolution being rounded up, as long as the result is a [u32]. *)
Theorem round_close_time_nearest {E} t res : 0 < t -> 1 <= res < 2 ^ 31 -> t + res / 2 < 2 ^ 32 ->
  exists r, round_close_time (E := E) t res = Ok r /\ r mod res = 0 /\
    2 * (t - r) < res /\ 2 * (r - t) <= res.
Proof.
  intros Ht Hr Hfit. eexists. split; [now apply round_close_time_value|].
  set (s := t + res / 2). pose proof (Z.div_mod s res ltac:(lia)) as Hd.
  pose proof (Z.mod_pos_bound s res ltac:(lia)).
  pose proof (Z.div_mod res 2 ltac:(lia)). pose proof (Z.mod_pos_bound res 2 ltac:(lia)).
  split; [|subst s; lia].
  replace (s - s mod res) with (s / res * res) by lia. apply Z.mod_mul. lia.
Qed.

Lemma round_close_time_nearest_witness : exists r,
  round_close_time (E := unit) 815000015 30 = Ok r /\ r mod 30 = 0 /\
  2 * (815000015 - r) < 30 /\ 2 * (r - 815000015) <= 30.
Proof. apply (round_close_time_nearest (E := unit) 815000015 30); vm_compute; intuition congruence. Defined.

(** A ledger's close time is later than its parent's: unless the close time
    is unset, [effective_close_time] returns a time after the prior one, except
    at the very last second of the clock. *)
Theorem effective_close_time_later {E} t res prior r : t <> 0 -> 0 <= prior < max_of U32 ->
  effective_close_time (E := E) t res prior = Ok r -> prior < r.
Proof.
  intros Ht Hp H. unfold effective_close_time in H.
  assert ((t =? 0) = false) as Ht0 by lia. rewrite Ht0 in H.
  apply bind_ok in H as (x & _ & H). injection H as <-. unfold saturate. cbn in *. lia.
Qed.

Lemma effective_close_time_later_witness : 815000030 < 815000031.
Proof.
  apply (effective_close_time_later (E := unit) 815000001 30 815000030); [lia|vm_compute|];
    [intuition congruence|reflexivity].
Defined.

(** The close-time resolution stays in the table and moves by at most one
    place: to a coarser one only after a disagreement, to a finer one only
    after an agreement at every eighth ledger. *)
Theorem next_resolution_adjacent {E} i agree seq res :
  nth_error LEDGER_POSSIBLE_TIME_RESOLUTIONS i = Some res -> seq <> 0 ->
  exists j res', get_next_ledger_time_resolution (E := E) res agree seq = Ok res' /\
    nth_error LEDGER_POSSIBLE_TIME_RESOLUTIONS j = Some res' /\
    (j = i \/ (j = S i /\ agree = false) \/ (i = S j /\ agree = true /\ seq mod 8 = 0)).
Proof.
  intros Hi Hs. unfold get_next_ledger_time_resolution.
  assert ((seq =? 0) = false) as -> by lia.
  change INCREASE_LEDGER_TIME_RESOLUTION_EVERY with 8.
  unfold DECREASE_LEDGER_TIME_RESOLUTION_EVERY. rewrite Z.mod_1_r.
  do 6 (destruct i as [|i];
    [injection Hi as <-; destruct agree, (Z.eqb_spec (seq mod 8) 0) as [H8|H8]; cbn;
     rewrite ?(proj2 (Z.eqb_eq _ _) H8), ?(proj2 (Z.eqb_neq _ _) H8); cbn;
     eexists _, _; (split; [reflexivity|]);
     first [split; [|left; reflexivity]; reflexivity
           |split; [|right; left; split; reflexivity]; reflexivity
           |split; [|right; right; split; [reflexivity|split; [reflexivity|exact H8]]]; reflexivity]
    |]).
  destruct i; discriminate.
Qed.

Lemma next_resolution_adjacent_witness : exists j res',
  get_next_ledger_time_resolution (E := unit) 30 true 16 = Ok res' /\
  nth_error LEDGER_POSSIBLE_TIME_RESOLUTIONS j = Some res' /\
  (j = 2%nat \/ (j = 3%nat /\ true = false) \/ (2%nat = S j /\ true = true /\ 16 mod 8 = 0)).
Proof. apply (next_resolution_adjacent (E := unit) 2 true 16 30); [reflexivity|lia]. Defined.
