(* ===== verification/DisputedTx.v ===== *)
(** * DisputedTx: the votes on one disputed transaction

    Models [xrpld/consensus/src/model/disputed_tx.rs].  The [BTreeMap] from
    peers to votes is a [gmap]; the two [i32] tallies and the percentages are
    computed at their width, the [usize] round counters are integers.  The
    invariant [tallied] says that the tallies count the recorded votes. *)

From stdpp Require Import gmap.
From Stdlib Require Import ZArith Lia.
From S2P Require Import Prelude ConsensusParms.
Local Open Scope Z_scope.

Section DisputedTx.
Context {Tx TxId NodeId : Type} `{Countable NodeId}.

Record DisputedTx : Type := mkDispute {
  yays : Z;
  nays : Z;
  our_vote : bool;
  tx : Tx;
  votes : gmap NodeId bool;
  current_vote_counter : Z;
  avalanche_state : AvalancheState;
  avalanche_counter : Z;
  tx_id : TxId
}.

Definition new_dispute (t : Tx) (id : TxId) (vote : bool) : DisputedTx :=
  mkDispute 0 0 vote t ∅ 0 Init 0 id.

Definition set_our_vote (vote : bool) (d : DisputedTx) : DisputedTx :=
  mkDispute (yays d) (nays d) vote (tx d) (votes d) (current_vote_counter d)
    (avalanche_state d) (avalanche_counter d) (tx_id d).

(** The tallies and the votes of [d] replaced. *)
Definition with_votes (y n : Z) (v : gmap NodeId bool) (d : DisputedTx) : DisputedTx :=
  mkDispute y n (our_vote d) (tx d) v (current_vote_counter d)
    (avalanche_state d) (avalanche_counter d) (tx_id d).

Definition set_vote {E} (peer : NodeId) (votes_yes : bool) (d : DisputedTx)
    : outcome E (bool * DisputedTx) :=
  match votes d !! peer with
  | None =>
      if votes_yes then
        y <- plain I32 (yays d + 1);;
        Ok (true, with_votes y (nays d) (<[peer := votes_yes]> (votes d)) d)
      else
        n <- plain I32 (nays d + 1);;
        Ok (true, with_votes (yays d) n (<[peer := votes_yes]> (votes d)) d)
  | Some existing =>
      if negb (Bool.eqb existing votes_yes) then
        if votes_yes then
          n <- plain I32 (nays d - 1);;
          y <- plain I32 (yays d + 1);;
          Ok (true, with_votes y n (<[peer := votes_yes]> (votes d)) d)
        else
          y <- plain I32 (yays d - 1);;
          n <- plain I32 (nays d + 1);;
          Ok (true, with_votes y n (<[peer := votes_yes]> (votes d)) d)
      else Ok (false, d)
  end.

Definition un_vote {E} (peer : NodeId) (d : DisputedTx) : outcome E DisputedTx :=
  match votes d !! peer with
  | None => Ok d
  | Some vote =>
      if vote : bool then
        y <- plain I32 (yays d - 1);;
        Ok (with_votes y (nays d) (delete peer (votes d)) d)
      else
        n <- plain I32 (nays d - 1);;
        Ok (with_votes (yays d) n (delete peer (votes d)) d)
  end.

Definition stalled {E} (parms : ConsensusParms) (proposing : bool) (peers_unchanged : Z)
    (d : DisputedTx) : outcome E bool :=
  current_cutoff <- cutoff_of parms (avalanche_state d);;
  next_cutoff <- cutoff_of parms (next current_cutoff);;
  if (consensus_time next_cutoff >? consensus_time current_cutoff)
     || (avalanche_counter d <? av_min_rounds parms) then Ok false
  else if proposing && (current_vote_counter d <? av_min_rounds parms) then Ok false
  else if (peers_unchanged <? av_stalled_rounds parms)
          && (proposing && (current_vote_counter d <? av_stalled_rounds parms)) then Ok false
  else
    support <- plain I32 (yays d + Z.b2z (proposing && our_vote d));;
    support <- plain I32 (support * 100);;
    total <- plain I32 (nays d + yays d);;
    total <- plain I32 (total + Z.b2z proposing);;
    if total =? 0 then Ok false
    else
      let weight := Z.quot support total in
      min_pct <- (if fits I32 (min_consensus_pct parms) then Ok (min_consensus_pct parms) else Panic);;
      limit <- plain I32 (100 - min_pct);;
      Ok ((weight >? min_pct) || (weight <? limit)).

(** The avalanche part of [update_vote]: the required percentage and the new
    avalanche state and counter. *)
Definition update_vote {E} (percent_time : Z) (proposing : bool) (parms : ConsensusParms)
    (d : DisputedTx) : outcome E (bool * DisputedTx) :=
  if our_vote d && (nays d =? 0) then Ok (false, d)
  else if negb (our_vote d) && (yays d =? 0) then Ok (false, d)
  else
    let counter := avalanche_counter d + 1 in
    '(required_pct, new_state) <-
      get_needed_weight parms (avalanche_state d) percent_time counter (av_min_rounds parms);;
    let '(state, counter) :=
      match new_state with
      | Some s => (s, 0)
      | None => (avalanche_state d, counter)
      end in
    new_position <-
      (if proposing : bool then
         scaled <- plain I32 (yays d * 100);;
         support <- plain I32 (scaled + Z.b2z (our_vote d) * 100);;
         sum <- plain I32 (nays d + yays d);;
         total <- plain I32 (sum + 1);;
         if total =? 0 then Panic
         else if fits I32 required_pct then Ok (Z.quot support total >? required_pct) else Panic
       else Ok (yays d >? nays d));;
    if Bool.eqb new_position (our_vote d) then
      Ok (false, mkDispute (yays d) (nays d) (our_vote d) (tx d) (votes d)
                   (current_vote_counter d + 1) state counter (tx_id d))
    else
      Ok (true, mkDispute (yays d) (nays d) new_position (tx d) (votes d) 0 state counter (tx_id d)).

(** ** The invariant *)

Definition count_votes (b : bool) (m : gmap NodeId bool) : nat :=
  size (filter (λ kv : NodeId * bool, kv.2 = b) m).

Definition tallied (d : DisputedTx) : Prop :=
  yays d = Z.of_nat (count_votes true (votes d)) /\
  nays d = Z.of_nat (count_votes false (votes d)).


Lemma count_votes_insert b (m : gmap NodeId bool) p v : m !! p = None ->
  count_votes b (<[p := v]> m) = (count_votes b m + (if Bool.eqb v b then 1 else 0))%nat.
Proof.
  intros Hp. unfold count_votes. destruct (Bool.eqb_spec v b) as [->|Hne].
  - rewrite map_filter_insert_True by done. rewrite map_size_insert_None; [lia|].
    apply map_lookup_filter_None. left. exact Hp.
  - rewrite map_filter_insert_False by done. rewrite delete_id by done. lia.
Qed.

Lemma count_votes_delete b (m : gmap NodeId bool) p v : m !! p = Some v ->
  count_votes b m = (count_votes b (delete p m) + (if Bool.eqb v b then 1 else 0))%nat.
Proof.
  intros Hp. rewrite <- (insert_delete_id m p v Hp) at 1.
  apply count_votes_insert. apply lookup_delete_eq.
Qed.

Lemma count_votes_total (m : gmap NodeId bool) :
  (count_votes true m + count_votes false m)%nat = size m.
Proof.
  induction m as [|p v m Hp IH] using map_ind; [reflexivity|].
  rewrite !count_votes_insert, map_size_insert_None by done. destruct v; cbn; lia.
Qed.

(** The tallies of a tallied dispute are bounded by the number of voters. *)
Lemma tallied_bounds d : tallied d ->
  0 <= yays d /\ 0 <= nays d /\ yays d + nays d = Z.of_nat (size (votes d)).
Proof. intros [-> ->]. rewrite <- count_votes_total. lia. Qed.

Lemma new_dispute_tallied t id v : tallied (new_dispute t id v).
Proof. split; reflexivity. Qed.

(** Replacing the vote of a peer that has one, or not. *)
Lemma insert_vote_counts (m : gmap NodeId bool) p v b :
  Z.of_nat (count_votes b (<[p := v]> m)) =
    Z.of_nat (count_votes b m) + Z.b2z (Bool.eqb v b)
    - match m !! p with Some w => Z.b2z (Bool.eqb w b) | None => 0 end.
Proof.
  destruct (m !! p) as [w|] eqn:Hp.
  - rewrite <- insert_delete_eq, count_votes_insert by apply lookup_delete_eq.
    rewrite (count_votes_delete b m p w Hp). destruct (Bool.eqb v b), (Bool.eqb w b); cbn; lia.
  - rewrite count_votes_insert by done. destruct (Bool.eqb v b); cbn; lia.
Qed.

Lemma set_vote_spec {E} p v d : tallied d -> Z.of_nat (size (votes d)) < 2 ^ 30 ->
  exists d', set_vote (E := E) p v d = Ok (negb (bool_decide (votes d !! p = Some v)), d') /\
    tallied d' /\ votes d' = <[p := v]> (votes d) /\
    d' = with_votes (yays d') (nays d') (votes d') d.
Proof.
  intros Ht Hsz. pose proof (tallied_bounds d Ht) as (Hy & Hn & Hsum).
  destruct Ht as [Hty Htn]. unfold set_vote.
  pose proof (insert_vote_counts (votes d) p v true) as Hct.
  pose proof (insert_vote_counts (votes d) p v false) as Hcf.
  destruct (votes d !! p) as [w|] eqn:Hp.
  - assert (1 <= Z.of_nat (count_votes w (votes d))) as Hw.
    { rewrite (count_votes_delete w _ _ _ Hp). rewrite Bool.eqb_reflx. lia. }
    destruct v, w; cbn [Bool.eqb negb Z.b2z] in *;
      repeat (rewrite plain_ok by (cbn; lia); cbn [bind]);
      (eexists; split; [rewrite ?bool_decide_eq_true_2, ?bool_decide_eq_false_2 by congruence;
         reflexivity|]); cbn [votes with_votes yays nays];
      try (split; [split; cbn [votes with_votes yays nays]; lia|]; split; reflexivity).
    all: rewrite insert_id by done; split; [split; assumption|]; split; [reflexivity|].
    all: destruct d; reflexivity.
  - destruct v; cbn [Bool.eqb Z.b2z] in *; rewrite plain_ok by (cbn; lia); cbn [bind];
      (eexists; split; [rewrite bool_decide_eq_false_2 by congruence; reflexivity|]);
      cbn [votes with_votes yays nays];
      (split; [split; cbn [votes with_votes yays nays]; lia|]); split; reflexivity.
Qed.

Lemma un_vote_spec {E} p d : tallied d -> Z.of_nat (size (votes d)) < 2 ^ 30 ->
  exists d', un_vote (E := E) p d = Ok d' /\ tallied d' /\ votes d' = delete p (votes d) /\
    d' = with_votes (yays d') (nays d') (votes d') d.
Proof.
  intros Ht Hsz. pose proof (tallied_bounds d Ht) as (Hy & Hn & Hsum).
  destruct Ht as [Hty Htn]. unfold un_vote. destruct (votes d !! p) as [w|] eqn:Hp.
  - pose proof (count_votes_delete true _ _ _ Hp) as Hct.
    pose proof (count_votes_delete false _ _ _ Hp) as Hcf.
    destruct w; cbn [Bool.eqb] in *; rewrite plain_ok by (cbn; lia); cbn [bind];
      (eexists; split; [reflexivity|]); cbn [votes with_votes yays nays];
      (split; [split; cbn [votes with_votes yays nays]; lia|]); split; reflexivity.
  - exists d. split; [reflexivity|]. rewrite delete_id by done.
    split; [split; assumption|]. split; [reflexivity|]. destruct d; reflexivity.
Qed.

(** The same whatever the number of voters, unless a tally leaves its width. *)
Lemma set_vote_sound {E} p v d : tallied d ->
  sound (set_vote (E := E) p v d) (fun '(_, d') =>
    tallied d' /\ votes d' = <[p := v]> (votes d) /\
    d' = with_votes (yays d') (nays d') (votes d') d).
Proof.
  intros [Hty Htn]. unfold set_vote.
  pose proof (insert_vote_counts (votes d) p v true) as Hct.
  pose proof (insert_vote_counts (votes d) p v false) as Hcf.
  destruct (votes d !! p) as [w|] eqn:Hp.
  - destruct v, w; cbn [Bool.eqb negb Z.b2z] in *;
      repeat apply sound_plain_bind;
      cbn [sound votes with_votes yays nays];
      try (split; [split; cbn [votes with_votes yays nays]; lia|]; split; reflexivity).
    all: rewrite insert_id by done; split; [split; assumption|]; split; [reflexivity|].
    all: destruct d; reflexivity.
  - destruct v; cbn [Bool.eqb Z.b2z] in *;
      apply sound_plain_bind;
      cbn [sound votes with_votes yays nays];
      (split; [split; cbn [votes with_votes yays nays]; lia|]); split; reflexivity.
Qed.

Lemma un_vote_sound {E} p d : tallied d ->
  sound (un_vote (E := E) p d) (fun d' => tallied d' /\ votes d' = delete p (votes d) /\
    d' = with_votes (yays d') (nays d') (votes d') d).
Proof.
  intros [Hty Htn]. unfold un_vote. destruct (votes d !! p) as [w|] eqn:Hp.
  - pose proof (count_votes_delete true _ _ _ Hp) as Hct.
    pose proof (count_votes_delete false _ _ _ Hp) as Hcf.
    destruct w; cbn [Bool.eqb] in *;
      apply sound_plain_bind;
      cbn [sound votes with_votes yays nays];
      (split; [split; cbn [votes with_votes yays nays]; lia|]); split; reflexivity.
  - cbn [sound]. rewrite delete_id by done. split; [split; assumption|]. split; [reflexivity|].
    destruct d; reflexivity.
Qed.

Lemma stalled_sound {E} p proposing u d : well_formed_parms p ->
  sound (stalled (E := E) p proposing u d) (fun _ => True).
Proof.
  intros Hp. unfold stalled.
  eapply sound_bind; [apply (cutoff_sound p _ (fun _ => True)); auto|]. intros c _.
  eapply sound_bind; [apply (cutoff_sound p _ (fun _ => True)); auto|]. intros c' _.
  do 3 (case_if; [exact I|]).
  do 4 apply sound_plain_bind. case_if; [exact I|].
  rewrite (min_pct_fits p Hp). cbn [bind].
  apply sound_plain_bind. exact I.
Qed.

(** [update_vote] keeps the votes, and reports whether it changed ours. *)
Lemma update_vote_sound {E} pct proposing p d : well_formed_parms p -> tallied d ->
  sound (update_vote (E := E) pct proposing p d) (fun '(changed, d') =>
    tallied d' /\ votes d' = votes d /\ tx d' = tx d /\ tx_id d' = tx_id d /\
    our_vote d' = (if changed : bool then negb (our_vote d) else our_vote d)).
Proof.
  intros Hp Ht. pose proof (tallied_bounds d Ht) as (Hy & Hn & _). unfold update_vote.
  do 2 (case_if; [cbn; auto|]).
  eapply sound_bind; [apply get_needed_weight_sound; auto|]. intros [required new_state] Hreq.
  destruct (match new_state with Some s => (s, 0) | None => _ end) as [st counter].
  eapply (sound_bind _ _ (fun _ => True)).
  { destruct proposing; [|exact I].
    do 2 apply sound_plain_bind.
    do 2 apply sound_plain_bind.
    assert ((nays d + yays d + 1 =? 0) = false) as -> by lia. rewrite Hreq. exact I. }
  intros np _. destruct (Bool.eqb_spec np (our_vote d)) as [->|Hne]; cbn; repeat split; auto;
    try apply Ht. destruct np, (our_vote d); cbn; congruence.
Qed.

End DisputedTx.
Arguments DisputedTx Tx TxId NodeId {_ _}.

(** ** Votes *)

Section Votes.
Context {Tx TxId NodeId : Type} `{Countable NodeId}.

(** A sequence of messages about votes, and what it does to the vote map. *)
Inductive vote_op : Type := SetVote (peer : NodeId) (yes : bool) | UnVote (peer : NodeId).

Definition apply_vote (o : vote_op) (d : DisputedTx Tx TxId NodeId)
    : outcome unit (DisputedTx Tx TxId NodeId) :=
  match o with
  | SetVote p v => '(_, d') <- set_vote p v d;; Ok d'
  | UnVote p => un_vote p d
  end.

Fixpoint run_votes (ops : list vote_op) (d : DisputedTx Tx TxId NodeId)
    : outcome unit (DisputedTx Tx TxId NodeId) :=
  match ops with
  | [] => Ok d
  | o :: ops => d' <- apply_vote o d;; run_votes ops d'
  end.

Definition apply_map (m : gmap NodeId bool) (o : vote_op) : gmap NodeId bool :=
  match o with SetVote p v => <[p := v]> m | UnVote p => delete p m end.

Lemma apply_map_size m o : (size (apply_map m o) <= S (size m))%nat.
Proof.
  destruct o as [p v|p]; cbn [apply_map].
  - rewrite map_size_insert. destruct (m !! p); cbn; lia.
  - rewrite map_size_delete. destruct (m !! p); cbn; lia.
Qed.

Lemma run_votes_spec ops : forall d, tallied d ->
  Z.of_nat (size (votes d)) + Z.of_nat (length ops) < 2 ^ 30 ->
  exists d', run_votes ops d = Ok d' /\ tallied d' /\ votes d' = foldl apply_map (votes d) ops /\
    our_vote d' = our_vote d.
Proof.
  induction ops as [|o ops IH]; intros d Ht Hb; cbn [run_votes foldl].
  - eauto.
  - assert (exists d1, apply_vote o d = Ok d1 /\ tallied d1 /\ votes d1 = apply_map (votes d) o /\
      our_vote d1 = our_vote d) as (d1 & -> & Ht1 & Hv1 & Ho1).
    { cbn [length] in Hb. destruct o as [p v|p]; cbn [apply_vote apply_map].
      - destruct (set_vote_spec (E := unit) p v d Ht) as (d1 & -> & ? & ? & Hd1); [lia|].
        cbn [bind]. exists d1. assert (our_vote d1 = our_vote d) by (rewrite Hd1; reflexivity). auto.
      - destruct (un_vote_spec (E := unit) p d Ht) as (d1 & -> & ? & ? & Hd1); [lia|].
        exists d1. assert (our_vote d1 = our_vote d) by (rewrite Hd1; reflexivity). auto. }
    cbn [bind]. pose proof (apply_map_size (votes d) o). cbn [length] in Hb.
    destruct (IH d1 Ht1) as (d2 & -> & Ht2 & Hv2 & Ho2); [rewrite Hv1; lia|].
    exists d2. rewrite Hv2, Hv1, Ho2, Ho1. auto.
Qed.

(** The tallies count the votes.  After any sequence of vote changes and
    withdrawals by fewer than 2^30 messages on a fresh dispute, no tally
    overflows, the recorded votes are the last ones of each peer, and the two
    tallies are the numbers of recorded yes and no votes. *)
Theorem dispute_votes_tallied (ops : list vote_op) t id v :
  Z.of_nat (length ops) < 2 ^ 30 ->
  exists d, run_votes ops (new_dispute t id v) = Ok d /\
    votes d = foldl apply_map ∅ ops /\
    yays d = Z.of_nat (count_votes true (votes d)) /\
    nays d = Z.of_nat (count_votes false (votes d)) /\ our_vote d = v.
Proof.
  intros Hb. destruct (run_votes_spec ops (new_dispute t id v) (new_dispute_tallied t id v))
    as (d & Hd & [Hy Hn] & Hv & Ho); [exact Hb|].
  exists d. auto.
Qed.
End Votes.

Lemma dispute_votes_tallied_witness :
  let ops := [SetVote 1%positive true; SetVote 2%positive false; SetVote 1%positive false] in
  exists d : DisputedTx Z Z positive, run_votes ops (new_dispute 7 7 true) = Ok d /\
    votes d = foldl apply_map ∅ ops /\ yays d = Z.of_nat (count_votes true (votes d)) /\
    nays d = Z.of_nat (count_votes false (votes d)) /\ our_vote d = true.
Proof. intros ops. apply (dispute_votes_tallied (Tx := Z) (TxId := Z) ops 7 7 true). vm_compute. reflexivity. Defined.

(** ** Stalled disputes *)

Section Stalled.
Context {Tx TxId NodeId : Type} `{Countable NodeId} {E : Type}.
Implicit Types d : DisputedTx Tx TxId NodeId.

(** The votes for the transaction and all votes, with our own when we propose. *)
Definition yes_votes (proposing : bool) d : Z := yays d + Z.b2z (proposing && our_vote d).
Definition all_votes (proposing : bool) d : Z := nays d + yays d + Z.b2z proposing.

(** The tests before the votes are looked at. *)
Definition settled (parms : ConsensusParms) (proposing : bool) (peers_unchanged : Z) (c c' : AvalancheCutoff) d : bool :=
  negb ((consensus_time c' >? consensus_time c) || (avalanche_counter d <? av_min_rounds parms)) &&
  negb (proposing && (current_vote_counter d <? av_min_rounds parms)) &&
  negb ((peers_unchanged <? av_stalled_rounds parms) && (proposing && (current_vote_counter d <? av_stalled_rounds parms))).

(** With few enough voters, what [stalled] computes. *)
Lemma stalled_value parms proposing u d c c' : tallied d -> Z.of_nat (size (votes d)) <= 2 ^ 20 ->
  0 <= min_consensus_pct parms <= 100 ->
  find_cutoff (avalanche_cutoffs parms) (avalanche_state d) = Some c ->
  find_cutoff (avalanche_cutoffs parms) (next c) = Some c' ->
  stalled (E := E) parms proposing u d = Ok (settled parms proposing u c c' d && negb (all_votes proposing d =? 0) &&
    ((yes_votes proposing d * 100 / all_votes proposing d >? min_consensus_pct parms) ||
     (yes_votes proposing d * 100 / all_votes proposing d <? 100 - min_consensus_pct parms))).
Proof.
  intros Ht Hsz Hpct Hc Hc'. pose proof (tallied_bounds d Ht) as (Hy & Hn & Hsum). unfold stalled, cutoff_of, settled.
  rewrite Hc. cbn [expect bind]. rewrite Hc'. cbn [expect bind].
  destruct (_ || _); [reflexivity|]. destruct (_ && (_ <? av_min_rounds _)); [reflexivity|]. destruct (_ && (_ && _)); [reflexivity|]. cbn [negb andb].
  fold (yes_votes proposing d).
  assert (0 <= yes_votes proposing d <= all_votes proposing d /\ all_votes proposing d <= 2 ^ 20 + 1) as [Hyes Hall]
    by (unfold yes_votes, all_votes; destruct proposing, (our_vote d); cbn; lia).
  repeat (rewrite plain_ok by (cbn; unfold yes_votes, all_votes in *; lia); cbn [bind]). fold (all_votes proposing d).
  destruct (Z.eqb_spec (all_votes proposing d) 0); [reflexivity|]. cbn [negb].
  replace (fits I32 (min_consensus_pct parms)) with true by (symmetry; unfold fits; cbn; lia).
  cbn [bind]. rewrite plain_ok by (cbn; lia). cbn [bind]. rewrite Z.quot_div_nonneg by lia. reflexivity.
Qed.

Lemma stalled_total parms proposing u d : well_formed_parms parms -> tallied d -> Z.of_nat (size (votes d)) <= 2 ^ 20 ->
  0 <= min_consensus_pct parms <= 100 -> exists b, stalled (E := E) parms proposing u d = Ok b.
Proof.
  intros Hp Ht Hsz Hpct. destruct (cutoffs_total _ Hp (avalanche_state d)) as [c Hc].
  destruct (cutoffs_total _ Hp (next c)) as [c' Hc']. rewrite (stalled_value parms proposing u d c c') by assumption. eauto.
Qed.

(** C40: with at most 2^20 voters [stalled] returns, without an overflow, and under
    the default parameters it answers true exactly when the dispute is in the last
    avalanche state, for two rounds or more; when we propose, our vote is unchanged
    for two rounds, and either it or all the peers' votes are unchanged for four;
    and the yes votes, our own included when we propose, make up 81% or more, or
    less than 20%, of a non-zero number of votes.  So a dispute can stall in the
    very round in which a peer changed its vote ([peers_unchanged] being 0), when
    we do not propose or when our own vote is four rounds old. *)
Theorem stalled_exactly_when d (proposing : bool) peers_unchanged :
  tallied d -> Z.of_nat (size (votes d)) <= 2 ^ 20 ->
  exists b, stalled (E := E) default_parms proposing peers_unchanged d = Ok b /\
    (b = true <->
       avalanche_state d = Stuck /\ 2 <= avalanche_counter d /\
       (proposing = true -> 2 <= current_vote_counter d /\ (4 <= current_vote_counter d \/ 4 <= peers_unchanged)) /\
       0 < all_votes proposing d /\
       (81 * all_votes proposing d <= 100 * yes_votes proposing d \/ 100 * yes_votes proposing d < 20 * all_votes proposing d)).
Proof.
  intros Ht Hsz. pose proof (tallied_bounds d Ht) as (Hy & Hn & _).
  destruct (cutoffs_total _ default_parms_well_formed (avalanche_state d)) as [c Hc].
  destruct (cutoffs_total _ default_parms_well_formed (next c)) as [c' Hc'].
  rewrite (stalled_value default_parms proposing peers_unchanged d c c') by (auto; cbn; lia). eexists. split; [reflexivity|].
  assert (0 <= all_votes proposing d) as Hall by (unfold all_votes; destruct proposing; cbn; lia).
  assert (consensus_time c' <= consensus_time c <-> avalanche_state d = Stuck) as Hstuck.
  { destruct (avalanche_state d); cbn in Hc; injection Hc as <-; cbn in Hc'; injection Hc' as <-; cbn; split; (lia || discriminate || auto). }
  unfold settled. cbn [av_min_rounds av_stalled_rounds min_consensus_pct default_parms].
  set (yes := yes_votes proposing d) in *. set (total := all_votes proposing d) in *.
  assert (0 < total -> (yes * 100 / total > 80 <-> 81 * total <= 100 * yes) /\ (yes * 100 / total < 20 <-> 100 * yes < 20 * total)) as Hdiv.
  { intros Hpos. pose proof (Z.div_mod (yes * 100) total ltac:(lia)). pose proof (Z.mod_pos_bound (yes * 100) total Hpos). split; split; nia. }
  rewrite !andb_true_iff, !negb_true_iff, orb_false_iff, orb_true_iff. rewrite Z.eqb_neq, Z.ltb_ge, !Z.gtb_ltb, Z.ltb_ge, !Z.ltb_lt, <- Hstuck.
  destruct proposing; cbn [andb]; rewrite ?andb_false_r, ?andb_false_iff, ?Z.ltb_ge; clearbody yes total;
    destruct (Z.eq_dec total 0) as [Hz|Hz]; [split; [intros ?|intros ?]; lia|specialize (Hdiv ltac:(lia))|split; [intros ?|intros ?]; lia|specialize (Hdiv ltac:(lia))];
    intuition (lia || congruence).
Qed.
End Stalled.

(** A dispute in its last avalanche state with nine yes votes and one no. *)
Definition lopsided : DisputedTx Z Z positive :=
  mkDispute 9 1 true 0
    (list_to_map ((10%positive, false) :: map (fun n => (Pos.of_nat n, true)) (seq 1 9)))
    4 Stuck 2 0.

(** It is stalled although a peer has just changed its vote. *)
Lemma stalled_exactly_when_witness : stalled (E := unit) default_parms true 0 lopsided = Ok true.
Proof.
  destruct (stalled_exactly_when (E := unit) lopsided true 0) as (b & Hb & Hiff); [split; vm_compute; reflexivity|vm_compute; discriminate|].
  destruct b; [exact Hb|]. destruct Hiff as [_ Hfalse]. discriminate Hfalse. split; [reflexivity|]. split; [vm_compute; discriminate|].
  split; [intros _; split; [|left]; vm_compute; discriminate|]. split; [reflexivity|]. left. vm_compute. discriminate.
Defined.
