(* ===== verification/Consensus.v ===== *)
(** * Consensus: the consensus state machine

    Models [xrpld/consensus/src/algorithm/consensus.rs] with the types it uses
    of [types.rs] and [xrpld/consensus/src/model/proposal.rs].

    The traits a deployment implements are classes: [ConsensusTxSet],
    [ConsensusLedger], [PeerPosition] and [ConsensusAdaptor].  An adaptor call
    reads and may change the adaptor's own state, the [World]; the calls that
    return nothing are [notify] with an [Event], which is also recorded in the
    machine's log.  The operations run in the monad [M]: the state of the
    machine, an [outcome] for panics, and the log.

    A [HashMap] is a [gmap]; a loop over one runs over its entries in an order
    that the parameter [order] of the development chooses.  A [BTreeMap] keyed
    by close times is an ascending association list.  Durations are
    nanoseconds, [NetClockTimePoint]s [u32] seconds; the [usize] round
    counters are integers.

    [timer_entry] and [start_round_internal] call each other through
    [check_ledger]; [fuel] bounds the depth of that recursion, which depends on
    how often the adaptor changes its mind about the previous ledger. *)

From stdpp Require Import gmap sorting.
From Stdlib Require Import ZArith Lia.
From S2P Require Import Prelude ConsensusParms DisputedTx.
Local Open Scope Z_scope.

(** ** Modes and phases *)

Inductive ConsensusMode : Type := Proposing | Observing | WrongLedger | SwitchedLedger.
Inductive ConsensusPhase : Type := Open | Establish | Accepted.

#[export] Instance ConsensusMode_eq_dec : EqDecision ConsensusMode.
Proof. solve_decision. Defined.
#[export] Instance ConsensusPhase_eq_dec : EqDecision ConsensusPhase.
Proof. solve_decision. Defined.

(** ** Proposals *)

Record ConsensusProposal (NodeId LedgerId Position : Type) : Type := mkProposal {
  pr_previous_ledger : LedgerId;
  pr_position : Position;
  pr_close_time : Z;
  pr_seen_time : Z;
  pr_propose_seq : Z;
  pr_node_id : NodeId
}.
Arguments mkProposal {NodeId LedgerId Position}.
Arguments pr_previous_ledger {NodeId LedgerId Position}.
Arguments pr_position {NodeId LedgerId Position}.
Arguments pr_close_time {NodeId LedgerId Position}.
Arguments pr_seen_time {NodeId LedgerId Position}.
Arguments pr_propose_seq {NodeId LedgerId Position}.
Arguments pr_node_id {NodeId LedgerId Position}.

Definition SEQ_JOIN : Z := 0.
Definition SEQ_LEAVE : Z := 4294967295.

Section Proposal.
Context {NodeId LedgerId Position : Type}.
Implicit Types p : ConsensusProposal NodeId LedgerId Position.

Definition is_initial p : bool := pr_propose_seq p =? SEQ_JOIN.
Definition is_bow_out p : bool := pr_propose_seq p =? SEQ_LEAVE.
Definition is_stale (cutoff : Z) p : bool := pr_seen_time p <=? cutoff.

Definition change_position (new_position : Position) (new_close_time now : Z) p :=
  mkProposal (pr_previous_ledger p) new_position new_close_time now
    (if pr_propose_seq p =? SEQ_LEAVE then pr_propose_seq p else pr_propose_seq p + 1)
    (pr_node_id p).

Definition bow_out (now : Z) p :=
  mkProposal (pr_previous_ledger p) (pr_position p) (pr_close_time p) now SEQ_LEAVE (pr_node_id p).
End Proposal.

(** ** Close-time votes: [BTreeMap<NetClockTimePoint, i32>] *)

Fixpoint btree_incr {E} (k : Z) (m : list (Z * Z)) : outcome E (list (Z * Z)) :=
  match m with
  | [] => Ok [(k, 1)]
  | (k', v) :: m' =>
      if k <? k' then Ok ((k, 1) :: m)
      else if k =? k' then v' <- plain I32 (v + 1);; Ok ((k, v') :: m')
      else m'' <- btree_incr k m';; Ok ((k', v) :: m'')
  end.

Record ConsensusCloseTimes : Type := mkCloseTimes { ct_peers : list (Z * Z); ct_self : Z }.

(** ** Single precision arithmetic *)

(** A finite [f32] as the fraction it stands for.  [f32_round] rounds a
    fraction with a positive denominator to 24 significant bits, ties to even;
    the values that occur are far from overflow and from the subnormals. *)
Definition f32_round (n d : Z) : Z * Z :=
  if n =? 0 then (0, 1) else
  let a := Z.abs n in
  let e := Z.log2 a - Z.log2 d in
  let e := if a * 2 ^ Z.max 0 (- e) <? d * 2 ^ Z.max 0 e then e - 1 else e in
  let shift := 23 - e in
  let num := a * 2 ^ Z.max 0 shift in
  let den := d * 2 ^ Z.max 0 (- shift) in
  let q := num / den in
  let r := num mod den in
  let q := if (2 * r >? den) || ((2 * r =? den) && Z.odd q) then q + 1 else q in
  (Z.sgn n * q * 2 ^ Z.max 0 (- shift), 2 ^ Z.max 0 shift).

Definition f32_of (z : Z) : Z * Z := f32_round z 1.
Definition f32_div (x y : Z * Z) : Z * Z :=
  f32_round (Z.sgn (fst y) * fst x * snd y) (snd x * Z.abs (fst y)).
Definition f32_sub (x y : Z * Z) : Z * Z :=
  f32_round (fst x * snd y - fst y * snd x) (snd x * snd y).
Definition f32_add (x y : Z * Z) : Z * Z :=
  f32_round (fst x * snd y + fst y * snd x) (snd x * snd y).
Definition f32_mul (x y : Z * Z) : Z * Z := f32_round (fst x * fst y) (snd x * snd y).
Definition f32_lt (x y : Z * Z) : bool := fst x * snd y <? fst y * snd x.

(** ** The machine *)

Section Consensus.
Context {NodeId LedgerId TxSetId TxId : Type}.
Context `{Countable NodeId, EqDecision LedgerId, Countable TxSetId, Countable TxId}.
Context {Tx TxSet Ledger PeerPos World : Type}.

Abbreviation Proposal := (ConsensusProposal NodeId LedgerId TxSetId).
Abbreviation Dispute := (DisputedTx Tx TxId NodeId).

Record ConsensusResult : Type := mkResult {
  txns : TxSet;
  position : Proposal;
  disputes : gmap TxId Dispute;
  compares : gset TxSetId;
  round_time : ConsensusTimer;
  state : ConsensusState;
  proposers : Z
}.

(** [ConsensusResult::new]; its debug assertion is a panic. *)
Definition result_new (t : TxSet) (p : Proposal) (txns_id : TxSetId) : outcome unit ConsensusResult :=
  if bool_decide (txns_id = pr_position p)
  then Ok (mkResult t p ∅ ∅ default_timer No 0) else Panic.

Definition set_txns (x : TxSet) (r : ConsensusResult) : ConsensusResult :=
  mkResult x (position r) (disputes r) (compares r) (round_time r) (state r) (proposers
    r).
Definition set_position (x : Proposal) (r : ConsensusResult) : ConsensusResult :=
  mkResult (txns r) x (disputes r) (compares r) (round_time r) (state r) (proposers r).
Definition set_disputes (x : gmap TxId Dispute) (r : ConsensusResult) : ConsensusResult :=
  mkResult (txns r) (position r) x (compares r) (round_time r) (state r) (proposers r).
Definition set_compares (x : gset TxSetId) (r : ConsensusResult) : ConsensusResult :=
  mkResult (txns r) (position r) (disputes r) x (round_time r) (state r) (proposers r).
Definition set_round_time (x : ConsensusTimer) (r : ConsensusResult) : ConsensusResult :=
  mkResult (txns r) (position r) (disputes r) (compares r) x (state r) (proposers r).
Definition set_state (x : ConsensusState) (r : ConsensusResult) : ConsensusResult :=
  mkResult (txns r) (position r) (disputes r) (compares r) (round_time r) x (proposers r).
Definition set_proposers (x : Z) (r : ConsensusResult) : ConsensusResult :=
  mkResult (txns r) (position r) (disputes r) (compares r) (round_time r) (state r) x.

Record Consensus : Type := mkConsensus {
  phase : ConsensusPhase;
  mode : ConsensusMode;
  first_round : bool;
  have_close_time_consensus : bool;
  converge_percent : Z;
  open_time : ConsensusTimer;
  close_resolution : Z;
  close_time_avalanche_state : AvalancheState;
  prev_round_time : Z;
  now : Z;
  prev_close_time : Z;
  prev_ledger_id : LedgerId;
  previous_ledger : Ledger;
  acquired : gmap TxSetId TxSet;
  result : option ConsensusResult;
  raw_close_times : ConsensusCloseTimes;
  peer_unchanged_counter : Z;
  establish_counter : Z;
  curr_peer_positions : gmap NodeId PeerPos;
  recent_peer_positions : gmap NodeId (list PeerPos);
  prev_proposers : Z;
  dead_nodes : gset NodeId
}.

Definition set_phase (x : ConsensusPhase) (c : Consensus) : Consensus :=
  mkConsensus x (mode c) (first_round c) (have_close_time_consensus c) (converge_percent
    c) (open_time c) (close_resolution c) (close_time_avalanche_state c) (prev_round_time
    c) (now c) (prev_close_time c) (prev_ledger_id c) (previous_ledger c) (acquired c)
    (result c) (raw_close_times c) (peer_unchanged_counter c) (establish_counter c)
    (curr_peer_positions c) (recent_peer_positions c) (prev_proposers c) (dead_nodes c).
Definition set_mode (x : ConsensusMode) (c : Consensus) : Consensus :=
  mkConsensus (phase c) x (first_round c) (have_close_time_consensus c) (converge_percent
    c) (open_time c) (close_resolution c) (close_time_avalanche_state c) (prev_round_time
    c) (now c) (prev_close_time c) (prev_ledger_id c) (previous_ledger c) (acquired c)
    (result c) (raw_close_times c) (peer_unchanged_counter c) (establish_counter c)
    (curr_peer_positions c) (recent_peer_positions c) (prev_proposers c) (dead_nodes c).
Definition set_first_round (x : bool) (c : Consensus) : Consensus :=
  mkConsensus (phase c) (mode c) x (have_close_time_consensus c) (converge_percent c)
    (open_time c) (close_resolution c) (close_time_avalanche_state c) (prev_round_time c)
    (now c) (prev_close_time c) (prev_ledger_id c) (previous_ledger c) (acquired c)
    (result c) (raw_close_times c) (peer_unchanged_counter c) (establish_counter c)
    (curr_peer_positions c) (recent_peer_positions c) (prev_proposers c) (dead_nodes c).
Definition set_have_close_time_consensus (x : bool) (c : Consensus) : Consensus :=
  mkConsensus (phase c) (mode c) (first_round c) x (converge_percent c) (open_time c)
    (close_resolution c) (close_time_avalanche_state c) (prev_round_time c) (now c)
    (prev_close_time c) (prev_ledger_id c) (previous_ledger c) (acquired c) (result c)
    (raw_close_times c) (peer_unchanged_counter c) (establish_counter c)
    (curr_peer_positions c) (recent_peer_positions c) (prev_proposers c) (dead_nodes c).
Definition set_converge_percent (x : Z) (c : Consensus) : Consensus :=
  mkConsensus (phase c) (mode c) (first_round c) (have_close_time_consensus c) x
    (open_time c) (close_resolution c) (close_time_avalanche_state c) (prev_round_time c)
    (now c) (prev_close_time c) (prev_ledger_id c) (previous_ledger c) (acquired c)
    (result c) (raw_close_times c) (peer_unchanged_counter c) (establish_counter c)
    (curr_peer_positions c) (recent_peer_positions c) (prev_proposers c) (dead_nodes c).
Definition set_open_time (x : ConsensusTimer) (c : Consensus) : Consensus :=
  mkConsensus (phase c) (mode c) (first_round c) (have_close_time_consensus c)
    (converge_percent c) x (close_resolution c) (close_time_avalanche_state c)
    (prev_round_time c) (now c) (prev_close_time c) (prev_ledger_id c) (previous_ledger c)
    (acquired c) (result c) (raw_close_times c) (peer_unchanged_counter c)
    (establish_counter c) (curr_peer_positions c) (recent_peer_positions c)
    (prev_proposers c) (dead_nodes c).
Definition set_close_resolution (x : Z) (c : Consensus) : Consensus :=
  mkConsensus (phase c) (mode c) (first_round c) (have_close_time_consensus c)
    (converge_percent c) (open_time c) x (close_time_avalanche_state c) (prev_round_time
    c) (now c) (prev_close_time c) (prev_ledger_id c) (previous_ledger c) (acquired c)
    (result c) (raw_close_times c) (peer_unchanged_counter c) (establish_counter c)
    (curr_peer_positions c) (recent_peer_positions c) (prev_proposers c) (dead_nodes c).
Definition set_close_time_avalanche_state (x : AvalancheState) (c : Consensus) : Consensus :=
  mkConsensus (phase c) (mode c) (first_round c) (have_close_time_consensus c)
    (converge_percent c) (open_time c) (close_resolution c) x (prev_round_time c) (now c)
    (prev_close_time c) (prev_ledger_id c) (previous_ledger c) (acquired c) (result c)
    (raw_close_times c) (peer_unchanged_counter c) (establish_counter c)
    (curr_peer_positions c) (recent_peer_positions c) (prev_proposers c) (dead_nodes c).
Definition set_prev_round_time (x : Z) (c : Consensus) : Consensus :=
  mkConsensus (phase c) (mode c) (first_round c) (have_close_time_consensus c)
    (converge_percent c) (open_time c) (close_resolution c) (close_time_avalanche_state c)
    x (now c) (prev_close_time c) (prev_ledger_id c) (previous_ledger c) (acquired c)
    (result c) (raw_close_times c) (peer_unchanged_counter c) (establish_counter c)
    (curr_peer_positions c) (recent_peer_positions c) (prev_proposers c) (dead_nodes c).
Definition set_now (x : Z) (c : Consensus) : Consensus :=
  mkConsensus (phase c) (mode c) (first_round c) (have_close_time_consensus c)
    (converge_percent c) (open_time c) (close_resolution c) (close_time_avalanche_state c)
    (prev_round_time c) x (prev_close_time c) (prev_ledger_id c) (previous_ledger c)
    (acquired c) (result c) (raw_close_times c) (peer_unchanged_counter c)
    (establish_counter c) (curr_peer_positions c) (recent_peer_positions c)
    (prev_proposers c) (dead_nodes c).
Definition set_prev_close_time (x : Z) (c : Consensus) : Consensus :=
  mkConsensus (phase c) (mode c) (first_round c) (have_close_time_consensus c)
    (converge_percent c) (open_time c) (close_resolution c) (close_time_avalanche_state c)
    (prev_round_time c) (now c) x (prev_ledger_id c) (previous_ledger c) (acquired c)
    (result c) (raw_close_times c) (peer_unchanged_counter c) (establish_counter c)
    (curr_peer_positions c) (recent_peer_positions c) (prev_proposers c) (dead_nodes c).
Definition set_prev_ledger_id (x : LedgerId) (c : Consensus) : Consensus :=
  mkConsensus (phase c) (mode c) (first_round c) (have_close_time_consensus c)
    (converge_percent c) (open_time c) (close_resolution c) (close_time_avalanche_state c)
    (prev_round_time c) (now c) (prev_close_time c) x (previous_ledger c) (acquired c)
    (result c) (raw_close_times c) (peer_unchanged_counter c) (establish_counter c)
    (curr_peer_positions c) (recent_peer_positions c) (prev_proposers c) (dead_nodes c).
Definition set_previous_ledger (x : Ledger) (c : Consensus) : Consensus :=
  mkConsensus (phase c) (mode c) (first_round c) (have_close_time_consensus c)
    (converge_percent c) (open_time c) (close_resolution c) (close_time_avalanche_state c)
    (prev_round_time c) (now c) (prev_close_time c) (prev_ledger_id c) x (acquired c)
    (result c) (raw_close_times c) (peer_unchanged_counter c) (establish_counter c)
    (curr_peer_positions c) (recent_peer_positions c) (prev_proposers c) (dead_nodes c).
Definition set_acquired (x : gmap TxSetId TxSet) (c : Consensus) : Consensus :=
  mkConsensus (phase c) (mode c) (first_round c) (have_close_time_consensus c)
    (converge_percent c) (open_time c) (close_resolution c) (close_time_avalanche_state c)
    (prev_round_time c) (now c) (prev_close_time c) (prev_ledger_id c) (previous_ledger c)
    x (result c) (raw_close_times c) (peer_unchanged_counter c) (establish_counter c)
    (curr_peer_positions c) (recent_peer_positions c) (prev_proposers c) (dead_nodes c).
Definition set_result (x : option ConsensusResult) (c : Consensus) : Consensus :=
  mkConsensus (phase c) (mode c) (first_round c) (have_close_time_consensus c)
    (converge_percent c) (open_time c) (close_resolution c) (close_time_avalanche_state c)
    (prev_round_time c) (now c) (prev_close_time c) (prev_ledger_id c) (previous_ledger c)
    (acquired c) x (raw_close_times c) (peer_unchanged_counter c) (establish_counter c)
    (curr_peer_positions c) (recent_peer_positions c) (prev_proposers c) (dead_nodes c).
Definition set_raw_close_times (x : ConsensusCloseTimes) (c : Consensus) : Consensus :=
  mkConsensus (phase c) (mode c) (first_round c) (have_close_time_consensus c)
    (converge_percent c) (open_time c) (close_resolution c) (close_time_avalanche_state c)
    (prev_round_time c) (now c) (prev_close_time c) (prev_ledger_id c) (previous_ledger c)
    (acquired c) (result c) x (peer_unchanged_counter c) (establish_counter c)
    (curr_peer_positions c) (recent_peer_positions c) (prev_proposers c) (dead_nodes c).
Definition set_peer_unchanged_counter (x : Z) (c : Consensus) : Consensus :=
  mkConsensus (phase c) (mode c) (first_round c) (have_close_time_consensus c)
    (converge_percent c) (open_time c) (close_resolution c) (close_time_avalanche_state c)
    (prev_round_time c) (now c) (prev_close_time c) (prev_ledger_id c) (previous_ledger c)
    (acquired c) (result c) (raw_close_times c) x (establish_counter c)
    (curr_peer_positions c) (recent_peer_positions c) (prev_proposers c) (dead_nodes c).
Definition set_establish_counter (x : Z) (c : Consensus) : Consensus :=
  mkConsensus (phase c) (mode c) (first_round c) (have_close_time_consensus c)
    (converge_percent c) (open_time c) (close_resolution c) (close_time_avalanche_state c)
    (prev_round_time c) (now c) (prev_close_time c) (prev_ledger_id c) (previous_ledger c)
    (acquired c) (result c) (raw_close_times c) (peer_unchanged_counter c) x
    (curr_peer_positions c) (recent_peer_positions c) (prev_proposers c) (dead_nodes c).
Definition set_curr_peer_positions (x : gmap NodeId PeerPos) (c : Consensus) : Consensus :=
  mkConsensus (phase c) (mode c) (first_round c) (have_close_time_consensus c)
    (converge_percent c) (open_time c) (close_resolution c) (close_time_avalanche_state c)
    (prev_round_time c) (now c) (prev_close_time c) (prev_ledger_id c) (previous_ledger c)
    (acquired c) (result c) (raw_close_times c) (peer_unchanged_counter c)
    (establish_counter c) x (recent_peer_positions c) (prev_proposers c) (dead_nodes c).
Definition set_recent_peer_positions (x : gmap NodeId (list PeerPos)) (c : Consensus) : Consensus :=
  mkConsensus (phase c) (mode c) (first_round c) (have_close_time_consensus c)
    (converge_percent c) (open_time c) (close_resolution c) (close_time_avalanche_state c)
    (prev_round_time c) (now c) (prev_close_time c) (prev_ledger_id c) (previous_ledger c)
    (acquired c) (result c) (raw_close_times c) (peer_unchanged_counter c)
    (establish_counter c) (curr_peer_positions c) x (prev_proposers c) (dead_nodes c).
Definition set_prev_proposers (x : Z) (c : Consensus) : Consensus :=
  mkConsensus (phase c) (mode c) (first_round c) (have_close_time_consensus c)
    (converge_percent c) (open_time c) (close_resolution c) (close_time_avalanche_state c)
    (prev_round_time c) (now c) (prev_close_time c) (prev_ledger_id c) (previous_ledger c)
    (acquired c) (result c) (raw_close_times c) (peer_unchanged_counter c)
    (establish_counter c) (curr_peer_positions c) (recent_peer_positions c) x (dead_nodes
    c).
Definition set_dead_nodes (x : gset NodeId) (c : Consensus) : Consensus :=
  mkConsensus (phase c) (mode c) (first_round c) (have_close_time_consensus c)
    (converge_percent c) (open_time c) (close_resolution c) (close_time_avalanche_state c)
    (prev_round_time c) (now c) (prev_close_time c) (prev_ledger_id c) (previous_ledger c)
    (acquired c) (result c) (raw_close_times c) (peer_unchanged_counter c)
    (establish_counter c) (curr_peer_positions c) (recent_peer_positions c)
    (prev_proposers c) x.

(** [Consensus::with_clock]; the defaults of the identifier and the ledger types
    are arguments. *)
Definition with_clock (default_id : LedgerId) (default_ledger : Ledger) : Consensus :=
  mkConsensus Accepted Observing true false 0 (mkTimer None 0) (from_secs 30) Init 0 0 0
    default_id default_ledger ∅ None (mkCloseTimes [] 0) 0 0 ∅ ∅ 0 ∅.

(** ** The traits *)

Class ConsensusTxSet : Type := {
  tx_id_of : Tx -> TxId;
  tx_exists : TxSet -> TxId -> bool;
  tx_find : TxSet -> TxId -> option Tx;
  set_id : TxSet -> TxSetId;
  tx_compare : TxSet -> TxSet -> list (TxId * bool);
  tx_insert : Tx -> TxSet -> TxSet;
  tx_erase : TxId -> TxSet -> TxSet
}.

Class ConsensusLedger : Type := {
  ledger_id : Ledger -> LedgerId;
  ledger_seq : Ledger -> Z;
  close_time_resolution : Ledger -> Z;
  close_agree : Ledger -> bool;
  close_time : Ledger -> Z;
  parent_close_time : Ledger -> Z
}.

Class PeerPosition : Type := { proposal : PeerPos -> Proposal }.

(** The calls of the adaptor that return nothing. *)
Inductive Event : Type :=
| OnModeChange (before after : ConsensusMode)
| OnAccept (r : ConsensusResult) (prev : Ledger) (resolution : Z) (raw : ConsensusCloseTimes)
    (m : ConsensusMode)
| Propose (p : Proposal)
| SharePeerPosition (p : PeerPos)
| ShareTx (t : Tx)
| ShareTxSet (s : TxSet)
| UpdateOperatingMode (positions : Z).

Class ConsensusAdaptor : Type := {
  acquire_ledger : LedgerId -> World -> option Ledger * World;
  acquire_tx_set : TxSetId -> World -> option TxSet * World;
  has_open_transactions : World -> bool * World;
  proposers_validated : LedgerId -> World -> Z * World;
  proposers_finished : Ledger -> LedgerId -> World -> Z * World;
  get_prev_ledger : LedgerId -> Ledger -> ConsensusMode -> World -> LedgerId * World;
  on_close : Ledger -> Z -> ConsensusMode -> World -> ConsensusResult * World;
  valid_ledger_seq : World -> Z * World;
  quorum_keys : World -> (Z * gset NodeId) * World;
  laggards : Z -> gset NodeId -> World -> (Z * gset NodeId) * World;
  validator : World -> bool * World;
  have_validated : World -> bool * World;
  clock_now : World -> Z * World;
  parms : ConsensusParms;
  next_ledger_time_resolution : Z -> bool -> Z -> Z;
  adaptor_round_close_time : Z -> Z -> Z;
  notify : Event -> World -> World
}.

Context `{!ConsensusTxSet, !ConsensusLedger, !PeerPosition, !ConsensusAdaptor}.

(** The order in which a loop visits the entries of a hash map. *)
Context (order : forall A, list A -> list A).
Definition entries {K V} `{Countable K} (m : gmap K V) : list (K * V) :=
  order _ (map_to_list m).

(** ** The monad *)

Record Machine : Type := mkMachine { cs : Consensus; world : World; log : list Event }.

Definition M (A : Type) : Type := Machine -> outcome unit (A * Machine).

#[global] Instance M_ret : MRet M := fun A a s => Ok (a, s).
#[global] Instance M_bind : MBind M := fun A B k m s =>
  match m s with
  | Ok (a, s') => k a s'
  | Err e => Err e
  | Panic => Panic
  | Wraps => Wraps
  | OutOfFuel => OutOfFuel
  end.

Definition lift {A} (o : outcome unit A) : M A := fun s =>
  match o with
  | Ok a => Ok (a, s)
  | Err e => Err e
  | Panic => Panic
  | Wraps => Wraps
  | OutOfFuel => OutOfFuel
  end.

Definition gets {A} (f : Consensus -> A) : M A := fun s => Ok (f (cs s), s).
Definition modify (f : Consensus -> Consensus) : M unit := fun s =>
  Ok (tt, mkMachine (f (cs s)) (world s) (log s)).
Definition query {A} (f : World -> A * World) : M A := fun s =>
  let '(a, w) := f (world s) in Ok (a, mkMachine (cs s) w (log s)).
Definition emit (e : Event) : M unit := fun s =>
  Ok (tt, mkMachine (cs s) (notify e (world s)) (log s ++ [e])).
Definition assert (b : bool) : M unit := if b then mret tt else lift Panic.
Definition out_of_fuel {A} : M A := lift OutOfFuel.

Definition when (b : bool) (m : M unit) : M unit := if b then m else mret tt.

Fixpoint for_each {A} (l : list A) (f : A -> M unit) : M unit :=
  match l with
  | [] => mret tt
  | a :: l => f a ;; for_each l f
  end.

(** [self.result.as_ref().expect(..)] and its mutable form. *)
Definition get_result : M ConsensusResult :=
  r ← gets result; match r with Some r => mret r | None => lift Panic end.
Definition modify_result (f : ConsensusResult -> ConsensusResult) : M unit :=
  r ← get_result; modify (set_result (Some (f r))).

Definition set_mode_monitored (m : ConsensusMode) : M unit :=
  before ← gets mode; emit (OnModeChange before m) ;; modify (set_mode m).

Definition time_duration_to_std (d : Z) : Z := from_secs (Z.max d 0).
Definition std_duration_to_time (d : Z) : Z := cast I64 (d / 1000000000).

(** [NetClockTimePoint::checked_sub] and [unwrap_or_default]. *)
Definition net_sub_or_default (t d : Z) : Z := if fits U32 (t - d) then t - d else 0.

(** ** Disputes *)

(** Every dispute of the result is updated in place. *)
Definition for_disputes (f : TxId -> Dispute -> M Dispute) : M unit :=
  r ← get_result;
  for_each (entries (disputes r)) (fun kd =>
    d' ← f kd.1 kd.2;
    modify_result (fun r => set_disputes (<[kd.1 := d']> (disputes r)) r)).

Definition create_disputes (other : TxSet) : M unit :=
  let other_id := set_id other in
  r ← get_result;
  if bool_decide (other_id ∈ compares r) then mret tt
  else
    modify_result (fun r => set_compares ({[other_id]} ∪ compares r) r) ;;
    let our_txns := txns r in
    if bool_decide (set_id our_txns = other_id) then mret tt
    else
      for_each (tx_compare our_txns other) (fun difference =>
        let '(id, in_this_set) := difference in
        match (if in_this_set : bool then tx_find our_txns id else tx_find other id) with
        | None => mret tt
        | Some tx =>
            r ← get_result;
            if bool_decide (is_Some (disputes r !! id)) then mret tt
            else
              positions ← gets curr_peer_positions;
              acq ← gets acquired;
              dtx ← foldl (fun (acc : M Dispute) entry =>
                       dtx ← acc;
                       match acq !! pr_position (proposal entry.2) with
                       | Some set =>
                           '(changed, dtx) ← lift (set_vote entry.1 (tx_exists set id) dtx);
                           when changed (modify (set_peer_unchanged_counter 0)) ;;
                           mret dtx
                       | None => mret dtx
                       end)
                     (mret (new_dispute tx id (tx_exists our_txns id))) (entries positions);
              emit (ShareTx (DisputedTx.tx dtx)) ;;
              modify_result (fun r => set_disputes (<[id := dtx]> (disputes r)) r)
        end).

Definition update_disputes (node : NodeId) (other : TxSet) : M unit :=
  r ← get_result;
  when (negb (bool_decide (set_id other ∈ compares r))) (create_disputes other) ;;
  for_disputes (fun _ d =>
    '(changed, d) ← lift (set_vote node (tx_exists other (tx_id_of (DisputedTx.tx d))) d);
    when changed (modify (set_peer_unchanged_counter 0)) ;;
    mret d).

(** Withdrawing the votes of a peer, when there is a result. *)
Definition un_vote_all (peer : NodeId) : M unit :=
  r ← gets result;
  match r with
  | None => mret tt
  | Some _ => for_disputes (fun _ d => lift (un_vote peer d))
  end.

Definition got_tx_set (now' : Z) (tx_set : TxSet) : M unit :=
  ph ← gets phase;
  if bool_decide (ph = Accepted) then mret tt
  else
    modify (set_now now') ;;
    let id := set_id tx_set in
    acq ← gets acquired;
    if bool_decide (is_Some (acq !! id)) then mret tt
    else
      modify (fun c => set_acquired (<[id := tx_set]> (acquired c)) c) ;;
      r ← gets result;
      match r with
      | None => mret tt
      | Some _ =>
          positions ← gets curr_peer_positions;
          for_each (entries positions) (fun entry =>
            when (bool_decide (pr_position (proposal entry.2) = id))
              (update_disputes entry.1 tx_set))
      end.

(** ** Peer proposals *)

Definition peer_proposal_internal (now' : Z) (new_peer_pos : PeerPos) : M bool :=
  ph ← gets phase;
  if bool_decide (ph = Accepted) then mret false
  else
    modify (set_now now') ;;
    let prop := proposal new_peer_pos in
    prev ← gets prev_ledger_id;
    if negb (bool_decide (pr_previous_ledger prop = prev)) then mret false
    else
      let peer_id := pr_node_id prop in
      dead ← gets dead_nodes;
      if bool_decide (peer_id ∈ dead) then mret false
      else
        positions ← gets curr_peer_positions;
        let superseded :=
          match positions !! peer_id with
          | Some existing => pr_propose_seq prop <=? pr_propose_seq (proposal existing)
          | None => false
          end in
        if superseded then mret false
        else if is_bow_out prop then
          un_vote_all peer_id ;;
          modify (fun c => set_curr_peer_positions (delete peer_id (curr_peer_positions c)) c) ;;
          modify (fun c => set_dead_nodes ({[peer_id]} ∪ dead_nodes c) c) ;;
          mret true
        else
          modify (fun c =>
            set_curr_peer_positions (<[peer_id := new_peer_pos]> (curr_peer_positions c)) c) ;;
          when (is_initial prop)
            (raw ← gets raw_close_times;
             peers ← lift (btree_incr (pr_close_time prop) (ct_peers raw));
             modify (set_raw_close_times (mkCloseTimes peers (ct_self raw)))) ;;
          acq ← gets acquired;
          match acq !! pr_position prop with
          | None =>
              set ← query (acquire_tx_set (pr_position prop));
              match set with
              | Some set => n ← gets now; got_tx_set n set
              | None => mret tt
              end
          | Some set =>
              r ← gets result;
              match r with
              | Some _ => update_disputes peer_id set
              | None => mret tt
              end
          end ;;
          mret true.

Definition peer_proposal (now' : Z) (new_proposal : PeerPos) : M bool :=
  let peer_id := pr_node_id (proposal new_proposal) in
  recent ← gets recent_peer_positions;
  let props := default [] (recent !! peer_id) in
  let props := if (10 <=? Z.of_nat (length props)) then tail props else props in
  modify (set_recent_peer_positions (<[peer_id := props ++ [new_proposal]]> recent)) ;;
  peer_proposal_internal now' new_proposal.

Definition playback_proposals : M unit :=
  recent ← gets recent_peer_positions;
  for_each (mjoin (map snd (entries recent))) (fun pos =>
    prev ← gets prev_ledger_id;
    if bool_decide (pr_previous_ledger (proposal pos) = prev) then
      n ← gets now;
      relay ← peer_proposal_internal n pos;
      when relay (emit (SharePeerPosition pos))
    else mret tt).

(** ** Leaving consensus *)

Definition leave_consensus : M unit :=
  m ← gets mode;
  if bool_decide (m = Proposing) then
    r ← gets result;
    match r with
    | Some r =>
        when (negb (is_bow_out (position r)))
          (n ← gets now;
           let r := set_position (bow_out n (position r)) r in
           modify (set_result (Some r)) ;;
           emit (Propose (position r)))
    | None => mret tt
    end ;;
    set_mode_monitored Observing
  else mret tt.

(** ** Our position *)

Definition round_close_time_for (raw : Z) : M Z :=
  res ← gets close_resolution; mret (adaptor_round_close_time raw res).

(** The peers whose proposals are too old lose their votes and positions. *)
Definition remove_stale_peers (peer_cutoff : Z) : M unit :=
  positions ← gets curr_peer_positions;
  let stale := filter (fun entry => is_stale peer_cutoff (proposal entry.2) = true)
                 (entries positions) in
  for_each stale (fun entry =>
    un_vote_all entry.1 ;;
    modify (fun c => set_curr_peer_positions (delete entry.1 (curr_peer_positions c)) c)).

(** The rounded close times of the peers, counted. *)
Definition count_close_times : M (list (Z * Z)) :=
  positions ← gets curr_peer_positions;
  foldl (fun (acc : M (list (Z * Z))) entry =>
           votes ← acc;
           ct ← round_close_time_for (pr_close_time (proposal entry.2));
           lift (btree_incr ct votes))
    (mret []) (entries positions).

(** One pass of [update_vote] over the disputes; the transaction set is copied
    at the first changed vote and then updated. *)
Definition vote_on_disputes : M (option TxSet) :=
  m ← gets mode;
  pct ← gets converge_percent;
  let proposing := bool_decide (m = Proposing) in
  r ← get_result;
  foldl (fun (acc : M (option TxSet)) kd =>
           mutable_set ← acc;
           '(changed, d) ← lift (update_vote (cast I32 pct) proposing parms kd.2);
           modify_result (fun r => set_disputes (<[kd.1 := d]> (disputes r)) r) ;;
           if changed : bool then
             let set := default (txns r) mutable_set in
             mret (Some (if our_vote d then tx_insert (DisputedTx.tx d) set else tx_erase kd.1 set))
           else mret mutable_set)
    (mret None) (entries (disputes r)).

(** The loop over the votes in ascending order of close time. *)
Definition pick_close_time (thresh_consensus : Z) (st : Z * Z * bool) (vote : Z * Z)
    : Z * Z * bool :=
  let '(consensus_close_time, thresh_vote, have) := st in
  let '(t, v) := vote in
  if v >=? thresh_vote then (t, v, have || (v >=? thresh_consensus))
  else st.

(** Whether there is agreement on the close time, and on which one. *)
Definition agree_on_close_time (close_time_votes : list (Z * Z)) : M Z :=
  modify (set_have_close_time_consensus false) ;;
  positions ← gets curr_peer_positions;
  if bool_decide (positions = ∅) then
    modify (set_have_close_time_consensus true) ;;
    r ← get_result;
    round_close_time_for (pr_close_time (position r))
  else
    st ← gets close_time_avalanche_state;
    pct ← gets converge_percent;
    '(needed_weight, new_state) ← lift (get_needed_weight parms st (cast I32 pct) 0 0);
    match new_state with
    | Some s => modify (set_close_time_avalanche_state s)
    | None => mret tt
    end ;;
    let participants := cast I32 (Z.of_nat (size positions)) in
    m ← gets mode;
    '(close_time_votes, participants) ←
      (if bool_decide (m = Proposing) then
         r ← get_result;
         our_close_time ← round_close_time_for (pr_close_time (position r));
         votes ← lift (btree_incr our_close_time close_time_votes);
         participants ← lift (plain I32 (participants + 1));
         mret (votes, participants)
       else mret (close_time_votes, participants));
    thresh_vote ← lift (participants_needed participants (cast I32 needed_weight));
    thresh_consensus ← lift (participants_needed participants
                               (cast I32 (av_ct_consensus_pct parms)));
    let '(consensus_close_time, _, have) :=
      foldl (pick_close_time thresh_consensus) (0, thresh_vote, false) close_time_votes in
    when have (modify (set_have_close_time_consensus true)) ;;
    mret consensus_close_time.

(** Taking the new set as our position, sharing and proposing it. *)
Definition adopt_position (new_set : TxSet) (consensus_close_time : Z) : M unit :=
  let new_id := set_id new_set in
  n ← gets now;
  modify_result (fun r =>
    set_position (change_position new_id consensus_close_time n (position r)) (set_txns new_set r)) ;;
  acq ← gets acquired;
  (if bool_decide (is_Some (acq !! new_id)) then mret tt
   else
     r ← get_result;
     modify (fun c => set_acquired (<[new_id := txns r]> (acquired c)) c) ;;
     when (negb (is_bow_out (position r))) (emit (ShareTxSet (txns r))) ;;
     positions ← gets curr_peer_positions;
     for_each (filter (fun entry => pr_position (proposal entry.2) = new_id) (entries positions))
       (fun entry => update_disputes entry.1 (txns r))) ;;
  r ← get_result;
  m ← gets mode;
  when (negb (is_bow_out (position r)) && bool_decide (m = Proposing)) (emit (Propose (position r))).

Definition update_our_positions : M unit :=
  n ← gets now;
  let peer_cutoff := net_sub_or_default n (std_duration_to_time (propose_freshness parms)) in
  let our_cutoff := net_sub_or_default n (std_duration_to_time (propose_interval parms)) in
  remove_stale_peers peer_cutoff ;;
  close_time_votes ← count_close_times;
  our_new_set ← vote_on_disputes;
  consensus_close_time ← agree_on_close_time close_time_votes;
  our_new_set ←
    match our_new_set with
    | Some s => mret (Some s)
    | None =>
        r ← get_result;
        position_close_time ← round_close_time_for (pr_close_time (position r));
        mret (if negb (consensus_close_time =? position_close_time)
                 || is_stale our_cutoff (position r)
              then Some (txns r) else None)
    end;
  match our_new_set with
  | Some new_set => adopt_position new_set consensus_close_time
  | None => mret tt
  end.

(** ** Detecting consensus *)

Definition have_consensus : M bool :=
  r ← get_result;
  positions ← gets curr_peer_positions;
  let our_position := pr_position (position r) in
  let agree := Z.of_nat (length (filter (fun entry =>
                 pr_position (proposal entry.2) = our_position) (map_to_list positions))) in
  let disagree := Z.of_nat (size positions) - agree in
  prev ← gets previous_ledger;
  prev_id ← gets prev_ledger_id;
  current_finished ← query (proposers_finished prev prev_id);
  m ← gets mode;
  let proposing := bool_decide (m = Proposing) in
  have ← gets have_close_time_consensus;
  unchanged ← gets peer_unchanged_counter;
  stalled ←
    (if have && negb (bool_decide (disputes r = ∅)) then
       foldl (fun (acc : M bool) kd =>
                b ← acc;
                if b : bool then lift (stalled parms proposing unchanged kd.2) else mret false)
         (mret true) (entries (disputes r))
     else mret false);
  pp ← gets prev_proposers;
  prt ← gets prev_round_time;
  state' ← lift (check_consensus pp (agree + disagree) agree current_finished prt
                   (timer_read (round_time r)) stalled parms proposing);
  modify_result (set_state state') ;;
  match state' with
  | No => mret false
  | Expired =>
      minimum_counter ← lift (plain Usize (Z.of_nat (length (avalanche_cutoffs parms))
                                           * av_min_rounds parms));
      counter ← gets establish_counter;
      if counter <? minimum_counter then mret false
      else leave_consensus ;; mret true
  | _ => mret true
  end.

Definition MAX_PAUSE_PHASE : Z := 4.

Definition should_pause : M bool :=
  prev ← gets previous_ledger;
  let working_seq := ledger_seq prev in
  valid ← query valid_ledger_seq;
  let ahead := Z.max 0 (working_seq - valid) in
  '(quorum, trusted_keys) ← query quorum_keys;
  let total_validators := Z.of_nat (size trusted_keys) in
  '(lagging, trusted_keys) ← query (laggards working_seq trusted_keys);
  let offline := Z.of_nat (size trusted_keys) in
  r ← get_result;
  proceed ←
    (if (ahead =? 0) || (lagging =? 0) || (total_validators =? 0) then mret false
     else
       is_validator ← query validator;
       if negb is_validator then mret false
       else
         validated ← query have_validated;
         mret (validated && negb (timer_read (round_time r) >? ledger_max_consensus parms)));
  if negb proceed then mret false
  else
    let phase := (ahead - 1) mod (MAX_PAUSE_PHASE + 1) in
    let unavailable := saturate Usize (lagging + offline) in
    if phase =? 0 then mret (unavailable >? Z.max 0 (total_validators - quorum))
    else if phase =? MAX_PAUSE_PHASE then mret true
    else
      let non_laggards := f32_of (Z.max 0 (total_validators - unavailable)) in
      let total := f32_of total_validators in
      let quorum_ratio := f32_div (f32_of quorum) total in
      let allowed_dissent := f32_sub (f32_of 1) quorum_ratio in
      let phase_factor := f32_div (f32_of phase) (f32_of MAX_PAUSE_PHASE) in
      mret (f32_lt (f32_div non_laggards total)
              (f32_add quorum_ratio (f32_mul allowed_dissent phase_factor))).

(** ** Phases *)

Definition phase_establish : M unit :=
  r ← gets result;
  assert (bool_decide (is_Some r)) ;;
  modify (fun c => set_peer_unchanged_counter (peer_unchanged_counter c + 1) c) ;;
  modify (fun c => set_establish_counter (establish_counter c + 1) c) ;;
  clock ← query clock_now;
  positions ← gets curr_peer_positions;
  modify_result (fun r => set_proposers (Z.of_nat (size positions))
                            (set_round_time (timer_tick_to clock (round_time r)) r)) ;;
  r ← get_result;
  prt ← gets prev_round_time;
  let round_time_ms := timer_read (round_time r) in
  let denom := Z.max prt (av_min_consensus_time parms) in
  scaled ← lift (plain I64 (cast I64 (round_time_ms / 1000000) * 100));
  let divisor := cast I64 (Z.max (denom / 1000000) 1) in
  (if divisor =? 0 then lift Panic else mret tt) ;;
  modify (set_converge_percent (Z.quot scaled divisor)) ;;
  if round_time_ms <? ledger_min_consensus parms then mret tt
  else
    update_our_positions ;;
    pause ← should_pause;
    if pause : bool then mret tt
    else
      have ← have_consensus;
      if negb have then mret tt
      else
        close ← gets have_close_time_consensus;
        if negb close then mret tt
        else
          positions ← gets curr_peer_positions;
          emit (UpdateOperatingMode (Z.of_nat (size positions))) ;;
          modify (set_prev_proposers (Z.of_nat (size positions))) ;;
          r ← get_result;
          modify (set_prev_round_time (timer_read (round_time r))) ;;
          modify (set_phase Accepted) ;;
          prev ← gets previous_ledger;
          res ← gets close_resolution;
          raw ← gets raw_close_times;
          m ← gets mode;
          emit (OnAccept r prev res raw m).

Definition close_ledger : M unit :=
  r ← gets result;
  assert (bool_decide (r = None)) ;;
  modify (set_phase Establish) ;;
  n ← gets now;
  modify (fun c => set_raw_close_times (mkCloseTimes (ct_peers (raw_close_times c)) n) c) ;;
  modify (set_peer_unchanged_counter 0) ;;
  modify (set_establish_counter 0) ;;
  prev ← gets previous_ledger;
  m ← gets mode;
  r ← query (on_close prev n m);
  clock ← query clock_now;
  let r := set_round_time (timer_reset clock (round_time r)) r in
  acq ← gets acquired;
  when (negb (bool_decide (is_Some (acq !! set_id (txns r)))))
    (modify (set_acquired (<[set_id (txns r) := txns r]> acq)) ;;
     emit (ShareTxSet (txns r))) ;;
  when (bool_decide (m = Proposing)) (emit (Propose (position r))) ;;
  modify (set_result (Some r)) ;;
  positions ← gets curr_peer_positions;
  for_each (entries positions) (fun entry =>
    acq ← gets acquired;
    match acq !! pr_position (proposal entry.2) with
    | Some set => create_disputes set
    | None => mret tt
    end).

Definition phase_open : M unit :=
  any_transactions ← query has_open_transactions;
  positions ← gets curr_peer_positions;
  prev_id ← gets prev_ledger_id;
  let proposers_closed := Z.of_nat (size positions) in
  validated ← query (proposers_validated prev_id);
  clock ← query clock_now;
  modify (fun c => set_open_time (timer_tick_to clock (open_time c)) c) ;;
  m ← gets mode;
  prev ← gets previous_ledger;
  parent_plus_1 ← lift (if fits U32 (parent_close_time prev + 1)
                        then Ok (parent_close_time prev + 1) else Panic);
  let previous_close_correct :=
    negb (bool_decide (m = WrongLedger)) && close_agree prev
    && negb (close_time prev =? parent_plus_1) in
  own ← gets prev_close_time;
  let last_close_time := if previous_close_correct then close_time prev else own in
  let last_close_time := if last_close_time =? 0 then own else last_close_time in
  n ← gets now;
  let since_close := if n >=? last_close_time then time_duration_to_std (n - last_close_time) else 0 in
  doubled ← lift (if close_time_resolution prev * 2 <=? DURATION_MAX
                  then Ok (close_time_resolution prev * 2) else Panic);
  let idle_interval := Z.max (ledger_idle_interval parms) doubled in
  pp ← gets prev_proposers;
  prt ← gets prev_round_time;
  ot ← gets open_time;
  close ← lift (should_close_ledger any_transactions pp proposers_closed validated prt since_close
                  (timer_read ot) idle_interval parms);
  when close close_ledger.

(** ** Rounds *)

(** [start_round_internal], given the [timer_entry] it may call. *)
Definition start_round_internal (timer : Z -> M unit) (now' : Z) (prev_id : LedgerId)
    (prev_ledger : Ledger) (m : ConsensusMode) : M unit :=
  modify (set_phase Open) ;;
  set_mode_monitored m ;;
  modify (set_now now') ;;
  modify (set_prev_ledger_id prev_id) ;;
  modify (set_previous_ledger prev_ledger) ;;
  modify (set_result None) ;;
  modify (set_converge_percent 0) ;;
  modify (set_close_time_avalanche_state Init) ;;
  modify (set_have_close_time_consensus false) ;;
  clock ← query clock_now;
  modify (fun c => set_open_time (timer_reset clock (open_time c)) c) ;;
  modify (set_curr_peer_positions ∅) ;;
  modify (set_acquired ∅) ;;
  modify (set_raw_close_times (mkCloseTimes [] 0)) ;;
  modify (set_dead_nodes ∅) ;;
  modify (set_close_resolution
    (next_ledger_time_resolution (close_time_resolution prev_ledger) (close_agree prev_ledger)
       (ledger_seq prev_ledger + 1))) ;;
  playback_proposals ;;
  positions ← gets curr_peer_positions;
  pp ← gets prev_proposers;
  when (Z.of_nat (size positions) >? pp / 2) (n ← gets now; timer n).

Definition handle_wrong_ledger (timer : Z -> M unit) (lgr_id : LedgerId) : M unit :=
  leave_consensus ;;
  prev_id ← gets prev_ledger_id;
  when (negb (bool_decide (prev_id = lgr_id)))
    (modify (set_prev_ledger_id lgr_id) ;;
     r ← gets result;
     match r with
     | Some r => modify (set_result (Some (set_compares ∅ (set_disputes ∅ r))))
     | None => mret tt
     end ;;
     modify (set_curr_peer_positions ∅) ;;
     modify (fun c => set_raw_close_times (mkCloseTimes [] (ct_self (raw_close_times c))) c) ;;
     modify (set_dead_nodes ∅) ;;
     playback_proposals) ;;
  prev ← gets previous_ledger;
  prev_id ← gets prev_ledger_id;
  if bool_decide (ledger_id prev = prev_id) then mret tt
  else
    ledger ← query (acquire_ledger prev_id);
    match ledger with
    | Some new_ledger =>
        n ← gets now;
        start_round_internal timer n lgr_id new_ledger SwitchedLedger
    | None => set_mode_monitored WrongLedger
    end.

Definition check_ledger (timer : Z -> M unit) : M unit :=
  prev_id ← gets prev_ledger_id;
  prev ← gets previous_ledger;
  m ← gets mode;
  net_lgr ← query (get_prev_ledger prev_id prev m);
  when (negb (bool_decide (net_lgr = prev_id)) || negb (bool_decide (ledger_id prev = prev_id)))
    (handle_wrong_ledger timer net_lgr).

Fixpoint timer_entry (fuel : nat) (now' : Z) : M unit :=
  match fuel with
  | O => out_of_fuel
  | S fuel =>
      ph ← gets phase;
      if bool_decide (ph = Accepted) then mret tt
      else
        modify (set_now now') ;;
        check_ledger (timer_entry fuel) ;;
        ph ← gets phase;
        match ph with
        | Open => phase_open
        | Establish => phase_establish
        | Accepted => mret tt
        end
  end.

Definition start_round (fuel : nat) (now' : Z) (prev_id : LedgerId) (prev_ledger : Ledger)
    (now_untrusted : gset NodeId) (proposing : bool) : M unit :=
  first ← gets first_round;
  (if first : bool then
     modify (set_prev_round_time (ledger_idle_interval parms)) ;;
     modify (set_prev_close_time
               (if close_time prev_ledger =? 0 then now' else close_time prev_ledger)) ;;
     modify (set_first_round false)
   else
     raw ← gets raw_close_times;
     modify (set_prev_close_time (ct_self raw))) ;;
  modify (fun c => set_recent_peer_positions
            (filter (fun entry => entry.1 ∉ now_untrusted) (recent_peer_positions c)) c) ;;
  let start_mode := if proposing then Proposing else Observing in
  '(prev_ledger, start_mode) ←
    (if bool_decide (ledger_id prev_ledger = prev_id) then mret (prev_ledger, start_mode)
     else
       l ← query (acquire_ledger prev_id);
       mret (match l with
             | Some new_ledger => (new_ledger, start_mode)
             | None => (prev_ledger, WrongLedger)
             end));
  start_round_internal (timer_entry fuel) now' prev_id prev_ledger start_mode.

End Consensus.
