(* ===== verification/ConsensusInv.v ===== *)
(** * ConsensusInv: the invariant of the consensus state machine

    The operations of [Consensus] never fail an assertion or an [expect], and
    they preserve [minv]: a result exists exactly when one should, the current
    positions of peers build on our previous ledger and come from peers that
    have not bowed out, acquired sets are filed under their own identifier, our
    proposal names our transaction set, every dispute is tallied, counts votes
    of current peers only and records our own vote as our set has it; the log
    shows proposals only while the mode is [Proposing] and acceptances only
    with a decided state. *)

From stdpp Require Import gmap sorting.
From Stdlib Require Import ZArith Lia.
From S2P Require Import Prelude ConsensusParms DisputedTx Consensus.
Local Open Scope Z_scope.

Section Inv.
Context {NodeId LedgerId TxSetId TxId : Type}.
Context `{Countable NodeId, EqDecision LedgerId, Countable TxSetId, Countable TxId}.
Context {Tx TxSet Ledger PeerPos World : Type}.
Context `{CT : !ConsensusTxSet (TxSetId := TxSetId) (TxId := TxId) (Tx := Tx) (TxSet := TxSet)}.
Context `{CL : !ConsensusLedger (LedgerId := LedgerId) (Ledger := Ledger)}.
Context `{CP : !PeerPosition (NodeId := NodeId) (LedgerId := LedgerId) (TxSetId := TxSetId)
                (PeerPos := PeerPos)}.
Context `{CA : !ConsensusAdaptor (NodeId := NodeId) (LedgerId := LedgerId) (TxSetId := TxSetId)
                (TxId := TxId) (Tx := Tx) (TxSet := TxSet) (Ledger := Ledger) (PeerPos := PeerPos)
                (World := World)}.
Context (order : forall A, list A -> list A).

Abbreviation Mach := (Machine (NodeId := NodeId) (LedgerId := LedgerId) (TxSetId := TxSetId)
  (TxId := TxId) (Tx := Tx) (TxSet := TxSet) (Ledger := Ledger) (PeerPos := PeerPos)
  (World := World)).
Abbreviation Cons := (Consensus (NodeId := NodeId) (LedgerId := LedgerId) (TxSetId := TxSetId)
  (TxId := TxId) (Tx := Tx) (TxSet := TxSet) (Ledger := Ledger) (PeerPos := PeerPos)).
Abbreviation Result := (ConsensusResult (NodeId := NodeId) (LedgerId := LedgerId)
  (TxSetId := TxSetId) (TxId := TxId) (Tx := Tx) (TxSet := TxSet)).
Abbreviation Ev := (Event (NodeId := NodeId) (LedgerId := LedgerId) (TxSetId := TxSetId)
  (TxId := TxId) (Tx := Tx) (TxSet := TxSet) (Ledger := Ledger) (PeerPos := PeerPos)).
Abbreviation Act := (M (NodeId := NodeId) (LedgerId := LedgerId) (TxSetId := TxSetId)
  (TxId := TxId) (Tx := Tx) (TxSet := TxSet) (Ledger := Ledger) (PeerPos := PeerPos)
  (World := World)).
Abbreviation Dispute := (DisputedTx Tx TxId NodeId).

(** ** What the traits promise *)

Definition CLOCK_MAX : Z := 2 ^ 62.

Class ConsensusLaws : Prop := {
  order_permutes : forall A (l : list A), order A l ≡ₚ l;
  exists_insert : forall t s id,
    tx_exists (tx_insert t s) id = bool_decide (tx_id_of t = id) || tx_exists s id;
  exists_erase : forall id' s id,
    tx_exists (tx_erase id' s) id = negb (bool_decide (id' = id)) && tx_exists s id;
  find_names : forall s id t, tx_find s id = Some t -> tx_id_of t = id;
  on_close_fresh : forall prev n m w,
    pr_position (position (on_close prev n m w).1) = set_id (txns (on_close prev n m w).1) /\
    disputes (on_close prev n m w).1 = ∅;
  parms_well_formed : well_formed_parms parms;
  clock_bounded : forall w, 0 <= (clock_now w).1 <= CLOCK_MAX;
  parent_close_bounded : forall l, 0 <= parent_close_time l < max_of U32;
  resolution_bounded : forall l, 0 <= close_time_resolution l <= CLOCK_MAX
}.

Context `{Laws : !ConsensusLaws}.

(** ** The invariant *)

Definition dispute_ok (ours : TxSet) (peers : gset NodeId) (id : TxId) (d : Dispute) : Prop :=
  tallied d /\ dom (votes d) ⊆ peers /\ tx_id_of (DisputedTx.tx d) = id /\
  our_vote d = tx_exists ours id.

Definition timer_ok (t : ConsensusTimer) : Prop :=
  0 <= dur t <= CLOCK_MAX /\ forall s, start t = Some s -> 0 <= s <= CLOCK_MAX.

(** [pending] is the set our votes stand for while [update_our_positions] has
    not yet adopted it. *)
Definition result_ok (pending : option TxSet) (peers : gset NodeId) (r : Result) : Prop :=
  pr_position (position r) = set_id (txns r) /\ timer_ok (round_time r) /\
  forall id d, disputes r !! id = Some d -> dispute_ok (default (txns r) pending) peers id d.

Definition peer_ok (c : Cons) (n : NodeId) (p : PeerPos) : Prop :=
  pr_node_id (proposal p) = n /\ pr_previous_ledger (proposal p) = prev_ledger_id c /\
  is_bow_out (proposal p) = false /\ n ∉ dead_nodes c.

Record inv (pending : option TxSet) (c : Cons) : Prop := {
  inv_phase : match phase c with
              | Open => result c = None
              | Establish => is_Some (result c)
              | Accepted => True
              end;
  inv_peers : forall n p, curr_peer_positions c !! n = Some p -> peer_ok c n p;
  inv_acquired : forall id s, acquired c !! id = Some s -> set_id s = id;
  inv_result : forall r, result c = Some r -> result_ok pending (dom (curr_peer_positions c)) r;
  inv_round_time : 0 <= prev_round_time c <= CLOCK_MAX;
  inv_recent : forall n ps, recent_peer_positions c !! n = Some ps -> (length ps <= 10)%nat
}.

(** The mode the log tells. *)
Definition mode_of (l : list Ev) : ConsensusMode :=
  foldl (fun m e => match e with OnModeChange _ after => after | _ => m end) Observing l.

Definition event_ok (l : list Ev) (e : Ev) : Prop :=
  match e with
  | Propose p => mode_of l = Proposing
  | OnAccept r _ _ _ m =>
      state r <> No /\ pr_position (position r) = set_id (txns r) /\ m = mode_of l
  | _ => True
  end.

Inductive good_log : list Ev -> Prop :=
| good_nil : good_log []
| good_snoc l e : good_log l -> event_ok l e -> good_log (l ++ [e]).

Record minv (pending : option TxSet) (s : Mach) : Prop := {
  mi_inv : inv pending (cs s);
  mi_mode : mode (cs s) = mode_of (log s);
  mi_log : good_log (log s)
}.

(** ** Running an operation *)

(** [runs m s Q]: [m] from [s] panics nowhere and [Q] holds of its result;
    [diverges] tells whether running out of fuel is admitted. *)
Context (diverges : Prop).

Definition runs {A} (m : Act A) (s : Mach) (Q : A -> Mach -> Prop) : Prop :=
  match m s with
  | Ok (a, s') => Q a s'
  | Wraps => True
  | OutOfFuel => diverges
  | Err _ | Panic => False
  end.
Arguments runs {A} m s Q : simpl never.

Definition triple {A} (P : Mach -> Prop) (m : Act A) (Q : A -> Mach -> Prop) : Prop :=
  forall s, P s -> runs m s Q.

Lemma runs_ret {A} (a : A) s (Q : A -> Mach -> Prop) : Q a s -> runs (mret a) s Q.
Proof. intros HQ. exact HQ. Qed.

Lemma runs_mono {A} (m : Act A) s (P Q : A -> Mach -> Prop) :
  runs m s P -> (forall a s', P a s' -> Q a s') -> runs m s Q.
Proof. unfold runs. destruct (m s) as [[a s']| | | |]; auto. Qed.

Lemma runs_bind {A B} (m : Act A) (k : A -> Act B) s Q :
  runs m s (fun a s' => runs (k a) s' Q) -> runs (m ≫= k) s Q.
Proof.
  unfold runs, mbind, M_bind. destruct (m s) as [[a s']| | | |]; cbn; auto.
Qed.

Lemma runs_call {A B} P (m : Act A) (k : A -> Act B) s R Q :
  triple P m R -> P s -> (forall a s', R a s' -> runs (k a) s' Q) -> runs (m ≫= k) s Q.
Proof.
  intros Hm HP Hk. apply runs_bind. eapply runs_mono; [apply Hm, HP|exact Hk].
Qed.

Lemma runs_gets {A B} (f : Cons -> A) (k : A -> Act B) s Q :
  runs (k (f (cs s))) s Q -> runs (gets f ≫= k) s Q.
Proof. intros HQ. exact HQ. Qed.

Lemma runs_modify {B} f (k : unit -> Act B) s Q :
  runs (k tt) (mkMachine (f (cs s)) (world s) (log s)) Q -> runs (modify f ≫= k) s Q.
Proof. intros HQ. exact HQ. Qed.

Lemma runs_query {A B} (f : World -> A * World) (k : A -> Act B) s Q :
  (forall w, runs (k (f (world s)).1) (mkMachine (cs s) w (log s)) Q) -> runs (query f ≫= k) s Q.
Proof.
  intros HQ. unfold runs, mbind, M_bind, query. specialize (HQ (f (world s)).2).
  destruct (f (world s)) as [a w]. exact HQ.
Qed.

Lemma runs_emit {B} e (k : unit -> Act B) s Q :
  runs (k tt) (mkMachine (cs s) (notify e (world s)) (log s ++ [e])) Q -> runs (emit e ≫= k) s Q.
Proof. intros HQ. exact HQ. Qed.

Lemma runs_lift {A B} (o : outcome unit A) (k : A -> Act B) s P Q :
  sound o P -> (forall a, P a -> runs (k a) s Q) -> runs (lift o ≫= k) s Q.
Proof.
  intros Ho Hk. unfold runs, mbind, M_bind, lift. destruct o; cbn in *; auto; [apply Hk, Ho|contradiction].
Qed.

Lemma runs_for_each {A} (P : Mach -> Prop) (l : list A) f :
  (forall a, a ∈ l -> triple P (f a) (fun _ => P)) -> triple P (for_each l f) (fun _ => P).
Proof.
  intros Hf. induction l as [|a l IH]; intros s HP; cbn [for_each]; [exact HP|].
  eapply runs_call; [apply Hf; left|exact HP|]. intros ? s' HP'.
  apply IH; [|exact HP']. intros b Hb. apply Hf. right. exact Hb.
Qed.

Lemma runs_result {B} (k : Result -> Act B) s r Q : result (cs s) = Some r ->
  runs (k r) s Q -> runs (get_result ≫= k) s Q.
Proof.
  intros Hr HQ. apply runs_bind. unfold get_result. apply runs_gets. rewrite Hr. exact HQ.
Qed.

Lemma runs_modify_result {B} f (k : unit -> Act B) s r Q : result (cs s) = Some r ->
  runs (k tt) (mkMachine (set_result (Some (f r)) (cs s)) (world s) (log s)) Q ->
  runs (modify_result f ≫= k) s Q.
Proof.
  intros Hr HQ. apply runs_bind. unfold modify_result. eapply runs_result; [exact Hr|]. exact HQ.
Qed.

Lemma bind_ret_r {A} (m : Act A) s Q : runs (m ≫= mret) s Q -> runs m s Q.
Proof.
  unfold runs, mbind, M_bind, mret, M_ret. destruct (m s) as [[a s']| | | |]; cbn; auto.
Qed.

Lemma bind_assoc {A B C} (m : Act A) (k : A -> Act B) (j : B -> Act C) s Q :
  runs (m ≫= (fun a => k a ≫= j)) s Q -> runs ((m ≫= k) ≫= j) s Q.
Proof.
  unfold runs, mbind, M_bind. destruct (m s) as [[a s']| | | |]; cbn; auto.
Qed.


(** Replaying the definition of a step; [step] handles the primitive actions. *)
Ltac step :=
  cbv zeta;
  lazymatch goal with
  | |- runs (gets _ ≫= _) _ _ => apply runs_gets
  | |- runs (modify _ ≫= _) _ _ => apply runs_modify
  | |- runs (emit _ ≫= _) _ _ => apply runs_emit
  | |- runs (query _ ≫= _) _ _ => apply runs_query; intros ?
  | |- runs ((_ ≫= _) ≫= _) _ _ => apply bind_assoc
  end; cbv beta; cbn [cs world log].

(** Weakening the frame: everything but the disputes, the comparisons made and
    the counter of unchanged rounds. *)
Definition strip_result (r : Result) : Result := set_disputes ∅ (set_compares ∅ r).
Definition strip (c : Cons) : Cons :=
  set_peer_unchanged_counter 0 (set_result (strip_result <$> result c) c).

(** [neutral k s]: the invariant holds and the rest of the state is [k]. *)
Definition neutral (k : Cons) (s : Mach) : Prop := minv None s /\ strip (cs s) = k.

Lemma neutral_intro s : minv None s -> neutral (strip (cs s)) s.
Proof. intros Hs. split; auto. Qed.

Lemma strip_result_inv c r : result c = Some r -> result (strip c) = Some (strip_result r).
Proof. intros Hr. cbn. now rewrite Hr. Qed.

Lemma neutral_result k s rk : neutral k s -> result k = Some rk ->
  exists r, result (cs s) = Some r /\ strip_result r = rk.
Proof.
  intros [_ Hk] Hrk. rewrite <- Hk in Hrk. cbn in Hrk.
  destruct (result (cs s)) as [r|]; [|discriminate]. injection Hrk as <-. eauto.
Qed.

Lemma neutral_positions k s : neutral k s ->
  curr_peer_positions (cs s) = curr_peer_positions k.
Proof. intros [_ Hk]. now rewrite <- Hk. Qed.

Lemma neutral_acquired k s : neutral k s -> acquired (cs s) = acquired k.
Proof. intros [_ Hk]. now rewrite <- Hk. Qed.

Lemma neutral_counter k s n w : neutral k s ->
  neutral k (mkMachine (set_peer_unchanged_counter n (cs s)) w (log s)).
Proof.
  intros [[[] Hm Hl] Hk]. split; [|exact Hk]. constructor; [constructor; assumption|exact Hm|exact Hl].
Qed.

Lemma neutral_world k s w : neutral k s -> neutral k (mkMachine (cs s) w (log s)).
Proof. intros [[Hi Hm Hl] Hk]. split; [constructor; assumption|exact Hk]. Qed.

(** Replacing the disputes and the comparisons. *)
Lemma neutral_update k s r r' w : neutral k s -> result (cs s) = Some r ->
  strip_result r' = strip_result r ->
  (forall id d, disputes r' !! id = Some d ->
     dispute_ok (txns r) (dom (curr_peer_positions (cs s))) id d) ->
  neutral k (mkMachine (set_result (Some r') (cs s)) w (log s)).
Proof.
  intros [[[Hph Hpe Hac Hre Hrt Hrc] Hm Hl] Hk] Hr Hs Hd.
  assert (txns r' = txns r /\ position r' = position r /\ round_time r' = round_time r) as (Ht & Hp & Hti).
  { destruct r, r'. cbn in Hs. injection Hs as -> -> -> -> ->. auto. }
  split.
  - constructor; [|exact Hm|exact Hl]. constructor; cbn [cs]; cbn; try assumption.
    + destruct (phase (cs s)); [congruence|eauto|exact I].
    + intros ? [= <-]. destruct (Hre r Hr) as (H1' & H2' & H3'). unfold result_ok.
      rewrite Ht, Hp, Hti. split; [exact H1'|]. split; [exact H2'|].
      intros id d Hid. apply Hd, Hid.
  - rewrite <- Hk. unfold strip. cbn. rewrite Hr. cbn. rewrite Hs. reflexivity.
Qed.

Lemma mode_of_snoc l (e : Ev) : (forall a b, e <> OnModeChange a b) -> mode_of (l ++ [e]) = mode_of l.
Proof. intros He. unfold mode_of. rewrite foldl_app. cbn. destruct e; auto. exfalso. eapply He. eauto. Qed.

Lemma neutral_emit k s e w : neutral k s -> (forall a b, e <> OnModeChange a b) ->
  event_ok (log s) e -> neutral k (mkMachine (cs s) w (log s ++ [e])).
Proof.
  intros [[Hi Hm Hl] Hk] Hne He. split; [|exact Hk]. constructor; cbn; [exact Hi| |].
  - now rewrite mode_of_snoc.
  - now constructor.
Qed.

(** Every dispute of the current result satisfies [Φ]. *)
Definition all_disputes (Φ : TxId -> Dispute -> Prop) (s : Mach) : Prop :=
  forall r id d, result (cs s) = Some r -> disputes r !! id = Some d -> Φ id d.

Lemma neutral_disputes k s r id d : neutral k s -> result (cs s) = Some r ->
  disputes r !! id = Some d -> dispute_ok (txns r) (dom (curr_peer_positions k)) id d.
Proof.
  intros Hn Hr Hd. rewrite <- (neutral_positions k s Hn). destruct Hn as [[Hi _ _] _].
  destruct (inv_result _ _ Hi r Hr) as (_ & _ & H3'). apply H3', Hd.
Qed.

Lemma for_disputes_spec k rk (Φ : TxId -> Dispute -> Prop) f s :
  neutral k s -> result k = Some rk ->
  (forall id d s, neutral k s -> dispute_ok (txns rk) (dom (curr_peer_positions k)) id d ->
     runs (f id d) s (fun d' s' => neutral k s' /\ result (cs s') = result (cs s) /\
       dispute_ok (txns rk) (dom (curr_peer_positions k)) id d' /\ Φ id d')) ->
  runs (for_disputes order f) s (fun _ s' => neutral k s' /\ all_disputes Φ s').
Proof.
  intros Hs Hrk Hf. destruct (neutral_result _ _ _ Hs Hrk) as (r & Hr & Hrs).
  assert (txns r = txns rk) as Htx by (rewrite <- Hrs; reflexivity).
  unfold for_disputes. eapply runs_result; [exact Hr|].
  assert (forall l s, neutral k s ->
    (forall id d, (id, d) ∈ l -> dispute_ok (txns rk) (dom (curr_peer_positions k)) id d) ->
    all_disputes (fun id d => (id, d) ∈ l \/ Φ id d) s ->
    runs (for_each l (fun kd => d' ← f kd.1 kd.2;
      modify_result (fun r => set_disputes (<[kd.1 := d']> (disputes r)) r))) s
      (fun _ s' => neutral k s' /\ all_disputes Φ s')) as Hloop.
  { clear r Hr Hrs Htx s Hs. induction l as [|[id d] l IH]; intros s Hs Hok Hall; cbn [for_each].
    - apply runs_ret. split; [exact Hs|]. intros r id d Hr Hd.
      destruct (Hall r id d Hr Hd) as [Hin|]; [inversion Hin|assumption].
    - apply bind_assoc. cbn [fst snd].
      apply runs_bind. eapply runs_mono; [apply Hf; [exact Hs|apply Hok; left]|].
      intros d' s' (Hn & Hres & Hd' & HΦ).
      destruct (neutral_result _ _ _ Hn Hrk) as (r' & Hr' & Hrs').
      assert (txns r' = txns rk) as Htx' by (rewrite <- Hrs'; reflexivity).
      eapply runs_modify_result; [exact Hr'|]. apply IH.
      + eapply neutral_update; [exact Hn|exact Hr'|reflexivity|]. cbn. intros id' d0.
        rewrite lookup_insert_Some. rewrite Htx', (neutral_positions k s' Hn).
        intros [[<- <-]|[Hne Hd0]]; [exact Hd'|].
        rewrite <- Htx'. eapply neutral_disputes; eauto.
      + intros id' d0 Hin. apply Hok. right. exact Hin.
      + intros r0 id' d0. cbn. intros [= <-]. cbn. rewrite lookup_insert_Some.
        intros [[<- <-]|[Hne Hd0]]; [right; exact HΦ|].
        rewrite Hres in Hr'. destruct (Hall r' id' d0 Hr' Hd0) as [Hin|]; [|auto].
        apply elem_of_cons in Hin as [Hin|Hin]; [|auto]. congruence. }
  apply Hloop; [exact Hs| |].
  - intros id d Hin. rewrite <- Htx. eapply neutral_disputes; [exact Hs|exact Hr|].
    unfold entries in Hin. rewrite order_permutes in Hin. now apply elem_of_map_to_list in Hin.
  - intros r' id d Hr' Hd. left. rewrite Hr in Hr'. injection Hr' as <-.
    unfold entries. rewrite order_permutes. now apply elem_of_map_to_list.
Qed.

Lemma runs_foldl {A B} (g : B -> A -> Act B) (I : B -> Mach -> Prop) l : forall (m : Act B) s,
  runs m s I -> (forall a b s, a ∈ l -> I b s -> runs (g b a) s I) ->
  runs (foldl (fun acc a => b ← acc; g b a) m l) s I.
Proof.
  induction l as [|a l IH]; intros m s Hm Hg; cbn [foldl]; [exact Hm|].
  apply IH; [|intros; apply Hg; [right|]; assumption].
  apply runs_bind. eapply runs_mono; [exact Hm|]. intros b s' Hb. apply Hg; [left|exact Hb].
Qed.

Lemma entries_in {V} (m : gmap NodeId V) n v : (n, v) ∈ entries order m -> m !! n = Some v.
Proof.
  unfold entries. intros Hin. rewrite order_permutes in Hin. now apply elem_of_map_to_list in Hin.
Qed.

Lemma set_vote_ok peers ours id node v (d : Dispute) : dispute_ok ours peers id d -> node ∈ peers ->
  sound (set_vote (E := unit) node v d) (fun '(_, d') => dispute_ok ours peers id d').
Proof.
  intros (Ht & Hd & Hi & Ho) Hn. eapply sound_mono; [apply set_vote_sound, Ht|].
  intros [b d'] (Ht' & Hv & Hd'). split; [exact Ht'|]. rewrite Hd' in *. cbn in *.
  split; [|split; [exact Hi|exact Ho]]. rewrite Hv, dom_insert. set_solver.
Qed.

Lemma create_disputes_spec k rk other s : neutral k s -> result k = Some rk ->
  runs (create_disputes order other) s (fun _ s' => neutral k s').
Proof.
  intros Hs Hrk. destruct (neutral_result _ _ _ Hs Hrk) as (r & Hr & Hrs).
  assert (txns r = txns rk) as Htx by (rewrite <- Hrs; reflexivity).
  unfold create_disputes. eapply runs_result; [exact Hr|].
  case_bool_decide; [exact Hs|]. eapply runs_modify_result; [exact Hr|].
  set (s1 := mkMachine _ _ _).
  assert (neutral k s1) as Hs1.
  { eapply neutral_update; [exact Hs|exact Hr|reflexivity|]. cbn. intros id d Hd.
    rewrite (neutral_positions k s Hs). eapply neutral_disputes; eauto. }
  clearbody s1. case_bool_decide; [exact Hs1|].
  apply (runs_for_each (neutral k)); [|exact Hs1]. clear s Hs Hr s1 Hs1.
  intros [id b] _ s Hs.
  destruct (if b then tx_find (txns r) id else tx_find other id) as [t|] eqn:Hfind; [|exact Hs].
  assert (tx_id_of t = id) as Hid by (destruct b; eapply find_names; eauto).
  destruct (neutral_result _ _ _ Hs Hrk) as (r1 & Hr1 & Hrs1).
  assert (txns r1 = txns rk) as Htx1 by (rewrite <- Hrs1; reflexivity).
  eapply runs_result; [exact Hr1|]. case_bool_decide; [exact Hs|]. do 2 step.
  apply runs_bind. eapply runs_mono.
  - apply (runs_foldl _ (fun d s' => neutral k s' /\
      dispute_ok (txns rk) (dom (curr_peer_positions k)) id d)).
    + apply runs_ret. split; [exact Hs|]. rewrite Htx.
      split; [apply new_dispute_tallied|]. cbn. split; [set_solver|]. auto.
    + intros [n p] d s' Hin [Hs' Hd]. cbn [fst snd].
      apply entries_in in Hin. rewrite (neutral_positions k s Hs) in Hin.
      destruct (acquired (cs s) !! _) as [set|]; [|split; assumption].
      eapply runs_lift; [apply set_vote_ok; [exact Hd|apply elem_of_dom; eauto]|].
      intros [changed d'] Hd'. destruct changed; cbn [when]; [step|];
        (apply runs_ret; split; [|exact Hd']; [now apply neutral_counter || exact Hs']).
  - intros d s' [Hs' Hd]. step.
    destruct (neutral_result _ _ _ Hs' Hrk) as (r2 & Hr2 & Hrs2).
    assert (txns r2 = txns rk) as Htx2 by (rewrite <- Hrs2; reflexivity).
    apply bind_ret_r. eapply runs_modify_result; [exact Hr2|]. apply runs_ret.
    apply (neutral_update k (mkMachine (cs s') _ _) r2); [|exact Hr2|reflexivity|].
    + apply neutral_emit; [exact Hs'|discriminate|exact I].
    + cbn. intros id' d0. rewrite lookup_insert_Some, Htx2, (neutral_positions k s' Hs').
      intros [[<- <-]|[_ Hd0]]; [exact Hd|]. rewrite <- Htx2. eapply neutral_disputes; eauto.
Qed.

Lemma update_disputes_spec k rk node other s : neutral k s -> result k = Some rk ->
  node ∈ dom (curr_peer_positions k) ->
  runs (update_disputes order node other) s (fun _ s' => neutral k s').
Proof.
  intros Hs Hrk Hnode. destruct (neutral_result _ _ _ Hs Hrk) as (r & Hr & _).
  unfold update_disputes. eapply runs_result; [exact Hr|].
  apply runs_bind. apply runs_mono with (P := fun _ s' => neutral k s').
  { case_bool_decide; cbn [negb when]; [exact Hs|]. eapply create_disputes_spec; eauto. }
  clear s Hs Hr. intros _ s Hs. eapply runs_mono.
  - apply (for_disputes_spec k rk (fun _ _ => True)); [exact Hs|exact Hrk|].
    intros id d s' Hs' Hd. eapply runs_lift; [apply set_vote_ok; [exact Hd|exact Hnode]|].
    intros [changed d'] Hd'. destruct changed; cbn [when]; [step|]; apply runs_ret;
      (split; [now apply neutral_counter || exact Hs'|]); auto.
  - intros ? s' [Hs' _]. exact Hs'.
Qed.

(** Updates of fields the invariant does not mention. *)
Ltac keep H := destruct H as [[? ? ? ? ? ?] ? ?]; constructor; [constructor; assumption|assumption|assumption].

Definition peers_frame (c : Cons) :=
  (phase c, curr_peer_positions c, dead_nodes c, prev_ledger_id c, recent_peer_positions c,
   previous_ledger c).

Lemma neutral_frame k s : neutral k s -> peers_frame (cs s) = peers_frame k.
Proof. intros [_ <-]. reflexivity. Qed.

Lemma un_vote_ok peers ours id node (d : Dispute) : dispute_ok ours peers id d ->
  sound (un_vote (E := unit) node d)
    (fun d' => dispute_ok ours peers id d' /\ node ∉ dom (votes d')).
Proof.
  intros (Ht & Hd & Hi & Ho). eapply sound_mono; [apply un_vote_sound, Ht|].
  intros d' (Ht' & Hv & Hd'). rewrite Hv, dom_delete_L. split; [|set_solver].
  split; [exact Ht'|]. rewrite Hd' in *. cbn in *.
  split; [|split; [exact Hi|exact Ho]]. rewrite Hv, dom_delete_L. set_solver.
Qed.

Lemma un_vote_all_spec k node s : neutral k s ->
  runs (un_vote_all order node) s (fun _ s' => neutral k s' /\
    all_disputes (fun _ d => node ∉ dom (votes d)) s').
Proof.
  intros Hs. unfold un_vote_all. step. destruct (result (cs s)) as [r|] eqn:Hr.
  - apply (for_disputes_spec k (strip_result r)); [exact Hs| |].
    { destruct Hs as [_ <-]. exact (strip_result_inv _ _ Hr). }
    intros id d s' Hs' Hd. apply bind_ret_r. eapply runs_lift; [apply un_vote_ok, Hd|].
    intros d' [Hd' Hn]. apply runs_ret. auto.
  - apply runs_ret. split; [exact Hs|]. intros r id d Hr'. congruence.
Qed.

(** A peer without votes can be removed. *)
Lemma minv_remove_peer s node w : minv None s ->
  all_disputes (fun _ d => node ∉ dom (votes d)) s ->
  minv None (mkMachine (set_curr_peer_positions (delete node (curr_peer_positions (cs s))) (cs s))
               w (log s)).
Proof.
  intros [[Hph Hpe Hac Hre Hrt Hrc] Hm Hl] Hall. constructor; [|exact Hm|exact Hl].
  constructor; cbn; try assumption.
  - intros n p. rewrite lookup_delete_Some. intros [_ Hp]. apply Hpe, Hp.
  - intros r Hr. destruct (Hre r Hr) as (H1' & H2' & H3'). split; [exact H1'|]. split; [exact H2'|].
    intros id d Hd. destruct (H3' id d Hd) as (Ht & Hdom & Hrest). split; [exact Ht|].
    split; [|exact Hrest]. rewrite dom_delete_L. pose proof (Hall r id d Hr Hd). set_solver.
Qed.

Lemma got_tx_set_spec n set s : minv None s ->
  runs (got_tx_set order n set) s (fun _ s' => minv None s' /\ peers_frame (cs s') = peers_frame (cs s)).
Proof.
  intros Hs. unfold got_tx_set. step. case_bool_decide; [apply runs_ret; auto|]. do 2 step.
  assert (minv None (mkMachine (set_now n (cs s)) (world s) (log s))) as Hs1 by keep Hs.
  case_bool_decide; [apply runs_ret; auto|]. do 2 step. cbn.
  set (s2 := mkMachine _ _ _).
  assert (minv None s2) as Hs2.
  { destruct Hs1 as [[Hph Hpe Hac Hre Hrt Hrc] Hm Hl]. constructor; [|exact Hm|exact Hl].
    constructor; cbn; try assumption. intros id s'. rewrite lookup_insert_Some.
    intros [[<- <-]|[_ Hid]]; [reflexivity|apply Hac, Hid]. }
  change (result (cs s)) with (result (cs s2)).
  destruct (result (cs s2)) as [r|] eqn:Hr; [|apply runs_ret; auto]. step.
  apply runs_mono with (P := fun _ s' => neutral (strip (cs s2)) s').
  - apply (runs_for_each (neutral (strip (cs s2)))); [|now apply neutral_intro].
    intros [node p] Hin s' Hs'. cbn [fst snd]. apply entries_in in Hin.
    case_bool_decide; cbn [when]; [|exact Hs'].
    eapply update_disputes_spec; [exact Hs'|exact (strip_result_inv _ _ Hr)|].
    apply elem_of_dom. eauto.
  - intros _ s' Hs'. split; [apply Hs'|]. now rewrite (neutral_frame _ _ Hs').
Qed.

Lemma minv_event s e w : minv None s -> (forall a b, e <> OnModeChange a b) ->
  event_ok (log s) e -> minv None (mkMachine (cs s) w (log s ++ [e])).
Proof. intros Hs Hne He. apply (neutral_emit (strip (cs s)) s e w (neutral_intro s Hs) Hne He). Qed.

(** ** Peer proposals *)

(** What one proposal does to the positions and the dead nodes. *)
Definition proposal_effect (pos : PeerPos) (relay : bool) (c c' : Cons) : Prop :=
  let prop := proposal pos in
  let n := pr_node_id prop in
  phase c' = phase c /\ prev_ledger_id c' = prev_ledger_id c /\
  recent_peer_positions c' = recent_peer_positions c /\ previous_ledger c' = previous_ledger c /\
  if relay then
    phase c <> Accepted /\ pr_previous_ledger prop = prev_ledger_id c /\ n ∉ dead_nodes c /\
    (forall old, curr_peer_positions c !! n = Some old ->
       pr_propose_seq (proposal old) < pr_propose_seq prop) /\
    if is_bow_out prop then
      curr_peer_positions c' = delete n (curr_peer_positions c) /\
      dead_nodes c' = {[n]} ∪ dead_nodes c
    else
      curr_peer_positions c' = <[n := pos]> (curr_peer_positions c) /\ dead_nodes c' = dead_nodes c
  else
    curr_peer_positions c' = curr_peer_positions c /\ dead_nodes c' = dead_nodes c.

Lemma minv_insert_peer s pos w : minv None s ->
  pr_previous_ledger (proposal pos) = prev_ledger_id (cs s) ->
  is_bow_out (proposal pos) = false -> pr_node_id (proposal pos) ∉ dead_nodes (cs s) ->
  minv None (mkMachine (set_curr_peer_positions
    (<[pr_node_id (proposal pos) := pos]> (curr_peer_positions (cs s))) (cs s)) w (log s)).
Proof.
  intros [[Hph Hpe Hac Hre Hrt Hrc] Hm Hl] Hprev Hbow Hdead. constructor; [|exact Hm|exact Hl].
  constructor; cbn; try assumption.
  - intros n p. rewrite lookup_insert_Some. intros [[<- <-]|[_ Hp]]; [|apply Hpe, Hp].
    split; [reflexivity|]. cbn. auto.
  - intros r Hr. destruct (Hre r Hr) as (H1' & H2' & H3'). split; [exact H1'|]. split; [exact H2'|].
    intros id d Hd. destruct (H3' id d Hd) as (Ht & Hdom & Hrest). split; [exact Ht|].
    split; [|exact Hrest]. rewrite dom_insert_L. set_solver.
Qed.

Lemma minv_bow_out s n w : minv None s -> curr_peer_positions (cs s) !! n = None ->
  minv None (mkMachine (set_dead_nodes ({[n]} ∪ dead_nodes (cs s)) (cs s)) w (log s)).
Proof.
  intros [[Hph Hpe Hac Hre Hrt Hrc] Hm Hl] Hn. constructor; [|exact Hm|exact Hl].
  constructor; cbn; try assumption. intros n' p Hp. destruct (Hpe n' p Hp) as (E1 & E2 & E3 & E4).
  split; [exact E1|]. split; [exact E2|]. split; [exact E3|]. cbn.
  assert (n' <> n) by congruence. set_solver.
Qed.

Lemma btree_incr_sound {E} k m : sound (btree_incr (E := E) k m) (fun _ => True).
Proof.
  induction m as [|[k' v] m IH]; cbn [btree_incr]; [exact I|].
  case_if; [exact I|]. case_if; [apply sound_plain_bind; exact I|].
  eapply sound_bind; [exact IH|]. intros; exact I.
Qed.

Lemma peer_proposal_internal_spec n pos s : minv None s ->
  runs (peer_proposal_internal order n pos) s (fun relay s' =>
    minv None s' /\ proposal_effect pos relay (cs s) (cs s')).
Proof.
  intros Hs. unfold peer_proposal_internal, proposal_effect. step.
  case_bool_decide as Hacc; [apply runs_ret; auto 12|]. do 2 step. cbn.
  assert (minv None (mkMachine (set_now n (cs s)) (world s) (log s))) as Hs1 by keep Hs.
  case_bool_decide as Hprev; cbn [negb]; [|apply runs_ret; cbn; auto 10]. step. cbn.
  case_bool_decide as Hdead; [apply runs_ret; cbn; auto 12|]. step. cbn.
  destruct (match curr_peer_positions (cs s) !! _ with Some _ => _ | None => _ end) eqn:Hsup;
    [apply runs_ret; cbn; auto 12|].
  assert (forall old, curr_peer_positions (cs s) !! pr_node_id (proposal pos) = Some old ->
    pr_propose_seq (proposal old) < pr_propose_seq (proposal pos)) as Hseq.
  { intros old Hold. rewrite Hold in Hsup. lia. }
  destruct (is_bow_out (proposal pos)) eqn:Hbow.
  - apply runs_bind. eapply runs_mono; [apply un_vote_all_spec, neutral_intro, Hs1|].
    intros ? s1 [Hn1 Hall1]. do 2 step. cbn. apply runs_ret.
    pose proof (neutral_frame _ _ Hn1) as Hf. cbn in Hf. injection Hf as Hf1 Hf2 Hf3 Hf4 Hf5 Hf6.
    split.
    + refine (minv_bow_out _ _ (world s1) (minv_remove_peer s1 _ (world s1) (proj1 Hn1) Hall1) _).
      cbn. apply lookup_delete_eq.
    + cbn. rewrite Hf1, Hf2, Hf3, Hf4, Hf5, Hf6. auto 12.
  - step. set (s2 := mkMachine _ _ _).
    assert (minv None s2) as Hs2 by (exact (minv_insert_peer _ pos (world s) Hs1 Hprev Hbow Hdead)).
    assert (peers_frame (cs s2) = (phase (cs s), <[pr_node_id (proposal pos) := pos]>
      (curr_peer_positions (cs s)), dead_nodes (cs s), prev_ledger_id (cs s),
      recent_peer_positions (cs s), previous_ledger (cs s))) as Hf2 by reflexivity.
    clearbody s2. apply runs_bind.
    apply runs_mono with (P := fun _ s' => minv None s' /\ peers_frame (cs s') = peers_frame (cs s2)).
    { destruct (is_initial (proposal pos)); cbn [when]; [|apply runs_ret; auto]. step.
      eapply runs_lift; [apply btree_incr_sound|]. intros peers _. apply bind_ret_r. step.
      apply runs_ret. split; [keep Hs2|reflexivity]. }
    intros ? s3 [Hs3 Hf3]. step. apply runs_bind.
    apply runs_mono with (P := fun _ s' => minv None s' /\ peers_frame (cs s') = peers_frame (cs s3)).
    + destruct (acquired (cs s3) !! pr_position (proposal pos)) as [set|] eqn:Hacq.
      * step. destruct (result (cs s3)) as [r|] eqn:Hr; [|apply runs_ret; auto].
        eapply runs_mono; [eapply (update_disputes_spec (strip (cs s3)));
          [now apply neutral_intro|exact (strip_result_inv _ _ Hr)|]|].
        { cbn. rewrite Hf2 in Hf3. injection Hf3 as _ -> _ _ _ _. set_solver. }
        intros ? s4 Hs4. split; [apply Hs4|]. now rewrite (neutral_frame _ _ Hs4).
      * step. assert (minv None (mkMachine (cs s3) w (log s3))) as Hs3' by keep Hs3.
        destruct (acquire_tx_set _ _).1 as [set|]; [|apply runs_ret; auto]. step.
        apply (got_tx_set_spec _ _ _ Hs3').
    + intros ? s4 [Hs4 Hf4]. apply runs_ret. split; [exact Hs4|].
      rewrite Hf3, Hf2 in Hf4. injection Hf4 as E1 E2 E3 E4 E5 E6.
      rewrite E1, E2, E3, E4, E5, E6. auto 12.
Qed.

(** The ledger we build on. *)
Definition building_on (id : LedgerId) (l : Ledger) (s : Mach) : Prop :=
  minv None s /\ prev_ledger_id (cs s) = id /\ previous_ledger (cs s) = l.

Lemma playback_spec id l s : building_on id l s ->
  runs (playback_proposals order) s (fun _ s' => building_on id l s').
Proof.
  intros Hs. unfold playback_proposals. step. apply (runs_for_each (building_on id l)); [|exact Hs].
  intros pos _ s1 Hs1. step. case_bool_decide; [|exact Hs1]. step.
  apply runs_bind. eapply runs_mono; [apply peer_proposal_internal_spec, Hs1|].
  intros relay s2 (Hs2 & _ & Hid & _ & Hl & _). destruct Hs1 as (_ & Hid1 & Hl1).
  rewrite <- Hid in Hid1. rewrite <- Hl in Hl1.
  destruct relay; cbn [when]; [|split; auto].
  apply bind_ret_r. step. apply runs_ret. split; [|auto].
  apply minv_event; [exact Hs2|discriminate|exact I].
Qed.

(** Remembering a proposal, the oldest of ten making room for it. *)
Definition remember (pos : PeerPos) (recent : gmap NodeId (list PeerPos)) : gmap NodeId (list PeerPos) :=
  let props := default [] (recent !! pr_node_id (proposal pos)) in
  let props := if (10 <=? Z.of_nat (length props)) then tail props else props in
  <[pr_node_id (proposal pos) := props ++ [pos]]> recent.

Lemma minv_remember s pos w : minv None s ->
  minv None (mkMachine (set_recent_peer_positions (remember pos (recent_peer_positions (cs s))) (cs s))
               w (log s)).
Proof.
  intros [[Hph Hpe Hac Hre Hrt Hrc] Hm Hl]. constructor; [|exact Hm|exact Hl].
  constructor; cbn; try assumption. intros n ps. unfold remember. rewrite lookup_insert_Some.
  intros [[_ <-]|[_ Hps]]; [|eauto]. rewrite length_app. cbn [length].
  assert (length (default [] (recent_peer_positions (cs s) !! pr_node_id (proposal pos))) <= 10)%nat.
  { destruct (_ !! _) as [ps|] eqn:Hps; cbn; [eauto|lia]. }
  destruct (Z.leb_spec 10 (Z.of_nat (length (default []
    (recent_peer_positions (cs s) !! pr_node_id (proposal pos)))))); [|lia].
  destruct (default [] _); cbn in *; lia.
Qed.

Lemma peer_proposal_spec n pos s : minv None s ->
  runs (peer_proposal order n pos) s (fun relay s' => minv None s' /\
    proposal_effect pos relay
      (set_recent_peer_positions (remember pos (recent_peer_positions (cs s))) (cs s)) (cs s')).
Proof.
  intros Hs. unfold peer_proposal. do 2 step.
  apply (peer_proposal_internal_spec _ _ (mkMachine _ _ _)), (minv_remember _ pos _ Hs).
Qed.

(** ** Leaving consensus *)

(** During the establish phase there is a result. *)
Definition establishing (s : Mach) : Prop := minv None s /\ phase (cs s) = Establish.

Lemma establishing_result s : establishing s -> exists r, result (cs s) = Some r /\
  result_ok None (dom (curr_peer_positions (cs s))) r.
Proof.
  intros [[Hi _ _] Hph]. pose proof (inv_phase _ _ Hi) as Hr. rewrite Hph in Hr.
  destruct Hr as [r Hr]. exists r. split; [exact Hr|]. apply (inv_result _ _ Hi), Hr.
Qed.

Lemma neutral_establishing k s : neutral k s -> phase k = Establish -> establishing s.
Proof. intros [Hs <-] Hph. split; auto. Qed.

(** Replacing the result by one that satisfies the invariant. *)
Lemma minv_result pending s r r' w : minv pending s -> result (cs s) = Some r ->
  result_ok None (dom (curr_peer_positions (cs s))) r' ->
  minv None (mkMachine (set_result (Some r') (cs s)) w (log s)).
Proof.
  intros [[Hph Hpe Hac Hre Hrt Hrc] Hm Hl] Hr Hok. constructor; [|exact Hm|exact Hl].
  constructor; cbn; try assumption.
  - destruct (phase (cs s)); [congruence|eauto|exact I].
  - intros ? [= <-]. exact Hok.
Qed.

Lemma mode_of_change l (a b : ConsensusMode) : mode_of (l ++ [OnModeChange a b : Ev]) = b.
Proof. unfold mode_of. now rewrite foldl_app. Qed.

Lemma set_mode_spec m s : minv None s ->
  runs (set_mode_monitored m) s (fun _ s' => minv None s' /\
    cs s' = set_mode m (cs s) /\ world s' = notify (OnModeChange (mode (cs s)) m) (world s)).
Proof.
  intros [[Hph Hpe Hac Hre Hrt Hrc] Hm Hl]. unfold set_mode_monitored. step. step.
  apply bind_ret_r. step. apply runs_ret. split; [|split; reflexivity].
  constructor; cbn; [constructor; assumption|now rewrite mode_of_change|].
  constructor; [exact Hl|exact I].
Qed.

Lemma leave_consensus_spec s : minv None s ->
  runs leave_consensus s (fun _ s' => minv None s' /\ peers_frame (cs s') = peers_frame (cs s) /\
    state <$> result (cs s') = state <$> result (cs s) /\
    mode (cs s') <> Proposing).
Proof.
  intros Hs. unfold leave_consensus. step. case_bool_decide as Hmode; [|apply runs_ret; auto].
  step. apply runs_bind.
  apply runs_mono with (P := fun _ s' => minv None s' /\ peers_frame (cs s') = peers_frame (cs s) /\
    state <$> result (cs s') = state <$> result (cs s)).
  - destruct (result (cs s)) as [r|] eqn:Hr; [|apply runs_ret; rewrite Hr; auto].
    destruct (is_bow_out (position r)); cbn [negb when]; [apply runs_ret; rewrite Hr; auto|].
    do 2 step. apply bind_ret_r. step. apply runs_ret. cbn [cs].
    split; [|split; reflexivity].
    apply (minv_event (mkMachine (set_result (Some (set_position _ r)) (cs s)) (world s) (log s))).
    + eapply minv_result; [exact Hs|exact Hr|]. destruct Hs as [[_ _ _ Hre _ _] _ _].
      apply (Hre r Hr).
    + discriminate.
    + rewrite (mi_mode _ _ Hs) in Hmode. exact Hmode.
  - intros ? s1 (Hs1 & Hf & Hst). eapply runs_mono; [apply set_mode_spec, Hs1|].
    intros ? s2 (Hs2 & Hc & _). rewrite Hc. cbn. auto 10.
Qed.

(** ** Our position *)

Lemma remove_stale_peers_spec cutoff s : establishing s ->
  runs (remove_stale_peers order cutoff) s (fun _ s' => establishing s').
Proof.
  intros Hs. unfold remove_stale_peers. step.
  apply (runs_for_each establishing); [|exact Hs]. intros [n p] _ s1 [Hs1 Hph1].
  apply runs_bind. eapply runs_mono; [apply un_vote_all_spec, neutral_intro, Hs1|].
  intros ? s2 [Hs2 Hall]. apply bind_ret_r. step. apply runs_ret. split.
  - apply minv_remove_peer; [apply Hs2|exact Hall].
  - cbn. pose proof (neutral_frame _ _ Hs2) as Hf. injection Hf as Hf _ _ _ _ _. now rewrite Hf.
Qed.

Lemma count_close_times_spec s : runs (count_close_times order) s (fun _ s' => s' = s).
Proof.
  unfold count_close_times. step.
  apply (runs_foldl (fun votes entry =>
    ct ← round_close_time_for (pr_close_time (proposal entry.2)); lift (btree_incr ct votes))
    (fun _ s' => s' = s)); [apply runs_ret; reflexivity|].
  intros entry votes s' _ ->. unfold round_close_time_for. do 2 step.
  apply bind_ret_r. eapply runs_lift; [apply btree_incr_sound|]. intros a _. reflexivity.
Qed.

(** The invariant of the voting pass: [acc] is the set our votes stand for, and
    the disputes of [rest] have not been visited. *)
Definition voting (r0 : Result) (rest : list (TxId * Dispute)) (acc : option TxSet) (s : Mach) : Prop :=
  minv acc s /\ phase (cs s) = Establish /\ NoDup rest.*1 /\
  exists r, result (cs s) = Some r /\ txns r = txns r0 /\
    forall id d, (id, d) ∈ rest -> disputes r !! id = Some d.

Lemma runs_foldl_rest {A B} (g : B -> A -> Act B) (I : list A -> B -> Mach -> Prop) l :
  forall (m : Act B) s, runs m s (I l) ->
  (forall a l b s, I (a :: l) b s -> runs (g b a) s (I l)) ->
  runs (foldl (fun acc a => b ← acc; g b a) m l) s (I []).
Proof.
  induction l as [|a l IH]; intros m s Hm Hg; cbn [foldl]; [exact Hm|].
  apply IH; [|exact Hg]. apply runs_bind. eapply runs_mono; [exact Hm|].
  intros b s' Hb. now apply Hg.
Qed.

(** Changing our vote on [k] and putting the transaction in or out of the set. *)
Lemma dispute_ok_other ours peers k id t (b : bool) (d : Dispute) : id <> k -> tx_id_of t = k ->
  dispute_ok ours peers id d ->
  dispute_ok (if b then tx_insert t ours else tx_erase k ours) peers id d.
Proof.
  intros Hne Ht (H1' & H2' & H3' & H4'). split; [exact H1'|]. split; [exact H2'|].
  split; [exact H3'|]. rewrite H4'. destruct b.
  - rewrite exists_insert, bool_decide_eq_false_2 by congruence. reflexivity.
  - rewrite exists_erase, bool_decide_eq_false_2 by congruence. reflexivity.
Qed.

Lemma dispute_ok_voted ours peers k (d d' : Dispute) : dispute_ok ours peers k d ->
  tallied d' -> votes d' = votes d -> DisputedTx.tx d' = DisputedTx.tx d ->
  dispute_ok (if our_vote d' then tx_insert (DisputedTx.tx d') ours else tx_erase k ours) peers k d'.
Proof.
  intros (H1' & H2' & H3' & H4') Ht Hv Htx. split; [exact Ht|]. rewrite Hv, Htx.
  split; [exact H2'|]. split; [exact H3'|]. destruct (our_vote d').
  - rewrite exists_insert, bool_decide_eq_true_2 by exact H3'. reflexivity.
  - rewrite exists_erase, bool_decide_eq_true_2 by reflexivity. reflexivity.
Qed.

Lemma voting_update r0 k d rest acc acc' d' s : voting r0 ((k, d) :: rest) acc s ->
  (forall id e, id <> k -> dispute_ok (default (txns r0) acc) (dom (curr_peer_positions (cs s))) id e ->
     dispute_ok (default (txns r0) acc') (dom (curr_peer_positions (cs s))) id e) ->
  dispute_ok (default (txns r0) acc') (dom (curr_peer_positions (cs s))) k d' ->
  exists r, result (cs s) = Some r /\
    voting r0 rest acc' (mkMachine (set_result (Some (set_disputes (<[k := d']> (disputes r)) r))
      (cs s)) (world s) (log s)).
Proof.
  intros ([[Hph Hpe Hac Hre Hrt Hrc] Hm Hl] & Hest & Hnd & r & Hr & Htx & Hrest) Hother Hd'.
  exists r. split; [exact Hr|]. cbn in Hnd. inversion Hnd as [|? ? Hk Hnd']; subst.
  split; [|split; [exact Hest|]; split; [exact Hnd'|]].
  - constructor; [|exact Hm|exact Hl]. constructor; cbn; try assumption.
    + rewrite Hest. eauto.
    + intros ? [= <-]. destruct (Hre r Hr) as (H1' & H2' & H3').
      split; [exact H1'|]. split; [exact H2'|]. cbn. intros id e. rewrite lookup_insert_Some, Htx.
      rewrite Htx in H3'. intros [[<- <-]|[Hne He]]; [exact Hd'|]. apply Hother; auto.
  - exists (set_disputes (<[k := d']> (disputes r)) r). cbn. split; [reflexivity|].
    split; [exact Htx|]. intros id e Hin.
    rewrite lookup_insert_ne; [apply Hrest; now right|]. intros ->. apply Hk.
    apply (list_elem_of_fmap_2 fst _ _ Hin).
Qed.

Lemma vote_step_spec r pct proposing k d rest acc s : voting r ((k, d) :: rest) acc s ->
  runs ('(changed, d') ← lift (update_vote (E := unit) pct proposing parms d);
        modify_result (fun r => set_disputes (<[k := d']> (disputes r)) r) ;;
        if changed : bool then
          let set := default (txns r) acc in
          mret (Some (if our_vote d' then tx_insert (DisputedTx.tx d') set else tx_erase k set))
        else mret acc) s (voting r rest).
Proof.
  intros Hs.
  assert (dispute_ok (default (txns r) acc) (dom (curr_peer_positions (cs s))) k d) as Hd.
  { destruct Hs as (Hs & _ & _ & r1 & Hr1 & Htx & Hin). rewrite <- Htx.
    destruct (inv_result _ _ (mi_inv _ _ Hs) r1 Hr1) as (_ & _ & Hd). apply Hd, Hin. left. }
  eapply runs_lift; [apply update_vote_sound; [apply parms_well_formed|apply Hd]|].
  intros [changed d'] (Ht & Hv & Htx & _ & Hour).
  destruct (voting_update r k d rest acc (if changed then
      Some (if our_vote d' then tx_insert (DisputedTx.tx d') (default (txns r) acc)
            else tx_erase k (default (txns r) acc)) else acc) d' s Hs) as (r1 & Hr1 & Hv1).
  - intros id e Hne He. destruct changed; [|exact He]. cbn.
    apply dispute_ok_other; [exact Hne| |exact He]. rewrite Htx. apply Hd.
  - destruct changed; [eapply dispute_ok_voted; eauto|].
    destruct Hd as (_ & H2' & H3' & H4'). split; [exact Ht|]. rewrite Hv, Htx, Hour. auto.
  - eapply runs_modify_result; [exact Hr1|]. destruct changed; apply runs_ret; exact Hv1.
Qed.

Lemma vote_on_disputes_spec s : establishing s ->
  runs (vote_on_disputes order) s (fun acc s' => minv acc s' /\ phase (cs s') = Establish).
Proof.
  intros Hs. destruct (establishing_result s Hs) as (r & Hr & Hok).
  unfold vote_on_disputes. do 2 step. cbv zeta. eapply runs_result; [exact Hr|].
  eapply runs_mono.
  - apply (runs_foldl_rest (fun mutable_set kd =>
      '(changed, d) ← lift (update_vote (cast I32 _) _ parms kd.2);
      modify_result (fun r => set_disputes (<[kd.1 := d]> (disputes r)) r) ;;
      if changed : bool then
        let set := default (txns r) mutable_set in
        mret (Some (if our_vote d then tx_insert (DisputedTx.tx d) set else tx_erase kd.1 set))
      else mret mutable_set) (voting r)).
    + apply runs_ret. destruct Hs as [Hs Hph]. split; [exact Hs|]. split; [exact Hph|].
      split; [unfold entries; rewrite order_permutes; apply NoDup_fst_map_to_list|].
      exists r. split; [exact Hr|]. split; [reflexivity|]. intros id d Hin.
      unfold entries in Hin. rewrite order_permutes in Hin. now apply elem_of_map_to_list in Hin.
    + intros [k d] rest acc s1 Hs1. apply vote_step_spec, Hs1.
  - intros acc s' (Hm & Hph & _). auto.
Qed.

(** The state before our position is adopted: the result is [r]. *)
Definition holding (acc : option TxSet) (r : Result) (s : Mach) : Prop :=
  minv acc s /\ phase (cs s) = Establish /\ result (cs s) = Some r.

Lemma holding_intro acc s : minv acc s -> phase (cs s) = Establish -> exists r, holding acc r s.
Proof.
  intros Hs Hph. pose proof (inv_phase _ _ (mi_inv _ _ Hs)) as Hr. rewrite Hph in Hr.
  destruct Hr as [r Hr]. exists r. split; auto.
Qed.

Ltac keep_holding H :=
  let H1 := fresh in let H2 := fresh in let H3 := fresh in
  destruct H as (H1 & H2 & H3); split; [keep H1|]; split; [exact H2|exact H3].

Lemma round_close_time_for_spec raw s :
  runs (round_close_time_for raw) s (fun _ s' => s' = s).
Proof. reflexivity. Qed.

Lemma participants_needed_sound {E} a b : sound (participants_needed (E := E) a b) (fun _ => True).
Proof. unfold participants_needed. do 2 apply sound_plain_bind. exact I. Qed.

Lemma agree_on_close_time_spec votes acc r s : holding acc r s ->
  runs (agree_on_close_time votes) s (fun _ s' => holding acc r s').
Proof.
  intros Hs. unfold agree_on_close_time. do 2 step.
  assert (holding acc r (mkMachine (set_have_close_time_consensus false (cs s)) (world s) (log s)))
    as Hs1 by keep_holding Hs.
  revert Hs1. generalize (set_have_close_time_consensus false (cs s)) as c. intros c Hs1.
  case_bool_decide.
  - step. eapply runs_result; [apply Hs1|]. apply runs_mono with (P := fun _ s' => s' =
      mkMachine (set_have_close_time_consensus true c) (world s) (log s)).
    + apply round_close_time_for_spec.
    + intros ? s' ->. keep_holding Hs1.
  - do 2 step. eapply runs_lift; [apply get_needed_weight_sound, parms_well_formed|].
    intros [needed_weight new_state] _. apply runs_bind.
    apply runs_mono with (P := fun _ s' => holding acc r s').
    { destruct new_state; [|exact Hs1]. apply bind_ret_r. step. apply runs_ret. keep_holding Hs1. }
    intros ? s2 Hs2. step. apply runs_bind. apply runs_mono with (P := fun _ s' => holding acc r s').
    { case_bool_decide; [|exact Hs2]. eapply runs_result; [apply Hs2|]. apply runs_bind.
      eapply runs_mono; [apply round_close_time_for_spec|]. intros ct s3 ->.
      eapply runs_lift; [apply btree_incr_sound|]. intros vs _.
      eapply runs_lift; [apply (sound_plain _ _ (fun _ => True)); exact I|]. intros ps _. exact Hs2. }
    intros [vs ps] s3 Hs3.
    do 2 (eapply runs_lift; [apply participants_needed_sound|]; intros ? _).
    destruct (foldl _ _ _) as [[ct th] have]. destruct have; cbn [when]; [|exact Hs3].
    step. apply runs_ret. keep_holding Hs3.
Qed.

Lemma adopt_position_spec set ct r s : holding (Some set) r s ->
  runs (adopt_position order set ct) s (fun _ s' => establishing s').
Proof.
  intros (Hs & Hph & Hr). unfold adopt_position. step. eapply runs_modify_result; [exact Hr|].
  set (r1 := set_position _ (set_txns set r)). set (s1 := mkMachine _ _ _).
  assert (establishing s1) as Hs1.
  { split; [|exact Hph]. eapply minv_result; [exact Hs|exact Hr|].
    destruct (inv_result _ _ (mi_inv _ _ Hs) r Hr) as (_ & H2' & H3').
    split; [reflexivity|]. split; [exact H2'|exact H3']. }
  assert (result (cs s1) = Some r1) as Hr1 by reflexivity.
  assert (set_id (txns r1) = set_id set) as Hid by reflexivity.
  clearbody s1 r1. step. apply runs_bind. apply runs_mono with (P := fun _ s' => establishing s').
  - case_bool_decide; [exact Hs1|]. eapply runs_result; [exact Hr1|]. step.
    set (s2 := mkMachine _ _ _).
    assert (establishing s2) as Hs2.
    { destruct Hs1 as [[[Hp Hpe Hac Hre Hrt Hrc] Hm Hl] Hph1]. split; [|exact Hph1].
      constructor; [|exact Hm|exact Hl]. constructor; cbn; try assumption.
      intros id s'. rewrite lookup_insert_Some. intros [[<- <-]|[_ ?]]; [exact Hid|auto]. }
    assert (result (cs s2) = Some r1) as Hr2 by exact Hr1.
    clearbody s2. apply runs_bind. apply runs_mono with (P := fun _ s' => neutral (strip (cs s2)) s').
    { pose proof (neutral_intro _ (proj1 Hs2)). destruct (is_bow_out _); cbn [negb when]; [assumption|].
      apply bind_ret_r. step. apply runs_ret. apply neutral_emit; [assumption|discriminate|exact I]. }
    intros ? s3 Hs3. step. eapply runs_mono.
    + apply (runs_for_each (neutral (strip (cs s2)))); [|exact Hs3].
      intros [n p] Hin s4 Hs4. apply list_elem_of_filter in Hin as [_ Hin]. apply entries_in in Hin.
      eapply update_disputes_spec; [exact Hs4|exact (strip_result_inv _ _ Hr2)|].
      rewrite (neutral_positions _ _ Hs3) in Hin. apply elem_of_dom. eauto.
    + intros ? s4 Hs4. eapply neutral_establishing; [exact Hs4|apply Hs2].
  - intros ? s2 Hs2. destruct (establishing_result _ Hs2) as (r2 & Hr2 & _).
    eapply runs_result; [exact Hr2|]. step.
    destruct (negb _ && _) eqn:Hcond; cbn [when]; [|exact Hs2]. apply bind_ret_r. step. apply runs_ret.
    apply andb_true_iff in Hcond as [_ Hmode]. apply bool_decide_eq_true in Hmode.
    split; [|apply Hs2]. apply minv_event; [apply Hs2|discriminate|].
    rewrite (mi_mode _ _ (proj1 Hs2)) in Hmode. exact Hmode.
Qed.

Lemma update_our_positions_spec s : establishing s ->
  runs (update_our_positions order) s (fun _ s' => establishing s').
Proof.
  intros Hs. unfold update_our_positions. step. cbv zeta.
  apply runs_bind. eapply runs_mono; [apply remove_stale_peers_spec, Hs|]. intros ? s1 Hs1.
  apply runs_bind. eapply runs_mono; [apply count_close_times_spec|]. intros votes s2 ->.
  apply runs_bind. eapply runs_mono; [apply vote_on_disputes_spec, Hs1|].
  intros acc s3 [Hs3 Hph3]. destruct (holding_intro _ _ Hs3 Hph3) as [r Hh].
  apply runs_bind. eapply runs_mono; [apply agree_on_close_time_spec, Hh|].
  clear s3 Hs3 Hph3 Hh. intros ct s3 Hs3. destruct acc as [set|].
  - apply (adopt_position_spec _ _ r), Hs3.
  - step. eapply runs_result; [apply Hs3|]. step. apply runs_bind.
    eapply runs_mono; [apply round_close_time_for_spec|]. intros pct s4 ->.
    change (runs (match (if negb (ct =? pct) || is_stale
      (net_sub_or_default (now (cs s)) (std_duration_to_time (propose_interval parms))) (position r)
      then Some (txns r) else None) with
      | Some new_set => adopt_position order new_set ct | None => mret tt end)
      s3 (fun _ s' => establishing s')).
    destruct (_ || _); [|split; apply Hs3]. apply (adopt_position_spec _ _ r).
    destruct Hs3 as ([[Hp Hpe Hac Hre Hrt Hrc] Hm Hl] & Hph & Hr). split; [|split; assumption].
    constructor; [|exact Hm|exact Hl]. constructor; try assumption.
    intros r' Hr'. rewrite Hr in Hr'. injection Hr' as <-. exact (Hre r Hr).
Qed.

(** ** Detecting consensus *)

Lemma set_state_ok peers st (r : Result) : result_ok None peers r -> result_ok None peers (set_state st r).
Proof. intros Hr. exact Hr. Qed.

Lemma stalled_all_spec parms' proposing unchanged (l : list (TxId * Dispute)) (m : Act bool) s :
  well_formed_parms parms' -> runs m s (fun _ s' => s' = s) ->
  runs (foldl (fun (acc : Act bool) kd =>
          b ← acc;
          if b : bool then lift (stalled parms' proposing unchanged kd.2) else mret false) m l) s
    (fun _ s' => s' = s).
Proof.
  intros Hp Hm.
  apply (runs_foldl (fun (b : bool) kd =>
    if b then lift (stalled parms' proposing unchanged kd.2) else mret false)); [exact Hm|].
  intros kd b s' _ ->. destruct b; [|apply runs_ret; reflexivity].
  apply bind_ret_r. eapply runs_lift; [apply stalled_sound, Hp|]. intros ? _. reflexivity.
Qed.

Lemma have_consensus_spec s : establishing s ->
  runs (have_consensus order) s (fun b s' => establishing s' /\
    (b = true -> forall r, result (cs s') = Some r -> state r <> No)).
Proof.
  intros Hs. destruct (establishing_result s Hs) as (r & Hr & Hok).
  unfold have_consensus. eapply runs_result; [exact Hr|]. do 7 step. apply runs_bind.
  set (s1 := mkMachine _ _ _).
  assert (establishing s1) as Hs1 by (split; [destruct Hs as [Hs _]; keep Hs|apply Hs]).
  assert (result (cs s1) = Some r) as Hr1 by exact Hr.
  apply runs_mono with (P := fun _ s' => s' = s1).
  { destruct (_ && _); [|apply runs_ret; reflexivity].
    apply stalled_all_spec; [apply parms_well_formed|]. apply runs_ret; reflexivity. }
  change (cs s) with (cs s1). clearbody s1. intros st s2 ->. do 2 step.
  eapply runs_lift.
  { apply check_consensus_sound; [apply parms_well_formed|].
    apply (inv_round_time _ _ (mi_inv _ _ (proj1 Hs1))). }
  intros state' _. eapply runs_modify_result; [exact Hr1|].
  set (s3 := mkMachine _ _ _).
  assert (establishing s3) as Hs3.
  { split; [|apply Hs1]. eapply minv_result; [apply Hs1|exact Hr1|]. apply set_state_ok.
    destruct (establishing_result _ Hs1) as (r' & Hr' & Hok'). congruence. }
  assert (result (cs s3) = Some (set_state state' r)) as Hr3 by reflexivity.
  assert (state' <> No -> forall r', result (cs s3) = Some r' -> state r' <> No) as Hst.
  { rewrite Hr3. intros Hne r' [= <-]. exact Hne. }
  clearbody s3. destruct state'.
  - apply runs_ret. split; [exact Hs3|discriminate].
  - apply runs_ret. split; [exact Hs3|]. intros _. now apply Hst.
  - eapply runs_lift; [apply (sound_plain _ _ (fun _ => True)); exact I|]. intros mc _. step.
    destruct (_ <? _); [apply runs_ret; split; [exact Hs3|discriminate]|].
    apply runs_bind. eapply runs_mono; [apply leave_consensus_spec, Hs3|].
    intros ? s4 (Hs4 & Hf & Hst4 & _). apply runs_ret. split.
    + split; [exact Hs4|]. injection Hf as Hf _ _ _ _ _. rewrite Hf. apply Hs3.
    + intros _ r' Hr'. rewrite Hr', Hr3 in Hst4. cbn in Hst4. injection Hst4 as ->. discriminate.
  - apply runs_ret. split; [exact Hs3|]. intros _. now apply Hst.
Qed.

(** Deciding whether to pause only asks the adaptor. *)
Lemma should_pause_spec s : establishing s ->
  runs should_pause s (fun _ s' => cs s' = cs s /\ log s' = log s).
Proof.
  intros Hs. destruct (establishing_result s Hs) as (r & Hr & _). unfold should_pause.
  do 3 step. destruct (quorum_keys _).1 as [quorum keys]. step.
  destruct (laggards _ _ _).1 as [lagging rest]. eapply runs_result; [exact Hr|].
  apply runs_bind. apply runs_mono with (P := fun _ s' => cs s' = cs s /\ log s' = log s).
  - destruct (_ || _); [apply runs_ret; auto|]. step. destruct (negb _); [apply runs_ret; auto|].
    step. apply runs_ret. auto.
  - intros proceed s' Hs'. destruct (negb proceed); [exact Hs'|]. cbv zeta.
    repeat (case_match; [exact Hs'|]). exact Hs'.
Qed.

Lemma tick_ok clock t : 0 <= clock <= CLOCK_MAX -> timer_ok t -> timer_ok (timer_tick_to clock t).
Proof.
  intros Hc Ht. unfold timer_tick_to. destruct (start t) as [s0|] eqn:Hs0; [|exact Ht].
  destruct Ht as [Hd Hst]. pose proof (Hst s0 Hs0). split; cbn [dur start]; [lia|].
  intros s1 [= <-]. assumption.
Qed.

Lemma establishing_update s c w : establishing s -> inv None c -> mode c = mode (cs s) ->
  phase c = Establish -> establishing (mkMachine c w (log s)).
Proof. intros [[Hi Hm Hl] Hph] Hc Hmode Hph'. split; [|exact Hph']. constructor; cbn; [exact Hc|now rewrite Hmode|exact Hl]. Qed.

Lemma converge_divisor_pos prt : 0 <= prt <= CLOCK_MAX ->
  cast I64 (Z.max (Z.max prt (av_min_consensus_time parms) / 1000000) 1) > 0.
Proof.
  intros Hp. pose proof (min_time_bounded _ parms_well_formed) as Hm. unfold CLOCK_MAX in *.
  set (d := Z.max prt (av_min_consensus_time parms)) in *.
  assert (0 <= d / 1000000 <= d) by (split; [apply Z.div_pos; lia|apply Z.div_le_upper_bound; lia]).
  rewrite cast_id by (cbn; lia). lia.
Qed.

(** ** Phases *)

Lemma tick_result s clock n : 0 <= clock <= CLOCK_MAX -> establishing s -> exists r,
  result (cs s) = Some r /\
  establishing (mkMachine (set_result (Some (set_proposers n
    (set_round_time (timer_tick_to clock (round_time r)) r))) (cs s)) (world s) (log s)).
Proof.
  intros Hc Hs. destruct (establishing_result s Hs) as (r & Hr & H1' & H2' & H3').
  exists r. split; [exact Hr|]. split; [|apply Hs].
  eapply minv_result; [apply Hs|exact Hr|]. split; [exact H1'|]. split; [|exact H3'].
  apply tick_ok; assumption.
Qed.

Lemma accept_spec s : establishing s ->
  (forall r, result (cs s) = Some r -> state r <> No) ->
  runs (positions ← gets curr_peer_positions;
        emit (UpdateOperatingMode (Z.of_nat (size positions))) ;;
        modify (set_prev_proposers (Z.of_nat (size positions))) ;;
        r ← get_result;
        modify (set_prev_round_time (timer_read (round_time r))) ;;
        modify (set_phase Accepted) ;;
        prev ← gets previous_ledger;
        res ← gets close_resolution;
        raw ← gets raw_close_times;
        m ← gets mode;
        emit (OnAccept r prev res raw m)) s (fun _ s' => minv None s').
Proof.
  intros Hs Hst. destruct (establishing_result s Hs) as (r & Hr & H1' & H2' & H3').
  do 3 step. eapply runs_result; [exact Hr|]. do 6 step. apply bind_ret_r. step. apply runs_ret. cbn.
  destruct Hs as [[[Hp Hpe Hac Hre Hrt Hrc] Hm Hl] Hph].
  assert (good_log (log s ++ [UpdateOperatingMode (Z.of_nat (size (curr_peer_positions (cs s))))]))
    as Hl1 by (constructor; [exact Hl|exact I]).
  constructor; cbn.
  - constructor; cbn; try assumption; [exact I|]. exact (proj1 H2').
  - rewrite !mode_of_snoc by discriminate. exact Hm.
  - constructor; [exact Hl1|]. cbn. rewrite mode_of_snoc by discriminate. auto.
Qed.

Lemma phase_establish_spec s : establishing s ->
  runs (phase_establish order) s (fun _ s' => minv None s').
Proof.
  intros Hs. destruct (establishing_result s Hs) as (r & Hr & _). unfold phase_establish.
  step. rewrite Hr, bool_decide_eq_true_2 by eauto. cbn [assert]. apply runs_bind, runs_ret.
  do 4 step.
  match goal with |- runs _ (mkMachine ?c ?w ?l) _ => set (s1 := mkMachine c w l) end.
  assert (establishing s1) as Hs1 by (split; [destruct Hs as [Hs _]; keep Hs|apply Hs]).
  assert (0 <= (clock_now (world s)).1 <= CLOCK_MAX) as Hc by apply clock_bounded.
  revert Hc. generalize (clock_now (world s)).1 as clock. intros clock Hc.
  cbn. clearbody s1. clear r Hr.
  destruct (tick_result s1 clock (Z.of_nat (size (curr_peer_positions (cs s)))) Hc Hs1)
    as (r & Hr & Hs2).
  eapply runs_modify_result; [exact Hr|].
  match type of Hs2 with establishing (mkMachine (set_result (Some ?r2) _) _ _) =>
    eapply (runs_result _ _ r2); [reflexivity|]; set (r' := r2) in * end.
  set (s2 := mkMachine _ _ _) in *. clearbody s2 r'. clear Hr.
  step. eapply runs_lift; [apply (sound_plain _ _ (fun _ => True)); exact I|]. intros scaled _.
  pose proof (converge_divisor_pos _ (inv_round_time _ _ (mi_inv _ _ (proj1 Hs2)))) as Hdiv.
  cbv zeta. destruct (Z.eqb_spec (cast I64 (Z.max (Z.max (prev_round_time (cs s2))
    (av_min_consensus_time parms) / 1000000) 1)) 0) as [Hz|_]; [lia|].
  apply runs_bind, runs_ret. step. set (s3 := mkMachine _ _ _).
  assert (establishing s3) as Hs3 by (split; [destruct Hs2 as [Hs2 _]; keep Hs2|apply Hs2]).
  clearbody s3. case_match; [apply Hs3|].
  apply runs_bind. eapply runs_mono; [apply update_our_positions_spec, Hs3|]. intros ? s4 Hs4.
  apply runs_bind. eapply runs_mono; [apply should_pause_spec, Hs4|]. intros pause s5 [Hc5 Hl5].
  assert (establishing s5) as Hs5.
  { destruct s5 as [c5 w5 l5]. cbn in Hc5, Hl5. subst. split; [destruct Hs4 as [Hs4 _]; keep Hs4|apply Hs4]. }
  destruct pause; [apply Hs5|].
  apply runs_bind. eapply runs_mono; [apply have_consensus_spec, Hs5|]. intros have s6 [Hs6 Hst].
  destruct have; cbn [negb]; [|apply Hs6]. step. destruct (have_close_time_consensus _); cbn [negb];
    [|apply Hs6]. apply accept_spec; auto.
Qed.

Lemma closed_result s prev n m clock w : 0 <= clock <= CLOCK_MAX -> minv None s ->
  let r := set_round_time (timer_reset clock (round_time (on_close prev n m w).1)) (on_close prev n m w).1 in
  result_ok None (dom (curr_peer_positions (cs s))) r.
Proof.
  intros Hc Hs r. destruct (on_close_fresh prev n m w) as [Hpos Hd]. split; [exact Hpos|]. split.
  - split; cbn; [unfold CLOCK_MAX; lia|]. intros ? [= <-]. exact Hc.
  - intros id d. cbn. rewrite Hd, lookup_empty. discriminate.
Qed.

(** [close_ledger] after the adaptor returned [r], which becomes the result. *)
Definition closing (r : Result) (s : Mach) : Prop :=
  establishing (mkMachine (set_result (Some r) (cs s)) (world s) (log s)).

Lemma closing_acquire r s w : closing r s ->
  closing r (mkMachine (set_acquired (<[set_id (txns r) := txns r]> (acquired (cs s))) (cs s)) w (log s)).
Proof.
  intros [[[Hp Hpe Hac Hre Hrt Hrc] Hm Hl] Hph]. split; [|exact Hph].
  constructor; [|exact Hm|exact Hl]. constructor; cbn; try assumption.
  intros id s'. rewrite lookup_insert_Some. intros [[<- <-]|[_ ?]]; [reflexivity|auto].
Qed.

Lemma closing_event r s e w : closing r s -> (forall a b, e <> OnModeChange a b) ->
  event_ok (log s) e -> closing r (mkMachine (cs s) w (log s ++ [e])).
Proof.
  intros [Hs Hph] Hne He. split; [|exact Hph]. exact (minv_event _ e w Hs Hne He).
Qed.

Lemma close_finish_spec r s : closing r s ->
  runs (modify (set_result (Some r)) ;;
        positions ← gets curr_peer_positions;
        for_each (entries order positions) (fun entry =>
          acq ← gets acquired;
          match acq !! pr_position (proposal entry.2) with
          | Some set => create_disputes order set
          | None => mret tt
          end)) s (fun _ s' => minv None s').
Proof.
  intros Hs. do 2 step. set (s1 := mkMachine _ _ _). change (establishing s1) in Hs.
  assert (result (cs s1) = Some r) as Hr by reflexivity. clearbody s1.
  apply runs_mono with (P := fun _ s' => neutral (strip (cs s1)) s').
  - apply (runs_for_each (neutral (strip (cs s1)))); [|apply neutral_intro, Hs].
    intros entry _ s2 Hs2. step. case_match; [|exact Hs2].
    eapply create_disputes_spec; [exact Hs2|exact (strip_result_inv _ _ Hr)].
  - intros ? s2 Hs2. apply Hs2.
Qed.

Lemma close_ledger_spec s : minv None s -> phase (cs s) = Open ->
  runs (close_ledger order) s (fun _ s' => minv None s').
Proof.
  intros Hs Hph. assert (result (cs s) = None) as Hr.
  { pose proof (inv_phase _ _ (mi_inv _ _ Hs)) as Hr. now rewrite Hph in Hr. }
  unfold close_ledger. step. rewrite Hr, bool_decide_eq_true_2 by reflexivity. cbn [assert].
  apply runs_bind, runs_ret. do 9 step. step.
  match goal with |- runs _ (mkMachine ?c ?w ?l) _ => set (s1 := mkMachine c w l) end.
  match goal with |- runs (when _ (_ (set_acquired (<[set_id (txns ?r') := _]> _)) ≫= _) ≫= _) _ _ =>
    set (r := r') end.
  assert (closing r s1 /\ acquired (cs s1) = acquired (cs s) /\ mode (cs s1) = mode (cs s))
    as (Hs1 & Hacq & Hmode).
  { split; [|split; reflexivity]. pose proof Hs as [[Hp Hpe Hac Hre Hrt Hrc] Hm Hl]. split; [|reflexivity].
    constructor; [|exact Hm|exact Hl]. constructor; cbn; try assumption; [eauto|].
    intros ? [= <-]. apply (closed_result s); [apply clock_bounded|exact Hs]. }
  change (acquired _) with (acquired (cs s1)). change (mode _) with (mode (cs s1)).
  clearbody r s1.
  apply runs_bind. apply runs_mono with (P := fun _ s' => closing r s' /\ mode (cs s') = mode (cs s1)).
  { destruct (negb _); cbn [when]; [|apply runs_ret; auto]. step. apply bind_ret_r. step. apply runs_ret.
    split; [|reflexivity]. apply (closing_event r (mkMachine _ (world s1) _));
      [|discriminate|exact I]. apply closing_acquire, Hs1. }
  intros ? s2 [Hs2 Hm2]. rewrite <- Hm2.
  apply runs_bind. apply runs_mono with (P := fun _ s' => closing r s'); [|intros ?; apply close_finish_spec].
  case_bool_decide as Hprop; cbn [when]; [|exact Hs2]. apply bind_ret_r. step. apply runs_ret.
  apply closing_event; [exact Hs2|discriminate|]. cbn.
  rewrite <- Hprop. symmetry. exact (mi_mode _ _ (proj1 Hs2)).
Qed.

Lemma should_close_ledger_sound {E} tx pp pc pv prt since ot idle p :
  sound (should_close_ledger (E := E) tx pp pc pv prt since ot idle p) (fun _ => True).
Proof.
  unfold should_close_ledger. case_if; [exact I|]. apply sound_plain_bind.
  repeat (case_if; [exact I|]). exact I.
Qed.

Lemma phase_open_spec s : minv None s -> phase (cs s) = Open ->
  runs (phase_open order) s (fun _ s' => minv None s').
Proof.
  intros Hs Hph. unfold phase_open. do 8 step.
  pose proof (parent_close_bounded (previous_ledger (cs s))) as Hpc.
  pose proof (resolution_bounded (previous_ledger (cs s))) as Hres.
  cbn [previous_ledger set_open_time].
  rewrite fits_ok by (cbn in *; lia). eapply (runs_lift _ _ _ (fun _ => True)); [exact I|]. intros plus _. do 2 step.
  assert ((close_time_resolution (previous_ledger (cs s)) * 2 <=? DURATION_MAX) = true) as ->
    by (unfold DURATION_MAX, CLOCK_MAX, from_secs in *; cbn in *; lia).
  eapply (runs_lift _ _ _ (fun _ => True)); [exact I|]. intros doubled _. do 3 step.
  eapply runs_lift; [apply should_close_ledger_sound|]. intros close _. set (s1 := mkMachine _ _ _).
  assert (minv None s1) as Hs1 by keep Hs.
  destruct close; cbn [when]; [|exact Hs1]. apply close_ledger_spec; [exact Hs1|exact Hph].
Qed.

(** ** Rounds *)

Definition preserves {A} (m : Act A) : Prop :=
  forall s, minv None s -> runs m s (fun _ s' => minv None s').

Lemma preserves_bind {A B} (m : Act A) (k : A -> Act B) s : preserves m -> minv None s ->
  (forall a s', minv None s' -> runs (k a) s' (fun _ s' => minv None s')) ->
  runs (m ≫= k) s (fun _ s' => minv None s').
Proof.
  intros Hm Hs Hk. apply runs_bind. eapply runs_mono; [apply Hm, Hs|]. exact Hk.
Qed.

(** [start_round_internal] and its callers, given the [timer_entry] they may
    call in a [ready] state. *)
Section Rounds.
Context (timer : Z -> Act unit) (ready : Mach -> Prop).
Context (timer_ready : forall n s, minv None s -> ready s ->
  runs (timer n) s (fun _ s' => minv None s')).

Lemma start_round_internal_spec n prev_id prev_ledger m s : minv None s ->
  (forall s', building_on prev_id prev_ledger s' -> ready s') ->
  runs (start_round_internal order timer n prev_id prev_ledger m) s (fun _ s' => minv None s').
Proof.
  intros Hs Hready. unfold start_round_internal, set_mode_monitored. do 20 step.
  apply runs_bind. eapply runs_mono; [apply (playback_spec prev_id prev_ledger)|].
  - destruct Hs as [[_ _ _ _ Hrt Hrc] Hm Hl]. split; [|split; reflexivity]. constructor; cbn.
    + constructor; cbn; [reflexivity| | |discriminate|exact Hrt|exact Hrc]; intros ? ?; rewrite lookup_empty;
        discriminate.
    + now rewrite mode_of_change.
    + constructor; [exact Hl|exact I].
  - intros ? s1 Hs1. do 2 step. destruct (_ >? _); cbn [when]; [|apply Hs1]. step.
    apply timer_ready; [apply Hs1|apply Hready, Hs1].
Qed.

(** Forgetting the peers and the disputes for another previous ledger. *)
Lemma minv_forget s lgr_id raw w : minv None s ->
  minv None (mkMachine (set_dead_nodes ∅ (set_raw_close_times raw (set_curr_peer_positions ∅
    (set_result ((fun r => set_compares ∅ (set_disputes ∅ r)) <$> result (cs s))
      (set_prev_ledger_id lgr_id (cs s)))))) w (log s)).
Proof.
  intros [[Hp Hpe Hac Hre Hrt Hrc] Hm Hl]. constructor; [|exact Hm|exact Hl].
  constructor; cbn; try assumption.
  - destruct (phase (cs s)); [now rewrite Hp|destruct Hp as [r ->]; eauto|exact I].
  - intros ? ?. rewrite lookup_empty. discriminate.
  - intros r'. destruct (result (cs s)) as [r|] eqn:Hr; cbn; [|discriminate]. intros [= <-].
    destruct (Hre r eq_refl) as (H1' & H2' & _). split; [exact H1'|]. split; [exact H2'|].
    intros id d. cbn. rewrite lookup_empty. discriminate.
Qed.

(** The first part of [handle_wrong_ledger], which makes [lgr_id] the ledger we
    mean to build on. *)
Lemma switch_prev_spec lgr_id s : minv None s ->
  runs (when (negb (bool_decide (prev_ledger_id (cs s) = lgr_id)))
    (modify (set_prev_ledger_id lgr_id) ;;
     r ← gets result;
     match r with
     | Some r => modify (set_result (Some (set_compares ∅ (set_disputes ∅ r))))
     | None => mret tt
     end ;;
     modify (set_curr_peer_positions ∅) ;;
     modify (fun c => set_raw_close_times (mkCloseTimes [] (ct_self (raw_close_times c))) c) ;;
     modify (set_dead_nodes ∅) ;;
     playback_proposals order)) s
    (fun _ s' => building_on lgr_id (previous_ledger (cs s)) s').
Proof.
  intros Hs. case_bool_decide; cbn [negb when]; [split; auto|]. do 2 step.
  pose proof (minv_forget s lgr_id (mkCloseTimes [] (ct_self (raw_close_times (cs s)))) (world s) Hs)
    as Hs2.
  change (result (set_prev_ledger_id lgr_id (cs s))) with (result (cs s)).
  destruct (result (cs s)) as [r|] eqn:Hr; cbn in Hs2.
  - step. do 3 step. apply playback_spec. split; [exact Hs2|split; reflexivity].
  - apply runs_bind, runs_ret. do 3 step. apply playback_spec.
    split; [|split; reflexivity].
    replace (set_prev_ledger_id lgr_id (cs s))
      with (set_result None (set_prev_ledger_id lgr_id (cs s))); [exact Hs2|].
    unfold set_prev_ledger_id, set_result. cbn. now rewrite Hr.
Qed.

Lemma handle_wrong_ledger_spec lgr_id s : minv None s ->
  (forall w l s', (acquire_ledger lgr_id w).1 = Some l -> building_on lgr_id l s' -> ready s') ->
  runs (handle_wrong_ledger order timer lgr_id) s (fun _ s' => minv None s').
Proof.
  intros Hs Hready. unfold handle_wrong_ledger. apply runs_bind.
  eapply runs_mono; [apply leave_consensus_spec, Hs|]. intros ? s1 [Hs1 _]. step.
  apply runs_bind. eapply runs_mono; [apply switch_prev_spec, Hs1|].
  intros ? s2 (Hs2 & Hid & Hl). do 2 step. case_bool_decide; [exact Hs2|]. step. rewrite Hid.
  assert (minv None (mkMachine (cs s2) w (log s2))) as Hs3 by keep Hs2.
  destruct (acquire_ledger lgr_id (world s2)).1 as [l|] eqn:Hacq.
  - step. apply start_round_internal_spec; [exact Hs3|]. intros s' Hs'. eauto.
  - eapply runs_mono; [apply set_mode_spec, Hs3|]. intros ? s4 Hs4. apply Hs4.
Qed.

Lemma check_ledger_spec s : minv None s ->
  (forall id l m w w' l' s', let net := (get_prev_ledger id l m w).1 in
     (acquire_ledger net w').1 = Some l' -> building_on net l' s' -> ready s') ->
  runs (check_ledger order timer) s (fun _ s' => minv None s').
Proof.
  intros Hs Hready. unfold check_ledger. do 4 step.
  assert (minv None (mkMachine (cs s) w (log s))) as Hs1 by keep Hs.
  destruct (_ || _); cbn [when]; [|exact Hs1]. apply handle_wrong_ledger_spec; [exact Hs1|]. eauto.
Qed.

End Rounds.

Lemma after_check_spec n s (timer : Z -> Act unit) : phase (cs s) <> Accepted ->
  runs (check_ledger order timer) (mkMachine (set_now n (cs s)) (world s) (log s))
    (fun _ s' => minv None s') ->
  runs (modify (set_now n) ;; check_ledger order timer ;;
        ph ← gets phase;
        match ph with
        | Open => phase_open order
        | Establish => phase_establish order
        | Accepted => mret tt
        end) s (fun _ s' => minv None s').
Proof.
  intros Hph Hcheck. step. apply runs_bind. eapply runs_mono; [exact Hcheck|].
  intros ? s1 Hs1. step. destruct (phase (cs s1)) eqn:Hph1.
  - now apply phase_open_spec.
  - apply phase_establish_spec. split; auto.
  - exact Hs1.
Qed.

(** With any fuel, when running out of it is admitted. *)
Lemma timer_entry_preserves fuel n : diverges -> preserves (timer_entry order fuel n).
Proof.
  intros Hdiv. revert n. induction fuel as [|fuel IH]; intros n s Hs; [exact Hdiv|].
  cbn [timer_entry]. step. case_bool_decide; [exact Hs|]. apply after_check_spec; [assumption|].
  apply (check_ledger_spec _ (fun _ => True)); [|keep Hs|auto]. intros n' s' Hs' _. apply IH, Hs'.
Qed.

(** ** How deep the recursion goes *)

(** An adaptor that does not change its mind about the previous ledger, and
    that acquires the ledger it is asked for. *)
Class StableAdaptor (preferred : LedgerId) : Prop := {
  preferred_ledger : forall id l m w, (get_prev_ledger id l m w).1 = preferred;
  acquired_ledger : forall id w l, (acquire_ledger id w).1 = Some l -> ledger_id l = id
}.

Section Stable.
Context (preferred : LedgerId) `{!StableAdaptor preferred}.

Definition settled (s : Mach) : Prop :=
  prev_ledger_id (cs s) = preferred /\ ledger_id (previous_ledger (cs s)) = preferred.

Lemma timer_entry_settled fuel n s : minv None s -> settled s ->
  runs (timer_entry order (S fuel) n) s (fun _ s' => minv None s').
Proof.
  intros Hs [Hid Hl]. cbn [timer_entry]. step. case_bool_decide; [exact Hs|].
  apply after_check_spec; [assumption|]. unfold check_ledger. do 4 step. rewrite preferred_ledger.
  cbn [prev_ledger_id set_now previous_ledger].
  rewrite Hid, Hl, !bool_decide_eq_true_2 by reflexivity. cbn [negb orb when]. apply runs_ret. keep Hs.
Qed.

Lemma timer_entry_depth fuel n : preserves (timer_entry order (S (S fuel)) n).
Proof.
  intros s Hs. set (f1 := S fuel). cbn [timer_entry]. step. case_bool_decide; [exact Hs|].
  apply after_check_spec; [assumption|].
  apply (check_ledger_spec _ settled); [|keep Hs|].
  - intros n' s' Hs' Hset. now apply timer_entry_settled.
  - intros id l m w w' l' s'. cbv zeta. rewrite preferred_ledger.
    intros Hacq (_ & Hid & Hl). split; [exact Hid|]. rewrite Hl. eapply acquired_ledger; eauto.
Qed.
End Stable.

Lemma start_round_preserves fuel n prev_id prev_ledger untrusted proposing :
  (forall n, preserves (timer_entry order fuel n)) ->
  preserves (start_round order fuel n prev_id prev_ledger untrusted proposing).
Proof.
  intros Htimer s Hs. unfold start_round. step. apply runs_bind.
  apply runs_mono with (P := fun _ s' => minv None s').
  { destruct (first_round (cs s)).
    - do 2 step. apply bind_ret_r. step. apply runs_ret.
      destruct Hs as [[? ? ? ? ? ?] ? ?]. constructor; [constructor; try assumption|assumption|assumption].
      apply (idle_interval_bounded _ parms_well_formed).
    - step. apply bind_ret_r. step. apply runs_ret. keep Hs. }
  intros ? s1 Hs1. step.
  assert (forall w, minv None (mkMachine (set_recent_peer_positions (filter
    (fun entry => entry.1 ∉ untrusted) (recent_peer_positions (cs s1))) (cs s1)) w (log s1))) as Hs2.
  { intros w. destruct Hs1 as [[? ? ? ? ? Hrc] ? ?].
    constructor; [constructor; try assumption|assumption|assumption]. cbn. intros n' ps.
    rewrite map_lookup_filter_Some. intros [Hps _]. eauto. }
  assert (forall n' s', minv None s' -> True ->
    runs (timer_entry order fuel n') s' (fun _ s' => minv None s')) as Ht by (intros; now apply Htimer).
  case_bool_decide.
  - apply runs_bind, runs_ret. apply (start_round_internal_spec _ (fun _ => True)); auto.
  - do 2 step. apply runs_bind, runs_ret. case_match.
    apply (start_round_internal_spec _ (fun _ => True)); auto.
Qed.

End Inv.
