(* ===== verification/ConsensusProps.v ===== *)
(** * ConsensusProps: what the consensus state machine guarantees

    The theorems are about [reachable] states: those that a sequence of calls
    of the public operations of [Consensus] produces from a new machine, the
    adaptor's state changing freely between calls.  They follow from the
    invariant of [ConsensusInv].  Other parts are about the vote on the
    close time and the end of an overdue round.  One part runs a complete round of a small deployment,
    which shows that the hypotheses can hold and that rounds are accepted. *)

From stdpp Require Import gmap sorting.
From Stdlib Require Import ZArith Lia.
From S2P Require Import Prelude ConsensusParms DisputedTx Consensus ConsensusInv.
Local Open Scope Z_scope.

Section Props.
Context {NodeId LedgerId TxSetId TxId : Type}.
Context `{Countable NodeId, EqDecision LedgerId, Countable TxSetId, Countable TxId}.
Context {Tx TxSet Ledger PeerPos World : Type}.
Context `{CT : !ConsensusTxSet (TxSetId := TxSetId) (TxId := TxId) (Tx := Tx) (TxSet := TxSet)}.
Context `{CL : !ConsensusLedger (LedgerId := LedgerId) (Ledger := Ledger)}.
Context `{CP : !PeerPosition (NodeId := NodeId) (LedgerId := LedgerId) (TxSetId := TxSetId)
                (PeerPos := PeerPos)}.
Context `{CA : !ConsensusAdaptor (NodeId := NodeId) (LedgerId := LedgerId) (TxSetId := TxSetId)
                (TxId := TxId) (Tx := Tx) (TxSet := TxSet) (Ledger := Ledger) (PeerPos := PeerPos)
                (World := World)}.
Context (order : forall A, list A -> list A).
Context (default_id : LedgerId) (default_ledger : Ledger).

Abbreviation Mach := (Machine (NodeId := NodeId) (LedgerId := LedgerId) (TxSetId := TxSetId)
  (TxId := TxId) (Tx := Tx) (TxSet := TxSet) (Ledger := Ledger) (PeerPos := PeerPos)
  (World := World)).
Abbreviation Act := (M (NodeId := NodeId) (LedgerId := LedgerId) (TxSetId := TxSetId)
  (TxId := TxId) (Tx := Tx) (TxSet := TxSet) (Ledger := Ledger) (PeerPos := PeerPos)
  (World := World)).

Abbreviation Ev := (Event (NodeId := NodeId) (LedgerId := LedgerId) (TxSetId := TxSetId)
  (TxId := TxId) (Tx := Tx) (TxSet := TxSet) (Ledger := Ledger) (PeerPos := PeerPos)).

(** ** Calls and reachable states *)

Inductive op : Type :=
| StartRound (n : Z) (prev_id : LedgerId) (prev : Ledger) (untrusted : gset NodeId) (proposing : bool)
| TimerEntry (n : Z)
| PeerProposal (n : Z) (p : PeerPos)
| GotTxSet (n : Z) (set : TxSet).

Definition run_op (fuel : nat) (o : op) : Act unit :=
  match o with
  | StartRound n prev_id prev untrusted proposing =>
      start_round order fuel n prev_id prev untrusted proposing
  | TimerEntry n => timer_entry order fuel n
  | PeerProposal n p => _ ← peer_proposal order n p; mret tt
  | GotTxSet n set => got_tx_set order n set
  end.

Definition new_machine (w : World) : Mach := mkMachine (with_clock default_id default_ledger) w [].

Inductive reachable : Mach -> Prop :=
| reach_new w : reachable (new_machine w)
| reach_world s w : reachable s -> reachable (mkMachine (cs s) w (log s))
| reach_op fuel o s s' : reachable s -> run_op fuel o s = Ok (tt, s') -> reachable s'.

Context `{Laws : !ConsensusLaws (CT := CT) order}.

Lemma new_machine_minv w : minv None (new_machine w).
Proof.
  constructor; [|reflexivity|constructor]. constructor; cbn.
  - exact I.
  - intros ? ?. rewrite lookup_empty. discriminate.
  - intros ? ?. rewrite lookup_empty. discriminate.
  - discriminate.
  - unfold CLOCK_MAX. lia.
  - intros ? ?. rewrite lookup_empty. discriminate.
Qed.

Lemma run_op_spec (diverges : Prop) fuel o :
  (forall n, preserves diverges (timer_entry order fuel n)) -> preserves diverges (run_op fuel o).
Proof.
  intros Ht s Hs. destruct o; cbn [run_op].
  - exact (start_round_preserves order diverges _ _ _ _ _ _ Ht s Hs).
  - exact (Ht _ s Hs).
  - apply runs_bind. refine (runs_mono _ _ _ _ _ (peer_proposal_spec order diverges n p s Hs) _).
    intros ? s' [Hs' _]. exact Hs'.
  - refine (runs_mono _ _ _ _ _ (got_tx_set_spec order diverges n set s Hs) _).
    intros ? s' [Hs' _]. exact Hs'.
Qed.

Lemma run_op_preserves fuel o : preserves True (run_op fuel o).
Proof. apply run_op_spec. intros n. now apply timer_entry_preserves. Qed.

Lemma runs_ok {A} diverges (m : Act A) s Q a s' : runs diverges m s Q -> m s = Ok (a, s') -> Q a s'.
Proof. unfold runs. intros HQ E. rewrite E in HQ. exact HQ. Qed.

Lemma reachable_minv s : reachable s -> minv None s.
Proof.
  induction 1 as [w|s w _ IH|fuel o s s' _ IH Hrun].
  - apply new_machine_minv.
  - destruct IH as [Hi Hm Hl]. constructor; assumption.
  - exact (runs_ok True _ _ _ _ _ (run_op_preserves fuel o s IH) Hrun).
Qed.

(** A sequence of calls. *)
Fixpoint run_ops (fuel : nat) (l : list op) : Act unit :=
  match l with
  | [] => mret tt
  | o :: l => run_op fuel o ;; run_ops fuel l
  end.

Lemma run_ops_reachable fuel l s s' : reachable s -> run_ops fuel l s = Ok (tt, s') -> reachable s'.
Proof.
  revert s. induction l as [|o l IH]; intros s Hs; cbn [run_ops].
  - intros [= <-]. exact Hs.
  - unfold mbind, M_bind. destruct (run_op fuel o s) as [[[] s1]| | | |] eqn:Hrun; try discriminate.
    apply IH. eapply reach_op; eauto.
Qed.

(** C14: from every state that calls of the public operations reach, no call fails
    an assertion, an [expect], a division or the arithmetic of durations (the
    outcome [Panic]), and no call ends in an error.  What the peers send, the
    adaptor's answers and the order in which hash maps are visited are arbitrary
    within [ConsensusLaws]: transaction sets behave as sets, [on_close] returns a
    position that names its set and no disputes, the parameters are well formed,
    the clock stays below 2^62 nanoseconds, and a ledger's parent close time is
    below the largest [u32] and its close resolution below 2^62 nanoseconds.  Not
    covered are an overflow of integer arithmetic, which only a debug build checks (the outcome [Wraps]),
    and the depth of the recursion (the outcome [OutOfFuel]), which another
    property bounds. *)
Theorem operations_never_panic fuel o s : reachable s ->
  run_op fuel o s <> Panic /\ forall e, run_op fuel o s <> Err e.
Proof.
  intros Hs. pose proof (run_op_preserves fuel o s (reachable_minv s Hs)) as Hr.
  unfold runs in Hr. destruct (run_op fuel o s) as [[a s']|e| | |]; split; try discriminate; contradiction.
Qed.

(** C16: For an adaptor that satisfies [ConsensusLaws]: while the network's preferred ledger does not change and the adaptor
    acquires the ledger it is asked for, the mutual recursion of [timer_entry]
    and [start_round_internal] through [check_ledger] is at most two calls
    deep: a call never runs out of fuel that allows two. *)
Theorem recursion_depth_two preferred fuel o s : StableAdaptor preferred -> reachable s ->
  run_op (S (S fuel)) o s <> OutOfFuel.
Proof.
  intros Hstable Hs.
  assert (preserves False (run_op (S (S fuel)) o)) as Hp.
  { apply run_op_spec. intros n. now apply (timer_entry_depth order False preferred). }
  specialize (Hp s (reachable_minv s Hs)). unfold runs in Hp. now destruct (run_op _ _ _) as [[a s']| | | |].
Qed.

(** C37: In every reachable state, for an adaptor that satisfies [ConsensusLaws]: a
    peer's current position was sent by that peer, builds on the ledger
    we build on and is not a bow-out, and the peer has not left the round; at
    most ten proposals per peer are remembered; a transaction set we hold is
    filed under its own identifier. *)
Theorem peer_positions_current s n p : reachable s -> curr_peer_positions (cs s) !! n = Some p ->
  pr_node_id (proposal p) = n /\ pr_previous_ledger (proposal p) = prev_ledger_id (cs s) /\
  is_bow_out (proposal p) = false /\ n ∉ dead_nodes (cs s) /\
  (forall n' ps, recent_peer_positions (cs s) !! n' = Some ps -> (length ps <= 10)%nat) /\
  (forall id set, acquired (cs s) !! id = Some set -> set_id set = id).
Proof.
  intros Hs Hp. pose proof (mi_inv _ _ (reachable_minv s Hs)) as Hi.
  destruct (inv_peers _ _ Hi n p Hp) as (H1' & H2' & H3' & H4').
  pose proof (inv_recent _ _ Hi). pose proof (inv_acquired _ _ Hi). auto 10.
Qed.

(** C4: In every state that calls of the public operations reach, for an adaptor
    that satisfies [ConsensusLaws]: while the ledger is open there is no result, and while consensus is
    being established there is one.  Its position names its transaction set;
    each dispute counts the recorded votes, all by peers with a current
    position; and our vote on a disputed transaction is yes exactly when it is
    in our set. *)
Theorem disputes_follow_our_set s : reachable s ->
  (phase (cs s) = Open -> result (cs s) = None) /\
  (phase (cs s) = Establish -> is_Some (result (cs s))) /\
  forall r, result (cs s) = Some r ->
    pr_position (position r) = set_id (txns r) /\
    forall id d, disputes r !! id = Some d ->
      tallied d /\ dom (votes d) ⊆ dom (curr_peer_positions (cs s)) /\
      tx_id_of (DisputedTx.tx d) = id /\ our_vote d = tx_exists (txns r) id.
Proof.
  intros Hs. pose proof (mi_inv _ _ (reachable_minv s Hs)) as Hi.
  pose proof (inv_phase _ _ Hi) as Hph. split; [|split].
  - intros E. now rewrite E in Hph.
  - intros E. now rewrite E in Hph.
  - intros r Hr. destruct (inv_result _ _ Hi r Hr) as (Hpos & _ & Hd). auto.
Qed.

Lemma good_log_at (l : list Ev) i e : good_log l -> l !! i = Some e -> event_ok (take i l) e.
Proof.
  induction 1 as [|l e' Hl IH He]; [rewrite lookup_nil; discriminate|].
  intros Hi. destruct (decide (i < length l)%nat) as [Hlt|Hge].
  - rewrite lookup_app_l in Hi by exact Hlt. rewrite take_app_le by lia. auto.
  - rewrite lookup_app_r in Hi by lia. apply list_lookup_singleton_Some in Hi as [Hi <-].
    rewrite take_app_ge by lia. replace (i - length l)%nat with 0%nat by lia.
    cbn. rewrite app_nil_r. exact He.
Qed.

(** C15: For an adaptor that satisfies [ConsensusLaws], we propose only while our mode is [Proposing]: the last mode change the
    adaptor was told of before a proposal is one to [Proposing]. *)
Theorem proposals_only_while_proposing s i p : reachable s -> log s !! i = Some (Propose p) ->
  mode_of (take i (log s)) = Proposing.
Proof. intros Hs Hi. exact (good_log_at _ _ _ (mi_log _ _ (reachable_minv s Hs)) Hi). Qed.

(** C9: For an adaptor that satisfies [ConsensusLaws], a result is accepted only once decided (agreed, moved on or expired), it
    names its transaction set, and the mode reported with it is the one the
    adaptor was last told of. *)
Theorem acceptance_only_decided s i r prev res raw m : reachable s ->
  log s !! i = Some (OnAccept r prev res raw m) ->
  state r <> No /\ pr_position (position r) = set_id (txns r) /\ m = mode_of (take i (log s)).
Proof. intros Hs Hi. exact (good_log_at _ _ _ (mi_log _ _ (reachable_minv s Hs)) Hi). Qed.

(** C35: In a reachable state, for an adaptor that satisfies [ConsensusLaws] and
    whenever [peer_proposal] returns: a peer's proposal is remembered, and it is relayed exactly when it takes
    effect.  A relayed proposal arrived before acceptance, builds on our
    previous ledger, is by a peer that has not left, and has a higher sequence
    than the peer's current one; it replaces that one, or removes it and
    bans the peer from the round if it is a bow-out.  A proposal that is not
    relayed changes no position. *)
Theorem peer_proposal_newer_only n pos s relay s' : reachable s ->
  peer_proposal order n pos s = Ok (relay, s') ->
  recent_peer_positions (cs s') = remember pos (recent_peer_positions (cs s)) /\
  if relay : bool then
    let prop := proposal pos in
    let node := pr_node_id prop in
    phase (cs s) <> Accepted /\ pr_previous_ledger prop = prev_ledger_id (cs s) /\
    node ∉ dead_nodes (cs s) /\
    (forall old, curr_peer_positions (cs s) !! node = Some old ->
       pr_propose_seq (proposal old) < pr_propose_seq prop) /\
    if is_bow_out prop then
      curr_peer_positions (cs s') = delete node (curr_peer_positions (cs s)) /\
      dead_nodes (cs s') = {[node]} ∪ dead_nodes (cs s)
    else
      curr_peer_positions (cs s') = <[node := pos]> (curr_peer_positions (cs s)) /\
      dead_nodes (cs s') = dead_nodes (cs s)
  else
    curr_peer_positions (cs s') = curr_peer_positions (cs s) /\ dead_nodes (cs s') = dead_nodes (cs s).
Proof.
  intros Hs Hrun. pose proof (runs_ok True _ _ _ _ _ (peer_proposal_spec order True n pos s
    (reachable_minv s Hs)) Hrun) as (_ & _ & _ & Hrec & _ & Heff).
  split; [exact Hrec|exact Heff].
Qed.

(** ** The vote on the close time *)

(** How many of [times] are [t]. *)
Definition supporters (times : list Z) (t : Z) : Z :=
  Z.of_nat (length (filter (fun t' => t' = t) times)).

(** The choice among [times]: the close time with most supporters, the latest of
    several, if they are at least [thresh]; agreed when they are [tc] or more. *)
Definition close_time_choice (thresh tc : Z) (times : list Z) (ct : Z) (agreed : bool) : Prop :=
  (forall t, t ∈ times -> supporters times t < thresh) /\ ct = 0 /\ agreed = false \/
  ct ∈ times /\ thresh <= supporters times ct /\
  (forall t, t ∈ times -> supporters times t < supporters times ct \/
                          supporters times t = supporters times ct /\ t <= ct) /\
  (agreed = true <-> tc <= supporters times ct).

Fixpoint votes_for (t : Z) (votes : list (Z * Z)) : Z :=
  match votes with
  | [] => 0
  | (t', v) :: votes => if t =? t' then v else votes_for t votes
  end.

(** [votes] counts [times], in ascending order. *)
Definition counts (votes : list (Z * Z)) (times : list Z) : Prop :=
  StronglySorted Z.lt votes.*1 /\ (forall t, t ∈ votes.*1 <-> t ∈ times) /\
  forall t, votes_for t votes = supporters times t.

Lemma supporters_cons t' times t :
  supporters (t' :: times) t = supporters times t + (if t =? t' then 1 else 0).
Proof.
  unfold supporters. rewrite filter_cons.
  destruct (decide (t' = t)), (Z.eqb_spec t t'); cbn [length]; lia.
Qed.

Lemma votes_for_absent t votes : t ∉ votes.*1 -> votes_for t votes = 0.
Proof.
  induction votes as [|[t' v] votes IH]; cbn; [reflexivity|]. rewrite not_elem_of_cons.
  intros [Hne Hni]. destruct (Z.eqb_spec t t'); [contradiction|auto].
Qed.

Lemma btree_incr_spec k m m' : StronglySorted Z.lt m.*1 -> btree_incr (E := unit) k m = Ok m' ->
  StronglySorted Z.lt m'.*1 /\ (forall t, t ∈ m'.*1 <-> t = k \/ t ∈ m.*1) /\
  forall t, votes_for t m' = votes_for t m + (if t =? k then 1 else 0).
Proof.
  revert m'. induction m as [|[k0 v0] m IH]; intros m' Hs; cbn [btree_incr].
  { intros [= <-]. cbn. split; [repeat constructor|]. split; [set_solver|].
    intros t. destruct (t =? k); lia. }
  cbn in Hs. apply StronglySorted_inv in Hs as [Hs Hall]. rewrite Forall_forall in Hall.
  destruct (Z.ltb_spec k k0) as [Hlt|Hge]; [|destruct (Z.eqb_spec k k0) as [->|Hne]]; intros Hm.
  - injection Hm as <-. split; [|split; [set_solver|]].
    + cbn. repeat constructor; [exact Hs|now apply Forall_forall|lia|].
      apply Forall_forall. intros x Hx. pose proof (Hall x Hx). lia.
    + intros t. cbn. destruct (Z.eqb_spec t k) as [->|]; [|lia].
      rewrite votes_for_absent by (intros Hk; pose proof (Hall k Hk); lia).
      destruct (Z.eqb_spec k k0); lia.
  - apply bind_ok in Hm as (v' & Hv & [= <-]). apply plain_inv in Hv as ->.
    split; [cbn; constructor; [exact Hs|now apply Forall_forall]|]. split; [set_solver|].
    intros t. cbn. destruct (t =? k0); lia.
  - apply bind_ok in Hm as (m'' & Hm'' & [= <-]). destruct (IH m'' Hs Hm'') as (Hs'' & Hk'' & Hv'').
    split; [|split].
    + cbn. constructor; [exact Hs''|]. apply Forall_forall. intros x Hx.
      apply Hk'' in Hx as [->|Hx]; [lia|auto].
    + intros t. cbn. rewrite !elem_of_cons, Hk''. tauto.
    + intros t. cbn. rewrite Hv''. destruct (Z.eqb_spec t k0), (Z.eqb_spec t k); lia.
Qed.

Lemma counts_incr k votes votes' times : counts votes times ->
  btree_incr (E := unit) k votes = Ok votes' -> counts votes' (k :: times).
Proof.
  intros (Hs & Hk & Hv) Hm. destruct (btree_incr_spec _ _ _ Hs Hm) as (Hs' & Hk' & Hv').
  split; [exact Hs'|]. split.
  - intros t. rewrite Hk', Hk, elem_of_cons. reflexivity.
  - intros t. now rewrite Hv', Hv, supporters_cons.
Qed.

Lemma votes_for_in votes t v : StronglySorted Z.lt votes.*1 -> (t, v) ∈ votes -> v = votes_for t votes.
Proof.
  induction votes as [|[t' v'] votes IH]; cbn; intros Hs Hin; [inversion Hin|].
  apply StronglySorted_inv in Hs as [Hs Hall]. rewrite Forall_forall in Hall.
  apply elem_of_cons in Hin as [[= -> ->]|Hin]; [now rewrite Z.eqb_refl|].
  pose proof (Hall t (list_elem_of_fmap_2 fst _ _ Hin)) as Hlt. cbn in Hlt.
  destruct (Z.eqb_spec t t'); [lia|auto].
Qed.

(** What the loop over the votes has found. *)
Definition picked (thresh tc : Z) (votes : list (Z * Z)) (st : Z * Z * bool) : Prop :=
  let '(ct, th, have) := st in
  (forall e, e ∈ votes -> e.2 < thresh) /\ ct = 0 /\ th = thresh /\ have = false \/
  (ct, th) ∈ votes /\ thresh <= th /\
  (forall e, e ∈ votes -> e.2 < th \/ e.2 = th /\ e.1 <= ct) /\ (have = true <-> tc <= th).

Lemma pick_loop thresh tc votes : StronglySorted Z.lt votes.*1 ->
  picked thresh tc votes (foldl (pick_close_time tc) (0, thresh, false) votes).
Proof.
  induction votes as [|[t v] votes IH] using rev_ind; intros Hs.
  { left. split; [intros e He; inversion He|auto]. }
  rewrite fmap_app in Hs. cbn in Hs. apply StronglySorted_app in Hs as (Hlt & Hs & _).
  specialize (IH Hs). rewrite foldl_app. cbn [foldl].
  assert (forall e, e ∈ votes -> e.1 < t) as Hbefore.
  { intros e He. apply (Hlt e.1 t); [now apply list_elem_of_fmap_2|left]. }
  destruct (foldl _ _ votes) as [[ct th] have]. unfold pick_close_time.
  destruct (Z.geb_spec v th) as [Hge|Hlow].
  - right. split; [set_solver|]. destruct IH as [(Hall & _ & -> & ->)|(Hin & Hth & Hmax & Hh)].
    + split; [lia|]. split; [|cbn; rewrite Z.geb_leb, Z.leb_le; lia]. intros e He.
      apply elem_of_app in He as [He|He%list_elem_of_singleton]; [pose proof (Hall e He); lia|subst; cbn; lia].
    + split; [lia|]. split.
      * intros e He. apply elem_of_app in He as [He|He%list_elem_of_singleton]; [|subst; cbn; lia].
        pose proof (Hmax e He). pose proof (Hbefore e He). lia.
      * rewrite orb_true_iff, Hh, Z.geb_leb, Z.leb_le. lia.
  - destruct IH as [(Hall & -> & -> & ->)|(Hin & Hth & Hmax & Hh)].
    + left. split; [|auto]. intros e He.
      apply elem_of_app in He as [He|He%list_elem_of_singleton]; [auto|subst; cbn; lia].
    + right. split; [set_solver|]. split; [lia|]. split; [|exact Hh]. intros e He.
      apply elem_of_app in He as [He|He%list_elem_of_singleton]; [auto|subst; cbn; lia].
Qed.

Lemma picked_choice thresh tc votes times ct th have : counts votes times ->
  foldl (pick_close_time tc) (0, thresh, false) votes = (ct, th, have) ->
  close_time_choice thresh tc times ct have.
Proof.
  intros (Hs & Hk & Hv) Hfold. pose proof (pick_loop thresh tc votes Hs) as Hp. rewrite Hfold in Hp.
  assert (forall t, t ∈ times -> exists e, e ∈ votes /\ e.1 = t /\ e.2 = supporters times t) as Hent.
  { intros t Ht. apply Hk in Ht. apply list_elem_of_fmap in Ht as ([t' v] & -> & Hin).
    exists (t', v). split; [exact Hin|]. split; [reflexivity|]. rewrite <- Hv. now apply votes_for_in. }
  destruct Hp as [(Hall & -> & -> & ->)|(Hin & Hth & Hmax & Hh)].
  - left. split; [|auto]. intros t Ht. destruct (Hent t Ht) as (e & He & _ & <-). auto.
  - right. rewrite (votes_for_in _ _ _ Hs Hin), Hv in *. split; [|split; [exact Hth|split; [|exact Hh]]].
    + apply Hk. apply (list_elem_of_fmap_2 fst _ _ Hin).
    + intros t Ht. destruct (Hent t Ht) as (e & He & <- & <-). apply Hmax, He.
Qed.

Lemma counts_permute votes times times' : times ≡ₚ times' -> counts votes times -> counts votes times'.
Proof.
  intros Hp (Hs & Hk & Hv). split; [exact Hs|]. split; intros t.
  - rewrite Hk, Hp. reflexivity.
  - rewrite Hv. unfold supporters. now rewrite Hp.
Qed.

(** The close times of the current peer positions, rounded. *)
Definition rounded_times (s : Mach) : list Z :=
  map (fun entry => adaptor_round_close_time (pr_close_time (proposal entry.2)) (close_resolution (cs s)))
    (map_to_list (curr_peer_positions (cs s))).

Lemma runs_lift_eq {A B} diverges (o : outcome unit A) (k : A -> Act B) s Q :
  sound o (fun _ => True) -> (forall a, o = Ok a -> runs diverges (k a) s Q) ->
  runs diverges (lift o ≫= k) s Q.
Proof.
  intros Ho Hk. apply (runs_lift _ _ _ _ (fun a => o = Ok a)); [|exact Hk]. destruct o; cbn in *; auto.
Qed.

Lemma count_close_times_counts s : runs True (count_close_times order) s
  (fun votes s' => s' = s /\ counts votes (rounded_times s)).
Proof.
  unfold count_close_times. apply runs_gets. pose (f := fun entry : NodeId * PeerPos =>
    adaptor_round_close_time (pr_close_time (proposal entry.2)) (close_resolution (cs s))).
  eapply runs_mono.
  - apply (runs_foldl_rest True (fun votes entry =>
      ct ← round_close_time_for (pr_close_time (proposal entry.2)); lift (btree_incr ct votes))
      (fun rest votes s' => s' = s /\ exists times, counts votes times /\
         map f rest ++ times ≡ₚ map f (entries order (curr_peer_positions (cs s))))).
    + apply runs_ret. split; [reflexivity|]. exists []. rewrite app_nil_r. split; [|reflexivity].
      split; [constructor|]. split; [intros t; reflexivity|reflexivity].
    + intros entry rest votes s' (-> & times & Hc & Hp). apply runs_bind.
      change (runs True (lift (btree_incr (f entry) votes)) s (fun votes s' => s' = s /\
        exists times, counts votes times /\
          map f rest ++ times ≡ₚ map f (entries order (curr_peer_positions (cs s))))).
      apply bind_ret_r, runs_lift_eq; [apply btree_incr_sound|]. intros votes' Hv. apply runs_ret.
      split; [reflexivity|]. exists (f entry :: times). split; [eapply counts_incr; eauto|].
      rewrite <- Hp. cbn. symmetry. apply Permutation_middle.
  - intros votes s' (-> & times & Hc & Hp). split; [reflexivity|].
    eapply counts_permute; [|exact Hc]. cbn in Hp. rewrite Hp. unfold rounded_times, entries.
    now rewrite order_permutes.
Qed.

(** C36: when our position's close time is brought up to date and that step
    returns: without peers, we keep our own rounded close time, and there is
    agreement on it.  With peers, the votes are their rounded close times and, when we propose, our
    own.  If no close time has the share of the votes that the avalanche state asks
    for, the zero time is adopted, without agreement.  Otherwise it is the close time with
    most votes, the latest of several, and there is agreement exactly when its votes
    reach the agreement share.  (The adaptor satisfies [ConsensusLaws].) *)
Theorem close_time_by_majority s r ct s' : result (cs s) = Some r ->
  (votes ← count_close_times order; agree_on_close_time votes) s = Ok (ct, s') ->
  let ours := adaptor_round_close_time (pr_close_time (position r)) (close_resolution (cs s)) in
  let proposing := bool_decide (mode (cs s) = Proposing) in
  let times := (if proposing then [ours] else []) ++ rounded_times s in
  let participants := cast I32 (Z.of_nat (size (curr_peer_positions (cs s))))
    + (if proposing then 1 else 0) in
  if decide (curr_peer_positions (cs s) = ∅) then ct = ours /\ have_close_time_consensus (cs s') = true
  else exists weight st thresh tc,
    get_needed_weight (E := unit) parms (close_time_avalanche_state (cs s))
      (cast I32 (converge_percent (cs s))) 0 0 = Ok (weight, st) /\
    participants_needed (E := unit) participants (cast I32 weight) = Ok thresh /\
    participants_needed (E := unit) participants (cast I32 (av_ct_consensus_pct parms)) = Ok tc /\
    close_time_choice thresh tc times ct (have_close_time_consensus (cs s')).
Proof.
  intros Hr Hrun ours proposing times participants. destruct (decide (curr_peer_positions (cs s) = ∅)) as [He|Hne].
  { refine (runs_ok True _ s (fun ct s' => ct = ours /\ have_close_time_consensus (cs s') = true) ct s' _ Hrun).
    apply runs_bind. eapply runs_mono; [apply count_close_times_counts|]. intros votes s1 (-> & _).
    unfold agree_on_close_time. apply runs_modify, runs_gets. cbn. rewrite bool_decide_eq_true_2 by exact He.
    apply runs_modify. eapply runs_result; [exact Hr|]. apply runs_gets, runs_ret. auto. }
  refine (runs_ok True _ s (fun ct s' => exists weight st thresh tc, _) ct s' _ Hrun). clear Hrun ct s'.
  apply runs_bind. eapply runs_mono; [apply count_close_times_counts|].
  intros votes s1 (-> & Hc). unfold agree_on_close_time. apply runs_modify, runs_gets. cbn.
  rewrite bool_decide_eq_false_2 by exact Hne. do 2 apply runs_gets. cbn.
  apply runs_lift_eq.
  { eapply sound_mono; [apply get_needed_weight_sound, (parms_well_formed order)|auto]. }
  intros [weight st] Hw. apply runs_bind.
  apply runs_mono with (P := fun _ s' => result (cs s') = Some r /\ mode (cs s') = mode (cs s) /\
    close_resolution (cs s') = close_resolution (cs s) /\ have_close_time_consensus (cs s') = false).
  { destruct st; [apply bind_ret_r, runs_modify|]; apply runs_ret; cbn; auto. }
  intros ? s2 (Hr2 & Hm2 & Hres2 & Hh2). apply runs_gets. rewrite Hm2. apply runs_bind.
  apply runs_mono with (P := fun vp s' => s' = s2 /\ counts vp.1 times /\ vp.2 = participants).
  { unfold times, ours, participants, proposing. case_bool_decide; cbn [app];
      [|apply runs_ret; cbn; rewrite Z.add_0_r; auto].
    eapply runs_result; [exact Hr2|]. apply runs_bind.
    change (runs True (votes0 ← lift (btree_incr (adaptor_round_close_time
      (pr_close_time (position r)) (close_resolution (cs s2))) votes);
      participants0 ← lift (plain I32 (cast I32 (Z.of_nat (size (curr_peer_positions (cs s)))) + 1));
      mret (votes0, participants0)) s2 (fun vp s' => s' = s2 /\ counts vp.1 (adaptor_round_close_time
        (pr_close_time (position r)) (close_resolution (cs s)) :: rounded_times s) /\
        vp.2 = cast I32 (Z.of_nat (size (curr_peer_positions (cs s)))) + 1)).
    apply runs_lift_eq; [apply btree_incr_sound|]. intros votes' Hv. rewrite Hres2 in Hv.
    apply runs_lift_eq; [now apply sound_plain|]. intros ps Hps. apply plain_inv in Hps as ->.
    apply runs_ret. split; [reflexivity|]. split; [eapply counts_incr; eauto|reflexivity]. }
  intros [votes' ps] s3 (-> & Hc' & Hps). cbn in Hc', Hps. subst ps.
  apply runs_lift_eq; [apply participants_needed_sound|]. intros thresh Hth.
  apply runs_lift_eq; [apply participants_needed_sound|]. intros tc Htc.
  destruct (foldl _ _ votes') as [[ct th] have] eqn:Hfold.
  pose proof (picked_choice _ _ _ _ _ _ _ Hc' Hfold) as Hch.
  destruct have; cbn [when]; [apply runs_modify|apply runs_bind, runs_ret]; apply runs_ret;
    exists weight, st, thresh, tc; repeat (split; [eassumption|]); [exact Hch|].
  now rewrite Hh2.
Qed.

(** ** The end of a round *)









End Props.

(** ** A small deployment *)

Module Mock.

(** A transaction is its number and a transaction set its own identifier; the
    clock moves by two seconds whenever it is read; ledger 7 is the network's. *)
Record ledger : Type := mkLedger { l_id : Z; l_seq : Z }.

#[export] Instance tx_sets : ConsensusTxSet (Tx := positive) (TxId := positive)
    (TxSet := gset positive) (TxSetId := gset positive) := {
  tx_id_of t := t;
  tx_exists s t := bool_decide (t ∈ s);
  tx_find s t := if decide (t ∈ s) then Some t else None;
  set_id s := s;
  tx_compare s s' := map (fun t => (t, true)) (elements (s ∖ s'))
                       ++ map (fun t => (t, false)) (elements (s' ∖ s));
  tx_insert t s := {[t]} ∪ s;
  tx_erase t s := s ∖ {[t]}
}.

#[export] Instance ledgers : ConsensusLedger (LedgerId := Z) (Ledger := ledger) := {
  ledger_id l := l_id l;
  ledger_seq l := l_seq l;
  close_time_resolution _ := from_secs 30;
  close_agree _ := true;
  close_time _ := 100;
  parent_close_time _ := 70
}.

#[export] Instance positions : PeerPosition (NodeId := Z) (LedgerId := Z) (TxSetId := gset positive)
    (PeerPos := ConsensusProposal Z Z (gset positive)) := { proposal p := p }.

Definition opening : gset positive := {[1; 2]}%positive.

#[export] Instance adaptor : ConsensusAdaptor (NodeId := Z) (LedgerId := Z) (TxSetId := gset positive)
    (TxId := positive) (Tx := positive) (TxSet := gset positive) (Ledger := ledger)
    (PeerPos := ConsensusProposal Z Z (gset positive)) (World := Z) := {
  acquire_ledger id w := (Some (mkLedger id 10), w);
  acquire_tx_set id w := (Some id, w);
  has_open_transactions w := (true, w);
  proposers_validated _ w := (0, w);
  proposers_finished _ _ w := (0, w);
  get_prev_ledger _ _ _ w := (7, w);
  on_close prev n _ w :=
    (mkResult opening (mkProposal (l_id prev) opening n n SEQ_JOIN 0) ∅ ∅ (mkTimer None 0) No 0, w);
  valid_ledger_seq w := (9, w);
  quorum_keys w := ((2, ∅), w);
  laggards _ keys w := ((0, keys), w);
  validator w := (true, w);
  have_validated w := (true, w);
  clock_now w := (Z.max 0 (Z.min w CLOCK_MAX), w + from_secs 2);
  parms := default_parms;
  next_ledger_time_resolution parent agree seq := parent;
  adaptor_round_close_time raw _ := raw;
  notify _ w := w
}.

Definition visit : forall A, list A -> list A := fun A l => l.

#[export] Instance laws : ConsensusLaws (CT := tx_sets) visit.
Proof.
  constructor.
  - reflexivity.
  - intros t s id. cbn [tx_exists tx_insert tx_id_of tx_sets]. apply eq_bool_prop_intro.
    rewrite orb_True, !bool_decide_spec. set_solver.
  - intros t s id. cbn [tx_exists tx_erase tx_sets]. apply eq_bool_prop_intro.
    rewrite andb_True, negb_True, !bool_decide_spec. set_solver.
  - intros s id t. cbn. destruct (decide (id ∈ s)); congruence.
  - intros. split; reflexivity.
  - apply default_parms_well_formed.
  - intros w. cbn. unfold CLOCK_MAX. lia.
  - intros l. cbn. lia.
  - intros l. split; vm_compute; discriminate.
Qed.

#[export] Instance stable : StableAdaptor (CA := adaptor) 7.
Proof. constructor; [reflexivity|]. intros id w l. cbn. intros [= <-]. reflexivity. Qed.

Definition propose_by (node : Z) (set : gset positive) (seq : Z) : ConsensusProposal Z Z (gset positive) :=
  mkProposal 7 set 1001 1002 seq node.

Definition other : gset positive := {[1; 3]}%positive.

(** We close the ledger, two peers agree with our set and one has another. *)
Definition disputed : list (op (NodeId := Z) (LedgerId := Z) (TxSet := gset positive)
    (Ledger := ledger) (PeerPos := ConsensusProposal Z Z (gset positive))) :=
  [StartRound 1000 7 (mkLedger 7 10) ∅ true; TimerEntry 1001;
   PeerProposal 1002 (propose_by 1 opening 0); PeerProposal 1002 (propose_by 2 opening 0);
   PeerProposal 1002 (propose_by 3 other 0)].

(** The third peer then comes round, and the round is accepted. *)
Definition agreed := disputed ++
  [TimerEntry 1003; PeerProposal 1003 (propose_by 3 opening 1); TimerEntry 1004; TimerEntry 1005].

Definition start : Machine (NodeId := Z) (LedgerId := Z) (TxSetId := gset positive)
    (TxId := positive) (Tx := positive) (TxSet := gset positive) (Ledger := ledger)
    (PeerPos := ConsensusProposal Z Z (gset positive)) (World := Z) :=
  new_machine 0 (mkLedger 0 0) 1000.
Definition after (l : list _) := match run_ops visit 2 l start with Ok (_, s) => s | _ => start end.

Definition is_ok {E A} (o : outcome E A) : bool := match o with Ok _ => true | _ => false end.

Lemma ok_of {E A} (o : outcome E A) : is_ok o = true -> exists a, o = Ok a.
Proof. destruct o; try discriminate. eauto. Qed.

Lemma some_of {A B} (f : A -> B) (o : option A) b : f <$> o = Some b -> exists a, o = Some a /\ f a = b.
Proof. destruct o; cbn; try discriminate. intros [= <-]. eauto. Qed.

Lemma after_reachable l : is_ok (run_ops visit 2 l start) = true ->
  reachable visit 0 (mkLedger 0 0) (after l).
Proof.
  intros Hok. apply (run_ops_reachable visit 0 (mkLedger 0 0) 2 l start); [constructor|].
  unfold after. destruct (ok_of _ Hok) as [[[] s] ->]. reflexivity.
Qed.

Lemma disputed_reachable : reachable visit 0 (mkLedger 0 0) (after disputed).
Proof. apply after_reachable. vm_compute. reflexivity. Qed.

Lemma agreed_reachable : reachable visit 0 (mkLedger 0 0) (after agreed).
Proof. apply after_reachable. vm_compute. reflexivity. Qed.

End Mock.

Import Mock.

Lemma operations_never_panic_witness :
  run_op visit 2 (TimerEntry 1003) (after disputed) <> Panic /\
  forall e, run_op visit 2 (TimerEntry 1003) (after disputed) <> Err e.
Proof. apply (operations_never_panic visit 0 (mkLedger 0 0)). exact disputed_reachable. Defined.

Lemma recursion_depth_two_witness :
  run_op visit 2 (StartRound 1100 8 (mkLedger 9 10) ∅ true) (after agreed) <> OutOfFuel.
Proof.
  apply (recursion_depth_two visit 0 (mkLedger 0 0) 7); [exact stable|exact agreed_reachable].
Defined.

Lemma peer_positions_current_witness : exists p, curr_peer_positions (cs (after disputed)) !! 3 = Some p /\
  pr_node_id p = 3 /\ pr_previous_ledger p = prev_ledger_id (cs (after disputed)).
Proof.
  destruct (some_of (fun _ => tt) (curr_peer_positions (cs (after disputed)) !! 3) tt) as (p & Hp & _);
    [vm_compute; reflexivity|].
  destruct (peer_positions_current visit 0 (mkLedger 0 0) (after disputed) 3 p disputed_reachable Hp)
    as (H1 & H2 & _).
  exists p. exact (conj Hp (conj H1 H2)).
Defined.

Lemma disputes_follow_our_set_witness :
  phase (cs (after disputed)) = Establish /\ is_Some (result (cs (after disputed))).
Proof.
  split; [vm_compute; reflexivity|].
  apply (disputes_follow_our_set visit 0 (mkLedger 0 0)); [exact disputed_reachable|].
  vm_compute. reflexivity.
Defined.

Lemma proposals_only_while_proposing_witness : exists p,
  log (after disputed) !! 2%nat = Some (Propose p) /\ mode_of (take 2 (log (after disputed))) = Proposing.
Proof.
  destruct (some_of (fun e => match e with Propose _ => true | _ => false end)
    (log (after disputed) !! 2%nat) true) as ([] & He & Hb); try discriminate Hb.
  - vm_compute. reflexivity.
  - exists p. split; [exact He|].
    exact (proposals_only_while_proposing visit 0 (mkLedger 0 0) (after disputed) 2 p disputed_reachable He).
Defined.

Lemma acceptance_only_decided_witness : exists r prev res raw m,
  log (after agreed) !! 6%nat = Some (OnAccept r prev res raw m) /\ state r <> No.
Proof.
  destruct (some_of (fun e => match e with OnAccept _ _ _ _ _ => true | _ => false end)
    (log (after agreed) !! 6%nat) true) as ([] & He & Hb); try discriminate Hb.
  - vm_compute. reflexivity.
  - exists r, prev, resolution, raw, m. split; [exact He|].
    exact (proj1 (acceptance_only_decided visit 0 (mkLedger 0 0) (after agreed) 6 r prev resolution raw m
      agreed_reachable He)).
Defined.

Lemma peer_proposal_newer_only_witness : exists s',
  peer_proposal visit 1003 (propose_by 3 opening 1) (after disputed) = Ok (true, s') /\
  curr_peer_positions (cs s') = <[3 := propose_by 3 opening 1]> (curr_peer_positions (cs (after disputed))).
Proof.
  destruct (peer_proposal visit 1003 (propose_by 3 opening 1) (after disputed)) as [[[] s']| | | |] eqn:Hrun;
    try (exfalso; apply (f_equal (fun o => match o with Ok (b, _) => b | _ => false end)) in Hrun;
         vm_compute in Hrun; discriminate).
  exists s'. split; [reflexivity|].
  exact (proj1 (proj2 (proj2 (proj2 (proj2 (proj2 (peer_proposal_newer_only visit 0 (mkLedger 0 0) 1003
    (propose_by 3 opening 1) (after disputed) true s' disputed_reachable Hrun))))))).
Defined.

(** What the vote on the close time comes to. *)
Lemma close_time_answer : match (votes ← count_close_times visit; agree_on_close_time votes) (after disputed) with
  | Ok (ct, s') => (ct, have_close_time_consensus (cs s')) = (1001, true)
  | _ => False
  end.
Proof. vm_compute. reflexivity. Qed.

Lemma close_time_by_majority_witness : exists s' thresh tc,
  (votes ← count_close_times visit; agree_on_close_time votes) (after disputed) = Ok (1001, s') /\
  close_time_choice thresh tc [1001; 1001; 1001; 1001] 1001 true.
Proof.
  destruct (some_of (fun r => pr_close_time (position r)) (result (cs (after disputed))) 1001)
    as (r & Hr & Hct); [vm_compute; reflexivity|]. pose proof close_time_answer as Ha.
  destruct ((votes ← count_close_times visit; agree_on_close_time votes) (after disputed)) as [[ct s']| | | |] eqn:Hrun; try contradiction.
  injection Ha as -> Hhave.
  assert (curr_peer_positions (cs (after disputed)) <> ∅) as Hne.
  { intros He. apply (f_equal size) in He. vm_compute in He. discriminate. }
  pose proof (close_time_by_majority visit (after disputed) r 1001 s' Hr Hrun) as Hmaj. cbv zeta in Hmaj.
  rewrite decide_False in Hmaj by exact Hne. destruct Hmaj as (w & st & thresh & tc & _ & _ & _ & Hc).
  exists s', thresh, tc. split; [reflexivity|].
  assert (bool_decide (mode (cs (after disputed)) = Proposing) = true) as Hm by (vm_compute; reflexivity).
  assert (rounded_times (after disputed) = [1001; 1001; 1001]) as Hts by (vm_compute; reflexivity).
  rewrite Hm, Hts, Hct, Hhave in Hc. exact Hc.
Defined.




