(* ===== verification/Serializer.v ===== *)
(** * Serializer: the binary format of protocol objects

    Models [xrpl/protocol/src/serialization/serializer.rs]: [Serializer], which
    appends integers, fixed-width strings, length-prefixed strings and field
    headers to a buffer, and [SerialIter], which reads them back.

    A byte is an integer in [0, 256), a buffer a list of bytes.  A [&mut]
    argument is returned; [len() as i32], the position each [add] returns, is
    [position_of].  A [BaseUInt] of [n] bytes is its list of bytes.  Capacities
    are not observable and are left out; the hash function of
    [get_sha512_half] is a parameter. *)

From Stdlib Require Import ZArith Lia List Bool.
From S2P Require Import Prelude.
Import ListNotations.

Definition Blob : Type := list Z.

Definition len (b : Blob) : Z := Z.of_nat (length b).

(** [v.len() as i32] *)
Definition position_of (b : Blob) : Z := cast I32 (len b).

(** [&b[from..from + n]], where the bounds have been checked. *)
Definition sub_slice (from n : nat) (b : Blob) : Blob := firstn n (skipn from b).

(** ** Integers *)

(** The implementations of [SerializerInteger]. *)
Inductive SerializerInteger : Type := S_u8 | S_u16 | S_u32 | S_i32 | S_u64 | S_i64.

Definition width_of (T : SerializerInteger) : int_type :=
  match T with
  | S_u8 => U8 | S_u16 => U16 | S_u32 => U32 | S_i32 => I32 | S_u64 => U64 | S_i64 => I64
  end.

Definition BYTES (T : SerializerInteger) : nat :=
  match T with
  | S_u8 => 1 | S_u16 => 2 | S_u32 | S_i32 => 4 | S_u64 | S_i64 => 8
  end.

(** [to_be_bytes] of an integer of [n] bytes. *)
Fixpoint to_be_bytes (n : nat) (v : Z) : Blob :=
  match n with
  | O => []
  | S k => (v / 256 ^ Z.of_nat k) mod 256 :: to_be_bytes k v
  end.

Definition be_value (bytes : Blob) : Z := fold_left (fun acc b => acc * 256 + b) bytes 0.

Definition write_be (T : SerializerInteger) (v : Z) (out : Blob) : Blob :=
  match T with
  | S_u8 => out ++ [v]
  | _ => out ++ to_be_bytes (BYTES T) v
  end.

Definition read_be {E} (T : SerializerInteger) (bytes : Blob) : outcome E Z :=
  match T with
  | S_u8 => match bytes with [] => Panic | b :: _ => Ok b end
  | _ => if Nat.eqb (length bytes) (BYTES T) then Ok (cast (width_of T) (be_value bytes)) else Panic
  end.

(** ** Serializer *)

Definition add8 (v : Z) (data : Blob) : Z * Blob := (position_of data, data ++ [v]).
Definition add16 (v : Z) (data : Blob) : Z * Blob := (position_of data, data ++ to_be_bytes 2 v).
Definition add32 (v : Z) (data : Blob) : Z * Blob := (position_of data, data ++ to_be_bytes 4 v).
Definition add64 (v : Z) (data : Blob) : Z * Blob := (position_of data, data ++ to_be_bytes 8 v).
Definition add_integer (T : SerializerInteger) (v : Z) (data : Blob) : Z * Blob :=
  (position_of data, write_be T v data).

Definition add_raw (bytes data : Blob) : Z * Blob := (position_of data, data ++ bytes).
Definition add_bit_string (value data : Blob) : Z * Blob := add_raw value data.
Definition add_raw_serializer (serializer data : Blob) : Z * Blob := add_raw serializer data.

Definition encode_length_length {E} (length : Z) : outcome E Z :=
  if length <=? 192 then Ok 1
  else if length <=? 12480 then Ok 2
  else if length <=? 918744 then Ok 3
  else Panic.

Definition add_encoded {E} (length : Z) (data : Blob) : outcome E (Z * Blob) :=
  let ret := position_of data in
  data' <-
    (if length <=? 192 then Ok (data ++ [cast U8 length])
     else if length <=? 12480 then
       let adjusted := length - 193 in
       Ok (data ++ [cast U8 (193 + Z.shiftr adjusted 8); cast U8 (Z.land adjusted 0xff)])
     else if length <=? 918744 then
       let adjusted := length - 12481 in
       Ok (data ++ [cast U8 (241 + Z.shiftr adjusted 16);
                    cast U8 (Z.land (Z.shiftr adjusted 8) 0xff); cast U8 (Z.land adjusted 0xff)])
     else Panic);;
  length_length <- encode_length_length length;;
  expected <- plain Usize (cast Usize ret + length_length);;
  if len data' =? expected then Ok (ret, data') else Panic.

Definition add_vl {E} (bytes data : Blob) : outcome E (Z * Blob) :=
  '(ret, data) <- add_encoded (len bytes) data;;
  let data := match bytes with [] => data | _ => snd (add_raw bytes data) end in
  Ok (ret, data).

Fixpoint add_chunks {E} (chunks : list Blob) (remaining : Z) (data : Blob) : outcome E (Z * Blob) :=
  match chunks with
  | [] => Ok (remaining, data)
  | bytes :: chunks =>
      let data := snd (add_raw bytes data) in
      if fits Usize (remaining - len bytes) then add_chunks chunks (remaining - len bytes) data
      else Panic
  end.

Definition add_vl_chunks {E} (chunks : list Blob) (length : Z) (data : Blob) : outcome E (Z * Blob) :=
  '(ret, data) <- add_encoded length data;;
  '(remaining, data) <- add_chunks chunks length data;;
  if remaining =? 0 then Ok (ret, data) else Panic.

Definition get8 (offset : nat) (out : Z) (data : Blob) : bool * Z :=
  match nth_error data offset with
  | Some b => (true, b)
  | None => (false, out)
  end.

Definition get_integer {E} (T : SerializerInteger) (offset : nat) (out : Z) (data : Blob)
    : outcome E (bool * Z) :=
  stop <- plain Usize (Z.of_nat offset + Z.of_nat (BYTES T));;
  if stop >? len data then Ok (false, out)
  else v <- read_be T (sub_slice offset (BYTES T) data);; Ok (true, v).

Definition get_bit_string {E} (n offset : nat) (out data : Blob) : outcome E (bool * Blob) :=
  stop <- plain Usize (Z.of_nat offset + Z.of_nat n);;
  if stop >? len data then Ok (false, out) else Ok (true, sub_slice offset n data).

Definition add_field_id (type_ name : Z) (data : Blob) : Z * Blob :=
  if negb ((1 <=? type_) && (type_ <? 256)) || negb ((1 <=? name) && (name <? 256)) then (0, data)
  else
    let ret := position_of data in
    if type_ <? 16 then
      if name <? 16 then (ret, data ++ [cast U8 (Z.lor (Z.shiftl type_ 4) name)])
      else (ret, data ++ [cast U8 (Z.shiftl type_ 4); cast U8 name])
    else if name <? 16 then (ret, data ++ [cast U8 name; cast U8 type_])
    else (ret, data ++ [0; cast U8 type_; cast U8 name]).

Definition erase (data : Blob) : Blob := [].

Definition chop (bytes : nat) (data : Blob) : bool * Blob :=
  if Nat.ltb (length data) bytes then (false, data)
  else (true, firstn (length data - bytes) data).

Definition resize (size : nat) (data : Blob) : Blob :=
  firstn size data ++ repeat 0 (size - length data).

Definition get_sha512_half (sha512 : Blob -> Blob) (data : Blob) : Blob := firstn 32 (sha512 data).

(** Lengths of variable-length strings. *)
Definition decode_length_length {E} (b1 : Z) : outcome E Z :=
  if b1 <? 0 then Panic
  else if b1 <=? 192 then Ok 1
  else if b1 <=? 240 then Ok 2
  else if b1 <=? 254 then Ok 3
  else Panic.

Definition decode_vl_length_1 {E} (b1 : Z) : outcome E Z :=
  if b1 <? 0 then Panic else if b1 >? 254 then Panic else Ok b1.

Definition decode_vl_length_2 {E} (b1 b2 : Z) : outcome E Z :=
  if b1 <? 193 then Panic else if b1 >? 240 then Panic
  else plain I32 (193 + (b1 - 193) * 256 + b2).

Definition decode_vl_length_3 {E} (b1 b2 b3 : Z) : outcome E Z :=
  if b1 <? 241 then Panic else if b1 >? 254 then Panic
  else plain I32 (12481 + (b1 - 241) * 65536 + b2 * 256 + b3).

(** ** SerialIter *)

Record SerialIter : Type := mkIter { data : Blob; used : nat }.

Definition iter_new (bytes : Blob) : SerialIter := mkIter bytes 0.
Definition iter_empty (it : SerialIter) : bool := Nat.eqb (used it) (length (data it)).
Definition iter_reset (it : SerialIter) : SerialIter := mkIter (data it) 0.

(** [self.data.len() - self.used], and its saturating form. *)
Definition bytes_left {E} (it : SerialIter) : outcome E Z :=
  plain Usize (len (data it) - Z.of_nat (used it)).
Definition saturating_left (it : SerialIter) : Z := Z.max 0 (len (data it) - Z.of_nat (used it)).

Definition get_bytes_left {E} (it : SerialIter) : outcome E Z :=
  left <- bytes_left it;; Ok (cast I32 left).

Definition advance (n : nat) (it : SerialIter) : SerialIter := mkIter (data it) (used it + n).

Definition skip {E} (n : nat) (it : SerialIter) : outcome E SerialIter :=
  left <- bytes_left it;;
  if left <? Z.of_nat n then Ok (mkIter (data it) (length (data it))) else Ok (advance n it).

Definition iter_get8 {E} (it : SerialIter) : outcome E (Z * SerialIter) :=
  if saturating_left it <? 1 then Ok (0, it)
  else match nth_error (data it) (used it) with
       | Some v => Ok (v, advance 1 it)
       | None => Panic
       end.

Definition read_integer {E} (T : SerializerInteger) (it : SerialIter) : outcome E (Z * SerialIter) :=
  if saturating_left it <? Z.of_nat (BYTES T) then
    v <- read_be T (repeat 0 (BYTES T));; Ok (v, it)
  else
    v <- read_be T (sub_slice (used it) (BYTES T) (data it));; Ok (v, advance (BYTES T) it).

Definition iter_get_bit_string (n : nat) (it : SerialIter) : Blob * SerialIter :=
  if saturating_left it <? Z.of_nat n then (repeat 0 n, it)
  else (sub_slice (used it) n (data it), advance n it).

Definition get_field_id {E} (it : SerialIter) : outcome E ((Z * Z) * SerialIter) :=
  '(b, it) <- iter_get8 it;;
  let name := Z.land b 15 in
  let type_ := Z.shiftr b 4 in
  '(type_, it) <- (if type_ =? 0 then iter_get8 it else Ok (type_, it));;
  if (Z.shiftr b 4 =? 0) && (type_ <? 16) then Ok ((-1, name), it)
  else if name =? 0 then
    '(name, it) <- iter_get8 it;;
    Ok ((type_, if name <? 16 then -1 else name), it)
  else Ok ((type_, name), it).

Definition get_vl_data_length {E} (it : SerialIter) : outcome E (Z * SerialIter) :=
  '(b1, it) <- iter_get8 it;;
  len_len <- decode_length_length b1;;
  if len_len =? 1 then
    n <- decode_vl_length_1 b1;; Ok (n, it)
  else if len_len =? 2 then
    '(b2, it) <- iter_get8 it;;
    n <- decode_vl_length_2 b1 b2;; Ok (n, it)
  else if len_len =? 3 then
    '(b2, it) <- iter_get8 it;;
    '(b3, it) <- iter_get8 it;;
    n <- decode_vl_length_3 b1 b2 b3;; Ok (n, it)
  else Panic.

Definition get_slice (n : nat) (it : SerialIter) : Blob * SerialIter :=
  if Z.of_nat n >? saturating_left it then ([], it)
  else (sub_slice (used it) n (data it), advance n it).

Definition get_raw {E} (n : nat) (it : SerialIter) : outcome E (Blob * SerialIter) :=
  left <- bytes_left it;;
  if left <? Z.of_nat n then Panic
  else Ok (sub_slice (used it) n (data it), advance n it).

Definition get_raw_buffer (n : nat) (it : SerialIter) : Blob * SerialIter :=
  if saturating_left it <? Z.of_nat n then ([], mkIter (data it) (length (data it)))
  else (sub_slice (used it) n (data it), advance n it).

Definition get_vl {E} (it : SerialIter) : outcome E (Blob * SerialIter) :=
  '(n, it) <- get_vl_data_length it;;
  get_raw (Z.to_nat (cast Usize n)) it.

Definition get_vl_buffer {E} (it : SerialIter) : outcome E (Blob * SerialIter) :=
  '(n, it) <- get_vl_data_length it;;
  Ok (get_raw_buffer (Z.to_nat (cast Usize n)) it).

(** ** Bytes *)

Definition is_byte (b : Z) : Prop := 0 <= b < 256.
Definition bytes_ok (b : Blob) : Prop := Forall is_byte b.

Lemma to_be_bytes_length n v : length (to_be_bytes n v) = n.
Proof. induction n; simpl; auto. Qed.

Lemma be_value_app bs : forall acc,
  fold_left (fun acc b => acc * 256 + b) bs acc
    = acc * 256 ^ Z.of_nat (length bs) + be_value bs.
Proof.
  unfold be_value. induction bs as [|b bs IH]; intros acc; cbn [fold_left length].
  - rewrite Z.pow_0_r. lia.
  - rewrite IH, (IH (0 * 256 + b)), Nat2Z.inj_succ, Z.pow_succ_r by lia. lia.
Qed.

Lemma be_value_cons b bs : be_value (b :: bs) = b * 256 ^ Z.of_nat (length bs) + be_value bs.
Proof. unfold be_value at 1. cbn [fold_left]. rewrite be_value_app. lia. Qed.

(** The bytes of [v] stand for [v] modulo the width. *)
Lemma be_value_to_be n v : be_value (to_be_bytes n v) = v mod 256 ^ Z.of_nat n.
Proof.
  induction n as [|k IH]; [symmetry; apply Z.mod_1_r|].
  cbn [to_be_bytes]. rewrite be_value_cons, to_be_bytes_length, IH, Nat2Z.inj_succ, Z.pow_succ_r by lia.
  set (p := 256 ^ Z.of_nat k). assert (0 < p) by (apply Z.pow_pos_nonneg; lia).
  rewrite (Z.mul_comm 256 p), Z.rem_mul_r by lia. lia.
Qed.

Lemma be_value_range bs : bytes_ok bs -> 0 <= be_value bs < 256 ^ Z.of_nat (length bs).
Proof.
  induction 1 as [|b bs [Hb1 Hb2] _ IH]; [cbn; lia|]. rewrite be_value_cons. cbn [length]. rewrite Nat2Z.inj_succ, Z.pow_succ_r by lia. nia.
Qed.

(** Bytes are those of the number they stand for. *)
Lemma to_be_bytes_add n : forall k v, (n <= k)%nat -> forall a, to_be_bytes n (a * 256 ^ Z.of_nat k + v) = to_be_bytes n v.
Proof.
  induction n as [|n IH]; intros k v Hk a; [reflexivity|]. cbn [to_be_bytes]. rewrite IH by lia. f_equal. replace (Z.of_nat k) with (Z.of_nat n + Z.succ (Z.of_nat (k - S n))) by lia.
  rewrite Z.pow_add_r, Z.pow_succ_r by lia. set (p := 256 ^ Z.of_nat n). assert (0 < p) by (apply Z.pow_pos_nonneg; lia). set (q := 256 ^ Z.of_nat (k - S n)).
  replace (a * (p * (256 * q)) + v) with (v + (a * 256 * q) * p) by lia. rewrite Z.div_add by lia. replace (a * 256 * q) with ((a * q) * 256) by lia. apply Z.mod_add. lia.
Qed.

Lemma to_be_value bs : bytes_ok bs -> to_be_bytes (length bs) (be_value bs) = bs.
Proof.
  induction 1 as [|b bs Hb Hbs IH]; [reflexivity|]. cbn [length to_be_bytes]. rewrite be_value_cons, to_be_bytes_add, IH by lia. f_equal. pose proof (be_value_range bs Hbs) as Hr.
  set (p := 256 ^ Z.of_nat (length bs)) in *. rewrite Z.add_comm, Z.div_add by lia. rewrite (Z.div_small (be_value bs)) by lia. apply Z.mod_small. exact Hb.
Qed.

Lemma modulus_of_bytes T : 256 ^ Z.of_nat (BYTES T) = max_of (width_of T) - min_of (width_of T) + 1.
Proof. destruct T; reflexivity. Qed.

Lemma cast_mod w z m : m = max_of w - min_of w + 1 -> cast w (z mod m) = cast w z.
Proof.
  intros ->. unfold cast. set (m := max_of w - min_of w + 1).
  rewrite (Zminus_mod (z mod m)), Z.mod_mod, <- Zminus_mod by (destruct w; cbn; lia). reflexivity.
Qed.

Lemma write_be_app T v out : write_be T v out = out ++ write_be T v [].
Proof. destruct T; reflexivity. Qed.

Lemma write_be_length T v : length (write_be T v []) = BYTES T.
Proof. destruct T; reflexivity. Qed.

Lemma read_write_be {E} T v : fits (width_of T) v = true -> read_be (E := E) T (write_be T v []) = Ok v.
Proof.
  intros Hv. apply fits_true in Hv.
  destruct (Nat.eq_dec (BYTES T) 1) as [H1|H1]; [destruct T; try discriminate; reflexivity|].
  assert (write_be T v [] = to_be_bytes (BYTES T) v) as -> by (destruct T; try reflexivity; now destruct H1).
  assert (read_be (E := E) T (to_be_bytes (BYTES T) v)
    = Ok (cast (width_of T) (be_value (to_be_bytes (BYTES T) v)))) as ->
    by (destruct T; try reflexivity; now destruct H1).
  rewrite be_value_to_be, cast_mod by apply modulus_of_bytes. now rewrite cast_id.
Qed.

(** ** Reading what was written *)

(** An iterator at the end of [pre], before [rest]. *)
Definition at_end (pre rest : Blob) : SerialIter := mkIter (pre ++ rest) (length pre).

Lemma sub_slice_at pre bs rest : sub_slice (length pre) (length bs) (pre ++ bs ++ rest) = bs.
Proof.
  unfold sub_slice. rewrite skipn_app, skipn_all, Nat.sub_diag. cbn [skipn app].
  rewrite firstn_app, firstn_all, Nat.sub_diag, app_nil_r. reflexivity.
Qed.

Lemma left_at pre rest : saturating_left (at_end pre rest) = Z.of_nat (length rest).
Proof. unfold saturating_left, at_end, len. cbn [data used]. rewrite length_app. lia. Qed.

Lemma advance_at pre bs rest : advance (length bs) (at_end pre (bs ++ rest)) = at_end (pre ++ bs) rest.
Proof. unfold advance, at_end. cbn [data used]. now rewrite length_app, app_assoc. Qed.

Lemma enough_left pre bs rest n : n = length bs ->
  (saturating_left (at_end pre (bs ++ rest)) <? Z.of_nat n) = false.
Proof. intros ->. rewrite left_at, length_app. apply Z.ltb_ge. lia. Qed.

Lemma iter_get8_at {E} pre b rest :
  iter_get8 (E := E) (at_end pre (b :: rest)) = Ok (b, at_end (pre ++ [b]) rest).
Proof.
  unfold iter_get8. rewrite left_at. cbn [length data used at_end].
  assert ((Z.of_nat (S (length rest)) <? 1) = false) as -> by (apply Z.ltb_ge; lia).
  rewrite nth_error_app2, Nat.sub_diag by lia. cbn [nth_error].
  change (b :: rest) with ([b] ++ rest). change 1%nat with (length [b]). now rewrite advance_at.
Qed.

Lemma read_integer_at {E} T v pre rest : fits (width_of T) v = true ->
  read_integer (E := E) T (at_end pre (write_be T v [] ++ rest))
    = Ok (v, at_end (pre ++ write_be T v []) rest).
Proof.
  intros Hv. unfold read_integer. rewrite enough_left by (symmetry; apply write_be_length).
  cbn [data used at_end]. rewrite <- (write_be_length T v) at 1.
  rewrite sub_slice_at, read_write_be by exact Hv. cbn [bind].
  now rewrite <- (advance_at pre (write_be T v []) rest), write_be_length.
Qed.

Lemma get_bit_string_at bs pre rest :
  iter_get_bit_string (length bs) (at_end pre (bs ++ rest)) = (bs, at_end (pre ++ bs) rest).
Proof.
  unfold iter_get_bit_string. rewrite enough_left by reflexivity. cbn [data used at_end].
  now rewrite sub_slice_at, advance_at.
Qed.

Lemma get_raw_at {E} bs pre rest : len (pre ++ bs ++ rest) <= max_of Usize ->
  get_raw (E := E) (length bs) (at_end pre (bs ++ rest)) = Ok (bs, at_end (pre ++ bs) rest).
Proof.
  intros Hlen. unfold get_raw, bytes_left. cbn [data used at_end].
  unfold len in *. rewrite !length_app in *.
  rewrite plain_ok by (cbn in *; lia). cbn [bind].
  assert ((Z.of_nat (length pre + (length bs + length rest)) - Z.of_nat (length pre)
    <? Z.of_nat (length bs)) = false) as -> by (apply Z.ltb_ge; lia).
  now rewrite sub_slice_at, advance_at.
Qed.

(** ** Length prefixes *)

Definition length_prefix (n : Z) : Blob :=
  if n <=? 192 then [n]
  else if n <=? 12480 then [193 + (n - 193) / 256; (n - 193) mod 256]
  else [241 + (n - 12481) / 65536; (n - 12481) / 256 mod 256; (n - 12481) mod 256].

Lemma byte_cast z : 0 <= z < 256 -> cast U8 z = z.
Proof. intros Hz. apply cast_id. cbn. lia. Qed.

Lemma land_byte z : Z.land z 0xff = z mod 256.
Proof. exact (land_low z 8 ltac:(lia)). Qed.

Lemma div_bound a b c : 0 < b -> 0 <= a < b * c -> 0 <= a / b < c.
Proof. intros Hb Ha. split; [apply Z.div_pos; lia|apply Z.div_lt_upper_bound; lia]. Qed.

Lemma length_prefix_cases n : 0 <= n <= 918744 ->
  match length_prefix n with
  | [b1] => n = b1 /\ 0 <= b1 <= 192
  | [b1; b2] => n = 193 + (b1 - 193) * 256 + b2 /\ 193 <= b1 <= 240 /\ is_byte b2
  | [b1; b2; b3] => n = 12481 + (b1 - 241) * 65536 + b2 * 256 + b3 /\ 241 <= b1 <= 254 /\
                    is_byte b2 /\ is_byte b3
  | _ => False
  end.
Proof.
  intros Hn. unfold length_prefix, is_byte. destruct (Z.leb_spec n 192); [lia|].
  destruct (Z.leb_spec n 12480).
  - pose proof (div_bound (n - 193) 256 48 ltac:(lia) ltac:(lia)).
    pose proof (Z.div_mod (n - 193) 256 ltac:(lia)). pose proof (Z.mod_pos_bound (n - 193) 256 ltac:(lia)).
    lia.
  - set (a := n - 12481). pose proof (div_bound a 65536 14 ltac:(lia) ltac:(lia)) as H1.
    pose proof (Z.div_mod a 256 ltac:(lia)). pose proof (Z.mod_pos_bound a 256 ltac:(lia)).
    pose proof (Z.div_mod (a / 256) 256 ltac:(lia)). pose proof (Z.mod_pos_bound (a / 256) 256 ltac:(lia)).
    rewrite Z.div_div in * by lia. change (256 * 256) with 65536 in *. lia.
Qed.

Lemma position_small b : len b < 2 ^ 31 -> position_of b = len b.
Proof. intros H. apply cast_id. unfold len in *. cbn in *. lia. Qed.

Lemma add_encoded_ok {E} n b : 0 <= n <= 918744 -> len b < 2 ^ 31 ->
  add_encoded (E := E) n b = Ok (len b, b ++ length_prefix n).
Proof.
  intros Hn Hb. unfold add_encoded. rewrite position_small by exact Hb.
  pose proof (length_prefix_cases n Hn) as Hp. unfold length_prefix, encode_length_length in *.
  assert (forall k, 0 <= k <= 3 -> plain (E := E) Usize (cast Usize (len b) + k) = Ok (len b + k)) as Hpl.
  { intros k Hk. rewrite cast_id by (unfold len in *; cbn in *; lia).
    apply plain_ok. unfold len in *. cbn in *. lia. }
  assert (forall x y, len (b ++ x) = len b + y <-> len x = y) as Hlen
    by (intros; unfold len; rewrite length_app; lia).
  unfold is_byte in *.
  destruct (Z.leb_spec n 192); [|destruct (Z.leb_spec n 12480); [|destruct (Z.leb_spec n 918744); [|lia]]];
    cbn [bind]; rewrite Hpl by lia; cbn [bind];
    rewrite ?Z.shiftr_div_pow2, ?land_byte by lia; change (2 ^ 8) with 256; change (2 ^ 16) with 65536;
    rewrite !byte_cast by lia;
    (rewrite (proj2 (Z.eqb_eq _ _)); [reflexivity|apply Hlen; reflexivity]).
Qed.

Lemma get_vl_length_at {E} n pre rest : 0 <= n <= 918744 ->
  get_vl_data_length (E := E) (at_end pre (length_prefix n ++ rest))
    = Ok (n, at_end (pre ++ length_prefix n) rest).
Proof.
  intros Hn. pose proof (length_prefix_cases n Hn) as Hp. unfold get_vl_data_length, is_byte in *.
  destruct (length_prefix n) as [|b1 [|b2 [|b3 [|? ?]]]]; try contradiction; cbn [app];
    rewrite iter_get8_at; cbn [bind]; unfold decode_length_length.
  - assert ((b1 <? 0) = false /\ (b1 <=? 192) = true /\ (b1 >? 254) = false) as (E1 & E2 & E3) by lia.
    rewrite E1, E2. cbn [bind Z.eqb Pos.eqb]. unfold decode_vl_length_1. rewrite E1, E3. cbn [bind].
    now destruct Hp as [-> _].
  - assert ((b1 <? 0) = false /\ (b1 <=? 192) = false /\ (b1 <=? 240) = true /\ (b1 <? 193) = false /\
      (b1 >? 240) = false) as (E1 & E2 & E3 & E4 & E5) by lia.
    rewrite E1, E2, E3. cbn [bind Z.eqb Pos.eqb]. rewrite iter_get8_at. cbn [bind].
    unfold decode_vl_length_2. rewrite E4, E5, plain_ok by (cbn [min_of max_of]; lia). cbn [bind].
    destruct Hp as [-> _]. now rewrite <- app_assoc.
  - assert ((b1 <? 0) = false /\ (b1 <=? 192) = false /\ (b1 <=? 240) = false /\ (b1 <=? 254) = true /\
      (b1 <? 241) = false /\ (b1 >? 254) = false) as (E1 & E2 & E3 & E4 & E5 & E6) by lia.
    rewrite E1, E2, E3, E4. cbn [bind Z.eqb Pos.eqb]. rewrite iter_get8_at. cbn [bind].
    rewrite iter_get8_at. cbn [bind].
    unfold decode_vl_length_3. rewrite E5, E6, plain_ok by (cbn [min_of max_of]; lia). cbn [bind].
    destruct Hp as [-> _]. now rewrite <- !app_assoc.
Qed.

Lemma add_vl_ok {E} bs b : len bs <= 918744 -> len b < 2 ^ 31 ->
  add_vl (E := E) bs b = Ok (len b, b ++ length_prefix (len bs) ++ bs).
Proof.
  intros Hbs Hb. unfold add_vl. rewrite add_encoded_ok by (unfold len in *; lia). cbn [bind].
  destruct bs; [now rewrite app_nil_r|]. cbn [add_raw snd]. now rewrite app_assoc.
Qed.

Lemma get_vl_at {E} bs pre rest : len bs <= 918744 ->
  len (pre ++ length_prefix (len bs) ++ bs ++ rest) <= max_of Usize ->
  get_vl (E := E) (at_end pre ((length_prefix (len bs) ++ bs) ++ rest))
    = Ok (bs, at_end (pre ++ length_prefix (len bs) ++ bs) rest).
Proof.
  intros Hbs Hlen. unfold get_vl. rewrite <- app_assoc, get_vl_length_at by (unfold len in *; lia).
  cbn [bind]. rewrite cast_id by (unfold len in *; cbn; lia).
  assert (Z.to_nat (len bs) = length bs) as -> by (unfold len; lia).
  rewrite get_raw_at; [now rewrite <- app_assoc|].
  now rewrite <- app_assoc.
Qed.

(** ** Field headers *)

Definition field_bytes (type_ name : Z) : Blob := snd (add_field_id type_ name []).

Lemma field_id_app t n b : 1 <= t < 256 -> 1 <= n < 256 ->
  add_field_id t n b = (position_of b, b ++ field_bytes t n).
Proof.
  intros Ht Hn. unfold field_bytes, add_field_id.
  assert (negb ((1 <=? t) && (t <? 256)) || negb ((1 <=? n) && (n <? 256)) = false) as ->
    by (destruct (Z.leb_spec 1 t), (Z.ltb_spec t 256), (Z.leb_spec 1 n), (Z.ltb_spec n 256); cbn; lia).
  destruct (t <? 16), (n <? 16); reflexivity.
Qed.

Lemma nibbles t n : 1 <= t < 16 -> 0 <= n < 16 ->
  let b := Z.lor (Z.shiftl t 4) n in is_byte b /\ Z.shiftr b 4 = t /\ Z.land b 15 = n.
Proof.
  intros Ht Hn b. subst b. rewrite Z.shiftl_mul_pow2, Z.lor_comm, lor_add_high by lia.
  rewrite Z.shiftr_div_pow2 by lia. change 15 with (2 ^ 4 - 1). rewrite land_low by lia.
  change (2 ^ 4) with 16. split; [unfold is_byte; lia|].
  rewrite Z.div_add, Z.mod_add, Z.div_small, Z.mod_small by lia. lia.
Qed.

Lemma low_nibble n : 0 <= n < 16 -> Z.shiftr n 4 = 0 /\ Z.land n 15 = n.
Proof.
  intros Hn. rewrite Z.shiftr_div_pow2 by lia. change 15 with (2 ^ 4 - 1). rewrite land_low by lia.
  change (2 ^ 4) with 16. now rewrite Z.div_small, Z.mod_small by lia.
Qed.

Lemma get_field_id_at {E} t n pre rest : 1 <= t < 256 -> 1 <= n < 256 ->
  get_field_id (E := E) (at_end pre (field_bytes t n ++ rest))
    = Ok ((t, n), at_end (pre ++ field_bytes t n) rest).
Proof.
  intros Ht Hn. unfold field_bytes, add_field_id.
  assert (negb ((1 <=? t) && (t <? 256)) || negb ((1 <=? n) && (n <? 256)) = false) as ->
    by (destruct (Z.leb_spec 1 t), (Z.ltb_spec t 256), (Z.leb_spec 1 n), (Z.ltb_spec n 256); cbn; lia).
  assert (Z.shiftl t 4 = Z.lor (Z.shiftl t 4) 0) as Hz by now rewrite Z.lor_0_r.
  unfold get_field_id.
  destruct (Z.ltb_spec t 16), (Z.ltb_spec n 16); cbn [snd app]; rewrite iter_get8_at; cbn [bind].
  - destruct (nibbles t n ltac:(lia) ltac:(lia)) as (Hb & H1 & H2). rewrite byte_cast by exact Hb.
    rewrite H1, H2. assert ((t =? 0) = false /\ (n =? 0) = false) as [-> ->] by lia. reflexivity.
  - rewrite Hz. destruct (nibbles t 0 ltac:(lia) ltac:(lia)) as (Hb & H1 & H2).
    rewrite (byte_cast _ Hb), H1, H2, byte_cast by lia.
    assert ((t =? 0) = false /\ (n <? 16) = false) as [E1 E2] by lia. rewrite E1. cbn [bind andb Z.eqb].
    rewrite iter_get8_at. cbn [bind]. now rewrite E2, <- app_assoc.
  - destruct (low_nibble n ltac:(lia)) as [H1 H2]. rewrite !byte_cast, H1, H2 by lia. cbn [Z.eqb].
    rewrite iter_get8_at. cbn [bind andb].
    assert ((t <? 16) = false /\ (n =? 0) = false) as [-> ->] by lia. now rewrite <- app_assoc.
  - rewrite !byte_cast by lia. change (Z.shiftr 0 4) with 0. change (Z.land 0 15) with 0.
    cbn [Z.eqb]. rewrite iter_get8_at. cbn [bind andb]. assert ((t <? 16) = false /\ (n <? 16) = false) as [E1 E2] by lia. rewrite E1.
    rewrite iter_get8_at. cbn [bind]. now rewrite E2, <- !app_assoc.
Qed.

(** ** Sequences of values *)

Inductive item : Type :=
| Int (T : SerializerInteger) (v : Z)
| Bits (bytes : Blob)
| VL (bytes : Blob)
| Field (type_ name : Z).

Inductive kind : Type := KInt (T : SerializerInteger) | KBits (n : nat) | KVL | KField.

Definition kind_of (i : item) : kind :=
  match i with
  | Int T _ => KInt T
  | Bits bytes => KBits (length bytes)
  | VL _ => KVL
  | Field _ _ => KField
  end.

Definition item_ok (i : item) : Prop :=
  match i with
  | Int T v => fits (width_of T) v = true
  | Bits _ => True
  | VL bytes => len bytes <= 918744
  | Field t n => 1 <= t < 256 /\ 1 <= n < 256
  end.

(** An upper bound for the bytes of an item. *)
Definition item_size (i : item) : Z :=
  match i with
  | Int _ _ => 8
  | Bits bytes => len bytes
  | VL bytes => len bytes + 3
  | Field _ _ => 3
  end.

Definition put_item {E} (i : item) (b : Blob) : outcome E Blob :=
  match i with
  | Int T v => Ok (snd (add_integer T v b))
  | Bits bytes => Ok (snd (add_bit_string bytes b))
  | VL bytes => '(_, b) <- add_vl bytes b;; Ok b
  | Field t n => Ok (snd (add_field_id t n b))
  end.

Definition get_item {E} (k : kind) (it : SerialIter) : outcome E (item * SerialIter) :=
  match k with
  | KInt T => '(v, it) <- read_integer T it;; Ok (Int T v, it)
  | KBits n => let '(bytes, it) := iter_get_bit_string n it in Ok (Bits bytes, it)
  | KVL => '(bytes, it) <- get_vl it;; Ok (VL bytes, it)
  | KField => '(tn, it) <- get_field_id it;; Ok (Field (fst tn) (snd tn), it)
  end.

Fixpoint put_items {E} (l : list item) (b : Blob) : outcome E Blob :=
  match l with
  | [] => Ok b
  | i :: l => b <- put_item i b;; put_items l b
  end.

Fixpoint get_items {E} (l : list kind) (it : SerialIter) : outcome E (list item * SerialIter) :=
  match l with
  | [] => Ok ([], it)
  | k :: l =>
      '(i, it) <- get_item k it;;
      '(items, it) <- get_items l it;;
      Ok (i :: items, it)
  end.

Fixpoint total_size (l : list item) : Z :=
  match l with [] => 0 | i :: l => item_size i + total_size l end.

Definition item_bytes (i : item) : Blob :=
  match i with
  | Int T v => write_be T v []
  | Bits bytes => bytes
  | VL bytes => length_prefix (len bytes) ++ bytes
  | Field t n => field_bytes t n
  end.

Lemma put_item_ok {E} i b : item_ok i -> len b < 2 ^ 31 -> put_item (E := E) i b = Ok (b ++ item_bytes i).
Proof.
  intros Hi Hb. destruct i; cbn [put_item item_bytes item_ok] in *.
  - cbn [add_integer snd]. now rewrite write_be_app.
  - reflexivity.
  - now rewrite add_vl_ok.
  - now rewrite field_id_app.
Qed.

Lemma get_item_at {E} i pre rest : item_ok i -> len (pre ++ item_bytes i ++ rest) <= max_of Usize ->
  get_item (E := E) (kind_of i) (at_end pre (item_bytes i ++ rest))
    = Ok (i, at_end (pre ++ item_bytes i) rest).
Proof.
  intros Hi Hlen. destruct i; cbn [get_item kind_of item_bytes item_ok] in *.
  - now rewrite read_integer_at.
  - now rewrite get_bit_string_at.
  - rewrite get_vl_at; [reflexivity|exact Hi|]. now rewrite <- app_assoc in Hlen.
  - now rewrite get_field_id_at.
Qed.

Lemma item_bytes_size i : item_ok i -> len (item_bytes i) <= item_size i.
Proof.
  destruct i as [T v|bs|bs|t n]; cbn [item_ok item_bytes item_size]; intros Hi.
  - unfold len. rewrite write_be_length. destruct T; cbn; lia.
  - lia.
  - unfold len at 1. rewrite length_app.
    assert (length (length_prefix (len bs)) <= 3)%nat; [|unfold len in *; lia].
    unfold length_prefix. destruct (len bs <=? 192), (len bs <=? 12480); cbn; lia.
  - unfold field_bytes, add_field_id.
    destruct (_ || _), (t <? 16), (n <? 16); unfold len; cbn; lia.
Qed.

Lemma put_items_ok {E} l : forall b, Forall item_ok l -> len b + total_size l < 2 ^ 31 ->
  put_items (E := E) l b = Ok (b ++ concat (map item_bytes l)).
Proof.
  induction l as [|i l IH]; intros b Hl Hb; cbn [put_items map concat total_size] in *.
  - now rewrite app_nil_r.
  - inversion Hl; subst. pose proof (item_bytes_size i H1) as Hs.
    assert (forall l, 0 <= total_size l) as Hpos.
    { clear. induction l as [|[] l IH]; cbn [total_size item_size]; unfold len; lia. }
    pose proof (Hpos l). assert (0 <= len (item_bytes i)) by (unfold len; lia).
    rewrite put_item_ok by (auto; lia). cbn [bind].
    rewrite IH; [now rewrite <- app_assoc|assumption|]. unfold len in *. rewrite length_app. lia.
Qed.

Lemma get_items_at {E} l : forall pre, Forall item_ok l ->
  len (pre ++ concat (map item_bytes l)) <= max_of Usize ->
  get_items (E := E) (map kind_of l) (at_end pre (concat (map item_bytes l)))
    = Ok (l, at_end (pre ++ concat (map item_bytes l)) []).
Proof.
  induction l as [|i l IH]; intros pre Hl Hlen; cbn [get_items map concat] in *.
  - now rewrite app_nil_r.
  - inversion Hl; subst. rewrite get_item_at by assumption. cbn [bind].
    rewrite IH; [cbn [bind]; now rewrite <- app_assoc|assumption|now rewrite <- app_assoc].
Qed.

Lemma concat_size l : Forall item_ok l -> len (concat (map item_bytes l)) <= total_size l.
Proof.
  induction 1 as [|i l Hi Hl IH]; cbn [map concat total_size]; [unfold len; cbn; lia|].
  pose proof (item_bytes_size i Hi). unfold len in *. rewrite length_app. lia.
Qed.

(** C23: What the serializer writes the iterator reads back.  For any sequence of
    integers of the six widths, fixed-width strings, length-prefixed strings of
    up to 918744 bytes and field headers, with fewer than 2^31 bytes in total,
    writing succeeds, and reading values of the same kinds from the bytes
    returns exactly the sequence and consumes everything. *)
Theorem serial_roundtrip {E} l : Forall item_ok l -> total_size l < 2 ^ 31 ->
  exists bytes it, put_items (E := E) l [] = Ok bytes /\
    get_items (E := E) (map kind_of l) (iter_new bytes) = Ok (l, it) /\ iter_empty it = true.
Proof.
  intros Hl Hsize. exists (concat (map item_bytes l)), (at_end (concat (map item_bytes l)) []).
  split; [now rewrite put_items_ok|]. split.
  - change (iter_new (concat (map item_bytes l))) with (at_end [] (concat (map item_bytes l))).
    rewrite get_items_at; [reflexivity|assumption|]. pose proof (concat_size l Hl).
    cbn [app max_of]. lia.
  - unfold iter_empty, at_end. cbn. rewrite app_nil_r. apply Nat.eqb_refl.
Qed.

Lemma serial_roundtrip_witness : exists bytes it,
  let l := [Field 8 1; VL (repeat 7 300); Field 16 20; Int S_i32 (-5); Bits [1; 2; 3]; Int S_u64 (2 ^ 40)] in
  put_items (E := unit) l [] = Ok bytes /\
  get_items (E := unit) (map kind_of l) (iter_new bytes) = Ok (l, it) /\ iter_empty it = true.
Proof.
  apply serial_roundtrip; [|vm_compute; reflexivity].
  repeat constructor; cbn; try (vm_compute; (reflexivity || discriminate)); lia.
Defined.

(** ** Reading any bytes *)

Lemma iter_get8_end {E} pre : iter_get8 (E := E) (at_end pre []) = Ok (0, at_end pre []).
Proof. unfold iter_get8. now rewrite left_at. Qed.

(** Reading a byte wherever the iterator stands. *)
Lemma iter_get8_any {E} pre rest : iter_get8 (E := E) (at_end pre rest)
  = Ok (nth 0 rest 0, at_end (pre ++ firstn 1 rest) (skipn 1 rest)).
Proof.
  destruct rest as [|b rest]; [cbn; rewrite app_nil_r; apply iter_get8_end|].
  rewrite iter_get8_at. reflexivity.
Qed.

Lemma nth_byte rest k : bytes_ok rest -> is_byte (nth k rest 0).
Proof.
  intros Hb. destruct (nth_in_or_default k rest 0) as [Hin| ->]; [|unfold is_byte; lia].
  unfold bytes_ok in Hb. rewrite Forall_forall in Hb. auto.
Qed.

Lemma byte_nibbles b : is_byte b -> b = Z.shiftr b 4 * 16 + Z.land b 15 /\
  0 <= Z.shiftr b 4 < 16 /\ 0 <= Z.land b 15 < 16.
Proof.
  intros Hb. unfold is_byte in Hb. rewrite Z.shiftr_div_pow2 by lia.
  change 15 with (2 ^ 4 - 1). rewrite land_low by lia. change (2 ^ 4) with 16.
  pose proof (Z.div_mod b 16 ltac:(lia)). pose proof (Z.mod_pos_bound b 16 ltac:(lia)).
  pose proof (div_bound b 16 16 ltac:(lia) ltac:(lia)). lia.
Qed.

Lemma field_bytes_cases t n : 1 <= t < 256 -> 1 <= n < 256 ->
  field_bytes t n = if t <? 16 then if n <? 16 then [t * 16 + n] else [t * 16; n]
                    else if n <? 16 then [n; t] else [0; t; n].
Proof.
  intros Ht Hn. unfold field_bytes, add_field_id.
  assert (negb ((1 <=? t) && (t <? 256)) || negb ((1 <=? n) && (n <? 256)) = false) as ->
    by (destruct (Z.leb_spec 1 t), (Z.ltb_spec t 256), (Z.leb_spec 1 n), (Z.ltb_spec n 256); cbn; lia).
  destruct (Z.ltb_spec t 16), (Z.ltb_spec n 16); cbn [snd app]; rewrite ?(byte_cast t), ?(byte_cast n) by lia;
    try reflexivity; f_equal.
  - rewrite Z.shiftl_mul_pow2, Z.lor_comm, lor_add_high by lia. change (2 ^ 4) with 16.
    rewrite byte_cast by lia. lia.
  - rewrite Z.shiftl_mul_pow2 by lia. change (2 ^ 4) with 16. apply byte_cast. lia.
Qed.

(** Field headers have one encoding.  Reading a header anywhere in any bytes
    either reports an invalid type or name, or yields a type and a name in
    range whose encoding by the serializer is exactly the bytes consumed: over-long
    encodings and truncated headers are never accepted. *)
Theorem field_id_canonical {E} pre rest t n it : bytes_ok rest ->
  get_field_id (E := E) (at_end pre rest) = Ok ((t, n), it) ->
  t = -1 \/ n = -1 \/
  1 <= t < 256 /\ 1 <= n < 256 /\
  exists rest', rest = snd (add_field_id t n []) ++ rest' /\
                it = at_end (pre ++ snd (add_field_id t n [])) rest'.
Proof.
  intros Hb. unfold get_field_id. fold (field_bytes t n).
  destruct rest as [|b1 r1].
  { rewrite iter_get8_end. cbn [bind]. change (Z.shiftr 0 4) with 0. cbn [Z.eqb].
    rewrite iter_get8_end. cbn. intros [= <- <- <-]. auto. }
  rewrite iter_get8_at. cbn [bind]. inversion Hb as [|? ? Hb1 Hr1]; subst.
  destruct (byte_nibbles b1 Hb1) as (Hsum & Hhi & Hlo).
  revert Hsum Hhi Hlo. generalize (Z.shiftr b1 4) (Z.land b1 15). intros hi lo -> Hhi Hlo.
  assert (forall tail r, field_bytes t n = (hi * 16 + lo) :: tail -> r1 = tail ++ r ->
    it = at_end ((pre ++ [hi * 16 + lo]) ++ tail) r -> exists rest',
    (hi * 16 + lo) :: r1 = field_bytes t n ++ rest' /\ it = at_end (pre ++ field_bytes t n) rest') as Hdone.
  { intros tail r -> -> ->. exists r. split; [reflexivity|]. now rewrite <- app_assoc. }
  destruct (Z.eqb_spec hi 0) as [->|Hhi0]; cbn [bind andb].
  - destruct r1 as [|b2 r2].
    { rewrite iter_get8_end. cbn. intros [= <- <- <-]. auto. }
    rewrite iter_get8_at. cbn [bind]. inversion Hr1 as [|? ? Hb2 Hr2]; subst. unfold is_byte in *.
    destruct (Z.ltb_spec b2 16) as [|Ht16]; [intros [= <- <- <-]; auto|].
    destruct (Z.eqb_spec lo 0) as [->|Hlo0].
    + destruct r2 as [|b3 r3]; [rewrite iter_get8_end; cbn; intros [= <- <- <-]; auto|].
      rewrite iter_get8_at. cbn [bind]. inversion Hr2 as [|? ? Hb3 Hr3]; subst. unfold is_byte in *.
      destruct (Z.ltb_spec b3 16) as [|Hn16]; intros [= <- <- <-]; [auto|]. right. right.
      split; [lia|]. split; [lia|]. apply (Hdone [b2; b3] r3); [|reflexivity|now rewrite <- !app_assoc].
      rewrite field_bytes_cases by lia. now rewrite (proj2 (Z.ltb_ge b2 16)), (proj2 (Z.ltb_ge b3 16)) by lia.
    + intros [= <- <- <-]. right. right. split; [lia|]. split; [lia|].
      apply (Hdone [b2] r2); [|reflexivity|reflexivity].
      rewrite field_bytes_cases by lia.
      now rewrite (proj2 (Z.ltb_ge b2 16)), (proj2 (Z.ltb_lt lo 16)) by lia.
  - destruct (Z.eqb_spec lo 0) as [->|Hlo0].
    + destruct r1 as [|b2 r2]; [rewrite iter_get8_end; cbn; intros [= <- <- <-]; auto|].
      rewrite iter_get8_at. cbn [bind]. inversion Hr1 as [|? ? Hb2 Hr2]; subst. unfold is_byte in *.
      destruct (Z.ltb_spec b2 16) as [|Hn16]; intros [= <- <- <-]; [auto|]. right. right.
      split; [lia|]. split; [lia|]. apply (Hdone [b2] r2); [|reflexivity|reflexivity].
      rewrite field_bytes_cases by lia.
      rewrite (proj2 (Z.ltb_lt hi 16)), (proj2 (Z.ltb_ge b2 16)) by lia. f_equal. lia.
    + intros [= <- <- <-]. right. right. split; [lia|]. split; [lia|].
      apply (Hdone [] r1); [|reflexivity|now rewrite app_nil_r].
      rewrite field_bytes_cases by lia. now rewrite (proj2 (Z.ltb_lt hi 16)), (proj2 (Z.ltb_lt lo 16)) by lia.
Qed.

Lemma field_id_canonical_witness : exists it,
  get_field_id (E := unit) (at_end [9] [0; 16; 200; 5]) = Ok ((16, 200), it) /\
  exists rest', [0; 16; 200; 5] = snd (add_field_id 16 200 []) ++ rest'.
Proof.
  exists (at_end [9; 0; 16; 200] [5]). split; [reflexivity|].
  destruct (field_id_canonical (E := unit) [9] [0; 16; 200; 5] 16 200 (at_end [9; 0; 16; 200] [5]))
    as [H|[H|(_ & _ & rest' & H & _)]]; try discriminate.
  - repeat constructor; lia.
  - reflexivity.
  - exists rest'. exact H.
Defined.

(** The length and the size of the prefix that [rest] starts with, missing bytes
    being zero. *)
Definition vl_header (rest : Blob) : Z * nat :=
  let b1 := nth 0 rest 0 in let b2 := nth 1 rest 0 in let b3 := nth 2 rest 0 in
  if b1 <=? 192 then (b1, 1%nat)
  else if b1 <=? 240 then (193 + (b1 - 193) * 256 + b2, 2%nat)
  else (12481 + (b1 - 241) * 65536 + b2 * 256 + b3, 3%nat).

Lemma split_more pre k j rest : at_end ((pre ++ firstn k rest) ++ firstn j (skipn k rest)) (skipn j (skipn k rest))
  = at_end (pre ++ firstn (k + j) rest) (skipn (k + j) rest).
Proof.
  rewrite skipn_skipn, <- app_assoc, (Nat.add_comm j k). do 2 f_equal.
  rewrite <- (firstn_skipn k rest) at 3. rewrite firstn_app, firstn_firstn, length_firstn.
  rewrite Nat.min_r by lia. destruct (Nat.le_gt_cases k (length rest)).
  - rewrite Nat.min_l by lia. now replace (k + j - k)%nat with j by lia.
  - rewrite skipn_all2 by lia. now rewrite !firstn_nil.
Qed.

Lemma nth_skipn k j (rest : Blob) d : nth j (skipn k rest) d = nth (k + j) rest d.
Proof.
  revert rest. induction k as [|k IH]; intros [|b rest]; cbn; auto. now destruct j.
Qed.

Lemma get_vl_length_any {E} pre rest : bytes_ok rest ->
  get_vl_data_length (E := E) (at_end pre rest) =
    if nth 0 rest 0 >? 254 then Panic
    else let '(n, h) := vl_header rest in Ok (n, at_end (pre ++ firstn h rest) (skipn h rest)).
Proof.
  intros Hb. pose proof (nth_byte rest 0 Hb) as H1. pose proof (nth_byte rest 1 Hb) as H2.
  pose proof (nth_byte rest 2 Hb) as H3. unfold is_byte, get_vl_data_length, vl_header in *.
  rewrite iter_get8_any. cbn [bind]. unfold decode_length_length.
  set (b1 := nth 0 rest 0) in *. assert ((b1 <? 0) = false) as E0 by lia. rewrite E0.
  destruct (Z.leb_spec b1 192); [|destruct (Z.leb_spec b1 240); [|destruct (Z.leb_spec b1 254)]];
    [assert ((b1 >? 254) = false) as E1 by lia..|assert ((b1 >? 254) = true) as E1 by lia];
    rewrite E1; cbn [bind Z.eqb Pos.eqb].
  - unfold decode_vl_length_1. now rewrite E0, E1.
  - rewrite iter_get8_any. cbn [bind]. unfold decode_vl_length_2. rewrite nth_skipn, split_more. cbn [Nat.add].
    assert ((b1 <? 193) = false /\ (b1 >? 240) = false) as [-> ->] by lia.
    now rewrite plain_ok by (cbn [min_of max_of]; lia).
  - rewrite iter_get8_any. cbn [bind]. rewrite nth_skipn, split_more, iter_get8_any. cbn [bind Nat.add].
    unfold decode_vl_length_3. rewrite nth_skipn, split_more. cbn [Nat.add].
    assert ((b1 <? 241) = false) as -> by lia. now rewrite E1, plain_ok by (cbn [min_of max_of]; lia).
  - reflexivity.
Qed.

Lemma vl_header_range rest : bytes_ok rest -> nth 0 rest 0 <= 254 -> 0 <= fst (vl_header rest) < 2 ^ 20.
Proof.
  intros Hb H. pose proof (nth_byte rest 0 Hb) as H1. pose proof (nth_byte rest 1 Hb) as H2.
  pose proof (nth_byte rest 2 Hb) as H3. unfold is_byte, vl_header in *.
  destruct (Z.leb_spec (nth 0 rest 0) 192); [cbn [fst]; lia|].
  destruct (Z.leb_spec (nth 0 rest 0) 240); cbn [fst]; lia.
Qed.

(** Reading a length-prefixed string, on every input.  [get_vl] returns the
    bytes the prefix announces and moves past them when they are all there;
    otherwise, and when the first byte is 255, it panics.  It never reads out
    of bounds and its arithmetic never overflows. *)
Theorem get_vl_outcome {E} pre rest : bytes_ok rest -> len (pre ++ rest) <= max_of Usize ->
  get_vl (E := E) (at_end pre rest) =
    let '(n, h) := vl_header rest in
    if (nth 0 rest 0 =? 255) || (len (skipn h rest) <? n) then Panic
    else Ok (firstn (Z.to_nat n) (skipn h rest),
             at_end (pre ++ firstn (h + Z.to_nat n) rest) (skipn (h + Z.to_nat n) rest)).
Proof.
  intros Hb Hlen. unfold get_vl. rewrite get_vl_length_any by exact Hb.
  pose proof (nth_byte rest 0 Hb) as H1. unfold is_byte in H1.
  pose proof (vl_header_range rest Hb) as Hr. destruct (vl_header rest) as [n h]. cbn [fst] in Hr.
  destruct (Z.eqb_spec (nth 0 rest 0) 255) as [->|Hne]; [reflexivity|].
  assert ((nth 0 rest 0 >? 254) = false) as -> by lia. cbn [bind orb]. specialize (Hr ltac:(lia)).
  rewrite cast_id by (cbn [min_of max_of]; lia). unfold get_raw, bytes_left. cbn [data used at_end].
  assert (len ((pre ++ firstn h rest) ++ skipn h rest) - Z.of_nat (length (pre ++ firstn h rest))
    = len (skipn h rest)) as -> by (unfold len; rewrite !length_app; lia).
  assert (0 <= len (skipn h rest) <= len (pre ++ rest))
    by (unfold len; rewrite length_app, length_skipn; lia).
  rewrite plain_ok by (cbn [min_of]; lia). cbn [bind]. rewrite Z2Nat.id by lia.
  destruct (Z.ltb_spec (len (skipn h rest)) n) as [|Hge]; [reflexivity|].
  assert (length (firstn (Z.to_nat n) (skipn h rest)) = Z.to_nat n) as Hl.
  { rewrite length_firstn. unfold len in *. lia. }
  rewrite <- split_more. do 2 f_equal.
  - rewrite <- (firstn_skipn (Z.to_nat n) (skipn h rest)) at 1. rewrite <- Hl at 1. apply sub_slice_at.
  - rewrite <- (firstn_skipn (Z.to_nat n) (skipn h rest)) at 1. rewrite <- Hl at 1. apply advance_at.
Qed.

Lemma get_vl_outcome_witness :
  get_vl (E := unit) (at_end [7] [2; 5; 6; 9]) = Ok ([5; 6], at_end [7; 2; 5; 6] [9]) /\
  get_vl (E := unit) (at_end [7] [200; 5; 6; 9]) = Panic.
Proof.
  rewrite (get_vl_outcome (E := unit) [7] [2; 5; 6; 9]), (get_vl_outcome (E := unit) [7] [200; 5; 6; 9]).
  - split; reflexivity.
  - repeat constructor; lia.
  - vm_compute. discriminate.
  - repeat constructor; lia.
  - vm_compute. discriminate.
Defined.
