(* ===== verification/Views.v ===== *)
(** * Views: state tables over a ledger

    Models [xrpld/ledger/src/views/raw_state_table.rs], [open_view.rs] (its state
    part) and [apply_state_table.rs] (without threading and metadata), with the
    parts of [read_view.rs], [raw_view.rs] and
    [xrpl/protocol/src/ledger/keylet.rs] they use.

    The traits [ReadView] and [RawView] are classes.  What a view promises is
    stated against a finite map from keys to entries: [view_of] for readers,
    [RawViewLaws] for writers.  A table over a view that keeps its promise is
    again such a view, of the map with the table's changes, which is how views
    are stacked; [OpenView] is both a reader and a writer.

    A [BTreeMap] is a [gmap] with [ascending] as its iteration order.  A key is
    an integer; an [STLedgerEntry] is its key, its type and the rest of its
    fields, which the tables never look at. *)

From stdpp Require Import gmap sorting strings.
From Stdlib Require Import ZArith Lia.
From S2P Require Import Prelude.
Local Open Scope Z_scope.

(** ** Keys and entries *)

Inductive LedgerEntryType : Type :=
| Any | NFTokenOffer | Check | DID | NegativeUnl | NFTokenPage | SignerList | Ticket | AccountRoot
| Contract | DirectoryNode | Amendments | GeneratorMap | LedgerHashes | Bridge | Nickname | Offer
| DepositPreauth | XChainOwnedClaimId | RippleState | FeeSettings
| XChainOwnedCreateAccountClaimId | Escrow | PayChannel | AMM | MPTokenIssuance | MPToken | Oracle
| Credential | PermissionedDomain | Delegate | Vault | LoanBroker | Loan | Sponsorship | Child.

#[export] Instance LedgerEntryType_eq_dec : EqDecision LedgerEntryType.
Proof. solve_decision. Defined.

Inductive ViewError : Type :=
| Traversal | TxRead | Mutation
| DuplicateTx (tx : Z) | MissingMetadata (tx : Z) | InvalidFee (fee : Z) | Conversion (message : string).

Record Keylet : Type := mkKeylet { key : Z; entry_type : LedgerEntryType }.

Definition concrete (t : LedgerEntryType) : bool :=
  match t with Any | Child => false | _ => true end.

(** [Keylet::check_ledger_entry]; its debug assertion is a panic. *)
Definition check_ledger_entry (k : Keylet) (actual_type : LedgerEntryType) (actual_key : Z)
    : outcome ViewError bool :=
  if negb (concrete actual_type) then Panic
  else Ok (match entry_type k with
           | Any => true
           | Child => bool_decide (actual_type <> DirectoryNode)
           | expected => bool_decide (expected = actual_type) && (key k =? actual_key)
           end).

Section Entries.
Context {Payload : Type}.

Record STLedgerEntry : Type := mkSle {
  sle_key : Z;
  sle_type : LedgerEntryType;
  sle_payload : Payload
}.

Abbreviation State := (gmap Z STLedgerEntry).

(** ** The traits *)

Class ReadView (B : Type) : Type := {
  rv_exists : B -> Keylet -> outcome ViewError bool;
  rv_succ : B -> Z -> option Z -> outcome ViewError (option Z);
  rv_read : B -> Keylet -> outcome ViewError (option STLedgerEntry)
}.

Class RawView (V : Type) : Type := {
  rw_erase : STLedgerEntry -> V -> outcome ViewError V;
  rw_insert : STLedgerEntry -> V -> outcome ViewError V;
  rw_replace : STLedgerEntry -> V -> outcome ViewError V;
  rw_destroy_xrp : Z -> V -> outcome ViewError V
}.

Inductive StateBatchOp : Type := BatchInsert | BatchUpdate | BatchDelete.

(** The default [raw_apply_sle_batch]. *)
Fixpoint raw_apply_sle_batch `{!RawView V} (ops : list (StateBatchOp * STLedgerEntry)) (v : V)
    : outcome ViewError V :=
  match ops with
  | [] => Ok v
  | (op, sle) :: ops =>
      v <- match op with
           | BatchInsert => rw_insert sle v
           | BatchUpdate => rw_replace sle v
           | BatchDelete => rw_erase sle v
           end;;
      raw_apply_sle_batch ops v
  end.

(** ** What views promise *)

(** The successor of [k] among the keys of [m], below [last]. *)
Definition is_succ (m : State) (k : Z) (last r : option Z) : Prop :=
  match r with
  | Some n => is_Some (m !! n) /\ k < n /\ (forall l, last = Some l -> n < l) /\
              forall n', is_Some (m !! n') -> k < n' -> n <= n'
  | None => forall n, is_Some (m !! n) -> k < n -> exists l, last = Some l /\ l <= n
  end.

(** A key is a number of 256 bits. *)
Definition is_uint256 (k : Z) : Prop := 0 <= k < 2 ^ 256.
Definition range_ok (k : Z) (last : option Z) : Prop := is_uint256 k /\ forall l, last = Some l -> is_uint256 l.

(** The keylet asks for the type of entry that is there. *)
Definition keylet_fits (m : State) (k : Keylet) : Prop := is_uint256 (key k) /\
  forall sle, m !! key k = Some sle -> check_ledger_entry k (sle_type sle) (sle_key sle) = Ok true.

(** The entries a stack of views is used for: of a concrete type, and whatever else the
    ledger at its bottom asks of them. *)
Class EntryRule : Type := {
  admissible : STLedgerEntry -> Prop;
  admissible_concrete : forall s, admissible s -> concrete (sle_type s) = true;
  admissible_key : forall s, admissible s -> is_uint256 (sle_key s)
}.

Context `{!EntryRule}.

(** Entries are admissible and are filed under their own key. *)
Definition entry_ok (k : Z) (sle : STLedgerEntry) : Prop := sle_key sle = k /\ admissible sle.

Record view_of `{!ReadView B} (b : B) (m : State) : Prop := {
  vo_entries : forall k sle, m !! k = Some sle -> entry_ok k sle;
  vo_exists : forall k, keylet_fits m k -> rv_exists b k = Ok (bool_decide (is_Some (m !! key k)));
  vo_read : forall k, keylet_fits m k -> rv_read b k = Ok (m !! key k);
  vo_succ : forall k last, range_ok k last -> exists r, rv_succ b k last = Ok r /\ is_succ m k last r
}.

(** A view shows one map only. *)
Lemma view_of_unique `{!ReadView B} (b : B) m m' : view_of b m -> view_of b m' -> m = m'.
Proof.
  assert (forall m1 m2 k sle, view_of b m1 -> view_of b m2 -> m1 !! k = Some sle -> m2 !! k = Some sle) as Hle.
  { intros m1 m2 k sle V1 V2 Hk. destruct (vo_entries b m1 V1 k sle Hk) as [<- Ha].
    assert (forall m0, view_of b m0 -> keylet_fits m0 (mkKeylet (sle_key sle) Any)) as Hfit.
    { intros m0 V0. split; [now apply admissible_key|]. intros s Hs. destruct (vo_entries b m0 V0 _ s Hs) as [_ Hs']. unfold check_ledger_entry. now rewrite (admissible_concrete s Hs'). }
    pose proof (vo_read b m1 V1 _ (Hfit m1 V1)) as R1. pose proof (vo_read b m2 V2 _ (Hfit m2 V2)) as R2. cbn [key] in R1, R2. congruence. }
  intros V V'. apply map_eq. intros k. destruct (m !! k) as [s|] eqn:Hs; [symmetry; eapply Hle; eauto|]. destruct (m' !! k) as [s|] eqn:Hs'; [|reflexivity]. assert (m !! k = Some s) by (eapply Hle; eauto). congruence.
Qed.

(** [holds n v m d]: the view [v] has the contents [m], has destroyed [d] drops and can
    take [n] more writes.  Writers accept the operations that make sense on [m], and can
    destroy up to [room] drops. *)
Class RawViewLaws `{!RawView V} (holds : nat -> V -> State -> Z -> Prop) (room : Z) : Prop := {
  raw_insert_law : forall n v m d sle, holds (S n) v m d -> admissible sle -> m !! sle_key sle = None ->
    exists v', rw_insert sle v = Ok v' /\ holds n v' (<[sle_key sle := sle]> m) d;
  raw_replace_law : forall n v m d sle, holds (S n) v m d -> admissible sle -> is_Some (m !! sle_key sle) ->
    exists v', rw_replace sle v = Ok v' /\ holds n v' (<[sle_key sle := sle]> m) d;
  raw_erase_law : forall n v m d sle, holds (S n) v m d -> is_Some (m !! sle_key sle) -> admissible sle ->
    exists v', rw_erase sle v = Ok v' /\ holds n v' (delete (sle_key sle) m) d;
  raw_destroy_law : forall n v m d fee, holds n v m d -> 0 <= d -> 0 <= fee -> d + fee <= room ->
    exists v', rw_destroy_xrp fee v = Ok v' /\ holds n v' m (d + fee)
}.

End Entries.
Arguments STLedgerEntry : clear implicits.
Arguments EntryRule : clear implicits.

(** ** Ordered maps *)

Section BTree.
Context {V : Type}.

Definition key_le (a b : Z * V) : Prop := a.1 <= b.1.
#[export] Instance key_le_dec : RelDecision key_le.
Proof. intros a b. unfold key_le. apply _. Defined.

(** The entries of a [BTreeMap] in ascending order. *)
Definition ascending (m : gmap Z V) : list (Z * V) := merge_sort key_le (map_to_list m).

(** [range((Excluded(k), Unbounded))] *)
Definition range_after (k : Z) (m : gmap Z V) : list (Z * V) :=
  filter (fun e => k < e.1) (ascending m).

#[export] Instance key_le_total : Total key_le.
Proof. intros a b. unfold key_le. lia. Qed.
#[export] Instance key_le_trans : Transitive key_le.
Proof. intros a b c. unfold key_le. lia. Qed.

Lemma elem_of_ascending m k v : (k, v) ∈ ascending m <-> m !! k = Some v.
Proof. unfold ascending. rewrite merge_sort_Permutation. apply elem_of_map_to_list. Qed.

Lemma ascending_sorted m : StronglySorted key_le (ascending m).
Proof. apply StronglySorted_merge_sort; apply _. Qed.

Lemma elem_of_range_after m k e : e ∈ range_after k m <-> m !! e.1 = Some e.2 /\ k < e.1.
Proof.
  destruct e as [k' v]. unfold range_after. rewrite list_elem_of_filter, elem_of_ascending.
  cbn. tauto.
Qed.

Lemma ascending_length m : length (ascending m) = size m.
Proof. unfold ascending. rewrite merge_sort_Permutation. apply length_map_to_list. Qed.

Lemma ascending_to_map m :
  NoDup (ascending m).*1 /\ list_to_map (ascending m) = m.
Proof.
  assert (NoDup (ascending m).*1) as Hnd.
  { unfold ascending. rewrite merge_sort_Permutation. apply NoDup_fst_map_to_list. }
  split; [exact Hnd|]. unfold ascending in *.
  rewrite (list_to_map_proper _ (map_to_list m) Hnd (merge_sort_Permutation _ _)).
  apply list_to_map_to_list.
Qed.
End BTree.

(** ** RawStateTable *)

Module Raw.

Inductive Action : Type := Erase | Insert | Replace.

#[global] Instance Action_eq_dec : EqDecision Action.
Proof. solve_decision. Defined.

Section Raw.
Context {Payload : Type}.
Abbreviation Sle := (STLedgerEntry Payload).

Record SleAction : Type := mkAction { action : Action; sle : Sle }.

Record RawStateTable : Type := mkTable { items : gmap Z SleAction; drops_destroyed : Z }.

Definition new : RawStateTable := mkTable ∅ 0.

Definition erased (t : RawStateTable) (k : Z) : bool :=
  match items t !! k with
  | Some e => bool_decide (action e = Erase)
  | None => false
  end.

Section Reading.
Context `{!ReadView (Payload := Payload) B}.

Definition exists_ (t : RawStateTable) (base : B) (k : Keylet) : outcome ViewError bool :=
  match items t !! key k with
  | Some e =>
      if bool_decide (action e = Erase) then Ok false
      else check_ledger_entry k (sle_type (sle e)) (sle_key (sle e))
  | None => rv_exists base k
  end.

(** The successor in the base that the table has not erased. *)
Fixpoint succ_loop (fuel : nat) (t : RawStateTable) (base : B) (last next : option Z)
    : outcome ViewError (option Z) :=
  match fuel with
  | O => OutOfFuel
  | S fuel =>
      next <- match next with
              | Some current => rv_succ base current last
              | None => Ok None
              end;;
      match next with
      | None => Ok None
      | Some candidate => if erased t candidate then succ_loop fuel t base last next else Ok next
      end
  end.

(** The loop over the table's own entries after the key, up to the first that is
    not an erasure. *)
Fixpoint succ_overlay (entries : list (Z * SleAction)) (next : option Z) : option Z :=
  match entries with
  | [] => next
  | (overlay_key, e) :: entries =>
      if bool_decide (action e <> Erase) then
        match next with
        | Some candidate => if candidate >? overlay_key then Some overlay_key else next
        | None => Some overlay_key
        end
      else succ_overlay entries next
  end.

Definition succ (t : RawStateTable) (base : B) (k : Z) (last : option Z)
    : outcome ViewError (option Z) :=
  next <- succ_loop (S (size (items t))) t base last (Some k);;
  let next := succ_overlay (range_after k (items t)) next in
  Ok (match last, next with
      | Some l, Some candidate => if candidate >=? l then None else next
      | _, _ => next
      end).

Definition read (t : RawStateTable) (base : B) (k : Keylet) : outcome ViewError (option Sle) :=
  match items t !! key k with
  | Some e =>
      if bool_decide (action e = Erase) then Ok None
      else ok <- check_ledger_entry k (sle_type (sle e)) (sle_key (sle e));;
           Ok (if ok : bool then Some (sle e) else None)
  | None => rv_read base k
  end.
End Reading.

Definition put (a : Action) (s : Sle) (t : RawStateTable) : RawStateTable :=
  mkTable (<[sle_key s := mkAction a s]> (items t)) (drops_destroyed t).

Definition erase (s : Sle) (t : RawStateTable) : outcome ViewError RawStateTable :=
  match action <$> items t !! sle_key s with
  | None => Ok (put Erase s t)
  | Some Erase => Err (Conversion "RawStateTable::erase: already erased")
  | Some Insert => Ok (mkTable (delete (sle_key s) (items t)) (drops_destroyed t))
  | Some Replace => Ok (put Erase s t)
  end.

Definition insert (s : Sle) (t : RawStateTable) : outcome ViewError RawStateTable :=
  match action <$> items t !! sle_key s with
  | None => Ok (put Insert s t)
  | Some Erase => Ok (put Replace s t)
  | Some Insert => Err (Conversion "RawStateTable::insert: already inserted")
  | Some Replace => Err (Conversion "RawStateTable::insert: already exists")
  end.

Definition replace (s : Sle) (t : RawStateTable) : outcome ViewError RawStateTable :=
  match action <$> items t !! sle_key s with
  | Some Erase => Err (Conversion "RawStateTable::replace: was erased")
  | Some Insert => Ok (put Insert s t)
  | None | Some Replace => Ok (put Replace s t)
  end.

Definition destroy_xrp (fee : Z) (t : RawStateTable) : outcome ViewError RawStateTable :=
  total <- plain I64 (drops_destroyed t + fee);; Ok (mkTable (items t) total).

Fixpoint apply_items `{!RawView (Payload := Payload) V} (l : list (Z * SleAction)) (to : V)
    : outcome ViewError V :=
  match l with
  | [] => Ok to
  | (_, e) :: l =>
      to <- match action e with
            | Erase => rw_erase (sle e) to
            | Insert => rw_insert (sle e) to
            | Replace => rw_replace (sle e) to
            end;;
      apply_items l to
  end.

Definition apply `{!RawView (Payload := Payload) V} (t : RawStateTable) (to : V)
    : outcome ViewError V :=
  to <- rw_destroy_xrp (drops_destroyed t) to;;
  apply_items (ascending (items t)) to.

End Raw.
Arguments SleAction : clear implicits.
Arguments RawStateTable : clear implicits.
End Raw.

(** ** OpenView *)

Section OpenView.
Context {Payload B Tx Meta : Type}.

(** The state part of an open view: a table over a base, and the transactions
    added so far, serialised with their metadata. *)
Record OpenView : Type := mkOpen {
  base : B;
  items : Raw.RawStateTable Payload;
  txs : gmap Z (Tx * option Meta)
}.

Definition with_items (t : Raw.RawStateTable Payload) (v : OpenView) : OpenView :=
  mkOpen (base v) t (txs v).

(** [new_open] and [new_closed] start with empty tables. *)
Definition new_view (b : B) : OpenView := mkOpen b Raw.new ∅.

Context `{!ReadView (Payload := Payload) B}.

#[export] Instance OpenView_read : ReadView (Payload := Payload) OpenView := {
  rv_exists v k := Raw.exists_ (items v) (base v) k;
  rv_succ v k last := Raw.succ (items v) (base v) k last;
  rv_read v k := Raw.read (items v) (base v) k
}.

#[export] Instance OpenView_raw : RawView (Payload := Payload) OpenView := {
  rw_erase s v := t <- Raw.erase s (items v);; Ok (with_items t v);
  rw_insert s v := t <- Raw.insert s (items v);; Ok (with_items t v);
  rw_replace s v := t <- Raw.replace s (items v);; Ok (with_items t v);
  rw_destroy_xrp fee v := t <- Raw.destroy_xrp fee (items v);; Ok (with_items t v)
}.

Definition raw_tx_insert (k : Z) (txn : Tx) (metadata : option Meta) (v : OpenView)
    : outcome ViewError OpenView :=
  match txs v !! k with
  | None => Ok (mkOpen (base v) (items v) (<[k := (txn, metadata)]> (txs v)))
  | Some _ => Err (DuplicateTx k)
  end.

(** [apply_state_only] *)
Definition apply_state_only `{!RawView (Payload := Payload) V} (v : OpenView) (to : V)
    : outcome ViewError V := Raw.apply (items v) to.

End OpenView.

(** ** A raw table over a view is a view *)

Section RawRefinement.
Context {Payload : Type} `{!EntryRule Payload}.
Abbreviation Sle := (STLedgerEntry Payload).
Abbreviation State := (gmap Z Sle).
Abbreviation Table := (Raw.RawStateTable Payload).
Implicit Types (m : State) (t : Table) (s : Sle).

(** What the table makes of the entry at a key. *)
Definition over (e : option (Raw.SleAction Payload)) (old : option Sle) : option Sle :=
  match e with
  | None => old
  | Some e => if bool_decide (Raw.action e = Raw.Erase) then None else Some (Raw.sle e)
  end.

(** The contents of [m] with the changes of the table. *)
Definition overlay t m : State := merge over (Raw.items t) m.

Lemma lookup_overlay t m k : overlay t m !! k = over (Raw.items t !! k) (m !! k).
Proof. unfold overlay. rewrite lookup_merge. destruct (Raw.items t !! k), (m !! k); reflexivity. Qed.

(** The table's actions make sense on [m]. *)
Definition raw_wf t m : Prop := forall k e, Raw.items t !! k = Some e ->
  entry_ok k (Raw.sle e) /\
  match Raw.action e with
  | Raw.Insert => m !! k = None
  | Raw.Erase | Raw.Replace => is_Some (m !! k)
  end.

Lemma raw_wf_new m : raw_wf Raw.new m.
Proof. intros k e. cbn. rewrite lookup_empty. discriminate. Qed.

(** The entries of [m] that the table has not erased. *)
Definition live t m : State := filter (fun e => Raw.erased t e.1 = false) m.

Lemma is_some_live t m n : is_Some (live t m !! n) <-> is_Some (m !! n) /\ Raw.erased t n = false.
Proof.
  unfold live. split.
  - intros [s Hs]. apply map_lookup_filter_Some in Hs as [Hs He]. eauto.
  - intros [[s Hs] He]. exists s. now apply map_lookup_filter_Some.
Qed.

Definition keys_after t (c : Z) : gset Z := filter (fun k => c < k) (dom (Raw.items t)).

Lemma erased_in t n : Raw.erased t n = true -> n ∈ dom (Raw.items t).
Proof.
  unfold Raw.erased. destruct (Raw.items t !! n) eqn:Hn; [|discriminate].
  intros _. apply elem_of_dom. eauto.
Qed.

Lemma keys_after_shrink t c n : c < n -> Raw.erased t n = true ->
  (size (keys_after t n) < size (keys_after t c))%nat.
Proof.
  intros Hlt He%erased_in. apply subset_size. unfold keys_after. split.
  - intros k. rewrite !elem_of_filter. intros [? ?]. split; [lia|assumption].
  - intros Hsub. specialize (Hsub n). rewrite !elem_of_filter in Hsub.
    destruct Hsub as [? _]; [auto|lia].
Qed.

Section Reading.
Context `{!ReadView (Payload := Payload) B}.
Implicit Types b : B.

Lemma present_key b m n : view_of b m -> is_Some (m !! n) -> is_uint256 n.
Proof. intros Hb [s Hs]. destruct (vo_entries b m Hb n s Hs) as [<- Hk]. now apply admissible_key. Qed.

(** The loop over the base finds the successor among the entries not erased. *)
Lemma succ_loop_spec b m t k last : view_of b m -> forall fuel c,
  (size (keys_after t c) < fuel)%nat -> range_ok c last -> k <= c ->
  (forall n, is_Some (m !! n) -> k < n <= c -> Raw.erased t n = true) ->
  exists r, Raw.succ_loop fuel t b last (Some c) = Ok r /\ is_succ (live t m) k last r.
Proof.
  intros Hb. induction fuel as [|fuel IH]; intros c Hsize Hrange Hkc Hgap; [lia|]. cbn [Raw.succ_loop].
  destruct (vo_succ b m Hb c last Hrange) as (r & -> & Hr). cbn [bind].
  destruct r as [n|]; cbn [is_succ] in Hr.
  - destruct Hr as (Hn & Hcn & Hlast & Hmin). destruct (Raw.erased t n) eqn:He.
    + apply IH; [pose proof (keys_after_shrink t c n Hcn He); lia|split; [eapply present_key; eauto|apply Hrange]|lia|].
      intros n' Hn' Hbelow. destruct (Z.le_gt_cases n' c); [apply Hgap; [assumption|lia]|].
      assert (n <= n') by (apply Hmin; [assumption|lia]). now replace n' with n by lia.
    + eexists. split; [reflexivity|]. cbn [is_succ]. rewrite is_some_live. split; [auto|].
      split; [lia|]. split; [exact Hlast|]. intros n' [Hn' He']%is_some_live Hkn'.
      apply Hmin; [assumption|]. destruct (Z.le_gt_cases n' c); [|lia].
      rewrite Hgap in He' by (auto || lia). discriminate.
  - eexists. split; [reflexivity|]. cbn [is_succ]. intros n [Hn He]%is_some_live Hkn.
    apply Hr; [assumption|]. destruct (Z.le_gt_cases n c); [|lia].
    rewrite Hgap in He by (auto || lia). discriminate.
Qed.

End Reading.

(** The first change after the key that is not an erasure competes with [next]. *)
Lemma succ_overlay_spec (l : list (Z * Raw.SleAction Payload)) next : StronglySorted key_le l ->
  (forall e, e ∈ l -> Raw.action e.2 = Raw.Erase) /\ Raw.succ_overlay l next = next \/
  exists e, e ∈ l /\ Raw.action e.2 <> Raw.Erase /\
    (forall e', e' ∈ l -> Raw.action e'.2 <> Raw.Erase -> e.1 <= e'.1) /\
    Raw.succ_overlay l next = Some (match next with Some n => Z.min n e.1 | None => e.1 end).
Proof.
  induction l as [|[o e] l IH]; intros Hs; cbn [Raw.succ_overlay].
  - left. split; [intros e He; inversion He|reflexivity].
  - apply StronglySorted_inv in Hs as [Hs Hall]. rewrite Forall_forall in Hall.
    case_bool_decide as He.
    + right. exists (o, e). split; [left|]. split; [exact He|]. split.
      * intros e' [->|He']%elem_of_cons _; [cbn; lia|]. apply (Hall e' He').
      * destruct next as [n|]; [|reflexivity]. cbn. destruct (Z.gtb_spec n o); f_equal; lia.
    + assert (Raw.action e = Raw.Erase) as He' by (destruct (Raw.action e); [reflexivity|now destruct He..]).
      destruct (IH Hs) as [[Hl Hr]|(e' & Hin & Hne & Hmin & Hr)].
      * left. split; [|exact Hr]. intros e' [->|Hin]%elem_of_cons; auto.
      * right. exists e'. split; [now right|]. split; [exact Hne|]. split; [|exact Hr].
        intros e'' [->|Hin'']%elem_of_cons Hne''; [now destruct Hne''|auto].
Qed.

Lemma StronglySorted_filter {A} (R : A -> A -> Prop) (P : A -> Prop) `{!forall x, Decision (P x)} l :
  StronglySorted R l -> StronglySorted R (filter P l).
Proof.
  induction 1 as [|x l Hl IH Hall]; [constructor|]. rewrite filter_cons. destruct (decide (P x)); [|exact IH].
  constructor; [exact IH|]. rewrite Forall_forall in *. intros y [_ Hy]%list_elem_of_filter. auto.
Qed.

Lemma is_some_overlay t m n : is_Some (overlay t m !! n) <->
  is_Some (live t m !! n) \/ exists e, Raw.items t !! n = Some e /\ Raw.action e <> Raw.Erase.
Proof.
  rewrite lookup_overlay, is_some_live. unfold over, Raw.erased.
  destruct (Raw.items t !! n) as [e|] eqn:He.
  - case_bool_decide as Ha; split.
    + intros [? ?]. discriminate.
    + intros [[_ ?]|(e' & [= <-] & ?)]; [discriminate|contradiction].
    + intros _. right. eauto.
    + intros _. eauto.
  - split; [intros H; left; auto|]. intros [[H _]|(e' & ? & _)]; [exact H|discriminate].
Qed.

Lemma is_succ_min m m1 (P : Z -> Prop) k last next local :
  (forall n, is_Some (m !! n) <-> is_Some (m1 !! n) \/ P n) ->
  is_succ m1 k last next ->
  match local with
  | Some o => P o /\ k < o /\ forall o', P o' -> k < o' -> o <= o'
  | None => forall o, P o -> ~ k < o
  end ->
  let r := match next, local with
           | Some n, Some o => Some (Z.min n o)
           | None, _ => local
           | _, None => next
           end in
  is_succ m k last (match last, r with
                    | Some l, Some c => if c >=? l then None else r
                    | _, _ => r
                    end).
Proof.
  intros Hm Hnext Hlocal r.
  assert (match r with
          | Some n => is_Some (m !! n) /\ k < n /\ forall n', is_Some (m !! n') -> k < n' ->
              n <= n' \/ exists l, last = Some l /\ l <= n'
          | None => forall n, is_Some (m !! n) -> k < n -> exists l, last = Some l /\ l <= n
          end) as Hr.
  { subst r. destruct next as [n|], local as [o|]; cbn [is_succ] in Hnext.
    - destruct Hnext as (Hn & Hkn & _ & Hmin), Hlocal as (Ho & Hko & Homin). split; [|split].
      + apply Hm. destruct (Z.min_spec n o) as [[_ ->]|[_ ->]]; auto.
      + lia.
      + intros n' [Hn'|Hn']%Hm Hk; left; [specialize (Hmin n' Hn' Hk)|specialize (Homin n' Hn' Hk)]; lia.
    - destruct Hnext as (Hn & Hkn & _ & Hmin). split; [apply Hm; auto|]. split; [exact Hkn|].
      intros n' [Hn'|Hn']%Hm Hk; [left; auto|now destruct (Hlocal n' Hn')].
    - destruct Hlocal as (Ho & Hko & Homin). split; [apply Hm; auto|]. split; [exact Hko|].
      intros n' [Hn'|Hn']%Hm Hk; [right; auto|left; auto].
    - intros n [Hn|Hn]%Hm Hk; [auto|now destruct (Hlocal n Hn)]. }
  clearbody r. clear Hnext Hlocal. destruct r as [n|]; [|destruct last; exact Hr].
  destruct Hr as (Hn & Hkn & Hmin). destruct last as [l|].
  - destruct (Z.geb_spec n l) as [Hge|Hlt].
    + intros n' Hn' Hk. exists l. split; [reflexivity|].
      destruct (Hmin n' Hn' Hk) as [?|(l' & [= <-] & ?)]; lia.
    + split; [exact Hn|]. split; [exact Hkn|]. split; [intros l' [= <-]; lia|].
      intros n' Hn' Hk. destruct (Hmin n' Hn' Hk) as [?|(l' & [= <-] & ?)]; lia.
  - split; [exact Hn|]. split; [exact Hkn|]. split; [discriminate|].
    intros n' Hn' Hk. destruct (Hmin n' Hn' Hk) as [?|(l' & ? & _)]; [assumption|discriminate].
Qed.

(** What is left of [succ] once the base has answered: [l] holds the table's
    entries after the key. *)
Lemma raw_succ_end m t k last next (l : list (Z * Raw.SleAction Payload)) : is_succ (live t m) k last next ->
  StronglySorted key_le l -> (forall e, e ∈ l <-> Raw.items t !! e.1 = Some e.2 /\ k < e.1) ->
  let next := Raw.succ_overlay l next in
  is_succ (overlay t m) k last (match last, next with
                                | Some l, Some candidate => if candidate >=? l then None else next
                                | _, _ => next
                                end).
Proof.
  intros Hnext Hs Hin. cbv zeta.
  pose (P := fun n => exists e, Raw.items t !! n = Some e /\ Raw.action e <> Raw.Erase).
  destruct (succ_overlay_spec l next Hs) as [[Hl ->]|(e & He & Hne & Hmin & ->)].
  - pose proof (is_succ_min (overlay t m) (live t m) P k last next None
      (is_some_overlay t m) Hnext) as H. cbv zeta in H. destruct next; apply H.
    all: intros o (e & He & Hne) Hko; apply Hne, (Hl (o, e)), Hin; auto.
  - pose proof (is_succ_min (overlay t m) (live t m) P k last next (Some e.1)
      (is_some_overlay t m) Hnext) as H. cbv zeta in H.
    apply Hin in He as [He Hke]. destruct next; apply H.
    all: split; [exists e.2; auto|]; split; [exact Hke|]; intros o' (e' & He' & Hne') Hk;
      apply (Hmin (o', e')); [apply Hin; auto|exact Hne'].
Qed.

Lemma raw_succ_spec `{!ReadView (Payload := Payload) B} (b : B) m t k last : view_of b m -> range_ok k last ->
  exists r, Raw.succ t b k last = Ok r /\ is_succ (overlay t m) k last r.
Proof.
  intros Hb Hrange. unfold Raw.succ.
  destruct (succ_loop_spec b m t k last Hb (S (size (Raw.items t))) k) as (next & -> & Hnext); [|exact Hrange|lia|intros; lia|].
  - assert (size (keys_after t k) <= size (dom (Raw.items t)))%nat as Hle
      by (apply subseteq_size; unfold keys_after; set_solver).
    rewrite size_dom in Hle. lia.
  - cbn [bind]. eexists. split; [reflexivity|].
    apply raw_succ_end; [exact Hnext|apply StronglySorted_filter, ascending_sorted|].
    intros e. apply elem_of_range_after.
Qed.

Lemma over_fits t m k e : keylet_fits (overlay t m) k -> Raw.items t !! key k = Some e ->
  Raw.action e <> Raw.Erase ->
  check_ledger_entry k (sle_type (Raw.sle e)) (sle_key (Raw.sle e)) = Ok true.
Proof.
  intros Hk He Ha. apply Hk. rewrite lookup_overlay, He. cbn. now rewrite bool_decide_eq_false_2.
Qed.

Lemma base_fits t m k : keylet_fits (overlay t m) k -> Raw.items t !! key k = None -> keylet_fits m k.
Proof. intros Hk He. split; [apply Hk|]. intros s Hs. apply Hk. now rewrite lookup_overlay, He. Qed.

(** A raw table over a view of [m] is a view of [overlay t m]. *)
Lemma open_view_of `{!ReadView (Payload := Payload) B} {Tx Meta} (v : OpenView (B := B) (Tx := Tx) (Meta := Meta)) m :
  view_of (base v) m -> raw_wf (items v) m -> view_of v (overlay (items v) m).
Proof.
  intros Hb Hwf. constructor.
  - intros k s. rewrite lookup_overlay. destruct (Raw.items (items v) !! k) as [e|] eqn:He; cbn.
    + case_bool_decide; [discriminate|]. intros [= <-]. apply (Hwf k e He).
    + apply (vo_entries _ _ Hb).
  - intros k Hk. cbn. unfold Raw.exists_. rewrite lookup_overlay.
    destruct (Raw.items (items v) !! key k) as [e|] eqn:He; cbn.
    + case_bool_decide as Ha; [now rewrite bool_decide_eq_false_2 by (intros [? ?]; discriminate)|].
      rewrite (over_fits _ _ _ _ Hk He Ha). now rewrite bool_decide_eq_true_2 by eauto.
    + apply (vo_exists _ _ Hb). eapply base_fits; eauto.
  - intros k Hk. cbn. unfold Raw.read. rewrite lookup_overlay.
    destruct (Raw.items (items v) !! key k) as [e|] eqn:He; cbn.
    + case_bool_decide as Ha; [reflexivity|]. now rewrite (over_fits _ _ _ _ Hk He Ha).
    + apply (vo_read _ _ Hb). eapply base_fits; eauto.
  - intros k last. now apply raw_succ_spec.
Qed.

(** ** Writing through a raw table *)

Lemma overlay_put a s t m : overlay (Raw.put a s t) m =
  if bool_decide (a = Raw.Erase) then delete (sle_key s) (overlay t m)
  else <[sle_key s := s]> (overlay t m).
Proof.
  apply map_eq. intros k. rewrite lookup_overlay. cbn.
  destruct (decide (k = sle_key s)) as [->|Hne].
  - rewrite lookup_insert_eq. cbn. case_bool_decide; [now rewrite lookup_delete_eq|now rewrite lookup_insert_eq].
  - rewrite lookup_insert_ne by congruence. case_bool_decide;
      [rewrite lookup_delete_ne by congruence|rewrite lookup_insert_ne by congruence]; now rewrite lookup_overlay.
Qed.

Lemma raw_wf_put a s t m : raw_wf t m -> admissible s ->
  match a with
  | Raw.Insert => m !! sle_key s = None
  | Raw.Erase | Raw.Replace => is_Some (m !! sle_key s)
  end -> raw_wf (Raw.put a s t) m.
Proof.
  intros Hwf Hs Ha k e. cbn. rewrite lookup_insert_Some. intros [[<- <-]|[_ He]]; [|auto].
  split; [split; [reflexivity|exact Hs]|exact Ha].
Qed.

Lemma raw_insert_spec s t m : raw_wf t m -> admissible s ->
  overlay t m !! sle_key s = None ->
  exists t', Raw.insert s t = Ok t' /\ raw_wf t' m /\ overlay t' m = <[sle_key s := s]> (overlay t m) /\
    Raw.drops_destroyed t' = Raw.drops_destroyed t.
Proof.
  intros Hwf Hs Ho. rewrite lookup_overlay in Ho. unfold Raw.insert.
  destruct (Raw.items t !! sle_key s) as [e|] eqn:He; cbn in *.
  - destruct (Hwf _ _ He) as [_ Hact]. case_bool_decide as Ha; [|discriminate]. rewrite Ha in *.
    eexists. split; [reflexivity|]. split; [now apply raw_wf_put|]. now rewrite overlay_put.
  - eexists. split; [reflexivity|]. split; [now apply raw_wf_put|]. now rewrite overlay_put.
Qed.

Lemma raw_replace_spec s t m : raw_wf t m -> admissible s ->
  is_Some (overlay t m !! sle_key s) ->
  exists t', Raw.replace s t = Ok t' /\ raw_wf t' m /\ overlay t' m = <[sle_key s := s]> (overlay t m) /\
    Raw.drops_destroyed t' = Raw.drops_destroyed t.
Proof.
  intros Hwf Hs Ho. rewrite lookup_overlay in Ho. unfold Raw.replace.
  destruct (Raw.items t !! sle_key s) as [e|] eqn:He; cbn in *.
  - destruct (Hwf _ _ He) as [_ Hact]. destruct (Raw.action e) eqn:Ha; cbn in *.
    + destruct Ho. discriminate.
    + eexists. split; [reflexivity|]. split; [now apply raw_wf_put|]. now rewrite overlay_put.
    + eexists. split; [reflexivity|]. split; [now apply raw_wf_put|]. now rewrite overlay_put.
  - eexists. split; [reflexivity|]. split; [now apply raw_wf_put|]. now rewrite overlay_put.
Qed.

Lemma raw_erase_spec s t m : raw_wf t m -> admissible s ->
  is_Some (overlay t m !! sle_key s) ->
  exists t', Raw.erase s t = Ok t' /\ raw_wf t' m /\ overlay t' m = delete (sle_key s) (overlay t m) /\
    Raw.drops_destroyed t' = Raw.drops_destroyed t.
Proof.
  intros Hwf Hs Ho. rewrite lookup_overlay in Ho. unfold Raw.erase.
  destruct (Raw.items t !! sle_key s) as [e|] eqn:He; cbn in *.
  - destruct (Hwf _ _ He) as [_ Hact]. destruct (Raw.action e) eqn:Ha; cbn in *.
    + destruct Ho. discriminate.
    + eexists. split; [reflexivity|]. split; [|split; [|reflexivity]].
      * intros k e'. cbn. rewrite lookup_delete_Some. intros [_ He']. auto.
      * apply map_eq. intros k. rewrite lookup_overlay. cbn. destruct (decide (k = sle_key s)) as [->|Hne].
        -- now rewrite !lookup_delete_eq.
        -- now rewrite !lookup_delete_ne, lookup_overlay by congruence.
    + eexists. split; [reflexivity|]. split; [now apply raw_wf_put|]. now rewrite overlay_put.
  - eexists. split; [reflexivity|]. split; [now apply raw_wf_put|]. now rewrite overlay_put.
Qed.

(** The contents of an open view and the drops it has destroyed. *)
Definition holds_open `{!ReadView (Payload := Payload) B} {Tx Meta}
    (v : OpenView (B := B) (Tx := Tx) (Meta := Meta)) (m : State) (d : Z) : Prop :=
  exists m0, view_of (base v) m0 /\ raw_wf (items v) m0 /\ overlay (items v) m0 = m /\
    Raw.drops_destroyed (items v) = d.

(** An open view keeps the promises of a writer. *)
#[global] Instance open_view_laws `{!ReadView (Payload := Payload) B} {Tx Meta} :
  RawViewLaws (V := OpenView (B := B) (Tx := Tx) (Meta := Meta)) (fun _ => holds_open) (max_of I64).
Proof.
  constructor.
  - intros _ v m d s (m0 & Hb & Hwf & <- & <-) Hs Hk. destruct (raw_insert_spec s (items v) m0)
      as (t' & Ht & Hwf' & Ho & Hd); auto. cbn. rewrite Ht. eexists. split; [reflexivity|]. exists m0. auto.
  - intros _ v m d s (m0 & Hb & Hwf & <- & <-) Hs Hk. destruct (raw_replace_spec s (items v) m0)
      as (t' & Ht & Hwf' & Ho & Hd); auto. cbn. rewrite Ht. eexists. split; [reflexivity|]. exists m0. auto.
  - intros _ v m d s (m0 & Hb & Hwf & <- & <-) Hk Hs. destruct (raw_erase_spec s (items v) m0)
      as (t' & Ht & Hwf' & Ho & Hd); auto. cbn. rewrite Ht. eexists. split; [reflexivity|]. exists m0. auto.
  - intros _ v m d fee (m0 & Hb & Hwf & Ho & Hd) Hpos Hfee Hmax. cbn. unfold Raw.destroy_xrp.
    rewrite Hd, plain_ok by (cbn [min_of]; lia). eexists. split; [reflexivity|]. exists m0. auto.
Qed.

(** ** Applying a raw table *)

Section Applying.
Context `{!RawView (Payload := Payload) V} (holds : nat -> V -> State -> Z -> Prop) (room : Z) `{!RawViewLaws holds room}.

Lemma apply_items_spec (l : list (Z * Raw.SleAction Payload)) : NoDup l.*1 -> forall n (to : V) m d,
  holds (length l + n)%nat to m d ->
  (forall k e, (k, e) ∈ l -> entry_ok k (Raw.sle e) /\
     match Raw.action e with
     | Raw.Insert => m !! k = None
     | Raw.Erase | Raw.Replace => is_Some (m !! k)
     end) ->
  exists to', Raw.apply_items l to = Ok to' /\ holds n to' (merge over (list_to_map l) m) d.
Proof.
  induction l as [|[k e] l IH]; intros Hnd n to m d Hto Hok; cbn [Raw.apply_items].
  - eexists. split; [reflexivity|]. replace (merge _ _ _) with m; [exact Hto|].
    apply map_eq. intros k. rewrite lookup_merge, list_to_map_nil, lookup_empty. now destruct (m !! k).
  - cbn in Hnd. apply NoDup_cons in Hnd as [Hk Hnd]. destruct (Hok k e ltac:(left)) as [[Hkey Hs] Hact].
    assert (exists to1 m1, (match Raw.action e with
        | Raw.Erase => rw_erase (Raw.sle e) to
        | Raw.Insert => rw_insert (Raw.sle e) to
        | Raw.Replace => rw_replace (Raw.sle e) to end) = Ok to1 /\ holds (length l + n)%nat to1 m1 d /\
        m1 !! k = over (Some e) (m !! k) /\ forall k', k' <> k -> m1 !! k' = m !! k') as (to1 & m1 & Hrun & Hto1 & Hm1 & Hm1').
    { unfold over. destruct (Raw.action e); cbn.
      - destruct (raw_erase_law (length l + n) to m d (Raw.sle e) Hto) as (to1 & Hrun & Hto1); [now rewrite Hkey|exact Hs|].
        rewrite Hkey in Hto1. do 2 eexists. split; [exact Hrun|]. split; [exact Hto1|].
        split; [apply lookup_delete_eq|]. intros k' Hne. now rewrite lookup_delete_ne by congruence.
      - destruct (raw_insert_law (length l + n) to m d (Raw.sle e) Hto) as (to1 & Hrun & Hto1); [exact Hs|now rewrite Hkey|].
        rewrite Hkey in Hto1. do 2 eexists. split; [exact Hrun|]. split; [exact Hto1|].
        split; [apply lookup_insert_eq|]. intros k' Hne. now rewrite lookup_insert_ne by congruence.
      - destruct (raw_replace_law (length l + n) to m d (Raw.sle e) Hto) as (to1 & Hrun & Hto1); [exact Hs|now rewrite Hkey|].
        rewrite Hkey in Hto1. do 2 eexists. split; [exact Hrun|]. split; [exact Hto1|].
        split; [apply lookup_insert_eq|]. intros k' Hne. now rewrite lookup_insert_ne by congruence. }
    rewrite Hrun. cbn [bind]. destruct (IH Hnd n to1 m1 d Hto1) as (to' & Hrun' & Hto').
    { intros k' e' Hin. rewrite Hm1'; [apply Hok; now right|].
      intros ->. apply Hk. apply (list_elem_of_fmap_2 fst _ _ Hin). }
    exists to'. split; [exact Hrun'|]. replace (merge over (list_to_map ((k, e) :: l)) m)
      with (merge over (list_to_map l) m1); [exact Hto'|].
    apply map_eq. intros k'. rewrite !lookup_merge, list_to_map_cons.
    destruct (decide (k' = k)) as [->|Hne].
    + rewrite lookup_insert_eq, Hm1, not_elem_of_list_to_map_1 by exact Hk.
      destruct (m !! k); cbn; now case_bool_decide.
    + now rewrite lookup_insert_ne, Hm1' by congruence.
Qed.

(** Applying a table to a writer with the contents it was made for. *)
Lemma raw_apply_spec t n (to : V) m d : holds (size (Raw.items t) + n)%nat to m d -> raw_wf t m -> 0 <= d ->
  0 <= Raw.drops_destroyed t -> d + Raw.drops_destroyed t <= room ->
  exists to', Raw.apply t to = Ok to' /\ holds n to' (overlay t m) (d + Raw.drops_destroyed t).
Proof.
  intros Hto Hwf Hd Hfee Hmax. unfold Raw.apply.
  destruct (raw_destroy_law _ to m d (Raw.drops_destroyed t) Hto Hd Hfee Hmax) as (to1 & -> & Hto1).
  cbn [bind]. destruct (ascending_to_map (Raw.items t)) as [Hnd Hmap].
  destruct (apply_items_spec _ Hnd n to1 m (d + Raw.drops_destroyed t)) as (to' & Hrun & Hto'); [now rewrite ascending_length| |].
  - intros k e Hin. apply Hwf. now apply elem_of_ascending.
  - exists to'. split; [exact Hrun|]. now rewrite Hmap in Hto'.
Qed.
End Applying.
End RawRefinement.

(** ** ApplyStateTable *)

Module Apply.

Inductive Action : Type := Cache | Erase | Insert | Modify.

#[global] Instance Action_eq_dec : EqDecision Action.
Proof. solve_decision. Defined.

Section Apply.
Context {Payload : Type}.
Abbreviation Sle := (STLedgerEntry Payload).

Record StateEntry : Type := mkEntry { action : Action; sle : Sle }.

Record ApplyStateTable : Type := mkTable { items : gmap Z StateEntry; drops_destroyed : Z }.

Definition new : ApplyStateTable := mkTable ∅ 0.
Definition size_of (t : ApplyStateTable) : nat := size (items t).

Definition destroy_xrp (fee : Z) (t : ApplyStateTable) : outcome ViewError ApplyStateTable :=
  total <- plain I64 (drops_destroyed t + fee);; Ok (mkTable (items t) total).

Definition erased (t : ApplyStateTable) (k : Z) : bool :=
  match items t !! k with
  | Some e => bool_decide (action e = Erase)
  | None => false
  end.

Section Reading.
Context `{!ReadView (Payload := Payload) B}.

(** The loop over the base; [next.unwrap()] is of the key it holds. *)
Fixpoint succ_loop (fuel : nat) (t : ApplyStateTable) (base : B) (last : option Z) (next : Z)
    : outcome ViewError (option Z) :=
  match fuel with
  | O => OutOfFuel
  | S fuel =>
      next <- rv_succ base next last;;
      match next with
      | None => Ok None
      | Some n => if erased t n then succ_loop fuel t base last n else Ok (Some n)
      end
  end.

Definition succ (t : ApplyStateTable) (base : B) (k : Z) (last : option Z)
    : outcome ViewError (option Z) :=
  next <- succ_loop (S (size (items t))) t base last k;;
  let local_next :=
    fst <$> head (filter (fun e : Z * StateEntry => action e.2 <> Erase) (range_after k (items t))) in
  let result :=
    match next, local_next with
    | Some n, Some ln => Some (Z.min n ln)
    | Some n, None => Some n
    | None, Some ln => Some ln
    | None, None => None
    end in
  Ok (match result, last with
      | Some n, Some l => if n >=? l then None else result
      | _, _ => result
      end).

Definition exists_ (t : ApplyStateTable) (base : B) (k : Keylet) : outcome ViewError bool :=
  match items t !! key k with
  | Some e => Ok (bool_decide (action e <> Erase))
  | None => rv_exists base k
  end.

Definition read (t : ApplyStateTable) (base : B) (k : Keylet) : outcome ViewError (option Sle) :=
  match items t !! key k with
  | Some e => if bool_decide (action e = Erase) then Ok None else Ok (Some (sle e))
  | None => rv_read base k
  end.

Definition peek (t : ApplyStateTable) (base : B) (k : Keylet)
    : outcome ViewError (option Sle * ApplyStateTable) :=
  match items t !! key k with
  | Some e => if bool_decide (action e = Erase) then Ok (None, t) else Ok (Some (sle e), t)
  | None =>
      s <- rv_read base k;;
      Ok (s, match s with
             | Some s => mkTable (<[key k := mkEntry Cache s]> (items t)) (drops_destroyed t)
             | None => t
             end)
  end.
End Reading.

Definition put (k : Z) (a : Action) (s : Sle) (t : ApplyStateTable) : ApplyStateTable :=
  mkTable (<[k := mkEntry a s]> (items t)) (drops_destroyed t).

Definition insert (s : Sle) (t : ApplyStateTable) : outcome ViewError ApplyStateTable :=
  match action <$> items t !! sle_key s with
  | Some Cache => Err (Conversion "ApplyStateTable::insert: already cached")
  | Some Insert => Err (Conversion "ApplyStateTable::insert: already inserted")
  | Some Modify => Err (Conversion "ApplyStateTable::insert: already modified")
  | Some Erase => Ok (put (sle_key s) Modify s t)
  | None => Ok (put (sle_key s) Insert s t)
  end.

Definition replace (s : Sle) (t : ApplyStateTable) : outcome ViewError ApplyStateTable :=
  match action <$> items t !! sle_key s with
  | Some Erase => Err (Conversion "ApplyStateTable::replace: already erased")
  | Some Cache => Ok (put (sle_key s) Modify s t)
  | Some Insert => Ok (put (sle_key s) Insert s t)
  | Some Modify => Ok (put (sle_key s) Modify s t)
  | None => Ok (put (sle_key s) Modify s t)
  end.

Definition update (s : Sle) (t : ApplyStateTable) : outcome ViewError ApplyStateTable :=
  match action <$> items t !! sle_key s with
  | None => Err (Conversion "ApplyStateTable::update: missing key")
  | Some Erase => Err (Conversion "ApplyStateTable::update: erased")
  | Some Cache => Ok (put (sle_key s) Modify s t)
  | Some Insert => Ok (put (sle_key s) Insert s t)
  | Some Modify => Ok (put (sle_key s) Modify s t)
  end.

Definition erase (s : Sle) (t : ApplyStateTable) : outcome ViewError ApplyStateTable :=
  match action <$> items t !! sle_key s with
  | None => Err (Conversion "ApplyStateTable::erase: missing key")
  | Some Erase => Err (Conversion "ApplyStateTable::erase: double erase")
  | Some Insert => Ok (mkTable (delete (sle_key s) (items t)) (drops_destroyed t))
  | Some Cache | Some Modify => Ok (put (sle_key s) Erase s t)
  end.

(** The operations [apply] collects, in ascending order of keys. *)
Definition batch_ops (t : ApplyStateTable) : list (StateBatchOp * Sle) :=
  omap (fun e : Z * StateEntry =>
          match action e.2 with
          | Erase => Some (BatchDelete, sle e.2)
          | Insert => Some (BatchInsert, sle e.2)
          | Modify => Some (BatchUpdate, sle e.2)
          | Cache => None
          end) (ascending (items t)).

Definition apply `{!RawView (Payload := Payload) V} (t : ApplyStateTable) (to : V)
    : outcome ViewError V :=
  to <- raw_apply_sle_batch (batch_ops t) to;;
  rw_destroy_xrp (drops_destroyed t) to.

End Apply.
Arguments StateEntry : clear implicits.
Arguments ApplyStateTable : clear implicits.
End Apply.

(** ** An apply table is a raw table with a cache *)

Section ApplyRefinement.
Context {Payload : Type} `{!EntryRule Payload}.
Abbreviation Sle := (STLedgerEntry Payload).
Abbreviation State := (gmap Z Sle).
Abbreviation Table := (Apply.ApplyStateTable Payload).
Implicit Types (m : State) (t : Table) (s : Sle).

Definition change_of (e : Apply.StateEntry Payload) : option (Raw.SleAction Payload) :=
  match Apply.action e with
  | Apply.Cache => None
  | Apply.Erase => Some (Raw.mkAction Raw.Erase (Apply.sle e))
  | Apply.Insert => Some (Raw.mkAction Raw.Insert (Apply.sle e))
  | Apply.Modify => Some (Raw.mkAction Raw.Replace (Apply.sle e))
  end.

(** The changes of the table, without what it only caches. *)
Definition to_raw t : Raw.RawStateTable Payload :=
  Raw.mkTable (omap change_of (Apply.items t)) (Apply.drops_destroyed t).

(** The changes make sense on [m], and the cache agrees with [m]. *)
Definition apply_wf t m : Prop := raw_wf (to_raw t) m /\
  forall k e, Apply.items t !! k = Some e -> Apply.action e = Apply.Cache -> m !! k = Some (Apply.sle e).

Lemma lookup_to_raw t k : Raw.items (to_raw t) !! k = Apply.items t !! k ≫= change_of.
Proof. apply lookup_omap. Qed.

Lemma apply_wf_new m : apply_wf Apply.new m.
Proof.
  split; intros k e; cbn; [rewrite lookup_omap|]; rewrite lookup_empty; discriminate.
Qed.

(** What a lookup in the table tells of the contents. *)
Lemma lookup_applied t m k : apply_wf t m ->
  overlay (to_raw t) m !! k =
    match Apply.items t !! k with
    | Some e => if bool_decide (Apply.action e = Apply.Erase) then None else Some (Apply.sle e)
    | None => m !! k
    end.
Proof.
  intros [_ Hc]. rewrite lookup_overlay, lookup_to_raw.
  destruct (Apply.items t !! k) as [e|] eqn:He; [|reflexivity]. cbn. unfold change_of.
  destruct (Apply.action e) eqn:Ha; try reflexivity. cbn. now apply Hc.
Qed.

Lemma erased_to_raw t k : Apply.erased t k = Raw.erased (to_raw t) k.
Proof.
  unfold Apply.erased, Raw.erased. rewrite lookup_to_raw.
  destruct (Apply.items t !! k) as [e|]; [|reflexivity]. cbn. unfold change_of.
  now destruct (Apply.action e).
Qed.

Section Reading.
Context `{!ReadView (Payload := Payload) B}.
Implicit Types b : B.

Lemma succ_loop_to_raw fuel t b last c :
  Apply.succ_loop fuel t b last c = Raw.succ_loop fuel (to_raw t) b last (Some c).
Proof.
  revert c. induction fuel as [|fuel IH]; intros c; cbn [Apply.succ_loop Raw.succ_loop]; [reflexivity|].
  destruct (rv_succ b c last) as [[n|]| | | |]; try reflexivity. cbn [bind].
  rewrite erased_to_raw. destruct (Raw.erased _ n); [apply IH|reflexivity].
Qed.

Lemma is_some_applied t m n : apply_wf t m -> is_Some (overlay (to_raw t) m !! n) <->
  is_Some (live (to_raw t) m !! n) \/ exists e, Apply.items t !! n = Some e /\ Apply.action e <> Apply.Erase.
Proof.
  intros Hwf. rewrite lookup_applied, is_some_live, <- erased_to_raw by exact Hwf. unfold Apply.erased.
  destruct (Apply.items t !! n) as [e|] eqn:He.
  - case_bool_decide as Ha; split.
    + intros [? ?]. discriminate.
    + intros [[_ ?]|(e' & [= <-] & ?)]; [discriminate|contradiction].
    + intros _. right. eauto.
    + intros _. eauto.
  - split; [intros H; left; auto|]. intros [[H _]|(e' & ? & _)]; [exact H|discriminate].
Qed.

Lemma head_min {V} (l : list (Z * V)) : StronglySorted key_le l ->
  match fst <$> head l with
  | Some o => (exists v, (o, v) ∈ l) /\ forall e, e ∈ l -> o <= e.1
  | None => l = []
  end.
Proof.
  destruct l as [|[o v] l]; [reflexivity|]. intros [_ Hall]%StronglySorted_inv. cbn.
  rewrite Forall_forall in Hall. split; [exists v; left|].
  intros e [->|He]%elem_of_cons; [cbn; lia|apply (Hall e He)].
Qed.

Lemma apply_succ_spec b m t k last : view_of b m -> apply_wf t m -> range_ok k last ->
  exists r, Apply.succ t b k last = Ok r /\ is_succ (overlay (to_raw t) m) k last r.
Proof.
  intros Hb Hwf Hrange. unfold Apply.succ. rewrite succ_loop_to_raw.
  destruct (succ_loop_spec b m (to_raw t) k last Hb (S (size (Apply.items t))) k) as (next & -> & Hnext).
  - assert (size (keys_after (to_raw t) k) <= size (dom (Apply.items t)))%nat as Hle.
    { apply subseteq_size. unfold keys_after. cbn. intros n. rewrite elem_of_filter, !elem_of_dom, lookup_omap.
      intros [_ [? Hn]]. destruct (Apply.items t !! n); [eauto|discriminate]. }
    rewrite size_dom in Hle. lia.
  - exact Hrange.
  - lia.
  - intros n _ ?. lia.
  - cbn [bind]. eexists. split; [reflexivity|].
    set (l := filter (fun e : Z * Apply.StateEntry Payload => Apply.action e.2 <> Apply.Erase)
                (range_after k (Apply.items t))).
    pose (P := fun n => exists e, Apply.items t !! n = Some e /\ Apply.action e <> Apply.Erase).
    assert (forall n v, (n, v) ∈ l <-> Apply.items t !! n = Some v /\ Apply.action v <> Apply.Erase /\ k < n) as Hl.
    { intros n v. unfold l. rewrite list_elem_of_filter, elem_of_range_after. cbn. tauto. }
    pose proof (head_min l ltac:(apply StronglySorted_filter, StronglySorted_filter, ascending_sorted)) as Hh.
    pose proof (is_succ_min (overlay (to_raw t) m) (live (to_raw t) m) P k last next (fst <$> head l)
      (fun n => is_some_applied t m n Hwf) Hnext) as H.
    destruct (fst <$> head l) as [o|].
    + destruct Hh as [[v Hv] Hmin]. apply Hl in Hv as (Hv & Ha & Hk).
      assert (P o /\ k < o /\ forall o', P o' -> k < o' -> o <= o') as Hpre.
      { split; [exists v; auto|]. split; [exact Hk|]. intros o' (e' & He' & Hne') Hk'.
        apply (Hmin (o', e')), Hl. auto. }
      specialize (H Hpre). destruct next, last; exact H.
    + assert (forall o, P o -> ~ k < o) as Hpre.
      { intros o (e & He & Hne) Hk. assert ((o, e) ∈ l) as Hin by (apply Hl; auto).
        rewrite Hh in Hin. inversion Hin. }
      specialize (H Hpre). destruct next, last; exact H.
Qed.
End Reading.

(** ** The checked operations of an apply table are those of a raw table *)

Lemma to_raw_put k a s t : a <> Apply.Cache -> k = sle_key s -> exists a',
  to_raw (Apply.put k a s t) = Raw.put a' s (to_raw t) /\
  a' = match a with Apply.Insert => Raw.Insert | Apply.Erase => Raw.Erase | _ => Raw.Replace end.
Proof.
  intros Ha ->. eexists. split; [|reflexivity]. unfold to_raw, Raw.put. cbn. f_equal.
  apply omap_insert_Some. destruct a; try reflexivity. contradiction.
Qed.

Lemma apply_wf_put a s t m t' : apply_wf t m -> a <> Apply.Cache -> t' = Apply.put (sle_key s) a s t ->
  raw_wf (to_raw t') m -> apply_wf t' m.
Proof.
  intros [_ Hc] Ha -> Hwf. split; [exact Hwf|]. intros k e. cbn. rewrite lookup_insert_Some.
  intros [[_ <-]|[_ He]]; [contradiction|]. eauto.
Qed.

(** One step of the simulation: [op] on the apply table is [raw_op] on its
    changes. *)
Lemma apply_insert_raw s t t' : Apply.insert s t = Ok t' -> Raw.insert s (to_raw t) = Ok (to_raw t').
Proof.
  unfold Apply.insert, Raw.insert. rewrite lookup_to_raw.
  destruct (Apply.items t !! sle_key s) as [[[] s0]|]; cbn; try discriminate; intros [= <-];
    edestruct (to_raw_put (sle_key s)) as (a' & -> & ->); try reflexivity; discriminate.
Qed.

Lemma apply_update_raw s t t' : Apply.update s t = Ok t' -> Raw.replace s (to_raw t) = Ok (to_raw t').
Proof.
  unfold Apply.update, Raw.replace. rewrite lookup_to_raw.
  destruct (Apply.items t !! sle_key s) as [[[] s0]|]; cbn; try discriminate; intros [= <-];
    edestruct (to_raw_put (sle_key s)) as (a' & -> & ->); try reflexivity; discriminate.
Qed.

Lemma apply_replace_raw s t t' : Apply.replace s t = Ok t' -> Raw.replace s (to_raw t) = Ok (to_raw t').
Proof.
  unfold Apply.replace, Raw.replace. rewrite lookup_to_raw.
  destruct (Apply.items t !! sle_key s) as [[[] s0]|]; cbn; try discriminate; intros [= <-];
    edestruct (to_raw_put (sle_key s)) as (a' & -> & ->); try reflexivity; discriminate.
Qed.

Lemma apply_erase_raw s t t' : Apply.erase s t = Ok t' -> Raw.erase s (to_raw t) = Ok (to_raw t').
Proof.
  unfold Apply.erase, Raw.erase. rewrite lookup_to_raw.
  destruct (Apply.items t !! sle_key s) as [[[] s0]|] eqn:Hs; cbn; try discriminate; intros [= <-].
  - edestruct (to_raw_put (sle_key s)) as (a' & -> & ->); try reflexivity. discriminate.
  - unfold to_raw. cbn. now rewrite omap_delete.
  - edestruct (to_raw_put (sle_key s)) as (a' & -> & ->); try reflexivity. discriminate.
Qed.

(** Whether the table has seen a key. *)
Definition checked_out t k : Prop := is_Some (Apply.items t !! k).
End ApplyRefinement.
