(* ===== verification/Sandbox.v ===== *)
(** * Sandbox: transaction views and how they are committed

    Models the views that transactions write to: [ApplyView] of
    [xrpld/ledger/src/views/apply_view.rs], [Sandbox] of [sandbox.rs] and
    [FlowSandbox] of [flow_sandbox.rs] (reading, staging and [apply]; its
    metadata plan is not modelled).

    A write takes [&mut self] and can fail half way, so an [ApplyView] operation
    is a computation of type [io V A]: it returns the view also when it fails.
    What an [ApplyView] promises is the class [ApplyViewLaws], against a finite
    map from keys to entries.  A [Sandbox] over any reader keeps it, and a
    [FlowSandbox] over any view that keeps it keeps it again, so the views stack.

    Every entry has the type its key was made for: a key is a hash over a
    type-specific space, so the type is a function [kind] of the key. *)

From stdpp Require Import gmap sorting strings.
From Stdlib Require Import ZArith Lia.
From S2P Require Import Prelude Views.
Local Open Scope Z_scope.

(** ** Computations on a view *)

Definition io (V A : Type) : Type := V -> outcome ViewError A * V.

Definition io_ret {V A} (a : A) : io V A := fun v => (Ok a, v).
Definition io_err {V A} (e : ViewError) : io V A := fun v => (Err e, v).

Definition io_bind {V A B} (m : io V A) (k : A -> io V B) : io V B := fun v =>
  match m v with
  | (Ok a, v) => k a v
  | (Err e, v) => (Err e, v)
  | (Panic, v) => (Panic, v)
  | (Wraps, v) => (Wraps, v)
  | (OutOfFuel, v) => (OutOfFuel, v)
  end.

Declare Scope io_scope.
Notation "x <-- m ;; k" := (io_bind m (fun x => k))
  (at level 20, m at level 99, k at level 200) : io_scope.
Local Open Scope io_scope.

(** A look at the view that does not change it. *)
Definition look {V A} (f : V -> outcome ViewError A) : io V A := fun v => (f v, v).

(** A write that fails before it has changed anything. *)
Definition write {V} (f : V -> outcome ViewError V) : io V unit := fun v =>
  match f v with
  | Ok v' => (Ok tt, v')
  | Err e => (Err e, v)
  | Panic => (Panic, v)
  | Wraps => (Wraps, v)
  | OutOfFuel => (OutOfFuel, v)
  end.

(** ** ApplyFlags *)

Definition NONE : Z := 0.
Definition DRY_RUN : Z := 0x1000.
Definition any_apply_flags (flags : Z) : bool := negb (flags =? 0).

(** ** The trait *)

Class ApplyView {Payload : Type} (V : Type) : Type := {
  av_flags : V -> Z;
  av_peek : Keylet -> io V (option (STLedgerEntry Payload));
  av_insert : STLedgerEntry Payload -> io V unit;
  av_update : STLedgerEntry Payload -> io V unit;
  av_erase : STLedgerEntry Payload -> io V unit;
  av_destroy_xrp : Z -> io V unit
}.

(** ** Sandbox *)

Section Sandbox.
Context {Payload B : Type}.
Abbreviation Sle := (STLedgerEntry Payload).
Abbreviation Table := (Apply.ApplyStateTable Payload).

Record Sandbox : Type := mkSandbox { sb_base : B; sb_table : Table; sb_flags : Z }.

Definition sandbox_new (base : B) (flags : Z) : Sandbox := mkSandbox base Apply.new flags.

Definition sandbox_apply `{!RawView (Payload := Payload) V} (sb : Sandbox) (to : V)
    : outcome ViewError V := Apply.apply (sb_table sb) to.

Definition on_table (f : Table -> outcome ViewError Table) (sb : Sandbox) : outcome ViewError Sandbox :=
  t <- f (sb_table sb);; Ok (mkSandbox (sb_base sb) t (sb_flags sb)).

#[export] Instance Sandbox_raw : RawView (Payload := Payload) Sandbox := {
  rw_erase s := on_table (Apply.erase s);
  rw_insert s := on_table (Apply.insert s);
  rw_replace s := on_table (Apply.replace s);
  rw_destroy_xrp fee := on_table (Apply.destroy_xrp fee)
}.

Context `{!ReadView (Payload := Payload) B}.

#[export] Instance Sandbox_read : ReadView (Payload := Payload) Sandbox := {
  rv_exists sb k := Apply.exists_ (sb_table sb) (sb_base sb) k;
  rv_succ sb k last := Apply.succ (sb_table sb) (sb_base sb) k last;
  rv_read sb k := Apply.read (sb_table sb) (sb_base sb) k
}.

Definition sandbox_peek (k : Keylet) : io Sandbox (option Sle) := fun sb =>
  match Apply.peek (sb_table sb) (sb_base sb) k with
  | Ok (s, t) => (Ok s, mkSandbox (sb_base sb) t (sb_flags sb))
  | Err e => (Err e, sb)
  | Panic => (Panic, sb)
  | Wraps => (Wraps, sb)
  | OutOfFuel => (OutOfFuel, sb)
  end.

#[export] Instance Sandbox_apply_view : ApplyView (Payload := Payload) Sandbox := {
  av_flags := sb_flags;
  av_peek := sandbox_peek;
  av_insert s := write (rw_insert s);
  av_update s := write (on_table (Apply.update s));
  av_erase s := write (rw_erase s);
  av_destroy_xrp fee := write (rw_destroy_xrp fee)
}.
End Sandbox.

(** ** FlowSandbox *)

Module Flow.

Inductive Action : Type := Insert | Modify | Erase.

#[global] Instance Action_eq_dec : EqDecision Action.
Proof. solve_decision. Defined.

Section Flow.
Context {Payload V : Type}.
Abbreviation Sle := (STLedgerEntry Payload).

Record Entry : Type := mkEntry { action : Action; sle : Sle }.

Record FlowSandbox : Type := mkFlow {
  parent : V;
  items : gmap Z Entry;
  drops_destroyed : Z;
  flags : option Z
}.

Definition new (p : V) : FlowSandbox := mkFlow p ∅ 0 None.
Definition new_with_flags (p : V) (fl : Z) : FlowSandbox := mkFlow p ∅ 0 (Some fl).

Definition with_parent (p : V) (fs : FlowSandbox) : FlowSandbox :=
  mkFlow p (items fs) (drops_destroyed fs) (flags fs).
Definition with_items (its : gmap Z Entry) (fs : FlowSandbox) : FlowSandbox :=
  mkFlow (parent fs) its (drops_destroyed fs) (flags fs).

Definition erased (fs : FlowSandbox) (k : Z) : bool :=
  match items fs !! k with
  | Some e => bool_decide (action e = Erase)
  | None => false
  end.

Definition raw_insert (s : Sle) (fs : FlowSandbox) : FlowSandbox :=
  let a := if erased fs (sle_key s) then Modify else Insert in
  with_items (<[sle_key s := mkEntry a s]> (items fs)) fs.

(** [existing.action == Action::Insert] *)
Definition inserted (fs : FlowSandbox) (k : Z) : bool :=
  match items fs !! k with
  | Some e => bool_decide (action e = Insert)
  | None => false
  end.

Definition raw_replace (s : Sle) (fs : FlowSandbox) : FlowSandbox :=
  let a := if inserted fs (sle_key s) then Insert else Modify in
  with_items (<[sle_key s := mkEntry a s]> (items fs)) fs.

Definition raw_erase (s : Sle) (fs : FlowSandbox) : FlowSandbox :=
  if inserted fs (sle_key s) then with_items (delete (sle_key s) (items fs)) fs
  else with_items (<[sle_key s := mkEntry Erase s]> (items fs)) fs.

Definition raw_destroy_xrp (fee : Z) (fs : FlowSandbox) : outcome ViewError FlowSandbox :=
  total <- plain I64 (drops_destroyed fs + fee);;
  Ok (mkFlow (parent fs) (items fs) total (flags fs)).

#[global] Instance Flow_raw : RawView (Payload := Payload) FlowSandbox := {
  rw_erase s fs := Ok (raw_erase s fs);
  rw_insert s fs := Ok (raw_insert s fs);
  rw_replace s fs := Ok (raw_replace s fs);
  rw_destroy_xrp fee := raw_destroy_xrp fee
}.

Context `{!ReadView (Payload := Payload) V}.

Definition exists_ (fs : FlowSandbox) (k : Keylet) : outcome ViewError bool :=
  match items fs !! key k with
  | Some e => Ok (bool_decide (action e <> Erase))
  | None => rv_exists (parent fs) k
  end.

Definition read (fs : FlowSandbox) (k : Keylet) : outcome ViewError (option Sle) :=
  match items fs !! key k with
  | Some e => if bool_decide (action e = Erase) then Ok None else Ok (Some (sle e))
  | None => rv_read (parent fs) k
  end.

Fixpoint succ_loop (fuel : nat) (fs : FlowSandbox) (last : option Z) (next : Z)
    : outcome ViewError (option Z) :=
  match fuel with
  | O => OutOfFuel
  | S fuel =>
      next <- rv_succ (parent fs) next last;;
      match next with
      | None => Ok None
      | Some n => if erased fs n then succ_loop fuel fs last n else Ok (Some n)
      end
  end.

(** The loop over the staged entries after the key, left at the first that is
    not an erasure. *)
Fixpoint succ_items (entries : list (Z * Entry)) (next : option Z) : option Z :=
  match entries with
  | [] => next
  | (item_key, e) :: entries =>
      if bool_decide (action e <> Erase) then
        match next with
        | None => Some item_key
        | Some n => if n >? item_key then Some item_key else next
        end
      else succ_items entries next
  end.

Definition succ (fs : FlowSandbox) (k : Z) (last : option Z) : outcome ViewError (option Z) :=
  next <- succ_loop (S (size (items fs))) fs last k;;
  let next := succ_items (range_after k (items fs)) next in
  Ok (match last, next with
      | Some l, Some n => if n >=? l then None else next
      | _, _ => next
      end).

#[global] Instance Flow_read : ReadView (Payload := Payload) FlowSandbox := {
  rv_exists := exists_;
  rv_succ := succ;
  rv_read := read
}.

Context `{!ApplyView (Payload := Payload) V}.

Definition flags_of (fs : FlowSandbox) : Z :=
  match flags fs with Some f => f | None => av_flags (parent fs) end.

Definition peek (k : Keylet) : io FlowSandbox (option Sle) := fun fs =>
  match items fs !! key k with
  | Some e => if bool_decide (action e = Erase) then (Ok None, fs) else (Ok (Some (sle e)), fs)
  | None => let '(r, p) := av_peek k (parent fs) in (r, with_parent p fs)
  end.

#[global] Instance Flow_apply_view : ApplyView (Payload := Payload) FlowSandbox := {
  av_flags := flags_of;
  av_peek := peek;
  av_insert s := write (rw_insert s);
  av_update s := write (rw_replace s);
  av_erase s := write (rw_erase s);
  av_destroy_xrp fee := write (rw_destroy_xrp fee)
}.

(** *** Committing to the parent *)

Definition keylet_of (k : Z) (e : Entry) : Keylet := mkKeylet k (sle_type (sle e)).

Fixpoint validate_parent_commit (operation : string) (entries : list (Z * Entry)) : io V unit :=
  match entries with
  | [] => io_ret tt
  | (k, e) :: entries =>
      existing <-- look (fun p => rv_read p (keylet_of k e));;
      match action e, existing with
      | Insert, Some _ =>
          io_err (Conversion (String.app operation ": inserted parent entry already exists"))
      | Insert, None => validate_parent_commit operation entries
      | _, None => io_err (Conversion (String.app operation ": parent entry disappeared"))
      | _, Some _ =>
          _ <-- av_peek (keylet_of k e);;
          validate_parent_commit operation entries
      end
  end.

Fixpoint commit (entries : list (Z * Entry)) : io V unit :=
  match entries with
  | [] => io_ret tt
  | (k, e) :: entries =>
      _ <-- match action e with
            | Insert => av_insert (sle e)
            | Modify =>
                found <-- av_peek (keylet_of k e);;
                match found with
                | None => io_err (Conversion "FlowSandbox::apply: modified parent entry disappeared")
                | Some _ => av_update (sle e)
                end
            | Erase =>
                found <-- av_peek (keylet_of k e);;
                match found with
                | None => io_err (Conversion "FlowSandbox::apply: erased parent entry disappeared")
                | Some _ => av_erase (sle e)
                end
            end;;
      commit entries
  end.

(** [TapDryRun] must not burn the ledger's XRP total. *)
Definition burns (fs : FlowSandbox) : bool :=
  (drops_destroyed fs >? 0) && negb (any_apply_flags (Z.land (flags_of fs) DRY_RUN)).

(** [apply] consumes the sandbox; what is left is the parent. *)
Definition apply (fs : FlowSandbox) : outcome ViewError unit * V :=
  (_ <-- validate_parent_commit "FlowSandbox::apply" (ascending (items fs));;
   _ <-- (fun p => (if burns (with_parent p fs) then av_destroy_xrp (drops_destroyed fs) else io_ret tt) p);;
   commit (ascending (items fs))) (parent fs).

End Flow.
Arguments Entry : clear implicits.
Arguments FlowSandbox : clear implicits.
End Flow.

(** ** What an ApplyView promises *)

Section Laws.
Context {Payload : Type} `{!EntryRule Payload} (kind : Z -> LedgerEntryType).
Abbreviation Sle := (STLedgerEntry Payload).
Abbreviation State := (gmap Z Sle).
Implicit Types (m : State) (s : Sle).

(** Entries have the type of their key. *)
Definition kinded m : Prop := forall k s, m !! k = Some s -> sle_type s = kind k.
Definition keylet_ok (k : Keylet) : Prop := is_uint256 (key k) /\ entry_type k = kind (key k).
Definition sle_ok s : Prop := admissible s /\ sle_type s = kind (sle_key s).

(** [holds v m d]: the view [v] shows the contents [m] and has destroyed [d]
    drops since it was made; [out v k]: the entry at [k] has been checked out. *)
Class ApplyViewLaws `{!ReadView (Payload := Payload) V, !ApplyView (Payload := Payload) V}
    (holds : V -> State -> Z -> Prop) (out : V -> Z -> Prop) : Prop := {
  av_view_law : forall v m d, holds v m d -> view_of v m;
  av_kinded_law : forall v m d, holds v m d -> kinded m;
  av_flags_law : forall v m d v' m' d', holds v m d -> holds v' m' d' -> av_flags v' = av_flags v;
  av_peek_law : forall v m d k, holds v m d -> keylet_ok k ->
    exists v', av_peek k v = (Ok (m !! key k), v') /\ holds v' m d /\
      (is_Some (m !! key k) -> out v' (key k));
  av_insert_law : forall v m d s, holds v m d -> sle_ok s -> m !! sle_key s = None ->
    exists v', av_insert s v = (Ok tt, v') /\ holds v' (<[sle_key s := s]> m) d;
  av_update_law : forall v m d s, holds v m d -> sle_ok s -> is_Some (m !! sle_key s) -> out v (sle_key s) ->
    exists v', av_update s v = (Ok tt, v') /\ holds v' (<[sle_key s := s]> m) d;
  av_erase_law : forall v m d s, holds v m d -> sle_ok s -> is_Some (m !! sle_key s) -> out v (sle_key s) ->
    exists v', av_erase s v = (Ok tt, v') /\ holds v' (delete (sle_key s) m) d;
  av_destroy_law : forall v m d fee, holds v m d -> 0 <= d -> 0 <= fee -> d + fee <= max_of I64 ->
    exists v', av_destroy_xrp fee v = (Ok tt, v') /\ holds v' m (d + fee)
}.

Lemma kinded_insert m s : kinded m -> sle_ok s -> kinded (<[sle_key s := s]> m).
Proof. intros Hm [_ Hs] k s'. rewrite lookup_insert_Some. intros [[<- <-]|[_ H]]; eauto. Qed.

Lemma kinded_delete m k : kinded m -> kinded (delete k m).
Proof. intros Hm k' s. rewrite lookup_delete_Some. intros [_ H]. eauto. Qed.

Lemma kinded_fits `{!ReadView (Payload := Payload) V} (v : V) m k : view_of v m -> kinded m ->
  keylet_ok k -> keylet_fits m k.
Proof.
  intros Hv Hm [Hr Hk]. split; [exact Hr|]. intros s Hs. destruct (vo_entries v m Hv _ _ Hs) as [Hkey Hc].
  apply admissible_concrete in Hc. pose proof (Hm _ _ Hs) as Ht. unfold check_ledger_entry. rewrite Hc, Hk, <- Ht, Hkey. cbn.
  rewrite Z.eqb_refl. destruct (sle_type s); try discriminate; reflexivity.
Qed.

(** ** A Sandbox keeps it *)

Section Sandbox.
Context `{!ReadView (Payload := Payload) B}.
Abbreviation SB := (Sandbox (Payload := Payload) (B := B)).
Implicit Types sb : SB.

(** A sandbox over [b], whose contents are [m0]. *)
Definition holds_sandbox (b : B) m0 (fl : Z) sb m (d : Z) : Prop := (sb_base sb = b /\ sb_flags sb = fl) /\
  view_of (sb_base sb) m0 /\ kinded m0 /\ apply_wf (sb_table sb) m0 /\ kinded m /\
  overlay (to_raw (sb_table sb)) m0 = m /\ Apply.drops_destroyed (sb_table sb) = d.

Lemma cache_to_raw (t : Apply.ApplyStateTable Payload) k s : Apply.items t !! k = None ->
  to_raw (Apply.put k Apply.Cache s t) = to_raw t.
Proof.
  intros Hk. unfold to_raw. cbn. f_equal. rewrite omap_insert_None by reflexivity.
  apply delete_id. now rewrite lookup_omap, Hk.
Qed.

Lemma exists_by_action (e : Apply.StateEntry Payload) :
  Ok (E := ViewError) (bool_decide (Apply.action e <> Apply.Erase)) =
  Ok (bool_decide (is_Some (if bool_decide (Apply.action e = Apply.Erase) then None else Some (Apply.sle e)))).
Proof. f_equal. apply bool_decide_ext. case_bool_decide; split; try tauto; [intros [? ?]; discriminate|eauto]. Qed.

Definition sandbox_out sb k : Prop := checked_out (sb_table sb) k.

Lemma sandbox_view_of sb m0 : view_of (sb_base sb) m0 -> apply_wf (sb_table sb) m0 ->
  view_of sb (overlay (to_raw (sb_table sb)) m0).
Proof.
  intros Hb Hwf.
  assert (forall k, keylet_fits (overlay (to_raw (sb_table sb)) m0) k ->
    Apply.items (sb_table sb) !! key k = None -> keylet_fits m0 k) as Hfit.
  { intros k Hk Hn. apply (base_fits _ _ _ Hk). now rewrite lookup_to_raw, Hn. }
  constructor.
  - intros k s. rewrite lookup_overlay. destruct (Raw.items _ !! k) as [e|] eqn:He; cbn.
    + case_bool_decide; [discriminate|]. intros [= <-]. apply (proj1 Hwf k e He).
    + apply (vo_entries _ _ Hb).
  - intros k Hk. rewrite lookup_applied by exact Hwf. cbn. unfold Apply.exists_.
    destruct (Apply.items _ !! key k) as [e|] eqn:He.
    + now apply exists_by_action.
    + apply (vo_exists _ _ Hb). auto.
  - intros k Hk. rewrite lookup_applied by exact Hwf. cbn. unfold Apply.read.
    destruct (Apply.items _ !! key k) as [e|] eqn:He; [now case_bool_decide|].
    apply (vo_read _ _ Hb). auto.
  - intros k last. now apply apply_succ_spec.
Qed.

Lemma sandbox_peek_spec b m0 fl sb m d k : holds_sandbox b m0 fl sb m d -> keylet_ok k ->
  exists sb', av_peek k sb = (Ok (m !! key k), sb') /\ holds_sandbox b m0 fl sb' m d /\
    (is_Some (m !! key k) -> sandbox_out sb' (key k)).
Proof.
  intros (Hbase & Hb & Hk0 & Hwf & Hkm & <- & <-) Hk. cbn. unfold sandbox_peek, Apply.peek, sandbox_out, checked_out.
  rewrite lookup_applied by exact Hwf. destruct (Apply.items (sb_table sb) !! key k) as [e|] eqn:He.
  - destruct (bool_decide _); eexists; (split; [reflexivity|]); cbn; rewrite He;
      (split; [hnf; auto 10|]); eauto.
  - rewrite (vo_read _ _ Hb) by (eapply kinded_fits; eauto). cbn [bind].
    destruct (m0 !! key k) as [s|] eqn:Hs; (eexists; split; [reflexivity|]); cbn.
    + rewrite lookup_insert_eq. split; [|eauto].
      pose proof (cache_to_raw (sb_table sb) (key k) s He) as Hr. unfold Apply.put in Hr.
      split; [exact Hbase|]. cbn. rewrite Hr. split; [exact Hb|]. split; [exact Hk0|]. split; [split|auto].
      * cbn. rewrite Hr. apply Hwf.
      * intros k' e'. cbn. rewrite lookup_insert_Some. intros [[<- <-]|[_ He']]; [auto|]. now apply Hwf.
    + rewrite He. split; [hnf; auto 10|]. intros [? ?]. discriminate.
Qed.

(** The writes of an apply table, against the contents it shows. *)
Lemma applied_insert s (t : Apply.ApplyStateTable Payload) m0 : apply_wf t m0 -> admissible s ->
  overlay (to_raw t) m0 !! sle_key s = None ->
  exists t', Apply.insert s t = Ok t' /\ apply_wf t' m0 /\
    overlay (to_raw t') m0 = <[sle_key s := s]> (overlay (to_raw t) m0) /\
    Apply.drops_destroyed t' = Apply.drops_destroyed t.
Proof.
  intros Hwf Hs Ho. destruct (raw_insert_spec s (to_raw t) m0 (proj1 Hwf) Hs Ho) as (r & Hr & Hrwf & Hro & _).
  rewrite lookup_applied in Ho by exact Hwf.
  assert (exists a, a <> Apply.Cache /\ Apply.insert s t = Ok (Apply.put (sle_key s) a s t)) as (a & Ha & Hi).
  { unfold Apply.insert. destruct (Apply.items t !! sle_key s) as [[[] s0]|]; cbn in *; try discriminate;
      eexists; (split; [|reflexivity]); discriminate. }
  rewrite (apply_insert_raw _ _ _ Hi) in Hr. injection Hr as <-.
  eexists. split; [exact Hi|]. split; [|auto]. eapply apply_wf_put; eauto.
Qed.

Lemma applied_update s (t : Apply.ApplyStateTable Payload) m0 : apply_wf t m0 -> admissible s ->
  is_Some (overlay (to_raw t) m0 !! sle_key s) -> checked_out t (sle_key s) ->
  exists t', Apply.update s t = Ok t' /\ apply_wf t' m0 /\
    overlay (to_raw t') m0 = <[sle_key s := s]> (overlay (to_raw t) m0) /\
    Apply.drops_destroyed t' = Apply.drops_destroyed t.
Proof.
  intros Hwf Hs Ho [e He]. destruct (raw_replace_spec s (to_raw t) m0 (proj1 Hwf) Hs Ho) as (r & Hr & Hrwf & Hro & _).
  rewrite lookup_applied, He in Ho by exact Hwf.
  assert (exists a, a <> Apply.Cache /\ Apply.update s t = Ok (Apply.put (sle_key s) a s t)) as (a & Ha & Hi).
  { unfold Apply.update. rewrite He. destruct e as [[] s0]; cbn in *; [|destruct Ho; discriminate|..];
      eexists; (split; [|reflexivity]); discriminate. }
  rewrite (apply_update_raw _ _ _ Hi) in Hr. injection Hr as <-.
  eexists. split; [exact Hi|]. split; [|auto]. eapply apply_wf_put; eauto.
Qed.

Lemma apply_wf_delete (t : Apply.ApplyStateTable Payload) m0 k :
  apply_wf t m0 -> apply_wf (Apply.mkTable (delete k (Apply.items t)) (Apply.drops_destroyed t)) m0.
Proof.
  intros [Hwf Hc]. split; intros k' e; cbn.
  - rewrite omap_delete, lookup_delete_Some. intros [_ H]. now apply Hwf.
  - rewrite lookup_delete_Some. intros [_ H]. now apply Hc.
Qed.

Lemma applied_erase s (t : Apply.ApplyStateTable Payload) m0 : apply_wf t m0 -> admissible s ->
  is_Some (overlay (to_raw t) m0 !! sle_key s) -> checked_out t (sle_key s) ->
  exists t', Apply.erase s t = Ok t' /\ apply_wf t' m0 /\
    overlay (to_raw t') m0 = delete (sle_key s) (overlay (to_raw t) m0) /\
    Apply.drops_destroyed t' = Apply.drops_destroyed t.
Proof.
  intros Hwf Hs Ho [e He]. destruct (raw_erase_spec s (to_raw t) m0 (proj1 Hwf) Hs Ho) as (r & Hr & Hrwf & Hro & _).
  rewrite lookup_applied, He in Ho by exact Hwf.
  assert (exists t', Apply.erase s t = Ok t' /\ (raw_wf (to_raw t') m0 -> apply_wf t' m0) /\
    Apply.drops_destroyed t' = Apply.drops_destroyed t) as (t' & Ht & Hw & Hd).
  { unfold Apply.erase. rewrite He. destruct e as [[] s0]; cbn in *; [|destruct Ho; discriminate|..];
      (eexists; split; [reflexivity|]; split; [|reflexivity]); intros Hr'.
    - eapply apply_wf_put; eauto. discriminate.
    - now apply apply_wf_delete.
    - eapply apply_wf_put; eauto. discriminate. }
  rewrite (apply_erase_raw _ _ _ Ht) in Hr. injection Hr as <-. exists t'. auto.
Qed.

#[export] Instance sandbox_laws b m0 fl : ApplyViewLaws (holds_sandbox b m0 fl) sandbox_out.
Proof.
  constructor.
  - intros sb m d (Hbase & Hb & _ & Hwf & _ & <- & _). now apply sandbox_view_of.
  - intros sb m d (Hbase & _ & _ & _ & Hk & _). exact Hk.
  - intros sb m d sb' m' d' [[_ Hf] _] [[_ Hf'] _]. cbn. congruence.
  - intros sb m d k. apply sandbox_peek_spec.
  - intros sb m d s (Hbase & Hb & Hk0 & Hwf & Hkm & <- & <-) Hs Hk.
    destruct (applied_insert s _ m0 Hwf (proj1 Hs) Hk) as (t' & Ht & Hwf' & Ho & Hd).
    cbn. unfold write, on_table. rewrite Ht. cbn. eexists. split; [reflexivity|].
    split; [exact Hbase|]. cbn. rewrite Ho. auto 10 using kinded_insert.
  - intros sb m d s (Hbase & Hb & Hk0 & Hwf & Hkm & <- & <-) Hs Hk Hout.
    destruct (applied_update s _ m0 Hwf (proj1 Hs) Hk Hout) as (t' & Ht & Hwf' & Ho & Hd).
    cbn. unfold write, on_table. rewrite Ht. cbn. eexists. split; [reflexivity|].
    split; [exact Hbase|]. cbn. rewrite Ho. auto 10 using kinded_insert.
  - intros sb m d s (Hbase & Hb & Hk0 & Hwf & Hkm & <- & <-) Hs Hk Hout.
    destruct (applied_erase s _ m0 Hwf (proj1 Hs) Hk Hout) as (t' & Ht & Hwf' & Ho & Hd).
    cbn. unfold write, on_table. rewrite Ht. cbn. eexists. split; [reflexivity|].
    split; [exact Hbase|]. cbn. rewrite Ho. auto 10 using kinded_delete.
  - intros sb m d fee (Hbase & Hb & Hk0 & Hwf & Hkm & Ho & Hd) Hpos Hfee Hmax.
    cbn. unfold write, on_table, Apply.destroy_xrp. rewrite Hd, plain_ok by (cbn [min_of]; lia).
    eexists. split; [reflexivity|]. split; [exact Hbase|]. cbn. auto 10.
Qed.
End Sandbox.

(** ** Committing an apply table to a writer *)

Definition change_at (e : Z * Apply.StateEntry Payload) : option (Z * Raw.SleAction Payload) :=
  (e.1,.) <$> change_of e.2.

Lemma batch_as_items `{!RawView (Payload := Payload) V} (l : list (Z * Apply.StateEntry Payload)) (to : V) :
  raw_apply_sle_batch (omap (fun e : Z * Apply.StateEntry Payload =>
          match Apply.action e.2 with
          | Apply.Erase => Some (BatchDelete, Apply.sle e.2)
          | Apply.Insert => Some (BatchInsert, Apply.sle e.2)
          | Apply.Modify => Some (BatchUpdate, Apply.sle e.2)
          | Apply.Cache => None
          end) l) to = Raw.apply_items (omap change_at l) to.
Proof.
  revert to. induction l as [|[k e] l IH]; intros to; [reflexivity|].
  cbn [omap list_omap]. unfold change_at at 1, change_of. cbn [fst snd].
  destruct (Apply.action e); cbn; try apply IH.
  - destruct (rw_erase (Apply.sle e) to); cbn; try reflexivity; apply IH.
  - destruct (rw_insert (Apply.sle e) to); cbn; try reflexivity; apply IH.
  - destruct (rw_replace (Apply.sle e) to); cbn; try reflexivity; apply IH.
Qed.

Lemma change_at_keys (l : list (Z * Apply.StateEntry Payload)) k :
  k ∈ (omap change_at l).*1 -> k ∈ l.*1.
Proof.
  intros [[k' r] [-> Hin]]%list_elem_of_fmap. apply list_elem_of_omap in Hin as [[k'' e] [Hin He]].
  unfold change_at in He. cbn in He. destruct (change_of e); cbn in He; [|discriminate].
  injection He as <- <-. apply (list_elem_of_fmap_2 fst _ _ Hin).
Qed.

Lemma changes_to_map (l : list (Z * Apply.StateEntry Payload)) : NoDup l.*1 ->
  NoDup (omap change_at l).*1 /\ list_to_map (omap change_at l) =@{gmap _ _} omap change_of (list_to_map l).
Proof.
  induction l as [|[k e] l IH]; intros Hnd.
  - split; [constructor|]. change (omap change_at []) with (@nil (Z * Raw.SleAction Payload)).
    now rewrite !list_to_map_nil, omap_empty.
  - apply NoDup_cons in Hnd as [Hk Hnd]. destruct (IH Hnd) as [IH1 IH2]. cbn [omap list_omap].
    rewrite list_to_map_cons. destruct (change_of e) as [r|] eqn:He.
    + replace (change_at (k, e)) with (Some (k, r)) by (unfold change_at; cbn; now rewrite He).
      cbn [list_omap fmap list_fmap fst]. rewrite list_to_map_cons, IH2. split.
      * apply NoDup_cons. split; [|exact IH1]. intros H%change_at_keys. contradiction.
      * symmetry. now apply omap_insert_Some.
    + replace (change_at (k, e)) with (@None (Z * Raw.SleAction Payload)) by (unfold change_at; cbn; now rewrite He).
      rewrite omap_insert_None by exact He. split; [exact IH1|]. rewrite IH2.
      rewrite delete_id; [reflexivity|]. rewrite lookup_omap, not_elem_of_list_to_map_1 by exact Hk. reflexivity.
Qed.

Section Applying.
Context `{!RawView (Payload := Payload) V} (holds : nat -> V -> State -> Z -> Prop) (room : Z) `{!RawViewLaws holds room}.

(** Applying a table to a writer with the contents it was made for. *)
Lemma table_apply_spec (t : Apply.ApplyStateTable Payload) n (to : V) m d : holds (size (Raw.items (to_raw t)) + n)%nat to m d -> apply_wf t m ->
  0 <= d -> 0 <= Apply.drops_destroyed t -> d + Apply.drops_destroyed t <= room ->
  exists to', Apply.apply t to = Ok to' /\ holds n to' (overlay (to_raw t) m) (d + Apply.drops_destroyed t).
Proof.
  intros Hto Hwf Hd Hfee Hmax. unfold Apply.apply, Apply.batch_ops. rewrite batch_as_items.
  destruct (ascending_to_map (Apply.items t)) as [Hnd Hmap].
  destruct (changes_to_map _ Hnd) as [Hnd' Hmap']. rewrite Hmap in Hmap'.
  destruct (apply_items_spec holds room _ Hnd' n to m d) as (to1 & -> & Hto1).
  - rewrite <- (map_size_list_to_map (M := gmap Z) _ Hnd'), Hmap'. exact Hto.
  - intros k e Hin. apply (proj1 Hwf). cbn. rewrite <- Hmap'. now apply elem_of_list_to_map_1.
  - rewrite Hmap' in Hto1. cbn [bind].
    destruct (raw_destroy_law _ to1 _ d (Apply.drops_destroyed t) Hto1 Hd Hfee Hmax) as (to2 & -> & Hto2).
    eauto.
Qed.
End Applying.

(** ** A FlowSandbox keeps it, over any view that keeps it *)

Section Flow.
Context `{!ReadView (Payload := Payload) V, !ApplyView (Payload := Payload) V}.
Context (holds : V -> State -> Z -> Prop) (out : V -> Z -> Prop) `{!ApplyViewLaws holds out}.
Abbreviation FS := (Flow.FlowSandbox Payload V).
Implicit Types (fs : FS) (p : V).

Definition staged (e : Flow.Entry Payload) : Raw.SleAction Payload :=
  Raw.mkAction (match Flow.action e with
                | Flow.Insert => Raw.Insert
                | Flow.Modify => Raw.Replace
                | Flow.Erase => Raw.Erase
                end) (Flow.sle e).

(** The staged changes as a raw table. *)
Definition flow_raw fs : Raw.RawStateTable Payload :=
  Raw.mkTable (staged <$> Flow.items fs) (Flow.drops_destroyed fs).

Definition flow_ok fs m0 : Prop := raw_wf (flow_raw fs) m0 /\
  forall k e, Flow.items fs !! k = Some e -> sle_ok (Flow.sle e).

(** A child of a parent that shows [m0] and has destroyed [d0]. *)
Definition holds_flow m0 d0 (fl : option Z) fs m (d : Z) : Prop := Flow.flags fs = fl /\
  holds (Flow.parent fs) m0 d0 /\ flow_ok fs m0 /\
  overlay (flow_raw fs) m0 = m /\ Flow.drops_destroyed fs = d.

Lemma lookup_flow_raw fs k : Raw.items (flow_raw fs) !! k = staged <$> Flow.items fs !! k.
Proof. apply lookup_fmap. Qed.

Lemma staged_erase e : Raw.action (staged e) = Raw.Erase <-> Flow.action e = Flow.Erase.
Proof. unfold staged. destruct (Flow.action e); cbn; split; congruence. Qed.

Lemma lookup_flow fs m k : overlay (flow_raw fs) m !! k =
  match Flow.items fs !! k with
  | Some e => if bool_decide (Flow.action e = Flow.Erase) then None else Some (Flow.sle e)
  | None => m !! k
  end.
Proof.
  rewrite lookup_overlay, lookup_flow_raw. destruct (Flow.items fs !! k) as [e|]; [|reflexivity].
  cbn. now rewrite (bool_decide_ext _ _ (staged_erase e)).
Qed.

Lemma flow_kinded fs m0 : kinded m0 -> flow_ok fs m0 -> kinded (overlay (flow_raw fs) m0).
Proof.
  intros Hm [Hwf Hok] k s. rewrite lookup_flow. destruct (Flow.items fs !! k) as [e|] eqn:He; [|apply Hm].
  case_bool_decide; [discriminate|]. intros [= <-]. destruct (Hok k e He) as [_ ->].
  f_equal. apply (Hwf k (staged e)). now rewrite lookup_flow_raw, He.
Qed.

Lemma flow_erased fs k : Flow.erased fs k = Raw.erased (flow_raw fs) k.
Proof.
  unfold Flow.erased, Raw.erased. rewrite lookup_flow_raw. destruct (Flow.items fs !! k) as [e|]; [|reflexivity].
  apply bool_decide_ext. symmetry. apply staged_erase.
Qed.

Lemma flow_succ_loop fuel fs last c :
  Flow.succ_loop fuel fs last c = Raw.succ_loop fuel (flow_raw fs) (Flow.parent fs) last (Some c).
Proof.
  revert c. induction fuel as [|fuel IH]; intros c; cbn [Flow.succ_loop Raw.succ_loop]; [reflexivity|].
  destruct (rv_succ (Flow.parent fs) c last) as [[n|]| | | |]; try reflexivity. cbn [bind].
  rewrite flow_erased. destruct (Raw.erased _ n); [apply IH|reflexivity].
Qed.

Lemma flow_succ_items (l : list (Z * Flow.Entry Payload)) next :
  Flow.succ_items l next = Raw.succ_overlay (prod_map id staged <$> l) next.
Proof.
  induction l as [|[k e] l IH]; [reflexivity|]. cbn.
  rewrite (bool_decide_ext (Raw.action (staged e) <> Raw.Erase) (Flow.action e <> Flow.Erase))
    by now rewrite staged_erase.
  rewrite IH. now destruct next.
Qed.

Lemma sorted_staged (l : list (Z * Flow.Entry Payload)) :
  StronglySorted key_le l -> StronglySorted key_le (prod_map id staged <$> l).
Proof.
  induction 1 as [|[k e] l Hl IH Hall]; cbn; constructor; [exact IH|].
  rewrite Forall_forall in Hall. apply Forall_forall. intros x [[k0 e0] [-> Hin]]%list_elem_of_fmap. apply (Hall _ Hin).
Qed.

(** The staged range, seen as the range of the raw table. *)
Lemma staged_range fs k e : e ∈ (prod_map id staged <$> range_after k (Flow.items fs)) <->
  Raw.items (flow_raw fs) !! e.1 = Some e.2 /\ k < e.1.
Proof.
  rewrite list_elem_of_fmap, lookup_flow_raw, fmap_Some. split.
  - intros [[k' f] [-> [Hf Hk]%elem_of_range_after]]. cbn in *. eauto.
  - intros [(f & Hf & He) Hk]. exists (e.1, f). split; [destruct e; cbn in *; now subst|].
    apply elem_of_range_after. auto.
Qed.

Lemma flow_succ_spec fs m k last : view_of (Flow.parent fs) m -> range_ok k last ->
  exists r, Flow.succ fs k last = Ok r /\ is_succ (overlay (flow_raw fs) m) k last r.
Proof.
  intros Hb Hrange. unfold Flow.succ. rewrite flow_succ_loop.
  destruct (succ_loop_spec (Flow.parent fs) m (flow_raw fs) k last Hb (S (size (Flow.items fs))) k)
    as (next & -> & Hnext); [|exact Hrange|lia|intros; lia|].
  { assert (size (keys_after (flow_raw fs) k) <= size (dom (Raw.items (flow_raw fs))))%nat as Hle
      by (apply subseteq_size; unfold keys_after; set_solver).
    rewrite size_dom in Hle. cbn in Hle. rewrite map_size_fmap in Hle. lia. }
  cbn [bind]. eexists. split; [reflexivity|]. rewrite flow_succ_items.
  apply raw_succ_end; [exact Hnext|apply sorted_staged, StronglySorted_filter, ascending_sorted|apply staged_range].
Qed.

Lemma flow_view_of fs m : view_of (Flow.parent fs) m -> raw_wf (flow_raw fs) m ->
  view_of fs (overlay (flow_raw fs) m).
Proof.
  intros Hb Hwf.
  assert (forall k, keylet_fits (overlay (flow_raw fs) m) k ->
    Flow.items fs !! key k = None -> keylet_fits m k) as Hfit.
  { intros k Hk Hn. apply (base_fits _ _ _ Hk). now rewrite lookup_flow_raw, Hn. }
  constructor.
  - intros k s. rewrite lookup_overlay. destruct (Raw.items _ !! k) as [e|] eqn:He; cbn.
    + case_bool_decide; [discriminate|]. intros [= <-]. apply (Hwf k e He).
    + apply (vo_entries _ _ Hb).
  - intros k Hk. rewrite lookup_flow. cbn. unfold Flow.exists_.
    destruct (Flow.items fs !! key k) as [e|] eqn:He; [|apply (vo_exists _ _ Hb); auto].
    f_equal. apply bool_decide_ext. case_bool_decide; split; try tauto; [intros [? ?]; discriminate|eauto].
  - intros k Hk. rewrite lookup_flow. cbn. unfold Flow.read.
    destruct (Flow.items fs !! key k) as [e|] eqn:He; [now case_bool_decide|].
    apply (vo_read _ _ Hb). auto.
  - intros k last. now apply flow_succ_spec.
Qed.

(** Staging is what a raw table does, wherever a raw table accepts it. *)
Lemma flow_raw_put fs k a s :
  flow_raw (Flow.with_items (<[k := Flow.mkEntry a s]> (Flow.items fs)) fs) =
  Raw.mkTable (<[k := staged (Flow.mkEntry a s)]> (Raw.items (flow_raw fs))) (Flow.drops_destroyed fs).
Proof. unfold flow_raw. cbn. now rewrite fmap_insert. Qed.

Lemma flow_insert_raw s fs t' : Raw.insert s (flow_raw fs) = Ok t' -> t' = flow_raw (Flow.raw_insert s fs).
Proof.
  unfold Raw.insert, Flow.raw_insert, Flow.erased. rewrite lookup_flow_raw, flow_raw_put.
  destruct (Flow.items fs !! sle_key s) as [[[] s0]|]; cbn; try discriminate; intros [= <-]; reflexivity.
Qed.

Lemma flow_replace_raw s fs t' : Raw.replace s (flow_raw fs) = Ok t' -> t' = flow_raw (Flow.raw_replace s fs).
Proof.
  unfold Raw.replace, Flow.raw_replace, Flow.inserted. rewrite lookup_flow_raw, flow_raw_put.
  destruct (Flow.items fs !! sle_key s) as [[[] s0]|]; cbn; try discriminate; intros [= <-]; reflexivity.
Qed.

Lemma flow_erase_raw s fs t' : Raw.erase s (flow_raw fs) = Ok t' -> t' = flow_raw (Flow.raw_erase s fs).
Proof.
  unfold Raw.erase, Flow.raw_erase, Flow.inserted. rewrite lookup_flow_raw.
  destruct (Flow.items fs !! sle_key s) as [[[] s0]|]; cbn; try discriminate; intros [= <-];
    rewrite ?flow_raw_put; try reflexivity.
  - rewrite bool_decide_eq_true_2 by reflexivity. unfold flow_raw. f_equal. symmetry. apply fmap_delete.
  - rewrite bool_decide_eq_false_2 by discriminate. now rewrite flow_raw_put.
Qed.

Lemma flow_ok_put fs fs' m0 s : flow_ok fs m0 -> sle_ok s -> raw_wf (flow_raw fs') m0 ->
  (forall k e, Flow.items fs' !! k = Some e -> Flow.sle e = s \/ Flow.items fs !! k = Some e) ->
  flow_ok fs' m0.
Proof. intros [_ Hok] Hs Hwf Hold. split; [exact Hwf|]. intros k e [->|He]%Hold; eauto. Qed.

Lemma put_items fs k a s k' e :
  Flow.items (Flow.with_items (<[k := Flow.mkEntry a s]> (Flow.items fs)) fs) !! k' = Some e ->
  Flow.sle e = s \/ Flow.items fs !! k' = Some e.
Proof. cbn. rewrite lookup_insert_Some. intros [[_ <-]|[_ H]]; auto. Qed.

Lemma holds_flow_write fs fs' m0 d0 m' : holds (Flow.parent fs) m0 d0 -> flow_ok fs' m0 ->
  Flow.parent fs' = Flow.parent fs -> Flow.drops_destroyed fs' = Flow.drops_destroyed fs ->
  Flow.flags fs' = Flow.flags fs -> overlay (flow_raw fs') m0 = m' ->
  holds_flow m0 d0 (Flow.flags fs) fs' m' (Flow.drops_destroyed fs).
Proof. intros Hp Hok Hpar Hd Hf Ho. unfold holds_flow. rewrite Hpar. auto. Qed.

#[export] Instance flow_laws m0 d0 fl : ApplyViewLaws (holds_flow m0 d0 fl) (fun _ _ => True).
Proof.
  constructor.
  - intros fs m d (Hfl & Hp & [Hwf _] & <- & _). apply flow_view_of; [eapply av_view_law; eauto|exact Hwf].
  - intros fs m d (Hfl & Hp & Hok & <- & _). apply flow_kinded; [eapply av_kinded_law; eauto|exact Hok].
  - intros fs m d fs' m' d' (Hf & Hp & _) (Hf' & Hp' & _). cbn. unfold Flow.flags_of. rewrite Hf, Hf'.
    destruct fl; [reflexivity|]. eapply av_flags_law; eauto.
  - intros fs m d k (Hfl & Hp & Hok & <- & <-) Hk. cbn. unfold Flow.peek. rewrite lookup_flow.
    destruct (Flow.items fs !! key k) as [e|] eqn:He.
    + destruct (bool_decide _); eexists; (split; [reflexivity|]); (split; [hnf; auto|auto]).
    + destruct (av_peek_law _ _ _ k Hp Hk) as (p' & -> & Hp' & _). eexists. split; [reflexivity|].
      split; [hnf; auto|auto].
  - intros fs m d s (Hfl & Hp & Hok & <- & <-) Hs Hk.
    destruct (raw_insert_spec s _ m0 (proj1 Hok) (proj1 Hs) Hk) as (t' & Ht & Hwf' & Ho & Hd).
    apply flow_insert_raw in Ht as ->. eexists. split; [reflexivity|].
    rewrite <- Hfl. apply (holds_flow_write fs _ m0 d0); auto. eapply flow_ok_put; eauto. apply put_items.
  - intros fs m d s (Hfl & Hp & Hok & <- & <-) Hs Hk _.
    destruct (raw_replace_spec s _ m0 (proj1 Hok) (proj1 Hs) Hk) as (t' & Ht & Hwf' & Ho & Hd).
    apply flow_replace_raw in Ht as ->. eexists. split; [reflexivity|].
    rewrite <- Hfl. apply (holds_flow_write fs _ m0 d0); auto. eapply flow_ok_put; eauto. apply put_items.
  - intros fs m d s (Hfl & Hp & Hok & <- & <-) Hs Hk _.
    destruct (raw_erase_spec s _ m0 (proj1 Hok) (proj1 Hs) Hk) as (t' & Ht & Hwf' & Ho & Hd).
    apply flow_erase_raw in Ht as ->. eexists. split; [reflexivity|].
    rewrite <- Hfl. apply (holds_flow_write fs _ m0 d0); auto; try (unfold Flow.raw_erase; now destruct (Flow.inserted _ _)).
    eapply flow_ok_put; eauto. unfold Flow.raw_erase. destruct (Flow.inserted _ _); [|apply put_items].
    intros k e. cbn. rewrite lookup_delete_Some. tauto.
  - intros fs m d fee (Hfl & Hp & Hok & Ho & Hd) Hpos Hfee Hmax. cbn. unfold write, Flow.raw_destroy_xrp.
    rewrite Hd, plain_ok by (cbn [min_of]; lia). eexists. split; [reflexivity|]. hnf; auto.
Qed.

(** *** Committing *)

(** The action can be taken on a parent with the contents [m]. *)
Definition commits m (e : Z * Flow.Entry Payload) : bool :=
  match Flow.action e.2, m !! e.1 with
  | Flow.Insert, Some _ => false
  | Flow.Insert, None => true
  | _, None => false
  | _, Some _ => true
  end.

Definition entry_fits (e : Z * Flow.Entry Payload) : Prop :=
  sle_key (Flow.sle e.2) = e.1 /\ sle_ok (Flow.sle e.2).

Lemma entry_keylet k e : sle_key (Flow.sle e) = k -> sle_ok (Flow.sle e) -> keylet_ok (Flow.keylet_of k e).
Proof. intros <- [Ha Hk]. split; [now apply admissible_key|exact Hk]. Qed.

Lemma validate_spec op l : Forall entry_fits l -> forall p m d, holds p m d ->
  exists p', holds p' m d /\
    if forallb (commits m) l then Flow.validate_parent_commit op l p = (Ok tt, p')
    else exists e, Flow.validate_parent_commit op l p = (Err e, p').
Proof.
  induction 1 as [|[k e] l [Hk Hs] _ IH]; intros p m d Hp; [exists p; repeat split; auto|].
  cbn [Flow.validate_parent_commit forallb]. unfold io_bind, look, commits at 1. cbn [fst snd] in *.
  assert (keylet_ok (Flow.keylet_of k e)) as Hkind by now apply entry_keylet.
  rewrite (vo_read _ _ (av_view_law _ _ _ Hp))
    by (eapply kinded_fits; [eapply av_view_law|eapply av_kinded_law|]; eauto).
  change (key (Flow.keylet_of k e)) with k in *.
  destruct (av_peek_law p m d (Flow.keylet_of k e) Hp Hkind) as (p1 & Hpeek & Hp1 & _).
  destruct (Flow.action e), (m !! k); cbn [andb]; rewrite ?Hpeek; try (eexists; split; [exact Hp|]; eauto; fail).
  - apply (IH p m d Hp).
  - destruct (IH p1 m d Hp1) as (p' & H1 & H2). exists p'. auto.
  - destruct (IH p1 m d Hp1) as (p' & H1 & H2). exists p'. auto.
Qed.

(** One entry written to the parent. *)
Lemma commit_one k e p m d : holds p m d -> entry_fits (k, e) -> commits m (k, e) = true ->
  exists p' m', (forall l, Flow.commit ((k, e) :: l) p = Flow.commit l p') /\ holds p' m' d /\
    m' !! k = over (Some (staged e)) (m !! k) /\ forall k', k' <> k -> m' !! k' = m !! k'.
Proof.
  intros Hp [Hk Hs] Hc. unfold commits in Hc. cbn [fst snd] in *. cbn [Flow.commit].
  assert (keylet_ok (Flow.keylet_of k e)) as Hkind by now apply entry_keylet.
  destruct (av_peek_law p m d (Flow.keylet_of k e) Hp Hkind) as (p1 & Hpeek & Hp1 & Hout).
  change (key (Flow.keylet_of k e)) with k in *. unfold staged, over, io_bind.
  destruct (Flow.action e); cbn; destruct (m !! k) as [s0|] eqn:Hm; try discriminate; rewrite ?Hpeek.
  - destruct (av_insert_law p m d (Flow.sle e) Hp Hs) as (p' & -> & Hp'); [now rewrite Hk|].
    rewrite Hk in Hp'. exists p', (<[k := Flow.sle e]> m). split; [reflexivity|]. split; [exact Hp'|].
    split; [apply lookup_insert_eq|]. intros k' Hne. now rewrite lookup_insert_ne by congruence.
  - destruct (av_update_law p1 m d (Flow.sle e) Hp1 Hs) as (p' & -> & Hp'); [rewrite Hk; eauto..|].
    rewrite Hk in Hp'. exists p', (<[k := Flow.sle e]> m). split; [reflexivity|]. split; [exact Hp'|].
    split; [apply lookup_insert_eq|]. intros k' Hne. now rewrite lookup_insert_ne by congruence.
  - destruct (av_erase_law p1 m d (Flow.sle e) Hp1 Hs) as (p' & -> & Hp'); [rewrite Hk; eauto..|].
    rewrite Hk in Hp'. exists p', (delete k m). split; [reflexivity|]. split; [exact Hp'|].
    split; [apply lookup_delete_eq|]. intros k' Hne. now rewrite lookup_delete_ne by congruence.
Qed.

Lemma commit_spec l : NoDup l.*1 -> Forall entry_fits l -> forall p m d, holds p m d ->
  forallb (commits m) l = true ->
  exists p', Flow.commit l p = (Ok tt, p') /\ holds p' (merge over (staged <$> list_to_map l : gmap Z _) m) d.
Proof.
  induction l as [|[k e] l IH]; intros Hnd Hfit p m d Hp Hc.
  - exists p. split; [reflexivity|]. replace (merge _ _ _) with m; [exact Hp|].
    apply map_eq. intros k. rewrite lookup_merge, list_to_map_nil, fmap_empty, lookup_empty. now destruct (m !! k).
  - apply NoDup_cons in Hnd as [Hk Hnd]. apply Forall_cons in Hfit as [Hf Hfit].
    cbn [forallb] in Hc. apply andb_prop in Hc as [Hc Hcs].
    destruct (commit_one k e p m d Hp Hf Hc) as (p1 & m1 & -> & Hp1 & Hm1 & Hm1').
    destruct (IH Hnd Hfit p1 m1 d Hp1) as (p' & -> & Hp').
    { rewrite forallb_forall in *. intros [k' e'] Hin. rewrite <- (Hcs _ Hin). unfold commits. cbn [fst snd].
      rewrite Hm1'; [reflexivity|]. intros ->. apply Hk. apply (list_elem_of_fmap_2 fst _ (k, e')).
      now apply list_elem_of_In. }
    exists p'. split; [reflexivity|].
    replace (merge over _ m) with (merge over (staged <$> list_to_map l : gmap Z _) m1); [exact Hp'|].
    apply map_eq. intros k'. rewrite !lookup_merge, list_to_map_cons, fmap_insert.
    destruct (decide (k' = k)) as [->|Hne].
    + rewrite lookup_insert_eq, Hm1, lookup_fmap, not_elem_of_list_to_map_1 by exact Hk.
      unfold over. destruct (m !! k); cbn; now case_bool_decide.
    + now rewrite lookup_insert_ne, Hm1' by congruence.
Qed.

Lemma flow_entries fs : (forall k e, Flow.items fs !! k = Some e -> entry_fits (k, e)) ->
  Forall entry_fits (ascending (Flow.items fs)).
Proof. intros H. apply Forall_forall. intros [k e] Hin. apply H. now apply elem_of_ascending. Qed.

(** What [apply] does, on both branches. *)
Lemma flow_apply_spec fs m d : holds (Flow.parent fs) m d ->
  (forall k e, Flow.items fs !! k = Some e -> entry_fits (k, e)) ->
  0 <= d -> d + Flow.drops_destroyed fs <= max_of I64 ->
  exists p',
    if forallb (commits m) (ascending (Flow.items fs)) then
      Flow.apply fs = (Ok tt, p') /\
      holds p' (overlay (flow_raw fs) m) (d + if Flow.burns fs then Flow.drops_destroyed fs else 0)
    else (exists e, Flow.apply fs = (Err e, p')) /\ holds p' m d.
Proof.
  intros Hp Hfit Hd Hmax. apply flow_entries in Hfit. unfold Flow.apply, io_bind.
  destruct (validate_spec "FlowSandbox::apply" _ Hfit _ m d Hp) as (p1 & Hp1 & Hv). pose proof (av_flags_law _ _ _ _ _ _ Hp Hp1) as Hf.
  destruct (forallb _ _) eqn:Hc; [|destruct Hv as [e Hv]; exists p1; rewrite Hv; eauto].
  rewrite Hv. replace (Flow.burns (Flow.with_parent p1 fs)) with (Flow.burns fs)
    by (unfold Flow.burns, Flow.flags_of; cbn; now rewrite Hf).
  assert (exists p2, (if Flow.burns fs then av_destroy_xrp (Flow.drops_destroyed fs) else io_ret tt) p1 = (Ok tt, p2)
    /\ holds p2 m (d + if Flow.burns fs then Flow.drops_destroyed fs else 0)) as (p2 & -> & Hp2).
  { unfold Flow.burns in *. destruct (Z.gtb_spec (Flow.drops_destroyed fs) 0); cbn [andb];
      [destruct (negb _)|]; [apply av_destroy_law; auto; lia|exists p1..];
      (split; [reflexivity|]); now rewrite Z.add_0_r. }
  destruct (ascending_to_map (Flow.items fs)) as [Hnd Hmap].
  destruct (commit_spec _ Hnd Hfit p2 m _ Hp2 Hc) as (p' & Hrun & Hp'). exists p'.
  rewrite Hmap in Hp'. split; [exact Hrun|exact Hp'].
Qed.

Lemma flow_ok_commits fs m : flow_ok fs m ->
  (forall k e, Flow.items fs !! k = Some e -> entry_fits (k, e)) /\
  forallb (commits m) (ascending (Flow.items fs)) = true.
Proof.
  intros [Hwf Hok]. assert (forall k e, Flow.items fs !! k = Some e -> entry_fits (k, e) /\ commits m (k, e) = true) as H.
  { intros k e He. destruct (Hwf k (staged e)) as [[Hkey _] Hact]; [now rewrite lookup_flow_raw, He|].
    split; [split; [exact Hkey|eauto]|]. unfold commits. cbn [fst snd]. unfold staged in Hact. cbn in Hact.
    destruct (Flow.action e); cbn in Hact; [now rewrite Hact|destruct Hact as [? ->]; reflexivity..]. }
  split; [intros k e He; now apply H|]. apply forallb_forall. intros [k e] Hin.
  apply H. apply elem_of_ascending. now apply list_elem_of_In.
Qed.
End Flow.

(** ** Transactions as sequences of operations *)

(** What transaction code does to an entry: insert it, or check it out and
    update or erase it. *)
Inductive tx_op : Type :=
| TxInsert (s : Sle) | TxUpdate (s : Sle) | TxErase (s : Sle) | TxDestroy (fee : Z).

Definition keylet_at (s : Sle) : Keylet := mkKeylet (sle_key s) (sle_type s).

Definition run_tx_op `{!ApplyView (Payload := Payload) V} (op : tx_op) : io V unit :=
  match op with
  | TxInsert s => av_insert s
  | TxUpdate s => _ <-- av_peek (keylet_at s);; av_update s
  | TxErase s => _ <-- av_peek (keylet_at s);; av_erase s
  | TxDestroy fee => av_destroy_xrp fee
  end.

Fixpoint run_tx_ops `{!ApplyView (Payload := Payload) V} (ops : list tx_op) : io V unit :=
  match ops with
  | [] => io_ret tt
  | op :: ops => _ <-- run_tx_op op;; run_tx_ops ops
  end.

(** Their effect on the contents and on the drops destroyed. *)
Definition spec_op (op : tx_op) m : State :=
  match op with
  | TxInsert s | TxUpdate s => <[sle_key s := s]> m
  | TxErase s => delete (sle_key s) m
  | TxDestroy _ => m
  end.

Definition fee_of (op : tx_op) : Z := match op with TxDestroy fee => fee | _ => 0 end.
Fixpoint fees_of (ops : list tx_op) : Z :=
  match ops with
  | [] => 0
  | op :: ops => fee_of op + fees_of ops
  end.

Definition allowed (op : tx_op) m : Prop :=
  match op with
  | TxInsert s => sle_ok s /\ m !! sle_key s = None
  | TxUpdate s | TxErase s => sle_ok s /\ is_Some (m !! sle_key s)
  | TxDestroy fee => 0 <= fee
  end.

Fixpoint spec_ops (ops : list tx_op) m : State :=
  match ops with
  | [] => m
  | op :: ops => spec_ops ops (spec_op op m)
  end.

Fixpoint all_allowed (ops : list tx_op) m : Prop :=
  match ops with
  | [] => True
  | op :: ops => allowed op m /\ all_allowed ops (spec_op op m)
  end.

Lemma fees_nonneg ops : forall m, all_allowed ops m -> 0 <= fees_of ops.
Proof.
  induction ops as [|op ops IH]; intros m; cbn [all_allowed fees_of]; [lia|]. intros [Ha Hr]. specialize (IH _ Hr).
  destruct op; cbn in *; lia.
Qed.

Section Running.
Context `{!ReadView (Payload := Payload) V, !ApplyView (Payload := Payload) V}.
Context (holds : V -> State -> Z -> Prop) (out : V -> Z -> Prop) `{!ApplyViewLaws holds out}.

Lemma tx_op_spec op (v : V) m d : holds v m d -> allowed op m -> 0 <= d -> d + fee_of op <= max_of I64 ->
  exists v', run_tx_op op v = (Ok tt, v') /\ holds v' (spec_op op m) (d + fee_of op).
Proof.
  intros Hv Ha Hd Hmax. destruct op as [s|s|s|fee]; cbn in *; rewrite ?Z.add_0_r.
  - apply av_insert_law; tauto.
  - destruct Ha as [Hs Hk]. destruct (av_peek_law v m d (keylet_at s) Hv) as (v1 & Hp & Hv1 & Hout); [split; [apply admissible_key|]; apply Hs|].
    unfold io_bind. rewrite Hp. apply av_update_law; auto.
  - destruct Ha as [Hs Hk]. destruct (av_peek_law v m d (keylet_at s) Hv) as (v1 & Hp & Hv1 & Hout); [split; [apply admissible_key|]; apply Hs|].
    unfold io_bind. rewrite Hp. apply av_erase_law; auto.
  - now apply av_destroy_law.
Qed.

Lemma tx_ops_spec ops : forall (v : V) m d, holds v m d -> all_allowed ops m -> 0 <= d ->
  d + fees_of ops <= max_of I64 ->
  exists v', run_tx_ops ops v = (Ok tt, v') /\ holds v' (spec_ops ops m) (d + fees_of ops).
Proof.
  induction ops as [|op ops IH]; intros v m d Hv Ha Hd Hmax;
    cbn [run_tx_ops spec_ops all_allowed fees_of] in *.
  - rewrite Z.add_0_r. exists v. auto.
  - destruct Ha as [Ha Hr]. pose proof (fees_nonneg _ _ Hr).
    assert (0 <= fee_of op) by (destruct op; cbn in Ha |- *; lia).
    destruct (tx_op_spec op v m d Hv Ha Hd) as (v1 & Hrun & Hv1); [lia|]. unfold io_bind. rewrite Hrun.
    destruct (IH v1 _ _ Hv1 Hr) as (v' & Hrun' & Hv'); [lia..|]. exists v'. now rewrite Z.add_assoc.
Qed.
End Running.
End Laws.
