(* ===== verification/ViewProps.v ===== *)
(** * ViewProps: the properties of the stacked views

    A transaction that runs in a [FlowSandbox] over a [Sandbox] over an
    [OpenView] changes the open view as if its operations had been done on a
    map; a failed commit changes nothing; what an open view shows is what it
    commits; a [Sandbox] refuses an erasure of an entry it has not seen.

    [MapView] is the reader the witnesses start from: a ledger whose state is a
    plain map. *)

From stdpp Require Import gmap sorting strings.
From Stdlib Require Import ZArith Lia.
From S2P Require Import Prelude Views Sandbox.
Local Open Scope Z_scope.

(** ** A ledger that is a map *)

Module MapView.
Section MapView.
Context {Payload : Type} `{!EntryRule Payload}.
Record t : Type := mk { contents : gmap Z (STLedgerEntry Payload) }.

Definition succ (b : t) (k : Z) (last : option Z) : option Z :=
  match fst <$> head (range_after k (contents b)) with
  | Some n => match last with
              | Some l => if n >=? l then None else Some n
              | None => Some n
              end
  | None => None
  end.

#[global] Instance MapView_read : ReadView (Payload := Payload) t := {
  rv_exists b k := Ok (bool_decide (is_Some (contents b !! key k)));
  rv_succ b k last := Ok (succ b k last);
  rv_read b k := Ok (contents b !! key k)
}.

Lemma map_view_of (b : t) : (forall k s, contents b !! k = Some s -> entry_ok k s) -> view_of b (contents b).
Proof.
  intros Hok. constructor; [exact Hok|reflexivity..|].
  intros k last _. eexists. split; [reflexivity|]. unfold succ.
  pose proof (head_min (range_after k (contents b)) ltac:(apply StronglySorted_filter, ascending_sorted)) as Hh.
  destruct (fst <$> head _) as [n|].
  - destruct Hh as [[v Hv] Hmin]. apply elem_of_range_after in Hv as [Hv Hk]. cbn in Hv, Hk.
    assert (forall n', is_Some (contents b !! n') -> k < n' -> n <= n') as Hleast.
    { intros n' [s Hs] Hk'. apply (Hmin (n', s)), elem_of_range_after. auto. }
    destruct last as [l|]; [destruct (Z.geb_spec n l)|]; cbn [is_succ].
    + intros n' Hn' Hk'. exists l. split; [reflexivity|]. specialize (Hleast n' Hn' Hk'). lia.
    + split; [eauto|]. split; [exact Hk|]. split; [intros ? [= <-]; assumption|exact Hleast].
    + split; [eauto|]. split; [exact Hk|]. split; [discriminate|exact Hleast].
  - cbn [is_succ]. intros n [s Hs] Hk. exfalso.
    assert ((n, s) ∈ range_after k (contents b)) as Hin by (apply elem_of_range_after; auto).
    rewrite Hh in Hin. inversion Hin.
Qed.
End MapView.
Arguments t : clear implicits.
End MapView.

(** ** Committing a transaction *)

Section Transaction.
Context {Payload B Tx Meta : Type} `{!EntryRule Payload, !ReadView (Payload := Payload) B} (kind : Z -> LedgerEntryType).
Abbreviation Sle := (STLedgerEntry Payload).
Abbreviation OV := (OpenView (Payload := Payload) (B := B) (Tx := Tx) (Meta := Meta)).

(** The operations run in a child view of a sandbox over the open view; the
    child is committed to the sandbox and the sandbox to the open view. *)
Definition run_transaction (flags : Z) (ops : list tx_op) (ov : OV) : outcome ViewError OV :=
  let '(r, fs) := run_tx_ops ops (Flow.new (sandbox_new ov flags)) in
  _ <- r;;
  let '(r, sb) := Flow.apply fs in
  _ <- r;;
  sandbox_apply sb ov.

Definition burned (flags : Z) (ops : list (tx_op (Payload := Payload))) : Z :=
  if any_apply_flags (Z.land flags DRY_RUN) then 0 else fees_of ops.

Lemma fresh_sandbox (ov : OV) m d flags : holds_open ov m d -> kinded kind m ->
  holds_sandbox kind ov m flags (sandbox_new ov flags) m 0.
Proof.
  intros (m0 & Hb & Hwf & Ho & _) Hk. split; [split; reflexivity|]. cbn. split; [|split; [exact Hk|]].
  - rewrite <- Ho. now apply open_view_of.
  - split; [apply apply_wf_new|]. split; [exact Hk|]. split; [|reflexivity].
    apply map_eq. intros k. rewrite lookup_applied by apply apply_wf_new. cbn. now rewrite lookup_empty.
Qed.

Lemma fresh_flow `{!ReadView (Payload := Payload) V} (holds : V -> gmap Z Sle -> Z -> Prop) (p : V) m d :
  holds p m d -> holds_flow kind holds m d None (Flow.new p) m 0.
Proof.
  intros Hp. split; [reflexivity|]. split; [exact Hp|]. split; [split|split; [|reflexivity]].
  - intros k e. cbn. rewrite fmap_empty, lookup_empty. discriminate.
  - intros k e. cbn. rewrite lookup_empty. discriminate.
  - apply map_eq. intros k. rewrite lookup_flow. cbn. now rewrite lookup_empty.
Qed.

Lemma flow_burns (fs : Flow.FlowSandbox Payload (Sandbox (Payload := Payload) (B := OV))) flags :
  Flow.flags_of fs = flags -> 0 <= Flow.drops_destroyed fs ->
  (if Flow.burns fs then Flow.drops_destroyed fs else 0) =
  if any_apply_flags (Z.land flags DRY_RUN) then 0 else Flow.drops_destroyed fs.
Proof.
  intros <- Hpos. unfold Flow.burns.
  destruct (any_apply_flags _), (Z.gtb_spec (Flow.drops_destroyed fs) 0); cbn; lia.
Qed.

Lemma transaction_spec (flags : Z) (ops : list tx_op) (ov : OV) m d :
  holds_open ov m d -> kinded kind m -> all_allowed kind ops m -> 0 <= d ->
  d + fees_of ops <= max_of I64 ->
  exists ov', run_transaction flags ops ov = Ok ov' /\
    holds_open ov' (spec_ops ops m) (d + burned flags ops) /\ view_of ov' (spec_ops ops m).
Proof.
  intros Hov Hk Ha Hd Hmax. pose proof (fees_nonneg _ _ _ Ha) as Hfees.
  pose proof (fresh_flow _ _ _ _ (fresh_sandbox ov m d flags Hov Hk)) as Hf.
  unfold run_transaction.
  destruct (tx_ops_spec kind _ _ ops _ m 0 Hf Ha) as (fs & -> & Hfl & Hp & Hok & Ho & Hdr); [lia..|]. cbn [bind].
  destruct (flow_ok_commits _ fs m Hok) as [Hfit Hc].
  destruct (flow_apply_spec _ _ _ fs m 0 Hp Hfit) as (sb & Hcommit); [lia..|]. rewrite Hc, Ho in Hcommit.
  destruct Hcommit as [-> ([Hbase Hsf] & _ & _ & Hwf & _ & Ho' & Hd')]. cbn [bind].
  assert (Flow.flags_of fs = flags) as Hflags by (unfold Flow.flags_of; rewrite Hfl; apply Hp).
  rewrite (flow_burns fs flags Hflags) in Hd' by lia.
  assert (Apply.drops_destroyed (sb_table sb) = burned flags ops) as Hburn
    by (rewrite Hd'; unfold burned; destruct (any_apply_flags _); lia).
  assert (0 <= burned flags ops <= fees_of ops) by (unfold burned; destruct (any_apply_flags _); lia).
  destruct (table_apply_spec (fun _ => holds_open) (max_of I64) (sb_table sb) 0 ov m d Hov Hwf) as (ov' & Hrun & Hov'); [lia..|].
  rewrite Ho', Hburn in Hov'. exists ov'. split; [exact Hrun|]. split; [exact Hov'|].
  destruct Hov' as (m1 & Hb & Hw & <- & _). now apply open_view_of.
Qed.
(** C6: a transaction whose operations make sense on the contents of an open view
    changes the open view as if they had been done one by one on a map: it runs in
    a child view ([FlowSandbox]) of a [Sandbox] over the open view, the child is
    committed to the sandbox and the sandbox to the open view, none of these steps
    fails, and afterwards the open view shows exactly the resulting map and has
    destroyed exactly the fees, none of them in a dry run. *)
Theorem transaction_refines_map (flags : Z) (ops : list tx_op) (ov : OV) m d :
  holds_open ov m d -> kinded kind m -> all_allowed kind ops m -> 0 <= d ->
  d + fees_of ops <= max_of I64 ->
  exists ov', run_transaction flags ops ov = Ok ov' /\
    holds_open ov' (spec_ops ops m) (d + burned flags ops) /\ view_of ov' (spec_ops ops m).
Proof. apply transaction_spec. Qed.

(** The base of an open view stays. *)
Lemma batch_base (ops : list (StateBatchOp * Sle)) : forall ov ov' : OV, raw_apply_sle_batch ops ov = Ok ov' -> base ov' = base ov.
Proof.
  induction ops as [|[op s] ops IH]; intros ov ov' Hrun; [now injection Hrun as ->|]. cbn [raw_apply_sle_batch] in Hrun.
  destruct op; cbn in Hrun; [destruct (Raw.insert s (items ov))|destruct (Raw.replace s (items ov))|destruct (Raw.erase s (items ov))]; try discriminate; cbn in Hrun; apply IH in Hrun; exact Hrun.
Qed.

Lemma transaction_base flags ops (ov ov' : OV) : run_transaction flags ops ov = Ok ov' -> base ov' = base ov.
Proof.
  unfold run_transaction, sandbox_apply, Apply.apply. destruct (run_tx_ops ops _) as [[[]| | | |] fs]; try discriminate. cbn [bind]. destruct (Flow.apply fs) as [[[]| | | |] sb]; try discriminate. cbn [bind].
  destruct (raw_apply_sle_batch _ ov) as [ov1| | | |] eqn:Hrun; try discriminate. cbn [bind]. cbn. destruct (Raw.destroy_xrp _ _) as [t| | | |]; try discriminate. cbn. intros [= <-]. cbn. eapply batch_base, Hrun.
Qed.

(** One transaction after the other. *)
Fixpoint run_transactions (flags : Z) (txs : list (list tx_op)) (ov : OV) : outcome ViewError OV :=
  match txs with
  | [] => Ok ov
  | ops :: txs => ov <- run_transaction flags ops ov;; run_transactions flags txs ov
  end.

Lemma kinded_ops ops : forall m, kinded kind m -> all_allowed kind ops m -> kinded kind (spec_ops ops m).
Proof.
  induction ops as [|op ops IH]; intros m Hk Ha; [exact Hk|]. destruct Ha as [Ha Hr]. apply IH; [|exact Hr].
  destruct op as [s|s|s|fee]; cbn [spec_op]; [apply kinded_insert|apply kinded_insert|apply kinded_delete|]; try exact Hk; apply Ha.
Qed.

Lemma spec_ops_app ops1 : forall ops2 (m : gmap Z Sle), spec_ops (ops1 ++ ops2) m = spec_ops ops2 (spec_ops ops1 m).
Proof. induction ops1 as [|op ops1 IH]; intros ops2 m; [reflexivity|]. apply IH. Qed.

Lemma all_allowed_app ops1 : forall ops2 m, all_allowed kind (ops1 ++ ops2) m <-> all_allowed kind ops1 m /\ all_allowed kind ops2 (spec_ops ops1 m).
Proof. induction ops1 as [|op ops1 IH]; intros ops2 m; cbn; [tauto|]. rewrite IH. tauto. Qed.

Lemma fees_of_app (ops1 ops2 : list (tx_op (Payload := Payload))) : fees_of (ops1 ++ ops2) = fees_of ops1 + fees_of ops2.
Proof. induction ops1 as [|op ops1 IH]; cbn; [reflexivity|]. rewrite IH. lia. Qed.

Lemma transactions_base flags txs : forall ov ov' : OV, run_transactions flags txs ov = Ok ov' -> base ov' = base ov.
Proof.
  induction txs as [|ops txs IH]; intros ov ov' Hrun; cbn [run_transactions] in Hrun; [now injection Hrun as ->|]. destruct (run_transaction flags ops ov) as [ov1| | | |] eqn:H1; try discriminate.
  apply IH in Hrun. rewrite Hrun. eapply transaction_base, H1.
Qed.

Lemma transactions_spec flags txs : forall (ov : OV) m d, holds_open ov m d -> kinded kind m -> all_allowed kind (concat txs) m -> 0 <= d ->
  d + fees_of (concat txs) <= max_of I64 ->
  exists ov', run_transactions flags txs ov = Ok ov' /\ holds_open ov' (spec_ops (concat txs) m) (d + burned flags (concat txs)).
Proof.
  induction txs as [|ops txs IH]; intros ov m d Hov Hk Ha Hd Hmax; cbn [concat run_transactions] in *.
  - exists ov. split; [reflexivity|]. replace (d + burned flags []) with d; [exact Hov|]. unfold burned. cbn. destruct (any_apply_flags _); lia.
  - apply all_allowed_app in Ha as [Ha Hr]. pose proof (fees_nonneg _ _ _ Ha) as Hf1. pose proof (fees_nonneg _ _ _ Hr) as Hf2. rewrite fees_of_app in Hmax.
    destruct (transaction_spec flags ops ov m d Hov Hk Ha Hd) as (ov1 & Hrun & Hov1 & _); [lia|]. rewrite Hrun. cbn [bind].
    assert (0 <= burned flags ops <= fees_of ops) as Hb by (unfold burned; destruct (any_apply_flags _); lia).
    destruct (IH ov1 _ _ Hov1 (kinded_ops ops m Hk Ha) Hr) as (ov' & Hruns & Hov'); [lia..|]. exists ov'. split; [exact Hruns|]. rewrite spec_ops_app.
    replace (d + burned flags (ops ++ concat txs)) with (d + burned flags ops + burned flags (concat txs)); [exact Hov'|]. unfold burned. rewrite fees_of_app. destruct (any_apply_flags _); lia.
Qed.
End Transaction.

(** ** All or nothing *)

Section AllOrNothing.
Context {Payload V : Type} `{!EntryRule Payload} (kind : Z -> LedgerEntryType).
Context `{!ReadView (Payload := Payload) V, !ApplyView (Payload := Payload) V}.
Context (holds : V -> gmap Z (STLedgerEntry Payload) -> Z -> Prop) (out : V -> Z -> Prop).
Context `{!ApplyViewLaws kind holds out}.

(** C26: committing a [FlowSandbox] is all or nothing, over any parent that keeps
    the promises of an [ApplyView].  If it succeeds, every staged action fitted
    the parent and the parent shows the parent's contents with all the changes,
    and has destroyed the child's drops unless it is a dry run; if it returns an
    error, some staged insertion found its key taken or some staged update or
    erasure found it missing, and the parent shows what it showed before.  It
    never panics. *)
Theorem flow_commit_all_or_nothing (fs : Flow.FlowSandbox Payload V) m d :
  holds (Flow.parent fs) m d ->
  (forall k e, Flow.items fs !! k = Some e -> entry_fits kind (k, e)) ->
  0 <= d -> d + Flow.drops_destroyed fs <= max_of I64 ->
  let '(r, p') := Flow.apply fs in
  match r with
  | Ok _ => (forall k e, Flow.items fs !! k = Some e -> commits m (k, e) = true) /\
      holds p' (overlay (flow_raw fs) m) (d + if Flow.burns fs then Flow.drops_destroyed fs else 0)
  | Err _ => (exists k e, Flow.items fs !! k = Some e /\ commits m (k, e) = false) /\
      holds p' m d /\ view_of p' m
  | _ => False
  end.
Proof.
  intros Hp Hfit Hd Hmax. destruct (flow_apply_spec kind holds out fs m d Hp Hfit Hd Hmax) as (p' & H).
  destruct (forallb _ _) eqn:Hc.
  - destruct H as [-> Hp']. split; [|exact Hp']. rewrite forallb_forall in Hc. intros k e He.
    apply Hc, list_elem_of_In, elem_of_ascending. exact He.
  - destruct H as [[e ->] Hp']. split; [|split; [exact Hp'|eapply av_view_law; eauto]].
    apply not_true_iff_false in Hc. rewrite forallb_forall in Hc. apply dec_stable. intros Hno. apply Hc.
    intros [k e'] Hin%list_elem_of_In%elem_of_ascending. apply not_false_iff_true. intros Hf. apply Hno. eauto.
Qed.
End AllOrNothing.

(** ** An open view and the ledger it becomes *)

Section OpenViews.
Context {Payload B Tx Meta V : Type} `{!EntryRule Payload, !ReadView (Payload := Payload) B, !RawView (Payload := Payload) V}.
Context (holds : nat -> V -> gmap Z (STLedgerEntry Payload) -> Z -> Prop) (room : Z) `{!RawViewLaws holds room}.

(** C27: what an open view shows is what it commits.  With [m'] the contents of its
    base with the table's changes, an open view answers [exists], [read] and
    [succ] as [m'] does (the loop of [succ] always ends), and applying it to a
    writer with the contents of the base succeeds and leaves the writer with the
    contents [m'] and the drops destroyed added up. *)
Theorem open_view_commits_what_it_shows
    (v : OpenView (Payload := Payload) (B := B) (Tx := Tx) (Meta := Meta)) n (to : V) m d :
  view_of (base v) m -> raw_wf (items v) m -> holds (size (Raw.items (items v)) + n)%nat to m d -> 0 <= d ->
  0 <= Raw.drops_destroyed (items v) -> d + Raw.drops_destroyed (items v) <= room ->
  view_of v (overlay (items v) m) /\
  exists to', apply_state_only v to = Ok to' /\
    holds n to' (overlay (items v) m) (d + Raw.drops_destroyed (items v)).
Proof.
  intros Hb Hwf Hto Hd Hfee Hmax. split; [now apply open_view_of|]. now apply (raw_apply_spec holds room).
Qed.
End OpenViews.

(** ** What a Sandbox refuses *)

Section Refusals.
Context {Payload B : Type} `{!EntryRule Payload, !ReadView (Payload := Payload) B}.
Abbreviation Sle := (STLedgerEntry Payload).
Abbreviation SB := (Sandbox (Payload := Payload) (B := B)).
Implicit Types (sb : SB) (s : Sle).

Lemma unseen_kept (op : StateBatchOp) s sb sb' k : Apply.items (sb_table sb) !! k = None -> sle_key s <> k ->
  match op with
  | BatchInsert => rw_insert s sb
  | BatchUpdate => rw_replace s sb
  | BatchDelete => rw_erase s sb
  end = Ok sb' -> Apply.items (sb_table sb') !! k = None.
Proof.
  intros Hk Hne. destruct op; cbn; unfold on_table, Apply.insert, Apply.replace, Apply.erase;
    destruct (Apply.items (sb_table sb) !! sle_key s) as [[[] s0]|]; cbn; try discriminate; intros [= <-]; cbn;
    rewrite ?lookup_insert_ne, ?lookup_delete_ne by congruence; exact Hk.
Qed.

Lemma sandbox_writes_decide (op : StateBatchOp) s sb :
  (exists sb', match op with
   | BatchInsert => rw_insert s sb
   | BatchUpdate => rw_replace s sb
   | BatchDelete => rw_erase s sb
   end = Ok sb') \/
  exists e, match op with
   | BatchInsert => rw_insert s sb
   | BatchUpdate => rw_replace s sb
   | BatchDelete => rw_erase s sb
   end = Err e.
Proof.
  destruct op; cbn; unfold on_table, Apply.insert, Apply.replace, Apply.erase;
    destruct (Apply.items (sb_table sb) !! sle_key s) as [[[] s0]|]; cbn; eauto.
Qed.

Lemma batch_refused s (ops : list (StateBatchOp * Sle)) : forall sb,
  NoDup ((fun op : StateBatchOp * Sle => sle_key op.2) <$> ops) -> (BatchDelete, s) ∈ ops ->
  Apply.items (sb_table sb) !! sle_key s = None ->
  exists e, raw_apply_sle_batch ops sb = Err e.
Proof.
  induction ops as [|[op s1] ops IH]; intros sb Hnd Hin Hk; [inversion Hin|].
  apply NoDup_cons in Hnd as [Hn Hnd]. cbn [raw_apply_sle_batch].
  apply elem_of_cons in Hin as [[= <- <-]|Hin].
  - cbn. unfold on_table, Apply.erase. rewrite Hk. cbn. eauto.
  - destruct (sandbox_writes_decide op s1 sb) as [[sb1 H1]|[e H1]]; rewrite H1; cbn [bind]; [|eauto].
    apply IH; [exact Hnd|exact Hin|]. apply (unseen_kept op s1 sb); [exact Hk| |exact H1].
    intros Heq. apply Hn. cbn. rewrite Heq.
    apply (list_elem_of_fmap_2 (fun op : StateBatchOp * Sle => sle_key op.2) _ _ Hin).
Qed.

Lemma batch_ops_keys (t : Apply.ApplyStateTable Payload) m : apply_wf t m ->
  NoDup ((fun op : StateBatchOp * Sle => sle_key op.2) <$> Apply.batch_ops t).
Proof.
  intros [Hwf _]. destruct (ascending_to_map (Apply.items t)) as [Hnd _].
  destruct (changes_to_map _ Hnd) as [Hnd' _].
  replace ((fun op : StateBatchOp * Sle => sle_key op.2) <$> Apply.batch_ops t)
    with (omap change_at (ascending (Apply.items t))).*1; [exact Hnd'|].
  assert (forall k e, (k, e) ∈ ascending (Apply.items t) -> Apply.items t !! k = Some e) as Hin
    by (intros k e; apply elem_of_ascending).
  unfold Apply.batch_ops. clear Hnd Hnd'. induction (ascending (Apply.items t)) as [|[k e] l IH]; [reflexivity|].
  cbn [omap list_omap]. pose proof (Hwf k) as Hk. rewrite lookup_to_raw, (Hin k e) in Hk by left.
  cbn in Hk. unfold change_at at 1, change_of. unfold change_of in Hk. cbn [fst snd] in *.
  destruct (Apply.action e); cbn; try (apply IH; intros; apply Hin; now right);
    (f_equal; [symmetry; apply (Hk _ eq_refl)|apply IH; intros; apply Hin; now right]).
Qed.
End Refusals.

(** C39: a [Sandbox] cannot take an erasure of an entry it has not checked out.  Let
    a table of changes, made for the contents of an open view, erase an entry.
    Committed to the open view it goes through; committed to a new sandbox over
    that open view, which shows the same contents, it fails, because the
    sandbox's [raw_erase] is its [erase] and reports a missing key.  (A child
    [FlowSandbox] checks the entries out of its parent first.) *)
Theorem sandbox_refuses_unseen_erasure {Payload B Tx Meta} `{!EntryRule Payload, !ReadView (Payload := Payload) B}
    (child : Apply.ApplyStateTable Payload) (ov : OpenView (Payload := Payload) (B := B) (Tx := Tx) (Meta := Meta))
    m d flags k e :
  holds_open ov m d -> apply_wf child m -> Apply.items child !! k = Some e -> Apply.action e = Apply.Erase ->
  0 <= d -> 0 <= Apply.drops_destroyed child -> d + Apply.drops_destroyed child <= max_of I64 ->
  (exists ov', Apply.apply child ov = Ok ov' /\
     holds_open ov' (overlay (to_raw child) m) (d + Apply.drops_destroyed child)) /\
  exists err, Apply.apply child (sandbox_new ov flags) = Err err.
Proof.
  intros Hov Hwf Hk He Hd Hfee Hmax. split; [now apply (table_apply_spec (fun _ => holds_open) (max_of I64) child 0)|].
  destruct (batch_refused (Apply.sle e) (Apply.batch_ops child) (sandbox_new ov flags)) as [err Herr].
  - eapply batch_ops_keys; eauto.
  - unfold Apply.batch_ops. apply list_elem_of_omap. exists (k, e). split; [now apply elem_of_ascending|].
    cbn. now rewrite He.
  - apply lookup_empty.
  - exists err. unfold Apply.apply. now rewrite Herr.
Qed.

(** ** Witnesses *)

Module Example.

Definition account (k : Z) : STLedgerEntry nat := mkSle k AccountRoot 0%nat.
Definition changed (k : Z) : STLedgerEntry nat := mkSle k AccountRoot 1%nat.
Definition kind (_ : Z) : LedgerEntryType := AccountRoot.

#[local] Instance any_entry : EntryRule nat.
Proof.
  refine {| admissible s := concrete (sle_type s) = true /\ is_uint256 (sle_key s) |}; intros s [H1 H2]; assumption.
Defined.

Ltac is_admissible := split; [reflexivity|split; vm_compute; first [reflexivity|discriminate]].

Definition ledger : MapView.t nat := MapView.mk {[ 1 := account 1; 5 := account 5 ]}.
Definition ov : OpenView (Payload := nat) (B := MapView.t nat) (Tx := unit) (Meta := unit) := new_view ledger.

Definition ops : list (tx_op (Payload := nat)) :=
  [TxUpdate (changed 1); TxErase (account 5); TxInsert (account 7); TxDestroy 10].

Lemma ledger_entries k s : MapView.contents ledger !! k = Some s -> s = account k /\ admissible s.
Proof.
  cbn. rewrite lookup_insert_Some, lookup_singleton_Some. intros [[<- <-]|[_ [<- <-]]]; (split; [reflexivity|is_admissible]).
Qed.

Lemma ledger_view : view_of ledger (MapView.contents ledger).
Proof. apply MapView.map_view_of. intros k s [-> Hs]%ledger_entries. split; [reflexivity|exact Hs]. Qed.

Lemma ov_holds : holds_open ov (MapView.contents ledger) 0.
Proof.
  exists (MapView.contents ledger). split; [exact ledger_view|]. split; [apply raw_wf_new|].
  split; [|reflexivity]. apply map_eq. intros k. rewrite lookup_overlay. cbn. now rewrite lookup_empty.
Qed.

Lemma ledger_kinded : kinded kind (MapView.contents ledger).
Proof. intros k s [-> _]%ledger_entries. reflexivity. Qed.

Lemma transaction_refines_map_witness : exists ov', run_transaction NONE ops ov = Ok ov' /\
  holds_open ov' (spec_ops ops (MapView.contents ledger)) (0 + burned NONE ops) /\
  view_of ov' (spec_ops ops (MapView.contents ledger)).
Proof.
  apply (transaction_refines_map kind NONE ops ov (MapView.contents ledger) 0).
  - exact ov_holds.
  - exact ledger_kinded.
  - repeat split; try reflexivity; try (eexists; vm_compute; reflexivity); vm_compute; discriminate.
  - lia.
  - vm_compute. discriminate.
Defined.

(** A child that inserts over an existing entry. *)
Definition parent : Sandbox (Payload := nat) (B := MapView.t nat) := sandbox_new ledger NONE.
Definition child : Flow.FlowSandbox nat (Sandbox (Payload := nat) (B := MapView.t nat)) :=
  Flow.raw_insert (account 5) (Flow.raw_insert (account 3) (Flow.new parent)).

Lemma parent_holds : holds_sandbox kind ledger (MapView.contents ledger) NONE parent (MapView.contents ledger) 0.
Proof.
  split; [split; reflexivity|]. split; [exact ledger_view|]. split; [exact ledger_kinded|].
  split; [apply apply_wf_new|]. split; [exact ledger_kinded|]. split; [|reflexivity].
  apply map_eq. intros k. rewrite lookup_applied by apply apply_wf_new. cbn. now rewrite lookup_empty.
Qed.

Lemma flow_commit_all_or_nothing_witness :
  let '(r, p') := Flow.apply child in
  match r with
  | Ok _ => False
  | Err _ => view_of p' (MapView.contents ledger)
  | _ => False
  end.
Proof.
  assert (forall k e, Flow.items child !! k = Some e -> entry_fits kind (k, e)) as Hfit.
  { intros k e. cbn. rewrite !lookup_insert_Some, lookup_empty.
    intros [[<- <-]|[_ [[<- <-]|[_ ?]]]]; [repeat split; vm_compute; discriminate..|discriminate]. }
  assert (0 + Flow.drops_destroyed child <= max_of I64) as Hmax by (vm_compute; discriminate).
  pose proof (flow_commit_all_or_nothing kind (holds_sandbox kind ledger (MapView.contents ledger) NONE)
    sandbox_out child (MapView.contents ledger) 0 parent_holds Hfit (Z.le_refl 0) Hmax) as H.
  assert (commits (MapView.contents ledger) (5, Flow.mkEntry Flow.Insert (account 5)) = false) as Hc by reflexivity.
  destruct (Flow.apply child) as [[] p']; try exact H.
  - destruct H as [H _]. rewrite H in Hc; [discriminate|reflexivity].
  - apply H.
Defined.

Definition committed : OpenView (Payload := nat) (B := MapView.t nat) (Tx := unit) (Meta := unit) :=
  with_items (Raw.put Raw.Erase (account 5) (Raw.put Raw.Insert (account 3) Raw.new)) ov.

Lemma open_view_commits_what_it_shows_witness :
  view_of committed (overlay (items committed) (MapView.contents ledger)) /\
  exists to', apply_state_only committed ov = Ok to' /\
    holds_open to' (overlay (items committed) (MapView.contents ledger)) (0 + 0).
Proof.
  apply (open_view_commits_what_it_shows (fun _ => holds_open) (max_of I64) committed 0 ov (MapView.contents ledger) 0).
  - exact ledger_view.
  - apply raw_wf_put; [apply raw_wf_put; [apply raw_wf_new|is_admissible|reflexivity]|is_admissible|].
    eexists. vm_compute. reflexivity.
  - exact ov_holds.
  - lia.
  - cbn. lia.
  - vm_compute. discriminate.
Defined.

Definition erasing : Apply.ApplyStateTable nat := Apply.put 5 Apply.Erase (account 5) Apply.new.

Lemma sandbox_refuses_unseen_erasure_witness :
  (exists ov', Apply.apply erasing ov = Ok ov' /\
     holds_open ov' (overlay (to_raw erasing) (MapView.contents ledger)) (0 + 0)) /\
  exists err, Apply.apply erasing (sandbox_new ov NONE) = Err err.
Proof.
  apply (sandbox_refuses_unseen_erasure erasing ov (MapView.contents ledger) 0 NONE 5
    (Apply.mkEntry Apply.Erase (account 5))).
  - exact ov_holds.
  - eapply (apply_wf_put Apply.Erase (account 5)); [apply apply_wf_new|discriminate|reflexivity|].
    destruct (to_raw_put 5 Apply.Erase (account 5) Apply.new) as (a & Hr & ->); [discriminate|reflexivity|].
    unfold erasing. rewrite Hr. apply raw_wf_put; [apply (apply_wf_new (MapView.contents ledger))|is_admissible|].
    eexists. vm_compute. reflexivity.
  - reflexivity.
  - reflexivity.
  - lia.
  - cbn. lia.
  - vm_compute. discriminate.
Defined.
End Example.
