(* ===== verification/LedgerTrie.v ===== *)
(** * LedgerTrie: the ancestry trie of validated ledgers

    Models [xrpld/consensus/src/model/ledger_trie.rs]: the spans, the arena of
    nodes with its parent and child indices and its tombstones, [find],
    [insert], [remove], the queries, [get_preferred] and [check_invariants].

    The arena is the list of nodes; an index out of range is the panic of [Vec].
    A sequence number is an integer: the code is generic in the type of sequence
    numbers, with an order and the addition of small integers.  The identifiers of
    ledgers are integers, compared as such.  Supports are kept at 32 bits. *)

From stdpp Require Import gmap sorting.
From Stdlib Require Import ZArith Lia.
From S2P Require Import Prelude.
Local Open Scope Z_scope.

(** ** Ledgers *)

(** The trait [TrieLedger]. *)
Class TrieLedger (L : Type) : Type := {
  genesis : L;
  seq : L -> Z;
  ancestor : L -> Z -> Z;
  mismatch : L -> L -> Z
}.

Section Trie.
Context `{TrieLedger L} {E : Type}.

(** [SpanTip] *)
Record SpanTip : Type := mkTip { tip_seq : Z; tip_id : Z; tip_ledger : L }.

Definition tip_ancestor (t : SpanTip) (s : Z) : outcome E Z :=
  if s <=? tip_seq t then Ok (ancestor (tip_ledger t) s) else Panic.

(** ** Spans *)

(** The half-open span [[start, stop)] of a ledger's ancestry. *)
Record Span : Type := mkSpan { start : Z; stop : Z; ledger : L }.

Definition span_genesis : Span := mkSpan (seq genesis) (seq genesis + 1) genesis.
Definition span_from_ledger (l : L) (zero : Z) : Span := mkSpan zero (seq l + 1) l.

Definition clamp (s : Span) (val : Z) : Z := Z.min (Z.max val (start s)) (stop s).

Definition span_sub (s : Span) (from to : Z) : option Span :=
  let new_from := clamp s from in
  let new_to := clamp s to in
  if new_from <? new_to then Some (mkSpan new_from new_to (ledger s)) else None.

Definition span_from (s : Span) (spot : Z) : option Span := span_sub s spot (stop s).
Definition span_before (s : Span) (spot : Z) : option Span := span_sub s (start s) spot.
Definition start_id (s : Span) : Z := ancestor (ledger s) (start s).
Definition diff (s : Span) (other : L) : Z := clamp s (mismatch (ledger s) other).
Definition span_tip (s : Span) : SpanTip :=
  mkTip (stop s - 1) (ancestor (ledger s) (stop s - 1)) (ledger s).

Definition merge_span (a b : Span) : Span :=
  if stop a <? stop b then mkSpan (Z.min (start a) (start b)) (stop b) (ledger b)
  else mkSpan (Z.min (start a) (start b)) (stop a) (ledger a).

(** ** The arena *)

Record Node : Type := mkNode {
  span : Span;
  tip_support_of : Z;
  branch_support_of : Z;
  children : list nat;
  parent : option nat;
  live : bool
}.

Definition node_root : Node := mkNode span_genesis 0 0 [] None true.
Definition node_from_span (s : Span) : Node := mkNode s 0 0 [] None true.

Definition ROOT : nat := 0.

Record LedgerTrie : Type := mkTrie { nodes : list Node; seq_support : gmap Z Z }.

Definition trie_new : LedgerTrie := mkTrie [node_root] ∅.

(** [self.nodes[i]] *)
Definition at_ (ns : list Node) (i : nat) : outcome E Node :=
  match ns !! i with Some n => Ok n | None => Panic end.

(** [self.nodes[i]] with a field assigned. *)
Definition modify_at (ns : list Node) (i : nat) (f : Node -> Node) : outcome E (list Node) :=
  n <- at_ ns i;; Ok (<[i := f n]> ns).

Definition set_span (s : Span) (n : Node) : Node :=
  mkNode s (tip_support_of n) (branch_support_of n) (children n) (parent n) (live n).
Definition set_tip (v : Z) (n : Node) : Node :=
  mkNode (span n) v (branch_support_of n) (children n) (parent n) (live n).
Definition set_branch (v : Z) (n : Node) : Node :=
  mkNode (span n) (tip_support_of n) v (children n) (parent n) (live n).
Definition set_children (c : list nat) (n : Node) : Node :=
  mkNode (span n) (tip_support_of n) (branch_support_of n) c (parent n) (live n).
Definition set_parent (p : option nat) (n : Node) : Node :=
  mkNode (span n) (tip_support_of n) (branch_support_of n) (children n) p (live n).
Definition set_live (b : bool) (n : Node) : Node :=
  mkNode (span n) (tip_support_of n) (branch_support_of n) (children n) (parent n) b.

Definition alloc (ns : list Node) (n : Node) : list Node * nat := (ns ++ [n], length ns).

Definition erase_child (ns : list Node) (p child : nat) : outcome E (list Node) :=
  ns <- modify_at ns p (fun n => set_children (filter (fun c => c <> child) (children n)) n);;
  modify_at ns child (set_live false).

(** ** Searching *)

(** The loop over the children in [find]: the first that goes further. *)
Fixpoint find_child (ns : list Node) (l : L) (pos : Z) (cs : list nat) : outcome E (option (nat * Z)) :=
  match cs with
  | [] => Ok None
  | child :: cs =>
      n <- at_ ns child;;
      if negb (live n) then find_child ns l pos cs
      else
        let child_pos := diff (span n) l in
        if child_pos >? pos then Ok (Some (child, child_pos)) else find_child ns l pos cs
  end.

Fixpoint find_loop (fuel : nat) (ns : list Node) (l : L) (curr : nat) (pos : Z) : outcome E (nat * Z) :=
  match fuel with
  | O => OutOfFuel
  | S fuel =>
      n <- at_ ns curr;;
      if pos =? stop (span n) then
        next <- find_child ns l pos (children n);;
        match next with
        | Some (child, child_pos) => find_loop fuel ns l child child_pos
        | None => Ok (curr, pos)
        end
      else Ok (curr, pos)
  end.

Definition find (ns : list Node) (l : L) : outcome E (nat * Z) :=
  n <- at_ ns ROOT;; find_loop (S (length ns)) ns l ROOT (diff (span n) l).

Fixpoint find_by_ledger_id_from (i : nat) (ns : list Node) (id : Z) : option nat :=
  match ns with
  | [] => None
  | n :: ns => if live n && (tip_id (span_tip (span n)) =? id) then Some i
               else find_by_ledger_id_from (S i) ns id
  end.

Definition find_by_ledger_id (ns : list Node) (id : Z) : option nat := find_by_ledger_id_from 0 ns id.

(** ** Inserting *)

(** [branch_support += count] (or [-=], with the opposite sign) at a node and at
    all its ancestors. *)
Fixpoint walk_up (fuel : nat) (ns : list Node) (count : Z) (walk : option nat) : outcome E (list Node) :=
  match walk with
  | None => Ok ns
  | Some idx =>
      match fuel with
      | O => OutOfFuel
      | S fuel =>
          n <- at_ ns idx;;
          b <- plain U32 (branch_support_of n + count);;
          walk_up fuel (<[idx := set_branch b n]> ns) count (parent n)
      end
  end.

(** [self.nodes[child].parent = Some(p)] for every child. *)
Fixpoint adopt (ns : list Node) (cs : list nat) (p : nat) : outcome E (list Node) :=
  match cs with
  | [] => Ok ns
  | c :: cs => ns <- modify_at ns c (set_parent (Some p));; adopt ns cs p
  end.

(** Have [abcdef -> ...], inserting [abc]: becomes [abc -> def -> ...]. *)
Definition split_node (ns : list Node) (loc : nat) (prefix : option Span) (old_suffix : Span)
    : outcome E (list Node) :=
  n <- at_ ns loc;;
  let new_node := mkNode old_suffix (tip_support_of n) (branch_support_of n) (children n) None true in
  let ns := <[loc := set_children [] n]> ns in
  let '(ns, new_idx) := alloc ns new_node in
  ns <- adopt ns (children n) new_idx;;
  match prefix with
  | None => Panic
  | Some prefix =>
      ns <- modify_at ns loc (set_span prefix);;
      ns <- modify_at ns new_idx (set_parent (Some loc));;
      modify_at ns loc (fun n => set_tip 0 (set_children (children n ++ [new_idx]) n))
  end.

Definition insert (l : L) (count : Z) (t : LedgerTrie) : outcome E LedgerTrie :=
  '(loc, diff_seq) <- find (nodes t) l;;
  n <- at_ (nodes t) loc;;
  let prefix := span_before (span n) diff_seq in
  let old_suffix := span_from (span n) diff_seq in
  let new_suffix := span_from (span_from_ledger l 0) diff_seq in
  ns <- match old_suffix with
        | Some old_suffix => split_node (nodes t) loc prefix old_suffix
        | None => Ok (nodes t)
        end;;
  '(ns, inc_node) <-
    match new_suffix with
    | Some new_suffix =>
        let '(ns, new_idx) := alloc ns (set_parent (Some loc) (node_from_span new_suffix)) in
        ns <- modify_at ns loc (fun n => set_children (children n ++ [new_idx]) n);;
        Ok (ns, new_idx)
    | None => Ok (ns, loc)
    end;;
  n <- at_ ns inc_node;;
  tip <- plain U32 (tip_support_of n + count);;
  ns <- walk_up (S (length ns)) (<[inc_node := set_tip tip n]> ns) count (Some inc_node);;
  support <- plain U32 (default 0 (seq_support t !! seq l) + count);;
  Ok (mkTrie ns (<[seq l := support]> (seq_support t))).

(** ** Removing *)

Fixpoint live_of (ns : list Node) (cs : list nat) : outcome E (list nat) :=
  match cs with
  | [] => Ok []
  | c :: cs =>
      n <- at_ ns c;;
      rest <- live_of ns cs;;
      Ok (if live n then c :: rest else rest)
  end.

(** The loop that removes and compresses nodes without support. *)
Fixpoint compress (fuel : nat) (ns : list Node) (loc : nat) : outcome E (list Node) :=
  match fuel with
  | O => OutOfFuel
  | S fuel =>
      n <- at_ ns loc;;
      if (tip_support_of n =? 0) && negb (Nat.eqb loc ROOT) then
        match parent n with
        | None => Panic
        | Some p =>
            live_children <- live_of ns (children n);;
            match live_children with
            | [] => ns <- erase_child ns p loc;; compress fuel ns p
            | [child] =>
                c <- at_ ns child;;
                let merged := merge_span (span n) (span c) in
                let ns := <[child := set_parent (Some p) (set_span merged c)]> ns in
                ns <- modify_at ns p (fun q => set_children (children q ++ [child]) q);;
                ns <- erase_child ns p loc;;
                compress fuel ns p
            | _ => Ok ns
            end
        end
      else Ok ns
  end.

Definition remove (id ledger_seq count : Z) (t : LedgerTrie) : outcome E (bool * LedgerTrie) :=
  match find_by_ledger_id (nodes t) id with
  | None => Ok (false, t)
  | Some loc =>
      n <- at_ (nodes t) loc;;
      if tip_support_of n =? 0 then Ok (false, t)
      else
        let count := Z.min count (tip_support_of n) in
        tip <- plain U32 (tip_support_of n - count);;
        let ns := <[loc := set_tip tip n]> (nodes t) in
        ss <- match seq_support t !! ledger_seq with
              | Some support =>
                  support <- plain U32 (support - count);;
                  Ok (if support =? 0 then delete ledger_seq (seq_support t)
                      else <[ledger_seq := support]> (seq_support t))
              | None => Ok (seq_support t)
              end;;
        ns <- walk_up (S (length ns)) ns (- count) (Some loc);;
        ns <- compress (S (length ns)) ns loc;;
        Ok (true, mkTrie ns ss)
  end.

(** ** Queries *)

Definition tip_support (id : Z) (t : LedgerTrie) : outcome E Z :=
  match find_by_ledger_id (nodes t) id with
  | Some idx => n <- at_ (nodes t) idx;; Ok (tip_support_of n)
  | None => Ok 0
  end.

Definition branch_support (l : L) (t : LedgerTrie) : outcome E Z :=
  match find_by_ledger_id (nodes t) (ancestor l (seq l)) with
  | Some idx => n <- at_ (nodes t) idx;; Ok (branch_support_of n)
  | None =>
      '(loc, diff_seq) <- find (nodes t) l;;
      n <- at_ (nodes t) loc;;
      Ok (if (diff_seq >? seq l) && (seq l <? stop (span n)) then branch_support_of n else 0)
  end.

Definition is_empty (t : LedgerTrie) : outcome E bool :=
  n <- at_ (nodes t) ROOT;; Ok (branch_support_of n =? 0).

(** *** The preferred ledger *)

(** Takes in the support of the sequence numbers below [bound]. *)
Fixpoint take_below (bound uncommitted : Z) (rest : list (Z * Z)) : outcome E (Z * list (Z * Z)) :=
  match rest with
  | [] => Ok (uncommitted, [])
  | (s, v) :: rest' =>
      if s <? bound then u <- plain U32 (uncommitted + v);; take_below bound u rest'
      else Ok (uncommitted, rest)
  end.

(** Moves [next_seq] through a span as long as the branch outweighs what is
    uncommitted. *)
Fixpoint advance_span (stop_ branch next_seq uncommitted : Z) (rest : list (Z * Z))
    : outcome E (Z * Z * list (Z * Z)) :=
  if (next_seq <? stop_) && (branch >? uncommitted) then
    match rest with
    | (s, v) :: rest' =>
        if s <? stop_ then u <- plain U32 (uncommitted + v);; advance_span stop_ branch (s + 1) u rest'
        else Ok (stop_, uncommitted, rest)
    | [] => Ok (stop_, uncommitted, rest)
    end
  else Ok (next_seq, uncommitted, rest).

(** The key of a child in the order of preference, with its index. *)
Fixpoint keys_of (ns : list Node) (cs : list nat) : outcome E (list (Z * Z * nat)) :=
  match cs with
  | [] => Ok []
  | c :: cs =>
      n <- at_ ns c;;
      rest <- keys_of ns cs;;
      Ok ((branch_support_of n, start_id (span n), c) :: rest)
  end.

Definition key_ge (a b : Z * Z * nat) : Prop :=
  b.1.1 < a.1.1 \/ b.1.1 = a.1.1 /\ b.1.2 <= a.1.2.

#[export] Instance key_ge_dec : RelDecision key_ge.
Proof. intros a b. unfold key_ge. apply _. Defined.

(** The best child and its margin over the second. *)
Definition best_child (ns : list Node) (live_children : list nat) : outcome E (option (nat * Z)) :=
  keys <- keys_of ns live_children;;
  match keys with
  | [] => Ok None
  | [(branch, _, c)] => Ok (Some (c, branch))
  | _ =>
      match merge_sort key_ge keys with
      | (branch, id, first) :: (branch2, id2, _) :: _ =>
          margin <- plain U32 (branch - branch2);;
          margin <- (if id >? id2 then plain U32 (margin + 1) else Ok margin);;
          Ok (Some (first, margin))
      | _ => Panic
      end
  end.

Fixpoint preferred_loop (fuel : nat) (ns : list Node) (largest_issued : Z) (curr : nat)
    (uncommitted : Z) (rest : list (Z * Z)) : outcome E (option (SpanTip)) :=
  match fuel with
  | O => OutOfFuel
  | S fuel =>
      n <- at_ ns curr;;
      let sp := span n in
      let next_seq := start sp + 1 in
      '(uncommitted, rest) <- take_below (Z.max next_seq largest_issued) uncommitted rest;;
      '(next_seq, uncommitted, rest) <-
        advance_span (stop sp) (branch_support_of n) next_seq uncommitted rest;;
      if next_seq <? stop sp then Ok (span_tip <$> span_before sp next_seq)
      else
        live_children <- live_of ns (children n);;
        best <- best_child ns live_children;;
        match best with
        | Some (c, margin) =>
            if (margin >? uncommitted) || (uncommitted =? 0)
            then preferred_loop fuel ns largest_issued c uncommitted rest
            else Ok (Some (span_tip sp))
        | None => Ok (Some (span_tip sp))
        end
  end.

Definition seq_le (a b : Z * Z) : Prop := a.1 <= b.1.
#[export] Instance seq_le_dec : RelDecision seq_le.
Proof. intros a b. unfold seq_le. apply _. Defined.

(** [self.seq_support.iter()], in ascending order. *)
Definition support_entries (ss : gmap Z Z) : list (Z * Z) := merge_sort seq_le (map_to_list ss).

Definition get_preferred (largest_issued : Z) (t : LedgerTrie) : outcome E (option SpanTip) :=
  empty <- is_empty t;;
  if empty : bool then Ok None
  else preferred_loop (S (length (nodes t))) (nodes t) largest_issued ROOT 0
         (support_entries (seq_support t)).

(** *** The invariants the code checks of itself *)

(** The loop over the live children: [None] when a parent link is wrong. *)
Fixpoint sum_children (ns : list Node) (curr : nat) (support : Z) (cs : list nat) : outcome E (option Z) :=
  match cs with
  | [] => Ok (Some support)
  | c :: cs =>
      n <- at_ ns c;;
      if bool_decide (parent n = Some curr) then
        support <- plain U32 (support + branch_support_of n);; sum_children ns curr support cs
      else Ok None
  end.

Fixpoint invariants_loop (fuel : nat) (ns : list Node) (expected : gmap Z Z) (stack : list nat)
    : outcome E (option (gmap Z Z)) :=
  match stack with
  | [] => Ok (Some expected)
  | curr :: stack =>
      match fuel with
      | O => OutOfFuel
      | S fuel =>
          n <- at_ ns curr;;
          if negb (live n) && negb (Nat.eqb curr ROOT) then invariants_loop fuel ns expected stack
          else
            live_children <- live_of ns (children n);;
            if negb (Nat.eqb curr ROOT) && (tip_support_of n =? 0) && Nat.ltb (length live_children) 2 then Ok None
            else
              expected <- (if tip_support_of n =? 0 then Ok expected
                           else v <- plain U32 (default 0 (expected !! (stop (span n) - 1)) + tip_support_of n);;
                                Ok (<[stop (span n) - 1 := v]> expected));;
              support <- sum_children ns curr (tip_support_of n) live_children;;
              match support with
              | None => Ok None
              | Some support =>
                  if support =? branch_support_of n
                  then invariants_loop fuel ns expected (rev live_children ++ stack)
                  else Ok None
              end
      end
  end.

Definition check_invariants (t : LedgerTrie) : outcome E bool :=
  expected <- invariants_loop (S (length (nodes t))) (nodes t) ∅ [ROOT];;
  Ok (match expected with
      | Some expected => bool_decide (expected = seq_support t)
      | None => false
      end).

End Trie.
Arguments SpanTip : clear implicits.
Arguments Span : clear implicits.
Arguments Node : clear implicits.
Arguments LedgerTrie : clear implicits.
