(* ===== verification/TrieTree.v ===== *)
(** * TrieTree: the tree an arena of trie nodes stands for

    The laws of [TrieLedger], the trees that the arena of [LedgerTrie] represents
    ([repr]), trees with a hole ([frame], [plug]), and well-formed trees: spans that
    continue their parent's, siblings that differ where they start, no node
    without support that could be compressed away. *)

From stdpp Require Import gmap sorting.
From Stdlib Require Import ZArith Lia.
From S2P Require Import Prelude LedgerTrie.
Local Open Scope Z_scope.

(** ** What the trie relies on of ledgers

    Every ledger has a lineage, the identifiers of its ancestors; a ledger need not
    know all of it.  The genesis ledger, at sequence 0, is an ancestor of every
    ledger; an identifier stands for one ledger, with one sequence number and one
    lineage; [mismatch] is the first sequence number at which two lineages differ.

    What [ancestor] returns is the lineage from the sequence [floor] on; below, it
    may return anything, such as the zero identifier, but for the genesis ledger.
    All ledgers but the genesis ledger have the same ancestor at [floor]. *)
Class TrieLedgerLaws (L : Type) `{TrieLedger L} : Type := {
  lineage : L -> Z -> Z;
  floor : Z;
  seq_genesis : seq genesis = 0;
  seq_nonneg : forall l : L, 0 <= seq l;
  ancestor_known : forall (l : L) s, s = 0 \/ floor <= s <= seq l -> ancestor l s = lineage l s;
  genesis_prefix : forall l : L, lineage l 0 = lineage genesis 0;
  mismatch_le : forall a b : L, mismatch a b <= Z.min (seq a) (seq b) + 1;
  mismatch_iff : forall (a b : L) s, 0 <= s <= seq a -> s <= seq b ->
    lineage a s = lineage b s <-> s < mismatch a b;
  lineage_inj : forall (a b : L) s s', 0 <= s <= seq a -> 0 <= s' <= seq b ->
    lineage a s = lineage b s' -> s = s';
  common_floor : forall a b : L, 0 < seq a -> 0 < seq b -> floor < mismatch a b
}.

(** ** Trees *)

Section Tree.
Context `{TrieLedger L}.
Abbreviation Sp := (Span L).

Inductive tree : Type := T (i : nat) (sp : Sp) (tip : Z) (kids : list tree).

Definition root_of (t : tree) : nat := match t with T i _ _ _ => i end.
Definition span_of (t : tree) : Sp := match t with T _ sp _ _ => sp end.
Definition tip_of (t : tree) : Z := match t with T _ _ tip _ => tip end.
Definition kids_of (t : tree) : list tree := match t with T _ _ _ kids => kids end.

Section Induction.
Variable P : tree -> Prop.
Hypothesis P_T : forall i sp tip kids, Forall P kids -> P (T i sp tip kids).

Fixpoint tree_ind' (t : tree) : P t :=
  match t with
  | T i sp tip kids =>
      P_T i sp tip kids
        ((fix go (l : list tree) : Forall P l :=
            match l with
            | [] => Forall_nil_2 P
            | t :: l => Forall_cons_2 P t l (tree_ind' t) (go l)
            end) kids)
  end.
End Induction.

(** Sums over the nodes of a tree, weighted by the tip support. *)
Fixpoint total (f : Sp -> Z) (t : tree) : Z :=
  match t with
  | T _ sp tip kids => f sp * tip + fold_right (fun k acc => total f k + acc) 0 kids
  end.
Definition totals (f : Sp -> Z) (ts : list tree) : Z := fold_right (fun k acc => total f k + acc) 0 ts.

Definition branch (t : tree) : Z := total (fun _ => 1) t.
Definition branches (ts : list tree) : Z := totals (fun _ => 1) ts.

Fixpoint indices (t : tree) : list nat :=
  match t with T i _ _ kids => i :: flat_map indices kids end.
Definition all_indices (ts : list tree) : list nat := flat_map indices ts.

Lemma total_T f i sp tip kids : total f (T i sp tip kids) = f sp * tip + totals f kids.
Proof. reflexivity. Qed.
Lemma totals_cons f t ts : totals f (t :: ts) = total f t + totals f ts.
Proof. reflexivity. Qed.
Lemma totals_app f ts ts' : totals f (ts ++ ts') = totals f ts + totals f ts'.
Proof. induction ts as [|t ts IH]; [reflexivity|]. cbn [app]. rewrite !totals_cons, IH. lia. Qed.
Lemma branch_T i sp tip kids : branch (T i sp tip kids) = tip + branches kids.
Proof. unfold branch, branches. rewrite total_T. lia. Qed.
Lemma branches_app ts ts' : branches (ts ++ ts') = branches ts + branches ts'.
Proof. apply totals_app. Qed.
Lemma branches_cons t ts : branches (t :: ts) = branch t + branches ts.
Proof. reflexivity. Qed.
Lemma indices_T i sp tip kids : indices (T i sp tip kids) = i :: all_indices kids.
Proof. reflexivity. Qed.
Lemma all_indices_app ts ts' : all_indices (ts ++ ts') = all_indices ts ++ all_indices ts'.
Proof. apply flat_map_app. Qed.
Lemma all_indices_cons t ts : all_indices (t :: ts) = indices t ++ all_indices ts.
Proof. reflexivity. Qed.
Lemma root_in_indices t : root_of t ∈ indices t.
Proof. destruct t. left. Qed.

Lemma elem_of_all_indices k ts : k ∈ all_indices ts <-> exists t, t ∈ ts /\ k ∈ indices t.
Proof.
  unfold all_indices. rewrite list_elem_of_In, in_flat_map.
  split; intros (t & Ht & Hk); exists t; now rewrite ?list_elem_of_In in *.
Qed.

(** ** The arena represents a tree *)

Fixpoint repr (ns : list (Node L)) (par : option nat) (t : tree) : Prop :=
  match t with
  | T i sp tip kids =>
      ns !! i = Some (mkNode sp tip (branch t) (map root_of kids) par true) /\
      fold_right (fun k P => repr ns (Some i) k /\ P) True kids
  end.

Lemma repr_T ns par i sp tip kids : repr ns par (T i sp tip kids) <->
  ns !! i = Some (mkNode sp tip (tip + branches kids) (map root_of kids) par true) /\
  Forall (repr ns (Some i)) kids.
Proof.
  cbn [repr]. rewrite branch_T.
  assert (forall ts, fold_right (fun k P => repr ns (Some i) k /\ P) True ts <-> Forall (repr ns (Some i)) ts) as ->;
    [|reflexivity].
  induction ts as [|t ts IH]; cbn; [split; constructor|]. now rewrite IH, Forall_cons.
Qed.

Lemma repr_lookup ns par t : repr ns par t -> ns !! root_of t =
  Some (mkNode (span_of t) (tip_of t) (branch t) (map root_of (kids_of t)) par true).
Proof. destruct t as [i sp tip kids]. intros [Hi _]%repr_T. rewrite branch_T. exact Hi. Qed.

(** Only the nodes of the tree matter. *)
Lemma repr_frame ns ns' t : forall par, (forall k, k ∈ indices t -> ns' !! k = ns !! k) ->
  repr ns par t -> repr ns' par t.
Proof.
  induction t as [i sp tip kids IH] using tree_ind'. intros par Hk. rewrite !repr_T. intros [Hi Hkids].
  split; [rewrite Hk; [exact Hi|left]|]. rewrite Forall_forall in *. intros t Ht. apply IH; [exact Ht| |auto].
  intros k Hin. apply Hk. right. apply elem_of_all_indices. eauto.
Qed.

Lemma reprs_frame ns ns' par ts : (forall k, k ∈ all_indices ts -> ns' !! k = ns !! k) ->
  Forall (repr ns par) ts -> Forall (repr ns' par) ts.
Proof.
  intros Hk. rewrite !Forall_forall. intros Hr t Ht. apply (repr_frame ns); [|auto].
  intros k Hin. apply Hk, elem_of_all_indices. eauto.
Qed.

Lemma repr_range ns t : forall par, repr ns par t -> forall k, k ∈ indices t -> (k < length ns)%nat.
Proof.
  induction t as [i sp tip kids IH] using tree_ind'. intros par [Hi Hkids]%repr_T k.
  rewrite indices_T. intros [->|Hk]%elem_of_cons; [eapply lookup_lt_Some; eauto|].
  apply elem_of_all_indices in Hk as (t & Ht & Hk). rewrite Forall_forall in IH, Hkids. eauto.
Qed.

(** ** Trees with a hole *)

Record frame : Type := mkFrame { f_i : nat; f_sp : Sp; f_tip : Z; f_left : list tree; f_right : list tree }.

Definition plug1 (f : frame) (t : tree) : tree := T (f_i f) (f_sp f) (f_tip f) (f_left f ++ t :: f_right f).

(** The frames go from the hole to the root. *)
Fixpoint plug (ctx : list frame) (t : tree) : tree :=
  match ctx with
  | [] => t
  | f :: ctx => plug ctx (plug1 f t)
  end.

Definition par_of (ctx : list frame) : option nat :=
  match ctx with [] => None | f :: _ => Some (f_i f) end.

Definition frame_branch (f : frame) (b : Z) : Z := f_tip f + (branches (f_left f) + (b + branches (f_right f))).

Fixpoint repr_ctx (ns : list (Node L)) (ctx : list frame) (i : nat) (b : Z) : Prop :=
  match ctx with
  | [] => True
  | f :: ctx =>
      ns !! f_i f = Some (mkNode (f_sp f) (f_tip f) (frame_branch f b)
        (map root_of (f_left f) ++ i :: map root_of (f_right f)) (par_of ctx) true) /\
      Forall (repr ns (Some (f_i f))) (f_left f) /\ Forall (repr ns (Some (f_i f))) (f_right f) /\
      repr_ctx ns ctx (f_i f) (frame_branch f b)
  end.

Lemma repr_plug ns ctx t : repr ns None (plug ctx t) <->
  repr_ctx ns ctx (root_of t) (branch t) /\ repr ns (par_of ctx) t.
Proof.
  revert t. induction ctx as [|f ctx IH]; intros t; cbn [plug repr_ctx par_of]; [tauto|].
  rewrite IH. unfold plug1. cbn [root_of]. rewrite branch_T, branches_app, branches_cons, repr_T.
  rewrite map_app, Forall_app, Forall_cons, branches_app, branches_cons. cbn [map]. unfold frame_branch. tauto.
Qed.

Fixpoint spine (ctx : list frame) : list nat :=
  match ctx with [] => [] | f :: ctx => f_i f :: spine ctx end.

Fixpoint ctx_indices (ctx : list frame) : list nat :=
  match ctx with
  | [] => []
  | f :: ctx => f_i f :: all_indices (f_left f) ++ all_indices (f_right f) ++ ctx_indices ctx
  end.

Lemma plug_indices ctx t : indices (plug ctx t) ≡ₚ indices t ++ ctx_indices ctx.
Proof.
  revert t. induction ctx as [|f ctx IH]; intros t; cbn [plug ctx_indices]; [now rewrite app_nil_r|].
  rewrite IH. unfold plug1. rewrite indices_T, all_indices_app, all_indices_cons. solve_Permutation.
Qed.

Lemma spine_in ctx k : k ∈ spine ctx -> k ∈ ctx_indices ctx.
Proof.
  induction ctx as [|f ctx IH]; [tauto|]. cbn. intros [->|Hk]%elem_of_cons; [left|].
  right. rewrite !elem_of_app. auto.
Qed.

Lemma repr_ctx_frame ns ns' ctx i b : (forall k, k ∈ ctx_indices ctx -> ns' !! k = ns !! k) ->
  repr_ctx ns ctx i b -> repr_ctx ns' ctx i b.
Proof.
  revert i b. induction ctx as [|f ctx IH]; intros i b Hk; [auto|]. cbn [repr_ctx ctx_indices] in *.
  intros (Hf & Hl & Hr & Hc).
  assert (forall k, k ∈ f_i f :: all_indices (f_left f) ++ all_indices (f_right f) ++ ctx_indices ctx ->
    ns' !! k = ns !! k) as Hk' by exact Hk. setoid_rewrite elem_of_cons in Hk'. setoid_rewrite elem_of_app in Hk'.
  setoid_rewrite elem_of_app in Hk'.
  split; [now rewrite Hk' by auto|]. split; [apply (reprs_frame ns); auto|]. split; [apply (reprs_frame ns); auto|].
  apply IH; auto.
Qed.

Lemma total_plug f ctx t t' d : total f t' = total f t + d -> total f (plug ctx t') = total f (plug ctx t) + d.
Proof.
  revert t t'. induction ctx as [|fr ctx IH]; intros t t' Ht; cbn [plug]; [exact Ht|]. apply IH.
  unfold plug1. rewrite !total_T, !totals_app, !totals_cons. lia.
Qed.

(** ** Well-formed trees *)

Context `{!TrieLedgerLaws L}.

(** The identifiers at the start and at the tip of a span, in the lineage. *)
Definition line_id (sp : Sp) : Z := lineage (ledger sp) (start sp).
Definition line_tip (sp : Sp) : Z := lineage (ledger sp) (stop sp - 1).

Definition span_ok (sp : Sp) : Prop := 0 <= start sp < stop sp /\ stop sp <= seq (ledger sp) + 1.

(** The span [sp'] goes on where [sp] ends. *)
Definition continues (sp sp' : Sp) : Prop := start sp' = stop sp /\
  lineage (ledger sp') (stop sp - 1) = lineage (ledger sp) (stop sp - 1).

Definition start_ids (ts : list tree) : list Z := map (fun t => line_id (span_of t)) ts.

Fixpoint shaped (t : tree) : Prop :=
  match t with
  | T _ sp tip kids =>
      span_ok sp /\ 0 <= tip /\ NoDup (start_ids kids) /\
      fold_right (fun k P => (continues sp (span_of k) /\ shaped k) /\ P) True kids
  end.

Lemma shaped_T i sp tip kids : shaped (T i sp tip kids) <-> span_ok sp /\ 0 <= tip /\ NoDup (start_ids kids) /\
  Forall (fun k => continues sp (span_of k) /\ shaped k) kids.
Proof.
  cbn [shaped]. assert (forall ts, fold_right (fun k P => (continues sp (span_of k) /\ shaped k) /\ P) True ts <->
    Forall (fun k => continues sp (span_of k) /\ shaped k) ts) as ->; [|reflexivity].
  induction ts as [|t ts IH]; cbn; [split; constructor|]. now rewrite IH, Forall_cons.
Qed.

(** A node that is not the root has support of its own or several branches. *)
Definition full (t : tree) : Prop := 0 < tip_of t \/ (2 <= length (kids_of t))%nat.

Fixpoint compact (t : tree) : Prop :=
  match t with T _ _ _ kids => fold_right (fun k P => (full k /\ compact k) /\ P) True kids end.

Lemma compact_T i sp tip kids : compact (T i sp tip kids) <-> Forall (fun k => full k /\ compact k) kids.
Proof.
  cbn [compact]. induction kids as [|t ts IH]; cbn; [split; constructor|]. now rewrite IH, Forall_cons.
Qed.

Fixpoint shaped_ctx (ctx : list frame) (sp : Sp) : Prop :=
  match ctx with
  | [] => True
  | f :: ctx =>
      span_ok (f_sp f) /\ 0 <= f_tip f /\ continues (f_sp f) sp /\
      NoDup (start_ids (f_left f) ++ line_id sp :: start_ids (f_right f)) /\
      Forall (fun k => continues (f_sp f) (span_of k) /\ shaped k) (f_left f) /\
      Forall (fun k => continues (f_sp f) (span_of k) /\ shaped k) (f_right f) /\
      shaped_ctx ctx (f_sp f)
  end.

Lemma shaped_plug ctx t : shaped (plug ctx t) <-> shaped_ctx ctx (span_of t) /\ shaped t.
Proof.
  revert t. induction ctx as [|f ctx IH]; intros t; cbn [plug shaped_ctx]; [tauto|].
  rewrite IH. unfold plug1. cbn [span_of]. rewrite shaped_T. unfold start_ids. rewrite map_app, Forall_app, Forall_cons.
  cbn [map]. tauto.
Qed.

Definition frame_full (f : frame) : Prop := 0 < f_tip f \/ (1 <= length (f_left f) + length (f_right f))%nat.

Fixpoint compact_ctx (ctx : list frame) : Prop :=
  match ctx with
  | [] => True
  | f :: ctx =>
      Forall (fun k => full k /\ compact k) (f_left f) /\ Forall (fun k => full k /\ compact k) (f_right f) /\
      (ctx <> [] -> frame_full f) /\ compact_ctx ctx
  end.

Lemma compact_plug ctx t : compact (plug ctx t) <-> compact_ctx ctx /\ compact t /\ (ctx <> [] -> full t).
Proof.
  revert t. induction ctx as [|f ctx IH]; intros t; cbn [plug compact_ctx]; [tauto|].
  assert (full (plug1 f t) <-> frame_full f) as Hf.
  { unfold full, frame_full, plug1. cbn [tip_of kids_of]. rewrite length_app. cbn [length]. lia. }
  assert (f :: ctx <> []) by discriminate. rewrite IH, Hf. unfold plug1.
  rewrite compact_T, Forall_app, Forall_cons. tauto.
Qed.

(** ** Ledgers that agree *)

Lemma floor_le (l : L) : 0 < seq l -> floor <= seq l.
Proof. intros Hl. pose proof (common_floor l l Hl Hl). pose proof (mismatch_le l l). lia. Qed.

(** A ledger knows its own identifier. *)
Lemma ancestor_self (l : L) : ancestor l (seq l) = lineage l (seq l).
Proof.
  apply ancestor_known. pose proof (seq_nonneg l). destruct (Z.eq_dec (seq l) 0); [auto|]. right. pose proof (floor_le l). lia.
Qed.

(** [a] and [b] have the same ancestor at [s]. *)
Definition agree (a b : L) (s : Z) : Prop :=
  0 <= s <= seq a /\ s <= seq b /\ lineage a s = lineage b s.

Lemma agree_down a b s s' : agree a b s -> 0 <= s' <= s -> agree a b s'.
Proof.
  intros (Ha & Hb & Heq) Hs. split; [lia|]. split; [lia|]. apply mismatch_iff in Heq; [|lia..].
  apply mismatch_iff; lia.
Qed.

Lemma agree_sym a b s : agree a b s -> agree b a s.
Proof. intros (Ha & Hb & Heq). split; [lia|]. split; [lia|]. congruence. Qed.

Lemma agree_trans a b c s : agree a b s -> agree b c s -> agree a c s.
Proof. intros (? & ? & ?) (? & ? & ?). split; [lia|]. split; [lia|]. congruence. Qed.

Lemma agree_refl a s : 0 <= s <= seq a -> agree a a s.
Proof. intros Hs. split; [lia|]. split; [lia|]. reflexivity. Qed.

Lemma diff_spec sp l : span_ok sp -> start sp < diff sp l ->
  diff sp l <= stop sp /\ diff sp l <= seq l + 1 /\ agree (ledger sp) l (diff sp l - 1) /\
  (diff sp l < stop sp -> diff sp l <= seq l -> lineage (ledger sp) (diff sp l) <> lineage l (diff sp l)).
Proof.
  intros [[H0 Hs] Hl]. pose proof (mismatch_le (ledger sp) l). unfold diff, clamp. intros Hd.
  set (mm := mismatch (ledger sp) l) in *.
  assert (Z.min (Z.max mm (start sp)) (stop sp) = Z.min mm (stop sp)) as Heq by lia. rewrite Heq in *.
  split; [lia|]. split; [lia|]. split.
  - split; [lia|]. split; [lia|]. apply mismatch_iff; fold mm; lia.
  - intros Hlo Hhi Habs. apply mismatch_iff in Habs; [|lia..]. fold mm in Habs. lia.
Qed.

Lemma diff_stuck sp l : span_ok sp -> diff sp l <= start sp -> start sp <= seq l ->
  line_id sp <> lineage l (start sp).
Proof.
  intros [[H0 Hs] Hl]. pose proof (mismatch_le (ledger sp) l). unfold diff, clamp, line_id. intros Hd Hseq Habs.
  apply mismatch_iff in Habs; [|lia..]. lia.
Qed.

(** A span that goes on another agrees with it. *)
Lemma continues_agree sp sp' : span_ok sp -> span_ok sp' -> continues sp sp' ->
  agree (ledger sp) (ledger sp') (stop sp - 1).
Proof.
  intros [[H0 Hs] Hl] [[H0' Hs'] Hl'] [Hst Heq]. split; [lia|]. split; [lia|]. now symmetry.
Qed.
End Tree.
Arguments tree : clear implicits.
Arguments frame : clear implicits.
