(* ===== verification/TrieOps.v ===== *)
(** * TrieOps: the operations on the arena, on the tree it stands for *)

From stdpp Require Import gmap sorting.
From Stdlib Require Import ZArith Lia.
From S2P Require Import Prelude LedgerTrie TrieTree.
Local Open Scope Z_scope.

Section Ops.
Context `{TrieLedger L, !TrieLedgerLaws L} {E : Type}.
Abbreviation Nodes := (list (Node L)).
Implicit Types (ns : Nodes) (l : L) (t : tree L) (ctx : list (frame L)).

(** ** Searching *)

(** The position [find] ends at: [l] goes through the whole of the ancestors'
    spans, beyond the start of this one, and into none of the children. *)
Definition stuck l t : Prop :=
  diff (span_of t) l < stop (span_of t) \/
  Forall (fun k => diff (span_of k) l <= stop (span_of t)) (kids_of t).

Lemma find_child_spec ns l pos i kids : Forall (repr ns (Some i)) kids ->
  (exists left k right, kids = left ++ k :: right /\ pos < diff (span_of k) l /\
     find_child ns l pos (map root_of kids) = Ok (E := E) (Some (root_of k, diff (span_of k) l))) \/
  Forall (fun k => diff (span_of k) l <= pos) kids /\
     find_child ns l pos (map root_of kids) = Ok (E := E) None.
Proof.
  induction kids as [|k kids IH]; intros Hk.
  - right. split; [constructor|reflexivity].
  - apply Forall_cons in Hk as [Hk Hks]. cbn [map find_child]. unfold at_. rewrite (repr_lookup _ _ _ Hk). cbn.
    destruct (Z.gtb_spec (diff (span_of k) l) pos) as [Hgt|Hle].
    + left. exists [], k, kids. split; [reflexivity|]. split; [lia|reflexivity].
    + destruct (IH Hks) as [(left & k' & right & -> & Hpos & Hf)|[Hall Hf]]; rewrite Hf.
      * left. exists (k :: left), k', right. auto.
      * right. split; [constructor; [lia|exact Hall]|reflexivity].
Qed.

Lemma length_all_indices t left right (k : tree L) : kids_of t = left ++ k :: right ->
  (length (indices k) < length (indices t))%nat.
Proof.
  destruct t as [i sp tip kids]. cbn [kids_of]. intros ->.
  rewrite indices_T, all_indices_app, all_indices_cons. cbn. rewrite !length_app. lia.
Qed.

Lemma find_loop_spec ns l fuel : forall ctx t, repr ns None (plug ctx t) -> shaped (plug ctx t) ->
  (length (indices t) < fuel)%nat -> start (span_of t) < diff (span_of t) l ->
  exists ctx' t', find_loop fuel ns l (root_of t) (diff (span_of t) l) = Ok (E := E) (root_of t', diff (span_of t') l) /\
    plug ctx' t' = plug ctx t /\ start (span_of t') < diff (span_of t') l /\ stuck l t'.
Proof.
  induction fuel as [|fuel IH]; intros ctx t Hr Hs Hf Hd; [lia|].
  pose proof Hr as Hr'. apply repr_plug in Hr' as [_ Ht].
  cbn [find_loop]. unfold at_. rewrite (repr_lookup _ _ _ Ht). cbn [bind span children].
  pose proof Hs as Hs'. apply shaped_plug in Hs' as [_ Hst].
  assert (span_ok (span_of t)) as Hok by (destruct t; apply shaped_T in Hst; tauto).
  pose proof (diff_spec _ l Hok Hd) as (Hle & _).
  destruct (Z.eqb_spec (diff (span_of t) l) (stop (span_of t))) as [Heq|Hne].
  - destruct t as [i sp tip kids]. cbn [root_of span_of kids_of] in *. apply repr_T in Ht as [_ Hkids].
    destruct (find_child_spec ns l (diff sp l) i kids Hkids) as [(left & k & right & -> & Hpos & ->)|[Hall ->]]; cbn [bind].
    + apply shaped_T in Hst as (_ & _ & _ & Hks). rewrite Forall_app, Forall_cons in Hks.
      destruct (IH (mkFrame i sp tip left right :: ctx) k) as (ctx' & t' & Hrun & Hplug & Hd' & Hst').
      * exact Hr.
      * exact Hs.
      * pose proof (length_all_indices (T i sp tip (left ++ k :: right)) left right k eq_refl). lia.
      * destruct Hks as (_ & [[Hst _] _] & _). lia.
      * exists ctx', t'. rewrite Hrun. auto.
    + exists ctx, (T i sp tip kids). split; [reflexivity|]. split; [reflexivity|]. split; [exact Hd|].
      right. cbn. rewrite <- Heq. exact Hall.
  - exists ctx, t. split; [reflexivity|]. split; [reflexivity|]. split; [exact Hd|]. left. lia.
Qed.

(** ** Walking up *)

(** Adding [c] keeps the branch supports of all frames at 32 bits. *)
Fixpoint bounded ctx (b c : Z) : Prop :=
  match ctx with
  | [] => True
  | f :: ctx => 0 <= frame_branch f b + c <= max_of U32 /\ bounded ctx (frame_branch f b) c
  end.

Lemma walk_ctx_spec ctx c : forall ns fuel i b, repr_ctx ns ctx i b -> NoDup (ctx_indices ctx) ->
  (length ctx <= fuel)%nat -> bounded ctx b c ->
  exists ns', walk_up fuel ns c (par_of ctx) = Ok (E := E) ns' /\ repr_ctx ns' ctx i (b + c) /\
    length ns' = length ns /\ forall k, k ∉ spine ctx -> ns' !! k = ns !! k.
Proof.
  induction ctx as [|f ctx IH]; intros ns fuel i b Hr Hnd Hf Hb.
  - exists ns. split; [now destruct fuel|]. auto.
  - cbn [repr_ctx ctx_indices bounded length par_of spine] in *. destruct Hr as (Hn & Hl & Hri & Hc).
    destruct Hb as [Hb Hbs]. apply NoDup_cons in Hnd as [Hfi Hnd]. rewrite !not_elem_of_app in Hfi.
    rewrite !NoDup_app in Hnd. destruct Hnd as (Hndl & Hdl & Hndr & Hdr & Hndc).
    destruct fuel as [|fuel]; [lia|]. cbn [walk_up]. unfold at_. rewrite Hn. cbn [bind branch_support_of parent].
    rewrite plain_ok by (cbn [min_of]; lia). cbn [bind].
    set (ns1 := <[f_i f := _]> ns).
    assert (forall k, k <> f_i f -> ns1 !! k = ns !! k) as Hns1
      by (intros k Hk; apply list_lookup_insert_ne; congruence).
    destruct (IH ns1 fuel (f_i f) (frame_branch f b)) as (ns' & Hrun & Hr' & Hlen & Hoff); [|assumption|lia|exact Hbs|].
    { apply (repr_ctx_frame ns); [|exact Hc]. intros k Hk. apply Hns1. intros ->. tauto. }
    exists ns'. split; [exact Hrun|].
    assert (forall k, k ∉ f_i f :: spine ctx -> ns' !! k = ns !! k) as Hoff'.
    { intros k [Hk1 Hk2]%not_elem_of_cons. rewrite Hoff by exact Hk2. now apply Hns1. }
    split; [|split; [rewrite Hlen; apply length_insert|exact Hoff']].
    assert (forall ts : list (tree L), (forall k, k ∈ all_indices ts -> k <> f_i f /\ k ∉ ctx_indices ctx) ->
      Forall (repr ns (Some (f_i f))) ts -> Forall (repr ns' (Some (f_i f))) ts) as Hsib.
    { intros ts Hts. apply reprs_frame. intros k Hk. destruct (Hts k Hk) as [Hk1 Hk2].
      apply Hoff'. apply not_elem_of_cons. split; [exact Hk1|]. intros Habs%spine_in. contradiction. }
    split; [|split; [apply Hsib; [|exact Hl]|split; [apply Hsib; [|exact Hri]|]]].
    + rewrite Hoff by (intros Habs%spine_in; tauto). unfold ns1.
      rewrite list_lookup_insert_eq by (eapply lookup_lt_Some; eauto). unfold set_branch. cbn.
      do 2 f_equal. unfold frame_branch. lia.
    + intros k Hk. split; [intros ->; tauto|]. intros Habs. apply (Hdl k Hk). apply elem_of_app. auto.
    + intros k Hk. split; [intros ->; tauto|]. intros Habs. now apply (Hdr k Hk).
    + replace (frame_branch f (b + c)) with (frame_branch f b + c) by (unfold frame_branch; lia). exact Hr'.
Qed.

(** ** The arena and its tree *)

(** The arena stands for the tree, and its other nodes are tombstones. *)
Definition models ns t : Prop := repr ns None t /\ NoDup (indices t) /\
  forall k n, ns !! k = Some n -> live n = true -> k ∈ indices t.

Lemma models_grow ns ns' t t' : models ns t -> repr ns' None t' -> NoDup (indices t') ->
  (forall k, k ∈ indices t -> k ∈ indices t') -> (forall k, k ∉ indices t' -> ns' !! k = ns !! k) ->
  models ns' t'.
Proof.
  intros (_ & _ & Hc) Hr Hnd Hsub Hoff. split; [exact Hr|]. split; [exact Hnd|]. intros k n Hk Hl.
  destruct (decide (k ∈ indices t')) as [Hin|Hout]; [exact Hin|]. rewrite Hoff in Hk by exact Hout. eauto.
Qed.

Lemma plug_NoDup ctx t : NoDup (indices (plug ctx t)) ->
  NoDup (indices t) /\ NoDup (ctx_indices ctx) /\ forall k, k ∈ indices t -> k ∉ ctx_indices ctx.
Proof. rewrite plug_indices, NoDup_app. tauto. Qed.

Lemma shaped_nonneg f t : (forall sp, 0 <= f sp) -> shaped t -> 0 <= total f t.
Proof.
  intros Hf. induction t as [i sp tip kids IH] using tree_ind'. rewrite shaped_T. intros (_ & Htip & _ & Hk).
  rewrite total_T. assert (0 <= totals f kids); [|specialize (Hf sp); nia].
  induction kids as [|k kids IHk]; [reflexivity|]. apply Forall_cons in IH as [IH1 IH2], Hk as [[_ Hk1] Hk2].
  rewrite totals_cons. specialize (IHk IH2 Hk2). specialize (IH1 Hk1). lia.
Qed.

Lemma branches_nonneg (P : tree L -> Prop) ts : Forall (fun k => P k /\ shaped k) ts -> 0 <= branches ts.
Proof.
  induction 1 as [|k ts [_ Hk] _ IH]; [reflexivity|]. rewrite branches_cons.
  pose proof (shaped_nonneg (fun _ => 1) k ltac:(intros; lia) Hk). unfold branch. lia.
Qed.

Lemma bounded_plug ctx c : forall t, shaped (plug ctx t) -> 0 <= branch t + c ->
  branch (plug ctx t) + c <= max_of U32 -> bounded ctx (branch t) c /\ branch t <= branch (plug ctx t).
Proof.
  induction ctx as [|f ctx IH]; intros t Hs Hlo Hhi; cbn [plug bounded] in *; [split; [auto|lia]|].
  assert (frame_branch f (branch t) = branch (plug1 f t)) as Hb.
  { unfold plug1. rewrite branch_T, branches_app, branches_cons. reflexivity. }
  pose proof Hs as Hs'. apply (shaped_plug (f :: ctx)) in Hs' as [(_ & Htip & _ & _ & Hl & Hr & _) _].
  apply branches_nonneg in Hl, Hr. assert (branch t <= branch (plug1 f t)) by (rewrite <- Hb; unfold frame_branch; lia).
  destruct (IH (plug1 f t)) as [H1 H2]; [exact Hs|lia|exact Hhi|]. rewrite Hb. split; [split; [lia|exact H1]|lia].
Qed.

Lemma ctx_length ns ctx t : repr ns None (plug ctx t) -> NoDup (indices (plug ctx t)) ->
  (length (indices t) + length ctx <= length ns)%nat.
Proof.
  intros Hr Hnd.
  assert (length (indices (plug ctx t)) <= length ns)%nat as Hle.
  { rewrite <- (length_seq (length ns) 0). apply submseteq_length, NoDup_submseteq; [exact Hnd|].
    intros k Hk. apply elem_of_seq. pose proof (repr_range _ _ _ Hr k Hk). lia. }
  rewrite plug_indices, length_app in Hle.
  assert (length ctx <= length (ctx_indices ctx))%nat; [|lia]. clear.
  induction ctx as [|f ctx IH]; cbn; [lia|]. rewrite !length_app. lia.
Qed.

(** Adding [c] to the tip support of a node and to the branch support of all
    nodes above it. *)
Lemma bump_spec ns ctx i sp tip kids c : models ns (plug ctx (T i sp tip kids)) ->
  shaped (plug ctx (T i sp tip kids)) -> 0 <= tip + c ->
  branch (plug ctx (T i sp tip kids)) + c <= max_of U32 ->
  exists n ns', ns !! i = Some n /\ tip_support_of n = tip /\ plain U32 (tip + c) = Ok (E := E) (tip + c) /\
    walk_up (S (length ns)) (<[i := set_tip (tip + c) n]> ns) c (Some i) = Ok (E := E) ns' /\
    models ns' (plug ctx (T i sp (tip + c) kids)) /\ length ns' = length ns.
Proof.
  intros (Hr & Hnd & Hc) Hs Hlo Hhi. pose proof (ctx_length _ _ _ Hr Hnd) as Hlen.
  destruct (plug_NoDup _ _ Hnd) as (Hndt & Hndc & Hdisj). pose proof Hr as Hr0.
  apply repr_plug in Hr as [Hrc Hrt]. apply repr_T in Hrt as [Hi Hkids].
  assert (0 <= branches kids) as Hkn.
  { apply shaped_plug in Hs as [_ Hs]. apply shaped_T in Hs as (_ & _ & _ & Hk). exact (branches_nonneg _ _ Hk). }
  rewrite branch_T in Hrc. cbn [root_of] in Hrc.
  destruct (bounded_plug ctx c _ Hs) as [Hb Hle]; [rewrite branch_T; lia|exact Hhi|]. rewrite branch_T in Hb, Hle.
  assert (i < length ns)%nat as Hlt by (eapply lookup_lt_Some; eauto).
  set (ns1 := <[i := mkNode sp (tip + c) (tip + branches kids + c) (map root_of kids) (par_of ctx) true]> ns).
  assert (forall k, k <> i -> ns1 !! k = ns !! k) as Hns1 by (intros k Hk; apply list_lookup_insert_ne; congruence).
  destruct (walk_ctx_spec ctx c ns1 (length ns) i (tip + branches kids)) as (ns' & Hw & Hrc' & Hlen' & Hoff);
    [|exact Hndc|cbn in Hlen; lia|exact Hb|].
  { apply (repr_ctx_frame ns); [|exact Hrc]. intros k Hk. apply Hns1. intros ->. apply (Hdisj i); [left|exact Hk]. }
  rewrite indices_T in Hndt. apply NoDup_cons in Hndt as [Hik Hndk].
  assert (forall k, k ∈ indices (T i sp tip kids) -> k ∉ spine ctx) as Hsp
    by (intros k Hk Habs%spine_in; eapply Hdisj; eauto).
  eexists. exists ns'. split; [exact Hi|]. cbn [tip_support_of]. split; [reflexivity|].
  split; [apply plain_ok; cbn [min_of]; lia|]. split.
  { cbn [walk_up]. unfold at_. rewrite list_lookup_insert_eq by exact Hlt. cbn [bind set_tip branch_support_of parent].
    rewrite plain_ok by (cbn [min_of]; lia). cbn [bind]. unfold set_branch. cbn. now rewrite list_insert_insert_eq. }
  split; [|rewrite Hlen'; apply length_insert].
  apply (models_grow ns ns' (plug ctx (T i sp tip kids))); [exact (conj Hr0 (conj Hnd Hc))| | | |].
  - apply repr_plug. cbn [root_of]. rewrite branch_T. split; [replace (tip + c + branches kids) with (tip + branches kids + c) by lia; exact Hrc'|].
    apply repr_T. split.
    + rewrite Hoff by (apply Hsp; left). unfold ns1. rewrite list_lookup_insert_eq by exact Hlt. do 2 f_equal. lia.
    + apply (reprs_frame ns); [|exact Hkids]. intros k Hk. rewrite Hoff by (apply Hsp; now right).
      apply Hns1. intros ->. contradiction.
  - rewrite plug_indices in *. exact Hnd.
  - intros k. rewrite !plug_indices. auto.
  - intros k. rewrite plug_indices, indices_T, elem_of_app, elem_of_cons. intros Hk.
    rewrite Hoff by (intros Habs%spine_in; tauto). apply Hns1. tauto.
Qed.

(** ** Inserting *)

Lemma adopt_spec p kids : forall ns q, Forall (repr ns q) kids -> NoDup (all_indices kids) ->
  exists ns', adopt ns (map root_of kids) p = Ok (E := E) ns' /\ Forall (repr ns' (Some p)) kids /\
    length ns' = length ns /\ forall k, k ∉ all_indices kids -> ns' !! k = ns !! k.
Proof.
  induction kids as [|[i sp tip ks] kids IH]; intros ns q Hr Hnd.
  - exists ns. split; [reflexivity|]. split; [constructor|]. auto.
  - apply Forall_cons in Hr as [Hr Hrs]. rewrite all_indices_cons, NoDup_app in Hnd. destruct Hnd as (Hnd & Hdisj & Hnds).
    cbn [map adopt root_of]. unfold modify_at, at_. apply repr_T in Hr as [Hi Hks]. rewrite Hi. cbn [bind].
    assert (i < length ns)%nat as Hlt by (eapply lookup_lt_Some; eauto).
    rewrite indices_T in Hnd, Hdisj. apply NoDup_cons in Hnd as [Hik Hndk].
    set (ns1 := <[i := _]> ns).
    assert (forall k, k <> i -> ns1 !! k = ns !! k) as Hns1 by (intros k Hk; apply list_lookup_insert_ne; congruence).
    destruct (IH ns1 q) as (ns' & -> & Hr' & Hlen & Hoff); [|exact Hnds|].
    { apply (reprs_frame ns); [|exact Hrs]. intros k Hk. apply Hns1. intros ->. apply (Hdisj i); [left|exact Hk]. }
    exists ns'. split; [reflexivity|]. split; [|split; [rewrite Hlen; apply length_insert|]].
    + constructor; [|exact Hr']. apply repr_T. split.
      * rewrite Hoff by (apply Hdisj; left). unfold ns1. now rewrite list_lookup_insert_eq.
      * apply (reprs_frame ns); [|exact Hks]. intros k Hk. rewrite Hoff by (apply Hdisj; now right).
        apply Hns1. intros ->. contradiction.
    + intros k. rewrite all_indices_cons, indices_T, elem_of_app, elem_of_cons. intros Hk.
      rewrite Hoff by tauto. apply Hns1. tauto.
Qed.

Lemma fresh_index ns t : models ns t -> length ns ∉ indices t.
Proof. intros (Hr & _) Hin. pose proof (repr_range _ _ _ Hr _ Hin). lia. Qed.

Lemma lookup_app_new ns n : (ns ++ [n]) !! length ns = Some n.
Proof. rewrite lookup_app_r, Nat.sub_diag by lia. reflexivity. Qed.

Lemma lookup_app_old ns (n : Node L) k : (k < length ns)%nat -> (ns ++ [n]) !! k = ns !! k.
Proof. apply lookup_app_l. Qed.

(** What a split leaves in the arena. *)
Lemma split_arena ns q i sp tip b kids pre suf :
  ns !! i = Some (mkNode sp tip b (map root_of kids) q true) -> Forall (repr ns (Some i)) kids ->
  NoDup (all_indices kids) -> i ∉ all_indices kids -> (forall k, k ∈ all_indices kids -> (k < length ns)%nat) ->
  exists ns', split_node ns i (Some pre) suf = Ok (E := E) ns' /\ length ns' = S (length ns) /\
    ns' !! i = Some (mkNode pre 0 b [length ns] q true) /\
    ns' !! length ns = Some (mkNode suf tip b (map root_of kids) (Some i) true) /\
    Forall (repr ns' (Some (length ns))) kids /\
    forall k, k <> i -> k <> length ns -> k ∉ all_indices kids -> ns' !! k = ns !! k.
Proof.
  intros Hi Hkids Hndk Hik Hrange. assert (i < length ns)%nat as Hlt by (eapply lookup_lt_Some; eauto).
  unfold split_node, at_, alloc. rewrite Hi. cbn [bind children tip_support_of branch_support_of].
  set (ns0 := <[i := _]> ns). set (new := mkNode suf tip b (map root_of kids) None true).
  assert (length ns0 = length ns) as Hlen0 by apply length_insert.
  assert (forall k, k <> i -> k <> length ns -> (ns0 ++ [new]) !! k = ns !! k) as Hns1.
  { intros k Hk Hl. destruct (decide (k < length ns)%nat) as [Hk'|Hk'].
    - rewrite lookup_app_l by lia. apply list_lookup_insert_ne. congruence.
    - rewrite !lookup_ge_None_2; [reflexivity|lia|rewrite length_app; cbn; lia]. }
  rewrite Hlen0. destruct (adopt_spec (length ns) kids (ns0 ++ [new]) (Some i)) as (ns2 & -> & Hk2 & Hlen2 & Hoff2);
    [|exact Hndk|].
  { apply (reprs_frame ns); [|exact Hkids]. intros k Hk. specialize (Hrange k Hk).
    apply Hns1; [intros ->; contradiction|lia]. }
  cbn [bind]. rewrite length_app in Hlen2. cbn in Hlen2.
  assert (length ns ∉ all_indices kids) as Hfresh by (intros Habs%Hrange; lia).
  assert (ns2 !! i = Some (mkNode sp tip b [] q true)) as Hi2.
  { rewrite Hoff2 by exact Hik. rewrite lookup_app_l by lia. unfold ns0. now rewrite list_lookup_insert_eq by lia. }
  assert (ns2 !! length ns = Some new) as Hn2.
  { rewrite Hoff2 by exact Hfresh. rewrite <- Hlen0. apply lookup_app_new. }
  exists (<[i := mkNode pre 0 b [length ns] q true]>
    (<[length ns := mkNode suf tip b (map root_of kids) (Some i) true]> ns2)).
  split; [|split; [|split; [|split; [|split]]]].
  - unfold modify_at, at_. rewrite Hi2. cbn [bind]. rewrite list_lookup_insert_ne, Hn2 by lia. cbn [bind].
    rewrite list_lookup_insert_ne, list_lookup_insert_eq by lia. cbn [bind].
    rewrite (list_insert_insert_ne _ (length ns) i), list_insert_insert_eq by lia. reflexivity.
  - rewrite !length_insert. lia.
  - apply list_lookup_insert_eq. rewrite length_insert. lia.
  - rewrite list_lookup_insert_ne, list_lookup_insert_eq by lia. reflexivity.
  - apply (reprs_frame ns2); [|exact Hk2]. intros k Hk.
    rewrite !list_lookup_insert_ne; [reflexivity|intros <-; contradiction..].
  - intros k H1 H2 H3. rewrite !list_lookup_insert_ne by congruence. rewrite Hoff2 by exact H3. now apply Hns1.
Qed.

Lemma hole_lookup ns ctx i sp tip kids : models ns (plug ctx (T i sp tip kids)) ->
  (ns !! i = Some (mkNode sp tip (tip + branches kids) (map root_of kids) (par_of ctx) true) /\
   Forall (repr ns (Some i)) kids /\ repr_ctx ns ctx i (tip + branches kids)) /\
  (i ∉ all_indices kids /\ NoDup (all_indices kids)) /\
  (forall k, k ∈ indices (plug ctx (T i sp tip kids)) <-> k = i \/ k ∈ all_indices kids \/ k ∈ ctx_indices ctx) /\
  (forall k, k ∈ ctx_indices ctx -> k <> i /\ k ∉ all_indices kids) /\
  forall k, k ∈ indices (plug ctx (T i sp tip kids)) -> (k < length ns)%nat.
Proof.
  intros (Hr & Hnd & Hc). pose proof (repr_range _ _ _ Hr) as Hrange.
  destruct (plug_NoDup _ _ Hnd) as (Hndt & _ & Hdisj). apply repr_plug in Hr as [Hrc Hrt].
  apply repr_T in Hrt as [Hi Hkids]. rewrite branch_T in Hrc. rewrite indices_T in Hndt, Hdisj.
  apply NoDup_cons in Hndt as [Hik Hndk]. split; [auto|]. split; [auto|]. split; [|split; [|exact Hrange]].
  - intros k. rewrite plug_indices, indices_T, elem_of_app, elem_of_cons. tauto.
  - intros k Hk. split; [intros ->|intros Hk']; eapply Hdisj; eauto; [left|now right].
Qed.

(** The node at the hole is split in two: the new node takes over its support and
    its children. *)
Lemma split_spec ns ctx i sp tip kids pre suf : models ns (plug ctx (T i sp tip kids)) ->
  exists ns', split_node ns i (Some pre) suf = Ok (E := E) ns' /\
    models ns' (plug ctx (T i pre 0 [T (length ns) suf tip kids])) /\ length ns' = S (length ns).
Proof.
  intros Hm. pose proof (fresh_index _ _ Hm) as Hfresh.
  destruct (hole_lookup _ _ _ _ _ _ Hm) as ((Hi & Hkids & Hrc) & (Hik & Hndk) & Hidx & Hdisj & Hrange).
  destruct (split_arena ns _ i sp tip _ kids pre suf Hi Hkids Hndk Hik) as (ns' & Hrun & Hlen & Hi' & Hn' & Hk' & Hoff).
  { intros k Hk. apply Hrange, Hidx. auto. }
  exists ns'. split; [exact Hrun|]. split; [|exact Hlen].
  assert (indices (plug ctx (T i pre 0 [T (length ns) suf tip kids])) ≡ₚ
    length ns :: indices (plug ctx (T i sp tip kids))) as Hperm.
  { rewrite !plug_indices, !indices_T. unfold all_indices at 1. cbn. rewrite app_nil_r. solve_Permutation. }
  assert (0 + branches [T (length ns) suf tip kids] = tip + branches kids) as Hb.
  { rewrite branches_cons, branch_T. cbn [branches totals fold_right]. change (branches []) with 0. lia. }
  apply (models_grow ns ns' _ _ Hm).
  - apply repr_plug. cbn [root_of]. rewrite branch_T, Hb. split.
    + apply (repr_ctx_frame ns); [|exact Hrc]. intros k Hk. apply Hoff; try (apply Hdisj, Hk).
      intros ->. apply Hfresh, Hidx. auto.
    + apply repr_T. split; [now rewrite Hi', Hb|].
      apply Forall_singleton, repr_T. auto.
  - rewrite Hperm. apply NoDup_cons. split; [exact Hfresh|apply Hm].
  - intros k. rewrite Hperm. now right.
  - intros k. rewrite Hperm, not_elem_of_cons, Hidx. intros [H1 H2]. apply Hoff; tauto.
Qed.

(** A leaf is added below the node at the hole. *)
Lemma leaf_spec ns ctx i sp tip kids s : models ns (plug ctx (T i sp tip kids)) ->
  exists ns', modify_at (ns ++ [set_parent (Some i) (node_from_span s)]) i
      (fun n => set_children (children n ++ [length ns]) n) = Ok (E := E) ns' /\
    models ns' (plug ctx (T i sp tip (kids ++ [T (length ns) s 0 []]))) /\ length ns' = S (length ns).
Proof.
  intros Hm. pose proof (fresh_index _ _ Hm) as Hfresh.
  destruct (hole_lookup _ _ _ _ _ _ Hm) as ((Hi & Hkids & Hrc) & (Hik & Hndk) & Hidx & Hdisj & Hrange).
  assert (i < length ns)%nat as Hlt by (eapply lookup_lt_Some; eauto).
  unfold modify_at, at_. rewrite lookup_app_l, Hi by exact Hlt. cbn [bind children].
  eexists. split; [reflexivity|]. rewrite length_insert, length_app. cbn [length]. split; [|lia].
  set (ns' := <[i := _]> _).
  assert (forall k, k <> i -> (k < length ns)%nat -> ns' !! k = ns !! k) as Hoff.
  { intros k H1 H2. unfold ns'. rewrite list_lookup_insert_ne by congruence. now apply lookup_app_l. }
  assert (indices (plug ctx (T i sp tip (kids ++ [T (length ns) s 0 []]))) ≡ₚ
    length ns :: indices (plug ctx (T i sp tip kids))) as Hperm.
  { rewrite !plug_indices, !indices_T, all_indices_app. cbn. solve_Permutation. }
  apply (models_grow ns ns' _ _ Hm).
  - apply repr_plug. cbn [root_of]. rewrite branch_T, branches_app. cbn [branches totals fold_right].
    change (branches [T (length ns) s 0 []]) with 0. rewrite Z.add_0_r. split.
    + apply (repr_ctx_frame ns); [|exact Hrc]. intros k Hk. apply Hoff; [apply Hdisj, Hk|apply Hrange, Hidx; auto].
    + apply repr_T. rewrite branches_app, map_app. change (branches [T (length ns) s 0 []]) with 0. rewrite Z.add_0_r.
      split; [unfold ns'; rewrite list_lookup_insert_eq by (rewrite length_app; lia); reflexivity|].
      apply Forall_app. split.
      * apply (reprs_frame ns); [|exact Hkids]. intros k Hk.
        apply Hoff; [intros ->; contradiction|apply Hrange, Hidx; auto].
      * apply Forall_singleton, repr_T. split; [|constructor]. unfold ns'.
        rewrite list_lookup_insert_ne by lia. apply lookup_app_new.
  - rewrite Hperm. apply NoDup_cons. split; [exact Hfresh|apply Hm].
  - intros k. rewrite Hperm. now right.
  - intros k. rewrite Hperm, not_elem_of_cons, Hidx. intros [H1 H2].
    destruct (decide (k < length ns)%nat); [apply Hoff; tauto|]. unfold ns'.
    rewrite !lookup_ge_None_2; [reflexivity|lia|rewrite length_insert, length_app; cbn; lia].
Qed.
End Ops.
