(* ===== verification/TrieInsert.v ===== *)
(** * TrieInsert: insertion into the ledger trie

    [insert] on the arena does [insert_hole] at the place [find] ends, keeps the
    trie well formed and adds the count to exactly the totals the ledger counts
    for. *)

From stdpp Require Import gmap sorting.
From Stdlib Require Import ZArith Lia.
From S2P Require Import Prelude LedgerTrie TrieTree TrieOps.
Local Open Scope Z_scope.

Section Insert.
Context `{TrieLedger L, !TrieLedgerLaws L} {E : Type}.
Implicit Types (ns : list (Node L)) (l : L) (t : tree L) (ctx : list (frame L)) (sp : Span L).

(** ** Weights that only look at the ledger a span ends with *)

Definition ext (f : Span L -> Z) : Prop := forall sp sp',
  stop sp = stop sp' -> agree (ledger sp) (ledger sp') (stop sp - 1) -> f sp = f sp'.

(** The span of a ledger itself. *)
Definition whole l : Span L := span_from_ledger l 0.

Lemma shaped_ctx_same ctx sp sp' : shaped_ctx ctx sp -> span_ok sp -> span_ok sp' ->
  start sp' = start sp -> agree (ledger sp) (ledger sp') (start sp) -> shaped_ctx ctx sp'.
Proof.
  intros Hc Hok Hok' Hst Hag. destruct ctx as [|f ctx]; [exact I|]. cbn [shaped_ctx] in *.
  destruct Hc as (Hf & Htip & [Hcont Hanc] & Hnd & Hrest).
  split; [exact Hf|]. split; [exact Htip|]. split; [|split; [|exact Hrest]].
  - split; [congruence|]. rewrite <- Hanc. destruct Hf as [Hf _].
    destruct (agree_down _ _ _ (stop (f_sp f) - 1) Hag) as (_ & _ & ->); [lia|reflexivity].
  - assert (line_id sp' = line_id sp) as ->; [|exact Hnd]. unfold line_id. rewrite Hst. symmetry. apply Hag.
Qed.

(** ** Insertion at the hole *)

Definition split_hole (n : nat) (pos : Z) t : tree L :=
  match t with
  | T i sp tip kids =>
      T i (mkSpan (start sp) pos (ledger sp)) 0 [T n (mkSpan pos (stop sp) (ledger sp)) tip kids]
  end.

Definition leaf_hole (n : nat) (pos : Z) l (c : Z) t : tree L :=
  match t with
  | T i sp tip kids => T i sp tip (kids ++ [T n (mkSpan pos (seq l + 1) l) c []])
  end.

Definition bump_hole (c : Z) t : tree L :=
  match t with T i sp tip kids => T i sp (tip + c) kids end.

Definition insert_hole (n : nat) l (c : Z) t : tree L :=
  let pos := diff (span_of t) l in
  let '(t, n) := if pos <? stop (span_of t) then (split_hole n pos t, S n) else (t, n) in
  if pos <? seq l + 1 then leaf_hole n pos l c t else bump_hole c t.

(** The three steps keep the shape. *)
Lemma split_shaped n pos t : shaped t -> start (span_of t) < pos < stop (span_of t) -> shaped (split_hole n pos t).
Proof.
  destruct t as [i sp tip kids]. cbn [span_of split_hole]. rewrite shaped_T. intros (Hok & Htip & Hnd & Hk) Hpos.
  destruct Hok as [H0 H1]. apply shaped_T. split; [split; cbn; lia|]. split; [lia|]. split; [apply NoDup_singleton|].
  apply Forall_singleton. split; [split; reflexivity|]. apply shaped_T. cbn. split; [split; cbn; lia|]. auto.
Qed.

Lemma leaf_shaped n l c t : shaped t -> 0 <= c -> stop (span_of t) <= seq l ->
  agree (ledger (span_of t)) l (stop (span_of t) - 1) ->
  lineage l (stop (span_of t)) ∉ start_ids (kids_of t) ->
  shaped (leaf_hole n (stop (span_of t)) l c t).
Proof.
  destruct t as [i sp tip kids]. cbn [span_of kids_of leaf_hole]. rewrite shaped_T.
  intros (Hok & Htip & Hnd & Hk) Hc Hseq Hag Hnew. pose proof Hok as [[H0 H1] H2].
  apply shaped_T. split; [exact Hok|]. split; [exact Htip|]. split.
  - unfold start_ids in *. rewrite map_app. apply NoDup_app. split; [exact Hnd|]. split; [|apply NoDup_singleton].
    intros id Hid Habs%list_elem_of_singleton. subst id. apply Hnew. exact Hid.
  - apply Forall_app. split; [exact Hk|]. apply Forall_singleton. split.
    + split; [reflexivity|]. cbn. symmetry. apply Hag.
    + apply shaped_T. split; [split; cbn; lia|]. split; [exact Hc|]. split; [apply NoDup_nil_2|constructor].
Qed.

Lemma bump_shaped c t : shaped t -> 0 <= tip_of t + c -> shaped (bump_hole c t).
Proof. destruct t as [i sp tip kids]. cbn [bump_hole tip_of]. rewrite !shaped_T. tauto. Qed.

(** They change the totals as they should. *)
Lemma split_total f n pos t : ext f -> shaped t -> total f (split_hole n pos t) = total f t.
Proof.
  intros Hf. destruct t as [i sp tip kids]. intros ([[H0 H1] H2] & _)%shaped_T. cbn [split_hole].
  rewrite !total_T, totals_cons, total_T. rewrite (Hf (mkSpan pos (stop sp) (ledger sp)) sp); [cbn; lia|reflexivity|].
  apply agree_refl. cbn. lia.
Qed.

Lemma leaf_total f n pos l c t : ext f -> 0 <= seq l ->
  total f (leaf_hole n pos l c t) = total f t + f (whole l) * c.
Proof.
  intros Hf Hseq. destruct t as [i sp tip kids]. cbn [leaf_hole]. rewrite !total_T, totals_app, totals_cons, total_T.
  rewrite (Hf (mkSpan pos (seq l + 1) l) (whole l)); [cbn; lia|reflexivity|]. apply agree_refl. cbn. lia.
Qed.

Lemma bump_total f l c t : ext f -> stop (span_of t) = seq l + 1 -> agree (ledger (span_of t)) l (seq l) ->
  total f (bump_hole c t) = total f t + f (whole l) * c.
Proof.
  intros Hf. destruct t as [i sp tip kids]. cbn [span_of bump_hole]. intros Hstop Hag. rewrite !total_T.
  rewrite (Hf sp (whole l)); [lia|exact Hstop|]. cbn. now replace (stop sp - 1) with (seq l) by lia.
Qed.

(** What [find] guarantees of the hole. *)
Record at_hole l ctx t : Prop := {
  ah_shaped : shaped (plug ctx t);
  ah_compact : compact (plug ctx t);
  ah_diff : start (span_of t) < diff (span_of t) l;
  ah_stuck : stuck l t;
  ah_root : ctx = [] -> stop (span_of t) = start (span_of t) + 1
}.

Lemma at_hole_facts l ctx t : at_hole l ctx t ->
  (shaped_ctx ctx (span_of t) /\ shaped t) /\ span_ok (span_of t) /\
  (start (span_of t) < diff (span_of t) l <= stop (span_of t) /\ diff (span_of t) l <= seq l + 1) /\
  agree (ledger (span_of t)) l (diff (span_of t) l - 1) /\
  (diff (span_of t) l < stop (span_of t) -> full t).
Proof.
  intros [Hs Hc Hd _ Hroot]. apply shaped_plug in Hs as [Hsc Hs]. apply compact_plug in Hc as (_ & _ & Hfull).
  assert (span_ok (span_of t)) as Hok by (destruct t; apply shaped_T in Hs; tauto).
  pose proof (diff_spec _ l Hok Hd) as (H1 & H2 & H3 & _).
  split; [auto|]. split; [exact Hok|]. split; [auto|]. split; [exact H3|]. intros Hlt. apply Hfull. intros ->.
  specialize (Hroot eq_refl). lia.
Qed.

Lemma hole_new_id l ctx t : at_hole l ctx t -> diff (span_of t) l = stop (span_of t) -> stop (span_of t) <= seq l ->
  lineage l (stop (span_of t)) ∉ start_ids (kids_of t).
Proof.
  intros Hh Heq Hseq. destruct (at_hole_facts _ _ _ Hh) as ((_ & Hs) & _ & _).
  destruct (ah_stuck _ _ _ Hh) as [Hlt|Hall]; [lia|]. destruct t as [i sp tip kids]. cbn [span_of kids_of] in *.
  apply shaped_T in Hs as (_ & _ & _ & Hk). rewrite Forall_forall in Hk, Hall.
  unfold start_ids. intros (k & Hid & Hin)%list_elem_of_In%in_map_iff. apply list_elem_of_In in Hin.
  destruct (Hk k Hin) as [[Hst _] Hsk]. specialize (Hall k Hin).
  assert (span_ok (span_of k)) as Hok by (destruct k; apply shaped_T in Hsk; tauto).
  apply (diff_stuck _ l Hok); [lia..|]. rewrite Hst. exact Hid.
Qed.

Lemma split_new_id n l ctx t : at_hole l ctx t -> diff (span_of t) l < stop (span_of t) ->
  diff (span_of t) l <= seq l ->
  lineage l (diff (span_of t) l) ∉ start_ids (kids_of (split_hole n (diff (span_of t) l) t)).
Proof.
  intros Hh Hlt Hseq. destruct (at_hole_facts _ _ _ Hh) as (_ & Hok & (Hd & _) & _).
  pose proof (diff_spec _ l Hok ltac:(lia)) as (_ & _ & _ & Hne). destruct t as [i sp tip kids].
  cbn [span_of split_hole kids_of start_ids map line_id] in *. intros Habs%list_elem_of_singleton.
  apply Hne; [lia..|]. symmetry. exact Habs.
Qed.

Lemma insert_hole_shaped n l c ctx t : at_hole l ctx t -> 0 <= c -> shaped (plug ctx (insert_hole n l c t)).
Proof.
  intros Hh Hc. destruct (at_hole_facts _ _ _ Hh) as ((Hsc & Hs) & Hok & (Hd & Hle) & Hag & _).
  assert (forall t', span_ok (span_of t') -> start (span_of t') = start (span_of t) ->
    ledger (span_of t') = ledger (span_of t) -> shaped t' -> shaped (plug ctx t')) as Hplug.
  { intros t' Hok' Hst Hl Hs'. apply shaped_plug. split; [|exact Hs']. apply (shaped_ctx_same ctx (span_of t)); auto.
    rewrite Hl. apply agree_refl. destruct Hok. lia. }
  pose proof (hole_new_id _ _ _ Hh) as Hnew. pose proof (split_new_id n _ _ _ Hh) as Hsplit.
  unfold insert_hole. set (pos := diff (span_of t) l) in *.
  destruct (Z.ltb_spec pos (stop (span_of t))) as [Hlt|Hge].
  - pose proof (split_shaped n pos t Hs ltac:(lia)) as Hss.
    assert (span_of (split_hole n pos t) = mkSpan (start (span_of t)) pos (ledger (span_of t))) as Hsp by now destruct t.
    assert (span_ok (mkSpan (start (span_of t)) pos (ledger (span_of t)))) as Hok' by (destruct Hok; split; cbn; lia).
    destruct (Z.ltb_spec pos (seq l + 1)).
    + apply Hplug; try (destruct t; assumption || reflexivity).
      pose proof (leaf_shaped (S n) l c (split_hole n pos t) Hss ltac:(lia)) as Hleaf. rewrite Hsp in Hleaf.
      cbn [stop ledger] in Hleaf. apply Hleaf; [lia|exact Hag|apply Hsplit; lia].
    + apply Hplug; try (destruct t; assumption || reflexivity). apply bump_shaped; [exact Hss|destruct t; cbn; lia].
  - assert (pos = stop (span_of t)) as Heq by lia. rewrite Heq in *. destruct (Z.ltb_spec (stop (span_of t)) (seq l + 1)).
    + apply Hplug; try (destruct t; assumption || reflexivity).
      apply leaf_shaped; [exact Hs|lia|lia|exact Hag|apply Hnew; [reflexivity|lia]].
    + apply Hplug; try (destruct t; assumption || reflexivity). apply bump_shaped; [exact Hs|].
      destruct t; apply shaped_T in Hs as (_ & ? & _). cbn. lia.
Qed.

Lemma insert_hole_compact n l c ctx t : at_hole l ctx t -> 0 < c -> compact (plug ctx (insert_hole n l c t)).
Proof.
  intros Hh Hc. destruct (at_hole_facts _ _ _ Hh) as ((_ & Hs) & _ & _ & _ & Hfull).
  pose proof (ah_compact _ _ _ Hh) as Hcomp. apply compact_plug in Hcomp as (Hcc & Hct & Hctx).
  assert (0 <= tip_of t) as Htip by (destruct t; apply shaped_T in Hs; tauto).
  apply compact_plug. split; [exact Hcc|]. unfold insert_hole.
  destruct (Z.ltb_spec (diff (span_of t) l) (stop (span_of t))) as [Hlt|Hge];
    [specialize (Hfull Hlt)|clear Hfull]; destruct t as [i sp tip kids]; cbn [span_of tip_of] in *;
    (destruct (Z.ltb_spec (diff sp l) (seq l + 1)));
    cbn [split_hole leaf_hole bump_hole]; rewrite compact_T, ?compact_T in *; unfold full in *; cbn [tip_of kids_of] in *.
  - rewrite Forall_app, !Forall_singleton, !compact_T. cbn. split; [|intros _; right; lia].
    split; [split; [exact Hfull|exact Hct]|]. split; [left; exact Hc|constructor].
  - rewrite Forall_singleton, compact_T. cbn. split; [split; [exact Hfull|exact Hct]|intros _; left; lia].
  - rewrite Forall_app, Forall_singleton, compact_T, length_app. cbn.
    split; [split; [exact Hct|split; [left; exact Hc|constructor]]|]. intros Hne. destruct (Hctx Hne); [left|right]; lia.
  - split; [exact Hct|]. intros _. left. lia.
Qed.

Lemma insert_hole_total f n l c ctx t : ext f -> at_hole l ctx t ->
  total f (plug ctx (insert_hole n l c t)) = total f (plug ctx t) + f (whole l) * c.
Proof.
  intros Hf Hh. apply total_plug. destruct (at_hole_facts _ _ _ Hh) as ((_ & Hs) & _ & (Hd & Hle) & Hag & _).
  pose proof (seq_nonneg l). unfold insert_hole.
  destruct (Z.ltb_spec (diff (span_of t) l) (stop (span_of t))) as [Hlt|Hge];
    (destruct (Z.ltb_spec (diff (span_of t) l) (seq l + 1))).
  - rewrite leaf_total, split_total by auto. reflexivity.
  - rewrite (bump_total f l c (split_hole n (diff (span_of t) l) t)), split_total; auto; destruct t; cbn in *; [lia|].
    now replace (seq l) with (diff sp l - 1) by lia.
  - now apply leaf_total.
  - apply bump_total; [exact Hf|lia|]. now replace (seq l) with (diff (span_of t) l - 1) by lia.
Qed.

(** ** The trie *)

Definition at_seq (s : Z) sp : Z := if stop sp - 1 =? s then 1 else 0.

(** The entries of [seq_support] are the tip supports added up by sequence. *)
Definition seqs_ok (ss : gmap Z Z) t : Prop := forall s,
  ss !! s = if total (at_seq s) t =? 0 then None else Some (total (at_seq s) t).

(** The ledgers above the genesis ledger that end below the floor. *)
Definition low sp : Z := if (0 <? stop sp - 1) && (stop sp - 1 <? floor) then 1 else 0.

Record trie_ok (tr : LedgerTrie L) t : Prop := {
  ok_models : models (nodes tr) t;
  ok_shaped : shaped t;
  ok_compact : compact t;
  ok_root : root_of t = ROOT;
  ok_genesis : span_of t = span_genesis;
  ok_seqs : seqs_ok (seq_support tr) t;
  ok_grounded : total low t = 0;
  ok_fits : branch t <= max_of U32
}.

Lemma ext_at_seq s : ext (at_seq s).
Proof. intros sp sp' Hstop _. unfold at_seq. now rewrite Hstop. Qed.

Lemma ext_low : ext low.
Proof. intros sp sp' Hstop _. unfold low. now rewrite Hstop. Qed.

(** No ledger is below the floor. *)
Lemma low_whole l : low (whole l) = 0.
Proof.
  unfold low. cbn [stop whole span_from_ledger]. rewrite Z.add_simpl_r.
  destruct (Z.ltb_spec 0 (seq l)) as [Hl|]; [|reflexivity]. pose proof (floor_le l Hl). destruct (Z.ltb_spec (seq l) floor); [lia|reflexivity].
Qed.

Lemma new_ok : trie_ok trie_new (T ROOT span_genesis 0 []).
Proof.
  pose proof seq_genesis. constructor; try reflexivity.
  - split; [split; [reflexivity|exact I]|]. split; [apply NoDup_singleton|]. intros k n Hk _. cbn in Hk.
    destruct k; [left|destruct k; discriminate].
  - apply shaped_T. unfold span_ok, span_genesis. cbn. rewrite seq_genesis. repeat split; [lia..|apply NoDup_nil_2|constructor].
  - intros s. cbn. now rewrite lookup_empty, Z.mul_0_r.
  - cbn. lia.
  - vm_compute. discriminate.
Qed.

Lemma find_spec tr t l : trie_ok tr t ->
  exists ctx h, find (nodes tr) l = Ok (E := E) (root_of h, diff (span_of h) l) /\ plug ctx h = t /\ at_hole l ctx h.
Proof.
  intros Hok. pose proof (ok_models _ _ Hok) as (Hr & Hnd & _). pose proof seq_genesis as Hg.
  unfold find, at_. rewrite <- (ok_root _ _ Hok), (repr_lookup _ _ _ Hr). cbn [bind span].
  assert (start (span_of t) < diff (span_of t) l) as Hd.
  { rewrite (ok_genesis _ _ Hok). unfold diff, clamp, span_genesis. cbn. rewrite Hg.
    assert (0 < mismatch genesis l); [|lia].
    apply mismatch_iff; [rewrite Hg; lia|apply seq_nonneg|symmetry; apply genesis_prefix]. }
  destruct (find_loop_spec (E := E) (nodes tr) l (S (length (nodes tr))) [] t) as (ctx & h & Hrun & Hplug & Hd' & Hst).
  - exact Hr.
  - apply ok_shaped with (1 := Hok).
  - pose proof (ctx_length _ [] _ Hr Hnd). cbn in *. lia.
  - exact Hd.
  - exists ctx, h. split; [exact Hrun|]. split; [exact Hplug|]. cbn [plug] in Hplug. constructor.
    + rewrite Hplug. apply Hok.
    + rewrite Hplug. apply Hok.
    + exact Hd'.
    + exact Hst.
    + intros ->. cbn in Hplug. subst h. rewrite (ok_genesis _ _ Hok). reflexivity.
Qed.

Lemma span_parts sp pos : start sp < pos <= stop sp ->
  span_before sp pos = Some (mkSpan (start sp) pos (ledger sp)) /\
  span_from sp pos = if pos <? stop sp then Some (mkSpan pos (stop sp) (ledger sp)) else None.
Proof.
  intros Hpos. unfold span_before, span_from, span_sub, clamp.
  replace (Z.min (Z.max (start sp) (start sp)) (stop sp)) with (start sp) by lia.
  replace (Z.min (Z.max pos (start sp)) (stop sp)) with pos by lia.
  replace (Z.min (Z.max (stop sp) (start sp)) (stop sp)) with (stop sp) by lia.
  split; [|reflexivity]. destruct (Z.ltb_spec (start sp) pos); [reflexivity|lia].
Qed.

(** The arena after the split and before the counts. *)
Lemma insert_split ns ctx t pos : models ns (plug ctx t) -> start (span_of t) < pos <= stop (span_of t) ->
  exists ns', match span_from (span_of t) pos with
      | Some s => split_node ns (root_of t) (span_before (span_of t) pos) s
      | None => Ok ns
      end = Ok (E := E) ns' /\
    models ns' (plug ctx (if pos <? stop (span_of t) then split_hole (length ns) pos t else t)) /\
    length ns' = if pos <? stop (span_of t) then S (length ns) else length ns.
Proof.
  intros Hm Hpos. destruct (span_parts _ _ Hpos) as [-> ->]. destruct (Z.ltb_spec pos (stop (span_of t))); [|eauto].
  destruct t as [i sp tip kids]. now apply (split_spec ns ctx i sp tip kids).
Qed.

Lemma split_hole_shaped n l ctx t : at_hole l ctx t ->
  let pos := diff (span_of t) l in
  shaped (plug ctx (if pos <? stop (span_of t) then split_hole n pos t else t)).
Proof.
  intros Hh pos. destruct (at_hole_facts _ _ _ Hh) as ((Hsc & Hs) & Hok & (Hd & _) & _).
  destruct (Z.ltb_spec pos (stop (span_of t))) as [Hlt|_]; [|apply Hh].
  apply shaped_plug. split; [|now apply split_shaped].
  apply (shaped_ctx_same ctx (span_of t)); auto; destruct t as [i sp tip kids]; cbn in *; destruct Hok;
    [split; cbn; lia|reflexivity|]. apply agree_refl. lia.
Qed.

Lemma total_mono (f g : Span L -> Z) t : (forall sp, f sp <= g sp) -> shaped t -> total f t <= total g t.
Proof.
  intros Hfg. induction t as [i sp tip kids IH] using tree_ind'. rewrite shaped_T. intros (_ & Htip & _ & Hk).
  rewrite !total_T. assert (totals f kids <= totals g kids); [|specialize (Hfg sp); nia].
  induction kids as [|k kids IHk]; [reflexivity|]. apply Forall_cons in IH as [IH1 IH2], Hk as [[_ Hk1] Hk2].
  rewrite !totals_cons. specialize (IHk IH2 Hk2). specialize (IH1 Hk1). lia.
Qed.

(** Splitting, adding the leaf and counting, in the arena. *)
Lemma insert_arena ns ctx t l c : models ns (plug ctx t) -> at_hole l ctx t -> 0 <= c ->
  branch (plug ctx t) + c <= max_of U32 ->
  let pos := diff (span_of t) l in
  exists ns1 ns2 inc n ns',
    match span_from (span_of t) pos with
    | Some s => split_node ns (root_of t) (span_before (span_of t) pos) s
    | None => Ok ns
    end = Ok (E := E) ns1 /\
    match span_from (whole l) pos with
    | Some s =>
        let '(ns, new_idx) := alloc ns1 (set_parent (Some (root_of t)) (node_from_span s)) in
        ns <- modify_at ns (root_of t) (fun n => set_children (children n ++ [new_idx]) n);; Ok (ns, new_idx)
    | None => Ok (ns1, root_of t)
    end = Ok (E := E) (ns2, inc) /\
    ns2 !! inc = Some n /\ plain U32 (tip_support_of n + c) = Ok (E := E) (tip_support_of n + c) /\
    walk_up (S (length ns2)) (<[inc := set_tip (tip_support_of n + c) n]> ns2) c (Some inc) = Ok (E := E) ns' /\
    models ns' (plug ctx (insert_hole (length ns) l c t)).
Proof.
  intros Hm Hh Hc Hfit pos. destruct (at_hole_facts _ _ _ Hh) as ((_ & Hs) & Hok & (Hd & Hle) & _).
  fold pos in Hd, Hle. destruct (insert_split ns ctx t pos Hm Hd) as (ns1 & Hsplit & Hm1 & Hlen1).
  pose proof (split_hole_shaped (length ns) l ctx t Hh) as Hs1. cbv zeta in Hs1. fold pos in Hs1.
  pose proof (insert_hole_shaped (length ns) l 0 ctx t Hh ltac:(lia)) as Hs0.
  pose proof (insert_hole_total (fun _ => 1) (length ns) l 0 ctx t ltac:(intros ? ? ? ?; reflexivity) Hh) as Hb0.
  unfold insert_hole in Hs0, Hb0 |- *. fold pos in Hs0, Hb0 |- *.
  assert (exists i sp tip kids, (if pos <? stop (span_of t) then split_hole (length ns) pos t else t) = T i sp tip kids
    /\ root_of t = i) as (i & sp & tip & kids & Ht1 & Hi).
  { destruct t as [i sp tip kids]. destruct (pos <? _); repeat eexists. }
  assert ((if pos <? stop (span_of t) then (split_hole (length ns) pos t, S (length ns)) else (t, length ns))
    = (T i sp tip kids, length ns1)) as Hpair by (rewrite Hlen1; destruct (pos <? _); now rewrite <- Ht1).
  rewrite Ht1 in *. rewrite Hpair in *. rewrite Hi in *.
  destruct (span_parts (whole l) pos) as [_ Hw]; [destruct Hok; cbn; lia|]. rewrite Hw. cbn [stop whole span_from_ledger].
  destruct (Z.ltb_spec pos (seq l + 1)) as [Hlt|Hge]; cbn [leaf_hole bump_hole] in *.
  - set (s := mkSpan pos (seq l + 1) l) in *.
    destruct (leaf_spec (E := E) ns1 ctx i sp tip kids s Hm1) as (ns2 & Hmod & Hm2 & Hlen2).
    destruct (bump_spec (E := E) ns2 (mkFrame i sp tip kids [] :: ctx) (length ns1) s 0 [] c) as (n & ns' & Hn & Htip & Hpl & Hrun & Hm' & _);
      [exact Hm2|exact Hs0|lia|unfold branch in *; cbn [plug]; unfold plug1; cbn [f_i f_sp f_tip f_left f_right]; lia|].
    exists ns1, ns2, (length ns1), n, ns'. rewrite Htip. split; [exact Hsplit|]. split; [|auto].
    unfold alloc. cbn [ledger whole span_from_ledger]. fold s. rewrite Hmod. reflexivity.
  - destruct (bump_spec (E := E) ns1 ctx i sp tip kids c) as (n & ns' & Hn & Htip & Hpl & Hrun & Hm' & _);
      [exact Hm1|exact Hs1| | |].
    + apply shaped_plug in Hs1 as [_ Hs1]. apply shaped_T in Hs1 as (_ & ? & _). lia.
    + rewrite (total_plug (fun _ => 1) ctx (T i sp tip kids) _ (1 * 0)) in Hb0; [unfold branch in *; lia|].
      rewrite !total_T. lia.
    + exists ns1, ns1, i, n, ns'. rewrite Htip. split; [exact Hsplit|]. auto.
Qed.

Lemma insert_hole_root n l c ctx t : at_hole l ctx t ->
  root_of (plug ctx (insert_hole n l c t)) = root_of (plug ctx t) /\
  span_of (plug ctx (insert_hole n l c t)) = span_of (plug ctx t).
Proof.
  intros Hh. destruct (at_hole_facts _ _ _ Hh) as (_ & _ & (Hd & _) & _).
  assert (forall t', root_of t' = root_of t -> (ctx = [] -> span_of t' = span_of t) ->
    root_of (plug ctx t') = root_of (plug ctx t) /\ span_of (plug ctx t') = span_of (plug ctx t)) as Hplug.
  { clear Hh Hd. generalize t. induction ctx as [|f ctx IH]; intros t0 t' Hr Hs; cbn [plug]; [auto|].
    apply IH; reflexivity. }
  apply Hplug; unfold insert_hole.
  - destruct t as [i sp tip kids]. destruct (_ <? _), (_ <? _); reflexivity.
  - intros Hnil. pose proof (ah_root _ _ _ Hh Hnil). destruct (Z.ltb_spec (diff (span_of t) l) (stop (span_of t))); [lia|].
    destruct t as [i sp tip kids]. destruct (_ <? _); reflexivity.
Qed.

Lemma seq_total_bound s t : shaped t -> 0 <= total (at_seq s) t <= branch t.
Proof.
  intros Hs. split.
  - apply shaped_nonneg; [|exact Hs]. intros sp. unfold at_seq. destruct (_ =? _); lia.
  - apply total_mono; [|exact Hs]. intros sp. unfold at_seq. destruct (_ =? _); lia.
Qed.

Lemma seqs_ok_default ss t s : seqs_ok ss t -> default 0 (ss !! s) = total (at_seq s) t.
Proof. intros Hs. rewrite Hs. destruct (Z.eqb_spec (total (at_seq s) t) 0); cbn; congruence. Qed.

(** Inserting a ledger succeeds, keeps the trie well formed and adds the count to
    the totals the ledger counts for. *)
Lemma insert_spec tr t l c : trie_ok tr t -> 0 < c -> branch t + c <= max_of U32 ->
  exists tr' t', insert l c tr = Ok (E := E) tr' /\ trie_ok tr' t' /\
    forall f, ext f -> total f t' = total f t + f (whole l) * c.
Proof.
  intros Hok Hc Hfit. destruct (find_spec tr t l Hok) as (ctx & h & Hfind & Hplug & Hh).
  pose proof (ok_models _ _ Hok) as Hm. rewrite <- Hplug in Hm, Hfit.
  destruct (insert_arena (nodes tr) ctx h l c Hm Hh ltac:(lia) Hfit)
    as (ns1 & ns2 & inc & n & ns' & Hsplit & Hleaf & Hn & Hpl & Hrun & Hm').
  set (t' := plug ctx (insert_hole (length (nodes tr)) l c h)) in *.
  assert (forall f, ext f -> total f t' = total f t + f (whole l) * c) as Htot
    by (intros f Hf; rewrite <- Hplug; now apply insert_hole_total).
  assert (shaped t') as Hs' by (apply insert_hole_shaped; [exact Hh|lia]).
  assert (branch t' = branch t + c) as Hb by (unfold branch; rewrite Htot; [lia|intros ? ? ? ?; reflexivity]).
  rewrite Hplug in Hfit. eexists. exists t'. split; [|split; [|exact Htot]].
  - unfold insert. rewrite Hfind. cbn [bind]. destruct Hm as (Hr & _). apply repr_plug in Hr as [_ Hr].
    unfold at_ at 1. rewrite (repr_lookup _ _ _ Hr). cbn [bind span]. rewrite Hsplit. cbn [bind].
    fold (whole l). rewrite Hleaf. cbn [bind]. unfold at_. rewrite Hn. cbn [bind]. rewrite Hpl. cbn [bind].
    rewrite Hrun. cbn [bind]. rewrite (seqs_ok_default _ _ _ (ok_seqs _ _ Hok)).
    pose proof (seq_total_bound (seq l) t (ok_shaped _ _ Hok)). rewrite plain_ok by (cbn [min_of]; lia). reflexivity.
  - destruct (insert_hole_root (length (nodes tr)) l c ctx h Hh) as [Hroot Hspan]. fold t' in Hroot, Hspan.
    rewrite Hplug in Hroot, Hspan. constructor; cbn [nodes seq_support].
    + exact Hm'.
    + exact Hs'.
    + now apply insert_hole_compact.
    + rewrite Hroot. apply Hok.
    + rewrite Hspan. apply Hok.
    + intros s. rewrite (Htot _ (ext_at_seq s)). assert (at_seq s (whole l) = if seq l =? s then 1 else 0) as ->
        by (unfold at_seq; cbn [stop whole span_from_ledger]; now rewrite Z.add_simpl_r).
      pose proof (seq_total_bound s t (ok_shaped _ _ Hok)).
      destruct (Z.eqb_spec (seq l) s) as [<-|Hne].
      * rewrite lookup_insert_eq. destruct (Z.eqb_spec (total (at_seq (seq l)) t + 1 * c) 0); [lia|]. f_equal. lia.
      * rewrite lookup_insert_ne by exact Hne. rewrite (ok_seqs _ _ Hok s). now rewrite Z.add_0_r.
    + rewrite (Htot _ ext_low), low_whole, (ok_grounded _ _ Hok). reflexivity.
    + lia.
Qed.
End Insert.
