(* ===== verification/TrieQuery.v ===== *)
(** * TrieQuery: what the queries of the ledger trie return

    Identifiers are unique in a well-formed trie, so that [tip_support] and
    [branch_support] are the totals of the support of a ledger and of its
    descendants. *)

From stdpp Require Import gmap sorting.
From Stdlib Require Import ZArith Lia.
From S2P Require Import Prelude LedgerTrie TrieTree TrieOps TrieInsert.
Local Open Scope Z_scope.

Section Query.
Context `{TrieLedger L, !TrieLedgerLaws L} {E : Type}.
Implicit Types (ns : list (Node L)) (l : L) (t h : tree L) (ctx : list (frame L)) (sp x : Span L).

(** ** The spans of a tree *)

Fixpoint spans t : list (Span L) := match t with T _ sp _ kids => sp :: flat_map spans kids end.
Definition all_spans (ts : list (tree L)) : list (Span L) := flat_map spans ts.

Fixpoint ctx_spans ctx : list (Span L) :=
  match ctx with
  | [] => []
  | f :: ctx => f_sp f :: all_spans (f_left f) ++ all_spans (f_right f) ++ ctx_spans ctx
  end.

Lemma elem_of_all_spans x (ts : list (tree L)) : x ∈ all_spans ts <-> exists t, t ∈ ts /\ x ∈ spans t.
Proof.
  unfold all_spans. rewrite list_elem_of_In, in_flat_map.
  split; intros (t & Ht & Hx); exists t; now rewrite ?list_elem_of_In in *.
Qed.

Lemma total_zero f t : (forall x, x ∈ spans t -> f x = 0) -> total f t = 0.
Proof.
  induction t as [i sp tip kids IH] using tree_ind'. intros Hf. rewrite total_T, (Hf sp) by left.
  assert (totals f kids = 0); [|lia].
  assert (forall x, x ∈ all_spans kids -> f x = 0) as Hk by (intros x Hx; apply Hf; now right). clear Hf.
  induction kids as [|k kids IHk]; [reflexivity|]. apply Forall_cons in IH as [IH1 IH2]. rewrite totals_cons.
  cbn in Hk. setoid_rewrite elem_of_app in Hk. rewrite IH1, IHk; auto.
Qed.

Lemma totals_zero f (ts : list (tree L)) : (forall x, x ∈ all_spans ts -> f x = 0) -> totals f ts = 0.
Proof.
  induction ts as [|t ts IH]; intros Hf; [reflexivity|]. cbn in Hf. setoid_rewrite elem_of_app in Hf.
  rewrite totals_cons, total_zero, IH; auto.
Qed.

Lemma total_plug_only f ctx h : (forall x, x ∈ ctx_spans ctx -> f x = 0) -> total f (plug ctx h) = total f h.
Proof.
  revert h. induction ctx as [|fr ctx IH]; intros h Hf; cbn [plug]; [reflexivity|].
  cbn [ctx_spans] in Hf. setoid_rewrite elem_of_cons in Hf. setoid_rewrite elem_of_app in Hf.
  setoid_rewrite elem_of_app in Hf. rewrite IH by auto. unfold plug1.
  rewrite total_T, totals_app, totals_cons, Hf, (totals_zero f (f_left fr)), (totals_zero f (f_right fr)) by auto. lia.
Qed.

(** All the spans of a tree go on from its root. *)
Lemma spans_below t : shaped t -> forall x, x ∈ spans t ->
  span_ok x /\ stop (span_of t) <= stop x /\ agree (ledger (span_of t)) (ledger x) (stop (span_of t) - 1).
Proof.
  induction t as [i sp tip kids IH] using tree_ind'. intros (Hok & _ & _ & Hk)%shaped_T x. cbn [spans span_of].
  pose proof Hok as [[H0 H1] H2].
  intros [->|(k & Hin & Hx)%elem_of_all_spans]%elem_of_cons; [split; [exact Hok|]; split; [lia|apply agree_refl; lia]|].
  rewrite Forall_forall in IH, Hk. destruct (Hk k Hin) as [Hc Hsk].
  destruct (IH k Hin Hsk x Hx) as (Hx1 & Hx2 & Hx3).
  assert (span_ok (span_of k)) as Hokk by (destruct k; apply shaped_T in Hsk; tauto).
  pose proof (continues_agree _ _ Hok Hokk Hc) as Hag. destruct Hc as [Hst _], Hokk as [Hokk _].
  split; [exact Hx1|]. split; [lia|]. eapply agree_trans; [exact Hag|]. eapply agree_down; [exact Hx3|lia].
Qed.

(** The other spans of the tree end before the hole starts, or differ from it. *)
Lemma ctx_away ctx : forall sp, shaped_ctx ctx sp -> span_ok sp -> forall x, x ∈ ctx_spans ctx ->
  span_ok x /\ (stop x <= start sp \/
    exists s, 0 <= s <= start sp /\ s < stop x /\ lineage (ledger x) s <> lineage (ledger sp) s).
Proof.
  induction ctx as [|f ctx IH]; intros sp Hs Hok x; [intros Hx; inversion Hx|]. cbn [shaped_ctx ctx_spans] in *.
  destruct Hs as (Hf & _ & Hc & Hnd & Hl & Hr & Hctx). pose proof (continues_agree _ _ Hf Hok Hc) as Hag.
  destruct Hc as [Hst _]. pose proof Hf as [[Hf0 Hf1] Hf2].
  assert (forall ts, Forall (fun k => continues (f_sp f) (span_of k) /\ shaped k) ts ->
    line_id sp ∉ start_ids ts -> x ∈ all_spans ts -> span_ok x /\ (stop x <= start sp \/
    exists s, 0 <= s <= start sp /\ s < stop x /\ lineage (ledger x) s <> lineage (ledger sp) s)) as Hsib.
  { intros ts Hts Hid (k & Hin & Hx)%elem_of_all_spans. rewrite Forall_forall in Hts. destruct (Hts k Hin) as [[Hck _] Hsk].
    destruct (spans_below k Hsk x Hx) as (Hx1 & Hx2 & Hx3).
    assert (span_ok (span_of k)) as Hokk by (destruct k; apply shaped_T in Hsk; tauto). destruct Hokk as [Hokk Hokk'].
    split; [exact Hx1|]. right. exists (start sp). split; [destruct Hok; lia|]. split; [lia|]. intros Heq. apply Hid.
    apply list_elem_of_In, in_map_iff. exists k. split; [|now apply list_elem_of_In]. unfold line_id.
    destruct (agree_down _ _ _ (start (span_of k)) Hx3) as (_ & _ & ->); [lia|]. rewrite Hck, <- Hst. exact Heq. }
  apply NoDup_app in Hnd as (_ & Hdisj & Hnd). apply NoDup_cons in Hnd as [Hnr _].
  rewrite elem_of_cons, !elem_of_app. intros [->|[Hx|[Hx|Hx]]].
  - split; [exact Hf|]. left. lia.
  - apply (Hsib _ Hl); [|exact Hx]. intros Hin. apply (Hdisj _ Hin). left.
  - apply (Hsib _ Hr); [exact Hnr|exact Hx].
  - destruct (IH _ Hctx Hf x Hx) as [Hx1 [Hx2|(s & Hs & Hx2 & Hx3)]]; (split; [exact Hx1|]); [left; lia|].
    right. exists s. split; [lia|]. split; [lia|]. destruct (agree_down _ _ _ s Hag) as (_ & _ & <-); [lia|exact Hx3].
Qed.

(** ** Weights *)

(** The support of a ledger, and of a ledger and its descendants. *)
Definition at_id (id : Z) sp : Z := if line_tip sp =? id then 1 else 0.
Definition covers l sp : Z :=
  if (seq l <? stop sp) && (lineage (ledger sp) (seq l) =? lineage l (seq l)) then 1 else 0.

Lemma ext_at_id id : ext (at_id id).
Proof. intros sp sp' Hstop (_ & _ & Hag). unfold at_id, line_tip. rewrite <- Hstop. now rewrite Hag. Qed.

Lemma ext_covers l : ext (covers l).
Proof.
  intros sp sp' Hstop Hag. unfold covers. rewrite <- Hstop. pose proof (seq_nonneg l).
  destruct (Z.ltb_spec (seq l) (stop sp)); [|reflexivity].
  destruct (agree_down _ _ _ (seq l) Hag) as (_ & _ & ->); [lia|reflexivity].
Qed.

Lemma covers_agree l sp : span_ok sp -> covers l sp <> 0 -> seq l < stop sp /\ agree (ledger sp) l (seq l).
Proof.
  intros [[H0 H1] H2]. unfold covers. pose proof (seq_nonneg l).
  destruct (Z.ltb_spec (seq l) (stop sp)); [|intros Hc; now destruct Hc].
  cbn [andb]. destruct (Z.eqb_spec (lineage (ledger sp) (seq l)) (lineage l (seq l))); [|intros Hc; now destruct Hc].
  intros _. split; [assumption|]. split; [lia|]. split; [lia|assumption].
Qed.

Lemma covers_in l sp : span_ok sp -> seq l < stop sp -> agree (ledger sp) l (seq l) -> covers l sp = 1.
Proof.
  intros Hok Hs (_ & _ & Hag). unfold covers. destruct (Z.ltb_spec (seq l) (stop sp)); [|lia]. rewrite Hag.
  now rewrite Z.eqb_refl.
Qed.

(** An identifier at the tip of a span determines where the span ends. *)
Lemma same_tip x sp : span_ok x -> span_ok sp -> line_tip x = line_tip sp ->
  stop x = stop sp /\ agree (ledger x) (ledger sp) (stop sp - 1).
Proof.
  intros [[H0 H1] H2] [[H0' H1'] H2'] Heq. unfold line_tip in Heq.
  assert (stop x - 1 = stop sp - 1) as Hs by (apply (lineage_inj (ledger x) (ledger sp)); [lia..|exact Heq]).
  assert (stop x = stop sp) as Hst by lia.
  split; [exact Hst|]. rewrite Hst in *. split; [lia|]. split; [lia|exact Heq].
Qed.

Lemma total_tip ctx h : shaped (plug ctx h) ->
  total (at_id (line_tip (span_of h))) (plug ctx h) = tip_of h.
Proof.
  intros [Hc Hs]%shaped_plug. destruct h as [i sp tip kids]. cbn [span_of tip_of] in *.
  pose proof (spans_below _ Hs) as Hbelow. pose proof Hs as (Hok & _ & _ & Hk)%shaped_T. cbn [span_of spans] in Hbelow.
  set (f := at_id _).
  assert (forall x, span_ok x -> (stop x = stop sp -> agree (ledger x) (ledger sp) (stop sp - 1) -> False) -> f x = 0) as Hf.
  { intros x Hx Hno. unfold f, at_id. destruct (Z.eqb_spec (line_tip x) (line_tip sp)) as [Heq|]; [|reflexivity].
    destruct (same_tip x sp Hx Hok Heq). tauto. }
  rewrite total_plug_only.
  - rewrite total_T, (totals_zero f kids); [unfold f, at_id; rewrite Z.eqb_refl; lia|].
    intros x (k & Hin & Hx)%elem_of_all_spans. rewrite Forall_forall in Hk. destruct (Hk k Hin) as [[Hst _] Hsk].
    destruct (spans_below k Hsk x Hx) as (Hx1 & Hx2 & _). apply Hf; [exact Hx1|].
    assert (span_ok (span_of k)) as [Hokk _] by (destruct k; apply shaped_T in Hsk; tauto). lia.
  - intros x Hx. destruct (ctx_away _ _ Hc Hok x Hx) as [Hx1 [Hx2|(s & Hs1 & Hs2 & Hs3)]]; apply Hf; auto.
    + intros Heq _. destruct Hok. lia.
    + intros Heq Hag. apply Hs3. destruct Hok. apply (agree_down _ _ _ s Hag). lia.
Qed.

(** The spans whose ledger has the ancestor [id] at [s]. *)
Definition passes (s id : Z) sp : Z :=
  if (s <? stop sp) && (lineage (ledger sp) s =? id) then 1 else 0.

Lemma passes_iff s id sp : passes s id sp <> 0 <-> s < stop sp /\ lineage (ledger sp) s = id.
Proof.
  unfold passes. destruct (Z.ltb_spec s (stop sp)), (Z.eqb_spec (lineage (ledger sp) s) id); cbn; lia || tauto.
Qed.

Lemma ext_passes s id : 0 <= s -> ext (passes s id).
Proof.
  intros Hs sp sp' Hstop Hag. unfold passes. rewrite <- Hstop.
  destruct (Z.ltb_spec s (stop sp)); [|reflexivity].
  destruct (agree_down _ _ _ s Hag) as (_ & _ & ->); [lia|reflexivity].
Qed.

Lemma plug_spans ctx x : forall h, x ∈ spans (plug ctx h) <-> x ∈ spans h \/ x ∈ ctx_spans ctx.
Proof.
  induction ctx as [|f ctx IH]; intros h; cbn [plug ctx_spans]; [split; [auto|intros [?|Hx]; [assumption|inversion Hx]]|].
  rewrite IH. unfold plug1. cbn [spans]. fold (all_spans (f_left f ++ h :: f_right f)). unfold all_spans. rewrite flat_map_app.
  cbn [flat_map]. rewrite !elem_of_cons, !elem_of_app. tauto.
Qed.

(** No span outside of a node passes through it. *)
Lemma passes_ctx ctx h s x : shaped (plug ctx h) -> start (span_of h) <= s < stop (span_of h) ->
  x ∈ ctx_spans ctx -> passes s (lineage (ledger (span_of h)) s) x = 0.
Proof.
  intros [Hc Hs]%shaped_plug Hseq Hx.
  assert (span_ok (span_of h)) as Hok by (destruct h; apply shaped_T in Hs; tauto).
  destruct (Z.eq_dec (passes s (lineage (ledger (span_of h)) s) x) 0) as [|Hne]; [assumption|]. exfalso.
  apply passes_iff in Hne as [Hlt Hanc]. destruct (ctx_away _ _ Hc Hok x Hx) as [Hx1 [Hx2|(s' & Hs1 & Hs2 & Hs3)]]; [lia|].
  apply Hs3. assert (agree (ledger x) (ledger (span_of h)) s) as Hag.
  { destruct Hok as [Hok1 Hok2], Hx1 as [Hx1 Hx2]. split; [lia|]. split; [lia|exact Hanc]. }
  apply (agree_down _ _ _ s' Hag). lia.
Qed.

(** The branch support of a node is the support of every ledger it stands for,
    with its descendants. *)
Lemma total_passes ctx h s : shaped (plug ctx h) -> start (span_of h) <= s < stop (span_of h) ->
  total (passes s (lineage (ledger (span_of h)) s)) (plug ctx h) = branch h.
Proof.
  intros Hsh Hseq. pose proof Hsh as [Hc Hs]%shaped_plug.
  assert (span_ok (span_of h)) as Hok by (destruct h; apply shaped_T in Hs; tauto). destruct Hok as [Hok1 Hok2].
  rewrite total_plug_only.
  - assert (forall x, x ∈ spans h -> passes s (lineage (ledger (span_of h)) s) x = 1) as Hall.
    { intros x Hx. destruct (spans_below _ Hs x Hx) as (Hx1 & Hx2 & Hx3). apply (agree_down _ _ _ s) in Hx3; [|lia].
      destruct Hx3 as (_ & _ & ->). unfold passes. rewrite Z.eqb_refl. destruct (Z.ltb_spec s (stop x)); [reflexivity|lia]. }
    clear - Hall. revert Hall. generalize (passes s (lineage (ledger (span_of h)) s)) as g. intros g.
    induction h as [i sp tip kids IH] using tree_ind'. intros Hall. rewrite branch_T, total_T, (Hall sp) by left.
    assert (totals g kids = branches kids); [|lia].
    assert (forall x, x ∈ all_spans kids -> g x = 1) as Hk by (intros x Hx; apply Hall; now right). clear Hall.
    induction kids as [|k kids IHk]; [reflexivity|]. apply Forall_cons in IH as [IH1 IH2].
    cbn in Hk. setoid_rewrite elem_of_app in Hk. rewrite totals_cons, branches_cons, IH1, IHk; auto.
  - intros x Hx. now apply (passes_ctx ctx).
Qed.

Lemma total_branch ctx h l : shaped (plug ctx h) -> start (span_of h) <= seq l < stop (span_of h) ->
  agree (ledger (span_of h)) l (seq l) -> total (covers l) (plug ctx h) = branch h.
Proof. intros Hs Hseq (_ & _ & Hag). rewrite <- (total_passes ctx h (seq l) Hs Hseq), Hag. reflexivity. Qed.

(** A ledger that leaves the trie at the hole has no support. *)
Lemma total_outside ctx h l : at_hole l ctx h -> diff (span_of h) l <= seq l -> total (covers l) (plug ctx h) = 0.
Proof.
  intros Hh Hle. destruct (at_hole_facts _ _ _ Hh) as ((Hc & Hs) & Hok & (Hd & _) & Hag & _).
  pose proof (diff_spec _ l Hok (proj1 Hd)) as (_ & _ & _ & Hne).
  set (pos := diff (span_of h) l) in *. pose proof Hok as [[Hok0 Hok1] Hok2].
  assert (forall x, span_ok x -> (seq l < stop x -> agree (ledger x) l (seq l) -> False) -> covers l x = 0) as Hz.
  { intros x Hx Hno. destruct (Z.eq_dec (covers l x) 0); [assumption|]. destruct (covers_agree l x Hx); tauto. }
  rewrite total_plug_only.
  - apply total_zero. intros x Hx. destruct (spans_below _ Hs x Hx) as (Hx1 & Hx2 & Hx3). apply Hz; [exact Hx1|].
    intros Hlt Hxl. destruct (Z.lt_ge_cases pos (stop (span_of h))) as [Hps|Hps].
    + apply (Hne Hps Hle). apply (agree_down _ _ (stop (span_of h) - 1)) with (s' := pos) in Hx3; [|lia].
      apply (agree_down _ _ (seq l)) with (s' := pos) in Hxl; [|lia]. apply (agree_trans _ _ _ _ Hx3 Hxl).
    + destruct (ah_stuck _ _ _ Hh) as [Hst|Hst]; [fold pos in Hst; lia|]. destruct h as [i sp tip kids].
      cbn [span_of kids_of spans] in *. apply elem_of_cons in Hx as [->|(k & Hin & Hx)%elem_of_all_spans]; [lia|].
      apply shaped_T in Hs as (_ & _ & _ & Hk). rewrite Forall_forall in Hk, Hst.
      destruct (Hk k Hin) as [[Hks _] Hsk]. specialize (Hst k Hin).
      assert (span_ok (span_of k)) as Hokk by (destruct k; apply shaped_T in Hsk; tauto).
      destruct (spans_below k Hsk x Hx) as (_ & _ & Hx4). apply (diff_stuck _ l Hokk); [lia..|]. destruct Hokk as [Hokk _].
      unfold line_id. apply (agree_down _ _ _ (start (span_of k))) in Hx4; [|lia].
      apply (agree_down _ _ _ (start (span_of k))) in Hxl; [|lia]. apply (agree_trans _ _ _ _ Hx4 Hxl).
  - intros x Hx. destruct (ctx_away _ _ Hc Hok x Hx) as [Hx1 Hx2]. apply Hz; [exact Hx1|]. intros Hlt Hxl.
    destruct Hx2 as [Hx2|(s & Hs1 & Hs2 & Hs3)]; [lia|]. apply Hs3.
    apply (agree_down _ _ _ s) in Hxl; [|lia]. apply (agree_down _ _ _ s) in Hag; [|lia].
    apply (agree_trans _ _ _ _ Hxl (agree_sym _ _ _ Hag)).
Qed.

(** ** Looking nodes up *)

Lemma plug_app ctx ctx' t : plug (ctx ++ ctx') t = plug ctx' (plug ctx t).
Proof. revert t. induction ctx as [|f ctx IH]; intros t; [reflexivity|]. apply IH. Qed.

(** Every index of a tree is the root of a subtree. *)
Lemma locate t k : k ∈ indices t -> exists ctx h, plug ctx h = t /\ root_of h = k.
Proof.
  induction t as [i sp tip kids IH] using tree_ind'. rewrite indices_T.
  intros [->|(t & Hin & Hk)%elem_of_all_indices]%elem_of_cons; [exists [], (T i sp tip kids); auto|].
  rewrite Forall_forall in IH. destruct (IH t Hin Hk) as (ctx & h & Hplug & Hroot).
  apply list_elem_of_split in Hin as (left & right & ->).
  exists (ctx ++ [mkFrame i sp tip left right]), h. rewrite plug_app, Hplug. auto.
Qed.

Lemma locate_span t x : x ∈ spans t -> exists ctx h, plug ctx h = t /\ span_of h = x.
Proof.
  induction t as [i sp tip kids IH] using tree_ind'. cbn [spans].
  intros [->|(t & Hin & Hk)%elem_of_all_spans]%elem_of_cons; [exists [], (T i sp tip kids); auto|].
  rewrite Forall_forall in IH. destruct (IH t Hin Hk) as (ctx & h & Hplug & Hroot).
  apply list_elem_of_split in Hin as (left & right & ->).
  exists (ctx ++ [mkFrame i sp tip left right]), h. rewrite plug_app, Hplug. auto.
Qed.

Lemma find_by_id_from_spec ns id : forall i,
  match find_by_ledger_id_from i ns id with
  | Some k => exists n, ns !! (k - i)%nat = Some n /\ (i <= k)%nat /\ live n = true /\ tip_id (span_tip (span n)) = id
  | None => forall k n, ns !! k = Some n -> live n = true -> tip_id (span_tip (span n)) <> id
  end.
Proof.
  induction ns as [|n ns IH]; intros i; cbn [find_by_ledger_id_from]; [intros k n Hk; discriminate|].
  destruct (live n) eqn:Hl, (Z.eqb_spec (tip_id (span_tip (span n))) id) as [Hid|Hid]; cbn [andb].
  { exists n. rewrite Nat.sub_diag. auto. }
  all: specialize (IH (S i)); destruct (find_by_ledger_id_from (S i) ns id) as [k|].
  all: try (destruct IH as (n' & Hn' & Hle & Hl' & Hid'); exists n'; split; [|auto with lia];
    replace (k - i)%nat with (S (k - S i)) by lia; exact Hn').
  all: intros [|k] n' Hk Hl'; [injection Hk as <-; congruence|eapply IH; eauto].
Qed.

Lemma find_by_id_spec ns t id : models ns t ->
  match find_by_ledger_id ns id with
  | Some k => exists ctx h, plug ctx h = t /\ root_of h = k /\ tip_id (span_tip (span_of h)) = id
  | None => forall x, x ∈ spans t -> tip_id (span_tip x) <> id
  end.
Proof.
  intros (Hr & _ & Hc). unfold find_by_ledger_id. pose proof (find_by_id_from_spec ns id 0) as Hf.
  destruct (find_by_ledger_id_from 0 ns id) as [k|].
  - destruct Hf as (n & Hn & _ & Hl & Hid). rewrite Nat.sub_0_r in Hn. destruct (locate t k (Hc k n Hn Hl)) as (ctx & h & <- & <-).
    exists ctx, h. split; [reflexivity|]. split; [reflexivity|].
    apply repr_plug in Hr as [_ Hr]. rewrite (repr_lookup _ _ _ Hr) in Hn. injection Hn as <-. exact Hid.
  - intros x Hx. destruct (locate_span t x Hx) as (ctx & h & <- & <-). apply repr_plug in Hr as [_ Hr].
    apply (Hf (root_of h) _ (repr_lookup _ _ _ Hr)). reflexivity.
Qed.

(** ** What the code knows of the tips *)

Lemma hole_tip_total g ctx i sp tip tip' kids :
  total g (plug ctx (T i sp tip' kids)) = total g (plug ctx (T i sp tip kids)) + g sp * (tip' - tip).
Proof. apply total_plug. rewrite !total_T. lia. Qed.

Lemma hole_tip_shaped ctx i sp tip tip' kids : shaped (plug ctx (T i sp tip kids)) -> 0 <= tip' ->
  shaped (plug ctx (T i sp tip' kids)).
Proof. intros [Hc Hs]%shaped_plug Htip. apply shaped_plug. split; [exact Hc|]. apply shaped_T in Hs. apply shaped_T. tauto. Qed.

(** The tip support of a node is part of every total it counts for. *)
Lemma tip_le_total g ctx i sp tip kids : (forall x, 0 <= g x) -> shaped (plug ctx (T i sp tip kids)) ->
  g sp * tip <= total g (plug ctx (T i sp tip kids)).
Proof.
  intros Hg Hs. pose proof (hole_tip_shaped ctx i sp tip 0 kids Hs ltac:(lia)) as Hs0.
  pose proof (shaped_nonneg g _ Hg Hs0) as Hb. rewrite (hole_tip_total g ctx i sp tip) in Hb. lia.
Qed.

Lemma low_nonneg x : 0 <= low x.
Proof. unfold low. destruct (_ && _); lia. Qed.

(** Ledgers that differ do so above the floor. *)
Lemma differ_above (a b : L) s : 0 < s <= seq a -> s <= seq b -> lineage a s <> lineage b s -> floor < s.
Proof.
  intros Ha Hb Hne. assert (floor < mismatch a b) by (apply common_floor; lia).
  destruct (Z.lt_ge_cases s (mismatch a b)) as [Hlt|]; [|lia]. destruct Hne. apply mismatch_iff; lia.
Qed.

(** So do the children of a node, when there are several. *)
Lemma kids_above i sp tip kids : shaped (T i sp tip kids) -> (2 <= length kids)%nat -> floor < stop sp.
Proof.
  intros (Hok & _ & Hnd & Hk)%shaped_T Hlen. destruct kids as [|k1 [|k2 kids]]; cbn in Hlen; [lia..|].
  apply Forall_cons in Hk as [[[H1 _] Hs1] [[[H2 _] Hs2] _]%Forall_cons].
  assert (span_ok (span_of k1) /\ span_ok (span_of k2)) as [[Hk1 Hk1'] [Hk2 Hk2']]
    by (destruct k1, k2; apply shaped_T in Hs1, Hs2; tauto).
  cbn [start_ids map] in Hnd. apply NoDup_cons in Hnd as [Hne _]. apply not_elem_of_cons in Hne as [Hne _].
  unfold line_id in Hne. rewrite H1, H2 in Hne. destruct Hok. apply (differ_above (ledger (span_of k1)) (ledger (span_of k2))); [lia..|exact Hne].
Qed.

(** The tip of every node of the trie is an ancestor its ledger knows. *)
Lemma tips_known tr t x : trie_ok tr t -> x ∈ spans t ->
  tip_id (span_tip x) = line_tip x /\ (stop x - 1 = 0 \/ floor <= stop x - 1).
Proof.
  intros Hok Hx. destruct (locate_span t x Hx) as (ctx & h & Hplug & <-). pose proof (ok_shaped _ _ Hok) as Hs.
  pose proof (ok_compact _ _ Hok) as Hc. pose proof (ok_grounded _ _ Hok) as Hlow. rewrite <- Hplug in Hs, Hc, Hlow.
  unfold line_tip. cbn [span_tip tip_id]. destruct ctx as [|f ctx].
  - cbn in Hplug. subst h. rewrite (ok_genesis _ _ Hok). cbn. rewrite Z.add_simpl_r. pose proof seq_genesis. rewrite ancestor_self. split; [reflexivity|lia].
  - apply compact_plug in Hc as (_ & _ & Hfull). specialize (Hfull ltac:(discriminate)).
    pose proof Hs as [Hsc Hsh]%shaped_plug. destruct h as [i sp tip kids]. cbn [span_of] in *. pose proof Hsh as ([Hok1 Hok2] & Htip & _)%shaped_T.
    destruct Hsc as ([Hf1 Hf2] & _ & [Hst _] & _).
    assert (floor <= stop sp - 1) as Hfl; [|split; [apply ancestor_known; lia|auto]].
    destruct Hfull as [Hpos|Hlen]; cbn [tip_of kids_of] in *; [|pose proof (kids_above i sp tip kids Hsh Hlen); lia].
    pose proof (tip_le_total low _ _ _ _ _ low_nonneg Hs) as Hle. rewrite Hlow in Hle. pose proof (low_nonneg sp) as Hnn.
    assert (low sp = 0) as Hz by nia. unfold low in Hz.
    destruct (Z.ltb_spec 0 (stop sp - 1)), (Z.ltb_spec (stop sp - 1) floor); cbn in Hz; lia.
Qed.

Lemma hole_at ns ctx h : models ns (plug ctx h) ->
  at_ ns (root_of h) = Ok (E := E) (mkNode (span_of h) (tip_of h) (branch h) (map root_of (kids_of h)) (par_of ctx) true).
Proof. intros (Hr & _). apply repr_plug in Hr as [_ Hr]. unfold at_. now rewrite (repr_lookup _ _ _ Hr). Qed.

Lemma find_tip_spec tr t id : trie_ok tr t ->
  match find_by_ledger_id (nodes tr) id with
  | Some k => exists ctx h, plug ctx h = t /\ root_of h = k /\ line_tip (span_of h) = id
  | None => forall x, x ∈ spans t -> line_tip x <> id
  end.
Proof.
  intros Hok. pose proof (find_by_id_spec _ _ id (ok_models _ _ Hok)) as Hf. destruct (find_by_ledger_id (nodes tr) id) as [k|].
  - destruct Hf as (ctx & h & Hplug & Hk & Hid). exists ctx, h. split; [exact Hplug|]. split; [exact Hk|].
    rewrite <- Hid. symmetry. apply (tips_known tr t); [exact Hok|]. rewrite <- Hplug. apply plug_spans. left. destruct h. left.
  - intros x Hx. rewrite <- (proj1 (tips_known tr t x Hok Hx)). auto.
Qed.

Lemma tip_support_spec tr t id : trie_ok tr t -> tip_support id tr = Ok (E := E) (total (at_id id) t).
Proof.
  intros Hok. pose proof (ok_models _ _ Hok) as Hm. unfold tip_support.
  pose proof (find_tip_spec _ _ id Hok) as Hf. destruct (find_by_ledger_id (nodes tr) id) as [k|].
  - destruct Hf as (ctx & h & <- & <- & <-). rewrite (hole_at _ ctx h Hm). cbn [bind tip_support_of].
    now rewrite total_tip by apply Hok.
  - rewrite total_zero; [reflexivity|]. intros x Hx. unfold at_id. specialize (Hf x Hx).
    destruct (Z.eqb_spec (line_tip x) id); [contradiction|reflexivity].
Qed.

Lemma branch_support_spec tr t l : trie_ok tr t -> branch_support l tr = Ok (E := E) (total (covers l) t).
Proof.
  intros Hok. pose proof (ok_models _ _ Hok) as Hm. pose proof (seq_nonneg l) as H0. unfold branch_support.
  rewrite ancestor_self. pose proof (find_tip_spec _ _ (lineage l (seq l)) Hok) as Hf.
  destruct (find_by_ledger_id (nodes tr) (lineage l (seq l))) as [k|].
  - destruct Hf as (ctx & h & <- & <- & Hid). rewrite (hole_at _ ctx h Hm). cbn [bind branch_support_of].
    pose proof (ok_shaped _ _ Hok) as Hs. pose proof Hs as [_ Hsh]%shaped_plug.
    assert (span_ok (span_of h)) as Hsp by (destruct h; apply shaped_T in Hsh; tauto).
    assert (span_ok (whole l)) as Hw by (unfold span_ok, whole; cbn; lia).
    destruct (same_tip (span_of h) (whole l) Hsp Hw) as [Hstop Hag]; [rewrite Hid; unfold line_tip; cbn; now rewrite Z.add_simpl_r|].
    cbn in Hstop, Hag. rewrite Z.add_simpl_r in Hag. destruct Hsp. rewrite (total_branch ctx h l Hs); [reflexivity|lia|exact Hag].
  - destruct (find_spec (E := E) tr t l Hok) as (ctx & h & -> & <- & Hh). cbn [bind]. rewrite (hole_at _ ctx h Hm).
    cbn [bind span branch_support_of]. destruct (at_hole_facts _ _ _ Hh) as (_ & Hsp & (Hd & Hle) & Hag & _).
    destruct (Z.gtb_spec (diff (span_of h) l) (seq l)) as [Hgt|Hge]; cbn [andb].
    + assert (diff (span_of h) l = seq l + 1) as Heq by lia. rewrite Heq, Z.add_simpl_r in Hag.
      destruct (Z.ltb_spec (seq l) (stop (span_of h))); [|lia].
      rewrite (total_branch ctx h l (ah_shaped _ _ _ Hh)); [reflexivity|lia|exact Hag].
    + rewrite (total_outside ctx h l Hh); [reflexivity|lia].
Qed.
End Query.
