(* ===== verification/TrieRemove.v ===== *)
(** * TrieRemove: removal from the ledger trie

    The loop that compresses the arena does [collapse] on the tree: it takes
    nodes without support out, or joins them with their only child, upwards from
    the node whose support was taken. *)

From stdpp Require Import gmap sorting.
From Stdlib Require Import ZArith Lia.
From S2P Require Import Prelude LedgerTrie TrieTree TrieOps TrieInsert TrieQuery.
Local Open Scope Z_scope.

Section Remove.
Context `{TrieLedger L, !TrieLedgerLaws L} {E : Type}.
Implicit Types (ns : list (Node L)) (l : L) (t h : tree L) (ctx : list (frame L)) (sp : Span L) (f : frame L).

Definition merge_tree sp (k : tree L) : tree L :=
  T (root_of k) (merge_span sp (span_of k)) (tip_of k) (kids_of k).

(** The frame with the hole gone, and with another tree at the end. *)
Definition without f : tree L := T (f_i f) (f_sp f) (f_tip f) (f_left f ++ f_right f).
Definition with_last f (k : tree L) : tree L := T (f_i f) (f_sp f) (f_tip f) (f_left f ++ f_right f ++ [k]).

Fixpoint collapse ctx t : tree L :=
  match ctx with
  | [] => t
  | f :: ctx' =>
      if tip_of t =? 0 then
        match kids_of t with
        | [] => collapse ctx' (without f)
        | [k] => collapse ctx' (with_last f (merge_tree (span_of t) k))
        | _ => plug ctx t
        end
      else plug ctx t
  end.

(** ** Totals and shape *)

Lemma merged_span sp (k : tree L) : span_ok sp -> span_ok (span_of k) -> continues sp (span_of k) ->
  merge_span sp (span_of k) = mkSpan (start sp) (stop (span_of k)) (ledger (span_of k)) /\
  span_ok (merge_span sp (span_of k)) /\ agree (ledger sp) (ledger (span_of k)) (start sp).
Proof.
  intros Hsp Hk Hc. pose proof (continues_agree _ _ Hsp Hk Hc) as Hag.
  destruct Hsp as [[H0 H1] H2], Hk as [[H3 H4] H5], Hc as [Hst _]. unfold merge_span.
  destruct (Z.ltb_spec (stop sp) (stop (span_of k))); [|lia].
  rewrite (Z.min_l (start sp) (start (span_of k))) by lia. split; [reflexivity|]. split; [split; cbn; lia|].
  eapply agree_down; [exact Hag|lia].
Qed.

Lemma merged_total g sp (k : tree L) : ext g -> span_ok sp -> shaped k -> continues sp (span_of k) ->
  total g (merge_tree sp k) = total g k.
Proof.
  intros Hg Hsp Hk Hc. assert (span_ok (span_of k)) as Hok by (destruct k; apply shaped_T in Hk; tauto).
  destruct (merged_span sp k Hsp Hok Hc) as (Hm & Hmok & _). unfold merge_tree. rewrite Hm in *.
  destruct k as [i spk tip kids]. cbn [span_of root_of tip_of kids_of] in *. rewrite !total_T. do 2 f_equal. apply Hg; [reflexivity|].
  apply agree_refl. destruct Hok. cbn. lia.
Qed.

Lemma merged_shaped sp (k : tree L) : span_ok sp -> shaped k -> continues sp (span_of k) -> shaped (merge_tree sp k).
Proof.
  intros Hsp Hk Hc. assert (span_ok (span_of k)) as Hok by (destruct k; apply shaped_T in Hk; tauto).
  destruct (merged_span sp k Hsp Hok Hc) as (Hm & Hmok & _). unfold merge_tree.
  destruct k as [i spk tip kids]. cbn [span_of root_of tip_of kids_of] in *. apply shaped_T in Hk as (_ & Htip & Hnd & Hks).
  apply shaped_T. split; [exact Hmok|]. split; [exact Htip|]. split; [exact Hnd|]. rewrite Hm. exact Hks.
Qed.

(** Taking the hole out of a frame, or putting a tree that starts as it did at the
    end, keeps the shape. *)
Lemma without_shaped f ctx sp : shaped_ctx (f :: ctx) sp -> shaped (without f) /\ shaped_ctx ctx (span_of (without f)).
Proof.
  intros (Hf & Htip & _ & Hnd & Hl & Hr & Hctx). split; [|exact Hctx]. apply shaped_T. split; [exact Hf|].
  split; [exact Htip|]. split; [|apply Forall_app; auto]. unfold start_ids in *. rewrite map_app.
  apply NoDup_app in Hnd as (Hnl & Hd & [_ Hnr]%NoDup_cons). apply NoDup_app. split; [exact Hnl|]. split; [|exact Hnr].
  intros x Hx Habs. apply (Hd x Hx). now right.
Qed.

Lemma with_last_shaped f ctx sp k : shaped_ctx (f :: ctx) sp -> span_ok sp -> shaped k ->
  start (span_of k) = start sp -> agree (ledger sp) (ledger (span_of k)) (start sp) ->
  shaped (with_last f k) /\ shaped_ctx ctx (span_of (with_last f k)).
Proof.
  intros Hs Hsp Hk Hst Hag. assert (span_ok (span_of k)) as Hok by (destruct k; apply shaped_T in Hk; tauto).
  apply (shaped_ctx_same (f :: ctx) sp (span_of k)) in Hs; auto.
  destruct Hs as (Hf & Htip & Hc & Hnd & Hl & Hr & Hctx). split; [|exact Hctx].
  apply shaped_T. split; [exact Hf|]. split; [exact Htip|]. split.
  - unfold start_ids in *. rewrite !map_app. cbn [map]. eapply NoDup_Permutation_proper; [|exact Hnd]. solve_Permutation.
  - rewrite !Forall_app, Forall_singleton. auto.
Qed.

Lemma merged_last f ctx sp k : shaped_ctx (f :: ctx) sp -> span_ok sp -> shaped k -> continues sp (span_of k) ->
  shaped (with_last f (merge_tree sp k)) /\ shaped_ctx ctx (span_of (with_last f (merge_tree sp k))).
Proof.
  intros Hc Hsp Hk Hck. assert (span_ok (span_of k)) as Hok by (destruct k; apply shaped_T in Hk; tauto).
  destruct (merged_span sp k Hsp Hok Hck) as (Hm & _ & Hag). apply (with_last_shaped f ctx sp); auto.
  - now apply merged_shaped.
  - cbn. now rewrite Hm.
  - cbn. now rewrite Hm.
Qed.

Lemma collapse_total g ctx : ext g -> forall t, shaped (plug ctx t) -> total g (collapse ctx t) = total g (plug ctx t).
Proof.
  intros Hg. induction ctx as [|f ctx IH]; intros t Hs; [reflexivity|]. cbn [collapse].
  destruct (Z.eqb_spec (tip_of t) 0) as [Htip|]; [|reflexivity]. pose proof Hs as [Hc Hst]%shaped_plug.
  destruct t as [i sp tip [|k [|k' kids]]]; cbn [kids_of tip_of span_of] in *; [..|reflexivity].
  - destruct (without_shaped f ctx sp Hc) as [H1 H2]. rewrite IH by (apply shaped_plug; auto). cbn [plug].
    rewrite (total_plug g ctx (plug1 f (T i sp tip [])) (without f) 0); [lia|].
    unfold plug1, without. rewrite !total_T, !totals_app, totals_cons, total_T. cbn. lia.
  - apply shaped_T in Hst as (Hsp & _ & _ & [[Hck Hk] _]%Forall_cons).
    destruct (merged_last f ctx sp k Hc Hsp Hk Hck) as [H1 H2].
    rewrite IH by (apply shaped_plug; auto). cbn [plug].
    rewrite (total_plug g ctx (plug1 f (T i sp tip [k])) (with_last f (merge_tree sp k)) 0); [lia|].
    unfold plug1, with_last. rewrite !total_T, !totals_app, !totals_cons, total_T, totals_cons, merged_total by auto. cbn. lia.
Qed.

(** The step of [collapse] keeps the tree well formed. *)
Lemma collapse_shaped ctx : forall t, shaped (plug ctx t) -> shaped (collapse ctx t).
Proof.
  induction ctx as [|f ctx IH]; intros t Hs; [exact Hs|]. cbn [collapse].
  destruct (tip_of t =? 0); [|exact Hs]. pose proof Hs as [Hc Hst]%shaped_plug.
  destruct t as [i sp tip [|k [|k' kids]]]; cbn [kids_of span_of] in *; [..|exact Hs].
  - apply IH, shaped_plug. destruct (without_shaped f ctx sp Hc). auto.
  - apply IH, shaped_plug. apply shaped_T in Hst as (Hsp & _ & _ & [[Hck Hk] _]%Forall_cons).
    destruct (merged_last f ctx sp k Hc Hsp Hk Hck). auto.
Qed.

Lemma collapse_compact ctx : forall t, compact_ctx ctx -> compact t -> 0 <= tip_of t -> (forall f, f ∈ ctx -> 0 <= f_tip f) ->
  compact (collapse ctx t).
Proof.
  induction ctx as [|f ctx IH]; intros t Hc Ht Htip Hpos; [exact Ht|]. cbn [collapse].
  assert (forall g, g ∈ ctx -> 0 <= f_tip g) as Hpos' by (intros g Hg; apply Hpos; now right).
  assert (0 <= f_tip f) as Hf by (apply Hpos; left).
  destruct (Z.eqb_spec (tip_of t) 0); [|apply compact_plug; split; [exact Hc|]; split; [exact Ht|intros _; left; lia]].
  pose proof Hc as (Hl & Hr & _ & Hcc).
  destruct t as [i sp tip [|k [|k' kids]]]; cbn [kids_of span_of] in *.
  - apply IH; auto. apply compact_T, Forall_app. auto.
  - apply IH; auto. apply compact_T in Ht. apply Forall_singleton in Ht as [Hfull Hk]. apply compact_T.
    rewrite !Forall_app, Forall_singleton. split; [exact Hl|]. split; [exact Hr|]. now destruct k.
  - apply compact_plug. split; [exact Hc|]. split; [exact Ht|]. intros _. right. cbn. lia.
Qed.

Lemma plug_root ctx : forall a b : tree L, root_of a = root_of b -> span_of a = span_of b ->
  root_of (plug ctx a) = root_of (plug ctx b) /\ span_of (plug ctx a) = span_of (plug ctx b).
Proof. induction ctx as [|f ctx IH]; intros a b Hr Hs; cbn [plug]; [auto|]. apply IH; reflexivity. Qed.

Lemma collapse_root ctx : forall t, root_of (collapse ctx t) = root_of (plug ctx t) /\ span_of (collapse ctx t) = span_of (plug ctx t).
Proof.
  induction ctx as [|f ctx IH]; intros t; [auto|]. cbn [collapse].
  destruct (tip_of t =? 0), (kids_of t) as [|k [|k' kids]]; auto; rewrite !(proj1 (IH _)), !(proj2 (IH _)); cbn [plug];
    apply plug_root; reflexivity.
Qed.

(** ** The arena *)

Lemma models_shrink ns ns' i t t' : models ns t -> repr ns' None t' -> indices t ≡ₚ i :: indices t' ->
  (exists n, ns' !! i = Some n /\ live n = false) ->
  (forall k, k <> i -> k ∉ indices t' -> ns' !! k = ns !! k) -> models ns' t'.
Proof.
  intros (_ & Hnd & Hc) Hr Hperm (n0 & Hi & Hdead) Hoff. rewrite Hperm in Hnd. apply NoDup_cons in Hnd as [_ Hnd].
  split; [exact Hr|]. split; [exact Hnd|]. intros k n Hk Hl.
  destruct (decide (k = i)) as [->|Hne]; [congruence|].
  destruct (decide (k ∈ indices t')) as [Hin|Hout]; [exact Hin|]. rewrite Hoff in Hk by auto.
  specialize (Hc k n Hk Hl). rewrite Hperm in Hc. apply elem_of_cons in Hc as [->|Hc]; [congruence|exact Hc].
Qed.

Lemma live_of_spec ns q kids : Forall (repr ns q) kids -> live_of ns (map root_of kids) = Ok (E := E) (map root_of kids).
Proof.
  induction 1 as [|k kids Hk _ IH]; [reflexivity|]. cbn [map live_of]. unfold at_. rewrite (repr_lookup _ _ _ Hk).
  cbn [bind]. rewrite IH. reflexivity.
Qed.

Lemma filter_without (cs cs' : list nat) i : i ∉ cs -> i ∉ cs' ->
  filter (fun c => c <> i) (cs ++ i :: cs') = cs ++ cs'.
Proof.
  assert (forall xs : list nat, i ∉ xs -> filter (fun c : nat => c <> i) xs = xs) as Hid.
  { induction xs as [|c xs IH]; [reflexivity|]. intros [H1 H2]%not_elem_of_cons. rewrite filter_cons_True by congruence. now rewrite IH. }
  intros H1 H2. rewrite filter_app, filter_cons_False by tauto. now rewrite !Hid.
Qed.

Lemma roots_in kids k : k ∈ map root_of kids -> k ∈ all_indices (L := L) kids.
Proof.
  intros (t & <- & Hin)%list_elem_of_In%in_map_iff. apply elem_of_all_indices. exists t.
  split; [now apply list_elem_of_In|apply root_in_indices].
Qed.

(** The parent of the hole loses it. *)
Lemma erase_child_spec ns p n left right i m : p <> i -> ns !! p = Some n -> children n = left ++ i :: right ->
  i ∉ left -> i ∉ right -> ns !! i = Some m ->
  exists ns', erase_child ns p i = Ok (E := E) ns' /\ length ns' = length ns /\
    ns' !! p = Some (set_children (left ++ right) n) /\ ns' !! i = Some (set_live false m) /\
    forall k, k <> p -> k <> i -> ns' !! k = ns !! k.
Proof.
  intros Hne Hp Hc Hl Hr Hi. unfold erase_child, modify_at, at_. rewrite Hp. cbn [bind].
  rewrite list_lookup_insert_ne, Hi by exact Hne. cbn [bind]. rewrite Hc, filter_without by auto.
  apply lookup_lt_Some in Hp as Hpl, Hi as Hil. eexists. split; [reflexivity|]. split; [rewrite !length_insert; reflexivity|].
  split; [rewrite list_lookup_insert_ne, list_lookup_insert_eq by auto; reflexivity|].
  split; [apply list_lookup_insert_eq; rewrite length_insert; exact Hil|].
  intros k H1 H2. rewrite !list_lookup_insert_ne by auto. reflexivity.
Qed.

(** What is known of the frame around a hole. *)
Lemma frame_lookup ns f ctx i sp tip kids : models ns (plug (f :: ctx) (T i sp tip kids)) ->
  ns !! f_i f = Some (mkNode (f_sp f) (f_tip f) (frame_branch f (tip + branches kids))
    (map root_of (f_left f) ++ i :: map root_of (f_right f)) (par_of ctx) true) /\
  Forall (repr ns (Some (f_i f))) (f_left f ++ f_right f) /\
  repr_ctx ns ctx (f_i f) (frame_branch f (tip + branches kids)) /\
  (i <> f_i f /\ i ∉ all_indices (f_left f ++ f_right f) /\ i ∉ ctx_indices ctx) /\
  (forall k, k ∈ all_indices kids -> k <> f_i f /\ k ∉ all_indices (f_left f ++ f_right f) /\ k ∉ ctx_indices ctx) /\
  f_i f ∉ all_indices (f_left f ++ f_right f) /\ f_i f ∉ ctx_indices ctx.
Proof.
  intros Hm. destruct (hole_lookup _ _ _ _ _ _ Hm) as ((_ & _ & Hrc) & _ & _ & Hdisj & _).
  destruct Hrc as (Hf & Hl & Hr & Hrc). cbn [ctx_indices] in Hdisj.
  destruct Hm as (_ & Hnd & _). destruct (plug_NoDup _ _ Hnd) as (_ & Hndc & _). cbn [ctx_indices] in Hndc.
  apply NoDup_cons in Hndc as [Hfi _]. rewrite !not_elem_of_app in Hfi. setoid_rewrite elem_of_cons in Hdisj.
  setoid_rewrite elem_of_app in Hdisj. setoid_rewrite elem_of_app in Hdisj.
  split; [exact Hf|]. split; [apply Forall_app; auto|]. split; [exact Hrc|]. rewrite all_indices_app.
  setoid_rewrite elem_of_app. split; [|split; [|tauto]].
  - repeat split; intros Habs; [destruct (Hdisj i); auto|destruct (Hdisj i); tauto|destruct (Hdisj i); auto].
  - intros k Hk. repeat split; intros Habs; [destruct (Hdisj k); auto|destruct (Hdisj k); tauto|destruct (Hdisj k); auto].
Qed.

Lemma erase_leaf ns f ctx i sp : models ns (plug (f :: ctx) (T i sp 0 [])) ->
  exists ns', erase_child ns (f_i f) i = Ok (E := E) ns' /\ models ns' (plug ctx (without f)) /\ length ns' = length ns.
Proof.
  intros Hm. destruct (frame_lookup _ _ _ _ _ _ _ Hm) as (Hf & Hkids & Hrc & (Hi1 & Hi2 & Hi3) & _ & Hf1 & Hf2).
  destruct (hole_lookup _ _ _ _ _ _ Hm) as ((Hi & _ & _) & _ & _).
  rewrite all_indices_app, not_elem_of_app in Hi2.
  edestruct (erase_child_spec ns (f_i f)) as (ns' & Hrun & Hlen & Hp' & Hi' & Hoff);
    [exact (not_eq_sym Hi1)|exact Hf|reflexivity|intros Habs%roots_in; tauto..|exact Hi|].
  exists ns'. split; [exact Hrun|]. split; [|exact Hlen].
  assert (frame_branch f (0 + branches (L := L) []) = f_tip f + branches (f_left f ++ f_right f)) as Hb
    by (unfold frame_branch; rewrite branches_app; change (branches (L := L) []) with 0; lia).
  eapply (models_shrink ns ns' i _ _ Hm).
  - apply repr_plug. cbn [root_of without]. unfold without. rewrite branch_T, <- Hb. split.
    + apply (repr_ctx_frame ns); [|exact Hrc]. intros k Hk. apply Hoff; intros ->; contradiction.
    + apply repr_T. rewrite Hp', <- Hb, map_app. split; [reflexivity|]. apply (reprs_frame ns); [|exact Hkids].
      intros k Hk. apply Hoff; intros ->; [contradiction|]. rewrite all_indices_app, elem_of_app in Hk. tauto.
  - cbn [plug]. unfold plug1, without. rewrite !plug_indices, !indices_T, !all_indices_app, all_indices_cons, indices_T.
    cbn. solve_Permutation.
  - eexists. split; [exact Hi'|reflexivity].
  - intros k Hk Hout. apply Hoff; [|exact Hk]. intros ->. apply Hout. rewrite plug_indices. left.
Qed.

Lemma merge_up ns f ctx i sp k : models ns (plug (f :: ctx) (T i sp 0 [k])) ->
  exists c ns1 ns', at_ ns (root_of k) = Ok (E := E) c /\ span c = span_of k /\
    modify_at (<[root_of k := set_parent (Some (f_i f)) (set_span (merge_span sp (span_of k)) c)]> ns) (f_i f)
      (fun q => set_children (children q ++ [root_of k]) q) = Ok (E := E) ns1 /\
    erase_child ns1 (f_i f) i = Ok (E := E) ns' /\
    models ns' (plug ctx (with_last f (merge_tree sp k))) /\ length ns' = length ns.
Proof.
  intros Hm. destruct (frame_lookup _ _ _ _ _ _ _ Hm) as (Hf & Hkids & Hrc & (Hi1 & Hi2 & Hi3) & Hk & Hf1 & Hf2).
  destruct (hole_lookup _ _ _ _ _ _ Hm) as ((Hi & Hrk & _) & (Hik & Hndk) & _).
  destruct k as [j spk tipk ks]. cbn [root_of span_of].
  assert (all_indices [T j spk tipk ks] = j :: all_indices ks) as Hai by (cbn; now rewrite app_nil_r).
  rewrite Hai in Hik, Hndk, Hk. apply Forall_cons in Hrk as [Hrk _].
  pose proof Hrk as [Hj Hks]%repr_T. apply not_elem_of_cons in Hik as [Hij Hiks]. apply NoDup_cons in Hndk as [Hjk _].
  destruct (Hk j) as (Hj1 & Hj2 & Hj3); [left|]. setoid_rewrite elem_of_cons in Hk.
  rewrite all_indices_app, not_elem_of_app in Hi2, Hj2. apply lookup_lt_Some in Hf as Hfl, Hj as Hjl.
  exists (mkNode spk tipk (tipk + branches ks) (map root_of ks) (Some i) true). unfold at_. rewrite Hj. set (ns0 := <[j := _]> ns).
  assert (ns0 !! f_i f = ns !! f_i f) as Hf0 by (apply list_lookup_insert_ne; auto).
  unfold modify_at at 1, at_ at 1. rewrite Hf0, Hf. cbn [bind children].
  set (n1 := set_children _ _). set (ns1 := <[f_i f := n1]> ns0).
  assert (forall x, x <> f_i f -> x <> j -> ns1 !! x = ns !! x) as Hoff1.
  { intros x H1 H2. unfold ns1, ns0. now rewrite !list_lookup_insert_ne by auto. }
  edestruct (erase_child_spec ns1 (f_i f) n1 (map root_of (f_left f)) (map root_of (f_right f) ++ [j]) i)
    as (ns' & Hrun & Hlen & Hp' & Hi' & Hoff);
    [exact (not_eq_sym Hi1)|unfold ns1; apply list_lookup_insert_eq; unfold ns0; now rewrite length_insert|
     cbn; now rewrite <- app_assoc|intros Habs%roots_in; tauto| |rewrite Hoff1; [exact Hi|auto..]|].
  { rewrite not_elem_of_app, list_elem_of_singleton. split; [intros Habs%roots_in; tauto|exact Hij]. }
  exists ns1, ns'. split; [reflexivity|]. split; [reflexivity|]. split; [reflexivity|]. split; [exact Hrun|].
  split; [|rewrite Hlen; unfold ns1, ns0; now rewrite !length_insert].
  assert (forall x, x <> f_i f -> x <> i -> x <> j -> ns' !! x = ns !! x) as Hoff2
    by (intros x H1 H2 H3; rewrite Hoff by auto; auto).
  assert (frame_branch f (0 + branches [T j spk tipk ks]) = f_tip f +
    branches (f_left f ++ f_right f ++ [merge_tree sp (T j spk tipk ks)])) as Hb.
  { unfold frame_branch, merge_tree. cbn [root_of span_of tip_of kids_of]. rewrite !branches_app, !branches_cons, !branch_T. change (branches (L := L) []) with 0. lia. }
  eapply (models_shrink ns ns' i _ _ Hm).
  - apply repr_plug. unfold with_last. rewrite branch_T, <- Hb. split.
    + apply (repr_ctx_frame ns); [|exact Hrc]. intros x Hx. apply Hoff2; intros ->; contradiction.
    + apply repr_T. rewrite Hp', <- Hb, !map_app. split; [reflexivity|]. rewrite app_assoc. apply Forall_app. split.
      * apply (reprs_frame ns); [|exact Hkids]. intros x Hx.
        apply Hoff2; intros ->; [contradiction|rewrite all_indices_app, elem_of_app in Hx; tauto..].
      * apply Forall_singleton. unfold merge_tree. cbn [root_of span_of tip_of kids_of]. apply repr_T. split.
        -- rewrite Hoff by auto. unfold ns1. rewrite list_lookup_insert_ne by auto. unfold ns0. now rewrite list_lookup_insert_eq.
        -- apply (reprs_frame ns); [|exact Hks]. intros x Hx. destruct (Hk x) as (Hx1 & _); [now right|].
           apply Hoff2; [exact Hx1|intros ->; contradiction..].
  - cbn [plug]. unfold plug1, with_last, merge_tree. cbn [root_of span_of tip_of kids_of].
    rewrite !plug_indices, !indices_T, !all_indices_app, all_indices_cons, indices_T. cbn. rewrite app_nil_r. solve_Permutation.
  - eexists. split; [exact Hi'|reflexivity].
  - intros x Hx Hout. rewrite plug_indices in Hout. unfold with_last in Hout. rewrite indices_T, !all_indices_app in Hout.
    apply Hoff2; [|exact Hx|]; intros ->; apply Hout; cbn; set_solver.
Qed.

Lemma root_in_ctx ctx : forall f t, root_of (plug (f :: ctx) t) ∈ ctx_indices (f :: ctx).
Proof.
  induction ctx as [|g ctx IH]; intros f t; [left|]. cbn [plug]. specialize (IH g (plug1 f t)). cbn [plug] in IH.
  cbn [ctx_indices]. right. rewrite !elem_of_app. right. right. exact IH.
Qed.

Lemma hole_not_root ns f ctx t : models ns (plug (f :: ctx) t) -> root_of (plug (f :: ctx) t) = ROOT ->
  Nat.eqb (root_of t) ROOT = false.
Proof.
  intros (_ & Hnd & _) Hroot. apply Nat.eqb_neq. intros Heq. destruct (plug_NoDup _ _ Hnd) as (_ & _ & Hdisj).
  apply (Hdisj (root_of t) (root_in_indices t)). rewrite Heq, <- Hroot. apply root_in_ctx.
Qed.

Lemma compress_spec ctx : forall fuel ns t, models ns (plug ctx t) -> root_of (plug ctx t) = ROOT -> (length ctx < fuel)%nat ->
  exists ns', compress fuel ns (root_of t) = Ok (E := E) ns' /\ models ns' (collapse ctx t).
Proof.
  induction ctx as [|f ctx IH]; intros [|fuel] ns t Hm Hroot Hf; try lia; cbn [compress collapse];
    rewrite (hole_at _ _ _ Hm); cbn [bind tip_support_of parent children span].
  - cbn [plug] in Hroot. rewrite Hroot, andb_false_r. eauto.
  - rewrite (hole_not_root _ _ _ _ Hm Hroot). destruct (Z.eqb_spec (tip_of t) 0) as [Htip|]; [|eauto]. cbn [andb negb par_of].
    destruct t as [i sp tip kids]. cbn [tip_of kids_of span_of root_of] in *. subst tip.
    destruct (hole_lookup _ _ _ _ _ _ Hm) as ((_ & Hk & _) & _).
    rewrite (live_of_spec ns (Some i) kids Hk). cbn [bind]. cbn [length] in Hf.
    destruct kids as [|k [|k' kids]]; cbn [map].
    + destruct (erase_leaf _ _ _ _ _ Hm) as (ns' & -> & Hm' & Hlen). cbn [bind].
      apply (IH fuel ns' (without f)); [exact Hm'| |lia]. rewrite <- Hroot. cbn [plug]. now apply plug_root.
    + destruct (merge_up _ _ _ _ _ _ Hm) as (c & ns1 & ns' & -> & Hsp & Hmod & Her & Hm' & Hlen). cbn [bind].
      rewrite Hsp, Hmod. cbn [bind]. rewrite Her. cbn [bind].
      apply (IH fuel ns' (with_last f (merge_tree sp k))); [exact Hm'| |lia]. rewrite <- Hroot. cbn [plug]. now apply plug_root.
    + eauto.
Qed.

(** ** Removing *)

Lemma shaped_ctx_tips ctx : forall sp, shaped_ctx ctx sp -> forall f, f ∈ ctx -> 0 <= f_tip f.
Proof.
  induction ctx as [|g ctx IH]; intros sp Hs f; [intros Hf; inversion Hf|].
  destruct Hs as (_ & Htip & _ & _ & _ & _ & Hs). intros [->|Hf]%elem_of_cons; [exact Htip|eauto].
Qed.

Lemma id_total_bound id t : shaped t -> 0 <= total (at_id id) t <= branch t.
Proof.
  intros Hs. split.
  - apply shaped_nonneg; [|exact Hs]. intros sp. unfold at_id. destruct (_ =? _); lia.
  - apply total_mono; [|exact Hs]. intros sp. unfold at_id. destruct (_ =? _); lia.
Qed.

(** The tip support of a node is part of the support of its sequence. *)
Lemma tip_le_seq ctx i sp tip kids : shaped (plug ctx (T i sp tip kids)) ->
  tip <= total (at_seq (stop sp - 1)) (plug ctx (T i sp tip kids)).
Proof.
  intros Hs. pose proof (tip_le_total (at_seq (stop sp - 1)) ctx i sp tip kids) as Hle. unfold at_seq in Hle at 2.
  rewrite Z.eqb_refl in Hle. rewrite Z.mul_1_l in Hle. apply Hle; [|exact Hs]. intros x. unfold at_seq. destruct (_ =? _); lia.
Qed.

(** The trie after the support of a node is lowered and the nodes without support
    are taken out. *)
Lemma lower_ok tr ctx i sp tip kids n : trie_ok tr (plug ctx (T i sp tip kids)) -> 0 <= n <= tip ->
  let ss := seq_support tr in
  let left := total (at_seq (stop sp - 1)) (plug ctx (T i sp tip kids)) - n in
  let ss' := if left =? 0 then delete (stop sp - 1) ss else <[stop sp - 1 := left]> ss in
  let t' := collapse ctx (T i sp (tip - n) kids) in
  (forall g, ext g -> total g t' = total g (plug ctx (T i sp tip kids)) - g sp * n) /\
  forall ns', models ns' t' -> trie_ok (mkTrie ns' ss') t'.
Proof.
  intros Hok Hn ss left ss' t'. pose proof (ok_shaped _ _ Hok) as Hs.
  pose proof (hole_tip_shaped ctx i sp tip (tip - n) kids Hs ltac:(lia)) as Hs'.
  assert (forall g, ext g -> total g t' = total g (plug ctx (T i sp tip kids)) - g sp * n) as Htot.
  { intros g Hg. unfold t'. rewrite (collapse_total g ctx Hg _ Hs'), (hole_tip_total g ctx i sp tip). lia. }
  split; [exact Htot|]. intros ns' Hm. destruct (collapse_root ctx (T i sp (tip - n) kids)) as [Hr1 Hr2].
  destruct (plug_root ctx (T i sp (tip - n) kids) (T i sp tip kids) eq_refl eq_refl) as [Hp1 Hp2].
  constructor; cbn [nodes seq_support].
  - exact Hm.
  - now apply collapse_shaped.
  - destruct (proj1 (compact_plug _ _) (ok_compact _ _ Hok)) as (Hcc & Hct & _).
    apply collapse_compact; [exact Hcc|exact Hct|cbn; lia|]. apply shaped_plug in Hs as [Hsc _]. exact (shaped_ctx_tips _ _ Hsc).
  - unfold t'. rewrite Hr1, Hp1. apply Hok.
  - unfold t'. rewrite Hr2, Hp2. apply Hok.
  - intros s. rewrite (Htot _ (ext_at_seq s)). unfold ss'. unfold at_seq at 2 4.
    pose proof (ok_seqs _ _ Hok s) as Hold. fold ss in Hold.
    destruct (Z.eqb_spec (stop sp - 1) s) as [<-|Hne].
    + fold left. replace (_ - 1 * n) with left by (unfold left; lia).
      destruct (left =? 0); [apply lookup_delete_eq|apply lookup_insert_eq].
    + rewrite Z.sub_0_r. destruct (left =? 0); [rewrite lookup_delete_ne by exact Hne|rewrite lookup_insert_ne by exact Hne]; exact Hold.
  - pose proof (tip_le_total low _ _ _ _ _ low_nonneg Hs) as Hle. pose proof (ok_grounded _ _ Hok) as Hlow.
    rewrite (Htot _ ext_low). rewrite Hlow in *. pose proof (low_nonneg sp). nia.
  - unfold branch. rewrite (Htot (fun _ => 1)) by (intros ? ? ? ?; reflexivity). pose proof (ok_fits _ _ Hok). unfold branch in *. lia.
Qed.

(** Removing a ledger takes at most its own support away, and says whether there
    was any. *)
Lemma remove_spec tr t l c : trie_ok tr t -> 0 <= c ->
  let own := total (at_id (lineage l (seq l))) t in
  exists tr' t', remove (ancestor l (seq l)) (seq l) c tr = Ok (E := E) (0 <? own, tr') /\ trie_ok tr' t' /\
    forall g, ext g -> total g t' = total g t - g (whole l) * Z.min c own.
Proof.
  intros Hok Hc own. pose proof (ok_models _ _ Hok) as Hm. pose proof (tip_support_spec (E := E) tr t (lineage l (seq l)) Hok) as Htip.
  fold own in Htip. unfold tip_support in Htip. unfold remove. rewrite ancestor_self.
  pose proof (find_tip_spec _ _ (lineage l (seq l)) Hok) as Hf.
  destruct (find_by_ledger_id (nodes tr) (lineage l (seq l))) as [k|].
  2:{ injection Htip as Hown. exists tr, t. rewrite <- Hown. split; [reflexivity|]. split; [exact Hok|]. intros g _. lia. }
  destruct Hf as (ctx & h & <- & <- & Hid). clearbody own. rewrite (hole_at _ ctx h Hm) in Htip |- *. cbn [bind tip_support_of] in Htip |- *.
  injection Htip as Hown. rewrite Hown. pose proof (ok_shaped _ _ Hok) as Hs. destruct h as [i sp tip kids].
  cbn [tip_of root_of span_of] in *. subst tip. set (t := plug ctx (T i sp own kids)) in *.
  assert (span_ok sp /\ 0 <= own) as [Hsp H0] by (apply shaped_plug in Hs as [_ Hs]; apply shaped_T in Hs; tauto).
  destruct (Z.eqb_spec own 0) as [Heq|Hne].
  { exists tr, t. rewrite Heq. split; [reflexivity|]. split; [exact Hok|]. intros g _. lia. }
  set (n := Z.min c own). pose proof (seq_nonneg l). pose proof (tip_le_seq _ _ _ _ _ Hs) as Hle. fold t in Hle.
  assert (span_ok (whole l)) as Hw by (unfold span_ok, whole; cbn; lia).
  destruct (same_tip sp (whole l) Hsp Hw) as [Hstop Hag]; [rewrite Hid; unfold line_tip; cbn; now rewrite Z.add_simpl_r|].
  cbn in Hstop, Hag. assert (seq l = stop sp - 1) as Hseq by lia.
  destruct (lower_ok tr ctx i sp own kids n Hok ltac:(lia)) as [Htot Hmk]. fold t in Htot, Hmk. cbv zeta in Hmk.
  pose proof (seq_total_bound (stop sp - 1) t Hs) as Hb. pose proof (ok_fits _ _ Hok) as Hfit.
  destruct (bump_spec (E := E) (nodes tr) ctx i sp own kids (- n)) as (n0 & ns' & Hn0 & _ & Hpl & Hrun & Hm' & Hlen);
    [exact Hm|exact Hs|lia|fold t; lia|]. rewrite Z.add_opp_r in Hpl, Hrun, Hm'.
  apply hole_lookup in Hm as ((Hi & _) & _). rewrite Hi in Hn0. injection Hn0 as <-.
  destruct (compress_spec ctx (S (length ns')) ns' (T i sp (own - n) kids)) as (ns2 & Hcomp & Hm2); [exact Hm'| | |].
  { rewrite <- (ok_root _ _ Hok). now apply plug_root. }
  { destruct Hm' as (Hr & Hnd & _). pose proof (ctx_length _ _ _ Hr Hnd). lia. }
  cbn [root_of] in Hcomp. eexists. exists (collapse ctx (T i sp (own - n) kids)).
  split; [|split; [apply (Hmk ns2 Hm2)|]].
  - fold n. rewrite Hpl. cbn [bind]. rewrite Hseq, (ok_seqs _ _ Hok (stop sp - 1)).
    destruct (Z.eqb_spec (total (at_seq (stop sp - 1)) t) 0); [lia|]. rewrite plain_ok by (cbn [min_of]; lia). cbn [bind].
    rewrite length_insert, branch_T. cbn [kids_of]. rewrite Hrun. cbn [bind]. rewrite Hcomp. cbn [bind].
    destruct (Z.ltb_spec 0 own); [reflexivity|lia].
  - intros g Hg. rewrite (Htot g Hg), (Hg sp (whole l)); [reflexivity|exact Hstop|]. cbn. now rewrite Hstop.
Qed.
End Remove.
