(* ===== verification/TrieCheck.v ===== *)
(** * TrieCheck: the trie's check of its own invariants

    [check_invariants] walks the arena with a stack and adds the tip supports up by
    sequence; on a well-formed trie it finds what [seq_support] holds. *)

From stdpp Require Import gmap sorting.
From Stdlib Require Import ZArith Lia.
From S2P Require Import Prelude LedgerTrie TrieTree TrieOps TrieInsert TrieQuery TrieRemove.
Local Open Scope Z_scope.

Section Check_.
Context `{TrieLedger L, !TrieLedgerLaws L} {E : Type}.
Implicit Types (ns : list (Node L)) (t : tree L) (ts kids : list (tree L)) (m : gmap Z Z).

Lemma sum_children_spec ns curr kids : forall b, Forall (repr ns (Some curr)) kids -> 0 <= b ->
  Forall (fun k => 0 <= branch k) kids -> b + branches kids <= max_of U32 ->
  sum_children ns curr b (map root_of kids) = Ok (E := E) (Some (b + branches kids)).
Proof.
  induction kids as [|k kids IH]; intros b Hr Hb Hk Hfit; [cbn; now rewrite Z.add_0_r|].
  apply Forall_cons in Hr as [Hr Hrs], Hk as [Hk Hks]. rewrite branches_cons in *. cbn [map sum_children].
  unfold at_. rewrite (repr_lookup _ _ _ Hr). cbn [bind parent branch_support_of]. rewrite bool_decide_true by reflexivity.
  assert (0 <= branches kids) by (clear - Hks; induction Hks; [reflexivity|rewrite branches_cons; lia]).
  rewrite plain_ok by (cbn [min_of]; lia). cbn [bind]. rewrite IH by (auto; lia). now rewrite Z.add_assoc.
Qed.

(** The supports by sequence that the walk has counted. *)
Definition counted m (g : Z -> Z) : Prop := forall s, m !! s = if g s =? 0 then None else Some (g s).

Lemma counted_add m g s v : counted m g -> 0 <= g s -> 0 <= v -> g s + v <= max_of U32 ->
  exists m', (if v =? 0 then Ok m else x <- plain U32 (default 0 (m !! s) + v);; Ok (<[s := x]> m)) = Ok (E := E) m' /\
    counted m' (fun s' => g s' + if s =? s' then v else 0).
Proof.
  intros Hm Hg Hv Hfit. destruct (Z.eqb_spec v 0) as [->|Hne].
  - exists m. split; [reflexivity|]. intros s'. rewrite Hm. destruct (s =? s'); now rewrite Z.add_0_r.
  - assert (default 0 (m !! s) = g s) as -> by (rewrite Hm; destruct (Z.eqb_spec (g s) 0); cbn; congruence).
    rewrite plain_ok by (cbn [min_of]; lia). eexists. split; [reflexivity|]. intros s'.
    destruct (Z.eqb_spec s s') as [<-|Hs].
    + rewrite lookup_insert_eq. destruct (Z.eqb_spec (g s + v) 0); [lia|reflexivity].
    + rewrite lookup_insert_ne by exact Hs. now rewrite Hm, Z.add_0_r.
Qed.

Lemma all_indices_rev ts : length (all_indices (rev ts)) = length (all_indices ts).
Proof.
  induction ts as [|t ts IH]; [reflexivity|]. cbn [rev]. rewrite all_indices_app, !all_indices_cons, !length_app, IH.
  change (all_indices (L := L) []) with (@nil nat). cbn. lia.
Qed.

Lemma totals_rev g ts : totals g (rev ts) = totals g ts.
Proof.
  induction ts as [|t ts IH]; [reflexivity|]. cbn [rev]. rewrite totals_app, !totals_cons, IH.
  change (totals g (@nil (tree L))) with 0. lia.
Qed.

Definition good t : Prop := shaped t /\ compact t /\ (root_of t = ROOT \/ full t).

Lemma good_kids t : good t -> Forall good (kids_of t).
Proof.
  destruct t as [i sp tip kids]. intros (Hs & Hc & _). apply shaped_T in Hs as (_ & _ & _ & Hs). apply compact_T in Hc.
  cbn [kids_of]. rewrite Forall_forall in *. intros k Hk. destruct (Hs k Hk), (Hc k Hk). repeat split; auto.
Qed.

Lemma totals_nonneg g ts : (forall sp, 0 <= g sp) -> Forall good ts -> 0 <= totals g ts.
Proof.
  intros Hg. induction 1 as [|t ts (Hs & _) _ IH]; [reflexivity|]. rewrite totals_cons.
  pose proof (shaped_nonneg g t Hg Hs). lia.
Qed.

Lemma at_seq_nonneg s (sp : Span L) : 0 <= at_seq s sp.
Proof. unfold at_seq. destruct (_ =? _); lia. Qed.

Lemma keeps_node i sp tip kids : root_of (T i sp tip kids) = ROOT \/ full (T i sp tip kids) ->
  negb (Nat.eqb i ROOT) && (tip =? 0) && Nat.ltb (length (map root_of kids)) 2 = false.
Proof.
  unfold full. cbn [root_of tip_of kids_of]. rewrite length_map. intros [->|[Hpos|Htwo]]; [reflexivity| |].
  - destruct (Z.eqb_spec tip 0); [lia|]. now rewrite andb_false_r.
  - destruct (Nat.ltb_spec (length kids) 2); [lia|]. now rewrite andb_false_r.
Qed.

Lemma invariants_loop_spec ns fuel : forall ts m g,
  Forall (fun t => (exists p, repr ns p t) /\ good t /\ branch t <= max_of U32) ts ->
  (length (all_indices ts) < fuel)%nat -> counted m g -> (forall s, 0 <= g s /\ g s + totals (at_seq s) ts <= max_of U32) ->
  exists m', invariants_loop fuel ns m (map root_of ts) = Ok (E := E) (Some m') /\
    counted m' (fun s => g s + totals (at_seq s) ts).
Proof.
  induction fuel as [|fuel IH]; intros [|t ts] m g Hts Hlen Hm Hg; try lia.
  - exists m. split; [reflexivity|]. intros s. rewrite Hm. change (totals (at_seq s) (@nil (tree L))) with 0. now rewrite Z.add_0_r.
  - apply Forall_cons in Hts as [([p Hr] & Hgood & Hfit) Hts]. cbn [map invariants_loop].
    unfold at_ at 1. rewrite (repr_lookup _ _ _ Hr). cbn [bind live negb andb children tip_support_of branch_support_of span].
    pose proof (good_kids t Hgood) as Hkids. destruct t as [i sp tip kids]. cbn [root_of span_of tip_of kids_of] in *.
    pose proof Hr as [_ Hrk]%repr_T. rewrite (live_of_spec ns _ kids Hrk). cbn [bind]. rewrite branch_T in *.
    destruct Hgood as (Hs & Hc & Hfull). apply shaped_T in Hs as (Hsp & Htip & _ & Hsk).
    rewrite (keeps_node i sp tip kids Hfull).
    assert (Forall (fun k : tree L => 0 <= branch k) kids) as Hkb.
    { eapply Forall_impl; [exact Hkids|]. intros k (Hsk' & _). apply shaped_nonneg; [intros; lia|exact Hsk']. }
    assert (forall s, totals (at_seq s) (T i sp tip kids :: ts) = (if stop sp - 1 =? s then tip else 0)
      + totals (at_seq s) (rev kids ++ ts)) as Htot.
    { intros s. rewrite totals_cons, total_T, totals_app, totals_rev. unfold at_seq at 1. destruct (_ =? _); lia. }
    assert (Forall good ts) as Hgts by (eapply Forall_impl; [exact Hts|]; cbn; tauto).
    assert (forall s, 0 <= totals (at_seq s) (rev kids ++ ts)) as Hnn.
    { intros s. apply totals_nonneg; [apply at_seq_nonneg|]. apply Forall_app. split; [now apply Forall_rev|exact Hgts]. }
    pose proof (Hg (stop sp - 1)) as [Hg0 Hgs]. rewrite Htot, Z.eqb_refl in Hgs. specialize (Hnn (stop sp - 1)) as Hnns.
    destruct (counted_add m g (stop sp - 1) tip Hm) as (m' & -> & Hm'); [lia..|]. cbn [bind].
    rewrite sum_children_spec by (auto; lia). cbn [bind]. rewrite Z.eqb_refl, <- map_rev, <- map_app.
    edestruct (IH (rev kids ++ ts) m') as (m'' & -> & Hm''); [| |exact Hm'| |].
    + apply Forall_app. split; [|exact Hts]. rewrite Forall_forall in Hkids, Hrk. apply Forall_rev, Forall_forall. intros k Hk. split; [eauto|].
      split; [auto|]. apply list_elem_of_split in Hk as (l1 & l2 & ->). rewrite branches_app, branches_cons in Hfit.
      apply Forall_app in Hsk as [Hs1 [_ Hs2]%Forall_cons]. apply branches_nonneg in Hs1, Hs2. lia.
    + rewrite all_indices_cons, indices_T, length_app in Hlen. cbn in Hlen.
      rewrite all_indices_app, length_app, all_indices_rev. lia.
    + intros s. specialize (Hg s) as [Hg1 Hg2]. rewrite Htot in Hg2. destruct (Z.eqb_spec (stop sp - 1) s); lia.
    + exists m''. split; [reflexivity|]. intros s. rewrite (Hm'' s), Htot. now rewrite Z.add_assoc.
Qed.

Lemma check_invariants_spec tr t : trie_ok tr t -> check_invariants tr = Ok (E := E) true.
Proof.
  intros Hok. pose proof (ok_models _ _ Hok) as (Hr & Hnd & _). unfold check_invariants.
  destruct (invariants_loop_spec (nodes tr) (S (length (nodes tr))) [t] ∅ (fun _ => 0)) as (m' & Hrun & Hm').
  - apply Forall_singleton. split; [eauto|]. split; [|apply Hok]. split; [apply Hok|]. split; [apply Hok|]. left. apply Hok.
  - pose proof (ctx_length _ [] _ Hr Hnd). cbn in *. rewrite app_nil_r. lia.
  - intros s. apply lookup_empty.
  - intros s. rewrite totals_cons. change (totals (at_seq s) (@nil (tree L))) with 0. pose proof (seq_total_bound s t (ok_shaped _ _ Hok)). pose proof (ok_fits _ _ Hok). lia.
  - cbn [map] in Hrun. rewrite (ok_root _ _ Hok) in Hrun. rewrite Hrun. cbn [bind]. f_equal. apply bool_decide_true.
    apply map_eq. intros s. rewrite Hm', (ok_seqs _ _ Hok s). cbn. now rewrite Z.add_0_r.
Qed.
End Check_.
