(* ===== verification/TriePreferred.v ===== *)
(** * TriePreferred: the preferred ledger

    The rule for the preferred ledger, stated of any measure of support: from the
    genesis ledger on, a child is taken when it cannot lose against the others
    even if all the uncommitted support goes to them.  [get_preferred], which
    walks the spans of the trie and the supports by sequence, ends where the rule
    does. *)

From stdpp Require Import gmap sorting.
From Stdlib Require Import ZArith Lia.
From S2P Require Import Prelude LedgerTrie TrieTree TrieOps TrieInsert TrieQuery TrieRemove TrieCheck.
Local Open Scope Z_scope.

(** ** The rule *)

Section Rule.
Context `{TrieLedger L, !TrieLedgerLaws L}.
(** The support of the ledgers with a property. *)
Variable measure : (Span L -> Z) -> Z.
Variable largest_issued : Z.

Definition before (b : Z) (sp : Span L) : Z := if stop sp - 1 <? b then 1 else 0.
Definition step_at (s id y : Z) (sp : Span L) : Z := passes s id sp * passes (s + 1) y sp.

(** The support of the ledger [id] at [s] and of its descendants. *)
Definition support (s id : Z) : Z := measure (passes s id).
(** [y] is a child with support of the ledger [id] at [s]. *)
Definition kid (s id y : Z) : Prop := 0 < measure (step_at s id y).
(** The support that may still go to any ledger at [s]. *)
Definition uncommitted (s : Z) : Z := measure (before (Z.max s largest_issued)).

(** What [y] would win by against [z], ties broken by the identifiers. *)
Definition ahead (s y z : Z) : Z := support s y - support s z + (if z <? y then 1 else 0).

Definition committed (s id y : Z) : Prop :=
  kid s id y /\ uncommitted (s + 1) < support (s + 1) y /\
  forall z, kid s id z -> z <> y -> uncommitted (s + 1) < ahead (s + 1) y z.

Inductive chosen : Z -> Z -> Prop :=
  | chosen_genesis : chosen 0 (lineage genesis 0)
  | chosen_step s id y : chosen s id -> committed s id y -> chosen (s + 1) y.

Definition preferred (s id : Z) : Prop := chosen s id /\ forall y, ~ committed s id y.

Hypothesis measure_nonneg : forall b, 0 <= measure (before b).

Lemma committed_unique s id y y' : committed s id y -> committed s id y' -> y = y'.
Proof.
  intros (Hk & _ & Hy) (Hk' & _ & Hy'). destruct (Z.eq_dec y y') as [|Hne]; [assumption|].
  specialize (Hy y' Hk' (not_eq_sym Hne)). specialize (Hy' y Hk Hne). unfold ahead, uncommitted in *.
  pose proof (measure_nonneg (Z.max (s + 1) largest_issued)).
  destruct (Z.ltb_spec y' y), (Z.ltb_spec y y'); lia.
Qed.

Lemma chosen_seq s id : chosen s id -> 0 <= s.
Proof. induction 1; lia. Qed.

Lemma chosen_inv s id : chosen s id -> s = 0 /\ id = lineage genesis 0 \/
  exists id', chosen (s - 1) id' /\ committed (s - 1) id' id.
Proof. destruct 1 as [|s id y Hc Hy]; [auto|]. right. exists id. rewrite Z.add_simpl_r. auto. Qed.

Lemma chosen_det s : 0 <= s -> forall id id', chosen s id -> chosen s id' -> id = id'.
Proof.
  intros Hs. pattern s. apply Zlt_0_ind; [|exact Hs]. clear s Hs. intros s IH Hs id id' H1 H2.
  apply chosen_inv in H1 as [[-> ->]|(p & Hp & Hc)]; apply chosen_inv in H2 as [[Hz ->]|(p' & Hp' & Hc')]; try reflexivity.
  - apply chosen_seq in Hp'. lia.
  - subst s. apply chosen_seq in Hp. lia.
  - pose proof (chosen_seq _ _ Hp). assert (p = p') as <- by (apply (IH (s - 1)); auto; lia).
    eapply committed_unique; eauto.
Qed.

Lemma chosen_prefix s id : chosen s id -> forall s', 0 <= s' <= s -> exists id', chosen s' id' /\
  (s' < s -> exists y, committed s' id' y).
Proof.
  induction 1 as [|s id y Hc IH Hy]; intros s' Hs'.
  - exists (lineage genesis 0). replace s' with 0 by lia. split; [constructor|lia].
  - destruct (Z.eq_dec s' (s + 1)) as [->|Hne]; [exists y; split; [econstructor; eauto|lia]|].
    destruct (IH s') as (id' & Hid & Hnext); [lia|]. exists id'. split; [exact Hid|]. intros _.
    destruct (Z.eq_dec s' s) as [->|]; [|apply Hnext; lia]. exists y.
    rewrite (chosen_det s (chosen_seq _ _ Hc) id' id Hid Hc). exact Hy.
Qed.

(** The rule picks one ledger. *)
Lemma preferred_unique s id s' id' : preferred s id -> preferred s' id' -> s = s' /\ id = id'.
Proof.
  intros [Hc Hn] [Hc' Hn']. pose proof (chosen_seq _ _ Hc). pose proof (chosen_seq _ _ Hc').
  assert (s = s') as <-.
  { destruct (Z.lt_trichotomy s s') as [Hlt|[|Hlt]]; [|assumption|]; exfalso.
    - destruct (chosen_prefix _ _ Hc' s) as (p & Hp & Hy); [lia|]. destruct (Hy Hlt) as [y Hy'].
      rewrite (chosen_det s ltac:(lia) p id Hp Hc) in Hy'. exact (Hn y Hy').
    - destruct (chosen_prefix _ _ Hc s') as (p & Hp & Hy); [lia|]. destruct (Hy Hlt) as [y Hy'].
      rewrite (chosen_det s' ltac:(lia) p id' Hp Hc') in Hy'. exact (Hn' y Hy'). }
  split; [reflexivity|]. eapply chosen_det; eauto.
Qed.
End Rule.

(** ** The supports by sequence *)

Section Supports.
Context `{TrieLedger L, !TrieLedgerLaws L} {E : Type}.
Variable t : tree L.
Hypothesis t_shaped : shaped t.
Hypothesis t_fits : branch t <= max_of U32.

Definition below (b : Z) (es : list (Z * Z)) : Z :=
  fold_right (fun e acc => (if e.1 <? b then e.2 else 0) + acc) 0 es.

Definition key_lt (a b : Z * Z) : Prop := a.1 < b.1.

(** [u] is the support below [b], [rest] has the supports from there on. *)
Record pending (b u : Z) (rest : list (Z * Z)) : Prop := {
  pd_sorted : StronglySorted key_lt rest;
  pd_from : Forall (fun e => b <= e.1) rest;
  pd_total : forall b', b <= b' -> total (before b') t = u + below b' rest
}.

Lemma below_none b es : Forall (fun e => b <= e.1) es -> below b es = 0.
Proof.
  induction 1 as [|e es He _ IH]; [reflexivity|]. cbn [below fold_right]. fold (below b es). rewrite IH.
  destruct (Z.ltb_spec e.1 b); lia.
Qed.

Lemma before_bounds b : 0 <= total (before b) t <= max_of U32.
Proof.
  split.
  - apply shaped_nonneg; [|exact t_shaped]. intros sp. unfold before. destruct (_ <? _); lia.
  - transitivity (branch t); [|exact t_fits]. apply total_mono; [|exact t_shaped]. intros sp. unfold before. destruct (_ <? _); lia.
Qed.

Lemma pending_now b u rest : pending b u rest -> u = total (before b) t.
Proof. intros [_ Hf Ht]. rewrite (Ht b) by lia. rewrite below_none by exact Hf. lia. Qed.

Lemma pending_pop b u s v rest : pending b u ((s, v) :: rest) -> pending (s + 1) (u + v) rest.
Proof.
  intros [Hs Hf Ht]. apply StronglySorted_inv in Hs as [Hs Hlt]. apply Forall_cons in Hf as [Hb Hf]. constructor.
  - exact Hs.
  - eapply Forall_impl; [exact Hlt|]. unfold key_lt. cbn. lia.
  - intros b' Hb'. rewrite Ht by (cbn in Hb; lia). cbn [below fold_right fst snd]. fold (below b' rest).
    destruct (Z.ltb_spec s b'); lia.
Qed.

Lemma pending_skip b u rest b' : pending b u rest -> b <= b' -> Forall (fun e => b' <= e.1) rest -> pending b' u rest.
Proof. intros [Hs _ Ht] Hb Hf. constructor; [exact Hs|exact Hf|]. intros b2 Hb2. apply Ht. lia. Qed.

Lemma sorted_from b s v rest : b <= s -> StronglySorted key_lt ((s, v) :: rest) -> Forall (fun e => b <= e.1) ((s, v) :: rest).
Proof.
  intros Hb [_ Hlt]%StronglySorted_inv. constructor; [exact Hb|]. eapply Forall_impl; [exact Hlt|]. unfold key_lt. cbn. lia.
Qed.

Lemma take_below_spec rest : forall b u b', pending b u rest -> b <= b' ->
  exists rest', take_below b' u rest = Ok (E := E) (total (before b') t, rest') /\ pending b' (total (before b') t) rest'.
Proof.
  induction rest as [|[s v] rest IH]; intros b u b' Hp Hb; cbn [take_below].
  - pose proof (pending_skip _ _ _ b' Hp Hb (Forall_nil_2 _)) as Hp'. rewrite <- (pending_now _ _ _ Hp'). eauto.
  - destruct (Z.ltb_spec s b') as [Hlt|Hge].
    + pose proof (pending_pop _ _ _ _ _ Hp) as Hp'. pose proof (before_bounds (s + 1)) as Hbd.
      pose proof (pending_now _ _ _ Hp'). rewrite plain_ok by (cbn [min_of]; lia). cbn [bind]. apply (IH (s + 1)); [exact Hp'|lia].
    + assert (pending b' u ((s, v) :: rest)) as Hp' by (apply (pending_skip b); [exact Hp|exact Hb|apply sorted_from; [lia|apply Hp]]).
      rewrite <- (pending_now _ _ _ Hp'). eauto.
Qed.

Section Advance.
Variable lg : Z.
Abbreviation U q := (uncommitted (fun f => total f t) lg q).

Lemma advance_span_spec stop_ br rest : forall n u, pending (Z.max n lg) u rest -> n <= stop_ ->
  exists n' rest', advance_span stop_ br n u rest = Ok (E := E) (n', U n', rest') /\
    pending (Z.max n' lg) (U n') rest' /\ n <= n' <= stop_ /\
    (forall q, n <= q < n' -> U q < br) /\ (n' < stop_ -> br <= U n').
Proof.
  induction rest as [|[s v] rest IH]; intros n u Hp Hn; cbn [advance_span].
  all: pose proof (pending_now _ _ _ Hp) as Hu; fold (U n) in Hu.
  all: destruct ((n <? stop_) && (br >? u)) eqn:Hgo;
    [apply andb_true_iff in Hgo as [Hlt%Z.ltb_lt Hbr%Z.gtb_lt]|
     apply andb_false_iff in Hgo as [Hge%Z.ltb_ge|Hbr];
     exists n; eexists; rewrite Hu at 1; (split; [reflexivity|]); rewrite <- Hu; (split; [exact Hp|]); (split; [lia|]); (split; [lia|]);
     rewrite ?Z.gtb_ltb, ?Z.ltb_ge in *; lia].
  - exists stop_, []. assert (U stop_ = u) as ->.
    { unfold uncommitted. rewrite (pd_total _ _ _ Hp) by lia. cbn. lia. }
    split; [reflexivity|]. split; [apply (pending_skip (Z.max n lg)); [exact Hp|lia|constructor]|]. split; [lia|].
    split; [|lia]. intros q Hq. unfold uncommitted. rewrite (pd_total _ _ _ Hp) by lia. cbn. lia.
  - pose proof (pd_from _ _ _ Hp) as [Hs _]%Forall_cons. cbn [fst] in Hs.
    assert (forall q, n <= q -> Z.max q lg <= s -> U q = u) as Hsame.
    { intros q Hq Hqs. unfold uncommitted. rewrite (pd_total _ _ _ Hp) by lia.
      rewrite below_none; [lia|]. apply sorted_from; [lia|apply Hp]. }
    destruct (Z.ltb_spec s stop_) as [Hss|Hss].
    + pose proof (pending_pop _ _ _ _ _ Hp) as Hp'. pose proof (before_bounds (s + 1)) as Hbd.
      pose proof (pending_now _ _ _ Hp'). rewrite plain_ok by (cbn [min_of]; lia). cbn [bind].
      destruct (IH (s + 1) (u + v)) as (n' & rest' & -> & Hp2 & Hn' & Hq & Hend); [|lia|].
      { replace (Z.max (s + 1) lg) with (s + 1) by lia. exact Hp'. }
      exists n', rest'. split; [reflexivity|]. split; [exact Hp2|]. split; [lia|]. split; [|exact Hend].
      intros q Hq2. destruct (Z.le_gt_cases q s); [|apply Hq; lia]. rewrite Hsame by lia. exact Hbr.
    + exists stop_, ((s, v) :: rest). assert (U stop_ = u) as ->.
      { destruct (Z.le_gt_cases lg s); [apply Hsame; lia|].  lia. }
      split; [reflexivity|]. split; [|split; [lia|split; [|lia]]].
      * apply (pending_skip (Z.max n lg)); [exact Hp|lia|]. apply sorted_from; [lia|apply Hp].
      * intros q Hq. rewrite Hsame by lia. exact Hbr.
Qed.
End Advance.
End Supports.

(** ** The children of a ledger in the tree *)

Section Kids.
Context `{TrieLedger L, !TrieLedgerLaws L} {E : Type}.
Implicit Types (ns : list (Node L)) (t h : tree L) (ctx : list (frame L)) (sp x : Span L).

Lemma total_some g t : total g t <> 0 -> exists x, x ∈ spans t /\ g x <> 0.
Proof.
  intros Hne. destruct (decide (Exists (fun x => g x <> 0) (spans t))) as [Hex|Hno].
  - apply Exists_exists in Hex. exact Hex.
  - destruct Hne. apply total_zero. intros x Hx. destruct (Z.eq_dec (g x) 0); [assumption|].
    destruct Hno. apply Exists_exists. eauto.
Qed.

Lemma total_ext g g' t : (forall x, x ∈ spans t -> g x = g' x) -> total g t = total g' t.
Proof.
  induction t as [i sp tip kids IH] using tree_ind'. intros Hg. rewrite !total_T, (Hg sp) by left. f_equal.
  assert (forall x, x ∈ all_spans kids -> g x = g' x) as Hk by (intros x Hx; apply Hg; now right). clear Hg.
  induction kids as [|k kids IHk]; [reflexivity|]. apply Forall_cons in IH as [IH1 IH2]. rewrite !totals_cons.
  cbn in Hk. setoid_rewrite elem_of_app in Hk. rewrite IH1, IHk; auto.
Qed.

Lemma step_at_iff s id y sp : step_at s id y sp <> 0 <-> passes s id sp <> 0 /\ passes (s + 1) y sp <> 0.
Proof. unfold step_at. nia. Qed.

Lemma ext_step_at s id y : 0 <= s -> ext (step_at s id y).
Proof.
  intros Hs sp sp' H1 H2. unfold step_at. now rewrite (ext_passes s id Hs sp sp'), (ext_passes (s + 1) y ltac:(lia) sp sp').
Qed.

Lemma ext_before b : ext (before b).
Proof. intros sp sp' Hst _. unfold before. now rewrite Hst. Qed.

Lemma span_of_ok t : shaped t -> span_ok (span_of t).
Proof. destruct t. intros Hs%shaped_T. tauto. Qed.

Lemma full_pos t : shaped t -> compact t -> full t -> 0 < branch t.
Proof.
  induction t as [i sp tip kids IH] using tree_ind'. intros Hs Hc Hf. rewrite branch_T.
  apply shaped_T in Hs as (_ & Htip & _ & Hs). apply compact_T in Hc.
  assert (0 <= branches kids /\ (kids <> [] -> 0 < branches kids)) as [H0 H1].
  { clear Hf. induction kids as [|k kids IHk]; [split; [reflexivity|congruence]|].
    apply Forall_cons in IH as [IH1 IH2], Hs as [[_ Hs1] Hs2], Hc as [[Hf1 Hc1] Hc2]. rewrite branches_cons.
    destruct (IHk IH2 Hs2 Hc2). specialize (IH1 Hs1 Hc1 Hf1). split; lia. }
  unfold full in Hf. cbn [tip_of kids_of] in Hf. destruct Hf as [Hf|Hf]; [lia|].
  enough (0 < branches kids) by lia. apply H1. now destruct kids.
Qed.

Abbreviation in_tree t := (fun f => total f t).

(** The step from [s] to the next sequence within the span of a node. *)
Lemma kid_inside ctx h s y : shaped (plug ctx h) -> 0 < branch h -> start (span_of h) <= s -> s + 1 < stop (span_of h) ->
  kid (in_tree (plug ctx h)) s (lineage (ledger (span_of h)) s) y <-> y = lineage (ledger (span_of h)) (s + 1).
Proof.
  intros Hsh Hb Hs1 Hs2. pose proof Hsh as [_ Hs]%shaped_plug. pose proof (span_of_ok _ Hs) as [Hok1 Hok2]. unfold kid. split.
  - intros Hk. destruct (total_some (step_at s (lineage (ledger (span_of h)) s) y) (plug ctx h)) as (x & Hx & Hst); [lia|].
    apply step_at_iff in Hst as [Hp1 Hp2]. apply plug_spans in Hx as [Hx|Hx];
      [|destruct Hp1; apply (passes_ctx ctx); [exact Hsh|lia|exact Hx]].
    destruct (spans_below _ Hs x Hx) as (_ & _ & Hag). apply passes_iff in Hp2 as [_ <-]. symmetry.
    apply (agree_down _ _ _ (s + 1)) in Hag; [|lia]. apply Hag.
  - intros ->. rewrite (total_ext _ (passes (s + 1) (lineage (ledger (span_of h)) (s + 1)))).
    + rewrite total_passes by (auto; lia). exact Hb.
    + intros x Hx. unfold step_at. destruct (Z.eq_dec (passes (s + 1) (lineage (ledger (span_of h)) (s + 1)) x) 0) as [->|Hne]; [lia|].
      apply plug_spans in Hx as [Hx|Hx]; [|destruct Hne; apply (passes_ctx ctx); [exact Hsh|lia|exact Hx]].
      destruct (spans_below _ Hs x Hx) as (_ & Hst & Hag). apply (agree_down _ _ _ s) in Hag; [|lia]. destruct Hag as (_ & _ & ->).
      unfold passes at 1. rewrite Z.eqb_refl. destruct (Z.ltb_spec s (stop x)); cbn; lia.
Qed.

Lemma at_kid ctx i sp tip kids k : k ∈ kids -> shaped (plug ctx (T i sp tip kids)) ->
  exists f, plug ctx (T i sp tip kids) = plug (f :: ctx) k /\ start (span_of k) = stop sp /\ span_ok (span_of k) /\ span_ok sp /\
    agree (ledger sp) (ledger (span_of k)) (stop sp - 1).
Proof.
  intros Hk [_ Hs]%shaped_plug. apply list_elem_of_split in Hk as Hsplit. destruct Hsplit as (left & right & ->).
  exists (mkFrame i sp tip left right). apply shaped_T in Hs as (Hok & _ & _ & Hs). rewrite Forall_forall in Hs.
  destruct (Hs k Hk) as [Hc Hsk]. pose proof (span_of_ok _ Hsk) as Hokk.
  split; [reflexivity|]. split; [apply Hc|]. split; [exact Hokk|]. split; [exact Hok|]. now apply continues_agree.
Qed.

Lemma support_end ctx i sp tip kids k : shaped (plug ctx (T i sp tip kids)) -> k ∈ kids ->
  support (in_tree (plug ctx (T i sp tip kids))) (stop sp) (line_id (span_of k)) = branch k.
Proof.
  intros Hs Hk. destruct (at_kid ctx i sp tip kids k Hk Hs) as (f & Heq & Hst & [Hok _] & _). unfold support. rewrite Heq in *.
  rewrite <- (total_passes (f :: ctx) k (stop sp) Hs) by lia. unfold line_id. now rewrite Hst.
Qed.

(** The step from the end of the span of a node to its children. *)
Lemma kid_end ctx i sp tip kids y : shaped (plug ctx (T i sp tip kids)) -> Forall (fun k => 0 < branch k) kids ->
  kid (in_tree (plug ctx (T i sp tip kids))) (stop sp - 1) (lineage (ledger sp) (stop sp - 1)) y <->
  exists k, k ∈ kids /\ y = line_id (span_of k).
Proof.
  intros Hsh Hb. pose proof Hsh as [_ Hs]%shaped_plug. pose proof (span_of_ok _ Hs) as [Hok1 Hok2]. cbn [span_of] in *.
  unfold kid. split.
  - intros Hk. destruct (total_some (step_at (stop sp - 1) (lineage (ledger sp) (stop sp - 1)) y) (plug ctx (T i sp tip kids)))
      as (x & Hx & Hst); [lia|]. apply step_at_iff in Hst as [Hp1 Hp2].
    apply plug_spans in Hx as [Hx|Hx]; [|destruct Hp1; apply (passes_ctx ctx (T i sp tip kids)); [exact Hsh|cbn; lia|exact Hx]].
    apply passes_iff in Hp2 as [Hlt <-]. replace (stop sp - 1 + 1) with (stop sp) in * by lia. cbn [spans] in Hx.
    apply elem_of_cons in Hx as [->|(k & Hin & Hx)%elem_of_all_spans]; [lia|]. exists k. split; [exact Hin|].
    destruct (at_kid ctx i sp tip kids k Hin Hsh) as (f & Heq & Hst & [Hokk _] & _). rewrite Heq in Hsh.
    apply shaped_plug in Hsh as [_ Hsk]. destruct (spans_below _ Hsk x Hx) as (_ & _ & Hag).
    apply (agree_down _ _ _ (stop sp)) in Hag; [|lia]. unfold line_id. rewrite Hst. symmetry. apply Hag.
  - intros (k & Hin & ->). rewrite Forall_forall in Hb. pose proof (support_end ctx i sp tip kids k Hsh Hin) as Hsup.
    unfold support in Hsup. rewrite (total_ext _ (passes (stop sp) (line_id (span_of k)))); [rewrite Hsup; auto|].
    destruct (at_kid ctx i sp tip kids k Hin Hsh) as (f & Heq & Hst & [Hokk _] & _ & Hag0). rewrite Heq in *.
    apply shaped_plug in Hsh as Hsh'. destruct Hsh' as [_ Hsk].
    intros x Hx. unfold step_at. replace (stop sp - 1 + 1) with (stop sp) by lia.
    destruct (Z.eq_dec (passes (stop sp) (line_id (span_of k)) x) 0) as [->|Hne]; [lia|].
    apply plug_spans in Hx as [Hx|Hx];
      [|destruct Hne; unfold line_id; rewrite Hst; apply (passes_ctx (f :: ctx)); [exact Hsh|lia|exact Hx]].
    destruct (spans_below _ Hsk x Hx) as (_ & Hstx & Hag). apply (agree_down _ _ _ (stop sp - 1)) in Hag; [|lia].
    destruct (agree_trans _ _ _ _ Hag0 Hag) as (_ & _ & ->).
    unfold passes at 1. rewrite Z.eqb_refl. destruct (Z.ltb_spec (stop sp - 1) (stop x)); cbn; lia.
Qed.

(** *** The best child *)

Definition key_of (k : tree L) : Z * Z * nat := (branch k, line_id (span_of k), root_of k).
Definition code_key (k : tree L) : Z * Z * nat := (branch k, start_id (span_of k), root_of k).
Definition lead (k z : tree L) : Z :=
  branch k - branch z + (if line_id (span_of z) <? line_id (span_of k) then 1 else 0).

#[local] Instance key_ge_total : Total key_ge.
Proof. intros [[a b] i] [[a' b'] i']. unfold key_ge. cbn. lia. Qed.
#[local] Instance key_ge_trans : Transitive key_ge.
Proof. intros [[a b] i] [[a' b'] i'] [[a2 b2] i2]. unfold key_ge. cbn. lia. Qed.

Lemma keys_of_spec ns q kids : Forall (repr ns q) kids -> keys_of ns (map root_of kids) = Ok (E := E) (map code_key kids).
Proof.
  induction 1 as [|k kids Hk _ IH]; [reflexivity|]. cbn [map keys_of]. unfold at_. rewrite (repr_lookup _ _ _ Hk).
  cbn [bind]. rewrite IH. reflexivity.
Qed.

(** [k] beats all others by [margin] or more, and one of them by no more. *)
Definition best_by (kids : list (tree L)) (k : tree L) (margin : Z) : Prop :=
  k ∈ kids /\ 0 < margin <= branch k /\
  (forall z, z ∈ kids -> line_id (span_of z) <> line_id (span_of k) -> margin <= lead k z) /\
  (margin = branch k \/ exists z, z ∈ kids /\ line_id (span_of z) <> line_id (span_of k) /\ margin = lead k z).

Lemma sorted_best k1 k2 rest : StronglySorted key_ge (map key_of (k1 :: k2 :: rest)) -> 0 < branch k2 ->
  NoDup (start_ids (k1 :: k2 :: rest)) -> best_by (k1 :: k2 :: rest) k1 (lead k1 k2).
Proof.
  intros Hs Hb Hnd. cbn [map] in Hs. apply StronglySorted_inv in Hs as [Hs H1]. apply StronglySorted_inv in Hs as [_ H2].
  apply Forall_cons in H1 as [H12 _]. cbn [start_ids map] in Hnd. apply NoDup_cons in Hnd as [Hid _].
  apply not_elem_of_cons in Hid as [Hid _]. unfold key_ge in H12. cbn in H12. split; [left|]. unfold lead.
  split; [|split].
  - destruct (Z.ltb_spec (line_id (span_of k2)) (line_id (span_of k1))); lia.
  - intros z [->|[->|Hz]%elem_of_cons]%elem_of_cons Hne; [congruence|lia|].
    rewrite Forall_forall in H2. specialize (H2 (key_of z)).
    assert (key_ge (key_of k2) (key_of z)) as Hge by (apply H2, list_elem_of_In, in_map, list_elem_of_In; exact Hz).
    unfold key_ge in Hge. cbn in Hge.
    destruct (Z.ltb_spec (line_id (span_of k2)) (line_id (span_of k1))), (Z.ltb_spec (line_id (span_of z)) (line_id (span_of k1))); lia.
  - right. exists k2. split; [right; left|]. split; [congruence|reflexivity].
Qed.

(** The identifiers of several children are known, those of an only child do not
    matter. *)
Lemma keys_known i sp tip kids : shaped (T i sp tip kids) -> (2 <= length kids)%nat -> map code_key kids = map key_of kids.
Proof.
  intros Hs Hlen. pose proof (kids_above i sp tip kids Hs Hlen) as Hfl. apply shaped_T in Hs as (_ & _ & _ & Hk).
  clear Hlen. induction Hk as [|k kids [[Hst _] Hsk] _ IH]; [reflexivity|]. cbn [map]. rewrite IH. f_equal.
  unfold code_key, key_of, start_id, line_id. pose proof (span_of_ok _ Hsk) as [Hok1 Hok2]. rewrite ancestor_known by lia. reflexivity.
Qed.

Lemma best_child_spec ns q kids : Forall (repr ns q) kids -> NoDup (start_ids kids) ->
  ((2 <= length kids)%nat -> map code_key kids = map key_of kids) ->
  Forall (fun k => 0 < branch k <= max_of U32) kids ->
  kids = [] /\ best_child ns (map root_of kids) = Ok (E := E) None \/
  exists k margin, best_child ns (map root_of kids) = Ok (E := E) (Some (root_of k, margin)) /\ best_by kids k margin.
Proof.
  intros Hr Hnd Hknown Hb. unfold best_child. rewrite (keys_of_spec _ _ _ Hr). cbn [bind].
  destruct kids as [|k [|k' kids]]; [left; auto|right..].
  - exists k, (branch k). split; [reflexivity|]. apply Forall_cons in Hb as [Hb _]. split; [left|]. split; [lia|].
    split; [|auto]. intros z Hz%list_elem_of_singleton. congruence.
  - rewrite Hknown by (cbn; lia). clear Hknown. set (all := k :: k' :: kids) in *. change (map key_of all) with (key_of k :: key_of k' :: map key_of kids) at 1.
    cbv iota beta. pose proof (merge_sort_Permutation key_ge (map key_of all)) as Hperm.
    pose proof (StronglySorted_merge_sort key_ge (map key_of all)) as Hsort.
    apply Permutation_map_inv in Hperm as (all' & Heq & Hp). rewrite Heq in *.
    assert (length all' = S (S (length kids))) as Hlen by (apply Permutation_length in Hp; exact (eq_sym Hp)).
    destruct all' as [|k1 [|k2 rest]]; [discriminate..|]. cbn [map]. unfold key_of at 1 2.
    rewrite Hp in Hb. assert (NoDup (start_ids (k1 :: k2 :: rest))) as Hnd' by (unfold start_ids in *; rewrite <- Hp; exact Hnd).
    apply Forall_cons in Hb as [Hb1 [Hb2 _]%Forall_cons]. pose proof (sorted_best k1 k2 rest Hsort (proj1 Hb2) Hnd') as Hbest.
    assert (forall z, z ∈ all <-> z ∈ k1 :: k2 :: rest) as Hin by (intros z; now rewrite Hp).
    exists k1, (lead k1 k2). split; [|unfold best_by in *; setoid_rewrite Hin; exact Hbest].
    destruct Hbest as (_ & Hm & _). unfold lead, key_of in *. rewrite Z.gtb_ltb.
    destruct (Z.ltb_spec (line_id (span_of k2)) (line_id (span_of k1))).
    + rewrite plain_ok by (cbn [min_of]; lia). cbn [bind]. rewrite plain_ok by (cbn [min_of]; lia). reflexivity.
    + rewrite plain_ok by (cbn [min_of]; lia). cbn [bind]. now rewrite Z.add_0_r.
Qed.

Section Commit.
Variable lg : Z.
Abbreviation U t q := (uncommitted (in_tree t) lg q).

Lemma U_nonneg t q : shaped t -> 0 <= U t q.
Proof. intros Hs. apply shaped_nonneg; [|exact Hs]. intros sp. unfold before. destruct (_ <? _); lia. Qed.

Lemma committed_inside ctx h s y : shaped (plug ctx h) -> 0 < branch h -> start (span_of h) <= s -> s + 1 < stop (span_of h) ->
  committed (in_tree (plug ctx h)) lg s (lineage (ledger (span_of h)) s) y <->
  y = lineage (ledger (span_of h)) (s + 1) /\ U (plug ctx h) (s + 1) < branch h.
Proof.
  intros Hs Hb H1 H2. unfold committed. setoid_rewrite (kid_inside ctx h s _ Hs Hb H1 H2).
  assert (support (in_tree (plug ctx h)) (s + 1) (lineage (ledger (span_of h)) (s + 1)) = branch h) as Hsup
    by (apply total_passes; [exact Hs|lia]).
  split; [intros (-> & Hu & _); now rewrite Hsup in Hu|]. intros [-> Hu]. rewrite Hsup. split; [reflexivity|].
  split; [exact Hu|congruence].
Qed.

Lemma committed_end ctx i sp tip kids k margin y : shaped (plug ctx (T i sp tip kids)) -> Forall (fun k => 0 < branch k) kids ->
  best_by kids k margin ->
  committed (in_tree (plug ctx (T i sp tip kids))) lg (stop sp - 1) (lineage (ledger sp) (stop sp - 1)) y <->
  y = line_id (span_of k) /\ U (plug ctx (T i sp tip kids)) (stop sp) < margin.
Proof.
  intros Hs Hb (Hk & Hm & Hlead & Htight). unfold committed, ahead. setoid_rewrite (kid_end ctx i sp tip kids _ Hs Hb).
  replace (stop sp - 1 + 1) with (stop sp) by lia. pose proof (U_nonneg _ (stop sp) Hs) as HU.
  set (t := plug ctx (T i sp tip kids)) in *.
  assert (forall z, z ∈ kids -> support (in_tree t) (stop sp) (line_id (span_of z)) = branch z) as Hsup
    by (intros z Hz; now apply support_end). split.
  - intros ((k' & Hk' & ->) & Hu & Hall). rewrite (Hsup k' Hk') in Hu.
    destruct (Z.eq_dec (line_id (span_of k')) (line_id (span_of k))) as [Heq|Hne].
    + split; [exact Heq|]. assert (branch k' = branch k) as Hbr by (rewrite <- (Hsup k' Hk'), <- (Hsup k Hk); congruence).
      destruct Htight as [->|(z & Hz & Hzne & ->)]; [lia|]. specialize (Hall (line_id (span_of z))).
      rewrite (Hsup z Hz), (Hsup k' Hk'), Hbr, Heq in Hall. unfold lead. apply Hall; [eauto|congruence].
    + specialize (Hall (line_id (span_of k))). rewrite (Hsup k Hk), (Hsup k' Hk') in Hall.
      specialize (Hall ltac:(eauto) (not_eq_sym Hne)). specialize (Hlead k' Hk' Hne). unfold lead in Hlead.
      destruct (Z.ltb_spec (line_id (span_of k')) (line_id (span_of k))), (Z.ltb_spec (line_id (span_of k)) (line_id (span_of k'))); lia.
  - intros [-> Hu]. split; [eauto|]. rewrite (Hsup k Hk). split; [lia|]. intros z (k' & Hk' & ->) Hne. rewrite (Hsup k' Hk').
    specialize (Hlead k' Hk' Hne). unfold lead in Hlead. lia.
Qed.

Lemma committed_leaf ctx i sp tip y : shaped (plug ctx (T i sp tip [])) ->
  ~ committed (in_tree (plug ctx (T i sp tip []))) lg (stop sp - 1) (lineage (ledger sp) (stop sp - 1)) y.
Proof.
  intros Hs (Hk & _). apply (kid_end ctx i sp tip [] y Hs) in Hk; [|constructor]. destruct Hk as (k & Hk & _). inversion Hk.
Qed.

(** The rule goes through a span as long as the branch outweighs what is
    uncommitted. *)
Lemma chosen_inside ctx h n : shaped (plug ctx h) -> 0 < branch h ->
  chosen (in_tree (plug ctx h)) lg (start (span_of h)) (line_id (span_of h)) ->
  start (span_of h) + 1 <= n <= stop (span_of h) ->
  (forall q, start (span_of h) + 1 <= q < n -> U (plug ctx h) q < branch h) ->
  chosen (in_tree (plug ctx h)) lg (n - 1) (lineage (ledger (span_of h)) (n - 1)).
Proof.
  intros Hs Hb Hc Hn Hq. remember (Z.to_nat (n - 1 - start (span_of h))) as d eqn:Hd. revert n Hn Hq Hd.
  induction d as [|d IH]; intros n Hn Hq Hd.
  - replace (n - 1) with (start (span_of h)) by lia. exact Hc.
  - specialize (IH (n - 1) ltac:(lia) ltac:(intros q Hq'; apply Hq; lia) ltac:(lia)).
    replace (n - 1) with (n - 1 - 1 + 1) at 1 by lia. eapply chosen_step; [exact IH|].
    apply committed_inside; [exact Hs|exact Hb|lia..|]. replace (n - 1 - 1 + 1) with (n - 1) by lia. split; [reflexivity|]. apply Hq. lia.
Qed.
End Commit.
End Kids.

(** ** The walk *)

Section Walk.
Context `{TrieLedger L, !TrieLedgerLaws L} {E : Type}.
Implicit Types (ns : list (Node L)) (t h : tree L) (ctx : list (frame L)) (sp x : Span L).
Abbreviation in_tree t := (fun f => total f t).

(** The tip stands for an ancestor its ledger has and knows. *)
Definition tip_ok (p : SpanTip L) : Prop :=
  0 <= tip_seq p <= seq (tip_ledger p) /\ tip_id p = lineage (tip_ledger p) (tip_seq p) /\
  (tip_seq p = 0 \/ floor <= tip_seq p).

Lemma kids_pos t : shaped t -> compact t -> branch t <= max_of U32 ->
  Forall (fun k => 0 < branch k <= max_of U32) (kids_of t).
Proof.
  destruct t as [i sp tip kids]. intros Hs Hc Hf. apply compact_T in Hc. apply shaped_T in Hs as (_ & Htip & _ & Hs).
  rewrite branch_T in Hf. cbn [kids_of]. apply Forall_forall. intros k Hk.
  pose proof Hs as Hs'. pose proof Hc as Hc'. rewrite Forall_forall in Hs', Hc'. destruct (Hs' k Hk), (Hc' k Hk).
  split; [now apply full_pos|]. apply list_elem_of_split in Hk as (l1 & l2 & ->). rewrite branches_app, branches_cons in Hf.
  apply Forall_app in Hs as [Hs1 [_ Hs2]%Forall_cons]. apply branches_nonneg in Hs1, Hs2. lia.
Qed.

Lemma branch_le_plug ctx h : shaped (plug ctx h) -> branch h <= branch (plug ctx h).
Proof.
  revert h. induction ctx as [|f ctx IH]; intros h Hs; cbn [plug] in *; [lia|]. etransitivity; [|apply IH, Hs].
  apply shaped_plug in Hs as [_ Hs]. unfold plug1 in *. apply shaped_T in Hs as (_ & Htip & _ & Hk).
  rewrite branch_T, branches_app, branches_cons. apply Forall_app in Hk as [Hl [_ Hr]%Forall_cons]. apply branches_nonneg in Hl, Hr. lia.
Qed.

Lemma total_plus (f g : Span L -> Z) t : total (fun x => f x + g x) t = total f t + total g t.
Proof.
  induction t as [i sp tip kids IH] using tree_ind'. rewrite !total_T.
  assert (totals (fun x => f x + g x) kids = totals f kids + totals g kids); [|lia].
  induction kids as [|k kids IHk]; [reflexivity|]. apply Forall_cons in IH as [IH1 IH2]. rewrite !totals_cons, IH1, IHk by exact IH2. lia.
Qed.

(** No support is at a sequence below the floor, other than that of the genesis
    ledger, so that the walk does not end there. *)
Lemma inside_known tr t lg ctx h n : trie_ok tr t -> plug ctx h = t -> start (span_of h) <= n - 1 -> n < stop (span_of h) -> 0 < n - 1 ->
  chosen (in_tree t) lg (n - 1) (lineage (ledger (span_of h)) (n - 1)) -> branch h <= uncommitted (in_tree t) lg n -> floor <= n - 1.
Proof.
  intros Hok Hplug Hst Hlt Hpos Hch Hu. destruct (Z.le_gt_cases floor (n - 1)) as [|Hfl]; [assumption|]. exfalso.
  pose proof (ok_shaped _ _ Hok) as Hs. apply chosen_inv in Hch as [[Hz _]|(id' & _ & (_ & Hc & _))]; [lia|].
  rewrite Z.sub_add in Hc. unfold support in Hc. rewrite <- Hplug in Hc. rewrite total_passes in Hc by (rewrite ?Hplug; auto; lia). rewrite Hplug in Hc.
  assert (uncommitted (in_tree t) lg n <= uncommitted (in_tree t) lg (n - 1)); [|lia]. unfold uncommitted.
  transitivity (total (fun x => before (Z.max (n - 1) lg) x + low x) t); [apply total_mono; [|exact Hs]|rewrite total_plus, (ok_grounded _ _ Hok); lia].
  intros x. unfold before, low. destruct (Z.ltb_spec (stop x - 1) (Z.max n lg)), (Z.ltb_spec (stop x - 1) (Z.max (n - 1) lg)),
    (Z.ltb_spec 0 (stop x - 1)), (Z.ltb_spec (stop x - 1) floor); cbn; lia.
Qed.

Lemma preferred_loop_spec tr t lg fuel : trie_ok tr t ->
  forall ctx h b u rest, plug ctx h = t -> (length (indices h) < fuel)%nat -> 0 < branch h ->
  (start (span_of h) = 0 -> stop (span_of h) = 1) ->
  pending t b u rest -> b <= Z.max (start (span_of h) + 1) lg ->
  chosen (in_tree t) lg (start (span_of h)) (line_id (span_of h)) ->
  exists p, preferred_loop fuel (nodes tr) lg (root_of h) u rest = Ok (E := E) (Some p) /\ tip_ok p /\
    preferred (in_tree t) lg (tip_seq p) (tip_id p).
Proof.
  intros Hok. pose proof (ok_models _ _ Hok) as Hm. pose proof (ok_shaped _ _ Hok) as Hs. pose proof (ok_compact _ _ Hok) as Hc.
  pose proof (ok_fits _ _ Hok) as Hfit. induction fuel as [|fuel IH]; intros ctx h b u rest Hplug Hlen Hb Hgen Hp Hle Hch; [lia|].
  pose proof Hm as Hm0. pose proof Hs as Hs0. pose proof Hc as Hc0. rewrite <- Hplug in Hm0, Hs0, Hc0.
  pose proof Hs0 as [_ Hsh]%shaped_plug. apply compact_plug in Hc0 as (_ & Hch' & _).
  pose proof (span_of_ok _ Hsh) as [Hok1 Hok2]. pose proof (seq_nonneg (ledger (span_of h))).
  cbn [preferred_loop]. rewrite (hole_at _ _ _ Hm0). cbn [bind span branch_support_of children].
  destruct (take_below_spec (E := E) t Hs Hfit rest b u _ Hp Hle) as (rest1 & -> & Hp1). cbn [bind].
  destruct (advance_span_spec (E := E) t Hs Hfit lg (stop (span_of h)) (branch h) rest1 _ _ Hp1) as (n & rest2 & -> & Hp2 & Hn & Hq & Hend); [lia|].
  cbn [bind]. rewrite <- Hplug in Hch, Hq.
  pose proof (chosen_inside lg ctx h n Hs0 Hb Hch Hn Hq) as Hch1. rewrite Hplug in Hch1.
  destruct (Z.ltb_spec n (stop (span_of h))) as [Hlt|Hge].
  - assert (floor <= n - 1) as Hfl by (apply (inside_known tr t lg ctx h); auto; lia).
    destruct (span_parts (span_of h) n) as [-> _]; [lia|]. eexists. split; [reflexivity|]. cbn. rewrite ancestor_known by lia.
    split; [split; cbn; [lia|rewrite ancestor_known by lia; auto]|]. split; [exact Hch1|]. intros y Hy. rewrite <- Hplug in Hy.
    apply (committed_inside lg ctx h (n - 1) y Hs0 Hb) in Hy as [_ Hu]; [|lia..]. rewrite Z.sub_add in Hu.
    rewrite Hplug in Hu. specialize (Hend Hlt). lia.
  - assert (n = stop (span_of h)) as -> by lia. clear Hge Hend Hq Hn.
    destruct (tips_known tr t (span_of h) Hok) as [Hid Hfl]; [rewrite <- Hplug; apply plug_spans; left; destruct h; left|].
    assert (tip_ok (span_tip (span_of h))) as Htip by (split; cbn; [lia|auto]).
    pose proof (branch_le_plug ctx h Hs0) as Hbl. rewrite Hplug in Hbl.
    pose proof (kids_pos h Hsh Hch' ltac:(lia)) as Hpos.
    destruct h as [i sp tip kids]. cbn [span_of kids_of root_of] in *. cbn [span_tip tip_id] in Hid.
    destruct (hole_lookup _ _ _ _ _ _ Hm0) as ((_ & Hrk & _) & _). rewrite (live_of_spec (nodes tr) _ kids Hrk). cbn [bind].
    pose proof (keys_known i sp tip kids Hsh) as Hkeys. apply shaped_T in Hsh as (_ & _ & Hnd & _). unfold line_tip in Hid. rewrite <- Hid in Hch1.
    destruct (best_child_spec (E := E) (nodes tr) _ kids Hrk Hnd Hkeys Hpos) as [[-> ->]|(k & margin & -> & Hbest)]; cbn [bind].
    + exists (span_tip sp). split; [reflexivity|]. split; [exact Htip|]. split; [exact Hch1|]. cbn. rewrite Hid, <- Hplug.
      intros y. now apply committed_leaf.
    + assert (Forall (fun k => 0 < branch k) kids) as Hpos' by (eapply Forall_impl; [exact Hpos|]; cbn; tauto).
      pose proof (fun y => committed_end lg ctx i sp tip kids k margin y Hs0 Hpos' Hbest) as Hcommit. rewrite Hplug in Hcommit.
      destruct Hbest as (Hk & Hmar & _).
      assert ((margin >? uncommitted (in_tree t) lg (stop sp)) || (uncommitted (in_tree t) lg (stop sp) =? 0)
        = (uncommitted (in_tree t) lg (stop sp) <? margin)) as ->.
      { rewrite Z.gtb_ltb. pose proof (U_nonneg lg t (stop sp) Hs).
        destruct (Z.ltb_spec (uncommitted (in_tree t) lg (stop sp)) margin), (Z.eqb_spec (uncommitted (in_tree t) lg (stop sp)) 0); lia || reflexivity. }
      destruct (Z.ltb_spec (uncommitted (in_tree t) lg (stop sp)) margin) as [Hgo|Hstop].
      * destruct (at_kid ctx i sp tip kids k Hk Hs0) as (f & Heq & Hst & _).
        apply (IH (f :: ctx) k (Z.max (stop sp) lg) (uncommitted (in_tree t) lg (stop sp)) rest2).
        -- congruence.
        -- apply list_elem_of_split in Hk as (l1 & l2 & ->).
           pose proof (length_all_indices (T i sp tip (l1 ++ k :: l2)) l1 l2 k eq_refl). lia.
        -- rewrite Forall_forall in Hpos'. auto.
        -- lia.
        -- exact Hp2.
        -- lia.
        -- rewrite Hst, <- (Z.sub_add 1 (stop sp)). eapply chosen_step; [exact Hch1|]. rewrite Hid. apply Hcommit. auto.
      * exists (span_tip sp). split; [reflexivity|]. split; [exact Htip|]. split; [exact Hch1|].
        cbn. rewrite Hid. intros y [_ Hu]%Hcommit. lia.
Qed.

(** *** The supports the walk starts with *)

#[local] Instance below_perm b : Proper (Permutation ==> eq) (below b).
Proof. intros es es' Hp. unfold below. induction Hp; cbn [fold_right]; lia. Qed.

Lemma below_insert b (m : gmap Z Z) s v : below b (map_to_list (<[s := v]> m)) =
  below b (map_to_list m) + (if s <? b then v - default 0 (m !! s) else 0).
Proof.
  assert (forall m' v', m' !! s = None -> below b (map_to_list (<[s := v']> m')) = (if s <? b then v' else 0) + below b (map_to_list m')) as Hnew
    by (intros m' v' Hnone; rewrite (map_to_list_insert m' s v' Hnone); reflexivity).
  destruct (m !! s) as [x|] eqn:Hx; cbn [from_option].  unfold id.
  - pose proof (Hnew (delete s m) x (lookup_delete_eq m s)) as Hold. rewrite (insert_delete_id m s x Hx) in Hold.
    rewrite <- insert_delete_eq, Hnew, Hold by apply lookup_delete_eq. destruct (s <? b); lia.
  - rewrite Hnew by exact Hx. destruct (s <? b); lia.
Qed.

(** A map that adds a list up by key has the same sums. *)
Definition sum_at (s : Z) (es : list (Z * Z)) : Z := fold_right (fun e acc => (if e.1 =? s then e.2 else 0) + acc) 0 es.

Lemma below_map b es : forall m : gmap Z Z, (forall s, default 0 (m !! s) = sum_at s es) -> below b (map_to_list m) = below b es.
Proof.
  induction es as [|[s v] es IH]; intros m Hm.
  - cbn. assert (Forall (fun e => e.2 = 0) (map_to_list m)) as Hz.
    { apply Forall_forall. intros [s x] Hx%elem_of_map_to_list. specialize (Hm s). rewrite Hx in Hm. exact Hm. }
    induction Hz as [|e es He _ IH]; [reflexivity|]. cbn [below fold_right] in *. fold (below b es) in *.
    rewrite IH, He. destruct (_ <? _); reflexivity.
  - cbn [below fold_right fst snd]. fold (below b es). rewrite <- (IH (<[s := default 0 (m !! s) - v]> m)).
    { rewrite below_insert. destruct (s <? b); lia. }
    intros s'. specialize (Hm s') as Hm'. cbn [sum_at fold_right fst snd] in Hm'. fold (sum_at s' es) in Hm'.
    destruct (Z.eqb_spec s s') as [Heq|Hne]; [subst s'; rewrite lookup_insert_eq; cbn [from_option]; unfold id in *; lia|].
    rewrite lookup_insert_ne by exact Hne. lia.
Qed.

Fixpoint tips t : list (Z * Z) := match t with T _ sp tip kids => (stop sp - 1, tip) :: flat_map tips kids end.

Lemma fold_tips (g : Z -> Z) t : total (fun sp => g (stop sp - 1)) t = fold_right (fun e acc => g e.1 * e.2 + acc) 0 (tips t).
Proof.
  induction t as [i sp tip kids IH] using tree_ind'. rewrite total_T. cbn [tips fold_right fst snd]. f_equal.
  induction kids as [|k kids IHk]; [reflexivity|]. apply Forall_cons in IH as [IH1 IH2]. rewrite totals_cons, IH1, IHk by exact IH2.
  cbn [flat_map]. rewrite fold_right_app. generalize (fold_right (fun e acc => g e.1 * e.2 + acc) 0 (flat_map tips kids)) as r.
  intros r. clear. induction (tips k) as [|e es IHe]; cbn [fold_right]; [lia|]. rewrite <- IHe. lia.
Qed.

Lemma below_tips b t : below b (tips t) = total (before b) t.
Proof.
  rewrite (fold_tips (fun s => if s <? b then 1 else 0)). unfold below. induction (tips t) as [|e es IH]; [reflexivity|].
  cbn [fold_right]. rewrite IH. destruct (_ <? _); lia.
Qed.

Lemma sum_at_tips s t : sum_at s (tips t) = total (at_seq s) t.
Proof.
  rewrite (fold_tips (fun s' => if s' =? s then 1 else 0)). unfold sum_at. induction (tips t) as [|e es IH]; [reflexivity|].
  cbn [fold_right]. rewrite IH. destruct (_ =? _); lia.
Qed.

#[local] Instance seq_le_total : Total seq_le.
Proof. intros a b. unfold seq_le. lia. Qed.
#[local] Instance seq_le_trans : Transitive seq_le.
Proof. intros a b c. unfold seq_le. lia. Qed.

Lemma sorted_strict es : StronglySorted seq_le es -> NoDup es.*1 -> StronglySorted key_lt es.
Proof.
  induction 1 as [|e es _ IH Hle]; intros Hnd; [constructor|]. cbn in Hnd. apply NoDup_cons in Hnd as [Hout Hnd].
  constructor; [auto|]. rewrite Forall_forall in *. intros e' He'. specialize (Hle e' He'). unfold seq_le, key_lt in *.
  assert (e.1 <> e'.1); [|lia]. intros Heq. apply Hout. rewrite Heq. now apply list_elem_of_fmap_2.
Qed.

Lemma entries_pending ss t : seqs_ok ss t -> shaped t -> pending t 0 0 (support_entries ss).
Proof.
  intros Hss Hs. unfold support_entries. pose proof (merge_sort_Permutation seq_le (map_to_list ss)) as Hperm. constructor.
  - apply sorted_strict; [apply StronglySorted_merge_sort; apply _|]. rewrite Hperm. apply NoDup_fst_map_to_list.
  - rewrite Hperm. apply Forall_forall. intros [s v] Hin%elem_of_map_to_list. rewrite Hss in Hin.
    destruct (Z.eqb_spec (total (at_seq s) t) 0) as [|Hne]; [discriminate|].
    destruct (total_some _ _ Hne) as (x & Hx & Hat). destruct (spans_below _ Hs x Hx) as ([Hx1 _] & _). unfold at_seq in Hat. cbn.
    destruct (Z.eqb_spec (stop x - 1) s); lia.
  - intros b' _. rewrite Hperm, (below_map b' (tips t)), below_tips; [lia|]. intros s. rewrite sum_at_tips. now apply seqs_ok_default.
Qed.

Lemma get_preferred_spec tr t lg : trie_ok tr t ->
  branch t = 0 /\ get_preferred lg tr = Ok (E := E) None \/
  exists p, get_preferred lg tr = Ok (E := E) (Some p) /\ tip_ok p /\ preferred (in_tree t) lg (tip_seq p) (tip_id p).
Proof.
  intros Hok. pose proof (ok_models _ _ Hok) as Hm. pose proof Hm as (Hr & Hnd & _). pose proof seq_genesis as Hg.
  unfold get_preferred, is_empty. rewrite <- (ok_root _ _ Hok), (hole_at _ [] t Hm). cbn [bind branch_support_of].
  destruct (Z.eqb_spec (branch t) 0) as [Hz|Hnz]; [left; auto|right].
  pose proof (shaped_nonneg (fun _ => 1) t ltac:(intros; lia) (ok_shaped _ _ Hok)) as Hpos.
  eapply (preferred_loop_spec tr t lg); [exact Hok|apply (eq_refl : plug [] t = t)|..].
  - pose proof (ctx_length _ [] _ Hr Hnd). cbn in *. lia.
  - unfold branch in *. lia.
  - rewrite (ok_genesis _ _ Hok). cbn. lia.
  - apply entries_pending; apply Hok.
  - rewrite (ok_genesis _ _ Hok). cbn. lia.
  - rewrite (ok_genesis _ _ Hok). cbn. unfold line_id. cbn. rewrite Hg. constructor.
Qed.
End Walk.
