(* ===== verification/RclLedger.v ===== *)
(** * RclLedger: validated ledgers of the network as ledgers of the trie

    Models [RclValidatedLedger] of [xrpld/app/src/consensus/rcl_validation.rs]: a
    ledger's hash, its sequence and the hashes of its recent ancestors, with the
    trait functions [ancestor] and [mismatch] the trie calls.

    A ledger only knows the hashes in its skip list; beyond them [ancestor] is
    zero.  Ledgers whose skip lists reach down to one common ancestor, over hashes
    that determine the sequence and the parent, satisfy the laws the trie relies
    on. *)

From stdpp Require Import gmap sorting.
From Stdlib Require Import ZArith Lia.
From S2P Require Import Prelude LedgerTrie TrieTree.
Local Open Scope Z_scope.

Record RclValidatedLedger : Type := mkRcl { ledger_id : Z; ledger_seq : Z; ancestors : list Z }.

Definition rcl_genesis : RclValidatedLedger := mkRcl 0 0 [0].

(** [from_ledger]: the header's sequence and hash, and the skip list of the state
    map ([sfLastLedgerSequence] and [sfHashes]) when it could be read. *)
Definition from_ledger {E} (header_seq header_hash : Z) (skip : option (Z * list Z)) : outcome E RclValidatedLedger :=
  match skip with
  | Some (last, hashes) =>
      if last =? saturate U32 (header_seq - 1) then Ok (mkRcl header_hash header_seq hashes) else Panic
  | None => Ok (mkRcl header_hash header_seq [])
  end.

Definition min_seq (l : RclValidatedLedger) : Z :=
  saturate U32 (ledger_seq l - cast U32 (Z.of_nat (length (ancestors l)))).

Definition rcl_ancestor (l : RclValidatedLedger) (s : Z) : Z :=
  if s >? ledger_seq l then 0
  else if s =? ledger_seq l then ledger_id l
  else if s <? min_seq l then 0
  else nth (Z.to_nat (Z.of_nat (length (ancestors l)) - (ledger_seq l - s))) (ancestors l) 0.

(** The loop of [mismatch], downwards from [current]. *)
Fixpoint mismatch_loop (l other : RclValidatedLedger) (lower : Z) (current : nat) : Z :=
  match current with
  | O => 0
  | S below =>
      if negb (rcl_ancestor l (Z.of_nat current) =? rcl_ancestor other (Z.of_nat current)) && (Z.of_nat current >=? lower)
      then mismatch_loop l other lower below else Z.of_nat current
  end.

Definition rcl_mismatch (l other : RclValidatedLedger) : Z :=
  let lower := Z.max (min_seq l) (min_seq other) in
  let upper := Z.min (ledger_seq l) (ledger_seq other) in
  let current := mismatch_loop l other lower (Z.to_nat upper) in
  if current <? lower then 1 else current + 1.

Section Rcl.
(** Hashes do not collide: a hash determines the sequence of its ledger and the
    hash of the parent ledger. *)
Variable height : Z -> Z.
Variable parent_hash : Z -> Z.

(** The chain up to the ancestor that all ledgers have, at the sequence [base]. *)
Variable base : Z.
Variable line : Z -> Z.

(** A ledger whose known ancestors reach down to that ancestor. *)
Definition windowed (l : RclValidatedLedger) : Prop :=
  l = rcl_genesis \/
  base <= ledger_seq l <= max_of U32 /\ Z.of_nat (length (ancestors l)) < ledger_seq l /\
  min_seq l <= base /\ rcl_ancestor l base = line base /\
  forall s, base < s <= ledger_seq l ->
    height (rcl_ancestor l s) = s /\ parent_hash (rcl_ancestor l s) = rcl_ancestor l (s - 1).

Hypothesis height_zero : height 0 = 0.
Hypothesis base_pos : 1 <= base.
Hypothesis line_height : forall s, 1 <= s <= base -> height (line s) = s.

Definition windowed_ledger : Type := { l : RclValidatedLedger | windowed l }.

#[local] Instance rcl_trie_ledger : TrieLedger windowed_ledger := {
  genesis := exist _ rcl_genesis (or_introl eq_refl);
  seq l := ledger_seq (proj1_sig l);
  ancestor l := rcl_ancestor (proj1_sig l);
  mismatch a b := rcl_mismatch (proj1_sig a) (proj1_sig b)
}.

(** The whole lineage, known or not. *)
Definition rcl_lineage (l : RclValidatedLedger) (s : Z) : Z :=
  if s =? 0 then 0 else if s <? base then line s else rcl_ancestor l s.

(** The index into the ancestors is in range whenever the code uses it. *)
Lemma ancestor_in_range l s : windowed l -> 0 <= s < ledger_seq l -> min_seq l <= s ->
  0 <= Z.of_nat (length (ancestors l)) - (ledger_seq l - s) < Z.of_nat (length (ancestors l)).
Proof.
  intros [->|(Hseq & Hlen & _)] Hs; [cbn in Hs; lia|]. unfold min_seq, saturate. rewrite cast_id by (cbn [min_of]; lia). cbn [min_of]. lia.
Qed.

Lemma ancestor_zero l : windowed l -> rcl_ancestor l 0 = 0.
Proof.
  intros [->|(Hseq & Hlen & _)]; [reflexivity|]. unfold rcl_ancestor, min_seq, saturate. rewrite cast_id by (cbn [min_of]; lia). cbn [min_of].
  destruct (Z.gtb_spec 0 (ledger_seq l)), (Z.eqb_spec 0 (ledger_seq l)); [lia..|].
  destruct (Z.ltb_spec 0 (Z.max 0 (Z.min (max_of U32) (ledger_seq l - Z.of_nat (length (ancestors l)))))); [reflexivity|lia].
Qed.

Lemma windowed_seq l : windowed l -> l = rcl_genesis \/ base <= ledger_seq l.
Proof. intros [->|(Hseq & _)]; [auto|right; lia]. Qed.

Lemma windowed_nonneg l : windowed l -> 0 <= ledger_seq l.
Proof. intros [->|?]%windowed_seq; [cbn|]; lia. Qed.

Lemma lineage_height l s : windowed l -> 0 <= s <= ledger_seq l -> height (rcl_lineage l s) = s.
Proof.
  intros Hw Hs. unfold rcl_lineage. destruct (Z.eqb_spec s 0) as [->|Hne]; [exact height_zero|].
  destruct Hw as [->|(Hseq & _ & _ & Hbase & Hc)]; [cbn in Hs; lia|].
  destruct (Z.ltb_spec s base); [apply line_height; lia|].
  destruct (Z.eq_dec s base) as [->|]; [rewrite Hbase; apply line_height; lia|]. apply Hc. lia.
Qed.

(** Two ledgers that agree at a sequence agree below it. *)
Lemma agree_below a b s : windowed a -> windowed b -> base <= s <= ledger_seq a -> s <= ledger_seq b ->
  rcl_ancestor a s = rcl_ancestor b s -> forall s', base <= s' <= s -> rcl_ancestor a s' = rcl_ancestor b s'.
Proof.
  intros Ha Hb Hs Hsb Heq s' Hs'. remember (Z.to_nat (s - s')) as d eqn:Hd. revert s' Hs' Hd.
  induction d as [|d IH]; intros s' Hs' Hd; [replace s' with s by lia; exact Heq|].
  specialize (IH (s' + 1) ltac:(lia) ltac:(lia)).
  destruct Ha as [->|(_ & _ & _ & _ & Ha)]; [cbn in Hs; lia|]. destruct Hb as [->|(_ & _ & _ & _ & Hb)]; [cbn in Hsb; lia|].
  destruct (Ha (s' + 1)) as [_ Hpa]; [lia|]. destruct (Hb (s' + 1)) as [_ Hpb]; [lia|].
  rewrite Z.add_simpl_r in Hpa, Hpb. rewrite <- Hpa, <- Hpb. now rewrite IH.
Qed.

(** The loop stops at the highest sequence both have in common. *)
Lemma mismatch_loop_spec a b lower n : rcl_ancestor a base = rcl_ancestor b base -> lower <= base -> base <= Z.of_nat n ->
  let c := mismatch_loop a b lower n in
  base <= c <= Z.of_nat n /\ rcl_ancestor a c = rcl_ancestor b c /\
  forall s, c < s <= Z.of_nat n -> rcl_ancestor a s <> rcl_ancestor b s.
Proof.
  intros Hbase Hl. cbv zeta. induction n as [|n IH]; [cbn; lia|]. intros Hn.
  cbn [mismatch_loop]. destruct (Z.eqb_spec (rcl_ancestor a (Z.of_nat (S n))) (rcl_ancestor b (Z.of_nat (S n)))) as [Heq|Hne]; cbn [negb andb].
  - split; [lia|]. split; [exact Heq|lia].
  - destruct (Z.geb_spec (Z.of_nat (S n)) lower); [|lia]. destruct (Z.eq_dec base (Z.of_nat (S n))) as [Hb|]; [congruence|].
    destruct IH as (H1 & H2 & H3); [lia|]. split; [lia|]. split; [exact H2|].
    intros s Hs. destruct (Z.eq_dec s (Z.of_nat (S n))) as [->|]; [exact Hne|]. apply H3. lia.
Qed.

Lemma rcl_mismatch_spec a b : windowed a -> windowed b -> 0 < ledger_seq a -> 0 < ledger_seq b ->
  base < rcl_mismatch a b <= Z.min (ledger_seq a) (ledger_seq b) + 1 /\
  rcl_ancestor a (rcl_mismatch a b - 1) = rcl_ancestor b (rcl_mismatch a b - 1) /\
  forall s, rcl_mismatch a b <= s <= Z.min (ledger_seq a) (ledger_seq b) -> rcl_ancestor a s <> rcl_ancestor b s.
Proof.
  intros [->|(Ha & _ & Hma & Hba & _)] [->|(Hb & _ & Hmb & Hbb & _)] Hsa Hsb; try (cbn in Hsa, Hsb; lia). unfold rcl_mismatch.
  set (lower := Z.max (min_seq a) (min_seq b)). set (upper := Z.min (ledger_seq a) (ledger_seq b)).
  destruct (mismatch_loop_spec a b lower (Z.to_nat upper)) as (H1 & H2 & H3); [congruence|lia..|].
  set (c := mismatch_loop a b lower (Z.to_nat upper)) in *. destruct (Z.ltb_spec c lower); [lia|].
  rewrite Z.add_simpl_r. split; [lia|]. split; [exact H2|]. intros s Hs. apply H3. lia.
Qed.

(** Nothing but the genesis ledger is common with the genesis ledger. *)
Lemma rcl_mismatch_genesis a b : windowed a -> windowed b -> Z.min (ledger_seq a) (ledger_seq b) = 0 -> rcl_mismatch a b = 1.
Proof. intros Ha Hb Hmin. unfold rcl_mismatch. rewrite Hmin. cbn [Z.to_nat mismatch_loop]. now destruct (_ <? _). Qed.

Lemma rcl_mismatch_iff a b s : windowed a -> windowed b -> 0 <= s <= ledger_seq a -> s <= ledger_seq b ->
  rcl_lineage a s = rcl_lineage b s <-> s < rcl_mismatch a b.
Proof.
  intros Ha Hb Hsa Hsb. destruct (Z.eq_dec (Z.min (ledger_seq a) (ledger_seq b)) 0) as [Hmin|Hmin].
  - rewrite (rcl_mismatch_genesis a b Ha Hb Hmin). replace s with 0 by lia. split; [lia|reflexivity].
  - destruct (rcl_mismatch_spec a b Ha Hb) as (H1 & H2 & H3); [lia..|]. unfold rcl_lineage.
    destruct (Z.eqb_spec s 0) as [->|Hne]; [split; [lia|reflexivity]|]. destruct (Z.ltb_spec s base) as [Hlt|Hge]; [split; [lia|reflexivity]|]. split.
    + intros Heq. destruct (Z.lt_ge_cases s (rcl_mismatch a b)) as [|Hm]; [assumption|]. destruct (H3 s); [lia|exact Heq].
    + intros Hlt. apply (agree_below a b (rcl_mismatch a b - 1) Ha Hb); [lia..|exact H2|lia].
Qed.

Lemma rcl_mismatch_le a b : windowed a -> windowed b -> rcl_mismatch a b <= Z.min (ledger_seq a) (ledger_seq b) + 1.
Proof.
  intros Ha Hb. pose proof (windowed_nonneg a Ha). pose proof (windowed_nonneg b Hb).
  destruct (Z.eq_dec (Z.min (ledger_seq a) (ledger_seq b)) 0) as [Hmin|Hmin]; [rewrite (rcl_mismatch_genesis a b Ha Hb Hmin); lia|].
  apply (rcl_mismatch_spec a b Ha Hb); lia.
Qed.

Instance rcl_ledger_laws : TrieLedgerLaws windowed_ledger.
Proof.
  refine {| lineage l := rcl_lineage (proj1_sig l); floor := base |}.
  - reflexivity.
  - intros [l Hl]. now apply windowed_nonneg.
  - intros [l Hl] s Hs. cbn in *. unfold rcl_lineage. destruct (Z.eqb_spec s 0) as [->|]; [now apply ancestor_zero|].
    destruct (Z.ltb_spec s base); lia || reflexivity.
  - reflexivity.
  - intros [a Ha] [b Hb]. now apply rcl_mismatch_le.
  - intros [a Ha] [b Hb] s Hsa Hsb. now apply rcl_mismatch_iff.
  - intros [a Ha] [b Hb] s s' Hs Hs' Heq. cbn in *. rewrite <- (lineage_height a s Ha Hs), Heq. now apply lineage_height.
  - intros [a Ha] [b Hb] Hsa Hsb. now apply (rcl_mismatch_spec a b).
Defined.
End Rcl.
