(* ===== verification/TrieProps.v ===== *)
(** * TrieProps: the ledger trie against a list of supports

    The trie refines a list with the support of each ledger: every sequence of
    insertions and removals within 32 bits of support succeeds, the queries return
    what the list says, and the preferred ledger is the one the rule picks on the
    list. *)

From stdpp Require Import gmap sorting.
From Stdlib Require Import ZArith Lia.
From S2P Require Import Prelude LedgerTrie TrieTree TrieOps TrieInsert TrieQuery TrieRemove TrieCheck TriePreferred RclLedger.
Local Open Scope Z_scope.

(** ** Lists of supports *)

Section Bag.
Context `{TrieLedger L, !TrieLedgerLaws L} {E : Type}.
Implicit Types (l : L) (bag : list (L * Z)) (g : Span L -> Z).

Definition id_of l : Z := ancestor l (seq l).

(** The support of the ledgers with a property. *)
Definition tally g bag : Z := fold_right (fun e acc => g (whole e.1) * e.2 + acc) 0 bag.

Definition own l bag : Z := tally (at_id (id_of l)) bag.
Definition drop_ledger l bag : list (L * Z) := filter (fun e => id_of e.1 <> id_of l) bag.
Definition deposit l (c : Z) bag : list (L * Z) := (l, own l bag + c) :: drop_ledger l bag.
Definition withdraw l (c : Z) bag : list (L * Z) :=
  if own l bag <=? c then drop_ledger l bag else (l, own l bag - c) :: drop_ledger l bag.

(** A sequence of calls, with what they return. *)
Inductive trie_op : Type := Insert (l : L) (count : Z) | Remove (l : L) (count : Z).

Definition run_trie_op (o : trie_op) (tr : LedgerTrie L) : outcome E (bool * LedgerTrie L) :=
  match o with
  | Insert l c => tr <- insert l c tr;; Ok (true, tr)
  | Remove l c => remove (id_of l) (seq l) c tr
  end.

Fixpoint run_trie_ops (os : list trie_op) (tr : LedgerTrie L) : outcome E (list bool * LedgerTrie L) :=
  match os with
  | [] => Ok ([], tr)
  | o :: os =>
      '(b, tr) <- run_trie_op o tr;;
      '(bs, tr) <- run_trie_ops os tr;;
      Ok (b :: bs, tr)
  end.

Definition spec_op (o : trie_op) bag : bool * list (L * Z) :=
  match o with
  | Insert l c => (true, deposit l c bag)
  | Remove l c => (0 <? own l bag, withdraw l c bag)
  end.

Fixpoint spec_trie_ops (os : list trie_op) bag : list bool * list (L * Z) :=
  match os with
  | [] => ([], bag)
  | o :: os =>
      let '(b, bag) := spec_op o bag in
      let '(bs, bag) := spec_trie_ops os bag in
      (b :: bs, bag)
  end.

(** Counts are not negative, and insertions count at least one. *)
Definition count_ok (o : trie_op) : Prop := match o with Insert _ c => 0 < c | Remove _ c => 0 <= c end.
Definition deposited (os : list trie_op) : Z :=
  fold_right (fun o acc => (match o with Insert _ c => c | Remove _ _ => 0 end) + acc) 0 os.

(** *** The list as a measure *)

Definition counts bag : Prop := Forall (fun e => 0 < e.2) bag.

Lemma at_id_whole l l' : at_id (id_of l) (whole l') = if id_of l' =? id_of l then 1 else 0.
Proof. unfold at_id, line_tip, whole, id_of. cbn. now rewrite Z.add_simpl_r, !ancestor_self. Qed.

Lemma same_weight g l l' : ext g -> id_of l = id_of l' -> g (whole l) = g (whole l').
Proof.
  intros Hg Hid. pose proof (seq_nonneg l). pose proof (seq_nonneg l').
  destruct (same_tip (whole l) (whole l')) as [Hst Hag]; [unfold span_ok, whole; cbn; lia..|unfold line_tip, whole, id_of in *; cbn; now rewrite !Z.add_simpl_r, <- !ancestor_self|].
  apply Hg; [exact Hst|]. now rewrite Hst.
Qed.

Lemma tally_drop g l bag : ext g -> tally g (drop_ledger l bag) = tally g bag - g (whole l) * own l bag.
Proof.
  intros Hg. unfold own. induction bag as [|[l' c] bag IH]; [cbn; lia|]. cbn [tally fold_right fst snd] in *.
  fold (tally g bag) in *. fold (tally (at_id (id_of l)) bag) in *. rewrite at_id_whole. unfold drop_ledger in *. rewrite filter_cons. cbn [fst].
  destruct (Z.eqb_spec (id_of l') (id_of l)) as [Heq|Hne].
  - rewrite decide_False by tauto. rewrite IH, (same_weight g l' l Hg Heq). lia.
  - rewrite decide_True by exact Hne. cbn [tally fold_right fst snd]. fold (tally g (filter (fun e => id_of e.1 <> id_of l) bag)). rewrite IH. lia.
Qed.

Lemma tally_nonneg g bag : (forall sp, 0 <= g sp) -> counts bag -> 0 <= tally g bag.
Proof. intros Hg. induction 1 as [|e bag He _ IH]; cbn [tally fold_right]; [lia|]. fold (tally g bag). specialize (Hg (whole e.1)). nia. Qed.

Lemma own_nonneg l bag : counts bag -> 0 <= own l bag.
Proof. apply tally_nonneg. intros sp. unfold at_id. destruct (_ =? _); lia. Qed.

Lemma drop_counts l bag : counts bag -> counts (drop_ledger l bag).
Proof. unfold counts, drop_ledger. rewrite !Forall_forall. intros Hb e [_ He]%list_elem_of_filter. auto. Qed.

Lemma spec_op_tally o bag g : counts bag -> count_ok o -> ext g ->
  counts (spec_op o bag).2 /\
  tally g (spec_op o bag).2 = tally g bag +
    match o with Insert l c => g (whole l) * c | Remove l c => - (g (whole l) * Z.min c (own l bag)) end.
Proof.
  intros Hb Hc Hg. pose proof (drop_counts) as Hd. unfold counts in Hd.
  destruct o as [l c|l c]; cbn [spec_op snd count_ok] in *; pose proof (own_nonneg l bag Hb).
  - split; [constructor; [cbn; lia|now apply Hd]|]. unfold deposit. cbn [tally fold_right fst snd].
    fold (tally g (drop_ledger l bag)). rewrite tally_drop by exact Hg. lia.
  - unfold withdraw. destruct (Z.leb_spec (own l bag) c).
    + split; [now apply Hd|]. rewrite tally_drop by exact Hg. rewrite Z.min_r by lia. lia.
    + split; [constructor; [cbn; lia|now apply Hd]|]. cbn [tally fold_right fst snd]. fold (tally g (drop_ledger l bag)).
      rewrite tally_drop by exact Hg. rewrite Z.min_l by lia. lia.
Qed.

(** ** The refinement *)

(** The trie stands for a tree with the supports of the list. *)
Definition holds_bag (tr : LedgerTrie L) bag : Prop :=
  counts bag /\ exists t, trie_ok tr t /\ forall g, ext g -> total g t = tally g bag.

Lemma holds_new : holds_bag trie_new [].
Proof. split; [constructor|]. eexists. split; [apply new_ok|]. intros g _. cbn. lia. Qed.

Lemma run_trie_op_spec o tr bag : holds_bag tr bag -> count_ok o ->
  tally (fun _ => 1) bag + deposited [o] <= max_of U32 ->
  exists tr', run_trie_op o tr = Ok ((spec_op o bag).1, tr') /\ holds_bag tr' (spec_op o bag).2.
Proof.
  intros (Hb & t & Hok & Htot) Hc Hfit. assert (ext (L := L) (fun _ => 1)) as He by (intros ? ? ? ?; reflexivity).
  pose proof (fun g Hg => spec_op_tally o bag g Hb Hc Hg) as Hspec. destruct o as [l c|l c]; cbn [run_trie_op count_ok deposited fold_right] in *.
  - destruct (insert_spec (E := E) tr t l c Hok Hc) as (tr' & t' & -> & Hok' & Htot').
    { unfold branch. rewrite (Htot _ He). lia. }
    cbn [bind]. eexists. split; [reflexivity|]. split; [apply (Hspec _ He)|]. exists t'. split; [exact Hok'|].
    intros g Hg. rewrite (proj2 (Hspec g Hg)), Htot', Htot by exact Hg. reflexivity.
  - destruct (remove_spec (E := E) tr t l c Hok Hc) as (tr' & t' & Hrun & Hok' & Htot').
    rewrite (Htot _ (ext_at_id _)) in Hrun, Htot'. rewrite <- ancestor_self in Hrun, Htot'. fold (id_of l) in Hrun, Htot'. fold (own l bag) in Hrun, Htot'.
    exists tr'. split; [exact Hrun|]. split; [apply (Hspec _ He)|]. exists t'. split; [exact Hok'|].
    intros g Hg. rewrite (proj2 (Hspec g Hg)), Htot', Htot by exact Hg. lia.
Qed.

Lemma run_trie_ops_spec os : forall tr bag, holds_bag tr bag -> Forall count_ok os ->
  tally (fun _ => 1) bag + deposited os <= max_of U32 ->
  exists tr', run_trie_ops os tr = Ok ((spec_trie_ops os bag).1, tr') /\ holds_bag tr' (spec_trie_ops os bag).2.
Proof.
  induction os as [|o os IH]; intros tr bag Hh Hc Hfit; [exists tr; auto|].
  apply Forall_cons in Hc as [Hc Hcs]. cbn [deposited fold_right] in Hfit. fold (deposited os) in Hfit.
  assert (0 <= deposited os) as Hnn.
  { clear - Hcs. induction Hcs as [|[l c|l c] os Hc _ IH]; cbn [deposited fold_right count_ok] in *; [lia|fold (deposited os); lia..]. }
  destruct (run_trie_op_spec o tr bag Hh Hc) as (tr1 & Hrun & Hh1); [cbn [deposited fold_right]; lia|].
  pose proof (spec_op_tally o bag (fun _ => 1) (proj1 Hh) Hc ltac:(intros ? ? ? ?; reflexivity)) as [_ Ht].
  cbn [run_trie_ops spec_trie_ops]. rewrite Hrun. cbn [bind]. destruct (spec_op o bag) as [b bag1]. cbn [fst snd] in *.
  destruct (IH tr1 bag1 Hh1 Hcs) as (tr' & -> & Hh').
  { rewrite Ht. destruct o as [l c|l c]; cbn [count_ok] in Hc; [lia|]. pose proof (own_nonneg l bag (proj1 Hh)). lia. }
  cbn [bind]. destruct (spec_trie_ops os bag1) as [bs bag2]. exists tr'. auto.
Qed.
End Bag.
Arguments trie_op : clear implicits.

Section Observe.
Context `{TrieLedger L, !TrieLedgerLaws L} {E : Type}.
Implicit Types (l : L) (bag : list (L * Z)).

Definition is_nil {A} (l : list A) : bool := match l with [] => true | _ => false end.

Lemma bag_empty bag : counts bag -> (tally (fun _ => 1) bag =? 0) = is_nil bag.
Proof.
  intros Hb. destruct Hb as [|e bag He Hb]; [reflexivity|]. cbn [tally fold_right is_nil]. fold (tally (fun _ => 1) bag).
  pose proof (tally_nonneg (fun _ => 1) bag ltac:(intros; lia) Hb). destruct (Z.eqb_spec (1 * e.2 + tally (fun _ => 1) bag) 0); [lia|reflexivity].
Qed.

Lemma is_empty_spec tr bag : holds_bag tr bag -> is_empty tr = Ok (E := E) (is_nil bag).
Proof.
  intros (Hb & t & Hok & Htot). unfold is_empty. rewrite <- (ok_root _ _ Hok), (hole_at _ [] t (ok_models _ _ Hok)). cbn [bind branch_support_of].
  unfold branch. rewrite Htot by (intros ? ? ? ?; reflexivity). now rewrite bag_empty.
Qed.

Lemma committed_measure (m m' : (Span L -> Z) -> Z) lg s id y : (forall g, ext g -> m g = m' g) -> 0 <= s ->
  committed m lg s id y -> committed m' lg s id y.
Proof.
  intros Hm Hs (Hk & Hu & Hall). unfold kid, uncommitted, ahead, support in *.
  assert (forall z, m (step_at s id z) = m' (step_at s id z)) as Hk' by (intros z; now apply Hm, ext_step_at).
  assert (forall z, m (passes (s + 1) z) = m' (passes (s + 1) z)) as Hp' by (intros z; apply Hm, ext_passes; lia).
  assert (m (before (Z.max (s + 1) lg)) = m' (before (Z.max (s + 1) lg))) as Hu' by apply Hm, ext_before.
  unfold committed, kid, uncommitted, ahead, support. rewrite <- Hk', <- Hu', <- Hp'. split; [exact Hk|]. split; [exact Hu|].
  intros z. rewrite <- Hk', <- Hp'. apply Hall.
Qed.

Lemma preferred_measure (m m' : (Span L -> Z) -> Z) lg s id : (forall g, ext g -> m g = m' g) ->
  preferred m lg s id -> preferred m' lg s id.
Proof.
  intros Hm [Hc Hn]. pose proof (chosen_seq _ _ _ _ Hc) as Hs. split.
  - clear Hn Hs. induction Hc as [|s id y Hc IH Hy]; [constructor|]. econstructor; [exact IH|].
    eapply committed_measure; [exact Hm| |exact Hy]. exact (chosen_seq _ _ _ _ Hc).
  - intros y Hy. apply (Hn y). eapply (committed_measure m' m); [|exact Hs|exact Hy]. intros g Hg. symmetry. auto.
Qed.

(** The ledger of the rule, when there is any support. *)
Definition ranked (largest_issued : Z) bag (r : option (SpanTip L)) : Prop :=
  match r with
  | None => bag = []
  | Some p => tip_ok p /\ forall s id, preferred (fun g => tally g bag) largest_issued s id <-> s = tip_seq p /\ id = tip_id p
  end.

Lemma get_preferred_ranked tr bag lg : holds_bag tr bag ->
  exists r, get_preferred lg tr = Ok (E := E) r /\ ranked lg bag r.
Proof.
  intros (Hb & t & Hok & Htot).
  destruct (get_preferred_spec (E := E) tr t lg Hok) as [[Hz Hnone]|(p & Hsome & Htip & Hp)].
  - exists None. split; [exact Hnone|]. unfold branch in Hz. rewrite Htot in Hz by (intros ? ? ? ?; reflexivity).
    pose proof (bag_empty bag Hb) as He. rewrite Hz in He. now destruct bag.
  - exists (Some p). split; [exact Hsome|]. split; [exact Htip|].
    apply (preferred_measure _ (fun g => tally g bag)) in Hp; [|exact Htot]. intros s id. split; [|intros [-> ->]; exact Hp].
    intros Hp'. eapply preferred_unique; [|exact Hp'|exact Hp].
    intros b. apply tally_nonneg; [|exact Hb]. intros sp. unfold before. destruct (_ <? _); lia.
Qed.

(** C28: every sequence of insertions and removals on a new trie, with at most
    [u32::MAX] inserted in all, succeeds without a panic or an overflow of a count
    (sequence numbers are not bounded); each removal says whether the ledger had support; afterwards [tip_support],
    [branch_support] and [is_empty] return what the list of supports says of the
    ledger, of the ledger and its descendants, and of all, and the trie's own check
    of its invariants passes.  The ledgers satisfy [TrieLedgerLaws]: identifiers do
    not collide, and all ledgers but the genesis ledger have an ancestor in common
    that they know, at the sequence [floor], with their ancestors from there on.
    What [ancestor] returns further down (the zero identifier, say) does not
    matter. *)
Theorem trie_refines_supports (os : list (trie_op L)) : Forall count_ok os -> deposited os <= max_of U32 ->
  let '(outs, bag) := spec_trie_ops os [] in
  exists tr, run_trie_ops os trie_new = Ok (E := E) (outs, tr) /\
    (forall l, tip_support (id_of l) tr = Ok (E := E) (own l bag)) /\
    (forall l, branch_support l tr = Ok (E := E) (tally (covers l) bag)) /\
    is_empty tr = Ok (E := E) (is_nil bag) /\ check_invariants tr = Ok (E := E) true.
Proof.
  intros Hc Hfit. destruct (run_trie_ops_spec (E := E) os trie_new [] holds_new Hc Hfit) as (tr & Hrun & Hh).
  destruct (spec_trie_ops os []) as [outs bag]. cbn [fst snd] in *. exists tr. split; [exact Hrun|].
  pose proof Hh as (Hb & t & Hok & Htot). split; [|split; [|split]].
  - intros l. rewrite (tip_support_spec tr t _ Hok), (Htot _ (ext_at_id _)). reflexivity.
  - intros l. rewrite (branch_support_spec tr t l Hok), (Htot _ (ext_covers l)). reflexivity.
  - now apply is_empty_spec.
  - exact (check_invariants_spec tr t Hok).
Qed.

(** C29: after any such sequence, [get_preferred] returns nothing on an empty
    trie, and otherwise the ledger of the rule: from the genesis ledger on, a child
    is chosen when its support exceeds what is uncommitted at its sequence, and so
    does its lead over each other child (ties broken by the identifier); the walk
    ends where no child is chosen.  There is only one such ledger, whatever the
    largest sequence this node has issued, and its identifier is known.  The
    ledgers satisfy [TrieLedgerLaws]: identifiers do not collide, and all ledgers
    but the genesis ledger have an ancestor in common that they know, at the
    sequence [floor], with their ancestors from there on; what [ancestor] returns
    further down does not matter. *)
Theorem preferred_by_the_rule (os : list (trie_op L)) (largest_issued : Z) :
  Forall count_ok os -> deposited os <= max_of U32 ->
  let '(outs, bag) := spec_trie_ops os [] in
  exists tr r, run_trie_ops os trie_new = Ok (E := E) (outs, tr) /\
    get_preferred largest_issued tr = Ok (E := E) r /\
    match r with
    | None => bag = []
    | Some p => tip_ok p /\
        forall s id, preferred (fun g => tally g bag) largest_issued s id <-> s = tip_seq p /\ id = tip_id p
    end.
Proof.
  intros Hc Hfit. destruct (run_trie_ops_spec (E := E) os trie_new [] holds_new Hc Hfit) as (tr & Hrun & Hh).
  destruct (spec_trie_ops os []) as [outs bag]. cbn [fst snd] in *.
  destruct (get_preferred_ranked tr bag largest_issued Hh) as (r & Hr & Hranked). exists tr, r. auto.
Qed.
End Observe.

(** ** Concrete ledgers *)

Module Example.
(** Hashes with the sequence in the tens.  All ledgers follow the seventh, whose
    hash is 70; the ninth ones follow the eighth of their branch.  They know no
    more than their last two ancestors. *)
Definition height (h : Z) : Z := h / 10.
Definition parent_hash (h : Z) : Z := if h =? 91 then 81 else if h =? 90 then 80 else 70.
Definition base : Z := 7.
Definition line (s : Z) : Z := 10 * s.

#[local] Existing Instance rcl_trie_ledger.

Abbreviation ledger := (windowed_ledger height parent_hash base line).

Lemma line_height s : 1 <= s <= base -> height (line s) = s.
Proof. intros _. unfold height, line. rewrite Z.mul_comm. now apply Z.div_mul. Qed.

#[local] Instance laws : TrieLedgerLaws ledger := rcl_ledger_laws height parent_hash base line eq_refl ltac:(unfold base; lia) line_height.

Lemma windowed_nine id8 id9 : In (id8, id9) [(80, 90); (81, 91)] -> windowed height parent_hash base line (mkRcl id9 9 [70; id8]).
Proof.
  intros Hin. right. unfold base. cbn [ledger_seq ancestors length]. split; [cbn; lia|]. split; [cbn; lia|].
  split; [vm_compute; discriminate|]. split; [destruct Hin as [Heq|[Heq|[]]]; injection Heq as <- <-; reflexivity|]. intros s Hs. assert (s = 8 \/ s = 9) as Hcase by lia.
  destruct Hin as [Heq|[Heq|Hno]]; [injection Heq as <- <-..|destruct Hno]; destruct Hcase as [-> | ->]; vm_compute; split; reflexivity.
Qed.

Definition left9 : ledger := exist _ (mkRcl 90 9 [70; 80]) (windowed_nine 80 90 (or_introl eq_refl)).
Definition right9 : ledger := exist _ (mkRcl 91 9 [70; 81]) (windowed_nine 81 91 (or_intror (or_introl eq_refl))).

(** The ancestor below the window is not known. *)
Lemma left9_unknown : ancestor left9 6 = 0.
Proof. reflexivity. Qed.

Definition votes : list (trie_op ledger) := [Insert left9 1; Insert right9 2; Insert left9 4; Remove right9 1; Remove right9 5].

Lemma votes_ok : Forall count_ok votes /\ deposited votes <= max_of U32.
Proof. split; [unfold votes; repeat constructor; cbn; lia|vm_compute; discriminate]. Qed.

(** Of the two branches, the left keeps all its support and is preferred. *)
Lemma trie_refines_supports_witness :
  (spec_trie_ops votes []).1 = [true; true; true; true; true] /\
  exists tr, run_trie_ops votes trie_new = Ok (E := unit) ([true; true; true; true; true], tr) /\
    tip_support 90 tr = Ok (E := unit) 5 /\ branch_support right9 tr = Ok (E := unit) 0 /\
    check_invariants tr = Ok (E := unit) true.
Proof.
  split; [reflexivity|].
  destruct (trie_refines_supports (E := unit) votes (proj1 votes_ok) (proj2 votes_ok)) as (tr & Hrun & Htip & Hbr & _ & Hinv).
  exists tr. split; [exact Hrun|]. split; [exact (Htip left9)|]. split; [exact (Hbr right9)|exact Hinv].
Defined.

Lemma votes_preferred : match run_trie_ops (E := unit) votes trie_new with
  | Ok (_, tr) => match get_preferred (E := unit) 0 tr with Ok (Some p) => (tip_seq p, tip_id p) = (9, 90) | _ => False end
  | _ => False
  end.
Proof. vm_compute. reflexivity. Qed.

Lemma preferred_by_the_rule_witness :
  exists tr p, run_trie_ops votes trie_new = Ok (E := unit) ([true; true; true; true; true], tr) /\
    get_preferred 0 tr = Ok (E := unit) (Some p) /\ (tip_seq p, tip_id p) = (9, 90) /\
    forall s id, preferred (fun g => tally g (spec_trie_ops votes []).2) 0 s id <-> s = 9 /\ id = 90.
Proof.
  destruct (preferred_by_the_rule (E := unit) votes 0 (proj1 votes_ok) (proj2 votes_ok)) as (tr & r & Hrun & Hp & Hr).
  pose proof votes_preferred as Hv. rewrite Hrun, Hp in Hv. destruct r as [p|]; [|destruct Hv].
  exists tr, p. split; [exact Hrun|]. split; [exact Hp|]. split; [exact Hv|]. injection Hv as <- <-. exact (proj2 Hr).
Defined.
End Example.
