(* ===== verification/Validations.v ===== *)
(** * Validations: current and recent ledger validations

    Models [xrpld/consensus/src/rcl_support/validations.rs]: which validations are
    current, the sequence enforcers, the aged indexes by ledger and by sequence,
    the support that trusted validations give in the ledger trie, the ledgers being
    acquired, the recovery latch, and the choice of the preferred ledger.

    All state is behind one mutex, so that an operation is a function of the state
    [Inner].  The adaptor's state is threaded through: it answers [now] and
    [acquire] and gives the instant of the monotonic clock, in nanoseconds.
    Iteration over a [HashMap] or [HashSet] goes through [order], an arbitrary
    permutation; the [BTreeMap] of ledgers being acquired is walked in the order of
    its keys. *)

From stdpp Require Import gmap sorting.
From Stdlib Require Import ZArith Lia.
From S2P Require Import Prelude LedgerTrie.
Local Open Scope Z_scope.

(** ** Parameters *)

Definition secs (s : Z) : Z := s * 1000000000.
Definition as_secs (d : Z) : Z := d / 1000000000.

Record ValidationParms : Type := mkParms {
  validation_current_wall : Z;
  validation_current_local : Z;
  validation_current_early : Z;
  validation_set_expires : Z;
  validation_freshness : Z
}.

Definition default_parms : ValidationParms :=
  mkParms (secs (5 * 60)) (secs (3 * 60)) (secs (3 * 60)) (secs (10 * 60)) (secs 20).

Inductive PreferredLclWorkingSource : Type := FromTrie | AcquiringFallback | NoPreference.
Inductive PreferredLclSelectionSource : Type := WorkingPreferred | LocalBelowMinSeq | PeerFallback | LocalNoPreference.

Record PreferredLclDiagnostic : Type := mkDiagnostic {
  trie_preferred : option (Z * Z);
  acquiring_preferred : option (Z * Z);
  working_preferred : option (Z * Z);
  acquired_recovery_candidate : option (Z * Z);
  acquired_recovery_peer_support : option Z;
  validation_recovery_candidate : option (Z * Z);
  validation_recovery_support : option nat;
  validation_recovery_peer_support : option Z;
  working_source : PreferredLclWorkingSource;
  selection_source : PreferredLclSelectionSource;
  selected : Z;
  peer_preferred : option (Z * Z);
  peer_lcl_entry_count : nat;
  current_validation_count : nat;
  current_trusted_count : nat;
  current_trusted_full_count : nat;
  trie_ledger_count : nat;
  acquiring_entry_count : nat;
  acquiring_waiter_count : nat
}.

(** ** Sequence enforcers *)

Record SeqEnforcer : Type := mkEnforcer { enf_seq : Z; enf_when : option Z }.

Definition new_enforcer : SeqEnforcer := mkEnforcer 0 None.

Definition try_advance (now s : Z) (p : ValidationParms) (e : SeqEnforcer) : bool * SeqEnforcer :=
  let e :=
    match enf_when e with
    | Some w => if now >? w + validation_set_expires p then mkEnforcer 0 (enf_when e) else e
    | None => e
    end in
  if s <=? enf_seq e then (false, e) else (true, mkEnforcer s (Some now)).

Definition largest (e : SeqEnforcer) : Z := enf_seq e.

(** ** Current validations *)

Definition is_current (p : ValidationParms) (now sign_time seen_time : Z) : bool :=
  (sign_time >? now - cast I64 (as_secs (validation_current_early p)))
  && (sign_time <? now + cast I64 (as_secs (validation_current_wall p)))
  && ((seen_time =? 0) || (seen_time <? now + cast I64 (as_secs (validation_current_local p)))).

Inductive ValStatus : Type := Current | Stale | BadSeq | Multiple | Conflicting.
#[global] Instance ValStatus_eq : EqDecision ValStatus.
Proof. solve_decision. Defined.

(** The trait [ValidationT]; times in seconds of the network clock. *)
Record Validation : Type := mkValidation {
  v_ledger_id : Z;
  v_seq : Z;
  v_sign_time : Z;
  v_seen_time : Z;
  v_key : Z;
  v_trusted : bool;
  v_full : bool;
  v_node_id : Z;
  v_load_fee : option Z;
  v_cookie : Z
}.

Definition set_trust (b : bool) (v : Validation) : Validation :=
  mkValidation (v_ledger_id v) (v_seq v) (v_sign_time v) (v_seen_time v) (v_key v) b (v_full v)
    (v_node_id v) (v_load_fee v) (v_cookie v).
Definition set_trusted : Validation -> Validation := set_trust true.
Definition set_untrusted : Validation -> Validation := set_trust false.

(** ** Aged maps *)

Record AgedMap (V : Type) : Type := mkAged { entries : gmap Z V; last_touched : gmap Z Z }.
Arguments mkAged {V}.
Arguments entries {V}.
Arguments last_touched {V}.

Section Aged.
Context {V : Type}.
Implicit Types m : AgedMap V.

Definition aged_new : AgedMap V := mkAged ∅ ∅.
Definition touch (k now : Z) m : AgedMap V := mkAged (entries m) (<[k := now]> (last_touched m)).
(** The value for the key, put there when there was none. *)
Definition get_or_insert_with (k now : Z) (d : V) m : V * AgedMap V :=
  let v := default d (entries m !! k) in
  (v, mkAged (<[k := v]> (entries m)) (<[k := now]> (last_touched m))).
(** Writing through the reference [get_or_insert_with] returns. *)
Definition assign (k : Z) (v : V) m : AgedMap V := mkAged (<[k := v]> (entries m)) (last_touched m).
Definition aged_get (k : Z) m : option V := entries m !! k.
Definition touch_all (ks : list Z) (now : Z) m : AgedMap V := foldr (fun k => touch k now) m ks.

Definition aged_out (now expires_after : Z) (touched : gmap Z Z) (k : Z) : bool :=
  match touched !! k with Some t => expires_after <=? Z.max 0 (now - t) | None => false end.

Definition aged_expire (now expires_after : Z) (keep : option (Z -> bool)) m : AgedMap V :=
  let m :=
    match keep with
    | Some keep => touch_all (filter (fun k => keep k = true) (map fst (map_to_list (entries m)))) now m
    | None => m
    end in
  let touched := last_touched m in
  mkAged (filter (fun e => aged_out now expires_after touched e.1 = false) (entries m))
    (filter (fun e => aged_out now expires_after touched e.1 = false) touched).

Definition aged_len m : nat := size (entries m).
End Aged.

(** ** The state *)

(** The trait [ValidationsAdaptor], with the monotonic clock. *)
Class ValidationsAdaptor (L W : Type) : Type := {
  net_now : W -> Z;
  instant : W -> Z;
  acquire : Z -> W -> option L * W
}.

Section Validations.
Context `{TrieLedger L} {W : Type} `{!ValidationsAdaptor L W}.
(** The order of iteration of a hash table. *)
Context (order : forall A, list A -> list A).
Context (parms : ValidationParms).

(** [ValidationsLedger::id], the identifier of a ledger. *)
Definition lid (l : L) : Z := ancestor l (seq l).

Abbreviation Key := (Z * Z)%type.

Record ValidationRecoveryProvenance : Type := mkProvenance { p_key : Key; p_nodes : gset Z }.

Record Inner : Type := mkInner {
  current : gmap Z Validation;
  local_seq_enforcer : SeqEnforcer;
  seq_enforcers : gmap Z SeqEnforcer;
  by_ledger : AgedMap (gmap Z Validation);
  by_sequence : AgedMap (gmap Z Validation);
  keep : option (Z * Z);
  next_keep_refresh : option Z;
  trie : LedgerTrie L;
  last_ledger : gmap Z L;
  acquiring : gmap Key (gset Z);
  recovery_anchor : option ValidationRecoveryProvenance;
  recovery_candidate : option ValidationRecoveryProvenance
}.

Definition inner_new : Inner :=
  mkInner ∅ new_enforcer ∅ aged_new aged_new None None trie_new ∅ ∅ None None.

Definition set_current x i := mkInner x (local_seq_enforcer i) (seq_enforcers i) (by_ledger i) (by_sequence i) (keep i)
  (next_keep_refresh i) (trie i) (last_ledger i) (acquiring i) (recovery_anchor i) (recovery_candidate i).
Definition set_local x i := mkInner (current i) x (seq_enforcers i) (by_ledger i) (by_sequence i) (keep i)
  (next_keep_refresh i) (trie i) (last_ledger i) (acquiring i) (recovery_anchor i) (recovery_candidate i).
Definition set_enforcers x i := mkInner (current i) (local_seq_enforcer i) x (by_ledger i) (by_sequence i) (keep i)
  (next_keep_refresh i) (trie i) (last_ledger i) (acquiring i) (recovery_anchor i) (recovery_candidate i).
Definition set_by_ledger x i := mkInner (current i) (local_seq_enforcer i) (seq_enforcers i) x (by_sequence i) (keep i)
  (next_keep_refresh i) (trie i) (last_ledger i) (acquiring i) (recovery_anchor i) (recovery_candidate i).
Definition set_by_sequence x i := mkInner (current i) (local_seq_enforcer i) (seq_enforcers i) (by_ledger i) x (keep i)
  (next_keep_refresh i) (trie i) (last_ledger i) (acquiring i) (recovery_anchor i) (recovery_candidate i).
Definition set_keep x y i := mkInner (current i) (local_seq_enforcer i) (seq_enforcers i) (by_ledger i) (by_sequence i) x
  y (trie i) (last_ledger i) (acquiring i) (recovery_anchor i) (recovery_candidate i).
Definition set_trie x y i := mkInner (current i) (local_seq_enforcer i) (seq_enforcers i) (by_ledger i) (by_sequence i)
  (keep i) (next_keep_refresh i) x y (acquiring i) (recovery_anchor i) (recovery_candidate i).
Definition set_acquiring x i := mkInner (current i) (local_seq_enforcer i) (seq_enforcers i) (by_ledger i) (by_sequence i)
  (keep i) (next_keep_refresh i) (trie i) (last_ledger i) x (recovery_anchor i) (recovery_candidate i).
Definition set_recovery x y i := mkInner (current i) (local_seq_enforcer i) (seq_enforcers i) (by_ledger i) (by_sequence i)
  (keep i) (next_keep_refresh i) (trie i) (last_ledger i) (acquiring i) x y.

(** *** The recovery latch *)

Definition merge_nodes (p : ValidationRecoveryProvenance) (nodes : gset Z) :=
  mkProvenance (p_key p) (p_nodes p ∪ nodes).

Definition observe_validation_recovery (observed : option ValidationRecoveryProvenance) (i : Inner) : Inner :=
  match observed with
  | None => set_recovery (recovery_anchor i) None i
  | Some observed =>
      let successor :=
        match recovery_candidate i with
        | Some c => if decide (p_key c = p_key observed) then merge_nodes c (p_nodes observed) else observed
        | None => observed
        end in
      match recovery_anchor i with
      | None => set_recovery (Some observed) (recovery_candidate i) i
      | Some a =>
          if decide (p_key a = p_key observed)
          then set_recovery (Some (merge_nodes a (p_nodes observed))) (recovery_candidate i) i
          else set_recovery (Some a) (Some successor) i
      end
  end.

Definition matches (key : Key) (p : option ValidationRecoveryProvenance) : bool :=
  match p with Some p => bool_decide (p_key p = key) | None => false end.

Definition nodes_of (p : option ValidationRecoveryProvenance) : gset Z :=
  match p with Some p => p_nodes p | None => ∅ end.

Definition take_validation_recovery_nodes (key : Key) (i : Inner) : gset Z * Inner :=
  if matches key (recovery_anchor i) then (nodes_of (recovery_anchor i), set_recovery (recovery_candidate i) None i)
  else if matches key (recovery_candidate i) then (nodes_of (recovery_candidate i), set_recovery (recovery_anchor i) None i)
  else (∅, i).

Definition drop_signer (node_id : Z) (p : ValidationRecoveryProvenance) := mkProvenance (p_key p) (p_nodes p ∖ {[node_id]}).

Definition prune_validation_recovery_signer (key : Key) (node_id : Z) (i : Inner) : Inner :=
  if matches key (recovery_anchor i) then set_recovery (drop_signer node_id <$> recovery_anchor i) (recovery_candidate i) i
  else if matches key (recovery_candidate i) then set_recovery (recovery_anchor i) (drop_signer node_id <$> recovery_candidate i) i
  else i.

(** [take_exact]: the first proof with the key, and the proofs without it.  There
    are at most two, so that [swap_remove] leaves the other one. *)
Fixpoint take_exact (key : Key) (proofs : list ValidationRecoveryProvenance)
    : option ValidationRecoveryProvenance * list ValidationRecoveryProvenance :=
  match proofs with
  | [] => (None, [])
  | p :: ps =>
      if decide (p_key p = key) then (Some p, ps)
      else let '(r, ps) := take_exact key ps in (r, p :: ps)
  end.

Definition option_list {A} (o : option A) : list A := match o with Some a => [a] | None => [] end.

Definition reconcile_validation_recovery_latch (actual_anchor actual_candidate : option Key) (i : Inner) : Inner :=
  let proofs := option_list (recovery_anchor i) ++ option_list (recovery_candidate i) in
  let '(a, proofs) := match actual_anchor with Some k => take_exact k proofs | None => (None, proofs) end in
  let distinct := match actual_candidate with Some k => if decide (Some k = actual_anchor) then None else Some k | None => None end in
  let '(c, _) := match distinct with Some k => take_exact k proofs | None => (None, proofs) end in
  set_recovery a c i.

(** *** The monad *)

Record St : Type := mkSt { world : W; inner : Inner }.

Definition M (A : Type) : Type := St -> outcome unit (A * St).

#[global] Instance M_ret : MRet M := fun A a s => Ok (a, s).
#[global] Instance M_bind : MBind M := fun A B k m s => '(a, s) <- m s;; k a s.

Definition gets {A} (f : Inner -> A) : M A := fun s => Ok (f (inner s), s).
Definition modify (f : Inner -> Inner) : M unit := fun s => Ok (tt, mkSt (world s) (f (inner s))).
Definition asks {A} (f : W -> A) : M A := fun s => Ok (f (world s), s).
Definition lift {A} (o : outcome unit A) : M A := fun s => a <- o;; Ok (a, s).
Definition acquire_ledger (ledger_id : Z) : M (option L) := fun s =>
  let '(r, w) := acquire ledger_id (world s) in Ok (r, mkSt w (inner s)).
Definition debug_assert (b : bool) : M unit := if b then mret tt else lift Panic.
Definition when (b : bool) (m : M unit) : M unit := if b then m else mret tt.

Fixpoint for_each {A} (l : list A) (f : A -> M unit) : M unit :=
  match l with
  | [] => mret tt
  | a :: l => f a ;; for_each l f
  end.

(** *** Support in the trie *)

Definition trie_remove (l : L) (i : Inner) : outcome unit (LedgerTrie L) :=
  '(_, t) <- remove (lid l) (seq l) 1 (trie i);; Ok t.

(** [set.remove(node_id)], and the entry goes when it is empty. *)
Definition drop_waiter (key : Key) (node_id : Z) (acq : gmap Key (gset Z)) : gmap Key (gset Z) :=
  match acq !! key with
  | Some set =>
      let set := set ∖ {[node_id]} in
      if decide (set = ∅) then delete key acq else <[key := set]> acq
  | None => acq
  end.

Definition remove_trie (node_id : Z) (val : Validation) : M unit :=
  let key := (v_seq val, v_ledger_id val) in
  modify (prune_validation_recovery_signer key node_id) ;;
  modify (fun i => set_acquiring (drop_waiter key node_id (acquiring i)) i) ;;
  i ← gets (fun i => i);
  match last_ledger i !! node_id with
  | Some last =>
      if lid last =? v_ledger_id val then
        t ← lift (trie_remove last i);
        modify (set_trie t (delete node_id (last_ledger i)))
      else mret tt
  | None => mret tt
  end.

Definition update_trie_ledger (node_id : Z) (ledger : L) : M unit :=
  i ← gets (fun i => i);
  t ← match last_ledger i !! node_id with
      | Some prior => lift (trie_remove prior i)
      | None => mret (trie i)
      end;
  t ← lift (insert ledger 1 t);
  modify (set_trie t (<[node_id := ledger]> (last_ledger i))).

(** The keys of [acquiring], in ascending order. *)
Definition key_le (a b : Key) : Prop := a.1 < b.1 \/ a.1 = b.1 /\ a.2 <= b.2.
#[global] Instance key_le_dec : RelDecision key_le.
Proof. intros a b. unfold key_le. apply _. Defined.

Definition waiting (i : Inner) : list (Key * gset Z) :=
  merge_sort (fun a b => key_le a.1 b.1) (map_to_list (acquiring i)).

Definition check_acquired : M unit :=
  pending ← gets (fun i => map fst (waiting i));
  for_each pending (fun key =>
    r ← acquire_ledger key.2;
    match r with
    | Some ledger =>
        nodes ← gets (fun i => default ∅ (acquiring i !! key));
        for_each (order _ (elements nodes)) (fun node_id => update_trie_ledger node_id ledger) ;;
        modify (fun i => set_acquiring (delete key (acquiring i)) i)
    | None => mret tt
    end).

(** The validation joins those waiting for its ledger, or gives its support at once
    when the ledger is there. *)
Definition wait_or_support (node_id : Z) (val : Validation) : M unit :=
  let key := (v_seq val, v_ledger_id val) in
  acq ← gets acquiring;
  match acq !! key with
  | Some set => modify (set_acquiring (<[key := set ∪ {[node_id]}]> acq))
  | None =>
      r ← acquire_ledger (v_ledger_id val);
      match r with
      | Some ledger => update_trie_ledger node_id ledger
      | None => modify (set_acquiring (<[key := {[node_id]}]> acq))
      end
  end.

Definition update_trie_validation (node_id : Z) (val : Validation) (prior : option Key) : M unit :=
  debug_assert (v_trusted val) ;;
  match prior with
  | Some prior_key => modify (fun i => set_acquiring (drop_waiter prior_key node_id (acquiring i)) i)
  | None => mret tt
  end ;;
  check_acquired ;;
  wait_or_support node_id val.

Definition stale_nodes (now : Z) (i : Inner) : list Z :=
  map fst (order _ (map_to_list (filter (fun e => is_current parms now (v_sign_time e.2) (v_seen_time e.2) = false) (current i)))).

Definition current_live : M (list (Z * Validation)) :=
  now ← asks net_now;
  stale ← gets (stale_nodes now);
  for_each stale (fun node_id =>
    i ← gets (fun i => i);
    match current i !! node_id with
    | Some v => remove_trie node_id v
    | None => mret tt
    end ;;
    modify (fun i => set_current (delete node_id (current i)) i)) ;;
  gets (fun i => order _ (map_to_list (current i))).

Definition with_trie {R} (f : LedgerTrie L -> outcome unit R) : M R :=
  current_live ;;
  check_acquired ;;
  t ← gets trie;
  lift (f t).

(** ** The operations *)

Definition on_ledger_acquired (ledger : L) : M unit :=
  let ledger_id := lid ledger in
  let ledger_seq := seq ledger in
  let key := (ledger_seq, ledger_id) in
  current_live ;;
  exact_nodes ← gets (fun i => default ∅ (acquiring i !! key));
  modify (fun i => set_acquiring (delete key (acquiring i)) i) ;;
  recovery_nodes ← gets (fun i => (take_validation_recovery_nodes key i).1);
  modify (fun i => (take_validation_recovery_nodes key i).2) ;;
  for_each (order _ (elements (exact_nodes ∪ recovery_nodes))) (fun node_id =>
    i ← gets (fun i => i);
    let recovered := bool_decide (node_id ∈ recovery_nodes) in
    let current_is_eligible :=
      match current i !! node_id with
      | Some v => v_trusted v && (negb recovered || (v_full v && (ledger_seq <=? v_seq v)))
      | None => false
      end in
    let recovery_does_not_downgrade :=
      negb recovered ||
      match last_ledger i !! node_id with Some resident => seq resident <? ledger_seq | None => true end in
    when (current_is_eligible && recovery_does_not_downgrade) (update_trie_ledger node_id ledger)).

Definition on_ledger_unacquired (ledger_id : Z) : M nat :=
  current_live ;;
  affected ← gets (fun i => map fst (order _ (map_to_list (filter (fun e => lid e.2 = ledger_id) (last_ledger i)))));
  for_each affected (fun node_id =>
    i ← gets (fun i => i);
    match last_ledger i !! node_id with
    | Some resident => t ← lift (trie_remove resident i); modify (set_trie t (delete node_id (last_ledger i)))
    | None => mret tt
    end ;;
    i ← gets (fun i => i);
    match current i !! node_id with
    | Some v => when (v_trusted v) (wait_or_support node_id v)
    | None => mret tt
    end) ;;
  mret (length affected).

Definition can_validate_seq (s : Z) : M bool :=
  now ← asks instant;
  e ← gets local_seq_enforcer;
  let '(b, e) := try_advance now s parms e in
  modify (set_local e) ;; mret b.

Definition add (node_id : Z) (val : Validation) : M ValStatus :=
  now_net ← asks net_now;
  if negb (is_current parms now_net (v_sign_time val) (v_seen_time val)) then mret Stale else
  now ← asks instant;
  i ← gets (fun i => i);
  let '(seq_entry, by_seq) := get_or_insert_with (v_seq val) now ∅ (by_sequence i) in
  let seq_entry :=
    match seq_entry !! node_id with
    | Some existing =>
        if (validation_current_wall parms <? secs (Z.abs (v_sign_time existing - v_sign_time val)))
           && (v_sign_time existing <? v_sign_time val)
        then <[node_id := val]> seq_entry else seq_entry
    | None => <[node_id := val]> seq_entry
    end in
  modify (set_by_sequence (assign (v_seq val) seq_entry by_seq)) ;;
  let '(advanced, enforcer) := try_advance now (v_seq val) parms (default new_enforcer (seq_enforcers i !! node_id)) in
  modify (set_enforcers (<[node_id := enforcer]> (seq_enforcers i))) ;;
  if negb advanced then
    mret (match seq_entry !! node_id with
          | Some existing =>
              if v_seq existing =? v_seq val then
                if negb (v_ledger_id existing =? v_ledger_id val) then Conflicting
                else if negb (v_sign_time existing =? v_sign_time val) then Conflicting
                else if negb (v_cookie existing =? v_cookie val) then Multiple
                else BadSeq
              else BadSeq
          | None => BadSeq
          end)
  else
    let '(set, by_led) := get_or_insert_with (v_ledger_id val) now ∅ (by_ledger i) in
    modify (set_by_ledger (assign (v_ledger_id val) (<[node_id := val]> set) by_led)) ;;
    match current i !! node_id with
    | None =>
        when (v_trusted val) (update_trie_validation node_id val None) ;;
        modify (fun i => set_current (<[node_id := val]> (current i)) i) ;;
        mret Current
    | Some old_val =>
        if v_sign_time old_val <? v_sign_time val then
          let old_key := (v_seq old_val, v_ledger_id old_val) in
          modify (fun i => set_current (<[node_id := val]> (current i)) i) ;;
          when (v_trusted val) (update_trie_validation node_id val (Some old_key)) ;;
          mret Current
        else mret Stale
    end.

Definition set_seq_to_keep (low high : Z) : M unit :=
  debug_assert (low <? high) ;;
  modify (fun i => set_keep (Some (low, high)) (next_keep_refresh i) i).

Definition in_keep (low high s : Z) : bool := (low <=? s) && (s <? high).

(** The ledgers of [by_ledger] whose first validation is in the protected range. *)
Definition ledgers_to_refresh (low high : Z) (i : Inner) : list Z :=
  map fst (filter (fun e =>
    match order _ (map_to_list e.2) with (_, v) :: _ => in_keep low high (v_seq v) | [] => false end = true)
    (map_to_list (entries (by_ledger i)))).

Definition expire : M unit :=
  now ← asks instant;
  i ← gets (fun i => i);
  match keep i with
  | Some (low, high) =>
      let refresh_due := match next_keep_refresh i with Some refresh => refresh <=? now | None => true end in
      when refresh_due (
        modify (set_keep (keep i) (Some (now + Z.max 0 (validation_set_expires parms - validation_freshness parms)))) ;;
        modify (fun i => set_by_ledger (touch_all (ledgers_to_refresh low high i) now (by_ledger i)) i) ;;
        modify (fun i => set_by_sequence
          (touch_all (filter (fun s => in_keep low high s = true) (map fst (map_to_list (entries (by_sequence i))))) now (by_sequence i)) i))
  | None => mret tt
  end ;;
  modify (fun i => set_by_ledger (aged_expire now (validation_set_expires parms) None (by_ledger i)) i) ;;
  modify (fun i => set_by_sequence (aged_expire now (validation_set_expires parms) None (by_sequence i)) i).

Definition retrust (added removed : gset Z) (node_id : Z) (v : Validation) : Validation :=
  if decide (node_id ∈ added) then set_trusted v
  else if decide (node_id ∈ removed) then set_untrusted v
  else v.

Definition retrust_all (added removed : gset Z) (m : gmap Z Validation) : gmap Z Validation :=
  map_imap (fun n v => Some (retrust added removed n v)) m.

Definition trust_changed (added removed : gset Z) : M unit :=
  node_ids ← gets (fun i => map fst (order _ (map_to_list (current i))));
  for_each node_ids (fun node_id =>
    if decide (node_id ∈ added) then
      modify (fun i => set_current (alter set_trusted node_id (current i)) i) ;;
      c ← gets current;
      match c !! node_id with
      | Some v => update_trie_validation node_id v None
      | None => lift Panic
      end
    else if decide (node_id ∈ removed) then
      modify (fun i => set_current (alter set_untrusted node_id (current i)) i) ;;
      c ← gets current;
      match c !! node_id with
      | Some v => remove_trie node_id v
      | None => lift Panic
      end
    else mret tt) ;;
  modify (fun i => set_by_ledger
    (mkAged (retrust_all added removed <$> entries (by_ledger i)) (last_touched (by_ledger i))) i).

(** [Iterator::max_by]: of equal elements the last. *)
Fixpoint max_by {A} (le : A -> A -> bool) (l : list A) : option A :=
  match l with
  | [] => None
  | a :: l =>
      match max_by le l with
      | Some b => if le a b then Some b else Some a
      | None => Some a
      end
  end.

(** The order of the tuples [(len, id)] and [(support, seq, id)]. *)
Definition pair_le (a b : Z * Z) : bool := (a.1 <? b.1) || ((a.1 =? b.1) && (a.2 <=? b.2)).
Definition triple_le (a b : Z * Z * Z) : bool := (a.1.1 <? b.1.1) || ((a.1.1 =? b.1.1) && pair_le (a.1.2, a.2) (b.1.2, b.2)).

Definition most_awaited (i : Inner) : option Key :=
  fst <$> max_by (fun a b : Key * gset Z => pair_le (Z.of_nat (size a.2), a.1.2) (Z.of_nat (size b.2), b.1.2)) (waiting i).

(** Whether [curr] is the parent of the preferred ledger. *)
Definition is_parent (p : SpanTip L) (curr : L) : outcome unit bool :=
  if tip_seq p =? seq curr + 1 then a <- tip_ancestor p (seq curr);; Ok (a =? lid curr) else Ok false.

Definition get_preferred (curr : L) : M (option Key) :=
  lg ← gets (fun i => largest (local_seq_enforcer i));
  preferred ← with_trie (LedgerTrie.get_preferred lg);
  match preferred with
  | None => gets most_awaited
  | Some p =>
      parent ← lift (is_parent p curr);
      if parent : bool then mret (Some (seq curr, lid curr))
      else if tip_seq p >? seq curr then mret (Some (tip_seq p, tip_id p))
      else if negb (ancestor curr (tip_seq p) =? tip_id p) then mret (Some (tip_seq p, tip_id p))
      else mret (Some (seq curr, lid curr))
  end.

Definition get_preferred_min_seq (curr : L) (min_valid_seq : Z) : M Z :=
  r ← get_preferred curr;
  mret (match r with Some (s, i) => if min_valid_seq <=? s then i else lid curr | None => lid curr end).

(** A current trusted full validation for exactly the key. *)
Definition exact_full (i : Inner) (key : Key) (node_id : Z) : bool :=
  match current i !! node_id with
  | Some v => v_trusted v && v_full v && (v_seq v =? key.1) && (v_ledger_id v =? key.2)
  | None => false
  end.

Definition count_trusted_full (i : Inner) : nat :=
  size (filter (fun e : Z * Validation => v_trusted e.2 && v_full e.2 = true) (current i)).

Definition supporters (i : Inner) (key : Key) (waiters : gset Z) : gset Z := filter (fun n => exact_full i key n = true) waiters.

Definition quorum_candidate (i : Inner) : option (Key * nat) :=
  max_by (fun a b : Key * nat => triple_le (Z.of_nat a.2, a.1.1, a.1.2) (Z.of_nat b.2, b.1.1, b.1.2))
    (filter (fun c => (count_trusted_full i / 2 < c.2)%nat)
      (map (fun e : Key * gset Z => (e.1, size (supporters i e.1 e.2))) (waiting i))).

Definition recovery_advice (i : Inner) (lcl : L) (min_seq : Z) (peer_counts : gmap Z Z) : option (Key * nat * Z) :=
  match quorum_candidate i with
  | Some (key, support) =>
      if (min_seq <=? key.1) && (key.1 >? seq lcl) && (key.1 - 1 >? seq lcl) && negb (key.2 =? lid lcl)
      then Some (key, support, default 0 (peer_counts !! key.2)) else None
  | None => None
  end.

Definition recovery_provenance (i : Inner) (key : Key) : ValidationRecoveryProvenance :=
  mkProvenance key (supporters i key (default ∅ (acquiring i !! key))).

(** The ledger most peers report, the greater identifier of several. *)
Definition most_common (peer_counts : gmap Z Z) : option (Z * Z) :=
  max_by (fun a b => pair_le (a.2, a.1) (b.2, b.1)) (map_to_list peer_counts).

Definition select_lcl (lcl : L) (min_seq : Z) (peer : option (Z * Z)) (working : option Key) : Z * PreferredLclSelectionSource :=
  match working with
  | Some (s, x) => if min_seq <=? s then (x, WorkingPreferred) else (lid lcl, LocalBelowMinSeq)
  | None => match peer with Some (x, _) => (x, PeerFallback) | None => (lid lcl, LocalNoPreference) end
  end.

Definition get_preferred_lcl_diagnostic (lcl : L) (min_seq : Z) (peer_counts : gmap Z Z) : M PreferredLclDiagnostic :=
  lg ← gets (fun i => largest (local_seq_enforcer i));
  tp ← with_trie (LedgerTrie.get_preferred lg);
  i ← gets (fun i => i);
  let acq := most_awaited i in
  '(working, source) ←
    match tp with
    | Some p =>
        parent ← lift (is_parent p lcl);
        mret (Some (if parent : bool then (seq lcl, lid lcl)
                    else if (tip_seq p >? seq lcl) || negb (ancestor lcl (tip_seq p) =? tip_id p) then (tip_seq p, tip_id p)
                    else (seq lcl, lid lcl)), FromTrie)
    | None => mret (match acq with Some k => (Some k, AcquiringFallback) | None => (None, NoPreference) end)
    end;
  let peer := most_common peer_counts in
  let '(sel, sel_source) := select_lcl lcl min_seq peer working in
  let recovery :=
    match recovery_advice i lcl min_seq peer_counts, source with
    | Some a, FromTrie => if sel =? lid lcl then Some a else None
    | _, _ => None
    end in
  modify (observe_validation_recovery ((fun r => recovery_provenance i r.1.1) <$> recovery)) ;;
  mret (mkDiagnostic ((fun p => (tip_seq p, tip_id p)) <$> tp) acq working None None
    ((fun r => r.1.1) <$> recovery) ((fun r => r.1.2) <$> recovery) ((fun r => r.2) <$> recovery)
    source sel_source sel peer (size peer_counts) (size (current i))
    (size (filter (fun e : Z * Validation => v_trusted e.2 = true) (current i))) (count_trusted_full i)
    (size (last_ledger i)) (size (acquiring i)) (foldr (fun e acc => (size e.2 + acc)%nat) 0%nat (map_to_list (acquiring i)))).

Definition get_preferred_lcl (lcl : L) (min_seq : Z) (peer_counts : gmap Z Z) : M Z :=
  d ← get_preferred_lcl_diagnostic lcl min_seq peer_counts; mret (selected d).

Definition get_nodes_after (ledger : L) (ledger_id : Z) : M Z :=
  if lid ledger =? ledger_id then
    with_trie (fun t => b <- branch_support ledger t;; n <- tip_support (lid ledger) t;; plain Usize (b - n))
  else
    gets (fun i => Z.of_nat (size (filter (fun e : Z * L => 0 < seq e.2 /\ ancestor e.2 (seq e.2 - 1) = ledger_id) (last_ledger i)))).

Definition current_trusted : M (list Validation) :=
  live ← current_live;
  mret (filter (fun v => v_trusted v && v_full v = true) (map snd live)).

Definition get_current_node_ids : M (gset Z) :=
  live ← current_live; mret (list_to_set (map fst live)).

(** The validations of a ledger, its set touched. *)
Definition touched_validations (ledger_id : Z) : M (list Validation) :=
  now ← asks instant;
  modify (fun i => set_by_ledger (touch ledger_id now (by_ledger i)) i) ;;
  gets (fun i => match aged_get ledger_id (by_ledger i) with Some m => map snd (order _ (map_to_list m)) | None => [] end).

Definition num_trusted_for_ledger (ledger_id : Z) : M nat :=
  vs ← touched_validations ledger_id; mret (length (filter (fun v => v_trusted v && v_full v = true) vs)).

Definition get_trusted_for_ledger (ledger_id s : Z) : M (list Validation) :=
  vs ← touched_validations ledger_id; mret (filter (fun v => v_trusted v && v_full v && (v_seq v =? s) = true) vs).

Definition fees (ledger_id base_fee : Z) : M (list Z) :=
  vs ← touched_validations ledger_id;
  mret (map (fun v => default base_fee (v_load_fee v)) (filter (fun v => v_trusted v && v_full v = true) vs)).

Definition flush : M unit :=
  modify (fun i => set_recovery None None (set_current ∅ i)).

(** The loop of [laggards]. *)
Fixpoint count_laggards (now s : Z) (live : list (Z * Validation)) (keys : gset Z) : nat * gset Z :=
  match live with
  | [] => (O, keys)
  | (_, v) :: live =>
      let fresh := now <? saturate U32 (v_seen_time v + cast U32 (as_secs (validation_freshness parms))) in
      if fresh && bool_decide (v_key v ∈ keys) then
        let '(n, keys) := count_laggards now s live (keys ∖ {[v_key v]}) in
        (if s >? v_seq v then S n else n, keys)
      else count_laggards now s live keys
  end.

Definition laggards (s : Z) (trusted_keys : gset Z) : M (nat * gset Z) :=
  now ← asks net_now;
  live ← current_live;
  mret (count_laggards now s live trusted_keys).
End Validations.
