(* ===== verification/ValidationsInv.v ===== *)
(** * ValidationsInv: the votes behind the trie

    In every state the trie holds one unit of support for each node in
    [last_ledger], for the ledger it has there; those waiting for a ledger are known
    nodes.  Every operation keeps this, without a panic and without an overflow,
    as long as there are no more than [u32::MAX] nodes. *)

From stdpp Require Import gmap sorting.
From Stdlib Require Import ZArith Lia.
From S2P Require Import Prelude LedgerTrie TrieTree TrieOps TrieInsert TrieQuery TrieRemove TrieCheck TriePreferred TrieProps Validations.
Local Open Scope Z_scope.

Section Votes.
Context `{TrieLedger L, !TrieLedgerLaws L}.
Implicit Types (m : gmap Z L) (l : L) (tr : LedgerTrie L).

(** ** One vote for each node *)

Definition votes m : list (L * Z) := map (fun e => (e.2, 1)) (map_to_list m).

#[global] Instance tally_perm g : Proper (Permutation ==> eq) (tally (L := L) g).
Proof. intros b b' Hp. unfold tally. induction Hp; cbn [fold_right]; lia. Qed.

Lemma votes_insert g m n l : m !! n = None -> tally g (votes (<[n := l]> m)) = g (whole l) + tally g (votes m).
Proof.
  intros Hn. unfold votes. rewrite map_to_list_insert by exact Hn. cbn [map tally fold_right fst snd].
  fold (tally g (map (fun e : Z * L => (e.2, 1)) (map_to_list m))). lia.
Qed.

Lemma votes_delete g m n l : m !! n = Some l -> tally g (votes m) = g (whole l) + tally g (votes (delete n m)).
Proof. intros Hn. rewrite <- (votes_insert g (delete n m) n l) by apply lookup_delete_eq. now rewrite insert_delete_id. Qed.

Lemma votes_counts m : counts (votes m).
Proof. apply Forall_forall. intros e (e' & <- & _)%list_elem_of_In%in_map_iff. cbn. lia. Qed.

Lemma votes_size m : tally (fun _ => 1) (votes m) = Z.of_nat (size m).
Proof.
  rewrite <- length_map_to_list. unfold votes. generalize (map_to_list m) as es. intros es.
  induction es as [|e es IH]; [reflexivity|]. cbn [map tally fold_right length snd] in *. fold (tally (fun _ => 1) (map (fun e : Z * L => (e.2, 1)) es)) in *. lia.
Qed.

Definition backed tr m : Prop := exists t, trie_ok tr t /\ forall g, ext g -> total g t = tally g (votes m).

Lemma backed_new : backed trie_new ∅.
Proof. destruct (holds_new (L := L)) as (_ & t & Hok & Htot). exists t. split; [exact Hok|]. intros g Hg. rewrite Htot by exact Hg. reflexivity. Qed.

Lemma ext_one : ext (L := L) (fun _ => 1).
Proof. intros ? ? ? ?. reflexivity. Qed.

Lemma unvote tr m n l : backed tr m -> m !! n = Some l ->
  exists b tr', remove (lid l) (seq l) 1 tr = Ok (E := unit) (b, tr') /\ backed tr' (delete n m).
Proof.
  intros (t & Hok & Htot) Hn. destruct (remove_spec (E := unit) tr t l 1 Hok) as (tr' & t' & Hrun & Hok' & Htot'); [lia|].
  eexists. exists tr'. split; [exact Hrun|]. exists t'. split; [exact Hok'|]. intros g Hg.
  rewrite Htot', Htot, (votes_delete g m n l Hn) by exact Hg.
  rewrite <- ancestor_self.
  assert (1 <= total (at_id (ancestor l (seq l))) t); [|rewrite Z.min_l by assumption; lia].
  rewrite (Htot _ (ext_at_id _)), (votes_delete _ m n l Hn).
  pose proof (at_id_whole l l) as Hw. unfold id_of in Hw. rewrite Hw, Z.eqb_refl.
  pose proof (own_nonneg l _ (votes_counts (delete n m))). unfold own, id_of in *. lia.
Qed.

Lemma vote tr m n l : backed tr m -> m !! n = None -> Z.of_nat (size m) + 1 <= max_of U32 ->
  exists tr', insert l 1 tr = Ok (E := unit) tr' /\ backed tr' (<[n := l]> m).
Proof.
  intros (t & Hok & Htot) Hn Hfit. destruct (insert_spec (E := unit) tr t l 1 Hok) as (tr' & t' & Hrun & Hok' & Htot'); [lia| |].
  - unfold branch. rewrite (Htot _ ext_one), votes_size. exact Hfit.
  - exists tr'. split; [exact Hrun|]. exists t'. split; [exact Hok'|]. intros g Hg.
    rewrite Htot', Htot, votes_insert by assumption. lia.
Qed.
End Votes.

(** ** Counting votes *)

Section Count.
Context `{TrieLedger L, !TrieLedgerLaws L}.
Implicit Types (m : gmap Z L) (l : L).

(** The nodes whose last ledger has a property. *)
Definition voters (P : L -> Prop) `{!forall l, Decision (P l)} m : Z := Z.of_nat (size (filter (fun e => P e.2) m)).

(** [l'] is [l] or one of its descendants; and is a proper one. *)
Definition at_or_after l (l' : L) : Prop := seq l <= seq l' /\ lineage l' (seq l) = lid l.
Definition after l (l' : L) : Prop := seq l < seq l' /\ lineage l' (seq l) = lid l.
Definition same_ledger l (l' : L) : Prop := lid l' = lid l.
#[global] Instance at_or_after_dec l l' : Decision (at_or_after l l').
Proof. unfold at_or_after. apply _. Defined.
#[global] Instance after_dec l l' : Decision (after l l').
Proof. unfold after. apply _. Defined.
#[global] Instance same_ledger_dec l l' : Decision (same_ledger l l').
Proof. unfold same_ledger. apply _. Defined.

Lemma voters_tally (P : L -> Prop) `{!forall l, Decision (P l)} g m :
  (forall l, g (whole l) = if decide (P l) then 1 else 0) -> tally g (votes m) = voters P m.
Proof.
  intros Hg. unfold voters. induction m as [|n l m Hn IH] using map_ind; [reflexivity|].
  rewrite votes_insert, Hg by exact Hn. destruct (decide (P l)).
  - rewrite map_filter_insert_True by assumption. rewrite map_size_insert_None; [lia|]. apply map_lookup_filter_None. auto.
  - rewrite map_filter_insert_not' by (try assumption; congruence). lia.
Qed.

Lemma tip_voters l m : own l (votes m) = voters (same_ledger l) m.
Proof.
  apply voters_tally. intros l'. rewrite at_id_whole. unfold same_ledger, lid, id_of.
  destruct (Z.eqb_spec (ancestor l' (seq l')) (ancestor l (seq l))), (decide _); tauto.
Qed.

Lemma branch_voters l m : tally (covers l) (votes m) = voters (at_or_after l) m.
Proof.
  apply voters_tally. intros l'. unfold covers. cbn [stop ledger whole span_from_ledger].
  destruct (decide _) as [Hyes|Hno]; unfold at_or_after, lid in *; rewrite ancestor_self in *.
  - destruct Hyes as [H1 H2]. rewrite H2, Z.eqb_refl. destruct (Z.ltb_spec (seq l) (seq l' + 1)); [reflexivity|lia].
  - destruct (Z.ltb_spec (seq l) (seq l' + 1)), (Z.eqb_spec (lineage l' (seq l)) (lineage l (seq l))); try reflexivity.
    destruct Hno. split; [lia|assumption].
Qed.

Lemma after_voters l m : voters (at_or_after l) m - voters (same_ledger l) m = voters (after l) m.
Proof.
  rewrite <- tip_voters, <- branch_voters. unfold own.
  rewrite <- (voters_tally (after l) (fun sp => covers l sp - at_id (id_of l) sp)).
  - unfold tally. induction (votes m) as [|e es IH]; cbn [fold_right]; [reflexivity|]. rewrite <- IH. lia.
  - intros l'. rewrite at_id_whole. unfold covers, id_of. cbn [stop ledger whole span_from_ledger].
    pose proof (seq_nonneg l). pose proof (seq_nonneg l').
    destruct (decide _) as [Hyes|Hno]; unfold after, lid in *; rewrite !ancestor_self in *;
      destruct (Z.eqb_spec (lineage l' (seq l')) (lineage l (seq l))) as [Heq|Hne].
    + assert (seq l' = seq l) by (apply (lineage_inj l' l); [lia..|exact Heq]). lia.
    + destruct Hyes as [Hlt Hanc]. rewrite Hanc, Z.eqb_refl. destruct (Z.ltb_spec (seq l) (seq l' + 1)); [reflexivity|lia].
    + assert (seq l' = seq l) as Hs by (apply (lineage_inj l' l); [lia..|exact Heq]). rewrite Hs in *. rewrite Heq, Z.eqb_refl.
      destruct (Z.ltb_spec (seq l) (seq l + 1)); [reflexivity|lia].
    + destruct (Z.ltb_spec (seq l) (seq l' + 1)), (Z.eqb_spec (lineage l' (seq l)) (lineage l (seq l))); try reflexivity.
      destruct (Z.eq_dec (seq l) (seq l')) as [Hs|]; [rewrite Hs in *; congruence|]. destruct Hno. split; [lia|assumption].
Qed.

Lemma voters_bound P `{!forall l, Decision (P l)} m : 0 <= voters P m <= Z.of_nat (size m).
Proof. unfold voters. pose proof (map_filter_subseteq (fun e : Z * L => P e.2) m) as Hs. apply map_subseteq_size in Hs. lia. Qed.
End Count.

(** ** The invariant *)

Section Keeps.
Context `{TrieLedger L, !TrieLedgerLaws L} {W : Type} `{!ValidationsAdaptor L W}.
Context (order : forall A, list A -> list A) (order_perm : forall A (l : list A), order A l ≡ₚ l).
Context (parms : ValidationParms).
(** The nodes there are. *)
Context (nodes : gset Z) (nodes_fit : Z.of_nat (size nodes) <= max_of U32).
Implicit Types (i : Inner (L := L)).

Record good i : Prop := {
  good_trie : backed (trie i) (last_ledger i);
  good_last : dom (last_ledger i) ⊆ nodes;
  good_current : dom (current i) ⊆ nodes;
  good_waiting : map_Forall (fun _ s => s ≠ ∅ /\ s ⊆ nodes) (acquiring i);
  good_recovery : nodes_of (recovery_anchor i) ⊆ nodes /\ nodes_of (recovery_candidate i) ⊆ nodes
}.

Lemma good_new : good inner_new.
Proof. clear order order_perm nodes_fit. constructor; cbn; try set_solver. - apply backed_new. - apply map_Forall_empty. Qed.

(** *** Total correctness *)

Definition ensures {A} (P : Inner (L := L) -> Prop) (m : M A) (Q : A -> Inner (L := L) -> Prop) : Prop :=
  forall s : St (L := L) (W := W), P (inner s) -> exists a s', m s = Ok (a, s') /\ Q a (inner s').

Lemma ensures_bind {A B} P (m : M A) (k : A -> M B) R Q : ensures P m R -> (forall a, ensures (R a) (k a) Q) -> ensures P (m ≫= k) Q.
Proof.
  intros Hm Hk s Hs. destruct (Hm s Hs) as (a & s1 & Heq & Hr). destruct (Hk a s1 Hr) as (b & s2 & Heq' & Hq).
  exists b, s2. split; [|exact Hq]. unfold mbind, M_bind. rewrite Heq. exact Heq'.
Qed.

Lemma ensures_ret {A} (P : Inner -> Prop) (a : A) Q : (forall i, P i -> Q a i) -> ensures P (mret a) Q.
Proof. intros HQ s Hs. exists a, s. split; [reflexivity|auto]. Qed.

Lemma ensures_gets {A} (P : Inner -> Prop) (f : Inner -> A) Q : (forall i, P i -> Q (f i) i) -> ensures P (gets f) Q.
Proof. intros HQ s Hs. exists (f (inner s)), s. split; [reflexivity|auto]. Qed.

Lemma ensures_gets_eq {A} (P : Inner -> Prop) (f : Inner -> A) : ensures P (gets f) (fun a i => P i /\ a = f i).
Proof. apply ensures_gets. auto. Qed.

Lemma ensures_asks {A} (P : Inner -> Prop) (f : W -> A) (Q : A -> Inner -> Prop) : (forall a i, P i -> Q a i) -> ensures P (asks f) Q.
Proof. intros HQ s Hs. eexists _, s. split; [reflexivity|auto]. Qed.

Lemma ensures_modify (P : Inner -> Prop) f (Q : unit -> Inner -> Prop) : (forall i, P i -> Q tt (f i)) -> ensures P (modify f) Q.
Proof. intros HQ s Hs. eexists tt, _. split; [reflexivity|]. cbn. auto. Qed.

Lemma ensures_lift {A} (P : Inner -> Prop) (o : outcome unit A) Q : (forall i, P i -> exists a, o = Ok a /\ Q a i) -> ensures P (lift o) Q.
Proof. intros HQ s Hs. destruct (HQ _ Hs) as (a & -> & Hq). exists a, s. split; [reflexivity|exact Hq]. Qed.

Lemma ensures_acquire P x (Q : option L -> Inner -> Prop) : (forall r i, P i -> Q r i) -> ensures P (acquire_ledger x) Q.
Proof.
  intros HQ s Hs. unfold acquire_ledger. destruct (acquire x (world s)) as [r w]. eexists r, _. split; [reflexivity|]. cbn. auto.
Qed.

Lemma ensures_for_each {A} (P : Inner -> Prop) (l : list A) f : (forall a, a ∈ l -> ensures P (f a) (fun _ => P)) -> ensures P (for_each l f) (fun _ => P).
Proof.
  induction l as [|a l IH]; intros Hf; cbn [for_each]; [apply ensures_ret; auto|].
  eapply ensures_bind; [apply Hf; left|]. intros ?. apply IH. intros b Hb. apply Hf. now right.
Qed.

Lemma ensures_pre {A} (P P' : Inner -> Prop) (m : M A) Q : (forall i, P i -> P' i) -> ensures P' m Q -> ensures P m Q.
Proof. intros HP Hm s Hs. auto. Qed.

Lemma ensures_post {A} P (m : M A) (Q Q' : A -> Inner -> Prop) : ensures P m Q' -> (forall a i, Q' a i -> Q a i) -> ensures P m Q.
Proof. intros Hm HQ s Hs. destruct (Hm s Hs) as (a & s' & Heq & Hq). eauto. Qed.

Lemma ensures_ex {A X} (R : X -> Inner -> Prop) (P : Inner -> Prop) (m : M A) Q :
  (forall i, P i -> exists x, R x i) -> (forall x, ensures (R x) m Q) -> ensures P m Q.
Proof. intros HR Hm s Hs. destruct (HR _ Hs) as [x Hx]. exact (Hm x s Hx). Qed.

Lemma ensures_fact {A} (P : Inner -> Prop) (F : Prop) (m : M A) Q : (F -> ensures P m Q) -> ensures (fun i => P i /\ F) m Q.
Proof. intros Hm s [Hs HF]. exact (Hm HF s Hs). Qed.

Lemma ensures_when P b (m : M unit) : ensures P m (fun _ => P) -> ensures P (when b m) (fun _ => P).
Proof. intros Hm. destruct b; [exact Hm|apply ensures_ret; auto]. Qed.

(** *** Support in the trie *)

(** The current validations stay as they are. *)
Definition steady (c : gmap Z Validation) i : Prop := good i /\ current i = c.

Lemma update_trie_ledger_keeps c n l : n ∈ nodes -> ensures (steady c) (update_trie_ledger n l) (fun _ => steady c).
Proof.
  intros Hn s [[Ht Hl Hc Hw Hr] Hcur]. unfold update_trie_ledger, gets, mbind, M_bind. cbn [bind].
  assert (forall m' : gmap Z L, dom m' ⊆ dom (last_ledger (inner s)) -> m' !! n = None -> Z.of_nat (size m') + 1 <= max_of U32) as Hsize.
  { intros m' Hd Hm'. assert (size m' < size nodes)%nat; [|lia]. rewrite <- size_dom. apply subset_size.
    apply not_elem_of_dom in Hm'. set_solver. }
  assert (exists tr, backed tr (delete n (last_ledger (inner s))) /\
    match last_ledger (inner s) !! n with
    | Some prior => lift (trie_remove prior (inner s))
    | None => mret (trie (inner s))
    end s = Ok (tr, s)) as (tr & Hback & ->).
  { destruct (last_ledger (inner s) !! n) as [prior|] eqn:Hp.
    - destruct (unvote _ _ n prior Ht Hp) as (b & tr & Hrun & Hback). exists tr. split; [exact Hback|].
      unfold lift, trie_remove. rewrite Hrun. reflexivity.
    - exists (trie (inner s)). rewrite delete_id by exact Hp. split; [exact Ht|reflexivity]. }
  cbn [bind]. destruct (vote tr _ n l Hback) as (tr' & Hins & Hback'); [apply lookup_delete_eq|apply Hsize; [rewrite dom_delete_L; set_solver|apply lookup_delete_eq]|].
  unfold lift at 1. rewrite Hins. cbn [bind]. eexists tt, _. split; [reflexivity|]. cbn.
  rewrite insert_delete_eq in Hback'. split; [|exact Hcur]. constructor; cbn; auto. rewrite dom_insert_L. set_solver.
Qed.

Lemma drop_waiter_ok (key : Z * Z) (n : Z) (acq : gmap (Z * Z) (gset Z)) : map_Forall (fun _ s => s ≠ ∅ /\ s ⊆ nodes) acq ->
  map_Forall (fun _ s => s ≠ ∅ /\ s ⊆ nodes) (drop_waiter key n acq).
Proof.
  intros Ha. unfold drop_waiter. destruct (acq !! key) as [x|] eqn:Hx; [|exact Ha].
  destruct (decide (x ∖ {[n]} = ∅)); [now apply map_Forall_delete|]. apply map_Forall_insert_2; [|exact Ha].
  destruct (Ha _ _ Hx). set_solver.
Qed.

Lemma drop_signer_nodes (n : Z) p : nodes_of (drop_signer n <$> p) ⊆ nodes_of p.
Proof. destruct p as [[k ns]|]; cbn; set_solver. Qed.

Lemma prune_good c key n i : steady c i -> steady c (prune_validation_recovery_signer key n i).
Proof.
  intros [[Ht Hl Hc Hw [Ha Hb]] Hcur]. unfold prune_validation_recovery_signer.
  pose proof (drop_signer_nodes n (recovery_anchor i)). pose proof (drop_signer_nodes n (recovery_candidate i)).
  destruct (matches key (recovery_anchor i)); [split; [constructor; cbn; auto; set_solver|exact Hcur]|].
  destruct (matches key (recovery_candidate i)); [split; [constructor; cbn; auto; set_solver|exact Hcur]|].
  split; [constructor; auto|exact Hcur].
Qed.

Lemma set_acquiring_good c acq i : steady c i -> map_Forall (fun _ s => s ≠ ∅ /\ s ⊆ nodes) acq -> steady c (set_acquiring acq i).
Proof. intros [[Ht Hl Hc Hw Hr] Hcur] Ha. split; [constructor; auto|exact Hcur]. Qed.

Lemma remove_trie_keeps c n v : ensures (steady c) (remove_trie n v) (fun _ => steady c).
Proof.
  unfold remove_trie. eapply ensures_bind; [apply (ensures_modify _ _ (fun _ => steady c)), prune_good|]. intros ?.
  eapply ensures_bind; [apply (ensures_modify _ _ (fun _ => steady c)); intros i Hi; apply set_acquiring_good; [exact Hi|apply drop_waiter_ok, Hi]|].
  intros ?. eapply ensures_bind; [apply ensures_gets_eq|]. intros i s [Hi ->].
  destruct (last_ledger (inner s) !! n) as [last|] eqn:Hlast; [|eexists tt, s; split; [reflexivity|exact Hi]].
  destruct (lid last =? v_ledger_id v); [|eexists tt, s; split; [reflexivity|exact Hi]].
  destruct Hi as [[Ht Hl Hc Hw Hr] Hcur]. destruct (unvote _ _ n last Ht Hlast) as (b & tr & Hrun & Hback).
  unfold mbind, M_bind, lift, trie_remove. rewrite Hrun. cbn [bind]. eexists tt, _. split; [reflexivity|]. cbn.
  split; [|exact Hcur]. constructor; cbn; auto. rewrite dom_delete_L. set_solver.
Qed.

(** The state of an operation from here on, for the variables read before. *)
Tactic Notation "step" ident(x) := eapply ensures_bind; [|intros x; cbn beta].
Tactic Notation "step" ident(x) "keeps" constr(R) := eapply (ensures_bind _ _ _ (fun _ => R)); [|intros x; cbn beta].

Lemma check_acquired_keeps c : ensures (steady c) (check_acquired order) (fun _ => steady c).
Proof.
  unfold check_acquired. step pending; [apply (ensures_gets _ _ (fun _ => steady c)); auto|].
  apply ensures_for_each. intros key _. step r; [apply (ensures_acquire _ _ (fun _ => steady c)); auto|].
  destruct r as [ledger|]; [|apply ensures_ret; auto].
  step ws; [apply (ensures_gets _ _ (fun x i => steady c i /\ x ⊆ nodes))|].
  { intros i Hi. split; [exact Hi|]. destruct (acquiring i !! key) as [x|] eqn:Hx; cbn; [|set_solver].
    exact (proj2 (good_waiting _ (proj1 Hi) _ _ Hx)). }
  step u; [apply ensures_for_each|].
  - intros n Hn s [Hs Ha]. rewrite order_perm in Hn. apply elem_of_elements in Hn.
    destruct (update_trie_ledger_keeps c n ledger ltac:(set_solver) s Hs) as (x & s' & Hrun & Hs'). eauto.
  - apply ensures_modify. intros i [Hi _]. apply set_acquiring_good; [exact Hi|]. apply map_Forall_delete, Hi.
Qed.

Lemma wait_or_support_keeps c n v : n ∈ nodes -> ensures (steady c) (wait_or_support n v) (fun _ => steady c).
Proof.
  intros Hn. unfold wait_or_support. step acq; [apply ensures_gets_eq|].
  destruct (acq !! (v_seq v, v_ledger_id v)) as [x|] eqn:Hx.
  - apply ensures_modify. intros i [Hi ->]. apply set_acquiring_good; [exact Hi|]. apply map_Forall_insert_2; [|apply Hi].
    pose proof (good_waiting _ (proj1 Hi) _ _ Hx). set_solver.
  - step r; [apply (ensures_acquire _ _ (fun _ i => steady c i /\ acq = acquiring i)); auto|]. destruct r as [l|].
    + eapply ensures_pre; [|apply update_trie_ledger_keeps, Hn]. intros i Hi. apply Hi.
    + apply ensures_modify. intros i [Hi ->]. apply set_acquiring_good; [exact Hi|]. apply map_Forall_insert_2; [set_solver|apply Hi].
Qed.

Lemma update_trie_validation_keeps c n v prior : n ∈ nodes -> v_trusted v = true ->
  ensures (steady c) (update_trie_validation order n v prior) (fun _ => steady c).
Proof.
  intros Hn Hv. unfold update_trie_validation. step u1; [unfold debug_assert; rewrite Hv; apply (ensures_ret _ _ (fun _ => steady c)); auto|].
  step u2 keeps (steady c).
  - destruct prior as [key|]; [|apply ensures_ret; auto]. apply ensures_modify. intros i Hi.
    apply set_acquiring_good; [exact Hi|apply drop_waiter_ok, Hi].
  - step u3; [apply check_acquired_keeps|]. now apply wait_or_support_keeps.
Qed.

Lemma steady_self i : good i -> steady (current i) i.
Proof. split; auto. Qed.

Lemma set_current_good x i : good i -> dom x ⊆ nodes -> good (set_current x i).
Proof. intros [Ht Hl Hc Hw Hr] Hd. constructor; auto. Qed.

(** An operation that leaves the current validations alone, from any state. *)
Lemma ensures_steady {A} (m : M A) Q : (forall c, ensures (steady c) m Q) -> ensures good m Q.
Proof. intros Hm s Hs. apply (Hm (current (inner s))). now apply steady_self. Qed.

Lemma current_live_keeps : ensures good (current_live order parms) (fun r i => good i /\ r ≡ₚ map_to_list (current i)).
Proof.
  unfold current_live. step u4; [apply (ensures_asks _ _ (fun _ => good)); auto|].
  step u5; [apply (ensures_gets _ _ (fun _ => good)); auto|].
  step u6; [apply ensures_for_each|].
  - intros n _. step j; [apply ensures_gets_eq|]. step u keeps good.
    + eapply ensures_pre with (P' := good); [tauto|]. destruct (current j !! n) as [v|]; [|apply ensures_ret; auto].
      apply ensures_steady. intros c. eapply ensures_post; [apply remove_trie_keeps|]. intros ? i [Hi _]. exact Hi.
    + apply ensures_modify. intros i Hi. apply set_current_good; [exact Hi|]. rewrite dom_delete_L.
      pose proof (good_current _ Hi). set_solver.
  - apply ensures_gets. intros i Hi. split; [exact Hi|apply order_perm].
Qed.

Lemma with_trie_keeps {R} (f : LedgerTrie L -> outcome unit R) (Q : R -> gmap Z L -> Prop) :
  (forall tr m, backed tr m -> exists r, f tr = Ok r /\ Q r m) ->
  ensures good (with_trie order parms f) (fun r i => good i /\ Q r (last_ledger i)).
Proof.
  intros Hf. unfold with_trie. step u7; [apply current_live_keeps|]. step u8.
  - eapply ensures_pre with (P' := good); [tauto|]. apply ensures_steady. intros c. eapply ensures_post; [apply check_acquired_keeps|].
    intros ? i [Hi _]. exact Hi.
  - step u9; [apply ensures_gets_eq|]. apply ensures_lift. intros i [Hi ->].
    destruct (Hf _ _ (good_trie _ Hi)) as (r & Hr & Hq). eauto.
Qed.

(** *** The operations *)

Lemma live_keeps : ensures good (current_live order parms) (fun _ => good).
Proof. eapply ensures_post; [apply current_live_keeps|]. intros ? i [Hi _]. exact Hi. Qed.

Lemma update_ledger_keeps n l : n ∈ nodes -> ensures good (update_trie_ledger n l) (fun _ => good).
Proof. intros Hn. apply ensures_steady. intros c. eapply ensures_post; [now apply update_trie_ledger_keeps|]. intros ? i [Hi _]. exact Hi. Qed.

Lemma support_keeps n v : n ∈ nodes -> ensures good (wait_or_support n v) (fun _ => good).
Proof. intros Hn. apply ensures_steady. intros c. eapply ensures_post; [now apply wait_or_support_keeps|]. intros ? i [Hi _]. exact Hi. Qed.

Lemma waiters_known i key : good i -> default ∅ (acquiring i !! key) ⊆ nodes.
Proof. intros Hi. destruct (acquiring i !! key) as [x|] eqn:Hx; cbn; [|set_solver]. exact (proj2 (good_waiting _ Hi _ _ Hx)). Qed.

Lemma take_recovery_good key i : good i -> (take_validation_recovery_nodes key i).1 ⊆ nodes /\ good (take_validation_recovery_nodes key i).2.
Proof.
  intros [Ht Hl Hc Hw [Ha Hb]]. unfold take_validation_recovery_nodes.
  destruct (matches key (recovery_anchor i)); [|destruct (matches key (recovery_candidate i))]; cbn [fst snd].
  all: split; [try assumption; set_solver|]. all: constructor; auto. all: cbn; set_solver.
Qed.

Lemma on_ledger_acquired_keeps l : ensures good (on_ledger_acquired order parms l) (fun _ => good).
Proof.
  unfold on_ledger_acquired. step u keeps good; [apply live_keeps|].
  step ws; [apply (ensures_gets _ _ (fun x i => good i /\ x ⊆ nodes)); intros i Hi; split; [exact Hi|now apply waiters_known]|].
  step u1; [apply (ensures_modify _ _ (fun _ i => good i /\ ws ⊆ nodes))|].
  { intros i [[Ht Hl Hc Hw Hr] Hws]. split; [|exact Hws]. constructor; auto. cbn. now apply map_Forall_delete. }
  step rs; [apply (ensures_gets _ _ (fun x i => good i /\ ws ⊆ nodes /\ x ⊆ nodes))|].
  { intros i [Hi Hws]. split; [exact Hi|]. split; [exact Hws|]. now apply take_recovery_good. }
  step u2; [apply (ensures_modify _ _ (fun _ i => good i /\ ws ⊆ nodes /\ rs ⊆ nodes))|].
  { intros i (Hi & Hws & Hrs). split; [now apply take_recovery_good|auto]. }
  intros s (Hs & Hws & Hrs). revert s Hs. apply ensures_for_each. intros n Hn. rewrite order_perm in Hn. apply elem_of_elements in Hn.
  step i keeps good; [apply ensures_gets; auto|]. apply ensures_when, update_ledger_keeps. set_solver.
Qed.

Lemma on_ledger_unacquired_keeps x : ensures good (on_ledger_unacquired order parms x) (fun _ => good).
Proof.
  unfold on_ledger_unacquired. step u keeps good; [apply live_keeps|].
  step ns; [apply (ensures_gets _ _ (fun ns i => good i /\ Forall (fun n => n ∈ nodes) ns))|].
  { intros i Hi. split; [exact Hi|]. apply Forall_forall. intros n (e & <- & He)%list_elem_of_In%in_map_iff.
    apply list_elem_of_In in He. rewrite order_perm in He. destruct e as [n l]. apply elem_of_map_to_list, map_lookup_filter_Some in He as [He _].
    apply (good_last _ Hi). apply elem_of_dom. eauto. }
  intros s [Hs Hns]. revert s Hs. step u1 keeps good; [|apply ensures_ret; auto]. apply ensures_for_each. intros n Hn.
  rewrite Forall_forall in Hns. specialize (Hns n Hn). step i; [apply ensures_gets_eq|]. step u2 keeps good.
  - destruct (last_ledger i !! n) as [l|] eqn:Hl; [|apply ensures_ret; tauto]. intros s [Hs ->].
    destruct Hs as [Ht Hl' Hc Hw Hr]. destruct (unvote _ _ n l Ht Hl) as (b & tr & Hrun & Hback).
    unfold mbind, M_bind, lift, trie_remove. rewrite Hrun. cbn [bind]. eexists tt, _. split; [reflexivity|]. cbn.
    constructor; cbn; auto. rewrite dom_delete_L. set_solver.
  - step j keeps good; [apply ensures_gets; auto|]. destruct (current j !! n) as [v|]; [|apply ensures_ret; auto].
    apply ensures_when. now apply support_keeps.
Qed.

Lemma can_validate_keeps x : ensures good (can_validate_seq parms x) (fun _ => good).
Proof.
  unfold can_validate_seq. step now keeps good; [apply ensures_asks; auto|]. step e keeps good; [apply ensures_gets; auto|].
  destruct (try_advance now x parms e) as [b e']. step u keeps good; [|apply ensures_ret; auto].
  apply ensures_modify. intros i [Ht Hl Hc Hw Hr]. constructor; auto.
Qed.

Lemma expire_keeps : ensures good (expire order parms) (fun _ => good).
Proof.
  assert (forall f, ensures good (modify (fun i => set_by_ledger (f i) i)) (fun _ => good)) as Hled
    by (intros f; apply ensures_modify; intros i [Ht Hl Hc Hw Hr]; constructor; auto).
  assert (forall f, ensures good (modify (fun i => set_by_sequence (f i) i)) (fun _ => good)) as Hseq
    by (intros f; apply ensures_modify; intros i [Ht Hl Hc Hw Hr]; constructor; auto).
  unfold expire. step now keeps good; [apply ensures_asks; auto|]. step i keeps good; [apply ensures_gets; auto|].
  step u keeps good; [|step u1 keeps good; auto]. destruct (keep i) as [[low high]|]; [|apply ensures_ret; auto].
  apply ensures_when. step u1 keeps good; [apply ensures_modify; intros j [Ht Hl Hc Hw Hr]; constructor; auto|].
  step u2 keeps good; auto.
Qed.

Lemma update_validation_keeps n v prior : n ∈ nodes -> v_trusted v = true ->
  ensures good (update_trie_validation order n v prior) (fun _ => good).
Proof.
  intros Hn Hv. apply ensures_steady. intros c. eapply ensures_post; [now apply update_trie_validation_keeps|].
  intros ? i [Hi _]. exact Hi.
Qed.

Lemma insert_current_keeps n v : n ∈ nodes -> ensures good (modify (fun i => set_current (<[n := v]> (current i)) i)) (fun _ => good).
Proof.
  intros Hn. apply ensures_modify. intros i Hi. apply set_current_good; [exact Hi|]. rewrite dom_insert_L.
  pose proof (good_current _ Hi). set_solver.
Qed.

Lemma add_keeps n v : n ∈ nodes -> ensures good (add order parms n v) (fun _ => good).
Proof.
  intros Hn. unfold add. step now_net keeps good; [apply ensures_asks; auto|]. destruct (negb _); [apply ensures_ret; auto|].
  step now keeps good; [apply ensures_asks; auto|]. step i keeps good; [apply ensures_gets; auto|].
  destruct (get_or_insert_with (v_seq v) now ∅ (by_sequence i)) as [entry by_seq].
  step u keeps good; [apply ensures_modify; intros j [Ht Hl Hc Hw Hr]; constructor; auto|].
  destruct (try_advance now (v_seq v) parms (default new_enforcer (seq_enforcers i !! n))) as [adv enf].
  step u1 keeps good; [apply ensures_modify; intros j [Ht Hl Hc Hw Hr]; constructor; auto|].
  destruct (negb adv); [apply ensures_ret; auto|].
  destruct (get_or_insert_with (v_ledger_id v) now ∅ (by_ledger i)) as [sset by_led].
  step u2 keeps good; [apply ensures_modify; intros j [Ht Hl Hc Hw Hr]; constructor; auto|].
  assert (forall prior, ensures good (when (v_trusted v) (update_trie_validation order n v prior)) (fun _ => good)) as Hup.
  { intros prior. destruct (v_trusted v) eqn:Hv; [now apply update_validation_keeps|apply ensures_ret; auto]. }
  destruct (current i !! n) as [old|].
  - destruct (v_sign_time old <? v_sign_time v); [|apply ensures_ret; auto].
    step u3 keeps good; [now apply insert_current_keeps|]. step u4 keeps good; [apply Hup|apply ensures_ret; auto].
  - step u3 keeps good; [apply Hup|]. step u4 keeps good; [now apply insert_current_keeps|apply ensures_ret; auto].
Qed.

(** The nodes with current validations stay the same. *)
Definition of_nodes (D : gset Z) i : Prop := good i /\ dom (current i) = D.

Lemma alter_current_keeps D n (f : Validation -> Validation) : n ∈ D ->
  ensures (of_nodes D) (modify (fun i => set_current (alter f n (current i)) i))
    (fun _ i => of_nodes D i /\ exists v, current i !! n = Some (f v)).
Proof.
  intros Hn. apply ensures_modify. intros i [Hi Hd]. cbn [current set_current]. split.
  - split; [|cbn [current set_current]; now rewrite dom_alter_L]. apply set_current_good; [exact Hi|]. rewrite dom_alter_L. apply Hi.
  - rewrite lookup_alter_eq. rewrite <- Hd in Hn. apply elem_of_dom in Hn as [v Hv]. rewrite Hv. cbn. eauto.
Qed.

Lemma on_current_keeps D n (m : Validation -> M unit) (P : Validation -> Prop) :
  (forall c v, P v -> n ∈ nodes -> ensures (steady c) (m v) (fun _ => steady c)) ->
  ensures (fun i => of_nodes D i /\ exists v, current i !! n = Some v /\ P v)
    (c ← gets current; match c !! n with Some v => m v | None => lift Panic end) (fun _ => of_nodes D).
Proof.
  intros Hm s [[Hs Hd] (v & Hv & HP)]. unfold mbind, M_bind, gets. cbn [bind]. rewrite Hv.
  destruct (Hm (current (inner s)) v HP) with (s := s) as (a & s' & Hrun & [Hg Hcur]).
  - apply (good_current _ Hs). apply elem_of_dom. eauto.
  - now apply steady_self.
  - exists a, s'. split; [exact Hrun|]. split; [exact Hg|]. now rewrite Hcur.
Qed.

Lemma trust_changed_keeps added removed : ensures good (trust_changed order added removed) (fun _ => good).
Proof.
  unfold trust_changed.
  step ns; [apply (ensures_gets _ _ (fun ns i => good i /\ Forall (fun n => n ∈ dom (current i)) ns))|].
  { intros i Hi. split; [exact Hi|]. apply Forall_forall. intros n (e & <- & He)%list_elem_of_In%in_map_iff.
    apply list_elem_of_In in He. rewrite order_perm in He. destruct e as [n v]. apply elem_of_map_to_list in He. apply elem_of_dom. eauto. }
  refine (ensures_ex (fun D i => of_nodes D i /\ Forall (fun n => n ∈ D) ns) _ _ _ _ _); [intros i [Hi Hns]; exists (dom (current i)); split; [split; [exact Hi|reflexivity]|exact Hns]|].
  intros D. refine (ensures_fact _ _ _ _ _). intros Hns.
  step u keeps (good : Inner -> Prop); [|apply ensures_modify; intros i [Ht Hl Hc Hw Hr]; constructor; auto].
  eapply ensures_post; [apply (ensures_for_each (of_nodes D))|intros ? i [Hi _]; exact Hi].
  intros n Hn. rewrite Forall_forall in Hns. specialize (Hns n Hn).
  destruct (decide (n ∈ added)); [|destruct (decide (n ∈ removed)); [|apply ensures_ret; auto]].
  - step u1; [now apply alter_current_keeps|]. eapply ensures_pre; [|apply (on_current_keeps D n (fun v => update_trie_validation order n v None) (fun v => v_trusted v = true))].
    + intros i [Hi (v & Hv)]. split; [exact Hi|]. exists (set_trusted v). auto.
    + intros c v Hv Hn'. now apply update_trie_validation_keeps.
  - step u1; [now apply alter_current_keeps|]. eapply ensures_pre; [|apply (on_current_keeps D n (remove_trie n) (fun _ => True))].
    + intros i [Hi (v & Hv)]. split; [exact Hi|]. eauto.
    + intros c v _ _. apply remove_trie_keeps.
Qed.

Lemma backed_bag (tr : LedgerTrie L) m : backed tr m -> holds_bag tr (votes m).
Proof. intros Hb. split; [apply votes_counts|exact Hb]. Qed.

(** The choice among the trie's ledger, those awaited and our own. *)
Definition working_choice (curr : L) (awaited : option (Z * Z)) (r : option (SpanTip L)) : option (Z * Z) :=
  match r with
  | None => awaited
  | Some p =>
      Some (if (tip_seq p =? seq curr + 1) && (ancestor (tip_ledger p) (seq curr) =? lid curr) then (seq curr, lid curr)
            else if (tip_seq p >? seq curr) || negb (ancestor curr (tip_seq p) =? tip_id p) then (tip_seq p, tip_id p)
            else (seq curr, lid curr))
  end.

Lemma is_parent_spec (p : SpanTip L) curr :
  is_parent p curr = Ok ((tip_seq p =? seq curr + 1) && (ancestor (tip_ledger p) (seq curr) =? lid curr)).
Proof.
  unfold is_parent, tip_ancestor. destruct (Z.eqb_spec (tip_seq p) (seq curr + 1)); [|reflexivity].
  destruct (Z.leb_spec (seq curr) (tip_seq p)); [reflexivity|lia].
Qed.

(** The trie's ledger, by the rule on the votes. *)
Lemma trie_preferred_keeps lg : ensures good (with_trie order parms (LedgerTrie.get_preferred lg))
  (fun r i => good i /\ ranked lg (votes (last_ledger i)) r).
Proof. apply (with_trie_keeps _ (fun r m => ranked lg (votes m) r)). intros tr m Hb. apply get_preferred_ranked. now apply backed_bag. Qed.

(** The largest sequence this node has validated. *)
Definition issued (lg : Z) i : Prop := good i /\ largest (local_seq_enforcer i) = lg.

Lemma get_preferred_keeps lg curr : ensures (issued lg) (get_preferred order parms curr)
  (fun r i => good i /\ exists p, ranked lg (votes (last_ledger i)) p /\ r = working_choice curr (most_awaited i) p).
Proof.
  unfold get_preferred. step x; [apply (ensures_gets _ _ (fun x i => good i /\ x = lg)); intros i [Hi Hx]; auto|].
  refine (ensures_fact _ _ _ _ _). intros ->. step r; [apply trie_preferred_keeps|]. destruct r as [p|].
  - step b; [apply (ensures_lift _ _ (fun b i => (good i /\ ranked lg (votes (last_ledger i)) (Some p)) /\
      b = (tip_seq p =? seq curr + 1) && (ancestor (tip_ledger p) (seq curr) =? lid curr)))|].
    { intros i Hi. rewrite is_parent_spec. eauto. }
    refine (ensures_fact _ _ _ _ _). intros Hb.
    assert (forall a, working_choice curr a (Some p) = Some (if b then (seq curr, lid curr)
      else if (tip_seq p >? seq curr) || negb (ancestor curr (tip_seq p) =? tip_id p) then (tip_seq p, tip_id p)
      else (seq curr, lid curr))) as Hw by (intros a; cbn; now rewrite <- Hb).
    destruct b; [|destruct (tip_seq p >? seq curr); [|destruct (negb _)]]; apply ensures_ret; intros i [Hi Hr];
      (split; [exact Hi|]); exists (Some p); rewrite Hw; auto.
  - apply ensures_gets. intros i [Hi Hr]. split; [exact Hi|]. exists None. auto.
Qed.

Lemma supporters_known i key ws : ws ⊆ nodes -> supporters i key ws ⊆ nodes.
Proof. unfold supporters. set_solver. Qed.

Lemma observe_good o i : good i -> nodes_of o ⊆ nodes -> good (observe_validation_recovery o i).
Proof.
  intros [Ht Hl Hc Hw [Ha Hb]] Ho. unfold observe_validation_recovery. destruct o as [o|]; [|constructor; cbn; auto; set_solver].
  destruct (recovery_anchor i) as [a|] eqn:Hanchor; [destruct (decide (p_key a = p_key o))|].
  all: constructor; cbn in *; auto; (split; [try assumption; set_solver|]).
  all: try (rewrite Hb; reflexivity) || exact Hb || idtac.
  destruct (recovery_candidate i) as [c|]; [|exact Ho]. cbn in Hb. destruct (decide (p_key c = p_key o)); cbn; set_solver.
Qed.

Lemma observe_last o i : last_ledger (observe_validation_recovery o i) = last_ledger i /\
  most_awaited (observe_validation_recovery o i) = most_awaited i.
Proof.
  unfold observe_validation_recovery. destruct o as [o|]; [|auto].
  destruct (recovery_anchor i) as [a|]; [destruct (decide (p_key a = p_key o))|]; auto.
Qed.

Lemma diagnostic_keeps lg lcl min_seq peers : ensures (issued lg) (get_preferred_lcl_diagnostic order parms lcl min_seq peers)
  (fun d i => good i /\ exists p, ranked lg (votes (last_ledger i)) p /\
    working_preferred d = working_choice lcl (most_awaited i) p /\
    selected d = (select_lcl lcl min_seq (most_common peers) (working_preferred d)).1).
Proof.
  unfold get_preferred_lcl_diagnostic. step x; [apply (ensures_gets _ _ (fun x i => good i /\ x = lg)); intros i [Hi Hx]; auto|].
  refine (ensures_fact _ _ _ _ _). intros ->. step tp; [apply trie_preferred_keeps|]. step i; [apply ensures_gets_eq|].
  eapply (ensures_bind _ _ _ (fun ws j => ((good j /\ ranked lg (votes (last_ledger j)) tp) /\ i = j) /\ ws.1 = working_choice lcl (most_awaited i) tp)).
  { destruct tp as [p|].
    - intros s Hs. unfold mbind, M_bind, lift. rewrite is_parent_spec. cbn [bind]. eexists _, s. split; [reflexivity|]. auto.
    - apply ensures_ret. intros j Hj. split; [exact Hj|]. cbn. now destruct (most_awaited i). }
  intros [working source]. cbn [fst]. destruct (select_lcl lcl min_seq (most_common peers) working) as [sel sel_source] eqn:Hsel.
  set (recovery := match recovery_advice i lcl min_seq peers with Some a => _ | None => None end).
  step u; [apply (ensures_modify _ _ (fun _ j => good j /\ last_ledger j = last_ledger i /\ most_awaited j = most_awaited i /\
    ranked lg (votes (last_ledger i)) tp /\ working = working_choice lcl (most_awaited i) tp))|].
  - intros j [[[Hj Hr] ->] Hw]. split.
    + apply observe_good; [exact Hj|]. destruct recovery as [[[key sup] ps]|]; cbn; [|set_solver].
      apply supporters_known. now apply waiters_known.
    + split; [apply observe_last|]. split; [apply observe_last|]. auto.
  - apply ensures_ret. intros j (Hj & Hl & Ha & Hr & Hw). split; [exact Hj|]. exists tp. rewrite Hl, Ha. cbn. rewrite Hsel. auto.
Qed.

Lemma good_size i : good i -> Z.of_nat (size (last_ledger i)) <= max_of U32.
Proof.
  intros Hi. assert (size (last_ledger i) <= size nodes)%nat; [|lia]. rewrite <- size_dom. apply subseteq_size. apply Hi.
Qed.

Lemma good_tip i l : good i -> tip_support (lid l) (trie i) = Ok (E := unit) (voters (same_ledger l) (last_ledger i)).
Proof.
  intros Hi. destruct (good_trie _ Hi) as (t & Hok & Htot).
  rewrite (tip_support_spec _ t _ Hok), (Htot _ (ext_at_id _)). f_equal. apply tip_voters.
Qed.

Lemma good_branch i l : good i -> branch_support l (trie i) = Ok (E := unit) (voters (at_or_after l) (last_ledger i)).
Proof.
  intros Hi. destruct (good_trie _ Hi) as (t & Hok & Htot).
  rewrite (branch_support_spec _ t l Hok), (Htot _ (ext_covers _)). f_equal. apply branch_voters.
Qed.

Lemma good_check i : good i -> check_invariants (trie i) = Ok (E := unit) true.
Proof. intros Hi. destruct (good_trie _ Hi) as (t & Hok & _). exact (check_invariants_spec _ t Hok). Qed.

Lemma get_nodes_after_keeps l x : ensures good (get_nodes_after order parms l x)
  (fun r i => good i /\ (lid l = x -> r = voters (after l) (last_ledger i))).
Proof.
  unfold get_nodes_after. destruct (Z.eqb_spec (lid l) x) as [<-|Hne].
  - unfold with_trie. step u; [apply live_keeps|]. step u1 keeps good.
    + apply ensures_steady. intros c. eapply ensures_post; [apply check_acquired_keeps|]. intros ? i [Hi _]. exact Hi.
    + step tr; [apply ensures_gets_eq|]. apply ensures_lift. intros i [Hi ->]. rewrite (good_branch i l Hi). cbn [bind].
      rewrite (good_tip i l Hi). cbn [bind]. rewrite after_voters.
      pose proof (voters_bound (after l) (last_ledger i)) as Hb. pose proof (good_size i Hi) as Hs.
      rewrite plain_ok by (cbn [min_of] in *; assert (max_of U32 <= max_of Usize) by (vm_compute; discriminate); lia).
      eexists. split; [reflexivity|]. auto.
  - apply ensures_gets. intros i Hi. split; [exact Hi|congruence].
Qed.

Lemma touched_keeps x : ensures good (touched_validations order x) (fun _ => good).
Proof.
  unfold touched_validations. step now keeps good; [apply ensures_asks; auto|].
  step u keeps good; [|apply ensures_gets; auto]. apply ensures_modify. intros i [Ht Hl Hc Hw Hr]. constructor; auto.
Qed.

Lemma reconcile_good a c i : good i -> good (reconcile_validation_recovery_latch a c i).
Proof.
  clear order order_perm nodes_fit.
  intros [Ht Hl Hc Hw [Ha Hb]].
  assert (forall k ps, Forall (fun p => p_nodes p ⊆ nodes) ps -> nodes_of (take_exact k ps).1 ⊆ nodes /\
    Forall (fun p => p_nodes p ⊆ nodes) (take_exact k ps).2) as Htake.
  { intros k ps. induction 1 as [|p ps Hp Hps [IH1 IH2]]; cbn; [split; [set_solver|constructor]|].
    destruct (decide (p_key p = k)); [auto|]. destruct (take_exact k ps); cbn in *. auto. }
  assert (Forall (fun p => p_nodes p ⊆ nodes) (option_list (recovery_anchor i) ++ option_list (recovery_candidate i))) as Hps.
  { apply Forall_app. destruct (recovery_anchor i), (recovery_candidate i); cbn in *; split; repeat constructor; auto. }
  unfold reconcile_validation_recovery_latch. set (proofs := _ ++ _) in *.
  assert (forall o ps, Forall (fun p => p_nodes p ⊆ nodes) ps ->
    nodes_of (match o with Some k => take_exact k ps | None => (None, ps) end).1 ⊆ nodes /\
    Forall (fun p => p_nodes p ⊆ nodes) (match o with Some k => take_exact k ps | None => (None, ps) end).2) as Hopt.
  { intros [k|] ps Hps'; [now apply Htake|]. cbn. split; [set_solver|exact Hps']. }
  destruct (Hopt a proofs Hps) as [H1 H2]. destruct (match a with Some k => _ | None => _ end) as [x ps].
  set (d := match c with Some k => _ | None => _ end). destruct (Hopt d ps H2) as [H3 _].
  destruct (match d with Some k => _ | None => _ end) as [y ps']. constructor; auto.
Qed.
End Keeps.
