(* ===== verification/ValidationsProps.v ===== *)
(** * ValidationsProps: what the validation store guarantees

    Sequences of operations on a new store, each in its own state of the adaptor:
    the trie counts exactly the nodes' last ledgers, the preferred ledger follows
    the rule of the trie on those votes, and the sequences of the validations a
    node gets accepted increase. *)

From stdpp Require Import gmap sorting.
From Stdlib Require Import ZArith Lia.
From S2P Require Import Prelude LedgerTrie TrieTree TrieOps TrieInsert TrieQuery TrieRemove TrieCheck TriePreferred RclLedger TrieProps Validations ValidationsInv.
Local Open Scope Z_scope.

(** ** The policy for the preferred ledger *)

(** The last of the greatest elements. *)
Section MaxBy.
Context {A : Type} (le : A -> A -> bool) (R : A -> A -> Prop).
Hypothesis le_total : forall a b, le a b = true \/ le b a = true.
Hypothesis le_trans : forall a b c, le a b = true -> le b c = true -> le a c = true.

Lemma max_by_spec l : StronglySorted R l ->
  match max_by le l with
  | None => l = []
  | Some b => b ∈ l /\ forall a, a ∈ l -> le a b = true /\ (le b a = true -> a = b \/ R a b)
  end.
Proof.
  induction 1 as [|a l _ IH Ha]; [reflexivity|]. cbn [max_by]. rewrite Forall_forall in Ha.
  destruct (max_by le l) as [b|] eqn:Hb.
  - destruct IH as [Hin Hmax]. destruct (le a b) eqn:Hab.
    + split; [now right|]. intros c [->|Hc]%elem_of_cons; auto.
    + destruct (le_total a b) as [?|Hba]; [congruence|]. split; [left|]. intros c [->|Hc]%elem_of_cons.
      * destruct (le_total a a); auto.
      * destruct (Hmax c Hc) as [Hcb _]. split; [eauto|]. intros Hac. rewrite (le_trans a c b Hac Hcb) in Hab. discriminate.
  - subst l. split; [left|]. intros c ->%list_elem_of_singleton. destruct (le_total a a); auto.
Qed.
End MaxBy.

Lemma pair_le_spec a b : pair_le a b = true <-> a.1 < b.1 \/ a.1 = b.1 /\ a.2 <= b.2.
Proof. unfold pair_le. rewrite orb_true_iff, andb_true_iff, Z.ltb_lt, Z.eqb_eq, Z.leb_le. tauto. Qed.

Section Policy.
Context `{TrieLedger L, !TrieLedgerLaws L}.
Implicit Types (l : L) (p : SpanTip L).

(** [p] is a child of [l]; [p] is [l] or one of its ancestors. *)
Definition child_of l p : Prop := tip_seq p = seq l + 1 /\ lineage (tip_ledger p) (seq l) = lid l.
Definition on_line l p : Prop := tip_seq p <= seq l /\ lineage l (tip_seq p) = tip_id p.

(** The key that most nodes wait for, the greater identifier and then the greater
    sequence of several. *)
Definition most_waited_for (acq : gmap (Z * Z) (gset Z)) (k : Z * Z) : Prop :=
  exists ws, acq !! k = Some ws /\ forall k' ws', acq !! k' = Some ws' ->
    (size ws' < size ws)%nat \/ size ws' = size ws /\ (k'.2 < k.2 \/ k'.2 = k.2 /\ k'.1 <= k.1).

(** The ledger that most peers report, the greater identifier of several. *)
Definition most_reported (peers : gmap Z Z) (x : Z) : Prop :=
  exists c, peers !! x = Some c /\ forall x' c', peers !! x' = Some c' -> c' < c \/ c' = c /\ x' <= x.

(** The working ledger, given the preferred ledger of the trie. *)
Definition working_rule l (acq : gmap (Z * Z) (gset Z)) (r : option (SpanTip L)) (k : option (Z * Z)) : Prop :=
  match r, k with
  | Some p, Some k => (child_of l p \/ on_line l p) /\ k = (seq l, lid l) \/
      ~ child_of l p /\ ~ on_line l p /\ k = (tip_seq p, tip_id p)
  | Some _, None => False
  | None, Some k => most_waited_for acq k
  | None, None => acq = ∅
  end.

(** The ledger to go on from, given the working ledger. *)
Definition selection_rule l (min_seq : Z) (peers : gmap Z Z) (k : option (Z * Z)) (x : Z) : Prop :=
  match k with
  | Some k => min_seq <= k.1 /\ x = k.2 \/ k.1 < min_seq /\ x = lid l
  | None => most_reported peers x \/ peers = ∅ /\ x = lid l
  end.

Lemma working_rule_tip l acq p : tip_ok p -> working_rule l acq (Some p) (working_choice l None (Some p)).
Proof.
  intros (Hseq & Hid & Hfl). unfold working_choice, working_rule, child_of, on_line. pose proof (seq_nonneg l).
  assert (tip_seq p = seq l + 1 -> ancestor (tip_ledger p) (seq l) = lineage (tip_ledger p) (seq l)) as H1.
  { intros Heq. apply ancestor_known. destruct (Z.eq_dec (seq l) 0); [auto|]. right. pose proof (floor_le l). lia. }
  assert (tip_seq p <= seq l -> ancestor l (tip_seq p) = lineage l (tip_seq p)) as H2 by (intros Hle; apply ancestor_known; lia).
  rewrite Z.gtb_ltb. destruct (Z.eqb_spec (tip_seq p) (seq l + 1)) as [Heq|Hne]; cbn [andb].
  - rewrite (H1 Heq). destruct (Z.eqb_spec (lineage (tip_ledger p) (seq l)) (lid l)) as [He|Hn]; [auto|].
    destruct (Z.ltb_spec (seq l) (tip_seq p)); [|lia]. right. cbn [orb]. split; [tauto|]. split; [lia|reflexivity].
  - destruct (Z.ltb_spec (seq l) (tip_seq p)) as [Hlt|Hge]; cbn [orb]; [right; split; [tauto|]; split; [lia|reflexivity]|].
    rewrite (H2 Hge). destruct (Z.eqb_spec (lineage l (tip_seq p)) (tip_id p)); cbn [negb]; [left|right]; tauto.
Qed.

Lemma most_awaited_spec i : match most_awaited (L := L) i with
  | Some k => most_waited_for (acquiring i) k
  | None => acquiring i = ∅
  end.
Proof.
  unfold most_awaited. set (le := fun a b : Z * Z * gset Z => _).
  pose proof (merge_sort_Permutation (fun a b : Z * Z * gset Z => key_le a.1 b.1) (map_to_list (acquiring i))) as Hperm.
  assert (StronglySorted (fun a b : Z * Z * gset Z => key_le a.1 b.1) (waiting i)) as Hsort.
  { apply StronglySorted_merge_sort; [intros a b c; unfold key_le; lia|intros a b; unfold key_le; lia]. }
  assert (forall e, e ∈ waiting i <-> acquiring i !! e.1 = Some e.2) as Hin.
  { intros [k ws]. unfold waiting. rewrite Hperm. apply elem_of_map_to_list. }
  pose proof (max_by_spec le _ ltac:(intros a b; unfold le; rewrite !pair_le_spec; lia)
    ltac:(intros a b c; unfold le; rewrite !pair_le_spec; cbn; lia) _ Hsort) as Hmax.
  destruct (max_by le (waiting i)) as [[k ws]|]; cbn [fmap option_fmap option_map fst].
  - destruct Hmax as [Hk Hall]. exists ws. split; [now apply (Hin (k, ws))|]. intros k' ws' Hk'.
    destruct (Hall (k', ws')) as [Hle Hlast]; [now apply Hin|]. unfold le in *. rewrite pair_le_spec in Hle, Hlast. cbn in *. unfold key_le in Hlast. cbn in Hlast.
    destruct Hle as [?|[Hsz Hid]]; [lia|]. right. split; [lia|]. destruct (Z.eq_dec k'.2 k.2) as [Heq|]; [|lia]. right. split; [exact Heq|].
    destruct Hlast as [He|Hl]; [lia|injection He as -> ->; lia|lia].
  - apply map_to_list_empty_iff, Permutation_nil_r. rewrite <- Hperm. fold (waiting i). now rewrite Hmax.
Qed.

Lemma any_sorted {A} (xs : list A) : StronglySorted (fun _ _ => True) xs.
Proof. induction xs; constructor; [assumption|]. now apply Forall_true. Qed.

Lemma most_common_spec (peers : gmap Z Z) : match most_common peers with
  | Some (x, _) => most_reported peers x
  | None => peers = ∅
  end.
Proof.
  unfold most_common. set (le := fun a b : Z * Z => _).
  pose proof (max_by_spec le (fun _ _ => True) ltac:(intros a b; unfold le; rewrite !pair_le_spec; cbn; lia)
    ltac:(intros a b c; unfold le; rewrite !pair_le_spec; cbn; lia) (map_to_list peers)) as Hmax.
  destruct (max_by le (map_to_list peers)) as [[x c]|].
  - destruct Hmax as [Hx Hall]; [apply any_sorted|]. apply elem_of_map_to_list in Hx. exists c. split; [exact Hx|].
    intros x' c' Hx'. destruct (Hall (x', c')) as [Hle _]; [now apply elem_of_map_to_list|]. unfold le in Hle. rewrite pair_le_spec in Hle. exact Hle.
  - apply map_to_list_empty_iff. apply Hmax. apply any_sorted.
Qed.

Lemma working_rule_spec l (i : Inner (L := L)) r : match r with Some p => tip_ok p | None => True end ->
  working_rule l (acquiring i) r (working_choice l (most_awaited i) r).
Proof.
  destruct r as [p|]; intros Hp; [exact (working_rule_tip l (acquiring i) p Hp)|]. cbn.
  pose proof (most_awaited_spec i). now destruct (most_awaited i).
Qed.

Lemma selection_rule_spec l min_seq peers k : selection_rule l min_seq peers k (select_lcl l min_seq (most_common peers) k).1.
Proof.
  unfold selection_rule, select_lcl. destruct k as [[s x]|]; [destruct (Z.leb_spec min_seq s); cbn; auto|].
  pose proof (most_common_spec peers). destruct (most_common peers) as [[x c]|]; cbn; auto.
Qed.
End Policy.

Section Store.
Context `{TrieLedger L, !TrieLedgerLaws L} {W : Type} `{!ValidationsAdaptor L W}.
Context (order : forall A, list A -> list A).
Context (parms : ValidationParms).

(** ** Sequences of operations *)

Inductive store_op : Type :=
  | OpAdd (node_id : Z) (val : Validation)
  | OpTrustChanged (added removed : gset Z)
  | OpAcquired (ledger : L)
  | OpUnacquired (ledger_id : Z)
  | OpReconcile (anchor candidate : option (Z * Z))
  | OpCanValidate (s : Z)
  | OpKeep (low high : Z)
  | OpExpire
  | OpPreferred (curr : L)
  | OpPreferredMinSeq (curr : L) (min_seq : Z)
  | OpPreferredLcl (lcl : L) (min_seq : Z) (peers : gmap Z Z)
  | OpNodesAfter (ledger : L) (ledger_id : Z)
  | OpCurrentTrusted
  | OpCurrentNodes
  | OpNumTrusted (ledger_id : Z)
  | OpTrustedFor (ledger_id s : Z)
  | OpFees (ledger_id base_fee : Z)
  | OpFlush
  | OpLaggards (s : Z) (keys : gset Z).

Definition discard {A} (m : M (L := L) (W := W) A) : M unit := _ ← m; mret tt.

Definition store_step (o : store_op) : M (L := L) (W := W) unit :=
  match o with
  | OpAdd n v => discard (add order parms n v)
  | OpTrustChanged a r => trust_changed order a r
  | OpAcquired l => on_ledger_acquired order parms l
  | OpUnacquired x => discard (on_ledger_unacquired order parms x)
  | OpReconcile a c => modify (reconcile_validation_recovery_latch a c)
  | OpCanValidate s => discard (can_validate_seq parms s)
  | OpKeep low high => set_seq_to_keep low high
  | OpExpire => expire order parms
  | OpPreferred l => discard (get_preferred order parms l)
  | OpPreferredMinSeq l m => discard (get_preferred_min_seq order parms l m)
  | OpPreferredLcl l m p => discard (get_preferred_lcl order parms l m p)
  | OpNodesAfter l x => discard (get_nodes_after order parms l x)
  | OpCurrentTrusted => discard (current_trusted order parms)
  | OpCurrentNodes => discard (get_current_node_ids order parms)
  | OpNumTrusted x => discard (num_trusted_for_ledger order x)
  | OpTrustedFor x s => discard (get_trusted_for_ledger order x s)
  | OpFees x b => discard (fees order x b)
  | OpFlush => flush
  | OpLaggards s k => discard (laggards order parms s k)
  end.

(** Each operation runs in the state the adaptor has then. *)
Fixpoint run_store (os : list (W * store_op)) (i : Inner (L := L)) : outcome unit (Inner (L := L)) :=
  match os with
  | [] => Ok i
  | (w, o) :: os => '(_, s) <- store_step o (mkSt w i);; run_store os (inner s)
  end.

(** Validations come from known nodes, and a range to keep is not empty. *)
Definition op_ok (nodes : gset Z) (o : store_op) : Prop :=
  match o with
  | OpAdd n _ => n ∈ nodes
  | OpKeep low high => low < high
  | _ => True
  end.

Section Invariant.
Context (order_perm : forall A (l : list A), order A l ≡ₚ l).
Context (nodes : gset Z) (nodes_fit : Z.of_nat (size nodes) <= max_of U32).

Lemma discard_runs {A} (P : Inner -> Prop) (m : M (L := L) (W := W) A) Q : ensures P m Q -> (forall a i, Q a i -> P i) -> ensures P (discard m) (fun _ => P).
Proof. intros Hm HQ. eapply ensures_bind; [exact Hm|]. intros a. apply ensures_ret. intros i Hi. eauto. Qed.

Lemma issued_runs {A} (m : M (L := L) (W := W) A) (Q : Z -> A -> Inner -> Prop) : (forall lg, ensures (issued nodes lg) m (Q lg)) ->
  (forall lg a i, Q lg a i -> good nodes i) -> ensures (good nodes) m (fun _ => good nodes).
Proof.
  intros Hm HQ s Hs. destruct (Hm (largest (local_seq_enforcer (inner s))) s) as (a & s' & Hrun & Hq); [split; auto|]. eauto.
Qed.

Lemma store_step_keeps o : op_ok nodes o -> ensures (good nodes) (store_step o) (fun _ => good nodes).
Proof.
  pose proof (live_keeps order order_perm parms nodes nodes_fit) as Hlive.
  pose proof (touched_keeps order nodes) as Htouch.
  assert (forall A B (m : M (L := L) (W := W) A) (f : A -> B), ensures (good nodes) m (fun _ => good nodes) ->
    ensures (good nodes) (discard (x ← m; mret (f x))) (fun _ => good nodes)) as Hret.
  { intros A B m f Hm. eapply discard_runs with (Q := fun _ => good nodes); [|auto]. eapply ensures_bind; [exact Hm|]. intros a. apply ensures_ret. auto. }
  destruct o; intros Hok; cbn [store_step op_ok] in *.
  - eapply discard_runs; [now apply add_keeps|auto].
  - now apply trust_changed_keeps.
  - now apply on_ledger_acquired_keeps.
  - eapply discard_runs; [now apply on_ledger_unacquired_keeps|auto].
  - apply ensures_modify. intros i Hi. now apply reconcile_good.
  - eapply discard_runs; [apply can_validate_keeps|auto].
  - unfold set_seq_to_keep, debug_assert. destruct (Z.ltb_spec low high); [|lia].
    eapply (ensures_bind _ _ _ (fun _ => good nodes)); [apply ensures_ret; auto|]. intros ?. apply ensures_modify.
    intros i [Ht Hl Hc Hw Hr]. constructor; auto.
  - apply expire_keeps.
  - eapply discard_runs; [eapply issued_runs; [intros lg; now apply get_preferred_keeps|intros ? ? ? [Hi _]; exact Hi]|auto].
  - apply Hret. eapply issued_runs; [intros lg; now apply get_preferred_keeps|intros ? ? ? [Hi _]; exact Hi].
  - apply Hret. eapply issued_runs; [intros lg; now apply diagnostic_keeps|intros ? ? ? [Hi _]; exact Hi].
  - eapply discard_runs; [now apply get_nodes_after_keeps|]. intros ? ? [Hi _]. exact Hi.
  - now apply Hret.
  - now apply Hret.
  - now apply Hret.
  - now apply Hret.
  - now apply Hret.
  - apply ensures_modify. intros i [Ht Hl Hc Hw Hr]. constructor; auto; cbn; set_solver.
  - eapply discard_runs with (Q := fun _ => good nodes); [|auto]. unfold laggards.
    eapply (ensures_bind _ _ _ (fun _ => good nodes)); [apply ensures_asks; auto|]. intros now.
    eapply ensures_bind; [exact Hlive|]. intros live. apply ensures_ret. auto.
Qed.

Lemma run_store_good os : forall i, Forall (fun e => op_ok nodes e.2) os -> good nodes i ->
  exists i', run_store os i = Ok i' /\ good nodes i'.
Proof.
  induction os as [|[w o] os IH]; intros i Hos Hi; [exists i; auto|]. apply Forall_cons in Hos as [Ho Hos].
  destruct (store_step_keeps o Ho (mkSt w i) Hi) as (a & s & Hrun & Hs). cbn [run_store]. rewrite Hrun. cbn [bind].
  exact (IH (inner s) Hos Hs).
Qed.
End Invariant.

(** ** Sequence enforcers *)

(** An operation that does not touch the sequence enforcers of the nodes. *)
Definition frames {A} (m : M (L := L) (W := W) A) : Prop := forall s a s', m s = Ok (a, s') ->
  seq_enforcers (inner s') = seq_enforcers (inner s).

Lemma frames_bind {A B} (m : M A) (k : A -> M B) : frames m -> (forall a, frames (k a)) -> frames (m ≫= k).
Proof.
  intros Hm Hk s b s'. unfold mbind, M_bind. destruct (m s) as [[a s1]| | | |] eqn:Hs; cbn [bind]; try discriminate.
  intros Hrun. rewrite (Hk a _ _ _ Hrun). exact (Hm _ _ _ Hs).
Qed.

Lemma frames_ret {A} (a : A) : frames (mret a).
Proof. intros s b s' [= _ <-]. reflexivity. Qed.
Lemma frames_gets {A} (f : Inner -> A) : frames (gets f).
Proof. intros s b s' [= _ <-]. reflexivity. Qed.
Lemma frames_asks {A} (f : W -> A) : frames (asks f).
Proof. intros s b s' [= _ <-]. reflexivity. Qed.
Lemma frames_lift {A} (o : outcome unit A) : frames (lift o).
Proof. intros s b s'. unfold lift. destruct o; cbn [bind]; intros [= _ <-] || discriminate. reflexivity. Qed.
Lemma frames_acquire x : frames (acquire_ledger x).
Proof. intros s b s'. unfold acquire_ledger. destruct (acquire x (world s)). intros [= _ <-]. reflexivity. Qed.
Lemma frames_modify f : (forall i, seq_enforcers (f i) = seq_enforcers i) -> frames (modify f).
Proof. intros Hf s b s' [= _ <-]. apply Hf. Qed.
Lemma frames_for_each {A} (l : list A) f : (forall a, frames (f a)) -> frames (for_each l f).
Proof. intros Hf. induction l as [|a l IH]; [apply frames_ret|]. apply frames_bind; auto. Qed.
Lemma frames_when b m : frames m -> frames (when b m).
Proof. intros Hm. destruct b; [exact Hm|apply frames_ret]. Qed.

Create HintDb frames.
#[local] Hint Resolve frames_ret frames_gets frames_asks frames_lift frames_acquire frames_when : frames.

Ltac frame_cases :=
  unfold prune_validation_recovery_signer, take_validation_recovery_nodes, observe_validation_recovery,
    reconcile_validation_recovery_latch; repeat case_match; reflexivity.

Ltac frame_step :=
  match goal with
  | |- frames (mbind _ _) => apply frames_bind; [|intros ?]
  | |- frames (for_each _ _) => apply frames_for_each; intros ?
  | |- frames (modify _) => apply frames_modify; intros ?; first [reflexivity | frame_cases]
  | |- frames (when _ _) => apply frames_when
  | |- frames (match ?x with _ => _ end) => destruct x
  | |- frames (debug_assert _) => unfold debug_assert
  | |- frames _ => solve [auto with frames]
  end.
Ltac frame := repeat frame_step.

Lemma frames_update_ledger n l : frames (update_trie_ledger n l).
Proof. unfold update_trie_ledger. frame. Qed.
#[local] Hint Resolve frames_update_ledger : frames.

Lemma frames_remove_trie n v : frames (remove_trie n v).
Proof. unfold remove_trie. frame. Qed.
#[local] Hint Resolve frames_remove_trie : frames.

Lemma frames_check_acquired : frames (check_acquired order).
Proof. unfold check_acquired. frame. Qed.
#[local] Hint Resolve frames_check_acquired : frames.

Lemma frames_wait n v : frames (wait_or_support n v).
Proof. unfold wait_or_support. frame. Qed.
#[local] Hint Resolve frames_wait : frames.

Lemma frames_update_validation n v p : frames (update_trie_validation order n v p).
Proof. unfold update_trie_validation. frame. Qed.
#[local] Hint Resolve frames_update_validation : frames.

Lemma frames_live : frames (current_live order parms).
Proof. unfold current_live. frame. Qed.
#[local] Hint Resolve frames_live : frames.

Lemma frames_with_trie {R} (f : LedgerTrie L -> outcome unit R) : frames (with_trie order parms f).
Proof. unfold with_trie. frame. Qed.
#[local] Hint Resolve frames_with_trie : frames.

Lemma frames_touched x : frames (touched_validations order x).
Proof. unfold touched_validations. frame. Qed.
#[local] Hint Resolve frames_touched : frames.

Lemma frames_get_preferred l : frames (get_preferred order parms l).
Proof. unfold get_preferred. frame. Qed.
#[local] Hint Resolve frames_get_preferred : frames.

(** Only [add] touches them. *)
Lemma frames_step o : (forall n v, o <> OpAdd n v) -> frames (store_step o).
Proof.
  intros Hadd. destruct o; cbn [store_step]; unfold discard; [destruct (Hadd node_id val); reflexivity|..].
  - unfold trust_changed. frame.
  - unfold on_ledger_acquired. frame.
  - unfold on_ledger_unacquired. frame.
  - frame.
  - unfold can_validate_seq. frame.
  - unfold set_seq_to_keep. frame.
  - unfold expire. frame.
  - frame.
  - unfold get_preferred_min_seq. frame.
  - unfold get_preferred_lcl, get_preferred_lcl_diagnostic. frame.
  - unfold get_nodes_after. frame.
  - unfold current_trusted. frame.
  - unfold get_current_node_ids. frame.
  - unfold num_trusted_for_ledger. frame.
  - unfold get_trusted_for_ledger. frame.
  - unfold fees. frame.
  - unfold flush. frame.
  - unfold laggards. frame.
Qed.

(** What [add] does to them: nothing when the validation is not current, else it
    asks the enforcer of the node, which has to let the validation through for it to
    become current. *)
Lemma add_enforcers n v s st s' : add order parms n v s = Ok (st, s') ->
  let now := instant (world s) in
  let asked := try_advance now (v_seq v) parms (default new_enforcer (seq_enforcers (inner s) !! n)) in
  (seq_enforcers (inner s') = seq_enforcers (inner s) /\ st = Stale) \/
  (seq_enforcers (inner s') = <[n := asked.2]> (seq_enforcers (inner s)) /\ (st = Current -> asked.1 = true)).
Proof.
  cbv zeta. unfold add. unfold mbind at 1, M_bind at 1, asks at 1. cbn [bind].
  destruct (negb _); [intros [= <- <-]; left; auto|]. intros Hrun. right. revert Hrun.
  unfold mbind at 1, M_bind at 1, asks at 1. cbn [bind]. unfold mbind at 1, M_bind at 1, gets at 1. cbn [bind].
  destruct (get_or_insert_with _ _ _ _) as [entry by_seq]. unfold mbind at 1, M_bind at 1, modify at 1. cbn [bind].
  set (asked := try_advance _ _ _ _). destruct asked as [adv enf] eqn:Ha. unfold mbind at 1, M_bind at 1, modify at 1. cbn [bind inner].
  set (s1 := mkSt _ (set_enforcers _ _)). cbn [fst snd].
  assert (seq_enforcers (inner s1) = <[n := enf]> (seq_enforcers (inner s))) as <- by reflexivity.
  destruct (negb adv) eqn:Hn.
  - intros [= <- <-]. split; [reflexivity|]. repeat case_match; discriminate.
  - apply negb_false_iff in Hn. subst adv. intros Hrun. split; [|auto]. revert Hrun.
    destruct (get_or_insert_with _ _ _ _) as [sset by_led]. match goal with |- ?m s1 = _ -> _ => assert (frames m) as Hf end; [frame|]. apply Hf.
Qed.

(** The enforcer of the node holds a sequence from [s0] up, let through at [t0] or
    later. *)
Definition held (n s0 t0 : Z) (i : Inner (L := L)) : Prop := exists e w, seq_enforcers i !! n = Some e /\
  s0 <= enf_seq e /\ enf_when e = Some w /\ t0 <= w.

Lemma try_advance_held t0 s0 now s e w : enf_when e = Some w -> t0 <= w -> t0 <= now <= t0 + validation_set_expires parms ->
  s0 <= enf_seq e ->
  let '(b, e') := try_advance now s parms e in
  (b = true -> enf_seq e < s) /\ s0 <= enf_seq e' /\ exists w', enf_when e' = Some w' /\ t0 <= w'.
Proof.
  intros Hw Hle Hnow Hs. unfold try_advance. rewrite Hw. destruct (Z.gtb_spec now (w + validation_set_expires parms)); [lia|].
  destruct (Z.leb_spec s (enf_seq e)); cbn; (split; [congruence || lia|]); eauto with lia.
Qed.

Lemma add_held n v s st s' n0 s0 t0 : add order parms n v s = Ok (st, s') -> held n0 s0 t0 (inner s) ->
  t0 <= instant (world s) <= t0 + validation_set_expires parms ->
  held n0 s0 t0 (inner s') /\ (n = n0 -> st = Current -> s0 < v_seq v).
Proof.
  intros Hrun (e & w & He & Hs & Hw & Hle) Hnow. destruct (add_enforcers n v s st s' Hrun) as [[Heq ->]|[Heq Hst]].
  - unfold held. rewrite Heq. split; [eauto 6|discriminate].
  - destruct (decide (n = n0)) as [->|Hne].
    + rewrite He in Heq, Hst. cbn [default from_option] in Heq, Hst. unfold id in Heq, Hst.
      pose proof (try_advance_held t0 s0 (instant (world s)) (v_seq v) e w Hw Hle Hnow Hs) as Hadv.
      destruct (try_advance (instant (world s)) (v_seq v) parms e) as [b e']. cbn [fst snd] in *.
      destruct Hadv as (Hb & Hs' & w' & Hw' & Hle'). split.
      * exists e', w'. rewrite Heq, lookup_insert_eq. auto.
      * intros _ Hc. specialize (Hb (Hst Hc)). lia.
    + split; [|congruence]. exists e, w. rewrite Heq, lookup_insert_ne by exact Hne. auto.
Qed.

Lemma run_store_held os n0 s0 t0 : forall i i', run_store os i = Ok i' -> held n0 s0 t0 i ->
  Forall (fun e => t0 <= instant e.1 <= t0 + validation_set_expires parms) os -> held n0 s0 t0 i'.
Proof.
  induction os as [|[w o] os IH]; intros i i' Hrun Hi Hos; cbn [run_store] in Hrun; [injection Hrun as <-; exact Hi|].
  apply Forall_cons in Hos as [Hnow Hos]. cbn [fst] in Hnow.
  destruct (store_step o (mkSt w i)) as [[a s]| | | |] eqn:Hstep; cbn [bind] in Hrun; try discriminate.
  apply (IH (inner s) i' Hrun); [|exact Hos]. 
  assert ((exists n v, o = OpAdd n v) \/ forall n v, o <> OpAdd n v) as [(n & v & ->)|Hno]
    by (destruct o; [left; eauto|right; discriminate..]).
  - cbn [store_step] in Hstep. unfold discard, mbind, M_bind in Hstep.
    destruct (add order parms n v (mkSt w i)) as [[st s1]| | | |] eqn:Hadd; cbn [bind] in Hstep; try discriminate.
    injection Hstep as _ <-. exact (proj1 (add_held _ _ _ _ _ n0 s0 t0 Hadd Hi Hnow)).
  - unfold held. rewrite (frames_step o Hno _ _ _ Hstep). exact Hi.
Qed.

Lemma add_now_held n v s s' : add order parms n v s = Ok (Current, s') -> held n (v_seq v) (instant (world s)) (inner s').
Proof.
  intros Hrun. destruct (add_enforcers n v s Current s' Hrun) as [[_ Habs]|[Heq Hst]]; [discriminate|]. specialize (Hst eq_refl).
  unfold try_advance in *. destruct (v_seq v <=? _); [discriminate|]. cbn [snd] in Heq. eexists _, _. rewrite Heq, lookup_insert_eq.
  split; [reflexivity|]. cbn. split; [lia|]. split; [reflexivity|lia].
Qed.

(** ** The guarantees *)

(** The parent of a ledger, as far as it knows it. *)
Definition has_parent (x : Z) (l : L) : Prop := 0 < seq l /\ ancestor l (seq l - 1) = x.
#[local] Instance has_parent_dec x l : Decision (has_parent x l).
Proof. unfold has_parent. apply _. Defined.

(** C30: whatever sequence of operations a new store goes through, with validations
    from at most [u32::MAX] nodes, ranges to keep that are not empty, and in whatever
    order hash tables are walked, no operation panics or overflows a count (sequence numbers are not bounded); afterwards the tip support of a ledger in the
    trie is the number of nodes that have it as their last ledger, its branch
    support the number of nodes with it or a descendant, the trie's check of its
    invariants passes, and every ledger being acquired is awaited by some of the
    nodes.  A node may keep its last ledger when its validation is flushed, or when
    a validation of another ledger is removed.  The ledgers
    satisfy [TrieLedgerLaws]: identifiers do not collide, and all ledgers but the
    genesis ledger have an ancestor in common that they know, with their ancestors
    from there on. *)
Theorem votes_back_the_trie (nodes : gset Z) (os : list (W * store_op)) :
  (forall A (l : list A), order A l ≡ₚ l) -> Z.of_nat (size nodes) <= max_of U32 ->
  Forall (fun e => op_ok nodes e.2) os ->
  exists i, run_store os inner_new = Ok i /\
    (forall l, tip_support (lid l) (trie i) = Ok (E := unit) (voters (same_ledger l) (last_ledger i))) /\
    (forall l, branch_support l (trie i) = Ok (E := unit) (voters (at_or_after l) (last_ledger i))) /\
    check_invariants (trie i) = Ok (E := unit) true /\
    map_Forall (fun _ waiters => waiters ≠ ∅ /\ waiters ⊆ nodes) (acquiring i).
Proof.
  intros Hord Hfit Hos. destruct (run_store_good Hord nodes Hfit os inner_new Hos (good_new nodes)) as (i & Hrun & Hi).
  exists i. split; [exact Hrun|]. split; [intros l; now apply (good_tip nodes)|]. split; [intros l; now apply (good_branch nodes)|].
  split; [now apply (good_check nodes)|apply Hi].
Qed.

(** C31: in every such state [get_preferred_lcl] returns.  With [p] the ledger the
    rule of the trie picks on the nodes' last ledgers ([ranked]), the working
    ledger is our own when [p] is its child, one of its ancestors or the ledger
    itself, and [p] otherwise; without any votes it is the ledger the most nodes
    wait for, of several the one with the greatest identifier and then sequence,
    if nodes wait for any.  The working ledger is selected when its sequence is not below
    the minimal one, and our own otherwise; without a working ledger, the one the
    most peers report, of several the one with the greatest identifier, or our own
    when no peer reports any.  The ledgers
    satisfy [TrieLedgerLaws]: identifiers do not collide, and all ledgers but the
    genesis ledger have an ancestor in common that they know, with their ancestors
    from there on. *)
Theorem preferred_lcl_policy (nodes : gset Z) (os : list (W * store_op)) w i lcl min_seq peers :
  (forall A (l : list A), order A l ≡ₚ l) -> Z.of_nat (size nodes) <= max_of U32 ->
  Forall (fun e => op_ok nodes e.2) os -> run_store os inner_new = Ok i ->
  exists p k x s', ranked (largest (local_seq_enforcer i)) (votes (last_ledger (inner s'))) p /\
    working_rule lcl (acquiring (inner s')) p k /\ selection_rule lcl min_seq peers k x /\
    get_preferred_lcl order parms lcl min_seq peers (mkSt w i) = Ok (x, s').
Proof.
  intros Hord Hfit Hos Hrun. destruct (run_store_good Hord nodes Hfit os inner_new Hos (good_new nodes)) as (i' & Hrun' & Hi).
  rewrite Hrun in Hrun'. injection Hrun' as <-.
  destruct (diagnostic_keeps order Hord parms nodes Hfit (largest (local_seq_enforcer i)) lcl min_seq peers (mkSt w i))
    as (d & s' & Hd & Hs' & p & Hp & Hw & Hsel); [split; [exact Hi|reflexivity]|].
  exists p, (working_preferred d), (selected d), s'. split; [exact Hp|]. split; [|split].
  - rewrite Hw. apply working_rule_spec. destruct p; [apply Hp|exact I].
  - rewrite Hsel. apply selection_rule_spec.
  - unfold get_preferred_lcl, mbind, M_bind. now rewrite Hd.
Qed.

(** C33: in every such state [get_nodes_after] returns; the subtraction of the
    supports does not underflow.  For the ledger's own identifier it returns the
    number of nodes whose last ledger, after the stale validations are removed and
    the acquired ledgers taken in, is a proper descendant of the ledger; for
    another identifier the number of nodes whose last ledger has it as its parent.
    A node counts as long as it has a last ledger, whether or not its validation is
    still current and trusted.  The ledgers
    satisfy [TrieLedgerLaws]: identifiers do not collide, and all ledgers but the
    genesis ledger have an ancestor in common that they know, with their ancestors
    from there on. *)
Theorem nodes_after_counts (nodes : gset Z) (os : list (W * store_op)) w i ledger x :
  (forall A (l : list A), order A l ≡ₚ l) -> Z.of_nat (size nodes) <= max_of U32 ->
  Forall (fun e => op_ok nodes e.2) os -> run_store os inner_new = Ok i ->
  exists s', get_nodes_after order parms ledger x (mkSt w i) =
    Ok (if decide (lid ledger = x) then voters (after ledger) (last_ledger (inner s'))
        else voters (has_parent x) (last_ledger i), s').
Proof.
  intros Hord Hfit Hos Hrun. destruct (run_store_good Hord nodes Hfit os inner_new Hos (good_new nodes)) as (i' & Hrun' & Hi).
  rewrite Hrun in Hrun'. injection Hrun' as <-. destruct (decide (lid ledger = x)) as [Heq|Hne].
  - destruct (get_nodes_after_keeps order Hord parms nodes Hfit ledger x (mkSt w i) Hi) as (r & s' & Hr & _ & Hn).
    exists s'. now rewrite <- (Hn Heq).
  - exists (mkSt w i). unfold get_nodes_after. destruct (Z.eqb_spec (lid ledger) x); [contradiction|]. reflexivity.
Qed.

(** C32: two validations of the same node that are both accepted as current, with
    any operations in between and no more than [validation_set_expires] of the
    monotonic clock from the first on, have increasing sequence numbers. *)
Theorem accepted_sequences_increase n v1 v2 os (s1 s2 s3 : St (L := L) (W := W)) w2 i2 :
  add order parms n v1 s1 = Ok (Current, s2) ->
  run_store os (inner s2) = Ok i2 ->
  add order parms n v2 (mkSt w2 i2) = Ok (Current, s3) ->
  Forall (fun w => instant (world s1) <= instant w <= instant (world s1) + validation_set_expires parms) (w2 :: map fst os) ->
  v_seq v1 < v_seq v2.
Proof.
  intros H1 Hos H2 [Hw2 Hws]%Forall_cons. pose proof (add_now_held n v1 s1 s2 H1) as Hheld.
  apply (run_store_held os n (v_seq v1) (instant (world s1)) _ _ Hos) in Hheld.
  - exact (proj2 (add_held n v2 _ _ _ n (v_seq v1) (instant (world s1)) H2 Hheld Hw2) eq_refl eq_refl).
  - apply Forall_map in Hws. exact Hws.
Qed.
End Store.

(** ** A concrete store *)

Module Example.
Import TrieProps.Example.
#[local] Existing Instance rcl_trie_ledger.
#[local] Existing Instance TrieProps.Example.laws.

(** The adaptor's state is the time in seconds; the two ledgers at sequence 9 can be
    acquired from the tenth second on. *)
#[local] Instance adaptor : ValidationsAdaptor ledger Z := {
  net_now w := 1000 + w;
  instant w := secs w;
  acquire x w := ((if w <? 10 then None else if x =? 90 then Some left9 else if x =? 91 then Some right9 else None), w)
}.

Definition same A (l : list A) : list A := l.
Definition validation (node x s time : Z) : Validation := mkValidation x s (1000 + time) (1000 + time) node true true node None 0.

Definition calls : list (Z * store_op (L := ledger)) :=
  [(5, OpAdd 1 (validation 1 90 9 5)); (6, OpAdd 2 (validation 2 91 9 6)); (11, OpAdd 3 (validation 3 90 9 11));
   (12, OpTrustChanged ∅ {[3]}); (13, OpExpire); (14, OpPreferred left9)].

Definition store_after (o : outcome unit (Inner (L := ledger))) : Inner := match o with Ok i => i | _ => inner_new end.
Definition after_calls : Inner (L := ledger) := store_after (run_store same default_parms calls inner_new).

Lemma calls_ok : Forall (fun e => op_ok {[1; 2; 3]} e.2) calls.
Proof. unfold calls. repeat constructor; cbn; set_solver. Qed.

Lemma nodes_fit : Z.of_nat (size ({[1; 2; 3]} : gset Z)) <= max_of U32.
Proof. vm_compute. discriminate. Qed.

Lemma same_perm A (l : list A) : same A l ≡ₚ l.
Proof. reflexivity. Qed.

Lemma completed_state o : match o with Ok _ => true | _ => false end = true -> o = Ok (store_after o).
Proof. destruct o; cbn; congruence. Qed.

Lemma calls_run : run_store same default_parms calls inner_new = Ok after_calls.
Proof. apply completed_state. vm_compute. reflexivity. Qed.

Lemma votes_back_the_trie_witness :
  exists i, run_store same default_parms calls inner_new = Ok i /\
    tip_support 90 (trie i) = Ok (E := unit) (voters (same_ledger left9) (last_ledger i)) /\
    check_invariants (trie i) = Ok (E := unit) true.
Proof.
  destruct (votes_back_the_trie same default_parms {[1; 2; 3]} calls same_perm nodes_fit calls_ok) as (i & Hrun & Htip & _ & Hinv & _).
  exists i. split; [exact Hrun|]. split; [exact (Htip left9)|exact Hinv].
Defined.

Definition root : ledger := genesis.

(** What the store answers from the genesis ledger. *)
Definition answer {A B} (o : outcome unit (A * B)) : option A := match o with Ok (a, _) => Some a | _ => None end.

Lemma answers :
  answer (get_preferred_lcl same default_parms root 1 ∅ (mkSt 15 after_calls)) = Some 91 /\
  answer (get_nodes_after same default_parms root (lid root) (mkSt 15 after_calls)) = Some 2.
Proof. split; vm_compute; reflexivity. Qed.

Lemma preferred_lcl_policy_witness : exists p k s',
  ranked 0 (ValidationsInv.votes (last_ledger (inner s'))) p /\
  working_rule root (acquiring (inner s')) p k /\ selection_rule root 1 ∅ k 91 /\
  get_preferred_lcl same default_parms root 1 ∅ (mkSt 15 after_calls) = Ok (91, s').
Proof.
  destruct (preferred_lcl_policy same default_parms {[1; 2; 3]} calls 15 after_calls root 1 ∅ same_perm nodes_fit calls_ok calls_run)
    as (p & k & x & s' & Hp & Hk & Hx & Hrun).
  exists p, k, s'. pose proof (proj1 answers) as Ha. rewrite Hrun in Ha. injection Ha as ->. auto.
Defined.

Lemma nodes_after_counts_witness : exists s',
  get_nodes_after same default_parms root (lid root) (mkSt 15 after_calls) = Ok (2, s') /\
  voters (after root) (last_ledger (inner s')) = 2.
Proof.
  destruct (nodes_after_counts same default_parms {[1; 2; 3]} calls 15 after_calls root (lid root) same_perm nodes_fit calls_ok calls_run) as [s' Hs'].
  rewrite decide_True in Hs' by reflexivity. pose proof (proj2 answers) as Ha. rewrite Hs' in Ha. injection Ha as Ha.
  exists s'. rewrite Hs', Ha. auto.
Defined.

(** The nodes counted are not only those with a current validation. *)
Lemma flushed_still_counted :
  let i := store_after (run_store same default_parms (calls ++ [(15, OpFlush)]) inner_new) in
  size (current i) = 0%nat /\ answer (get_nodes_after same default_parms root (lid root) (mkSt 16 i)) = Some 2.
Proof. vm_compute. auto. Qed.

(** A node moves on from sequence 9 to sequence 10 with other calls in between. *)
Definition first_add : outcome unit (ValStatus * St (L := ledger) (W := Z)) :=
  add same default_parms 1 (validation 1 90 9 5) (mkSt 5 inner_new).
Definition state_after {A} (o : outcome unit (A * St (L := ledger) (W := Z))) : St :=
  match o with Ok (_, s) => s | _ => mkSt 0 inner_new end.
Definition status {A} (o : outcome unit (ValStatus * A)) : option ValStatus := match o with Ok (st, _) => Some st | _ => None end.

Lemma status_state o st : status o = Some st -> o = Ok (st, state_after o).
Proof. destruct o as [[st' s]| | | |]; cbn; congruence. Qed.

Definition between : list (Z * store_op (L := ledger)) := [(6, OpAdd 2 (validation 2 91 9 6)); (7, OpExpire)].
Definition store_between : Inner (L := ledger) := store_after (run_store same default_parms between (inner (state_after first_add))).

Lemma accepted_sequences_increase_witness : 9 < 10.
Proof.
  apply (accepted_sequences_increase same default_parms 1 (validation 1 90 9 5) (validation 1 100 10 8) between (mkSt 5 inner_new)
    (state_after first_add) (state_after (add same default_parms 1 (validation 1 100 10 8) (mkSt 8 store_between))) 8 store_between).
  - apply status_state. vm_compute. reflexivity.
  - apply completed_state. vm_compute. reflexivity.
  - apply status_state. vm_compute. reflexivity.
  - repeat constructor; vm_compute; discriminate.
Defined.
End Example.
