(* ===== verification/ShamapKey.v ===== *)
(** * ShamapKey: keys and node identifiers of the SHAMap

    Models [xrpl/shamap/src/nodes/node_id.rs] and the operations of [Uint256]
    ([xrpl/basics/src/math/base_uint.rs]) it uses.  A key is its 32 bytes; a node
    identifier is the path from the root, the first [depth] nibbles of a key, kept
    as a key whose other nibbles are zero.  The lemmas say what the operations do to
    nibbles: the identifier of the node at the end of the path [p] is [id_of p], its
    child at branch [b] is [id_of (p ++ [b])], and the branch a key takes at depth
    [d] is its nibble [d]. *)

From stdpp Require Import list sorting.
From Stdlib Require Import ZArith Lia.
From S2P Require Import Prelude Serializer.
Local Open Scope Z_scope.

(** ** Keys *)

Abbreviation Uint256 := (list Z).

Definition uint256_zero : Uint256 := replicate 32 0.

(** [BitAnd] *)
Definition bitand (a b : Uint256) : Uint256 := zip_with Z.land a b.

(** [Ord]: the order of the byte strings. *)
Fixpoint key_cmp (a b : Uint256) : comparison :=
  match a, b with
  | [], [] => Eq
  | [], _ => Lt
  | _, [] => Gt
  | x :: a, y :: b => match x ?= y with Eq => key_cmp a b | c => c end
  end.

Definition key_ltb (a b : Uint256) : bool := match key_cmp a b with Lt => true | _ => false end.

(** [from_slice] *)
Definition uint256_from_slice (bytes : Blob) : option Uint256 :=
  if decide (length bytes = 32%nat) then Some bytes else None.

(** ** Node identifiers *)

Definition SHAMAP_BRANCH_FACTOR : nat := 16.
Definition SHAMAP_LEAF_DEPTH : nat := 64.

Inductive SHAMapNodeIdError : Type :=
| InvalidDepth
| HashDoesNotMatchDepth
| InvalidBranch
| LeafHasNoChildren.

Record SHAMapNodeId : Type := mkId { node_key : Uint256; depth : nat }.

#[global] Instance SHAMapNodeId_eq_dec : EqDecision SHAMapNodeId.
Proof. solve_decision. Defined.

(** [Default] *)
Definition root_id : SHAMapNodeId := mkId uint256_zero 0.

(** [bytes[i] |= v] with the index in range. *)
Definition or_byte (i : nat) (v : Z) (bytes : Uint256) : Uint256 := alter (fun x => Z.lor x v) i bytes.

(** [depth_mask]: past the last nibble the index leaves the array. *)
Definition depth_mask {E} (depth : nat) : outcome E Uint256 :=
  if decide (64 < depth)%nat then Panic
  else Ok (fold_left (fun bytes nibble => or_byte (nibble / 2) (if Nat.odd nibble then 0x0F else 0xF0) bytes)
             (seq 0 depth) uint256_zero).

Definition node_id_new (depth : nat) (hash : Uint256) : outcome SHAMapNodeIdError SHAMapNodeId :=
  if decide (SHAMAP_LEAF_DEPTH < depth)%nat then Err InvalidDepth
  else
    mask <- depth_mask depth;;
    if decide (hash = bitand hash mask) then Ok (mkId hash depth) else Err HashDoesNotMatchDepth.

Definition is_root (id : SHAMapNodeId) : bool := Nat.eqb (depth id) 0.

Definition get_raw_string (id : SHAMapNodeId) : Blob := node_key id ++ [Z.of_nat (depth id)].

Definition get_child_node_id (id : SHAMapNodeId) (branch : nat) : outcome SHAMapNodeIdError SHAMapNodeId :=
  if decide (SHAMAP_BRANCH_FACTOR <= branch)%nat then Err InvalidBranch
  else if decide (SHAMAP_LEAF_DEPTH <= depth id)%nat then Err LeafHasNoChildren
  else
    mask <- depth_mask (depth id);;
    if decide (node_key id = bitand (node_key id) mask) then
      let b := Z.of_nat branch in
      node_id_new (depth id + 1)
        (or_byte (depth id / 2) (if Nat.odd (depth id) then b else Z.shiftl b 4) (node_key id))
    else Err HashDoesNotMatchDepth.

Definition create_id (depth : nat) (key : Uint256) : outcome SHAMapNodeIdError SHAMapNodeId :=
  if decide (SHAMAP_LEAF_DEPTH < depth)%nat then Err InvalidDepth
  else mask <- depth_mask depth;; node_id_new depth (bitand key mask).

Definition deserialize_shamap_node_id (data : Blob) : outcome SHAMapNodeIdError (option SHAMapNodeId) :=
  if decide (length data = 33%nat) then
    let depth := Z.to_nat (nth 32 data 0) in
    if decide (SHAMAP_LEAF_DEPTH < depth)%nat then Ok None
    else
      match node_id_new depth (take 32 data) with
      | Ok id => Ok (Some id)
      | Err _ => Ok None
      | Panic => Panic
      | Wraps => Wraps
      | OutOfFuel => OutOfFuel
      end
  else Ok None.

(** [hash.data()[depth / 2]] panics below the leaves. *)
Definition select_branch {E} (id : SHAMapNodeId) (hash : Uint256) : outcome E nat :=
  match hash !! (depth id / 2)%nat with
  | Some byte => Ok (Z.to_nat (if Nat.odd (depth id) then Z.land byte 0x0F else Z.shiftr byte 4))
  | None => Panic
  end.

(** ** Nibbles *)

Definition is_key (k : Uint256) : Prop := length k = 32%nat /\ bytes_ok k.

Definition nibble (k : Uint256) (i : nat) : nat :=
  match k !! (i / 2)%nat with
  | Some byte => Z.to_nat (if Nat.odd i then Z.land byte 0x0F else Z.shiftr byte 4)
  | None => O
  end.

Definition nibbles (k : Uint256) : list nat := nibble k <$> seq 0 64.

(** The key that starts with the nibbles [p] and goes on with zeros. *)
Definition of_nibbles (p : list nat) : Uint256 :=
  (fun i => Z.of_nat (nth (2 * i) p O * 16 + nth (2 * i + 1) p O)) <$> seq 0 32.

(** The identifier of the node at the end of the path [p]. *)
Definition id_of (p : list nat) : SHAMapNodeId := mkId (of_nibbles p) (length p).

Definition path_ok (p : list nat) : Prop := (length p <= 64)%nat /\ Forall (fun b => (b < 16)%nat) p.

(** *** The two nibbles of a byte *)

Lemma byte_of_nibbles x : is_byte x -> x = Z.shiftr x 4 * 16 + Z.land x 15.
Proof.
  intros Hx. rewrite Z.shiftr_div_pow2 by lia. change 15 with (2 ^ 4 - 1). rewrite land_low by lia.
  pose proof (Z.div_mod x (2 ^ 4) ltac:(lia)). lia.
Qed.

Lemma high_nibble_lt x : is_byte x -> 0 <= Z.shiftr x 4 < 16.
Proof. intros [H1 H2]. rewrite Z.shiftr_div_pow2 by lia. split; [apply Z.div_pos; lia|apply Z.div_lt_upper_bound; lia]. Qed.

Lemma low_nibble_lt x : 0 <= Z.land x 15 < 16.
Proof. change 15 with (2 ^ 4 - 1). rewrite land_low by lia. apply Z.mod_pos_bound. lia. Qed.

Lemma nibble_of_byte h l : 0 <= l < 16 -> Z.shiftr (h * 16 + l) 4 = h /\ Z.land (h * 16 + l) 15 = l.
Proof.
  intros Hl. rewrite Z.shiftr_div_pow2 by lia. change 15 with (2 ^ 4 - 1). rewrite land_low by lia.
  change (2 ^ 4) with 16. split; [rewrite Z.div_add_l, Z.div_small by lia; lia|].
  rewrite Z.add_comm, Z.mod_add, Z.mod_small by lia. reflexivity.
Qed.

Lemma half_even j : (2 * j / 2)%nat = j /\ Nat.odd (2 * j) = false.
Proof. split; [rewrite Nat.mul_comm; apply Nat.div_mul; lia|]. rewrite <- Nat.negb_even, Nat.even_mul. reflexivity. Qed.

Lemma half_odd j : ((2 * j + 1) / 2)%nat = j /\ Nat.odd (2 * j + 1) = true.
Proof.
  split; [rewrite (Nat.mul_comm 2), Nat.div_add_l by lia; cbn; lia|].
  rewrite Nat.odd_add, Nat.odd_mul. reflexivity.
Qed.

Lemma parity i : (exists j, i = 2 * j)%nat \/ (exists j, i = 2 * j + 1)%nat.
Proof. destruct (Nat.Even_or_Odd i) as [[j ->]|[j ->]]; eauto. Qed.

Lemma nibble_even k j : nibble k (2 * j) = match k !! j with Some x => Z.to_nat (Z.shiftr x 4) | None => O end.
Proof. unfold nibble. destruct (half_even j) as [-> ->]. reflexivity. Qed.

Lemma nibble_odd k j : nibble k (2 * j + 1) = match k !! j with Some x => Z.to_nat (Z.land x 15) | None => O end.
Proof. unfold nibble. destruct (half_odd j) as [-> ->]. reflexivity. Qed.

Lemma key_byte k j : is_key k -> (j < 32)%nat -> exists x, k !! j = Some x /\ is_byte x.
Proof.
  intros [Hl Hk] Hj. destruct (lookup_lt_is_Some_2 k j) as [x Hx]; [by rewrite Hl|].
  exists x. split; [exact Hx|]. eapply Forall_lookup_1; [exact Hk|exact Hx].
Qed.

Lemma nibble_lt (k : Uint256) i : bytes_ok k -> (nibble k i < 16)%nat.
Proof.
  intros Hk. unfold nibble. destruct (k !! (i / 2)%nat) as [x|] eqn:E; [|lia].
  assert (is_byte x) as Hx by (eapply Forall_lookup_1; [exact Hk|exact E]).
  pose proof (high_nibble_lt x Hx). pose proof (low_nibble_lt x). destruct (Nat.odd i); lia.
Qed.

(** A key is determined by its nibbles. *)
Lemma nibble_ext a b : is_key a -> is_key b -> (forall i, (i < 64)%nat -> nibble a i = nibble b i) -> a = b.
Proof.
  intros Ha Hb H. apply list_eq_same_length with (n := 32%nat); [apply Hb|apply Ha|].
  intros j x y Hj Hx Hy. assert (is_byte x /\ is_byte y) as [Bx By].
  { split; [eapply Forall_lookup_1; [apply Ha|exact Hx]|eapply Forall_lookup_1; [apply Hb|exact Hy]]. }
  pose proof (H (2 * j)%nat ltac:(lia)) as H1. pose proof (H (2 * j + 1)%nat ltac:(lia)) as H2.
  rewrite !nibble_even, Hx, Hy in H1. rewrite !nibble_odd, Hx, Hy in H2.
  rewrite (byte_of_nibbles x), (byte_of_nibbles y) by assumption.
  pose proof (high_nibble_lt x Bx). pose proof (high_nibble_lt y By). pose proof (low_nibble_lt x). pose proof (low_nibble_lt y). lia.
Qed.

(** *** The nibbles of each operation *)

Lemma key_land_byte x y : is_byte x -> is_byte y -> is_byte (Z.land x y).
Proof.
  intros [Hx Hx'] [Hy Hy']. split; [apply Z.land_nonneg; auto|].
  destruct (Z.eq_dec (Z.land x y) 0) as [->|Hn]; [lia|].
  assert (0 <= Z.land x y) by (apply Z.land_nonneg; auto).
  apply Z.log2_lt_cancel. eapply Z.le_lt_trans; [apply Z.log2_land; lia|].
  destruct (Z.eq_dec x 0) as [->|]; [cbn; lia|].
  assert (Z.log2 x < 8) by (apply Z.log2_lt_pow2; lia). change (Z.log2 256) with 8. lia.
Qed.

Lemma lor_byte x y : is_byte x -> is_byte y -> is_byte (Z.lor x y).
Proof.
  intros [Hx Hx'] [Hy Hy']. split; [apply Z.lor_nonneg; auto|].
  destruct (Z.eq_dec (Z.lor x y) 0) as [->|Hn]; [lia|].
  assert (0 <= Z.lor x y) by (apply Z.lor_nonneg; auto).
  apply Z.log2_lt_cancel. rewrite Z.log2_lor by lia. change (Z.log2 256) with 8.
  assert (forall z, 0 <= z < 256 -> Z.log2 z < 8).
  { intros z Hz. destruct (Z.eq_dec z 0) as [->|]; [cbn; lia|]. apply Z.log2_lt_pow2; lia. }
  apply Z.max_lub_lt; auto.
Qed.

Lemma bitand_key a b : is_key a -> is_key b -> is_key (bitand a b).
Proof.
  intros [Ha Ba] [Hb Bb]. split; [unfold bitand; rewrite length_zip_with; lia|].
  unfold bitand. apply Forall_lookup_2. intros i x Hx. apply lookup_zip_with_Some in Hx as (u & v & -> & Hu & Hv).
  apply key_land_byte; [eapply Forall_lookup_1; [apply Ba|exact Hu]|eapply Forall_lookup_1; [apply Bb|exact Hv]].
Qed.

Lemma or_byte_key i v k : is_key k -> is_byte v -> is_key (or_byte i v k).
Proof.
  intros [Hk Bk] Hv. split; [unfold or_byte; rewrite length_alter; exact Hk|].
  apply Forall_alter; [exact Bk|]. intros x _ Hx. now apply lor_byte.
Qed.

Lemma zero_key : is_key uint256_zero.
Proof. split; [reflexivity|]. apply Forall_replicate. split; lia. Qed.

(** A nibble of a byte-wise operation is that operation on the nibbles. *)
Lemma nibble_bitand a b i : is_key a -> is_key b -> (i < 64)%nat ->
  Z.of_nat (nibble (bitand a b) i) = Z.land (Z.of_nat (nibble a i)) (Z.of_nat (nibble b i)).
Proof.
  intros Ha Hb Hi. assert (forall j, (j < 32)%nat -> exists x y, a !! j = Some x /\ b !! j = Some y /\
    bitand a b !! j = Some (Z.land x y) /\ is_byte x /\ is_byte y) as Hj.
  { intros j Hj. destruct (key_byte a j Ha Hj) as (x & Hx & Bx). destruct (key_byte b j Hb Hj) as (y & Hy & By).
    exists x, y. repeat split; auto; try apply Bx; try apply By. unfold bitand. rewrite lookup_zip_with, Hx. cbn. now rewrite Hy. }
  destruct (parity i) as [[j ->]|[j ->]]; destruct (Hj j ltac:(lia)) as (x & y & Ex & Ey & Ez & Bx & By).
  - rewrite !nibble_even, Ex, Ey, Ez. rewrite Z.shiftr_land.
    pose proof (high_nibble_lt x Bx). pose proof (high_nibble_lt y By).
    rewrite !Z2Nat.id by (try apply Z.land_nonneg; lia). reflexivity.
  - rewrite !nibble_odd, Ex, Ey, Ez. pose proof (low_nibble_lt x). pose proof (low_nibble_lt y). pose proof (low_nibble_lt (Z.land x y)).
    rewrite !Z2Nat.id by lia. rewrite (Z.land_comm y 15), Z.land_assoc, <- (Z.land_assoc x 15 15), Z.land_diag.
    rewrite <- !Z.land_assoc. f_equal. apply Z.land_comm.
Qed.

(** Setting the nibble [d], with the other nibble of its byte left as it is. *)
Definition or_nibble (d : nat) (b : Z) (k : Uint256) : Uint256 :=
  or_byte (d / 2) (if Nat.odd d then b else Z.shiftl b 4) k.

Lemma nibble_or d b k i : is_key k -> (d < 64)%nat -> 0 <= b < 16 -> (i < 64)%nat ->
  Z.of_nat (nibble (or_nibble d b k) i) = if decide (i = d) then Z.lor (Z.of_nat (nibble k i)) b else Z.of_nat (nibble k i).
Proof.
  intros Hk Hd Hb Hi. unfold or_nibble, or_byte.
  assert (Z.shiftr b 4 = 0) as Hhi by (rewrite Z.shiftr_div_pow2 by lia; apply Z.div_small; lia).
  assert (Z.land b 15 = b) as Hlo by (change 15 with (2 ^ 4 - 1); rewrite land_low by lia; apply Z.mod_small; lia).
  assert (Z.land (Z.shiftl b 4) 15 = 0) as Hlo'.
  { change 15 with (2 ^ 4 - 1). rewrite land_low, Z.shiftl_mul_pow2 by lia. apply Z.mod_mul. lia. }
  assert (Z.shiftr (Z.shiftl b 4) 4 = b) as Hhi' by (rewrite Z.shiftr_shiftl_l by lia; apply Z.shiftl_0_r).
  assert (forall x y, Z.land (Z.lor x y) 15 = Z.lor (Z.land x 15) (Z.land y 15)) as Hd1 by (intros; apply Z.land_lor_distr_l).
  destruct (parity d) as [[j ->]|[j ->]]; [destruct (half_even j) as [-> ->]|destruct (half_odd j) as [-> ->]].
  all: destruct (parity i) as [[m ->]|[m ->]].
  all: try rewrite !nibble_even; try rewrite !nibble_odd.
  all: rewrite list_lookup_alter.
  all: destruct (key_byte k m Hk ltac:(lia)) as (x & Hx & Bx); pose proof (high_nibble_lt x Bx); pose proof (low_nibble_lt x).
  all: case_decide as Heq; [|case_decide; try lia]; try (destruct (decide (m = j)) as [->|]; [|lia]).
  all: rewrite ?decide_True, ?decide_False by lia.
  all: rewrite Hx; cbn [fmap option_fmap option_map].
  all: rewrite ?Z.shiftr_lor, ?Hd1, ?Hhi, ?Hlo, ?Hlo', ?Hhi', ?Z.lor_0_r, ?Z2Nat.id by (try apply Z.lor_nonneg; lia); try reflexivity.
Qed.

(** *** Masks *)

Definition mask_bytes (d : nat) : Uint256 :=
  fold_left (fun bytes nibble => or_byte (nibble / 2) (if Nat.odd nibble then 0x0F else 0xF0) bytes) (seq 0 d) uint256_zero.

Lemma depth_mask_ok {E} d : (d <= 64)%nat -> depth_mask (E := E) d = Ok (mask_bytes d).
Proof. intros Hd. unfold depth_mask. rewrite decide_False by lia. reflexivity. Qed.

Lemma mask_bytes_S d : mask_bytes (S d) = or_nibble d 15 (mask_bytes d).
Proof.
  unfold mask_bytes. rewrite seq_S, fold_left_app. cbn [fold_left Nat.add]. unfold or_nibble.
  f_equal.
Qed.

Lemma mask_key d : is_key (mask_bytes d).
Proof.
  induction d as [|d IH]; [apply zero_key|]. rewrite mask_bytes_S. apply or_byte_key; [exact IH|].
  destruct (Nat.odd d); unfold is_byte; rewrite ?Z.shiftl_mul_pow2 by lia; lia.
Qed.

Lemma nibble_zero i : nibble uint256_zero i = O.
Proof.
  unfold nibble, uint256_zero. destruct (replicate 32 0 !! (i / 2)%nat) as [x|] eqn:E; [|reflexivity].
  apply lookup_replicate in E as [-> _]. destruct (Nat.odd i); reflexivity.
Qed.

Lemma nibble_mask d i : (d <= 64)%nat -> (i < 64)%nat -> nibble (mask_bytes d) i = if decide (i < d)%nat then 15%nat else O.
Proof.
  induction d as [|d IH]; intros Hd Hi; [apply nibble_zero|].
  apply Nat2Z.inj. rewrite mask_bytes_S, nibble_or by (try apply mask_key; lia). rewrite IH by lia.
  repeat case_decide; try lia; reflexivity.
Qed.

Lemma nibble_masked k d i : is_key k -> (d <= 64)%nat -> (i < 64)%nat ->
  nibble (bitand k (mask_bytes d)) i = if decide (i < d)%nat then nibble k i else O.
Proof.
  intros Hk Hd Hi. apply Nat2Z.inj. rewrite nibble_bitand, nibble_mask by (try apply mask_key; assumption).
  pose proof (nibble_lt k i (proj2 Hk)). case_decide.
  - change (Z.of_nat 15) with (2 ^ 4 - 1). rewrite land_low, Z.mod_small by lia. reflexivity.
  - apply Z.land_0_r.
Qed.

(** *** Paths *)

Lemma nth_lt_16 p i : Forall (fun b => (b < 16)%nat) p -> (nth i p O < 16)%nat.
Proof.
  intros H. destruct (Nat.lt_ge_cases i (length p)) as [Hi|Hi]; [|rewrite nth_overflow; lia].
  rewrite Forall_forall in H. apply H, list_elem_of_In, nth_In, Hi.
Qed.

Lemma of_nibbles_key p : Forall (fun b => (b < 16)%nat) p -> is_key (of_nibbles p).
Proof.
  intros Hp. split; [reflexivity|]. unfold of_nibbles. apply Forall_fmap, Forall_true. intros i.
  pose proof (nth_lt_16 p (2 * i) Hp). pose proof (nth_lt_16 p (2 * i + 1) Hp). split; cbn -[nth Nat.mul]; lia.
Qed.

Lemma nibble_of_nibbles p i : Forall (fun b => (b < 16)%nat) p -> (i < 64)%nat -> nibble (of_nibbles p) i = nth i p O.
Proof.
  intros Hp Hi. pose proof (nth_lt_16 p) as Hn.
  assert (forall j, (j < 32)%nat -> of_nibbles p !! j = Some (Z.of_nat (nth (2 * j) p O) * 16 + Z.of_nat (nth (2 * j + 1) p O))) as Hj.
  { intros j Hj. unfold of_nibbles. rewrite list_lookup_fmap, lookup_seq_lt by lia. cbn -[nth Nat.mul]. f_equal. lia. }
  destruct (parity i) as [[j ->]|[j ->]].
  - rewrite nibble_even, Hj by lia. pose proof (Hn (2 * j + 1)%nat Hp).
    rewrite (proj1 (nibble_of_byte (Z.of_nat (nth (2 * j)%nat p O)) (Z.of_nat (nth (2 * j + 1)%nat p O)) ltac:(lia))). apply Nat2Z.id.
  - rewrite nibble_odd, Hj by lia. pose proof (Hn (2 * j + 1)%nat Hp).
    rewrite (proj2 (nibble_of_byte (Z.of_nat (nth (2 * j)%nat p O)) (Z.of_nat (nth (2 * j + 1)%nat p O)) ltac:(lia))). apply Nat2Z.id.
Qed.

Lemma nibbles_length k : length (nibbles k) = 64%nat.
Proof. reflexivity. Qed.

Lemma nth_nibbles k i : (i < 64)%nat -> nth i (nibbles k) O = nibble k i.
Proof.
  intros Hi. apply nth_lookup_Some. unfold nibbles. rewrite list_lookup_fmap, lookup_seq_lt by exact Hi. reflexivity.
Qed.

Lemma nibbles_lt (k : Uint256) : bytes_ok k -> Forall (fun b => (b < 16)%nat) (nibbles k).
Proof. intros Hk. apply Forall_fmap, Forall_true. intros i. now apply nibble_lt. Qed.

Lemma nibbles_inj a b : is_key a -> is_key b -> nibbles a = nibbles b -> a = b.
Proof. intros Ha Hb H. apply nibble_ext; auto. intros i Hi. rewrite <- !nth_nibbles by exact Hi. now rewrite H. Qed.

Lemma of_nibbles_of k : is_key k -> of_nibbles (nibbles k) = k.
Proof.
  intros Hk. pose proof (nibbles_lt k (proj2 Hk)) as Hn. apply nibble_ext; [now apply of_nibbles_key|exact Hk|].
  intros i Hi. rewrite nibble_of_nibbles by auto. now apply nth_nibbles.
Qed.

Lemma nth_take {A} n i (p : list A) d : (i < n)%nat -> nth i (take n p) d = nth i p d.
Proof. intros Hi. rewrite !nth_lookup, lookup_take_lt by exact Hi. reflexivity. Qed.

(** Masking keeps a prefix of the nibbles. *)
Lemma masked_nibbles k d : is_key k -> (d <= 64)%nat -> bitand k (mask_bytes d) = of_nibbles (take d (nibbles k)).
Proof.
  intros Hk Hd. pose proof (Forall_take _ d _ (nibbles_lt k (proj2 Hk))) as Ht.
  apply nibble_ext; [apply bitand_key; [exact Hk|apply mask_key]|now apply of_nibbles_key|].
  intros i Hi. rewrite nibble_masked, nibble_of_nibbles by auto. case_decide.
  - rewrite nth_take, nth_nibbles by lia. reflexivity.
  - symmetry. apply nth_overflow. rewrite length_take, nibbles_length. lia.
Qed.

Lemma take_next key d : (d < 64)%nat -> take (S d) (nibbles key) = take d (nibbles key) ++ [nibble key d].
Proof. intros Hd. apply take_S_r. unfold nibbles. rewrite list_lookup_fmap, lookup_seq_lt by exact Hd. reflexivity. Qed.

Lemma path_ok_take key d : is_key key -> path_ok (take d (nibbles key)).
Proof. intros Hk. split; [rewrite length_take, nibbles_length; lia|]. apply Forall_take. now apply nibbles_lt, Hk. Qed.

Lemma take_nibbles_eq a b d : (d <= 64)%nat -> (forall i, (i < d)%nat -> nibble a i = nibble b i) -> take d (nibbles a) = take d (nibbles b).
Proof.
  intros Hd Hp. induction d as [|d IH]; [now rewrite !take_0|]. rewrite !take_next by lia. rewrite IH, (Hp d) by (auto with lia). reflexivity.
Qed.

Lemma masked_path p d : path_ok p -> (length p <= d <= 64)%nat -> bitand (of_nibbles p) (mask_bytes d) = of_nibbles p.
Proof.
  intros [Hl Hp] Hd. apply nibble_ext; [apply bitand_key; [now apply of_nibbles_key|apply mask_key]|now apply of_nibbles_key|].
  intros i Hi. rewrite nibble_masked by (try apply of_nibbles_key; auto; lia). case_decide; [reflexivity|].
  symmetry. rewrite nibble_of_nibbles by auto. apply nth_overflow. lia.
Qed.

(** *** The identifier operations on paths *)

Lemma node_id_new_path p : path_ok p -> node_id_new (length p) (of_nibbles p) = Ok (id_of p).
Proof.
  intros Hp. pose proof (proj1 Hp). unfold node_id_new. rewrite decide_False by (unfold SHAMAP_LEAF_DEPTH; lia).
  rewrite depth_mask_ok by lia. cbn [bind]. rewrite masked_path by (auto; lia). now rewrite decide_True.
Qed.

Lemma root_id_path : root_id = id_of [].
Proof. reflexivity. Qed.

(** The child of the node at [p] along the branch [b] is the node at [p ++ [b]]. *)
Lemma child_id_path p b : path_ok p -> (length p < 64)%nat -> (b < 16)%nat ->
  get_child_node_id (id_of p) b = Ok (id_of (p ++ [b])).
Proof.
  intros Hp Hl Hb. assert (path_ok (p ++ [b])) as Hpb.
  { split; [rewrite length_app; cbn; lia|]. apply Forall_app; split; [apply Hp|now constructor]. }
  unfold get_child_node_id, SHAMAP_BRANCH_FACTOR, SHAMAP_LEAF_DEPTH. rewrite !decide_False by (cbn; lia).
  rewrite depth_mask_ok by (cbn; lia). cbn [bind id_of node_key depth]. rewrite masked_path by (auto; lia). rewrite decide_True by reflexivity.
  change (or_byte _ _ _) with (or_nibble (length p) (Z.of_nat b) (of_nibbles p)).
  rewrite <- (node_id_new_path (p ++ [b]) Hpb). f_equal; [rewrite length_app; reflexivity|].
  pose proof (of_nibbles_key p (proj2 Hp)) as Hk.
  apply nibble_ext; [apply or_byte_key; [exact Hk|]|apply of_nibbles_key, Hpb|].
  { destruct (Nat.odd (length p)); [split; lia|]. rewrite Z.shiftl_mul_pow2 by lia. split; lia. }
  intros i Hi. apply Nat2Z.inj. rewrite nibble_or by (auto; lia).
  rewrite !nibble_of_nibbles by (auto; try apply Hpb; apply Hp). case_decide as E.
  - subst i. rewrite nth_overflow by lia. rewrite app_nth2, Nat.sub_diag by lia. reflexivity.
  - destruct (Nat.lt_ge_cases i (length p)); [now rewrite app_nth1|].
    rewrite !nth_overflow by (rewrite ?length_app; cbn; lia). reflexivity.
Qed.

Lemma select_branch_path {E} p k : is_key k -> (length p < 64)%nat -> select_branch (E := E) (id_of p) k = Ok (nibble k (length p)).
Proof.
  intros Hk Hl. unfold select_branch, nibble. cbn [id_of depth].
  destruct (key_byte k (length p / 2) Hk) as (x & -> & _); [apply Nat.Div0.div_lt_upper_bound; lia|]. reflexivity.
Qed.

Lemma create_id_path d k : is_key k -> (d <= 64)%nat -> create_id d k = Ok (id_of (take d (nibbles k))).
Proof.
  intros Hk Hd. unfold create_id, SHAMAP_LEAF_DEPTH. rewrite decide_False by lia. rewrite depth_mask_ok by lia. cbn [bind].
  rewrite masked_nibbles by auto. assert (length (take d (nibbles k)) = d) as Hl by (rewrite length_take, nibbles_length; lia).
  rewrite <- Hl at 1. apply node_id_new_path. split; [lia|]. apply Forall_take, nibbles_lt, Hk.
Qed.

Lemma is_root_path p : is_root (id_of p) = match p with [] => true | _ => false end.
Proof. now destruct p. Qed.

(** *** The order of keys *)

Lemma nibble_cons x k i : nibble (x :: k) (S (S i)) = nibble k i.
Proof.
  unfold nibble. replace (S (S i) / 2)%nat with (S (i / 2)) by (change (S (S i)) with (2 + i)%nat; rewrite Nat.div_add_l with (a := 1%nat) (b := 2%nat); lia).
  reflexivity.
Qed.

Lemma nibble_cons_0 x k : nibble (x :: k) 0 = Z.to_nat (Z.shiftr x 4).
Proof. reflexivity. Qed.

Lemma nibble_cons_1 x k : nibble (x :: k) 1 = Z.to_nat (Z.land x 15).
Proof. reflexivity. Qed.

(** [parts a b d]: the keys part at the nibble [d], and [a] is the smaller. *)
Definition parts (a b : Uint256) (d : nat) : Prop :=
  (forall i, (i < d)%nat -> nibble a i = nibble b i) /\ (nibble a d < nibble b d)%nat.

Lemma byte_lt_nibbles x y : is_byte x -> is_byte y ->
  x < y <-> (Z.shiftr x 4 < Z.shiftr y 4 \/ (Z.shiftr x 4 = Z.shiftr y 4 /\ Z.land x 15 < Z.land y 15)).
Proof.
  intros Hx Hy. pose proof (byte_of_nibbles x Hx). pose proof (byte_of_nibbles y Hy).
  pose proof (low_nibble_lt x). pose proof (low_nibble_lt y). lia.
Qed.

Lemma key_cmp_parts (a b : Uint256) : length a = length b -> bytes_ok a -> bytes_ok b ->
  key_cmp a b = Lt <-> exists d, (d < 2 * length a)%nat /\ parts a b d.
Proof.
  revert b. induction a as [|x a IH]; intros [|y b] Hl Ha Hb; try discriminate.
  { split; [discriminate|intros (d & Hd & _); cbn in Hd; lia]. }
  inversion Ha as [|? ? Bx Ba]; inversion Hb as [|? ? By Bb]; subst. injection Hl as Hl.
  pose proof (high_nibble_lt x Bx). pose proof (high_nibble_lt y By). pose proof (low_nibble_lt x). pose proof (low_nibble_lt y).
  pose proof (byte_lt_nibbles x y Bx By) as Hxy. pose proof (byte_lt_nibbles y x By Bx) as Hyx.
  cbn [key_cmp]. destruct (Z.compare_spec x y) as [->|Hlt|Hgt].
  - rewrite (IH b Hl Ba Bb). split.
    + intros (d & Hd & Hp & Hn). exists (S (S d)). split; [cbn; lia|]. split; [|now rewrite !nibble_cons].
      intros [|[|i]] Hi; [reflexivity|reflexivity|]. rewrite !nibble_cons. apply Hp. lia.
    + intros ([|[|d]] & Hd & Hp & Hn); [rewrite !nibble_cons_0 in Hn; lia|rewrite !nibble_cons_1 in Hn; lia|].
      exists d. split; [cbn in Hd; lia|]. rewrite !nibble_cons in Hn. split; [|exact Hn].
      intros i Hi. specialize (Hp (S (S i)) ltac:(lia)). now rewrite !nibble_cons in Hp.
  - split; [intros _|reflexivity]. apply Hxy in Hlt as [Hh|[Hh Hlo]].
    + exists 0%nat. split; [cbn; lia|]. split; [lia|]. rewrite !nibble_cons_0. lia.
    + exists 1%nat. split; [cbn; lia|]. split; [|rewrite !nibble_cons_1; lia].
      intros [|i] Hi; [|lia]. rewrite !nibble_cons_0. now rewrite Hh.
  - split; [discriminate|]. intros (d & Hd & Hp & Hn). exfalso. apply Hyx in Hgt as [Hh|[Hh Hlo]].
    + destruct d as [|d]; [rewrite !nibble_cons_0 in Hn; lia|]. specialize (Hp 0%nat ltac:(lia)). rewrite !nibble_cons_0 in Hp. lia.
    + destruct d as [|[|d]]; [rewrite !nibble_cons_0 in Hn; lia|rewrite !nibble_cons_1 in Hn; lia|].
      specialize (Hp 1%nat ltac:(lia)). rewrite !nibble_cons_1 in Hp. lia.
Qed.

Lemma key_lt_parts a b : is_key a -> is_key b -> key_ltb a b = true <-> exists d, (d < 64)%nat /\ parts a b d.
Proof.
  intros [La Ha] [Lb Hb]. unfold key_ltb. pose proof (key_cmp_parts a b ltac:(congruence) Ha Hb) as H.
  rewrite La in H. rewrite <- H. destruct (key_cmp a b); split; congruence.
Qed.

(** Two different keys part somewhere. *)
Lemma keys_part a b : is_key a -> is_key b -> a <> b -> exists d, (d < 64)%nat /\ (parts a b d \/ parts b a d).
Proof.
  intros Ha Hb Hab. assert (exists d, (d < 64)%nat /\ nibble a d <> nibble b d /\ forall i, (i < d)%nat -> nibble a i = nibble b i) as (d & Hd & Hn & Hp).
  { destruct (decide (Forall (fun i => nibble a i = nibble b i) (seq 0 64))) as [Hall|Hex].
    - destruct Hab. apply nibble_ext; auto. intros i Hi. rewrite Forall_forall in Hall. apply Hall, elem_of_seq. lia.
    - apply not_Forall_Exists in Hex; [|intros; apply _]. clear Hab. revert Hex.
      assert (forall n k, Exists (not ∘ (fun i => nibble a i = nibble b i)) (seq k n) ->
        exists d, (k <= d < k + n)%nat /\ nibble a d <> nibble b d /\ forall i, (k <= i < d)%nat -> nibble a i = nibble b i) as Hgen.
      { induction n as [|n IHn]; intros k Hex; [inversion Hex|]. cbn [seq] in Hex.
        destruct (decide (nibble a k = nibble b k)) as [Hk|Hk].
        - inversion Hex as [? ? Hx|? ? Hx]; subst; [now destruct Hx|]. destruct (IHn (S k) Hx) as (d & Hd & Hn & Hp).
          exists d. split; [lia|]. split; [exact Hn|]. intros i Hi. destruct (decide (i = k)) as [->|]; [exact Hk|]. apply Hp. lia.
        - exists k. split; [lia|]. split; [exact Hk|]. lia. }
      intros Hex. destruct (Hgen 64%nat 0%nat Hex) as (d & Hd & Hn & Hp). exists d. split; [lia|]. split; [exact Hn|]. intros i Hi. apply Hp. lia. }
  exists d. split; [exact Hd|]. destruct (Nat.lt_total (nibble a d) (nibble b d)) as [H|[H|H]]; [left; now split|contradiction|].
  right. split; [|exact H]. intros i Hi. symmetry. now apply Hp.
Qed.

(** *** Text form of identifiers *)

(** The 33 bytes of an identifier are read back, and nothing else is accepted. *)
Lemma node_id_raw_roundtrip p : path_ok p -> deserialize_shamap_node_id (get_raw_string (id_of p)) = Ok (Some (id_of p)).
Proof.
  intros Hp. unfold deserialize_shamap_node_id, get_raw_string. cbn [id_of node_key depth].
  pose proof (of_nibbles_key p (proj2 Hp)) as [Hl _]. rewrite decide_True by (rewrite length_app, Hl; reflexivity).
  rewrite app_nth2, Hl, Nat.sub_diag by (rewrite Hl; lia). cbn [nth]. rewrite Nat2Z.id.
  rewrite decide_False by (pose proof (proj1 Hp); unfold SHAMAP_LEAF_DEPTH; lia).
  rewrite take_app_length' by exact Hl. now rewrite node_id_new_path.
Qed.
