(* ===== verification/ShamapNode.v ===== *)
(** * ShamapNode: the nodes of the SHAMap

    Models [xrpl/shamap/src/nodes/tree_node.rs] and [item.rs]: items, leaves, inner
    nodes with their compressed arrays of hashes and children, the digests of
    nodes, and the two encodings of nodes.

    A node lives at a location of a store of nodes ([ShamapHeap]); an operation
    that changes a node takes the node and returns it.  The arrays of an inner node
    ([TaggedPointer]) have 2, 4, 6 or 16 places: below 16 only the branches in use
    have a place, in the order of the branches.  Reference counts, the locks and the
    counters of memory use are not modelled: a node is never freed, and operations
    run one after the other.  SHA-512 is a parameter. *)

From stdpp Require Import list.
From Stdlib Require Import ZArith Lia.
From S2P Require Import Prelude Serializer ShamapKey.
Local Open Scope Z_scope.

(** ** Items *)

Record SHAMapItem : Type := mkItem { item_key : Uint256; item_data : list Z }.

#[global] Instance SHAMapItem_eq_dec : EqDecision SHAMapItem.
Proof. solve_decision. Defined.

Definition item_new {E} (key : Uint256) (data : list Z) : outcome E SHAMapItem :=
  if decide (Z.of_nat (length data) <= 16 * 1024 * 1024) then Ok (mkItem key data) else Panic.

(** ** Types *)

(** [SharedIntrusive<SHAMapTreeNode>]: a location of the store. *)
Abbreviation loc := nat (only parsing).
Abbreviation SHAMapHash := (list Z).

Definition BRANCH_FACTOR : nat := 16.
Definition HASH_PREFIX_TRANSACTION_ID : Z := 0x54584E00.
Definition HASH_PREFIX_TX_NODE : Z := 0x534E4400.
Definition HASH_PREFIX_LEAF_NODE : Z := 0x4D4C4E00.
Definition HASH_PREFIX_INNER_NODE : Z := 0x4D494E00.
Definition WIRE_TYPE_TRANSACTION : Z := 0.
Definition WIRE_TYPE_ACCOUNT_STATE : Z := 1.
Definition WIRE_TYPE_INNER : Z := 2.
Definition WIRE_TYPE_COMPRESSED_INNER : Z := 3.
Definition WIRE_TYPE_TRANSACTION_WITH_META : Z := 4.
Definition MIN_SHAMAP_ITEM_BYTES : nat := 12.
Definition TAGGED_POINTER_BOUNDARIES : list nat := [2; 4; 6; 16]%nat.

Inductive SHAMapNodeType : Type :=
| Inner
| TransactionNm
| TransactionMd
| AccountState.

#[global] Instance SHAMapNodeType_eq_dec : EqDecision SHAMapNodeType.
Proof. solve_decision. Defined.

Record TaggedPointer : Type := mkTagged {
  tag : nat;
  hashes : list SHAMapHash;
  children : list (option loc)
}.

Record SHAMapInnerNode : Type := mkInner {
  tagged : TaggedPointer;
  is_branch : Z;
  full_below_gen : Z
}.

Inductive SHAMapBody : Type :=
| InnerBody (i : SHAMapInnerNode)
| LeafBody (ty : SHAMapNodeType) (item : SHAMapItem).

Record SHAMapTreeNode : Type := mkNode {
  hash : SHAMapHash;
  cowid : Z;
  body : SHAMapBody
}.

Inductive SHAMapCodecError : Type :=
| ShortPrefixNode
| UnknownPrefixType (prefix : Z)
| UnknownWireType (ty : Z)
| InvalidFullInnerSize (len : nat)
| InvalidCompressedInnerSize (len : nat)
| InvalidCompressedInnerBranch (b : Z)
| ShortLeafNode (ty : SHAMapNodeType) (len : nat)
| ShortTransactionWithMetaNode (len : nat)
| ShortAccountStateNode (len : nat)
| InvalidAccountStateNode
| EmptyInnerNodeSerialization.

(** ** Bits of a [u16] *)

(** [(m & (1 << b)) != 0] *)
Definition has_bit (m : Z) (b : nat) : bool := negb (Z.land m (Z.shiftl 1 (Z.of_nat b)) =? 0).
Definition set_bit (m : Z) (b : nat) : Z := Z.lor m (Z.shiftl 1 (Z.of_nat b)).
(** [m & !(1 << b)] *)
Definition clear_bit (m : Z) (b : nat) : Z := Z.ldiff m (Z.shiftl 1 (Z.of_nat b)).
Definition count_ones (m : Z) : nat := length (filter (fun b => has_bit m b = true) (seq 0 16)).

(** ** The compressed arrays *)

Definition capacity_for_children {E} (num_children : nat) : outcome E nat :=
  match list_find (fun c => (num_children <= c)%nat) TAGGED_POINTER_BOUNDARIES with
  | Some (_, c) => Ok c
  | None => Panic
  end.

Definition boundary_index {E} (num_children : nat) : outcome E nat :=
  match list_find (fun c => (num_children <= c)%nat) TAGGED_POINTER_BOUNDARIES with
  | Some (i, _) => Ok i
  | None => Panic
  end.

Definition capacity (t : TaggedPointer) : nat := nth (tag t) TAGGED_POINTER_BOUNDARIES O.

Definition is_dense (t : TaggedPointer) : bool := Nat.eqb (capacity t) BRANCH_FACTOR.

Definition tagged_new {E} (num_children : nat) : outcome E TaggedPointer :=
  tag <- boundary_index num_children;;
  let capacity := nth tag TAGGED_POINTER_BOUNDARIES O in
  Ok (mkTagged tag (replicate capacity uint256_zero) (replicate capacity None)).

(** [(m & ((1 << branch) - 1)).count_ones()] *)
Definition rank (m : Z) (branch : nat) : nat := count_ones (Z.land m (Z.shiftl 1 (Z.of_nat branch) - 1)).

Definition child_index (t : TaggedPointer) (is_branch : Z) (branch : nat) : option nat :=
  if is_dense t then Some branch
  else if has_bit is_branch branch then Some (rank is_branch branch)
  else None.

Definition hash_at (t : TaggedPointer) (index : nat) : SHAMapHash := nth index (hashes t) uint256_zero.
Definition get_child_at_index (t : TaggedPointer) (index : nat) : option loc := nth index (children t) None.

Definition tagged_get_hash (t : TaggedPointer) (is_branch : Z) (branch : nat) : SHAMapHash :=
  match child_index t is_branch branch with
  | Some index => hash_at t index
  | None => uint256_zero
  end.

Definition set_hash_at_index (index : nat) (hash : SHAMapHash) (t : TaggedPointer) : TaggedPointer :=
  mkTagged (tag t) (<[index := hash]> (hashes t)) (children t).
Definition set_child_at_index (index : nat) (child : option loc) (t : TaggedPointer) : TaggedPointer :=
  mkTagged (tag t) (hashes t) (<[index := child]> (children t)).

(** The hashes [iter_children] passes on, in the order of the branches. *)
Definition iter_children (t : TaggedPointer) (is_branch : Z) : list SHAMapHash :=
  if is_dense t then hash_at t <$> seq 0 BRANCH_FACTOR
  else
    snd (fold_left (fun '(compact_index, out) branch =>
      if has_bit is_branch branch then (S compact_index, out ++ [hash_at t compact_index])
      else (compact_index, out ++ [uint256_zero])) (seq 0 BRANCH_FACTOR) (O, [])).

(** The pairs [iter_non_empty_child_indexes] passes on. *)
Definition iter_non_empty_child_indexes (t : TaggedPointer) (is_branch : Z) : list (nat * nat) :=
  if is_dense t then (fun b => (b, b)) <$> filter (fun b => has_bit is_branch b = true) (seq 0 BRANCH_FACTOR)
  else
    snd (fold_left (fun '(compact_index, out) branch =>
      if has_bit is_branch branch then (S compact_index, out ++ [(branch, compact_index)])
      else (compact_index, out)) (seq 0 BRANCH_FACTOR) (O, [])).

(** One branch of the loop of [rebuild]. *)
Definition rebuild_branch (src : TaggedPointer) (src_branches dst_branches : Z) (next : TaggedPointer) (branch : nat)
    : TaggedPointer :=
  if negb (has_bit dst_branches branch) then next
  else
    match child_index next dst_branches branch with
    | None => next
    | Some dst_index =>
        if negb (has_bit src_branches branch) then next
        else
          let src_index := if is_dense src then branch else rank src_branches branch in
          let effective_dst_index := if is_dense next then branch else dst_index in
          set_child_at_index effective_dst_index (get_child_at_index src src_index)
            (set_hash_at_index effective_dst_index (hash_at src src_index) next)
    end.

Definition rebuild {E} (src_branches dst_branches : Z) (to_allocate : nat) (t : TaggedPointer) : outcome E TaggedPointer :=
  new_capacity <- capacity_for_children to_allocate;;
  if Nat.eqb new_capacity (capacity t) && (src_branches =? dst_branches) then Ok t
  else
    next <- tagged_new to_allocate;;
    Ok (fold_left (rebuild_branch t src_branches dst_branches) (seq 0 BRANCH_FACTOR) next).

Definition resize {E} (is_branch : Z) (to_allocate : nat) (t : TaggedPointer) : outcome E TaggedPointer :=
  rebuild is_branch is_branch to_allocate t.

(** ** Digests *)

(** The crate [sha2]. *)
Class Sha512 : Type := sha512 : list Z -> list Z.

Section Nodes.
Context `{Sha512} {E : Type}.

Definition sha512_half (bytes : list Z) : SHAMapHash := take 32 (sha512 bytes).

Definition sha512_half_bytes (prefix : Z) (parts : list (list Z)) : Uint256 :=
  sha512_half (to_be_bytes 4 prefix ++ concat parts).

Definition compute_inner_hash (branches : Z) (arrays : TaggedPointer) : SHAMapHash :=
  if branches =? 0 then uint256_zero
  else sha512_half (to_be_bytes 4 HASH_PREFIX_INNER_NODE ++ concat (iter_children arrays branches)).

Definition leaf_prefix (ty : SHAMapNodeType) : outcome E Z :=
  match ty with
  | Inner => Panic
  | TransactionNm => Ok HASH_PREFIX_TRANSACTION_ID
  | TransactionMd => Ok HASH_PREFIX_TX_NODE
  | AccountState => Ok HASH_PREFIX_LEAF_NODE
  end.

Definition compute_leaf_hash (ty : SHAMapNodeType) (item : SHAMapItem) : outcome E SHAMapHash :=
  prefix <- leaf_prefix ty;;
  Ok (if decide (ty = TransactionNm) then sha512_half_bytes prefix [item_data item]
      else sha512_half_bytes prefix [item_data item; item_key item]).

(** ** Operations on nodes *)

Definition is_inner (n : SHAMapTreeNode) : bool := match body n with InnerBody _ => true | LeafBody _ _ => false end.
Definition is_leaf (n : SHAMapTreeNode) : bool := negb (is_inner n).

Definition get_type (n : SHAMapTreeNode) : SHAMapNodeType := match body n with InnerBody _ => Inner | LeafBody ty _ => ty end.

(** The casts [inner()] and [leaf()]. *)
Definition as_inner (n : SHAMapTreeNode) : outcome E SHAMapInnerNode := match body n with InnerBody i => Ok i | LeafBody _ _ => Panic end.
Definition as_leaf (n : SHAMapTreeNode) : outcome E (SHAMapNodeType * SHAMapItem) :=
  match body n with LeafBody ty item => Ok (ty, item) | InnerBody _ => Panic end.

Definition validate_branch (branch : nat) : outcome E unit := if decide (branch < BRANCH_FACTOR)%nat then Ok tt else Panic.

Definition new_inner_with_capacity (cowid : Z) (capacity : nat) : outcome E SHAMapTreeNode :=
  t <- tagged_new capacity;; Ok (mkNode uint256_zero cowid (InnerBody (mkInner t 0 0))).

Definition new_inner (cowid : Z) : outcome E SHAMapTreeNode := new_inner_with_capacity cowid 0.

Definition new_leaf_with_hash (ty : SHAMapNodeType) (item : SHAMapItem) (cowid : Z) (hash : SHAMapHash) : outcome E SHAMapTreeNode :=
  if decide (length (item_data item) < MIN_SHAMAP_ITEM_BYTES)%nat then Panic
  else if decide (ty = Inner) then Panic
  else Ok (mkNode hash cowid (LeafBody ty item)).

Definition new_leaf (ty : SHAMapNodeType) (item : SHAMapItem) (cowid : Z) : outcome E SHAMapTreeNode :=
  if decide (length (item_data item) < MIN_SHAMAP_ITEM_BYTES)%nat then Panic
  else hash <- compute_leaf_hash ty item;; new_leaf_with_hash ty item cowid hash.

Definition set_hash (h : SHAMapHash) (n : SHAMapTreeNode) : SHAMapTreeNode := mkNode h (cowid n) (body n).
Definition set_inner (i : SHAMapInnerNode) (n : SHAMapTreeNode) : SHAMapTreeNode := mkNode (hash n) (cowid n) (InnerBody i).
Definition zero_hash (n : SHAMapTreeNode) : SHAMapTreeNode := set_hash uint256_zero n.
Definition unshare (n : SHAMapTreeNode) : SHAMapTreeNode := mkNode (hash n) 0 (body n).

(** One branch of the copy of [clone_with_cowid]; the two [unwrap]. *)
Definition clone_branch (src : TaggedPointer) (branches : Z) (dst : TaggedPointer) (branch : nat) : outcome E TaggedPointer :=
  if negb (has_bit branches branch) then Ok dst
  else
    match child_index src branches branch, child_index dst branches branch with
    | Some si, Some di =>
        let dst := set_hash_at_index di (tagged_get_hash src branches branch) dst in
        Ok (match get_child_at_index src si with
            | Some child => set_child_at_index di (Some child) dst
            | None => dst
            end)
    | _, _ => Panic
    end.

Fixpoint fold_outcome {A B} (f : A -> B -> outcome E A) (l : list B) (a : A) : outcome E A :=
  match l with
  | [] => Ok a
  | b :: l => a <- f a b;; fold_outcome f l a
  end.

Definition clone_with_cowid (n : SHAMapTreeNode) (cowid : Z) : outcome E SHAMapTreeNode :=
  match body n with
  | LeafBody ty item => new_leaf_with_hash ty item cowid (hash n)
  | InnerBody i =>
      let branches := is_branch i in
      cloned <- new_inner_with_capacity cowid (count_ones branches);;
      dst <- as_inner cloned;;
      t <- fold_outcome (clone_branch (tagged i) branches) (seq 0 BRANCH_FACTOR) (tagged dst);;
      Ok (mkNode (hash n) cowid (InnerBody (mkInner t branches (full_below_gen i))))
  end.

Definition is_empty (n : SHAMapTreeNode) : bool := match body n with InnerBody i => is_branch i =? 0 | LeafBody _ _ => false end.

Definition is_empty_branch (n : SHAMapTreeNode) (branch : nat) : outcome E bool :=
  _ <- validate_branch branch;;
  Ok (match body n with InnerBody i => negb (has_bit (is_branch i) branch) | LeafBody _ _ => false end).

Definition branch_count (n : SHAMapTreeNode) : nat := match body n with InnerBody i => count_ones (is_branch i) | LeafBody _ _ => O end.

Definition get_child_hash (n : SHAMapTreeNode) (branch : nat) : outcome E SHAMapHash :=
  _ <- validate_branch branch;;
  Ok (match body n with InnerBody i => tagged_get_hash (tagged i) (is_branch i) branch | LeafBody _ _ => uint256_zero end).

(** The index of a branch in use; the [unwrap] or [expect] of the callers. *)
Definition used_index (t : TaggedPointer) (is_branch : Z) (branch : nat) : outcome E nat :=
  match child_index t is_branch branch with Some n => Ok n | None => Panic end.

Definition set_child_hash (n : SHAMapTreeNode) (branch : nat) (h : SHAMapHash) : outcome E SHAMapTreeNode :=
  _ <- validate_branch branch;;
  i <- as_inner n;;
  let src := is_branch i in
  let dst := if decide (h <> uint256_zero) then set_bit src branch else clear_bit src branch in
  t <- rebuild src dst (count_ones dst) (tagged i);;
  t <- (if decide (h <> uint256_zero) then n <- used_index t dst branch;; Ok (set_hash_at_index n h t) else Ok t);;
  Ok (set_inner (mkInner t dst (full_below_gen i)) n).

Definition set_child (n : SHAMapTreeNode) (branch : nat) (child : option loc) : outcome E SHAMapTreeNode :=
  _ <- validate_branch branch;;
  if decide (cowid n = 0) then Panic
  else
    i <- as_inner n;;
    let src := is_branch i in
    let dst := match child with Some _ => set_bit src branch | None => clear_bit src branch end in
    t <- rebuild src dst (count_ones dst) (tagged i);;
    t <- match child with
         | Some child => n <- used_index t dst branch;; Ok (set_child_at_index n (Some child) (set_hash_at_index n uint256_zero t))
         | None => Ok t
         end;;
    Ok (zero_hash (set_inner (mkInner t dst (full_below_gen i)) n)).

Definition share_child (n : SHAMapTreeNode) (branch : nat) (child : loc) : outcome E SHAMapTreeNode :=
  _ <- validate_branch branch;;
  if decide (cowid n = 0) then Panic
  else
    i <- as_inner n;;
    index <- used_index (tagged i) (is_branch i) branch;;
    Ok (set_inner (mkInner (set_child_at_index index (Some child) (tagged i)) (is_branch i) (full_below_gen i)) n).

Definition get_child (n : SHAMapTreeNode) (branch : nat) : outcome E (option loc) :=
  _ <- validate_branch branch;;
  Ok (match body n with
      | InnerBody i =>
          match child_index (tagged i) (is_branch i) branch with
          | Some index => get_child_at_index (tagged i) index
          | None => None
          end
      | LeafBody _ _ => None
      end).

Definition release_loaded_children (n : SHAMapTreeNode) : SHAMapTreeNode :=
  match body n with
  | InnerBody i =>
      let t := fold_left (fun t '(_, index) => set_child_at_index index None t)
                 (iter_non_empty_child_indexes (tagged i) (is_branch i)) (tagged i) in
      set_inner (mkInner t (is_branch i) (full_below_gen i)) n
  | LeafBody _ _ => n
  end.

Definition has_child (n : SHAMapTreeNode) (branch : nat) : outcome E bool :=
  c <- get_child n branch;; Ok (match c with Some _ => true | None => false end).

Definition has_any_loaded_child (n : SHAMapTreeNode) : bool :=
  match body n with
  | InnerBody i =>
      fold_left (fun yes '(_, index) => yes || match get_child_at_index (tagged i) index with Some _ => true | None => false end)
        (iter_non_empty_child_indexes (tagged i) (is_branch i)) false
  | LeafBody _ _ => false
  end.

(** The node at [child] has the hash [child_hash]. *)
Definition canonicalize_child (n : SHAMapTreeNode) (branch : nat) (child : loc) (child_hash : SHAMapHash)
    : outcome E (loc * SHAMapTreeNode) :=
  _ <- validate_branch branch;;
  stored <- get_child_hash n branch;;
  if decide (child_hash <> stored) then Panic
  else
    i <- as_inner n;;
    index <- used_index (tagged i) (is_branch i) branch;;
    match get_child_at_index (tagged i) index with
    | Some old => Ok (old, n)
    | None => Ok (child, set_inner (mkInner (set_child_at_index index (Some child) (tagged i)) (is_branch i) (full_below_gen i)) n)
    end.

Definition is_full_below (n : SHAMapTreeNode) (generation : Z) : bool :=
  match body n with InnerBody i => full_below_gen i =? generation | LeafBody _ _ => false end.

Definition set_full_below_gen (n : SHAMapTreeNode) (generation : Z) : SHAMapTreeNode :=
  match body n with
  | InnerBody i => set_inner (mkInner (tagged i) (is_branch i) generation) n
  | LeafBody _ _ => n
  end.

Definition peek_item (n : SHAMapTreeNode) : option SHAMapItem := match body n with LeafBody _ item => Some item | InnerBody _ => None end.

Definition set_item (n : SHAMapTreeNode) (item : SHAMapItem) : outcome E (bool * SHAMapTreeNode) :=
  '(ty, _) <- as_leaf n;;
  if decide (cowid n = 0) then Panic
  else
    next <- compute_leaf_hash ty item;;
    Ok (bool_decide (hash n <> next), mkNode next (cowid n) (LeafBody ty item)).

Definition update_hash (n : SHAMapTreeNode) : outcome E SHAMapTreeNode :=
  match body n with
  | InnerBody i => Ok (set_hash (compute_inner_hash (is_branch i) (tagged i)) n)
  | LeafBody ty item => next <- compute_leaf_hash ty item;; Ok (set_hash next n)
  end.

(** [hash_of] reads the hash of a child. *)
Definition update_hash_deep (hash_of : loc -> SHAMapHash) (n : SHAMapTreeNode) : outcome E SHAMapTreeNode :=
  i <- as_inner n;;
  let b := is_branch i in
  let t := fold_left (fun t '(_, index) =>
             match get_child_at_index t index with
             | Some c => set_hash_at_index index (hash_of c) t
             | None => t
             end) (iter_non_empty_child_indexes (tagged i) b) (tagged i) in
  Ok (set_hash (compute_inner_hash b t) (set_inner (mkInner t b (full_below_gen i)) n)).

End Nodes.

(** ** Encodings *)

Section Codec.
Context `{Sha512}.

Definition codec A := outcome SHAMapCodecError A.

Definition wire_type (ty : SHAMapNodeType) : codec Z :=
  match ty with
  | Inner => Panic
  | TransactionNm => Ok WIRE_TYPE_TRANSACTION
  | TransactionMd => Ok WIRE_TYPE_TRANSACTION_WITH_META
  | AccountState => Ok WIRE_TYPE_ACCOUNT_STATE
  end.

(** The payload, and the key unless it can be computed from the payload. *)
Definition leaf_bytes (ty : SHAMapNodeType) (item : SHAMapItem) : list Z :=
  item_data item ++ (if decide (ty <> TransactionNm) then item_key item else []).

Definition serialize_leaf_for_wire (ty : SHAMapNodeType) (item : SHAMapItem) : codec (list Z) :=
  w <- wire_type ty;; Ok (leaf_bytes ty item ++ [w]).

Definition serialize_leaf_with_prefix (ty : SHAMapNodeType) (item : SHAMapItem) : codec (list Z) :=
  p <- leaf_prefix ty;; Ok (to_be_bytes 4 p ++ leaf_bytes ty item).

Definition all_hashes (branches : Z) (arrays : TaggedPointer) : list Z :=
  concat (tagged_get_hash arrays branches <$> seq 0 BRANCH_FACTOR).

Definition serialize_inner_for_wire (branches : Z) (arrays : TaggedPointer) : codec (list Z) :=
  if branches =? 0 then Err EmptyInnerNodeSerialization
  else if decide (count_ones branches < 12)%nat then
    Ok (concat ((fun b => if has_bit branches b then tagged_get_hash arrays branches b ++ [Z.of_nat b] else []) <$> seq 0 BRANCH_FACTOR)
        ++ [WIRE_TYPE_COMPRESSED_INNER])
  else Ok (all_hashes branches arrays ++ [WIRE_TYPE_INNER]).

Definition serialize_inner_with_prefix (branches : Z) (arrays : TaggedPointer) : codec (list Z) :=
  if branches =? 0 then Err EmptyInnerNodeSerialization
  else Ok (to_be_bytes 4 HASH_PREFIX_INNER_NODE ++ all_hashes branches arrays).

Definition serialize_for_wire (n : SHAMapTreeNode) : codec (list Z) :=
  match body n with
  | InnerBody i => serialize_inner_for_wire (is_branch i) (tagged i)
  | LeafBody ty item => serialize_leaf_for_wire ty item
  end.

Definition serialize_with_prefix (n : SHAMapTreeNode) : codec (list Z) :=
  match body n with
  | InnerBody i => serialize_inner_with_prefix (is_branch i) (tagged i)
  | LeafBody ty item => serialize_leaf_with_prefix ty item
  end.

Definition validate_leaf_payload (ty : SHAMapNodeType) (data : list Z) : codec unit :=
  if decide (length data < MIN_SHAMAP_ITEM_BYTES)%nat then Err (ShortLeafNode ty (length data)) else Ok tt.

Definition leaf_with_known (ty : SHAMapNodeType) (item : SHAMapItem) (known : option SHAMapHash) : codec SHAMapTreeNode :=
  match known with
  | Some hash => new_leaf_with_hash ty item 0 hash
  | None => new_leaf ty item 0
  end.

Definition make_transaction_node (data : list Z) (known : option SHAMapHash) : codec SHAMapTreeNode :=
  _ <- validate_leaf_payload TransactionNm data;;
  item <- item_new (sha512_half_bytes HASH_PREFIX_TRANSACTION_ID [data]) data;;
  leaf_with_known TransactionNm item known.

(** [data.split_at(data.len() - 32)] *)
Definition split_key (data : list Z) : list Z * list Z := (take (length data - 32) data, drop (length data - 32) data).

Definition make_transaction_with_meta_node (data : list Z) (known : option SHAMapHash) : codec SHAMapTreeNode :=
  if decide (length data < 32)%nat then Err (ShortTransactionWithMetaNode (length data))
  else
    let '(payload, key) := split_key data in
    _ <- validate_leaf_payload TransactionMd payload;;
    item <- item_new key payload;;
    leaf_with_known TransactionMd item known.

Definition make_account_state_node (data : list Z) (known : option SHAMapHash) : codec SHAMapTreeNode :=
  if decide (length data < 32)%nat then Err (ShortAccountStateNode (length data))
  else
    let '(payload, key) := split_key data in
    _ <- validate_leaf_payload AccountState payload;;
    if decide (key = uint256_zero) then Err InvalidAccountStateNode
    else
      item <- item_new key payload;;
      leaf_with_known AccountState item known.

Definition chunks_exact (n : nat) (data : list Z) : list (list Z) :=
  (fun i => take n (drop (n * i) data)) <$> seq 0 (length data / n).

(** The arrays and the mask both inner decoders end with. *)
Definition finish_inner (t : TaggedPointer) (branches : Z) (known : option SHAMapHash) : codec SHAMapTreeNode :=
  t <- resize branches (count_ones branches) t;;
  let node := mkNode uint256_zero 0 (InnerBody (mkInner t branches 0)) in
  match known with
  | Some hash => Ok (set_hash hash node)
  | None => update_hash node
  end.

(** Storing one hash, and its bit when it is not zero. *)
Definition store_hash (b : nat) (h : SHAMapHash) (s : TaggedPointer * Z) : TaggedPointer * Z :=
  (set_hash_at_index b h s.1, if decide (h <> uint256_zero) then set_bit s.2 b else s.2).

Definition make_full_inner (data : list Z) (known : option SHAMapHash) : codec SHAMapTreeNode :=
  if decide (length data <> BRANCH_FACTOR * 32)%nat then Err (InvalidFullInnerSize (length data))
  else
    t <- tagged_new BRANCH_FACTOR;;
    let '(t, branches) := fold_left (fun s '(b, chunk) => store_hash b chunk s) (imap pair (chunks_exact 32 data)) (t, 0) in
    finish_inner t branches known.

Definition make_compressed_inner (data : list Z) : codec SHAMapTreeNode :=
  if decide (length data mod 33 <> 0 \/ 33 * BRANCH_FACTOR < length data)%nat then Err (InvalidCompressedInnerSize (length data))
  else
    t <- tagged_new BRANCH_FACTOR;;
    '(t, branches) <- fold_outcome (fun s c =>
        let p := nth 32 c 0 in
        if decide (Z.of_nat BRANCH_FACTOR <= p) then Err (InvalidCompressedInnerBranch p)
        else Ok (store_hash (Z.to_nat p) (take 32 c) s)) (chunks_exact 33 data) (t, 0);;
    finish_inner t branches None.

Definition make_from_wire (raw : list Z) : codec (option SHAMapTreeNode) :=
  match last raw with
  | None => Ok None
  | Some ty =>
      let data := take (length raw - 1) raw in
      n <- (if decide (ty = WIRE_TYPE_TRANSACTION) then make_transaction_node data None
            else if decide (ty = WIRE_TYPE_ACCOUNT_STATE) then make_account_state_node data None
            else if decide (ty = WIRE_TYPE_INNER) then make_full_inner data None
            else if decide (ty = WIRE_TYPE_COMPRESSED_INNER) then make_compressed_inner data
            else if decide (ty = WIRE_TYPE_TRANSACTION_WITH_META) then make_transaction_with_meta_node data None
            else Err (UnknownWireType ty));;
      Ok (Some n)
  end.

Definition make_from_prefix (raw : list Z) (hash : SHAMapHash) : codec SHAMapTreeNode :=
  if decide (length raw < 4)%nat then Err ShortPrefixNode
  else
    let d := drop 4 raw in
    let x := be_value (take 4 raw) in
    if decide (x = HASH_PREFIX_TRANSACTION_ID) then make_transaction_node d (Some hash)
    else if decide (x = HASH_PREFIX_LEAF_NODE) then make_account_state_node d (Some hash)
    else if decide (x = HASH_PREFIX_INNER_NODE) then make_full_inner d (Some hash)
    else if decide (x = HASH_PREFIX_TX_NODE) then make_transaction_with_meta_node d (Some hash)
    else Err (UnknownPrefixType x).

End Codec.
