(* ===== verification/ShamapSlots.v ===== *)
(** * ShamapSlots: an inner node is an array of sixteen slots

    The compressed arrays of [ShamapNode] stand for sixteen slots, each empty or a
    hash with a child that may be loaded.  [slots] reads them, [inner_ok] is the
    invariant of the arrays, and one lemma per operation says what it does to the
    slots.  The files on the tree use these lemmas only. *)

From stdpp Require Import list.
From Stdlib Require Import ZArith Lia.
From S2P Require Import Prelude Serializer ShamapKey ShamapNode.
Local Open Scope Z_scope.

Abbreviation slot := (option (SHAMapHash * option loc)).

(** ** Lists *)

Lemma filter_ext_in {A} (P Q : A -> Prop) `{!forall x, Decision (P x)} `{!forall x, Decision (Q x)} (l : list A) :
  (forall x, x ∈ l -> P x <-> Q x) -> filter P l = filter Q l.
Proof.
  induction l as [|x l IH]; intros Hl; [reflexivity|]. rewrite !filter_cons, IH by (intros; apply Hl; now right).
  pose proof (Hl x ltac:(left)). repeat case_decide; tauto.
Qed.

Lemma filter_none {A} (P : A -> Prop) `{!forall x, Decision (P x)} (l : list A) : (forall x, x ∈ l -> ~ P x) -> filter P l = [].
Proof.
  induction l as [|x l IH]; intros Hl; [reflexivity|]. rewrite filter_cons, decide_False by (apply Hl; left).
  apply IH. intros y Hy. apply Hl. now right.
Qed.

Lemma filter_every {A} (P : A -> Prop) `{!forall x, Decision (P x)} (l : list A) : (forall x, x ∈ l -> P x) -> filter P l = l.
Proof.
  induction l as [|x l IH]; intros Hl; [reflexivity|]. rewrite filter_cons, decide_True by (apply Hl; left).
  f_equal. apply IH. intros y Hy. apply Hl. now right.
Qed.

Lemma Forall2_fmap_eq {A B C} (f : A -> C) (g : B -> C) (l : list A) (k : list B) :
  Forall2 (fun x y => f x = g y) l k -> f <$> l = g <$> k.
Proof. induction 1 as [|x y l k Hxy _ IH]; [reflexivity|]. rewrite !fmap_cons. congruence. Qed.

(** ** Bits *)

Lemma has_bit_testbit m b : has_bit m b = Z.testbit m (Z.of_nat b).
Proof.
  unfold has_bit. rewrite Z.shiftl_1_l. destruct (Z.testbit m (Z.of_nat b)) eqn:Hb.
  - destruct (Z.eqb_spec (Z.land m (2 ^ Z.of_nat b)) 0) as [H0|]; [|reflexivity].
    apply (f_equal (fun z => Z.testbit z (Z.of_nat b))) in H0. rewrite Z.land_spec, Z.pow2_bits_true, Hb, Z.bits_0 in H0 by lia. discriminate.
  - apply negb_false_iff, Z.eqb_eq, Z.bits_inj'. intros i Hi. rewrite Z.land_spec, Z.bits_0.
    destruct (Z.eq_dec i (Z.of_nat b)) as [->|Hn]; [now rewrite Hb|]. rewrite Z.pow2_bits_false by lia. apply andb_false_r.
Qed.

Lemma has_bit_set m b c : has_bit (set_bit m b) c = bool_decide (c = b) || has_bit m c.
Proof.
  unfold set_bit. rewrite !has_bit_testbit, Z.lor_spec, Z.shiftl_1_l, orb_comm. f_equal.
  case_bool_decide as Hc; [subst; apply Z.pow2_bits_true; lia|apply Z.pow2_bits_false; lia].
Qed.

Lemma has_bit_clear m b c : has_bit (clear_bit m b) c = negb (bool_decide (c = b)) && has_bit m c.
Proof.
  unfold clear_bit. rewrite !has_bit_testbit, Z.ldiff_spec, Z.shiftl_1_l, andb_comm. f_equal. f_equal.
  case_bool_decide as Hc; [subst; apply Z.pow2_bits_true; lia|apply Z.pow2_bits_false; lia].
Qed.

Lemma has_bit_0 b : has_bit 0 b = false.
Proof. rewrite has_bit_testbit. apply Z.bits_0. Qed.

Definition mask_ok (m : Z) : Prop := 0 <= m < 2 ^ 16.

Lemma mask_ok_bits m : mask_ok m <-> 0 <= m /\ forall i, 16 <= i -> Z.testbit m i = false.
Proof.
  split.
  - intros [H1 H2]. split; [exact H1|]. intros i Hi. destruct (Z.eq_dec m 0) as [->|]; [apply Z.bits_0|].
    apply Z.bits_above_log2; [lia|]. apply Z.lt_le_trans with 16; [|exact Hi]. apply Z.log2_lt_pow2; lia.
  - intros [H1 H2]. split; [exact H1|]. rewrite <- (Z.mod_small m (2 ^ 16)) at 1; [apply Z.mod_pos_bound; lia|].
    split; [exact H1|]. destruct (Z.lt_ge_cases m (2 ^ 16)) as [|Hge]; [assumption|].
    pose proof (Z.log2_le_pow2 m 16 ltac:(lia)) as [Hl _]. specialize (Hl Hge).
    specialize (H2 _ Hl). rewrite Z.bit_log2 in H2 by lia. discriminate.
Qed.

Lemma set_bit_ok m b : mask_ok m -> (b < 16)%nat -> mask_ok (set_bit m b).
Proof.
  rewrite !mask_ok_bits. intros [H1 H2] Hb. unfold set_bit. rewrite Z.shiftl_1_l.
  split; [apply Z.lor_nonneg; split; [exact H1|apply Z.pow_nonneg; lia]|].
  intros i Hi. rewrite Z.lor_spec, H2, Z.pow2_bits_false by lia. reflexivity.
Qed.

Lemma clear_bit_ok m b : mask_ok m -> mask_ok (clear_bit m b).
Proof.
  rewrite !mask_ok_bits. intros [H1 H2]. unfold clear_bit. split; [apply Z.ldiff_nonneg; auto|].
  intros i Hi. rewrite Z.ldiff_spec, H2 by lia. reflexivity.
Qed.

Lemma mask_ext m m' : mask_ok m -> mask_ok m' -> (forall b, (b < 16)%nat -> has_bit m b = has_bit m' b) -> m = m'.
Proof.
  rewrite !mask_ok_bits. intros [H1 H2] [H1' H2'] Hb. apply Z.bits_inj'. intros i Hi.
  destruct (Z.lt_ge_cases i 16); [|now rewrite H2, H2']. specialize (Hb (Z.to_nat i) ltac:(lia)).
  rewrite !has_bit_testbit, Z2Nat.id in Hb by lia. exact Hb.
Qed.

(** ** Ranks *)

(** The number of branches in use below [b]. *)
Definition below (m : Z) (b : nat) : nat := length (filter (fun c => has_bit m c = true) (seq 0 b)).

Lemma below_S m b : below m (S b) = (below m b + if has_bit m b then 1 else 0)%nat.
Proof.
  unfold below. rewrite seq_S, filter_app, length_app. f_equal. cbn [Nat.add].
  rewrite filter_cons. destruct (has_bit m b); [now rewrite decide_True|now rewrite decide_False].
Qed.

Lemma below_16 m : below m 16 = count_ones m.
Proof. reflexivity. Qed.

Lemma below_mono m b c : (b <= c)%nat -> (below m b <= below m c)%nat.
Proof. induction 1 as [|c _ IH]; [lia|]. rewrite below_S. lia. Qed.

Lemma below_lt m b c : (b < c)%nat -> has_bit m b = true -> (below m b < below m c)%nat.
Proof. intros Hbc Hb. eapply Nat.lt_le_trans; [|apply (below_mono m (S b) c); lia]. rewrite below_S, Hb. lia. Qed.

Lemma below_inj m b c : has_bit m b = true -> has_bit m c = true -> below m b = below m c -> b = c.
Proof.
  intros Hb Hc Heq. destruct (Nat.lt_total b c) as [H|[H|H]]; [|exact H|].
  - pose proof (below_lt m b c H Hb). lia.
  - pose proof (below_lt m c b H Hc). lia.
Qed.

Lemma below_count m b : (b < 16)%nat -> has_bit m b = true -> (below m b < count_ones m)%nat.
Proof. intros Hb H. rewrite <- below_16. now apply below_lt. Qed.

Lemma count_ones_le m : (count_ones m <= 16)%nat.
Proof. unfold count_ones. etransitivity; [apply length_filter|]. now rewrite length_seq. Qed.

Lemma rank_below m b : (b <= 16)%nat -> rank m b = below m b.
Proof.
  intros Hb. unfold rank, below, count_ones. rewrite Z.shiftl_1_l.
  replace 16%nat with (b + (16 - b))%nat by lia. rewrite seq_app, filter_app, length_app.
  assert (forall c, has_bit (Z.land m (2 ^ Z.of_nat b - 1)) c = has_bit m c && bool_decide (c < b)%nat) as Hc.
  { intros c. rewrite !has_bit_testbit, Z.land_spec. f_equal.
    replace (2 ^ Z.of_nat b - 1) with (Z.ones (Z.of_nat b)) by (rewrite Z.ones_equiv; lia).
    case_bool_decide; [apply Z.ones_spec_low; lia|apply Z.ones_spec_high; lia]. }
  rewrite (proj2 (length_zero_iff_nil (filter _ (seq (0 + b) (16 - b))))).
  - rewrite Nat.add_0_r. f_equal. apply filter_ext_in. intros c Hin. apply elem_of_seq in Hin.
    rewrite Hc, bool_decide_true, andb_true_r by lia. reflexivity.
  - apply filter_none. intros c Hin. apply elem_of_seq in Hin. rewrite Hc, bool_decide_false, andb_false_r by lia. discriminate.
Qed.

(** ** The arrays *)

Definition cap (n : nat) : nat := if decide (n <= 2)%nat then 2 else if decide (n <= 4)%nat then 4 else if decide (n <= 6)%nat then 6 else 16.

Lemma capacity_for_children_ok {E} n : (n <= 16)%nat -> capacity_for_children (E := E) n = Ok (cap n).
Proof. intros Hn. do 17 (destruct n as [|n]; [reflexivity|]). lia. Qed.

Lemma tagged_new_ok {E} n : (n <= 16)%nat -> exists t, tagged_new (E := E) n = Ok t /\ capacity t = cap n /\
  hashes t = replicate (cap n) uint256_zero /\ children t = replicate (cap n) None.
Proof. intros Hn. do 17 (destruct n as [|n]; [eexists; repeat split; reflexivity|]). lia. Qed.

Lemma cap_ge n : (n <= 16)%nat -> (n <= cap n)%nat.
Proof. intros Hn. unfold cap. repeat case_decide; lia. Qed.

Record arrays_ok (t : TaggedPointer) (m : Z) : Prop := {
  ok_mask : mask_ok m;
  ok_capacity : capacity t = cap (count_ones m);
  ok_hashes : length (hashes t) = capacity t;
  ok_children : length (children t) = capacity t;
  ok_unused : is_dense t = true -> forall b, has_bit m b = false -> hash_at t b = uint256_zero /\ get_child_at_index t b = None
}.

(** The place of a branch in use. *)
Definition place (t : TaggedPointer) (m : Z) (b : nat) : nat := if is_dense t then b else below m b.

Lemma child_index_used t m b : has_bit m b = true -> (b < 16)%nat -> child_index t m b = Some (place t m b).
Proof. intros Hm Hb. unfold child_index, place. rewrite Hm, rank_below by lia. now destruct (is_dense t). Qed.

Lemma place_lt t m b : arrays_ok t m -> has_bit m b = true -> (b < 16)%nat -> (place t m b < capacity t)%nat.
Proof.
  intros Hok Hm Hb. unfold place. destruct (is_dense t) eqn:Hd.
  - apply Nat.eqb_eq in Hd. rewrite Hd. exact Hb.
  - rewrite (ok_capacity _ _ Hok). eapply Nat.lt_le_trans; [apply below_count; eassumption|apply cap_ge, count_ones_le].
Qed.

Lemma place_inj t m b c : has_bit m b = true -> has_bit m c = true -> place t m b = place t m c -> b = c.
Proof. unfold place. destruct (is_dense t); [auto|apply below_inj]. Qed.

Definition slot_at (t : TaggedPointer) (m : Z) (b : nat) : slot :=
  if has_bit m b then Some (hash_at t (place t m b), get_child_at_index t (place t m b)) else None.

Lemma nth_insert {A} (l : list A) i j x d : nth j (<[i:=x]> l) d = if decide (j = i /\ (i < length l)%nat) then x else nth j l d.
Proof.
  rewrite !nth_lookup. destruct (decide (j = i)) as [->|Hn].
  - destruct (Nat.lt_ge_cases i (length l)) as [Hi|Hi].
    + rewrite list_lookup_insert_eq, decide_True by auto. reflexivity.
    + rewrite list_insert_ge, decide_False by lia. reflexivity.
  - rewrite list_lookup_insert_ne, decide_False by (auto; tauto). reflexivity.
Qed.

Lemma hash_at_set i h t j : hash_at (set_hash_at_index i h t) j = if decide (j = i /\ (i < length (hashes t))%nat) then h else hash_at t j.
Proof. apply nth_insert. Qed.

Lemma child_at_set i c t j :
  get_child_at_index (set_child_at_index i c t) j = if decide (j = i /\ (i < length (children t))%nat) then c else get_child_at_index t j.
Proof. apply nth_insert. Qed.

(** *** Changing one place *)

Lemma set_place_ok t m b h c : arrays_ok t m -> has_bit m b = true -> (b < 16)%nat ->
  let t' := set_child_at_index (place t m b) c (set_hash_at_index (place t m b) h t) in
  arrays_ok t' m /\ forall a, (a < 16)%nat -> slot_at t' m a = if decide (a = b) then Some (h, c) else slot_at t m a.
Proof.
  intros Hok Hm Hb t'. pose proof (place_lt t m b Hok Hm Hb) as Hlt.
  assert (forall a, place t' m a = place t m a) as Hpl by reflexivity.
  assert (forall j, hash_at t' j = if decide (j = place t m b) then h else hash_at t j) as Hh.
  { intros j. unfold t'. change (hash_at (set_child_at_index ?i ?c ?u) j) with (hash_at u j). rewrite hash_at_set, (ok_hashes _ _ Hok).
    repeat case_decide; tauto. }
  assert (forall j, get_child_at_index t' j = if decide (j = place t m b) then c else get_child_at_index t j) as Hc.
  { intros j. unfold t'. rewrite child_at_set. cbn [set_hash_at_index children]. rewrite (ok_children _ _ Hok).
    change (get_child_at_index (set_hash_at_index _ _ t) j) with (get_child_at_index t j). repeat case_decide; tauto. }
  split.
  - split; [apply Hok|apply (ok_capacity _ _ Hok)| | |].
    + cbn. rewrite length_insert. apply (ok_hashes _ _ Hok).
    + cbn. rewrite length_insert. apply (ok_children _ _ Hok).
    + intros Hd a Ha. rewrite Hh, Hc. destruct (ok_unused _ _ Hok Hd a Ha).
      assert (a <> place t m b) by (unfold place; change (is_dense t = true) in Hd; rewrite Hd; congruence).
      rewrite !decide_False by assumption. auto.
  - intros a Ha. unfold slot_at. rewrite Hpl, Hh, Hc. destruct (decide (a = b)) as [->|Hn].
    + rewrite Hm, !decide_True by reflexivity. reflexivity.
    + destruct (has_bit m a) eqn:Hma; [|reflexivity]. rewrite !decide_False; [reflexivity|..];
      intros Heq; apply Hn, (place_inj t m); auto.
Qed.

(** *** Rebuilding for another set of branches *)

Lemma rebuild_loop_ok src sm dm next n : arrays_ok next dm ->
  (forall b, (b < 16)%nat -> has_bit dm b = true -> slot_at next dm b = Some (uint256_zero, None)) -> (n <= 16)%nat ->
  let t := fold_left (rebuild_branch src sm dm) (seq 0 n) next in
  arrays_ok t dm /\ forall b, (b < 16)%nat -> has_bit dm b = true ->
    slot_at t dm b = if decide (b < n)%nat then Some (default (uint256_zero, None) (slot_at src sm b)) else Some (uint256_zero, None).
Proof.
  intros Hnext H0. induction n as [|n IH]; intros Hn t.
  { split; [exact Hnext|]. intros b Hb Hd. rewrite decide_False by lia. now apply H0. }
  destruct (IH ltac:(lia)) as [Hok Hs]. clear IH. unfold t. rewrite seq_S, fold_left_app. cbn [Nat.add fold_left].
  set (u := fold_left (rebuild_branch src sm dm) (seq 0 n) next) in *. unfold rebuild_branch.
  destruct (has_bit dm n) eqn:Hd; cbn [negb].
  2:{ split; [exact Hok|]. intros b Hb Hdb. rewrite Hs by assumption. assert (b <> n) by congruence. repeat case_decide; try lia; reflexivity. }
  rewrite child_index_used by (auto; lia). destruct (has_bit sm n) eqn:Hsn; cbn [negb].
  2:{ split; [exact Hok|]. intros b Hb Hdb. rewrite Hs by assumption. destruct (decide (b = n)) as [->|].
      - rewrite decide_False, decide_True by lia. unfold slot_at. now rewrite Hsn.
      - repeat case_decide; try lia; reflexivity. }
  assert ((if is_dense u then n else place u dm n) = place u dm n) as -> by (unfold place; now destruct (is_dense u)).
  assert ((if is_dense src then n else rank sm n) = place src sm n) as -> by (unfold place; rewrite rank_below by lia; reflexivity).
  destruct (set_place_ok u dm n (hash_at src (place src sm n)) (get_child_at_index src (place src sm n)) Hok Hd ltac:(lia)) as [Hok' Hs'].
  split; [exact Hok'|]. intros b Hb Hdb. rewrite Hs' by assumption. destruct (decide (b = n)) as [->|].
  - rewrite decide_True by lia. unfold slot_at. rewrite Hsn. reflexivity.
  - rewrite Hs by assumption. repeat case_decide; try lia; reflexivity.
Qed.

Lemma nth_replicate {A} n j (x : A) : nth j (replicate n x) x = x.
Proof. rewrite nth_lookup. destruct (replicate n x !! j) eqn:Hj; [|reflexivity]. now apply lookup_replicate in Hj as [-> _]. Qed.

Lemma fresh_arrays_ok t m : mask_ok m -> capacity t = cap (count_ones m) -> hashes t = replicate (capacity t) uint256_zero ->
  children t = replicate (capacity t) None ->
  arrays_ok t m /\ forall b, (b < 16)%nat -> has_bit m b = true -> slot_at t m b = Some (uint256_zero, None).
Proof.
  intros Hm Hc Hh Hch. assert (forall j, hash_at t j = uint256_zero /\ get_child_at_index t j = None) as Hz.
  { intros j. unfold hash_at, get_child_at_index. rewrite Hh, Hch. split; apply nth_replicate. }
  split.
  - split; [exact Hm|exact Hc|rewrite Hh; apply length_replicate|rewrite Hch; apply length_replicate|]. intros _ b _. apply Hz.
  - intros b Hb Hbit. unfold slot_at. rewrite Hbit. destruct (Hz (place t m b)) as [-> ->]. reflexivity.
Qed.

Lemma rebuild_ok {E} t sm dm : arrays_ok t sm -> mask_ok dm -> exists t', rebuild (E := E) sm dm (count_ones dm) t = Ok t' /\
  arrays_ok t' dm /\ forall b, (b < 16)%nat ->
    slot_at t' dm b = if has_bit dm b then Some (default (uint256_zero, None) (slot_at t sm b)) else None.
Proof.
  intros Hok Hm. unfold rebuild. rewrite capacity_for_children_ok by apply count_ones_le. cbn [bind].
  destruct (_ && (sm =? dm)) eqn:Heq.
  - apply andb_true_iff in Heq as [_ Heq]. apply Z.eqb_eq in Heq as <-. exists t. split; [reflexivity|]. split; [exact Hok|].
    intros b Hb. unfold slot_at. now destruct (has_bit sm b).
  - destruct (tagged_new_ok (E := E) (count_ones dm) (count_ones_le dm)) as (next & -> & Hc & Hh & Hch). cbn [bind].
    destruct (fresh_arrays_ok next dm Hm Hc ltac:(congruence) ltac:(congruence)) as [Hn H0].
    eexists. split; [reflexivity|]. destruct (rebuild_loop_ok t sm dm next 16 Hn H0 ltac:(lia)) as [Hok' Hs].
    split; [exact Hok'|]. intros b Hb. destruct (has_bit dm b) eqn:Hd; [|unfold slot_at; now rewrite Hd].
    rewrite Hs by assumption. now rewrite decide_True.
Qed.

(** *** Walking the arrays *)

Lemma iter_children_slots t m : arrays_ok t m ->
  iter_children t m = (fun b => match slot_at t m b with Some (h, _) => h | None => uint256_zero end) <$> seq 0 16.
Proof.
  intros Hok. unfold iter_children, slot_at, place. destruct (is_dense t) eqn:Hd.
  - apply list_fmap_ext. intros ? b _.
    destruct (has_bit m b) eqn:Hm; [reflexivity|]. now destruct (ok_unused _ _ Hok Hd b Hm).
  - assert (forall n, fold_left (fun '(k, out) b => if has_bit m b then (S k, out ++ [hash_at t k]) else (k, out ++ [uint256_zero])) (seq 0 n) (O, [])
      = (below m n, (fun b => match (if has_bit m b then Some (hash_at t (below m b), get_child_at_index t (below m b)) else None) with
                              | Some (h, _) => h | None => uint256_zero end) <$> seq 0 n)) as ->; [|reflexivity].
    induction n as [|n IH]; [reflexivity|]. rewrite seq_S, fold_left_app, IH, fmap_app, below_S. cbn -[below].
    destruct (has_bit m n); [now rewrite Nat.add_1_r|now rewrite Nat.add_0_r].
Qed.

Lemma iter_indexes_places t m :
  iter_non_empty_child_indexes t m = (fun b => (b, place t m b)) <$> filter (fun b => has_bit m b = true) (seq 0 16).
Proof.
  unfold iter_non_empty_child_indexes, place. destruct (is_dense t) eqn:Hd; [reflexivity|].
  assert (forall n, fold_left (fun '(k, out) b => if has_bit m b then (S k, out ++ [(b, k)]) else (k, out)) (seq 0 n) (O, [])
    = (below m n, (fun b => (b, below m b)) <$> filter (fun b => has_bit m b = true) (seq 0 n))) as ->; [|reflexivity].
  induction n as [|n IH]; [reflexivity|]. rewrite seq_S, fold_left_app, IH, filter_app, fmap_app, below_S. cbn -[below filter].
  rewrite filter_cons. destruct (has_bit m n); [rewrite decide_True by reflexivity; now rewrite Nat.add_1_r|].
  rewrite decide_False by discriminate. now rewrite Nat.add_0_r, app_nil_r.
Qed.

(** A pass over the branches in use that changes each place from its own contents. *)
Lemma place_fold_ok t m (f : TaggedPointer -> nat * nat -> TaggedPointer) (g : SHAMapHash * option loc -> SHAMapHash * option loc) :
  arrays_ok t m ->
  (forall u b, arrays_ok u m -> place u m b = place t m b -> (b < 16)%nat -> has_bit m b = true ->
     exists h c, g (hash_at u (place t m b), get_child_at_index u (place t m b)) = (h, c) /\
       f u (b, place t m b) = set_child_at_index (place t m b) c (set_hash_at_index (place t m b) h u)) ->
  let t' := fold_left f (iter_non_empty_child_indexes t m) t in
  arrays_ok t' m /\ forall b, (b < 16)%nat -> slot_at t' m b = g <$> slot_at t m b.
Proof.
  intros Hok Hf. rewrite iter_indexes_places.
  assert (forall n, (n <= 16)%nat ->
    let t' := fold_left f ((fun b => (b, place t m b)) <$> filter (fun b => has_bit m b = true) (seq 0 n)) t in
    arrays_ok t' m /\ (forall b, place t' m b = place t m b) /\
    forall b, (b < 16)%nat -> slot_at t' m b = if decide (b < n)%nat then g <$> slot_at t m b else slot_at t m b) as Hn.
  { induction n as [|n IH]; intros Hn t'.
    { split; [exact Hok|]. split; [reflexivity|]. intros b Hb. now rewrite decide_False by lia. }
    destruct (IH ltac:(lia)) as (Hu & Hp & Hs). clear IH. unfold t'. rewrite seq_S, filter_app, fmap_app, fold_left_app. cbn [Nat.add].
    set (u := fold_left f (_ <$> filter _ (seq 0 n)) t) in *. rewrite filter_cons. destruct (has_bit m n) eqn:Hm.
    - rewrite decide_True by reflexivity. cbn [filter list_filter fmap list_fmap fold_left].
      destruct (Hf u n Hu (Hp n) ltac:(lia) Hm) as (h & c & Hg & ->). rewrite <- (Hp n).
      destruct (set_place_ok u m n h c Hu Hm ltac:(lia)) as [Hu' Hs']. split; [exact Hu'|]. split; [exact Hp|].
      intros b Hb. rewrite Hs' by exact Hb. destruct (decide (b = n)) as [->|].
      + rewrite decide_True by lia. specialize (Hs n Hb). rewrite decide_False in Hs by lia. rewrite <- Hs.
        unfold slot_at. rewrite Hm. cbn. rewrite Hp. now rewrite Hg.
      + rewrite Hs by exact Hb. repeat case_decide; try lia; reflexivity.
    - rewrite decide_False by discriminate. cbn. split; [exact Hu|]. split; [exact Hp|]. intros b Hb. rewrite Hs by exact Hb.
      destruct (decide (b = n)) as [->|]; [|repeat case_decide; try lia; reflexivity].
      rewrite decide_False, decide_True by lia. unfold slot_at. now rewrite Hm. }
  destruct (Hn 16%nat ltac:(lia)) as (H1 & _ & H2). split; [exact H1|]. intros b Hb. rewrite H2 by exact Hb. now rewrite decide_True.
Qed.

(** ** Inner nodes *)

Definition inner_ok (i : SHAMapInnerNode) : Prop := arrays_ok (tagged i) (is_branch i).

Definition slots (i : SHAMapInnerNode) : list slot := slot_at (tagged i) (is_branch i) <$> seq 0 16.

Lemma slots_length i : length (slots i) = 16%nat.
Proof. reflexivity. Qed.

Lemma slots_lookup i b : (b < 16)%nat -> slots i !! b = Some (slot_at (tagged i) (is_branch i) b).
Proof. intros Hb. unfold slots. rewrite list_lookup_fmap, lookup_seq_lt by exact Hb. reflexivity. Qed.

Lemma slots_eq i (l : list slot) : length l = 16%nat ->
  (forall b s, (b < 16)%nat -> l !! b = Some s -> slot_at (tagged i) (is_branch i) b = s) -> slots i = l.
Proof.
  intros Hl Hs. apply list_eq_same_length with (n := 16%nat); [exact Hl|reflexivity|].
  intros b x y Hb Hx Hy. rewrite slots_lookup in Hx by exact Hb. injection Hx as <-. now apply Hs.
Qed.

(** The number of branches in use. *)
Lemma count_slots i : count_ones (is_branch i) = length (filter (fun s => s <> None) (slots i)).
Proof.
  unfold count_ones, slots. generalize (seq 0 16). induction l as [|b l IH]; [reflexivity|].
  rewrite fmap_cons, !filter_cons. destruct (has_bit (is_branch i) b) eqn:Hb.
  - rewrite !decide_True by (unfold slot_at; rewrite ?Hb; congruence). cbn [length]. now rewrite IH.
  - rewrite !decide_False by (unfold slot_at; rewrite ?Hb; intros Hx; (discriminate Hx || now apply Hx)). exact IH.
Qed.

Lemma empty_slots i : inner_ok i -> is_branch i = 0 <-> slots i = replicate 16 None.
Proof.
  intros Hok. split.
  - intros Hm. apply slots_eq; [reflexivity|]. intros b s Hb Hs. apply lookup_replicate in Hs as [-> _].
    unfold slot_at. now rewrite Hm, has_bit_0.
  - intros Hs. apply mask_ext; [apply Hok|split; lia|]. intros b Hb. rewrite has_bit_0.
    pose proof (slots_lookup i b Hb) as Hl. rewrite Hs, lookup_replicate_2 in Hl by exact Hb. injection Hl as Hl.
    unfold slot_at in Hl. now destruct (has_bit (is_branch i) b).
Qed.

Definition slot_hash (s : slot) : SHAMapHash := match s with Some (h, _) => h | None => uint256_zero end.
Definition slot_child (s : slot) : option loc := match s with Some (_, c) => c | None => None end.

(** ** What the operations do to the slots *)

Section Operations.
Context `{Sha512} {E : Type}.

Lemma validate_branch_ok b : (b < 16)%nat -> validate_branch (E := E) b = Ok tt.
Proof. intros Hb. unfold validate_branch, BRANCH_FACTOR. now rewrite decide_True. Qed.

Section Read.
Context (n : SHAMapTreeNode) (i : SHAMapInnerNode) (Hbody : body n = InnerBody i) (Hok : inner_ok i).

Lemma is_empty_branch_slots b s : slots i !! b = Some s -> is_empty_branch (E := E) n b = Ok (bool_decide (s = None)).
Proof.
  intros Hs. assert ((b < 16)%nat) as Hb by (apply lookup_lt_Some in Hs; exact Hs).
  rewrite slots_lookup in Hs by exact Hb. injection Hs as <-. unfold is_empty_branch. rewrite validate_branch_ok by exact Hb. cbn [bind].
  rewrite Hbody. unfold slot_at. destruct (has_bit (is_branch i) b); reflexivity.
Qed.

Lemma tagged_get_hash_slots b : (b < 16)%nat -> tagged_get_hash (tagged i) (is_branch i) b = slot_hash (slot_at (tagged i) (is_branch i) b).
Proof.
  intros Hb. unfold tagged_get_hash, slot_at. destruct (has_bit (is_branch i) b) eqn:Hm.
  - now rewrite child_index_used.
  - unfold child_index. rewrite Hm. destruct (is_dense (tagged i)) eqn:Hd; [|reflexivity]. now destruct (ok_unused _ _ Hok Hd b Hm).
Qed.

Lemma get_child_hash_slots b s : slots i !! b = Some s -> get_child_hash (E := E) n b = Ok (slot_hash s).
Proof.
  intros Hs. assert ((b < 16)%nat) as Hb by (apply lookup_lt_Some in Hs; exact Hs).
  rewrite slots_lookup in Hs by exact Hb. injection Hs as <-. unfold get_child_hash. rewrite validate_branch_ok by exact Hb. cbn [bind].
  rewrite Hbody. now rewrite tagged_get_hash_slots.
Qed.

Lemma get_child_slots b s : slots i !! b = Some s -> get_child (E := E) n b = Ok (slot_child s).
Proof.
  intros Hs. assert ((b < 16)%nat) as Hb by (apply lookup_lt_Some in Hs; exact Hs).
  rewrite slots_lookup in Hs by exact Hb. injection Hs as <-. unfold get_child. rewrite validate_branch_ok by exact Hb. cbn [bind].
  rewrite Hbody. unfold slot_at. destruct (has_bit (is_branch i) b) eqn:Hm.
  - now rewrite child_index_used.
  - unfold child_index. rewrite Hm. destruct (is_dense (tagged i)) eqn:Hd; [|reflexivity]. now destruct (ok_unused _ _ Hok Hd b Hm) as [_ ->].
Qed.

Lemma branch_count_slots : branch_count n = length (filter (fun s => s <> None) (slots i)).
Proof. unfold branch_count. rewrite Hbody. apply count_slots. Qed.

End Read.

(** [after n h i']: the node [n] with the hash [h] and the arrays [i']. *)
Definition after (n : SHAMapTreeNode) (h : SHAMapHash) (i' : SHAMapInnerNode) : SHAMapTreeNode := mkNode h (cowid n) (InnerBody i').

Lemma new_inner_slots c k : (k <= 16)%nat -> exists i, new_inner_with_capacity (E := E) c k = Ok (mkNode uint256_zero c (InnerBody i)) /\
  is_branch i = 0 /\ (k <= 2 -> inner_ok i)%nat /\ slots i = replicate 16 None.
Proof.
  intros Hk. unfold new_inner_with_capacity. destruct (tagged_new_ok (E := E) k Hk) as (t & -> & Hc & Hh & Hch). cbn [bind].
  eexists. split; [reflexivity|]. split; [reflexivity|]. split.
  - intros Hk2. apply (fresh_arrays_ok t 0); [split; lia| |congruence|congruence]. rewrite Hc. unfold cap. rewrite decide_True by lia. reflexivity.
  - apply slots_eq; [reflexivity|]. intros b s Hb Hs. apply lookup_replicate in Hs as [-> _]. unfold slot_at. cbn [is_branch]. now rewrite has_bit_0.
Qed.

Lemma new_inner_ok c : exists i, new_inner (E := E) c = Ok (mkNode uint256_zero c (InnerBody i)) /\ inner_ok i /\ slots i = replicate 16 None.
Proof. destruct (new_inner_slots c 0 ltac:(lia)) as (i & Hi & _ & Hok & Hs). exists i. auto with lia. Qed.

Section Write.
Context (n : SHAMapTreeNode) (i : SHAMapInnerNode) (Hbody : body n = InnerBody i) (Hok : inner_ok i).

Lemma as_inner_body : as_inner (E := E) n = Ok i.
Proof. unfold as_inner. now rewrite Hbody. Qed.

Lemma insert_slots i' b s : (b < 16)%nat ->
  (forall a, (a < 16)%nat -> slot_at (tagged i') (is_branch i') a = if decide (a = b) then s else slot_at (tagged i) (is_branch i) a) ->
  slots i' = <[b := s]> (slots i).
Proof.
  intros Hb Hs. apply slots_eq; [rewrite length_insert; apply slots_length|]. intros a x Ha Hx. rewrite Hs by exact Ha.
  destruct (decide (a = b)) as [->|Hn].
  - rewrite list_lookup_insert_eq in Hx by exact Hb. congruence.
  - rewrite list_lookup_insert_ne, slots_lookup in Hx by (auto; congruence). congruence.
Qed.

Lemma rebuild_set b : (b < 16)%nat -> let m := set_bit (is_branch i) b in
  exists t, rebuild (E := E) (is_branch i) m (count_ones m) (tagged i) = Ok t /\ arrays_ok t m /\ has_bit m b = true /\
  forall a, (a < 16)%nat -> slot_at t m a =
    if decide (a = b) then Some (default (uint256_zero, None) (slot_at (tagged i) (is_branch i) b)) else slot_at (tagged i) (is_branch i) a.
Proof.
  intros Hb m. destruct (rebuild_ok (E := E) (tagged i) (is_branch i) m Hok) as (t & Ht & Hokt & Hs); [apply set_bit_ok; [apply Hok|exact Hb]|].
  exists t. split; [exact Ht|]. split; [exact Hokt|]. split; [unfold m; rewrite has_bit_set, bool_decide_true; reflexivity|].
  intros a Ha. rewrite Hs by exact Ha. unfold m. rewrite has_bit_set. destruct (decide (a = b)) as [->|Hn].
  - rewrite bool_decide_true by reflexivity. reflexivity.
  - rewrite bool_decide_false by exact Hn. cbn [orb]. unfold slot_at. now destruct (has_bit (is_branch i) a).
Qed.

Lemma rebuild_clear b : (b < 16)%nat -> let m := clear_bit (is_branch i) b in
  exists t, rebuild (E := E) (is_branch i) m (count_ones m) (tagged i) = Ok t /\ arrays_ok t m /\
  forall a, (a < 16)%nat -> slot_at t m a = if decide (a = b) then None else slot_at (tagged i) (is_branch i) a.
Proof.
  intros Hb m. destruct (rebuild_ok (E := E) (tagged i) (is_branch i) m Hok) as (t & Ht & Hokt & Hs); [apply clear_bit_ok, Hok|].
  exists t. split; [exact Ht|]. split; [exact Hokt|].
  intros a Ha. rewrite Hs by exact Ha. unfold m. rewrite has_bit_clear. destruct (decide (a = b)) as [->|Hn].
  - rewrite bool_decide_true by reflexivity. reflexivity.
  - rewrite bool_decide_false by exact Hn. cbn [negb andb]. unfold slot_at. now destruct (has_bit (is_branch i) a).
Qed.

(** Setting only the hash, or only the child, of a place in use. *)
Lemma set_hash_place t m b h : arrays_ok t m -> has_bit m b = true -> (b < 16)%nat ->
  set_hash_at_index (place t m b) h t = set_child_at_index (place t m b) (get_child_at_index t (place t m b)) (set_hash_at_index (place t m b) h t).
Proof.
  intros Ht Hm Hb. unfold set_child_at_index, set_hash_at_index. cbn. f_equal. symmetry. apply list_insert_id.
  unfold get_child_at_index. rewrite nth_lookup. destruct (lookup_lt_is_Some_2 (children t) (place t m b)) as [x Hx];
  [rewrite (ok_children _ _ Ht); now apply place_lt|]. now rewrite Hx.
Qed.

Lemma set_child_place t m b c : arrays_ok t m -> has_bit m b = true -> (b < 16)%nat ->
  set_child_at_index (place t m b) c t = set_child_at_index (place t m b) c (set_hash_at_index (place t m b) (hash_at t (place t m b)) t).
Proof.
  intros Ht Hm Hb. unfold set_child_at_index, set_hash_at_index. cbn. f_equal. symmetry. apply list_insert_id.
  unfold hash_at. rewrite nth_lookup. destruct (lookup_lt_is_Some_2 (hashes t) (place t m b)) as [x Hx];
  [rewrite (ok_hashes _ _ Ht); now apply place_lt|]. now rewrite Hx.
Qed.

Lemma set_child_slots b c : (b < 16)%nat -> cowid n <> 0 -> exists i', set_child (E := E) n b c = Ok (after n uint256_zero i') /\
  inner_ok i' /\ slots i' = <[b := (fun c => (uint256_zero, Some c)) <$> c]> (slots i).
Proof.
  intros Hb Hc. unfold set_child. rewrite validate_branch_ok by exact Hb. cbn [bind]. rewrite decide_False by exact Hc.
  rewrite as_inner_body. cbn [bind]. destruct c as [c|].
  - destruct (rebuild_set b Hb) as (t & -> & Ht & Hbit & Hs). cbn [bind]. unfold used_index. rewrite child_index_used by assumption. cbn [bind].
    destruct (set_place_ok t _ b uint256_zero (Some c) Ht Hbit Hb) as [Ht' Hs']. eexists. split; [reflexivity|]. split; [exact Ht'|].
    apply insert_slots; [exact Hb|]. intros a Ha. cbn [tagged is_branch]. rewrite Hs' by exact Ha.
    destruct (decide (a = b)) as [->|Hn]; [reflexivity|]. rewrite Hs by exact Ha. now rewrite decide_False.
  - destruct (rebuild_clear b Hb) as (t & -> & Ht & Hs). cbn [bind]. eexists. split; [reflexivity|]. split; [exact Ht|].
    apply insert_slots; [exact Hb|]. exact Hs.
Qed.

Lemma set_child_hash_slots b h : (b < 16)%nat -> exists i', set_child_hash (E := E) n b h = Ok (after n (hash n) i') /\ inner_ok i' /\
  slots i' = <[b := if decide (h = uint256_zero) then None else Some (h, slot_child (slot_at (tagged i) (is_branch i) b))]> (slots i).
Proof.
  intros Hb. unfold set_child_hash. rewrite validate_branch_ok by exact Hb. cbn [bind]. rewrite as_inner_body. cbn [bind].
  destruct (decide (h = uint256_zero)) as [Hz|Hz].
  - rewrite !(decide_False (P := h <> uint256_zero) (_ : Z)) by tauto.
    destruct (rebuild_clear b Hb) as (t & -> & Ht & Hs). cbn [bind]. rewrite decide_False by tauto. cbn [bind].
    eexists. split; [reflexivity|]. split; [exact Ht|]. now apply insert_slots.
  - rewrite !(decide_True (P := h <> uint256_zero) (_ : Z)) by exact Hz.
    destruct (rebuild_set b Hb) as (t & -> & Ht & Hbit & Hs). cbn [bind]. rewrite decide_True by exact Hz.
    unfold used_index. rewrite child_index_used by assumption. cbn [bind]. rewrite (set_hash_place t _ b h Ht Hbit Hb).
    destruct (set_place_ok t _ b h (get_child_at_index t (place t (set_bit (is_branch i) b) b)) Ht Hbit Hb) as [Ht' Hs'].
    eexists. split; [reflexivity|]. split; [exact Ht'|].
    apply insert_slots; [exact Hb|]. intros a Ha. cbn [tagged is_branch]. rewrite Hs' by exact Ha.
    destruct (decide (a = b)) as [->|Hn]; [|rewrite Hs by exact Ha; now rewrite decide_False].
    specialize (Hs b Hb). unfold slot_at in Hs at 1. rewrite Hbit, decide_True in Hs by reflexivity. apply (f_equal slot_child) in Hs. cbn [slot_child] in Hs. rewrite Hs.
    unfold slot_at. now destruct (has_bit (is_branch i) b).
Qed.

Lemma share_child_slots b h c c' : slots i !! b = Some (Some (h, c)) -> cowid n <> 0 -> exists i', share_child (E := E) n b c' = Ok (after n (hash n) i') /\
  inner_ok i' /\ slots i' = <[b := Some (h, Some c')]> (slots i).
Proof.
  intros Hs Hc. assert ((b < 16)%nat) as Hb by (apply lookup_lt_Some in Hs; exact Hs).
  rewrite slots_lookup in Hs by exact Hb. injection Hs as Hs. assert (has_bit (is_branch i) b = true) as Hm by (unfold slot_at in Hs; now destruct (has_bit (is_branch i) b)).
  unfold share_child. rewrite validate_branch_ok by exact Hb. cbn [bind]. rewrite decide_False by exact Hc. rewrite as_inner_body. cbn [bind].
  unfold used_index. rewrite child_index_used by assumption. cbn [bind]. rewrite (set_child_place _ _ b (Some c') Hok Hm Hb).
  destruct (set_place_ok _ _ b (hash_at (tagged i) (place (tagged i) (is_branch i) b)) (Some c') Hok Hm Hb) as [Ht' Hs'].
  eexists. split; [reflexivity|]. split; [exact Ht'|]. apply insert_slots; [exact Hb|]. intros a Ha. cbn [tagged is_branch]. rewrite Hs' by exact Ha.
  unfold slot_at in Hs. rewrite Hm in Hs. now injection Hs as -> _.
Qed.

Lemma canonicalize_child_slots b h c c' : slots i !! b = Some (Some (h, c)) ->
  exists i', canonicalize_child (E := E) n b c' h = Ok (default c' c, after n (hash n) i') /\
  inner_ok i' /\ slots i' = <[b := Some (h, Some (default c' c))]> (slots i).
Proof.
  intros Hs. pose proof (get_child_hash_slots n i Hbody Hok b _ Hs) as Hg. assert ((b < 16)%nat) as Hb by (apply lookup_lt_Some in Hs; exact Hs).
  pose proof Hs as Hl. rewrite slots_lookup in Hs by exact Hb. injection Hs as Hs.
  assert (has_bit (is_branch i) b = true) as Hm by (unfold slot_at in Hs; now destruct (has_bit (is_branch i) b)).
  unfold canonicalize_child. rewrite validate_branch_ok by exact Hb. cbn [bind]. rewrite Hg. cbn [bind slot_hash]. rewrite decide_False by tauto.
  rewrite as_inner_body. cbn [bind]. unfold used_index. rewrite child_index_used by assumption. cbn [bind].
  unfold slot_at in Hs. rewrite Hm in Hs. injection Hs as Hh Hc. rewrite Hc. destruct c as [c|].
  - exists i. split; [f_equal; f_equal; unfold after; rewrite <- Hbody; now destruct n|]. split; [exact Hok|]. symmetry. now apply list_insert_id.
  - rewrite (set_child_place _ _ b (Some c') Hok Hm Hb). rewrite Hh.
    destruct (set_place_ok _ _ b h (Some c') Hok Hm Hb) as [Ht' Hs']. eexists. split; [reflexivity|]. split; [exact Ht'|].
    apply insert_slots; [exact Hb|]. exact Hs'.
Qed.

Definition drop_child (s : SHAMapHash * option loc) : SHAMapHash * option loc := (s.1, None).

Lemma release_loaded_children_slots : exists i', release_loaded_children n = after n (hash n) i' /\ inner_ok i' /\
  slots i' = fmap (M := option) drop_child <$> slots i.
Proof.
  unfold release_loaded_children. rewrite Hbody.
  destruct (place_fold_ok (tagged i) (is_branch i) (fun t '(_, index) => set_child_at_index index None t) drop_child Hok) as [Ht Hs].
  { intros u b Hu Hp Hb Hm. do 2 eexists. split; [reflexivity|]. rewrite <- Hp. now apply set_child_place. }
  eexists. split; [reflexivity|]. split; [exact Ht|]. apply slots_eq; [rewrite length_fmap; apply slots_length|].
  intros b s Hb Hl. rewrite list_lookup_fmap, slots_lookup in Hl by exact Hb. injection Hl as <-. now apply Hs.
Qed.

Definition refresh (hash_of : loc -> SHAMapHash) (s : SHAMapHash * option loc) : SHAMapHash * option loc :=
  match s.2 with Some c => (hash_of c, Some c) | None => s end.

(** The digest of an inner node with the given slots. *)
Definition digest (l : list slot) : SHAMapHash :=
  if decide (l = replicate 16 None) then uint256_zero
  else sha512_half (to_be_bytes 4 HASH_PREFIX_INNER_NODE ++ concat (slot_hash <$> l)).

Lemma compute_inner_hash_slots j : inner_ok j -> compute_inner_hash (is_branch j) (tagged j) = digest (slots j).
Proof.
  intros Hj. unfold compute_inner_hash, digest. pose proof (empty_slots j Hj) as He. destruct (Z.eqb_spec (is_branch j) 0) as [Hz|Hz].
  - rewrite decide_True; [reflexivity|tauto].
  - rewrite decide_False by tauto. rewrite iter_children_slots by exact Hj. reflexivity.
Qed.

Lemma update_hash_slots : update_hash (E := E) n = Ok (after n (digest (slots i)) i).
Proof. unfold update_hash. rewrite Hbody, compute_inner_hash_slots by exact Hok. unfold set_hash, after. now rewrite Hbody. Qed.

Lemma update_hash_deep_slots hash_of : exists i', update_hash_deep (E := E) hash_of n = Ok (after n (digest (slots i')) i') /\ inner_ok i' /\
  slots i' = fmap (M := option) (refresh hash_of) <$> slots i.
Proof.
  unfold update_hash_deep. rewrite as_inner_body. cbn [bind].
  set (f := fun t '(_, index) => match get_child_at_index t index with Some c => set_hash_at_index index (hash_of c) t | None => t end).
  destruct (place_fold_ok (tagged i) (is_branch i) f (refresh hash_of) Hok) as [Ht Hs].
  { intros u b Hu Hp Hb Hm. unfold f, refresh. rewrite <- !Hp. cbn [fst snd]. destruct (get_child_at_index u (place u (is_branch i) b)) as [c|] eqn:Hc.
    - do 2 eexists. split; [reflexivity|]. etransitivity; [now apply set_hash_place|]. now rewrite Hc.
    - do 2 eexists. split; [reflexivity|]. rewrite <- Hc, <- set_hash_place by assumption. unfold set_hash_at_index.
      rewrite list_insert_id; [now destruct u|]. unfold hash_at. rewrite nth_lookup.
      destruct (lookup_lt_is_Some_2 (hashes u) (place u (is_branch i) b)) as [x ->]; [rewrite (ok_hashes _ _ Hu); now apply place_lt|reflexivity]. }
  eexists (mkInner _ _ _). split; [rewrite <- compute_inner_hash_slots by exact Ht; reflexivity|]. split; [exact Ht|].
  apply slots_eq; [rewrite length_fmap; apply slots_length|].
  intros b s Hb Hl. rewrite list_lookup_fmap, slots_lookup in Hl by exact Hb. injection Hl as <-. now apply Hs.
Qed.

End Write.

(** *** Copies *)

Lemma fold_outcome_app {A B} (f : A -> B -> outcome E A) l1 l2 a :
  fold_outcome f (l1 ++ l2) a = (a' <- fold_outcome f l1 a;; fold_outcome f l2 a').
Proof. revert a. induction l1 as [|b l1 IH]; intros a; [reflexivity|]. cbn. destruct (f a b); cbn; auto. Qed.

Lemma clone_branch_ok src m dst b : arrays_ok src m -> arrays_ok dst m -> (b < 16)%nat ->
  (has_bit m b = true -> slot_at dst m b = Some (uint256_zero, None)) ->
  exists t, clone_branch (E := E) src m dst b = Ok t /\ arrays_ok t m /\
  forall a, (a < 16)%nat -> slot_at t m a = if decide (a = b) then slot_at src m b else slot_at dst m a.
Proof.
  intros Hsrc Hdst Hb H0. unfold clone_branch. destruct (has_bit m b) eqn:Hm; cbn [negb].
  2:{ exists dst. split; [reflexivity|]. split; [exact Hdst|]. intros a Ha. destruct (decide (a = b)) as [->|]; [|reflexivity]. unfold slot_at. now rewrite Hm. }
  rewrite !child_index_used by assumption. specialize (H0 eq_refl). unfold slot_at in H0. rewrite Hm in H0. injection H0 as _ Hc.
  eexists. split; [reflexivity|].
  assert (tagged_get_hash src m b = hash_at src (place src m b)) as -> by (unfold tagged_get_hash; now rewrite child_index_used).
  assert (forall h, match get_child_at_index src (place src m b) with
    | Some child => set_child_at_index (place dst m b) (Some child) (set_hash_at_index (place dst m b) h dst)
    | None => set_hash_at_index (place dst m b) h dst end =
    set_child_at_index (place dst m b) (get_child_at_index src (place src m b)) (set_hash_at_index (place dst m b) h dst)) as ->.
  { intros h. destruct (get_child_at_index src (place src m b)); [reflexivity|]. rewrite <- Hc. now apply set_hash_place. }
  destruct (set_place_ok dst m b (hash_at src (place src m b)) (get_child_at_index src (place src m b)) Hdst Hm Hb) as [Ht Hs].
  split; [exact Ht|]. intros a Ha. rewrite Hs by exact Ha. unfold slot_at at 2. now rewrite Hm.
Qed.

Lemma clone_loop_ok src m dst n : arrays_ok src m -> arrays_ok dst m ->
  (forall b, (b < 16)%nat -> has_bit m b = true -> slot_at dst m b = Some (uint256_zero, None)) -> (n <= 16)%nat ->
  exists t, fold_outcome (E := E) (clone_branch src m) (seq 0 n) dst = Ok t /\ arrays_ok t m /\
  forall b, (b < 16)%nat -> slot_at t m b = if decide (b < n)%nat then slot_at src m b else slot_at dst m b.
Proof.
  intros Hsrc Hdst H0. induction n as [|n IH]; intros Hn.
  { exists dst. split; [reflexivity|]. split; [exact Hdst|]. intros b Hb. now rewrite decide_False by lia. }
  destruct (IH ltac:(lia)) as (u & Hu & Hok & Hs). rewrite seq_S, fold_outcome_app, Hu. cbn [bind Nat.add fold_outcome].
  destruct (clone_branch_ok src m u n Hsrc Hok ltac:(lia)) as (t & -> & Ht & Hs').
  { intros Hm. rewrite Hs by lia. rewrite decide_False by lia. apply H0; [lia|exact Hm]. }
  exists t. split; [reflexivity|]. split; [exact Ht|]. intros b Hb. rewrite Hs' by exact Hb. destruct (decide (b = n)) as [->|].
  - now rewrite decide_True by lia.
  - rewrite Hs by exact Hb. repeat case_decide; try lia; reflexivity.
Qed.

Lemma clone_inner_slots n i c : body n = InnerBody i -> inner_ok i ->
  exists i', clone_with_cowid (E := E) n c = Ok (mkNode (hash n) c (InnerBody i')) /\ inner_ok i' /\ slots i' = slots i.
Proof.
  intros Hbody Hok. unfold clone_with_cowid, BRANCH_FACTOR. rewrite Hbody. unfold new_inner_with_capacity.
  destruct (tagged_new_ok (E := E) (count_ones (is_branch i)) (count_ones_le _)) as (t & -> & Hc & Hh & Hch). cbn [bind as_inner body tagged].
  destruct (fresh_arrays_ok t (is_branch i) (ok_mask _ _ Hok) Hc ltac:(congruence) ltac:(congruence)) as [Ht H0].
  destruct (clone_loop_ok (tagged i) (is_branch i) t 16 Hok Ht H0 ltac:(lia)) as (u & -> & Hu & Hs). cbn [bind].
  eexists. split; [reflexivity|]. split; [exact Hu|]. apply slots_eq; [reflexivity|]. intros b s Hb Hl. rewrite slots_lookup in Hl by exact Hb.
  injection Hl as <-. cbn [tagged is_branch]. rewrite Hs by exact Hb. now rewrite decide_True.
Qed.

(** ** Leaves *)

Record good_item (it : SHAMapItem) : Prop := {
  item_key_ok : is_key (item_key it);
  item_min : (MIN_SHAMAP_ITEM_BYTES <= length (item_data it))%nat
}.

Definition leaf_digest (ty : SHAMapNodeType) (it : SHAMapItem) : SHAMapHash :=
  match ty with
  | Inner => uint256_zero
  | TransactionNm => sha512_half_bytes HASH_PREFIX_TRANSACTION_ID [item_data it]
  | TransactionMd => sha512_half_bytes HASH_PREFIX_TX_NODE [item_data it; item_key it]
  | AccountState => sha512_half_bytes HASH_PREFIX_LEAF_NODE [item_data it; item_key it]
  end.

Lemma compute_leaf_hash_ok ty it : ty <> Inner -> compute_leaf_hash (E := E) ty it = Ok (leaf_digest ty it).
Proof. intros Hty. now destruct ty. Qed.

Lemma new_leaf_with_hash_ok ty it c h : ty <> Inner -> good_item it -> new_leaf_with_hash (E := E) ty it c h = Ok (mkNode h c (LeafBody ty it)).
Proof. intros Hty [_ Hm]. unfold new_leaf_with_hash. now rewrite !decide_False by (auto; lia). Qed.

Lemma new_leaf_ok ty it c : ty <> Inner -> good_item it -> new_leaf (E := E) ty it c = Ok (mkNode (leaf_digest ty it) c (LeafBody ty it)).
Proof.
  intros Hty Hit. unfold new_leaf. rewrite decide_False by (pose proof (item_min it Hit); lia).
  rewrite compute_leaf_hash_ok by exact Hty. cbn [bind]. now apply new_leaf_with_hash_ok.
Qed.

Lemma clone_leaf_ok n ty it c : body n = LeafBody ty it -> ty <> Inner -> good_item it ->
  clone_with_cowid (E := E) n c = Ok (mkNode (hash n) c (LeafBody ty it)).
Proof. intros Hb Hty Hit. unfold clone_with_cowid. rewrite Hb. now apply new_leaf_with_hash_ok. Qed.

Lemma set_item_ok n ty it it' : body n = LeafBody ty it -> ty <> Inner -> cowid n <> 0 ->
  set_item (E := E) n it' = Ok (bool_decide (hash n <> leaf_digest ty it'), mkNode (leaf_digest ty it') (cowid n) (LeafBody ty it')).
Proof.
  intros Hb Hty Hc. unfold set_item, as_leaf. rewrite Hb. cbn [bind]. rewrite decide_False by exact Hc.
  now rewrite compute_leaf_hash_ok by exact Hty.
Qed.

End Operations.
