(* ===== verification/ShamapInner.v ===== *)
(** * ShamapInner: inner nodes as sixteen slots

    An inner node keeps the hashes and children of its branches in arrays that hold only
    the branches in use, in one of a few sizes ([TaggedPointer]).  Whatever is done to a
    node, it is done to sixteen slots, and the arrays stay well formed
    ([inner_run_spec]). *)

From stdpp Require Import list.
From Stdlib Require Import ZArith Lia.
From S2P Require Import Prelude ShamapKey ShamapNode ShamapSlots.
Local Open Scope Z_scope.

Inductive inner_op : Type :=
| ISetChild (b : nat) (child : option loc)
| ISetChildHash (b : nat) (h : SHAMapHash)
| IShareChild (b : nat) (child : loc)
| ICanonicalize (b : nat) (child : loc) (child_hash : SHAMapHash)
| IRelease
| IUpdateHash
| IUpdateHashDeep (hash_of : loc -> SHAMapHash)
| ISetFullBelow (generation : Z)
| IUnshare
| IClone (cowid : Z).

(** The node as its slots. *)
Record slotted : Type := mkSlotted { s_hash : SHAMapHash; s_cowid : Z; s_slots : list slot }.

Section Inner.
Context `{Sha512} {E : Type}.

(** An operation, with the child that [canonicalize_child] answers. *)
Definition inner_step (n : SHAMapTreeNode) (op : inner_op) : outcome E (option loc * SHAMapTreeNode) :=
  match op with
  | ISetChild b c => n <- set_child n b c;; Ok (None, n)
  | ISetChildHash b h => n <- set_child_hash n b h;; Ok (None, n)
  | IShareChild b c => n <- share_child n b c;; Ok (None, n)
  | ICanonicalize b c h => r <- canonicalize_child n b c h;; Ok (Some r.1, r.2)
  | IRelease => Ok (None, release_loaded_children n)
  | IUpdateHash => n <- update_hash n;; Ok (None, n)
  | IUpdateHashDeep hash_of => n <- update_hash_deep hash_of n;; Ok (None, n)
  | ISetFullBelow g => Ok (None, set_full_below_gen n g)
  | IUnshare => Ok (None, unshare n)
  | IClone c => n <- clone_with_cowid n c;; Ok (None, n)
  end.

Fixpoint inner_run (n : SHAMapTreeNode) (ops : list inner_op) : outcome E (list (option loc) * SHAMapTreeNode) :=
  match ops with
  | [] => Ok ([], n)
  | op :: ops => r <- inner_step n op;; rs <- inner_run r.2 ops;; Ok (r.1 :: rs.1, rs.2)
  end.

(** The same on the slots. *)
Definition slot_step (a : slotted) (op : inner_op) : option loc * slotted :=
  let l := s_slots a in
  let at_slot b := default None (l !! b) in
  let put h l := (None, mkSlotted h (s_cowid a) l) in
  match op with
  | ISetChild b c => put uint256_zero (<[b := (fun c => (uint256_zero, Some c)) <$> c]> l)
  | ISetChildHash b h => put (s_hash a) (<[b := if decide (h = uint256_zero) then None else Some (h, slot_child (at_slot b))]> l)
  | IShareChild b c => put (s_hash a) (<[b := Some (slot_hash (at_slot b), Some c)]> l)
  | ICanonicalize b c h =>
      let c := default c (slot_child (at_slot b)) in
      (Some c, mkSlotted (s_hash a) (s_cowid a) (<[b := Some (h, Some c)]> l))
  | IRelease => put (s_hash a) (fmap (M := option) drop_child <$> l)
  | IUpdateHash => put (digest l) l
  | IUpdateHashDeep hash_of => let l := fmap (M := option) (refresh hash_of) <$> l in put (digest l) l
  | ISetFullBelow _ => put (s_hash a) l
  | IUnshare => (None, mkSlotted (s_hash a) 0 l)
  | IClone c => (None, mkSlotted (s_hash a) c l)
  end.

Fixpoint slot_run (a : slotted) (ops : list inner_op) : list (option loc) * slotted :=
  match ops with
  | [] => ([], a)
  | op :: ops => let r := slot_step a op in let rs := slot_run r.2 ops in (r.1 :: rs.1, rs.2)
  end.

(** What the code asks of its callers: a branch there is, an owner for children to be
    changed, a branch in use for a child to be shared or hooked up, with its hash. *)
Definition usable (a : slotted) (op : inner_op) : Prop :=
  match op with
  | ISetChild b _ => (b < 16)%nat /\ s_cowid a <> 0
  | ISetChildHash b _ => (b < 16)%nat
  | IShareChild b _ => s_cowid a <> 0 /\ exists h c, s_slots a !! b = Some (Some (h, c))
  | ICanonicalize b _ h => exists c, s_slots a !! b = Some (Some (h, c))
  | _ => True
  end.

Fixpoint usable_run (a : slotted) (ops : list inner_op) : Prop :=
  match ops with
  | [] => True
  | op :: ops => usable a op /\ usable_run (slot_step a op).2 ops
  end.

(** [n] is a well formed inner node with these slots. *)
Definition has_slots (n : SHAMapTreeNode) (a : slotted) : Prop := exists i, body n = InnerBody i /\ inner_ok i /\ a = mkSlotted (hash n) (cowid n) (slots i).

Lemma inner_step_spec n a op : has_slots n a -> usable a op -> exists n', inner_step n op = Ok ((slot_step a op).1, n') /\ has_slots n' (slot_step a op).2.
Proof.
  intros (i & Hb & Hi & ->). assert (forall h i', inner_ok i' -> has_slots (after n h i') (mkSlotted h (cowid n) (slots i'))) as Hput by (intros h i' Hi'; exists i'; auto).
  destruct op as [b c|b h|b c|b c h| | |f|g| |c]; cbn [inner_step slot_step usable s_slots s_cowid s_hash fst snd].
  - intros [Hlt Hz]. destruct (set_child_slots (E := E) n i Hb Hi b c Hlt Hz) as (i' & -> & Hi' & <-). eauto.
  - intros Hlt. destruct (set_child_hash_slots (E := E) n i Hb Hi b h Hlt) as (i' & -> & Hi' & Hs'). rewrite (slots_lookup i b Hlt). cbn [default from_option id]. rewrite <- Hs'. eauto.
  - intros (Hz & h & x & Hs). destruct (share_child_slots (E := E) n i Hb Hi b h x c Hs Hz) as (i' & -> & Hi' & Hs'). rewrite Hs. cbn [default from_option id slot_hash]. rewrite <- Hs'. eauto.
  - intros (x & Hs). destruct (canonicalize_child_slots (E := E) n i Hb Hi b h x c Hs) as (i' & -> & Hi' & Hs'). rewrite Hs. cbn [default from_option id slot_child]. rewrite <- Hs'. eauto.
  - intros _. destruct (release_loaded_children_slots n i Hb Hi) as (i' & -> & Hi' & <-). eauto.
  - intros _. rewrite (update_hash_slots (E := E) n i Hb Hi). eauto.
  - intros _. destruct (update_hash_deep_slots (E := E) n i Hb Hi f) as (i' & -> & Hi' & <-). eauto.
  - intros _. eexists. split; [reflexivity|]. unfold set_full_below_gen. rewrite Hb. eexists. split; [reflexivity|]. split; [exact Hi|reflexivity].
  - intros _. eexists. split; [reflexivity|]. exists i. auto.
  - intros _. destruct (clone_inner_slots (E := E) n i c Hb Hi) as (i' & -> & Hi' & <-). eexists. split; [reflexivity|]. exists i'. auto.
Qed.

Lemma inner_run_spec ops : forall n a, has_slots n a -> usable_run a ops -> exists n', inner_run n ops = Ok ((slot_run a ops).1, n') /\ has_slots n' (slot_run a ops).2.
Proof.
  induction ops as [|op ops IH]; intros n a Hn Hu; cbn [inner_run slot_run usable_run fst snd] in *; [eauto|]. destruct Hu as [Hu Hus].
  destruct (inner_step_spec n a op Hn Hu) as (n1 & -> & Hn1). cbn [bind fst snd]. destruct (IH n1 _ Hn1 Hus) as (n2 & -> & Hn2). cbn [bind fst snd]. eauto.
Qed.

End Inner.

(** ** A branch that is not there *)

Definition dense_node : outcome unit SHAMapTreeNode :=
  n <- new_inner 1;; fold_outcome (fun n b => set_child_hash n b (repeat 1 32)) (seq 0 7) n.

(** [share_child] expects the branch to exist; in a node with all sixteen places it does
    not notice that it is missing, and the empty branch then has a child. *)
Lemma share_child_missing_branch : exists n n', dense_node = Ok n /\ is_empty_branch (E := unit) n 9 = Ok true /\ share_child (E := unit) n 9 5%nat = Ok n' /\
  is_empty_branch (E := unit) n' 9 = Ok true /\ get_child (E := unit) n' 9 = Ok (Some 5%nat).
Proof. eexists _, _. repeat (split; [vm_compute; reflexivity|]). vm_compute. reflexivity. Qed.
