(* ===== verification/ShamapTree.v ===== *)
(** * ShamapTree: the tree a SHAMap stands for

    A store of nodes stands for a tree of sixteen-way branchings with items at its
    leaves ([stree]).  [shaped p t]: [t] is a subtree at the path [p], each item
    under the path that its key takes.  [compact t]: no branching has fewer than two
    items below it, the form that insertion and removal keep.  A compact tree is
    determined by its items ([compact_unique]), and so is its digest. *)

From stdpp Require Import gmap sorting list.
From Stdlib Require Import ZArith Lia.
From S2P Require Import Prelude Serializer ShamapKey ShamapNode ShamapSlots.
Local Open Scope Z_scope.

(** ** Trees *)

Inductive stree : Type :=
| Empty
| Leaf (ty : SHAMapNodeType) (it : SHAMapItem)
| Node (kids : list stree).

Lemma stree_ind' (P : stree -> Prop) : P Empty -> (forall ty it, P (Leaf ty it)) -> (forall kids, Forall P kids -> P (Node kids)) -> forall t, P t.
Proof.
  intros H0 H1 H2. fix IH 1. intros [|ty it|kids]; [exact H0|apply H1|]. apply H2.
  induction kids as [|t kids IHk]; constructor; [apply IH|exact IHk].
Qed.

#[global] Instance stree_empty_dec t : Decision (t = Empty).
Proof. destruct t; [left; reflexivity|right; discriminate|right; discriminate]. Defined.

Abbreviation content := (SHAMapNodeType * SHAMapItem)%type.

Definition ckey (x : content) : Uint256 := item_key x.2.

(** The items, from left to right. *)
Fixpoint leaves (t : stree) : list content :=
  match t with
  | Empty => []
  | Leaf ty it => [(ty, it)]
  | Node kids => concat (map leaves kids)
  end.

Inductive shaped : list nat -> stree -> Prop :=
| shaped_empty p : shaped p Empty
| shaped_leaf p ty it : ty <> Inner -> good_item it -> take (length p) (nibbles (item_key it)) = p -> shaped p (Leaf ty it)
| shaped_node p kids : path_ok p -> (length p < 64)%nat -> length kids = 16%nat ->
    (forall b t, kids !! b = Some t -> shaped (p ++ [b]) t) -> shaped p (Node kids).

Inductive compact : stree -> Prop :=
| compact_empty : compact Empty
| compact_leaf ty it : compact (Leaf ty it)
| compact_node kids : (2 <= length (leaves (Node kids)))%nat -> (forall t, t ∈ kids -> compact t) -> compact (Node kids).

(** The whole tree: its root is a branching, whatever it holds. *)
Definition rooted (t : stree) : Prop := exists kids, t = Node kids /\ shaped [] t /\ forall s, s ∈ kids -> compact s.

(** The items as a map. *)
Definition contents (t : stree) : gmap Uint256 content := list_to_map ((fun x => (ckey x, x)) <$> leaves t).

(** ** Items of a shaped tree *)

Lemma shaped_leaves p t : shaped p t -> forall x, x ∈ leaves t ->
  x.1 <> Inner /\ good_item x.2 /\ take (length p) (nibbles (ckey x)) = p.
Proof.
  induction 1 as [p|p ty it Hty Hit Hp|p kids Hp Hl Hk Hs IH]; intros x Hx; cbn in Hx.
  - inversion Hx.
  - apply list_elem_of_singleton in Hx as ->. auto.
  - apply list_elem_of_In, in_concat in Hx as (l & Hin & Hx). apply in_map_iff in Hin as (t & <- & Hin).
    apply list_elem_of_In, list_elem_of_lookup in Hin as [b Hb]. destruct (IH b t Hb x) as (H1 & H2 & H3); [now apply list_elem_of_In|].
    split; [exact H1|]. split; [exact H2|]. rewrite length_app in H3. apply (f_equal (take (length p))) in H3.
    rewrite take_take, take_app_length in H3. rewrite Nat.min_l in H3 by lia. exact H3.
Qed.

(** The branch under which an item lies is the nibble of its key. *)
Lemma shaped_branch p b t x : shaped (p ++ [b]) t -> (length p < 64)%nat -> x ∈ leaves t -> nibble (ckey x) (length p) = b.
Proof.
  intros Hs Hl Hx. destruct (shaped_leaves _ _ Hs x Hx) as (_ & _ & Hp). apply (f_equal (fun l => nth (length p) l O)) in Hp.
  rewrite length_app in Hp. cbn [length] in Hp. rewrite nth_take, nth_nibbles in Hp by lia. rewrite app_nth2, Nat.sub_diag in Hp by lia. exact Hp.
Qed.

Lemma leaves_node_elem kids x : x ∈ leaves (Node kids) <-> exists b t, kids !! b = Some t /\ x ∈ leaves t.
Proof.
  cbn. rewrite list_elem_of_In, in_concat. split.
  - intros (l & Hin & Hx). apply in_map_iff in Hin as (t & <- & Hin). apply list_elem_of_In, list_elem_of_lookup in Hin as [b Hb].
    exists b, t. split; [exact Hb|now apply list_elem_of_In].
  - intros (b & t & Hb & Hx). exists (leaves t). split; [|now apply list_elem_of_In]. apply in_map, list_elem_of_In, list_elem_of_lookup. eauto.
Qed.

(** ** The order of items *)

Definition key_lt (x y : content) : Prop := key_ltb (ckey x) (ckey y) = true.

Lemma key_lt_irrefl x : is_key (ckey x) -> ~ key_lt x x.
Proof. intros Hk Hx. apply key_lt_parts in Hx as (d & _ & _ & Hd); auto. lia. Qed.

(** Items under an earlier branch come first. *)
Lemma branch_key_lt p b b' t t' x y : shaped (p ++ [b]) t -> shaped (p ++ [b']) t' -> (length p < 64)%nat -> (b < b')%nat ->
  x ∈ leaves t -> y ∈ leaves t' -> key_lt x y.
Proof.
  intros Ht Ht' Hl Hb Hx Hy. destruct (shaped_leaves _ _ Ht x Hx) as (_ & [Kx _] & Px). destruct (shaped_leaves _ _ Ht' y Hy) as (_ & [Ky _] & Py).
  apply key_lt_parts; [exact Kx|exact Ky|]. exists (length p). split; [exact Hl|]. split.
  - intros i Hi. rewrite length_app in Px, Py. cbn [length] in Px, Py.
    assert (forall q c, take (length p + 1) (nibbles q) = p ++ [c] -> nibble q i = nth i p O) as Hq.
    { intros q c Hq. apply (f_equal (fun l => nth i l O)) in Hq. rewrite nth_take, nth_nibbles, app_nth1 in Hq by lia. exact Hq. }
    unfold ckey in *. rewrite (Hq _ _ Px), (Hq _ _ Py). reflexivity.
  - fold (ckey x) (ckey y). rewrite (shaped_branch p b t x), (shaped_branch p b' t' y) by assumption. exact Hb.
Qed.

Lemma shaped_sorted p t : shaped p t -> StronglySorted key_lt (leaves t).
Proof.
  induction 1 as [p|p ty it Hty Hit Hp|p kids Hp Hl Hk Hs IH]; cbn [leaves]; [constructor|repeat constructor|].
  assert (forall j, StronglySorted key_lt (concat (map leaves (drop j kids)))) as Hj; [|exact (Hj O)].
  assert (forall n j, (length kids - j = n)%nat -> StronglySorted key_lt (concat (map leaves (drop j kids)))) as Hn; [|eauto].
  induction n as [|n IHn]; intros j Hj; [rewrite drop_ge by lia; constructor|].
  destruct (lookup_lt_is_Some_2 kids j) as [t Ht]; [lia|]. rewrite (drop_S _ t _ Ht). cbn [map concat].
  apply StronglySorted_app_2; [|eapply IH; exact Ht|apply IHn; lia].
  intros x y Hx Hy. apply list_elem_of_In, in_concat in Hy as (l & Hin & Hy). apply in_map_iff in Hin as (t' & <- & Hin).
  apply list_elem_of_In, list_elem_of_lookup in Hin as [b Hb]. rewrite lookup_drop in Hb.
  eapply (branch_key_lt p j (S j + b) t t'); [apply Hs; exact Ht|apply Hs; exact Hb|exact Hl|lia|exact Hx|now apply list_elem_of_In].
Qed.

Lemma shaped_keys p t x : shaped p t -> x ∈ leaves t -> is_key (ckey x).
Proof. intros Hs Hx. apply (shaped_leaves p t Hs x Hx). Qed.

Lemma sorted_NoDup l : (forall x, x ∈ l -> is_key (ckey x)) -> StronglySorted key_lt l -> NoDup (ckey <$> l).
Proof.
  intros Hk. induction 1 as [|x l Hl IH Hx]; [constructor|]. rewrite fmap_cons. constructor.
  - intros Hin. apply list_elem_of_fmap in Hin as (y & Heq & Hy). rewrite Forall_forall in Hx. specialize (Hx y Hy).
    unfold key_lt in Hx. rewrite <- Heq in Hx. apply (key_lt_irrefl x); [apply Hk; left|exact Hx].
  - apply IH. intros y Hy. apply Hk. now right.
Qed.

Lemma shaped_NoDup p t : shaped p t -> NoDup (ckey <$> leaves t).
Proof. intros Hs. apply sorted_NoDup; [intros x; now apply (shaped_keys p)|now apply (shaped_sorted p)]. Qed.

(** The map holds the items under their keys. *)
Lemma contents_lookup p t k x : shaped p t -> contents t !! k = Some x <-> x ∈ leaves t /\ ckey x = k.
Proof.
  intros Hs. unfold contents. rewrite <- elem_of_list_to_map.
  - rewrite list_elem_of_fmap. split; [intros (y & [= -> ->] & Hy); auto|intros [Hx <-]; eauto].
  - rewrite <- list_fmap_compose. now apply (shaped_NoDup p).
Qed.

Lemma contents_lookup_None p t k : shaped p t -> contents t !! k = None <-> forall x, x ∈ leaves t -> ckey x <> k.
Proof.
  intros Hs. split.
  - intros Hn x Hx Hk. assert (contents t !! k = Some x) by (apply (contents_lookup p); auto). congruence.
  - intros Hn. destruct (contents t !! k) as [x|] eqn:Hx; [|reflexivity]. apply (contents_lookup p) in Hx as [Hx Hk]; [|exact Hs]. now destruct (Hn x Hx).
Qed.

(** ** A compact tree is determined by its items *)

Lemma concat_filter_branch p kids b t : (forall j s, kids !! j = Some s -> shaped (p ++ [j]) s) -> (length p < 64)%nat -> kids !! b = Some t ->
  leaves t = filter (fun x => nibble (ckey x) (length p) = b) (concat (map leaves kids)).
Proof.
  intros Hs Hl Hb. rewrite <- (take_drop_middle kids b t Hb) at 1. rewrite map_app, concat_app, filter_app. cbn [map concat]. rewrite filter_app.
  assert (forall j s, kids !! j = Some s -> j <> b -> filter (fun x => nibble (ckey x) (length p) = b) (leaves s) = []) as Hne.
  { intros j s Hj Hjb. apply filter_none. intros x Hx. rewrite (shaped_branch p j s x); auto. }
  assert (forall l, (forall s, s ∈ l -> filter (fun x => nibble (ckey x) (length p) = b) (leaves s) = []) ->
    filter (fun x => nibble (ckey x) (length p) = b) (concat (map leaves l)) = []) as Hc.
  { induction l as [|s l IH]; intros Hl'; [reflexivity|]. cbn. rewrite filter_app, Hl', IH; [reflexivity| |left].
    intros s' Hs'. apply Hl'. now right. }
  rewrite (Hc (take b kids)), (Hc (drop (S b) kids)), app_nil_r.
  - cbn [app]. symmetry. apply filter_every. intros x Hx. apply (shaped_branch p b t); auto.
  - intros s Hin. apply list_elem_of_lookup in Hin as [j Hj]. rewrite lookup_drop in Hj. apply (Hne _ s Hj). lia.
  - intros s Hin. apply list_elem_of_lookup in Hin as [j Hj]. apply lookup_take_Some in Hj as [Hj Hlt]. apply (Hne _ s Hj). lia.
Qed.

Lemma compact_count t : compact t -> match t with Empty => leaves t = [] | Leaf _ _ => length (leaves t) = 1%nat | Node _ => (2 <= length (leaves t))%nat end.
Proof. now intros []. Qed.

Lemma compact_eq t : forall p t', shaped p t -> compact t -> shaped p t' -> compact t' -> leaves t = leaves t' -> t = t'.
Proof.
  induction t as [|ty it|kids IH] using stree_ind'; intros p t' Hs Hc Hs' Hc' Hl; pose proof (compact_count t' Hc') as Hn.
  - destruct t'; [reflexivity|discriminate|]. rewrite <- Hl in Hn. cbn in Hn. lia.
  - destruct t' as [|ty' it'|kids']; [discriminate|cbn in Hl; congruence|]. rewrite <- Hl in Hn. cbn in Hn. lia.
  - inversion Hc as [| |? H2 Hck]; subst. destruct t' as [|ty' it'|kids']; [rewrite Hl, Hn in H2; cbn in H2; lia|rewrite Hl, Hn in H2; lia|].
    inversion Hc' as [| |? H2' Hck']; subst. inversion Hs as [| |? ? Hp Hd Hk Hsk]; subst. inversion Hs' as [| |? ? _ _ Hk' Hsk']; subst.
    f_equal. apply list_eq_same_length with (n := 16%nat); [exact Hk'|exact Hk|]. intros b x y _ Hx Hy.
    rewrite Forall_forall in IH. eapply (IH x); [eapply list_elem_of_lookup_2, Hx|eapply Hsk, Hx| |eapply Hsk', Hy| |].
    + eapply Hck, list_elem_of_lookup_2, Hx.
    + eapply Hck', list_elem_of_lookup_2, Hy.
    + rewrite (concat_filter_branch p kids b x Hsk Hd Hx), (concat_filter_branch p kids' b y Hsk' Hd Hy). cbn in Hl. now rewrite Hl.
Qed.

Lemma key_cmp_opp (a : Uint256) : forall b, key_cmp b a = CompOpp (key_cmp a b).
Proof. induction a as [|x a IH]; intros [|y b]; try reflexivity. cbn. rewrite (Z.compare_antisym x y). destruct (x ?= y); cbn; auto. Qed.

Lemma key_lt_asym x y : key_lt x y -> key_lt y x -> False.
Proof. unfold key_lt, key_ltb. rewrite (key_cmp_opp (ckey x) (ckey y)). destruct (key_cmp (ckey x) (ckey y)); cbn; discriminate. Qed.

(** The items in order are determined by the map. *)
Lemma contents_leaves p p' t t' : shaped p t -> shaped p' t' -> contents t = contents t' -> leaves t = leaves t'.
Proof.
  intros Hs Hs' Hc. apply (StronglySorted_unique_strong key_lt).
  - intros x y _ _ H1 H2. now destruct (key_lt_asym x y).
  - now apply (shaped_sorted p).
  - now apply (shaped_sorted p').
  - apply NoDup_Permutation; [eapply NoDup_fmap_1, (shaped_NoDup p), Hs|eapply NoDup_fmap_1, (shaped_NoDup p'), Hs'|].
    intros x. pose proof (contents_lookup p t (ckey x) x Hs). pose proof (contents_lookup p' t' (ckey x) x Hs'). rewrite Hc in *. tauto.
Qed.

Lemma rooted_unique t t' : rooted t -> rooted t' -> contents t = contents t' -> t = t'.
Proof.
  intros (kids & -> & Hs & Hc) (kids' & -> & Hs' & Hc') Heq. pose proof (contents_leaves _ _ _ _ Hs Hs' Heq) as Hl.
  inversion Hs as [| |? ? Hp Hd Hk Hsk]; subst. inversion Hs' as [| |? ? _ _ Hk' Hsk']; subst.
  f_equal. apply list_eq_same_length with (n := 16%nat); [exact Hk'|exact Hk|]. intros b x y _ Hx Hy.
  apply (compact_eq x [b] y); [eapply Hsk, Hx|eapply Hc, list_elem_of_lookup_2, Hx|eapply Hsk', Hy|eapply Hc', list_elem_of_lookup_2, Hy|].
  rewrite (concat_filter_branch [] kids b x Hsk Hd Hx), (concat_filter_branch [] kids' b y Hsk' Hd Hy). cbn in Hl. now rewrite Hl.
Qed.

(** ** Changing the map *)

Section Contents.
Context (p p' : list nat) (t t' : stree) (Hs : shaped p t) (Hs' : shaped p' t').

Let pairs (l : list content) : list (Uint256 * content) := (fun x => (ckey x, x)) <$> l.

Lemma contents_perm l s : shaped l s -> forall k, leaves s ≡ₚ k -> contents s = list_to_map (pairs k).
Proof.
  intros Hl k Hk. apply list_to_map_proper; [|apply fmap_Permutation, Hk].
  rewrite <- list_fmap_compose. apply (shaped_NoDup l s Hl).
Qed.

Lemma contents_insert x l : leaves t' ≡ₚ x :: l -> leaves t ≡ₚ l -> contents t' = <[ckey x := x]> (contents t).
Proof. intros H1 H2. rewrite (contents_perm p' t' Hs' _ H1), (contents_perm p t Hs _ H2). reflexivity. Qed.

Lemma contents_replace x y l : leaves t' ≡ₚ x :: l -> leaves t ≡ₚ y :: l -> ckey y = ckey x -> contents t' = <[ckey x := x]> (contents t).
Proof.
  intros H1 H2 Hk. rewrite (contents_perm p' t' Hs' _ H1), (contents_perm p t Hs _ H2). cbn. rewrite Hk. now rewrite insert_insert_eq.
Qed.

Lemma contents_delete x l : leaves t ≡ₚ x :: l -> leaves t' ≡ₚ l -> contents t' = delete (ckey x) (contents t).
Proof.
  intros H1 H2. rewrite (contents_perm p' t' Hs' _ H2), (contents_perm p t Hs _ H1). cbn. rewrite delete_insert_id; [reflexivity|].
  apply not_elem_of_list_to_map_1. rewrite <- list_fmap_compose. pose proof (shaped_NoDup p t Hs) as Hn. rewrite H1 in Hn.
  now inversion Hn.
Qed.

End Contents.

(** ** Contexts *)

(** The branchings above a subtree, the lowest first: the children, and the branch
    the subtree is at. *)
Abbreviation sctx := (list (list stree * nat)).

Fixpoint plug (c : sctx) (t : stree) : stree :=
  match c with
  | [] => t
  | (kids, b) :: c => plug c (Node (<[b := t]> kids))
  end.

Definition path_of (c : sctx) : list nat := reverse (snd <$> c).

Lemma path_of_cons kids b c : path_of ((kids, b) :: c) = path_of c ++ [b].
Proof. unfold path_of. rewrite fmap_cons, reverse_cons. reflexivity. Qed.

Lemma path_of_length c : length (path_of c) = length c.
Proof. unfold path_of. rewrite length_reverse, length_fmap. reflexivity. Qed.

Fixpoint ctx_shaped (c : sctx) : Prop :=
  match c with
  | [] => True
  | (kids, b) :: c =>
      path_ok (path_of c) /\ (length c < 64)%nat /\ length kids = 16%nat /\ (b < 16)%nat /\
      (forall j s, j <> b -> kids !! j = Some s -> shaped (path_of c ++ [j]) s) /\ ctx_shaped c
  end.


Lemma plugged_shaped c : forall t, ctx_shaped c -> shaped (path_of c) t -> shaped [] (plug c t).
Proof.
  induction c as [|[kids b] c IH]; intros t Hc Ht; [exact Ht|]. destruct Hc as (Hp & Hl & Hk & Hb & Hs & Hc).
  cbn [plug]. apply IH; [exact Hc|]. rewrite path_of_cons in Ht. constructor; [exact Hp|rewrite path_of_length; exact Hl|rewrite length_insert; exact Hk|].
  intros j s Hj. destruct (decide (j = b)) as [->|Hn].
  - rewrite list_lookup_insert_eq in Hj by lia. injection Hj as <-. exact Ht.
  - rewrite list_lookup_insert_ne in Hj by congruence. now apply Hs.
Qed.

Lemma plug_shaped_inv c : forall t, (forall kids b, (kids, b) ∈ c -> (b < length kids)%nat) -> shaped [] (plug c t) -> ctx_shaped c /\ shaped (path_of c) t.
Proof.
  induction c as [|[kids b] c IH]; intros t Hlt Hs; [split; [exact I|exact Hs]|]. cbn [plug] in Hs.
  destruct (IH _ (fun k j Hin => Hlt k j (list_elem_of_further _ _ _ Hin)) Hs) as [Hc Hn]. inversion Hn as [| |? ? Hp Hl Hk Hsk]; subst.
  rewrite length_insert in Hk. rewrite path_of_length in Hl. pose proof (Hlt kids b ltac:(left)) as Hb. split.
  - repeat split; auto; [apply Hp|apply Hp|lia|]. intros j s Hj Hjs. apply Hsk. now rewrite list_lookup_insert_ne by congruence.
  - rewrite path_of_cons. apply Hsk. now apply list_lookup_insert_eq.
Qed.

(** The items left and right of the subtree. *)
Fixpoint around (c : sctx) : list content * list content :=
  match c with
  | [] => ([], [])
  | (kids, b) :: c =>
      let '(l, r) := around c in
      (l ++ concat (map leaves (take b kids)), concat (map leaves (drop (S b) kids)) ++ r)
  end.

Lemma leaves_insert kids b t : (b < length kids)%nat ->
  leaves (Node (<[b := t]> kids)) = concat (map leaves (take b kids)) ++ leaves t ++ concat (map leaves (drop (S b) kids)).
Proof. intros Hb. cbn. rewrite insert_take_drop by exact Hb. rewrite map_app, concat_app. reflexivity. Qed.

Lemma plug_leaves c : forall t, ctx_shaped c -> leaves (plug c t) = (around c).1 ++ leaves t ++ (around c).2.
Proof.
  induction c as [|[kids b] c IH]; intros t Hc; cbn [plug around].
  - cbn. now rewrite app_nil_r.
  - destruct Hc as (_ & _ & Hk & Hb & _ & Hc). rewrite IH by exact Hc. destruct (around c) as [l r]. cbn [fst snd].
    rewrite leaves_insert by lia. now rewrite <- !app_assoc.
Qed.

(** No item outside the subtree has a key that takes the path to it. *)
Lemma around_off_path c k : ctx_shaped c -> take (length c) (nibbles k) = path_of c -> forall x, x ∈ (around c).1 ++ (around c).2 -> ckey x <> k.
Proof.
  induction c as [|[kids b] c IH]; intros Hc Hk x Hx; cbn [around] in Hx; [inversion Hx|].
  destruct Hc as (Hp & Hl & Hkids & Hb & Hs & Hc). rewrite path_of_cons in Hk. cbn [length] in Hk.
  assert (take (length c) (nibbles k) = path_of c) as Hk'.
  { apply (f_equal (take (length c))) in Hk. rewrite take_take, Nat.min_l in Hk by lia. rewrite Hk. rewrite <- (path_of_length c). apply take_app_length. }
  assert (nibble k (length c) = b) as Hn.
  { apply (f_equal (fun l => nth (length c) l O)) in Hk. rewrite nth_take, nth_nibbles in Hk by lia. rewrite Hk, <- (path_of_length c). rewrite app_nth2, Nat.sub_diag by lia. reflexivity. }
  assert (forall j s, kids !! j = Some s -> j <> b -> x ∈ leaves s -> ckey x <> k) as Hside.
  { intros j s Hj Hjb Hin Heq. apply Hjb. rewrite <- Hn, <- Heq, <- (path_of_length c). symmetry. apply (shaped_branch (path_of c) j s); [auto|rewrite path_of_length; exact Hl|exact Hin]. }
  destruct (around c) as [l r] eqn:Ea. cbn [fst snd] in *. specialize (IH Hc Hk' x).
  rewrite !elem_of_app in Hx. rewrite elem_of_app in IH.
  assert (forall ks, (x ∈ concat (map leaves ks)) -> exists s, s ∈ ks /\ x ∈ leaves s) as Hin.
  { intros ks Hks. apply list_elem_of_In, in_concat in Hks as (y & Hy & Hxy). apply in_map_iff in Hy as (s & <- & Hy).
    exists s. split; now apply list_elem_of_In. }
  destruct Hx as [[Hx|Hx]|[Hx|Hx]]; [tauto| | |tauto].
  - destruct (Hin _ Hx) as (s & Hs1 & Hs2). apply list_elem_of_lookup in Hs1 as [j Hj]. apply lookup_take_Some in Hj as [Hj Hlt]. apply (Hside j s); auto; lia.
  - destruct (Hin _ Hx) as (s & Hs1 & Hs2). apply list_elem_of_lookup in Hs1 as [j Hj]. rewrite lookup_drop in Hj. apply (Hside (S b + j)%nat s); auto; lia.
Qed.

(** *** Replacing the subtree *)

(** The siblings are compact, and every branching but the root has two items. *)
Fixpoint ctx_compact (c : sctx) (t : stree) : Prop :=
  match c with
  | [] => True
  | (kids, b) :: c =>
      (forall j s, j <> b -> kids !! j = Some s -> compact s) /\
      (c <> [] -> (2 <= length (leaves (Node (<[b := t]> kids))))%nat) /\
      ctx_compact c (Node (<[b := t]> kids))
  end.

Lemma insert_compact (kids : list stree) b t : (forall j s, j <> b -> kids !! j = Some s -> compact s) -> compact t -> forall s, s ∈ <[b := t]> kids -> compact s.
Proof.
  intros Hk Ht s Hin. apply list_elem_of_lookup in Hin as [j Hj]. destruct (decide (j = b)) as [->|Hn].
  - destruct (Nat.lt_ge_cases b (length kids)); [rewrite list_lookup_insert_eq in Hj by assumption; now injection Hj as <-|].
    apply lookup_lt_Some in Hj. rewrite length_insert in Hj. lia.
  - rewrite list_lookup_insert_ne in Hj by congruence. eauto.
Qed.

Lemma rooted_inv c : forall t, c <> [] -> ctx_shaped c -> rooted (plug c t) -> ctx_compact c t /\ compact t.
Proof.
  induction c as [|[kids b] c IH]; intros t Hne Hc Hr; [contradiction|]. destruct Hc as (_ & _ & Hk & Hb & _ & Hc). cbn [plug] in Hr.
  assert ((forall s, s ∈ <[b:=t]> kids -> compact s) /\ (c <> [] -> (2 <= length (leaves (Node (<[b := t]> kids))))%nat) /\ ctx_compact c (Node (<[b:=t]> kids))) as (H1 & H2 & H3).
  { destruct (decide (c = [])) as [->|Hn].
    - destruct Hr as (ks & Heq & _ & Hks). cbn in Heq. injection Heq as <-. split; [exact Hks|]. split; [contradiction|exact I].
    - destruct (IH _ Hn Hc Hr) as [Hcc Hcn]. inversion Hcn as [| |? H2 Hks]; subst. auto. }
  split; [|apply H1, list_elem_of_lookup; exists b; apply list_lookup_insert_eq; lia].
  cbn. split; [|auto]. intros j s Hj Hs. apply H1, list_elem_of_lookup. exists j. now rewrite list_lookup_insert_ne by congruence.
Qed.

Lemma rooted_plug c : forall t, c <> [] -> ctx_shaped c -> ctx_compact c t -> shaped (path_of c) t -> compact t -> rooted (plug c t).
Proof.
  induction c as [|[kids b] c IH]; intros t Hne Hc Hcc Ht Hct; [contradiction|]. pose proof (plugged_shaped _ _ Hc Ht) as Hsh.
  destruct Hc as (Hp & Hl & Hk & Hb & Hs & Hc). destruct Hcc as (Hsib & H2 & Hcc). pose proof (insert_compact kids b t Hsib Hct) as Hins. cbn [plug].
  destruct (decide (c = [])) as [->|Hn]; [exists (<[b:=t]> kids); auto|]. apply IH; auto.
  - constructor; [exact Hp|rewrite path_of_length; exact Hl|rewrite length_insert; exact Hk|]. intros j s Hj. destruct (decide (j = b)) as [->|].
    + rewrite list_lookup_insert_eq in Hj by lia. injection Hj as <-. now rewrite path_of_cons in Ht.
    + rewrite list_lookup_insert_ne in Hj by congruence. now apply Hs.
  - constructor; auto.
Qed.

Lemma ctx_compact_mono c : forall t t', ctx_shaped c -> ctx_compact c t -> (length (leaves t) <= length (leaves t'))%nat -> ctx_compact c t'.
Proof.
  induction c as [|[kids b] c IH]; intros t t' Hc Hcc Hle; [exact I|]. destruct Hc as (_ & _ & Hk & Hb & _ & Hc). destruct Hcc as (H1 & H2 & H3).
  assert (length (leaves (Node (<[b:=t]> kids))) <= length (leaves (Node (<[b:=t']> kids))))%nat as Hn.
  { rewrite !leaves_insert by lia. rewrite !length_app. lia. }
  split; [exact H1|]. split; [intros Hne; specialize (H2 Hne); lia|]. eapply IH; eauto.
Qed.

(** ** Removal *)

(** A branching with fewer than two items below it gives way to what is there. *)
Definition collapse (kids : list stree) : stree :=
  match leaves (Node kids) with
  | [] => Empty
  | [(ty, it)] => Leaf ty it
  | _ => Node kids
  end.

Fixpoint prune (c : sctx) (t : stree) : stree :=
  match c with
  | [] => t
  | (kids, b) :: c' => match c' with [] => Node (<[b := t]> kids) | _ => prune c' (collapse (<[b := t]> kids)) end
  end.

Lemma collapse_leaves kids : leaves (collapse kids) = leaves (Node kids).
Proof. unfold collapse. destruct (leaves (Node kids)) as [|[ty it] [|x l]] eqn:Hl; [reflexivity|reflexivity|exact Hl]. Qed.

Lemma folded_shaped p kids : shaped p (Node kids) -> shaped p (collapse kids).
Proof.
  intros Hs. unfold collapse. pose proof (shaped_leaves p _ Hs) as Hx. destruct (leaves (Node kids)) as [|[ty it] [|x l]]; [constructor| |exact Hs].
  destruct (Hx (ty, it) ltac:(left)) as (H1 & H2 & H3). now constructor.
Qed.

Lemma folded_compact (kids : list stree) : (forall s, s ∈ kids -> compact s) -> compact (collapse kids).
Proof.
  intros Hk. unfold collapse. destruct (leaves (Node kids)) as [|[ty it] [|x l]] eqn:Hl; [constructor|constructor|].
  constructor; [rewrite Hl; cbn; lia|exact Hk].
Qed.

Lemma prune_rooted c : forall t, c <> [] -> ctx_shaped c -> (forall kids b j s, (kids, b) ∈ c -> j <> b -> kids !! j = Some s -> compact s) ->
  shaped (path_of c) t -> compact t -> rooted (prune c t) /\ leaves (prune c t) = (around c).1 ++ leaves t ++ (around c).2.
Proof.
  induction c as [|[kids b] c IH]; intros t Hne Hc Hsib Ht Hct; [contradiction|]. destruct Hc as (Hp & Hl & Hk & Hb & Hs & Hc).
  assert (shaped (path_of c) (Node (<[b:=t]> kids))) as Hsn.
  { constructor; [exact Hp|rewrite path_of_length; exact Hl|rewrite length_insert; exact Hk|]. intros j s Hj. destruct (decide (j = b)) as [->|].
    - rewrite list_lookup_insert_eq in Hj by lia. injection Hj as <-. now rewrite path_of_cons in Ht.
    - rewrite list_lookup_insert_ne in Hj by congruence. now apply Hs. }
  pose proof (insert_compact kids b t (fun j s => Hsib kids b j s ltac:(left)) Hct) as Hins. cbn [prune around].
  destruct c as [|f c'] eqn:Ec.
  - cbn [around fst snd app]. split; [exists (<[b:=t]> kids); auto|]. rewrite leaves_insert by lia. now rewrite app_nil_r.
  - rewrite <- Ec in *. destruct (IH (collapse (<[b:=t]> kids))) as [Hr Hle]; [congruence|exact Hc| |now apply folded_shaped|now apply folded_compact|].
    { intros ks j i s Hin. apply Hsib. now right. }
    split; [exact Hr|]. rewrite Hle, collapse_leaves, leaves_insert by lia. destruct (around c) as [l r]. cbn [fst snd]. now rewrite <- !app_assoc.
Qed.

Lemma ctx_siblings c : forall t, ctx_compact c t -> forall kids b j s, (kids, b) ∈ c -> j <> b -> kids !! j = Some s -> compact s.
Proof.
  induction c as [|[ks a] c IH]; intros t Hc kids b j s Hin; [inversion Hin|]. destruct Hc as (H1 & _ & H3).
  inversion Hin; subst; [apply H1|]. eapply IH; eauto.
Qed.

(** ** Two items with a common path *)

Definition no_kids : list stree := replicate 16 Empty.

(** Branchings with one child each, along the path of [key] from the depth [d]. *)
Fixpoint chain (key : Uint256) (d n : nat) (t : stree) : stree :=
  match n with
  | O => t
  | S n => Node (<[nibble key d := chain key (S d) n t]> no_kids)
  end.

(** Two items that part here. *)
Definition fork (a b : nat) (ty : SHAMapNodeType) (x y : SHAMapItem) : stree := Node (<[b := Leaf ty y]> (<[a := Leaf ty x]> no_kids)).

Lemma no_kids_leaves (k : list stree) : (forall t, t ∈ k -> t = Empty) -> concat (map leaves k) = [].
Proof. induction k as [|t k IH]; intros Hk; [reflexivity|]. cbn. rewrite (Hk t) by left. apply IH. intros s Hs. apply Hk. now right. Qed.

Lemma single_leaves b t : (b < 16)%nat -> leaves (Node (<[b := t]> no_kids)) = leaves t.
Proof.
  intros Hb. rewrite leaves_insert by exact Hb. unfold no_kids. rewrite take_replicate, drop_replicate, !no_kids_leaves; [apply app_nil_r| |]; intros s Hs; now apply elem_of_replicate_inv in Hs.
Qed.

Lemma no_kids_shaped p b t : path_ok p -> (length p < 64)%nat -> shaped (p ++ [b]) t -> shaped p (Node (<[b := t]> no_kids)).
Proof.
  intros Hp Hl Ht. constructor; [exact Hp|exact Hl|apply length_insert|]. intros j s Hj. apply list_lookup_insert_Some in Hj as [(-> & <- & _)|[_ Hj]]; [exact Ht|].
  apply lookup_replicate in Hj as [-> _]. constructor.
Qed.

Lemma no_kids_compact b t : compact t -> forall s, s ∈ <[b := t]> no_kids -> compact s.
Proof. intros Ht. apply insert_compact; [|exact Ht]. intros j s _ Hj. apply lookup_replicate in Hj as [-> _]. constructor. Qed.

Lemma chain_ok key n : forall d t, is_key key -> (d + n <= 64)%nat -> shaped (take (d + n) (nibbles key)) t -> compact t -> (2 <= length (leaves t))%nat ->
  shaped (take d (nibbles key)) (chain key d n t) /\ compact (chain key d n t) /\ leaves (chain key d n t) = leaves t.
Proof.
  induction n as [|n IH]; intros d t Hkey Hd Hs Hct H2; cbn [chain]; [rewrite Nat.add_0_r in Hs; auto|].
  destruct (IH (S d) t Hkey ltac:(lia) ltac:(now rewrite <- plus_n_Sm in Hs) Hct H2) as (Hs' & Hc' & Hl'). pose proof (nibble_lt key d (proj2 Hkey)) as Hb.
  assert (leaves (Node (<[nibble key d:=chain key (S d) n t]> no_kids)) = leaves t) as Hl by now rewrite single_leaves.
  split; [|split; [|exact Hl]].
  - apply no_kids_shaped; [now apply path_ok_take|rewrite length_take, nibbles_length; lia|]. rewrite <- take_next by lia. exact Hs'.
  - constructor; [now rewrite Hl|now apply no_kids_compact].
Qed.

Lemma fork_ok a b d ty x y : ty <> Inner -> good_item x -> good_item y -> a = nibble (item_key x) d -> b = nibble (item_key y) d -> a <> b -> (d < 64)%nat ->
  (forall i, (i < d)%nat -> nibble (item_key x) i = nibble (item_key y) i) ->
  shaped (take d (nibbles (item_key x))) (fork a b ty x y) /\ compact (fork a b ty x y) /\ leaves (fork a b ty x y) ≡ₚ [(ty, x); (ty, y)].
Proof.
  intros Hty Hx Hy -> -> Hab Hd Hp. unfold fork. pose proof (item_key_ok x Hx) as Kx. pose proof (item_key_ok y Hy) as Ky.
  assert (take d (nibbles (item_key x)) = take d (nibbles (item_key y))) as Hpre by (apply take_nibbles_eq; [lia|exact Hp]).
  assert (leaves (Node (<[nibble (item_key y) d:=Leaf ty y]> (<[nibble (item_key x) d:=Leaf ty x]> no_kids))) ≡ₚ [(ty, x); (ty, y)]) as Hl.
  { pose proof (nibble_lt (item_key x) d (proj2 Kx)). pose proof (nibble_lt (item_key y) d (proj2 Ky)).
    rewrite leaves_insert by (rewrite length_insert; assumption).
    assert (leaves (Node (<[nibble (item_key x) d:=Leaf ty x]> no_kids)) = [(ty, x)]) as Hs by now rewrite single_leaves.
    assert (<[nibble (item_key y) d := Empty]> (<[nibble (item_key x) d:=Leaf ty x]> no_kids) = <[nibble (item_key x) d:=Leaf ty x]> no_kids) as Hsame.
    { apply list_insert_id. rewrite list_lookup_insert_ne by congruence. now apply lookup_replicate_2. }
    rewrite <- Hsame, leaves_insert in Hs by (rewrite length_insert; assumption). cbn [leaves app] in Hs |- *. rewrite Permutation_app_comm. cbn [app].
    rewrite perm_swap. apply perm_skip. rewrite Permutation_app_comm, Hs. reflexivity. }
  split; [|split; [|exact Hl]].
  - assert (path_ok (take d (nibbles (item_key x)))) as Hok by now apply path_ok_take. assert (length (take d (nibbles (item_key x))) = d) as Hlen by (rewrite length_take, nibbles_length; lia).
    constructor; [exact Hok|lia|rewrite !length_insert; reflexivity|]. intros j s Hj.
    apply list_lookup_insert_Some in Hj as [(<- & <- & _)|[_ Hj]]; [|apply list_lookup_insert_Some in Hj as [(<- & <- & _)|[_ Hj]]; [|apply lookup_replicate in Hj as [-> _]; constructor]].
    + constructor; [exact Hty|exact Hy|]. rewrite length_app, Hlen, Hpre, Nat.add_1_r. now apply take_next.
    + constructor; [exact Hty|exact Hx|]. rewrite length_app, Hlen, Nat.add_1_r. now apply take_next.
  - constructor; [rewrite Hl; cbn; lia|]. apply insert_compact; [|constructor]. intros j s _ Hj. eapply no_kids_compact; [apply compact_leaf|]. eapply list_elem_of_lookup_2, Hj.
Qed.

(** ** Digests *)

Section Merkle.
Context `{Sha512}.

Fixpoint merkle (t : stree) : SHAMapHash :=
  match t with
  | Empty => uint256_zero
  | Leaf ty it => leaf_digest ty it
  | Node kids =>
      if decide (Forall (fun t => t = Empty) kids) then uint256_zero
      else sha512_half (to_be_bytes 4 HASH_PREFIX_INNER_NODE ++ concat (map merkle kids))
  end.

(** The slots of a node hold the digests of the children. *)
Definition clean (l : list slot) (kids : list stree) : Prop := slot_hash <$> l = merkle <$> kids.

Lemma digest_merkle l kids : length kids = 16%nat -> clean l kids -> Forall2 (fun s t => s = None <-> t = Empty) l kids -> digest l = merkle (Node kids).
Proof.
  intros Hk Hc Hl. cbn [merkle]. unfold digest, clean in *.
  assert (l = replicate 16 None <-> Forall (fun t => t = Empty) kids) as Hiff.
  { rewrite <- Hk. clear Hk Hc. induction Hl as [|s t l kids Hst Hl IH]; [split; [constructor|reflexivity]|]. cbn [length replicate]. rewrite Forall_cons.
    split; [intros [= -> ->]; tauto|intros [Ht Hk]; f_equal; tauto]. }
  destruct (decide (l = replicate 16 None)) as [H1|H1]; [rewrite decide_True; [reflexivity|tauto]|]. rewrite decide_False by tauto.
  rewrite Hc. reflexivity.
Qed.

End Merkle.
