(* ===== verification/ShamapHeap.v ===== *)
(** * ShamapHeap: reading and changing a SHAMap

    Models [xrpl/shamap/src/traverse/traversal.rs] ([descend]),
    [operations/search.rs], [operations/read.rs] and the methods of [MutableTree] in
    [operations/mutation.rs].

    A store of nodes is the list of all nodes ever made, a location an index in it.
    The functions run in a state monad on the store that keeps the state when an
    error is returned.  [fetch], which reads a node from outside by its hash, is a
    parameter: it may add nodes to the store.  The loops follow a path down and have
    one step per level; the identifier of a node at the lowest level has no children,
    so that no more levels can be walked. *)

From stdpp Require Import list.
From Stdlib Require Import ZArith Lia.
From S2P Require Import Prelude Serializer ShamapKey ShamapNode.
Local Open Scope Z_scope.

(** ** The store of nodes *)

Abbreviation heap := (list SHAMapTreeNode).

Definition M (E A : Type) : Type := heap -> outcome E A * heap.

#[global] Instance M_ret E : MRet (M E) := fun A a h => (Ok a, h).
#[global] Instance M_bind E : MBind (M E) := fun A B k m h =>
  match m h with
  | (Ok a, h) => k a h
  | (Err e, h) => (Err e, h)
  | (Panic, h) => (Panic, h)
  | (Wraps, h) => (Wraps, h)
  | (OutOfFuel, h) => (OutOfFuel, h)
  end.

Definition lift {E A} (o : outcome E A) : M E A := fun h => (o, h).
Definition lower {E F A} (f : E -> F) (m : M E A) : M F A := fun h => let '(r, h) := m h in (map_err f r, h).

(** [expect]: an error is a panic. *)
Definition expect {E F A} (o : outcome E A) : outcome F A :=
  match o with Ok a => Ok a | Err _ | Panic => Panic | Wraps => Wraps | OutOfFuel => OutOfFuel end.

Definition read {E} (l : loc) : M E SHAMapTreeNode := fun h => match h !! l with Some n => (Ok n, h) | None => (Panic, h) end.
Definition write {E} (l : loc) (n : SHAMapTreeNode) : M E unit := fun h => (Ok tt, <[l := n]> h).
Definition alloc {E} (n : SHAMapTreeNode) : M E loc := fun h => (Ok (length h), h ++ [n]).

Definition query {E A} (l : loc) (f : SHAMapTreeNode -> outcome E A) : M E A := n ← read l; lift (f n).
Definition change {E} (l : loc) (f : SHAMapTreeNode -> outcome E SHAMapTreeNode) : M E unit :=
  n ← read l; n' ← lift (f n); write l n'.

Definition hash_in (h : heap) (l : loc) : SHAMapHash := match h !! l with Some n => hash n | None => uint256_zero end.

Section Shamap.
Context `{Sha512}.

(** ** Descending *)

Inductive TraversalError : Type :=
| MissingNode (hash : SHAMapHash)
| RootNotFound
| View.

Definition Fetch : Type := SHAMapHash -> heap -> option loc * heap.

Definition no_fetch : Fetch := fun _ h => (None, h).

Definition call {E} (fetch : Fetch) (hash : SHAMapHash) : M E (option loc) := fun h => let '(r, h) := fetch hash h in (Ok r, h).

Definition canonicalize {E} (parent : loc) (branch : nat) (child : loc) : M E loc :=
  child_hash ← query child (fun n => Ok (ShamapNode.hash n));
  n ← read parent;
  r ← lift (canonicalize_child n branch child child_hash);
  write parent r.2;;
  mret r.1.

Definition descend {E} (parent : loc) (branch : nat) (backed : bool) (fetch : Fetch) : M E (option loc) :=
  n ← read parent;
  if negb (is_inner n) then lift Panic
  else
    loaded ← lift (get_child n branch);
    empty ← lift (is_empty_branch n branch);
    if bool_decide (loaded <> None) || negb backed || empty then mret loaded
    else
      hash ← lift (get_child_hash n branch);
      fetched ← call fetch hash;
      match fetched with
      | None => mret None
      | Some child => child ← canonicalize parent branch child; mret (Some child)
      end.

Definition descend_throw (parent : loc) (branch : nat) (backed : bool) (fetch : Fetch) : M TraversalError (option loc) :=
  node ← descend parent branch backed fetch;
  match node with
  | Some _ => mret node
  | None =>
      n ← read parent;
      empty ← lift (is_empty_branch n branch);
      if (empty : bool) then mret None
      else hash ← lift (get_child_hash n branch); lift (Err (MissingNode hash))
  end.

Definition descend_no_store {E} (parent : loc) (branch : nat) (backed : bool) (fetch : Fetch) : M E (option loc) :=
  n ← read parent;
  if negb (is_inner n) then lift Panic
  else
    loaded ← lift (get_child n branch);
    empty ← lift (is_empty_branch n branch);
    if bool_decide (loaded <> None) || negb backed || empty then mret loaded
    else hash ← lift (get_child_hash n branch); call fetch hash.

(** ** Searching *)

Record NodePathEntry : Type := mkEntry { node : loc; node_id : SHAMapNodeId }.

Definition LEVELS : nat := 66.

(** The loop of [walk_towards_key_impl], with the visitor that collects the path;
    the prefetch hint has no effect. *)
Fixpoint walk_loop (fuel : nat) (node : loc) (node_id : SHAMapNodeId) (id : Uint256) (backed : bool) (fetch : Fetch)
    (path : list NodePathEntry) : M TraversalError (option loc * list NodePathEntry) :=
  n ← read node;
  if is_inner n then
    match fuel with
    | O => lift OutOfFuel
    | S fuel =>
        let path := path ++ [mkEntry node node_id] in
        branch ← lift (select_branch node_id id);
        empty ← lift (is_empty_branch n branch);
        if (empty : bool) then mret (None, path)
        else
          next ← descend_throw node branch backed fetch;
          match next with
          | None => lift Panic
          | Some next =>
              node_id ← lift (expect (get_child_node_id node_id branch));
              walk_loop fuel next node_id id backed fetch path
          end
    end
  else mret (Some node, path ++ [mkEntry node node_id]).

Definition walk_towards_key_with_path (root : loc) (id : Uint256) (backed : bool) (fetch : Fetch)
    : M TraversalError (option loc * list NodePathEntry) := walk_loop LEVELS root root_id id backed fetch [].

Definition walk_towards_key (root : loc) (id : Uint256) (backed : bool) (fetch : Fetch) : M TraversalError (option loc) :=
  r ← walk_towards_key_with_path root id backed fetch; mret r.1.

Definition find_key (root : loc) (id : Uint256) (backed : bool) (fetch : Fetch) : M TraversalError (option loc) :=
  leaf ← walk_towards_key root id backed fetch;
  match leaf with
  | None => mret None
  | Some leaf =>
      n ← read leaf;
      mret (match peek_item n with
            | Some item => if decide (item_key item = id) then Some leaf else None
            | None => None
            end)
  end.

Definition has_item (root : loc) (id : Uint256) (backed : bool) (fetch : Fetch) : M TraversalError bool :=
  r ← find_key root id backed fetch; mret (bool_decide (r <> None)).

Definition peek_item_at (root : loc) (id : Uint256) (backed : bool) (fetch : Fetch) : M TraversalError (option SHAMapItem) :=
  r ← find_key root id backed fetch;
  match r with
  | Some leaf => n ← read leaf; mret (peek_item n)
  | None => mret None
  end.

Definition peek_item_with_hash (root : loc) (id : Uint256) (backed : bool) (fetch : Fetch)
    : M TraversalError (option (SHAMapItem * SHAMapHash)) :=
  r ← find_key root id backed fetch;
  match r with
  | Some leaf => n ← read leaf; mret ((fun item => (item, ShamapNode.hash n)) <$> peek_item n)
  | None => mret None
  end.

(** ** The mutable tree *)

Record MutableTree : Type := mkTree { root : loc; owner : Z }.

Inductive MutationError : Type :=
| Traversal (e : TraversalError)
| RootMustBeInner
| InnerNodeMustBeOwned (id : SHAMapNodeId)
| LeafNodeMustBeOwned (id : SHAMapNodeId)
| DuplicateExactLeaf (key : Uint256)
| MissingExactLeaf (key : Uint256)
| CrossTypeChange (requested existing : SHAMapNodeType).

Definition debug_assert {E} (b : bool) : M E unit := if b then mret tt else lift Panic.

Definition mutable_new {E} (cowid : Z) : M E MutableTree :=
  if decide (cowid = 0) then lift Panic
  else n ← lift (new_inner cowid); root ← alloc n; mret (mkTree root cowid).

Definition from_loaded_root {E} (root : loc) (cowid : Z) : M E MutableTree :=
  if decide (cowid = 0) then lift Panic
  else
    n ← read root;
    if decide (ShamapNode.cowid n <= cowid) then mret (mkTree root cowid) else lift Panic.

Definition unshare_node (self : MutableTree) (node : loc) (node_id : SHAMapNodeId) : M MutationError (loc * MutableTree) :=
  n ← read node;
  if decide (owner self < cowid n) then lift Panic
  else if decide (cowid n = owner self) then mret (node, self)
  else
    cloned ← lift (clone_with_cowid n (owner self));
    l ← alloc cloned;
    mret (l, if is_root node_id then mkTree l (owner self) else self).

(** The entries of the path are passed from the last to the first. *)
Fixpoint dirty_up_loop (self : MutableTree) (entries : list NodePathEntry) (target : Uint256) (child : loc)
    : M MutationError (loc * MutableTree) :=
  match entries with
  | [] => mret (child, self)
  | entry :: entries =>
      branch ← lift (select_branch (node_id entry) target);
      r ← unshare_node self (node entry) (node_id entry);
      change r.1 (fun n => set_child n branch (Some child));;
      dirty_up_loop r.2 entries target r.1
  end.

Definition dirty_up (self : MutableTree) (path : list NodePathEntry) (target : Uint256) (child : loc)
    : M MutationError (loc * MutableTree) := dirty_up_loop self (rev path) target child.

(** [self.root = self.dirty_up(..)?; Ok(true)] *)
Definition dirty_root (self : MutableTree) (path : list NodePathEntry) (target : Uint256) (child : loc)
    : M MutationError (bool * MutableTree) :=
  r ← dirty_up self path target child;
  mret (true, mkTree r.1 (owner r.2)).

Definition add_into_empty_branch (self : MutableTree) (path : list NodePathEntry) (target : Uint256) (ty : SHAMapNodeType) (item : SHAMapItem)
    : M MutationError (bool * MutableTree) :=
  match last path with
  | None => lift (Err RootMustBeInner)
  | Some parent_entry =>
      branch ← lift (select_branch (node_id parent_entry) target);
      r ← unshare_node self (node parent_entry) (node_id parent_entry);
      p ← read r.1;
      debug_assert (is_inner p);;
      empty ← lift (is_empty_branch p branch);
      debug_assert empty;;
      leaf ← lift (new_leaf ty item (owner self));
      leaf ← alloc leaf;
      change r.1 (fun n => set_child n branch (Some leaf));;
      dirty_root r.2 (removelast path) target r.1
  end.

Fixpoint split_loop (fuel : nat) (self : MutableTree) (graft_stack : list NodePathEntry) (node_id : SHAMapNodeId) (split_node : loc)
    (target : Uint256) (ty : SHAMapNodeType) (item existing_item : SHAMapItem) : M MutationError (bool * MutableTree) :=
  match fuel with
  | O => lift OutOfFuel
  | S fuel =>
      new_branch ← lift (select_branch node_id target);
      old_branch ← lift (select_branch node_id (item_key existing_item));
      if decide (new_branch <> old_branch) then
        leaf ← lift (new_leaf ty item (owner self));
        leaf ← alloc leaf;
        change split_node (fun n => set_child n new_branch (Some leaf));;
        old ← lift (new_leaf ty existing_item (owner self));
        old ← alloc old;
        change split_node (fun n => set_child n old_branch (Some old));;
        dirty_root self graft_stack target split_node
      else
        child_id ← lift (expect (get_child_node_id node_id new_branch));
        inner ← lift (new_inner (owner self));
        next ← alloc inner;
        split_loop fuel self (graft_stack ++ [mkEntry split_node node_id]) child_id next target ty item existing_item
  end.

Definition add_with_leaf_split (self : MutableTree) (path : list NodePathEntry) (leaf : loc) (ty : SHAMapNodeType) (item : SHAMapItem)
    : M MutationError (bool * MutableTree) :=
  let target := item_key item in
  match last path with
  | None => lift (Err RootMustBeInner)
  | Some leaf_entry =>
      n ← read leaf;
      match peek_item n with
      | None => lift (Err (MissingExactLeaf target))
      | Some existing_item =>
          if decide (item_key existing_item = target) then mret (false, self)
          else
            let existing_type := get_type n in
            if decide (existing_type <> ty) then lift (Err (CrossTypeChange ty existing_type))
            else
              inner ← lift (new_inner (owner self));
              split_node ← alloc inner;
              split_loop LEVELS self (removelast path) (node_id leaf_entry) split_node target ty item existing_item
      end
  end.

(** [add_item] and [add_item_with_fetch], which differ in what they walk with. *)
Definition add_item_in (backed : bool) (fetch : Fetch) (self : MutableTree) (ty : SHAMapNodeType) (item : SHAMapItem)
    : M MutationError (bool * MutableTree) :=
  if decide (ty = Inner) then lift Panic
  else
    let target := item_key item in
    r ← lower Traversal (walk_towards_key_with_path (root self) target backed fetch);
    match r.1 with
    | None => add_into_empty_branch self r.2 target ty item
    | Some leaf => add_with_leaf_split self r.2 leaf ty item
    end.

Definition add_item := add_item_in false no_fetch.
Definition add_item_with_fetch (fetch : Fetch) := add_item_in true fetch.

(** [update_item] and [update_item_with_fetch] *)
Definition update_item_in (backed : bool) (fetch : Fetch) (self : MutableTree) (ty : SHAMapNodeType) (item : SHAMapItem)
    : M MutationError (bool * MutableTree) :=
  if decide (ty = Inner) then lift Panic
  else
    let target := item_key item in
    r ← lower Traversal (walk_towards_key_with_path (root self) target backed fetch);
    match r.1, last r.2 with
    | None, _ | _, None => lift (Err (MissingExactLeaf target))
    | Some leaf, Some leaf_entry =>
        n ← read leaf;
        match peek_item n with
        | None => lift (Err (MissingExactLeaf target))
        | Some existing_item =>
            if decide (item_key existing_item <> target) then lift (Err (MissingExactLeaf target))
            else
              let existing_type := get_type n in
              if decide (existing_type <> ty) then lift (Err (CrossTypeChange ty existing_type))
              else
                u ← unshare_node self leaf (node_id leaf_entry);
                n ← read u.1;
                s ← lift (set_item n item);
                write u.1 s.2;;
                if (s.1 : bool) then dirty_root u.2 (removelast r.2) target u.1 else mret (true, u.2)
        end
    end.

Definition update_item := update_item_in false no_fetch.
Definition update_item_with_fetch (fetch : Fetch) := update_item_in true fetch.

(** The loop over the branches of [only_below_loaded_leaf]: [None] returns [None],
    [Some next] goes on with the child [next]. *)
Fixpoint only_child {E} (n : SHAMapTreeNode) (branches : list nat) (next : option loc) : outcome E (option (option loc)) :=
  match branches with
  | [] => Ok (Some next)
  | branch :: branches =>
      empty <- is_empty_branch n branch;;
      if (empty : bool) then only_child n branches next
      else
        child <- get_child n branch;;
        match child, next with
        | None, _ => Ok None
        | Some _, Some _ => Ok None
        | Some child, None => only_child n branches (Some child)
        end
  end.

Fixpoint only_below_loaded_leaf (fuel : nat) (node : loc) : M MutationError (option loc) :=
  n ← read node;
  if is_inner n then
    match fuel with
    | O => lift OutOfFuel
    | S fuel =>
        next ← lift (only_child n (seq 0 BRANCH_FACTOR) None);
        match next with
        | Some (Some child) => only_below_loaded_leaf fuel child
        | _ => mret None
        end
    end
  else mret (Some node).

Fixpoint select_branch_from {E} (n : SHAMapTreeNode) (branches : list nat) : outcome E (option nat) :=
  match branches with
  | [] => Ok None
  | branch :: branches =>
      empty <- is_empty_branch n branch;;
      if (empty : bool) then select_branch_from n branches else Ok (Some branch)
  end.

Definition select_only_branch {E} (n : SHAMapTreeNode) : outcome E (option nat) := select_branch_from n (seq 0 BRANCH_FACTOR).

Fixpoint only_below_leaf_with_fetch (fuel : nat) (node : loc) (fetch : Fetch) : M MutationError (option loc) :=
  n ← read node;
  if is_inner n then
    match fuel with
    | O => lift OutOfFuel
    | S fuel =>
        only ← lift (select_only_branch n);
        match only with
        | None => mret None
        | Some branch =>
            if decide (branch_count n <> 1%nat) then mret None
            else
              child ← lift (get_child n branch);
              match child with
              | Some child => only_below_leaf_with_fetch fuel child fetch
              | None =>
                  hash ← lift (get_child_hash n branch);
                  child ← call fetch hash;
                  match child with
                  | None => lift (Err (Traversal (MissingNode hash)))
                  | Some child => only_below_leaf_with_fetch fuel child fetch
                  end
              end
        end
    end
  else mret (Some node).

(** What becomes of a node with one branch: the leaf it is replaced by, or itself. *)
Definition collapse_loaded (self : MutableTree) (node : loc) : M MutationError loc :=
  sole ← only_below_loaded_leaf LEVELS node;
  match sole with
  | None => mret node
  | Some sole_leaf =>
      n ← read node;
      sole_branch ← lift (select_only_branch n);
      match sole_branch with
      | None => lift Panic
      | Some sole_branch =>
          s ← read sole_leaf;
          match peek_item s with
          | None => lift Panic
          | Some sole_item =>
              change node (fun n => set_child n sole_branch None);;
              leaf ← lift (new_leaf (get_type s) sole_item (owner self));
              alloc leaf
          end
      end
  end.

Definition collapse_fetched (fetch : Fetch) (self : MutableTree) (node : loc) : M MutationError loc :=
  sole ← only_below_leaf_with_fetch LEVELS node fetch;
  match sole with
  | None => mret node
  | Some sole_leaf =>
      s ← read sole_leaf;
      match peek_item s with
      | None => lift Panic
      | Some sole_item => leaf ← lift (new_leaf (get_type s) sole_item (owner self)); alloc leaf
      end
  end.

(** The loop of the deletion, from the parent of the leaf to the root. *)
Fixpoint delete_loop (collapse : MutableTree -> loc -> M MutationError loc) (self : MutableTree) (entries : list NodePathEntry)
    (target : Uint256) (prev_node : option loc) : M MutationError (bool * MutableTree) :=
  match entries with
  | [] => mret (true, self)
  | entry :: entries =>
      r ← unshare_node self (node entry) (node_id entry);
      branch ← lift (select_branch (node_id entry) target);
      change r.1 (fun n => set_child n branch prev_node);;
      if is_root (node_id entry) then delete_loop collapse (mkTree r.1 (owner r.2)) entries target None
      else
        n ← read r.1;
        match branch_count n with
        | O => delete_loop collapse r.2 entries target None
        | 1%nat => prev ← collapse r.2 r.1; delete_loop collapse r.2 entries target (Some prev)
        | _ => delete_loop collapse r.2 entries target (Some r.1)
        end
  end.

Definition delete_item_in (backed : bool) (fetch : Fetch) (collapse : MutableTree -> loc -> M MutationError loc)
    (self : MutableTree) (target : Uint256) : M MutationError (bool * MutableTree) :=
  r ← lower Traversal (walk_towards_key_with_path (root self) target backed fetch);
  match r.1 with
  | None => mret (false, self)
  | Some leaf =>
      n ← read leaf;
      match peek_item n with
      | None => mret (false, self)
      | Some existing_item =>
          if decide (item_key existing_item <> target) then mret (false, self)
          else delete_loop collapse self (rev (removelast r.2)) target None
      end
  end.

Definition delete_item := delete_item_in false no_fetch collapse_loaded.
Definition delete_item_with_fetch (fetch : Fetch) := delete_item_in true fetch (collapse_fetched fetch).

Definition mutable_find_key (self : MutableTree) (key : Uint256) : M TraversalError (option loc) := find_key (root self) key false no_fetch.

Definition mutable_has_item (self : MutableTree) (key : Uint256) : heap -> outcome TraversalError bool * heap := fun h =>
  match mutable_find_key self key h with
  | (Ok r, h) => (Ok (bool_decide (r <> None)), h)
  | (Err _, h) => (Ok false, h)
  | (Panic, h) => (Panic, h)
  | (Wraps, h) => (Wraps, h)
  | (OutOfFuel, h) => (OutOfFuel, h)
  end.

End Shamap.
