(* ===== verification/ShamapRepr.v ===== *)
(** * ShamapRepr: what a store of nodes stands for

    A mutable tree with the owner [c] writes in place to the nodes that carry its
    number and copies every other node before it changes it.  [frozen c h l t]: the
    node at [l] and all nodes below it have owners smaller than [c], and they stand for
    the tree [t]; children that are not loaded are known by their digest to the ghost
    map [store].  [keeps c h h']: between the two stores, nodes with a smaller owner
    changed in nothing but children that were loaded; what was frozen stays frozen
    ([frozen_keeps]), which is what other trees rely on.

    The nodes a mutable tree owns form a tree ([mtree]) whose locations are distinct;
    its other parts are frozen.  [holds c h m] relates it to the store. *)

From stdpp Require Import list.
From Stdlib Require Import ZArith Lia.
From S2P Require Import Prelude Serializer ShamapKey ShamapNode ShamapSlots ShamapTree ShamapHeap.
Local Open Scope Z_scope.

(** What is known of the world outside: the tree that a hash leads to, and the trees that
    nodes without an owner may stand for (those that have been saved, say). *)
Record ghost : Type := mkGhost {
  known_as :> SHAMapHash -> option stree;
  shared : stree -> Prop;
  shared_none : shared (Node no_kids)
}.

Section Repr.
Context `{Sha512} (store : ghost).

(** ** Frozen trees *)

(** A node that is clean has its digest and those of its children; a node that is not
    has the hash zero, and an owner. *)
Definition hash_ok (n : SHAMapTreeNode) (l : list slot) (kids : list stree) : Prop :=
  (hash n = merkle (Node kids) /\ clean l kids) \/ (hash n = uint256_zero /\ cowid n <> 0).

(** What a slot says of the child it stands for. *)
Definition slot_ok (s : slot) (t : stree) : Prop :=
  match s with
  | None => t = Empty
  | Some (e, None) => t <> Empty /\ e = merkle t /\ store e = Some t
  | Some (e, Some _) => t <> Empty
  end.

Inductive frozen (c : Z) (h : heap) : loc -> stree -> Prop :=
| frozen_leaf l n ty it : h !! l = Some n -> 0 <= cowid n < c -> body n = LeafBody ty it -> hash n = leaf_digest ty it ->
    (cowid n = 0 -> shared store (Leaf ty it)) -> frozen c h l (Leaf ty it)
| frozen_node l n i kids : h !! l = Some n -> 0 <= cowid n < c -> body n = InnerBody i -> inner_ok i -> hash_ok n (slots i) kids ->
    Forall2 slot_ok (slots i) kids ->
    (forall b e l' t, slots i !! b = Some (Some (e, Some l')) -> kids !! b = Some t -> frozen c h l' t) ->
    (cowid n = 0 -> shared store (Node kids)) -> frozen c h l (Node kids).

Lemma frozen_mono c c' h l t : c <= c' -> frozen c h l t -> frozen c' h l t.
Proof. intros Hc. induction 1; [econstructor; eauto; lia|econstructor; eauto; lia]. Qed.

(** ** Stores that keep the frozen nodes *)

Definition slot_grows (c : Z) (h' : heap) (s s' : slot) : Prop :=
  s' = s \/ exists e l t, s = Some (e, None) /\ s' = Some (e, Some l) /\ store e = Some t /\ frozen c h' l t.

Definition node_grows (c : Z) (h' : heap) (n n' : SHAMapTreeNode) : Prop :=
  hash n' = hash n /\ cowid n' = cowid n /\
  match body n, body n' with
  | LeafBody ty it, LeafBody ty' it' => ty' = ty /\ it' = it
  | InnerBody i, InnerBody i' => inner_ok i -> inner_ok i' /\ Forall2 (slot_grows c h') (slots i) (slots i')
  | _, _ => False
  end.

Definition keeps (c : Z) (h h' : heap) : Prop :=
  forall l n, h !! l = Some n -> 0 <= cowid n < c -> exists n', h' !! l = Some n' /\ node_grows c h' n n'.

Lemma slot_grows_refl c h s : slot_grows c h s s.
Proof. now left. Qed.

Lemma node_grows_refl c h n : node_grows c h n n.
Proof.
  split; [reflexivity|]. split; [reflexivity|]. destruct (body n) as [i|]; [|auto]. intros Hi. split; [exact Hi|].
  apply Forall_Forall2_diag, Forall_true. intros s. apply slot_grows_refl.
Qed.

Lemma slot_grows_hash c h s s' : slot_grows c h s s' -> slot_hash s' = slot_hash s.
Proof. intros [->|(e & l & t & -> & -> & _)]; reflexivity. Qed.

Lemma frozen_keeps c h h' l t : keeps c h h' -> frozen c h l t -> frozen c h' l t.
Proof.
  intros Hk. induction 1 as [l n ty it Hl Hc Hb Hh Hsh|l n i kids Hl Hc Hb Hi Hh Hs Hf IH Hsh]; destruct (Hk l n Hl Hc) as (n' & Hl' & Hh' & Hc' & Hn); rewrite <- Hc' in Hsh.
  - rewrite Hb in Hn. destruct (body n') as [|ty' it'] eqn:Hb'; [contradiction|]. destruct Hn as [-> ->]. eapply frozen_leaf; eauto; congruence.
  - rewrite Hb in Hn. destruct (body n') as [i'|] eqn:Hb'; [|contradiction]. destruct (Hn Hi) as [Hi' Hg].
    assert (slot_hash <$> slots i' = slot_hash <$> slots i) as Hsl.
    { symmetry. apply Forall2_fmap_eq, (Forall2_impl _ _ _ _ Hg). intros s s' Hss. symmetry. eapply slot_grows_hash, Hss. }
    eapply frozen_node; [exact Hl'|congruence|exact Hb'|exact Hi'| | | |exact Hsh].
    + destruct Hh as [[Hh Hcl]|[Hh Hcl]]; [left|right]; [|split; congruence]. split; [congruence|]. unfold clean in *. congruence.
    + apply Forall2_same_length_lookup_2; [rewrite slots_length; apply Forall2_length in Hs; now rewrite slots_length in Hs|].
      intros b s' t Hs' Ht. destruct (Forall2_lookup_r _ _ _ _ _ Hg Hs') as (s & Hsb & Hgs). pose proof (Forall2_lookup_lr _ _ _ _ _ _ Hs Hsb Ht) as Hst.
      destruct Hgs as [->|(e & l' & u & -> & -> & Hu & Hfu)]; [exact Hst|]. cbn in Hst |- *. tauto.
    + intros b e l' t Hs' Ht. destruct (Forall2_lookup_r _ _ _ _ _ Hg Hs') as (s & Hsb & Hgs).
      destruct Hgs as [<-|(e' & l'' & u & -> & [= <- <-] & Hu & Hfu)]; [eapply IH; eauto|].
      pose proof (Forall2_lookup_lr _ _ _ _ _ _ Hs Hsb Ht) as (_ & _ & Hst). congruence.
Qed.

Lemma keeps_refl c h : keeps c h h.
Proof. intros l n Hl Hc. exists n. split; [exact Hl|apply node_grows_refl]. Qed.

Lemma keeps_trans c h1 h2 h3 : keeps c h1 h2 -> keeps c h2 h3 -> keeps c h1 h3.
Proof.
  intros H12 H23 l n Hl Hc. destruct (H12 l n Hl Hc) as (n2 & Hl2 & Hh2 & Hc2 & Hn2). destruct (H23 l n2 Hl2 ltac:(congruence)) as (n3 & Hl3 & Hh3 & Hc3 & Hn3).
  exists n3. split; [exact Hl3|]. split; [congruence|]. split; [congruence|].
  destruct (body n) as [i1|], (body n2) as [i2|], (body n3) as [i3|]; try contradiction; [|destruct Hn2, Hn3; split; congruence].
  intros Hi1. destruct (Hn2 Hi1) as [Hi2 Hg2]. destruct (Hn3 Hi2) as [Hi3 Hg3]. split; [exact Hi3|].
  apply Forall2_same_length_lookup_2; [reflexivity|]. intros b s1 s3 Hs1 Hs3.
  destruct (Forall2_lookup_r _ _ _ _ _ Hg3 Hs3) as (s2 & Hs2 & G23). pose proof (Forall2_lookup_lr _ _ _ _ _ _ Hg2 Hs1 Hs2) as G12.
  destruct G12 as [->|(e & l' & t & -> & -> & Ht & Hf)]; [exact G23|]. right. exists e, l', t.
  destruct G23 as [->|(? & ? & ? & ? & _)]; [|discriminate]. repeat split; auto. eapply frozen_keeps; eauto.
Qed.

(** Nodes of the owner, and new nodes, can be written without breaking what is kept. *)
Lemma keeps_write c h l n n' : h !! l = Some n -> cowid n = c -> keeps c h (<[l := n']> h).
Proof.
  intros Hl Hc m k Hm Hk. exists k. split; [|apply node_grows_refl]. rewrite list_lookup_insert_ne; [exact Hm|]. intros ->. rewrite Hl in Hm. injection Hm as ->. lia.
Qed.

Lemma keeps_app c h e : keeps c h (h ++ e).
Proof. intros m k Hm Hk. exists k. split; [now apply lookup_app_l_Some|apply node_grows_refl]. Qed.

(** ** The nodes a mutable tree owns *)

Inductive mtree : Type :=
| MEmpty
| MStub (t : stree)
| MFrozen (l : loc) (t : stree)
| MLeaf (l : loc) (ty : SHAMapNodeType) (it : SHAMapItem)
| MNode (l : loc) (ms : list mtree).

Lemma mtree_ind' (P : mtree -> Prop) : P MEmpty -> (forall t, P (MStub t)) -> (forall l t, P (MFrozen l t)) -> (forall l ty it, P (MLeaf l ty it)) ->
  (forall l ms, Forall P ms -> P (MNode l ms)) -> forall m, P m.
Proof.
  intros H0 H1 H2 H3 H4. fix IH 1. intros [|t|l t|l ty it|l ms]; [exact H0|apply H1|apply H2|apply H3|]. apply H4.
  induction ms as [|m ms IHm]; constructor; [apply IH|exact IHm].
Qed.

Fixpoint erase (m : mtree) : stree :=
  match m with
  | MEmpty => Empty
  | MStub t | MFrozen _ t => t
  | MLeaf _ ty it => Leaf ty it
  | MNode _ ms => Node (map erase ms)
  end.

Definition mloc (m : mtree) : option loc :=
  match m with MEmpty | MStub _ => None | MFrozen l _ | MLeaf l _ _ | MNode l _ => Some l end.

(** The locations the tree owns. *)
Fixpoint locs (m : mtree) : list loc :=
  match m with
  | MEmpty | MStub _ | MFrozen _ _ => []
  | MLeaf l _ _ => [l]
  | MNode l ms => l :: concat (map locs ms)
  end.

Definition slot_of (s : slot) (m : mtree) : Prop :=
  match m with
  | MEmpty => s = None
  | MStub t => s = Some (merkle t, None)
  | MFrozen l _ | MLeaf l _ _ | MNode l _ => exists e, s = Some (e, Some l)
  end.

(** The node at [l], apart from what its children are. *)
Definition node_ok (c : Z) (h : heap) (l : loc) (ms : list mtree) : Prop :=
  exists n i, h !! l = Some n /\ cowid n = c /\ body n = InnerBody i /\ inner_ok i /\ Forall2 slot_of (slots i) ms /\
    hash_ok n (slots i) (erase <$> ms).

Inductive holds (c : Z) (h : heap) : mtree -> Prop :=
| holds_empty : holds c h MEmpty
| holds_stub t : t <> Empty -> store (merkle t) = Some t -> holds c h (MStub t)
| holds_frozen l t : frozen c h l t -> holds c h (MFrozen l t)
| holds_leaf l n ty it : h !! l = Some n -> cowid n = c -> body n = LeafBody ty it -> hash n = leaf_digest ty it -> holds c h (MLeaf l ty it)
| holds_node l ms : node_ok c h l ms -> (forall m, m ∈ ms -> holds c h m) -> holds c h (MNode l ms).

Lemma node_ok_same c h h' l ms : h' !! l = h !! l -> node_ok c h l ms -> node_ok c h' l ms.
Proof. intros Hl (n & i & Hn & Hrest). exists n, i. split; [congruence|exact Hrest]. Qed.

(** A part of the tree stands while its own nodes and the frozen ones are left alone. *)
Lemma holds_same c h h' m : keeps c h h' -> holds c h m -> (forall l, l ∈ locs m -> h' !! l = h !! l) -> holds c h' m.
Proof.
  intros Hk Hm. induction Hm as [|t Ht1 Ht2|l t Hf|l n ty it Hl Hc Hb Hh|l ms Hn Hms IH]; intros Hs.
  - constructor.
  - now constructor.
  - constructor. eapply frozen_keeps; eauto.
  - econstructor; eauto. rewrite Hs; [exact Hl|left].
  - constructor; [eapply node_ok_same; [|exact Hn]; apply Hs; left|]. intros m Hm. apply IH; [exact Hm|].
    intros l' Hl'. apply Hs. right. apply list_elem_of_In, in_concat. exists (locs m). split; [apply in_map|]; now apply list_elem_of_In.
Qed.

Lemma holds_locs c h m : holds c h m -> forall l, l ∈ locs m -> exists n, h !! l = Some n /\ cowid n = c.
Proof.
  induction 1 as [|t Ht1 Ht2|l t Hf|l n ty it Hl Hc Hb Hh|l ms Hn Hms IH]; intros l' Hl'; cbn in Hl'; try (now inversion Hl').
  - apply list_elem_of_singleton in Hl' as ->. eauto.
  - apply elem_of_cons in Hl' as [->|Hl']; [destruct Hn as (n & i & Hn & Hc & _); eauto|].
    apply list_elem_of_In, in_concat in Hl' as (x & Hx & Hin). apply in_map_iff in Hx as (m & <- & Hm). apply (IH m); apply list_elem_of_In; assumption.
Qed.

Lemma node_ok_length c h l ms : node_ok c h l ms -> length ms = 16%nat.
Proof. intros (n & i & _ & _ & _ & _ & Hs & _). apply Forall2_length in Hs. now rewrite slots_length in Hs. Qed.

(** A frozen branching, opened. *)
Lemma frozen_open c h l kids : frozen c h l (Node kids) -> exists n i ms, h !! l = Some n /\ 0 <= cowid n < c /\ body n = InnerBody i /\ inner_ok i /\
  hash_ok n (slots i) kids /\ Forall2 slot_of (slots i) ms /\ erase <$> ms = kids /\ (forall m, m ∈ ms -> holds c h m) /\ concat (map locs ms) = [].
Proof.
  intros Hf. inversion Hf as [|? n i ? Hl Hc Hb Hi Hh Hs Hk]; subst.
  set (open := fun (s : slot) t => match s with None => MEmpty | Some (_, None) => MStub t | Some (_, Some l) => MFrozen l t end).
  assert (length (slots i) = length kids) as Hlen by now apply Forall2_length in Hs.
  exists n, i, (zip_with open (slots i) kids). repeat (split; [assumption|]).
  assert (forall b s t, slots i !! b = Some s -> kids !! b = Some t -> slot_of s (open s t) /\ erase (open s t) = t /\ holds c h (open s t) /\ locs (open s t) = []) as Hop.
  { intros b s t Hsb Htb. pose proof (Forall2_lookup_lr _ _ _ _ _ _ Hs Hsb Htb) as Hst. destruct s as [[e [l'|]]|]; cbn in Hst |- *.
    - split; [eauto|]. split; [reflexivity|]. split; [|reflexivity]. constructor. eapply Hk; eauto.
    - destruct Hst as (Ht & -> & He). repeat split; auto. now constructor.
    - subst t. repeat split. constructor. }
  assert (forall b m, zip_with open (slots i) kids !! b = Some m -> exists s t, slots i !! b = Some s /\ kids !! b = Some t /\ m = open s t) as Hz.
  { intros b m Hm. apply lookup_zip_with_Some in Hm as (s & t & -> & Hsb & Htb). eauto. }
  split; [|split; [|split]].
  - apply Forall2_same_length_lookup_2; [rewrite length_zip_with; lia|]. intros b s m Hsb Hm. destruct (Hz b m Hm) as (s' & t & Hs' & Ht & ->).
    assert (s' = s) as -> by congruence. now apply (Hop b).
  - apply list_eq_same_length with (n := length kids); [reflexivity|rewrite length_fmap, length_zip_with; lia|]. intros b x y _ Hx Hy.
    rewrite list_lookup_fmap in Hx. destruct (zip_with open (slots i) kids !! b) as [m|] eqn:Hm; [|discriminate]. injection Hx as <-.
    destruct (Hz b m Hm) as (s' & t & Hs' & Ht & ->). assert (t = y) as <- by congruence. now apply (Hop b).
  - intros m Hm. apply list_elem_of_lookup in Hm as [b Hm]. destruct (Hz b m Hm) as (s' & t & Hs' & Ht & ->). now apply (Hop b).
  - apply concat_nil_Forall, Forall_forall. intros x Hx. apply list_elem_of_In, in_map_iff in Hx as (m & <- & Hm). apply list_elem_of_In, list_elem_of_lookup in Hm as [b Hm].
    destruct (Hz b m Hm) as (s' & t & Hs' & Ht & ->). now apply (Hop b).
Qed.

(** ** The way down to a node *)

(** The branchings above a part of the tree, the lowest first, with the branch taken:
    owned, or frozen with all that is below. *)
Inductive frame : Type :=
| FOwned (l : loc) (ms : list mtree) (b : nat)
| FFrozen (l : loc) (kids : list stree) (b : nat).

Definition frame_loc (f : frame) : loc := match f with FOwned l _ _ | FFrozen l _ _ => l end.
Definition frame_branch (f : frame) : nat := match f with FOwned _ _ b | FFrozen _ _ b => b end.
Definition shadow (f : frame) : list stree * nat := match f with FOwned _ ms b => (map erase ms, b) | FFrozen _ kids b => (kids, b) end.
Definition shadows (k : list frame) : sctx := shadow <$> k.

Definition flocs (f : frame) : list loc :=
  match f with FOwned l ms b => l :: concat (map locs (<[b := MEmpty]> ms)) | FFrozen _ _ _ => [] end.
Definition clocs (k : list frame) : list loc := concat (map flocs k).

Fixpoint mfill (k : list frame) (m : mtree) : mtree :=
  match k with
  | [] => m
  | FOwned l ms b :: k => mfill k (MNode l (<[b := m]> ms))
  | FFrozen l kids b :: k => mfill k (MFrozen l (Node kids))
  end.

Definition siblings (c : Z) (h : heap) (ms : list mtree) (b : nat) : Prop := forall j m, j <> b -> ms !! j = Some m -> holds c h m.

(** The part [m] is what the branchings [k] lead to. *)
Fixpoint ctx_at (c : Z) (h : heap) (k : list frame) (m : mtree) : Prop :=
  match k with
  | [] => True
  | FOwned l ms b :: k => (b < length ms)%nat /\ node_ok c h l (<[b := m]> ms) /\ siblings c h ms b /\ ctx_at c h k (MNode l (<[b := m]> ms))
  | FFrozen l kids b :: k => frozen c h l (Node kids) /\ kids !! b = Some (erase m) /\ locs m = [] /\ ctx_at c h k (MFrozen l (Node kids))
  end.

(** The branchings [k], whatever they lead to by now. *)
Definition frame_open (c : Z) (h : heap) (f : frame) : Prop :=
  match f with
  | FOwned l ms b => (b < length ms)%nat /\ (exists m, node_ok c h l (<[b := m]> ms)) /\ siblings c h ms b
  | FFrozen l kids b => (b < length kids)%nat /\ frozen c h l (Node kids)
  end.

Definition ctx_open (c : Z) (h : heap) (k : list frame) : Prop := forall f, f ∈ k -> frame_open c h f.

Lemma ctx_at_open c h k : forall m, ctx_at c h k m -> ctx_open c h k.
Proof.
  induction k as [|f k IH]; intros m Hk g Hg; [inversion Hg|]. destruct f as [l ms b|l kids b]; cbn in Hk.
  - destruct Hk as (H1 & H2 & H3 & H4). inversion Hg; subst; [cbn; eauto|]. eapply IH; eauto.
  - destruct Hk as (H1 & H2 & H3 & H4). inversion Hg; subst; [split; [eapply lookup_lt_Some, H2|exact H1]|]. eapply IH; eauto.
Qed.

Lemma insert_elem {A} (l : list A) b x y : y ∈ <[b := x]> l -> y = x \/ exists j, j <> b /\ l !! j = Some y.
Proof.
  intros Hy. apply list_elem_of_lookup in Hy as [j Hj]. destruct (decide (j = b)) as [->|Hn].
  - left. destruct (Nat.lt_ge_cases b (length l)); [rewrite list_lookup_insert_eq in Hj by assumption; congruence|].
    apply lookup_lt_Some in Hj. rewrite length_insert in Hj. lia.
  - right. exists j. rewrite list_lookup_insert_ne in Hj by congruence. auto.
Qed.

Lemma holds_insert c h l ms b m : node_ok c h l (<[b := m]> ms) -> siblings c h ms b -> holds c h m -> holds c h (MNode l (<[b := m]> ms)).
Proof. intros Hn Hs Hm. constructor; [exact Hn|]. intros x Hx. apply insert_elem in Hx as [->|(j & Hj & Hx)]; [exact Hm|eauto]. Qed.

Lemma holds_fill c h k : forall m, ctx_at c h k m -> holds c h m -> holds c h (mfill k m).
Proof.
  induction k as [|[l ms b|l kids b] k IH]; intros m Hk Hm; [exact Hm| |]; cbn in Hk |- *; destruct Hk as (H1 & H2 & H3 & H4); apply IH; auto.
  - now apply holds_insert.
  - now constructor.
Qed.

Lemma erase_fill c h k : forall m, ctx_at c h k m -> erase (mfill k m) = plug (shadows k) (erase m).
Proof.
  induction k as [|[l ms b|l kids b] k IH]; intros m Hk; [reflexivity| |]; cbn in Hk |- *; destruct Hk as (H1 & H2 & H3 & H4); rewrite (IH _ H4); cbn.
  - do 2 f_equal. apply (list_fmap_insert erase).
  - rewrite list_insert_id by exact H2. reflexivity.
Qed.

Lemma locs_insert ms b m : (b < length ms)%nat -> concat (map locs (<[b := m]> ms)) ≡ₚ concat (map locs (<[b := MEmpty]> ms)) ++ locs m.
Proof.
  intros Hb. rewrite !insert_take_drop by exact Hb. rewrite !map_app, !concat_app. cbn.
  rewrite <- app_assoc. apply Permutation_app_head. apply Permutation_app_comm.
Qed.

Lemma locs_fill c h k : forall m, ctx_at c h k m -> locs (mfill k m) ≡ₚ clocs k ++ locs m.
Proof.
  induction k as [|[l ms b|l kids b] k IH]; intros m Hk; [reflexivity| |]; cbn [ctx_at mfill] in Hk |- *; destruct Hk as (H1 & H2 & H3 & H4); rewrite (IH _ H4).
  - assert (locs (MNode l (<[b:=m]> ms)) ≡ₚ flocs (FOwned l ms b) ++ locs m) as -> by (cbn; constructor; now apply locs_insert).
    change (clocs (FOwned l ms b :: k)) with (flocs (FOwned l ms b) ++ clocs k). rewrite app_assoc. apply Permutation_app_tail, Permutation_app_comm.
  - rewrite H3. reflexivity.
Qed.

(** The part can be exchanged for one with the same location and meaning. *)
Lemma ctx_at_swap c h k : forall m m', ctx_at c h k m -> (forall s, slot_of s m -> slot_of s m') -> erase m' = erase m -> (locs m = [] -> locs m' = []) -> ctx_at c h k m'.
Proof.
  induction k as [|[l ms b|l kids b] k IH]; intros m m' Hk Hs He Hl; [exact I| |]; cbn [ctx_at] in Hk |- *; destruct Hk as (H1 & H2 & H3 & H4).
  - split; [exact H1|]. split; [|split; [exact H3|]].
    + destruct H2 as (n & i & Hn & Hc & Hb & Hi & Hsl & Hh). exists n, i. repeat (split; [assumption|]). split.
      * apply Forall2_same_length_lookup_2; [apply Forall2_length in Hsl; rewrite length_insert in *; exact Hsl|]. intros j s x Hsj Hx.
        destruct (decide (j = b)) as [->|Hj].
        -- rewrite list_lookup_insert_eq in Hx by exact H1. injection Hx as <-. apply Hs. eapply Forall2_lookup_lr; [exact Hsl|exact Hsj|]. now apply list_lookup_insert_eq.
        -- rewrite list_lookup_insert_ne in Hx by congruence. eapply Forall2_lookup_lr; [exact Hsl|exact Hsj|]. now rewrite list_lookup_insert_ne by congruence.
      * rewrite list_fmap_insert in *. now rewrite He.
    + eapply IH; [exact H4| | |].
      * auto.
      * cbn. f_equal. change (erase <$> <[b:=m']> ms = erase <$> <[b:=m]> ms). rewrite !list_fmap_insert. now rewrite He.
      * discriminate.
  - split; [exact H1|]. split; [now rewrite He|]. split; [auto|exact H4].
Qed.

Lemma siblings_same c h h' ms b : keeps c h h' -> siblings c h ms b -> (forall l, l ∈ concat (map locs (<[b := MEmpty]> ms)) -> h' !! l = h !! l) -> siblings c h' ms b.
Proof.
  intros Hk Hs Hl j m Hj Hm. eapply holds_same; [exact Hk|eauto|]. intros l Hin. apply Hl, list_elem_of_In, in_concat. exists (locs m).
  split; [|now apply list_elem_of_In]. apply in_map, list_elem_of_In, list_elem_of_lookup. exists j. now rewrite list_lookup_insert_ne by congruence.
Qed.

Lemma frame_open_same c h h' f : keeps c h h' -> frame_open c h f -> (forall l, l ∈ flocs f -> h' !! l = h !! l) -> frame_open c h' f.
Proof.
  intros Hk Hf Hl. destruct f as [l ms b|l kids b]; cbn in *.
  - destruct Hf as (H1 & [m Hm] & H3). split; [exact H1|]. split; [exists m; eapply node_ok_same; [apply Hl; left|exact Hm]|].
    eapply siblings_same; [exact Hk|exact H3|]. intros l' Hl'. apply Hl. now right.
  - split; [apply Hf|]. eapply frozen_keeps; [exact Hk|apply Hf].
Qed.

Lemma clocs_elem k f l : f ∈ k -> l ∈ flocs f -> l ∈ clocs k.
Proof. intros Hf Hl. apply list_elem_of_In, in_concat. exists (flocs f). split; [apply in_map|]; now apply list_elem_of_In. Qed.

Lemma ctx_open_same c h h' k : keeps c h h' -> ctx_open c h k -> (forall l, l ∈ clocs k -> h' !! l = h !! l) -> ctx_open c h' k.
Proof. intros Hk Ho Hl f Hf. eapply frame_open_same; eauto. intros l Hin. apply Hl. eapply clocs_elem; eauto. Qed.

Lemma ctx_at_same c h h' k : forall m, keeps c h h' -> ctx_at c h k m -> (forall l, l ∈ clocs k -> h' !! l = h !! l) -> ctx_at c h' k m.
Proof.
  induction k as [|[l ms b|l kids b] k IH]; intros m Hk Hc Hl; [exact I| |]; cbn [ctx_at] in Hc |- *; destruct Hc as (H1 & H2 & H3 & H4).
  - change (clocs (FOwned l ms b :: k)) with (flocs (FOwned l ms b) ++ clocs k) in Hl.
    split; [exact H1|]. split; [eapply node_ok_same; [apply Hl; left|exact H2]|]. split.
    + eapply siblings_same; [exact Hk|exact H3|]. intros l' Hl'. apply Hl, elem_of_app. left. now right.
    + apply IH; auto. intros l' Hl'. apply Hl, elem_of_app. now right.
  - split; [eapply frozen_keeps; eauto|]. split; [exact H2|]. split; [exact H3|]. apply IH; auto.
Qed.

Lemma open_locs c h k : ctx_open c h k -> forall l, l ∈ clocs k -> exists n, h !! l = Some n /\ cowid n = c.
Proof.
  intros Ho l Hl. apply list_elem_of_In, in_concat in Hl as (x & Hx & Hin). apply in_map_iff in Hx as (f & <- & Hf).
  apply list_elem_of_In in Hf, Hin. specialize (Ho f Hf). destruct f as [l' ms b|]; [|inversion Hin]. destruct Ho as (Hb & [m (n & i & Hn & Hc & _)] & Hs).
  apply elem_of_cons in Hin as [->|Hin]; [eauto|]. apply list_elem_of_In, in_concat in Hin as (y & Hy & Hin). apply in_map_iff in Hy as (m' & <- & Hm').
  apply list_elem_of_In in Hm', Hin. apply insert_elem in Hm' as [->|(j & Hj & Hm')]; [inversion Hin|]. eapply holds_locs; eauto.
Qed.

(** ** The owned nodes are frozen for the owners that follow *)

Lemma holds_frozen_up c h m : 1 <= c -> holds c h m -> forall l, mloc m = Some l -> frozen (c + 1) h l (erase m).
Proof.
  intros Hc. induction 1 as [|t Ht1 Ht2|l0 t Hf|l0 n ty it Hl Hcn Hb Hh|l0 ms (n & i & Hl & Hcn & Hb & Hi & Hsl & Hh) Hms IH]; intros l Hm; cbn in Hm; try discriminate; injection Hm as <-.
  - eapply frozen_mono; [|exact Hf]. lia.
  - eapply frozen_leaf; eauto; lia.
  - eapply frozen_node; eauto; [lia| | |lia].
    + apply Forall2_fmap_r. apply Forall2_same_length_lookup_2; [apply (Forall2_length _ _ _ Hsl)|]. intros b s m Hs Hm. pose proof (Forall2_lookup_lr _ _ _ _ _ _ Hsl Hs Hm) as Hst.
      pose proof (Hms m (list_elem_of_lookup_2 _ _ _ Hm)) as Hmh. inversion Hmh as [|t Ht1 Ht2|l1 t Hf|l1 n1 ty it|l1 ms1]; subst m; cbn in Hst |- *; [now subst s|subst s; cbn; auto| | |]; destruct Hst as [e ->]; cbn; try discriminate.
      intros ->. inversion Hf.
    + intros b e l' t Hs Ht. change (map erase ms) with (erase <$> ms) in Ht. rewrite list_lookup_fmap in Ht. destruct (ms !! b) as [m|] eqn:Hm; [|discriminate]. injection Ht as <-.
      pose proof (Forall2_lookup_lr _ _ _ _ _ _ Hsl Hs Hm) as Hst. apply (IH m (list_elem_of_lookup_2 _ _ _ Hm)). destruct m; cbn in Hst |- *; try discriminate; destruct Hst as [e' Hst]; congruence.
Qed.

End Repr.

Arguments frame_loc !f /.
Arguments frame_branch !f /.
