(* ===== verification/ShamapWalk.v ===== *)
(** * ShamapWalk: walking towards a key

    [walk_towards_key_with_path] finds the place of a key: an empty branch, or the leaf
    at the end of the key's path.  Children that are not loaded are fetched and stored
    in their parents, which changes no tree ([keeps]). *)

From stdpp Require Import list.
From Stdlib Require Import ZArith Lia.
From S2P Require Import Prelude Serializer ShamapKey ShamapNode ShamapSlots ShamapTree ShamapHeap ShamapRepr.
Local Open Scope Z_scope.

(** ** The monad *)

Lemma mbind_ok {E A B} (m : M E A) (k : A -> M E B) h a h' : m h = (Ok a, h') -> (m ≫= k) h = k a h'.
Proof. intros Hm. unfold mbind, M_bind. now rewrite Hm. Qed.

Lemma mbind_err {E A B} (m : M E A) (k : A -> M E B) h e h' : m h = (Err e, h') -> (m ≫= k) h = (Err e, h').
Proof. intros Hm. unfold mbind, M_bind. now rewrite Hm. Qed.

Lemma lift_ok {E A} (o : outcome E A) a h : o = Ok a -> lift o h = (Ok a, h).
Proof. now intros ->. Qed.

Lemma read_ok {E} l h n : h !! l = Some n -> read (E := E) l h = (Ok n, h).
Proof. intros Hl. unfold read. now rewrite Hl. Qed.

Lemma change_ok {E} l f h n n' : h !! l = Some n -> f n = Ok n' -> change (E := E) l f h = (Ok tt, <[l := n']> h).
Proof. intros Hl Hf. unfold change. rewrite (mbind_ok _ _ _ _ _ (read_ok l h n Hl)), (mbind_ok _ _ _ _ _ (lift_ok _ _ h Hf)). reflexivity. Qed.

Lemma run_lower {E F A} (f : E -> F) (m : M E A) h a h' : m h = (Ok a, h') -> lower f m h = (Ok a, h').
Proof. intros Hm. unfold lower. now rewrite Hm. Qed.

(** Runs the next step of a monadic program, given what it returns. *)
Ltac run H := rewrite (mbind_ok _ _ _ _ _ H); cbn beta.

Section Walk.
Context `{Sha512} (store : ghost).

(** ** Fetching *)

(** What is expected of [fetch]: a hash of the store leads to a shared node that stands
    for the tree of this hash, and the store of nodes only gains nodes. *)
Definition fetch_ok (backed : bool) (fetch : Fetch) : Prop :=
  forall e t, store e = Some t -> backed = true /\
    forall h, exists l x, fetch e h = (Some l, h ++ x) /\ frozen store 1 (h ++ x) l t.

Lemma frozen_shared_hash h l t : frozen store 1 h l t -> exists n, h !! l = Some n /\ cowid n = 0 /\ hash n = merkle t.
Proof.
  intros Hf. inversion Hf as [? n ty it Hl Hc Hb Hh|? n i kids Hl Hc Hb Hi Hh Hs Hk]; subst; exists n.
  - repeat split; auto. lia.
  - repeat split; auto; [lia|]. destruct Hh as [[Hh _]|[_ Hn]]; [exact Hh|lia].
Qed.

Section Descend.
Context (backed : bool) (fetch : Fetch) (h : heap) (l : loc) (n : SHAMapTreeNode) (i : SHAMapInnerNode)
  (Hl : h !! l = Some n) (Hb : body n = InnerBody i) (Hi : inner_ok i).

Lemma node_is_inner : is_inner n = true.
Proof. unfold is_inner. now rewrite Hb. Qed.

Lemma descend_loaded {E} b e l' : slots i !! b = Some (Some (e, Some l')) -> descend (E := E) l b backed fetch h = (Ok (Some l'), h).
Proof.
  intros Hs. unfold descend. run (read_ok (E := E) l h n Hl). rewrite node_is_inner. cbn [negb].
  run (lift_ok _ _ h (get_child_slots (E := E) n i Hb Hi b _ Hs)). run (lift_ok _ _ h (is_empty_branch_slots (E := E) n i Hb b _ Hs)). reflexivity.
Qed.

Lemma descend_throw_loaded b e l' : slots i !! b = Some (Some (e, Some l')) -> descend_throw l b backed fetch h = (Ok (Some l'), h).
Proof. intros Hs. unfold descend_throw. now run (descend_loaded (E := TraversalError) b e l' Hs). Qed.

Lemma canonicalize_ok {E} b e l' k : slots i !! b = Some (Some (e, None)) -> h !! l' = Some k -> hash k = e ->
  exists i', canonicalize (E := E) l b l' h = (Ok l', <[l := after n (hash n) i']> h) /\ inner_ok i' /\ slots i' = <[b := Some (e, Some l')]> (slots i).
Proof.
  intros Hs Hk He. destruct (canonicalize_child_slots (E := E) n i Hb Hi b e None l' Hs) as (i' & Hc & Hi' & Hs').
  exists i'. split; [|auto]. unfold canonicalize, query.
  assert ((n ← read (E := E) l'; lift (Ok (hash n))) h = (Ok e, h)) as Hq by (run (read_ok (E := E) l' h k Hk); now rewrite He).
  run Hq. run (read_ok (E := E) l h n Hl). run (lift_ok _ _ h Hc). reflexivity.
Qed.

End Descend.

(** The child is fetched and kept. *)
Lemma descend_throw_fetched fetch h l n i b e l' x k : h !! l = Some n -> body n = InnerBody i -> inner_ok i ->
  slots i !! b = Some (Some (e, None)) -> fetch e h = (Some l', h ++ x) -> (h ++ x) !! l' = Some k -> hash k = e ->
  exists i', descend_throw l b true fetch h = (Ok (Some l'), <[l := after n (hash n) i']> (h ++ x)) /\ inner_ok i' /\
    slots i' = <[b := Some (e, Some l')]> (slots i).
Proof.
  intros Hl Hb Hi Hs Hf Hk He. assert ((h ++ x) !! l = Some n) as Hl' by now apply lookup_app_l_Some.
  destruct (canonicalize_ok (h ++ x) l n i Hl' Hb Hi (E := TraversalError) b e l' k Hs Hk He) as (i' & Hc & Hi' & Hs').
  exists i'. split; [|auto].
  assert (descend (E := TraversalError) l b true fetch h = (Ok (Some l'), <[l := after n (hash n) i']> (h ++ x))) as Hd.
  { unfold descend. run (read_ok (E := TraversalError) l h n Hl). rewrite (node_is_inner n i Hb). cbn [negb].
    run (lift_ok _ _ h (get_child_slots (E := TraversalError) n i Hb Hi b _ Hs)).
    run (lift_ok _ _ h (is_empty_branch_slots (E := TraversalError) n i Hb b _ Hs)). cbn [slot_child].
    rewrite !bool_decide_false by (auto; discriminate). cbn [negb orb].
    run (lift_ok _ _ h (get_child_hash_slots (E := TraversalError) n i Hb Hi b _ Hs)). cbn [slot_hash].
    assert (call (E := TraversalError) fetch e h = (Ok (Some l'), h ++ x)) as Hcall by (unfold call; now rewrite Hf).
    run Hcall. run Hc. reflexivity. }
  unfold descend_throw. run Hd. reflexivity.
Qed.

(** ** Loading keeps trees *)

Section Load.
Context (c : Z) (h : heap) (l : loc) (n : SHAMapTreeNode) (i i' : SHAMapInnerNode) (b : nat) (e : SHAMapHash) (l' : loc) (t : stree)
  (Hl : h !! l = Some n) (Hb : body n = InnerBody i) (Hs : slots i !! b = Some (Some (e, None))) (He : store e = Some t)
  (Hf : frozen store c h l' t) (Hi' : inner_ok i') (Hs' : slots i' = <[b := Some (e, Some l')]> (slots i)).

Let h' := <[l := after n (hash n) i']> h.

Lemma load_hashes : slot_hash <$> slots i' = slot_hash <$> slots i.
Proof. rewrite Hs', list_fmap_insert. apply list_insert_id. now rewrite list_lookup_fmap, Hs. Qed.

Lemma load_hash_ok m kids : m = after n (hash n) i' -> hash_ok n (slots i) kids -> hash_ok m (slots i') kids.
Proof. intros -> [[H1 H2]|[H1 H2]]; [left|right; exact (conj H1 H2)]. split; [exact H1|]. unfold clean in *. now rewrite load_hashes. Qed.

Lemma load_slots kids : Forall2 (slot_ok store) (slots i) kids -> Forall2 (slot_ok store) (slots i') kids.
Proof.
  intros Hk. rewrite Hs'. destruct (Forall2_lookup_l _ _ _ _ _ Hk Hs) as (u & Hu & Hsu & _).
  rewrite <- (list_insert_id kids b u Hu). now apply Forall2_insert.
Qed.

Lemma frozen_load t0 : forall l0, frozen store c h l0 t0 -> frozen store c h' l0 t0.
Proof.
  induction t0 as [|ty it|kids IH] using stree_ind'; intros l0 Hf0; [inversion Hf0| |].
  - inversion Hf0 as [? n0 ? ? Hl0 Hc0 Hb0 Hh0|]; subst. econstructor; eauto. unfold h'. rewrite list_lookup_insert_ne; [exact Hl0|]. intros ->. congruence.
  - inversion Hf0 as [|? n0 i0 ? Hl0 Hc0 Hb0 Hi0 Hh0 Hs0 Hk0 Hsh0]; subst. rewrite Forall_forall in IH. destruct (decide (l0 = l)) as [->|Hn].
    + assert (n0 = n) as -> by congruence. assert (i0 = i) as -> by congruence.
      eapply frozen_node; [apply list_lookup_insert_eq; eapply lookup_lt_Some, Hl|exact Hc0|reflexivity|exact Hi'|now eapply load_hash_ok|now apply load_slots| |exact Hsh0].
      intros j e' l'' u Hj Hu. rewrite Hs' in Hj. destruct (decide (j = b)) as [->|Hjb].
      * rewrite list_lookup_insert_eq in Hj by (eapply lookup_lt_Some, Hs). injection Hj as <- <-.
        pose proof (Forall2_lookup_lr _ _ _ _ _ _ Hs0 Hs Hu) as (_ & _ & Hst). assert (u = t) as -> by congruence.
        eapply IH; [eapply list_elem_of_lookup_2, Hu|exact Hf].
      * rewrite list_lookup_insert_ne in Hj by congruence. eapply IH; [eapply list_elem_of_lookup_2, Hu|]. eapply Hk0; eauto.
    + eapply frozen_node; eauto; [unfold h'; now rewrite list_lookup_insert_ne|]. intros j e' l'' u Hj Hu.
      eapply IH; [eapply list_elem_of_lookup_2, Hu|]. eapply Hk0; eauto.
Qed.

Lemma keeps_load : keeps store c h h'.
Proof.
  intros m k Hm Hk. unfold h'. destruct (decide (m = l)) as [->|Hn].
  - assert (k = n) as -> by congruence. exists (after n (hash n) i'). split; [apply list_lookup_insert_eq; eapply lookup_lt_Some, Hl|].
    split; [reflexivity|]. split; [reflexivity|]. rewrite Hb. intros _. split; [exact Hi'|]. rewrite Hs'.
    rewrite <- (list_insert_id (slots i) b _ Hs) at 1. apply Forall2_insert; [apply Forall_Forall2_diag, Forall_true; intros; apply slot_grows_refl|].
    right. exists e, l', t. repeat split; auto. now apply frozen_load.
  - exists k. split; [now rewrite list_lookup_insert_ne|apply node_grows_refl].
Qed.

End Load.

(** ** One step down *)

Section Down.
Context (c : Z) (Hc : 1 <= c) (backed : bool) (fetch : Fetch) (Hfetch : fetch_ok backed fetch).

Lemma locs_child (ms : list mtree) b m : ms !! b = Some m -> concat (map locs ms) ≡ₚ concat (map locs (<[b := MEmpty]> ms)) ++ locs m.
Proof. intros Hm. rewrite <- (list_insert_id ms b m Hm) at 1. apply locs_insert. eapply lookup_lt_Some, Hm. Qed.

Lemma elem_map_locs (ms : list mtree) j m l : ms !! j = Some m -> l ∈ locs m -> l ∈ concat (map locs ms).
Proof. intros Hm Hl. apply list_elem_of_In, in_concat. exists (locs m). split; [apply in_map, list_elem_of_In, list_elem_of_lookup; eauto|now apply list_elem_of_In]. Qed.

(** The child of an owned node is loaded. *)
Lemma load_owned h k l ms b t : ctx_at store c h k (MNode l ms) -> holds store c h (MNode l ms) -> NoDup (clocs k ++ locs (MNode l ms)) ->
  ms !! b = Some (MStub t) -> exists l' h', descend_throw l b backed fetch h = (Ok (Some l'), h') /\
    ctx_at store c h' (FOwned l ms b :: k) (MFrozen l' t) /\ holds store c h' (MFrozen l' t) /\ keeps store c h h'.
Proof.
  intros Hk Hm Hnd Hb. inversion Hm as [| | | |? ? Hn Hms]; subst. destruct Hn as (n & i & Hl & Ho & Hbody & Hi & Hsl & Hh).
  pose proof (Hms _ (list_elem_of_lookup_2 _ _ _ Hb)) as Hst. inversion Hst as [|? Ht Hstore| | |]; subst.
  destruct (Forall2_lookup_r _ _ _ _ _ Hsl Hb) as (s & Hs & Hslot). cbn in Hslot. subst s.
  destruct (Hfetch _ _ Hstore) as [-> Hfe]. destruct (Hfe h) as (l' & x & Hf & Hfr).
  destruct (frozen_shared_hash _ _ _ Hfr) as (n' & Hl' & Hc' & Hh').
  destruct (descend_throw_fetched fetch h l n i b (merkle t) l' x n' Hl Hbody Hi Hs Hf Hl' Hh') as (i' & Hd & Hi' & Hs').
  assert ((h ++ x) !! l = Some n) as Hlx by now apply lookup_app_l_Some.
  pose proof (frozen_mono store 1 (cowid n) (h ++ x) l' t Hc Hfr) as Hfc.
  pose proof (keeps_load (cowid n) (h ++ x) l n i i' b (merkle t) l' t Hlx Hbody Hs Hstore Hfc Hi' Hs') as Hkeep.
  set (h' := <[l:=after n (hash n) i']> (h ++ x)) in *. exists l', h'. split; [exact Hd|].
  assert (keeps store (cowid n) h h') as Hkk by (eapply keeps_trans; [apply keeps_app|exact Hkeep]).
  cbn [locs] in Hnd. apply NoDup_app in Hnd as (_ & Hdis & Hnd). apply NoDup_cons in Hnd as [Hlms _].
  assert (forall l0 k0, h !! l0 = Some k0 -> l0 <> l -> h' !! l0 = h !! l0) as Hsame.
  { intros l0 k0 Hl0 Hne. unfold h'. rewrite list_lookup_insert_ne by congruence. rewrite Hl0. now apply lookup_app_l_Some. }
  assert (forall j m, ms !! j = Some m -> holds store (cowid n) h' m) as Hsib.
  { intros j m Hj. pose proof (Hms m (list_elem_of_lookup_2 _ _ _ Hj)) as Hm'. eapply holds_same; [exact Hkk|exact Hm'|]. intros l0 Hl0.
    destruct (holds_locs store (cowid n) h m Hm' l0 Hl0) as (k0 & Hk0 & _). apply (Hsame l0 k0 Hk0). intros ->. apply Hlms. eapply elem_map_locs; eauto. }
  assert (erase <$> <[b:=MFrozen l' t]> ms = erase <$> ms) as Her.
  { rewrite list_fmap_insert. apply list_insert_id. now rewrite list_lookup_fmap, Hb. }
  split; [|split; [apply holds_frozen; eapply frozen_keeps; [exact Hkeep|exact Hfc]|exact Hkk]]. cbn [ctx_at]. split; [eapply lookup_lt_Some, Hb|]. split; [|split].
  - exists (after n (hash n) i'), i'. split; [apply list_lookup_insert_eq; eapply lookup_lt_Some, Hlx|]. repeat (split; [reflexivity || assumption|]). split.
    + rewrite Hs'. apply Forall2_insert; [exact Hsl|]. now exists (merkle t).
    + rewrite Her. eapply load_hash_ok; eauto.
  - intros j m _ Hj. eauto.
  - apply ctx_at_swap with (m := MNode l ms).
    + eapply ctx_at_same; [exact Hkk|exact Hk|]. intros l0 Hl0. destruct (open_locs store (cowid n) h k (ctx_at_open store _ _ _ _ Hk) l0 Hl0) as (k0 & Hk0 & _).
      apply (Hsame l0 k0 Hk0). intros ->. apply (Hdis l Hl0). left.
    + auto.
    + cbn. f_equal. exact Her.
    + discriminate.
Qed.

(** The child of a frozen node is loaded. *)
Lemma load_frozen h k l kids b t n i : ctx_at store c h k (MFrozen l (Node kids)) -> frozen store c h l (Node kids) -> kids !! b = Some t ->
  h !! l = Some n -> body n = InnerBody i -> slots i !! b = Some (Some (merkle t, None)) -> inner_ok i -> 0 <= cowid n < c -> store (merkle t) = Some t ->
  exists l' h', descend_throw l b backed fetch h = (Ok (Some l'), h') /\
    ctx_at store c h' (FFrozen l kids b :: k) (MFrozen l' t) /\ holds store c h' (MFrozen l' t) /\ keeps store c h h'.
Proof.
  intros Hk Hm Hb Hl Hbody Hs Hi Hcn Hstore.
  destruct (Hfetch _ _ Hstore) as [-> Hfe]. destruct (Hfe h) as (l' & x & Hf & Hfr). destruct (frozen_shared_hash _ _ _ Hfr) as (n' & Hl' & Hc' & Hh').
  destruct (descend_throw_fetched fetch h l n i b (merkle t) l' x n' Hl Hbody Hi Hs Hf Hl' Hh') as (i' & Hd & Hi' & Hs').
  assert ((h ++ x) !! l = Some n) as Hlx by now apply lookup_app_l_Some. pose proof (frozen_mono store 1 c (h ++ x) l' t Hc Hfr) as Hfc.
  pose proof (keeps_load c (h ++ x) l n i i' b (merkle t) l' t Hlx Hbody Hs Hstore Hfc Hi' Hs') as Hkeep.
  set (h' := <[l:=after n (hash n) i']> (h ++ x)) in *. exists l', h'. split; [exact Hd|].
  assert (keeps store c h h') as Hkk by (eapply keeps_trans; [apply keeps_app|exact Hkeep]).
  split; [|split; [apply holds_frozen; eapply frozen_keeps; [exact Hkeep|exact Hfc]|exact Hkk]]. cbn [ctx_at]. split; [eapply frozen_keeps; eauto|]. split; [exact Hb|]. split; [reflexivity|].
  eapply ctx_at_same; [exact Hkk|exact Hk|]. intros l0 Hl0. destruct (open_locs store c h k (ctx_at_open store _ _ _ _ Hk) l0 Hl0) as (k0 & Hk0 & Hco).
  unfold h'. rewrite list_lookup_insert_ne; [rewrite Hk0; now apply lookup_app_l_Some|]. intros ->. assert (k0 = n) as -> by congruence. lia.
Qed.

(** A focus on a branching: where its node is, and the frame that a step takes. *)
Lemma focus_node h m l kids : holds store c h m -> mloc m = Some l -> erase m = Node kids ->
  exists n i, h !! l = Some n /\ body n = InnerBody i /\ inner_ok i /\ length kids = 16%nat /\
    forall b t, kids !! b = Some t -> exists s, slots i !! b = Some s /\ (s = None <-> t = Empty).
Proof.
  intros Hm Hl He. destruct m as [|t|l0 t|l0 ty it|l0 ms]; try discriminate; cbn in Hl, He; injection Hl as ->.
  - subst t. inversion Hm as [| |? ? Hf| |]; subst. inversion Hf as [|? n i ? Hl0 Hcn Hb Hi Hh Hs Hk]; subst. exists n, i.
    repeat (split; [assumption|]). split; [apply Forall2_length in Hs; rewrite slots_length in Hs; congruence|]. intros b t Ht.
    destruct (Forall2_lookup_r _ _ _ _ _ Hs Ht) as (s & Hsb & Hst). exists s. split; [exact Hsb|]. destruct s as [[e [l'|]]|]; cbn in Hst; split; try tauto; discriminate.
  - injection He as <-. inversion Hm as [| | | |? ? Hn Hms]; subst. pose proof (node_ok_length c h l ms Hn) as Hlen.
    destruct Hn as (n & i & Hl0 & Ho & Hb & Hi & Hsl & Hh). exists n, i. repeat (split; [assumption|]). split; [now rewrite length_map|]. intros b t Ht.
    change (map erase ms) with (erase <$> ms) in Ht. rewrite list_lookup_fmap in Ht. destruct (ms !! b) as [mb|] eqn:Hmb; [|discriminate]. injection Ht as <-.
    destruct (Forall2_lookup_r _ _ _ _ _ Hsl Hmb) as (s & Hsb & Hst). exists s. split; [exact Hsb|].
    pose proof (Hms mb (list_elem_of_lookup_2 _ _ _ Hmb)) as Hmbh. inversion Hmbh; subst; cbn in Hst |- *.
    all: (subst s || destruct Hst as [e ->]); split; try tauto; try discriminate.
    intros ->. match goal with Hf : frozen _ _ _ _ Empty |- _ => inversion Hf end.
Qed.

Definition frame_of (m : mtree) (b : nat) : frame :=
  match m with
  | MNode l ms => FOwned l ms b
  | MFrozen l (Node kids) => FFrozen l kids b
  | _ => FFrozen O [] b
  end.

Lemma step_down h k m l kids b t : ctx_at store c h k m -> holds store c h m -> NoDup (clocs k ++ locs m) -> mloc m = Some l -> erase m = Node kids ->
  kids !! b = Some t -> t <> Empty ->
  exists l' h' m', descend_throw l b backed fetch h = (Ok (Some l'), h') /\ ctx_at store c h' (frame_of m b :: k) m' /\ holds store c h' m' /\
    mloc m' = Some l' /\ erase m' = t /\ keeps store c h h' /\ clocs (frame_of m b :: k) ++ locs m' ≡ₚ clocs k ++ locs m.
Proof.
  intros Hk Hm Hnd Hl He Hb Ht. destruct m as [|u|l0 u|l0 ty it|l0 ms]; try discriminate; cbn in Hl, He; injection Hl as ->.
  - subst u. inversion Hm as [| |? ? Hf| |]; subst. inversion Hf as [|? n i ? Hl0 Hcn Hbody Hi Hh Hs Hkids]; subst.
    destruct (Forall2_lookup_r _ _ _ _ _ Hs Hb) as (s & Hsb & Hst). destruct s as [[e [l'|]]|]; cbn in Hst; [| |contradiction].
    + exists l', h, (MFrozen l' t). split; [eapply descend_throw_loaded; eauto|]. split; [cbn; auto|]. split; [apply holds_frozen; eapply Hkids; eauto|].
      split; [reflexivity|]. split; [reflexivity|]. split; [apply keeps_refl|reflexivity].
    + destruct Hst as (_ & -> & Hst). destruct (load_frozen h k l kids b t n i Hk Hf Hb Hl0 Hbody Hsb Hi Hcn Hst) as (l' & h' & Hd & Hc' & Hh' & Hkk).
      exists l', h', (MFrozen l' t). repeat (split; [assumption || reflexivity|]). reflexivity.
  - injection He as <-. change (map erase ms) with (erase <$> ms) in Hb. rewrite list_lookup_fmap in Hb. destruct (ms !! b) as [mb|] eqn:Hmb; [|discriminate]. injection Hb as <-.
    assert (clocs (FOwned l ms b :: k) ++ locs mb ≡ₚ clocs k ++ locs (MNode l ms)) as Hperm.
    { change (clocs (FOwned l ms b :: k)) with (flocs (FOwned l ms b) ++ clocs k). rewrite (Permutation_app_comm (flocs _)), <- app_assoc. apply Permutation_app_head.
      cbn. constructor. symmetry. now apply locs_child. }
    assert (forall s, slot_of s mb -> mloc mb <> None -> exists e, s = Some (e, mloc mb)) as Hloaded by (intros s; destruct mb; cbn; try contradiction; intros [e ->]; eauto).
    inversion Hm as [| | | |? ? Hn Hms]; subst. destruct (mloc mb) as [l'|] eqn:Hml.
    + exists l', h, mb. pose proof Hn as (n & i & Hl0 & Ho & Hbody & Hi & Hsl & Hh). destruct (Forall2_lookup_r _ _ _ _ _ Hsl Hmb) as (s & Hsb & Hst).
      destruct (Hloaded s Hst ltac:(discriminate)) as [e ->]. split; [eapply descend_throw_loaded; eauto|].
      split; [|split; [apply Hms; eapply list_elem_of_lookup_2, Hmb|repeat (split; [reflexivity || exact Hml|]); split; [apply keeps_refl|exact Hperm]]].
      cbn [frame_of ctx_at]. rewrite (list_insert_id ms b mb Hmb). split; [eapply lookup_lt_Some, Hmb|]. split; [exact Hn|]. split; [|exact Hk].
      intros j m _ Hj. apply Hms. eapply list_elem_of_lookup_2, Hj.
    + destruct mb as [|t| | |]; try discriminate; [contradiction|]. destruct (load_owned h k l ms b t Hk Hm Hnd Hmb) as (l' & h' & Hd & Hc' & Hh' & Hkk).
      exists l', h', (MFrozen l' t). repeat (split; [assumption || reflexivity|]). exact Hperm.
Qed.

(** ** The walk *)

(** The entries of the path to the focus, the root first. *)
Fixpoint trail (key : Uint256) (k : list frame) : list NodePathEntry :=
  match k with
  | [] => []
  | f :: k => trail key k ++ [mkEntry (frame_loc f) (id_of (take (length k) (nibbles key)))]
  end.

(** The store stands for the tree [t], and [m] is the part of it that [k] leads to,
    along the path of the key. *)
Record focus (h : heap) (key : Uint256) (k : list frame) (m : mtree) (t : stree) : Prop := {
  focus_ctx : ctx_at store c h k m;
  focus_holds : holds store c h m;
  focus_nodup : NoDup (clocs k ++ locs m);
  focus_tree : plug (shadows k) (erase m) = t;
  focus_path : path_of (shadows k) = take (length k) (nibbles key)
}.

Lemma shadows_lt h k : ctx_open store c h k -> forall kids b, (kids, b) ∈ shadows k -> (b < length kids)%nat.
Proof.
  intros Ho kids b Hin. apply list_elem_of_fmap in Hin as (f & Heq & Hf). specialize (Ho f Hf). destruct f as [l ms b'|l ks b']; cbn in Heq; injection Heq as -> ->.
  - rewrite length_map. apply Ho.
  - apply Ho.
Qed.

Lemma focus_shaped h key k m t : focus h key k m t -> shaped [] t -> ctx_shaped (shadows k) /\ shaped (take (length k) (nibbles key)) (erase m).
Proof.
  intros Hf Hs. rewrite <- (focus_path _ _ _ _ _ Hf). rewrite <- (focus_tree _ _ _ _ _ Hf) in Hs. apply plug_shaped_inv; [|exact Hs].
  eapply shadows_lt, ctx_at_open, Hf.
Qed.

Lemma frame_of_shadow m l kids b : mloc m = Some l -> erase m = Node kids -> shadow (frame_of m b) = (kids, b) /\ frame_loc (frame_of m b) = l.
Proof. intros Hl He. destruct m as [|u|l0 u|l0 ty it|l0 ms]; try discriminate; cbn in Hl, He; injection Hl as ->; [subst u; auto|injection He as <-; auto]. Qed.

Lemma trail_length key k : length (trail key k) = length k.
Proof. induction k as [|f k IH]; [reflexivity|]. cbn. rewrite length_app, IH. cbn. lia. Qed.

Definition leaf_entry (key : Uint256) (k : list frame) (r : option loc) : list NodePathEntry :=
  match r with Some l => [mkEntry l (id_of (take (length k) (nibbles key)))] | None => [] end.

(** What the walk ends at. *)
Definition terminal (m : mtree) (r : option loc) : Prop :=
  match r with
  | None => erase m = Empty
  | Some l => mloc m = Some l /\ exists ty it, erase m = Leaf ty it
  end.

(** A step down leads to the focus on a child. *)
Lemma focus_down h h' key k m l kids t m' b : focus h key k m t -> mloc m = Some l -> erase m = Node kids -> (length k < 64)%nat -> b = nibble key (length k) ->
  kids !! b = Some (erase m') -> ctx_at store c h' (frame_of m b :: k) m' -> holds store c h' m' ->
  clocs (frame_of m b :: k) ++ locs m' ≡ₚ clocs k ++ locs m -> focus h' key (frame_of m b :: k) m' t.
Proof.
  intros [H1 H2 H3 H4 H5] Hl He Hd -> Hb Hc' Hh' Hp. destruct (frame_of_shadow m l kids (nibble key (length k)) Hl He) as [Hsh _].
  constructor; [exact Hc'|exact Hh'|now rewrite Hp| |].
  - unfold shadows. rewrite fmap_cons, Hsh. cbn [plug]. rewrite list_insert_id by exact Hb. now rewrite <- He.
  - unfold shadows in *. rewrite fmap_cons, Hsh, path_of_cons, H5. cbn [length]. now rewrite take_next.
Qed.

(** An empty branch is reached without a step. *)
Lemma focus_empty h key k m l kids t b : focus h key k m t -> mloc m = Some l -> erase m = Node kids -> (length k < 64)%nat -> b = nibble key (length k) ->
  kids !! b = Some Empty -> focus h key (frame_of m b :: k) MEmpty t /\ clocs (frame_of m b :: k) ≡ₚ clocs k ++ locs m.
Proof.
  intros Hf Hl He Hd Hbn Hb.
  assert (ctx_at store c h (frame_of m b :: k) MEmpty /\ clocs (frame_of m b :: k) ++ locs MEmpty ≡ₚ clocs k ++ locs m) as [Hc' Hp].
  { destruct Hf as [H1 H2 H3 _ _]. destruct m as [|u|l0 u|l0 ty it|l0 ms]; try discriminate; cbn in Hl, He; injection Hl as ->.
    - subst u. inversion H2; subst. split; [cbn; auto|]. reflexivity.
    - injection He as <-. change (map erase ms) with (erase <$> ms) in Hb. rewrite list_lookup_fmap in Hb. destruct (ms !! b) as [mb|] eqn:Hmb; [|discriminate].
      injection Hb as Hb. inversion H2 as [| | | |? ? Hn Hms]; subst. assert (mb = MEmpty) as ->.
      { pose proof (Hms mb (list_elem_of_lookup_2 _ _ _ Hmb)) as Hmbh. inversion Hmbh; subst; cbn in Hb; try congruence.
        subst. match goal with Hf : frozen _ _ _ _ Empty |- _ => inversion Hf end. }
      split.
      + cbn [frame_of ctx_at]. rewrite (list_insert_id ms _ MEmpty Hmb). split; [eapply lookup_lt_Some, Hmb|]. split; [exact Hn|]. split; [|exact H1].
        intros j x _ Hj. apply Hms. eapply list_elem_of_lookup_2, Hj.
      + change (clocs (frame_of (MNode l ms) (nibble key (length k)) :: k)) with (flocs (FOwned l ms (nibble key (length k))) ++ clocs k).
        rewrite (Permutation_app_comm (flocs _)), <- app_assoc. apply Permutation_app_head. cbn. constructor. symmetry. exact (locs_child ms _ MEmpty Hmb). }
  split; [|rewrite <- Hp; cbn; now rewrite app_nil_r]. eapply focus_down; eauto. constructor.
Qed.

Lemma loaded_not_empty h m l : holds store c h m -> mloc m = Some l -> erase m <> Empty.
Proof.
  intros Hm Hl He. inversion Hm as [| |l0 u Hf| |]; subst; try discriminate. cbn in He. subst u. inversion Hf.
Qed.

Lemma leaf_node h m l ty it : holds store c h m -> mloc m = Some l -> erase m = Leaf ty it ->
  exists n, h !! l = Some n /\ body n = LeafBody ty it /\ hash n = leaf_digest ty it /\ 0 <= cowid n <= c.
Proof.
  intros Hm Hl He. destruct m as [|u|l0 u|l0 ty' it'|l0 ms]; try discriminate; cbn in Hl, He; injection Hl as ->.
  - subst u. inversion Hm as [| |? ? Hf| |]; subst. inversion Hf as [? n ? ? Hn Hcn Hb Hh|]; subst. exists n. repeat split; auto; lia.
  - inversion Hm as [| | |? n ? ? Hn Hcn Hb Hh|]; subst. injection He as -> ->. exists n. repeat split; auto; lia.
Qed.

Lemma mloc_fill k : forall m m', mloc m = mloc m' -> mloc (mfill k m) = mloc (mfill k m').
Proof. induction k as [|[l ms b|l kids b] k IH]; intros m m' Hm; cbn [mfill]; [exact Hm|now apply IH|reflexivity]. Qed.

Lemma mloc_frame_of m b k m' l kids : mloc m = Some l -> erase m = Node kids -> mloc (mfill (frame_of m b :: k) m') = mloc (mfill k m).
Proof.
  intros Hl He. destruct m as [|u|l0 u|l0 ty it|l0 ms]; try discriminate; cbn in Hl, He; injection Hl as ->; [subst u; reflexivity|].
  cbn [frame_of mfill]. now apply mloc_fill.
Qed.

Lemma walk_spec key t : is_key key -> shaped [] t -> forall fuel h k m l, (65 <= fuel + length k)%nat -> focus h key k m t -> mloc m = Some l ->
  exists h' k' m' r, walk_loop fuel l (id_of (take (length k) (nibbles key))) key backed fetch (trail key k) h = (Ok (r, trail key k' ++ leaf_entry key k' r), h') /\
    keeps store c h h' /\ focus h' key k' m' t /\ terminal m' r /\ mloc (mfill k' m') = mloc (mfill k m).
Proof.
  intros Hkey Ht. induction fuel as [|fuel IH]; intros h k m l Hfuel Hf Hl; destruct (focus_shaped _ _ _ _ _ Hf Ht) as [_ Hsh];
  pose proof (loaded_not_empty h m l (focus_holds _ _ _ _ _ Hf) Hl) as Hne; destruct (erase m) as [|ty it|kids] eqn:He; try contradiction.
  1, 3: destruct (leaf_node h m l ty it (focus_holds _ _ _ _ _ Hf) Hl He) as (n & Hn & Hb & _); exists h, k, m, (Some l);
    (split; [|split; [apply keeps_refl|split; [exact Hf|split; [cbn; eauto|reflexivity]]]]);
    cbn [walk_loop]; run (read_ok (E := TraversalError) l h n Hn); unfold is_inner; rewrite Hb; reflexivity.
  all: inversion Hsh as [| |? ? Hp Hd Hlen Hkids]; subst; rewrite length_take, nibbles_length in Hd; assert (length k < 64)%nat as Hdk by lia.
  1: lia.
  destruct (focus_node h m l kids (focus_holds _ _ _ _ _ Hf) Hl He) as (n & i & Hn & Hb & Hi & _ & Hslots).
  set (b := nibble key (length k)). assert (b < 16)%nat as Hb16 by (apply nibble_lt, Hkey).
  destruct (lookup_lt_is_Some_2 kids b) as [u Hu]; [lia|]. destruct (Hslots b u Hu) as (s & Hs & Hsu).
  assert (length (take (length k) (nibbles key)) = length k) as Htl by (rewrite length_take, nibbles_length; lia).
  destruct (frame_of_shadow m l kids b Hl He) as [_ Hfl].
  cbn [walk_loop]. run (read_ok (E := TraversalError) l h n Hn). rewrite (node_is_inner n i Hb).
  assert (select_branch (E := TraversalError) (id_of (take (length k) (nibbles key))) key = Ok b) as Hsel by (rewrite select_branch_path by (auto; lia); now rewrite Htl).
  run (lift_ok _ _ h Hsel). run (lift_ok _ _ h (is_empty_branch_slots (E := TraversalError) n i Hb b s Hs)).
  assert (trail key k ++ [mkEntry l (id_of (take (length k) (nibbles key)))] = trail key (frame_of m b :: k)) as -> by (cbn; now rewrite Hfl).
  destruct (decide (u = Empty)) as [Hue|Hue].
  - rewrite bool_decide_true by tauto. subst u. destruct (focus_empty h key k m l kids t b Hf Hl He Hdk eq_refl Hu) as [Hf' _].
    exists h, (frame_of m b :: k), MEmpty, None. split; [now rewrite app_nil_r|]. split; [apply keeps_refl|]. split; [exact Hf'|]. split; [reflexivity|].
    now apply (mloc_frame_of m b k MEmpty l kids).
  - rewrite bool_decide_false by tauto.
    destruct (step_down h k m l kids b u (focus_ctx _ _ _ _ _ Hf) (focus_holds _ _ _ _ _ Hf) (focus_nodup _ _ _ _ _ Hf) Hl He Hu Hue)
      as (l' & h' & m' & Hd' & Hc' & Hh' & Hl' & He' & Hkk & Hp'). run Hd'.
    assert (expect (F := TraversalError) (get_child_node_id (id_of (take (length k) (nibbles key))) b) = Ok (id_of (take (S (length k)) (nibbles key)))) as Hid.
    { rewrite child_id_path by (auto; lia). cbn [expect]. now rewrite take_next. }
    run (lift_ok _ _ h' Hid).
    destruct (IH h' (frame_of m b :: k) m' l') as (h2 & k2 & m2 & r & Hw & Hk2 & Hf2 & Ht2 & Hp2); [cbn; lia| |exact Hl'|].
    { eapply focus_down; eauto. now rewrite He'. }
    exists h2, k2, m2, r. split; [exact Hw|]. split; [eapply keeps_trans; eassumption|]. split; [exact Hf2|]. split; [exact Ht2|].
    rewrite Hp2. now apply (mloc_frame_of m b k m' l kids).
Qed.

End Down.

End Walk.
