(* ===== verification/ShamapOrder.v ===== *)
(** * ShamapOrder: walking over the items of a SHAMap in order

    Models [xrpl/shamap/src/traverse/iteration.rs].  The functions keep a stack of the nodes
    on the way to a leaf, here with its top first.  On a tree that is frozen they visit its
    items from left to right, which is the order of their keys: [upper_bound] finds the
    first item after a key, [lower_bound] the last one before it and [iterate_from] as many
    of the following items as are asked for. *)

From stdpp Require Import gmap list.
From Stdlib Require Import ZArith Lia.
From S2P Require Import Prelude Serializer ShamapKey ShamapNode ShamapSlots ShamapTree ShamapHeap ShamapRepr ShamapWalk.
Local Open Scope Z_scope.

Section Order.
Context `{Sha512} (backed : bool) (fetch : Fetch).

(** The loops over branches end at the first one that is not empty. *)
Fixpoint child_among (branches : list nat) (node : loc) (node_id : SHAMapNodeId) : M TraversalError (option (loc * SHAMapNodeId)) :=
  match branches with
  | [] => mret None
  | branch :: branches =>
      n ← read node;
      empty ← lift (is_empty_branch n branch);
      if (empty : bool) then child_among branches node node_id
      else
        child ← descend_throw node branch backed fetch;
        match child with
        | None => lift Panic
        | Some child => child_id ← lift (expect (get_child_node_id node_id branch)); mret (Some (child, child_id))
        end
  end.

Definition next_child_in_order := child_among (seq 0 BRANCH_FACTOR).
Definition previous_child_in_order := child_among (rev (seq 0 BRANCH_FACTOR)).

(** The leaf, and the stack with all nodes on the way pushed. *)
Fixpoint extreme_below (fuel : nat) (forward : bool) (node : loc) (node_id : SHAMapNodeId) (stack : list NodePathEntry)
    : M TraversalError (option loc * list NodePathEntry) :=
  let stack := mkEntry node node_id :: stack in
  n ← read node;
  if is_leaf n then mret (Some node, stack)
  else
    match fuel with
    | O => lift OutOfFuel
    | S fuel =>
        next ← (if forward then next_child_in_order node node_id else previous_child_in_order node node_id);
        match next with
        | None => mret (None, stack)
        | Some (child, child_id) => extreme_below fuel forward child child_id stack
        end
    end.

Definition first_below := extreme_below LEVELS true.
Definition last_below := extreme_below LEVELS false.

Definition peek_first_item (root : loc) : M TraversalError (option loc * list NodePathEntry) :=
  r ← first_below root root_id [];
  mret (r.1, match r.1 with Some _ => r.2 | None => [] end).

Fixpoint next_loop (id : Uint256) (stack : list NodePathEntry) : M TraversalError (option loc * list NodePathEntry) :=
  match stack with
  | [] => mret (None, [])
  | entry :: below =>
      n ← read (node entry);
      debug_assert (is_inner n);;
      branch ← lift (select_branch (node_id entry) id);
      next ← child_among (seq (S branch) (BRANCH_FACTOR - S branch)) (node entry) (node_id entry);
      match next with
      | Some (child, child_id) => first_below child child_id stack
      | None => next_loop id below
      end
  end.

(** Both assertions hold in release builds too. *)
Definition peek_next_item (id : Uint256) (stack : list NodePathEntry) : M TraversalError (option loc * list NodePathEntry) :=
  match stack with
  | [] => lift Panic
  | entry :: below =>
      n ← read (node entry);
      debug_assert (is_leaf n);;
      next_loop id below
  end.

(** Beyond the key, in the direction of the search. *)
Definition beyond (forward : bool) (id : Uint256) (n : SHAMapTreeNode) : bool :=
  match peek_item n with
  | Some item => if forward then key_ltb id (item_key item) else key_ltb (item_key item) id
  | None => false
  end.

(** The loops of [upper_bound] (forward) and [lower_bound]. *)
Fixpoint bound_loop (forward : bool) (id : Uint256) (stack : list NodePathEntry) : M TraversalError (option loc) :=
  match stack with
  | [] => mret None
  | entry :: below =>
      n ← read (node entry);
      if is_leaf n then
        if beyond forward id n then mret (Some (node entry)) else bound_loop forward id below
      else
        branch ← lift (select_branch (node_id entry) id);
        next ← child_among (if forward then seq (S branch) (BRANCH_FACTOR - S branch) else rev (seq 0 branch)) (node entry) (node_id entry);
        match next with
        | Some (child, child_id) => r ← (if forward then first_below child child_id [] else last_below child child_id []); mret r.1
        | None => bound_loop forward id below
        end
  end.

Definition upper_bound (root : loc) (id : Uint256) : M TraversalError (option loc) :=
  r ← walk_towards_key_with_path root id backed fetch;
  bound_loop true id (rev r.2).

Definition lower_bound (root : loc) (id : Uint256) : M TraversalError (option loc) :=
  r ← walk_towards_key_with_path root id backed fetch;
  bound_loop false id (rev r.2).

(** The loop ['seek]: the leaf that is found with its stack.  Below a branching without
    items nothing is found, and the loop goes on with the same branch. *)
Fixpoint seek_loop (fuel : nat) (start : Uint256) (stack : list NodePathEntry) : M TraversalError (option (loc * list NodePathEntry)) :=
  match fuel, stack with
  | O, _ => lift OutOfFuel
  | _, [] => mret None
  | S fuel, entry :: below =>
      n ← read (node entry);
      if is_leaf n then
        if beyond true start n then mret (Some (node entry, stack)) else seek_loop fuel start below
      else
        branch ← lift (select_branch (node_id entry) start);
        next ← child_among (seq (S branch) (BRANCH_FACTOR - S branch)) (node entry) (node_id entry);
        match next with
        | Some (child, child_id) =>
            r ← first_below child child_id stack;
            match r.1 with
            | Some leaf => mret (Some (leaf, r.2))
            | None => seek_loop fuel start r.2
            end
        | None => seek_loop fuel start below
        end
  end.

(** The key of a leaf; a leaf without an item is a panic. *)
Definition leaf_key (leaf : loc) : M TraversalError Uint256 :=
  n ← read leaf; match peek_item n with Some item => mret (item_key item) | None => lift Panic end.

Fixpoint collect (more : nat) (current_key : Uint256) (stack : list NodePathEntry) : M TraversalError (list loc) :=
  match more with
  | O => mret []
  | S more =>
      r ← peek_next_item current_key stack;
      match r.1 with
      | None => mret []
      | Some leaf => key ← leaf_key leaf; rest ← collect more key r.2; mret (leaf :: rest)
      end
  end.

Definition iterate_from (root : loc) (start : Uint256) (limit : nat) : M TraversalError (list loc) :=
  match limit with
  | O => mret []
  | S more =>
      r ← walk_towards_key_with_path root start backed fetch;
      found ← seek_loop LEVELS start (rev r.2);
      match found with
      | None => mret []
      | Some (leaf, stack) => key ← leaf_key leaf; rest ← collect more key stack; mret (leaf :: rest)
      end
  end.

End Order.

(** ** The items on either side *)

(** All branches, and those on one side of a branch, from the nearest. *)
Definition order (forward : bool) : list nat := if forward then seq 0 16 else rev (seq 0 16).
Definition scan (forward : bool) (b : nat) : list nat := if forward then seq (S b) (16 - S b) else rev (seq 0 b).

Definition items (forward : bool) (t : stree) : list content := if forward then leaves t else rev (leaves t).
Definition side (forward : bool) (k : sctx) : list content := if forward then (around k).2 else rev (around k).1.

Definition kid (kids : list stree) (b : nat) : stree := default Empty (kids !! b).
Definition items_at (forward : bool) (kids : list stree) (bs : list nat) : list content := concat (map (fun b => items forward (kid kids b)) bs).

Lemma seq_suffix a n pre b post : seq a n = pre ++ b :: post -> post = seq (S b) (a + n - S b) /\ (a <= b < a + n)%nat.
Proof.
  revert a n. induction pre as [|x pre IH]; intros a [|n] Heq; try discriminate; cbn in Heq; injection Heq as -> Heq.
  - split; [rewrite <- Heq; f_equal; lia|lia].
  - destruct (IH _ _ Heq) as [-> Hb]. split; [f_equal; lia|lia].
Qed.

Lemma rev_seq_suffix n pre b post : rev (seq 0 n) = pre ++ b :: post -> post = rev (seq 0 b) /\ (b < n)%nat.
Proof.
  revert pre. induction n as [|n IH]; intros pre Heq; [destruct pre; discriminate|]. rewrite seq_S, rev_app_distr in Heq. cbn [rev app Nat.add] in Heq.
  destruct pre as [|x pre]; injection Heq as -> Heq; [split; [symmetry; exact Heq|lia]|]. destruct (IH _ Heq) as [-> Hb]. split; [reflexivity|lia].
Qed.

Lemma order_suffix forward pre b post : order forward = pre ++ b :: post -> post = scan forward b /\ (b < 16)%nat.
Proof. destruct forward; intros Heq; [apply seq_suffix in Heq as [-> Hb]|apply rev_seq_suffix in Heq as [-> Hb]]; (split; [reflexivity|lia]). Qed.

Lemma scan_suffix forward a pre b post : (a < 16)%nat -> scan forward a = pre ++ b :: post -> post = scan forward b /\ (b < 16)%nat.
Proof.
  intros Ha. destruct forward; intros Heq; [apply seq_suffix in Heq as [-> Hb]|apply rev_seq_suffix in Heq as [-> Hb]]; (split; [|lia]); [cbn [scan]; f_equal; lia|reflexivity].
Qed.

Lemma items_run kids a n : (a + n <= length kids)%nat -> items_at true kids (seq a n) = concat (map leaves (take n (drop a kids))).
Proof.
  revert a. induction n as [|n IH]; intros a Hle; [reflexivity|]. destruct (lookup_lt_is_Some_2 kids a) as [s Hs]; [lia|].
  rewrite (drop_S _ s _ Hs). cbn. unfold kid at 1. rewrite Hs. cbn. f_equal. apply IH. lia.
Qed.

Lemma items_rev kids bs : items_at false kids (rev bs) = rev (items_at true kids bs).
Proof.
  induction bs as [|b bs IH]; [reflexivity|]. cbn [rev]. unfold items_at in *. rewrite map_app, concat_app, IH. cbn. rewrite rev_app_distr, app_nil_r. reflexivity.
Qed.

Lemma items_node forward kids : length kids = 16%nat -> items forward (Node kids) = items_at forward kids (order forward).
Proof.
  intros Hl. assert (items_at true kids (seq 0 16) = leaves (Node kids)) as Heq by (rewrite items_run by lia; rewrite drop_0, take_ge by lia; reflexivity).
  destruct forward; cbn [items order]; [now rewrite Heq|]. now rewrite items_rev, Heq.
Qed.

Lemma side_cons forward kids b k : length kids = 16%nat -> (b < 16)%nat -> side forward ((kids, b) :: k) = items_at forward kids (scan forward b) ++ side forward k.
Proof.
  intros Hl Hb. unfold side. cbn [around]. destruct (around k) as [l r]. destruct forward; cbn [fst snd scan].
  - rewrite items_run by lia. f_equal. rewrite take_ge; [reflexivity|]. rewrite length_drop. lia.
  - rewrite rev_app_distr, items_rev, items_run by lia. now rewrite drop_0.
Qed.

Lemma items_split forward kids pre b post : (forall j, j ∈ pre -> kid kids j = Empty) ->
  items_at forward kids (pre ++ b :: post) = items forward (kid kids b) ++ items_at forward kids post.
Proof.
  intros Hpre. unfold items_at. rewrite map_app, concat_app. cbn [map concat]. replace (concat (map (fun b => items forward (kid kids b)) pre)) with (@nil content); [reflexivity|].
  symmetry. apply concat_nil_Forall, Forall_forall. intros x Hx. apply list_elem_of_In, in_map_iff in Hx as (j & <- & Hj). rewrite Hpre by now apply list_elem_of_In. now destruct forward.
Qed.

Lemma items_none forward kids bs : (forall j, j ∈ bs -> kid kids j = Empty) -> items_at forward kids bs = [].
Proof.
  intros Hbs. apply concat_nil_Forall, Forall_forall. intros x Hx. apply list_elem_of_In, in_map_iff in Hx as (j & <- & Hj). rewrite Hbs by now apply list_elem_of_In. now destruct forward.
Qed.

Lemma in_rev_elem {A} (l : list A) x : x ∈ rev l <-> x ∈ l.
Proof. rewrite !list_elem_of_In. symmetry. apply in_rev. Qed.

Lemma items_nil forward t : items forward t = [] <-> leaves t = [].
Proof. destruct forward; [reflexivity|]. cbn. split; intros Hx; [|now rewrite Hx]. rewrite <- (rev_involutive (leaves t)), Hx. reflexivity. Qed.

(** Along the path of a key, what is on the left has smaller keys and what is on the right
    greater ones. *)
Lemma side_order forward key k : is_key key -> ctx_shaped k -> take (length k) (nibbles key) = path_of k -> forall x, x ∈ side forward k ->
  if forward then key_ltb key (ckey x) = true else key_ltb (ckey x) key = true.
Proof.
  intros Hkey. induction k as [|[kids b] k IH]; intros Hc Hk x Hx; [unfold side in Hx; destruct forward; inversion Hx|].
  destruct Hc as (Hp & Hl & Hkids & Hb & Hs & Hc). rewrite path_of_cons in Hk. cbn [length] in Hk. rewrite take_next in Hk by lia. apply app_inj_tail in Hk as [Hk Hn].
  rewrite side_cons in Hx by assumption. apply elem_of_app in Hx as [Hx|Hx]; [|now apply IH].
  unfold items_at in Hx. apply list_elem_of_In, in_concat in Hx as (y & Hy & Hx). apply in_map_iff in Hy as (j & <- & Hj). apply list_elem_of_In in Hx.
  assert (x ∈ leaves (kid kids j)) as Hxj by (destruct forward; [exact Hx|apply list_elem_of_In in Hx; apply list_elem_of_In, in_rev, Hx]). clear Hx.
  unfold kid in Hxj. destruct (kids !! j) as [s|] eqn:Hjs; [|inversion Hxj]. cbn in Hxj.
  assert (j <> b) as Hjb by (intros ->; destruct forward; cbn in Hj; [apply in_seq in Hj; lia|apply in_rev, in_seq in Hj; lia]).
  pose proof (Hs j s Hjb Hjs) as Hsj. destruct (shaped_leaves _ _ Hsj x Hxj) as (_ & [Kx _] & Px). fold (ckey x) in Kx.
  pose proof (shaped_branch (path_of k) j s x Hsj ltac:(rewrite path_of_length; exact Hl) Hxj) as Hbr. rewrite path_of_length in Hbr.
  assert (forall i, (i < length k)%nat -> nibble (ckey x) i = nibble key i) as Hpre.
  { intros i Hi. rewrite length_app, path_of_length in Px. cbn [length] in Px. apply (f_equal (fun l => nth i l O)) in Px, Hk.
    rewrite nth_take, nth_nibbles, app_nth1 in Px by (rewrite ?path_of_length; lia). rewrite nth_take, nth_nibbles in Hk by lia. congruence. }
  destruct forward; apply key_lt_parts; try assumption; exists (length k); (split; [exact Hl|]); (split; [intros i Hi; rewrite Hpre by exact Hi; reflexivity|]).
  - apply in_seq in Hj. lia.
  - apply in_rev, in_seq in Hj. lia.
Qed.

Section Spec.
Context `{Sha512} (store : ghost) (c : Z) (Hc : 1 <= c) (backed : bool) (fetch : Fetch) (Hfetch : fetch_ok store backed fetch).

(** ** Steps on a frozen tree *)

Lemma frozen_down h l kids b s : frozen store c h l (Node kids) -> kids !! b = Some s -> s <> Empty ->
  exists l' h', descend_throw l b backed fetch h = (Ok (Some l'), h') /\ frozen store c h' l' s /\ keeps store c h h'.
Proof.
  intros Hf Hb Hs. destruct (step_down store c Hc backed fetch Hfetch h [] (MFrozen l (Node kids)) l kids b s I (holds_frozen store c h l _ Hf) ltac:(constructor) eq_refl eq_refl Hb Hs)
    as (l' & h' & m' & Hd & Hctx & Hm & Hl & He & Hk & _).
  exists l', h'. split; [exact Hd|]. split; [|exact Hk]. cbn in Hctx. destruct Hctx as (_ & _ & Hlocs & _).
  destruct m' as [| |l0 t0|l0 ty it|l0 ms]; try discriminate. cbn in Hl, He. injection Hl as ->. subst t0. now inversion Hm.
Qed.

Lemma frozen_read h l t : frozen store c h l t -> exists n, h !! l = Some n /\
  is_leaf n = (match t with Node _ => false | _ => true end) /\ peek_item n = (match t with Leaf _ it => Some it | _ => None end).
Proof. intros Hf. inversion Hf as [? n ty it Hl _ Hb|? n i kids Hl _ Hb]; subst; exists n; unfold is_leaf, is_inner, peek_item; rewrite Hb; auto. Qed.

Lemma frozen_branch {E} h l kids b : frozen store c h l (Node kids) -> (b < 16)%nat ->
  exists n, h !! l = Some n /\ is_empty_branch (E := E) n b = Ok (bool_decide (kid kids b = Empty)).
Proof.
  intros Hf Hb. inversion Hf as [|? n i ? Hl _ Hbody Hi _ Hs _]; subst. exists n. split; [exact Hl|].
  destruct (lookup_lt_is_Some_2 (slots i) b) as [x Hx]; [rewrite slots_length; exact Hb|]. rewrite (is_empty_branch_slots n i Hbody b x Hx).
  destruct (Forall2_lookup_l _ _ _ _ _ Hs Hx) as (t & Ht & Hxt). unfold kid. rewrite Ht. cbn. f_equal. apply bool_decide_ext. destruct x as [[e [l'|]]|]; cbn in Hxt; split; try tauto; discriminate.
Qed.

(** The first branch that leads on. *)
Lemma child_among_spec bs h l kids p : frozen store c h l (Node kids) -> length kids = 16%nat -> path_ok p -> (length p < 64)%nat -> (forall j, j ∈ bs -> (j < 16)%nat) ->
  (child_among backed fetch bs l (id_of p) h = (Ok None, h) /\ forall j, j ∈ bs -> kid kids j = Empty) \/
  exists pre b post l' h', bs = pre ++ b :: post /\ (forall j, j ∈ pre -> kid kids j = Empty) /\ kids !! b = Some (kid kids b) /\ kid kids b <> Empty /\
    child_among backed fetch bs l (id_of p) h = (Ok (Some (l', id_of (p ++ [b]))), h') /\ frozen store c h' l' (kid kids b) /\ keeps store c h h'.
Proof.
  intros Hf Hlen Hp Hl. induction bs as [|b bs IH]; intros Hbs; [left; split; [reflexivity|]; intros j Hj; inversion Hj|].
  pose proof (Hbs b ltac:(left)) as Hb. destruct (frozen_branch (E := TraversalError) h l kids b Hf Hb) as (n & Hn & He).
  cbn [child_among]. run (read_ok (E := TraversalError) l h n Hn). run (lift_ok _ _ h He). case_bool_decide as Hk.
  - destruct (IH (fun j Hj => Hbs j (list_elem_of_further _ _ _ Hj))) as [[Hr Hall]|(pre & b' & post & l' & h' & -> & Hpre & Hrest)].
    + left. split; [exact Hr|]. intros j Hj. apply elem_of_cons in Hj as [->|Hj]; auto.
    + right. exists (b :: pre), b', post, l', h'. split; [reflexivity|]. split; [|exact Hrest]. intros j Hj. apply elem_of_cons in Hj as [->|Hj]; auto.
  - right. assert (kids !! b = Some (kid kids b)) as Hkb.
    { unfold kid. destruct (lookup_lt_is_Some_2 kids b) as [s ->]; [lia|]. reflexivity. }
    destruct (frozen_down h l kids b _ Hf Hkb Hk) as (l' & h' & Hd & Hf' & Hkeep). exists [], b, bs, l', h'. split; [reflexivity|]. split; [intros j Hj; inversion Hj|].
    split; [exact Hkb|]. split; [exact Hk|]. split; [|auto]. run Hd. rewrite child_id_path by assumption. reflexivity.
Qed.

(** ** Where a walk is *)

(** The stack of the branchings [k] above the subtree [s]. *)
Inductive place (h : heap) : sctx -> stree -> list NodePathEntry -> Prop :=
| place_root t : place h [] t []
| place_down kids b k s l stack : place h k (Node kids) stack -> frozen store c h l (Node kids) -> kids !! b = Some s ->
    place h ((kids, b) :: k) s (mkEntry l (id_of (path_of k)) :: stack).

Lemma place_keeps h h' k s stack : keeps store c h h' -> place h k s stack -> place h' k s stack.
Proof. intros Hk. induction 1; constructor; auto. eapply frozen_keeps; eauto. Qed.

Context (t : stree) (Ht : rooted t).

Definition placed (h : heap) (k : sctx) (s : stree) (stack : list NodePathEntry) : Prop := place h k s stack /\ plug k s = t.

Lemma placed_keeps h h' k s stack : keeps store c h h' -> placed h k s stack -> placed h' k s stack.
Proof. intros Hk [Hp Hs]. split; [eapply place_keeps; eauto|exact Hs]. Qed.

Lemma placed_up h kids b k s l stack : placed h ((kids, b) :: k) s (l :: stack) -> placed h k (Node kids) stack /\ kids !! b = Some s /\
  node_id l = id_of (path_of k) /\ frozen store c h (node l) (Node kids).
Proof.
  intros [Hp Hs]. inversion Hp as [|? ? ? ? l' ? Hp' Hf Hb]; subst. split; [split; [exact Hp'|]|auto]. cbn [plug] in Hs. now rewrite list_insert_id in Hs by exact Hb.
Qed.

Lemma placed_down h k kids b s l stack : placed h k (Node kids) stack -> frozen store c h l (Node kids) -> kids !! b = Some s ->
  placed h ((kids, b) :: k) s (mkEntry l (id_of (path_of k)) :: stack).
Proof. intros [Hp Hs] Hf Hb. split; [now constructor|]. cbn [plug]. now rewrite list_insert_id by exact Hb. Qed.

Lemma place_bound h k s stack : place h k s stack -> forall kids b, (kids, b) ∈ k -> (b < length kids)%nat.
Proof. induction 1 as [|kids b k s l stack Hp IH Hf Hb]; intros kids' b' Hin; [inversion Hin|]. apply elem_of_cons in Hin as [[= -> ->]|Hin]; [eapply lookup_lt_Some, Hb|eauto]. Qed.

Lemma placed_shaped h k s stack : placed h k s stack -> ctx_shaped k /\ shaped (path_of k) s.
Proof. intros [Hp Hs]. apply plug_shaped_inv; [eapply place_bound, Hp|]. rewrite Hs. now destruct Ht as (kids & -> & Hsh & _). Qed.

Lemma placed_compact h k s stack : placed h k s stack -> k <> [] -> compact s.
Proof. intros Hp Hk. destruct (placed_shaped h k s stack Hp) as [Hsh _]. destruct Hp as [_ Hs]. eapply rooted_inv; [exact Hk|exact Hsh|]. now rewrite Hs. Qed.

Lemma placed_node h k kids stack : placed h k (Node kids) stack -> length kids = 16%nat /\ path_ok (path_of k) /\ (length (path_of k) < 64)%nat /\ forall s, s ∈ kids -> compact s.
Proof.
  intros Hp. destruct (placed_shaped h k _ stack Hp) as [_ Hs]. inversion Hs as [| |? ? H1 H2 H3 _]; subst. repeat (split; [assumption|]). destruct (decide (k = [])) as [->|Hk].
  - destruct Hp as [_ Hp]. cbn in Hp. destruct Ht as (ks & Heq & _ & Hks). rewrite Heq in Hp. injection Hp as ->. exact Hks.
  - pose proof (placed_compact h k _ stack Hp Hk) as Hcp. now inversion Hcp.
Qed.

Lemma compact_items u : compact u -> u <> Empty -> leaves u <> [].
Proof. intros Hu He Hl. apply compact_count in Hu. destruct u; [contradiction|rewrite Hl in Hu; discriminate|rewrite Hl in Hu; cbn in Hu; lia]. Qed.

(** The first branch that leads on, and the items beyond it. *)
Lemma scan_spec forward bs h k kids stack l : placed h k (Node kids) stack -> frozen store c h l (Node kids) ->
  (bs = order forward \/ exists a, (a < 16)%nat /\ bs = scan forward a) ->
  (child_among backed fetch bs l (id_of (path_of k)) h = (Ok None, h) /\ items_at forward kids bs = []) \/
  exists b l' h', child_among backed fetch bs l (id_of (path_of k)) h = (Ok (Some (l', id_of (path_of ((kids, b) :: k)))), h') /\ keeps store c h h' /\
    frozen store c h' l' (kid kids b) /\ placed h' ((kids, b) :: k) (kid kids b) (mkEntry l (id_of (path_of k)) :: stack) /\ leaves (kid kids b) <> [] /\
    items_at forward kids bs ++ side forward k = items forward (kid kids b) ++ side forward ((kids, b) :: k).
Proof.
  intros Hp Hf Hbs. destruct (placed_node h k kids stack Hp) as (Hlen & Hpath & H64 & Hcomp).
  assert (forall pre b post, bs = pre ++ b :: post -> post = scan forward b /\ (b < 16)%nat) as Hsuf.
  { intros pre b post Heq. destruct Hbs as [->|(a & Ha & ->)]; [eapply order_suffix, Heq|eapply scan_suffix; [exact Ha|exact Heq]]. }
  destruct (child_among_spec bs h l kids (path_of k) Hf Hlen Hpath H64) as [[Hr Hall]|(pre & b & post & l' & h' & Heq & Hpre & Hkb & Hne & Hr & Hf' & Hkeep)].
  - intros j Hj. apply list_elem_of_split in Hj as (pre & post & Heq). exact (proj2 (Hsuf _ _ _ Heq)).
  - left. split; [exact Hr|now apply items_none].
  - right. destruct (Hsuf _ _ _ Heq) as [Hpost Hb]. exists b, l', h'. rewrite path_of_cons. split; [exact Hr|]. split; [exact Hkeep|]. split; [exact Hf'|].
    split; [apply placed_down; [eapply placed_keeps; eauto|eapply frozen_keeps; eauto|exact Hkb]|]. split; [apply compact_items; [eapply Hcomp, list_elem_of_lookup_2, Hkb|exact Hne]|].
    rewrite Heq, items_split, side_cons, Hpost by assumption. now rewrite <- app_assoc.
Qed.

(** ** Down to the nearest leaf *)

Lemma below_spec forward s : forall h k stack l fuel, placed h k s stack -> frozen store c h l s -> leaves s <> [] -> (65 <= fuel + length k)%nat ->
  exists h' k' l' x stack', extreme_below backed fetch fuel forward l (id_of (path_of k)) stack h = (Ok (Some l', mkEntry l' (id_of (path_of k')) :: stack'), h') /\ keeps store c h h' /\
    placed h' k' (Leaf x.1 x.2) stack' /\ frozen store c h' l' (Leaf x.1 x.2) /\ x :: side forward k' = items forward s ++ side forward k.
Proof.
  induction s as [|ty it|kids IH] using stree_ind'; intros h k stack l fuel Hp Hf Hne Hfuel; [contradiction| |]; destruct (frozen_read h l _ Hf) as (n & Hn & Hleaf & _).
  - exists h, k, l, (ty, it), stack. split; [|split; [apply keeps_refl|split; [exact Hp|split; [exact Hf|now destruct forward]]]].
    destruct fuel; cbn [extreme_below]; run (read_ok (E := TraversalError) l h n Hn); rewrite Hleaf; reflexivity.
  - destruct (placed_node h k kids stack Hp) as (Hlen & _ & H64 & _). rewrite path_of_length in H64. destruct fuel as [|fuel]; [lia|].
    cbn [extreme_below]. run (read_ok (E := TraversalError) l h n Hn). rewrite Hleaf.
    assert ((if forward then next_child_in_order backed fetch l (id_of (path_of k)) else previous_child_in_order backed fetch l (id_of (path_of k))) =
      child_among backed fetch (order forward) l (id_of (path_of k))) as -> by now destruct forward.
    rewrite (items_node forward kids Hlen).
    destruct (scan_spec forward (order forward) h k kids stack l Hp Hf (or_introl eq_refl)) as [[_ Hnone]|(b & l1 & h1 & Hr & Hk1 & Hf1 & Hp1 & Hne1 & Hit)].
    { exfalso. apply Hne, (items_nil forward). now rewrite (items_node forward kids Hlen). }
    run Hr. assert (kid kids b ∈ kids) as Hin by (destruct (placed_up _ _ _ _ _ _ _ Hp1) as (_ & Hkb & _); eapply list_elem_of_lookup_2, Hkb).
    rewrite Forall_forall in IH. destruct (IH _ Hin h1 _ _ l1 fuel Hp1 Hf1 Hne1 ltac:(cbn [length]; lia)) as (h2 & k2 & l2 & x & stack2 & Hr2 & Hk2 & Hp2 & Hf2 & Hit2).
    exists h2, k2, l2, x, stack2. split; [exact Hr2|]. split; [eapply keeps_trans; eassumption|]. split; [exact Hp2|]. split; [exact Hf2|]. now rewrite Hit2, Hit.
Qed.

(** A stack that ends at the first of the items [xs], the others being what follows. *)
Definition stops (h : heap) (xs : list content) (leaf : loc) (stack : list NodePathEntry) : Prop :=
  exists x k stack', xs = x :: side true k /\ stack = mkEntry leaf (id_of (path_of k)) :: stack' /\ placed h k (Leaf x.1 x.2) stack' /\ frozen store c h leaf (Leaf x.1 x.2).

Lemma first_spec h k s stack l : placed h k s stack -> frozen store c h l s -> leaves s <> [] ->
  exists h' leaf stack', first_below backed fetch l (id_of (path_of k)) stack h = (Ok (Some leaf, stack'), h') /\ keeps store c h h' /\ stops h' (leaves s ++ side true k) leaf stack'.
Proof.
  intros Hp Hf Hne. destruct (below_spec true s h k stack l LEVELS Hp Hf Hne ltac:(unfold LEVELS; lia)) as (h2 & k2 & l2 & x & stack2 & Hr2 & Hk2 & Hp2 & Hf2 & Hit2).
  exists h2, l2, (mkEntry l2 (id_of (path_of k2)) :: stack2). split; [exact Hr2|]. split; [exact Hk2|]. exists x, k2, stack2. auto.
Qed.

(** ** Along the path of a key *)

Section Key.
Context (key : Uint256) (Hkey : is_key key).

Definition towards (k : sctx) : Prop := take (length k) (nibbles key) = path_of k.

Lemma towards_up kids b k : towards ((kids, b) :: k) -> (length k < 64)%nat -> towards k /\ b = nibble key (length k).
Proof. unfold towards. intros Hk Hl. rewrite path_of_cons in Hk. cbn [length] in Hk. rewrite take_next in Hk by exact Hl. apply app_inj_tail in Hk as [Hk <-]. auto. Qed.

Lemma towards_down kids k : towards k -> (length k < 64)%nat -> towards ((kids, nibble key (length k)) :: k).
Proof. unfold towards. intros Hk Hl. rewrite path_of_cons, <- Hk. cbn [length]. now rewrite take_next by exact Hl. Qed.

(** The place the walk towards the key ends at. *)
Definition end_at (h : heap) (k : sctx) (s : stree) (r : option loc) : Prop :=
  match r with None => s = Empty | Some l => exists ty it, s = Leaf ty it /\ frozen store c h l s end.

Definition top (k : sctx) (r : option loc) : list NodePathEntry := match r with Some l => [mkEntry l (id_of (path_of k))] | None => [] end.

Lemma walk_place fuel : forall h k s stack l, placed h k s stack -> frozen store c h l s -> towards k -> (65 <= fuel + length k)%nat ->
  exists h' k' s' stack' r, walk_loop fuel l (id_of (path_of k)) key backed fetch (rev stack) h = (Ok (r, rev (top k' r ++ stack')), h') /\ keeps store c h h' /\
    placed h' k' s' stack' /\ towards k' /\ end_at h' k' s' r.
Proof.
  induction fuel as [|fuel IH]; intros h k s stack l Hp Hf Htw Hfuel; destruct (frozen_read h l s Hf) as (n & Hn & Hleaf & _); unfold is_leaf in Hleaf; apply (f_equal negb) in Hleaf; rewrite negb_involutive in Hleaf;
  destruct s as [|ty it|kids]; try (now inversion Hf).
  1, 3: exists h, k, (Leaf ty it), stack, (Some l); (split; [|split; [apply keeps_refl|split; [exact Hp|split; [exact Htw|exists ty, it; auto]]]]);
    cbn [walk_loop]; run (read_ok (E := TraversalError) l h n Hn); rewrite Hleaf; reflexivity.
  all: destruct (placed_node h k kids stack Hp) as (Hlen & Hpath & H64 & _); rewrite path_of_length in H64.
  1: lia.
  set (b := nibble key (length k)). assert (b < 16)%nat as Hb by apply nibble_lt, Hkey. destruct (frozen_branch (E := TraversalError) h l kids b Hf Hb) as (n' & Hn' & He). assert (n' = n) as -> by congruence.
  assert (kids !! b = Some (kid kids b)) as Hkb by (unfold kid; destruct (lookup_lt_is_Some_2 kids b) as [u ->]; [lia|reflexivity]).
  cbn [walk_loop]. run (read_ok (E := TraversalError) l h n Hn). rewrite Hleaf. cbn [negb].
  assert (select_branch (E := TraversalError) (id_of (path_of k)) key = Ok b) as Hsel by (rewrite select_branch_path by (auto; rewrite path_of_length; lia); now rewrite path_of_length).
  run (lift_ok _ _ h Hsel). run (lift_ok _ _ h He). pose proof (placed_down h k kids b _ l stack Hp Hf Hkb) as Hp1. pose proof (towards_down kids k Htw H64) as Htw1. fold b in Htw1. case_bool_decide as Hk.
  - exists h, ((kids, b) :: k), (kid kids b), (mkEntry l (id_of (path_of k)) :: stack), None. split; [reflexivity|]. split; [apply keeps_refl|]. auto.
  - destruct (frozen_down h l kids b _ Hf Hkb Hk) as (l' & h' & Hd & Hf' & Hkeep). run Hd. rewrite child_id_path by (auto; rewrite path_of_length; lia). cbn [expect]. run (lift_ok (E := TraversalError) (Ok (id_of (path_of k ++ [b]))) _ h' eq_refl).
    destruct (IH h' ((kids, b) :: k) (kid kids b) (mkEntry l (id_of (path_of k)) :: stack) l') as (h2 & k2 & s2 & stack2 & r & Hr & Hk2 & Hrest); [eapply placed_keeps; eauto|exact Hf'|exact Htw1|cbn; lia|].
    exists h2, k2, s2, stack2, r. rewrite path_of_cons in Hr. split; [exact Hr|]. split; [eapply keeps_trans; eassumption|exact Hrest].
Qed.

(** One step up the stack: the branchings beside the path. *)
Lemma climb_spec forward h kids b k s entry stack : placed h ((kids, b) :: k) s (entry :: stack) -> towards ((kids, b) :: k) ->
  exists n, h !! node entry = Some n /\ is_leaf n = false /\ select_branch (E := TraversalError) (node_id entry) key = Ok b /\ towards k /\ placed h k (Node kids) stack /\
  ((child_among backed fetch (scan forward b) (node entry) (node_id entry) h = (Ok None, h) /\ side forward ((kids, b) :: k) = side forward k) \/
   exists b' l' h', child_among backed fetch (scan forward b) (node entry) (node_id entry) h = (Ok (Some (l', id_of (path_of ((kids, b') :: k)))), h') /\ keeps store c h h' /\
    frozen store c h' l' (kid kids b') /\ placed h' ((kids, b') :: k) (kid kids b') (entry :: stack) /\ leaves (kid kids b') <> [] /\
    side forward ((kids, b) :: k) = items forward (kid kids b') ++ side forward ((kids, b') :: k)).
Proof.
  intros Hp Htw. destruct (placed_shaped h _ s _ Hp) as [(_ & Hl & Hlen & Hb & _) _]. destruct (placed_up _ _ _ _ _ _ _ Hp) as (Hp0 & Hkb & Hid & Hf). destruct (towards_up kids b k Htw Hl) as [Htw0 Hn0].
  destruct (frozen_read h _ _ Hf) as (n & Hn & Hleaf & _). exists n. split; [exact Hn|]. split; [exact Hleaf|]. rewrite Hid.
  split; [rewrite select_branch_path by (auto; rewrite path_of_length; lia); now rewrite path_of_length, Hn0|]. split; [exact Htw0|]. split; [exact Hp0|].
  rewrite (side_cons forward kids b k Hlen Hb).
  destruct (scan_spec forward (scan forward b) h k kids stack (node entry) Hp0 Hf (or_intror (ex_intro _ b (conj Hb eq_refl)))) as [[Hr Hnone]|(b' & l' & h' & Hr & Hk & Hf' & Hp' & Hne & Hit)].
  - left. split; [exact Hr|]. now rewrite Hnone.
  - right. exists b', l', h'. rewrite <- Hid in Hp'. replace (mkEntry (node entry) (node_id entry)) with entry in Hp' by now destruct entry. auto 10.
Qed.

Lemma next_loop_spec k : forall h s stack, placed h k s stack -> towards k ->
  exists r stack2 h', next_loop backed fetch key stack h = (Ok (r, stack2), h') /\ keeps store c h h' /\
    match r with Some leaf => stops h' (side true k) leaf stack2 | None => side true k = [] end.
Proof.
  induction k as [|[kids b] k IH]; intros h s stack Hp Htw.
  - destruct Hp as [Hp _]. inversion Hp; subst. exists None, [], h. split; [reflexivity|]. split; [apply keeps_refl|reflexivity].
  - destruct stack as [|entry stack]; [destruct Hp as [Hp _]; inversion Hp|]. destruct (climb_spec true _ _ _ _ _ _ _ Hp Htw) as (n & Hn & Hleaf & Hsel & Htw0 & Hp0 & Hcase).
    cbn [next_loop]. run (read_ok (E := TraversalError) _ h n Hn). unfold is_leaf in Hleaf. apply negb_false_iff in Hleaf. rewrite Hleaf. cbn [debug_assert]. run (lift_ok (E := TraversalError) (Ok tt) tt h eq_refl). run (lift_ok _ _ h Hsel).
    change (seq (S b) (BRANCH_FACTOR - S b)) with (scan true b). destruct Hcase as [[Hr ->]|(b' & l1 & h1 & Hr & Hk1 & Hf1 & Hp1 & Hne1 & Hit)]; run Hr; [now apply IH with (Node kids)|].
    destruct (first_spec _ _ _ _ _ Hp1 Hf1 Hne1) as (h2 & l2 & stack2 & Hr2 & Hk2 & Hst). rewrite Hit. exists (Some l2), stack2, h2. split; [exact Hr2|]. split; [eapply keeps_trans; eassumption|exact Hst].
Qed.

(** What is asked for: the items beyond the key. *)
Definition past (forward : bool) (x : content) : bool := if forward then key_ltb key (ckey x) else key_ltb (ckey x) key.

Lemma past_other forward x : past forward x = true -> past (negb forward) x = false.
Proof. unfold past, key_ltb. destruct forward; cbn [negb]; [rewrite (key_cmp_opp key)|rewrite (key_cmp_opp (ckey x))]; destruct (key_cmp _ _); cbn; congruence. Qed.

Definition remaining (forward : bool) (k : sctx) (s : stree) : list content := filter (fun x => past forward x = true) (leaves s) ++ side forward k.

Lemma items_past forward h k s stack : placed h k s stack -> towards k -> (length (leaves s) <= 1)%nat -> remaining forward k s = filter (fun x => past forward x = true) (items forward t).
Proof.
  intros Hp Htw Hone. destruct (placed_shaped h k s stack Hp) as [Hsh _]. destruct Hp as [_ Hs]. pose proof (plug_leaves k s Hsh) as Hl. rewrite Hs in Hl.
  assert (forall f x, x ∈ side f k -> past f x = true) as Hside by (intros f x Hx; pose proof (side_order f key k Hkey Hsh Htw x Hx); unfold past; destruct f; assumption).
  assert (filter (fun x => past forward x = true) (side (negb forward) k) = []) as Hno.
  { apply filter_none. intros x Hx. specialize (Hside _ x Hx). apply past_other in Hside. rewrite negb_involutive in Hside. congruence. }
  assert (filter (fun x => past forward x = true) (side forward k) = side forward k) as Hall by (apply filter_every; auto).
  unfold remaining, items. destruct forward; rewrite Hl; unfold side in *; cbn [negb] in *.
  - rewrite !filter_app, Hall. rewrite (filter_none _ (around k).1); [reflexivity|]. intros x Hx. specialize (Hside false x). rewrite in_rev_elem in Hside. apply Hside, past_other in Hx. cbn [negb] in Hx. congruence.
  - rewrite !rev_app_distr, <- app_assoc, !filter_app, Hall. rewrite (filter_none _ (rev (around k).2)).
    + cbn. f_equal. destruct (leaves s) as [|x [|]]; [reflexivity|reflexivity|cbn in Hone; lia].
    + intros x Hx. rewrite in_rev_elem in Hx. specialize (Hside true x Hx). apply past_other in Hside. cbn [negb] in Hside. congruence.
Qed.

(** The leaf that is below does not depend on the stack. *)
Lemma below_stack forward fuel : forall l id stack stack' h r x h', extreme_below backed fetch fuel forward l id stack h = (Ok (r, x), h') ->
  exists x', extreme_below backed fetch fuel forward l id stack' h = (Ok (r, x'), h').
Proof.
  induction fuel as [|fuel IH]; intros l id stack stack' h r x h'; cbn [extreme_below]; unfold mbind, M_bind; destruct (read l h) as [[n| | | |] h1]; try discriminate; destruct (is_leaf n).
  1, 3: intros [= <- _ <-]; eexists; reflexivity.
  1: discriminate.
  match goal with |- context [match ?m h1 with _ => _ end] => destruct (m h1) as [[[[child child_id]|]| | | |] h2] end; try discriminate; [apply IH|]. intros [= <- _ <-]. eexists. reflexivity.
Qed.

Definition answers (h : heap) (l : list content) (r : option loc) : Prop :=
  match l with [] => r = None | x :: _ => exists l', r = Some l' /\ frozen store c h l' (Leaf x.1 x.2) end.

Lemma bound_loop_spec forward k : forall h s stack, placed h k s stack -> towards k ->
  exists r h', bound_loop backed fetch forward key stack h = (Ok r, h') /\ keeps store c h h' /\ answers h' (side forward k) r.
Proof.
  induction k as [|[kids b] k IH]; intros h s stack Hp Htw.
  - destruct Hp as [Hp _]. inversion Hp; subst. exists None, h. split; [reflexivity|]. split; [apply keeps_refl|now destruct forward].
  - destruct stack as [|entry stack]; [destruct Hp as [Hp _]; inversion Hp|]. destruct (climb_spec forward _ _ _ _ _ _ _ Hp Htw) as (n & Hn & Hleaf & Hsel & Htw0 & Hp0 & Hcase).
    cbn [bound_loop]. run (read_ok (E := TraversalError) _ h n Hn). rewrite Hleaf. run (lift_ok _ _ h Hsel).
    change (if forward then seq (S b) (BRANCH_FACTOR - S b) else rev (seq 0 b)) with (scan forward b). destruct Hcase as [[Hr ->]|(b' & l1 & h1 & Hr & Hk1 & Hf1 & Hp1 & Hne1 & Hit)]; run Hr; [now apply IH with (Node kids)|].
    destruct (below_spec forward _ h1 _ _ l1 LEVELS Hp1 Hf1 Hne1 ltac:(unfold LEVELS; cbn; lia)) as (h2 & k2 & l2 & x & stack2 & Hr2 & Hk2 & Hp2 & Hf2 & Hit2).
    destruct (below_stack _ _ _ _ _ [] _ _ _ _ Hr2) as [x' Hr2']. rewrite Hit, <- Hit2. exists (Some l2), h2.
    split; [|split; [eapply keeps_trans; eassumption|exists l2; auto]].
    destruct forward; unfold first_below, last_below; now run Hr2'.
Qed.

Lemma top_spec forward h k s r : end_at h k s r -> match r with
  | None => s = Empty
  | Some l => exists x n, leaves s = [x] /\ s = Leaf x.1 x.2 /\ frozen store c h l s /\ h !! l = Some n /\ is_leaf n = true /\ peek_item n = Some x.2 /\ beyond forward key n = past forward x
  end.
Proof.
  destruct r as [l|]; [|auto]. intros (ty & it & -> & Hf). destruct (frozen_read h l _ Hf) as (n & Hn & Hleaf & Hit). exists (ty, it), n.
  repeat (split; [assumption || reflexivity|]). unfold beyond. now rewrite Hit.
Qed.

Lemma root_placed h : placed h [] t [].
Proof. split; [constructor|reflexivity]. Qed.

(** ** The bounds of a key *)

Lemma bound_spec forward root h : frozen store c h root t ->
  exists r h', (r ← walk_towards_key_with_path root key backed fetch; bound_loop backed fetch forward key (rev r.2)) h = (Ok r, h') /\ keeps store c h h' /\
    answers h' (filter (fun x => past forward x = true) (items forward t)) r.
Proof.
  intros Hf. destruct (walk_place LEVELS h [] t [] root (root_placed h) Hf eq_refl ltac:(unfold LEVELS; cbn; lia)) as (h1 & k & s & stack & r & Hr & Hk1 & Hp & Htw & Hend).
  unfold walk_towards_key_with_path. change (id_of (path_of [])) with root_id in Hr. cbn [rev] in Hr. run Hr. cbn [snd]. rewrite rev_involutive.
  apply (top_spec forward) in Hend. rewrite <- (items_past forward h1 k s stack Hp Htw) by (destruct r as [l|]; [destruct Hend as (x & n & -> & _)|subst s]; cbn; lia).
  destruct (bound_loop_spec forward k h1 s stack Hp Htw) as (r2 & h2 & Hr2 & Hk2 & Ha). unfold remaining. destruct r as [l|]; cbn [top app].
  - destruct Hend as (x & n & Hls & Hs & Hfl & Hn & Hleaf & _ & Hby). rewrite Hls. cbn [bound_loop node]. run (read_ok (E := TraversalError) l h1 n Hn). rewrite Hleaf, Hby, filter_cons, filter_nil.
    destruct (past forward x) eqn:Hpx; [rewrite decide_True by reflexivity|rewrite decide_False by discriminate].
    + exists (Some l), h1. split; [reflexivity|]. split; [exact Hk1|]. exists l. split; [reflexivity|]. now rewrite <- Hs.
    + exists r2, h2. split; [exact Hr2|]. split; [eapply keeps_trans; eassumption|exact Ha].
  - rewrite Hend. exists r2, h2. split; [exact Hr2|]. split; [eapply keeps_trans; eassumption|exact Ha].
Qed.

Lemma seek_loop_spec k : forall fuel h s stack, (length k < fuel)%nat -> placed h k s stack -> towards k ->
  exists r h', seek_loop backed fetch fuel key stack h = (Ok r, h') /\ keeps store c h h' /\
    match r with Some (leaf, stack2) => stops h' (side true k) leaf stack2 | None => side true k = [] end.
Proof.
  induction k as [|[kids b] k IH]; intros [|fuel] h s stack Hfuel Hp Htw; try (cbn in Hfuel; lia).
  - destruct Hp as [Hp _]. inversion Hp; subst. exists None, h. split; [reflexivity|]. split; [apply keeps_refl|reflexivity].
  - destruct stack as [|entry stack]; [destruct Hp as [Hp _]; inversion Hp|]. destruct (climb_spec true _ _ _ _ _ _ _ Hp Htw) as (n & Hn & Hleaf & Hsel & Htw0 & Hp0 & Hcase).
    cbn [seek_loop]. run (read_ok (E := TraversalError) _ h n Hn). rewrite Hleaf. run (lift_ok _ _ h Hsel).
    change (seq (S b) (BRANCH_FACTOR - S b)) with (scan true b). destruct Hcase as [[Hr ->]|(b' & l1 & h1 & Hr & Hk1 & Hf1 & Hp1 & Hne1 & Hit)]; run Hr; [apply IH with (Node kids); auto; cbn in Hfuel; lia|].
    destruct (first_spec _ _ _ _ _ Hp1 Hf1 Hne1) as (h2 & l2 & stack2 & Hr2 & Hk2 & Hst). run Hr2. cbn [fst snd]. rewrite Hit. exists (Some (l2, stack2)), h2. split; [reflexivity|]. split; [eapply keeps_trans; eassumption|exact Hst].
Qed.

Lemma seek_spec root h : frozen store c h root t ->
  exists r h', (r ← walk_towards_key_with_path root key backed fetch; seek_loop backed fetch LEVELS key (rev r.2)) h = (Ok r, h') /\ keeps store c h h' /\
    match r with
    | Some (leaf, stack) => stops h' (filter (fun x => past true x = true) (leaves t)) leaf stack
    | None => filter (fun x => past true x = true) (leaves t) = []
    end.
Proof.
  intros Hf. destruct (walk_place LEVELS h [] t [] root (root_placed h) Hf eq_refl ltac:(unfold LEVELS; cbn; lia)) as (h1 & k & s & stack & r & Hr & Hk1 & Hp & Htw & Hend).
  unfold walk_towards_key_with_path. change (id_of (path_of [])) with root_id in Hr. cbn [rev] in Hr. run Hr. cbn [snd]. rewrite rev_involutive.
  apply (top_spec true) in Hend. change (leaves t) with (items true t). rewrite <- (items_past true h1 k s stack Hp Htw) by (destruct r as [l|]; [destruct Hend as (x & n & -> & _)|subst s]; cbn; lia).
  assert (length k < 65)%nat as Hlk by (destruct k as [|[ks b] k']; [cbn; lia|]; destruct (placed_shaped _ _ _ _ Hp) as [(_ & Hl & _) _]; cbn; lia).
  unfold remaining. destruct r as [l|]; cbn [top app].
  - destruct Hend as (x & n & Hls & Hs & Hfl & Hn & Hleaf & _ & Hby). assert (exists f, LEVELS = S f /\ (length k < f)%nat) as (f & -> & Hlf) by (exists 65%nat; auto). cbn [seek_loop node]. run (read_ok (E := TraversalError) l h1 n Hn). rewrite Hleaf, Hby, Hls, filter_cons, filter_nil.
    destruct (past true x) eqn:Hpx; [rewrite decide_True by reflexivity|rewrite decide_False by discriminate].
    + eexists (Some (l, _)), h1. split; [reflexivity|]. split; [exact Hk1|]. exists x, k, stack. rewrite <- Hs. auto.
    + destruct (seek_loop_spec k f h1 s stack Hlf Hp Htw) as (r2 & h2 & Hr2 & Hk2 & Ha). exists r2, h2. split; [exact Hr2|]. split; [eapply keeps_trans; eassumption|exact Ha].
  - destruct (seek_loop_spec k LEVELS h1 s stack ltac:(unfold LEVELS; lia) Hp Htw) as (r2 & h2 & Hr2 & Hk2 & Ha). rewrite Hend. exists r2, h2. split; [exact Hr2|]. split; [eapply keeps_trans; eassumption|exact Ha].
Qed.

End Key.

(** ** From one leaf to the next *)

Definition leaf_for (h : heap) (leaf : loc) (x : content) : Prop := frozen store c h leaf (Leaf x.1 x.2).

Lemma leaf_key_ok h leaf x : leaf_for h leaf x -> leaf_key leaf h = (Ok (ckey x), h).
Proof. intros Hf. destruct (frozen_read h leaf _ Hf) as (n & Hn & _ & Hit). unfold leaf_key. run (read_ok (E := TraversalError) leaf h n Hn). now rewrite Hit. Qed.

Lemma placed_leaf h k x stack : placed h k (Leaf x.1 x.2) stack -> is_key (ckey x) /\ towards (ckey x) k.
Proof. intros Hp. destruct (placed_shaped h k _ stack Hp) as [_ Hs]. inversion Hs as [|? ? ? _ [Hk _] Hpath|]; subst. rewrite path_of_length in Hpath. auto. Qed.

Lemma next_spec h k x leaf stack' stack : placed h k (Leaf x.1 x.2) stack' -> leaf_for h leaf x -> stack = mkEntry leaf (id_of (path_of k)) :: stack' ->
  exists r stack2 h', peek_next_item backed fetch (ckey x) stack h = (Ok (r, stack2), h') /\ keeps store c h h' /\
    match r with Some next => stops h' (side true k) next stack2 | None => side true k = [] end.
Proof.
  intros Hp Hf ->. destruct (placed_leaf h k x stack' Hp) as [Hkey Htw]. destruct (frozen_read h leaf _ Hf) as (n & Hn & Hleaf & _). unfold peek_next_item. cbn [node].
  run (read_ok (E := TraversalError) leaf h n Hn). rewrite Hleaf. cbn [debug_assert]. run (lift_ok (E := TraversalError) (Ok tt) tt h eq_refl). now apply next_loop_spec with (Leaf x.1 x.2).
Qed.

Lemma collect_spec more : forall h k x leaf stack' stack, placed h k (Leaf x.1 x.2) stack' -> leaf_for h leaf x -> stack = mkEntry leaf (id_of (path_of k)) :: stack' ->
  exists ls h', collect backed fetch more (ckey x) stack h = (Ok ls, h') /\ keeps store c h h' /\ Forall2 (leaf_for h') ls (take more (side true k)).
Proof.
  induction more as [|more IH]; intros h k x leaf stack' stack Hp Hf Hst.
  - exists [], h. split; [reflexivity|]. split; [apply keeps_refl|constructor].
  - destruct (next_spec h k x leaf stack' stack Hp Hf Hst) as (r & stack2 & h1 & Hr & Hk1 & Hcase). cbn [collect]. run Hr. cbn [fst snd]. destruct r as [next|].
    + destruct Hcase as (y & k2 & stack3 & -> & -> & Hp2 & Hf2). run (leaf_key_ok h1 next y Hf2). destruct (IH h1 k2 y next stack3 _ Hp2 Hf2 eq_refl) as (ls & h2 & Hr2 & Hk2 & Hall). run Hr2.
      exists (next :: ls), h2. split; [reflexivity|]. split; [eapply keeps_trans; eassumption|]. cbn [take]. constructor; [eapply frozen_keeps; eauto|exact Hall].
    + rewrite Hcase. exists [], h1. split; [reflexivity|]. split; [exact Hk1|constructor].
Qed.

Lemma iterate_spec root h start limit : is_key start -> frozen store c h root t ->
  exists ls h', iterate_from backed fetch root start limit h = (Ok ls, h') /\ keeps store c h h' /\ Forall2 (leaf_for h') ls (take limit (filter (fun x => past start true x = true) (leaves t))).
Proof.
  intros Hkey Hf. destruct limit as [|more]; [exists [], h; split; [reflexivity|]; split; [apply keeps_refl|constructor]|].
  destruct (seek_spec start Hkey root h Hf) as (r & h1 & Hr & Hk1 & Hcase). cbn [iterate_from]. unfold mbind, M_bind in Hr |- *. destruct (walk_towards_key_with_path root start backed fetch h) as [[w| | | |] h0]; try discriminate.
  rewrite Hr. destruct r as [[leaf stack]|].
  - destruct Hcase as (x & k & stack' & -> & -> & Hp & Hfl). rewrite (leaf_key_ok h1 leaf x Hfl). destruct (collect_spec more h1 k x leaf stack' _ Hp Hfl eq_refl) as (ls & h2 & Hr2 & Hk2 & Hall). rewrite Hr2.
    exists (leaf :: ls), h2. split; [reflexivity|]. split; [eapply keeps_trans; eassumption|]. constructor; [eapply frozen_keeps; eauto|exact Hall].
  - rewrite Hcase. exists [], h1. split; [reflexivity|]. split; [exact Hk1|constructor].
Qed.

Lemma first_item_spec root h : frozen store c h root t ->
  exists r stack h', peek_first_item backed fetch root h = (Ok (r, stack), h') /\ keeps store c h h' /\
    match r with Some leaf => stops h' (leaves t) leaf stack | None => leaves t = [] /\ stack = [] end.
Proof.
  intros Hf. destruct (decide (leaves t = [])) as [Hnil|Hne].
  - pose proof (root_placed h) as Hp. destruct Ht as (kids & Heq & _). rewrite Heq in Hp, Hf, Hnil. destruct (placed_node h [] kids [] Hp) as (Hlen & _).
    destruct (frozen_read h root _ Hf) as (n & Hn & Hleaf & _). destruct (scan_spec true (order true) h [] kids [] root Hp Hf (or_introl eq_refl)) as [[Hr _]|(b & l' & h' & _ & _ & _ & _ & Hne & Hit)].
    + exists None, [], h. split; [|split; [apply keeps_refl|rewrite Heq; auto]]. unfold peek_first_item. assert (first_below backed fetch root root_id [] h = (Ok (None, [mkEntry root root_id]), h)) as Hrun; [|now run Hrun].
      unfold first_below. assert (exists f, LEVELS = S f) as (f & ->) by now exists 65%nat. cbn [extreme_below]. run (read_ok (E := TraversalError) root h n Hn). rewrite Hleaf.
      change (id_of (path_of [])) with root_id in Hr. unfold next_child_in_order. change (seq 0 BRANCH_FACTOR) with (order true). now run Hr.
    + exfalso. assert (items true (Node kids) = []) as Hno by exact Hnil. rewrite (items_node true kids Hlen) in Hno. rewrite Hno in Hit. cbn [app side around snd] in Hit. destruct (leaves (kid kids b)) eqn:Hkb; [contradiction|]. cbn [items] in Hit. rewrite Hkb in Hit. discriminate.
  - destruct (first_spec h [] t [] root (root_placed h) Hf Hne) as (h' & leaf & stack & Hr & Hk & Hst). cbn [side around snd] in Hst. rewrite app_nil_r in Hst.
    exists (Some leaf), stack, h'. split; [|auto]. unfold peek_first_item. change (id_of (path_of [])) with root_id in Hr. now run Hr.
Qed.

End Spec.
