(* ===== verification/ShamapMutate.v ===== *)
(** * ShamapMutate: what changing a SHAMap does to its tree

    A mutable tree stands for a tree ([tree_ok]).  [unshare_node] makes a node of the
    path its own, [set_child] puts a new part under it, and [dirty_up] does so for the
    whole path ([dirty_up_spec]).  The specifications of [add_item], [update_item] and
    [delete_item] are in terms of the tree they stand for; every one of them keeps the
    frozen nodes. *)

From stdpp Require Import list.
From Stdlib Require Import ZArith Lia.
From S2P Require Import Prelude Serializer ShamapKey ShamapNode ShamapSlots ShamapTree ShamapHeap ShamapRepr ShamapWalk.
Local Open Scope Z_scope.

Section Mutate.
Context `{Sha512} (store : ghost) (c : Z) (Hc : 1 <= c).

(** ** Owning a node of the path *)

(** The slot of the branch taken. *)
Definition slot_in (h : heap) (f : frame) (s : slot) : Prop :=
  exists n i, h !! frame_loc f = Some n /\ body n = InnerBody i /\ inner_ok i /\ slots i !! frame_branch f = Some s.

(** [owned_from h f h' f']: [f'] is [f] with its node owned. *)
Record owned_from (h : heap) (f : frame) (h' : heap) (f' : frame) : Prop := {
  of_owned : exists l ms b, f' = FOwned l ms b;
  of_open : frame_open store c h' f';
  of_shadow : shadow f' = shadow f;
  of_app : exists x, h' = h ++ x;
  of_locs : (forall l, l ∈ flocs f' -> l ∈ flocs f \/ (length h <= l)%nat);
  of_nodup : NoDup (flocs f) -> NoDup (flocs f');
  of_slot : forall s, slot_in h f s -> slot_in h' f' s
}.

Lemma frame_open_16 h f : frame_open store c h f -> (frame_branch f < 16)%nat.
Proof.
  destruct f as [l ms b|l kids b]; cbn.
  - intros (Hb & [m Hm] & _). apply node_ok_length in Hm. rewrite length_insert in Hm. lia.
  - intros (Hb & Hf). inversion Hf as [|? n i ? _ _ _ _ _ Hs _]; subst. apply Forall2_length in Hs. rewrite slots_length in Hs. lia.
Qed.

Lemma locs_without ms b : concat (map locs ms) = [] -> concat (map locs (<[b := MEmpty]> ms)) = [].
Proof.
  intros Hn. apply concat_nil_Forall, Forall_forall. intros x Hx. apply list_elem_of_In, in_map_iff in Hx as (m & <- & Hm). apply list_elem_of_In, insert_elem in Hm as [->|(j & _ & Hm)]; [reflexivity|].
  apply concat_nil_Forall in Hn. rewrite Forall_forall in Hn. apply Hn, list_elem_of_In, in_map, list_elem_of_In. eapply list_elem_of_lookup_2, Hm.
Qed.

Lemma unshare_spec self h f id : owner self = c -> frame_open store c h f -> exists f' h' self',
  unshare_node self (frame_loc f) id h = (Ok (frame_loc f', self'), h') /\ owned_from h f h' f' /\ owner self' = c.
Proof.
  intros Hself Hf. destruct f as [l ms b|l kids b]; cbn [frame_open frame_loc] in *.
  - pose proof Hf as (Hb & [m (n & i & Hl & Ho & Hrest)] & Hs). exists (FOwned l ms b), h, self. split; [|split; [|exact Hself]].
    + unfold unshare_node. run (read_ok (E := MutationError) l h n Hl). rewrite decide_False by lia. now rewrite decide_True by congruence.
    + constructor; [eauto|exact Hf|reflexivity|exists []; now rewrite app_nil_r|auto|auto|auto].
  - destruct Hf as (Hb & Hf). destruct (frozen_open store c h l kids Hf) as (n & i & ms & Hl & Hcn & Hbody & Hi & Hh & Hsl & Her & Hms & Hlocs).
    destruct (clone_inner_slots (E := MutationError) n i c Hbody Hi) as (i' & Hclone & Hi' & Hs').
    set (n' := mkNode (hash n) c (InnerBody i')) in *. assert (length ms = length kids) as Hlen by (rewrite <- Her; now rewrite length_fmap).
    exists (FOwned (length h) ms b), (h ++ [n']), (if is_root id then mkTree (length h) c else self). split; [|split].
    + unfold unshare_node. run (read_ok (E := MutationError) l h n Hl). rewrite !decide_False by lia. rewrite Hself. run (lift_ok _ _ h Hclone). reflexivity.
    + constructor; [eauto| |cbn; now rewrite <- Her|eauto| | |].
      * cbn. split; [lia|]. destruct (lookup_lt_is_Some_2 ms b) as [mb Hmb]; [lia|]. split.
        -- exists mb. rewrite (list_insert_id ms b mb Hmb). exists n', i'. split; [apply list_lookup_middle; reflexivity|]. repeat (split; [reflexivity || assumption|]).
           rewrite Hs', Her. split; [exact Hsl|]. destruct Hh as [Hh|[Hh _]]; [left; exact Hh|right]. split; [exact Hh|cbn; lia].
        -- intros j m _ Hj. eapply holds_same; [apply keeps_app|apply Hms; eapply list_elem_of_lookup_2, Hj|]. intros l0 Hl0. exfalso.
           assert (l0 ∈ concat (map locs ms)) as Hin by (eapply elem_map_locs; eauto). rewrite Hlocs in Hin. inversion Hin.
      * cbn. intros l0 Hl0. right. apply elem_of_cons in Hl0 as [->|Hl0]; [lia|]. rewrite locs_without in Hl0 by exact Hlocs. inversion Hl0.
      * intros _. cbn. rewrite locs_without by exact Hlocs. apply NoDup_singleton.
      * intros s (n0 & i0 & Hl0 & Hb0 & _ & Hs0). cbn in Hl0, Hs0. assert (n0 = n) as -> by congruence. assert (i0 = i) as -> by congruence.
        exists n', i'. cbn [frame_loc frame_branch]. split; [apply list_lookup_middle; reflexivity|]. split; [reflexivity|]. split; [exact Hi'|]. now rewrite Hs'.
    + now destruct (is_root id).
Qed.

(** ** Putting a part under an owned node *)

Lemma attach_spec h l ms b m : frame_open store c h (FOwned l ms b) -> holds store c h m -> (m = MEmpty \/ mloc m <> None) -> NoDup (flocs (FOwned l ms b) ++ locs m) ->
  exists h', change (E := MutationError) l (fun n => set_child n b (mloc m)) h = (Ok tt, h') /\ holds store c h' (MNode l (<[b := m]> ms)) /\
    keeps store c h h' /\ (forall l0, l0 <> l -> h' !! l0 = h !! l0).
Proof.
  intros Hf Hm Hml Hnd. pose proof (frame_open_16 h _ Hf) as Hb16. cbn in Hb16. destruct Hf as (Hb & [m0 (n & i & Hl & Ho & Hbody & Hi & Hsl & Hh)] & Hs).
  destruct (set_child_slots (E := MutationError) n i Hbody Hi b (mloc m) Hb16 ltac:(lia)) as (i' & Hset & Hi' & Hs').
  exists (<[l := after n uint256_zero i']> h). split; [apply (change_ok l _ h n); [exact Hl|exact Hset]|].
  assert (keeps store c h (<[l:=after n uint256_zero i']> h)) as Hk by (eapply keeps_write; eassumption).
  assert (forall l0, l0 <> l -> <[l:=after n uint256_zero i']> h !! l0 = h !! l0) as Hne by (intros l0 Hl0; now rewrite list_lookup_insert_ne).
  cbn [flocs] in Hnd. cbn [app] in Hnd. apply NoDup_cons in Hnd as [Hnl Hnd]. split; [|split; [exact Hk|exact Hne]].
  apply holds_insert.
  - exists (after n uint256_zero i'), i'. split; [apply list_lookup_insert_eq; eapply lookup_lt_Some, Hl|]. repeat (split; [reflexivity || assumption|]). split.
    + rewrite Hs'. apply Forall2_same_length_lookup_2; [apply Forall2_length in Hsl; rewrite !length_insert in *; exact Hsl|]. intros j s x Hj Hx. destruct (decide (j = b)) as [->|Hjb].
      * rewrite list_lookup_insert_eq in Hj by exact Hb16. rewrite list_lookup_insert_eq in Hx by exact Hb. injection Hj as <-. injection Hx as <-.
        destruct Hml as [->|Hml]; [reflexivity|]. destruct m; try (now destruct Hml); cbn; eauto.
      * rewrite list_lookup_insert_ne in Hj by congruence. rewrite list_lookup_insert_ne in Hx by congruence. eapply Forall2_lookup_lr; [exact Hsl|exact Hj|]. now rewrite list_lookup_insert_ne by congruence.
    + right. split; [reflexivity|]. cbn. lia.
  - eapply siblings_same; [exact Hk|exact Hs|]. intros l0 Hl0. apply Hne. intros ->. apply Hnl, elem_of_app. now left.
  - eapply holds_same; [exact Hk|exact Hm|]. intros l0 Hl0. apply Hne. intros ->. apply Hnl, elem_of_app. now right.
Qed.

(** ** Along the path *)

Lemma clocs_cons f k : clocs (f :: k) = flocs f ++ clocs k.
Proof. reflexivity. Qed.

Lemma after_unshare h f h1 f' k m : owned_from h f h1 f' -> ctx_open store c h (f :: k) -> holds store c h m -> NoDup (clocs (f :: k) ++ locs m) ->
  ctx_open store c h1 k /\ holds store c h1 m /\ NoDup (flocs f' ++ clocs k ++ locs m) /\ keeps store c h h1.
Proof.
  intros [_ Ho Hsh [x ->] Hlocs Hnd' _] Hk Hm Hnd. assert (ctx_open store c h k) as Hk' by (intros g Hg; apply Hk; now right).
  assert (forall l, l ∈ clocs k ++ locs m -> exists n, h !! l = Some n) as Hval.
  { intros l Hl. apply elem_of_app in Hl as [Hl|Hl]; [destruct (open_locs store c h k Hk' l Hl) as (n & Hn & _)|destruct (holds_locs store c h m Hm l Hl) as (n & Hn & _)]; eauto. }
  assert (forall l, l ∈ clocs k ++ locs m -> (h ++ x) !! l = h !! l) as Hsame by (intros l Hl; destruct (Hval l Hl) as [n Hn]; rewrite Hn; now apply lookup_app_l_Some).
  split; [|split; [|split]].
  - eapply ctx_open_same; [apply keeps_app|exact Hk'|]. intros l Hl. apply Hsame, elem_of_app. now left.
  - eapply holds_same; [apply keeps_app|exact Hm|]. intros l Hl. apply Hsame, elem_of_app. now right.
  - rewrite clocs_cons, <- app_assoc in Hnd. apply NoDup_app in Hnd as (Hn1 & Hn2 & Hn3). apply NoDup_app. split; [auto|]. split; [|exact Hn3].
    intros l Hl Hin. destruct (Hlocs l Hl) as [Hl'|Hl']; [exact (Hn2 l Hl' Hin)|]. destruct (Hval l Hin) as [n Hn]. apply lookup_lt_Some in Hn. lia.
  - apply keeps_app.
Qed.

Lemma after_attach h h' l ms b k m : ctx_open store c h k -> NoDup (flocs (FOwned l ms b) ++ clocs k ++ locs m) -> (b < length ms)%nat -> keeps store c h h' ->
  (forall l0, l0 <> l -> h' !! l0 = h !! l0) -> ctx_open store c h' k /\ NoDup (clocs k ++ locs (MNode l (<[b := m]> ms))).
Proof.
  intros Hk Hnd Hb Hkeep Hne. split.
  - eapply ctx_open_same; [exact Hkeep|exact Hk|]. intros l0 Hl0. apply Hne. intros ->. apply NoDup_app in Hnd as (_ & Hd & _). apply (Hd l); [left|apply elem_of_app; now left].
  - assert (locs (MNode l (<[b:=m]> ms)) ≡ₚ flocs (FOwned l ms b) ++ locs m) as -> by (cbn; constructor; now apply locs_insert).
    rewrite app_assoc, (Permutation_app_comm (clocs k)), <- app_assoc. exact Hnd.
Qed.

Lemma erase_insert l ms b m kids : shadow (FOwned l ms b) = (kids, b) -> erase (MNode l (<[b := m]> ms)) = Node (<[b := erase m]> kids).
Proof. cbn. intros [= <-]. f_equal. apply (list_fmap_insert erase). Qed.

Lemma rev_trail key f k : rev (trail key (f :: k)) = mkEntry (frame_loc f) (id_of (take (length k) (nibbles key))) :: rev (trail key k).
Proof. cbn. now rewrite rev_app_distr. Qed.

Lemma path_step key f k : path_of (shadows (f :: k)) = take (length (f :: k)) (nibbles key) -> (length k < 64)%nat ->
  path_of (shadows k) = take (length k) (nibbles key) /\ frame_branch f = nibble key (length k).
Proof.
  intros Hp Hl. unfold shadows in *. rewrite fmap_cons in Hp. destruct (shadow f) as [kids b] eqn:Hs. rewrite path_of_cons in Hp. cbn [length] in Hp.
  rewrite take_next in Hp by exact Hl. apply app_inj_tail in Hp as [Hp Hb]. split; [exact Hp|]. rewrite <- Hb. destruct f; cbn in Hs; now injection Hs as _ <-.
Qed.

Lemma select_at {E} key d : is_key key -> (d < 64)%nat -> select_branch (E := E) (id_of (take d (nibbles key))) key = Ok (nibble key d).
Proof. intros Hk Hd. rewrite select_branch_path by (auto; rewrite length_take, nibbles_length; lia). rewrite length_take, nibbles_length. do 2 f_equal. lia. Qed.

Lemma dirty_up_spec key : is_key key -> forall k self h m l, owner self = c -> ctx_open store c h k -> holds store c h m -> mloc m = Some l -> NoDup (clocs k ++ locs m) ->
  path_of (shadows k) = take (length k) (nibbles key) -> (length k <= 64)%nat ->
  exists h' m' l' self', dirty_up_loop self (rev (trail key k)) key l h = (Ok (l', self'), h') /\ holds store c h' m' /\ mloc m' = Some l' /\
    erase m' = plug (shadows k) (erase m) /\ NoDup (locs m') /\ keeps store c h h' /\ owner self' = c.
Proof.
  intros Hkey. induction k as [|f k IH]; intros self h m l Hself Hk Hm Hl Hnd Hp Hlen.
  { exists h, m, l, self. split; [reflexivity|]. repeat (split; [assumption || reflexivity|]). split; [apply keeps_refl|exact Hself]. }
  destruct (path_step key f k Hp ltac:(cbn in Hlen; lia)) as [Hp' Hb].
  destruct (unshare_spec self h f (id_of (take (length k) (nibbles key))) Hself (Hk f ltac:(left))) as (f' & h1 & self1 & Hun & Hof & Hs1).
  destruct (after_unshare h f h1 f' k m Hof Hk Hm Hnd) as (Hk1 & Hm1 & Hnd1 & Hkeep1).
  destruct (of_owned _ _ _ _ Hof) as (l1 & ms & b & ->). pose proof (of_shadow _ _ _ _ Hof) as Hsh. pose proof (of_open _ _ _ _ Hof) as Hopen.
  assert (b = nibble key (length k)) as -> by (rewrite <- Hb; destruct f; cbn in Hsh |- *; now injection Hsh).
  destruct (attach_spec h1 l1 ms (nibble key (length k)) m Hopen Hm1) as (h2 & Hch & Hm2 & Hkeep2 & Hne); [right; congruence| |].
  { apply NoDup_app in Hnd1 as (H1 & H2 & H3). apply NoDup_app in H3 as (_ & _ & H3). apply NoDup_app. split; [exact H1|]. split; [|exact H3]. intros x Hx Hin. apply (H2 x Hx), elem_of_app. now right. }
  destruct (after_attach h1 h2 l1 ms (nibble key (length k)) k m Hk1 Hnd1 (proj1 Hopen) Hkeep2 Hne) as [Hk2 Hnd2].
  rewrite rev_trail. cbn [dirty_up_loop ShamapHeap.node_id ShamapHeap.node]. run (lift_ok _ _ h (select_at (E := MutationError) key (length k) Hkey ltac:(cbn in Hlen; lia))).
  run Hun. cbn [fst snd frame_loc]. rewrite <- Hl. run Hch.
  destruct (IH self1 h2 _ l1 Hs1 Hk2 Hm2 eq_refl Hnd2 Hp' ltac:(cbn in Hlen; lia)) as (h' & m' & l' & self' & Hd & Hm' & Hl' & He & Hnd' & Hkeep & Hs').
  exists h', m', l', self'. split; [exact Hd|]. repeat (split; [assumption|]). split; [|split; [exact Hnd'|split; [|exact Hs']]].
  - rewrite He. unfold shadows. rewrite fmap_cons. destruct (shadow f) as [kids b] eqn:Hsf. cbn [plug].
    assert (b = nibble key (length k)) as -> by (cbn in Hsh; congruence). rewrite (erase_insert l1 ms _ m kids Hsh). reflexivity.
  - eapply keeps_trans; [exact Hkeep1|]. eapply keeps_trans; eassumption.
Qed.

(** ** A mutable tree and the tree it stands for *)

Definition tree_ok (h : heap) (self : MutableTree) (t : stree) : Prop :=
  owner self = c /\ exists m, holds store c h m /\ NoDup (locs m) /\ mloc m = Some (root self) /\ erase m = t.

Lemma focus_tree_ok h self key k m t : focus store c h key k m t -> owner self = c -> mloc (mfill k m) = Some (root self) -> tree_ok h self t.
Proof.
  intros [H1 H2 H3 H4 _] Ho Hl. split; [exact Ho|]. exists (mfill k m). split; [now apply holds_fill|]. split; [rewrite (locs_fill store c h); eauto|].
  split; [exact Hl|]. rewrite (erase_fill store c h); eauto.
Qed.

Section Fetch.
Context (backed : bool) (fetch : Fetch) (Hfetch : fetch_ok store backed fetch).

Lemma walk_from_root key h self t : is_key key -> tree_ok h self t -> rooted t -> exists h' f k m r,
  walk_towards_key_with_path (root self) key backed fetch h = (Ok (r, trail key (f :: k) ++ leaf_entry key (f :: k) r), h') /\
  keeps store c h h' /\ focus store c h' key (f :: k) m t /\ terminal m r /\ tree_ok h' self t.
Proof.
  intros Hkey [Ho (m & Hm & Hnd & Hl & He)] (kids & -> & Hs & _).
  destruct (walk_spec store c Hc backed fetch Hfetch key (Node kids) Hkey Hs LEVELS h [] m (root self)) as (h' & k & m' & r & Hw & Hk & Hf & Ht & Hml); [unfold LEVELS; cbn; lia| |exact Hl|].
  { constructor; [exact I|exact Hm|exact Hnd|exact He|reflexivity]. }
  cbn [mfill] in Hml. assert (tree_ok h' self (Node kids)) as Hto by (eapply focus_tree_ok; eauto; congruence).
  destruct k as [|f k]; [|exists h', f, k, m', r; auto].
  pose proof (focus_tree _ _ _ _ _ _ _ Hf) as Hpl. cbn in Hpl. destruct r as [l|]; cbn in Ht; [destruct Ht as (_ & ty & it & Ht)|]; congruence.
Qed.

End Fetch.

(** What the focus says of the map. *)
Lemma focus_absent h key k m t : focus store c h key k m t -> shaped [] t -> (forall x, x ∈ leaves (erase m) -> ckey x <> key) -> contents t !! key = None.
Proof.
  intros Hf Hs Hm. destruct (focus_shaped store c h key k m t Hf Hs) as [Hcs _]. apply (contents_lookup_None [] t key Hs). intros x Hx.
  rewrite <- (focus_tree _ _ _ _ _ _ _ Hf), plug_leaves in Hx by exact Hcs. rewrite app_assoc, elem_of_app, elem_of_app in Hx.
  assert (length (shadows k) = length k) as Hlen by apply length_fmap.
  pose proof (around_off_path (shadows k) key Hcs ltac:(rewrite Hlen; symmetry; apply Hf) x) as Ha. rewrite elem_of_app in Ha. destruct Hx as [[Hx|Hx]|Hx]; auto.
Qed.

Lemma focus_present h key k m t ty it : focus store c h key k m t -> shaped [] t -> erase m = Leaf ty it -> item_key it = key -> contents t !! key = Some (ty, it).
Proof.
  intros Hf Hs He Hk. destruct (focus_shaped store c h key k m t Hf Hs) as [Hcs _]. apply (contents_lookup [] t key _ Hs). split; [|exact Hk].
  rewrite <- (focus_tree _ _ _ _ _ _ _ Hf), plug_leaves, He by exact Hcs. rewrite !elem_of_app. right. left. left.
Qed.

(** Writing a part in the place of the focus, with the path above it. *)
Lemma dirty_root_spec key k self h m l : is_key key -> owner self = c -> ctx_open store c h k -> holds store c h m -> mloc m = Some l -> NoDup (clocs k ++ locs m) ->
  path_of (shadows k) = take (length k) (nibbles key) -> (length k <= 64)%nat ->
  exists h' self', dirty_root self (trail key k) key l h = (Ok (true, self'), h') /\ tree_ok h' self' (plug (shadows k) (erase m)) /\ keeps store c h h'.
Proof.
  intros Hkey Ho Hk Hm Hl Hnd Hp Hlen. destruct (dirty_up_spec key Hkey k self h m l Ho Hk Hm Hl Hnd Hp Hlen) as (h' & m' & l' & self' & Hd & Hm' & Hl' & He & Hnd' & Hkeep & Ho').
  exists h', (mkTree l' (owner self')). split; [unfold dirty_root, dirty_up; run Hd; reflexivity|]. split; [|exact Hkeep]. split; [exact Ho'|]. exists m'. auto.
Qed.

Lemma ctx_shaped_length k : ctx_shaped k -> (length k <= 64)%nat.
Proof. destruct k as [|[kids b] k]; cbn; [lia|]. intros (_ & Hl & _). lia. Qed.

Lemma removelast_trail key f k r : removelast (trail key (f :: k) ++ leaf_entry key (f :: k) r) = match r with Some _ => trail key (f :: k) | None => trail key k end.
Proof. destruct r as [l|]; cbn [leaf_entry]; [apply removelast_last|]. rewrite app_nil_r. cbn. apply removelast_last. Qed.

Lemma last_trail key f k r : last (trail key (f :: k) ++ leaf_entry key (f :: k) r) =
  Some (match r with Some l => mkEntry l (id_of (take (length (f :: k)) (nibbles key))) | None => mkEntry (frame_loc f) (id_of (take (length k) (nibbles key))) end).
Proof. destruct r as [l|]; cbn [leaf_entry]; [apply last_snoc|]. rewrite app_nil_r. cbn. apply last_snoc. Qed.

End Mutate.
