(* ===== verification/ShamapAdd.v ===== *)
(** * ShamapAdd: adding and updating items

    [add_item] puts a leaf in an empty branch, or splits the leaf that is in the way;
    [update_item] replaces the item of a leaf.  The tree stays compact, and the map of
    its items changes as a map does. *)

From stdpp Require Import gmap list.
From Stdlib Require Import ZArith Lia.
From S2P Require Import Prelude Serializer ShamapKey ShamapNode ShamapSlots ShamapTree ShamapHeap ShamapRepr ShamapWalk ShamapMutate.
Local Open Scope Z_scope.

Section Add.
Context `{Sha512} (store : ghost) (c : Z) (Hc : 1 <= c).

(** ** Into an empty branch *)

Lemma alloc_holds {E} h n l ty it : n = mkNode (leaf_digest ty it) c (LeafBody ty it) -> l = length h ->
  alloc (E := E) n h = (Ok l, h ++ [n]) /\ holds store c (h ++ [n]) (MLeaf l ty it) /\ keeps store c h (h ++ [n]).
Proof.
  intros -> ->. split; [reflexivity|]. split; [|apply keeps_app]. eapply holds_leaf; [apply list_lookup_middle; reflexivity|reflexivity|reflexivity|reflexivity].
Qed.

Lemma open_app h k x : ctx_open store c h k -> ctx_open store c (h ++ x) k.
Proof.
  intros Hk. eapply ctx_open_same; [apply keeps_app|exact Hk|]. intros l Hl. destruct (open_locs store c h k Hk l Hl) as (n & Hn & _).
  rewrite Hn. now apply lookup_app_l_Some.
Qed.

Lemma fresh_nodup h k l : ctx_open store c h k -> NoDup (clocs k) -> (length h <= l)%nat -> NoDup (clocs k ++ [l]).
Proof.
  intros Hk Hnd Hl. apply NoDup_app. split; [exact Hnd|]. split; [|apply NoDup_singleton]. intros x Hx Hin. apply list_elem_of_singleton in Hin as ->.
  destruct (open_locs store c h k Hk l Hx) as (n & Hn & _). apply lookup_lt_Some in Hn. lia.
Qed.

Lemma focus_empty_slot h key f k m t : focus store c h key (f :: k) m t -> erase m = Empty -> slot_in h f None.
Proof.
  intros Hf He. assert (m = MEmpty) as ->.
  { pose proof (focus_holds _ _ _ _ _ _ _ Hf) as Hm. inversion Hm as [|u Hu _|l u Hfr| |]; subst; cbn in He; try congruence. subst u. inversion Hfr. }
  pose proof (focus_ctx _ _ _ _ _ _ _ Hf) as Hk. destruct f as [l ms b|l kids b]; cbn [ctx_at] in Hk.
  - destruct Hk as (Hb & (n & i & Hl & _ & Hbody & Hi & Hsl & _) & _). exists n, i. cbn [frame_loc frame_branch]. repeat (split; [assumption|]).
    destruct (Forall2_lookup_r _ _ _ b MEmpty Hsl) as (s & Hs & Hsm); [now apply list_lookup_insert_eq|]. cbn in Hsm. congruence.
  - destruct Hk as (Hfr & Hb & _). inversion Hfr as [|? n i ? Hl _ Hbody Hi _ Hsl _]; subst. exists n, i. cbn [frame_loc frame_branch]. repeat (split; [assumption|]).
    destruct (Forall2_lookup_r _ _ _ _ _ Hsl Hb) as (s & Hs & Hsm). rewrite Hs. destruct s as [[e [l'|]]|]; cbn in Hsm; [contradiction|now destruct Hsm|reflexivity].
Qed.

(** Taking over the lowest branching, before anything is put there. *)
Lemma take_over key f k self h m t : is_key key -> owner self = c -> focus store c h key (f :: k) m t -> shaped [] t ->
  exists l ms b h1 self1, unshare_node self (frame_loc f) (id_of (take (length k) (nibbles key))) h = (Ok (l, self1), h1) /\ owner self1 = c /\
    ctx_open store c h1 (FOwned l ms b :: k) /\ NoDup (clocs (FOwned l ms b :: k)) /\ shadow (FOwned l ms b) = shadow f /\ b = nibble key (length k) /\
    keeps store c h h1 /\ (forall s, slot_in h f s -> slot_in h1 (FOwned l ms b) s) /\ path_of (shadows k) = take (length k) (nibbles key) /\ (length k < 64)%nat.
Proof.
  intros Hkey Ho Hf Hs. destruct (focus_shaped store c h key (f :: k) m t Hf Hs) as [Hcs _].
  pose proof (ctx_shaped_length _ Hcs) as Hlen. unfold shadows in Hlen. rewrite length_fmap in Hlen. cbn [length] in Hlen.
  pose proof (ctx_at_open store c h (f :: k) m (focus_ctx _ _ _ _ _ _ _ Hf)) as Hopen.
  destruct (path_step key f k (focus_path _ _ _ _ _ _ _ Hf) ltac:(lia)) as [Hp Hb].
  destruct (unshare_spec store c Hc self h f (id_of (take (length k) (nibbles key))) Ho (Hopen f ltac:(left))) as (f' & h1 & self1 & Hun & Hof & Ho1).
  pose proof (focus_nodup _ _ _ _ _ _ _ Hf) as Hnd. apply NoDup_app in Hnd as (Hnd & _ & _).
  destruct (after_unshare store c h f h1 f' k MEmpty Hof Hopen (holds_empty _ _ _) ltac:(cbn [locs]; now rewrite app_nil_r)) as (Hk1 & _ & Hnd1 & Hkeep1).
  destruct (of_owned _ _ _ _ _ _ Hof) as (l & ms & b & ->). pose proof (of_shadow _ _ _ _ _ _ Hof) as Hsh.
  exists l, ms, b, h1, self1. split; [exact Hun|]. split; [exact Ho1|]. split; [intros g Hg; apply elem_of_cons in Hg as [->|Hg]; [apply (of_open _ _ _ _ _ _ Hof)|now apply Hk1]|].
  split; [cbn [locs] in Hnd1; now rewrite app_nil_r in Hnd1|]. split; [exact Hsh|]. split; [rewrite <- Hb; destruct f; cbn in Hsh |- *; now injection Hsh|].
  split; [exact Hkeep1|]. split; [apply (of_slot _ _ _ _ _ _ Hof)|]. split; [exact Hp|lia].
Qed.

(** Putting a part under it, and writing the path. *)
Lemma put_and_raise key l ms b k self h m lm : is_key key -> owner self = c -> ctx_open store c h (FOwned l ms b :: k) -> NoDup (clocs (FOwned l ms b :: k) ++ locs m) ->
  holds store c h m -> mloc m = Some lm -> path_of (shadows k) = take (length k) (nibbles key) -> (length k < 64)%nat ->
  exists h1 h' self', change (E := MutationError) l (fun n => set_child n b (Some lm)) h = (Ok tt, h1) /\ dirty_root self (trail key k) key l h1 = (Ok (true, self'), h') /\
    tree_ok store c h' self' (plug (shadows (FOwned l ms b :: k)) (erase m)) /\ keeps store c h h'.
Proof.
  intros Hkey Ho Hk Hnd Hm Hl Hp Hlen. rewrite clocs_cons, <- app_assoc in Hnd. pose proof (Hk _ (list_elem_of_here _ _)) as Hopen.
  destruct (attach_spec store c Hc h l ms b m Hopen Hm) as (h1 & Hch & Hm1 & Hkeep1 & Hne); [right; congruence| |].
  { apply NoDup_app in Hnd as (H1 & H2 & H3). apply NoDup_app in H3 as (_ & _ & H3). apply NoDup_app. split; [exact H1|]. split; [|exact H3]. intros x Hx Hin. apply (H2 x Hx), elem_of_app. now right. }
  destruct (after_attach store c h h1 l ms b k m (fun g Hg => Hk g (list_elem_of_further _ _ _ Hg)) Hnd (proj1 Hopen) Hkeep1 Hne) as [Hk1 Hnd1].
  destruct (dirty_root_spec store c Hc key k self h1 _ l Hkey Ho Hk1 Hm1 eq_refl Hnd1 Hp ltac:(lia)) as (h' & self' & Hd & Hto & Hkeep2).
  exists h1, h', self'. rewrite Hl in Hch. split; [exact Hch|]. split; [exact Hd|]. split; [|eapply keeps_trans; eassumption].
  cbn [shadows fmap list_fmap shadow plug]. unfold shadows in Hto. rewrite (erase_insert l ms b m (map erase ms) eq_refl) in Hto. exact Hto.
Qed.

Lemma add_into_empty_spec key f k self h m t ty it : is_key key -> owner self = c -> focus store c h key (f :: k) m t -> shaped [] t -> erase m = Empty ->
  item_key it = key -> ty <> Inner -> good_item it ->
  exists h' self', add_into_empty_branch self (trail key (f :: k) ++ leaf_entry key (f :: k) None) key ty it h = (Ok (true, self'), h') /\
    tree_ok store c h' self' (plug (shadows (f :: k)) (Leaf ty it)) /\ keeps store c h h'.
Proof.
  intros Hkey Ho Hf Hs He Hk Hty Hit. destruct (take_over key f k self h m t Hkey Ho Hf Hs) as (l & ms & b & h1 & self1 & Hun & Ho1 & Hk1 & Hnd1 & Hsh & -> & Hkeep1 & Hslot & Hp & Hlen).
  destruct (Hslot None (focus_empty_slot h key f k m t Hf He)) as (n & i & Hn & Hbody & Hi & Hsl). cbn [frame_loc frame_branch] in Hn, Hsl.
  set (leaf := mkNode (leaf_digest ty it) c (LeafBody ty it)). destruct (alloc_holds (E := MutationError) h1 leaf (length h1) ty it eq_refl eq_refl) as (Hal & Hlf & Hkeep2).
  destruct (put_and_raise key l ms (nibble key (length k)) k self1 (h1 ++ [leaf]) (MLeaf (length h1) ty it) (length h1) Hkey Ho1) as (h2 & h' & self' & Hch & Hd & Hto & Hkeep3);
    [now apply open_app|apply (fresh_nodup h1 _ _ Hk1 Hnd1); lia|exact Hlf|reflexivity|exact Hp|exact Hlen|].
  exists h', self'. split; [|split; [|eapply keeps_trans; [exact Hkeep1|eapply keeps_trans; eassumption]]].
  - unfold add_into_empty_branch. rewrite last_trail, removelast_trail. cbn [node_id node].
    run (lift_ok _ _ h (select_at (E := MutationError) key (length k) Hkey Hlen)). run Hun. cbn [fst snd]. run (read_ok (E := MutationError) l h1 n Hn).
    rewrite (node_is_inner n i Hbody). unfold debug_assert at 1. erewrite mbind_ok by reflexivity.
    run (lift_ok _ _ h1 (is_empty_branch_slots (E := MutationError) n i Hbody (nibble key (length k)) None Hsl)). erewrite mbind_ok by reflexivity.
    rewrite Ho. run (lift_ok _ _ h1 (new_leaf_ok (E := MutationError) ty it c Hty Hit)). run Hal. run Hch. exact Hd.
  - unfold shadows in *. rewrite fmap_cons in *. rewrite Hsh in Hto. exact Hto.
Qed.

(** ** Splitting a leaf *)

Definition bare : list mtree := replicate 16 MEmpty.

Lemma new_node_ok {E} h : exists n, new_inner (E := E) c = Ok n /\ node_ok c (h ++ [n]) (length h) bare.
Proof.
  destruct (new_inner_ok (E := E) c) as (i & Hn & Hi & Hs). eexists. split; [exact Hn|]. eexists _, i.
  split; [apply list_lookup_middle; reflexivity|]. split; [reflexivity|]. split; [reflexivity|]. split; [exact Hi|]. rewrite Hs. split.
  - unfold bare. apply Forall2_replicate. reflexivity.
  - right. split; [reflexivity|]. cbn. lia.
Qed.

Lemma node_frame_open h l ms b : (b < 16)%nat -> node_ok c h l ms -> (forall m, m ∈ ms -> holds store c h m) -> frame_open store c h (FOwned l ms b).
Proof.
  intros Hb Hn Hms. pose proof (node_ok_length c h l ms Hn) as Hlen. cbn. split; [lia|]. split.
  - destruct (lookup_lt_is_Some_2 ms b) as [m Hm]; [lia|]. exists m. now rewrite (list_insert_id ms b m Hm).
  - intros j m _ Hj. apply Hms. eapply list_elem_of_lookup_2, Hj.
Qed.

Lemma node_ok_app h l ms x : node_ok c h l ms -> node_ok c (h ++ x) l ms.
Proof. intros (n & i & Hl & Hrest). exists n, i. split; [now apply lookup_app_l_Some|exact Hrest]. Qed.

Lemma bare_hold h m : m ∈ bare -> holds store c h m.
Proof. intros Hm. apply elem_of_replicate_inv in Hm as ->. constructor. Qed.

Lemma bare_same b : <[b := MEmpty]> bare = bare.
Proof. unfold bare. apply insert_replicate. Qed.

Lemma bare_locs b : concat (map locs (<[b := MEmpty]> bare)) = [].
Proof.
  apply concat_nil_Forall, Forall_forall. intros x Hx. apply list_elem_of_In, in_map_iff in Hx as (m & <- & Hm). apply list_elem_of_In, insert_elem in Hm as [->|(j & _ & Hm)]; [reflexivity|].
  apply lookup_replicate in Hm as [-> _]. reflexivity.
Qed.

Lemma bare_erase : map erase bare = no_kids.
Proof. reflexivity. Qed.

(** The two leaves under a new node. *)
Lemma pair_spec self h l a b ty it it' : owner self = c -> node_ok c h l bare -> (a < 16)%nat -> (b < 16)%nat -> a <> b -> ty <> Inner -> good_item it -> good_item it' ->
  exists h', (forall B (K : M MutationError B), (leaf ← lift (new_leaf ty it (owner self)); leaf ← alloc leaf; change l (fun n => set_child n a (Some leaf));;
      old ← lift (new_leaf ty it' (owner self)); old ← alloc old; change l (fun n => set_child n b (Some old));; K) h = K h') /\
    exists l1 l2, (length h <= l1)%nat /\ (length h <= l2)%nat /\ l1 <> l2 /\ holds store c h' (MNode l (<[b := MLeaf l2 ty it']> (<[a := MLeaf l1 ty it]> bare))) /\ keeps store c h h' /\
    (forall l0, l0 <> l -> (l0 < length h)%nat -> h' !! l0 = h !! l0).
Proof.
  intros Ho Hn Ha Hb Hab Hty Hit Hit'. pose proof Hn as (nl & il & Hl & _). pose proof (lookup_lt_Some _ _ _ Hl) as Hlt.
  set (n1 := mkNode (leaf_digest ty it) c (LeafBody ty it)). set (n2 := mkNode (leaf_digest ty it') c (LeafBody ty it')).
  destruct (alloc_holds (E := MutationError) h n1 (length h) ty it eq_refl eq_refl) as (Hal1 & Hl1 & Hk1).
  destruct (attach_spec store c Hc (h ++ [n1]) l bare a (MLeaf (length h) ty it)) as (h1 & Hch1 & Hm1 & Hk2 & Hne1);
    [apply node_frame_open; [exact Ha|now apply node_ok_app|apply bare_hold]|exact Hl1|right; discriminate| |].
  { cbn [flocs locs]. rewrite bare_locs. apply NoDup_cons. split; [|apply NoDup_singleton]. intros Hin. apply list_elem_of_singleton in Hin. lia. }
  inversion_clear Hm1 as [| | | |? ? Hn1 Hms1].
  assert (forall l0, l0 <> l -> (l0 < length h)%nat -> h1 !! l0 = h !! l0) as Hsame1 by (intros l0 Hne Hl0; rewrite Hne1 by exact Hne; now apply lookup_app_l).
  assert (length h < length h1)%nat as Hlen1 by (apply (lookup_lt_Some _ _ n1); rewrite Hne1 by lia; apply list_lookup_middle; reflexivity).
  destruct (alloc_holds (E := MutationError) h1 n2 (length h1) ty it' eq_refl eq_refl) as (Hal2 & Hl2 & Hk3).
  destruct (attach_spec store c Hc (h1 ++ [n2]) l (<[a := MLeaf (length h) ty it]> bare) b (MLeaf (length h1) ty it')) as (h' & Hch2 & Hm2 & Hk4 & Hne2);
    [apply node_frame_open; [exact Hb|now apply node_ok_app|]|exact Hl2|right; discriminate| |].
  { intros m Hm. eapply holds_same; [exact Hk3|apply Hms1, Hm|]. intros l0 Hl0. destruct (holds_locs store c h1 m (Hms1 m Hm) l0 Hl0) as (n & Hn0 & _). rewrite Hn0. now apply lookup_app_l_Some. }
  { cbn [flocs locs]. rewrite list_insert_insert_ne by congruence. rewrite bare_same, (locs_insert bare a _ Ha), bare_locs. cbn [locs app].
    apply NoDup_ListNoDup. repeat constructor; cbn; lia. }
  exists h'. split.
  - intros B K. rewrite Ho. run (lift_ok _ _ h (new_leaf_ok (E := MutationError) ty it c Hty Hit)). run Hal1. cbn [mloc] in Hch1, Hch2. run Hch1.
    run (lift_ok _ _ h1 (new_leaf_ok (E := MutationError) ty it' c Hty Hit')). run Hal2. run Hch2. reflexivity.
  - exists (length h), (length h1). split; [lia|]. split; [lia|]. split; [lia|]. split; [exact Hm2|]. split; [do 3 (eapply keeps_trans; [eassumption|]); eassumption|].
    intros l0 Hne Hl0. rewrite Hne2 by exact Hne. rewrite lookup_app_l by lia. now apply Hsame1.
Qed.

Section Split.
Context (ty : SHAMapNodeType) (x y : SHAMapItem) (D : nat).
Context (Hty : ty <> Inner) (Hx : good_item x) (Hy : good_item y) (HD : (D < 64)%nat).
Context (Hpart : nibble (item_key x) D <> nibble (item_key y) D) (Hsame : forall i, (i < D)%nat -> nibble (item_key x) i = nibble (item_key y) i).

Let key := item_key x.
Let both := fork (nibble key D) (nibble (item_key y) D) ty x y.

Lemma select_both {E} d : (d <= D)%nat -> select_branch (E := E) (id_of (take d (nibbles key))) key = Ok (nibble key d) /\
  select_branch (E := E) (id_of (take d (nibbles key))) (item_key y) = Ok (nibble (item_key y) d).
Proof.
  intros Hd. split; [apply select_at; [apply (item_key_ok x Hx)|lia]|]. unfold key. rewrite (take_nibbles_eq (item_key x) (item_key y) d) by (auto with lia).
  apply select_at; [apply (item_key_ok y Hy)|lia].
Qed.

Lemma split_end fuel self h k l : length k = D -> owner self = c -> ctx_open store c h k -> NoDup (clocs k) -> node_ok c h l bare -> l ∉ clocs k ->
  path_of (shadows k) = take (length k) (nibbles key) ->
  exists h' self', split_loop (S fuel) self (trail key k) (id_of (take (length k) (nibbles key))) l key ty x y h = (Ok (true, self'), h') /\
    tree_ok store c h' self' (plug (shadows k) both) /\ keeps store c h h'.
Proof.
  intros HkD Ho Hk Hnd Hn Hl Hp. destruct (select_both (E := MutationError) (length k) ltac:(lia)) as [Hsx Hsy]. pose proof (item_key_ok x Hx) as Kx. pose proof (item_key_ok y Hy) as Ky.
  destruct (pair_spec self h l (nibble key D) (nibble (item_key y) D) ty x y Ho Hn (nibble_lt _ _ (proj2 Kx)) (nibble_lt _ _ (proj2 Ky)) Hpart Hty Hx Hy) as (h1 & Hrun & l1 & l2 & Hl1 & Hl2 & Hl12 & Hm & Hkeep & Hfr).
  assert (forall l0, l0 ∈ clocs k -> (l0 < length h)%nat) as Hlow by (intros l0 Hl0; destruct (open_locs store c h k Hk l0 Hl0) as (n & Hn0 & _); now apply lookup_lt_Some in Hn0).
  assert (ctx_open store c h1 k) as Hk1 by (eapply ctx_open_same; [exact Hkeep|exact Hk|]; intros l0 Hl0; apply Hfr; [congruence|auto]).
  destruct Hn as (nl & il & Hnl & _). apply lookup_lt_Some in Hnl.
  destruct (dirty_root_spec store c Hc key k self h1 _ l Kx Ho Hk1 Hm eq_refl) as (h' & self' & Hd & Hto & Hkeep2); [|exact Hp|lia|].
  { assert (locs (MNode l (<[nibble (item_key y) D:=MLeaf l2 ty y]> (<[nibble key D:=MLeaf l1 ty x]> bare))) ≡ₚ [l; l1; l2]) as ->.
    { cbn [locs]. apply perm_skip. rewrite locs_insert by (rewrite length_insert; apply (nibble_lt _ _ (proj2 Ky))). rewrite list_insert_insert_ne by (apply not_eq_sym, Hpart).
      rewrite bare_same, (locs_insert bare (nibble key D) _ (nibble_lt _ _ (proj2 Kx))), bare_locs. reflexivity. }
    apply NoDup_app. split; [exact Hnd|]. split.
    - intros l0 Hl0 Hin. pose proof (Hlow l0 Hl0). rewrite !elem_of_cons in Hin. destruct Hin as [->|[->|[->|Hin]]]; [auto|lia|lia|inversion Hin].
    - apply NoDup_ListNoDup. repeat constructor; cbn; lia. }
  exists h', self'. split; [|split; [|eapply keeps_trans; eassumption]].
  - cbn [split_loop]. run (lift_ok _ _ h Hsx). run (lift_ok _ _ h Hsy). rewrite decide_True by (rewrite HkD; exact Hpart). rewrite HkD. rewrite Hrun. exact Hd.
  - unfold both, fork. cbn [erase] in Hto. rewrite !(list_fmap_insert erase) in Hto. exact Hto.
Qed.

Lemma split_loop_spec n : forall fuel self h k l, D = (length k + n)%nat -> (n < fuel)%nat -> owner self = c -> ctx_open store c h k -> NoDup (clocs k) -> node_ok c h l bare -> l ∉ clocs k ->
  path_of (shadows k) = take (length k) (nibbles key) ->
  exists h' self', split_loop fuel self (trail key k) (id_of (take (length k) (nibbles key))) l key ty x y h = (Ok (true, self'), h') /\
    tree_ok store c h' self' (plug (shadows k) (chain key (length k) n both)) /\ keeps store c h h'.
Proof.
  induction n as [|n IH]; intros fuel self h k l HkD Hfuel Ho Hk Hnd Hn Hl Hp; (destruct fuel as [|fuel]; [lia|]); [apply split_end; auto; lia|].
  destruct (select_both (E := MutationError) (length k) ltac:(lia)) as [Hsx Hsy]. pose proof (item_key_ok x Hx) as Kx.
  assert (nibble key (length k) < 16)%nat as Hb by apply (nibble_lt _ _ (proj2 Kx)).
  set (f := FOwned l bare (nibble key (length k))). destruct (new_node_ok (E := MutationError) h) as (nd & Hnew & Hnd').
  assert (ctx_open store c (h ++ [nd]) (f :: k)) as Hk1.
  { intros g Hg. apply elem_of_cons in Hg as [->|Hg]; [|exact (open_app h k [nd] Hk g Hg)]. apply node_frame_open; [exact Hb|now apply node_ok_app|apply bare_hold]. }
  assert (NoDup (clocs (f :: k))) as Hnd1 by (rewrite clocs_cons; cbn [f flocs]; rewrite bare_locs; now apply NoDup_cons).
  assert (length h ∉ clocs (f :: k)) as Hfresh.
  { intros Hin. rewrite clocs_cons in Hin. cbn [f flocs] in Hin. rewrite bare_locs in Hin. apply elem_of_cons in Hin as [Hin|Hin].
    - destruct Hn as (m & i & Hm & _). apply lookup_lt_Some in Hm. lia.
    - destruct (open_locs store c h k Hk _ Hin) as (m & Hm & _). apply lookup_lt_Some in Hm. lia. }
  destruct (IH fuel self (h ++ [nd]) (f :: k) (length h)) as (h' & self' & Hrun & Hto & Hkeep); auto; [cbn; lia|lia| |].
  { unfold shadows. rewrite fmap_cons. cbn [f shadow]. rewrite path_of_cons. cbn [length]. rewrite take_next by lia. unfold shadows in Hp. now rewrite Hp. }
  exists h', self'. split; [|split; [exact Hto|eapply keeps_trans; [apply keeps_app|exact Hkeep]]].
  cbn [split_loop]. run (lift_ok _ _ h Hsx). run (lift_ok _ _ h Hsy). rewrite decide_False by (intros Hne; apply Hne, Hsame; lia).
  rewrite (child_id_path (take (length k) (nibbles key)) (nibble key (length k))) by (first [apply path_ok_take, Kx|exact Hb|rewrite length_take, nibbles_length; lia]).
  cbn [expect]. erewrite mbind_ok by reflexivity. rewrite Ho. run (lift_ok _ _ h Hnew). erewrite mbind_ok by reflexivity.
  cbn [trail length] in Hrun. rewrite take_next in Hrun by lia. exact Hrun.
Qed.

End Split.

(** ** [add_item] *)

Lemma shadows_ne f k : shadows (f :: k) <> [].
Proof. unfold shadows. rewrite fmap_cons. discriminate. Qed.

(** A leaf at the place of the focus gives way to a tree with more items. *)
Lemma focus_grow h key f k m t u : focus store c h key (f :: k) m t -> rooted t -> shaped (take (length (f :: k)) (nibbles key)) u -> compact u ->
  (length (leaves (erase m)) <= length (leaves u))%nat -> rooted (plug (shadows (f :: k)) u).
Proof.
  intros Hf Hr Hs Hcu Hle. pose proof Hr as (kids & Ht & Hst & _). destruct (focus_shaped store c h key (f :: k) m t Hf Hst) as [Hcs _].
  pose proof (focus_tree _ _ _ _ _ _ _ Hf) as Hpl. rewrite <- Hpl in Hr. destruct (rooted_inv _ _ (shadows_ne f k) Hcs Hr) as [Hcc _].
  apply rooted_plug; [apply shadows_ne|exact Hcs|eapply ctx_compact_mono; eauto| |exact Hcu]. now rewrite (focus_path _ _ _ _ _ _ _ Hf).
Qed.

Lemma focus_leaves h key f k m t u : focus store c h key (f :: k) m t -> shaped [] t -> exists l, leaves t ≡ₚ leaves (erase m) ++ l /\ leaves (plug (shadows (f :: k)) u) ≡ₚ leaves u ++ l.
Proof.
  intros Hf Hs. destruct (focus_shaped store c h key (f :: k) m t Hf Hs) as [Hcs _]. exists ((around (shadows (f :: k))).1 ++ (around (shadows (f :: k))).2).
  rewrite <- (focus_tree _ _ _ _ _ _ _ Hf), !plug_leaves by exact Hcs. split; rewrite Permutation_app_swap_app; reflexivity.
Qed.

Lemma parting x y d : is_key (item_key x) -> is_key (item_key y) -> item_key x <> item_key y -> take d (nibbles (item_key x)) = take d (nibbles (item_key y)) ->
  exists D, (d <= D < 64)%nat /\ nibble (item_key x) D <> nibble (item_key y) D /\ forall i, (i < D)%nat -> nibble (item_key x) i = nibble (item_key y) i.
Proof.
  intros Hx Hy Hne Hp. destruct (keys_part _ _ Hx Hy Hne) as (D & HD & Hparts).
  assert (nibble (item_key x) D <> nibble (item_key y) D /\ forall i, (i < D)%nat -> nibble (item_key x) i = nibble (item_key y) i) as [H1 H2].
  { destruct Hparts as [[H1 H2]|[H1 H2]]; (split; [lia|]); [exact H1|]. intros i Hi. symmetry. auto. }
  exists D. split; [|auto]. split; [|exact HD]. destruct (Nat.lt_ge_cases D d) as [Hlt|Hge]; [|exact Hge]. destruct H1.
  apply (f_equal (fun l => nth D l O)) in Hp. now rewrite !nth_take, !nth_nibbles in Hp by lia.
Qed.

(** The leaf in the way. *)
Lemma add_split_spec key f k self h m t l ty it ty0 it0 : is_key key -> owner self = c -> focus store c h key (f :: k) m t -> rooted t -> mloc m = Some l -> erase m = Leaf ty0 it0 ->
  item_key it = key -> item_key it0 <> key -> ty <> Inner -> good_item it -> ty0 = ty ->
  exists h' self' t', add_with_leaf_split self (trail key (f :: k) ++ leaf_entry key (f :: k) (Some l)) l ty it h = (Ok (true, self'), h') /\
    tree_ok store c h' self' t' /\ rooted t' /\ contents t' = <[key := (ty, it)]> (contents t) /\ keeps store c h h'.
Proof.
  intros Hkey Ho Hf Hr Hl He Hk Hk0 Hty Hit ->. pose proof Hr as (kids & Ht & Hs & _). destruct (focus_shaped store c h key (f :: k) m t Hf Hs) as [Hcs Hsm].
  rewrite He in Hsm. inversion Hsm as [|? ? ? _ Hit0 Hpre|]; subst ty0 it1 p. pose proof (item_key_ok it0 Hit0) as Kit0.
  destruct (leaf_node store c Hc h m l ty it0 (focus_holds _ _ _ _ _ _ _ Hf) Hl He) as (n & Hn & Hb & _ & _).
  pose proof (ctx_shaped_length _ Hcs) as Hlen. unfold shadows in Hlen. rewrite length_fmap in Hlen.
  destruct (parting it it0 (length (f :: k))) as (D & HD & Hne & Hsame); [now rewrite Hk|exact Kit0|congruence|rewrite length_take, nibbles_length, Nat.min_l in Hpre by exact Hlen; rewrite Hk; symmetry; exact Hpre|].
  subst key. set (key := item_key it) in *. destruct (new_node_ok (E := MutationError) h) as (nd & Hnew & Hndok).
  pose proof (ctx_at_open store c h (f :: k) m (focus_ctx _ _ _ _ _ _ _ Hf)) as Hopen. pose proof (focus_nodup _ _ _ _ _ _ _ Hf) as Hnd. apply NoDup_app in Hnd as (Hnd & _ & _).
  destruct (split_loop_spec ty it it0 D Hty Hit Hit0 (proj2 HD) Hne Hsame (D - length (f :: k)) LEVELS self (h ++ [nd]) (f :: k) (length h)) as (h' & self' & Hrun & Hto & Hkeep); auto.
  { lia. } { unfold LEVELS. lia. } { now apply open_app. }
  { intros Hin. destruct (open_locs store c h _ Hopen _ Hin) as (x & Hx & _). apply lookup_lt_Some in Hx. lia. } { apply (focus_path _ _ _ _ _ _ _ Hf). }
  set (both := fork (nibble key D) (nibble (item_key it0) D) ty it it0) in *. set (u := chain key (length (f :: k)) (D - length (f :: k)) both) in *.
  destruct (fork_ok (nibble key D) (nibble (item_key it0) D) D ty it it0) as (Hfs & Hfc & Hfl); auto; [lia|].
  destruct (chain_ok key (D - length (f :: k)) (length (f :: k)) both Hkey ltac:(lia)) as (Hcs' & Hcc' & Hcl') ; [replace (length (f :: k) + (D - length (f :: k)))%nat with D by lia; exact Hfs|exact Hfc|unfold both; rewrite Hfl; cbn; lia|].
  assert (rooted (plug (shadows (f :: k)) u)) as Hr'.
  { apply (focus_grow h key f k m t); auto. unfold u. rewrite Hcl'. unfold both. rewrite Hfl, He. cbn. lia. }
  exists h', self', (plug (shadows (f :: k)) u). split; [|split; [exact Hto|split; [exact Hr'|split; [|eapply keeps_trans; [apply keeps_app|exact Hkeep]]]]].
  - unfold add_with_leaf_split. rewrite last_trail, removelast_trail. cbn [node_id]. run (read_ok (E := MutationError) l h n Hn). unfold peek_item, get_type. rewrite Hb.
    rewrite decide_False by exact Hk0. rewrite decide_False by (intros Hx; now apply Hx). rewrite Ho. run (lift_ok _ _ h Hnew). erewrite mbind_ok by reflexivity. exact Hrun.
  - destruct Hr' as (kids' & _ & Hs' & _). destruct (focus_leaves h key f k m t u Hf Hs) as (rest & Hl1 & Hl2).
    unfold u in Hl2 at 2. rewrite Hcl' in Hl2. unfold both in Hl2 at 1. rewrite Hfl in Hl2. rewrite He in Hl1. exact (contents_insert [] [] t _ Hs Hs' (ty, it) _ Hl2 Hl1).
Qed.

Section Fetched.
Context (backed : bool) (fetch : Fetch) (Hfetch : fetch_ok store backed fetch).

Lemma add_item_spec self h t ty it : tree_ok store c h self t -> rooted t -> ty <> Inner -> good_item it ->
  exists h' r, add_item_in backed fetch self ty it h = (r, h') /\ keeps store c h h' /\
    ((exists x, contents t !! item_key it = Some x /\ r = Ok (false, self) /\ tree_ok store c h' self t) \/
     (contents t !! item_key it = None /\ exists self' t', r = Ok (true, self') /\ tree_ok store c h' self' t' /\ rooted t' /\ contents t' = <[item_key it := (ty, it)]> (contents t)) \/
     (contents t !! item_key it = None /\ exists x, x ∈ leaves t /\ x.1 <> ty /\ r = Err (CrossTypeChange ty x.1) /\ tree_ok store c h' self t)).
Proof.
  intros Hto Hr Hty Hit. pose proof (item_key_ok it Hit) as Hkey. pose proof (proj1 Hto) as Ho. pose proof Hr as (kids & Ht & Hs & _).
  destruct (walk_from_root store c Hc backed fetch Hfetch (item_key it) h self t Hkey Hto Hr) as (h1 & f & k & m & r & Hw & Hkeep1 & Hf & Hterm & Hto1).
  unfold add_item_in. rewrite decide_False by exact Hty. rewrite (mbind_ok _ _ _ _ _ (run_lower Traversal _ _ _ _ Hw)). cbn [fst snd]. destruct r as [l|]; cbn [terminal] in Hterm.
  - destruct Hterm as (Hl & ty0 & it0 & He). destruct (leaf_node store c Hc h1 m l ty0 it0 (focus_holds _ _ _ _ _ _ _ Hf) Hl He) as (n & Hn & Hb & _ & _).
    destruct (decide (item_key it0 = item_key it)) as [Hk|Hk]; [|destruct (decide (ty0 = ty)) as [Hty0|Hty0]].
    + exists h1, (Ok (false, self)). split; [|split; [exact Hkeep1|left]].
      * unfold add_with_leaf_split. rewrite last_trail. run (read_ok (E := MutationError) l h1 n Hn). unfold peek_item. rewrite Hb. now rewrite decide_True.
      * exists (ty0, it0). split; [|auto]. eapply focus_present; eauto.
    + destruct (add_split_spec (item_key it) f k self h1 m t l ty it ty0 it0) as (h' & self' & t' & Hrun & Hto' & Hr' & Hct & Hkeep2); auto.
      exists h', (Ok (true, self')). split; [exact Hrun|]. split; [eapply keeps_trans; eassumption|]. right. left. split; [|eauto 6].
      eapply focus_absent; eauto. rewrite He. intros x Hx. apply list_elem_of_singleton in Hx as ->. exact Hk.
    + exists h1, (Err (CrossTypeChange ty ty0)). split; [|split; [exact Hkeep1|right; right]].
      * unfold add_with_leaf_split. rewrite last_trail. run (read_ok (E := MutationError) l h1 n Hn). unfold peek_item, get_type. rewrite Hb. now rewrite decide_False, decide_True by auto.
      * split; [eapply focus_absent; eauto; rewrite He; intros x Hx; apply list_elem_of_singleton in Hx as ->; exact Hk|]. exists (ty0, it0). split; [|auto].
        destruct (focus_leaves h1 (item_key it) f k m t Empty Hf Hs) as (rest & -> & _). rewrite He. left.
  - destruct (add_into_empty_spec (item_key it) f k self h1 m t ty it Hkey Ho Hf Hs Hterm eq_refl Hty Hit) as (h' & self' & Hrun & Hto' & Hkeep2).
    exists h', (Ok (true, self')). split; [exact Hrun|]. split; [eapply keeps_trans; eassumption|]. right. left. split; [eapply focus_absent; eauto; rewrite Hterm; inversion 1|].
    assert (rooted (plug (shadows (f :: k)) (Leaf ty it))) as Hr'.
    { apply (focus_grow h1 (item_key it) f k m t); auto; [|constructor|rewrite Hterm; cbn; lia]. constructor; auto. rewrite length_take, <- take_take. f_equal. }
    exists self', (plug (shadows (f :: k)) (Leaf ty it)). split; [reflexivity|]. split; [exact Hto'|]. split; [exact Hr'|].
    destruct Hr' as (kids' & _ & Hs' & _). destruct (focus_leaves h1 (item_key it) f k m t (Leaf ty it) Hf Hs) as (rest & Hl1 & Hl2). rewrite Hterm in Hl1.
    exact (contents_insert [] [] t _ Hs Hs' (ty, it) _ Hl2 Hl1).
Qed.

(** ** [update_item] *)

Lemma tree_ok_app h self t x : tree_ok store c h self t -> tree_ok store c (h ++ x) self t.
Proof.
  intros (Ho & m & Hm & Hrest). split; [exact Ho|]. exists m. split; [|exact Hrest]. eapply holds_same; [apply keeps_app|exact Hm|].
  intros l Hl. destruct (holds_locs store c h m Hm l Hl) as (n & Hn & _). rewrite Hn. now apply lookup_app_l_Some.
Qed.

(** The leaf becomes one of the tree's own. *)
Lemma unshare_leaf key f k self h m t l ty it : owner self = c -> focus store c h key (f :: k) m t -> mloc m = Some l -> erase m = Leaf ty it -> ty <> Inner -> good_item it ->
  exists l' x, unshare_node self l (id_of (take (length (f :: k)) (nibbles key))) h = (Ok (l', self), h ++ x) /\
    (h ++ x) !! l' = Some (mkNode (leaf_digest ty it) c (LeafBody ty it)) /\ NoDup (clocs (f :: k) ++ [l']) /\ ctx_open store c (h ++ x) (f :: k).
Proof.
  intros Ho Hf Hl He Hty Hit. pose proof (ctx_at_open store c h (f :: k) m (focus_ctx _ _ _ _ _ _ _ Hf)) as Hopen. pose proof (focus_nodup _ _ _ _ _ _ _ Hf) as Hnd. pose proof (focus_holds _ _ _ _ _ _ _ Hf) as Hm.
  assert (is_root (id_of (take (length (f :: k)) (nibbles key))) = false) as Hroot by reflexivity.
  destruct m as [|u|l0 u|l0 ty' it'|l0 ms]; try discriminate; cbn in Hl, He; injection Hl as ->.
  - subst u. inversion Hm as [| |? ? Hfr| |]; subst l0 t0. inversion Hfr as [? n ? ? Hn Hcn Hb Hh|]; subst l0 ty0 it0. exists (length h), [mkNode (hash n) c (LeafBody ty it)]. split.
    + unfold unshare_node. run (read_ok (E := MutationError) l h n Hn). rewrite !decide_False by lia. rewrite Ho. run (lift_ok _ _ h (clone_leaf_ok (E := MutationError) n ty it c Hb Hty Hit)). now rewrite Hroot.
    + split; [rewrite <- Hh; apply list_lookup_middle; reflexivity|]. split; [|now apply open_app]. cbn [locs] in Hnd. rewrite app_nil_r in Hnd. apply (fresh_nodup h); auto.
  - injection He as -> ->. inversion Hm as [| | |? n ? ? Hn Hcn Hb Hh|]; subst l0 ty0 it0. exists l, []. rewrite app_nil_r. split; [|split; [|split; [exact Hnd|exact Hopen]]].
    + unfold unshare_node. run (read_ok (E := MutationError) l h n Hn). rewrite decide_False by lia. rewrite decide_True by congruence. reflexivity.
    + rewrite Hn. destruct n as [hn cn bn]. cbn in *. congruence.
Qed.

(** The item of an owned leaf is written, and the path above it unless the digest is the same. *)
Lemma update_leaf key f k self h m t l ty it it' : is_key key -> owner self = c -> tree_ok store c h self t -> focus store c h key (f :: k) m t -> rooted t -> mloc m = Some l -> erase m = Leaf ty it -> ty <> Inner -> good_item it' ->
  item_key it' = key -> item_key it = key ->
  exists h' self', (u ← unshare_node self l (id_of (take (length (f :: k)) (nibbles key))); n ← read u.1; s ← lift (set_item n it'); write u.1 s.2;;
      if (s.1 : bool) then dirty_root u.2 (trail key (f :: k)) key u.1 else mret (true, u.2)) h = (Ok (true, self'), h') /\ keeps store c h h' /\
    ((exists t', tree_ok store c h' self' t' /\ rooted t' /\ contents t' = <[key := (ty, it')]> (contents t)) \/ (it <> it' /\ leaf_digest ty it = leaf_digest ty it')).
Proof.
  intros Hkey Ho Hto Hf Hr Hl He Hty Hit' Hk' Hk. pose proof Hr as (kids & Ht & Hs & _). destruct (focus_shaped store c h key (f :: k) m t Hf Hs) as [Hcs Hsm].
  rewrite He in Hsm. inversion Hsm as [|? ? ? _ Hit Hpre|]; subst ty0 it0 p.
  destruct (unshare_leaf key f k self h m t l ty it Ho Hf Hl He Hty Hit) as (l' & x & Hun & Hn & Hnd & Hopen).
  set (n' := mkNode (leaf_digest ty it') c (LeafBody ty it')).
  assert (forall B (K : bool * SHAMapTreeNode -> M MutationError B), (s ← lift (set_item (mkNode (leaf_digest ty it) c (LeafBody ty it)) it'); K s) (h ++ x) = K (bool_decide (leaf_digest ty it <> leaf_digest ty it'), n') (h ++ x)) as Hset.
  { intros B K. erewrite mbind_ok; [reflexivity|]. apply lift_ok. rewrite (set_item_ok (E := MutationError) (mkNode (leaf_digest ty it) c (LeafBody ty it)) ty it it' eq_refl Hty ltac:(cbn; lia)). reflexivity. }
  assert (forall l0, l0 <> l' -> <[l' := n']> (h ++ x) !! l0 = (h ++ x) !! l0) as Hne by (intros l0 Hl0; now rewrite list_lookup_insert_ne).
  assert (keeps store c (h ++ x) (<[l' := n']> (h ++ x))) as Hkeep by (eapply keeps_write; [exact Hn|reflexivity]).
  run Hun. cbn [fst snd]. run (read_ok (E := MutationError) l' (h ++ x) _ Hn). rewrite Hset. cbn [fst snd]. unfold write at 1. erewrite mbind_ok by reflexivity.
  destruct (decide (leaf_digest ty it = leaf_digest ty it')) as [Hd|Hd].
  - rewrite bool_decide_eq_false_2 by auto. exists (<[l' := n']> (h ++ x)), self. split; [reflexivity|]. split; [eapply keeps_trans; [apply keeps_app|exact Hkeep]|].
    destruct (decide (it = it')) as [<-|Hi]; [left|right; auto]. exists t. split; [|split; [exact Hr|]].
    + subst n'. rewrite list_insert_id by exact Hn. now apply tree_ok_app.
    + symmetry. apply insert_id. eapply focus_present; eauto.
  - rewrite bool_decide_eq_true_2 by exact Hd.
    assert (ctx_open store c (<[l' := n']> (h ++ x)) (f :: k)) as Hopen'.
    { eapply ctx_open_same; [exact Hkeep|exact Hopen|]. intros l0 Hl0. apply Hne. intros ->. apply NoDup_app in Hnd as (_ & Hnd & _). apply (Hnd l' Hl0). left. }
    destruct (dirty_root_spec store c Hc key (f :: k) self (<[l' := n']> (h ++ x)) (MLeaf l' ty it') l' Hkey Ho Hopen') as (h' & self' & Hdr & Hto' & Hkeep2); [|reflexivity|exact Hnd|apply (focus_path _ _ _ _ _ _ _ Hf)| |].
    { eapply holds_leaf; [apply list_lookup_insert_eq; eapply lookup_lt_Some, Hn|reflexivity|reflexivity|reflexivity]. }
    { pose proof (ctx_shaped_length _ Hcs) as Hlen. unfold shadows in Hlen. now rewrite length_fmap in Hlen. }
    exists h', self'. split; [exact Hdr|]. split; [eapply keeps_trans; [apply keeps_app|eapply keeps_trans; eassumption]|]. left. eexists. split; [exact Hto'|]. cbn [erase].
    assert (rooted (plug (shadows (f :: k)) (Leaf ty it'))) as Hr'.
    { apply (focus_grow h key f k m t); auto; [|constructor|rewrite He; reflexivity]. constructor; auto. rewrite Hk', <- Hk. rewrite <- Hk in Hpre. exact Hpre. }
    split; [exact Hr'|]. destruct Hr' as (kids' & _ & Hs' & _). destruct (focus_leaves h key f k m t (Leaf ty it') Hf Hs) as (rest & Hl1 & Hl2). rewrite He in Hl1.
    rewrite <- Hk'. apply (contents_replace [] [] t _ Hs Hs' (ty, it') (ty, it) rest Hl2 Hl1). unfold ckey. cbn. congruence.
Qed.

Lemma update_item_spec self h t ty it : tree_ok store c h self t -> rooted t -> ty <> Inner -> good_item it ->
  exists h' r, update_item_in backed fetch self ty it h = (r, h') /\ keeps store c h h' /\
    ((contents t !! item_key it = None /\ r = Err (MissingExactLeaf (item_key it)) /\ tree_ok store c h' self t) \/
     (exists ty0 it0, contents t !! item_key it = Some (ty0, it0) /\ ty0 <> ty /\ r = Err (CrossTypeChange ty ty0) /\ tree_ok store c h' self t) \/
     (exists it0 self', contents t !! item_key it = Some (ty, it0) /\ r = Ok (true, self') /\
        ((exists t', tree_ok store c h' self' t' /\ rooted t' /\ contents t' = <[item_key it := (ty, it)]> (contents t)) \/ (it0 <> it /\ leaf_digest ty it0 = leaf_digest ty it)))).
Proof.
  intros Hto Hr Hty Hit. pose proof (item_key_ok it Hit) as Hkey. pose proof (proj1 Hto) as Ho. pose proof Hr as (kids & Ht & Hs & _).
  destruct (walk_from_root store c Hc backed fetch Hfetch (item_key it) h self t Hkey Hto Hr) as (h1 & f & k & m & r & Hw & Hkeep1 & Hf & Hterm & Hto1).
  unfold update_item_in. rewrite decide_False by exact Hty. rewrite (mbind_ok _ _ _ _ _ (run_lower Traversal _ _ _ _ Hw)). cbn [fst snd]. rewrite last_trail.
  destruct r as [l|]; cbn [terminal] in Hterm.
  2:{ exists h1, (Err (MissingExactLeaf (item_key it))). split; [reflexivity|]. split; [exact Hkeep1|]. left. split; [|auto]. eapply focus_absent; eauto. rewrite Hterm. inversion 1. }
  destruct Hterm as (Hl & ty0 & it0 & He). destruct (leaf_node store c Hc h1 m l ty0 it0 (focus_holds _ _ _ _ _ _ _ Hf) Hl He) as (n & Hn & Hb & _ & _).
  rewrite (mbind_ok _ _ _ _ _ (read_ok (E := MutationError) l h1 n Hn)). unfold peek_item, get_type. rewrite Hb. cbn [node_id]. rewrite removelast_trail.
  destruct (decide (item_key it0 = item_key it)) as [Hk|Hk].
  2:{ rewrite decide_True by exact Hk. exists h1, (Err (MissingExactLeaf (item_key it))). split; [reflexivity|]. split; [exact Hkeep1|]. left. split; [|auto].
      eapply focus_absent; eauto. rewrite He. intros x Hx. apply list_elem_of_singleton in Hx as ->. exact Hk. }
  rewrite decide_False by auto. pose proof (focus_present store c h1 (item_key it) (f :: k) m t ty0 it0 Hf Hs He Hk) as Hpres. destruct (decide (ty0 = ty)) as [->|Hty0].
  - rewrite decide_False by auto. destruct (update_leaf (item_key it) f k self h1 m t l ty it0 it Hkey Ho Hto1 Hf Hr Hl He Hty Hit eq_refl Hk) as (h' & self' & Hrun & Hkeep2 & Hres).
    exists h', (Ok (true, self')). split; [exact Hrun|]. split; [eapply keeps_trans; eassumption|]. right. right. eauto 8.
  - rewrite decide_True by exact Hty0. exists h1, (Err (CrossTypeChange ty ty0)). split; [reflexivity|]. split; [exact Hkeep1|]. right. left. eauto 8.
Qed.

End Fetched.

End Add.
