(* ===== verification/ShamapDelete.v ===== *)
(** * ShamapDelete: removing items

    [delete_item] takes the leaf away and goes up the path: a branching that is left
    with a single item below it is replaced by a leaf, one that is left with none is
    taken away, and the root stays.  This is [prune] on the tree, so the tree is the one
    its items determine.  The collapse is a parameter of the loop ([collapse_ok]), with
    an instance for trees that are in memory and one that fetches. *)

From stdpp Require Import gmap list.
From Stdlib Require Import ZArith Lia.
From S2P Require Import Prelude Serializer ShamapKey ShamapNode ShamapSlots ShamapTree ShamapHeap ShamapRepr ShamapWalk ShamapMutate ShamapAdd.
Local Open Scope Z_scope.

(** ** Lists with one element of a kind *)

Section Count.
Context {A : Type} (P : A -> Prop) `{!forall x, Decision (P x)}.

Lemma filter_around (l : list A) b x : l !! b = Some x -> P x -> length (filter P l) = S (length (filter P (take b l)) + length (filter P (drop (S b) l))).
Proof. intros Hb Hx. rewrite <- (take_drop_middle l b x Hb) at 1. rewrite filter_app, filter_cons_True by exact Hx. rewrite length_app. cbn. lia. Qed.

Lemma filter_length_0 (l : list A) : length (filter P l) = O <-> Forall (fun x => ~ P x) l.
Proof.
  induction l as [|x l IH]; [split; constructor|]. rewrite filter_cons, Forall_cons. destruct (decide (P x)); [cbn; split; [lia|tauto]|]. rewrite IH. tauto.
Qed.

Lemma filter_only (l : list A) b x : l !! b = Some x -> P x -> length (filter P l) = 1%nat -> Forall (fun x => ~ P x) (take b l) /\ Forall (fun x => ~ P x) (drop (S b) l).
Proof. intros Hb Hx Hl. rewrite (filter_around l b x Hb Hx) in Hl. split; apply filter_length_0; lia. Qed.

Lemma filter_other (l : list A) b x : l !! b = Some x -> P x -> length (filter P l) <> 1%nat -> exists j y, j <> b /\ l !! j = Some y /\ P y.
Proof.
  intros Hb Hx Hl. rewrite (filter_around l b x Hb Hx) in Hl.
  assert (forall k, length (filter P k) <> O -> exists j y, k !! j = Some y /\ P y) as Hex.
  { intros k Hk. destruct (filter P k) as [|y k'] eqn:Hf; [now destruct Hk|]. assert (y ∈ filter P k) as Hin by (rewrite Hf; left).
    apply list_elem_of_filter in Hin as [Hy Hin]. apply list_elem_of_lookup in Hin as [j Hj]. eauto. }
  destruct (decide (length (filter P (take b l)) = O)) as [H0|H0].
  - destruct (Hex (drop (S b) l)) as (j & y & Hj & Hy); [lia|]. rewrite lookup_drop in Hj. exists (S b + j)%nat, y. split; [lia|auto].
  - destruct (Hex (take b l) H0) as (j & y & Hj & Hy). apply lookup_take_Some in Hj as [Hj Hlt]. exists j, y. split; [lia|auto].
Qed.

End Count.

(** ** Trees without empty branchings *)

Inductive dense : stree -> Prop :=
| dense_leaf ty it : dense (Leaf ty it)
| dense_node kids b t : kids !! b = Some t -> t <> Empty -> (forall s, s ∈ kids -> s <> Empty -> dense s) -> dense (Node kids).

Lemma dense_leaves t : dense t -> leaves t <> [].
Proof.
  induction 1 as [|kids b t Hb Ht Hk IH]; [discriminate|]. intros Hl. apply (IH t (list_elem_of_lookup_2 _ _ _ Hb) Ht).
  apply concat_nil_Forall in Hl. rewrite Forall_forall in Hl. apply Hl, list_elem_of_In, in_map, list_elem_of_In. eapply list_elem_of_lookup_2, Hb.
Qed.

Lemma compact_dense t : compact t -> t <> Empty -> dense t.
Proof.
  induction 1 as [|ty it|kids H2 Hk IH]; intros Hne; [contradiction|constructor|].
  destruct (decide (Forall (fun s => leaves s = []) kids)) as [Hall|Hex].
  - cbn in H2. replace (concat (map leaves kids)) with (@nil content) in H2; [cbn in H2; lia|]. symmetry. apply concat_nil_Forall, Forall_fmap, Hall.
  - apply not_Forall_Exists in Hex; [|intros; apply _]. apply Exists_exists in Hex as (s & Hin & Hs). apply list_elem_of_lookup in Hin as [b Hb].
    apply (dense_node kids b s Hb); [intros ->; now apply Hs|auto].
Qed.

Lemma leaves_only kids b t : kids !! b = Some t -> Forall (fun s => s = Empty) (take b kids) -> Forall (fun s => s = Empty) (drop (S b) kids) -> leaves (Node kids) = leaves t.
Proof.
  intros Hb H1 H2. rewrite <- (list_insert_id kids b t Hb) at 1. rewrite leaves_insert by (eapply lookup_lt_Some, Hb). rewrite Forall_forall in H1, H2.
  rewrite !no_kids_leaves by assumption. apply app_nil_r.
Qed.

Lemma leaves_two kids a b s t : kids !! a = Some s -> kids !! b = Some t -> a <> b -> leaves s <> [] -> leaves t <> [] -> (2 <= length (leaves (Node kids)))%nat.
Proof.
  intros Ha Hb Hab Hs Ht.
  assert (forall k j (u : stree), k !! j = Some u -> leaves u <> [] -> (1 <= length (concat (map leaves k)))%nat) as Hpos.
  { intros k j u Hj Hu. destruct (leaves u) as [|x lu] eqn:Hlu; [contradiction|]. assert (x ∈ leaves (Node k)) as Hin by (apply leaves_node_elem; exists j, u; rewrite Hlu; split; [exact Hj|left]).
    cbn in Hin. destruct (concat (map leaves k)); [inversion Hin|cbn; lia]. }
  rewrite <- (list_insert_id kids b t Hb). rewrite leaves_insert by (eapply lookup_lt_Some, Hb). rewrite !length_app.
  assert (1 <= length (leaves t))%nat by (destruct (leaves t); [contradiction|cbn; lia]).
  destruct (Nat.lt_ge_cases a b).
  - pose proof (Hpos (take b kids) a s ltac:(now rewrite lookup_take_lt) Hs). lia.
  - pose proof (Hpos (drop (S b) kids) (a - S b)%nat s ltac:(rewrite lookup_drop; rewrite <- Ha; f_equal; lia) Hs). lia.
Qed.

Section Delete.
Context `{Sha512} (store : ghost) (c : Z) (Hc : 1 <= c).

(** ** The only item below a node *)

Definition emptiness (l : list slot) (kids : list stree) : Prop := Forall2 (fun s t => s = None <-> t = Empty) l kids.

Lemma open_node h m l kids : holds store c h m -> mloc m = Some l -> erase m = Node kids ->
  exists n i ms, h !! l = Some n /\ body n = InnerBody i /\ inner_ok i /\ Forall2 slot_of (slots i) ms /\ erase <$> ms = kids /\
    (forall m, m ∈ ms -> holds store c h m) /\ emptiness (slots i) kids.
Proof.
  intros Hm Hl He. destruct (focus_node store c Hc h m l kids Hm Hl He) as (n & i & Hn & Hb & Hi & Hlen & Hem).
  assert (emptiness (slots i) kids) as Hemp.
  { apply Forall2_same_length_lookup_2; [now rewrite slots_length|]. intros b s t Hs Ht. destruct (Hem b t Ht) as (s' & Hs' & Hiff). assert (s' = s) as -> by congruence. exact Hiff. }
  destruct m as [|u|l0 u|l0 ty it|l0 ms]; try discriminate; cbn in Hl, He; injection Hl as ->.
  - subst u. inversion Hm as [| |? ? Hf| |]; subst l0 t. destruct (frozen_open store c h l kids Hf) as (n' & i' & ms & Hn' & _ & Hb' & Hi' & _ & Hs' & Her & Hms & _).
    assert (n' = n) as -> by congruence. assert (i' = i) as -> by congruence. exists n, i, ms. auto 10.
  - injection He as <-. inversion Hm as [| | | |? ? (n' & i' & Hn' & _ & Hb' & Hi' & Hs' & _) Hms]; subst l0 ms0.
    assert (n' = n) as -> by congruence. assert (i' = i) as -> by congruence. exists n, i, ms. auto 10.
Qed.

Section Node.
Context (n : SHAMapTreeNode) (i : SHAMapInnerNode) (kids : list stree) (Hb : body n = InnerBody i) (Hi : inner_ok i) (Hem : emptiness (slots i) kids).

Lemma one_or_more b t : kids !! b = Some t -> t <> Empty -> dense (Node kids) ->
  (branch_count n = 1%nat /\ leaves (Node kids) = leaves t) \/ (branch_count n <> 1%nat /\ (2 <= length (leaves (Node kids)))%nat).
Proof.
  intros Ht Hne Hd. rewrite (branch_count_slots n i Hb). destruct (Forall2_lookup_r _ _ _ _ _ Hem Ht) as (s & Hs & Hst). assert (s <> None) as Hsn by tauto.
  assert (forall k1 k2, emptiness k1 k2 -> Forall (fun s => ~ s <> None) k1 -> Forall (fun t => t = Empty) k2) as Hmap.
  { induction 1 as [|x y k1 k2 Hxy Hk IH]; intros Hf; constructor; inversion Hf; subst; [|auto]. apply Hxy. destruct x; [|reflexivity]. now assert False by auto. }
  destruct (decide (length (filter (fun s => s <> None) (slots i)) = 1%nat)) as [H1|H1]; [left|right]; (split; [exact H1|]).
  - destruct (filter_only _ _ b s Hs Hsn H1) as [Hl Hr]. apply (leaves_only kids b t Ht); [eapply Hmap; [|exact Hl]; now apply Forall2_take|eapply Hmap; [|exact Hr]; now apply Forall2_drop].
  - destruct (filter_other _ _ b s Hs Hsn H1) as (j & s' & Hj & Hs' & Hn'). destruct (Forall2_lookup_l _ _ _ _ _ Hem Hs') as (t' & Ht' & Hst').
    inversion Hd as [|? b0 t0 Hb0 Ht0 Hk]; subst. apply (leaves_two kids j b t' t); auto; apply dense_leaves, Hk; (eapply list_elem_of_lookup_2; eassumption) || tauto.
Qed.

Lemma select_branch_from_ok {E} len : forall k, (k + len <= 16)%nat -> (exists b t, (k <= b < k + len)%nat /\ kids !! b = Some t /\ t <> Empty) ->
  exists b t, select_branch_from (E := E) n (seq k len) = Ok (Some b) /\ kids !! b = Some t /\ t <> Empty.
Proof.
  induction len as [|len IH]; intros k Hk (b & t & Hbk & Ht & Hne); [lia|]. cbn [seq select_branch_from].
  destruct (lookup_lt_is_Some_2 (slots i) k) as [s Hs]; [rewrite slots_length; lia|]. destruct (Forall2_lookup_l _ _ _ _ _ Hem Hs) as (t' & Ht' & Hst').
  rewrite (is_empty_branch_slots n i Hb k s Hs). cbn [bind]. case_bool_decide as Hsn.
  - apply IH; [lia|]. exists b, t. split; [|auto]. destruct (decide (b = k)) as [->|]; [|lia]. assert (t' = t) as -> by congruence. tauto.
  - exists k, t'. split; [reflexivity|]. split; [exact Ht'|tauto].
Qed.

Lemma select_only_ok {E} : dense (Node kids) -> exists b t, select_only_branch (E := E) n = Ok (Some b) /\ kids !! b = Some t /\ t <> Empty.
Proof.
  intros Hd. inversion Hd as [|? b t Ht Hne _]; subst. apply select_branch_from_ok; [reflexivity|]. exists b, t. split; [|auto].
  apply lookup_lt_Some in Ht. apply Forall2_length in Hem. rewrite slots_length in Hem. unfold BRANCH_FACTOR. lia.
Qed.

End Node.

(** What the search for the only item returns. *)
Definition only_below (h : heap) (t : stree) (r : outcome MutationError (option loc) * heap) (x : heap) : Prop :=
  (exists ty it l' n, leaves t = [(ty, it)] /\ r = (Ok (Some l'), h ++ x) /\ (h ++ x) !! l' = Some n /\ body n = LeafBody ty it) \/
  ((2 <= length (leaves t))%nat /\ r = (Ok None, h ++ x)).

Lemma only_below_leaves h t t' r x : leaves t = leaves t' -> only_below h t' r x -> only_below h t r x.
Proof. intros He. unfold only_below. now rewrite He. Qed.

Lemma child_slot h i ms kids b t : Forall2 slot_of (slots i) ms -> erase <$> ms = kids -> (forall m, m ∈ ms -> holds store c h m) -> kids !! b = Some t -> t <> Empty ->
  exists s m, slots i !! b = Some s /\ slot_of s m /\ holds store c h m /\ erase m = t /\
    ((exists e l, s = Some (e, Some l) /\ mloc m = Some l) \/ (s = Some (merkle t, None) /\ store (merkle t) = Some t)).
Proof.
  intros Hsl Her Hms Ht Hne. rewrite <- Her, list_lookup_fmap in Ht. destruct (ms !! b) as [m|] eqn:Hm; [|discriminate]. injection Ht as Ht.
  destruct (Forall2_lookup_r _ _ _ _ _ Hsl Hm) as (s & Hs & Hst). pose proof (Hms m (list_elem_of_lookup_2 _ _ _ Hm)) as Hmh. exists s, m. repeat (split; [assumption|]).
  destruct m as [|u|l u|l ty it|l ms']; cbn in Ht, Hst; [congruence| | | |]; try (destruct Hst as [e ->]; left; exists e, l; split; reflexivity). right. inversion Hmh; subst. auto.
Qed.

Lemma shaped_child p kids b t : shaped p (Node kids) -> kids !! b = Some t -> shaped (p ++ [b]) t /\ (length p < 64)%nat.
Proof. intros Hs Hb. inversion Hs as [| |? ? _ Hl _ Hk]; subst. auto. Qed.

Lemma dense_child kids b t : dense (Node kids) -> kids !! b = Some t -> t <> Empty -> dense t.
Proof. intros Hd Hb Hne. inversion Hd as [|? b0 t0 _ _ Hk]; subst. apply Hk; [eapply list_elem_of_lookup_2, Hb|exact Hne]. Qed.

Section Fetched.
Context (fetch : Fetch) (Hfetch : fetch_ok store true fetch).

Lemma only_below_fetched fuel : forall p h m l, holds store c h m -> mloc m = Some l -> dense (erase m) -> shaped p (erase m) -> (64 <= fuel + length p)%nat ->
  exists x, only_below h (erase m) (only_below_leaf_with_fetch fuel l fetch h) x.
Proof.
  induction fuel as [|fuel IH]; intros p h m l Hm Hl Hd Hs Hfuel; (destruct (erase m) as [|ty it|kids] eqn:He; [inversion Hd| |]).
  1, 3: destruct (leaf_node store c Hc h m l ty it Hm Hl He) as (n & Hn & Hb & _ & _); exists []; left; exists ty, it, l, n; rewrite app_nil_r; split; [reflexivity|]; split; [|auto];
    cbn [only_below_leaf_with_fetch]; run (read_ok (E := MutationError) l h n Hn); unfold is_inner; now rewrite Hb.
  { inversion Hs; subst. lia. }
  destruct (open_node h m l kids Hm Hl He) as (n & i & ms & Hn & Hb & Hi & Hsl & Her & Hms & Hem).
  destruct (select_only_ok n i kids Hb Hem (E := MutationError) Hd) as (b & t & Hsel & Ht & Hne). destruct (shaped_child p kids b t Hs Ht) as [Hst Hlp]. pose proof (dense_child kids b t Hd Ht Hne) as Hdt.
  assert (forall A (K : SHAMapTreeNode -> M MutationError A), (n ← read l; K n) h = K n h) as Hread by (intros A K; now rewrite (mbind_ok _ _ _ _ _ (read_ok (E := MutationError) l h n Hn))).
  cbn [only_below_leaf_with_fetch]. rewrite Hread, (node_is_inner n i Hb). rewrite (mbind_ok _ _ _ _ _ (lift_ok _ _ h Hsel)).
  destruct (one_or_more n i kids Hb Hem b t Ht Hne Hd) as [[H1 Hle]|[H1 Hle]].
  2:{ exists []. right. rewrite app_nil_r, decide_True by exact H1. auto. }
  rewrite decide_False by auto. destruct (child_slot h i ms kids b t Hsl Her Hms Ht Hne) as (s & mb & Hsb & _ & Hmb & Het & Hcase).
  rewrite (mbind_ok _ _ _ _ _ (lift_ok _ _ h (get_child_slots (E := MutationError) n i Hb Hi b s Hsb))).
  destruct Hcase as [(e & l' & -> & Hl')|[-> Hstore]]; cbn [slot_child].
  - destruct (IH (p ++ [b]) h mb l' Hmb Hl') as [x Hx]; [now rewrite Het|now rewrite Het|rewrite length_app; cbn; lia|]. exists x. rewrite Het in Hx. now apply (only_below_leaves h _ t).
  - rewrite (mbind_ok _ _ _ _ _ (lift_ok _ _ h (get_child_hash_slots (E := MutationError) n i Hb Hi b _ Hsb))). cbn [slot_hash].
    destruct (proj2 (Hfetch _ _ Hstore) h) as (l' & x & Hf & Hfr). unfold call at 1. erewrite mbind_ok by (rewrite Hf; reflexivity).
    pose proof (holds_frozen store c (h ++ x) l' t (frozen_mono store 1 c (h ++ x) l' t Hc Hfr)) as Hm'.
    destruct (IH (p ++ [b]) (h ++ x) (MFrozen l' t) l' Hm' eq_refl Hdt Hst) as [y Hy]; [rewrite length_app; cbn; lia|].
    exists (x ++ y). apply (only_below_leaves h _ t _ _ Hle). unfold only_below in *. rewrite !app_assoc. exact Hy.
Qed.

End Fetched.

Section Loaded.
Context (Hstore : forall e, store e = None).

(** With all nodes loaded, [only_child] looks at the children there are. *)
Lemma only_child_ok {E} n i : body n = InnerBody i -> inner_ok i -> (forall e, Some (e, None) ∉ slots i) -> forall len k next, (k + len <= 16)%nat ->
  only_child (E := E) n (seq k len) next =
    Ok (match omap slot_child (take len (drop k (slots i))), next with [], _ => Some next | [l], None => Some (Some l) | _, _ => None end).
Proof.
  intros Hb Hi Hst. induction len as [|len IH]; intros k next Hk; [now rewrite take_0|]. cbn [seq only_child].
  destruct (lookup_lt_is_Some_2 (slots i) k) as [s Hs]; [rewrite slots_length; lia|]. rewrite (drop_S _ _ _ Hs). cbn [take].
  rewrite (is_empty_branch_slots n i Hb k s Hs). cbn [bind]. case_bool_decide as Hsn; [subst s; cbn; apply IH; lia|].
  rewrite (get_child_slots n i Hb Hi k s Hs). cbn [bind]. destruct s as [[e [l|]]|]; [|exfalso; eapply Hst, list_elem_of_lookup_2, Hs|contradiction].
  assert (omap slot_child (Some (e, Some l) :: take len (drop (S k) (slots i))) = l :: omap slot_child (take len (drop (S k) (slots i)))) as -> by reflexivity.
  cbn [slot_child]. destruct next as [l0|]; [destruct (omap slot_child _); reflexivity|]. rewrite IH by lia. destruct (omap slot_child (take len (drop (S k) (slots i)))) as [|? [|? ?]]; reflexivity.
Qed.

Lemma loaded_slots h i ms kids : Forall2 slot_of (slots i) ms -> erase <$> ms = kids -> (forall m, m ∈ ms -> holds store c h m) -> forall e, Some (e, None) ∉ slots i.
Proof.
  intros Hsl Her Hms e Hin. apply list_elem_of_lookup in Hin as [b Hb]. destruct (Forall2_lookup_l _ _ _ _ _ Hsl Hb) as (m & Hm & Hst).
  pose proof (Hms m (list_elem_of_lookup_2 _ _ _ Hm)) as Hmh. inversion Hmh as [|t Ht Hs|l t|l n ty it|l ms']; subst m; cbn in Hst; try discriminate; try (destruct Hst as [? Hst]; discriminate).
  rewrite Hstore in Hs. discriminate.
Qed.

Lemma only_child_count {E} n i b e l : body n = InnerBody i -> inner_ok i -> (forall e, Some (e, None) ∉ slots i) -> slots i !! b = Some (Some (e, Some l)) ->
  only_child (E := E) n (seq 0 BRANCH_FACTOR) None = Ok (if decide (branch_count n = 1%nat) then Some (Some l) else None).
Proof.
  intros Hb Hi Hst Hs. rewrite (only_child_ok n i Hb Hi Hst) by reflexivity. rewrite drop_0, take_ge by (rewrite slots_length; reflexivity). rewrite (branch_count_slots n i Hb).
  assert (forall k, (forall e, Some (e, None) ∉ k) -> length (omap slot_child k) = length (filter (fun s => s <> None) k)) as Hlen.
  { induction k as [|s k IH]; intros Hk; [reflexivity|]. rewrite filter_cons. assert (forall e, Some (e, None) ∉ k) as Hk' by (intros e' Hin; apply (Hk e'); now right).
    destruct s as [[e' [l'|]]|]; [rewrite decide_True by discriminate|exfalso; apply (Hk e'); left|rewrite decide_False by auto].
    - change (omap slot_child (Some (e', Some l') :: k)) with (l' :: omap slot_child k). cbn. now rewrite IH.
    - change (omap slot_child (None :: k)) with (omap slot_child k). now apply IH. }
  rewrite <- (Hlen _ Hst). assert (l ∈ omap slot_child (slots i)) as Hin by (apply list_elem_of_omap; exists (Some (e, Some l)); split; [eapply list_elem_of_lookup_2, Hs|reflexivity]).
  destruct (omap slot_child (slots i)) as [|l1 [|l2 k]]; [inversion Hin| |reflexivity]. apply list_elem_of_singleton in Hin as ->. reflexivity.
Qed.

Lemma only_below_loaded fuel : forall p h m l, holds store c h m -> mloc m = Some l -> dense (erase m) -> shaped p (erase m) -> (64 <= fuel + length p)%nat ->
  only_below h (erase m) (only_below_loaded_leaf fuel l h) [].
Proof.
  induction fuel as [|fuel IH]; intros p h m l Hm Hl Hd Hs Hfuel; (destruct (erase m) as [|ty it|kids] eqn:He; [inversion Hd| |]).
  1, 3: destruct (leaf_node store c Hc h m l ty it Hm Hl He) as (n & Hn & Hb & _ & _); left; exists ty, it, l, n; rewrite app_nil_r; split; [reflexivity|]; split; [|auto];
    cbn [only_below_loaded_leaf]; run (read_ok (E := MutationError) l h n Hn); unfold is_inner; now rewrite Hb.
  { inversion Hs; subst. lia. }
  destruct (open_node h m l kids Hm Hl He) as (n & i & ms & Hn & Hb & Hi & Hsl & Her & Hms & Hem).
  inversion Hd as [|? b t Ht Hne _]; subst kids0. destruct (shaped_child p kids b t Hs Ht) as [Hst Hlp]. pose proof (dense_child kids b t Hd Ht Hne) as Hdt.
  destruct (child_slot h i ms kids b t Hsl Her Hms Ht Hne) as (s & mb & Hsb & _ & Hmb & Het & Hcase).
  destruct Hcase as [(e & l' & -> & Hl')|[_ Hx]]; [|rewrite Hstore in Hx; discriminate].
  assert (forall A (K : SHAMapTreeNode -> M MutationError A), (n ← read l; K n) h = K n h) as Hread by (intros A K; now rewrite (mbind_ok _ _ _ _ _ (read_ok (E := MutationError) l h n Hn))).
  cbn [only_below_loaded_leaf]. rewrite Hread, (node_is_inner n i Hb).
  rewrite (mbind_ok _ _ _ _ _ (lift_ok _ _ h (only_child_count (E := MutationError) n i b e l' Hb Hi (loaded_slots h i ms kids Hsl Her Hms) Hsb))).
  destruct (one_or_more n i kids Hb Hem b t Ht Hne Hd) as [[H1 Hle]|[H1 Hle]].
  - rewrite decide_True by exact H1. apply (only_below_leaves h _ t _ _ Hle). rewrite <- Het. apply (IH (p ++ [b])); [exact Hmb|exact Hl'|now rewrite Het|now rewrite Het|rewrite length_app; cbn; lia].
  - rewrite decide_False by exact H1. right. rewrite app_nil_r. auto.
Qed.

End Loaded.

(** ** Replacing a branching by its only item *)

Definition collapse_ok (coll : MutableTree -> loc -> M MutationError loc) : Prop :=
  forall self h l ms p, owner self = c -> holds store c h (MNode l ms) -> NoDup (locs (MNode l ms)) -> shaped p (Node (map erase ms)) -> dense (Node (map erase ms)) ->
  exists h' m' l', coll self l h = (Ok l', h') /\ holds store c h' m' /\ mloc m' = Some l' /\ erase m' = collapse (map erase ms) /\ keeps store c h h' /\
    (forall l0, l0 ∉ locs (MNode l ms) -> (l0 < length h)%nat -> h' !! l0 = h !! l0) /\ NoDup (locs m') /\
    (forall l0, l0 ∈ locs m' -> l0 ∈ locs (MNode l ms) \/ (length h <= l0)%nat).

Lemma collapse_more kids : (2 <= length (leaves (Node kids)))%nat -> collapse kids = Node kids.
Proof. intros H2. unfold collapse. destruct (leaves (Node kids)) as [|[ty it] [|x l]]; cbn in H2; [lia|lia|reflexivity]. Qed.

Lemma holds_app h m x : holds store c h m -> holds store c (h ++ x) m.
Proof.
  intros Hm. eapply holds_same; [apply keeps_app|exact Hm|]. intros l Hl. destruct (holds_locs store c h m Hm l Hl) as (n & Hn & _). rewrite Hn. now apply lookup_app_l_Some.
Qed.

(** The new leaf. *)
Lemma sole_leaf self h p kids ty it l n : owner self = c -> shaped p (Node kids) -> leaves (Node kids) = [(ty, it)] -> h !! l = Some n -> body n = LeafBody ty it ->
  (s ← read l; match peek_item s return M MutationError loc with None => lift Panic | Some sole_item => leaf ← lift (new_leaf (get_type s) sole_item (owner self)); alloc leaf end) h =
    (Ok (length h), h ++ [mkNode (leaf_digest ty it) c (LeafBody ty it)]) /\ collapse kids = Leaf ty it /\ ty <> Inner /\ good_item it.
Proof.
  intros Ho Hs Hl Hn Hb. destruct (shaped_leaves p _ Hs (ty, it)) as (Hty & Hit & _); [rewrite Hl; left|]. cbn in Hty, Hit. split; [|split; [unfold collapse; now rewrite Hl|auto]].
  run (read_ok (E := MutationError) l h n Hn). unfold peek_item, get_type. rewrite Hb, Ho. run (lift_ok _ _ h (new_leaf_ok (E := MutationError) ty it c Hty Hit)). reflexivity.
Qed.

Lemma collapse_fetched_ok fetch : fetch_ok store true fetch -> collapse_ok (collapse_fetched fetch).
Proof.
  intros Hfetch self h l ms p Ho Hm Hnd Hs Hd. destruct (only_below_fetched fetch Hfetch LEVELS p h (MNode l ms) l Hm eq_refl Hd Hs ltac:(unfold LEVELS; lia)) as (x & Hx).
  destruct Hx as [(ty & it & l' & n & Hl & Hr & Hn & Hb)|[H2 Hr]].
  - destruct (sole_leaf self (h ++ x) p (map erase ms) ty it l' n Ho Hs Hl Hn Hb) as (Hrun & Hcol & _). set (lf := mkNode (leaf_digest ty it) c (LeafBody ty it)) in *.
    exists ((h ++ x) ++ [lf]), (MLeaf (length (h ++ x)) ty it), (length (h ++ x)). split; [unfold collapse_fetched; run Hr; exact Hrun|].
    split; [eapply holds_leaf; [apply list_lookup_middle; reflexivity|reflexivity|reflexivity|reflexivity]|]. split; [reflexivity|]. split; [symmetry; exact Hcol|].
    rewrite <- app_assoc. split; [apply keeps_app|]. split; [intros l0 _ Hl0; now rewrite lookup_app_l|]. split; [apply NoDup_singleton|].
    intros l0 Hl0. apply list_elem_of_singleton in Hl0 as ->. right. rewrite length_app. lia.
  - exists (h ++ x), (MNode l ms), l. split; [unfold collapse_fetched; run Hr; reflexivity|]. split; [now apply holds_app|]. split; [reflexivity|].
    split; [symmetry; now apply collapse_more|]. split; [apply keeps_app|]. split; [intros l0 _ Hl0; now rewrite lookup_app_l|]. auto.
Qed.

Lemma collapse_loaded_ok : (forall e, store e = None) -> collapse_ok collapse_loaded.
Proof.
  intros Hstore self h l ms p Ho Hm Hnd Hs Hd. pose proof (only_below_loaded Hstore LEVELS p h (MNode l ms) l Hm eq_refl Hd Hs ltac:(unfold LEVELS; lia)) as Hx.
  unfold only_below in Hx. rewrite !app_nil_r in Hx. destruct Hx as [(ty & it & l' & n & Hl & Hr & Hn & Hb)|[H2 Hr]].
  2:{ exists h, (MNode l ms), l. split; [unfold collapse_loaded; run Hr; reflexivity|]. split; [exact Hm|]. split; [reflexivity|].
      split; [symmetry; now apply collapse_more|]. split; [apply keeps_refl|]. auto. }
  destruct (open_node h (MNode l ms) l (map erase ms) Hm eq_refl eq_refl) as (nl & i & ms' & Hnl & Hbl & Hi & _ & _ & _ & Hem).
  destruct (select_only_ok nl i _ Hbl Hem (E := MutationError) Hd) as (b & t & Hsel & Ht & Hne).
  pose proof (lookup_lt_Some _ _ _ Ht) as Hlt. assert (length (map erase ms) = 16%nat) as H16 by (inversion Hs; assumption).
  inversion Hm as [| | | |? ? (n' & i' & Hn' & Hcn & Hb' & _) Hms]; subst l0 ms0. assert (n' = nl) as -> by congruence.
  destruct (set_child_slots (E := MutationError) nl i Hbl Hi b None ltac:(rewrite <- H16; exact Hlt) ltac:(lia)) as (i2 & Hset & _).
  destruct (sole_leaf self h p (map erase ms) ty it l' n Ho Hs Hl Hn Hb) as (Hrun & Hcol & Hty & Hit). set (lf := mkNode (leaf_digest ty it) c (LeafBody ty it)) in *.
  set (h2 := <[l := after nl uint256_zero i2]> h). exists (h2 ++ [lf]), (MLeaf (length h2) ty it), (length h2). split.
  { unfold collapse_loaded. run Hr. run (read_ok (E := MutationError) l h nl Hnl). run (lift_ok _ _ h Hsel). run (read_ok (E := MutationError) l' h n Hn).
    unfold peek_item, get_type. rewrite Hb, Ho. run (change_ok (E := MutationError) l (fun n => set_child n b None) h nl _ Hnl Hset). run (lift_ok _ _ h2 (new_leaf_ok (E := MutationError) ty it c Hty Hit)). reflexivity. }
  split; [eapply holds_leaf; [apply list_lookup_middle; reflexivity|reflexivity|reflexivity|reflexivity]|]. split; [reflexivity|]. split; [symmetry; exact Hcol|].
  split; [eapply keeps_trans; [eapply keeps_write; [exact Hnl|exact Hcn]|apply keeps_app]|]. assert (length h2 = length h) as Hlen2 by apply length_insert. split; [|split; [apply NoDup_singleton|]].
  - intros l0 Hl0 Hlt0. rewrite lookup_app_l by lia. unfold h2. apply list_lookup_insert_ne. intros ->. apply Hl0. left.
  - intros l0 Hl0. apply list_elem_of_singleton in Hl0 as ->. right. lia.
Qed.

(** ** The loop *)

Lemma dense_compact kids b t : kids !! b = Some t -> t <> Empty -> (forall s, s ∈ kids -> compact s) -> dense (Node kids).
Proof. intros Hb Ht Hk. apply (dense_node kids b t Hb Ht). intros s Hs Hne. now apply compact_dense, Hne; auto. Qed.

Section Loop.
Context (coll : MutableTree -> loc -> M MutationError loc) (Hcoll : collapse_ok coll) (key : Uint256) (Hkey : is_key key).

(** One branching below the root: what is left of it. *)
Lemma collapse_step self h l ms p B (K : option loc -> M MutationError B) : owner self = c -> holds store c h (MNode l ms) -> NoDup (locs (MNode l ms)) -> shaped p (Node (map erase ms)) ->
  (forall s, s ∈ map erase ms -> compact s) ->
  exists h' m', (n ← read l; match branch_count n with O => K None | 1%nat => prev ← coll self l; K (Some prev) | _ => K (Some l) end) h = K (mloc m') h' /\
    holds store c h' m' /\ (m' = MEmpty \/ mloc m' <> None) /\ erase m' = collapse (map erase ms) /\ keeps store c h h' /\
    (forall l0, l0 ∉ locs (MNode l ms) -> (l0 < length h)%nat -> h' !! l0 = h !! l0) /\ NoDup (locs m') /\
    (forall l0, l0 ∈ locs m' -> l0 ∈ locs (MNode l ms) \/ (length h <= l0)%nat).
Proof.
  intros Ho Hm Hnd Hs Hcp. destruct (open_node h (MNode l ms) l (map erase ms) Hm eq_refl eq_refl) as (n & i & ms' & Hn & Hb & Hi & _ & _ & _ & Hem).
  rewrite (mbind_ok _ _ _ _ _ (read_ok (E := MutationError) l h n Hn)).
  destruct (decide (branch_count n = O)) as [H0|H0].
  - rewrite H0. exists h, MEmpty. split; [reflexivity|]. split; [constructor|]. split; [auto|]. split; [|split; [apply keeps_refl|split; [auto|split; [constructor|intros l0 Hl0; inversion Hl0]]]].
    rewrite (branch_count_slots n i Hb), filter_length_0 in H0. assert (leaves (Node (map erase ms)) = []) as Hl; [|unfold collapse; now rewrite Hl].
    apply no_kids_leaves. intros t Ht. apply list_elem_of_lookup in Ht as [b Ht]. destruct (Forall2_lookup_r _ _ _ _ _ Hem Ht) as (s & Hsb & Hst). apply Hst.
    rewrite Forall_forall in H0. specialize (H0 s (list_elem_of_lookup_2 _ _ _ Hsb)). destruct s; [now destruct H0|reflexivity].
  - assert (exists b t, map erase ms !! b = Some t /\ t <> Empty) as (b & t & Ht & Hne).
    { rewrite (branch_count_slots n i Hb) in H0. destruct (filter (fun s => s <> None) (slots i)) as [|s k] eqn:Hf; [now destruct H0|].
      assert (s ∈ filter (fun s => s <> None) (slots i)) as Hin by (rewrite Hf; left). apply list_elem_of_filter in Hin as [Hsn Hin]. apply list_elem_of_lookup in Hin as [b Hb0].
      destruct (Forall2_lookup_l _ _ _ _ _ Hem Hb0) as (t & Ht & Hst). exists b, t. split; [exact Ht|tauto]. }
    pose proof (dense_compact _ b t Ht Hne Hcp) as Hd. destruct (one_or_more n i _ Hb Hem b t Ht Hne Hd) as [[H1 _]|[H1 H2]].
    + rewrite H1. destruct (Hcoll self h l ms p Ho Hm Hnd Hs Hd) as (h' & m' & l' & Hrun & Hm' & Hl' & He' & Hrest). exists h', m'. split; [run Hrun; now rewrite Hl'|].
      split; [exact Hm'|]. split; [right; congruence|]. auto.
    + exists h, (MNode l ms). split; [destruct (branch_count n) as [|[|k]]; [contradiction|contradiction|reflexivity]|]. split; [exact Hm|]. split; [right; discriminate|].
      split; [symmetry; now apply collapse_more|]. split; [apply keeps_refl|]. auto.
Qed.

(** The branching takes what is left below it. *)
Lemma loop_head f k self h m kids b : owner self = c -> ctx_open store c h (f :: k) -> holds store c h m -> (m = MEmpty \/ mloc m <> None) -> NoDup (clocs (f :: k) ++ locs m) ->
  path_of (shadows (f :: k)) = take (length (f :: k)) (nibbles key) -> (length k < 64)%nat -> shadow f = (kids, b) ->
  exists l ms h' self', (forall B (K : loc * MutableTree -> M MutationError B), (r ← unshare_node self (frame_loc f) (id_of (take (length k) (nibbles key)));
      branch ← lift (select_branch (id_of (take (length k) (nibbles key))) key); change r.1 (fun n => set_child n branch (mloc m));; K r) h = K (l, self') h') /\
    owner self' = c /\ ctx_open store c h' k /\ holds store c h' (MNode l ms) /\ NoDup (clocs k ++ locs (MNode l ms)) /\ map erase ms = <[b := erase m]> kids /\ keeps store c h h'.
Proof.
  intros Ho Hk Hm Hml Hnd Hp Hlen Hsf. destruct (path_step key f k Hp Hlen) as [Hp' Hb].
  destruct (unshare_spec store c Hc self h f (id_of (take (length k) (nibbles key))) Ho (Hk f ltac:(left))) as (f' & h1 & self1 & Hun & Hof & Hs1).
  destruct (after_unshare store c h f h1 f' k m Hof Hk Hm Hnd) as (Hk1 & Hm1 & Hnd1 & Hkeep1).
  destruct (of_owned _ _ _ _ _ _ Hof) as (l & ms & b' & ->). pose proof (of_shadow _ _ _ _ _ _ Hof) as Hsh. pose proof (of_open _ _ _ _ _ _ Hof) as Hopen.
  assert (b' = b /\ b = nibble key (length k)) as [-> Hbk] by (rewrite <- Hb; rewrite Hsf in Hsh; destruct f; cbn in Hsf, Hsh |- *; split; congruence).
  destruct (attach_spec store c Hc h1 l ms b m Hopen Hm1 Hml) as (h2 & Hch & Hm2 & Hkeep2 & Hne).
  { apply NoDup_app in Hnd1 as (H1 & H2 & H3). apply NoDup_app in H3 as (_ & _ & H3). apply NoDup_app. split; [exact H1|]. split; [|exact H3]. intros x Hx Hin. apply (H2 x Hx), elem_of_app. now right. }
  destruct (after_attach store c h1 h2 l ms b k m Hk1 Hnd1 (proj1 Hopen) Hkeep2 Hne) as [Hk2 Hnd2].
  exists l, (<[b := m]> ms), h2, self1. split; [|repeat (split; [assumption|]); split; [|eapply keeps_trans; eassumption]].
  - intros B K. run Hun. cbn [fst snd frame_loc]. run (lift_ok _ _ h1 (select_at (E := MutationError) key (length k) Hkey Hlen)). rewrite <- Hbk. run Hch. reflexivity.
  - change (map erase) with (fmap (M := list) erase). rewrite list_fmap_insert. f_equal. rewrite Hsf in Hsh. cbn in Hsh. now injection Hsh.
Qed.

Lemma loop_node f k m kids b ms : shadow f = (kids, b) -> ctx_shaped (shadows (f :: k)) ->
  (forall kids b j s, (kids, b) ∈ shadows (f :: k) -> j <> b -> kids !! j = Some s -> compact s) -> shaped (path_of (shadows (f :: k))) (erase m) -> compact (erase m) ->
  map erase ms = <[b := erase m]> kids ->
  shadows (f :: k) = (kids, b) :: shadows k /\ ctx_shaped (shadows k) /\ (length k < 64)%nat /\ shaped (path_of (shadows k)) (Node (map erase ms)) /\ forall s, s ∈ map erase ms -> compact s.
Proof.
  intros Hsf Hcs Hsib Hsm Hcm Her. assert (shadows (f :: k) = (kids, b) :: shadows k) as Hsh by (unfold shadows; rewrite fmap_cons; now rewrite Hsf).
  rewrite Hsh in Hcs, Hsib, Hsm. destruct Hcs as (Hpo & Hl64 & Hk16 & Hb16 & Hsk & Hcs). pose proof Hl64 as Hl. unfold shadows in Hl. rewrite length_fmap in Hl.
  repeat (split; [assumption|]). rewrite Her. split; [|apply insert_compact; [intros j s; apply (Hsib kids b); left|exact Hcm]].
  constructor; [exact Hpo|rewrite path_of_length; exact Hl64|rewrite length_insert; exact Hk16|]. intros j s Hj. destruct (decide (j = b)) as [->|].
  - rewrite list_lookup_insert_eq in Hj by lia. injection Hj as <-. now rewrite path_of_cons in Hsm.
  - rewrite list_lookup_insert_ne in Hj by congruence. now apply Hsk.
Qed.

Lemma delete_loop_spec k : forall f self h m, owner self = c -> ctx_open store c h (f :: k) -> holds store c h m -> (m = MEmpty \/ mloc m <> None) -> NoDup (clocs (f :: k) ++ locs m) ->
  path_of (shadows (f :: k)) = take (length (f :: k)) (nibbles key) -> ctx_shaped (shadows (f :: k)) ->
  (forall kids b j s, (kids, b) ∈ shadows (f :: k) -> j <> b -> kids !! j = Some s -> compact s) -> shaped (path_of (shadows (f :: k))) (erase m) -> compact (erase m) ->
  exists h' self', delete_loop coll self (rev (trail key (f :: k))) key (mloc m) h = (Ok (true, self'), h') /\
    tree_ok store c h' self' (prune (shadows (f :: k)) (erase m)) /\ keeps store c h h'.
Proof.
  induction k as [|f2 k IH]; intros f self h m Ho Hk Hm Hml Hnd Hp Hcs Hsib Hsm Hcm; destruct (shadow f) as [kids b] eqn:Hsf; pose proof (ctx_shaped_length _ Hcs) as Hlen;
    unfold shadows in Hlen; rewrite length_fmap in Hlen; cbn [length] in Hlen.
  - destruct (loop_head f [] self h m kids b Ho Hk Hm Hml Hnd Hp Hlen Hsf) as (l & ms & h1 & self1 & Hrun & Ho1 & Hk1 & Hm1 & Hnd1 & Her & Hkeep1).
    destruct (loop_node f [] m kids b ms Hsf Hcs Hsib Hsm Hcm Her) as (-> & _). rewrite rev_trail. cbn [delete_loop node node_id]. rewrite Hrun. cbn [fst snd length prune shadows fmap list_fmap].
    rewrite take_0, is_root_path. exists h1, (mkTree l (owner self1)). split; [reflexivity|]. split; [|exact Hkeep1]. split; [exact Ho1|].
    exists (MNode l ms). split; [exact Hm1|]. split; [exact Hnd1|]. split; [reflexivity|]. cbn [erase]. now rewrite Her.
  - destruct (loop_head f (f2 :: k) self h m kids b Ho Hk Hm Hml Hnd Hp Hlen Hsf) as (l & ms & h1 & self1 & Hrun & Ho1 & Hk1 & Hm1 & Hnd1 & Her & Hkeep1).
    destruct (loop_node f (f2 :: k) m kids b ms Hsf Hcs Hsib Hsm Hcm Her) as (Hsh & Hcs' & Hl64 & Hsn & Hcn). apply NoDup_app in Hnd1 as (Hd1 & Hd2 & Hd3).
    destruct (collapse_step self1 h1 l ms _ _ (fun prev => delete_loop coll self1 (rev (trail key (f2 :: k))) key prev) Ho1 Hm1 Hd3 Hsn Hcn) as (h2 & m2 & Hrun2 & Hm2 & Hml2 & He2 & Hkeep2 & Hfr & Hd4 & Hfresh).
    assert (forall l0, l0 ∈ clocs (f2 :: k) -> (l0 < length h1)%nat) as Hlow by (intros l0 Hl0; destruct (open_locs store c h1 _ Hk1 l0 Hl0) as (x & Hx & _); now apply lookup_lt_Some in Hx).
    destruct (IH f2 self1 h2 m2) as (h' & self' & Hrun3 & Hto & Hkeep3); auto.
    + eapply ctx_open_same; [exact Hkeep2|exact Hk1|]. intros l0 Hl0. apply Hfr; auto.
    + apply NoDup_app. split; [exact Hd1|]. split; [|exact Hd4]. intros l0 Hl0 Hin. destruct (Hfresh l0 Hin) as [Hx|Hx]; [exact (Hd2 l0 Hl0 Hx)|]. specialize (Hlow l0 Hl0). lia.
    + apply (path_step key f (f2 :: k) Hp Hl64).
    + intros ks j0 j s Hin. apply Hsib. rewrite Hsh. now right.
    + rewrite He2. now apply folded_shaped.
    + rewrite He2. now apply folded_compact.
    + exists h', self'. split; [|split; [|do 2 (eapply keeps_trans; [eassumption|]); eassumption]].
      * rewrite rev_trail. cbn [delete_loop node node_id]. rewrite Hrun. cbn [fst snd]. rewrite is_root_path. rewrite <- Hrun3, <- Hrun2. reflexivity.
      * rewrite Hsh. cbn [prune]. rewrite He2, Her in Hto. destruct (shadows (f2 :: k)) as [|g gs] eqn:Hg; [now apply shadows_ne in Hg|exact Hto].
Qed.

End Loop.

(** ** [delete_item] *)

Lemma delete_item_spec backed fetch coll self h t key : fetch_ok store backed fetch -> collapse_ok coll -> is_key key -> tree_ok store c h self t -> rooted t ->
  exists h' r, delete_item_in backed fetch coll self key h = (r, h') /\ keeps store c h h' /\
    ((contents t !! key = None /\ r = Ok (false, self) /\ tree_ok store c h' self t) \/
     (exists x self' t', contents t !! key = Some x /\ r = Ok (true, self') /\ tree_ok store c h' self' t' /\ rooted t' /\ contents t' = delete key (contents t))).
Proof.
  intros Hfetch Hcoll Hkey Hto Hr. pose proof (proj1 Hto) as Ho. pose proof Hr as (kids & Ht & Hs & _).
  destruct (walk_from_root store c Hc backed fetch Hfetch key h self t Hkey Hto Hr) as (h1 & f & k & m & r & Hw & Hkeep1 & Hf & Hterm & Hto1).
  unfold delete_item_in. rewrite (mbind_ok _ _ _ _ _ (run_lower Traversal _ _ _ _ Hw)). cbn [fst snd]. destruct r as [l|]; cbn [terminal] in Hterm.
  2:{ exists h1, (Ok (false, self)). split; [reflexivity|]. split; [exact Hkeep1|]. left. split; [|auto]. eapply focus_absent; eauto. rewrite Hterm. inversion 1. }
  destruct Hterm as (Hl & ty & it & He). destruct (leaf_node store c Hc h1 m l ty it (focus_holds _ _ _ _ _ _ _ Hf) Hl He) as (n & Hn & Hb & _ & _).
  rewrite (mbind_ok _ _ _ _ _ (read_ok (E := MutationError) l h1 n Hn)). unfold peek_item. rewrite Hb, removelast_trail.
  destruct (decide (item_key it = key)) as [Hk|Hk].
  2:{ rewrite decide_True by exact Hk. exists h1, (Ok (false, self)). split; [reflexivity|]. split; [exact Hkeep1|]. left. split; [|auto].
      eapply focus_absent; eauto. rewrite He. intros x Hx. apply list_elem_of_singleton in Hx as ->. exact Hk. }
  rewrite decide_False by auto. destruct (focus_shaped store c h1 key (f :: k) m t Hf Hs) as [Hcs _].
  pose proof (focus_tree _ _ _ _ _ _ _ Hf) as Hpl. rewrite <- Hpl in Hr. destruct (rooted_inv _ _ (shadows_ne f k) Hcs Hr) as [Hcc _]. pose proof (ctx_siblings _ _ Hcc) as Hsib.
  destruct (prune_rooted _ Empty (shadows_ne f k) Hcs Hsib (shaped_empty _) compact_empty) as [Hr' Hl'].
  destruct (delete_loop_spec coll Hcoll key Hkey k f self h1 MEmpty) as (h' & self' & Hrun & Hto' & Hkeep2); auto.
  { apply (ctx_at_open store c h1 (f :: k) m), Hf. } { constructor. } { pose proof (focus_nodup _ _ _ _ _ _ _ Hf) as Hnd. apply NoDup_app in Hnd as (Hnd & _ & _). cbn [locs]. now rewrite app_nil_r. }
  { apply (focus_path _ _ _ _ _ _ _ Hf). } { constructor. } { constructor. }
  exists h', (Ok (true, self')). split; [exact Hrun|]. split; [eapply keeps_trans; eassumption|]. right. exists (ty, it), self', (prune (shadows (f :: k)) Empty).
  split; [eapply focus_present; eauto|]. split; [reflexivity|]. split; [exact Hto'|]. split; [exact Hr'|]. destruct Hr' as (kids' & _ & Hs' & _).
  rewrite <- Hk. refine (contents_delete [] [] t _ Hs Hs' (ty, it) ((around (shadows (f :: k))).1 ++ (around (shadows (f :: k))).2) _ _).
  - rewrite <- Hpl, plug_leaves, He by exact Hcs. cbn [leaves app]. symmetry. apply Permutation_middle.
  - now rewrite Hl'.
Qed.

End Delete.
