(* ===== verification/ShamapMap.v ===== *)
(** * ShamapMap: a SHAMap as a map

    The operations of a mutable tree, run one after the other, do what the operations
    of a finite map from keys to items do ([ops_spec]); the tree is a function of the
    map.  An update that keeps the digest of a leaf changes nothing, so that the items
    written under one key must have different digests ([distinct]). *)

From stdpp Require Import gmap list.
From Stdlib Require Import ZArith Lia.
From S2P Require Import Prelude Serializer ShamapKey ShamapNode ShamapSlots ShamapTree ShamapHeap ShamapRepr ShamapWalk ShamapMutate ShamapAdd ShamapDelete.
Local Open Scope Z_scope.

Section Read.
Context `{Sha512} (store : ghost) (c : Z) (Hc : 1 <= c) (backed : bool) (fetch : Fetch) (Hfetch : fetch_ok store backed fetch).

(** ** Looking up *)

Lemma find_key_spec self h t key : tree_ok store c h self t -> rooted t -> is_key key ->
  exists h', keeps store c h h' /\ tree_ok store c h' self t /\
    ((contents t !! key = None /\ find_key (root self) key backed fetch h = (Ok None, h')) \/
     (exists ty it l n, contents t !! key = Some (ty, it) /\ find_key (root self) key backed fetch h = (Ok (Some l), h') /\
        h' !! l = Some n /\ body n = LeafBody ty it /\ hash n = leaf_digest ty it)).
Proof.
  intros Hto Hr Hkey. pose proof Hr as (kids & Ht & Hs & _).
  destruct (walk_from_root store c Hc backed fetch Hfetch key h self t Hkey Hto Hr) as (h1 & f & k & m & r & Hw & Hkeep & Hf & Hterm & Hto1).
  exists h1. split; [exact Hkeep|]. split; [exact Hto1|]. unfold find_key, walk_towards_key.
  rewrite (mbind_ok _ _ _ _ _ (mbind_ok _ (fun r => mret r.1) _ _ _ Hw)). cbn [fst]. destruct r as [l|]; cbn [terminal] in Hterm.
  - destruct Hterm as (Hl & ty & it & He). destruct (leaf_node store c Hc h1 m l ty it (focus_holds _ _ _ _ _ _ _ Hf) Hl He) as (n & Hn & Hb & Hh & _).
    rewrite (mbind_ok _ _ _ _ _ (read_ok l h1 n Hn)). unfold peek_item. rewrite Hb. destruct (decide (item_key it = key)) as [Hk|Hk].
    + right. exists ty, it, l, n. split; [eapply focus_present; eauto|]. auto.
    + left. split; [|reflexivity]. eapply focus_absent; eauto. rewrite He. intros x Hx. apply list_elem_of_singleton in Hx as ->. exact Hk.
  - left. split; [|reflexivity]. eapply focus_absent; eauto. rewrite Hterm. inversion 1.
Qed.

Lemma has_item_spec self h t key : tree_ok store c h self t -> rooted t -> is_key key ->
  exists h', has_item (root self) key backed fetch h = (Ok (bool_decide (is_Some (contents t !! key))), h') /\ keeps store c h h' /\ tree_ok store c h' self t.
Proof.
  intros Hto Hr Hkey. destruct (find_key_spec self h t key Hto Hr Hkey) as (h' & Hkeep & Hto' & [[Hct Hrun]|(ty & it & l & n & Hct & Hrun & _)]);
    exists h'; (split; [|auto]); unfold has_item; rewrite (mbind_ok _ _ _ _ _ Hrun), Hct; reflexivity.
Qed.

Lemma peek_item_spec self h t key : tree_ok store c h self t -> rooted t -> is_key key ->
  exists h', peek_item_at (root self) key backed fetch h = (Ok (snd <$> contents t !! key), h') /\ keeps store c h h' /\ tree_ok store c h' self t.
Proof.
  intros Hto Hr Hkey. destruct (find_key_spec self h t key Hto Hr Hkey) as (h' & Hkeep & Hto' & [[Hct Hrun]|(ty & it & l & n & Hct & Hrun & Hn & Hb & _)]);
    exists h'; (split; [|auto]); unfold peek_item_at; rewrite (mbind_ok _ _ _ _ _ Hrun), Hct; [reflexivity|].
  rewrite (mbind_ok _ _ _ _ _ (read_ok l h' n Hn)). unfold peek_item. now rewrite Hb.
Qed.

End Read.

(** ** Sequences of operations *)

Inductive map_op : Type :=
| OpAdd (it : SHAMapItem)
| OpUpdate (it : SHAMapItem)
| OpDelete (key : Uint256)
| OpHas (key : Uint256)
| OpPeek (key : Uint256).

Inductive reply : Type :=
| Changed (r : outcome MutationError bool)
| Found (r : outcome TraversalError bool)
| Item (r : outcome TraversalError (option SHAMapItem)).

Definition op_ok (op : map_op) : Prop :=
  match op with
  | OpAdd it | OpUpdate it => good_item it
  | OpDelete key | OpHas key | OpPeek key => is_key key
  end.

(** The items that are written. *)
Definition op_items (op : map_op) : list SHAMapItem := match op with OpAdd it | OpUpdate it => [it] | OpDelete _ | OpHas _ | OpPeek _ => [] end.

(** What the operation does to a map of items. *)
Definition map_step (m : gmap Uint256 SHAMapItem) (op : map_op) : reply * gmap Uint256 SHAMapItem :=
  match op with
  | OpAdd it =>
      match m !! item_key it with
      | Some _ => (Changed (Ok false), m)
      | None => (Changed (Ok true), <[item_key it := it]> m)
      end
  | OpUpdate it =>
      match m !! item_key it with
      | Some _ => (Changed (Ok true), <[item_key it := it]> m)
      | None => (Changed (Err (MissingExactLeaf (item_key it))), m)
      end
  | OpDelete key =>
      match m !! key with
      | Some _ => (Changed (Ok true), delete key m)
      | None => (Changed (Ok false), m)
      end
  | OpHas key => (Found (Ok (bool_decide (is_Some (m !! key)))), m)
  | OpPeek key => (Item (Ok (m !! key)), m)
  end.

Fixpoint map_steps (m : gmap Uint256 SHAMapItem) (ops : list map_op) : list reply * gmap Uint256 SHAMapItem :=
  match ops with
  | [] => ([], m)
  | op :: ops => let '(r, m) := map_step m op in let '(rs, m) := map_steps m ops in (r :: rs, m)
  end.

(** Different items of one key have different digests. *)
Definition distinct `{Sha512} (ty : SHAMapNodeType) (known : SHAMapItem -> Prop) : Prop :=
  forall a b, known a -> known b -> item_key a = item_key b -> leaf_digest ty a = leaf_digest ty b -> a = b.

Lemma step_known (known : SHAMapItem -> Prop) m op : map_Forall (fun _ => known) m -> Forall known (op_items op) -> map_Forall (fun _ => known) (map_step m op).2.
Proof.
  intros Hm Hop. destruct op as [it|it|key|key|key]; cbn [map_step op_items] in *; try exact Hm; destruct (m !! _); try exact Hm; cbn [snd];
    try (apply map_Forall_insert_2; [now inversion Hop|exact Hm]). now apply (map_Forall_delete (fun _ => known)).
Qed.

Section Ops.
Context `{Sha512} (backed : bool) (fetch : Fetch) (coll : MutableTree -> loc -> M MutationError loc) (ty : SHAMapNodeType).

(** A mutating operation leaves the tree as it is when it fails. *)
Definition changed (m : M MutationError (bool * MutableTree)) (self : MutableTree) (h : heap) : reply * MutableTree * heap :=
  match m h with
  | (Ok (b, self'), h) => (Changed (Ok b), self', h)
  | (Err e, h) => (Changed (Err e), self, h)
  | (Panic, h) => (Changed Panic, self, h)
  | (Wraps, h) => (Changed Wraps, self, h)
  | (OutOfFuel, h) => (Changed OutOfFuel, self, h)
  end.

Definition run_op (op : map_op) (self : MutableTree) (h : heap) : reply * MutableTree * heap :=
  match op with
  | OpAdd it => changed (add_item_in backed fetch self ty it) self h
  | OpUpdate it => changed (update_item_in backed fetch self ty it) self h
  | OpDelete key => changed (delete_item_in backed fetch coll self key) self h
  | OpHas key => let '(r, h) := has_item (root self) key backed fetch h in (Found r, self, h)
  | OpPeek key => let '(r, h) := peek_item_at (root self) key backed fetch h in (Item r, self, h)
  end.

Fixpoint run_ops (ops : list map_op) (self : MutableTree) (h : heap) : list reply * MutableTree * heap :=
  match ops with
  | [] => ([], self, h)
  | op :: ops => let '(r, self, h) := run_op op self h in let '(rs, self, h) := run_ops ops self h in (r :: rs, self, h)
  end.

(** The tree of a map whose items have the type [ty]. *)
Definition stands_for (t : stree) (m : gmap Uint256 SHAMapItem) : Prop := rooted t /\ contents t = pair ty <$> m.

Context (store : ghost) (c : Z) (Hc : 1 <= c) (Hfetch : fetch_ok store backed fetch) (Hcoll : collapse_ok store c coll) (Hty : ty <> Inner).
Context (known : SHAMapItem -> Prop) (Hknown : distinct ty known).

Lemma stands_leaf t m x : stands_for t m -> x ∈ leaves t -> x.1 = ty.
Proof.
  intros [(kids & Ht & Hs & _) Hct] Hx. assert (contents t !! ckey x = Some x) as Hl by (apply (contents_lookup [] t (ckey x) x Hs); auto).
  rewrite Hct, lookup_fmap in Hl. destruct (m !! ckey x); [|discriminate]. cbn in Hl. injection Hl as <-. reflexivity.
Qed.

Lemma stands_lookup t m key : stands_for t m -> contents t !! key = pair ty <$> (m !! key).
Proof. intros [_ ->]. apply lookup_fmap. Qed.

Lemma op_spec op self h t m : tree_ok store c h self t -> stands_for t m -> op_ok op -> map_Forall (fun _ => known) m -> Forall known (op_items op) ->
  exists self' h' t', run_op op self h = ((map_step m op).1, self', h') /\ keeps store c h h' /\ tree_ok store c h' self' t' /\ stands_for t' (map_step m op).2.
Proof.
  intros Hto Hst Hop Hm Hit. pose proof Hst as [Hr Hct]. destruct op as [it|it|key|key|key]; cbn [op_ok run_op map_step] in *.
  - destruct (add_item_spec store c Hc backed fetch Hfetch self h t ty it Hto Hr Hty Hop) as (h' & r & Hrun & Hkeep & Hcase). pose proof (stands_lookup t m (item_key it) Hst) as Hlk.
    unfold changed. rewrite Hrun. destruct Hcase as [(x & Hx & -> & Hto')|[(Hn & self' & t' & -> & Hto' & Hr' & Hct')|(Hn & x & Hx & Hne & _)]].
    + rewrite Hlk in Hx. destruct (m !! item_key it) as [y|]; [|discriminate]. eexists _, _, t. split; [reflexivity|]. auto.
    + rewrite Hlk in Hn. destruct (m !! item_key it) as [y|]; [discriminate|]. eexists _, _, t'. split; [reflexivity|]. split; [exact Hkeep|].
      split; [exact Hto'|]. split; [exact Hr'|]. cbn [snd]. now rewrite Hct', Hct, fmap_insert.
    + destruct Hne. eapply stands_leaf; eauto.
  - destruct (update_item_spec store c Hc backed fetch Hfetch self h t ty it Hto Hr Hty Hop) as (h' & r & Hrun & Hkeep & Hcase). pose proof (stands_lookup t m (item_key it) Hst) as Hlk.
    unfold changed. rewrite Hrun. destruct Hcase as [(Hn & -> & Hto')|[(ty0 & it0 & Hx & Hne & _)|(it0 & self' & Hx & -> & Hcase)]]; rewrite Hlk in *.
    + destruct (m !! item_key it) as [y|]; [discriminate|]. eexists _, _, t. split; [reflexivity|]. auto.
    + destruct (m !! item_key it) as [y|]; [|discriminate]. injection Hx as <- <-. contradiction.
    + destruct (m !! item_key it) as [y|] eqn:Hy; [|discriminate]. injection Hx as <-. destruct Hcase as [(t' & Hto' & Hr' & Hct')|[Hne Hd]].
      * eexists _, _, t'. split; [reflexivity|]. split; [exact Hkeep|]. split; [exact Hto'|]. split; [exact Hr'|]. cbn [snd]. now rewrite Hct', Hct, fmap_insert.
      * destruct Hne. apply Hknown; [exact (Hm _ _ Hy)|exact (Forall_inv Hit)| |exact Hd]. assert (contents t !! item_key it = Some (ty, y)) as Hin by (rewrite Hlk; reflexivity).
        destruct Hr as (kids & Ht & Hs & _). now apply (contents_lookup [] t _ _ Hs) in Hin as [_ Hin].
  - destruct (delete_item_spec store c Hc backed fetch coll self h t key Hfetch Hcoll Hop Hto Hr) as (h' & r & Hrun & Hkeep & Hcase). pose proof (stands_lookup t m key Hst) as Hlk.
    unfold changed. rewrite Hrun. destruct Hcase as [(Hn & -> & Hto')|(x & self' & t' & Hx & -> & Hto' & Hr' & Hct')]; rewrite Hlk in *.
    + destruct (m !! key) as [y|]; [discriminate|]. eexists _, _, t. split; [reflexivity|]. auto.
    + destruct (m !! key) as [y|]; [|discriminate]. eexists _, _, t'. split; [reflexivity|]. split; [exact Hkeep|].
      split; [exact Hto'|]. split; [exact Hr'|]. cbn [snd]. now rewrite Hct', Hct, fmap_delete.
  - destruct (has_item_spec store c Hc backed fetch Hfetch self h t key Hto Hr Hop) as (h' & Hrun & Hkeep & Hto'). rewrite Hrun, (stands_lookup t m key Hst).
    exists self, h', t. split; [|auto]. cbn. now destruct (m !! key).
  - destruct (peek_item_spec store c Hc backed fetch Hfetch self h t key Hto Hr Hop) as (h' & Hrun & Hkeep & Hto'). rewrite Hrun, (stands_lookup t m key Hst).
    exists self, h', t. split; [|auto]. cbn. now destruct (m !! key).
Qed.

Lemma ops_spec ops : forall self h t m, tree_ok store c h self t -> stands_for t m -> Forall op_ok ops -> map_Forall (fun _ => known) m -> Forall known (ops ≫= op_items) ->
  exists self' h' t', run_ops ops self h = ((map_steps m ops).1, self', h') /\ keeps store c h h' /\ tree_ok store c h' self' t' /\ stands_for t' (map_steps m ops).2.
Proof.
  induction ops as [|op ops IH]; intros self h t m Hto Hst Hok Hm Hit; cbn [run_ops map_steps].
  - eexists _, _, t. split; [reflexivity|]. split; [apply keeps_refl|]. auto.
  - apply Forall_cons in Hok as [Hop Hops]. cbn in Hit. apply Forall_app in Hit as [Hit Hits]. destruct (op_spec op self h t m Hto Hst Hop Hm Hit) as (self1 & h1 & t1 & Hrun & Hkeep & Hto1 & Hst1). rewrite Hrun.
    pose proof (step_known known m op Hm Hit) as Hm1. destruct (map_step m op) as [r m1]. cbn [fst snd] in *. destruct (IH self1 h1 t1 m1 Hto1 Hst1 Hops Hm1 Hits) as (self2 & h2 & t2 & Hruns & Hkeep2 & Hto2 & Hst2). rewrite Hruns.
    destruct (map_steps m1 ops) as [rs m2]. eexists _, _, t2. split; [reflexivity|]. split; [eapply keeps_trans; eassumption|auto].
Qed.

End Ops.
