(* ===== verification/ShamapHash.v ===== *)
(** * ShamapHash: the root hash of a SHAMap

    Mutations leave the hashes of the nodes they touch at zero.  [recompute_hashes_recursive]
    (xrpl/shamap/src/owners/sync.rs) fills them in; the hash of the root is then the
    digest of the tree ([merkle]), and every tree of the store stands for what it stood
    for ([settles]). *)

From stdpp Require Import gmap list.
From Stdlib Require Import ZArith Lia.
From S2P Require Import Prelude Serializer ShamapKey ShamapNode ShamapSlots ShamapTree ShamapHeap ShamapRepr ShamapWalk.
Local Open Scope Z_scope.

Section Hash.
Context `{Sha512}.

(** ** The code *)

Fixpoint for_each {E} (branches : list nat) (f : nat -> M E unit) : M E unit :=
  match branches with
  | [] => mret tt
  | branch :: branches => f branch;; for_each branches f
  end.

(** [update_hash_deep], which reads the hashes of the children. *)
Definition update_hash_deep_in {E} (node : loc) : M E unit := fun h => change node (update_hash_deep (hash_in h)) h.

Fixpoint recompute_hashes_recursive {E} (fuel : nat) (node : loc) : M E unit :=
  n ← read node;
  if negb (is_inner n) then
    if decide (hash n = uint256_zero) then change node update_hash else mret tt
  else
    match fuel with
    | O => lift OutOfFuel
    | S fuel =>
        for_each (seq 0 16) (fun branch =>
          n ← read node;
          empty ← lift (is_empty_branch n branch);
          if (empty : bool) then mret tt
          else
            child ← lift (get_child n branch);
            match child with
            | None => mret tt
            | Some child =>
                cn ← read child;
                if decide (hash cn = uint256_zero) then recompute_hashes_recursive fuel child else mret tt
            end);;
        update_hash_deep_in node
    end.

(** ** Trees are determined by the store *)

Context (store : ghost).

Lemma frozen_fun c h l t : frozen store c h l t -> forall c' t', frozen store c' h l t' -> t' = t.
Proof.
  induction 1 as [l n ty it Hl Hcn Hb Hh|l n i kids Hl Hcn Hb Hi Hh Hs Hk IH]; intros c' t' Hf'; inversion Hf' as [? n' ty' it' Hl' _ Hb' _|? n' i' kids' Hl' _ Hb' Hi' _ Hs' Hk']; subst;
    assert (n' = n) as -> by congruence; [congruence|congruence|congruence|]. assert (i' = i) as -> by congruence. f_equal.
  apply list_eq_same_length with (n := length kids); [reflexivity|rewrite <- (Forall2_length _ _ _ Hs), <- (Forall2_length _ _ _ Hs'); reflexivity|].
  intros b x y _ Hx Hy. destruct (Forall2_lookup_r _ _ _ _ _ Hs Hy) as (s & Hsb & Hsy). destruct (Forall2_lookup_r _ _ _ _ _ Hs' Hx) as (s' & Hsb' & Hsx).
  assert (s' = s) as -> by congruence. destruct s as [[e [l'|]]|]; cbn in Hsx, Hsy; [eapply IH; eauto| |congruence]. destruct Hsx as (_ & _ & Hx'), Hsy as (_ & _ & Hy'). congruence.
Qed.

(** ** Filling in a hash *)

Definition children_of (n : SHAMapTreeNode) : list (option loc) := match body n with InnerBody i => slot_child <$> slots i | LeafBody _ _ => [] end.

(** The node at [l] has the digest of the tree, and the digests of its children. *)
Definition hashed (h : heap) (l : loc) (t : stree) : Prop :=
  exists n, h !! l = Some n /\ hash n = merkle t /\ match body n, t with InnerBody i, Node kids => clean (slots i) kids | _, _ => True end.

(** Every tree stands, hashes that are filled in stay, and nothing else changes. *)
Definition settles (h h' : heap) : Prop :=
  (forall c l t, frozen store c h l t -> frozen store c h' l t) /\
  (forall l t, (exists c, frozen store c h l t) -> hashed h l t -> hashed h' l t) /\
  (forall l n, h !! l = Some n -> exists n', h' !! l = Some n' /\ cowid n' = cowid n /\ children_of n' = children_of n).

Lemma settles_refl h : settles h h.
Proof. split; [auto|]. split; [auto|eauto]. Qed.

Lemma settles_trans h1 h2 h3 : settles h1 h2 -> settles h2 h3 -> settles h1 h3.
Proof.
  intros (F1 & H1 & C1) (F2 & H2 & C2). split; [auto|]. split.
  - intros l t [c Hf] Hh. apply H2; eauto.
  - intros l n Hl. destruct (C1 l n Hl) as (n' & Hl' & Hc' & Hk'). destruct (C2 l n' Hl') as (n'' & Hl'' & Hc'' & Hk''). exists n''. split; [exact Hl''|]. split; congruence.
Qed.

(** The slots after [update_hash_deep] are those before but for the hashes of children that are loaded. *)
Lemma settles_write h l n i kids c i' : h !! l = Some n -> body n = InnerBody i -> frozen store c h l (Node kids) -> inner_ok i' ->
  Forall2 (fun s s' => match s with Some (e, None) => s' = s | Some (_, Some l') => exists e', s' = Some (e', Some l') | None => s' = None end) (slots i) (slots i') ->
  clean (slots i') kids -> settles h (<[l := after n (merkle (Node kids)) i']> h).
Proof.
  intros Hl Hb Hf Hi' Hsl Hcl. pose proof (lookup_lt_Some _ _ _ Hl) as Hlt. set (n' := after n (merkle (Node kids)) i').
  assert (forall c0 l0 t0, frozen store c0 h l0 t0 -> frozen store c0 (<[l:=n']> h) l0 t0) as Hfr.
  { intros c0 l0 t0. induction 1 as [l0 m ty it Hl0 Hcm Hbm Hhm|l0 m j ks Hl0 Hcm Hbm Hj Hhm Hsm Hk IH Hsh]; destruct (decide (l0 = l)) as [->|Hne].
    - assert (m = n) as -> by congruence. congruence.
    - eapply frozen_leaf; eauto. now rewrite list_lookup_insert_ne by congruence.
    - assert (m = n) as -> by congruence. assert (j = i) as -> by congruence.
      assert (ks = kids) as -> by (assert (Node ks = Node kids) as [= ->] by (eapply frozen_fun; [exact Hf|eapply frozen_node; eauto]); reflexivity).
      eapply frozen_node; [now apply list_lookup_insert_eq|exact Hcm|reflexivity|exact Hi'|left; split; [reflexivity|exact Hcl]| | |exact Hsh].
      + apply Forall2_same_length_lookup_2; [rewrite <- (Forall2_length _ _ _ Hsm); symmetry; apply (Forall2_length _ _ _ Hsl)|]. intros b s' t Hs' Ht.
        destruct (Forall2_lookup_r _ _ _ _ _ Hsl Hs') as (s & Hs & Hss). pose proof (Forall2_lookup_lr _ _ _ _ _ _ Hsm Hs Ht) as Hst.
        destruct s as [[e [l'|]]|]; [destruct Hss as [e' ->]|subst s'|subst s']; exact Hst.
      + intros b e l' t Hs' Ht. destruct (Forall2_lookup_r _ _ _ _ _ Hsl Hs') as (s & Hs & Hss). destruct s as [[e0 [l0|]]|]; [|discriminate|discriminate]. destruct Hss as [e' [= -> ->]]. eapply IH; eauto.
    - eapply frozen_node; eauto. now rewrite list_lookup_insert_ne by congruence. }
  split; [exact Hfr|]. split.
  - intros l0 t [c0 Hf0] (m & Hl0 & Hh). destruct (decide (l0 = l)) as [->|Hne].
    + assert (t = Node kids) as -> by (eapply frozen_fun; eauto). exists n'. split; [now apply list_lookup_insert_eq|]. split; [reflexivity|exact Hcl].
    + exists m. now rewrite list_lookup_insert_ne by congruence.
  - intros l0 m Hl0. destruct (decide (l0 = l)) as [->|Hne]; [|exists m; now rewrite list_lookup_insert_ne by congruence].
    exists n'. split; [now apply list_lookup_insert_eq|]. assert (m = n) as -> by congruence. split; [reflexivity|]. unfold children_of. rewrite Hb. unfold n'. cbn [body after].
    revert Hsl. generalize (slots i) (slots i'). clear. intros k k' Hsl. induction Hsl as [|s s' k k' Hs Hk IH]; [reflexivity|]. rewrite !fmap_cons, IH. f_equal. destruct s as [[e [l'|]]|]; [destruct Hs as [e' ->]|subst s'|subst s']; reflexivity.
Qed.

(** ** Filling in all hashes *)

Lemma settles_hashed h h' c l t : settles h h' -> frozen store c h l t -> hashed h l t -> hashed h' l t.
Proof. intros (_ & Hh & _) Hf Hhd. apply Hh; eauto. Qed.

Lemma frozen_hashed c h l t n : frozen store c h l t -> h !! l = Some n -> hash n <> uint256_zero -> hashed h l t.
Proof.
  intros Hf Hn Hz. exists n. split; [exact Hn|]. inversion Hf as [? m ty it Hl _ _ Hh|? m i kids Hl _ Hbd _ Hh _ _]; subst; assert (m = n) as -> by congruence; [split; [exact Hh|now destruct (body n)]|].
  destruct Hh as [[Hh Hcl]|[Hh _]]; [|contradiction]. split; [exact Hh|]. now rewrite Hbd.
Qed.

(** The children of the branches [bs] that are loaded have their hashes. *)
Definition hashed_below (h : heap) (l : loc) (kids : list stree) (bs : list nat) : Prop :=
  forall n b l' t, b ∈ bs -> h !! l = Some n -> children_of n !! b = Some (Some l') -> kids !! b = Some t -> hashed h l' t.

Lemma hashed_below_settles h h' c l kids bs : settles h h' -> frozen store c h l (Node kids) -> hashed_below h l kids bs -> hashed_below h' l kids bs.
Proof.
  intros Hs Hf Hb n' b l' t Hin Hl' Hch Ht. inversion Hf as [|? n i ? Hl _ Hbd _ _ _ Hk]; subst. destruct Hs as (Hs1 & Hs2 & Hs3). destruct (Hs3 l n Hl) as (n'' & Hl'' & _ & Hc).
  assert (n'' = n') as -> by congruence. rewrite Hc in Hch. pose proof (Hb n b l' t Hin Hl Hch Ht) as Hhd. apply (settles_hashed h h' c l' t); [split; auto| |exact Hhd].
  unfold children_of in Hch. rewrite Hbd, list_lookup_fmap in Hch. destruct (slots i !! b) as [[[e [l0|]]|]|] eqn:Hsb; try discriminate. cbn in Hch. injection Hch as ->. eapply Hk; eauto.
Qed.

(** One branch of the loop. *)
Lemma recompute_branch {E} c l kids b h (rec : loc -> M E unit) : frozen store c h l (Node kids) -> (b < 16)%nat ->
  (forall h l' t, frozen store c h l' t -> kids !! b = Some t -> exists h', rec l' h = (Ok tt, h') /\ settles h h' /\ hashed h' l' t) ->
  exists h', (n ← read l; empty ← lift (is_empty_branch n b);
      if (empty : bool) then mret tt
      else child ← lift (get_child n b);
           match child with
           | None => mret tt
           | Some child => cn ← read child; if decide (hash cn = uint256_zero) then rec child else mret tt
           end) h = (Ok tt, h') /\ settles h h' /\ hashed_below h' l kids [b].
Proof.
  intros Hf Hb Hrec. inversion Hf as [|? n i ? Hl Hcn Hbd Hi Hh Hs Hk]; subst. destruct (lookup_lt_is_Some_2 (slots i) b) as [s Hsb]; [rewrite slots_length; exact Hb|].
  destruct (Forall2_lookup_l _ _ _ _ _ Hs Hsb) as (t & Ht & Hst).
  assert (forall h', settles h h' -> (forall e l', s = Some (e, Some l') -> hashed h' l' t) -> hashed_below h' l kids [b]) as Hdone.
  { intros h' (_ & _ & Hs3) Hx n' b' l' t' Hin Hl' Hch Ht'. apply list_elem_of_singleton in Hin as ->. assert (t' = t) as -> by congruence. destruct (Hs3 l n Hl) as (n'' & Hl'' & _ & Hc).
    assert (n'' = n') as -> by congruence. rewrite Hc in Hch. unfold children_of in Hch. rewrite Hbd, list_lookup_fmap, Hsb in Hch. destruct s as [[e [l0|]]|]; try discriminate. cbn in Hch. injection Hch as ->. eauto. }
  run (read_ok (E := E) l h n Hl). run (lift_ok _ _ h (is_empty_branch_slots (E := E) n i Hbd b s Hsb)). case_bool_decide as Hsn.
  { exists h. split; [reflexivity|]. split; [apply settles_refl|]. apply Hdone; [apply settles_refl|]. intros e l' ->. discriminate. }
  run (lift_ok _ _ h (get_child_slots (E := E) n i Hbd Hi b s Hsb)). destruct s as [[e [l'|]]|]; cbn [slot_child]; [| |contradiction].
  2:{ exists h. split; [reflexivity|]. split; [apply settles_refl|]. apply Hdone; [apply settles_refl|]. intros e0 l' [=]. }
  pose proof (Hk b e l' t Hsb Ht) as Hfc. assert (exists cn, h !! l' = Some cn) as [cn Hcn'] by (inversion Hfc; eauto). run (read_ok (E := E) l' h cn Hcn'). destruct (decide (hash cn = uint256_zero)) as [Hz|Hz].
  - destruct (Hrec h l' t Hfc Ht) as (h' & Hr & Hset & Hhd). exists h'. split; [exact Hr|]. split; [exact Hset|]. apply Hdone; [exact Hset|]. intros e0 l0 [= <- <-]. exact Hhd.
  - exists h. split; [reflexivity|]. split; [apply settles_refl|]. apply Hdone; [apply settles_refl|]. intros e0 l0 [= <- <-]. eapply frozen_hashed; eauto.
Qed.

Lemma hashed_below_app h l kids bs bs' : hashed_below h l kids bs -> hashed_below h l kids bs' -> hashed_below h l kids (bs ++ bs').
Proof. intros H1 H2 n b l' t Hin. apply elem_of_app in Hin as [Hin|Hin]; eauto. Qed.

Lemma recompute_loop {E} c l kids (f : nat -> M E unit) : forall bs h, frozen store c h l (Node kids) ->
  (forall b h, b ∈ bs -> frozen store c h l (Node kids) -> exists h', f b h = (Ok tt, h') /\ settles h h' /\ hashed_below h' l kids [b]) ->
  exists h', for_each bs f h = (Ok tt, h') /\ settles h h' /\ hashed_below h' l kids bs.
Proof.
  induction bs as [|b bs IH]; intros h Hf Hstep; cbn [for_each].
  - exists h. split; [reflexivity|]. split; [apply settles_refl|]. intros n b l' t Hin. inversion Hin.
  - destruct (Hstep b h ltac:(left) Hf) as (h1 & Hr1 & Hs1 & Hb1). pose proof (proj1 Hs1 c l _ Hf) as Hf1.
    destruct (IH h1 Hf1) as (h2 & Hr2 & Hs2 & Hb2); [intros b' h' Hin; apply Hstep; now right|].
    exists h2. split; [run Hr1; exact Hr2|]. split; [eapply settles_trans; eassumption|]. apply (hashed_below_app h2 l kids [b] bs); [|exact Hb2]. eapply hashed_below_settles; eauto.
Qed.

Lemma rehash_ok {E} c l kids h : frozen store c h l (Node kids) -> length kids = 16%nat -> hashed_below h l kids (seq 0 16) ->
  exists h', update_hash_deep_in (E := E) l h = (Ok tt, h') /\ settles h h' /\ hashed h' l (Node kids) /\ exists n', h' = <[l := n']> h.
Proof.
  intros Hf Hlen Hb. inversion Hf as [|? n i ? Hl Hcn Hbd Hi Hh Hs Hk]; subst. destruct (update_hash_deep_slots (E := E) n i Hbd Hi (hash_in h)) as (i' & Hu & Hi' & Hs').
  assert (clean (slots i') kids) as Hcl.
  { unfold clean. rewrite Hs'. apply list_eq_same_length with (n := 16%nat); [rewrite length_fmap; exact Hlen|rewrite !length_fmap; apply slots_length|]. intros b x y Hb16 Hx Hy.
    rewrite !list_lookup_fmap in Hx. rewrite list_lookup_fmap in Hy. destruct (slots i !! b) as [s|] eqn:Hsb; [|discriminate]. destruct (kids !! b) as [t|] eqn:Ht; [|discriminate].
    injection Hx as <-. injection Hy as <-. pose proof (Forall2_lookup_lr _ _ _ _ _ _ Hs Hsb Ht) as Hst. destruct s as [[e [l'|]]|]; cbn in Hst |- *; [|now destruct Hst|now subst t].
    destruct (Hb n b l' t) as (cn & Hcn' & Hhc & _); [apply elem_of_seq; lia|exact Hl|unfold children_of; rewrite Hbd, list_lookup_fmap, Hsb; reflexivity|exact Ht|]. unfold hash_in. now rewrite Hcn'. }
  assert (digest (slots i') = merkle (Node kids)) as Hd.
  { apply digest_merkle; [exact Hlen|exact Hcl|]. rewrite Hs'. apply Forall2_fmap_l. eapply Forall2_impl; [exact Hs|]. intros s t Hst. destruct s as [[e [l'|]]|]; cbn in Hst |- *; [| |tauto]; split; try discriminate; intros ->; tauto. }
  exists (<[l := after n (merkle (Node kids)) i']> h). split; [unfold update_hash_deep_in; rewrite <- Hd; now apply (change_ok l _ h n)|]. split.
  - eapply settles_write; eauto. rewrite Hs'. apply Forall2_fmap_r, Forall_Forall2_diag, Forall_forall. intros [[e [l'|]]|] _; cbn; eauto.
  - split; [|eauto]. eexists. split; [apply list_lookup_insert_eq; eapply lookup_lt_Some, Hl|]. split; [reflexivity|exact Hcl].
Qed.

Lemma recompute_spec {E} c fuel : forall p h l t, frozen store c h l t -> shaped p t -> (64 <= fuel + length p)%nat ->
  exists h', recompute_hashes_recursive (E := E) fuel l h = (Ok tt, h') /\ settles h h' /\ hashed h' l t.
Proof.
  induction fuel as [|fuel IH]; intros p h l t Hf Hs Hfuel; (destruct t as [|ty it|kids]; [inversion Hf| |]).
  1, 3: inversion Hf as [? n ? ? Hl Hcn Hbd Hh|]; subst; exists h; split; [|split; [apply settles_refl|exists n; rewrite Hbd; auto]];
    cbn [recompute_hashes_recursive]; run (read_ok (E := E) l h n Hl); unfold is_inner; rewrite Hbd; cbn [negb]; (destruct (decide (hash n = uint256_zero)) as [Hz|Hz]; [|reflexivity]);
    rewrite (change_ok (E := E) l update_hash h n n Hl); [now rewrite list_insert_id|unfold update_hash; rewrite Hbd, compute_leaf_hash_ok by (inversion Hs; assumption); cbn; rewrite <- Hh; now destruct n].
  { inversion Hs; subst. lia. }
  inversion Hs as [| |? ? Hp Hlp Hlen Hkids]; subst. inversion Hf as [|? n i ? Hl Hcn Hbd Hi Hh Hsl Hk]; subst. cbn [recompute_hashes_recursive].
  run (read_ok (E := E) l h n Hl). rewrite (node_is_inner n i Hbd). cbn [negb].
  match goal with |- context [for_each (seq 0 16) ?g] => set (f := g) end.
  destruct (recompute_loop c l kids f (seq 0 16) h Hf) as (h1 & Hr1 & Hs1 & Hb1).
  { intros b h0 Hin Hf0. apply elem_of_seq in Hin. apply (recompute_branch c l kids b h0 (recompute_hashes_recursive fuel) Hf0 ltac:(lia)).
    intros h2 l' t' Hf' Ht'. apply (IH (p ++ [b])); [exact Hf'|auto|rewrite length_app; cbn; lia]. }
  destruct (rehash_ok (E := E) c l kids h1 (proj1 Hs1 _ _ _ Hf) Hlen Hb1) as (h2 & Hr2 & Hs2 & Hh2 & _).
  exists h2. split; [run Hr1; exact Hr2|]. split; [eapply settles_trans; eassumption|exact Hh2].
Qed.

End Hash.
