(* ===== verification/ShamapBinding.v ===== *)
(** * ShamapBinding: the root hash determines the map

    Two maps with one root hash are equal, unless the hash function fails on the texts
    of their nodes: two of these have one digest, or one has the digest zero. *)

From stdpp Require Import gmap list.
From Stdlib Require Import ZArith Lia.
From S2P Require Import Prelude Serializer ShamapKey ShamapNode ShamapSlots ShamapTree ShamapHeap ShamapMap.
Local Open Scope Z_scope.

Section Binding.
Context `{Sha512} (Hlen : forall text, length (sha512 text) = 64%nat).

(** A failure of the hash function on some texts. *)
Definition broken (ps : list (list Z)) : Prop :=
  (exists p q, p ∈ ps /\ q ∈ ps /\ p <> q /\ sha512_half p = sha512_half q) \/ exists p, p ∈ ps /\ sha512_half p = uint256_zero.

Lemma broken_list ps : broken ps <-> Exists (fun p => Exists (fun q => p <> q /\ sha512_half p = sha512_half q) ps \/ sha512_half p = uint256_zero) ps.
Proof.
  rewrite Exists_exists. split.
  - intros [(p & q & Hp & Hq & Hne & He)|(p & Hp & Hz)]; exists p; (split; [exact Hp|]); [left; apply Exists_exists; eauto|auto].
  - intros (p & Hp & [Hq|Hz]); [left|right; eauto]. apply Exists_exists in Hq as (q & Hq & Hne & He). eauto 8.
Qed.

#[global] Instance broken_dec ps : Decision (broken ps).
Proof. refine (cast_if (decide (Exists (fun p => Exists (fun q => p <> q /\ sha512_half p = sha512_half q) ps \/ sha512_half p = uint256_zero) ps))); now rewrite broken_list. Defined.

Lemma broken_mono ps qs : ps ⊆ qs -> broken ps -> broken qs.
Proof. intros Hs [(p & q & Hp & Hq & Hne & He)|(p & Hp & Hz)]; [left; exists p, q|right; exists p]; auto. Qed.

Lemma half_length p : length (sha512_half p) = 32%nat.
Proof. unfold sha512_half. rewrite length_take, Hlen. reflexivity. Qed.

Lemma merkle_length t : length (merkle t) = 32%nat.
Proof.
  destruct t as [|ty it|kids]; cbn [merkle]; [reflexivity| |].
  - destruct ty; cbn [leaf_digest]; [reflexivity| | |]; apply half_length.
  - destruct (decide _); [reflexivity|apply half_length].
Qed.

Lemma concat_inj {A} (k : nat) (xs ys : list (list A)) : Forall (fun x => length x = k) xs -> Forall (fun y => length y = k) ys -> length xs = length ys -> concat xs = concat ys -> xs = ys.
Proof.
  revert ys. induction xs as [|x xs IH]; intros [|y ys] Hx Hy Hl He; try discriminate; [reflexivity|]. apply Forall_cons in Hx as [Hx Hxs]. apply Forall_cons in Hy as [Hy Hys].
  cbn in He. apply app_inj_1 in He as [-> He]; [|congruence]. f_equal. apply IH; auto.
Qed.

(** An identifier of a transaction is the digest of its text. *)
Definition named (x : content) : Prop := x.1 = TransactionNm -> ckey x = leaf_digest TransactionNm x.2.

(** The text that a digest is of. *)
Definition text_of (t : stree) : list Z :=
  match t with
  | Empty => []
  | Leaf Inner _ => []
  | Leaf TransactionNm it => to_be_bytes 4 HASH_PREFIX_TRANSACTION_ID ++ item_data it
  | Leaf TransactionMd it => to_be_bytes 4 HASH_PREFIX_TX_NODE ++ item_data it ++ item_key it
  | Leaf AccountState it => to_be_bytes 4 HASH_PREFIX_LEAF_NODE ++ item_data it ++ item_key it
  | Node kids => to_be_bytes 4 HASH_PREFIX_INNER_NODE ++ concat (map merkle kids)
  end.

Definition solid (t : stree) : Prop := match t with Empty => False | Leaf ty _ => ty <> Inner | Node kids => ~ Forall (fun t => t = Empty) kids end.

Lemma merkle_text t : solid t -> merkle t = sha512_half (text_of t).
Proof.
  destruct t as [|ty it|kids]; cbn [solid]; [contradiction| |]; intros Hs.
  - destruct ty; [contradiction| | |]; cbn; unfold sha512_half_bytes; cbn; now rewrite ?app_nil_r.
  - cbn. now rewrite decide_False.
Qed.

(** The texts that are hashed for a tree. *)
Fixpoint texts (t : stree) : list (list Z) :=
  text_of t :: match t with Node kids => concat (map texts kids) | _ => [] end.

Lemma own_text t : text_of t ∈ texts t.
Proof. destruct t; left. Qed.

Lemma kid_texts kids t : t ∈ kids -> texts t ⊆ texts (Node kids).
Proof. intros Ht p Hp. right. apply list_elem_of_In, in_concat. exists (texts t). split; [apply in_map|]; now apply list_elem_of_In. Qed.

Lemma same_text t t' : solid t -> solid t' -> merkle t = merkle t' -> text_of t = text_of t' \/ broken (texts t ++ texts t').
Proof.
  intros Hs Hs' He. rewrite !merkle_text in He by assumption. destruct (decide (text_of t = text_of t')) as [|Hne]; [auto|]. right. left. exists (text_of t), (text_of t').
  rewrite !elem_of_app. auto using own_text.
Qed.

Lemma compact_solid p t : shaped p t -> compact t -> t = Empty \/ solid t.
Proof.
  intros Hs Hc. destruct t as [|ty it|kids]; [auto|right; inversion Hs; auto|right]. cbn. intros Hall. inversion Hc as [| |? H2 _]; subst.
  change (leaves (Node kids)) with (concat (map leaves kids)) in H2. rewrite no_kids_leaves in H2; [cbn in H2; lia|]. rewrite Forall_forall in Hall. exact Hall.
Qed.

Lemma zero_broken ps t : text_of t ∈ ps -> solid t -> merkle t = uint256_zero -> broken ps.
Proof. intros Ht Hs Hz. rewrite merkle_text in Hz by exact Hs. right. eauto. Qed.

Lemma leaf_text_inj ty ty' it it' : ty <> Inner -> ty' <> Inner -> length (item_key it) = 32%nat -> length (item_key it') = 32%nat -> named (ty, it) -> named (ty', it') -> text_of (Leaf ty it) = text_of (Leaf ty' it') -> Leaf ty it = Leaf ty' it'.
Proof.
  intros Hty Hty' Hl Hl' Hn Hn' He.
  assert (forall a b : list Z, length a = 4%nat -> length b = 4%nat -> forall x y, a ++ x = b ++ y -> a = b /\ x = y) as Hpre by (intros a b Ha Hb x y Hx; apply app_inj_1 in Hx; [exact Hx|congruence]).
  assert (forall a b, item_data a ++ item_key a = item_data b ++ item_key b -> length (item_key a) = length (item_key b) -> a = b) as Htail.
  { intros a b Hx Hk. apply app_inj_2 in Hx as [H1 H2]; [|exact Hk]. destruct a, b. cbn in *. congruence. }
  destruct ty, ty'; try contradiction; cbn [text_of] in He; apply Hpre in He as [Hp Hx]; try reflexivity; try (now vm_compute in Hp).
  - unfold named in Hn, Hn'. cbn in Hn, Hn'. f_equal. unfold ckey in *. cbn in *. assert (item_key it = item_key it') as Hk by (rewrite Hn, Hn' by reflexivity; now rewrite Hx). destruct it, it'. cbn in *. congruence.
  - f_equal. apply Htail; [exact Hx|congruence].
  - f_equal. apply Htail; [exact Hx|congruence].
Qed.

Lemma leaf_inner_text ty it x : ty <> Inner -> text_of (Leaf ty it) <> to_be_bytes 4 HASH_PREFIX_INNER_NODE ++ x.
Proof. intros Hty He. destruct ty; [contradiction| | |]; cbn [text_of] in He; apply app_inj_1 in He as [Hp _]; try reflexivity; now vm_compute in Hp. Qed.

Lemma leaf_node_text ty it kids : ty <> Inner -> text_of (Leaf ty it) <> text_of (Node kids).
Proof. apply leaf_inner_text. Qed.

Lemma node_text_inj kids kids' : length kids = length kids' -> text_of (Node kids) = text_of (Node kids') -> map merkle kids = map merkle kids'.
Proof.
  intros Hl He. cbn [text_of] in He. apply app_inv_head in He. apply (concat_inj 32); [| |rewrite !length_map; exact Hl|exact He]; apply Forall_fmap, Forall_true; intros t; apply merkle_length.
Qed.

Lemma kids_binding (kids kids' : list stree) : length kids = length kids' -> map merkle kids = map merkle kids' ->
  (forall b t t', kids !! b = Some t -> kids' !! b = Some t' -> merkle t = merkle t' -> t = t' \/ broken (texts t ++ texts t')) -> kids = kids' \/ broken (texts (Node kids) ++ texts (Node kids')).
Proof.
  intros Hl Hm Hk. assert (forall b t t', kids !! b = Some t -> kids' !! b = Some t' -> t = t' \/ broken (texts (Node kids) ++ texts (Node kids'))) as Hk'.
  { intros b t t' Ht Ht'. destruct (Hk b t t' Ht Ht') as [|Hb]; [|auto|right].
    - apply (f_equal (fun l => l !! b)) in Hm. change (map merkle) with (fmap (M := list) merkle) in Hm. rewrite !list_lookup_fmap, Ht, Ht' in Hm. now injection Hm.
    - eapply broken_mono; [|exact Hb]. apply list_subseteq_app_iff_l. split; [apply list_subseteq_app_l|apply list_subseteq_app_r]; eapply kid_texts, list_elem_of_lookup_2; eassumption. }
  clear Hk Hm. revert Hk'. generalize (broken (texts (Node kids) ++ texts (Node kids'))) as B. intros B. revert kids' Hl. induction kids as [|t kids IH]; intros [|t' kids'] Hl Hk; try discriminate; [auto|].
  destruct (Hk 0%nat t t' eq_refl eq_refl) as [->|]; [|auto]. destruct (IH kids' ltac:(cbn in Hl; congruence) (fun b => Hk (S b))) as [->|]; auto.
Qed.

Lemma merkle_inj t : forall p p' t', shaped p t -> shaped p' t' -> compact t -> compact t' -> (forall x, x ∈ leaves t -> named x) -> (forall x, x ∈ leaves t' -> named x) ->
  merkle t = merkle t' -> t = t' \/ broken (texts t ++ texts t').
Proof.
  induction t as [|ty it|kids IH] using stree_ind'; intros p p' t' Hs Hs' Hc Hc' Hn Hn' He.
  - destruct (compact_solid p' t' Hs' Hc') as [->|Hsol]; [auto|]. right. eapply zero_broken; [|exact Hsol|symmetry; exact He]. apply elem_of_app. auto using own_text.
  - inversion Hs as [|? ? ? Hty Hit _|]; subst. destruct (compact_solid p' t' Hs' Hc') as [->|Hsol]; [right; apply (zero_broken _ (Leaf ty it)); auto; apply elem_of_app; auto using own_text|].
    destruct (same_text (Leaf ty it) t' Hty Hsol He) as [Ht|]; [|auto]. destruct t' as [|ty' it'|kids']; [contradiction| |now apply leaf_node_text in Ht].
    inversion Hs' as [|? ? ? _ Hit' _|]; subst. left. apply leaf_text_inj; auto; [apply item_key_ok, Hit|apply item_key_ok, Hit'|apply Hn; left|apply Hn'; left].
  - destruct (compact_solid p (Node kids) Hs Hc) as [|Hsol]; [discriminate|]. destruct (compact_solid p' t' Hs' Hc') as [->|Hsol']; [right; apply (zero_broken _ (Node kids)); auto; apply elem_of_app; auto using own_text|].
    destruct (same_text (Node kids) t' Hsol Hsol' He) as [Ht|]; [|auto]. destruct t' as [|ty' it'|kids']; [contradiction|symmetry in Ht; now apply leaf_node_text in Ht|].
    inversion Hs as [| |? ? _ _ Hk Hsk]; subst. inversion Hs' as [| |? ? _ _ Hk' Hsk']; subst. apply node_text_inj in Ht; [|congruence].
    destruct (kids_binding kids kids') as [->|]; [congruence|exact Ht| |auto|auto]. intros b x y Hx Hy Hxy. rewrite Forall_forall in IH.
    inversion Hc as [| |? _ Hck]; subst. inversion Hc' as [| |? _ Hck']; subst. pose proof (list_elem_of_lookup_2 _ _ _ Hx) as Hx'. pose proof (list_elem_of_lookup_2 _ _ _ Hy) as Hy'.
    apply (IH x Hx' (p ++ [b]) (p' ++ [b])); auto; intros z Hz; [apply Hn|apply Hn']; apply leaves_node_elem; eauto.
Qed.

(** The whole tree, whose root may be empty. *)
Lemma root_binding t t' : rooted t -> rooted t' -> (forall x, x ∈ leaves t -> named x) -> (forall x, x ∈ leaves t' -> named x) -> merkle t = merkle t' -> t = t' \/ broken (texts t ++ texts t').
Proof.
  intros (kids & -> & Hs & Hc) (kids' & -> & Hs' & Hc') Hn Hn' He. inversion Hs as [| |? ? _ _ Hk Hsk]; subst. inversion Hs' as [| |? ? _ _ Hk' Hsk']; subst.
  assert (forall ks, length ks = 16%nat -> Forall (fun t => t = Empty) ks -> ks = no_kids) as Hemp.
  { intros ks Hl Hall. unfold no_kids. rewrite <- Hl. symmetry. apply replicate_as_elem_of. split; [reflexivity|]. now apply Forall_forall. }
  destruct (decide (Forall (fun t => t = Empty) kids)) as [H0|H0]; destruct (decide (Forall (fun t => t = Empty) kids')) as [H0'|H0'].
  - left. f_equal. rewrite (Hemp kids), (Hemp kids') by assumption. reflexivity.
  - right. apply (zero_broken _ (Node kids')); [apply elem_of_app; auto using own_text|exact H0'|]. rewrite <- He. cbn. now rewrite decide_True.
  - right. apply (zero_broken _ (Node kids)); [apply elem_of_app; auto using own_text|exact H0|]. rewrite He. cbn. now rewrite decide_True.
  - destruct (same_text (Node kids) (Node kids') H0 H0' He) as [Ht|]; [|auto]. apply node_text_inj in Ht; [|congruence].
    destruct (kids_binding kids kids') as [->|]; [congruence|exact Ht| |auto|auto]. intros b x y Hx Hy Hxy. pose proof (list_elem_of_lookup_2 _ _ _ Hx) as Hx'. pose proof (list_elem_of_lookup_2 _ _ _ Hy) as Hy'.
    apply (merkle_inj x ([] ++ [b]) ([] ++ [b])); auto; intros z Hz; [apply Hn|apply Hn']; apply leaves_node_elem; eauto.
Qed.

End Binding.
