(* ===== verification/ShamapCodec.v ===== *)
(** * ShamapCodec: the wire and the storage form of a node

    What the encoders of xrpl/shamap/src/nodes/tree_node.rs write, the decoders read: the
    storage form of a node is the text its hash is of, and every node that holds the
    hashes of its children is read back from either form. *)

From stdpp Require Import list.
From Stdlib Require Import ZArith Lia.
From S2P Require Import Prelude Serializer ShamapKey ShamapNode ShamapSlots ShamapTree ShamapBinding.
Local Open Scope Z_scope.

(** ** Storing hashes in a dense array *)

(** Arrays of sixteen places, with the mask [m], that hold [l]. *)
Record dense_with (t : TaggedPointer) (m : Z) (l : list SHAMapHash) : Prop := {
  dw_mask : mask_ok m;
  dw_capacity : capacity t = 16%nat;
  dw_hashes : hashes t = l;
  dw_length : length l = 16%nat;
  dw_children : children t = replicate 16 None;
  dw_bits : forall b, has_bit m b = true <-> exists e, l !! b = Some e /\ e <> uint256_zero
}.

(** The slots of a node that has just been decoded. *)
Definition opened (l : list SHAMapHash) : list slot := (fun e => if decide (e = uint256_zero) then None else Some (e, None)) <$> l.

Lemma dense_new {E} : exists t, tagged_new (E := E) BRANCH_FACTOR = Ok t /\ dense_with t 0 (replicate 16 uint256_zero).
Proof.
  eexists. split; [reflexivity|]. constructor; try reflexivity; [split; cbn; lia|]. intros b. rewrite has_bit_0. split; [discriminate|].
  intros (e & He & Hz). now apply lookup_replicate in He as [-> _].
Qed.

Lemma dense_store t m l b e : dense_with t m l -> (b < 16)%nat -> (l !! b = Some uint256_zero) -> 
  dense_with (store_hash b e (t, m)).1 (store_hash b e (t, m)).2 (<[b := e]> l).
Proof.
  intros [Hm Hc Hh Hl Hch Hb] Hlt Hz. assert (has_bit m b = false) as Hbz.
  { destruct (has_bit m b) eqn:Hx; [|reflexivity]. apply Hb in Hx as (e' & He' & Hne). congruence. }
  cbn [store_hash fst snd]. constructor.
  - destruct (decide _); [now apply set_bit_ok|exact Hm].
  - exact Hc.
  - cbn. now rewrite Hh.
  - now rewrite length_insert.
  - exact Hch.
  - intros a. destruct (decide (a = b)) as [->|Hne].
    + rewrite list_lookup_insert_eq by lia. destruct (decide (e <> uint256_zero)) as [Hn|Hn].
      * rewrite has_bit_set, bool_decide_true by reflexivity. split; eauto.
      * rewrite Hbz. split; [discriminate|]. intros (? & [= <-] & ?). contradiction.
    + rewrite list_lookup_insert_ne by auto. rewrite <- Hb. destruct (decide (e <> uint256_zero)); [|reflexivity].
      rewrite has_bit_set, bool_decide_false by exact Hne. reflexivity.
Qed.

Lemma finish_dense {E} t m l : dense_with t m l -> exists t', resize (E := E) m (count_ones m) t = Ok t' /\ inner_ok (mkInner t' m 0) /\ slots (mkInner t' m 0) = opened l.
Proof.
  intros [Hm Hc Hh Hl Hch Hb]. assert (is_dense t = true) as Hd by (unfold is_dense; now rewrite Hc).
  assert (forall b, (b < 16)%nat -> slot_at t m b = if has_bit m b then Some (nth b l uint256_zero, None) else None) as Hs.
  { intros b Hlt. unfold slot_at, place. rewrite Hd. destruct (has_bit m b); [|reflexivity]. unfold hash_at, get_child_at_index. now rewrite Hh, Hch, nth_replicate. }
  enough (exists t', resize (E := E) m (count_ones m) t = Ok t' /\ arrays_ok t' m /\ forall b, (b < 16)%nat -> slot_at t' m b = slot_at t m b) as (t' & Hr & Hok & Hst).
  { exists t'. split; [exact Hr|]. split; [exact Hok|]. apply slots_eq; [unfold opened; now rewrite length_fmap|]. intros b s Hlt Hls. cbn [tagged is_branch]. rewrite Hst, Hs by exact Hlt.
    unfold opened in Hls. rewrite list_lookup_fmap in Hls. destruct (l !! b) as [e|] eqn:He; [|discriminate]. injection Hls as <-.
    rewrite nth_lookup, He. cbn [default]. destruct (has_bit m b) eqn:Hbit.
    - apply Hb in Hbit as (e' & He' & Hne). rewrite decide_False by congruence. reflexivity.
    - destruct (decide (e = uint256_zero)); [reflexivity|]. exfalso. assert (has_bit m b = true) by (apply Hb; eauto). congruence. }
  unfold resize, rebuild. rewrite capacity_for_children_ok by apply count_ones_le. cbn [bind]. rewrite Z.eqb_refl, andb_true_r.
  destruct (Nat.eqb_spec (cap (count_ones m)) (capacity t)) as [Heq|Hneq].
  - exists t. split; [reflexivity|]. split; [|reflexivity]. constructor; [exact Hm|congruence|rewrite Hh; congruence|rewrite Hch, Hc; reflexivity|].
    intros _ b Hbit. unfold hash_at, get_child_at_index. rewrite Hch, nth_replicate. split; [|reflexivity]. rewrite Hh, nth_lookup. destruct (l !! b) as [e|] eqn:He; [|reflexivity].
    cbn. destruct (decide (e = uint256_zero)); [assumption|]. assert (has_bit m b = true) by (apply Hb; eauto). congruence.
  - destruct (tagged_new_ok (E := E) (count_ones m) (count_ones_le m)) as (next & -> & Hcn & Hhn & Hchn). cbn [bind].
    destruct (fresh_arrays_ok next m Hm Hcn ltac:(congruence) ltac:(congruence)) as [Hn H0].
    eexists. split; [reflexivity|]. destruct (rebuild_loop_ok t m m next 16 Hn H0 ltac:(lia)) as [Hok' Hst]. split; [exact Hok'|].
    intros b Hlt. destruct (has_bit m b) eqn:Hbit; [|unfold slot_at; now rewrite Hbit]. rewrite Hst by assumption. rewrite decide_True by exact Hlt. unfold slot_at. now rewrite Hbit.
Qed.

(** ** Decoding inner nodes *)

Lemma concat_length (k : nat) (xs : list (list Z)) : Forall (fun x => length x = k) xs -> length (concat xs) = (k * length xs)%nat.
Proof. induction 1 as [|x xs Hx _ IH]; [cbn; lia|]. cbn [concat length]. rewrite length_app, IH, Hx. lia. Qed.

Lemma chunks_concat (k : nat) (xs : list (list Z)) : (0 < k)%nat -> Forall (fun x => length x = k) xs -> chunks_exact k (concat xs) = xs.
Proof.
  intros Hk Hx. pose proof (concat_length k xs Hx) as Hl.
  unfold chunks_exact. rewrite Hl, Nat.mul_comm, Nat.div_mul by lia. clear Hl. apply list_eq. intros j. rewrite list_lookup_fmap. destruct (decide (j < length xs)%nat) as [Hj|Hj].
  - rewrite lookup_seq_lt by exact Hj. cbn [fmap option_fmap option_map Nat.add]. revert j Hj. induction Hx as [|x xs Hx _ IH]; intros j Hj; [cbn in Hj; lia|]. cbn [length] in Hj. cbn [concat]. destruct j as [|j].
    + rewrite Nat.mul_0_r, drop_0, take_app_length' by auto. reflexivity.
    + change ((x :: xs) !! S j) with (xs !! j). rewrite <- (IH j) by lia. rewrite drop_app_ge by nia. do 3 f_equal. nia.
  - rewrite lookup_seq_ge by lia. symmetry. apply lookup_ge_None. lia.
Qed.

Lemma store_all_ok (hs : list SHAMapHash) : forall pre t m, (length pre + length hs = 16)%nat -> dense_with t m (pre ++ replicate (length hs) uint256_zero) ->
  let s := fold_left (fun s '(b, chunk) => store_hash b chunk s) (imap (fun b x => ((length pre + b)%nat, x)) hs) (t, m) in dense_with s.1 s.2 (pre ++ hs).
Proof.
  induction hs as [|e hs IH]; intros pre t m Hl Hd; [exact Hd|]. cbn [imap fold_left length] in *. rewrite Nat.add_0_r.
  pose proof (dense_store t m _ (length pre) e Hd ltac:(lia) ltac:(rewrite lookup_app_r by lia; now rewrite Nat.sub_diag)) as Hd'.
  rewrite insert_app_r_alt, Nat.sub_diag in Hd' by lia. cbn [replicate] in Hd'. change (<[0%nat:=e]> (uint256_zero :: ?x)) with (e :: x) in Hd'.
  destruct (store_hash (length pre) e (t, m)) as [t' m']. cbn [fst snd] in Hd'. specialize (IH (pre ++ [e]) t' m'). rewrite <- !app_assoc in IH. cbn [app] in IH. rewrite length_app in IH. cbn [length] in IH.
  replace (imap ((fun b x => ((length pre + b)%nat, x)) ∘ S) hs) with (imap (fun b x => ((length pre + 1 + b)%nat, x)) hs); [apply IH; [lia|exact Hd']|].
  apply imap_ext. intros i x _. cbn. f_equal. lia.
Qed.

Lemma store_some_ok (f : nat -> SHAMapHash) (bs : list nat) : forall t m l, NoDup bs -> (forall b, b ∈ bs -> (b < 16)%nat /\ length (f b) = 32%nat /\ l !! b = Some uint256_zero) -> dense_with t m l ->
  exists t' m' l', fold_outcome (E := SHAMapCodecError) (fun s c =>
        let p := nth 32 c 0 in
        if decide (Z.of_nat BRANCH_FACTOR <= p) then Err (InvalidCompressedInnerBranch p)
        else Ok (store_hash (Z.to_nat p) (take 32 c) s)) ((fun b => f b ++ [Z.of_nat b]) <$> bs) (t, m) = Ok (t', m') /\
    dense_with t' m' l' /\ forall b, l' !! b = if decide (b ∈ bs) then Some (f b) else l !! b.
Proof.
  induction bs as [|b bs IH]; intros t m l Hnd Hbs Hd; [exists t, m, l; split; [reflexivity|]; split; [exact Hd|intros b; now rewrite decide_False by apply not_elem_of_nil]|].
  apply NoDup_cons in Hnd as [Hn Hnd]. destruct (Hbs b ltac:(left)) as (Hb & Hf & Hz). pose proof (dense_store t m l b (f b) Hd Hb Hz) as Hd'. rewrite fmap_cons. cbn [fold_outcome].
  rewrite app_nth2, Hf, Nat.sub_diag by lia. cbn [nth]. rewrite decide_False by (unfold BRANCH_FACTOR; lia). rewrite Nat2Z.id, take_app_length' by auto. cbn [bind].
  destruct (store_hash b (f b) (t, m)) as [t1 m1]. cbn [fst snd] in Hd'. destruct (IH t1 m1 (<[b := f b]> l) Hnd) as (t' & m' & l' & Hrun & Hd2 & Hl'); [|exact Hd'|].
  - intros a Ha. destruct (Hbs a ltac:(now right)) as (? & ? & ?). rewrite list_lookup_insert_ne by (intros ->; contradiction). auto.
  - exists t', m', l'. split; [exact Hrun|]. split; [exact Hd2|]. intros a. rewrite Hl'. destruct (decide (a = b)) as [->|Hne].
    + rewrite decide_False by exact Hn. rewrite list_lookup_insert_eq by (rewrite (dw_length _ _ _ Hd); exact Hb). now rewrite decide_True by left.
    + rewrite list_lookup_insert_ne by auto. destruct (decide (a ∈ bs)); [now rewrite decide_True by now right|]. rewrite decide_False; [reflexivity|]. rewrite elem_of_cons. tauto.
Qed.

Section Codec.
Context `{Sha512}.

(** ** Inner nodes *)

(** Hashes have 32 bytes, and a branch in use does not have the hash zero. *)
Definition hashes_ok (l : list slot) : Prop := forall s, s ∈ l -> length (slot_hash s) = 32%nat /\ (s <> None -> slot_hash s <> uint256_zero).

Definition drop_slot (s : slot) : slot := drop_child <$> s.

Lemma opened_slots l : hashes_ok l -> opened (slot_hash <$> l) = drop_slot <$> l.
Proof.
  intros Hl. unfold opened. rewrite <- list_fmap_compose. apply list_fmap_ext. intros b s Hs. cbn. destruct (Hl s (list_elem_of_lookup_2 _ _ _ Hs)) as [_ Hn].
  destruct s as [[e c]|]; cbn in *; [rewrite decide_False by auto; reflexivity|reflexivity].
Qed.

Lemma all_hashes_slots i : inner_ok i -> all_hashes (is_branch i) (tagged i) = concat (slot_hash <$> slots i).
Proof.
  intros Hi. unfold all_hashes, slots. rewrite <- list_fmap_compose. f_equal. apply list_fmap_ext. intros b x Hb. apply lookup_seq in Hb as [-> Hb]. cbn.
  now apply tagged_get_hash_slots.
Qed.

Lemma make_full_inner_ok hs known : length hs = 16%nat -> Forall (fun e => length e = 32%nat) hs -> exists i, inner_ok i /\ slots i = opened hs /\
  make_full_inner (concat hs) known = Ok (mkNode (match known with Some e => e | None => digest (opened hs) end) 0 (InnerBody i)).
Proof.
  intros Hl Hf. unfold make_full_inner. pose proof (concat_length 32 hs Hf) as Hc.
  rewrite decide_False by (rewrite Hc, Hl; auto). destruct (dense_new (E := SHAMapCodecError)) as (t & -> & Hd). cbn [bind]. rewrite (chunks_concat 32) by (auto; lia).
  pose proof (store_all_ok hs [] t 0 ltac:(cbn; lia) ltac:(rewrite Hl; exact Hd)) as Hs. cbn in Hs. change (imap (fun (b : nat) (x : SHAMapHash) => (b, x)) hs) with (imap pair hs) in Hs.
  destruct (fold_left _ (imap pair hs) (t, 0)) as [t' m']. cbn [fst snd] in Hs. destruct (finish_dense (E := SHAMapCodecError) t' m' hs Hs) as (t2 & Hr & Hok & Hsl).
  exists (mkInner t2 m' 0). split; [exact Hok|]. split; [exact Hsl|]. unfold finish_inner. rewrite Hr. cbn [bind]. destruct known as [e|]; [reflexivity|].
  rewrite (update_hash_slots (mkNode uint256_zero 0 (InnerBody (mkInner t2 m' 0))) _ eq_refl Hok), Hsl. reflexivity.
Qed.

Lemma make_compressed_inner_ok (hs : list SHAMapHash) : length hs = 16%nat -> Forall (fun e => length e = 32%nat) hs -> exists i, inner_ok i /\ slots i = opened hs /\
  make_compressed_inner (concat ((fun b => nth b hs [] ++ [Z.of_nat b]) <$> filter (fun b => nth b hs [] <> uint256_zero) (seq 0 16))) = Ok (mkNode (digest (opened hs)) 0 (InnerBody i)).
Proof.
  intros Hl Hf. set (bs := filter _ _). assert (forall b, (b < 16)%nat -> length (nth b hs []) = 32%nat) as Hlen.
  { intros b Hb. rewrite Forall_forall in Hf. apply Hf. rewrite nth_lookup. destruct (lookup_lt_is_Some_2 hs b ltac:(lia)) as [e He]. rewrite He. cbn. eapply list_elem_of_lookup_2; eauto. }
  assert (forall b, b ∈ bs -> (b < 16)%nat) as Hbs by (intros b Hb; apply list_elem_of_filter in Hb as [_ Hb]; apply elem_of_seq in Hb; lia).
  assert (Forall (fun c => length c = 33%nat) ((fun b => nth b hs [] ++ [Z.of_nat b]) <$> bs)) as Hf33.
  { apply Forall_fmap, Forall_forall. intros b Hb. cbn. rewrite length_app, Hlen by auto. reflexivity. }
  pose proof (concat_length 33 _ Hf33) as Hc. rewrite length_fmap in Hc.
  unfold make_compressed_inner. rewrite Hc. rewrite decide_False.
  2:{ rewrite Nat.mul_comm, Nat.Div0.mod_mul. assert (length bs <= 16)%nat by (change 16%nat with (length (seq 0 16)); apply length_filter). unfold BRANCH_FACTOR. lia. }
  destruct (dense_new (E := SHAMapCodecError)) as (t & -> & Hd). cbn [bind]. rewrite (chunks_concat 33) by (auto; lia).
  destruct (store_some_ok (fun b => nth b hs []) bs t 0 _ ltac:(apply NoDup_filter, NoDup_seq) ltac:(intros b Hb; split; [auto|]; split; [auto|]; apply lookup_replicate; auto) Hd) as (t' & m' & l' & Hrun & Hd' & Hl').
  cbv zeta in Hrun. rewrite Hrun. cbn [bind]. assert (l' = hs) as ->.
  { apply list_eq. intros b. rewrite Hl'. destruct (decide (b < 16)%nat) as [Hb|Hb].
    - destruct (lookup_lt_is_Some_2 hs b ltac:(lia)) as [e He]. assert (nth b hs [] = e) as Hnth by (rewrite nth_lookup, He; reflexivity). rewrite He. destruct (decide (b ∈ bs)) as [Hin|Hin]; [now rewrite Hnth|].
      rewrite lookup_replicate_2 by exact Hb. f_equal. destruct (decide (e = uint256_zero)) as [->|Hne]; [reflexivity|]. destruct Hin. apply list_elem_of_filter. rewrite Hnth. split; [exact Hne|]. apply elem_of_seq. lia.
    - rewrite decide_False by auto. rewrite (lookup_ge_None_2 hs b) by lia. apply lookup_ge_None. rewrite length_replicate. lia. }
  destruct (finish_dense (E := SHAMapCodecError) t' m' hs Hd') as (t2 & Hr & Hok & Hsl). exists (mkInner t2 m' 0). split; [exact Hok|]. split; [exact Hsl|].
  unfold finish_inner. rewrite Hr. cbn [bind]. rewrite (update_hash_slots (mkNode uint256_zero 0 (InnerBody (mkInner t2 m' 0))) _ eq_refl Hok), Hsl. reflexivity.
Qed.

(** What the decoder makes of a node. *)
Definition read_back (n n' : SHAMapTreeNode) (e : SHAMapHash) : Prop :=
  hash n' = e /\ cowid n' = 0 /\
  match body n, body n' with
  | LeafBody ty it, LeafBody ty' it' => ty' = ty /\ it' = it
  | InnerBody i, InnerBody i' => inner_ok i' /\ slots i' = drop_slot <$> slots i
  | _, _ => False
  end.

Lemma inner_prefix i : inner_ok i -> is_branch i <> 0 -> serialize_inner_with_prefix (is_branch i) (tagged i) = Ok (to_be_bytes 4 HASH_PREFIX_INNER_NODE ++ concat (slot_hash <$> slots i)).
Proof. intros Hi Hb. unfold serialize_inner_with_prefix. rewrite (proj2 (Z.eqb_neq _ _) Hb). now rewrite all_hashes_slots. Qed.

Lemma inner_hashes l : hashes_ok l -> Forall (fun e => length e = 32%nat) (slot_hash <$> l).
Proof. intros Hl. apply Forall_fmap, Forall_forall. intros s Hs. apply (Hl s Hs). Qed.

Lemma compressed_hashes i : inner_ok i -> hashes_ok (slots i) ->
  concat ((fun b => if has_bit (is_branch i) b then tagged_get_hash (tagged i) (is_branch i) b ++ [Z.of_nat b] else []) <$> seq 0 BRANCH_FACTOR) =
  concat ((fun b => nth b (slot_hash <$> slots i) [] ++ [Z.of_nat b]) <$> filter (fun b => nth b (slot_hash <$> slots i) [] <> uint256_zero) (seq 0 16)).
Proof.
  intros Hi Hl. change BRANCH_FACTOR with 16%nat. assert (forall b, b ∈ seq 0 16 -> (b < 16)%nat) as Hlt by (intros b Hb; apply elem_of_seq in Hb; lia). revert Hlt. generalize (seq 0 16) as bs.
  induction bs as [|b bs IH]; intros Hlt; [reflexivity|]. specialize (IH ltac:(intros a Ha; apply Hlt; now right)). pose proof (Hlt b ltac:(left)) as Hb. rewrite fmap_cons. cbn [concat].
  assert (nth b (slot_hash <$> slots i) [] = slot_hash (slot_at (tagged i) (is_branch i) b)) as Hnth by (rewrite nth_lookup, list_lookup_fmap, slots_lookup by exact Hb; reflexivity).
  destruct (Hl (slot_at (tagged i) (is_branch i) b)) as [_ Hn]; [eapply list_elem_of_lookup_2, slots_lookup, Hb|].
  rewrite IH, filter_cons, Hnth, tagged_get_hash_slots by auto. destruct (has_bit (is_branch i) b) eqn:Hbit; unfold slot_at in *; rewrite Hbit in *.
  - rewrite decide_True by (apply Hn; discriminate). rewrite fmap_cons, Hnth. reflexivity.
  - rewrite decide_False by (cbn; auto). reflexivity.
Qed.

Lemma inner_roundtrip n i e : body n = InnerBody i -> inner_ok i -> is_branch i <> 0 -> hashes_ok (slots i) ->
  let text := to_be_bytes 4 HASH_PREFIX_INNER_NODE ++ concat (slot_hash <$> slots i) in
  serialize_with_prefix n = Ok text /\ (exists n', make_from_prefix text e = Ok n' /\ read_back n n' e) /\
  exists raw n', serialize_for_wire n = Ok raw /\ make_from_wire raw = Ok (Some n') /\ read_back n n' (sha512_half text).
Proof.
  intros Hb Hi Hne Hl text. pose proof (inner_hashes _ Hl) as Hf. assert (length (slot_hash <$> slots i) = 16%nat) as H16 by (now rewrite length_fmap, slots_length).
  assert (digest (opened (slot_hash <$> slots i)) = sha512_half text) as Hdig.
  { rewrite opened_slots by exact Hl. unfold digest. rewrite decide_False.
    - unfold text. do 3 f_equal. rewrite <- list_fmap_compose. apply list_fmap_ext. intros b s _. now destruct s as [[x c]|].
    - intros Hx. apply Hne, (empty_slots i Hi). symmetry. apply replicate_as_elem_of. split; [apply slots_length|]. intros s Hs.
      assert (drop_slot s ∈ replicate 16 (@None (SHAMapHash * option loc))) as Hd by (rewrite <- Hx; now apply list_elem_of_fmap_2). apply elem_of_replicate_inv in Hd. now destruct s. }
  assert (forall i' e', inner_ok i' -> slots i' = opened (slot_hash <$> slots i) -> read_back n (mkNode e' 0 (InnerBody i')) e') as Hrb.
  { intros i' e' Hi' Hs'. split; [reflexivity|]. split; [reflexivity|]. rewrite Hb. split; [exact Hi'|]. rewrite Hs'. now apply opened_slots. }
  unfold serialize_with_prefix, serialize_for_wire. rewrite Hb. split; [now apply inner_prefix|]. split.
  - destruct (make_full_inner_ok _ (Some e) H16 Hf) as (i' & Hi' & Hs' & Hmk). eexists. split; [|now apply (Hrb i')]. unfold make_from_prefix, text.
    rewrite decide_False by (rewrite length_app; cbn; lia). change (take 4 (to_be_bytes 4 HASH_PREFIX_INNER_NODE ++ ?x)) with (to_be_bytes 4 HASH_PREFIX_INNER_NODE). change (drop 4 (to_be_bytes 4 HASH_PREFIX_INNER_NODE ++ ?x)) with x.
    change (be_value (to_be_bytes 4 HASH_PREFIX_INNER_NODE)) with HASH_PREFIX_INNER_NODE. rewrite !decide_False, decide_True by (reflexivity || discriminate). exact Hmk.
  - unfold serialize_inner_for_wire. rewrite (proj2 (Z.eqb_neq _ _) Hne). destruct (decide _) as [Hc|Hc].
    + rewrite compressed_hashes by assumption. destruct (make_compressed_inner_ok _ H16 Hf) as (i' & Hi' & Hs' & Hmk). eexists _, _. split; [reflexivity|]. split; [|apply (Hrb i'); assumption].
      unfold make_from_wire. rewrite last_snoc, length_app, Nat.add_sub, take_app_length. rewrite !decide_False, decide_True by (reflexivity || discriminate). rewrite Hmk, Hdig. reflexivity.
    + rewrite all_hashes_slots by exact Hi. destruct (make_full_inner_ok _ None H16 Hf) as (i' & Hi' & Hs' & Hmk). eexists _, _. split; [reflexivity|]. split; [|apply (Hrb i'); assumption].
      unfold make_from_wire. rewrite last_snoc, length_app, Nat.add_sub, take_app_length. rewrite !decide_False, decide_True by (reflexivity || discriminate). rewrite Hmk, Hdig. reflexivity.
Qed.

(** ** Leaves *)

(** Items that can be stored: not too short, not too long, with a key that can be
    recovered. *)
Record codable (ty : SHAMapNodeType) (it : SHAMapItem) : Prop := {
  co_type : ty <> Inner;
  co_item : good_item it;
  co_size : Z.of_nat (length (item_data it)) <= 16 * 1024 * 1024;
  co_named : named (ty, it);
  co_key : ty = AccountState -> item_key it <> uint256_zero
}.

Lemma leaf_prefix_text ty it : ty <> Inner -> serialize_leaf_with_prefix ty it = Ok (text_of (Leaf ty it)).
Proof. intros Hty. destruct ty; [contradiction| | |]; unfold serialize_leaf_with_prefix, leaf_bytes; cbn [leaf_prefix bind text_of]; [rewrite decide_False, app_nil_r by auto|..]; rewrite ?decide_True by discriminate; reflexivity. Qed.

Lemma split_key_app (d k : list Z) : length k = 32%nat -> split_key (d ++ k) = (d, k).
Proof. intros Hk. unfold split_key. rewrite length_app, Hk, Nat.add_sub. now rewrite take_app_length, drop_app_length. Qed.

(** The three decoders of leaves, on what the encoders write. *)
Lemma make_leaf_ok ty it known : codable ty it ->
  match ty with Inner => make_full_inner | TransactionNm => make_transaction_node | TransactionMd => make_transaction_with_meta_node | AccountState => make_account_state_node end (leaf_bytes ty it) known =
  Ok (mkNode (match known with Some e => e | None => leaf_digest ty it end) 0 (LeafBody ty it)).
Proof.
  intros [Hty Hit Hsz Hn Hk]. destruct (item_key_ok it Hit) as [Hl _]. pose proof (item_min it Hit) as Hmin.
  assert (item_new (E := SHAMapCodecError) (item_key it) (item_data it) = Ok it) as Hnew by (unfold item_new; rewrite decide_True by exact Hsz; now destruct it).
  assert (leaf_with_known ty it known = Ok (mkNode (match known with Some e => e | None => leaf_digest ty it end) 0 (LeafBody ty it))) as Hleaf.
  { destruct known; cbn [leaf_with_known]; [now apply new_leaf_with_hash_ok|now apply new_leaf_ok]. }
  assert (forall ty', validate_leaf_payload ty' (item_data it) = Ok tt) as Hval by (intros ty'; unfold validate_leaf_payload; now rewrite decide_False by lia).
  destruct ty; [contradiction| | |]; unfold leaf_bytes.
  - rewrite decide_False by auto. rewrite app_nil_r. unfold make_transaction_node. rewrite Hval. cbn [bind].
    change (sha512_half_bytes HASH_PREFIX_TRANSACTION_ID [item_data it]) with (leaf_digest TransactionNm it). pose proof (Hn eq_refl : item_key it = leaf_digest TransactionNm it) as Hkey. rewrite <- Hkey in Hleaf |- *. rewrite Hnew. exact Hleaf.
  - rewrite decide_True by discriminate. unfold make_transaction_with_meta_node. rewrite decide_False by (rewrite length_app; lia). rewrite split_key_app by exact Hl. rewrite Hval. cbn [bind]. rewrite Hnew. exact Hleaf.
  - rewrite decide_True by discriminate. unfold make_account_state_node. rewrite decide_False by (rewrite length_app; lia). rewrite split_key_app by exact Hl. rewrite Hval. cbn [bind]. rewrite decide_False by auto. rewrite Hnew. exact Hleaf.
Qed.

Lemma leaf_roundtrip n ty it e : body n = LeafBody ty it -> codable ty it ->
  serialize_with_prefix n = Ok (text_of (Leaf ty it)) /\ (exists n', make_from_prefix (text_of (Leaf ty it)) e = Ok n' /\ read_back n n' e) /\
  exists raw n', serialize_for_wire n = Ok raw /\ make_from_wire raw = Ok (Some n') /\ read_back n n' (sha512_half (text_of (Leaf ty it))).
Proof.
  intros Hb Hco. pose proof (co_type _ _ Hco) as Hty. unfold serialize_with_prefix, serialize_for_wire. rewrite Hb. split; [now apply leaf_prefix_text|].
  assert (forall e', read_back n (mkNode e' 0 (LeafBody ty it)) e') as Hrb by (intros e'; split; [reflexivity|]; split; [reflexivity|]; rewrite Hb; cbn; auto).
  pose proof (make_leaf_ok ty it (Some e) Hco) as Hp. pose proof (make_leaf_ok ty it None Hco) as Hw. pose proof (merkle_text (Leaf ty it) Hty) as Hm. cbn [merkle] in Hm. rewrite Hm in Hw.
  split; [eexists; split; [|apply Hrb]|].
  - unfold make_from_prefix. destruct ty; [contradiction| | |]; cbn [text_of]; unfold leaf_bytes in Hp; first [rewrite decide_True in Hp by discriminate|rewrite decide_False, app_nil_r in Hp by auto];
      (rewrite decide_False by (rewrite !length_app; cbn; lia)); (rewrite take_app_length', drop_app_length' by reflexivity); rewrite be_value_to_be.
    + rewrite decide_True by reflexivity. exact Hp.
    + rewrite !decide_False, decide_True by (reflexivity || discriminate). exact Hp.
    + rewrite decide_False, decide_True by (reflexivity || discriminate). exact Hp.
  - unfold serialize_leaf_for_wire. destruct ty; [contradiction| | |]; cbn [wire_type bind]; eexists _, _; (split; [reflexivity|]); (split; [|apply Hrb]);
      unfold make_from_wire; rewrite last_snoc, length_app, Nat.add_sub, take_app_length.
    + rewrite decide_True by reflexivity. rewrite Hw. reflexivity.
    + rewrite !decide_False, decide_True by (reflexivity || discriminate). rewrite Hw. reflexivity.
    + rewrite decide_False, decide_True by (reflexivity || discriminate). rewrite Hw. reflexivity.
Qed.

(** ** Nodes *)

(** A node that can be written: it has a branch, and the hashes of its children. *)
Definition encodable (n : SHAMapTreeNode) : Prop :=
  match body n with
  | InnerBody i => inner_ok i /\ is_branch i <> 0 /\ hashes_ok (slots i)
  | LeafBody ty it => codable ty it
  end.

(** The text that the hash of a node is of. *)
Definition node_text (n : SHAMapTreeNode) : list Z :=
  match body n with
  | InnerBody i => to_be_bytes 4 HASH_PREFIX_INNER_NODE ++ concat (slot_hash <$> slots i)
  | LeafBody ty it => text_of (Leaf ty it)
  end.

Lemma codec_roundtrip n e : encodable n -> serialize_with_prefix n = Ok (node_text n) /\ (exists n', make_from_prefix (node_text n) e = Ok n' /\ read_back n n' e) /\
  exists raw n', serialize_for_wire n = Ok raw /\ make_from_wire raw = Ok (Some n') /\ read_back n n' (sha512_half (node_text n)).
Proof.
  unfold encodable, node_text. destruct (body n) as [i|ty it] eqn:Hb; [intros (Hi & Hne & Hl); now apply inner_roundtrip|intros Hco; now apply leaf_roundtrip].
Qed.

End Codec.
