(* ===== verification/ShamapWire.v ===== *)
(** * ShamapWire: what the decoder of the wire form accepts

    Blobs come from peers.  Whatever they hold, the decoder answers without a panic
    (as long as a blob is not longer than an item may be), and what it accepts is a node
    that is well formed, not loaded, and has the hash of its text. *)

From stdpp Require Import list.
From Stdlib Require Import ZArith Lia.
From S2P Require Import Prelude Serializer ShamapKey ShamapNode ShamapSlots ShamapTree ShamapBinding ShamapCodec.
Local Open Scope Z_scope.

(** ** Arrays that are being filled *)

(** Sixteen places without children; a branch that is not in use has the hash zero. *)
Record filling (s : TaggedPointer * Z) : Prop := {
  fi_mask : mask_ok s.2;
  fi_capacity : capacity s.1 = 16%nat;
  fi_length : length (hashes s.1) = 16%nat;
  fi_hashes : Forall (fun e => length e = 32%nat) (hashes s.1);
  fi_children : children s.1 = replicate 16 None;
  fi_unused : forall b, has_bit s.2 b = false -> hash_at s.1 b = uint256_zero
}.

Lemma filling_new {E} : exists t, tagged_new (E := E) BRANCH_FACTOR = Ok t /\ filling (t, 0).
Proof.
  eexists. split; [reflexivity|]. constructor; cbn; try reflexivity; [split; cbn; lia|repeat constructor|]. intros b _. unfold hash_at. cbn.
  do 16 (destruct b as [|b]; [reflexivity|]). now destruct b.
Qed.

Lemma filling_store b e s : filling s -> (b < 16)%nat -> length e = 32%nat -> filling (store_hash b e s).
Proof.
  intros [Hm Hc Hl Hf Hch Hu] Hb He. destruct s as [t m]. cbn [fst snd] in *. constructor; cbn [store_hash fst snd].
  - destruct (decide _); [now apply set_bit_ok|exact Hm].
  - exact Hc.
  - cbn. now rewrite length_insert.
  - cbn. now apply Forall_insert.
  - exact Hch.
  - intros a Ha. unfold hash_at. cbn. rewrite nth_lookup. destruct (decide (a = b)) as [->|Hne].
    + rewrite list_lookup_insert_eq by lia. cbn. destruct (decide (e <> uint256_zero)) as [Hn|Hn]; [|now apply dec_stable].
      rewrite has_bit_set, bool_decide_true in Ha by reflexivity. discriminate.
    + rewrite list_lookup_insert_ne, <- nth_lookup by auto. apply Hu. destruct (decide (e <> uint256_zero)); [|exact Ha]. now rewrite has_bit_set, bool_decide_false in Ha by exact Hne.
Qed.

Lemma filling_slot t m b : filling (t, m) -> (b < 16)%nat -> slot_at t m b = if has_bit m b then Some (hash_at t b, None) else None.
Proof.
  intros Hf Hb. pose proof (fi_capacity _ Hf) as Hcap. cbn [fst] in Hcap. unfold slot_at, place, is_dense. rewrite Hcap. destruct (has_bit m b); [|reflexivity]. unfold get_child_at_index.
  pose proof (fi_children _ Hf) as Hc. cbn [fst] in Hc. now rewrite Hc, nth_replicate.
Qed.

Lemma filling_hash t m b : filling (t, m) -> length (hash_at t b) = 32%nat.
Proof.
  intros Hf. unfold hash_at. rewrite nth_lookup. destruct (hashes t !! b) as [e|] eqn:He; [|reflexivity]. exact (Forall_lookup_1 _ _ _ _ (fi_hashes _ Hf) He).
Qed.

(** The node that the arrays become. *)
Definition wire_inner (i : SHAMapInnerNode) : Prop := inner_ok i /\ forall s, s ∈ slots i -> length (slot_hash s) = 32%nat /\ slot_child s = None.

Lemma filling_resized t m : filling (t, m) -> exists t', resize (E := SHAMapCodecError) m (count_ones m) t = Ok t' /\ arrays_ok t' m /\ forall b, (b < 16)%nat -> slot_at t' m b = slot_at t m b.
Proof.
  intros Hf. pose proof Hf as [Hm Hc Hl _ Hch Hu]. cbn [fst snd] in *. unfold resize, rebuild. rewrite capacity_for_children_ok by apply count_ones_le. cbn [bind]. rewrite Z.eqb_refl, andb_true_r.
  destruct (Nat.eqb_spec (cap (count_ones m)) (capacity t)) as [Heq|Hneq].
  - exists t. split; [reflexivity|]. split; [|reflexivity]. constructor; [exact Hm|congruence|congruence|rewrite Hch, Hc; reflexivity|].
    intros _ b Hbit. split; [now apply Hu|]. unfold get_child_at_index. now rewrite Hch, nth_replicate.
  - destruct (tagged_new_ok (E := SHAMapCodecError) (count_ones m) (count_ones_le m)) as (next & -> & Hcn & Hhn & Hchn). cbn [bind].
    destruct (fresh_arrays_ok next m Hm Hcn ltac:(congruence) ltac:(congruence)) as [Hn H0].
    eexists. split; [reflexivity|]. destruct (rebuild_loop_ok t m m next 16 Hn H0 ltac:(lia)) as [Hok' Hst]. split; [exact Hok'|].
    intros b Hlt. destruct (has_bit m b) eqn:Hbit; [|unfold slot_at; now rewrite Hbit]. rewrite Hst by assumption. rewrite decide_True by exact Hlt. unfold slot_at. now rewrite Hbit.
Qed.

Section Wire.
Context `{Sha512} (Hlen : forall text, length (sha512 text) = 64%nat).

(** ** Nodes that are decoded *)

Definition decoded (n : SHAMapTreeNode) : Prop :=
  match body n with
  | InnerBody i => wire_inner i /\ hash n = digest (slots i)
  | LeafBody ty it => ty <> Inner /\ length (item_key it) = 32%nat /\ named (ty, it) /\ hash n = leaf_digest ty it
  end.

(** A decoder that does not panic, and gives such a node. *)
Definition decodes (r : outcome SHAMapCodecError SHAMapTreeNode) : Prop :=
  match r with Ok n => decoded n | Err _ => True | _ => False end.

Lemma finish_decodes s : filling s -> decodes (finish_inner s.1 s.2 None).
Proof.
  intros Hf. destruct s as [t m]. cbn [fst snd]. destruct (filling_resized t m Hf) as (t' & Hr & Hok & Hs). unfold finish_inner. rewrite Hr. cbn [bind].
  set (i := mkInner t' m 0). assert (inner_ok i) as Hi by exact Hok. rewrite (update_hash_slots (mkNode uint256_zero 0 (InnerBody i)) i eq_refl Hi). cbn. split; [|reflexivity]. split; [exact Hi|].
  intros x Hx. apply list_elem_of_lookup in Hx as (b & Hx). pose proof (lookup_lt_Some _ _ _ Hx) as Hb. rewrite slots_length in Hb. rewrite slots_lookup in Hx by exact Hb. injection Hx as <-.
  cbn [tagged is_branch i]. rewrite Hs, filling_slot by assumption. destruct (has_bit m b); [|split; reflexivity]. split; [|reflexivity]. cbn. eapply filling_hash, Hf.
Qed.

Lemma chunk_length k data c : (0 < k)%nat -> c ∈ chunks_exact k data -> length c = k.
Proof.
  intros Hk Hc. apply list_elem_of_fmap in Hc as (i & -> & Hi). apply elem_of_seq in Hi. rewrite length_take, length_drop.
  assert (k * S i <= length data)%nat; [|lia]. etransitivity; [|apply (Nat.Div0.mul_div_le (length data) k)]. apply Nat.mul_le_mono_l. lia.
Qed.

Lemma make_full_inner_decodes data : decodes (make_full_inner data None).
Proof.
  unfold make_full_inner. destruct (decide _) as [|Hl]; [exact I|]. apply dec_stable in Hl. destruct (filling_new (E := SHAMapCodecError)) as (t & -> & Hf). cbn [bind].
  assert (forall l s, (forall b c, (b, c) ∈ l -> (b < 16)%nat /\ length c = 32%nat) -> filling s -> filling (fold_left (fun s '(b, chunk) => store_hash b chunk s) l s)) as Hfold.
  { induction l as [|[b c] l IH]; intros s Hin Hs; [exact Hs|]. cbn [fold_left]. destruct (Hin b c ltac:(left)) as [Hb Hc]. apply IH; [intros; apply Hin; now right|]. now apply filling_store. }
  specialize (Hfold (imap pair (chunks_exact 32 data)) (t, 0)). destruct (fold_left _ _ _) as [t' m']. apply (finish_decodes (t', m')), Hfold; [|exact Hf].
  intros b c Hbc. apply elem_of_lookup_imap in Hbc as (j & c' & [= -> ->] & Hj). split; [|eapply (chunk_length 32); [lia|eapply list_elem_of_lookup_2, Hj]].
  apply lookup_lt_Some in Hj. unfold chunks_exact in Hj. rewrite length_fmap, length_seq, Hl in Hj. exact Hj.
Qed.

Lemma make_compressed_inner_decodes data : decodes (make_compressed_inner data).
Proof.
  unfold make_compressed_inner. destruct (decide _) as [|Hl]; [exact I|]. destruct (filling_new (E := SHAMapCodecError)) as (t & -> & Hf). cbn [bind].
  set (f := fun s c => _). assert (forall l s, (forall c, c ∈ l -> length c = 33%nat) -> filling s -> match fold_outcome f l s with Ok s' => filling s' | Err _ => True | _ => False end) as Hfold.
  { induction l as [|c l IH]; intros s Hin Hs; [exact Hs|]. cbn [fold_outcome]. unfold f at 1. destruct (decide _) as [|Hp]; [exact I|]. cbn [bind]. apply IH; [intros; apply Hin; now right|].
    apply filling_store; [exact Hs|unfold BRANCH_FACTOR in Hp; lia|]. rewrite length_take, (Hin c) by left. reflexivity. }
  specialize (Hfold (chunks_exact 33 data) (t, 0) ltac:(intros c Hc; eapply chunk_length; [lia|exact Hc]) Hf).
  destruct (fold_outcome f _ _) as [[t' m']|e| | |]; try contradiction; [exact (finish_decodes (t', m') Hfold)|exact I].
Qed.

(** *** Leaves *)

Lemma leaf_decodes ty it : ty <> Inner -> length (item_key it) = 32%nat -> named (ty, it) -> (MIN_SHAMAP_ITEM_BYTES <= length (item_data it))%nat -> decodes (leaf_with_known ty it None).
Proof.
  intros Hty Hk Hn Hmin. cbn [leaf_with_known]. unfold new_leaf. rewrite decide_False by lia. rewrite compute_leaf_hash_ok by exact Hty. cbn [bind]. unfold new_leaf_with_hash. rewrite !decide_False by (exact Hty || lia).
  cbn. auto.
Qed.

Lemma item_new_short {E} k d : Z.of_nat (length d) <= 16 * 1024 * 1024 -> item_new (E := E) k d = Ok (mkItem k d).
Proof. intros Hd. unfold item_new. now rewrite decide_True by exact Hd. Qed.

Lemma make_leaf_decodes (data : list Z) : Z.of_nat (length data) <= 16 * 1024 * 1024 ->
  decodes (make_transaction_node data None) /\ decodes (make_account_state_node data None) /\ decodes (make_transaction_with_meta_node data None).
Proof.
  intros Hd. assert (forall ty, match validate_leaf_payload ty data with Ok _ => (MIN_SHAMAP_ITEM_BYTES <= length data)%nat | Err _ => True | _ => False end) as Hv by (intros ty; unfold validate_leaf_payload; destruct (decide _); [exact I|lia]).
  assert (~ (length data < 32)%nat -> length (split_key data).2 = 32%nat /\ Z.of_nat (length (split_key data).1) <= 16 * 1024 * 1024) as Hk by (intros Hl; cbn; rewrite length_drop, length_take; lia).
  split; [|split].
  - unfold make_transaction_node. specialize (Hv TransactionNm). destruct (validate_leaf_payload TransactionNm data); try contradiction; [|exact I]. cbn [bind]. rewrite item_new_short by exact Hd. cbn [bind].
    apply leaf_decodes; [discriminate|cbn; apply half_length, Hlen|intros _; reflexivity|exact Hv].
  - unfold make_account_state_node. destruct (decide _) as [|Hl]; [exact I|]. destruct (Hk Hl) as [H1 H2]. destruct (split_key data) as [d k]. cbn [fst snd] in *. unfold validate_leaf_payload. destruct (decide _); [exact I|]. cbn [bind].
    destruct (decide _); [exact I|]. rewrite item_new_short by exact H2. cbn [bind]. apply leaf_decodes; [discriminate|exact H1|discriminate|cbn; lia].
  - unfold make_transaction_with_meta_node. destruct (decide _) as [|Hl]; [exact I|]. destruct (Hk Hl) as [H1 H2]. destruct (split_key data) as [d k]. cbn [fst snd] in *. unfold validate_leaf_payload. destruct (decide _); [exact I|]. cbn [bind].
    rewrite item_new_short by exact H2. cbn [bind]. apply leaf_decodes; [discriminate|exact H1|discriminate|cbn; lia].
Qed.

(** ** Any blob *)

Definition blob_ok (raw : list Z) : Prop := Z.of_nat (length raw) <= 16 * 1024 * 1024.

Lemma make_from_wire_decodes raw : blob_ok raw ->
  match make_from_wire raw with Ok (Some n) => decoded n | Ok None => raw = [] | Err _ => True | _ => False end.
Proof.
  intros Hraw. unfold make_from_wire. destruct (last raw) as [ty|] eqn:Hlast; [|destruct raw as [|x raw] using rev_ind; [reflexivity|rewrite last_snoc in Hlast; discriminate]].
  set (data := take _ _). assert (Z.of_nat (length data) <= 16 * 1024 * 1024) as Hd by (unfold data, blob_ok in *; rewrite length_take; lia). destruct (make_leaf_decodes data Hd) as (H1 & H2 & H3).
  assert (forall r, decodes r -> match (n <- r;; Ok (Some n)) with Ok (Some n) => decoded n | Ok None => raw = [] | Err _ => True | _ => False end) as Hr by (intros [n|e| | |] Hr; cbn in *; auto).
  apply Hr. repeat destruct (decide _); auto using make_full_inner_decodes, make_compressed_inner_decodes. exact I.
Qed.

(** The text that the hash of a decoded node is of. *)
Lemma decoded_text n : decoded n -> hash n = sha512_half (node_text n) \/ hash n = uint256_zero /\ exists i, body n = InnerBody i /\ slots i = replicate 16 None.
Proof.
  unfold decoded, node_text. destruct (body n) as [i|ty it].
  - intros [_ ->]. unfold digest. destruct (decide _) as [He|]; [right; eauto|left; reflexivity].
  - intros (Hty & _ & _ & ->). left. change (leaf_digest ty it) with (merkle (Leaf ty it)). now apply merkle_text.
Qed.

End Wire.
