(* ===== verification/ShamapProof.v ===== *)
(** * ShamapProof: proofs that an item is in a tree

    xrpl/shamap/src/traverse/proof_path.rs.  A proof is the wire form of the nodes on the
    way to a leaf, the leaf first; it is checked against the hash of the root. *)

From stdpp Require Import gmap list.
From Stdlib Require Import ZArith Lia.
From S2P Require Import Prelude Serializer ShamapKey ShamapNode ShamapSlots ShamapTree ShamapHeap ShamapRepr ShamapWalk ShamapOrder ShamapMap ShamapBinding ShamapCodec ShamapWire.
Local Open Scope Z_scope.

(** ** The code *)

(** [let Ok(x) = r else]: an error is a value, a panic is none. *)
Definition attempt {E F A} (r : outcome E A) : outcome F (option A) :=
  match r with
  | Ok a => Ok (Some a)
  | Err _ => Ok None
  | Panic => Panic
  | Wraps => Wraps
  | OutOfFuel => OutOfFuel
  end.

Section Code.
Context `{Sha512}.

(** The loop over the blobs, the root first; [total] is the length of the path. *)
Fixpoint verify_loop {E} (key : Uint256) (total : nat) (depth : nat) (expected : SHAMapHash) (blobs : list (list Z)) : outcome E bool :=
  match blobs with
  | [] => Ok false
  | blob :: blobs =>
      found <- attempt (make_from_wire blob);;
      match found with
      | Some (Some node) =>
          node <- update_hash node;;
          if decide (hash node <> expected) then Ok false
          else if is_inner node then
            node_id <- attempt (create_id depth key);;
            match node_id with
            | None => Ok false
            | Some node_id =>
                branch <- select_branch node_id key;;
                expected <- get_child_hash node branch;;
                verify_loop key total (S depth) expected blobs
            end
          else Ok (bool_decide (depth + 1 = total)%nat)
      | _ => Ok false
      end
  end.

Definition verify_proof_path {E} (root_hash key : Uint256) (path : list (list Z)) : outcome E bool :=
  if decide (path = [] \/ (65 < length path)%nat) then Ok false
  else verify_loop key (length path) 0 root_hash (rev path).

(** The entries are popped: the last one of the walk comes first. *)
Fixpoint serialize_path (entries : list NodePathEntry) : M TraversalError (option (list (list Z))) :=
  match entries with
  | [] => mret (Some [])
  | entry :: entries =>
      n ← read (node entry);
      blob ← lift (attempt (serialize_for_wire n));
      match blob with
      | None => mret None
      | Some blob => path ← serialize_path entries; mret (cons blob <$> path)
      end
  end.

Definition finalize_proof_path (key : Uint256) (leaf : option loc) (path_entries : list NodePathEntry) : M TraversalError (option (list (list Z))) :=
  match leaf with
  | None => mret None
  | Some leaf =>
      n ← read leaf;
      match peek_item n with
      | None => mret None
      | Some item => if decide (item_key item <> key) then mret None else serialize_path (rev path_entries)
      end
  end.

Definition get_proof_path_backed (root : loc) (key : Uint256) (backed : bool) (fetch : Fetch) : M TraversalError (option (list (list Z))) :=
  r ← walk_towards_key_with_path root key backed fetch;
  finalize_proof_path key r.1 r.2.

(** [get_proof_path]: an error is no path. *)
Definition get_proof_path {E} (root : loc) (key : Uint256) : M E (option (list (list Z))) := fun h =>
  let '(r, h) := get_proof_path_backed root key false no_fetch h in
  (path <- attempt r;; Ok (mjoin path), h).

End Code.

(** ** Where the walk towards a key ends *)

Inductive ends (key : Uint256) : nat -> stree -> stree -> Prop :=
| ends_empty d : ends key d Empty Empty
| ends_leaf d ty it : ends key d (Leaf ty it) (Leaf ty it)
| ends_node d kids s e : kids !! nibble key d = Some s -> ends key (S d) s e -> ends key d (Node kids) e.

Lemma ends_leaves key d t ty it : ends key d t (Leaf ty it) -> (ty, it) ∈ leaves t.
Proof.
  intros He. remember (Leaf ty it) as e eqn:Heq. induction He as [|d ty' it'|d kids s e Hs _ IH]; [discriminate|injection Heq as -> ->; left|]. apply leaves_node_elem. eauto.
Qed.

(** An item with the key is nowhere else. *)
Lemma ends_found key d t e : ends key d t e -> forall p x, shaped p t -> length p = d -> x ∈ leaves t -> ckey x = key -> e = Leaf x.1 x.2.
Proof.
  induction 1 as [d|d ty it|d kids s e Hs _ IH]; intros p x Ht Hd Hx Hk.
  - inversion Hx.
  - apply list_elem_of_singleton in Hx as ->. reflexivity.
  - inversion Ht as [| |? ? Hp Hp64 _ Hkids]; subst. apply leaves_node_elem in Hx as (b & u & Hu & Hx). destruct (shaped_leaves _ _ (Hkids b u Hu) x Hx) as (_ & _ & Hpath).
    rewrite length_app, Nat.add_comm, take_next in Hpath by exact Hp64. apply app_inj_tail in Hpath as [_ Hb]. rewrite Hb in Hs. assert (u = s) as -> by congruence.
    eapply IH; [apply Hkids, Hu|rewrite length_app; cbn; lia|exact Hx|reflexivity].
Qed.

Section Sound.
Context `{Sha512} (Hlen : forall text, length (sha512 text) = 64%nat) (key : Uint256) (Hkey : is_key key).

(** ** One blob *)

Lemma decoded_update {E} n : decoded n -> update_hash (E := E) n = Ok n.
Proof.
  intros Hn. unfold decoded in Hn. destruct n as [x c [i|ty it]]; cbn [body hash] in Hn.
  - destruct Hn as [[Hi _] ->]. now rewrite (update_hash_slots (mkNode _ c (InnerBody i)) i eq_refl Hi).
  - destruct Hn as (Hty & _ & _ & ->). unfold update_hash. cbn [body]. now rewrite compute_leaf_hash_ok.
Qed.

(** The hash that the next blob has to have. *)
Definition next_hash (i : SHAMapInnerNode) (depth : nat) : SHAMapHash := slot_hash (slot_at (tagged i) (is_branch i) (nibble key depth)).

Lemma verify_step {E} total d e blob blobs n : make_from_wire blob = Ok (Some n) -> decoded n -> (d < 64)%nat ->
  verify_loop (E := E) key total d e (blob :: blobs) =
    if decide (hash n = e) then match body n with InnerBody i => verify_loop key total (S d) (next_hash i d) blobs | LeafBody _ _ => Ok (bool_decide (d + 1 = total)%nat) end else Ok false.
Proof.
  intros Hm Hn Hd. cbn [verify_loop]. rewrite Hm. cbn [attempt bind]. rewrite decoded_update by exact Hn. cbn [bind]. destruct (decide (hash n = e)) as [He|He]; [|now rewrite decide_True].
  rewrite decide_False by auto. unfold is_inner. destruct (body n) as [i|ty it] eqn:Hb; [|reflexivity]. rewrite create_id_path by (auto; lia). cbn [attempt bind].
  rewrite select_branch_path by (auto; rewrite length_take, nibbles_length; lia). cbn [bind]. rewrite length_take, nibbles_length. replace (d `min` 64)%nat with d by lia.
  pose proof (nibble_lt key d (proj2 Hkey)) as Hb16. unfold decoded in Hn. rewrite Hb in Hn. destruct Hn as [[Hi _] _].
  rewrite (get_child_hash_slots n i Hb Hi (nibble key d) (slot_at (tagged i) (is_branch i) (nibble key d))); [reflexivity|]. now apply slots_lookup.
Qed.

Lemma verify_leaf {E} total d e blob blobs n ty it : make_from_wire blob = Ok (Some n) -> decoded n -> body n = LeafBody ty it -> hash n = e -> verify_loop (E := E) key total d e (blob :: blobs) = Ok (bool_decide (d + 1 = total)%nat).
Proof. intros Hm Hn Hb He. cbn [verify_loop]. rewrite Hm. cbn [attempt bind]. rewrite decoded_update by exact Hn. cbn [bind]. rewrite decide_False by auto. unfold is_inner. now rewrite Hb. Qed.

(** ** Every path is answered *)

(** A path of at most 64 blobs is accepted or refused, whatever the blobs are. *)
Lemma verify_loop_total {E} total blobs : forall d e, Forall blob_ok blobs -> (d + length blobs <= 64)%nat -> exists r, verify_loop (E := E) key total d e blobs = Ok r.
Proof.
  induction blobs as [|blob blobs IH]; intros d e Hall Hd; [eexists; reflexivity|]. apply Forall_cons in Hall as [Hb Hall]. cbn [length] in Hd. pose proof (make_from_wire_decodes Hlen blob Hb) as Hm.
  destruct (make_from_wire blob) as [[n|]|x| | |] eqn:Hw; try contradiction; [|cbn [verify_loop]; rewrite Hw; eexists; reflexivity..].
  rewrite (verify_step total d e blob blobs n Hw Hm) by lia. destruct (decide _); [|eexists; reflexivity]. destruct (body n); [|eexists; reflexivity]. apply IH; [exact Hall|lia].
Qed.

(** ** An accepted path *)

Definition blob_text (blob : list Z) : list Z := match make_from_wire blob with Ok (Some n) => node_text n | _ => [] end.

(** At the very end of a key there is a leaf, or the walk panics. *)
Lemma verify_bottom {E} total e blob blobs : blob_ok blob -> verify_loop (E := E) key total 64 e (blob :: blobs) = Ok true ->
  exists n ty it, make_from_wire blob = Ok (Some n) /\ decoded n /\ hash n = e /\ body n = LeafBody ty it /\ total = 65%nat.
Proof.
  intros Hb Hv. pose proof (make_from_wire_decodes Hlen blob Hb) as Hm. cbn [verify_loop] in Hv. destruct (make_from_wire blob) as [[n|]|x| | |] eqn:Hw; try contradiction; try discriminate. cbn [attempt bind] in Hv.
  rewrite decoded_update in Hv by exact Hm. cbn [bind] in Hv. destruct (decide _) as [|He]; [discriminate|]. apply dec_stable in He. unfold is_inner in Hv. destruct (body n) as [i|ty it] eqn:Hbd.
  - rewrite create_id_path in Hv by (auto; lia). cbn [attempt bind] in Hv. unfold select_branch in Hv. cbn [id_of depth] in Hv.
    rewrite length_take, nibbles_length in Hv. change (64 `min` 64 / 2)%nat with 32%nat in Hv. rewrite (lookup_ge_None_2 key 32) in Hv by (destruct Hkey as [-> _]; lia). discriminate.
  - exists n, ty, it. injection Hv as Hv. apply bool_decide_eq_true in Hv. auto.
Qed.

Lemma verify_accepts {E} total d e blob blobs : blob_ok blob -> (d <= 64)%nat -> verify_loop (E := E) key total d e (blob :: blobs) = Ok true ->
  exists n, make_from_wire blob = Ok (Some n) /\ decoded n /\ hash n = e /\
    match body n with InnerBody i => (d < 64)%nat /\ verify_loop (E := E) key total (S d) (next_hash i d) blobs = Ok true | LeafBody _ _ => (d + 1 = total)%nat end.
Proof.
  intros Hb Hd Hv. destruct (decide (d = 64%nat)) as [->|Hne]; [destruct (verify_bottom total e blob blobs Hb Hv) as (n & ty & it & Hw & Hn & He & Hbd & ->); exists n; rewrite Hbd; auto|].
  pose proof (make_from_wire_decodes Hlen blob Hb) as Hm. destruct (make_from_wire blob) as [[n|]|x| | |] eqn:Hw; try contradiction; [|cbn [verify_loop] in Hv; rewrite Hw in Hv; discriminate..].
  exists n. split; [reflexivity|]. split; [exact Hm|]. rewrite (verify_step total d e blob blobs n Hw Hm) in Hv by lia. destruct (decide (hash n = e)) as [He|]; [|discriminate]. split; [exact He|].
  destruct (body n); [split; [lia|exact Hv]|]. injection Hv as Hv. now apply bool_decide_eq_true in Hv.
Qed.

Lemma blob_text_eq blob n : make_from_wire blob = Ok (Some n) -> blob_text blob = node_text n.
Proof. unfold blob_text. now intros ->. Qed.

(** Nothing that ends in a leaf hangs under the hash zero. *)
Lemma verify_zero {E} total blobs : forall d, Forall blob_ok blobs -> (d + length blobs <= 65)%nat -> verify_loop (E := E) key total d uint256_zero blobs = Ok true -> broken (blob_text <$> blobs).
Proof.
  induction blobs as [|blob blobs IH]; intros d Hall Hd Hv; [discriminate|]. apply Forall_cons in Hall as [Hb Hall]. cbn [length] in Hd. destruct (verify_accepts total d _ blob blobs Hb ltac:(lia) Hv) as (n & Hw & Hn & He & Hrest).
  rewrite fmap_cons, (blob_text_eq blob n Hw). destruct (decoded_text n Hn) as [Ht|(_ & i & Hbd & Hs)]; [right; exists (node_text n); split; [left|congruence]|].
  rewrite Hbd in Hrest. destruct Hrest as [Hd64 Hrest]. apply (broken_mono (blob_text <$> blobs)); [intros x Hx; now right|]. apply (IH (S d)); [exact Hall|lia|].
  unfold next_hash in Hrest. pose proof (slots_lookup i (nibble key d) (nibble_lt key d (proj2 Hkey))) as Hl. rewrite Hs in Hl. apply lookup_replicate in Hl as [Hl _]. rewrite Hl in Hrest. exact Hrest.
Qed.

(** What the hash of a solid tree says of a node with that hash. *)
Lemma decoded_same t p n ps : shaped p t -> solid t -> (forall x, x ∈ leaves t -> named x) -> decoded n -> hash n = merkle t -> text_of t ∈ ps -> node_text n ∈ ps ->
  match t, body n with
  | Leaf ty it, LeafBody ty' it' => ty' = ty /\ it' = it
  | Node kids, InnerBody i => clean (slots i) kids
  | _, _ => False
  end \/ broken ps.
Proof.
  intros Hs Hsol Hnm Hn He Ht Hnt. destruct (decoded_text n Hn) as [Hh|[Hz _]]; [|right; eapply zero_broken; [exact Ht|exact Hsol|congruence]].
  destruct (decide (node_text n = text_of t)) as [Heq|Hne]; [|right; left; exists (node_text n), (text_of t); rewrite <- (merkle_text t Hsol), <- He; auto].
  left. unfold decoded, node_text in Hn, Heq. destruct t as [|ty it|kids]; [contradiction| |]; destruct (body n) as [i|ty' it'].
  - symmetry in Heq. now apply leaf_inner_text in Heq.
  - destruct Hn as (Hty' & Hk' & Hnm' & _). inversion Hs as [|? ? ? Hty Hit _|]; subst. apply leaf_text_inj in Heq; [injection Heq; auto|exact Hty'|exact Hty|exact Hk'|apply item_key_ok, Hit|exact Hnm'|apply Hnm; left].
  - destruct Hn as [[Hi Hsl] _]. inversion Hs as [| |? ? _ _ Hk _]; subst. cbn [text_of] in Heq. apply app_inv_head in Heq. apply (concat_inj 32) in Heq; [exact Heq| | |].
    + apply Forall_fmap, Forall_forall. intros s Hs'. apply (Hsl s Hs').
    + apply Forall_fmap, Forall_true. intros u. now apply merkle_length.
    + rewrite length_fmap, slots_length, length_map. congruence.
  - destruct Hn as (Hty' & _). exfalso. eapply leaf_inner_text; [exact Hty'|exact Heq].
Qed.

(** The leaf that a path shows. *)
Definition shows (blobs : list (list Z)) (ty : SHAMapNodeType) (it : SHAMapItem) : Prop :=
  exists blob n, last blobs = Some blob /\ make_from_wire blob = Ok (Some n) /\ body n = LeafBody ty it.

Lemma verify_sound {E} total ps blobs : forall d p t, shaped p t -> solid t -> (forall kids u, t = Node kids -> u ∈ kids -> compact u) -> (forall x, x ∈ leaves t -> named x) ->
  Forall blob_ok blobs -> total = (d + length blobs)%nat -> (total <= 65)%nat -> verify_loop (E := E) key total d (merkle t) blobs = Ok true ->
  texts t ⊆ ps -> (blob_text <$> blobs) ⊆ ps -> (exists ty it, shows blobs ty it /\ ends key d t (Leaf ty it)) \/ broken ps.
Proof.
  induction blobs as [|blob blobs IH]; intros d p t Hs Hsol Hc Hnm Hall Htot H65 Hv Hps Hbs; [discriminate|]. apply Forall_cons in Hall as [Hb Hall]. cbn [length] in Htot.
  destruct (verify_accepts total d _ blob blobs Hb ltac:(lia) Hv) as (n & Hw & Hn & He & Hrest). rewrite fmap_cons, (blob_text_eq blob n Hw) in Hbs.
  destruct (decoded_same t p n ps Hs Hsol Hnm Hn He ltac:(apply Hps, own_text) ltac:(apply Hbs; left)) as [Hsame|]; [|auto].
  destruct t as [|ty it|kids]; [contradiction| |]; destruct (body n) as [i|ty' it'] eqn:Hbd; try contradiction.
  - destruct Hsame as [-> ->]. left. exists ty, it. split; [|constructor]. assert (blobs = []) as -> by (apply length_zero_iff_nil; lia). exists blob, n. auto.
  - destruct Hrest as [Hd Hrest]. inversion Hs as [| |? ? _ _ Hk Hkids]; subst p0 kids0. pose proof (nibble_lt key d (proj2 Hkey)) as Hb16. destruct (lookup_lt_is_Some_2 kids (nibble key d)) as [u Hu]; [lia|].
    assert (next_hash i d = merkle u) as Hnext.
    { apply (f_equal (fun l => l !! nibble key d)) in Hsame. rewrite !list_lookup_fmap, Hu, slots_lookup in Hsame by exact Hb16. now injection Hsame. }
    rewrite Hnext in Hrest. pose proof (list_elem_of_lookup_2 _ _ _ Hu) as Hin. assert ((blob_text <$> blobs) ⊆ ps) as Hbs' by (intros x Hx; apply Hbs; now right).
    destruct (compact_solid _ u (Hkids _ _ Hu) (Hc kids u eq_refl Hin)) as [->|Hsolu]; [right; eapply broken_mono; [exact Hbs'|]; apply (verify_zero (E := E) total blobs (S d)); [exact Hall|lia|exact Hrest]|].
    destruct (IH (S d) _ u (Hkids _ _ Hu) Hsolu) as [(ty & it & Hsh & He')|]; try assumption; try lia; [| | | |auto].
    + intros ks v -> Hv'. pose proof (Hc kids (Node ks) eq_refl Hin) as Hcu. inversion Hcu as [| |? _ Hck]; subst. now apply Hck.
    + intros x Hx. apply Hnm, leaves_node_elem. eauto.
    + intros x Hx. apply Hps, (kid_texts kids u Hin), Hx.
    + left. exists ty, it. split; [|econstructor; eassumption]. destruct Hsh as (bl & m & Hl & Hrest'). exists bl, m. split; [|exact Hrest']. now rewrite last_cons, Hl.
Qed.

(** The whole path against the hash of a whole tree. *)
Lemma verify_path_sound {E} t path : rooted t -> (forall x, x ∈ leaves t -> named x) -> Forall blob_ok path -> verify_proof_path (E := E) (merkle t) key path = Ok true ->
  (exists ty it, shows (rev path) ty it /\ ends key 0 t (Leaf ty it)) \/ broken (texts t ++ (blob_text <$> path)).
Proof.
  intros (kids & -> & Hs & Hc) Hnm Hall Hv. unfold verify_proof_path in Hv. destruct (decide _) as [|Hpath]; [discriminate|]. assert (length path <= 65)%nat as H65 by (apply Nat.nlt_ge; tauto).
  assert (Forall blob_ok (rev path)) as Hall' by (apply Forall_rev, Hall). assert ((blob_text <$> rev path) ⊆ texts (Node kids) ++ (blob_text <$> path)) as Hbs.
  { intros x Hx. apply elem_of_app. right. apply list_elem_of_fmap in Hx as (y & -> & Hy). apply list_elem_of_fmap_2. apply list_elem_of_In, in_rev, list_elem_of_In, Hy. }
  destruct (decide (Forall (fun t => t = Empty) kids)) as [H0|H0].
  - right. eapply broken_mono; [exact Hbs|]. cbn [merkle] in Hv. rewrite decide_True in Hv by exact H0. apply (verify_zero (E := E) (length path) _ 0); [exact Hall'|rewrite length_rev; exact H65|exact Hv].
  - eapply (verify_sound (E := E)); [exact Hs|exact H0| |exact Hnm|exact Hall'|now rewrite length_rev|exact H65|exact Hv|apply list_subseteq_app_l, reflexivity|exact Hbs].
    intros ks u [= <-]. apply Hc.
Qed.

(** ** A path that is not answered *)

(** An inner node with one branch, in its wire form. *)
Definition lone (b : nat) (e : SHAMapHash) : list Z := (e ++ [Z.of_nat b]) ++ [WIRE_TYPE_COMPRESSED_INNER].

Lemma lone_node b e : (b < 16)%nat -> length e = 32%nat -> exists n i, make_from_wire (lone b e) = Ok (Some n) /\ decoded n /\ body n = InnerBody i /\ slot_hash (slot_at (tagged i) (is_branch i) b) = e.
Proof.
  intros Hb He. unfold make_from_wire, lone. rewrite last_snoc, length_app, Nat.add_sub, take_app_length. rewrite !decide_False, decide_True by (reflexivity || discriminate).
  pose proof (make_compressed_inner_decodes (e ++ [Z.of_nat b])) as Hdec. destruct (filling_new (E := SHAMapCodecError)) as (t & Ht & Hf).
  assert (length (e ++ [Z.of_nat b]) = 33%nat) as Hl by (rewrite length_app, He; reflexivity).
  assert (chunks_exact 33 (e ++ [Z.of_nat b]) = [e ++ [Z.of_nat b]]) as Hch by (unfold chunks_exact; rewrite Hl; change (33 / 33)%nat with 1%nat; cbn [seq fmap list_fmap]; rewrite take_ge by (rewrite length_drop; lia); reflexivity).
  pose proof (filling_store b e (t, 0) Hf Hb He) as Hf'. destruct (store_hash b e (t, 0)) as [t' m'] eqn:Hst. destruct (filling_resized t' m' Hf') as (t2 & Hr & Hok & Hs).
  set (i := mkInner t2 m' 0). assert (inner_ok i) as Hi by exact Hok.
  assert (make_compressed_inner (e ++ [Z.of_nat b]) = Ok (mkNode (digest (slots i)) 0 (InnerBody i))) as Hmk.
  { unfold make_compressed_inner. rewrite Hl, decide_False by (cbn; lia). rewrite Ht. cbn [bind]. rewrite Hch. cbn [fold_outcome]. rewrite app_nth2, He, Nat.sub_diag by lia. cbn [nth]. rewrite decide_False by (unfold BRANCH_FACTOR; lia).
    rewrite Nat2Z.id, take_app_length' by (symmetry; exact He). rewrite Hst. cbn [bind]. unfold finish_inner. rewrite Hr. cbn [bind]. now rewrite (update_hash_slots (mkNode uint256_zero 0 (InnerBody i)) i eq_refl Hi). }
  rewrite Hmk in Hdec |- *. eexists _, i. split; [reflexivity|]. split; [exact Hdec|]. split; [reflexivity|].
  cbn [tagged is_branch i]. rewrite Hs, filling_slot by assumption. unfold store_hash in Hst. cbn [fst snd] in Hst. injection Hst as <- <-.
  destruct (decide (e <> uint256_zero)) as [Hne|Hz]; [|apply dec_stable in Hz; now rewrite has_bit_0, Hz]. rewrite has_bit_set, bool_decide_true by reflexivity. cbn. unfold hash_at, set_hash_at_index. cbn.
  rewrite nth_lookup, list_lookup_insert_eq; [reflexivity|]. pose proof (fi_length _ Hf) as Hfl. cbn in Hfl. now rewrite Hfl.
Qed.

Definition is_digest (e : SHAMapHash) : Prop := e = uint256_zero \/ exists text, e = sha512_half text.

Lemma digest_length e : is_digest e -> length e = 32%nat.
Proof. intros [->|[text ->]]; [reflexivity|now apply half_length]. Qed.

Lemma decoded_digest n : decoded n -> is_digest (hash n).
Proof. intros Hn. destruct (decoded_text n Hn) as [->|[-> _]]; [right; eauto|now left]. Qed.

(** Inner nodes down to the end of the key, and one more. *)
Lemma inner_chain {E} k : (k <= 64)%nat -> exists e blobs, length blobs = S k /\ is_digest e /\ Forall (fun blob => length blob = 34%nat) blobs /\ forall total, verify_loop (E := E) key total (64 - k) e blobs = Panic.
Proof.
  assert (forall b e, length e = 32%nat -> length (lone b e) = 34%nat) as Hok by (intros b e He; unfold lone; rewrite !length_app, He; reflexivity).
  induction k as [|k IH]; intros Hk.
  - destruct (lone_node 0 uint256_zero ltac:(lia) eq_refl) as (n & i & Hw & Hn & Hb & _). exists (hash n), [lone 0 uint256_zero]. split; [reflexivity|]. split; [now apply decoded_digest|]. split; [repeat constructor; now apply Hok|].
    intros total. cbn [verify_loop Nat.sub]. rewrite Hw. cbn [attempt bind]. rewrite decoded_update by exact Hn. cbn [bind]. rewrite decide_False by auto. unfold is_inner. rewrite Hb, create_id_path by (auto; lia). cbn [attempt bind].
    unfold select_branch. cbn [id_of depth]. rewrite length_take, nibbles_length. change (64 `min` 64 / 2)%nat with 32%nat. now rewrite (lookup_ge_None_2 key 32) by (destruct Hkey as [-> _]; lia).
  - destruct (IH ltac:(lia)) as (e & blobs & Hl & He & Hall & Hp). set (b := nibble key (64 - S k)). assert (b < 16)%nat as Hb by apply nibble_lt, Hkey.
    apply digest_length in He. destruct (lone_node b e Hb He) as (n & i & Hw & Hn & Hbd & Hs). exists (hash n), (lone b e :: blobs). split; [cbn; lia|]. split; [now apply decoded_digest|]. split; [constructor; [now apply Hok|exact Hall]|].
    intros total. rewrite (verify_step total _ _ _ _ n Hw Hn) by lia. rewrite decide_True by reflexivity. rewrite Hbd. unfold next_hash. fold b. rewrite Hs. replace (S (64 - S k)) with (64 - k)%nat by lia. apply Hp.
Qed.

End Sound.

(** ** Proofs of items that are there

    In a tree whose nodes are shared (written to a store, or read from it), every node has
    its hash. *)

Section Complete.
Context `{Sha512} (Hlen : forall text, length (sha512 text) = 64%nat) (store : ghost) (backed : bool) (fetch : Fetch) (Hfetch : fetch_ok store backed fetch).
Context (t : stree) (Ht : rooted t) (Hitems : forall x, x ∈ leaves t -> codable x.1 x.2) (Hb : ~ broken (texts t)).
Context (key : Uint256) (Hkey : is_key key).

Lemma place_texts h k s stack : placed store 1 t h k s stack -> texts s ⊆ texts t.
Proof.
  intros [Hp Hs]. revert Hs. induction Hp as [u|kids b k s l stack Hp IH Hf Hk]; intros Hs; cbn [plug] in Hs; [now rewrite Hs|].
  rewrite list_insert_id in Hs by exact Hk. etransitivity; [|exact (IH Hs)]. eapply kid_texts, list_elem_of_lookup_2, Hk.
Qed.

Lemma place_solid h kids b k s stack entry : placed store 1 t h ((kids, b) :: k) s (entry :: stack) -> s = Empty \/ solid s /\ merkle s <> uint256_zero.
Proof.
  intros Hp. destruct (placed_shaped store 1 t Ht h _ s _ Hp) as [_ Hsh]. destruct (placed_up store 1 t h kids b k s entry stack Hp) as (Hp' & Hs & _). destruct (placed_node store 1 t Ht h k kids stack Hp') as (_ & _ & _ & Hc).
  destruct (compact_solid _ s Hsh (Hc s (list_elem_of_lookup_2 _ _ _ Hs))) as [|Hsol]; [auto|right]. split; [exact Hsol|]. intros Hz. apply Hb. eapply zero_broken; [|exact Hsol|exact Hz].
  eapply place_texts; [exact Hp|apply own_text].
Qed.

(** A shared inner node and its wire form. *)
Lemma shared_wire h l kids : frozen store 1 h l (Node kids) -> length kids = 16%nat -> solid (Node kids) -> (forall s, s ∈ kids -> s = Empty \/ merkle s <> uint256_zero) ->
  exists n raw n' i, h !! l = Some n /\ serialize_for_wire n = Ok raw /\ make_from_wire raw = Ok (Some n') /\ decoded n' /\ hash n' = merkle (Node kids) /\ body n' = InnerBody i /\ clean (slots i) kids.
Proof.
  intros Hf Hk Hsol Hkids. inversion Hf as [|? n i ? Hl Hcn Hbd Hi Hh Hs _ _]; subst. destruct Hh as [[Hh Hcl]|[_ Hcz]]; [|lia].
  assert (Forall2 (fun s t => s = None <-> t = Empty) (slots i) kids) as Hnone by (eapply Forall2_impl; [exact Hs|]; intros [[e [c|]]|] u Hu; cbn in Hu; split; try tauto; try discriminate; intros ->; tauto).
  assert (hashes_ok (slots i)) as Hhs.
  { intros s Hsl. apply list_elem_of_lookup in Hsl as (b & Hsl). destruct (Forall2_lookup_l _ _ _ _ _ Hnone Hsl) as (u & Hu & Hsu). pose proof Hcl as Hm. apply (f_equal (fun l => l !! b)) in Hm.
    rewrite !list_lookup_fmap, Hsl, Hu in Hm. injection Hm as Hm. rewrite Hm. split; [now apply merkle_length|]. intros Hne. destruct (Hkids u (list_elem_of_lookup_2 _ _ _ Hu)); [tauto|assumption]. }
  assert (is_branch i <> 0) as Hbr.
  { intros Hz. apply (empty_slots i Hi) in Hz. apply Hsol, Forall_forall. intros u Hu. apply list_elem_of_lookup in Hu as (b & Hu). destruct (Forall2_lookup_r _ _ _ _ _ Hnone Hu) as (s & Hsb & Hsu).
    rewrite Hz in Hsb. apply lookup_replicate in Hsb as [-> _]. now apply Hsu. }
  destruct (codec_roundtrip n uint256_zero) as (_ & _ & raw & n' & Hw & Hm & Hhash & _ & Hback); [unfold encodable; rewrite Hbd; auto|]. rewrite Hbd in Hback. destruct (body n') as [i'|] eqn:Hbd'; [|contradiction]. destruct Hback as [Hi' Hsl].
  assert (slot_hash <$> slots i' = slot_hash <$> slots i) as Hsame by (rewrite Hsl, <- list_fmap_compose; apply list_fmap_ext; intros b s _; now destruct s as [[e c]|]).
  assert (clean (slots i') kids) as Hcl' by (unfold clean in *; congruence). assert (hash n' = merkle (Node kids)) as Hmk.
  { rewrite Hhash, (merkle_text (Node kids) Hsol). unfold node_text. rewrite Hbd. unfold clean in Hcl. now rewrite Hcl. }
  exists n, raw, n', i'. repeat (split; [assumption|]). split; [|auto]. unfold decoded. rewrite Hbd'. split; [split; [exact Hi'|]|].
  - intros s Hx. rewrite Hsl in Hx. apply list_elem_of_fmap in Hx as (s0 & -> & Hs0). destruct (Hhs s0 Hs0) as [Hl0 _]. now destruct s0 as [[e c]|].
  - rewrite Hmk. symmetry. apply digest_merkle; [exact Hk|exact Hcl'|]. rewrite Hsl. apply Forall2_fmap_l. eapply Forall2_impl; [exact Hnone|]. intros [[e c]|] u Hu; cbn; [|exact Hu]. split; [discriminate|]. intros ->. discriminate (proj2 Hu eq_refl).
Qed.

Lemma shared_leaf_wire h l ty it : frozen store 1 h l (Leaf ty it) -> codable ty it ->
  exists n raw n', h !! l = Some n /\ peek_item n = Some it /\ serialize_for_wire n = Ok raw /\ make_from_wire raw = Ok (Some n') /\ decoded n' /\ hash n' = merkle (Leaf ty it) /\ body n' = LeafBody ty it.
Proof.
  intros Hf Hco. inversion Hf as [? n ? ? Hl _ Hbd Hh _|]; subst. destruct (codec_roundtrip n uint256_zero) as (_ & _ & raw & n' & Hw & Hm & Hhash & _ & Hback); [unfold encodable; now rewrite Hbd|].
  rewrite Hbd in Hback. destruct (body n') as [|ty' it'] eqn:Hbd'; [contradiction|]. destruct Hback as [-> ->]. pose proof (co_type _ _ Hco) as Hty.
  assert (hash n' = merkle (Leaf ty it)) as Hmk by (rewrite Hhash, (merkle_text (Leaf ty it) Hty); unfold node_text; now rewrite Hbd).
  exists n, raw, n'. split; [exact Hl|]. split; [unfold peek_item; now rewrite Hbd|]. repeat (split; [assumption|]). split; [|auto]. unfold decoded. rewrite Hbd'. split; [exact Hty|]. split; [apply item_key_ok, Hco|]. split; [apply Hco|exact Hmk].
Qed.

(** The blobs of the nodes above a subtree lead the check to it. *)
Lemma path_above h k : forall s stack, placed store 1 t h k s stack -> towards key k -> s <> Empty ->
  exists raws, serialize_path stack h = (Ok (Some raws), h) /\ length raws = length k /\
    forall E total rest, verify_loop (E := E) key total 0 (merkle t) (rev raws ++ rest) = verify_loop key total (length k) (merkle s) rest.
Proof.
  induction k as [|[kids b] k IH]; intros s stack Hp Htw Hne.
  - destruct Hp as [Hp Hs]. inversion Hp; subst. exists []. auto.
  - destruct stack as [|entry stack]; [destruct Hp as [Hp _]; inversion Hp|]. destruct (placed_up store 1 t h kids b k s entry stack Hp) as (Hp' & Hs & _ & Hf).
    destruct (placed_node store 1 t Ht h k kids stack Hp') as (Hlk & _ & H64 & Hc). rewrite path_of_length in H64. destruct (towards_up key kids b k Htw H64) as [Htw' Hbk].
    assert (forall u, u ∈ kids -> u = Empty \/ merkle u <> uint256_zero) as Hkids.
    { intros u Hu. apply list_elem_of_lookup in Hu as (j & Hu). destruct (place_solid h kids j k u stack entry) as [|[_ Hz]]; [|auto|auto]. destruct Hp as [Hp Hplug]. inversion Hp; subst. split; [constructor; assumption|].
      destruct Hp' as [_ Hp']. cbn [plug]. now rewrite list_insert_id. }
    destruct (shared_wire h (node entry) kids Hf Hlk) as (n & raw & n' & i & Hn & Hw & Hm & Hdec & Hh & Hbd & Hcl); [intros Hall; apply Hne; rewrite Forall_forall in Hall; eapply Hall, list_elem_of_lookup_2, Hs|exact Hkids|].
    destruct (IH (Node kids) stack Hp' Htw' ltac:(discriminate)) as (raws & Hser & Hlr & Hver). exists (raw :: raws). split; [|split; [cbn; congruence|]].
    + cbn [serialize_path]. run (read_ok (E := TraversalError) (node entry) h n Hn). rewrite Hw. cbn [attempt]. run (lift_ok (E := TraversalError) (Ok (Some raw)) (Some raw) h eq_refl). run Hser. reflexivity.
    + intros E total rest. cbn [rev]. rewrite <- app_assoc. cbn [app]. rewrite Hver, (verify_step key Hkey total _ _ raw rest n' Hm Hdec) by exact H64. rewrite decide_True by exact Hh. rewrite Hbd. cbn [length].
      f_equal. unfold next_hash. rewrite <- Hbk. assert (b < 16)%nat as H16 by (rewrite <- Hlk; eapply lookup_lt_Some, Hs). apply (f_equal (fun l => l !! b)) in Hcl. rewrite !list_lookup_fmap, Hs, slots_lookup in Hcl by exact H16. now injection Hcl.
Qed.

Lemma placed_ends h k : forall s stack e, placed store 1 t h k s stack -> towards key k -> ends key (length k) s e -> ends key 0 t e.
Proof.
  induction k as [|[kids b] k IH]; intros s stack e Hp Htw He.
  - destruct Hp as [_ Hs]. cbn in Hs. now rewrite <- Hs.
  - destruct stack as [|entry stack]; [destruct Hp as [Hp _]; inversion Hp|]. destruct (placed_up store 1 t h kids b k s entry stack Hp) as (Hp' & Hs & _).
    destruct (placed_node store 1 t Ht h k kids stack Hp') as (_ & _ & H64 & _). rewrite path_of_length in H64. destruct (towards_up key kids b k Htw H64) as [Htw' ->]. eapply IH; [exact Hp'|exact Htw'|]. econstructor; [exact Hs|exact He].
Qed.

Lemma placed_depth h k s stack : placed store 1 t h k s stack -> (length k <= 64)%nat.
Proof.
  intros Hp. destruct k as [|[kids b] k]; [cbn; lia|]. destruct stack as [|entry stack]; [destruct Hp as [Hp _]; inversion Hp|]. destruct (placed_up store 1 t h kids b k s entry stack Hp) as (Hp' & _).
  destruct (placed_node store 1 t Ht h k kids stack Hp') as (_ & _ & H64 & _). rewrite path_of_length in H64. cbn. lia.
Qed.

(** The path of a key: found where the key is, and accepted. *)
Lemma proof_path_spec root h : frozen store 1 h root t ->
  exists e, ends key 0 t e /\ exists r h', get_proof_path_backed root key backed fetch h = (Ok r, h') /\ keeps store 1 h h' /\
    match e with
    | Leaf ty it =>
        if decide (item_key it = key) then
          exists blob path n, r = Some (blob :: path) /\ (forall E, verify_proof_path (E := E) (merkle t) key (blob :: path) = Ok true) /\ make_from_wire blob = Ok (Some n) /\ body n = LeafBody ty it
        else r = None
    | _ => r = None
    end.
Proof.
  intros Hf. destruct (walk_place store 1 ltac:(lia) backed fetch Hfetch t Ht key Hkey LEVELS h [] t [] root (root_placed store 1 t h) Hf eq_refl ltac:(unfold LEVELS; cbn; lia)) as (h1 & k & s & stack & r & Hr & Hk1 & Hp & Htw & Hend).
  unfold get_proof_path_backed, walk_towards_key_with_path. change (id_of (path_of [])) with root_id in Hr. cbn [rev] in Hr. destruct r as [l|].
  - destruct Hend as (ty & it & -> & Hfl). exists (Leaf ty it). split; [eapply placed_ends; [exact Hp|exact Htw|constructor]|]. pose proof (ends_leaves _ _ _ _ _ (placed_ends h1 k _ _ _ Hp Htw (ends_leaf key _ ty it))) as Hin.
    destruct (shared_leaf_wire h1 l ty it Hfl (Hitems _ Hin)) as (n & raw & n' & Hn & Hpk & Hw & Hm & Hdec & Hh & Hbd).
    run Hr. cbn [fst snd]. unfold finalize_proof_path. run (read_ok (E := TraversalError) l h1 n Hn). rewrite Hpk, rev_involutive. destruct (decide (item_key it = key)) as [He|He].
    + rewrite decide_False by tauto. destruct (path_above h1 k _ stack Hp Htw ltac:(discriminate)) as (raws & Hser & Hlr & Hver). exists (Some (raw :: raws)), h1. split; [|split; [exact Hk1|]].
      * cbn [top app serialize_path node]. run (read_ok (E := TraversalError) l h1 n Hn). rewrite Hw. cbn [attempt]. run (lift_ok (E := TraversalError) (Ok (Some raw)) (Some raw) h1 eq_refl). run Hser. reflexivity.
      * exists raw, raws, n'. split; [reflexivity|]. split; [|auto]. intros E. pose proof (placed_depth h1 k _ stack Hp) as Hd. unfold verify_proof_path. cbn [length rev]. rewrite decide_False by (intros [|Hl]; [discriminate|lia]).
        rewrite Hver, (verify_leaf key _ _ _ raw [] n' ty it Hm Hdec Hbd Hh). f_equal. apply bool_decide_eq_true. lia.
    + rewrite decide_True by exact He. exists None, h1. auto.
  - unfold end_at in Hend. subst s. exists Empty. split; [eapply placed_ends; [exact Hp|exact Htw|constructor]|]. run Hr. exists None, h1. auto.
Qed.

End Complete.
