(* ===== verification/ShamapStore.v ===== *)
(** * ShamapStore: trees in a database of nodes

    A database maps the hash of a node to its storage form.  [backs db store]: the trees
    that [store] knows are in the database, with everything below them.  Fetching from
    such a database is what the operations on trees expect of it
    ([store_fetcher_ok]), so that a tree can be read and changed knowing only its root
    hash. *)

From stdpp Require Import gmap list.
From Stdlib Require Import ZArith Lia.
From S2P Require Import Prelude Serializer ShamapKey ShamapNode ShamapSlots ShamapTree ShamapHeap ShamapRepr ShamapWalk ShamapBinding ShamapCodec.
Local Open Scope Z_scope.

Abbreviation database := (gmap SHAMapHash (list Z)).

Section Store.
Context `{Sha512}.

(** The fetcher of a ledger: the node is looked up and decoded.  A decoder that fails,
    or refuses an item of more than 16 MiB, leaves no node. *)
Definition store_fetcher (db : database) : Fetch := fun hash h =>
  match db !! hash with
  | None => (None, h)
  | Some data =>
      match make_from_prefix data hash with
      | Ok n => (Some (length h), h ++ [n])
      | _ => (None, h)
      end
  end.

(** ** Trees in the database *)

(** The leaves of a tree can be stored. *)
Definition storable (t : stree) : Prop := forall x, x ∈ leaves t -> codable x.1 x.2.

Record backs (db : database) (store : SHAMapHash -> option stree) : Prop := {
  bk_hash e s : store e = Some s -> e = merkle s /\ e <> uint256_zero /\ solid s;
  bk_text e s : store e = Some s -> db !! e = Some (text_of s);
  bk_leaf e ty it : store e = Some (Leaf ty it) -> codable ty it;
  bk_kids e kids : store e = Some (Node kids) -> length kids = 16%nat /\ forall t, t ∈ kids -> t <> Empty -> store (merkle t) = Some t
}.

Context (Hlen : forall text, length (sha512 text) = 64%nat).

Lemma opened_hashes hs : slot_hash <$> opened hs = hs.
Proof.
  unfold opened. rewrite <- list_fmap_compose. rewrite <- (list_fmap_id hs) at 2. apply list_fmap_ext. intros b e _. unfold compose. destruct (decide (e = uint256_zero)) as [->|]; reflexivity.
Qed.

Lemma merkles_ok kids : Forall (fun e => length e = 32%nat) (merkle <$> kids).
Proof. apply Forall_fmap, Forall_true. intros t. now apply merkle_length. Qed.

(** ** The parts of a tree *)

Fixpoint subtrees (t : stree) : list stree := t :: match t with Node kids => concat (map subtrees kids) | _ => [] end.

Lemma subtrees_self t : t ∈ subtrees t.
Proof. destruct t; left. Qed.

Lemma subtrees_kid kids t s : t ∈ kids -> s ∈ subtrees t -> s ∈ subtrees (Node kids).
Proof. intros Ht Hs. right. apply list_elem_of_In, in_concat. exists (subtrees t). split; [apply in_map|]; now apply list_elem_of_In. Qed.

Lemma subtrees_inv kids s : s ∈ subtrees (Node kids) -> s = Node kids \/ exists t, t ∈ kids /\ s ∈ subtrees t.
Proof.
  intros Hs. cbn in Hs. apply elem_of_cons in Hs as [->|Hs]; [auto|right]. apply list_elem_of_In, in_concat in Hs as (l & Hl & Hs). apply in_map_iff in Hl as (t & <- & Ht).
  exists t. split; now apply list_elem_of_In.
Qed.

Lemma subtrees_trans t : forall s u, s ∈ subtrees t -> u ∈ subtrees s -> u ∈ subtrees t.
Proof.
  induction t as [|ty it|kids IH] using stree_ind'; intros s u Hs Hu; [apply elem_of_cons in Hs as [->|Hs]; [exact Hu|inversion Hs]|apply elem_of_cons in Hs as [->|Hs]; [exact Hu|inversion Hs]|].
  apply subtrees_inv in Hs as [->|(t & Ht & Hs)]; [exact Hu|]. rewrite Forall_forall in IH. eapply subtrees_kid; eauto.
Qed.

(** ** Trees that are saved *)

(** Everything below [t] is in the database or among the trees [ws] that have been written since. *)
Definition covered (store : SHAMapHash -> option stree) (ws : list stree) (t : stree) : Prop :=
  forall s, s ∈ subtrees t -> solid s -> store (merkle s) = Some s \/ s ∈ ws.

Lemma covered_none store ws : covered store ws (Node no_kids).
Proof. intros s Hs Hsol. apply subtrees_inv in Hs as [->|(t & Ht & Hs)]; [destruct Hsol; now apply Forall_replicate|]. apply elem_of_replicate_inv in Ht as ->. apply elem_of_cons in Hs as [->|Hs]; [contradiction|inversion Hs]. Qed.

(** Nodes without an owner stand for trees that are saved. *)
Definition saved_since (store : SHAMapHash -> option stree) (ws : list stree) : ghost := mkGhost store (covered store ws) (covered_none store ws).
Definition on_disk (store : SHAMapHash -> option stree) : ghost := saved_since store [].

Lemma covered_sub store ws t s : covered store ws t -> s ∈ subtrees t -> covered store ws s.
Proof. intros Hc Hs u Hu Hsol. apply Hc; [eapply subtrees_trans; eauto|exact Hsol]. Qed.

Lemma covered_mono store ws ws' t : ws ⊆ ws' -> covered store ws t -> covered store ws' t.
Proof. intros Hw Hc s Hs Hsol. destruct (Hc s Hs Hsol); auto. Qed.

Lemma backs_covered db store t : forall e, backs db store -> store e = Some t -> covered store [] t.
Proof.
  induction t as [|ty it|kids IH] using stree_ind'; intros e Hbk He.
  - destruct (bk_hash _ _ Hbk e _ He) as (_ & _ & []).
  - intros s Hs _. apply elem_of_cons in Hs as [->|Hs]; [|inversion Hs]. destruct (bk_hash _ _ Hbk e _ He) as (-> & _). auto.
  - intros s Hs Hsol. apply subtrees_inv in Hs as [->|(t & Ht & Hs)]; [destruct (bk_hash _ _ Hbk e _ He) as (-> & _); auto|].
    destruct (decide (t = Empty)) as [->|Hne]; [apply elem_of_cons in Hs as [->|Hs]; [contradiction|inversion Hs]|]. rewrite Forall_forall in IH. destruct (bk_kids _ _ Hbk e kids He) as [_ Hk].
    exact (IH t Ht _ Hbk (Hk t Ht Hne) s Hs Hsol).
Qed.

Lemma store_fetcher_ok db store : backs db store -> fetch_ok (on_disk store) true (store_fetcher db).
Proof.
  intros Hbk e t Ht. cbn in Ht. split; [reflexivity|]. pose proof (backs_covered db store t e Hbk Ht) as Hcov. intros h. destruct (bk_hash _ _ Hbk e t Ht) as (He & Hz & Hsol). pose proof (bk_text _ _ Hbk e t Ht) as Htx.
  assert (forall n, make_from_prefix (text_of t) e = Ok n -> store_fetcher db e h = (Some (length h), h ++ [n])) as Hrun by (intros n Hn; unfold store_fetcher; now rewrite Htx, Hn).
  assert (forall n, (h ++ [n]) !! length h = Some n) as Hat by (intros n; now apply list_lookup_middle). exists (length h).
  destruct t as [|ty it|kids]; [contradiction| |].
  - pose proof (bk_leaf _ _ Hbk e ty it Ht) as Hco. destruct (leaf_roundtrip (mkNode e 0 (LeafBody ty it)) ty it e eq_refl Hco) as (_ & (n & Hn & Hh & Hc & Hb) & _).
    cbn [body] in Hb. destruct (body n) as [|ty' it'] eqn:Hbn; [contradiction|]. destruct Hb as [-> ->]. eexists. split; [exact (Hrun n Hn)|]. eapply frozen_leaf; [apply Hat|lia|exact Hbn| |intros _; exact Hcov]. rewrite Hh, He. reflexivity.
  - destruct (bk_kids _ _ Hbk e kids Ht) as [Hk Hkids]. destruct (make_full_inner_ok (merkle <$> kids) (Some e) ltac:(now rewrite length_fmap) (merkles_ok kids)) as (i & Hi & Hs & Hmk).
    assert (make_from_prefix (text_of (Node kids)) e = Ok (mkNode e 0 (InnerBody i))) as Hmp.
    { unfold make_from_prefix. cbn [text_of]. rewrite decide_False by (rewrite length_app; cbn; lia). rewrite take_app_length', drop_app_length' by reflexivity. rewrite be_value_to_be.
      rewrite !decide_False, decide_True by (reflexivity || discriminate). exact Hmk. }
    eexists. split; [exact (Hrun _ Hmp)|]. assert (forall b t, kids !! b = Some t -> exists s, slots i !! b = Some s /\ s = if decide (merkle t = uint256_zero) then None else Some (merkle t, None)) as Hsl.
    { intros b t Hb. rewrite Hs. unfold opened. rewrite !list_lookup_fmap, Hb. eauto. }
    assert (forall t, t ∈ kids -> t <> Empty -> merkle t <> uint256_zero) as Hnz by (intros t Hin Hne; destruct (bk_hash _ _ Hbk _ _ (Hkids t Hin Hne)) as (_ & ? & _); assumption).
    eapply frozen_node; [apply Hat|cbn; lia|reflexivity|exact Hi| | | |intros _; exact Hcov].
    + left. split; [exact He|]. unfold clean. rewrite Hs. apply opened_hashes.
    + apply Forall2_same_length_lookup_2; [now rewrite slots_length|]. intros b s t Hsb Hb. destruct (Hsl b t Hb) as (s' & Hs' & ->). rewrite Hsb in Hs'. injection Hs' as ->.
      pose proof (list_elem_of_lookup_2 _ _ _ Hb) as Hin. destruct (decide (merkle t = uint256_zero)) as [Hz'|Hz']; cbn.
      * destruct (decide (t = Empty)) as [|Hne]; [assumption|]. now destruct (Hnz t Hin Hne).
      * assert (t <> Empty) as Hne by (intros ->; now apply Hz'). auto.
    + intros b e' l' t Hsb Hb. destruct (Hsl b t Hb) as (s' & Hs' & ->). rewrite Hsb in Hs'. destruct (decide _); discriminate.
Qed.

(** ** Adding a tree *)

(** The branchings of a tree have sixteen children, which are not empty branchings, and its leaves can be stored. *)
Record proper (t : stree) : Prop := {
  pr_kids kids : Node kids ∈ subtrees t -> length kids = 16%nat /\ forall s, s ∈ kids -> s = Empty \/ solid s;
  pr_leaf ty it : Leaf ty it ∈ subtrees t -> codable ty it
}.

Lemma proper_sub t s : proper t -> s ∈ subtrees t -> proper s.
Proof. intros [Hk Hl] Hs. split; eauto using subtrees_trans. Qed.

Lemma compact_proper t : forall p, shaped p t -> compact t -> storable t -> proper t.
Proof.
  induction t as [|ty it|kids IH] using stree_ind'; intros p Hs Hc Hst.
  - split; intros * Hin; apply elem_of_cons in Hin as [?|Hin]; try discriminate; inversion Hin.
  - split; intros * Hin; apply elem_of_cons in Hin as [Hx|Hin]; try discriminate; try (now inversion Hin). injection Hx as -> ->. apply (Hst (ty, it)). left.
  - inversion Hs as [| |? ? _ _ Hlk Hsk]; subst. inversion Hc as [| |? _ Hck]; subst. rewrite Forall_forall in IH.
    assert (forall t, t ∈ kids -> proper t) as Hpr.
    { intros t Ht. pose proof Ht as Ht'. apply list_elem_of_lookup in Ht' as [b Hb]. apply (IH t Ht (p ++ [b])); auto. intros x Hx. apply Hst, leaves_node_elem. eauto. }
    split; intros * Hin; apply subtrees_inv in Hin as [Hx|(t & Ht & Hin)].
    + injection Hx as ->. split; [exact Hlk|]. intros s Hin. pose proof Hin as Hin'. apply list_elem_of_lookup in Hin' as [b Hb]. eapply compact_solid; eauto.
    + eapply (pr_kids t); eauto.
    + discriminate.
    + eapply (pr_leaf t); eauto.
Qed.

Lemma rooted_proper t : rooted t -> storable t -> proper t.
Proof.
  intros (kids & -> & Hs & Hc) Hst. inversion Hs as [| |? ? _ _ Hlk Hsk]; subst.
  assert (forall t, t ∈ kids -> proper t) as Hpr.
  { intros t Ht. pose proof Ht as Ht'. apply list_elem_of_lookup in Ht' as [b Hb]. apply (compact_proper t ([] ++ [b])); auto. intros x Hx. apply Hst, leaves_node_elem. eauto. }
  split; intros * Hin; apply subtrees_inv in Hin as [Hx|(t & Ht & Hin)].
  - injection Hx as ->. split; [exact Hlk|]. intros s Hin. pose proof Hin as Hin'. apply list_elem_of_lookup in Hin' as [b Hb]. eapply compact_solid; eauto.
  - eapply (pr_kids t); eauto.
  - discriminate.
  - eapply (pr_leaf t); eauto.
Qed.

(** A set of trees, closed under taking children, on whose texts the hash function does not fail. *)
Record family (F : stree -> Prop) (ps : list (list Z)) : Prop := {
  fam_solid s : F s -> solid s /\ text_of s ∈ ps;
  fam_leaf ty it : F (Leaf ty it) -> codable ty it;
  fam_kids kids : F (Node kids) -> length kids = 16%nat /\ forall t, t ∈ kids -> t = Empty \/ F t
}.

Lemma family_nonzero F ps s : family F ps -> ~ broken ps -> F s -> merkle s <> uint256_zero.
Proof. intros Hfam Hb HF Hz. destruct (fam_solid _ _ Hfam s HF) as [Hsol Hp]. apply Hb. eapply zero_broken; eauto. Qed.

Lemma family_text F ps s u : family F ps -> ~ broken ps -> F s -> F u -> merkle s = merkle u -> text_of s = text_of u.
Proof.
  intros Hfam Hb HF HF' He. destruct (fam_solid _ _ Hfam _ HF) as [Hsol Hp], (fam_solid _ _ Hfam _ HF') as [Hsol' Hp']. rewrite !merkle_text in He by assumption.
  destruct (decide (text_of s = text_of u)) as [|Hne]; [assumption|]. destruct Hb. left. eauto 8.
Qed.

Lemma family_inj F ps : family F ps -> ~ broken ps -> forall s u, F s -> F u -> merkle s = merkle u -> s = u.
Proof.
  intros Hfam Hb. induction s as [|ty it|kids IH] using stree_ind'; intros u HF HF' He; destruct (fam_solid _ _ Hfam _ HF) as [Hsol Hp], (fam_solid _ _ Hfam _ HF') as [Hsol' Hp']; [contradiction| |].
  all: pose proof (family_text F ps _ _ Hfam Hb HF HF' He) as Ht.
  - destruct u as [|ty' it'|kids']; [contradiction| |now apply leaf_node_text in Ht]. pose proof (fam_leaf _ _ Hfam _ _ HF) as Hc. pose proof (fam_leaf _ _ Hfam _ _ HF') as Hc'.
    apply leaf_text_inj; auto; try apply item_key_ok; apply Hc || apply Hc'.
  - destruct u as [|ty' it'|kids']; [contradiction|symmetry in Ht; now apply leaf_node_text in Ht|]. destruct (fam_kids _ _ Hfam _ HF) as [Hk Hkids], (fam_kids _ _ Hfam _ HF') as [Hk' Hkids'].
    apply node_text_inj in Ht; [|exact Hlen|congruence]. f_equal. apply list_eq_same_length with (n := 16%nat); [exact Hk'|exact Hk|]. intros b x y _ Hx Hy.
    apply (f_equal (fun l => l !! b)) in Ht. change (map merkle) with (fmap (M := list) merkle) in Ht. rewrite !list_lookup_fmap, Hx, Hy in Ht. injection Ht as Ht.
    rewrite Forall_forall in IH. apply list_elem_of_lookup_2 in Hx, Hy.
    destruct (Hkids x Hx) as [->|Fx], (Hkids' y Hy) as [->|Fy]; [reflexivity| | |now apply IH]; exfalso; eapply family_nonzero; eauto.
Qed.

(** ** Writing nodes *)

Definition written (out : list (SHAMapHash * list Z)) (db : database) : database := fold_left (fun db '(e, x) => <[e := x]> db) out db.

Lemma written_lookup out : forall db e, (written out db !! e = db !! e /\ forall x, (e, x) ∉ out) \/ exists x, (e, x) ∈ out /\ written out db !! e = Some x.
Proof.
  induction out as [|[e0 x0] out IH]; intros db e; [left; split; [reflexivity|intros x Hx; inversion Hx]|]. change (written ((e0, x0) :: out) db) with (written out (<[e0 := x0]> db)).
  destruct (IH (<[e0:=x0]> db) e) as [[Hl Hn]|(x & Hx & Hl)]; [|right; exists x; split; [now right|exact Hl]]. destruct (decide (e0 = e)) as [->|Hne].
  - right. exists x0. split; [left|]. now rewrite Hl, lookup_insert_eq.
  - left. split; [now rewrite Hl, lookup_insert_ne by exact Hne|]. intros x Hx. apply elem_of_cons in Hx as [[= ? ?]|Hx]; [congruence|now apply (Hn x)].
Qed.

Definition db_texts (db : database) : list (list Z) := (map_to_list db).*2.

#[global] Instance solid_dec t : Decision (solid t).
Proof. destruct t as [|ty it|kids]; cbn; apply _. Defined.

Definition adds (store : SHAMapHash -> option stree) (t : stree) : SHAMapHash -> option stree := fun e =>
  match store e with
  | Some s => Some s
  | None => snd <$> list_find (fun s => solid s /\ merkle s = e) (subtrees t)
  end.

Definition known_tree (store : SHAMapHash -> option stree) (t s : stree) : Prop := (s ∈ subtrees t /\ solid s) \/ exists e, store e = Some s.

(** Texts among which those of the tree and of the database are. *)
Definition includes (ps : list (list Z)) (db : database) (t : stree) : Prop := (forall s, s ∈ subtrees t -> solid s -> text_of s ∈ ps) /\ db_texts db ⊆ ps.

Lemma known_family db store t ps : backs db store -> proper t -> includes ps db t -> family (known_tree store t) ps.
Proof.
  intros Hbk Hpr [Hpt Hpd]. split.
  - intros s [[Hs Hsol]|[e He]].
    + auto.
    + destruct (bk_hash _ _ Hbk e s He) as (_ & _ & Hsol). split; [exact Hsol|]. apply Hpd, list_elem_of_fmap. exists (e, text_of s). split; [reflexivity|].
      apply elem_of_map_to_list. now apply (bk_text _ _ Hbk).
  - intros ty it [[Hs _]|[e He]]; [eapply pr_leaf; eauto|eapply bk_leaf; eauto].
  - intros kids [[Hs _]|[e He]].
    + destruct (pr_kids t Hpr kids Hs) as [Hl Hk]. split; [exact Hl|]. intros s Hin. destruct (Hk s Hin) as [|Hsol]; [auto|right]. left. split; [|exact Hsol].
      apply (subtrees_trans t (Node kids)); [exact Hs|]. eapply subtrees_kid; [exact Hin|apply subtrees_self].
    + destruct (bk_kids _ _ Hbk e kids He) as [Hl Hk]. split; [exact Hl|]. intros s Hin. destruct (decide (s = Empty)) as [|Hne]; [auto|right]. right. eauto.
Qed.

Lemma adds_old store t e s : store e = Some s -> adds store t e = Some s.
Proof. intros He. unfold adds. now rewrite He. Qed.

Section Adds.
Context (db : database) (store : SHAMapHash -> option stree) (t : stree) (Hbk : backs db store) (Hpr : proper t) (ps : list (list Z)) (Hps : includes ps db t) (Hb : ~ broken ps).

Lemma adds_known e s : adds store t e = Some s -> e = merkle s /\ known_tree store t s.
Proof.
  unfold adds. destruct (store e) as [u|] eqn:He.
  - intros [= ->]. destruct (bk_hash _ _ Hbk e s He) as (Hm & _). split; [exact Hm|]. right. eauto.
  - destruct (list_find _ _) as [[j u]|] eqn:Hf; [|discriminate]. intros [= ->]. apply list_find_Some in Hf as (Hj & [Hsol Hm] & _). split; [auto|]. left. split; [|exact Hsol]. eapply list_elem_of_lookup_2; eauto.
Qed.

Lemma adds_new s : known_tree store t s -> adds store t (merkle s) = Some s.
Proof.
  intros Hs. assert (exists u, adds store t (merkle s) = Some u) as [u Hu].
  { unfold adds. destruct (store (merkle s)) as [u|] eqn:He; [eauto|]. destruct Hs as [[Hin Hsol]|[e He']].
    - destruct (list_find_elem_of (fun s' => solid s' /\ merkle s' = merkle s) (subtrees t) s Hin (conj Hsol eq_refl)) as [[j u] Hf]. rewrite Hf. eauto.
    - destruct (bk_hash _ _ Hbk e s He') as (-> & _). congruence. }
  rewrite Hu. f_equal. destruct (adds_known _ _ Hu) as [Hm Hk]. eapply family_inj; [apply (known_family db store t ps Hbk Hpr Hps)|exact Hb|exact Hk|exact Hs|auto].
Qed.

(** What is written of a tree. *)
Definition entry (s : stree) : SHAMapHash * list Z := (merkle s, text_of s).

Lemma adds_backs ws : covered store ws t -> (forall s, s ∈ ws -> s ∈ subtrees t /\ solid s) -> backs (written (entry <$> ws) db) (adds store t).
Proof.
  intros Hcov Hst. set (out := entry <$> ws). pose proof (known_family db store t ps Hbk Hpr Hps) as Hfam. split.
  - intros e s He. destruct (adds_known e s He) as [-> Hk]. split; [reflexivity|]. split; [eapply family_nonzero; eauto|]. now destruct (fam_solid _ _ Hfam s Hk).
  - intros e s He. destruct (adds_known e s He) as [-> Hk]. destruct (written_lookup out db (merkle s)) as [[Hl Hn]|(x & Hx & Hl)].
    + rewrite Hl. destruct Hk as [[Hin Hsol]|[e He']]; [|destruct (bk_hash _ _ Hbk e s He') as (-> & _); now apply (bk_text _ _ Hbk)].
      destruct (Hcov s Hin Hsol) as [Hs|Hs]; [now apply (bk_text _ _ Hbk)|]. destruct (Hn (text_of s)). change (merkle s, text_of s) with (entry s). now apply list_elem_of_fmap_2.
    + rewrite Hl. apply list_elem_of_fmap in Hx as (u & [= Hm ->] & Hu). destruct (Hst u Hu) as [Hin Hsol]. f_equal. assert (u = s) as ->; [|reflexivity]. eapply family_inj; [exact Hfam|exact Hb|left; auto|exact Hk|auto].
  - intros e ty it He. destruct (adds_known e _ He) as [-> Hk]. eapply fam_leaf; eauto.
  - intros e kids He. destruct (adds_known e _ He) as [-> Hk]. destruct (fam_kids _ _ Hfam kids Hk) as [Hl Hkids]. split; [exact Hl|]. intros s Hin Hne. apply adds_new. destruct (Hkids s Hin) as [|Hs]; [contradiction|exact Hs].
Qed.

End Adds.

(** A tree that stands with a store stands with a larger one. *)
Lemma frozen_grow (store store' : ghost) c h l t : (forall e s, store e = Some s -> store' e = Some s) -> (forall s, shared store s -> shared store' s) -> frozen store c h l t -> frozen store' c h l t.
Proof.
  intros Hsub Hshr. induction 1 as [l n ty it Hl Hc Hbd Hh|l n i kids Hl Hc Hbd Hi Hh Hs Hk IH]; [eapply frozen_leaf; eauto|]. eapply frozen_node; eauto.
  eapply Forall2_impl; [exact Hs|]. intros [[e [l'|]]|] s; cbn; auto. intros (? & ? & ?). auto.
Qed.

End Store.
