(* ===== verification/ShamapFlush.v ===== *)
(** * ShamapFlush: writing the nodes that have changed

    [walk_subtree_impl] of xrpl/shamap/src/operations/mutation.rs and its variants: a walk,
    with a stack, over the nodes that have an owner.  Each is hashed once its children
    are, gives up its owner and is handed to a writer. *)

From stdpp Require Import gmap list.
From Stdlib Require Import ZArith Lia.
From S2P Require Import Prelude Serializer ShamapKey ShamapNode ShamapSlots ShamapTree ShamapHeap ShamapRepr ShamapWalk ShamapMutate ShamapHash ShamapBinding ShamapCodec ShamapStore.
Local Open Scope Z_scope.

Section Walk.
Context `{Sha512} {E : Type}.

(** What is written: hashes with storage forms, the last one written last. *)
Abbreviation writes := (list (SHAMapHash * list Z)).

(** The callback: the node to go on with, and what it has written. *)
Definition WriteNode : Type := loc -> M E (loc * writes).

Definition maybe_write_node (writer : option WriteNode) (node : loc) : M E (loc * writes) :=
  match writer with Some write => write node | None => mret (node, []) end.

Definition pre_flush_node (owner_cowid : Z) (node : loc) : M E loc :=
  n ← read node;
  if decide (cowid n = owner_cowid) then mret node
  else cloned ← lift (clone_with_cowid n owner_cowid); alloc cloned.

(** The walk that leaves the original alone copies every node. *)
Definition detached_node (owner_cowid : Z) (node : loc) : M E loc :=
  n ← read node; cloned ← lift (clone_with_cowid n owner_cowid); alloc cloned.

Definition unshare_in (node : loc) : M E unit := change node (fun n => Ok (unshare n)).

(** Where the loop is: the node, its parents with the branches that lead down, the next
    branch of the node, the count so far and what has been written. *)
Record walk : Type := mkWalk { at_node : loc; at_stack : list (loc * nat); at_pos : nat; flushed : nat; out : writes }.

Definition walk_step (pre_flush : loc -> M E loc) (writer : option WriteNode) (w : walk) : M E (walk + loc * nat * writes) :=
  let '(mkWalk node stack pos flushed out) := w in
  if decide (pos < BRANCH_FACTOR)%nat then
    n ← read node;
    empty ← lift (is_empty_branch n pos);
    if (empty : bool) then mret (inl (mkWalk node stack (S pos) flushed out))
    else
      child ← lift (get_child n pos);
      match child with
      | None => mret (inl (mkWalk node stack (S pos) flushed out))
      | Some child =>
          c ← read child;
          if decide (cowid c = 0) then mret (inl (mkWalk node stack (S pos) flushed out))
          else
            child ← pre_flush child;
            c ← read child;
            if is_inner c then mret (inl (mkWalk child ((node, pos) :: stack) 0 flushed out))
            else
              change child update_hash;;
              unshare_in child;;
              written ← maybe_write_node writer child;
              change node (fun n => share_child n pos written.1);;
              mret (inl (mkWalk node stack (S pos) (S flushed) (out ++ written.2)))
      end
  else
    update_hash_deep_in node;;
    unshare_in node;;
    written ← maybe_write_node writer node;
    match stack with
    | [] => mret (inr (written.1, S flushed, out ++ written.2))
    | (parent, branch) :: stack =>
        change parent (fun n => share_child n branch written.1);;
        mret (inl (mkWalk parent stack (S branch) (S flushed) (out ++ written.2)))
    end.

(** Up to [2 ^ n] steps. *)
Fixpoint walk_loop (n : nat) (pre_flush : loc -> M E loc) (writer : option WriteNode) (w : walk) : M E (walk + loc * nat * writes) :=
  match n with
  | O => walk_step pre_flush writer w
  | S n =>
      r ← walk_loop n pre_flush writer w;
      match r with inl w => walk_loop n pre_flush writer w | inr r => mret (inr r) end
  end.

(** More steps than a tree of 64 levels takes. *)
Definition WALK_DEPTH : nat := 384.

Definition walk_nodes (pre_flush : loc -> M E loc) (writer : option WriteNode) (node : loc) : M E (loc * nat * writes) :=
  r ← walk_loop WALK_DEPTH pre_flush writer (mkWalk node [] 0 0 []);
  match r with inl _ => lift OutOfFuel | inr r => mret r end.

Definition walk_subtree_impl (root : loc) (owner_cowid : Z) (writer : option WriteNode) : M E (loc * nat * writes) :=
  debug_assert (bool_decide (owner_cowid <> 0));;
  n ← read root;
  if decide (cowid n = 0) then mret (root, O, [])
  else if is_leaf n then
    root ← pre_flush_node owner_cowid root;
    change root update_hash;;
    unshare_in root;;
    w ← maybe_write_node writer root;
    mret (w.1, 1%nat, w.2)
  else if is_empty n then inner ← lift (new_inner 0); root ← alloc inner; mret (root, 1%nat, [])
  else
    node ← pre_flush_node owner_cowid root;
    walk_nodes (pre_flush_node owner_cowid) writer node.

Definition try_walk_subtree_detached_impl (root : loc) (owner_cowid : Z) (writer : option WriteNode) : M E (loc * nat * writes) :=
  debug_assert (bool_decide (owner_cowid <> 0));;
  n ← read root;
  if decide (cowid n = 0) then mret (root, O, [])
  else
    root ← detached_node owner_cowid root;
    n ← read root;
    if is_leaf n then
      change root update_hash;;
      unshare_in root;;
      w ← maybe_write_node writer root;
      mret (w.1, 1%nat, w.2)
    else if is_empty n then inner ← lift (new_inner 0); root ← alloc inner; mret (root, 1%nat, [])
    else walk_nodes (detached_node owner_cowid) writer root.

(** [flush_dirty] and [try_flush_dirty], [unshare], [try_flush_dirty_detached] *)
Definition flush_dirty (writer : WriteNode) (self : MutableTree) : M E (nat * writes * MutableTree) :=
  r ← walk_subtree_impl (root self) (owner self) (Some writer);
  mret (r.1.2, r.2, mkTree r.1.1 (owner self)).

Definition unshare_tree (self : MutableTree) : M E (nat * MutableTree) :=
  r ← walk_subtree_impl (root self) (owner self) None;
  mret (r.1.2, mkTree r.1.1 (owner self)).

Definition try_flush_dirty_detached (writer : WriteNode) (self : MutableTree) : M E (nat * writes * MutableTree) :=
  r ← try_walk_subtree_detached_impl (root self) (owner self) (Some writer);
  mret (r.1.2, r.2, mkTree r.1.1 (owner self)).

(** The writer of a ledger: the storage form under the hash, unless the node is empty. *)
Definition write_node : WriteNode := fun node =>
  n ← read node;
  match serialize_with_prefix n with
  | Ok data => mret (node, [(hash n, data)])
  | Err _ => mret (node, [])
  | _ => lift Panic
  end.

(** A writer that writes nothing. *)
Definition keep_node : WriteNode := fun node => mret (node, []).

End Walk.

Section Flush.
Context `{Sha512} (Hlen : forall text, length (sha512 text) = 64%nat) (known : SHAMapHash -> option stree) (Hclosed : forall e s, known e = Some s -> covered known [] s) (c : Z).

Local Abbreviation G := (saved_since known).

(** ** Rewriting one node *)

(** The node [n] stands for [t], its children having stood for theirs before. *)
Definition stands (g g' : ghost) (h : heap) (n : SHAMapTreeNode) (t : stree) : Prop :=
  0 <= cowid n < c /\ (cowid n = 0 -> shared g' t) /\
  match t with
  | Empty => False
  | Leaf ty it => body n = LeafBody ty it /\ hash n = leaf_digest ty it
  | Node kids => exists i, body n = InnerBody i /\ inner_ok i /\ hash_ok n (slots i) kids /\ Forall2 (slot_ok g') (slots i) kids /\
      forall b e l' t', slots i !! b = Some (Some (e, Some l')) -> kids !! b = Some t' -> frozen g c h l' t'
  end.

Lemma frozen_stands g h l t : frozen g c h l t -> exists n, h !! l = Some n /\ stands g g h n t.
Proof. intros Hf. inversion Hf; subst; eexists; (split; [eassumption|]); (split; [assumption|]); (split; [assumption|]); eauto 10. Qed.

Lemma stands_frozen g h l n t : h !! l = Some n -> stands g g h n t -> frozen g c h l t.
Proof. intros Hl (Hc & Hs & Hb). destruct t as [|ty it|kids]; [contradiction|destruct Hb; eapply frozen_leaf; eauto|]. destruct Hb as (i & ? & ? & ? & ? & ?). eapply frozen_node; eauto. Qed.

Definition larger (g g' : ghost) : Prop := (forall e s, g e = Some s -> g' e = Some s) /\ forall s, shared g s -> shared g' s.

(** Every tree stands, and hashes that are filled in stay. *)
Definition rests (g g' : ghost) (h h' : heap) : Prop :=
  (forall l t, frozen g c h l t -> frozen g' c h' l t) /\ (forall l t, frozen g c h l t -> hashed h l t -> hashed h' l t).

Lemma rests_trans g1 g2 g3 h1 h2 h3 : rests g1 g2 h1 h2 -> rests g2 g3 h2 h3 -> rests g1 g3 h1 h3.
Proof. intros [F1 H1] [F2 H2]. split; [auto|]. intros l t Hf Hh. apply H2; eauto. Qed.

Lemma rests_settles g h h' : settles g h h' -> rests g g h h'.
Proof. intros (Hf & Hh & _). split; eauto. Qed.

Lemma rests_app g h x : rests g g h (h ++ x).
Proof.
  split; [intros l t; apply frozen_keeps, keeps_app|]. intros l t _ (n & Hn & Hrest). exists n. split; [now apply lookup_app_l_Some|exact Hrest].
Qed.

Lemma rests_grow g g' h : larger g g' -> rests g g' h h.
Proof. intros [Hk Hs]. split; [intros l t; now apply frozen_grow|auto]. Qed.

Definition has_digests (n : SHAMapTreeNode) (t : stree) : Prop := hash n = merkle t /\ match body n, t with InnerBody i, Node kids => clean (slots i) kids | _, _ => True end.

Lemma rests_write g g' h l n' : larger g g' -> (l < length h)%nat -> (forall t, frozen g c h l t -> stands g g' h n' t) ->
  (forall t, frozen g c h l t -> hashed h l t -> has_digests n' t) -> rests g g' h (<[l := n']> h).
Proof.
  intros [Hk Hs] Hl Hst Hd. split.
  - intros l0 t. revert l0. induction t as [|ty it|kids IH] using stree_ind'; intros l0 Hf; [inversion Hf| |]; (destruct (decide (l0 = l)) as [->|Hne];
      [eapply stands_frozen; [now apply list_lookup_insert_eq|]; pose proof (Hst _ Hf) as Hn|apply frozen_stands in Hf as (n & Hn0 & Hn); eapply stands_frozen; [rewrite list_lookup_insert_ne by auto; exact Hn0|]]);
      destruct Hn as (Hc & Hsh & Hn); (split; [exact Hc|]); (split; [auto|]).
    + exact Hn.
    + exact Hn.
    + destruct Hn as (i & Hb & Hi & Hh & Hsl & Hch). exists i. repeat (split; [assumption|]). rewrite Forall_forall in IH. intros b e l' t' Hsb Ht. eapply IH; [eapply list_elem_of_lookup_2, Ht|eauto].
    + destruct Hn as (i & Hb & Hi & Hh & Hsl & Hch). exists i. repeat (split; [assumption|]). rewrite Forall_forall in IH. split.
      * eapply Forall2_impl; [exact Hsl|]. intros [[e [l'|]]|] s; cbn; auto. intros (? & ? & ?). auto.
      * intros b e l' t' Hsb Ht. eapply IH; [eapply list_elem_of_lookup_2, Ht|eauto].
  - intros l0 t Hf Hh. destruct (decide (l0 = l)) as [->|Hne].
    + exists n'. split; [now apply list_lookup_insert_eq|]. apply Hd; eauto.
    + destruct Hh as (n & Hn & Hrest). exists n. now rewrite list_lookup_insert_ne by auto.
Qed.

Lemma larger_refl g : larger g g.
Proof. split; auto. Qed.

Lemma larger_since ws ws' : larger (G ws) (G (ws ++ ws')).
Proof. split; [auto|]. intros s. cbn. apply covered_mono, list_subseteq_app_l. done. Qed.

(** A shared node has its digests. *)
Lemma shared_hashed g h l n t : frozen g c h l t -> h !! l = Some n -> cowid n = 0 -> hashed h l t.
Proof.
  intros Hf Hn Hz. apply frozen_stands in Hf as (m & Hm & _ & _ & Hb). assert (m = n) as -> by congruence. exists n. split; [exact Hn|]. destruct t as [|ty it|kids]; [contradiction| |].
  - destruct Hb as [Hb Hh]. now rewrite Hb.
  - destruct Hb as (i & Hb & _ & [[Hh Hcl]|[_ Hne]] & _); [now rewrite Hb|contradiction].
Qed.

(** ** Copies *)

Section Owner.
Context {E : Type} (o : Z) (Ho : 1 <= o < c).

Lemma clone_frozen g h l n t p : frozen g c h l t -> shaped p t -> h !! l = Some n ->
  exists n', clone_with_cowid (E := E) n o = Ok n' /\ cowid n' = o /\ is_inner n' = is_inner n /\
    frozen g c (h ++ [n']) (length h) t.
Proof.
  intros Hf Hs Hn. assert (forall n' t', stands g g h n' t' -> frozen g c (h ++ [n']) (length h) t') as Hnew.
  { intros n' t' (Hc & Hsh & Hb). eapply stands_frozen; [now apply list_lookup_middle|]. split; [exact Hc|]. split; [exact Hsh|]. destruct t' as [|ty it|kids]; [contradiction|exact Hb|].
    destruct Hb as (i & Hb & Hi & Hh & Hsl & Hch). exists i. repeat (split; [assumption|]). intros b e l' t' Hsb Ht. apply (proj1 (rests_app g h [n'])). eauto. }
  destruct t as [|ty it|kids]; [inversion Hf| |].
  - inversion Hf as [? m ? ? Hm Hcm Hb Hh|]; subst. assert (m = n) as -> by congruence. inversion Hs; subst. rewrite (clone_leaf_ok n ty it o Hb) by assumption. eexists. split; [reflexivity|]. split; [reflexivity|].
    split; [unfold is_inner; now rewrite Hb|]. apply Hnew. split; [cbn; lia|]. split; [cbn; lia|]. auto.
  - inversion Hf as [|? m i ? Hm Hcm Hb Hi Hh Hsl Hch]; subst. assert (m = n) as -> by congruence. destruct (clone_inner_slots (E := E) n i o Hb Hi) as (i' & Hcl & Hi' & Hs'). rewrite Hcl.
    eexists. split; [reflexivity|]. split; [reflexivity|]. split; [unfold is_inner; now rewrite Hb|]. apply Hnew. split; [cbn; lia|]. split; [cbn; lia|].
    exists i'. split; [reflexivity|]. split; [exact Hi'|]. rewrite Hs'. split; [|split; [exact Hsl|exact Hch]]. destruct Hh as [Hh|[Hh _]]; [left; exact Hh|right]. split; [exact Hh|cbn; lia].
Qed.

(** What the walk asks of the function that prepares a node; nodes before [N] are left alone. *)
Definition prepares (N : nat) (pre : loc -> M E loc) : Prop :=
  forall g h l n t p, (N <= length h)%nat -> frozen g c h l t -> shaped p t -> h !! l = Some n -> cowid n <> 0 ->
  exists l1 x n1, pre l h = (Ok l1, h ++ x) /\ (N <= l1)%nat /\ (h ++ x) !! l1 = Some n1 /\ cowid n1 = o /\ is_inner n1 = is_inner n /\
    frozen g c (h ++ x) l1 t.

Lemma pre_flush_prepares : prepares 0 (pre_flush_node o).
Proof.
  intros g h l n t p _ Hf Hs Hn Hz. unfold pre_flush_node. destruct (decide (cowid n = o)) as [Hc|Hc].
  - exists l, [], n. rewrite app_nil_r. split; [run (read_ok (E := E) l h n Hn); now rewrite decide_True|]. split; [lia|]. auto.
  - destruct (clone_frozen g h l n t p Hf Hs Hn) as (n' & Hcl & Hcn & Hin & Hfr). exists (length h), [n'], n'.
    split; [run (read_ok (E := E) l h n Hn); rewrite decide_False by exact Hc; run (lift_ok _ _ h Hcl); reflexivity|]. split; [lia|]. split; [now apply list_lookup_middle|]. auto.
Qed.

Lemma detached_prepares N : prepares N (detached_node o).
Proof.
  intros g h l n t p HN Hf Hs Hn Hz. destruct (clone_frozen g h l n t p Hf Hs Hn) as (n' & Hcl & Hcn & Hin & Hfr). exists (length h), [n'], n'.
  split; [unfold detached_node; run (read_ok (E := E) l h n Hn); run (lift_ok _ _ h Hcl); reflexivity|]. split; [exact HN|]. split; [now apply list_lookup_middle|]. auto.
Qed.

(** What it asks of the writer: it gives back the node it is given, having written [f] of its tree. *)
Definition writes_as (writer : WriteNode (E := E)) (f : stree -> list (SHAMapHash * list Z)) : Prop :=
  forall g h l n s, h !! l = Some n -> frozen g c h l s -> hashed h l s -> solid s -> writer l h = (Ok (l, f s), h).

Lemma serialize_ok g h l n s : h !! l = Some n -> frozen g c h l s -> hashed h l s -> solid s -> serialize_with_prefix n = Ok (text_of s) /\ hash n = merkle s.
Proof.
  intros Hn Hf (m & Hm & Hh & Hd) Hsol. assert (m = n) as -> by congruence. split; [|exact Hh].
  unfold serialize_with_prefix. inversion Hf as [? m ty it Hm' _ Hb _|? m i kids Hm' _ Hb Hi _ Hsl _]; subst; assert (m = n) as -> by congruence; rewrite Hb in *; [now apply leaf_prefix_text|].
  rewrite inner_prefix; [|exact Hi|].
  - cbn [text_of]. unfold clean in Hd. now rewrite Hd.
  - intros Hz. apply (empty_slots i Hi) in Hz. apply Hsol. rewrite Hz in Hsl. clear -Hsl. apply Forall_forall. intros t Ht. apply list_elem_of_lookup in Ht as [b Hb].
    destruct (Forall2_lookup_r _ _ _ _ _ Hsl Hb) as (x & Hx & Hxt). apply lookup_replicate in Hx as [-> _]. exact Hxt.
Qed.

Lemma write_node_writes : writes_as write_node (fun s => [entry s]).
Proof.
  intros g h l n s Hn Hf Hh Hsol. destruct (serialize_ok g h l n s Hn Hf Hh Hsol) as [Hs Hm]. unfold write_node. run (read_ok (E := E) l h n Hn). now rewrite Hs, Hm.
Qed.

Lemma keep_node_writes : writes_as keep_node (fun _ => []).
Proof. intros g h l n s _ _ _ _. reflexivity. Qed.

(** ** Steps of the walk *)

Context (writer : WriteNode (E := E)) (f : stree -> list (SHAMapHash * list Z)) (Hwriter : writes_as writer f).


(** Nothing changes but nodes that stand for parts of [t], behind [N]; nodes without an owner stay without. *)
Record within (N : nat) (g : ghost) (t : stree) (h h' : heap) : Prop := {
  wi_same m n s : h !! m = Some n -> frozen g c h m s -> s ∉ subtrees t -> h' !! m = Some n;
  wi_shared m n : h !! m = Some n -> cowid n = 0 -> exists n', h' !! m = Some n' /\ cowid n' = 0;
  wi_before m : (m < N)%nat -> h' !! m = h !! m;
  wi_length : (length h <= length h')%nat
}.

Lemma within_app N g t h x : (N <= length h)%nat -> within N g t h (h ++ x).
Proof.
  intros HN. split.
  - intros m n s Hm _ _. now apply lookup_app_l_Some.
  - intros m n Hm Hz. exists n. split; [now apply lookup_app_l_Some|exact Hz].
  - intros m Hm. apply lookup_app_l. lia.
  - rewrite length_app. lia.
Qed.

Lemma within_trans N g g' t h1 h2 h3 : rests g g' h1 h2 -> within N g t h1 h2 -> within N g' t h2 h3 -> within N g t h1 h3.
Proof.
  intros [Hr _] [A1 B1 C1 D1] [A2 B2 C2 D2]. split.
  - intros m n s Hm Hf Hs. apply (A2 m n s); eauto.
  - intros m n Hm Hz. destruct (B1 m n Hm Hz) as (n' & Hn' & Hz'). eauto.
  - intros m Hm. rewrite C2, C1; auto.
  - lia.
Qed.

Lemma within_sub N g t s h h' : s ∈ subtrees t -> within N g s h h' -> within N g t h h'.
Proof. intros Hs [A B C D]. split; auto. intros m n u Hm Hf Hu. eapply A; eauto. intros Hin. apply Hu. eapply subtrees_trans; eauto. Qed.

Lemma within_write N g t h l n n' : (N <= l)%nat -> h !! l = Some n -> frozen g c h l t -> (cowid n = 0 -> cowid n' = 0) -> within N g t h (<[l := n']> h).
Proof.
  intros HN Hl Hf Hz. pose proof (lookup_lt_Some _ _ _ Hl) as Hlt. split.
  - intros m k s Hm Hf0 Hs. destruct (decide (m = l)) as [->|Hne]; [|now rewrite list_lookup_insert_ne by auto]. destruct Hs. rewrite (frozen_fun g c h l t Hf c s Hf0). apply subtrees_self.
  - intros m k Hm Hk. destruct (decide (m = l)) as [->|Hne]; [|rewrite list_lookup_insert_ne by auto; eauto]. exists n'. split; [now apply list_lookup_insert_eq|]. apply Hz. congruence.
  - intros m Hm. rewrite list_lookup_insert_ne by lia. reflexivity.
  - now rewrite length_insert.
Qed.

Lemma unshare_ok h l n : h !! l = Some n -> unshare_in (E := E) l h = (Ok tt, <[l := unshare n]> h).
Proof. intros Hn. now apply (change_ok l _ h n). Qed.

(** Giving up the owner. *)
Lemma rests_unshare ws h l n t : h !! l = Some n -> frozen (G ws) c h l t -> hashed h l t -> covered known (ws ++ [t]) t -> rests (G ws) (G (ws ++ [t])) h (<[l := unshare n]> h).
Proof.
  intros Hn Hf Hh Hcov. destruct Hh as (m & Hm & Hmh & Hd). assert (m = n) as -> by congruence.
  apply rests_write; [apply larger_since|eapply lookup_lt_Some, Hn| |].
  - intros s Hs. assert (s = t) as -> by (eapply frozen_fun; eauto). apply frozen_stands in Hs as (m & Hm' & Hc & Hsh & Hb). assert (m = n) as -> by congruence.
    split; [clear -Hc; cbn; lia|]. split; [intros _; exact Hcov|]. destruct t as [|ty it|kids]; [contradiction|exact Hb|]. destruct Hb as (i & Hb & Hi & _ & Hsl & Hch). rewrite Hb in Hd.
    exists i. split; [exact Hb|]. split; [exact Hi|]. split; [left; split; [exact Hmh|exact Hd]|]. split; [exact Hsl|exact Hch].
  - intros s Hs _. assert (s = t) as -> by (eapply frozen_fun; eauto). split; [exact Hmh|]. exact Hd.
Qed.

Lemma covered_step ws t kids : t = Node kids -> (forall s, s ∈ kids -> covered known ws s) -> covered known (ws ++ [t]) t.
Proof.
  intros -> Hk s Hs Hsol. apply subtrees_inv in Hs as [->|(u & Hu & Hs)]; [right; apply elem_of_app; right; left|].
  destruct (Hk u Hu s Hs Hsol) as [|Hw]; [auto|right; apply elem_of_app; auto].
Qed.

Lemma flush_leaf N ws h l n ty it p : (N <= l)%nat -> h !! l = Some n -> cowid n = o -> frozen (G ws) c h l (Leaf ty it) -> shaped p (Leaf ty it) -> exists h', 
  (forall A (k : loc * list (SHAMapHash * list Z) -> M E A), (change l update_hash;; unshare_in l;; w ← maybe_write_node (Some writer) l; k w) h = k (l, f (Leaf ty it)) h') /\
  rests (G ws) (G (ws ++ [Leaf ty it])) h h' /\ within N (G ws) (Leaf ty it) h h' /\ exists n', h' !! l = Some n' /\ cowid n' = 0.
Proof.
  intros HN Hn Hc Hf Hs. assert (ty <> Inner) as Hty by (inversion Hs; assumption). inversion Hf as [? m ? ? Hm Hcm Hb Hh|]; subst. assert (m = n) as -> by congruence.
  assert (update_hash (E := E) n = Ok n) as Hup by (unfold update_hash; rewrite Hb, compute_leaf_hash_ok by exact Hty; cbn; rewrite <- Hh; now destruct n).
  assert (hashed h l (Leaf ty it)) as Hhd by (exists n; rewrite Hb; auto). pose proof (rests_unshare ws h l n (Leaf ty it) Hn Hf Hhd) as Hr.
  assert (covered known (ws ++ [Leaf ty it]) (Leaf ty it)) as Hcov.
  { intros s Hin _. apply elem_of_cons in Hin as [->|Hin]; [right; apply elem_of_app; right; left|inversion Hin]. }
  specialize (Hr Hcov). set (h' := <[l := unshare n]> h) in *. exists h'. assert (h' !! l = Some (unshare n)) as Hn' by (apply list_lookup_insert_eq; eapply lookup_lt_Some, Hn).
  split; [|split; [exact Hr|split; [eapply within_write; eauto|exists (unshare n); auto]]].
  intros A k. run (change_ok (E := E) l update_hash h n n Hn Hup). rewrite list_insert_id by exact Hn. run (unshare_ok h l n Hn). fold h'. cbn [maybe_write_node].
  run (Hwriter (G (ws ++ [Leaf ty it])) h' l (unshare n) (Leaf ty it) Hn' (proj1 Hr _ _ Hf) (proj2 Hr _ _ Hf Hhd) Hty). reflexivity.
Qed.

(** All children that are loaded have given up their owners. *)
Definition done_to (pos : nat) (h : heap) (n : SHAMapTreeNode) : Prop :=
  forall b l', (b < pos)%nat -> children_of n !! b = Some (Some l') -> exists n', h !! l' = Some n' /\ cowid n' = 0.

Lemma flush_child_slot g h l n i kids b l' : frozen g c h l (Node kids) -> h !! l = Some n -> body n = InnerBody i -> children_of n !! b = Some (Some l') ->
  exists e t, slots i !! b = Some (Some (e, Some l')) /\ kids !! b = Some t /\ frozen g c h l' t.
Proof.
  intros Hf Hn Hb Hch. inversion Hf as [|? m i' ? Hm _ Hb' _ _ Hsl Hk]; subst. assert (m = n) as -> by congruence. assert (i' = i) as -> by congruence.
  unfold children_of in Hch. rewrite Hb, list_lookup_fmap in Hch. destruct (slots i !! b) as [[[e [l0|]]|]|] eqn:Hs; try discriminate. injection Hch as ->.
  destruct (Forall2_lookup_l _ _ _ _ _ Hsl Hs) as (t & Ht & _). exists e, t. eauto.
Qed.

Lemma flush_inner N ws h l n kids : (N <= l)%nat -> h !! l = Some n -> cowid n = o -> frozen (G ws) c h l (Node kids) -> length kids = 16%nat -> solid (Node kids) -> done_to 16 h n -> exists h', 
  (forall A (k : loc * list (SHAMapHash * list Z) -> M E A), (update_hash_deep_in l;; unshare_in l;; w ← maybe_write_node (Some writer) l; k w) h = k (l, f (Node kids)) h') /\
  rests (G ws) (G (ws ++ [Node kids])) h h' /\ within N (G ws) (Node kids) h h' /\ exists n', h' !! l = Some n' /\ cowid n' = 0.
Proof.
  intros HN Hn Hc Hf H16 Hsol Hdone. assert (exists i, body n = InnerBody i) as [i Hb] by (inversion Hf as [|? m i ? Hm _ Hb]; subst; exists i; congruence).
  assert (hashed_below h l kids (seq 0 16)) as Hbelow.
  { intros m b l' t Hin Hm Hch Ht. assert (m = n) as -> by congruence. apply elem_of_seq in Hin. destruct (Hdone b l' ltac:(lia) Hch) as (n' & Hn' & Hz).
    destruct (flush_child_slot _ _ _ _ _ _ _ _ Hf Hn Hb Hch) as (e & t' & _ & Ht' & Hfc). assert (t' = t) as -> by congruence. eapply shared_hashed; eauto. }
  destruct (rehash_ok (E := E) (G ws) c l kids h Hf H16 Hbelow) as (h1 & Hr1 & Hset & Hhd & n0 & ->). pose proof (proj1 Hset _ _ _ Hf) as Hf1. set (h1 := <[l := n0]> h) in *.
  assert (h1 !! l = Some n0) as Hn1 by (apply list_lookup_insert_eq; eapply lookup_lt_Some, Hn).
  destruct (proj2 (proj2 Hset) l n Hn) as (n1 & Hn1' & Hc1 & Hch1). assert (n1 = n0) as -> by congruence.
  assert (covered known (ws ++ [Node kids]) (Node kids)) as Hcov.
  { eapply covered_step; [reflexivity|]. intros s Hs. apply list_elem_of_lookup in Hs as [b Hb']. inversion Hf as [|? m i' ? Hm _ Hbm _ _ Hsl _]; subst. assert (m = n) as -> by congruence. assert (i' = i) as -> by congruence.
    destruct (Forall2_lookup_r _ _ _ _ _ Hsl Hb') as (x & Hx & Hxs). destruct x as [[e [l'|]]|]; cbn in Hxs.
    - assert (children_of n !! b = Some (Some l')) as Hch by (unfold children_of; now rewrite Hb, list_lookup_fmap, Hx). pose proof (lookup_lt_Some _ _ _ Hb') as Hlt. destruct (Hdone b l' ltac:(lia) Hch) as (n' & Hn' & Hz).
      destruct (flush_child_slot _ _ _ _ _ _ _ _ Hf Hn Hb Hch) as (e' & t' & _ & Ht' & Hfc). assert (t' = s) as -> by congruence. apply frozen_stands in Hfc as (m' & Hm' & _ & Hsh & _). assert (m' = n') as -> by congruence. exact (Hsh Hz).
    - destruct Hxs as (_ & _ & Hk). apply (covered_mono known [] ws); [apply list_subseteq_nil|]. eapply Hclosed, Hk.
    - subst s. intros u Hu Hus. apply elem_of_cons in Hu as [->|Hu]; [contradiction|inversion Hu]. }
  pose proof (rests_unshare ws h1 l n0 (Node kids) Hn1 Hf1 Hhd Hcov) as Hr. set (h2 := <[l := unshare n0]> h1) in *. exists h2.
  assert (h2 !! l = Some (unshare n0)) as Hn2 by (apply list_lookup_insert_eq; eapply lookup_lt_Some, Hn1). pose proof (rests_settles _ _ _ Hset) as Hr0.
  split; [|split; [eapply rests_trans; eassumption|split; [|exists (unshare n0); auto]]].
  - intros A k. run Hr1. run (unshare_ok h1 l n0 Hn1). fold h2. cbn [maybe_write_node].
    run (Hwriter (G (ws ++ [Node kids])) h2 l (unshare n0) (Node kids) Hn2 (proj1 Hr _ _ Hf1) (proj2 Hr _ _ Hf1 Hhd) Hsol). reflexivity.
  - eapply within_trans; [exact Hr0|eapply within_write; [exact HN|exact Hn|exact Hf|congruence]|eapply within_write; [exact HN|exact Hn1|exact Hf1|reflexivity]].
Qed.

(** A tree is not a part of its parts. *)
Fixpoint weight (t : stree) : nat := S (match t with Node kids => list_sum (map weight kids) | _ => 0 end).

Lemma weight_kid kids t : t ∈ kids -> (weight t < weight (Node kids))%nat.
Proof. intros Ht. cbn. apply list_elem_of_split in Ht as (l1 & l2 & ->). rewrite map_app, list_sum_app. cbn. lia. Qed.

Lemma weight_sub t : forall s, s ∈ subtrees t -> (weight s <= weight t)%nat.
Proof.
  induction t as [|ty it|kids IH] using stree_ind'; intros s Hs; [apply elem_of_cons in Hs as [->|Hs]; [lia|inversion Hs]|apply elem_of_cons in Hs as [->|Hs]; [lia|inversion Hs]|].
  apply subtrees_inv in Hs as [->|(t & Ht & Hs)]; [lia|]. rewrite Forall_forall in IH. pose proof (IH t Ht s Hs). pose proof (weight_kid kids t Ht). lia.
Qed.

Lemma not_within kids t : t ∈ kids -> Node kids ∉ subtrees t.
Proof. intros Ht Hin. apply weight_sub in Hin. pose proof (weight_kid kids t Ht). lia. Qed.

Lemma share_step N ws h l n i kids b e x l1 t : (N <= l)%nat -> h !! l = Some n -> cowid n = o -> frozen (G ws) c h l (Node kids) -> body n = InnerBody i ->
  slots i !! b = Some (Some (e, x)) -> kids !! b = Some t -> frozen (G ws) c h l1 t ->
  exists n', change (E := E) l (fun n => share_child n b l1) h = (Ok tt, <[l := n']> h) /\ rests (G ws) (G ws) h (<[l := n']> h) /\ within N (G ws) (Node kids) h (<[l := n']> h) /\
    cowid n' = o /\ children_of n' = <[b := Some l1]> (children_of n).
Proof.
  intros HN Hn Hc Hf Hb Hs Ht Hl1. inversion Hf as [|? m i0 ? Hm Hcm Hbm Hi Hh Hsl Hk]; subst. assert (m = n) as -> by congruence. assert (i0 = i) as -> by congruence.
  destruct (share_child_slots (E := E) n i Hb Hi b e x l1 Hs ltac:(lia)) as (i' & Hsc & Hi' & Hs'). set (n' := after n (hash n) i') in *.
  assert (slot_hash <$> slots i' = slot_hash <$> slots i) as Hsh.
  { rewrite Hs', list_fmap_insert. apply list_insert_id. rewrite list_lookup_fmap, Hs. reflexivity. }
  exists n'. split; [now apply (change_ok l _ h n)|]. split; [|split; [|split; [reflexivity|]]].
  - apply rests_write; [apply larger_refl|eapply lookup_lt_Some, Hn| |].
    + intros s Hfs. assert (s = Node kids) as -> by (eapply frozen_fun; eauto).
      apply frozen_stands in Hfs as (m & Hm' & Hcm' & Hshr & j & Hj & _ & Hhj & Hslj & Hchj).
      assert (m = n) as -> by congruence. assert (j = i) as -> by congruence. split; [exact Hcm'|]. split; [exact Hshr|]. exists i'. split; [reflexivity|]. split; [exact Hi'|]. split; [|split].
      * destruct Hhj as [[H1 H2]|H1]; [left|right; exact H1]. split; [exact H1|]. unfold clean in *. congruence.
      * rewrite Hs', <- (list_insert_id kids b t Ht). apply Forall2_insert; [exact Hslj|]. pose proof (Forall2_lookup_lr _ _ _ _ _ _ Hslj Hs Ht) as Hst. destruct x; cbn in Hst |- *; tauto.
      * intros b' e' l' t' Hb' Ht'. rewrite Hs' in Hb'. destruct (decide (b' = b)) as [->|Hne].
        -- rewrite list_lookup_insert_eq in Hb' by (eapply lookup_lt_Some, Hs). injection Hb' as _ <-. assert (t' = t) as -> by congruence. exact Hl1.
        -- rewrite list_lookup_insert_ne in Hb' by congruence. eauto.
    + intros s Hfs (m & Hm' & Hmh & Hd). assert (s = Node kids) as -> by (eapply frozen_fun; eauto). assert (m = n) as -> by congruence. split; [exact Hmh|]. cbn [body n' after]. rewrite Hb in Hd. unfold clean in *. congruence.
  - eapply within_write; [exact HN|exact Hn|exact Hf|auto].
  - unfold children_of. rewrite Hb. cbn [body n' after]. rewrite Hs', list_fmap_insert. reflexivity.
Qed.

(** The child of the branch [b] has been flushed. *)
Lemma child_done N ws w1 h x h2 l n i kids b e l' l1 t : (N <= l)%nat -> (N <= length h)%nat -> h !! l = Some n -> cowid n = o -> frozen (G ws) c h l (Node kids) -> body n = InnerBody i -> done_to b h n ->
  slots i !! b = Some (Some (e, Some l')) -> kids !! b = Some t -> frozen (G ws) c (h ++ x) l1 t ->
  rests (G ws) (G (ws ++ w1)) (h ++ x) h2 -> within N (G ws) t (h ++ x) h2 -> (exists n', h2 !! l1 = Some n' /\ cowid n' = 0) ->
  exists h3 n3, change (E := E) l (fun n => share_child n b l1) h2 = (Ok tt, h3) /\ rests (G ws) (G (ws ++ w1)) h h3 /\ within N (G ws) (Node kids) h h3 /\
    h3 !! l = Some n3 /\ cowid n3 = o /\ done_to (S b) h3 n3.
Proof.
  intros HN HNh Hn Hc Hf Hb Hdone Hs Ht Hl1 Hr Hw (n' & Hn' & Hz'). pose proof (rests_app (G ws) h x) as Ha. pose proof (within_app N (G ws) (Node kids) h x HNh) as Hwa.
  pose proof (list_elem_of_lookup_2 _ _ _ Ht) as Htk. pose proof (proj1 Ha _ _ Hf) as Hf1. pose proof (proj1 Hr _ _ Hf1) as Hf2.
  assert (h2 !! l = Some n) as Hn2 by (eapply (wi_same _ _ _ _ _ Hw); [apply lookup_app_l_Some, Hn|exact Hf1|now apply not_within]).
  destruct (share_step N (ws ++ w1) h2 l n i kids b e (Some l') l1 t HN Hn2 Hc Hf2 Hb Hs Ht (proj1 Hr _ _ Hl1)) as (n3 & Hsh & Hr3 & Hw3 & Hc3 & Hch3).
  exists (<[l := n3]> h2), n3. split; [exact Hsh|]. pose proof (rests_trans _ _ _ _ _ _ Ha Hr) as Har.
  pose proof (within_sub N (G ws) (Node kids) t _ _ (subtrees_kid kids t t Htk (subtrees_self t)) Hw) as Hw'.
  pose proof (within_trans _ _ _ _ _ _ _ Ha Hwa Hw') as Hwh. pose proof (within_trans _ _ _ _ _ _ _ Har Hwh Hw3) as Hwall.
  split; [eapply rests_trans; eassumption|]. split; [exact Hwall|]. split; [apply list_lookup_insert_eq; eapply lookup_lt_Some, Hn2|]. split; [exact Hc3|].
  intros b' l0 Hb' Hch. rewrite Hch3 in Hch. destruct (decide (b' = b)) as [->|Hne].
  - rewrite list_lookup_insert_eq in Hch by (unfold children_of; rewrite Hb, length_fmap; eapply lookup_lt_Some, Hs). injection Hch as <-. eapply (wi_shared _ _ _ _ _ Hw3); eauto.
  - rewrite list_lookup_insert_ne in Hch by congruence. destruct (Hdone b' l0 ltac:(lia) Hch) as (m & Hm & Hmz). eapply (wi_shared _ _ _ _ _ Hwall); eauto.
Qed.

(** ** The loop *)

Section Loop.
Context (N : nat) (pre : loc -> M E loc) (Hpre : prepares N pre).

Local Abbreviation result := (loc * nat * list (SHAMapHash * list Z))%type.
Local Abbreviation step := (walk_step pre (Some writer)).

(** [k] steps. *)
Fixpoint walk_steps (k : nat) (w : walk) : M E (walk + result) :=
  match k with
  | O => mret (inl w)
  | S k => r ← step w; match r with inl w => walk_steps k w | inr r => mret (inr r) end
  end.

Lemma walk_steps_add a b : forall w h, walk_steps (a + b) w h = (r ← walk_steps a w; match r with inl w => walk_steps b w | inr r => mret (inr r) end) h.
Proof.
  induction a as [|a IH]; intros w h; [reflexivity|]. cbn [walk_steps Nat.add]. unfold mbind, M_bind. destruct (step w h) as [[[w'|r]| | | |] h']; try reflexivity. apply IH.
Qed.

Lemma walk_loop_steps n : forall w h, walk_loop n pre (Some writer) w h = walk_steps (2 ^ n) w h.
Proof.
  induction n as [|n IH]; intros w h.
  - cbn. unfold mbind, M_bind. destruct (step w h) as [[[w'|r]| | | |] h']; reflexivity.
  - replace (2 ^ S n)%nat with (2 ^ n + 2 ^ n)%nat by (cbn; lia). rewrite walk_steps_add. cbn [walk_loop]. unfold mbind, M_bind. rewrite IH. destruct (walk_steps (2 ^ n) w h) as [[[w'|r]| | | |] h']; try reflexivity. apply IH.
Qed.

Lemma walk_steps_done a b w h r h' : walk_steps a w h = (Ok (inr r), h') -> (a <= b)%nat -> walk_steps b w h = (Ok (inr r), h').
Proof. intros Ha Hab. replace b with (a + (b - a))%nat by lia. rewrite walk_steps_add. now run Ha. Qed.

Lemma bind_one s : [s] ≫= f = f s.
Proof. apply app_nil_r. Qed.

(** After the subtree under [l]: back to its parent. *)
Definition resume (l : loc) (stack : list (loc * nat)) (flushed : nat) (out : list (SHAMapHash * list Z)) : M E (walk + result) :=
  match stack with
  | [] => mret (inr (l, flushed, out))
  | (parent, branch) :: stack => change parent (fun n => share_child n branch l);; mret (inl (mkWalk parent stack (S branch) flushed out))
  end.

(** What a walk of [t] from the branch [pos] on comes to, in at most [B] steps. *)
Definition walks (B : nat) (t : stree) (l : loc) (pos : nat) (ws : list stree) (h : heap) : Prop :=
  exists K h' ws', (K <= B)%nat /\
    (forall stack flushed out, walk_steps K (mkWalk l stack pos flushed out) h = resume l stack (flushed + length ws') (out ++ (ws' ≫= f)) h') /\
    rests (G ws) (G (ws ++ ws')) h h' /\ within N (G ws) t h h' /\ (exists n', h' !! l = Some n' /\ cowid n' = 0) /\ forall s, s ∈ ws' -> s ∈ subtrees t /\ solid s.

Lemma walks_end kids l ws h n : (N <= l)%nat -> h !! l = Some n -> cowid n = o -> frozen (G ws) c h l (Node kids) -> length kids = 16%nat -> solid (Node kids) -> done_to 16 h n ->
  walks 1 (Node kids) l 16 ws h.
Proof.
  intros HN Hn Hc Hf H16 Hsol Hd. destruct (flush_inner N ws h l n kids HN Hn Hc Hf H16 Hsol Hd) as (h' & Hrun & Hr & Hw & Hz). exists 1%nat, h', [Node kids].
  split; [lia|]. split; [|split; [exact Hr|split; [exact Hw|split; [exact Hz|]]]].
  - intros stack flushed out. cbn [walk_steps walk_step]. rewrite decide_False by (unfold BRANCH_FACTOR; lia). unfold mbind at 1, M_bind at 1. rewrite Hrun. cbn [fst snd length]. rewrite bind_one, Nat.add_1_r.
    destruct stack as [|[parent branch] stack]; [reflexivity|]. cbn [resume]. unfold mbind, M_bind. now destruct (change parent _ h') as [[[]| | | |] ?].
  - intros s Hs. apply list_elem_of_singleton in Hs as ->. split; [apply subtrees_self|exact Hsol].
Qed.

(** Steps inside the node: what has been written, and where the store of nodes is. *)
Definition moves (K : nat) (l : loc) (pos : nat) (h : heap) (w1 : list stree) (h' : heap) : Prop :=
  forall stack flushed out, walk_steps K (mkWalk l stack pos flushed out) h = (Ok (inl (mkWalk l stack (S pos) (flushed + length w1) (out ++ (w1 ≫= f)))), h').

Lemma walks_move B B' K kids l pos ws h w1 h3 : moves K l pos h w1 h3 -> rests (G ws) (G (ws ++ w1)) h h3 -> within N (G ws) (Node kids) h h3 -> (forall s, s ∈ w1 -> s ∈ subtrees (Node kids) /\ solid s) ->
  walks B (Node kids) l (S pos) (ws ++ w1) h3 -> (K + B <= B')%nat -> walks B' (Node kids) l pos ws h.
Proof.
  intros Hstep Hr Hw Hin (K' & h' & ws' & HB & Hrun & Hr' & Hw' & Hz & Hin') HB'. exists (K + K')%nat, h', (w1 ++ ws'). split; [lia|]. split; [|split; [|split; [|split; [exact Hz|]]]].
  - intros st k ou. rewrite walk_steps_add. run (Hstep st k ou). now rewrite Hrun, bind_app, length_app, app_assoc, Nat.add_assoc.
  - rewrite app_assoc. eapply rests_trans; eassumption.
  - eapply within_trans; eassumption.
  - intros s Hs. apply elem_of_app in Hs as [Hs|Hs]; auto.
Qed.

Lemma walks_skip B kids l pos ws h : (N <= length h)%nat -> moves 1 l pos h [] h -> walks B (Node kids) l (S pos) ws h -> walks (S B) (Node kids) l pos ws h.
Proof.
  intros HN Hm Hw. eapply (walks_move B (S B) 1 kids l pos ws h [] h Hm); [rewrite app_nil_r; apply rests_grow, larger_refl| |intros s Hs; inversion Hs|now rewrite app_nil_r|lia].
  rewrite <- (app_nil_r h) at 2. now apply within_app.
Qed.

(** The child is prepared, then flushed. *)
Definition flush_child (child node : loc) (stack : list (loc * nat)) (pos flushed : nat) (out : list (SHAMapHash * list Z)) : M E (walk + result) :=
  child ← pre child;
  c ← read child;
  if is_inner c then mret (inl (mkWalk child ((node, pos) :: stack) 0 flushed out))
  else
    change child update_hash;;
    unshare_in child;;
    written ← maybe_write_node (Some writer) child;
    change node (fun n => share_child n pos written.1);;
    mret (inl (mkWalk node stack (S pos) (S flushed) (out ++ written.2))).

Lemma flush_child_ok B kids l pos ws h l' cn t p : (N <= length h)%nat -> t ∈ kids -> shaped p t -> compact t -> frozen (G ws) c h l' t -> h !! l' = Some cn -> cowid cn <> 0 ->
  (forall l ws h n, (N <= l)%nat -> (N <= length h)%nat -> h !! l = Some n -> cowid n = o -> frozen (G ws) c h l t -> is_inner n = true -> walks B t l 0 ws h) ->
  exists K l1 x w1 h2, (K <= B)%nat /\
    (forall stack flushed out, (r ← flush_child l' l stack pos flushed out; match r with inl w => walk_steps K w | inr r => mret (inr r) end) h =
      (change l (fun n => share_child n pos l1);; mret (inl (mkWalk l stack (S pos) (flushed + length w1) (out ++ (w1 ≫= f))))) h2) /\
    frozen (G ws) c (h ++ x) l1 t /\ rests (G ws) (G (ws ++ w1)) (h ++ x) h2 /\ within N (G ws) t (h ++ x) h2 /\ (exists n', h2 !! l1 = Some n' /\ cowid n' = 0) /\
    forall s, s ∈ w1 -> s ∈ subtrees (Node kids) /\ solid s.
Proof.
  intros HNh Htk Hsh Hco Hfc Hcn Hz IH. destruct (Hpre (G ws) h l' cn t p HNh Hfc Hsh Hcn Hz) as (l1 & x & n1 & Hrun & HN1 & Hn1 & Hc1 & Hin1 & Hf1).
  destruct (compact_solid p t Hsh Hco) as [->|Hsol]; [inversion Hfc|]. destruct (is_inner n1) eqn:Hi.
  - destruct (IH l1 ws (h ++ x) n1 HN1 ltac:(rewrite length_app; lia) Hn1 Hc1 Hf1 Hi) as (K & h2 & w1 & HB & Hw & Hr & Hwi & Hz2 & Hin). exists K, l1, x, w1, h2. split; [exact HB|].
    split; [|split; [exact Hf1|split; [exact Hr|split; [exact Hwi|split; [exact Hz2|]]]]].
    + intros. unfold flush_child.
      unfold mbind at 1, M_bind at 1. run Hrun. run (read_ok (E := E) l1 (h ++ x) n1 Hn1). rewrite Hi. cbn. now rewrite Hw.
    + intros s Hs. destruct (Hin s Hs). eauto using subtrees_kid.
  - destruct t as [|ty it|ks]; [contradiction| |inversion Hf1 as [|? m ? ? Hm _ Hb]; subst; assert (m = n1) as -> by congruence; unfold is_inner in Hi; now rewrite Hb in Hi].
    destruct (flush_leaf N ws (h ++ x) l1 n1 ty it p HN1 Hn1 Hc1 Hf1 Hsh) as (h2 & Hfl & Hr & Hwi & Hz2). exists 0%nat, l1, x, [Leaf ty it], h2. split; [lia|].
    split; [|split; [exact Hf1|split; [exact Hr|split; [exact Hwi|split; [exact Hz2|]]]]].
    + intros. unfold flush_child. unfold mbind at 1, M_bind at 1. run Hrun. run (read_ok (E := E) l1 (h ++ x) n1 Hn1). rewrite Hi, Hfl. cbn [fst snd length]. rewrite bind_one, Nat.add_1_r. unfold mbind, M_bind. now destruct (change l _ h2) as [[[]| | | |] ?].
    + intros s Hs. apply list_elem_of_singleton in Hs as ->. split; [eapply subtrees_kid; [exact Htk|apply subtrees_self]|exact Hsol].
Qed.

Lemma walks_from B p kids l : (N <= l)%nat -> shaped p (Node kids) -> (forall t, t ∈ kids -> compact t) -> solid (Node kids) ->
  (forall t l ws h n, t ∈ kids -> (N <= l)%nat -> (N <= length h)%nat -> h !! l = Some n -> cowid n = o -> frozen (G ws) c h l t -> is_inner n = true -> walks B t l 0 ws h) ->
  forall r pos ws h n, (pos + r = 16)%nat -> (N <= length h)%nat -> h !! l = Some n -> cowid n = o -> frozen (G ws) c h l (Node kids) -> done_to pos h n ->
  walks (r * S B + 1) (Node kids) l pos ws h.
Proof.
  intros HN Hsh Hco Hsol IH. inversion Hsh as [| |? ? Hp Hl64 H16 Hsk]; subst. induction r as [|r IHr]; intros pos ws h n Hpos HNh Hn Hc Hf Hd.
  { replace pos with 16%nat in * by lia. eapply walks_end; eauto. }
  pose proof Hf as Hf0. apply frozen_stands in Hf as (m & Hm & _ & _ & i & Hb & Hi & _ & Hsl & Hch). assert (m = n) as -> by congruence.
  destruct (lookup_lt_is_Some_2 kids pos ltac:(lia)) as [t Ht]. destruct (Forall2_lookup_r _ _ _ _ _ Hsl Ht) as (s & Hs & Hst). pose proof (list_elem_of_lookup_2 _ _ _ Ht) as Htk.
  assert (children_of n !! pos = Some (slot_child s)) as Hcp by (unfold children_of; now rewrite Hb, list_lookup_fmap, Hs).
  assert ((forall l', slot_child s = Some l' -> exists n', h !! l' = Some n' /\ cowid n' = 0) -> moves 1 l pos h [] h -> walks (S r * S B + 1) (Node kids) l pos ws h) as Hnext.
  { intros Hsk' Hmv. replace (S r * S B + 1)%nat with (B + S (r * S B + 1))%nat by lia. assert (walks (S (r * S B + 1)) (Node kids) l pos ws h) as (K & h' & ws' & HB & Hrest); [|exists K, h', ws'; split; [lia|exact Hrest]].
    apply walks_skip; auto. eapply (IHr (S pos) ws h n); try assumption; [lia|]. intros b l' Hlt Hcb. destruct (decide (b = pos)) as [->|Hne]; [|apply (Hd b l'); [lia|exact Hcb]]. apply Hsk'. congruence. }
  assert (forall stack k ou, step (mkWalk l stack pos k ou) h =
    match slot_child s with
    | None => (Ok (inl (mkWalk l stack (S pos) k ou)), h)
    | Some child => (c ← read child; if decide (cowid c = 0) then mret (inl (mkWalk l stack (S pos) k ou)) else flush_child child l stack pos k ou) h
    end) as Hstep.
  { intros. cbn [walk_step]. rewrite decide_True by (unfold BRANCH_FACTOR; lia). run (read_ok (E := E) l h n Hn). run (lift_ok _ _ h (is_empty_branch_slots (E := E) n i Hb pos _ Hs)).
    destruct s as [[e x]|]; [|reflexivity]. rewrite bool_decide_eq_false_2 by discriminate. run (lift_ok _ _ h (get_child_slots (E := E) n i Hb Hi pos _ Hs)). destruct x; reflexivity. }
  assert (forall stack k ou h', step (mkWalk l stack pos k ou) h = (Ok (inl (mkWalk l stack (S pos) k ou)), h') -> walk_steps 1 (mkWalk l stack pos k ou) h = (Ok (inl (mkWalk l stack (S pos) (k + 0) (ou ++ []))), h')) as H1.
  { intros stack k ou h' Hone. cbn [walk_steps]. run Hone. now rewrite Nat.add_0_r, app_nil_r. }
  destruct (slot_child s) as [l'|] eqn:Hx; [|apply Hnext; [discriminate|]; intros stack k ou; apply H1, Hstep].
  destruct s as [[e [l0|]]|]; try discriminate. injection Hx as ->. pose proof (Hch _ _ _ _ Hs Ht) as Hfc. pose proof Hfc as Hfc'. apply frozen_stands in Hfc' as (cn & Hcn & _).
  destruct (decide (cowid cn = 0)) as [Hz|Hz].
  { apply Hnext; [intros ? [= <-]; eauto|]. intros stack k ou. apply H1. rewrite Hstep. run (read_ok (E := E) l' h cn Hcn). now rewrite decide_True. }
  destruct (flush_child_ok B kids l pos ws h l' cn t (p ++ [pos]) HNh Htk (Hsk _ _ Ht) (Hco _ Htk) Hfc Hcn Hz) as (K & l1 & x & w1 & h2 & HB & Hrun & Hf1 & Hr & Hw & Hz2 & Hin).
  { intros l0 ws0 h0 n0. now apply IH. }
  destruct (child_done N ws w1 h x h2 l n i kids pos e l' l1 t HN HNh Hn Hc Hf0 Hb Hd Hs Ht Hf1 Hr Hw Hz2) as (h3 & n3 & Hsh3 & Hr3 & Hw3 & Hn3 & Hc3 & Hd3).
  assert (moves (S K) l pos h w1 h3) as Hmv.
  { intros stack k ou. cbn [walk_steps]. unfold mbind at 1, M_bind at 1. rewrite Hstep. run (read_ok (E := E) l' h cn Hcn). rewrite decide_False by exact Hz.
    pose proof (Hrun stack k ou) as Hgo. unfold mbind at 1, M_bind at 1 in Hgo. rewrite Hgo. run Hsh3. reflexivity. }
  eapply (walks_move (r * S B + 1) _ (S K) kids l pos ws h w1 h3 Hmv Hr3 Hw3 Hin); [|lia]. eapply (IHr (S pos) (ws ++ w1) h3 n3); try assumption; [lia|pose proof (wi_length _ _ _ _ _ Hw3); lia|exact (proj1 Hr3 _ _ Hf0)].
Qed.

(** The walk of a whole tree. *)
Lemma walks_tree t : forall p l ws h n, (N <= l)%nat -> (N <= length h)%nat -> shaped p t -> (forall kids, t = Node kids -> forall s, s ∈ kids -> compact s) -> solid t ->
  h !! l = Some n -> cowid n = o -> frozen (G ws) c h l t -> is_inner n = true -> walks (64 ^ (64 - length p)) t l 0 ws h.
Proof.
  induction t as [|ty it|kids IH] using stree_ind'; intros p l ws h n HN HNh Hsh Hco Hsol Hn Hc Hf Hi.
  - contradiction.
  - inversion Hf as [? m ? ? Hm _ Hb|]; subst. assert (m = n) as -> by congruence. unfold is_inner in Hi. now rewrite Hb in Hi.
  - rewrite Forall_forall in IH. specialize (Hco kids eq_refl). inversion Hsh as [| |? ? _ Hp _ Hsk]; subst. set (B := (64 ^ (64 - S (length p)))%nat).
    assert (16 * S B + 1 <= 64 ^ (64 - length p))%nat as HB.
    { replace (64 - length p)%nat with (S (64 - S (length p))) by lia. rewrite Nat.pow_succ_r'. fold B. assert (B <> 0)%nat by (apply Nat.pow_nonzero; lia). lia. }
    assert (walks (16 * S B + 1) (Node kids) l 0 ws h) as (K & h' & ws' & HK & Hrest); [|exists K, h', ws'; split; [lia|exact Hrest]].
    apply (walks_from B p kids l HN Hsh Hco Hsol) with (n := n); auto; [|intros b l' Hb; lia].
    intros t l0 ws0 h0 n0 Ht HN0 HNh0 Hn0 Hc0 Hf0 Hi0. pose proof Ht as Ht'. apply list_elem_of_lookup in Ht' as [b Hb].
    assert (B = 64 ^ (64 - length (p ++ [b])))%nat as -> by (unfold B; rewrite length_app; cbn [length]; now rewrite Nat.add_1_r).
    eapply (IH t Ht (p ++ [b])); eauto; [|destruct (compact_solid _ t (Hsk _ _ Hb) (Hco _ Ht)) as [->|]; [inversion Hf0|assumption]].
    intros ks -> s Hs. pose proof (Hco _ Ht) as Hcn. inversion Hcn; auto.
Qed.

Lemma depth_enough : (64 ^ 64 <= 2 ^ WALK_DEPTH)%nat.
Proof.
  assert (WALK_DEPTH = 6 * 64)%nat as -> by reflexivity. rewrite Nat.pow_mul_r. assert (2 ^ 6 = 64)%nat as -> by reflexivity. apply le_n.
Qed.

Lemma walk_nodes_ok t l ws h n : (N <= l)%nat -> (N <= length h)%nat -> rooted t -> solid t -> h !! l = Some n -> cowid n = o -> frozen (G ws) c h l t -> exists h' ws',
  walk_nodes pre (Some writer) l h = (Ok (l, length ws', ws' ≫= f), h') /\ rests (G ws) (G (ws ++ ws')) h h' /\ within N (G ws) t h h' /\ (exists n', h' !! l = Some n' /\ cowid n' = 0) /\
  forall s, s ∈ ws' -> s ∈ subtrees t /\ solid s.
Proof.
  intros HN HNh (kids & -> & Hsh & Hco) Hsol Hn Hc Hf. assert (is_inner n = true) as Hi by (inversion Hf as [|? m ? ? Hm _ Hb]; subst; assert (m = n) as -> by congruence; unfold is_inner; now rewrite Hb).
  destruct (walks_tree (Node kids) [] l ws h n HN HNh Hsh ltac:(intros ? [= <-]; exact Hco) Hsol Hn Hc Hf Hi) as (K & h' & ws' & HK & Hrun & Hrest). exists h', ws'. split; [|exact Hrest].
  unfold walk_nodes. pose proof (Hrun [] 0%nat []) as Hgo. cbn [resume app] in Hgo. rewrite Nat.add_0_l in Hgo.
  assert (K <= 2 ^ WALK_DEPTH)%nat as HK' by (etransitivity; [exact HK|exact depth_enough]).
  pose proof (walk_steps_done _ _ _ _ _ _ Hgo HK') as Hd. rewrite <- walk_loop_steps in Hd. run Hd. reflexivity.
Qed.

End Loop.

(** ** Flushing a map *)

(** The map [t] under [l] is shared and stored, what is new of it having been written. *)
Record flushes (N : nat) (h h' : heap) (l : loc) (t : stree) (ws : list stree) : Prop := {
  fl_rests : rests (G []) (G ws) h h';
  fl_root : frozen (G ws) c h' l t;
  fl_shared : exists n, h' !! l = Some n /\ cowid n = 0;
  fl_written s : s ∈ ws -> s ∈ subtrees t /\ solid s;
  fl_before m : (m < N)%nat -> h' !! m = h !! m;
  fl_kept m n : h !! m = Some n -> cowid n = 0 -> exists n', h' !! m = Some n' /\ cowid n' = 0
}.

Lemma flushes_covered N h h' l t ws : flushes N h h' l t ws -> covered known ws t /\ hashed h' l t.
Proof.
  intros [_ Hf (n & Hn & Hz) _ _ _]. split; [|eapply shared_hashed; eauto]. apply frozen_stands in Hf as (m & Hm & _ & Hsh & _). assert (m = n) as -> by congruence. exact (Hsh Hz).
Qed.

Lemma flushes_self N h l n t : frozen (G []) c h l t -> h !! l = Some n -> cowid n = 0 -> flushes N h h l t [].
Proof. intros Hf Hn Hz. split; [apply rests_grow, larger_refl|exact Hf|eauto|intros s Hs; inversion Hs|auto|eauto]. Qed.

Lemma empty_root g h l n t : frozen g c h l t -> rooted t -> h !! l = Some n -> is_leaf n = false /\ is_inner n = true /\ (if is_empty n then t = Node no_kids else solid t).
Proof.
  intros Hf (kids & -> & Hsh & _) Hn. inversion Hf as [|? m i ? Hm _ Hb Hi _ Hsl _]; subst. assert (m = n) as -> by congruence. unfold is_leaf, is_inner, is_empty. rewrite Hb. split; [reflexivity|]. split; [reflexivity|].
  inversion Hsh as [| |? ? _ _ H16 _]; subst. destruct (is_branch i =? 0) eqn:Hz.
  - apply Z.eqb_eq, (empty_slots i Hi) in Hz. rewrite Hz in Hsl. f_equal. apply list_eq_same_length with (n := 16%nat); [exact (eq_sym (length_replicate 16 Empty))|exact H16|].
    intros b x y Hb16 Hx Hy. apply lookup_replicate in Hy as [-> _]. destruct (Forall2_lookup_r _ _ _ _ _ Hsl Hx) as (s & Hs & Hst). apply lookup_replicate in Hs as [-> _]. exact Hst.
  - apply Z.eqb_neq in Hz. intros Hall. apply Hz, (empty_slots i Hi). apply list_eq_same_length with (n := 16%nat); [now rewrite length_replicate|rewrite (Forall2_length _ _ _ Hsl); exact H16|].
    intros b x y Hb16 Hx Hy. apply lookup_replicate in Hy as [-> _]. destruct (Forall2_lookup_l _ _ _ _ _ Hsl Hx) as (s & Hs & Hst). rewrite (Forall_lookup_1 _ _ _ _ Hall Hs) in Hst. destruct x as [[e [l'|]]|]; cbn in Hst; tauto.
Qed.

Lemma flushes_empty N h : (N <= length h)%nat -> exists n, (forall h', h' = h -> lift (E := E) (new_inner 0) h' = (Ok n, h')) /\ flushes N h (h ++ [n]) (length h) (Node no_kids) [].
Proof.
  intros HN. destruct (new_inner_ok (E := E) 0) as (i & Hnew & Hi & Hsl). eexists. split; [intros h' _; apply lift_ok, Hnew|]. split.
  - apply rests_app.
  - eapply stands_frozen; [apply list_lookup_middle; reflexivity|]. split; [cbn; lia|]. split; [intros _; apply shared_none|]. exists i. split; [reflexivity|]. split; [exact Hi|].
    split; [left; split; [reflexivity|unfold clean; now rewrite Hsl]|]. rewrite Hsl. split; [now apply Forall2_replicate|]. intros b e l' t Hb. apply lookup_replicate in Hb as [[=] _].
  - eexists. split; [apply list_lookup_middle; reflexivity|reflexivity].
  - intros s Hs. inversion Hs.
  - intros m Hm. apply lookup_app_l. lia.
  - intros m n Hm Hz. exists n. split; [now apply lookup_app_l_Some|exact Hz].
Qed.

Lemma flushes_after N h x h' l t ws : (N <= length h)%nat -> flushes N (h ++ x) h' l t ws -> flushes N h h' l t ws.
Proof.
  intros HN [A B C D F K]. split; auto; [eapply rests_trans; [apply rests_app|exact A]| |].
  - intros m Hm. rewrite F by exact Hm. apply lookup_app_l. lia.
  - intros m n Hm. apply K. now apply lookup_app_l_Some.
Qed.

Lemma flushes_walk N pre l h t n : prepares N pre -> (N <= l)%nat -> (N <= length h)%nat -> rooted t -> solid t -> frozen (G []) c h l t -> h !! l = Some n -> cowid n = o ->
  exists h' ws, walk_nodes pre (Some writer) l h = (Ok (l, length ws, ws ≫= f), h') /\ flushes N h h' l t ws.
Proof.
  intros Hpre HN HNh Hr Hsol Hf Hn Hc. destruct (walk_nodes_ok N pre Hpre t l [] h n HN HNh Hr Hsol Hn Hc Hf) as (h' & ws & Hrun & Hrest & Hw & Hz & Hin). exists h', ws. split; [exact Hrun|].
  split; [exact Hrest|apply Hrest, Hf|exact Hz|exact Hin|apply Hw|apply Hw].
Qed.

Lemma walk_subtree_ok l h t : frozen (G []) c h l t -> rooted t ->
  exists k h' l' ws, walk_subtree_impl (E := E) l o (Some writer) h = (Ok (l', k, ws ≫= f), h') /\ flushes 0 h h' l' t ws.
Proof.
  intros Hf Hr. pose proof Hf as Hf0. apply frozen_stands in Hf0 as (n & Hn & _). destruct (empty_root _ _ _ _ _ Hf Hr Hn) as (Hleaf & Hinner & Hem). unfold walk_subtree_impl.
  rewrite bool_decide_eq_true_2 by lia. unfold debug_assert. erewrite mbind_ok by reflexivity. run (read_ok (E := E) l h n Hn). destruct (decide (cowid n = 0)) as [Hz|Hz].
  { exists 0%nat, h, l, []. split; [reflexivity|]. eapply flushes_self; eauto. }
  rewrite Hleaf. destruct (is_empty n).
  - subst t. destruct (flushes_empty 0 h ltac:(lia)) as (n' & Hnew & Hfl). exists 1%nat, (h ++ [n']), (length h), []. split; [run (Hnew h eq_refl); reflexivity|exact Hfl].
  - pose proof Hr as (kids & Heq & Hsh & _). destruct (pre_flush_prepares (G []) h l n t [] ltac:(lia) Hf Hsh Hn Hz) as (l1 & x & n1 & Hpre & HN1 & Hn1 & Hc1 & _ & Hf1).
    destruct (flushes_walk 0 _ l1 (h ++ x) t n1 pre_flush_prepares ltac:(lia) ltac:(lia) Hr Hem Hf1 Hn1 Hc1) as (h' & ws & Hrun & Hfl). exists (length ws), h', l1, ws.
    split; [run Hpre; exact Hrun|]. eapply flushes_after; [lia|exact Hfl].
Qed.

(** The detached walk leaves every node there was as it was. *)
Lemma walk_detached_ok l h t : frozen (G []) c h l t -> rooted t ->
  exists k h' l' ws, try_walk_subtree_detached_impl (E := E) l o (Some writer) h = (Ok (l', k, ws ≫= f), h') /\ flushes (length h) h h' l' t ws.
Proof.
  intros Hf Hr. pose proof Hf as Hf0. apply frozen_stands in Hf0 as (n & Hn & _). unfold try_walk_subtree_detached_impl.
  rewrite bool_decide_eq_true_2 by lia. unfold debug_assert. erewrite mbind_ok by reflexivity. run (read_ok (E := E) l h n Hn). destruct (decide (cowid n = 0)) as [Hz|Hz].
  { exists 0%nat, h, l, []. split; [reflexivity|]. eapply flushes_self; eauto. }
  pose proof Hr as (kids & Heq & Hsh & _). destruct (detached_prepares (length h) (G []) h l n t [] ltac:(lia) Hf Hsh Hn Hz) as (l1 & x & n1 & Hpre & HN1 & Hn1 & Hc1 & _ & Hf1).
  run Hpre. run (read_ok (E := E) l1 (h ++ x) n1 Hn1). destruct (empty_root _ _ _ _ _ Hf1 Hr Hn1) as (Hleaf & Hinner & Hem). rewrite Hleaf. destruct (is_empty n1).
  - rewrite Hem. destruct (flushes_empty (length h) (h ++ x) ltac:(rewrite length_app; lia)) as (n' & Hnew & Hfl). eexists 1%nat, _, (length (h ++ x)), []. split; [run (Hnew (h ++ x) eq_refl); reflexivity|].
    eapply flushes_after; [lia|exact Hfl].
  - destruct (flushes_walk (length h) _ l1 (h ++ x) t n1 (detached_prepares _) HN1 ltac:(rewrite length_app; lia) Hr Hem Hf1 Hn1 Hc1) as (h' & ws & Hrun & Hfl). exists (length ws), h', l1, ws.
    split; [exact Hrun|]. eapply flushes_after; [lia|exact Hfl].
Qed.

End Owner.
End Flush.

Lemma bind_entries `{Sha512} ws : ws ≫= (fun s => [entry s]) = entry <$> ws.
Proof. induction ws as [|s ws IH]; [reflexivity|]. cbn. now rewrite <- IH. Qed.

Lemma bind_nothing {A B} (ws : list A) : ws ≫= (fun _ => []) = @nil B.
Proof. induction ws; [reflexivity|assumption]. Qed.
