(* ===== verification/ShamapCompare.v ===== *)
(** * ShamapCompare: the differences between two SHAMaps

    Models [compare] of [xrpl/shamap/src/operations/compare.rs].  Two trees are walked side
    by side with a stack of pairs of nodes, here with its top first; subtrees with one hash
    are passed over.  Each key under which the trees differ is recorded with the item of
    either side, until the number of differences that the caller accepts is reached.  The
    loops take their fuel as an argument: the weights of the two trees are enough. *)

From stdpp Require Import gmap list.
From Stdlib Require Import ZArith Lia Sorted.
From S2P Require Import Prelude Serializer ConsensusParms ShamapKey ShamapNode ShamapSlots ShamapTree ShamapHeap ShamapRepr ShamapWalk ShamapHash ShamapBinding ShamapOrder ShamapFlush ShamapMap.
Local Open Scope Z_scope.

(** ** The code *)

Abbreviation DeltaItem := (option SHAMapItem * option SHAMapItem)%type.
Abbreviation Delta := (gmap Uint256 DeltaItem).

(** Whether to go on, the differences and the number of those still accepted. *)
Abbreviation Recorded := (bool * Delta * Z)%type.

Definition record_difference {E : Type} (differences : Delta) (key : Uint256) (left right : option SHAMapItem) (max_count : Z) : outcome E Recorded :=
  let differences := match differences !! key with Some _ => differences | None => <[key := (left, right)]> differences end in
  max_count <- plain I32 (max_count - 1);;
  Ok (0 <? max_count, differences, max_count).

(** The two items with that of the first map on the left. *)
Definition sided (is_first_map : bool) (own other : option SHAMapItem) : DeltaItem := if is_first_map then (own, other) else (other, own).

Definition record_sided {E : Type} (is_first_map : bool) (differences : Delta) (key : Uint256) (own other : option SHAMapItem) (max_count : Z) : outcome E Recorded :=
  record_difference differences key (sided is_first_map own other).1 (sided is_first_map own other).2 max_count.

Section Code.
Context `{Sha512}.

Fixpoint ensure_loaded_hashes {E : Type} (fuel : nat) (node : loc) : M E unit :=
  n ← read node;
  if decide (hash n = uint256_zero) then
    if negb (is_inner n) then change node update_hash
    else
      match fuel with
      | O => lift OutOfFuel
      | S fuel =>
          for_each (seq 0 BRANCH_FACTOR) (fun branch =>
            n ← read node;
            empty ← lift (is_empty_branch n branch);
            if (empty : bool) then mret tt
            else
              child ← lift (get_child n branch);
              match child with
              | None => mret tt
              | Some child => ensure_loaded_hashes fuel child
              end);;
          update_hash_deep_in node
      end
  else mret tt.

Section Branch.
Context (backed : bool) (fetch : Fetch).

(** The children of a node, pushed one after the other. *)
Fixpoint push_children (branches : list nat) (node : loc) (node_stack : list loc) : M TraversalError (list loc) :=
  match branches with
  | [] => mret node_stack
  | branch :: branches =>
      n ← read node;
      empty ← lift (is_empty_branch n branch);
      if (empty : bool) then push_children branches node node_stack
      else
        child ← descend_throw node branch backed fetch;
        match child with
        | None => lift Panic
        | Some child => push_children branches node (child :: node_stack)
        end
  end.

Context (other_map_item : option SHAMapItem) (is_first_map : bool).

(** What is recorded for a leaf, and whether the other item has been met. *)
Definition branch_leaf (item : SHAMapItem) (empty_branch : bool) (differences : Delta) (max_count : Z) : outcome TraversalError (Recorded * bool) :=
  if empty_branch then
    r <- record_sided is_first_map differences (item_key item) (Some item) None max_count;; Ok (r, empty_branch)
  else
    other_item <- ConsensusParms.expect other_map_item;;
    if decide (item_key item = item_key other_item) then
      if decide (item_data item = item_data other_item) then Ok (true, differences, max_count, true)
      else r <- record_sided is_first_map differences (item_key item) (Some item) (Some other_item) max_count;; Ok (r, true)
    else r <- record_sided is_first_map differences (item_key item) (Some item) None max_count;; Ok (r, empty_branch).

Fixpoint branch_loop (fuel : nat) (node_stack : list loc) (empty_branch : bool) (differences : Delta) (max_count : Z) : M TraversalError Recorded :=
  match fuel, node_stack with
  | O, _ => lift OutOfFuel
  | _, [] =>
      if empty_branch then mret (true, differences, max_count)
      else
        other_item ← lift (ConsensusParms.expect other_map_item);
        lift (record_sided is_first_map differences (item_key other_item) None (Some other_item) max_count)
  | S fuel, node :: node_stack =>
      n ← read node;
      if is_inner n then
        node_stack ← push_children (seq 0 BRANCH_FACTOR) node node_stack;
        branch_loop fuel node_stack empty_branch differences max_count
      else
        item ← lift (ConsensusParms.expect (peek_item n));
        r ← lift (branch_leaf item empty_branch differences max_count);
        let '(can_continue, differences, max_count, empty_branch) := r in
        if (can_continue : bool) then branch_loop fuel node_stack empty_branch differences max_count
        else mret (false, differences, max_count)
  end.

Definition walk_branch (fuel : nat) (node : loc) (differences : Delta) (max_count : Z) : M TraversalError Recorded :=
  branch_loop fuel [node] (bool_decide (other_map_item = None)) differences max_count.

End Branch.

Section Compare.
Context (left_backed : bool) (left_fetch : Fetch) (right_backed : bool) (right_fetch : Fetch).

(** Two leaves. *)
Definition compare_leaves {E : Type} (left_item right_item : SHAMapItem) (differences : Delta) (max_count : Z) : outcome E Recorded :=
  if decide (item_key left_item = item_key right_item) then
    if decide (item_data left_item = item_data right_item) then Ok (true, differences, max_count)
    else record_difference differences (item_key left_item) (Some left_item) (Some right_item) max_count
  else
    r <- record_difference differences (item_key left_item) (Some left_item) None max_count;;
    let '(can_continue, differences, max_count) := r in
    if (can_continue : bool) then record_difference differences (item_key right_item) None (Some right_item) max_count
    else Ok (false, differences, max_count).

(** The loop over the branches of two inner nodes, with the pairs it pushes. *)
Fixpoint compare_branches (fuel : nat) (branches : list nat) (left right : loc) (stack : list (loc * loc)) (differences : Delta) (max_count : Z)
    : M TraversalError (Recorded * list (loc * loc)) :=
  match branches with
  | [] => mret (true, differences, max_count, stack)
  | branch :: branches =>
      l ← read left; r ← read right;
      left_hash ← lift (get_child_hash l branch);
      right_hash ← lift (get_child_hash r branch);
      if decide (left_hash = right_hash) then compare_branches fuel branches left right stack differences max_count
      else
        right_empty ← lift (is_empty_branch r branch);
        if (right_empty : bool) then
          left_child ← descend_throw left branch left_backed left_fetch;
          left_child ← lift (ConsensusParms.expect left_child);
          r ← walk_branch left_backed left_fetch None true fuel left_child differences max_count;
          let '(can_continue, differences, max_count) := r in
          if (can_continue : bool) then compare_branches fuel branches left right stack differences max_count
          else mret (false, differences, max_count, stack)
        else
          left_empty ← lift (is_empty_branch l branch);
          if (left_empty : bool) then
            right_child ← descend_throw right branch right_backed right_fetch;
            right_child ← lift (ConsensusParms.expect right_child);
            r ← walk_branch right_backed right_fetch None false fuel right_child differences max_count;
            let '(can_continue, differences, max_count) := r in
            if (can_continue : bool) then compare_branches fuel branches left right stack differences max_count
            else mret (false, differences, max_count, stack)
          else
            left_child ← descend_throw left branch left_backed left_fetch;
            left_child ← lift (ConsensusParms.expect left_child);
            right_child ← descend_throw right branch right_backed right_fetch;
            right_child ← lift (ConsensusParms.expect right_child);
            compare_branches fuel branches left right ((left_child, right_child) :: stack) differences max_count
  end.

(** What a pair of nodes comes to, with the pairs it leaves on the stack. *)
Definition compare_pair (fuel : nat) (left right : loc) (stack : list (loc * loc)) (differences : Delta) (max_count : Z)
    : M TraversalError (Recorded * list (loc * loc)) :=
  l ← read left; r ← read right;
  if is_leaf l && is_leaf r then
    left_item ← lift (ConsensusParms.expect (peek_item l));
    right_item ← lift (ConsensusParms.expect (peek_item r));
    x ← lift (compare_leaves left_item right_item differences max_count); mret (x, stack)
  else if is_inner l && is_leaf r then
    right_item ← lift (ConsensusParms.expect (peek_item r));
    x ← walk_branch left_backed left_fetch (Some right_item) true fuel left differences max_count; mret (x, stack)
  else if is_leaf l && is_inner r then
    left_item ← lift (ConsensusParms.expect (peek_item l));
    x ← walk_branch right_backed right_fetch (Some left_item) false fuel right differences max_count; mret (x, stack)
  else compare_branches fuel (seq 0 BRANCH_FACTOR) left right stack differences max_count.

Fixpoint compare_loop (fuel : nat) (stack : list (loc * loc)) (differences : Delta) (max_count : Z) : M TraversalError Recorded :=
  match fuel, stack with
  | O, _ => lift OutOfFuel
  | _, [] => mret (true, differences, max_count)
  | S fuel, (left_node, right_node) :: stack =>
      r ← compare_pair fuel left_node right_node stack differences max_count;
      let '(can_continue, differences, max_count, stack) := r in
      if (can_continue : bool) then compare_loop fuel stack differences max_count
      else mret (false, differences, max_count)
  end.

(** The answer and the differences; on an error those found so far are not returned. *)
Definition compare (fuel : nat) (left_root right_root : loc) (differences : Delta) (max_count : Z) : M TraversalError (bool * Delta) :=
  ensure_loaded_hashes LEVELS left_root;;
  ensure_loaded_hashes LEVELS right_root;;
  l ← read left_root; r ← read right_root;
  if decide (hash l = hash r) then mret (true, differences)
  else x ← compare_loop fuel [(left_root, right_root)] differences max_count; mret (x.1.1, x.1.2).

End Compare.
End Code.

(** ** What is recorded *)

Definition add_new (d : Delta) (k : Uint256) (lr : DeltaItem) : Delta := match d !! k with Some _ => d | None => <[k := lr]> d end.

(** Differences recorded in turn, until no more are accepted. *)
Fixpoint records (ds : list (Uint256 * DeltaItem)) (d : Delta) (n : Z) : Recorded :=
  match ds with
  | [] => (true, d, n)
  | (k, lr) :: ds => if 0 <? n - 1 then records ds (add_new d k lr) (n - 1) else (false, add_new d k lr, n - 1)
  end.

Definition countable (n : Z) : Prop := 1 <= n <= max_of I32.

Lemma record_ok {E : Type} d k l r n : countable n -> record_difference (E := E) d k l r n = Ok (0 <? n - 1, add_new d k (l, r), n - 1).
Proof. intros [H1 H2]. unfold record_difference. rewrite plain_ok; [reflexivity|]. cbn in *. lia. Qed.

Lemma sided_ok {E : Type} first d k own other n : countable n -> record_sided (E := E) first d k own other n = Ok (0 <? n - 1, add_new d k (sided first own other), n - 1).
Proof. intros Hn. unfold record_sided. rewrite record_ok by exact Hn. now destruct first. Qed.

Lemma records_app ds1 : forall ds2 d n, records (ds1 ++ ds2) d n = let '(go, d, n) := records ds1 d n in if (go : bool) then records ds2 d n else (false, d, n).
Proof. induction ds1 as [|[k lr] ds1 IH]; intros ds2 d n; cbn [records app]; [reflexivity|]. destruct (0 <? n - 1); [apply IH|reflexivity]. Qed.

Lemma records_count ds : forall d n d' n', countable n -> records ds d n = (true, d', n') -> countable n'.
Proof.
  induction ds as [|[k lr] ds IH]; intros d n d' n' Hn; cbn [records]; [now intros [= _ <-]|]. destruct (Z.ltb_spec 0 (n - 1)); [|discriminate]. apply IH. unfold countable in *. lia.
Qed.

(** As many differences as fit are recorded. *)
Lemma records_map ds : forall d n, countable n -> NoDup ds.*1 -> (forall k, k ∈ ds.*1 -> d !! k = None) ->
  exists n', records ds d n = (bool_decide (Z.of_nat (length ds) < n), list_to_map (take (Z.to_nat n) ds) ∪ d, n').
Proof.
  induction ds as [|[k lr] ds IH]; intros d n Hn Hnd Hnew; cbn [records].
  - exists n. rewrite bool_decide_eq_true_2 by (cbn; unfold countable in Hn; lia). rewrite take_nil. cbn. now rewrite (left_id_L ∅ (∪)).
  - rewrite fmap_cons in Hnd. apply NoDup_cons in Hnd as [Hk Hnd]. cbn [fst] in Hk. assert (add_new d k lr = <[k := lr]> d) as -> by (unfold add_new; now rewrite (Hnew k) by left).
    destruct (Z.to_nat n) as [|j] eqn:Hj; [unfold countable in Hn; lia|]. cbn [take list_to_map]. unfold countable in Hn.
    assert (forall l : list (Uint256 * DeltaItem), l ⊆ ds -> list_to_map l ∪ <[k := lr]> d = <[k := lr]> (list_to_map l) ∪ d) as Hins.
    { intros l Hl. rewrite <- insert_union_r by (apply not_elem_of_list_to_map_1; intros Hin; apply Hk; apply list_elem_of_fmap in Hin as (y & -> & Hy); apply list_elem_of_fmap_2, Hl, Hy). now rewrite insert_union_l. }
    destruct (Z.ltb_spec 0 (n - 1)).
    + destruct (IH (<[k := lr]> d) (n - 1) ltac:(unfold countable; lia) Hnd) as (n' & ->).
      { intros k' Hk'. rewrite lookup_insert_ne by congruence. apply Hnew. now right. }
      exists n'. replace (Z.to_nat (n - 1)) with j by lia. f_equal. rewrite Hins by (intros x Hx; eapply subseteq_take, Hx). f_equal. apply bool_decide_ext. cbn [length]. lia.
    + exists (n - 1). assert (j = 0%nat) as -> by lia. rewrite take_0, bool_decide_eq_false_2 by (cbn [length]; lia). cbn. now rewrite <- insert_union_l, (left_id_L ∅ (∪)).
Qed.

(** ** One tree against an item *)

Fixpoint branch_diffs (first : bool) (other : option SHAMapItem) (met : bool) (l : list SHAMapItem) : list (Uint256 * DeltaItem) :=
  match l with
  | [] => match other with Some o => if met then [] else [(item_key o, sided first None (Some o))] | None => [] end
  | x :: l =>
      match other with
      | Some o =>
          if met then (item_key x, sided first (Some x) None) :: branch_diffs first other met l
          else if decide (item_key x = item_key o) then
            if decide (item_data x = item_data o) then branch_diffs first other true l
            else (item_key x, sided first (Some x) (Some o)) :: branch_diffs first other true l
          else (item_key x, sided first (Some x) None) :: branch_diffs first other met l
      | None => (item_key x, sided first (Some x) None) :: branch_diffs first other met l
      end
  end.

Definition met_ok (other : option SHAMapItem) (met : bool) : Prop := other = None -> met = true.

Lemma branch_leaf_ok other first x met d n : countable n -> met_ok other met -> exists go d' n' met', branch_leaf other first x met d n = Ok (go, d', n', met') /\
  met_ok other met' /\ (go = true -> countable n') /\
  forall l, records (branch_diffs first other met (x :: l)) d n = if (go : bool) then records (branch_diffs first other met' l) d' n' else (false, d', n').
Proof.
  intros Hn Hmet. unfold branch_leaf. assert (0 <? n - 1 = true -> countable (n - 1)) as Hnext by (intros Hlt%Z.ltb_lt; unfold countable in *; lia).
  destruct met.
  - rewrite sided_ok by exact Hn. cbn [bind]. do 4 eexists. split; [reflexivity|]. split; [exact Hmet|]. split; [exact Hnext|]. intros l. cbn [branch_diffs]. now destruct other.
  - destruct other as [o|]; [|now discriminate (Hmet eq_refl)]. cbn [ConsensusParms.expect bind branch_diffs].
    destruct (decide (item_key x = item_key o)); [destruct (decide (item_data x = item_data o))|]; rewrite ?sided_ok by exact Hn; cbn [bind]; do 4 eexists; (split; [reflexivity|]); (split; [easy|]); (split; [auto|]); reflexivity.
Qed.

(** The items of a tree in the order in which a stack of nodes meets them. *)
Definition met_items (t : stree) : list SHAMapItem := snd <$> items false t.

Definition filled (l : list stree) : list stree := filter (fun t => t <> Empty) l.

Lemma filled_items ts : concat (map met_items (rev (filled ts))) = snd <$> rev (concat (map leaves ts)).
Proof.
  induction ts as [|t ts IH]; [reflexivity|]. unfold filled in *. cbn [map concat]. rewrite rev_app_distr, fmap_app, <- IH. destruct (decide (t = Empty)) as [->|Ht].
  - rewrite filter_cons_False by tauto. cbn. now rewrite app_nil_r.
  - rewrite filter_cons_True by exact Ht. cbn [rev]. rewrite map_app, concat_app. cbn. now rewrite app_nil_r.
Qed.

Definition weights (ts : list stree) : nat := list_sum (map weight ts).

Lemma weights_cons t ts : weights (t :: ts) = (weight t + weights ts)%nat.
Proof. reflexivity. Qed.

Lemma weights_app ts ts' : weights (ts ++ ts') = (weights ts + weights ts')%nat.
Proof. unfold weights. now rewrite map_app, list_sum_app. Qed.

Lemma weight_node kids : weight (Node kids) = S (weights kids).
Proof. reflexivity. Qed.

Lemma filled_weights ts : (weights (rev (filled ts)) <= weights ts)%nat.
Proof.
  induction ts as [|t ts IH]; [reflexivity|]. unfold filled in *. rewrite weights_cons. destruct (decide (t = Empty)) as [->|Ht].
  - rewrite filter_cons_False by tauto. lia.
  - rewrite filter_cons_True by exact Ht. cbn [rev]. rewrite weights_app, weights_cons. change (weights []) with 0%nat. lia.
Qed.

Lemma kids_seq (kids : list stree) : kid kids <$> seq 0 (length kids) = kids.
Proof.
  apply list_eq. intros b. rewrite list_lookup_fmap. destruct (decide (b < length kids)%nat) as [Hb|Hb].
  - rewrite lookup_seq_lt by exact Hb. cbn. unfold kid. now destruct (lookup_lt_is_Some_2 kids b Hb) as [t ->].
  - rewrite lookup_seq_ge, lookup_ge_None_2 by lia. reflexivity.
Qed.

Section Walk.
Context `{Sha512} (store : ghost).

Section One.
Context (backed : bool) (fetch : Fetch) (Hfetch : fetch_ok store backed fetch).

Lemma stand_keeps h h' stack ts : keeps store 1 h h' -> Forall2 (frozen store 1 h) stack ts -> Forall2 (frozen store 1 h') stack ts.
Proof. intros Hk Hst. apply (Forall2_impl _ _ _ _ Hst). intros l t. now apply frozen_keeps. Qed.

(** The child on a branch that is not empty. *)
Lemma child_step h l kids b : frozen store 1 h l (Node kids) -> (b < length kids)%nat -> kid kids b <> Empty ->
  exists l' h', descend_throw l b backed fetch h = (Ok (Some l'), h') /\ frozen store 1 h' l' (kid kids b) /\ keeps store 1 h h'.
Proof.
  intros Hf Hb Hk. apply (frozen_down store 1 ltac:(lia) backed fetch Hfetch h l kids b); [exact Hf| |exact Hk]. unfold kid. now destruct (lookup_lt_is_Some_2 kids b Hb) as [t ->].
Qed.

Lemma push_children_ok l kids bs : forall h stack ts, frozen store 1 h l (Node kids) -> length kids = 16%nat -> (forall b, b ∈ bs -> (b < 16)%nat) -> Forall2 (frozen store 1 h) stack ts ->
  exists stack' h', push_children backed fetch bs l stack h = (Ok stack', h') /\ keeps store 1 h h' /\ Forall2 (frozen store 1 h') stack' (rev (filled (kid kids <$> bs)) ++ ts).
Proof.
  induction bs as [|b bs IH]; intros h stack ts Hf Hl Hbs Hst; cbn [push_children].
  { exists stack, h. split; [reflexivity|]. split; [apply keeps_refl|exact Hst]. }
  pose proof (Hbs b ltac:(left)) as Hb. destruct (frozen_branch store 1 (E := TraversalError) h l kids b Hf Hb) as (n & Hn & He).
  run (read_ok (E := TraversalError) l h n Hn). run (lift_ok _ _ h He). rewrite fmap_cons. unfold filled. case_bool_decide as Hk.
  - rewrite filter_cons_False by tauto. apply IH; auto. intros b' Hb'. apply Hbs. now right.
  - destruct (child_step h l kids b Hf ltac:(lia) Hk) as (l' & h1 & Hd & Hf' & Hkeep). run Hd. rewrite filter_cons_True by exact Hk. cbn [rev]. rewrite <- app_assoc.
    destruct (IH h1 (l' :: stack) (kid kids b :: ts)) as (stack' & h' & Hr & Hk' & Hst'); [eapply frozen_keeps; eauto|exact Hl|intros b' Hb'; apply Hbs; now right|constructor; [exact Hf'|eapply stand_keeps; eauto]|].
    exists stack', h'. split; [exact Hr|]. split; [eapply keeps_trans; eauto|exact Hst'].
Qed.

Lemma branch_loop_ok other first fuel : forall stack ts met d n h, Forall2 (frozen store 1 h) stack ts -> Forall (fun t => exists p, shaped p t) ts -> (weights ts < fuel)%nat -> countable n -> met_ok other met ->
  exists h', branch_loop backed fetch other first fuel stack met d n h = (Ok (records (branch_diffs first other met (concat (map met_items ts))) d n), h') /\ keeps store 1 h h'.
Proof.
  induction fuel as [|fuel IH]; intros stack ts met d n h Hst Hsh Hw Hn Hmet; [lia|]. destruct Hst as [|l t stack ts Hf Hst]; cbn [branch_loop].
  { exists h. split; [|apply keeps_refl]. cbn [map concat branch_diffs]. destruct met; [now destruct other|]. destruct other as [o|]; [|discriminate (Hmet eq_refl)]. cbn [ConsensusParms.expect].
    run (lift_ok (E := TraversalError) _ _ h (eq_refl (Ok o))). unfold lift. rewrite sided_ok by exact Hn. cbn [records]. now destruct (0 <? n - 1). }
  apply Forall_cons in Hsh as [[p Hp] Hsh]. rewrite weights_cons in Hw. destruct (frozen_read store 1 h l t Hf) as (nd & Hnd & Hleaf & Hpeek). run (read_ok (E := TraversalError) l h nd Hnd).
  unfold is_leaf in Hleaf. destruct t as [|ty it|kids]; [inversion Hf| |].
  - destruct (is_inner nd); [discriminate|]. rewrite Hpeek. cbn [ConsensusParms.expect]. run (lift_ok (E := TraversalError) _ _ h (eq_refl (Ok it))).
    destruct (branch_leaf_ok other first it met d n Hn Hmet) as (go & d' & n' & met' & Hbl & Hmet' & Hn' & Hrec). run (lift_ok _ _ h Hbl). cbn [map concat]. change (met_items (Leaf ty it)) with [it]. cbn [app]. rewrite Hrec.
    destruct go; [|exists h; split; [reflexivity|apply keeps_refl]]. apply IH; auto. change (weight (Leaf ty it)) with 1%nat in Hw. lia.
  - destruct (is_inner nd); [|discriminate]. inversion Hp as [| |? ? _ _ H16 Hk]; subst.
    destruct (push_children_ok l kids (seq 0 BRANCH_FACTOR) h stack ts Hf H16) as (stack' & h1 & Hpush & Hk1 & Hst1); [intros b Hb; now apply elem_of_seq in Hb|exact Hst|].
    run Hpush. change BRANCH_FACTOR with 16%nat in Hst1. rewrite <- H16, kids_seq in Hst1. pose proof (filled_weights kids) as Hfw. rewrite weight_node in Hw.
    destruct (IH stack' _ met d n h1 Hst1) as (h' & Hr & Hk'); [|rewrite weights_app; lia|exact Hn|exact Hmet|].
    + apply Forall_app. split; [|exact Hsh]. apply Forall_rev, Forall_forall. intros t Ht. apply list_elem_of_filter in Ht as [_ Ht]. apply list_elem_of_lookup in Ht as [b Hb]. eauto.
    + exists h'. split; [|eapply keeps_trans; eauto]. rewrite Hr. rewrite map_app, concat_app, filled_items. reflexivity.
Qed.

Lemma walk_branch_ok other first fuel l t p d n h : frozen store 1 h l t -> shaped p t -> (weight t < fuel)%nat -> countable n ->
  exists h', walk_branch backed fetch other first fuel l d n h = (Ok (records (branch_diffs first other (bool_decide (other = None)) (met_items t)) d n), h') /\ keeps store 1 h h'.
Proof.
  intros Hf Hp Hw Hn. destruct (branch_loop_ok other first fuel [l] [t] (bool_decide (other = None)) d n h) as (h' & Hr & Hk); [now repeat constructor|repeat constructor; eauto|rewrite weights_cons; change (weights []) with 0%nat; lia|exact Hn|now intros ->|].
  exists h'. split; [|exact Hk]. cbn [map concat] in Hr. rewrite app_nil_r in Hr. exact Hr.
Qed.

End One.
End Walk.

(** ** Two trees *)

Definition leaf_diffs (x y : SHAMapItem) : list (Uint256 * DeltaItem) :=
  if decide (item_key x = item_key y) then
    if decide (item_data x = item_data y) then [] else [(item_key x, (Some x, Some y))]
  else [(item_key x, (Some x, None)); (item_key y, (None, Some y))].

(** Subtrees on one side alone are walked at once, pairs later and the last one first. *)
Definition arrange (rows : list (bool * list (Uint256 * DeltaItem))) : list (Uint256 * DeltaItem) :=
  concat (map (fun r : bool * _ => if r.1 then [] else r.2) rows) ++ concat (rev (map (fun r : bool * _ => if r.1 then r.2 else []) rows)).

Definition both (t t' : stree) : bool := bool_decide (t <> Empty /\ t' <> Empty).

(** The differences in the order in which they are recorded. *)
Fixpoint diffs (t t' : stree) : list (Uint256 * DeltaItem) :=
  match t, t' with
  | _, Empty => branch_diffs true None true (met_items t)
  | Empty, _ => branch_diffs false None true (met_items t')
  | Leaf _ x, Leaf _ y => leaf_diffs x y
  | Node _, Leaf _ y => branch_diffs true (Some y) false (met_items t)
  | Leaf _ x, Node _ => branch_diffs false (Some x) false (met_items t')
  | Node kids, Node kids' => arrange (zip_with (fun (k : stree * (stree -> list (Uint256 * DeltaItem))) t' => (both k.1 t', k.2 t')) (map (fun t => (t, diffs t)) kids) kids')
  end.

Definition row (kids kids' : list stree) (b : nat) : bool * list (Uint256 * DeltaItem) := (both (kid kids b) (kid kids' b), diffs (kid kids b) (kid kids' b)).

Lemma diffs_node kids kids' : length kids = length kids' -> diffs (Node kids) (Node kids') = arrange (map (row kids kids') (seq 0 (length kids))).
Proof.
  intros Hl. cbn [diffs]. f_equal. apply list_eq. intros b. change (map (row kids kids')) with (fmap (M := list) (row kids kids')). rewrite list_lookup_fmap, lookup_zip_with.
  change (map (fun t => (t, diffs t))) with (fmap (M := list) (fun t => (t, diffs t))). rewrite list_lookup_fmap. destruct (decide (b < length kids)%nat) as [Hb|Hb].
  - rewrite lookup_seq_lt by exact Hb. rewrite Nat.add_0_l. unfold row, kid. cbn. destruct (lookup_lt_is_Some_2 kids b Hb) as [t Ht]. destruct (lookup_lt_is_Some_2 kids' b ltac:(lia)) as [t' Ht']. now rewrite Ht, Ht'.
  - rewrite lookup_seq_ge by lia. now rewrite (lookup_ge_None_2 kids) by lia.
Qed.

Lemma concat_nils {A B} (f : A -> list B) l : (forall x, x ∈ l -> f x = []) -> concat (map f l) = [].
Proof. intros Hf. apply concat_nil_Forall, Forall_fmap, Forall_forall. exact Hf. Qed.

(** A tree does not differ from itself. *)
Lemma diffs_refl t : diffs t t = [].
Proof.
  induction t as [|ty it|kids IH] using stree_ind'; [reflexivity|cbn; unfold leaf_diffs; now rewrite !decide_True|]. rewrite diffs_node by reflexivity.
  assert (forall b, (row kids kids b).2 = []) as Hrow.
  { intros b. unfold row, kid. cbn [snd]. destruct (kids !! b) as [t|] eqn:Hb; [|reflexivity]. cbn. rewrite Forall_forall in IH. eapply IH, list_elem_of_lookup_2, Hb. }
  unfold arrange. rewrite <- map_rev, !map_map, <- map_rev, map_map, !concat_nils; [reflexivity| |]; intros b _; rewrite Hrow; now destruct (row kids kids b).1.
Qed.

(** *** Trees that can be compared *)

Section Comparable.
Context `{Sha512} (Hlen : forall text, length (sha512 text) = 64%nat).

Record wellformed (p : list nat) (t : stree) : Prop := {
  wf_shaped : shaped p t;
  wf_compact kids : t = Node kids -> forall s, s ∈ kids -> compact s;
  wf_named x : x ∈ leaves t -> named x
}.

(** The hash function does not fail on the texts of the trees. *)
Definition comparable (p : list nat) (t t' : stree) : Prop := wellformed p t /\ wellformed p t' /\ ~ broken (texts t ++ texts t').

Lemma kid_at (kids : list stree) b : (b < length kids)%nat -> kids !! b = Some (kid kids b).
Proof. intros Hb. unfold kid. now destruct (lookup_lt_is_Some_2 kids b Hb) as [t ->]. Qed.

Lemma wellformed_kid p kids b : wellformed p (Node kids) -> (b < 16)%nat -> wellformed (p ++ [b]) (kid kids b) /\ compact (kid kids b) /\ texts (kid kids b) ⊆ texts (Node kids) /\ length kids = 16%nat.
Proof.
  intros [Hs Hc Hn] Hb. inversion Hs as [| |? ? _ _ H16 Hk]; subst. pose proof (kid_at kids b ltac:(lia)) as Hkb. pose proof (list_elem_of_lookup_2 _ _ _ Hkb) as Hin. pose proof (Hc kids eq_refl _ Hin) as Hcb.
  split; [|split; [exact Hcb|split; [now apply kid_texts|exact H16]]]. split; [auto| |].
  - intros ks Heq s Hs'. rewrite Heq in Hcb. inversion Hcb; auto.
  - intros x Hx. apply Hn, leaves_node_elem. eauto.
Qed.

Lemma comparable_kid p kids kids' b : comparable p (Node kids) (Node kids') -> (b < 16)%nat ->
  comparable (p ++ [b]) (kid kids b) (kid kids' b) /\ (merkle (kid kids b) = merkle (kid kids' b) -> kid kids b = kid kids' b).
Proof.
  intros (Hw & Hw' & Hb) Hlt. destruct (wellformed_kid p kids b Hw Hlt) as (Wk & Ck & Tk & _). destruct (wellformed_kid p kids' b Hw' Hlt) as (Wk' & Ck' & Tk' & _).
  assert (~ broken (texts (kid kids b) ++ texts (kid kids' b))) as Hnb.
  { intros Hbr. apply Hb. eapply broken_mono; [|exact Hbr]. intros x Hx. apply elem_of_app in Hx as [Hx|Hx]; apply elem_of_app; auto. }
  split; [split; [exact Wk|split; [exact Wk'|exact Hnb]]|]. intros He.
  destruct (merkle_inj Hlen (kid kids b) (p ++ [b]) (p ++ [b]) (kid kids' b) (wf_shaped _ _ Wk) (wf_shaped _ _ Wk') Ck Ck' (wf_named _ _ Wk) (wf_named _ _ Wk') He); [assumption|contradiction].
Qed.

End Comparable.

(** *** The loops *)

Section Loops.
Context `{Sha512} (Hlen : forall text, length (sha512 text) = 64%nat) (store : ghost).
Context (lb : bool) (lf : Fetch) (Hlf : fetch_ok store lb lf) (rb : bool) (rf : Fetch) (Hrf : fetch_ok store rb rf).

Lemma shared_branch h l kids b : frozen store 1 h l (Node kids) -> (b < 16)%nat ->
  exists n, h !! l = Some n /\ get_child_hash (E := TraversalError) n b = Ok (merkle (kid kids b)) /\ is_empty_branch (E := TraversalError) n b = Ok (bool_decide (kid kids b = Empty)).
Proof.
  intros Hf Hb. destruct (frozen_branch store 1 (E := TraversalError) h l kids b Hf Hb) as (n & Hn & He). exists n. split; [exact Hn|]. split; [|exact He].
  inversion Hf as [|? m i ? Hm Hcm Hbd Hi Hh Hsl Hk]; subst. assert (m = n) as -> by congruence. destruct (lookup_lt_is_Some_2 (slots i) b) as [s Hs]; [rewrite slots_length; exact Hb|].
  rewrite (get_child_hash_slots (E := TraversalError) n i Hbd Hi b s Hs). f_equal. destruct Hh as [[_ Hcl]|[_ Hz]]; [|lia]. unfold clean in Hcl. apply (f_equal (fun l => l !! b)) in Hcl.
  rewrite !list_lookup_fmap, Hs in Hcl. unfold kid. destruct (kids !! b) as [t|]; [|discriminate]. now injection Hcl.
Qed.

Definition stand (h : heap) (x : loc * loc) (y : stree * stree) : Prop := frozen store 1 h x.1 y.1 /\ frozen store 1 h x.2 y.2.

Lemma pairs_keeps h h' stack ys : keeps store 1 h h' -> Forall2 (stand h) stack ys -> Forall2 (stand h') stack ys.
Proof. intros Hk Hst. apply (Forall2_impl _ _ _ _ Hst). intros x y [Hx Hy]. split; eapply frozen_keeps; eauto. Qed.

Definition pair_diffs (y : stree * stree) : list (Uint256 * DeltaItem) := diffs y.1 y.2.
Definition pairs_weight (ys : list (stree * stree)) : nat := (weights ys.*1 + weights ys.*2)%nat.
Definition ready (y : stree * stree) : Prop := exists p, comparable p y.1 y.2.

Definition at_once (kids kids' : list stree) (bs : list nat) : list (Uint256 * DeltaItem) := concat (map (fun b => if (row kids kids' b).1 then [] else (row kids kids' b).2) bs).
Definition later (kids kids' : list stree) (bs : list nat) : list (Uint256 * DeltaItem) := concat (rev (map (fun b => if (row kids kids' b).1 then (row kids kids' b).2 else []) bs)).

Lemma arrange_rows kids kids' bs : arrange (map (row kids kids') bs) = at_once kids kids' bs ++ later kids kids' bs.
Proof. unfold arrange, at_once, later. now rewrite !map_map. Qed.

Lemma diffs_right t : diffs t Empty = branch_diffs true None true (met_items t).
Proof. now destruct t. Qed.

Lemma diffs_left t : diffs Empty t = branch_diffs false None true (met_items t).
Proof. now destruct t. Qed.

Lemma weights_kid kids b : (b < length kids)%nat -> (weight (kid kids b) <= weights kids)%nat.
Proof. intros Hb. pose proof (weight_kid kids (kid kids b) (list_elem_of_lookup_2 _ _ _ (kid_at kids b Hb))) as Hw. rewrite weight_node in Hw. lia. Qed.

Lemma at_once_cons kids kids' b bs : at_once kids kids' (b :: bs) = (if (row kids kids' b).1 then [] else (row kids kids' b).2) ++ at_once kids kids' bs.
Proof. reflexivity. Qed.

Lemma later_cons kids kids' b bs : later kids kids' (b :: bs) = later kids kids' bs ++ (if (row kids kids' b).1 then (row kids kids' b).2 else []).
Proof. unfold later. cbn [map rev]. rewrite concat_app. cbn [concat]. now rewrite app_nil_r. Qed.

Section Branches.
Context (p : list nat) (kids kids' : list stree) (Hcmp : comparable p (Node kids) (Node kids')) (l r : loc) (fuel : nat) (Hfuel : (weights kids < fuel)%nat) (Hfuel' : (weights kids' < fuel)%nat).

Local Abbreviation run_branches bs := (compare_branches lb lf rb rf fuel bs l r).

(** The rest of the loop after a branch with two hashes. *)
Definition branch_rest (b : nat) (bs : list nat) (nl nr : SHAMapTreeNode) (stack : list (loc * loc)) (d : Delta) (n : Z) : M TraversalError (Recorded * list (loc * loc)) :=
  right_empty ← lift (is_empty_branch nr b);
  if (right_empty : bool) then
    child ← descend_throw l b lb lf; child ← lift (ConsensusParms.expect child); x ← walk_branch lb lf None true fuel child d n;
    let '(go, d, n) := x in if (go : bool) then run_branches bs stack d n else mret (false, d, n, stack)
  else
    left_empty ← lift (is_empty_branch nl b);
    if (left_empty : bool) then
      child ← descend_throw r b rb rf; child ← lift (ConsensusParms.expect child); x ← walk_branch rb rf None false fuel child d n;
      let '(go, d, n) := x in if (go : bool) then run_branches bs stack d n else mret (false, d, n, stack)
    else
      left_child ← descend_throw l b lb lf; left_child ← lift (ConsensusParms.expect left_child);
      right_child ← descend_throw r b rb rf; right_child ← lift (ConsensusParms.expect right_child);
      run_branches bs ((left_child, right_child) :: stack) d n.

(** What the loop over the branches [bs] comes to. *)
Definition branches_done (bs : list nat) (h : heap) (stack : list (loc * loc)) (ys : list (stree * stree)) (d : Delta) (n : Z) : Prop :=
  exists go d' n' stack' h', run_branches bs stack d n h = (Ok (go, d', n', stack'), h') /\ keeps store 1 h h' /\ records (at_once kids kids' bs) d n = (go, d', n') /\
    (go = true -> exists new, Forall2 (stand h') stack' (new ++ ys) /\ Forall ready new /\ concat (map pair_diffs new) = later kids kids' bs /\
      (pairs_weight new <= weights (kid kids <$> bs) + weights (kid kids' <$> bs))%nat).

Lemma branches_skip (b : nat) (bs : list nat) (h h1 : heap) (stack : list (loc * loc)) (ys : list (stree * stree)) (d : Delta) (n : Z) (d1 : Delta) (n1 : Z) : keeps store 1 h h1 -> run_branches (b :: bs) stack d n h = run_branches bs stack d1 n1 h1 ->
  records (if (row kids kids' b).1 then [] else (row kids kids' b).2) d n = (true, d1, n1) -> ((row kids kids' b).1 = true -> (row kids kids' b).2 = []) ->
  branches_done bs h1 stack ys d1 n1 -> branches_done (b :: bs) h stack ys d n.
Proof.
  intros Hk Hrun Hrec Hnil (go & d' & n' & stack' & h' & Hr & Hk' & Hrec' & Hgo). exists go, d', n', stack', h'. split; [congruence|]. split; [eapply keeps_trans; eauto|]. split; [now rewrite at_once_cons, records_app, Hrec|].
  intros Hg. destruct (Hgo Hg) as (new & Hst & Hready & Hlater & Hw). exists new. split; [exact Hst|]. split; [exact Hready|]. split; [|rewrite !fmap_cons, !weights_cons; lia].
  rewrite later_cons, Hlater. destruct (row kids kids' b).1; [rewrite Hnil by reflexivity|]; now rewrite app_nil_r.
Qed.

(** A subtree on one side alone. *)
Lemma branches_walk (b : nat) (bs : list nat) (h h1 : heap) (stack : list (loc * loc)) (ys : list (stree * stree)) (d : Delta) (n : Z) (x : Recorded) : keeps store 1 h h1 -> (row kids kids' b).1 = false -> x = records (row kids kids' b).2 d n -> countable n ->
  run_branches (b :: bs) stack d n h = (let '(go, d, n) := x in if (go : bool) then run_branches bs stack d n else mret (false, d, n, stack)) h1 ->
  (forall d1 n1, countable n1 -> branches_done bs h1 stack ys d1 n1) -> branches_done (b :: bs) h stack ys d n.
Proof.
  intros Hk Hrow Hx Hn Hrun Hrest. destruct x as [[go d1] n1]. destruct go.
  - eapply branches_skip; [exact Hk|exact Hrun| |congruence|apply Hrest]; [now rewrite Hrow|]. eapply records_count; [exact Hn|symmetry; exact Hx].
  - exists false, d1, n1, stack, h1. split; [exact Hrun|]. split; [exact Hk|]. split; [|discriminate]. now rewrite at_once_cons, Hrow, records_app, <- Hx.
Qed.

Lemma compare_branches_ok bs : forall h stack ys d n, frozen store 1 h l (Node kids) -> frozen store 1 h r (Node kids') -> (forall b, b ∈ bs -> (b < 16)%nat) -> countable n -> Forall2 (stand h) stack ys ->
  branches_done bs h stack ys d n.
Proof.
  induction bs as [|b bs IH]; intros h stack ys d n Hl Hr Hbs Hn Hst.
  { exists true, d, n, stack, h. split; [reflexivity|]. split; [apply keeps_refl|]. split; [reflexivity|]. intros _. exists []. repeat split; auto. }
  pose proof (Hbs b ltac:(left)) as Hb. assert (forall b, b ∈ bs -> (b < 16)%nat) as Hbs' by (intros b' Hb'; apply Hbs; now right).
  assert (forall h1, keeps store 1 h h1 -> forall d1 n1, countable n1 -> branches_done bs h1 stack ys d1 n1) as IH1.
  { intros h1 Hk d1 n1 Hn1. apply IH; auto; try (eapply frozen_keeps; eauto). eapply pairs_keeps; eauto. }
  destruct (comparable_kid Hlen p kids kids' b Hcmp Hb) as [Hck Heq]. destruct Hcmp as (Hw & Hw' & _).
  destruct (wellformed_kid p kids b Hw Hb) as (Wk & _ & _ & H16). destruct (wellformed_kid p kids' b Hw' Hb) as (Wk' & _ & _ & H16').
  destruct (shared_branch h l kids b Hl Hb) as (nl & Hnl & Hhl & Hel). destruct (shared_branch h r kids' b Hr Hb) as (nr & Hnr & Hhr & Her).
  pose proof (weights_kid kids b ltac:(lia)) as Hwk. pose proof (weights_kid kids' b ltac:(lia)) as Hwk'.
  assert (forall b' bs' stack d n, b' = b -> run_branches (b' :: bs') stack d n h = (if decide (merkle (kid kids b) = merkle (kid kids' b)) then run_branches bs' stack d n else branch_rest b bs' nl nr stack d n) h) as Hhead.
  { intros b' bs' s0 d0 n0 ->. cbn [compare_branches]. run (read_ok (E := TraversalError) l h nl Hnl). run (read_ok (E := TraversalError) r h nr Hnr). run (lift_ok _ _ h Hhl). run (lift_ok _ _ h Hhr). reflexivity. }
  destruct (decide (merkle (kid kids b) = merkle (kid kids' b))) as [Hm|Hm].
  { apply Heq in Hm. assert (diffs (kid kids b) (kid kids' b) = []) as Hnil by (rewrite Hm; apply diffs_refl). apply (branches_skip b bs h h stack ys d n d n); [apply keeps_refl|now apply Hhead| | |now apply IH1; [apply keeps_refl|]].
    - unfold row. cbn [fst snd]. rewrite Hnil. now destruct (both _ _).
    - intros _. exact Hnil. }
  unfold branch_rest in Hhead. destruct (decide (kid kids' b = Empty)) as [He'|He'].
  { assert (kid kids b <> Empty) as Hne by congruence. destruct (child_step store lb lf Hlf h l kids b Hl ltac:(lia) Hne) as (lc & h1 & Hd & Hfc & Hk1).
    destruct (walk_branch_ok store lb lf Hlf None true fuel lc (kid kids b) (p ++ [b]) d n h1 Hfc (wf_shaped _ _ Wk) ltac:(lia) Hn) as (h2 & Hwb & Hk2). pose proof (keeps_trans _ _ _ _ _ Hk1 Hk2) as Hk.
    eapply (branches_walk b bs h h2 stack ys d n); [exact Hk| |reflexivity|exact Hn| |now apply IH1].
    - unfold row, both. cbn [fst]. apply bool_decide_eq_false_2. tauto.
    - rewrite Hhead by reflexivity. run (lift_ok _ _ h Her). rewrite bool_decide_eq_true_2 by exact He'. run Hd. cbn [ConsensusParms.expect]. run (lift_ok (E := TraversalError) _ _ h1 (eq_refl (Ok lc))). run Hwb.
      unfold row. cbn [snd]. now rewrite He', diffs_right. }
  rewrite (bool_decide_eq_false_2 _ He') in Her. destruct (decide (kid kids b = Empty)) as [He|He].
  { destruct (child_step store rb rf Hrf h r kids' b Hr ltac:(lia) He') as (rc & h1 & Hd & Hfc & Hk1).
    destruct (walk_branch_ok store rb rf Hrf None false fuel rc (kid kids' b) (p ++ [b]) d n h1 Hfc (wf_shaped _ _ Wk') ltac:(lia) Hn) as (h2 & Hwb & Hk2). pose proof (keeps_trans _ _ _ _ _ Hk1 Hk2) as Hk.
    eapply (branches_walk b bs h h2 stack ys d n); [exact Hk| |reflexivity|exact Hn| |now apply IH1].
    - unfold row, both. cbn [fst]. apply bool_decide_eq_false_2. tauto.
    - rewrite Hhead by reflexivity. run (lift_ok _ _ h Her). run (lift_ok _ _ h Hel). rewrite bool_decide_eq_true_2 by exact He. run Hd. cbn [ConsensusParms.expect]. run (lift_ok (E := TraversalError) _ _ h1 (eq_refl (Ok rc))). run Hwb.
      unfold row. cbn [snd]. now rewrite He, diffs_left. }
  rewrite (bool_decide_eq_false_2 _ He) in Hel. destruct (child_step store lb lf Hlf h l kids b Hl ltac:(lia) He) as (lc & h1 & Hd1 & Hfl & Hk1).
  destruct (child_step store rb rf Hrf h1 r kids' b (frozen_keeps _ _ _ _ _ _ Hk1 Hr) ltac:(lia) He') as (rc & h2 & Hd2 & Hfr & Hk2). pose proof (keeps_trans _ _ _ _ _ Hk1 Hk2) as Hk.
  destruct (IH h2 ((lc, rc) :: stack) ((kid kids b, kid kids' b) :: ys) d n) as (go & d' & n' & stack' & h' & Hrun & Hk' & Hrec & Hgo); [eapply frozen_keeps; eauto|eapply frozen_keeps; eauto|exact Hbs'|exact Hn| |].
  { constructor; [split; [exact (frozen_keeps _ _ _ _ _ _ Hk2 Hfl)|exact Hfr]|eapply pairs_keeps; eauto]. }
  assert ((row kids kids' b).1 = true) as Hrow by (unfold row, both; cbn [fst]; now apply bool_decide_eq_true_2).
  exists go, d', n', stack', h'. split; [|split; [eapply keeps_trans; eauto|split; [now rewrite at_once_cons, Hrow|]]].
  - rewrite Hhead by reflexivity. run (lift_ok _ _ h Her). run (lift_ok _ _ h Hel). run Hd1. cbn [ConsensusParms.expect]. run (lift_ok (E := TraversalError) _ _ h1 (eq_refl (Ok lc))). run Hd2.
    cbn [ConsensusParms.expect]. run (lift_ok (E := TraversalError) _ _ h2 (eq_refl (Ok rc))). exact Hrun.
  - intros Hg. destruct (Hgo Hg) as (new & Hst' & Hready & Hlater & Hwn). exists (new ++ [(kid kids b, kid kids' b)]). split; [now rewrite <- app_assoc|]. split; [apply Forall_app; split; [exact Hready|repeat constructor; now exists (p ++ [b])]|].
    split; [rewrite map_app, concat_app, Hlater, later_cons, Hrow; cbn; now rewrite app_nil_r|]. unfold pairs_weight in *. rewrite !fmap_app, !weights_app, !fmap_cons, !weights_cons. cbn [fst snd fmap list_fmap]. change (weights []) with 0%nat. lia.
Qed.
End Branches.

Lemma compare_leaves_ok {E : Type} x y d n : countable n -> compare_leaves (E := E) x y d n = Ok (records (leaf_diffs x y) d n).
Proof.
  intros Hn. unfold compare_leaves, leaf_diffs. destruct (decide (item_key x = item_key y)) as [Hk|Hk]; [destruct (decide (item_data x = item_data y)) as [Hd|Hd]; [reflexivity|]|];
    rewrite record_ok by exact Hn; cbn [bind records]; [now destruct (0 <? n - 1)|]. destruct (Z.ltb_spec 0 (n - 1)); [|reflexivity].
  rewrite record_ok by (unfold countable in *; lia). now destruct (0 <? n - 1 - 1).
Qed.

(** A pair of nodes: the differences [now] are recorded, [rest] is left to the pairs pushed. *)
Definition pair_done (t t' : stree) (l r : loc) (fuel : nat) (stack : list (loc * loc)) (ys : list (stree * stree)) (d : Delta) (n : Z) (h : heap) : Prop :=
  exists now rest go d' n' stack' h', compare_pair lb lf rb rf fuel l r stack d n h = (Ok (go, d', n', stack'), h') /\ keeps store 1 h h' /\ diffs t t' = now ++ rest /\ records now d n = (go, d', n') /\
    (go = true -> exists new, Forall2 (stand h') stack' (new ++ ys) /\ Forall ready new /\ concat (map pair_diffs new) = rest /\ (pairs_weight new + 2 <= weight t + weight t')%nat).

Lemma compare_pair_ok (p : list nat) (t t' : stree) (l r : loc) (fuel : nat) (stack : list (loc * loc)) (ys : list (stree * stree)) (d : Delta) (n : Z) (h : heap) :
  stand h (l, r) (t, t') -> comparable p t t' -> (weight t + weight t' <= fuel)%nat -> countable n -> Forall2 (stand h) stack ys ->
  pair_done t t' l r fuel stack ys d n h.
Proof.
  intros [Hl Hr] Hcmp Hfuel Hn Hst. cbn [fst snd] in Hl, Hr. destruct (frozen_read store 1 h l t Hl) as (nl & Hnl & Ll & Pl). destruct (frozen_read store 1 h r t' Hr) as (nr & Hnr & Lr & Pr).
  assert (forall t, 1 <= weight t)%nat as Hw1 by (intros []; cbn; lia). pose proof (Hw1 t) as Wt. pose proof (Hw1 t') as Wt'. pose proof Hcmp as ([Hs _ _] & [Hs' _ _] & _).
  assert (forall h' (x : Recorded), keeps store 1 h h' -> compare_pair lb lf rb rf fuel l r stack d n h = (Ok (x, stack), h') -> x = records (diffs t t') d n -> pair_done t t' l r fuel stack ys d n h) as Hdone.
  { intros h' [[go d'] n'] Hk Hrun Hx. exists (diffs t t'), [], go, d', n', stack, h'. rewrite app_nil_r. repeat (split; [now auto|]). intros _. exists []. split; [eapply pairs_keeps; eauto|]. split; [constructor|]. split; [reflexivity|]. cbn. lia. }
  unfold pair_done, compare_pair in *. unfold is_leaf in *. destruct t as [|ty x|kids]; [inversion Hl| |]; (destruct t' as [|ty' x'|kids']; [inversion Hr| |]).
  - apply (Hdone h (records (leaf_diffs x x') d n)); [apply keeps_refl| |reflexivity]. run (read_ok (E := TraversalError) l h nl Hnl). run (read_ok (E := TraversalError) r h nr Hnr). rewrite Ll, Lr, Pl, Pr. cbn [andb ConsensusParms.expect].
    run (lift_ok (E := TraversalError) _ _ h (eq_refl (Ok x))). run (lift_ok (E := TraversalError) _ _ h (eq_refl (Ok x'))). run (lift_ok _ _ h (compare_leaves_ok (E := TraversalError) x x' d n Hn)). reflexivity.
  - destruct (walk_branch_ok store rb rf Hrf (Some x) false fuel r (Node kids') p d n h Hr Hs' ltac:(lia) Hn) as (h' & Hwb & Hk). eapply (Hdone h'); [exact Hk| |reflexivity].
    run (read_ok (E := TraversalError) l h nl Hnl). run (read_ok (E := TraversalError) r h nr Hnr). destruct (is_inner nl), (is_inner nr); try discriminate. cbn [andb negb]. rewrite Pl. cbn [ConsensusParms.expect].
    run (lift_ok (E := TraversalError) _ _ h (eq_refl (Ok x))). run Hwb. reflexivity.
  - destruct (walk_branch_ok store lb lf Hlf (Some x') true fuel l (Node kids) p d n h Hl Hs ltac:(lia) Hn) as (h' & Hwb & Hk). eapply (Hdone h'); [exact Hk| |reflexivity].
    run (read_ok (E := TraversalError) l h nl Hnl). run (read_ok (E := TraversalError) r h nr Hnr). destruct (is_inner nl), (is_inner nr); try discriminate. cbn [andb negb]. rewrite Pr. cbn [ConsensusParms.expect].
    run (lift_ok (E := TraversalError) _ _ h (eq_refl (Ok x'))). run Hwb. reflexivity.
  - inversion Hs as [| |? ? _ _ H16 _]; subst. inversion Hs' as [| |? ? _ _ H16' _]; subst. rewrite !weight_node in *.
    destruct (compare_branches_ok p kids kids' Hcmp l r fuel ltac:(lia) ltac:(lia) (seq 0 BRANCH_FACTOR) h stack ys d n Hl Hr) as (go & d' & n' & stack' & h' & Hrun & Hk & Hrec & Hgo); [intros b Hb; now apply elem_of_seq in Hb|exact Hn|exact Hst|].
    exists (at_once kids kids' (seq 0 16)), (later kids kids' (seq 0 16)), go, d', n', stack', h'. split; [|split; [exact Hk|split; [rewrite diffs_node by congruence; rewrite H16; apply arrange_rows|split; [exact Hrec|]]]].
    + run (read_ok (E := TraversalError) l h nl Hnl). run (read_ok (E := TraversalError) r h nr Hnr). destruct (is_inner nl), (is_inner nr); try discriminate. exact Hrun.
    + intros Hg. destruct (Hgo Hg) as (new & H1 & H2 & H3 & H4). exists new. repeat (split; [assumption|]). change BRANCH_FACTOR with 16%nat in H4. rewrite <- H16 in H4 at 1. rewrite <- H16', !kids_seq in H4. lia.
Qed.

Lemma compare_loop_ok fuel : forall (stack : list (loc * loc)) (ys : list (stree * stree)) (d : Delta) (n : Z) (h : heap), Forall2 (stand h) stack ys -> Forall ready ys -> (pairs_weight ys < fuel)%nat -> countable n ->
  exists h', compare_loop lb lf rb rf fuel stack d n h = (Ok (records (concat (map pair_diffs ys)) d n), h') /\ keeps store 1 h h'.
Proof.
  induction fuel as [|fuel IH]; intros stack ys d n h Hst Hys Hw Hn; [lia|]. destruct Hst as [|[l r] [t t'] stack ys Hlr Hst]; [exists h; split; [reflexivity|apply keeps_refl]|].
  apply Forall_cons in Hys as [[p Hp] Hys]. unfold pairs_weight in Hw. rewrite !fmap_cons, !weights_cons in Hw. cbn [fst snd] in *.
  destruct (compare_pair_ok p t t' l r fuel stack ys d n h Hlr Hp ltac:(lia) Hn Hst) as (now & rest & go & d' & n' & stack' & h1 & Hrun & Hk & Hds & Hrec & Hgo).
  cbn [compare_loop]. run Hrun. cbn [map concat]. unfold pair_diffs at 1. cbn [fst snd]. rewrite Hds, <- app_assoc, records_app, Hrec. destruct go; [|exists h1; auto].
  destruct (Hgo eq_refl) as (new & Hst' & Hnew & Hrest & Hwn). destruct (IH stack' (new ++ ys) d' n' h1 Hst') as (h' & Hr & Hk').
  - now apply Forall_app.
  - unfold pairs_weight in *. rewrite !fmap_app, !weights_app. lia.
  - eapply records_count; eauto.
  - exists h'. split; [|eapply keeps_trans; eauto]. now rewrite Hr, map_app, concat_app, Hrest.
Qed.

End Loops.

(** ** The differences of two maps *)

(** The items under each key that differ, with [own] and [other] on their sides. *)
Definition told (first : bool) (ds : list (Uint256 * DeltaItem)) (own other : Uint256 -> option SHAMapItem) : Prop :=
  NoDup ds.*1 /\ forall k lr, (k, lr) ∈ ds <-> lr = sided first (own k) (other k) /\ own k <> other k.

(** What is on the other side of a tree: an item, unless it has been met. *)
Definition opposite (other : option SHAMapItem) (met : bool) (k : Uint256) : option SHAMapItem :=
  match other with Some o => if met then None else if decide (k = item_key o) then Some o else None | None => None end.

Lemma item_eq (x y : SHAMapItem) : item_key x = item_key y -> item_data x = item_data y -> x = y.
Proof. destruct x, y. cbn. congruence. Qed.

Lemma opposite_met other k met : (forall o, other = Some o -> k <> item_key o) -> opposite other met k = None.
Proof. intros Hk. destruct other as [o|]; [|reflexivity]. cbn. destruct met; [reflexivity|]. now rewrite decide_False by now apply Hk. Qed.

(** The entries for the items of [l], and for the item that is not among them. *)
Definition branch_entry (first : bool) (other : option SHAMapItem) (met : bool) (l : list SHAMapItem) (k : Uint256) (lr : DeltaItem) : Prop :=
  (exists x, x ∈ l /\ item_key x = k /\ lr = sided first (Some x) (opposite other met k) /\ Some x <> opposite other met k) \/
  (k ∉ item_key <$> l /\ exists o, opposite other met k = Some o /\ lr = sided first None (Some o)).

Lemma entry_cons first other met x l k lr : item_key x ∉ item_key <$> l ->
  branch_entry first other met (x :: l) k lr <-> (k = item_key x /\ lr = sided first (Some x) (opposite other met k) /\ Some x <> opposite other met k) \/ (k <> item_key x /\ branch_entry first other met l k lr).
Proof.
  intros Hx. unfold branch_entry. rewrite fmap_cons, not_elem_of_cons. split.
  - intros [(y & Hy & <- & Hrest)|([Hne Hk] & Hrest)]; [|right; auto]. apply elem_of_cons in Hy as [->|Hy]; [left; auto|right]. split; [|left; eauto]. intros He. apply Hx. rewrite <- He. now apply list_elem_of_fmap_2.
  - intros [(-> & Hlr & Hne)|(Hne & [(y & Hy & Hrest)|(Hk & Hrest)])]; [left; exists x; split; [left|auto]|left; exists y; split; [now right|exact Hrest]|right; auto].
Qed.

Lemma branch_elem first other (k : Uint256) (lr : DeltaItem) l : forall met, NoDup (item_key <$> l) -> (k, lr) ∈ branch_diffs first other met l <-> branch_entry first other met l k lr.
Proof.
  induction l as [|x l IH]; intros met Hnd.
  - unfold branch_entry. cbn [branch_diffs]. split.
    + destruct other as [o|]; [destruct met|]; intros Hin; try (now inversion Hin). apply list_elem_of_singleton in Hin as [= -> ->]. right. split; [intros Hx; inversion Hx|]. exists o. cbn. now rewrite decide_True.
    + intros [(x & Hx & _)|(_ & o & Ho & ->)]; [inversion Hx|]. destruct other as [o'|]; [|discriminate]. cbn in Ho. destruct met; [discriminate|]. destruct (decide (k = item_key o')) as [->|]; [|discriminate]. injection Ho as ->. left.
  - rewrite fmap_cons in Hnd. apply NoDup_cons in Hnd as [Hx Hnd]. rewrite entry_cons by exact Hx.
    assert (forall met, (k, lr) ∈ branch_diffs first other met l -> k = item_key x -> opposite other met (item_key x) = None -> False) as Hout.
    { intros met0 Hin -> Hnone. apply IH in Hin as [(y & Hy & He & _)|(_ & o & Ho & _)]; [|congruence|exact Hnd]. apply Hx. rewrite <- He. now apply list_elem_of_fmap_2. }
    assert (opposite other met (item_key x) = None -> (k, lr) ∈ (item_key x, sided first (Some x) None) :: branch_diffs first other met l <->
      (k = item_key x /\ lr = sided first (Some x) (opposite other met k) /\ Some x <> opposite other met k) \/ (k <> item_key x /\ branch_entry first other met l k lr)) as Hstep.
    { intros Hnone. rewrite elem_of_cons, <- IH by exact Hnd. split; [intros [[= -> ->]|Hin]|intros [(-> & -> & _)|[_ Hin]]]; [left|right|left|right]; rewrite ?Hnone; auto. split; [|exact Hin]. intros He. eapply Hout; eauto. }
    cbn [branch_diffs]. destruct other as [o|]; [|now apply Hstep]. destruct met; [now apply Hstep|]. destruct (decide (item_key x = item_key o)) as [Hk|Hk]; [|apply Hstep; cbn; now rewrite decide_False].
    assert (opposite (Some o) false (item_key x) = Some o) as Ho by (cbn; now rewrite decide_True). assert (k <> item_key x -> opposite (Some o) false k = opposite (Some o) true k) as Hsame by (intros Hne; cbn; rewrite decide_False by congruence; reflexivity).
    assert ((k <> item_key x /\ branch_entry first (Some o) false l k lr) <-> (k, lr) ∈ branch_diffs first (Some o) true l) as Hrest.
    { rewrite IH by exact Hnd. unfold branch_entry. split; [intros [Hne He]; rewrite <- Hsame by exact Hne; exact He|]. intros He. assert (k <> item_key x) as Hne by (intros ->; eapply (Hout true); [apply IH; [exact Hnd|exact He]|reflexivity|reflexivity]). split; [exact Hne|]. now rewrite Hsame. }
    rewrite Hrest. destruct (decide (item_data x = item_data o)) as [Hd|Hd].
    + split; [auto|]. intros [(-> & _ & Hne)|]; [|assumption]. destruct Hne. rewrite Ho. f_equal. now apply item_eq.
    + rewrite elem_of_cons. split; (intros [Hin|Hin]; [left|right; exact Hin]); [injection Hin as -> ->; rewrite Ho|destruct Hin as (-> & -> & _); now rewrite Ho]. repeat split; auto. intros [= ->]. contradiction.
Qed.

Lemma branch_NoDup first other l : forall met, NoDup (item_key <$> l) -> NoDup (branch_diffs first other met l).*1.
Proof.
  induction l as [|x l IH]; intros met Hnd; cbn [branch_diffs].
  - destruct other as [o|]; [destruct met|]; cbn; try apply NoDup_nil_2. apply NoDup_singleton.
  - rewrite fmap_cons in Hnd. apply NoDup_cons in Hnd as [Hx Hnd].
    assert (forall met lr, opposite other met (item_key x) = None -> NoDup ((item_key x, lr) :: branch_diffs first other met l).*1) as Hc.
    { intros met0 lr Hnone. rewrite fmap_cons. apply NoDup_cons. split; [|now apply IH]. intros Hin. apply list_elem_of_fmap in Hin as ([k lr'] & Hk & Hin). cbn in Hk. subst k. apply branch_elem in Hin; [|exact Hnd].
      destruct Hin as [(y & Hy & He & _)|(_ & o & Ho & _)]; [|congruence]. apply Hx. rewrite <- He. now apply list_elem_of_fmap_2. }
    destruct other as [o|]; [|now apply Hc]. destruct met; [now apply Hc|]. destruct (decide (item_key x = item_key o)); [destruct (decide (item_data x = item_data o)); [now apply IH|now apply Hc]|].
    apply Hc. cbn. now rewrite decide_False.
Qed.

Lemma branch_told first other l own : NoDup (item_key <$> l) -> (forall k x, own k = Some x <-> x ∈ l /\ item_key x = k) ->
  told first (branch_diffs first other (bool_decide (other = None)) l) own (opposite other (bool_decide (other = None))).
Proof.
  intros Hnd Hown. split; [now apply branch_NoDup|]. intros k lr. rewrite branch_elem by exact Hnd. unfold branch_entry. split.
  - intros [(x & Hx & <- & -> & Hne)|(Hk & o & Ho & ->)]; [rewrite (proj2 (Hown _ x) (conj Hx eq_refl)); auto|]. rewrite Ho. destruct (own k) as [x|] eqn:He; [|split; [reflexivity|discriminate]].
    apply Hown in He as [Hx <-]. destruct Hk. now apply list_elem_of_fmap_2.
  - intros [-> Hne]. destruct (own k) as [x|] eqn:He; [left; exists x; apply Hown in He; tauto|right]. destruct (opposite other _ k) as [o|]; [|contradiction]. split; [|eauto].
    intros Hin. apply list_elem_of_fmap in Hin as (y & -> & Hy). rewrite (proj2 (Hown _ y) (conj Hy eq_refl)) in He. discriminate.
Qed.

(** The item under a key. *)
Definition get (t : stree) (k : Uint256) : option SHAMapItem := snd <$> contents t !! k.

Lemma told_ext first ds own own' other other' : (forall k, own k = own' k) -> (forall k, other k = other' k) -> told first ds own other -> told first ds own' other'.
Proof. intros H1 H2 [Hnd Hin]. split; [exact Hnd|]. intros k lr. now rewrite Hin, H1, H2. Qed.

Lemma told_swap ds own other : told false ds own other -> told true ds other own.
Proof. intros [Hnd Hin]. split; [exact Hnd|]. intros k lr. rewrite Hin. cbn. split; intros [-> Hne]; auto. Qed.

Lemma get_met p t k x : shaped p t -> get t k = Some x <-> x ∈ met_items t /\ item_key x = k.
Proof.
  intros Hs. unfold get, met_items. rewrite fmap_Some, list_elem_of_fmap. cbn [items]. split.
  - intros (y & Hy & ->). apply (contents_lookup p t k y Hs) in Hy as [Hy <-]. split; [|reflexivity]. exists y. split; [reflexivity|]. now apply in_rev_elem.
  - intros [(y & -> & Hy) <-]. exists y. split; [|reflexivity]. apply (contents_lookup p t _ y Hs). split; [|reflexivity]. exact (proj1 (in_rev_elem _ _) Hy).
Qed.

Lemma met_NoDup p t : shaped p t -> NoDup (item_key <$> met_items t).
Proof. intros Hs. unfold met_items. rewrite <- list_fmap_compose. cbn [items]. rewrite <- Permutation_rev. exact (shaped_NoDup p t Hs). Qed.

Lemma get_leaf ty o k : get (Leaf ty o) k = opposite (Some o) false k.
Proof.
  unfold get. change (contents (Leaf ty o)) with (<[item_key o := (ty, o)]> (∅ : gmap Uint256 content)). unfold opposite. destruct (decide (k = item_key o)) as [->|Hne]; [now rewrite lookup_insert_eq|].
  now rewrite lookup_insert_ne, lookup_empty by congruence.
Qed.

Lemma diffs_item first other p t (t' : stree) : shaped p t -> (forall k, opposite other (bool_decide (other = None)) k = get t' k) ->
  told first (branch_diffs first other (bool_decide (other = None)) (met_items t)) (get t) (get t').
Proof. intros Hs Ho. eapply told_ext; [reflexivity|exact Ho|]. apply branch_told; [eapply met_NoDup, Hs|]. intros k x. now apply (get_met p). Qed.

Lemma leaf_diffs_branch x y : leaf_diffs x y = branch_diffs true (Some y) false [x].
Proof. unfold leaf_diffs. cbn. destruct (decide _); [destruct (decide _)|]; reflexivity. Qed.

(** An item of a branching is below the branch of its key. *)
Lemma get_node p kids k : shaped p (Node kids) -> get (Node kids) k = get (kid kids (nibble k (length p))) k.
Proof.
  intros Hs. pose proof Hs as Hs0. inversion Hs0 as [| |? ? _ Hl H16 Hk]; subst. assert (forall b, shaped (p ++ [b]) (kid kids b)) as Hkid.
  { intros b. unfold kid. destruct (kids !! b) as [t|] eqn:Hb; [exact (Hk b t Hb)|constructor]. }
  assert (forall x, get (Node kids) k = Some x <-> get (kid kids (nibble k (length p))) k = Some x) as Hiff.
  { intros x. unfold get. rewrite !fmap_Some. split; intros (y & Hy & ->); exists y; (split; [|reflexivity]).
    - apply (contents_lookup p _ k y Hs) in Hy as [Hy <-]. apply leaves_node_elem in Hy as (b & t & Hb & Hy). assert (t = kid kids b) as -> by (unfold kid; now rewrite Hb).
      rewrite (shaped_branch p b _ y (Hkid b) Hl Hy). now apply (contents_lookup _ _ _ _ (Hkid b)).
    - apply (contents_lookup _ _ k y (Hkid _)) in Hy as [Hy <-]. apply (contents_lookup p _ _ y Hs). split; [|reflexivity]. unfold kid in Hy. destruct (kids !! _) as [t|] eqn:Hb; [|inversion Hy]. apply leaves_node_elem. eauto. }
  destruct (get (Node kids) k) as [x|] eqn:He; [symmetry; now apply Hiff|]. destruct (get (kid _ _) k) as [x|] eqn:He'; [|reflexivity]. pose proof (proj2 (Hiff x) eq_refl). congruence.
Qed.

(** Keys on one branch are told once, on different branches they are different. *)
Lemma NoDup_classes {A B} (f : A -> list B) (class : B -> A) (l : list A) : NoDup l -> (forall a, a ∈ l -> NoDup (f a)) -> (forall a b, a ∈ l -> b ∈ f a -> class b = a) -> NoDup (concat (map f l)).
Proof.
  induction l as [|a l IH]; intros Hl Hf Hc; [apply NoDup_nil_2|]. apply NoDup_cons in Hl as [Ha Hl]. cbn [map concat]. apply NoDup_app. split; [apply Hf; left|]. split.
  - intros b Hb Hin. apply list_elem_of_In, in_concat in Hin as (x & Hx & Hin). apply in_map_iff in Hx as (a' & <- & Ha'). apply list_elem_of_In in Ha', Hin. apply Ha.
    rewrite <- (Hc a b) by (try left; assumption). now rewrite (Hc a' b) by (try right; assumption).
  - apply IH; [exact Hl|intros a' Ha'; apply Hf; now right|intros a' b Ha'; apply Hc; now right].
Qed.

Lemma arrange_perm rows : arrange rows ≡ₚ concat (map snd rows).
Proof.
  unfold arrange. rewrite <- Permutation_rev. induction rows as [|[[] ds] rows IH]; cbn [map concat fst snd app]; [reflexivity| |].
  - now rewrite Permutation_app_swap_app, IH.
  - now rewrite <- app_assoc, IH.
Qed.

Lemma node_told p kids kids' : shaped p (Node kids) -> shaped p (Node kids') -> (forall b, told true (diffs (kid kids b) (kid kids' b)) (get (kid kids b)) (get (kid kids' b))) ->
  told true (diffs (Node kids) (Node kids')) (get (Node kids)) (get (Node kids')).
Proof.
  intros Hs Hs' Hk. assert (forall ks k b, shaped p (Node ks) -> get (kid ks b) k <> None -> nibble k (length p) = b) as Hclass.
  { intros ks k b Hn Hg. inversion Hn as [| |? ? _ Hl _ Hsk]; subst. destruct (get (kid ks b) k) as [x|] eqn:He; [|contradiction]. unfold get in He. apply fmap_Some in He as (y & Hy & _). unfold kid in Hy. destruct (ks !! b) as [t|] eqn:Hb; [|discriminate].
    apply (contents_lookup _ _ k y (Hsk b t Hb)) in Hy as [Hy <-]. exact (shaped_branch p b t y (Hsk b t Hb) Hl Hy). }
  assert (forall b k lr, (k, lr) ∈ diffs (kid kids b) (kid kids' b) -> nibble k (length p) = b) as Hbranch.
  { intros b k lr Hin. apply Hk in Hin as [_ Hne]. destruct (decide (get (kid kids b) k = None)) as [He|He]; [|now apply (Hclass kids)]. apply (Hclass kids'); [exact Hs'|congruence]. }
  inversion Hs as [| |? ? _ _ H16 _]; subst. inversion Hs' as [| |? ? _ _ H16' _]; subst. rewrite diffs_node, H16 by congruence.
  assert (arrange (map (row kids kids') (seq 0 16)) ≡ₚ concat (map (fun b => diffs (kid kids b) (kid kids' b)) (seq 0 16))) as Hperm by (rewrite arrange_perm, map_map; reflexivity).
  split.
  - rewrite Hperm. change (NoDup (map fst (concat (map (fun b => diffs (kid kids b) (kid kids' b)) (seq 0 16))))). rewrite concat_map, map_map. apply (NoDup_classes _ (fun k => nibble k (length p))).
    + apply NoDup_seq.
    + intros b _. apply Hk.
    + intros b k _ Hin. apply list_elem_of_In, in_map_iff in Hin as ([k' lr] & <- & Hin). apply list_elem_of_In in Hin. exact (Hbranch b k' lr Hin).
  - intros k lr. rewrite Hperm, (get_node p kids k Hs), (get_node p kids' k Hs'). rewrite list_elem_of_In, in_concat. split.
    + intros (x & Hx & Hin). apply in_map_iff in Hx as (b & <- & _). apply list_elem_of_In in Hin. rewrite (Hbranch b k lr Hin). now apply Hk.
    + intros [-> Hne]. set (b := nibble k (length p)) in *. exists (diffs (kid kids b) (kid kids' b)). split; [|apply list_elem_of_In, Hk; auto]. apply in_map_iff. exists b. split; [reflexivity|]. apply in_seq. unfold kid in Hne.
      destruct (decide (b < 16)%nat) as [|Hb]; [lia|]. destruct Hne. now rewrite !lookup_ge_None_2 by lia.
Qed.

Lemma diffs_told t : forall p t', shaped p t -> shaped p t' -> told true (diffs t t') (get t) (get t').
Proof.
  induction t as [|ty x|kids IH] using stree_ind'; intros p t' Hs Hs'.
  - rewrite diffs_left. apply told_swap. now apply (diffs_item false None p t' Empty Hs').
  - destruct t' as [|ty' x'|kids'].
    + rewrite diffs_right. now apply (diffs_item true None p (Leaf ty x) Empty Hs).
    + change (diffs (Leaf ty x) (Leaf ty' x')) with (leaf_diffs x x'). rewrite leaf_diffs_branch. apply (diffs_item true (Some x') p (Leaf ty x) (Leaf ty' x') Hs). intros k. now rewrite (get_leaf ty').
    + apply told_swap. apply (diffs_item false (Some x) p (Node kids') (Leaf ty x) Hs'). intros k. now rewrite (get_leaf ty).
  - destruct t' as [|ty' x'|kids'].
    + rewrite diffs_right. now apply (diffs_item true None p (Node kids) Empty Hs).
    + apply (diffs_item true (Some x') p (Node kids) (Leaf ty' x') Hs). intros k. now rewrite (get_leaf ty').
    + apply (node_told p); [exact Hs|exact Hs'|]. intros b. inversion Hs as [| |? ? _ _ _ Hk]; subst. inversion Hs' as [| |? ? _ _ _ Hk']; subst. rewrite Forall_forall in IH.
      assert (shaped (p ++ [b]) (kid kids' b)) as Hb' by (unfold kid; destruct (kids' !! b) eqn:E; [exact (Hk' _ _ E)|constructor]).
      destruct (kids !! b) as [s|] eqn:E; [assert (kid kids b = s) as -> by (unfold kid; now rewrite E); eapply IH; [eapply list_elem_of_lookup_2, E|exact (Hk _ _ E)|exact Hb']|].
      assert (kid kids b = Empty) as -> by (unfold kid; now rewrite E). rewrite diffs_left. apply told_swap. now apply (diffs_item false None _ _ Empty Hb').
Qed.

(** The keys under which two maps differ, with the items of both. *)
Definition differences (m m' : gmap Uint256 SHAMapItem) : Delta := merge (fun x y => if decide (x = y) then None else Some (x, y)) m m'.

Lemma told_map (ds : list (Uint256 * DeltaItem)) (m m' : gmap Uint256 SHAMapItem) : told true ds (fun k => m !! k) (fun k => m' !! k) -> list_to_map ds = differences m m'.
Proof.
  intros [Hnd Hin]. apply map_eq. intros k. unfold differences. rewrite lookup_merge. apply option_eq. intros lr. rewrite <- elem_of_list_to_map by exact Hnd. rewrite Hin.
  destruct (m !! k) as [x|], (m' !! k) as [y|]; cbn; try (destruct (decide _) as [He|He]); (split; [intros [-> Hne]; congruence|]); intros Heq; try discriminate; injection Heq as <-; split; congruence.
Qed.

Lemma told_some (ds : list (Uint256 * DeltaItem)) (m m' : gmap Uint256 SHAMapItem) (j : nat) : told true ds (fun k => m !! k) (fun k => m' !! k) ->
  list_to_map (take j ds) ⊆ differences m m' /\ size (list_to_map (take j ds) : Delta) = Nat.min j (size (differences m m')) /\ length ds = size (differences m m').
Proof.
  intros Ht. rewrite <- (told_map ds m m' Ht). destruct Ht as [Hnd _]. assert (forall l : list (Uint256 * DeltaItem), NoDup l.*1 -> size (list_to_map l : Delta) = length l) as Hsize.
  { intros l Hl. rewrite <- length_map_to_list. apply Permutation_length. now apply map_to_list_to_map. }
  assert (NoDup (take j ds).*1) as Hnd' by (rewrite fmap_take; eapply sublist_NoDup; [exact Hnd|apply sublist_take]).
  split; [|rewrite !Hsize by assumption; now rewrite length_take]. apply map_subseteq_spec. intros k x Hx. apply elem_of_list_to_map in Hx; [|exact Hnd']. apply elem_of_list_to_map; [exact Hnd|]. eapply subseteq_take, Hx.
Qed.

Section Spec.
Context `{Sha512} (Hlen : forall text, length (sha512 text) = 64%nat) (store : ghost).

Lemma ensure_guard {E : Type} (fuel : nat) (l : loc) (h : heap) : (n ← read l; if decide (hash n = uint256_zero) then ensure_loaded_hashes (E := E) fuel l else mret tt) h = ensure_loaded_hashes fuel l h.
Proof.
  unfold mbind at 1, M_bind at 1. destruct (h !! l) as [n|] eqn:Hn; [|destruct fuel; cbn [ensure_loaded_hashes]; unfold mbind, M_bind, read, query; now rewrite Hn].
  rewrite (read_ok l h n Hn). destruct (decide (hash n = uint256_zero)) as [Hz|Hz]; [reflexivity|]. destruct fuel; cbn [ensure_loaded_hashes]; run (read_ok (E := E) l h n Hn); now rewrite decide_False.
Qed.

Lemma ensure_spec {E : Type} (c : Z) fuel : forall p h l t, frozen store c h l t -> shaped p t -> (64 <= fuel + length p)%nat ->
  exists h', ensure_loaded_hashes (E := E) fuel l h = (Ok tt, h') /\ settles store h h' /\ hashed h' l t.
Proof.
  induction fuel as [|fuel IH]; intros p h l t Hf Hs Hfuel.
  all: destruct (frozen_read store c h l t Hf) as (n & Hn & Hleaf & _); cbn [ensure_loaded_hashes]; destruct (decide (hash n = uint256_zero)) as [Hz|Hz];
    [|exists h; split; [run (read_ok (E := E) l h n Hn); now rewrite decide_False|split; [apply settles_refl|eapply frozen_hashed; eauto]]].
  all: unfold is_leaf in Hleaf; destruct t as [|ty it|kids]; [inversion Hf| |].
  1, 3: inversion Hf as [? m ? ? Hm Hcm Hbd Hh|]; subst; assert (m = n) as -> by congruence; exists h; split; [|split; [apply settles_refl|exists n; rewrite Hbd; auto]];
    run (read_ok (E := E) l h n Hn); rewrite decide_True by exact Hz; rewrite Hleaf; rewrite (change_ok (E := E) l update_hash h n n Hn); [now rewrite list_insert_id|unfold update_hash; rewrite Hbd, compute_leaf_hash_ok by (inversion Hs; assumption); cbn; rewrite <- Hh; now destruct n].
  { inversion Hs; subst. lia. }
  inversion Hs as [| |? ? Hp Hlp H16 Hkids]; subst.
  match goal with |- context [for_each (seq 0 BRANCH_FACTOR) ?g] => set (f := g) end.
  destruct (recompute_loop store c l kids f (seq 0 16) h Hf) as (h1 & Hr1 & Hs1 & Hb1).
  { intros b h0 Hin Hf0. apply elem_of_seq in Hin. destruct (recompute_branch store c l kids b h0 (ensure_loaded_hashes (E := E) fuel) Hf0 ltac:(lia)) as (h2 & Hr2 & Hs2 & Hb2).
    - intros h2 l' t' Hf' Ht'. apply (IH (p ++ [b])); [exact Hf'|auto|rewrite length_app; cbn; lia].
    - exists h2. split; [|auto]. rewrite <- Hr2. unfold f, mbind, M_bind. destruct (read l h0) as [[m| | | |] h3]; try reflexivity. destruct (lift (is_empty_branch m b) h3) as [[[]| | | |] h4]; try reflexivity.
      destruct (lift (get_child m b) h4) as [[[child|]| | | |] h5]; try reflexivity. symmetry. apply (ensure_guard fuel child h5). }
  destruct (rehash_ok (E := E) store c l kids h1 (proj1 Hs1 _ _ _ Hf) H16 Hb1) as (h2 & Hr2 & Hs2 & Hh2 & _).
  exists h2. split; [|split; [eapply settles_trans; eassumption|exact Hh2]]. run (read_ok (E := E) l h n Hn). rewrite decide_True by exact Hz. rewrite Hleaf. run Hr1. exact Hr2.
Qed.

Context (lb : bool) (lf : Fetch) (Hlf : fetch_ok store lb lf) (rb : bool) (rf : Fetch) (Hrf : fetch_ok store rb rf).

Lemma compare_spec (l r : loc) (t t' : stree) (d : Delta) (n : Z) (fuel : nat) (h : heap) : frozen store 1 h l t -> frozen store 1 h r t' -> rooted t -> rooted t' -> comparable [] t t' -> countable n -> (weight t + weight t' < fuel)%nat ->
  exists h', compare lb lf rb rf fuel l r d n h = (Ok (records (diffs t t') d n).1, h') /\ forall l0 t0, frozen store 1 h l0 t0 -> frozen store 1 h' l0 t0.
Proof.
  intros Hl Hr Ht Ht' Hc Hn Hfuel. pose proof Hc as (Hw & Hw' & Hb). pose proof (wf_shaped _ _ Hw) as Hs. pose proof (wf_shaped _ _ Hw') as Hs'.
  destruct (ensure_spec (E := TraversalError) 1 LEVELS [] h l t Hl Hs ltac:(unfold LEVELS; cbn; lia)) as (h1 & Hr1 & Hs1 & Hh1).
  destruct (ensure_spec (E := TraversalError) 1 LEVELS [] h1 r t' (proj1 Hs1 _ _ _ Hr) Hs' ltac:(unfold LEVELS; cbn; lia)) as (h2 & Hr2 & Hs2 & Hh2).
  pose proof (settles_hashed store h1 h2 1 l t Hs2 (proj1 Hs1 _ _ _ Hl) Hh1) as (nl & Hnl & Hml & _). destruct Hh2 as (nr & Hnr & Hmr & _). pose proof (settles_trans _ _ _ _ Hs1 Hs2) as Hset. unfold compare.
  assert (forall k, (ensure_loaded_hashes LEVELS l;; ensure_loaded_hashes LEVELS r;; x ← read l; y ← read r; k x y) h = (k nl nr : M TraversalError (bool * Delta)) h2) as Hhead.
  { intros k. run Hr1. run Hr2. run (read_ok (E := TraversalError) l h2 nl Hnl). run (read_ok (E := TraversalError) r h2 nr Hnr). reflexivity. }
  rewrite Hhead, Hml, Hmr. destruct (decide (merkle t = merkle t')) as [Hm|Hm].
  - destruct (root_binding Hlen t t' Ht Ht' (wf_named _ _ Hw) (wf_named _ _ Hw') Hm) as [->|]; [|contradiction]. exists h2. rewrite diffs_refl. split; [reflexivity|]. apply Hset.
  - destruct (compare_loop_ok Hlen store lb lf Hlf rb rf Hrf fuel [(l, r)] [(t, t')] d n h2) as (h3 & Hr3 & Hk3); [repeat constructor; cbn; now apply Hset|repeat constructor; now exists []|cbn; lia|exact Hn|].
    cbn [map concat] in Hr3. rewrite app_nil_r in Hr3. exists h3. split; [|intros l0 t0 Hf0; eapply frozen_keeps; [exact Hk3|]; now apply Hset]. run Hr3. unfold pair_diffs. cbn [fst snd]. now destruct (records (diffs t t') d n) as [[??]?].
Qed.

End Spec.
