(* ===== verification/LedgerHeader.v ===== *)
(** * LedgerHeader: the header of a ledger

    xrpl/protocol/src/ledger/ledger_header.rs: the fields, the hash of a ledger and the
    wire form.  What is written is read back ([header_roundtrip]); the hash determines
    the fields it covers ([header_binding]). *)

From stdpp Require Import list.
From Stdlib Require Import ZArith Lia.
From S2P Require Import Prelude Serializer ShamapKey ShamapNode ShamapBinding.
Local Open Scope Z_scope.

Definition SLCF_NO_CONSENSUS_TIME : Z := 1.
Definition LEDGER_HEADER_WIRE_SIZE : nat := 118.
Definition LEDGER_HEADER_WITH_HASH_WIRE_SIZE : nat := 150.
Definition HASH_PREFIX_LEDGER_MASTER : Z := 0x4C575200.

Record LedgerHeader : Type := mkHeader {
  header_seq : Z;
  drops : Z;
  header_hash : SHAMapHash;
  parent_hash : SHAMapHash;
  tx_hash : SHAMapHash;
  account_hash : SHAMapHash;
  parent_close_time : Z;
  close_time : Z;
  validated : bool;
  accepted : bool;
  close_time_resolution : Z;
  close_flags : Z
}.

Definition default_header : LedgerHeader := mkHeader 0 0 uint256_zero uint256_zero uint256_zero uint256_zero 0 0 false false 0 0.

Inductive LedgerHeaderCodecError : Type := TooShort.

Definition get_close_agree (h : LedgerHeader) : bool := Z.land (close_flags h) SLCF_NO_CONSENSUS_TIME =? 0.

Section Hasher.
Context `{Sha512}.

(** The texts passed to the hasher, one after the other. *)
Definition calculate_ledger_hash (h : LedgerHeader) : SHAMapHash :=
  sha512_half (concat
    [to_be_bytes 4 HASH_PREFIX_LEDGER_MASTER; to_be_bytes 4 (header_seq h); to_be_bytes 8 (drops h); parent_hash h; tx_hash h; account_hash h;
     to_be_bytes 4 (parent_close_time h); to_be_bytes 4 (close_time h); [close_time_resolution h]; [close_flags h]]).

End Hasher.

Definition add_raw_ledger_header (h : LedgerHeader) (serializer : Blob) (include_hash : bool) : Blob :=
  let serializer := (add32 (header_seq h) serializer).2 in
  let serializer := (add64 (drops h) serializer).2 in
  let serializer := (add_bit_string (parent_hash h) serializer).2 in
  let serializer := (add_bit_string (tx_hash h) serializer).2 in
  let serializer := (add_bit_string (account_hash h) serializer).2 in
  let serializer := (add32 (parent_close_time h) serializer).2 in
  let serializer := (add32 (close_time h) serializer).2 in
  let serializer := (add8 (close_time_resolution h) serializer).2 in
  let serializer := (add8 (close_flags h) serializer).2 in
  if include_hash then (add_bit_string (header_hash h) serializer).2 else serializer.

Definition serialize_ledger_header (h : LedgerHeader) (include_hash : bool) : Blob := add_raw_ledger_header h [] include_hash.

Definition serialize_prefixed_ledger_header (h : LedgerHeader) (include_hash : bool) : Blob :=
  add_raw_ledger_header h (add32 HASH_PREFIX_LEDGER_MASTER []).2 include_hash.

Definition deserialize_ledger_header (data : Blob) (has_hash : bool) : outcome LedgerHeaderCodecError LedgerHeader :=
  let required := if has_hash then LEDGER_HEADER_WITH_HASH_WIRE_SIZE else LEDGER_HEADER_WIRE_SIZE in
  if (length data <? required)%nat then Err TooShort
  else
    let iter := iter_new (take required data) in
    '(seq, iter) <- read_integer S_u32 iter;;
    '(drops, iter) <- read_integer S_u64 iter;;
    let '(parent_hash, iter) := iter_get_bit_string 32 iter in
    let '(tx_hash, iter) := iter_get_bit_string 32 iter in
    let '(account_hash, iter) := iter_get_bit_string 32 iter in
    '(parent_close_time, iter) <- read_integer S_u32 iter;;
    '(close_time, iter) <- read_integer S_u32 iter;;
    '(resolution, iter) <- iter_get8 iter;;
    '(flags, iter) <- iter_get8 iter;;
    let hash := if has_hash then (iter_get_bit_string 32 iter).1 else uint256_zero in
    Ok (mkHeader seq drops hash parent_hash tx_hash account_hash parent_close_time close_time false false resolution flags).

Definition deserialize_prefixed_ledger_header (data : Blob) (has_hash : bool) : outcome LedgerHeaderCodecError LedgerHeader :=
  if (length data <? 4)%nat then Err TooShort else deserialize_ledger_header (drop 4 data) has_hash.

(** ** Round trip *)

(** The fields at their widths. *)
Record header_ok (h : LedgerHeader) : Prop := {
  ok_seq : 0 <= header_seq h < 2 ^ 32;
  ok_drops : 0 <= drops h < 2 ^ 64;
  ok_hash : is_key (header_hash h);
  ok_parent : is_key (parent_hash h);
  ok_tx : is_key (tx_hash h);
  ok_account : is_key (account_hash h);
  ok_parent_time : 0 <= parent_close_time h < 2 ^ 32;
  ok_time : 0 <= close_time h < 2 ^ 32;
  ok_resolution : is_byte (close_time_resolution h);
  ok_flags : is_byte (close_flags h)
}.

Definition covered (h : LedgerHeader) : Blob :=
  to_be_bytes 4 (header_seq h) ++ to_be_bytes 8 (drops h) ++ parent_hash h ++ tx_hash h ++ account_hash h ++
  to_be_bytes 4 (parent_close_time h) ++ to_be_bytes 4 (close_time h) ++ [close_time_resolution h] ++ [close_flags h].

Lemma add_raw_covered h b include : add_raw_ledger_header h b include = b ++ covered h ++ if include then header_hash h else [].
Proof.
  unfold add_raw_ledger_header, covered, add32, add64, add_bit_string, add_raw, add8. cbn [snd]. destruct include; rewrite <- !app_assoc; [reflexivity|]. now rewrite app_nil_r.
Qed.

Lemma covered_length h : header_ok h -> length (covered h) = LEDGER_HEADER_WIRE_SIZE.
Proof.
  intros Hh. unfold covered. rewrite !length_app, !to_be_bytes_length. destruct (ok_parent h Hh) as [-> _], (ok_tx h Hh) as [-> _], (ok_account h Hh) as [-> _]. reflexivity.
Qed.

(** The header that arrives: the marks are not sent. *)
Definition received (h : LedgerHeader) (with_hash : bool) : LedgerHeader :=
  mkHeader (header_seq h) (drops h) (if with_hash then header_hash h else uint256_zero) (parent_hash h) (tx_hash h) (account_hash h) (parent_close_time h) (close_time h)
    false false (close_time_resolution h) (close_flags h).

Lemma get_key_at k pre rest : is_key k -> iter_get_bit_string 32 (at_end pre (k ++ rest)) = (k, at_end (pre ++ k) rest).
Proof. intros [Hl _]. rewrite <- Hl. apply get_bit_string_at. Qed.

Lemma get_u32_at {E} v pre rest : 0 <= v < 2 ^ 32 -> read_integer (E := E) S_u32 (at_end pre (to_be_bytes 4 v ++ rest)) = Ok (v, at_end (pre ++ to_be_bytes 4 v) rest).
Proof. intros Hv. apply (read_integer_at S_u32). apply fits_ok. cbn. lia. Qed.

Lemma get_u64_at {E} v pre rest : 0 <= v < 2 ^ 64 -> read_integer (E := E) S_u64 (at_end pre (to_be_bytes 8 v ++ rest)) = Ok (v, at_end (pre ++ to_be_bytes 8 v) rest).
Proof. intros Hv. apply (read_integer_at S_u64). apply fits_ok. cbn. lia. Qed.

Lemma header_roundtrip_raw h with_hash rest : header_ok h -> deserialize_ledger_header (serialize_ledger_header h with_hash ++ rest) with_hash = Ok (received h with_hash).
Proof.
  intros Hh. unfold deserialize_ledger_header, serialize_ledger_header. rewrite add_raw_covered. cbn [app].
  assert (length (covered h ++ (if with_hash then header_hash h else [])) = (if with_hash then LEDGER_HEADER_WITH_HASH_WIRE_SIZE else LEDGER_HEADER_WIRE_SIZE)) as Hl.
  { rewrite length_app, covered_length by exact Hh. destruct with_hash; [|reflexivity]. destruct (ok_hash h Hh) as [-> _]. reflexivity. }
  rewrite <- Hl. rewrite (proj2 (Nat.ltb_ge _ _)) by (rewrite (length_app _ rest); lia). rewrite take_app_length.
  change (iter_new ?x) with (at_end [] x). unfold covered. rewrite <- !app_assoc.
  rewrite get_u32_at by apply Hh. cbn [bind]. rewrite get_u64_at by apply Hh. cbn [bind]. rewrite get_key_at by apply Hh. rewrite get_key_at by apply Hh. rewrite get_key_at by apply Hh.
  rewrite get_u32_at by apply Hh. cbn [bind]. rewrite get_u32_at by apply Hh. cbn [bind]. cbn [app]. rewrite iter_get8_at. cbn [bind]. rewrite iter_get8_at. cbn [bind].
  unfold received. destruct with_hash; [|reflexivity]. rewrite <- (app_nil_r (header_hash h)) at 1. now rewrite get_key_at by apply Hh.
Qed.

(** ** The hash determines the header *)

Lemma covered_inj h h' : header_ok h -> header_ok h' -> covered h = covered h' -> received h false = received h' false.
Proof.
  intros Hh Hh' He. enough (Ok (received h false) = Ok (E := LedgerHeaderCodecError) (received h' false)) as Hr by exact (f_equal (fun o => match o with Ok a => a | _ => default_header end) Hr).
  rewrite <- (header_roundtrip_raw h false [] Hh), <- (header_roundtrip_raw h' false [] Hh'). unfold serialize_ledger_header. now rewrite !add_raw_covered, He.
Qed.

(** Enough bytes are a header. *)
Lemma header_of_bytes data : bytes_ok data -> (LEDGER_HEADER_WIRE_SIZE <= length data)%nat -> exists h rest, header_ok h /\ data = serialize_ledger_header h false ++ rest.
Proof.
  intros Hb Hl. unfold LEDGER_HEADER_WIRE_SIZE in Hl.
  set (part := fun (a n : nat) => take n (drop a data)). assert (forall a n, (a + n <= 118)%nat -> length (part a n) = n) as Hlen by (intros a n Han; unfold part; rewrite length_take, length_drop; lia).
  assert (forall a n, bytes_ok (part a n)) as Hbytes by (intros a n; unfold part; now apply Forall_take, Forall_drop).
  assert (forall a n, (a + n <= 118)%nat -> to_be_bytes n (be_value (part a n)) = part a n) as Hval by (intros a n Han; rewrite <- (Hlen a n Han) at 1; now apply to_be_value).
  assert (forall a n, (a + n <= 118)%nat -> 0 <= be_value (part a n) < 256 ^ Z.of_nat n) as Hrange by (intros a n Han; pose proof (be_value_range _ (Hbytes a n)) as Hr; now rewrite (Hlen a n Han) in Hr).
  assert (forall a n, drop a data = part a n ++ drop (a + n) data) as Hsplit by (intros a n; unfold part; rewrite <- drop_drop; symmetry; apply take_drop).
  exists (mkHeader (be_value (part 0%nat 4%nat)) (be_value (part 4%nat 8%nat)) uint256_zero (part 12%nat 32%nat) (part 44%nat 32%nat) (part 76%nat 32%nat) (be_value (part 108%nat 4%nat)) (be_value (part 112%nat 4%nat)) false false (nth 116 data 0) (nth 117 data 0)), (drop 118 data).
  assert (forall a, (a < 118)%nat -> is_byte (nth a data 0) /\ part a 1%nat = [nth a data 0]) as Hone.
  { intros a Ha. destruct (lookup_lt_is_Some_2 data a) as [x Hx]; [lia|]. rewrite (nth_lookup_Some _ _ _ _ Hx). split; [exact (Forall_lookup_1 _ _ _ _ Hb Hx)|]. unfold part. now rewrite (drop_S _ _ _ Hx). }
  split.
  - assert (forall a, (a + 32 <= 118)%nat -> is_key (part a 32%nat)) as Hk by (intros a Ha; split; [now apply Hlen|apply Hbytes]). assert (is_key uint256_zero) as Hz by (split; [reflexivity|repeat constructor; lia]).
    constructor; [exact (Hrange 0%nat 4%nat ltac:(lia))|exact (Hrange 4%nat 8%nat ltac:(lia))|exact Hz|exact (Hk 12%nat ltac:(lia))|exact (Hk 44%nat ltac:(lia))|exact (Hk 76%nat ltac:(lia))|
      exact (Hrange 108%nat 4%nat ltac:(lia))|exact (Hrange 112%nat 4%nat ltac:(lia))|exact (proj1 (Hone 116%nat ltac:(lia)))|exact (proj1 (Hone 117%nat ltac:(lia)))].
  - unfold serialize_ledger_header. rewrite add_raw_covered. unfold covered. cbn [header_seq drops parent_hash tx_hash account_hash parent_close_time close_time close_time_resolution close_flags app].
    rewrite !Hval by lia. destruct (Hone 116%nat ltac:(lia)) as [_ H1]. destruct (Hone 117%nat ltac:(lia)) as [_ H2]. change (nth 116 data 0 :: ?x) with ([nth 116 data 0] ++ x). change (nth 117 data 0 :: ?x) with ([nth 117 data 0] ++ x).
    rewrite <- H1, <- H2, <- !app_assoc. cbn [app]. transitivity (drop 0 data); [reflexivity|]. rewrite (Hsplit 0 4)%nat, (Hsplit (0 + 4) 8)%nat, (Hsplit (0 + 4 + 8) 32)%nat. cbn [Nat.add]. do 3 f_equal.
    rewrite (Hsplit 44 32)%nat, (Hsplit (44 + 32) 32)%nat, (Hsplit (44 + 32 + 32) 4)%nat. cbn [Nat.add]. do 3 f_equal. rewrite (Hsplit 112 4)%nat, (Hsplit (112 + 4) 1)%nat, (Hsplit (112 + 4 + 1) 1)%nat. reflexivity.
Qed.

Definition header_text (h : LedgerHeader) : list Z := to_be_bytes 4 HASH_PREFIX_LEDGER_MASTER ++ covered h.

Lemma header_binding `{Sha512} h h' : header_ok h -> header_ok h' -> calculate_ledger_hash h = calculate_ledger_hash h' -> received h false = received h' false \/ broken [header_text h; header_text h'].
Proof.
  intros Hh Hh' He. destruct (decide (covered h = covered h')) as [Hc|Hc]; [left; now apply covered_inj|]. right. left.
  exists (header_text h), (header_text h'). split; [left|]. split; [right; left|]. split; [intros Hx; now apply app_inv_head in Hx|].
  unfold calculate_ledger_hash in He. cbn [concat] in He. rewrite !app_nil_r in He. exact He.
Qed.
