(* ===== verification/LedgerState.v ===== *)
(** * LedgerState: ledgers and their state maps

    The part of [Ledger] (xrpld/ledger/src/lib.rs) that changes, reads and closes the
    state map, with the [SyncTree] (xrpl/shamap/src/owners/sync.rs) it is kept in.
    Ledgers share nodes: the store of nodes and the counter of owners are common to all
    of them and are passed along.  Fees, rules and the writers of nodes are left out. *)

From stdpp Require Import gmap list.
From Stdlib Require Import ZArith Lia.
From S2P Require Import Prelude Serializer ShamapKey ShamapNode ShamapHeap ShamapHash LedgerHeader.
Local Open Scope Z_scope.

(** ** SyncTree *)

Inductive SHAMapType : Type := TransactionMap | StateMap | FreeMap.

Inductive SyncState : Type := Modifying | Immutable | Synching | Invalid.

#[global] Instance SyncState_eq_dec : EqDecision SyncState.
Proof. solve_decision. Defined.

Record SyncTree : Type := mkSync {
  sync_root : loc;
  map_type : SHAMapType;
  backed : bool;
  ledger_seq : Z;
  state : SyncState;
  is_full : bool
}.

Definition from_root_with_type (root : loc) (map_type : SHAMapType) (backed : bool) (ledger_seq : Z) (state : SyncState) : SyncTree :=
  mkSync root map_type backed ledger_seq state false.

Definition set_full (t : SyncTree) : SyncTree := mkSync (sync_root t) (map_type t) (backed t) (ledger_seq t) (state t) true.
Definition set_ledger_seq (seq : Z) (t : SyncTree) : SyncTree := mkSync (sync_root t) (map_type t) (backed t) seq (state t) (is_full t).

Definition set_immutable {E} (t : SyncTree) : outcome E SyncTree :=
  if decide (state t = Invalid) then Panic else Ok (mkSync (sync_root t) (map_type t) (backed t) (ledger_seq t) Immutable (is_full t)).

Definition new_with_type {E} (map_type : SHAMapType) (backed : bool) (ledger_seq : Z) : M E SyncTree :=
  n ← lift (new_inner 0);
  root ← alloc n;
  mret (mkSync root map_type backed ledger_seq Modifying false).

Section Ledger.
Context `{Sha512}.

Definition share_root_snapshot {E} (t : SyncTree) : M E SyncTree :=
  n ← read (sync_root t);
  (if decide (hash n = uint256_zero /\ is_inner n = true) then change (sync_root t) update_hash else mret tt);;
  mret (mkSync (sync_root t) (map_type t) (backed t) (ledger_seq t) Modifying false).

Definition sync_hash {E} (t : SyncTree) : M E SHAMapHash :=
  n ← read (sync_root t);
  if decide (hash n <> uint256_zero) then mret (hash n)
  else recompute_hashes_recursive LEVELS (sync_root t);; n ← read (sync_root t); mret (hash n).

(** ** Ledger *)

Record Ledger : Type := mkLedger {
  header : LedgerHeader;
  state_map : SyncTree;
  tx_map : SyncTree;
  immutable : bool;
  node_fetcher : option Fetch;
  mutable_state : option MutableTree
}.

(** The closure passed to the map: no fetcher, no node. *)
Definition fetch_fn (self : Ledger) : Fetch := match node_fetcher self with Some fetcher => fetcher | None => no_fetch end.

Definition ledger_new {E} (h : LedgerHeader) (backed : bool) : M E Ledger :=
  state_map ← new_with_type StateMap backed (header_seq h);
  tx_map ← new_with_type TransactionMap backed (header_seq h);
  mret (mkLedger h state_map tx_map false None None).

Definition exists_key (self : Ledger) (key : Uint256) : M TraversalError bool :=
  has_item (sync_root (state_map self)) key (backed (state_map self)) (fetch_fn self).

Definition peek_state (self : Ledger) (key : Uint256) : M TraversalError (option SHAMapItem) :=
  peek_item_at (sync_root (state_map self)) key (backed (state_map self)) (fetch_fn self).

(** ** Batches *)

Inductive StateBatchOp : Type := Insert | Update | Delete.

Definition batch_op (fetch : Fetch) (op : StateBatchOp * Uint256 * list Z) (tree : MutableTree) : M MutationError MutableTree :=
  let '(op, key, payload) := op in
  match op with
  | Insert =>
      item ← lift (item_new key payload);
      r ← add_item_with_fetch fetch tree AccountState item;
      if (r.1 : bool) then mret r.2 else lift (Err (DuplicateExactLeaf key))
  | Update =>
      item ← lift (item_new key payload);
      r ← update_item_with_fetch fetch tree AccountState item;
      mret r.2
  | Delete =>
      r ← delete_item_with_fetch fetch tree key;
      if (r.1 : bool) then mret r.2 else lift (Err (MissingExactLeaf key))
  end.

Fixpoint batch_ops (fetch : Fetch) (ops : list (StateBatchOp * Uint256 * list Z)) (tree : MutableTree) : M MutationError MutableTree :=
  match ops with
  | [] => mret tree
  | op :: ops => tree ← batch_op fetch op tree; batch_ops fetch ops tree
  end.

Definition current_root (self : Ledger) : loc := match mutable_state self with Some tree => root tree | None => sync_root (state_map self) end.

(** The counter [NEXT_COWID]: the owner that is taken and the counter after that. *)
Definition next_owner (root_cowid next : Z) : Z * Z :=
  let minimum_cowid := Z.max (saturate U32 (root_cowid + 1)) 1 in
  (Z.max next minimum_cowid, saturate U32 (Z.max next minimum_cowid + 1)).

Definition publish (self : Ledger) (tree : MutableTree) : Ledger :=
  let m := state_map self in
  let next_state_map := from_root_with_type (root tree) (map_type m) (backed m) (header_seq (header self)) (state m) in
  mkLedger (header self) (if is_full m then set_full next_state_map else next_state_map) (tx_map self) (immutable self) (node_fetcher self) (Some tree).

(** [self] is changed only at the end. *)
Definition apply_state_batch (self : Ledger) (ops : list (StateBatchOp * Uint256 * list Z)) (next : Z) (h : heap)
    : outcome MutationError unit * Ledger * Z * heap :=
  match ops with
  | [] => (Ok tt, self, next, h)
  | _ =>
      match read (E := MutationError) (current_root self) h with
      | (Ok n, _) =>
          let '(cowid, next) := next_owner (cowid n) next in
          match (tree ← from_loaded_root (current_root self) cowid; batch_ops (fetch_fn self) ops tree) h with
          | (Ok tree, h) => (Ok tt, publish self tree, next, h)
          | (Err e, h) => (Err e, self, next, h)
          | (Panic, h) => (Panic, self, next, h)
          | (Wraps, h) => (Wraps, self, next, h)
          | (OutOfFuel, h) => (OutOfFuel, self, next, h)
          end
      | (_, h) => (Panic, self, next, h)
      end
  end.

Definition insert_state_map_item (self : Ledger) (key : Uint256) (payload : list Z) := apply_state_batch self [(Insert, key, payload)].
Definition update_state_map_item (self : Ledger) (key : Uint256) (payload : list Z) := apply_state_batch self [(Update, key, payload)].
Definition delete_state_map_item (self : Ledger) (key : Uint256) := apply_state_batch self [(Delete, key, [])].

Definition replace_state_map_item (self : Ledger) (key : Uint256) (payload : list Z) (next : Z) (h : heap)
    : outcome MutationError unit * Ledger * Z * heap :=
  match peek_state self key h with
  | (Ok (Some _), h) => apply_state_batch self [(Update, key, payload)] next h
  | (Ok None, h) => apply_state_batch self [(Insert, key, payload)] next h
  | (Err e, h) => (Err (Traversal e), self, next, h)
  | (Panic, h) => (Panic, self, next, h)
  | (Wraps, h) => (Wraps, self, next, h)
  | (OutOfFuel, h) => (OutOfFuel, self, next, h)
  end.

(** ** Transactions *)

Definition insert_tx_map_item (self : Ledger) (key : Uint256) (txn_bytes metadata_bytes : list Z) (h : heap) : outcome MutationError unit * Ledger * heap :=
  let m := tx_map self in
  let seq := header_seq (header self) in
  match (p ← lift (add_vl txn_bytes []);
         p ← lift (add_vl metadata_bytes p.2);
         tree ← from_loaded_root (sync_root m) (Z.max seq 1);
         item ← lift (item_new key p.2);
         r ← add_item tree TransactionMd item;
         if (r.1 : bool) then mret r.2 else lift (Err (DuplicateExactLeaf key))) h with
  | (Ok tree, h) =>
      let next_tx_map := from_root_with_type (root tree) (map_type m) (backed m) seq (state m) in
      (Ok tt, mkLedger (header self) (state_map self) (if is_full m then set_full next_tx_map else next_tx_map) (immutable self) (node_fetcher self) (mutable_state self), h)
  | (Err e, h) => (Err e, self, h)
  | (Panic, h) => (Panic, self, h)
  | (Wraps, h) => (Wraps, self, h)
  | (OutOfFuel, h) => (OutOfFuel, self, h)
  end.

(** ** Closing *)

Definition set_hashes (h : LedgerHeader) (hash tx_hash account_hash : SHAMapHash) : LedgerHeader :=
  mkHeader (header_seq h) (drops h) hash (parent_hash h) tx_hash account_hash (parent_close_time h) (close_time h) (validated h) (accepted h)
    (close_time_resolution h) (close_flags h).

Definition finalize_immutable {E} (self : Ledger) (rehash : bool) : M E Ledger :=
  let h := header self in
  h ← (if negb (immutable self) && rehash then
         txs ← sync_hash (tx_map self);
         let tx := if bool_decide (txs <> uint256_zero) || bool_decide (tx_hash h = uint256_zero) then txs else tx_hash h in
         states ← sync_hash (state_map self);
         let account := if bool_decide (states <> uint256_zero) || bool_decide (account_hash h = uint256_zero) then states else account_hash h in
         mret (set_hashes h (header_hash h) tx account)
       else mret h);
  let h := if rehash then set_hashes h (calculate_ledger_hash h) (tx_hash h) (account_hash h) else h in
  txs ← lift (set_immutable (tx_map self));
  states ← lift (set_immutable (state_map self));
  mret (mkLedger h states txs true (node_fetcher self) (mutable_state self)).

(** ** The next ledger *)

Definition LEDGER_POSSIBLE_TIME_RESOLUTIONS : list Z := [10; 20; 30; 60; 90; 120].
Definition INCREASE_LEDGER_TIME_RESOLUTION_EVERY : Z := 8.
Definition DECREASE_LEDGER_TIME_RESOLUTION_EVERY : Z := 1.

Definition get_next_ledger_time_resolution (previous_resolution : Z) (previous_agree : bool) (seq : Z) : Z :=
  match list_find (eq previous_resolution) LEDGER_POSSIBLE_TIME_RESOLUTIONS with
  | None => previous_resolution
  | Some (index, _) =>
      if negb previous_agree && (seq mod DECREASE_LEDGER_TIME_RESOLUTION_EVERY =? 0) then default previous_resolution (LEDGER_POSSIBLE_TIME_RESOLUTIONS !! S index)
      else if previous_agree && (seq mod INCREASE_LEDGER_TIME_RESOLUTION_EVERY =? 0) then
        match index with O => previous_resolution | S index => default previous_resolution (LEDGER_POSSIBLE_TIME_RESOLUTIONS !! index) end
      else previous_resolution
  end.

Definition round_close_time {E} (close_time close_resolution : Z) : outcome E Z :=
  if (close_time =? 0) || (close_resolution =? 0) then Ok close_time
  else rounded <- plain U32 (close_time + close_resolution / 2);; Ok (rounded - rounded mod close_resolution).

(** [increment], on the bytes from the last to the first. *)
Fixpoint increment_rev (bytes : list Z) : list Z :=
  match bytes with
  | [] => []
  | b :: bytes => if b =? 255 then 0 :: increment_rev bytes else b + 1 :: bytes
  end.

Definition increment_hash (h : SHAMapHash) : SHAMapHash := rev (increment_rev (rev h)).

Definition from_previous {E} (prev : Ledger) (time : Z) : M E Ledger :=
  let p := header prev in
  let next_seq := cast U32 (header_seq p + 1) in
  let resolution := get_next_ledger_time_resolution (close_time_resolution p) (get_close_agree p) next_seq in
  time ← lift (if close_time p =? 0 then round_close_time time resolution else plain U32 (close_time p + resolution));
  states ← share_root_snapshot (state_map prev);
  txs ← new_with_type TransactionMap true 0;
  mret (mkLedger (mkHeader next_seq (drops p) (increment_hash (header_hash p)) (header_hash p) uint256_zero uint256_zero (close_time p) time false false resolution 0)
    states txs false (node_fetcher prev) None).

End Ledger.
