(* ===== verification/LedgerBatch.v ===== *)
(** * LedgerBatch: a batch of changes to the state of a ledger

    A batch is applied to a copy that shares the nodes of the ledger's state and is
    published if every operation succeeds.  It does to the state what the operations
    do to a map, or nothing ([batch_spec]); trees with smaller owners, those of all other
    ledgers, stand as they are. *)

From stdpp Require Import gmap list.
From Stdlib Require Import ZArith Lia.
From S2P Require Import Prelude Serializer ShamapKey ShamapNode ShamapSlots ShamapTree ShamapHeap ShamapRepr ShamapWalk ShamapMutate ShamapDelete ShamapMap ShamapHash LedgerHeader LedgerState.
Local Open Scope Z_scope.

(** ** A batch on a map *)

Abbreviation state := (gmap Uint256 SHAMapItem).

Definition batch_step (m : state) (op : StateBatchOp * Uint256 * list Z) : MutationError + state :=
  let '(op, key, payload) := op in
  match op, m !! key with
  | Insert, None | Update, Some _ => inr (<[key := mkItem key payload]> m)
  | Insert, Some _ => inl (DuplicateExactLeaf key)
  | Update, None | Delete, None => inl (MissingExactLeaf key)
  | Delete, Some _ => inr (delete key m)
  end.

Fixpoint batch_steps (m : state) (ops : list (StateBatchOp * Uint256 * list Z)) : MutationError + state :=
  match ops with
  | [] => inr m
  | op :: ops => match batch_step m op with inl e => inl e | inr m => batch_steps m ops end
  end.

(** Keys are 32 bytes, entries between 12 bytes and 16 MiB. *)
Definition batch_op_ok (op : StateBatchOp * Uint256 * list Z) : Prop :=
  let '(op, key, payload) := op in
  is_key key /\ (op = Delete \/ (MIN_SHAMAP_ITEM_BYTES <= length payload)%nat /\ Z.of_nat (length payload) <= 16 * 1024 * 1024).

(** The items that are written. *)
Definition batch_items (op : StateBatchOp * Uint256 * list Z) : list SHAMapItem :=
  match op with (Delete, _, _) => [] | (_, key, payload) => [mkItem key payload] end.

Lemma batch_known (known : SHAMapItem -> Prop) ops : forall m m', batch_steps m ops = inr m' ->
  map_Forall (fun _ => known) m -> Forall known (ops ≫= batch_items) -> map_Forall (fun _ => known) m'.
Proof.
  induction ops as [|[[op key] payload] ops IH]; intros m m' Hs Hm Hit; [now injection Hs as <-|]. cbn in Hs, Hit. apply Forall_app in Hit as [Hit Hits].
  destruct op, (m !! key); try discriminate; refine (IH _ _ Hs _ Hits); try (apply map_Forall_insert_2; [exact (Forall_inv Hit)|exact Hm]). now apply (map_Forall_delete (fun _ => known)).
Qed.

Section Batch.
Context `{Sha512} (store : ghost) (known : SHAMapItem -> Prop) (Hknown : distinct AccountState known).

(** ** One operation *)

Section Ops.
Context (c : Z) (Hc : 1 <= c) (fetch : Fetch) (Hfetch : fetch_ok store true fetch).

Lemma changed_result (m : M MutationError (bool * MutableTree)) self h r self' h' : changed m self h = (Changed r, self', h') ->
  match r with Ok b => m h = (Ok (b, self'), h') | Err e => m h = (Err e, h') | _ => True end.
Proof. unfold changed. destruct (m h) as [[[b s]|e| | |] h1]; intros [= <- <- <-]; auto. Qed.

Lemma batch_op_spec op tree h t m : tree_ok store c h tree t -> stands_for AccountState t m -> batch_op_ok op -> map_Forall (fun _ => known) m -> Forall known (batch_items op) ->
  exists r h', batch_op fetch op tree h = (r, h') /\ keeps store c h h' /\
    match batch_step m op with inr m' => exists tree' t', r = Ok tree' /\ tree_ok store c h' tree' t' /\ stands_for AccountState t' m' | inl e => r = Err e end.
Proof.
  intros Hto Hst Hop Hm Hit. destruct op as [[op key] payload]. destruct Hop as [Hkey Hsize].
  pose (o := match op with Insert => OpAdd (mkItem key payload) | Update => OpUpdate (mkItem key payload) | Delete => OpDelete key end).
  assert (op_ok o) as Ho by (destruct op; cbn; [| |exact Hkey]; destruct Hsize as [|[Hmin _]]; try discriminate; split; auto).
  assert (op <> Delete -> item_new (E := MutationError) key payload = Ok (mkItem key payload)) as Hnew.
  { intros Hne. unfold item_new. rewrite decide_True; [reflexivity|]. destruct Hsize as [|[_ Hmax]]; [contradiction|exact Hmax]. }
  destruct (op_spec true fetch (collapse_fetched fetch) AccountState store c Hc Hfetch (collapse_fetched_ok store c Hc fetch Hfetch) ltac:(discriminate) known Hknown o tree h t m Hto Hst Ho Hm ltac:(now destruct op))
    as (self' & h' & t' & Hrun & Hkeep & Hto' & Hst').
  destruct op; unfold o in *; cbn [run_op map_step batch_step item_key] in *; destruct (m !! key) as [y|] eqn:Hy; cbn [fst snd] in *; apply changed_result in Hrun;
    unfold batch_op, add_item_with_fetch, update_item_with_fetch, delete_item_with_fetch; rewrite ?Hnew by discriminate.
  all: try (rewrite (mbind_ok (lift (Ok (mkItem key payload))) _ h _ _ eq_refl)).
  all: first [rewrite (mbind_ok _ _ _ _ _ Hrun)|rewrite (mbind_err _ _ _ _ _ Hrun)].
  all: eexists _, _; (split; [reflexivity|]); split; [exact Hkeep|]; eauto.
Qed.

Lemma batch_ops_spec ops : forall tree h t m, tree_ok store c h tree t -> stands_for AccountState t m -> Forall batch_op_ok ops -> map_Forall (fun _ => known) m -> Forall known (ops ≫= batch_items) ->
  exists r h', batch_ops fetch ops tree h = (r, h') /\ keeps store c h h' /\
    match batch_steps m ops with inr m' => exists tree' t', r = Ok tree' /\ tree_ok store c h' tree' t' /\ stands_for AccountState t' m' | inl e => r = Err e end.
Proof.
  induction ops as [|op ops IH]; intros tree h t m Hto Hst Hok Hm Hit; cbn [batch_ops batch_steps].
  - eexists _, _. split; [reflexivity|]. split; [apply keeps_refl|]. eauto.
  - apply Forall_cons in Hok as [Hop Hops]. pose proof (batch_known known [op] m) as Hm1. cbn in Hit, Hm1. rewrite app_nil_r in Hm1. apply Forall_app in Hit as [Hit Hits].
    destruct (batch_op_spec op tree h t m Hto Hst Hop Hm Hit) as (r & h1 & Hrun & Hkeep & Hcase).
    destruct (batch_step m op) as [e|m1]; [subst r; eexists _, _; split; [rewrite (mbind_err _ _ _ _ _ Hrun); reflexivity|auto]|].
    destruct Hcase as (tree1 & t1 & -> & Hto1 & Hst1). rewrite (mbind_ok _ _ _ _ _ Hrun). destruct (IH tree1 h1 t1 m1 Hto1 Hst1 Hops (Hm1 m1 eq_refl Hm Hit) Hits) as (r & h2 & Hruns & Hkeep2 & Hcase).
    eexists _, _. split; [exact Hruns|]. split; [eapply keeps_trans; eassumption|exact Hcase].
Qed.

End Ops.

(** ** The batch *)

(** What a batch leaves alone, and where the state is afterwards. *)
Record published (self self' : Ledger) : Prop := {
  pub_header : header self' = header self;
  pub_tx : tx_map self' = tx_map self;
  pub_immutable : immutable self' = immutable self;
  pub_fetcher : node_fetcher self' = node_fetcher self;
  pub_backed : backed (state_map self') = backed (state_map self);
  pub_state : LedgerState.state (state_map self') = LedgerState.state (state_map self);
  pub_full : is_full (state_map self') = is_full (state_map self);
  pub_root : current_root self = sync_root (state_map self) -> current_root self' = sync_root (state_map self')
}.

Lemma published_refl self : published self self.
Proof. constructor; auto. Qed.

Lemma publish_ok self tree : published self (publish self tree) /\ current_root (publish self tree) = root tree.
Proof. split; [|reflexivity]. constructor; try reflexivity; cbn; now destruct (is_full (state_map self)). Qed.

Lemma owner_taken k next : 0 <= k < next -> 1 <= next < 2 ^ 32 - 1 -> next_owner k next = (next, next + 1).
Proof. intros Hk Hn. unfold next_owner, saturate. cbn [min_of max_of]. f_equal; lia. Qed.

Lemma frozen_tree_ok c h l t : frozen store c h l t -> tree_ok store c h (mkTree l c) t.
Proof. intros Hf. split; [reflexivity|]. exists (MFrozen l t). split; [now apply holds_frozen|]. split; [constructor|]. auto. Qed.

Lemma batch_spec self ops next h t m : frozen store next h (current_root self) t -> stands_for AccountState t m -> 1 <= next < 2 ^ 32 - 1 ->
  fetch_ok store true (fetch_fn self) -> Forall batch_op_ok ops -> map_Forall (fun _ => known) m -> Forall known (ops ≫= batch_items) ->
  exists r self' next' h', apply_state_batch self ops next h = (r, self', next', h') /\ next <= next' <= next + 1 /\ keeps store next h h' /\
    match batch_steps m ops with
    | inr m' => r = Ok tt /\ published self self' /\ match ops with [] => self' = self | _ => exists tree, mutable_state self' = Some tree /\ owner tree = next /\ next' = next + 1 end /\ exists t', frozen store next' h' (current_root self') t' /\ stands_for AccountState t' m'
    | inl e => r = Err e /\ self' = self
    end.
Proof.
  intros Hf Hst Hn Hfetch Hok Hm Hit. unfold apply_state_batch. destruct ops as [|op ops].
  { eexists _, _, _, _. split; [reflexivity|]. split; [lia|]. split; [apply keeps_refl|]. cbn. split; [reflexivity|]. split; [apply published_refl|]. split; [reflexivity|]. eauto. }
  assert (exists n, h !! current_root self = Some n /\ 0 <= cowid n < next) as (n & Hn0 & Hcn) by (inversion Hf; eauto).
  rewrite (read_ok _ h n Hn0), (owner_taken (cowid n) next Hcn Hn).
  assert (from_loaded_root (E := MutationError) (current_root self) next h = (Ok (mkTree (current_root self) next), h)) as Hfrom.
  { unfold from_loaded_root. rewrite decide_False by lia. run (read_ok (E := MutationError) _ h n Hn0). now rewrite decide_True by lia. }
  rewrite (mbind_ok _ _ _ _ _ Hfrom).
  destruct (batch_ops_spec next (proj1 Hn) (fetch_fn self) Hfetch (op :: ops) _ h t m (frozen_tree_ok next h _ t Hf) Hst Hok Hm Hit) as (r & h' & Hrun & Hkeep & Hcase); rewrite Hrun.
  destruct (batch_steps m (op :: ops)) as [e|m'].
  - subst r. eexists _, _, _, _. split; [reflexivity|]. split; [lia|auto].
  - destruct Hcase as (tree' & t' & -> & (Ho & mt & Hmt & _ & Hl & He) & Hst'). eexists _, _, _, _. split; [reflexivity|]. split; [lia|]. split; [exact Hkeep|].
    destruct (publish_ok self tree') as [Hpub Hroot]. split; [reflexivity|]. split; [exact Hpub|]. split; [exists tree'; auto|]. exists t'. split; [|exact Hst']. rewrite Hroot, <- He. now apply holds_frozen_up.
Qed.

End Batch.
