(* ===== verification/LedgerWorld.v ===== *)
(** * LedgerWorld: ledgers that share nodes

    Any number of ledgers, each built on another one, over one store of nodes.  Seen from
    outside every ledger is a map with a mark that says whether it is closed; a step on one
    ledger changes that map and no other ([world_spec]), and the header of a closed ledger
    has the digest of its map. *)

From stdpp Require Import gmap list.
From Stdlib Require Import ZArith Lia.
From S2P Require Import Prelude Serializer ShamapKey ShamapNode ShamapSlots ShamapTree ShamapHeap ShamapRepr ShamapWalk ShamapMutate ShamapMap ShamapHash LedgerHeader LedgerState LedgerBatch.
Local Open Scope Z_scope.

Record world : Type := mkWorld { w_heap : heap; w_next : Z; w_ledgers : list Ledger }.

Inductive world_op : Type :=
| WBatch (i : nat) (ops : list (StateBatchOp * Uint256 * list Z))
| WClose (i : nat)
| WNext (i : nat) (time : Z)
| WHas (i : nat) (key : Uint256)
| WPeek (i : nat) (key : Uint256).

Inductive world_reply : Type :=
| RNone
| RBatch (r : outcome MutationError unit)
| RDone (r : outcome TraversalError unit)
| RHas (r : outcome TraversalError bool)
| RPeek (r : outcome TraversalError (option SHAMapItem)).

Definition void {E A} (r : outcome E A) : outcome E unit := _ <- r;; Ok tt.

Definition op_index (op : world_op) : nat := match op with WBatch i _ | WClose i | WNext i _ | WHas i _ | WPeek i _ => i end.

Section World.
Context `{Sha512}.

Definition world_step (w : world) (op : world_op) : world_reply * world :=
  match w_ledgers w !! op_index op with
  | None => (RNone, w)
  | Some self =>
      match op with
      | WBatch i ops =>
          let '(r, self, next, h) := apply_state_batch self ops (w_next w) (w_heap w) in
          (RBatch r, mkWorld h next (<[i := self]> (w_ledgers w)))
      | WClose i =>
          let '(r, h) := finalize_immutable self true (w_heap w) in
          (RDone (void r), mkWorld h (w_next w) (match r with Ok self => <[i := self]> (w_ledgers w) | _ => w_ledgers w end))
      | WNext i time =>
          let '(r, h) := from_previous self time (w_heap w) in
          (RDone (void r), mkWorld h (w_next w) (match r with Ok next => w_ledgers w ++ [next] | _ => w_ledgers w end))
      | WHas i key => let '(r, h) := exists_key self key (w_heap w) in (RHas r, mkWorld h (w_next w) (w_ledgers w))
      | WPeek i key => let '(r, h) := peek_state self key (w_heap w) in (RPeek r, mkWorld h (w_next w) (w_ledgers w))
      end
  end.

Fixpoint world_steps (w : world) (ops : list world_op) : list world_reply * world :=
  match ops with
  | [] => ([], w)
  | op :: ops => let '(r, w) := world_step w op in let '(rs, w) := world_steps w ops in (r :: rs, w)
  end.

End World.

(** ** The ledgers as maps *)

(** With the map, whether the ledger is closed, has a tree of its own since a batch, and is
    stored. *)
Record view : Type := mkView { v_map : state; v_closed : bool; v_own : bool; v_saved : bool }.

Definition after_batch (v : view) (ops : list (StateBatchOp * Uint256 * list Z)) (m : state) : view := match ops with [] => v | _ => mkView m false true false end.
Definition after_close (v : view) : view := mkView (v_map v) true (v_own v) (v_saved v).
Definition after_next (v : view) : view := mkView (v_map v) false false (v_saved v).

(** Ledgers are changed while they are open, and built upon when they are closed. *)
Definition legal (vs : list view) (op : world_op) : Prop :=
  exists v, vs !! op_index op = Some v /\
  match op with
  | WBatch _ ops => v_closed v = false /\ Forall batch_op_ok ops
  | WClose _ => True
  | WNext _ _ => v_closed v = true
  | WHas _ key | WPeek _ key => is_key key
  end.

(** The items that are written, and those the ledgers hold. *)
Definition world_items (op : world_op) : list SHAMapItem := match op with WBatch _ ops => ops ≫= batch_items | _ => [] end.

Definition holds_only (known : SHAMapItem -> Prop) (vs : list view) : Prop := Forall (fun v => map_Forall (fun _ => known) (v_map v)) vs.

(** What a legal step answers, and what it does to the maps. *)
Inductive view_step (vs : list view) : world_op -> world_reply -> list view -> Prop :=
| view_batch i ops v m : vs !! i = Some v -> batch_steps (v_map v) ops = inr m -> view_step vs (WBatch i ops) (RBatch (Ok tt)) (<[i := after_batch v ops m]> vs)
| view_refused i ops v e : vs !! i = Some v -> batch_steps (v_map v) ops = inl e -> view_step vs (WBatch i ops) (RBatch (Err e)) vs
| view_close i v : vs !! i = Some v -> view_step vs (WClose i) (RDone (Ok tt)) (<[i := after_close v]> vs)
| view_next i time v : vs !! i = Some v -> view_step vs (WNext i time) (RDone (Ok tt)) (vs ++ [after_next v])
| view_late i time : view_step vs (WNext i time) (RDone Wraps) vs
| view_has i key v : vs !! i = Some v -> view_step vs (WHas i key) (RHas (Ok (bool_decide (is_Some (v_map v !! key))))) vs
| view_peek i key v : vs !! i = Some v -> view_step vs (WPeek i key) (RPeek (Ok (v_map v !! key))) vs.

Inductive view_steps : list view -> list world_op -> list world_reply -> list view -> Prop :=
| view_done vs : view_steps vs [] [] vs
| view_more vs op r vs1 ops rs vs2 : view_step vs op r vs1 -> view_steps vs1 ops rs vs2 -> view_steps vs (op :: ops) (r :: rs) vs2.

(** Every operation is legal after those before it, which answered [rs]. *)
Inductive legal_steps : list view -> list world_op -> list world_reply -> Prop :=
| legal_done vs : legal_steps vs [] []
| legal_more vs op ops r rs : legal vs op -> (forall vs', view_step vs op r vs' -> legal_steps vs' ops rs) -> legal_steps vs (op :: ops) (r :: rs).

Lemma view_known (known : SHAMapItem -> Prop) vs op r vs' : view_step vs op r vs' -> holds_only known vs -> Forall known (world_items op) -> holds_only known vs'.
Proof.
  unfold holds_only. intros Hstep Hvs Hit. pose proof (fun i v Hv => Forall_lookup_1 _ _ i v Hvs Hv) as Hl. destruct Hstep; auto; cbn [world_items] in *.
  - apply Forall_insert; [exact Hvs|]. destruct ops as [|op ops]; [eauto|]. cbn [after_batch v_map]. eapply batch_known; eauto.
  - apply Forall_insert; [exact Hvs|]. cbn. eauto.
  - apply Forall_app. split; [exact Hvs|]. apply Forall_cons. split; [cbn; eauto|constructor].
Qed.

Section Good.
Context `{Sha512} (store : ghost).

(** A node without an owner. *)
Definition shared_at (h : heap) (l : loc) : Prop := exists n, h !! l = Some n /\ cowid n = 0.

(** ** What holds of every ledger *)

Record ledger_good (next : Z) (h : heap) (L : Ledger) (v : view) : Prop := {
  g_tree : exists t, frozen store next h (current_root L) t /\ stands_for AccountState t (v_map v) /\
    (immutable L = true -> hashed h (current_root L) t /\ account_hash (header L) = merkle t);
  g_tx : exists t, frozen store next h (sync_root (tx_map L)) t /\ rooted t /\ shared_at h (sync_root (tx_map L)) /\ (immutable L = true -> tx_hash (header L) = merkle t);
  g_root : current_root L = sync_root (state_map L);
  g_fetch : fetch_ok store (backed (state_map L)) (fetch_fn L);
  g_states : LedgerState.state (state_map L) <> Invalid /\ LedgerState.state (tx_map L) <> Invalid;
  g_closed : immutable L = v_closed v;
  g_open : immutable L = false -> account_hash (header L) = uint256_zero /\ tx_hash (header L) = uint256_zero;
  g_hash : immutable L = true -> header_hash (header L) = calculate_ledger_hash (header L);
  g_own : match mutable_state L with Some tree => v_own v = true /\ 1 <= owner tree /\ (owner tree < next \/ shared_at h (root tree)) | None => v_own v = false end;
  g_saved : v_saved v = true -> shared_at h (current_root L)
}.

Definition good (w : world) (vs : list view) : Prop := 1 <= w_next w /\ Forall2 (ledger_good (w_next w) (w_heap w)) (w_ledgers w) vs.

(** Stores of nodes between which no ledger changes. *)
Definition stable (next : Z) (h h' : heap) : Prop :=
  (forall l t, frozen store next h l t -> frozen store next h' l t) /\
  (forall l t, frozen store next h l t -> hashed h l t -> hashed h' l t) /\
  (forall l, shared_at h l -> shared_at h' l).

Lemma stable_trans next h1 h2 h3 : stable next h1 h2 -> stable next h2 h3 -> stable next h1 h3.
Proof. intros (F1 & H1 & C1) (F2 & H2 & C2). split; auto. Qed.

Lemma keeps_stable next h h' : 1 <= next -> keeps store next h h' -> stable next h h'.
Proof.
  intros Hnext Hk. split; [intros l t; now apply frozen_keeps|]. split; [|intros l (n & Hn & Hz); destruct (Hk l n Hn ltac:(lia)) as (n' & Hn' & _ & Hc & _); exists n'; split; [exact Hn'|congruence]]. clear Hnext.
  intros l t Hf (n & Hn & Hh & Hcl). assert (0 <= cowid n < next) as Hcn by (inversion Hf; congruence).
  destruct (Hk l n Hn Hcn) as (n' & Hn' & Hh' & _ & Hb). exists n'. split; [exact Hn'|]. split; [congruence|].
  destruct (body n') as [i'|ty' it'] eqn:Hb'; [|now destruct t]. destruct t as [|ty it|kids]; [exact I|exact I|].
  inversion Hf as [|? n0 i ? Hn0 _ Hb0 Hi0 _ _ _]; subst. assert (n0 = n) as -> by congruence. rewrite Hb0 in Hb, Hcl. destruct (Hb Hi0) as [_ Hs].
  unfold clean in *. rewrite <- Hcl. clear -Hs. induction Hs as [|s s' k k' Hs Hk IH]; [reflexivity|]. rewrite !fmap_cons, IH. f_equal. eapply slot_grows_hash, Hs.
Qed.

Lemma settles_stable next h h' : settles store h h' -> stable next h h'.
Proof.
  intros (F & Hh & Hc). split; [auto|]. split; [intros l t Hf; apply Hh; eauto|]. intros l (n & Hn & Hz). destruct (Hc l n Hn) as (n' & Hn' & Hcn & _). exists n'. split; [exact Hn'|congruence].
Qed.

Lemma ledger_stable next next' h h' L v : stable next h h' -> next <= next' -> ledger_good next h L v -> ledger_good next' h' L v.
Proof.
  intros (Hf & Hh & Hz) Hn [(t & Ht & Hst & Hc) (tx & Htx & Hsx & Hzx & Hcx) Hr Hfe Hs Hcl Ho Hha Hown Hsav]. constructor; auto.
  - exists t. split; [eapply frozen_mono; eauto|]. split; [exact Hst|]. intros Hi. destruct (Hc Hi) as [H1 H2]. auto.
  - exists tx. split; [eapply frozen_mono; eauto|auto].
  - destruct (mutable_state L); [|exact Hown]. destruct Hown as (? & ? & [?|?]); repeat (split; [assumption|]); [left; lia|right; auto].
Qed.

Lemma fetch_backed b fetch : fetch_ok store b fetch -> fetch_ok store true fetch.
Proof. intros Hf e t He. destruct (Hf e t He) as [_ Hx]. auto. Qed.

(** ** Steps *)

Context (known : SHAMapItem -> Prop) (Hknown : distinct AccountState known).

Lemma batch_good next h L v ops : ledger_good next h L v -> v_closed v = false -> 1 <= next < 2 ^ 32 - 1 -> Forall batch_op_ok ops -> map_Forall (fun _ => known) (v_map v) -> Forall known (ops ≫= batch_items) ->
  exists r L' next' h', apply_state_batch L ops next h = (r, L', next', h') /\ next <= next' <= next + 1 /\ stable next h h' /\ header L' = header L /\
    match batch_steps (v_map v) ops with inr m => r = Ok tt /\ ledger_good next' h' L' (after_batch v ops m) | inl e => r = Err e /\ ledger_good next' h' L' v end.
Proof.
  intros Hg Hcl Hn Hok Hm Hit. pose proof Hg as [(t & Ht & Hst & _) (tx & Htx & Hsx & Hzx & Hcx) Hr Hfe Hs Hic Ho Hha _ _].
  destruct (batch_spec store known Hknown L ops next h t (v_map v) Ht Hst Hn (fetch_backed _ _ Hfe) Hok Hm Hit) as (r & L' & next' & h' & Hrun & Hnn & Hkeep & Hcase).
  exists r, L', next', h'. split; [exact Hrun|]. pose proof (keeps_stable next h h' ltac:(lia) Hkeep) as Hstab. split; [exact Hnn|]. split; [exact Hstab|].
  destruct (batch_steps (v_map v) ops) as [e|m]; [destruct Hcase as [-> ->]; split; [reflexivity|]; split; [reflexivity|]; eapply ledger_stable; eauto; lia|].
  destruct Hcase as (-> & Hpub & Hown & t' & Ht' & Hst'). split; [apply Hpub|]. split; [reflexivity|]. destruct ops as [|op ops]; [subst L'; eapply ledger_stable; eauto; lia|].
  destruct Hpub as [Ph Pt Pi Pf Pb Ps _ Pr]. assert (immutable L' = false) as Hi' by congruence. constructor; cbn [v_map v_closed v_own v_saved after_batch].
  - exists t'. split; [exact Ht'|]. split; [exact Hst'|]. congruence.
  - rewrite Pt. exists tx. split; [eapply frozen_mono; [|apply Hstab, Htx]; lia|]. split; [exact Hsx|]. split; [apply Hstab, Hzx|congruence].
  - auto.
  - unfold fetch_fn. rewrite Pf, Pb. exact Hfe.
  - rewrite Ps, Pt. exact Hs.
  - exact Hi'.
  - intros _. rewrite Ph. apply Ho. congruence.
  - congruence.
  - destruct Hown as (tree & -> & -> & ->). split; [reflexivity|lia].
  - discriminate.
Qed.

Lemma sync_hash_spec {E} c h s t : frozen store c h (sync_root s) t -> shaped [] t -> exists h', sync_hash (E := E) s h = (Ok (merkle t), h') /\ settles store h h' /\ hashed h' (sync_root s) t.
Proof.
  intros Hf Hs. assert (exists n, h !! sync_root s = Some n) as [n Hn] by (inversion Hf; eauto). unfold sync_hash. run (read_ok (E := E) _ h n Hn). destruct (decide (hash n <> uint256_zero)) as [Hz|Hz].
  - pose proof (frozen_hashed store c h _ t n Hf Hn Hz) as Hh. pose proof Hh as (n' & Hn' & Hm & _). assert (n' = n) as -> by congruence. rewrite Hm. exists h. split; [reflexivity|]. split; [apply settles_refl|exact Hh].
  - destruct (recompute_spec (E := E) store c LEVELS [] h _ t Hf Hs ltac:(unfold LEVELS; cbn; lia)) as (h' & Hr & Hset & Hh). exists h'. run Hr. pose proof Hh as (n' & Hn' & Hm & _).
    run (read_ok (E := E) _ h' n' Hn'). rewrite Hm. auto.
Qed.

Lemma kept_hash (a b : SHAMapHash) : b = uint256_zero -> (if bool_decide (a <> uint256_zero) || bool_decide (b = uint256_zero) then a else b) = a.
Proof. intros ->. rewrite orb_comm. now rewrite (bool_decide_eq_true_2 (uint256_zero = uint256_zero)). Qed.

(** The hashes of the maps, computed when the ledger is closed for the first time. *)
Lemma close_hashes {E} next h L v : ledger_good next h L v -> exists h' hd,
  (if negb (immutable L) && true then
     txs ← sync_hash (tx_map L);
     let tx := if bool_decide (txs <> uint256_zero) || bool_decide (tx_hash (header L) = uint256_zero) then txs else tx_hash (header L) in
     states ← sync_hash (state_map L);
     let account := if bool_decide (states <> uint256_zero) || bool_decide (account_hash (header L) = uint256_zero) then states else account_hash (header L) in
     mret (set_hashes (header L) (header_hash (header L)) tx account)
   else mret (header L) : M E LedgerHeader) h = (Ok hd, h') /\ stable next h h' /\
  (exists t, frozen store next h' (current_root L) t /\ stands_for AccountState t (v_map v) /\ hashed h' (current_root L) t /\ account_hash hd = merkle t) /\
  (exists t, frozen store next h' (sync_root (tx_map L)) t /\ rooted t /\ shared_at h' (sync_root (tx_map L)) /\ tx_hash hd = merkle t).
Proof.
  intros [(t & Ht & Hst & Hc) (tx & Htx & Hsx & Hzx & Hcx) Hr Hfe Hs Hic Ho Hha _ _]. destruct (immutable L) eqn:Him; cbn [negb andb].
  - exists h, (header L). split; [reflexivity|]. split; [split; auto|]. destruct (Hc eq_refl) as [H1 H2]. split; [exists t; auto|exists tx; auto 6].
  - pose proof (proj1 Hst) as (kids & Heq & Hsh & _). pose proof Hsx as (kx & _ & Hshx & _). destruct (sync_hash_spec (E := E) next h (tx_map L) tx Htx Hshx) as (h1 & Hr1 & Hs1 & Hh1).
    destruct (settles_stable next h h1 Hs1) as (Hf1 & _ & Hz1). rewrite Hr in Ht. destruct (sync_hash_spec (E := E) next h1 (state_map L) t (Hf1 _ _ Ht) Hsh) as (h2 & Hr2 & Hs2 & Hh2).
    destruct (Ho eq_refl) as [Ha Hx]. exists h2, (set_hashes (header L) (header_hash (header L)) (merkle tx) (merkle t)). split.
    + run Hr1. run Hr2. now rewrite !kept_hash by assumption.
    + split; [eapply stable_trans; apply settles_stable; eassumption|]. destruct (settles_stable next h1 h2 Hs2) as (Hf2 & _ & Hz2). rewrite Hr. split; [exists t|exists tx]; auto 8.
Qed.

Lemma close_good {E} next h L v : ledger_good next h L v -> exists L' h', finalize_immutable (E := E) L true h = (Ok L', h') /\ stable next h h' /\ ledger_good next h' L' (after_close v).
Proof.
  intros Hg. destruct (close_hashes (E := E) next h L v Hg) as (h' & hd & Hrun & Hstab & (t & Ht & Hst & Hh & Ha) & (tx & Htx & Hsx & Hzx & Hcx)).
  pose proof Hg as [_ _ Hr Hfe [Hs1 Hs2] _ _ _ Hown Hsav]. eexists _, h'. split; [|split; [exact Hstab|]].
  - unfold finalize_immutable. cbv zeta. run Hrun. unfold set_immutable. rewrite !decide_False by assumption. reflexivity.
  - constructor; [exists t; auto|exists tx; auto|exact Hr|exact Hfe|split; discriminate|reflexivity|discriminate|reflexivity| |intros Hv; apply Hstab, Hsav, Hv].
    cbn [mutable_state]. destruct (mutable_state L); [|exact Hown]. destruct Hown as (? & ? & [?|Hz]); repeat (split; [assumption|]); [auto|right; apply Hstab, Hz].
Qed.

Lemma new_tree_frozen {E} next h ty b seq : 1 <= next -> exists s x, new_with_type (E := E) ty b seq h = (Ok s, h ++ x) /\ frozen store next (h ++ x) (sync_root s) (Node no_kids) /\ LedgerState.state s = Modifying /\ backed s = b /\ shared_at (h ++ x) (sync_root s).
Proof.
  intros Hn. destruct (new_inner_ok (E := E) 0) as (i & Hnew & Hi & Hsl). eexists _, _. split; [|split].
  - unfold new_with_type. run (lift_ok _ _ h Hnew). reflexivity.
  - cbn [sync_root]. eapply frozen_node; [apply list_lookup_middle; reflexivity|cbn; lia|reflexivity|exact Hi| | | |intros _; apply shared_none].
    + left. split; [reflexivity|]. unfold clean. now rewrite Hsl.
    + rewrite Hsl. apply Forall2_replicate. reflexivity.
    + intros b' e l' t Hb. rewrite Hsl in Hb. apply lookup_replicate in Hb as [[=] _].
  - split; [reflexivity|]. split; [reflexivity|]. cbn [sync_root]. eexists. split; [apply list_lookup_middle; reflexivity|reflexivity].
Qed.

Lemma empty_shaped : shaped [] (Node no_kids).
Proof. constructor; [split; [cbn; lia|constructor]|cbn; lia|reflexivity|]. intros b t Hb. apply lookup_replicate in Hb as [-> _]. constructor. Qed.

Lemma empty_rooted : rooted (Node no_kids).
Proof. exists no_kids. split; [reflexivity|]. split; [apply empty_shaped|]. intros t Ht. apply elem_of_replicate_inv in Ht as ->. constructor. Qed.

Lemma share_spec {E} next h s t : frozen store next h (sync_root s) t -> (exists kids, t = Node kids /\ length kids = 16%nat) -> hashed h (sync_root s) t ->
  share_root_snapshot (E := E) s h = (Ok (mkSync (sync_root s) (map_type s) (backed s) (ledger_seq s) Modifying false), h).
Proof.
  intros Hf (kids & -> & Hk) (n & Hn & Hh & Hcl). inversion Hf as [|? n0 i ? Hn0 _ Hb Hi _ Hs _]; subst. assert (n0 = n) as -> by congruence. rewrite Hb in Hcl.
  unfold share_root_snapshot. run (read_ok (E := E) _ h n Hn). destruct (decide _) as [[Hz Hin]|]; [|reflexivity].
  assert (update_hash (E := E) n = Ok n) as Hu.
  { rewrite (update_hash_slots n i Hb Hi). rewrite (digest_merkle (slots i) kids Hk Hcl).
    - rewrite <- Hh. unfold after. rewrite <- Hb. now destruct n.
    - eapply Forall2_impl; [exact Hs|]. intros s0 t0 Hst. destruct s0 as [[e [l'|]]|]; cbn in Hst |- *; [| |tauto]; split; try discriminate; intros ->; tauto. }
  rewrite (mbind_ok _ _ _ _ _ (change_ok (E := E) _ update_hash h n n Hn Hu)). now rewrite list_insert_id.
Qed.

Lemma next_good {E} next h L v time : 1 <= next -> ledger_good next h L v -> v_closed v = true ->
  (exists L' h', from_previous (E := E) L time h = (Ok L', h') /\ stable next h h' /\ ledger_good next h' L' (after_next v)) \/
  from_previous (E := E) L time h = (Wraps, h).
Proof.
  intros Hn [(t & Ht & Hst & Hc) _ Hr Hfe _ Hic _ _ _ Hsav] Hcl. destruct (Hc ltac:(congruence)) as [Hh _]. unfold from_previous. cbv zeta.
  set (p := header L). set (r := get_next_ledger_time_resolution _ _ _).
  assert (exists o, (if close_time p =? 0 then round_close_time time r else plain U32 (close_time p + r)) = o /\ ((exists x, o = Ok x) \/ o = Wraps (E := E))) as (o & -> & [[x ->]| ->]); [| |right; reflexivity].
  { eexists. split; [reflexivity|]. unfold round_close_time, plain. destruct (close_time p =? 0); [destruct (_ || _); [eauto|]|]; destruct (fits _ _); cbn; eauto. }
  left. pose proof (proj1 Hst) as (kids & Heq & Hsh & _). rewrite Hr in Ht, Hh.
  pose proof (share_spec (E := E) next h (state_map L) t Ht ltac:(exists kids; split; [exact Heq|]; subst t; now inversion Hsh) Hh) as Hshare.
  destruct (new_tree_frozen (E := E) next h TransactionMap true 0 Hn) as (s & x0 & Hnew & Hfx & Hmod & _ & Hzx). eexists _, (h ++ x0). split; [run (lift_ok (E := E) (Ok x) x h eq_refl); run Hshare; run Hnew; reflexivity|].
  pose proof (keeps_stable next h (h ++ x0) Hn (keeps_app store next h x0)) as Hstab. split; [exact Hstab|].
  constructor; [|exists (Node no_kids); split; [exact Hfx|split; [apply empty_rooted|split; [exact Hzx|discriminate]]]|reflexivity|exact Hfe|split; [discriminate|cbn; congruence]|reflexivity|split; reflexivity|discriminate|reflexivity|].
  - exists t. split; [apply Hstab, Ht|]. split; [exact Hst|discriminate].
  - intros Hv. unfold current_root in Hsav at 1. cbn in Hv |- *. rewrite <- Hr. apply Hstab, Hsav, Hv.
Qed.

(** Reading. *)
Lemma read_good next h L v key : 1 <= next -> ledger_good next h L v -> is_key key ->
  (exists h', exists_key L key h = (Ok (bool_decide (is_Some (v_map v !! key))), h') /\ stable next h h') /\
  (exists h', peek_state L key h = (Ok (v_map v !! key), h') /\ stable next h h').
Proof.
  intros Hn [(t & Ht & Hst & _) _ Hr Hfe _ _ _ _ _ _] Hkey. rewrite Hr in Ht. pose proof (frozen_tree_ok store next h _ t Ht) as Hto. pose proof (stands_lookup AccountState t (v_map v) key Hst) as Hlk. split.
  - destruct (has_item_spec store next Hn _ _ Hfe _ h t key Hto (proj1 Hst) Hkey) as (h' & Hrun & Hkeep & _). exists h'. split; [|now apply keeps_stable]. unfold exists_key. cbn [root] in Hrun. rewrite Hrun, Hlk.
    do 2 f_equal. apply bool_decide_ext. destruct (v_map v !! key); cbn; split; intros [? Hx]; try discriminate; eauto.
  - destruct (peek_item_spec store next Hn _ _ Hfe _ h t key Hto (proj1 Hst) Hkey) as (h' & Hrun & Hkeep & _). exists h'. split; [|now apply keeps_stable]. unfold peek_state. cbn [root] in Hrun. rewrite Hrun, Hlk.
    do 2 f_equal. now destruct (v_map v !! key).
Qed.

(** ** All ledgers *)

Lemma others_stable next next' h h' Ls vs : stable next h h' -> next <= next' -> Forall2 (ledger_good next h) Ls vs -> Forall2 (ledger_good next' h') Ls vs.
Proof. intros Hs Hn Hg. eapply Forall2_impl; [exact Hg|]. intros L v. now apply ledger_stable. Qed.

Lemma world_step_spec w vs op : good w vs -> legal vs op -> w_next w < 2 ^ 32 - 1 -> holds_only known vs -> Forall known (world_items op) ->
  exists r w' vs', world_step w op = (r, w') /\ view_step vs op r vs' /\ good w' vs' /\ w_next w' <= w_next w + 1.
Proof.
  intros [Hn Hg] (v & Hv & Hleg) Hmax Hvs Hit. destruct w as [h next Ls]. cbn [w_heap w_next w_ledgers] in *. unfold world_step. cbn [w_heap w_next w_ledgers].
  destruct (Forall2_lookup_r _ _ _ _ _ Hg Hv) as (L & HL & HgL). rewrite HL. destruct op as [i ops|i|i time|i key|i key]; cbn [op_index] in *.
  - destruct Hleg as [Hcl Hok]. destruct (batch_good next h L v ops HgL Hcl ltac:(lia) Hok (Forall_lookup_1 _ _ _ _ Hvs Hv) Hit) as (r & L' & next' & h' & Hrun & Hnn & Hstab & _ & Hcase). rewrite Hrun.
    assert (forall u, ledger_good next' h' L' u -> good (mkWorld h' next' (<[i:=L']> Ls)) (<[i:=u]> vs)) as Hnew.
    { intros u Hu. split; [cbn; lia|]. cbn [w_heap w_next w_ledgers]. apply Forall2_insert; [|exact Hu]. apply (others_stable next next' h h'); [exact Hstab|lia|exact Hg]. }
    destruct (batch_steps (v_map v) ops) as [e|m] eqn:Hb; destruct Hcase as [-> HgL'].
    + eexists _, _, vs. split; [reflexivity|]. split; [eapply view_refused; eauto|]. split; [|cbn; lia]. rewrite <- (list_insert_id vs i v Hv). now apply Hnew.
    + eexists _, _, _. split; [reflexivity|]. split; [eapply view_batch; eauto|]. split; [now apply Hnew|cbn; lia].
  - destruct (close_good (E := TraversalError) next h L v HgL) as (L' & h' & Hrun & Hstab & HgL'). rewrite Hrun. eexists _, _, _. split; [reflexivity|]. split; [eapply view_close; eauto|].
    split; [|cbn; lia]. split; [exact Hn|]. cbn [w_heap w_next w_ledgers]. apply Forall2_insert; [|exact HgL']. apply (others_stable next next h h'); [exact Hstab|lia|exact Hg].
  - destruct (next_good (E := TraversalError) next h L v time Hn HgL Hleg) as [(L' & h' & Hrun & Hstab & HgL')|Hrun]; rewrite Hrun.
    + eexists _, _, _. split; [reflexivity|]. split; [eapply view_next; eauto|]. split; [|cbn; lia]. split; [exact Hn|]. cbn [w_heap w_next w_ledgers].
      apply Forall2_app; [apply (others_stable next next h h'); [exact Hstab|lia|exact Hg]|]. constructor; [exact HgL'|constructor].
    + eexists _, _, vs. split; [reflexivity|]. split; [apply view_late|]. split; [split; auto|cbn; lia].
  - destruct (read_good next h L v key Hn HgL Hleg) as [(h' & Hrun & Hstab) _]. rewrite Hrun. eexists _, _, vs. split; [reflexivity|]. split; [eapply view_has; eauto|]. split; [|cbn; lia].
    split; [exact Hn|]. apply (others_stable next next h h'); [exact Hstab|lia|exact Hg].
  - destruct (read_good next h L v key Hn HgL Hleg) as [_ (h' & Hrun & Hstab)]. rewrite Hrun. eexists _, _, vs. split; [reflexivity|]. split; [eapply view_peek; eauto|]. split; [|cbn; lia].
    split; [exact Hn|]. apply (others_stable next next h h'); [exact Hstab|lia|exact Hg].
Qed.

Lemma world_spec ops : forall w vs, good w vs -> legal_steps vs ops (world_steps w ops).1 -> w_next w + Z.of_nat (length ops) < 2 ^ 32 - 1 -> holds_only known vs -> Forall known (ops ≫= world_items) ->
  exists rs w' vs', world_steps w ops = (rs, w') /\ view_steps vs ops rs vs' /\ good w' vs'.
Proof.
  induction ops as [|op ops IH]; intros w vs Hg Hl Hmax Hvs Hit; cbn [world_steps] in *.
  - eexists _, _, _. split; [reflexivity|]. split; [constructor|exact Hg].
  - cbn in Hit. apply Forall_app in Hit as [Hit Hits]. cbn [length] in Hmax. destruct (world_step w op) as [r w1] eqn:Hstep. destruct (world_steps w1 ops) as [rs w2] eqn:Hsteps. inversion Hl as [|? ? ? ? ? Hleg Hrest]; subst.
    destruct (world_step_spec w vs op Hg Hleg ltac:(lia) Hvs Hit) as (r' & w1' & vs1 & Hrun & Hview & Hg1 & Hn1). rewrite Hstep in Hrun. injection Hrun as <- <-.
    destruct (IH w1 vs1 Hg1 ltac:(rewrite Hsteps; exact (Hrest vs1 Hview)) ltac:(lia) (view_known _ _ _ _ _ Hview Hvs Hit) Hits) as (rs' & w2' & vs2 & Hruns & Hviews & Hg2). rewrite Hsteps in Hruns. injection Hruns as <- <-.
    eexists _, _, _. split; [reflexivity|]. split; [econstructor; eauto|exact Hg2].
Qed.

(** ** A new ledger *)

Lemma new_ledger_good {E} next h hd b : (forall e, store e = None) -> 1 <= next -> account_hash hd = uint256_zero -> tx_hash hd = uint256_zero ->
  exists L x, ledger_new (E := E) hd b h = (Ok L, h ++ x) /\ ledger_good next (h ++ x) L (mkView ∅ false false true).
Proof.
  intros Hstore Hn Ha Hx. destruct (new_tree_frozen (E := E) next h StateMap b (header_seq hd) Hn) as (s & x1 & Hs & Hf & Hm & _ & n & Hn0 & Hz).
  destruct (new_tree_frozen (E := E) next (h ++ x1) TransactionMap b (header_seq hd) Hn) as (s' & x2 & Hs' & Hf' & Hm' & _ & Hzx).
  exists (mkLedger hd s s' false None None), (x1 ++ x2). rewrite app_assoc. split; [unfold ledger_new; run Hs; run Hs'; reflexivity|].
  constructor; [|exists (Node no_kids); split; [exact Hf'|split; [apply empty_rooted|split; [exact Hzx|discriminate]]]|reflexivity|intros e t He; rewrite Hstore in He; discriminate|cbn; split; congruence|reflexivity|auto|discriminate|reflexivity|].
  2: { intros _. exists n. split; [now apply lookup_app_l_Some|exact Hz]. }
  exists (Node no_kids). split; [apply (frozen_keeps store next (h ++ x1)); [apply keeps_app|exact Hf]|]. split; [|discriminate]. split; [apply empty_rooted|reflexivity].
Qed.

End Good.
