(* ===== verification/LedgerView.v ===== *)
(** * LedgerView: a ledger as a view

    The methods of [Ledger] (xrpld/ledger/src/lib.rs) that read entries, with [ReadView] and
    [RawView] for [Ledger] (views/read_view.rs and views/raw_view.rs).  A view is of one
    ledger among those that share a store of nodes.  The views have integers for keys, the
    ledger their bytes.

    The serialised form of an entry is a parameter ([EntryCodec]): the fields of an entry
    are not modelled. *)

From stdpp Require Import gmap sorting list strings.
From Stdlib Require Import ZArith Lia.
From S2P Require Import Prelude Views Serializer ShamapKey ShamapNode ShamapSlots ShamapTree ShamapHeap ShamapRepr ShamapWalk ShamapOrder ShamapMutate ShamapMap ShamapHash LedgerHeader LedgerState LedgerBatch LedgerWorld.
Local Open Scope Z_scope.

(** ** Keys *)

Definition key_bytes (k : Z) : Uint256 := to_be_bytes 32 k.
Arguments key_bytes : simpl never.

Lemma cmp_value (a : Uint256) : forall b, length a = length b -> bytes_ok a -> bytes_ok b -> key_cmp a b = (be_value a ?= be_value b).
Proof.
  induction a as [|x a IH]; intros [|y b] Hl Ha Hb; try discriminate; [reflexivity|]. apply Forall_cons in Ha as [Hx Ha]. apply Forall_cons in Hb as [Hy Hb]. injection Hl as Hl.
  rewrite !be_value_cons. cbn [key_cmp]. rewrite (IH b Hl Ha Hb), Hl. pose proof (be_value_range a Ha) as Ra. pose proof (be_value_range b Hb) as Rb. rewrite Hl in Ra.
  set (n := 256 ^ Z.of_nat (length b)) in *. destruct (Z.compare_spec x y) as [->|Hlt|Hgt].
  - destruct (Z.compare_spec (be_value a) (be_value b)); symmetry; [apply Z.compare_eq_iff|apply Z.compare_lt_iff|apply Z.compare_gt_iff]; lia.
  - symmetry. apply Z.compare_lt_iff. nia.
  - symmetry. apply Z.compare_gt_iff. nia.
Qed.

Lemma ltb_value a b : is_key a -> is_key b -> key_ltb a b = (be_value a <? be_value b).
Proof. intros [La Ha] [Lb Hb]. unfold key_ltb, Z.ltb. now rewrite cmp_value by congruence. Qed.

Lemma key_bytes_ok k : is_key (key_bytes k).
Proof.
  split; [apply to_be_bytes_length|]. unfold key_bytes. generalize 32%nat. intros n. induction n as [|n IH]; [constructor|]. cbn [to_be_bytes]. constructor; [|exact IH]. apply Z.mod_pos_bound. lia.
Qed.

Lemma key_bytes_value k : is_uint256 k -> be_value (key_bytes k) = k.
Proof. intros Hk. unfold key_bytes. rewrite be_value_to_be. apply Z.mod_small. exact Hk. Qed.

Lemma value_range b : is_key b -> is_uint256 (be_value b).
Proof. intros [Hl Hb]. pose proof (be_value_range b Hb) as Hr. rewrite Hl in Hr. exact Hr. Qed.

Lemma value_inj a b : is_key a -> is_key b -> be_value a = be_value b -> a = b.
Proof.
  intros Ha Hb He. assert (forall x y : Uint256, length x = length y -> key_cmp x y = Eq -> x = y) as Heq.
  { induction x as [|c x IH]; intros [|d y] Hl Hc; try discriminate; [reflexivity|]. cbn in Hc. destruct (Z.compare_spec c d) as [->|?|?]; try discriminate. f_equal. auto. }
  apply Heq; [destruct Ha, Hb; congruence|]. rewrite cmp_value by (destruct Ha, Hb; congruence || assumption). now apply Z.compare_eq_iff.
Qed.

Lemma value_bytes b : is_key b -> key_bytes (be_value b) = b.
Proof. intros Hb. apply value_inj; [apply key_bytes_ok|exact Hb|]. apply key_bytes_value. now apply value_range. Qed.

(** ** Entries *)

(** [try_from_serial_iter] takes the bytes and the key and gives the entry and the bytes that
    are left. *)
Class EntryCodec (Payload : Type) : Type := {
  get_serializer : STLedgerEntry Payload -> list Z;
  try_from_serial_iter : list Z -> Z -> option (STLedgerEntry Payload * list Z)
}.

Section Ledger.
Context `{Sha512} {Payload : Type} `{!EntryCodec Payload}.
Abbreviation Sle := (STLedgerEntry Payload).
Abbreviation State := (gmap Z Sle).

Definition parse_state_sle (payload : list Z) (keylet : Keylet) : outcome ViewError (option Sle) :=
  match try_from_serial_iter payload (Views.key keylet) with
  | None => Ok None
  | Some (entry, rest) =>
      match rest with
      | _ :: _ => Ok None
      | [] => ok <- check_ledger_entry keylet (sle_type entry) (sle_key entry);; Ok (if ok : bool then Some entry else None)
      end
  end.

Definition exists_keylet (self : Ledger) (keylet : Keylet) : M TraversalError bool := exists_key self (key_bytes (Views.key keylet)).

(** [Ledger::succ], on the bytes of keys. *)
Definition succ_key (self : Ledger) (key : Uint256) (last : option Uint256) : M TraversalError (option Uint256) :=
  leaf ← upper_bound (backed (state_map self)) (fetch_fn self) (sync_root (state_map self)) key;
  match leaf with
  | None => mret None
  | Some leaf =>
      n ← read leaf;
      match peek_item n with
      | None => mret None
      | Some item =>
          if match last with Some last => negb (key_ltb (item_key item) last) | None => false end then mret None
          else mret (Some (item_key item))
      end
  end.

(** [Ledger::read] *)
Definition read_entry (self : Ledger) (keylet : Keylet) : M ViewError (option Sle) :=
  if decide (Views.key keylet = 0) then mret None
  else
    item ← lower (fun _ => Views.Traversal) (peek_state self (key_bytes (Views.key keylet)));
    match item with
    | None => mret None
    | Some item => lift (parse_state_sle (item_data item) keylet)
    end.

Definition set_total_drops (total : Z) (self : Ledger) : Ledger :=
  let h := header self in
  mkLedger (mkHeader (header_seq h) total (header_hash h) (parent_hash h) (tx_hash h) (account_hash h) (parent_close_time h) (close_time h) (validated h) (accepted h)
      (close_time_resolution h) (close_flags h))
    (state_map self) (tx_map self) (immutable self) (node_fetcher self) (mutable_state self).

(** [raw_destroy_xrp]: [checked_sub] on the drops of the header. *)
Definition destroy_drops (fee : Z) (self : Ledger) : outcome ViewError Ledger :=
  if fee <? 0 then Err (InvalidFee fee)
  else if drops (header self) <? fee then Err (InvalidFee fee)
  else Ok (set_total_drops (drops (header self) - fee) self).

(** ** One ledger of many *)

Record ledger_ref : Type := mkRef { ref_world : world; ref_index : nat }.

(** What a read answers.  It may load nodes, which changes no answer. *)
Definition ask {E A B} (f : Ledger -> M E A) (err : E -> ViewError) (g : A -> B) (r : ledger_ref) : outcome ViewError B :=
  match w_ledgers (ref_world r) !! ref_index r with
  | None => Panic
  | Some self => a <- map_err err (f self (w_heap (ref_world r))).1;; Ok (g a)
  end.

#[export] Instance Ledger_read : ReadView (Payload := Payload) ledger_ref := {
  rv_exists r k := ask (fun self => exists_keylet self k) (fun _ => Views.Traversal) id r;
  rv_succ r k last := ask (fun self => succ_key self (key_bytes k) (key_bytes <$> last)) (fun _ => Views.Traversal) (fmap be_value) r;
  rv_read r k := ask (fun self => read_entry self k) id id r
}.

(** A batch of changes to the ledger. *)
Definition change_ledger (ops : list (LedgerState.StateBatchOp * Uint256 * list Z)) (r : ledger_ref) : outcome ViewError ledger_ref :=
  match w_ledgers (ref_world r) !! ref_index r with
  | None => Panic
  | Some self =>
      let '(res, self, next, h) := apply_state_batch self ops (w_next (ref_world r)) (w_heap (ref_world r)) in
      _ <- map_err (fun _ => Mutation) res;;
      Ok (mkRef (mkWorld h next (<[ref_index r := self]> (w_ledgers (ref_world r)))) (ref_index r))
  end.

Definition destroy_in (fee : Z) (r : ledger_ref) : outcome ViewError ledger_ref :=
  match w_ledgers (ref_world r) !! ref_index r with
  | None => Panic
  | Some self =>
      self <- destroy_drops fee self;;
      Ok (mkRef (mkWorld (w_heap (ref_world r)) (w_next (ref_world r)) (<[ref_index r := self]> (w_ledgers (ref_world r)))) (ref_index r))
  end.

#[export] Instance Ledger_raw : RawView (Payload := Payload) ledger_ref := {
  rw_erase sle := change_ledger [(Delete, key_bytes (sle_key sle), [])];
  rw_insert sle := change_ledger [(Insert, key_bytes (sle_key sle), get_serializer sle)];
  rw_replace sle := change_ledger [(Update, key_bytes (sle_key sle), get_serializer sle)];
  rw_destroy_xrp := destroy_in
}.

(** The batch that the ledger has in place of one operation after the other. *)
Definition batch_of (op : Views.StateBatchOp) (sle : Sle) : LedgerState.StateBatchOp * Uint256 * list Z :=
  (match op with BatchInsert => Insert | BatchUpdate => Update | BatchDelete => Delete end, key_bytes (sle_key sle), get_serializer sle).

Definition ledger_apply_sle_batch (ops : list (Views.StateBatchOp * Sle)) : ledger_ref -> outcome ViewError ledger_ref :=
  change_ledger ((fun op => batch_of op.1 op.2) <$> ops).

End Ledger.

(** ** What the reads answer *)

Section Reads.
Context `{Sha512} (store : ghost).

(** The items beyond a key, in order, and the map. *)
Lemma leaves_map t m x : stands_for AccountState t m -> x ∈ leaves t <-> exists it, x = (AccountState, it) /\ m !! item_key it = Some it.
Proof.
  intros [(kids & Ht & Hs & _) Hct]. pose proof (contents_lookup [] t (ckey x) x Hs) as Hl. rewrite Hct, lookup_fmap in Hl. split.
  - intros Hx. apply proj2 in Hl. specialize (Hl (conj Hx eq_refl)). destruct (m !! ckey x) as [it|] eqn:Hm; [|discriminate]. injection Hl as <-. exists it. auto.
  - intros (it & -> & Hm). apply Hl. unfold ckey. cbn [snd]. now rewrite Hm.
Qed.

Lemma map_keys t m b : stands_for AccountState t m -> is_Some (m !! b) -> is_key b /\ exists it, m !! b = Some it /\ item_key it = b.
Proof.
  intros [(kids & Ht & Hs & _) Hct] [it Hit]. assert (contents t !! b = Some (AccountState, it)) as Hc by now rewrite Hct, lookup_fmap, Hit.
  apply (contents_lookup [] t b _ Hs) in Hc as [Hx Hk]. split; [|exists it; auto]. rewrite <- Hk. now apply (shaped_keys [] t).
Qed.

Lemma succ_key_spec next h L v key last : 1 <= next -> ledger_good store next h L v -> is_key key -> (forall l, last = Some l -> is_key l) ->
  exists r h', succ_key L key last h = (Ok r, h') /\ stable store next h h' /\
  match r with
  | Some b => is_Some (v_map v !! b) /\ be_value key < be_value b /\ (forall l, last = Some l -> be_value b < be_value l) /\
      forall b', is_Some (v_map v !! b') -> be_value key < be_value b' -> be_value b <= be_value b'
  | None => forall b, is_Some (v_map v !! b) -> be_value key < be_value b -> exists l, last = Some l /\ be_value l <= be_value b
  end.
Proof.
  intros Hn [(t & Ht & Hst & _) _ Hr Hfe _ _ _ _ _ _] Hkey Hlast. rewrite Hr in Ht. pose proof (proj1 Hst) as Hroot. pose proof Hroot as (kids & Heq & Hs & _).
  destruct (bound_spec store next Hn _ _ Hfe t Hroot key Hkey true _ h Ht) as (r & h' & Hrun & Hkeep & Ha). fold (upper_bound (backed (state_map L)) (fetch_fn L) (sync_root (state_map L)) key) in Hrun.
  unfold succ_key. run Hrun. cbn [items] in Ha. set (l := filter _ (leaves t)) in Ha.
  assert (forall b, is_Some (v_map v !! b) -> be_value key < be_value b -> exists x, x ∈ l /\ ckey x = b) as Hall.
  { intros b Hb Hlt. destruct (map_keys t _ b Hst Hb) as (Kb & it & Hit & <-). exists (AccountState, it). split; [|reflexivity]. apply list_elem_of_filter. split; [cbn; rewrite ltb_value by auto; now apply Z.ltb_lt|]. apply (leaves_map t _ _ Hst). eauto. }
  assert (StronglySorted key_lt l) as Hsort by (apply StronglySorted_filter, (shaped_sorted []), Hs).
  assert (forall x, x ∈ l -> x ∈ leaves t /\ key_ltb key (ckey x) = true) as Hin by (intros x Hx; apply list_elem_of_filter in Hx; tauto).
  destruct l as [|x l]; cbn [answers] in Ha.
  - subst r. exists None, h'. split; [reflexivity|]. split; [now apply keeps_stable|]. intros b Hb Hlt. destruct (Hall b Hb Hlt) as (x & Hx & _). inversion Hx.
  - destruct Ha as (leaf & -> & Hfl). destruct (frozen_read store next h' leaf _ Hfl) as (n & Hnl & _ & Hpk). run (read_ok (E := TraversalError) leaf h' n Hnl). rewrite Hpk. destruct (Hin x ltac:(left)) as [Hx Hgt].
    pose proof Hx as (it & -> & Hit)%(leaves_map t _ _ Hst). cbn [snd]. unfold ckey in Hgt. cbn [snd] in Hgt. destruct (map_keys t _ (item_key it) Hst ltac:(eauto)) as (Kit & _). rewrite ltb_value in Hgt by auto. apply Z.ltb_lt in Hgt.
    apply StronglySorted_inv in Hsort as [_ Hmin]. rewrite Forall_forall in Hmin.
    assert (forall b', is_Some (v_map v !! b') -> be_value key < be_value b' -> be_value (item_key it) <= be_value b') as Hleast.
    { intros b' Hb' Hlt. destruct (Hall b' Hb' Hlt) as (y & Hy & <-). apply elem_of_cons in Hy as [->|Hy]; [reflexivity|]. specialize (Hmin y Hy). unfold key_lt in Hmin.
      rewrite ltb_value in Hmin; [apply Z.ltb_lt in Hmin; unfold ckey in Hmin at 1; cbn [snd] in Hmin; lia|exact Kit|]. apply (shaped_keys [] t y Hs). apply Hin. now right. }
    pose proof (keeps_stable store next h h' Hn Hkeep) as Hstab. destruct last as [lst|]; [rewrite ltb_value by auto; destruct (Z.ltb_spec (be_value (item_key it)) (be_value lst)) as [Hlt|Hge]|]; cbn [negb].
    + exists (Some (item_key it)), h'. split; [reflexivity|]. split; [exact Hstab|]. split; [eauto|]. split; [exact Hgt|]. split; [intros ? [= <-]; exact Hlt|exact Hleast].
    + exists None, h'. split; [reflexivity|]. split; [exact Hstab|]. intros b Hb Hlt. exists lst. split; [reflexivity|]. specialize (Hleast b Hb Hlt). lia.
    + exists (Some (item_key it)), h'. split; [reflexivity|]. split; [exact Hstab|]. split; [eauto|]. split; [exact Hgt|]. split; [discriminate|exact Hleast].
Qed.

End Reads.

(** ** The ledger keeps the promises of a view *)

Section View.
Context `{Sha512} {Payload : Type} `{!EntryCodec Payload} (store : ghost) (known : SHAMapItem -> Prop) (Hknown : distinct AccountState known).
Abbreviation Sle := (STLedgerEntry Payload).
Abbreviation State := (gmap Z Sle).

Definition item_of (s : Sle) : SHAMapItem := mkItem (key_bytes (sle_key s)) (get_serializer s).

(** The entries a ledger can hold: not under the key zero, which is never read, of a size
    that a leaf can have, and read back as they were. *)
Definition storable_entry (s : Sle) : Prop :=
  concrete (sle_type s) = true /\ 0 < sle_key s < 2 ^ 256 /\
  (MIN_SHAMAP_ITEM_BYTES <= length (get_serializer s))%nat /\ Z.of_nat (length (get_serializer s)) <= 16 * 1024 * 1024 /\
  try_from_serial_iter (get_serializer s) (sle_key s) = Some (s, []) /\ known (item_of s).

#[local] Instance ledger_rule : EntryRule Payload.
Proof. refine {| admissible := storable_entry |}; intros s (Hc & Hk & _); [exact Hc|]. unfold is_uint256. lia. Defined.

(** The state map has the serialised form of every entry, under the bytes of its key. *)
Record encodes (st : state) (m : State) : Prop := {
  enc_entry : forall k s, m !! k = Some s -> entry_ok k s;
  enc_to : forall k s, m !! k = Some s -> st !! key_bytes k = Some (item_of s);
  enc_from : forall b, is_key b -> is_Some (st !! b) -> is_Some (m !! be_value b)
}.

Lemma enc_key st m k : encodes st m -> is_uint256 k -> is_Some (st !! key_bytes k) <-> is_Some (m !! k).
Proof.
  intros He Hk. split; [|intros [s Hs]; erewrite enc_to by eauto; eauto]. intros Hs. rewrite <- (key_bytes_value k Hk). apply (enc_from st m He); [apply key_bytes_ok|exact Hs].
Qed.

Lemma enc_lookup st m k : encodes st m -> is_uint256 k -> st !! key_bytes k = item_of <$> m !! k.
Proof.
  intros He Hk. destruct (m !! k) as [s|] eqn:Hs; cbn; [now apply (enc_to st m He)|]. destruct (st !! key_bytes k) as [it|] eqn:Hit; [|reflexivity].
  assert (is_Some (m !! k)) as [s Hs'] by (apply (enc_key st m k He Hk); eauto). congruence.
Qed.

Lemma ask_ok {E A B} (f : Ledger -> M E A) err (g : A -> B) w i L a h : w_ledgers w !! i = Some L -> f L (w_heap w) = (Ok a, h) -> ask f err g (mkRef w i) = Ok (g a).
Proof. intros HL Hf. unfold ask. cbn [ref_world ref_index]. now rewrite HL, Hf. Qed.

Lemma read_entry_spec next h L v m k : 1 <= next -> ledger_good store next h L v -> encodes (v_map v) m -> keylet_fits m k ->
  exists h', read_entry L k h = (Ok (m !! Views.key k), h') /\ stable store next h h'.
Proof.
  intros Hn Hg He [Hk Hfit]. unfold read_entry. destruct (decide (Views.key k = 0)) as [Hz|Hz].
  - exists h. split; [|now split; [|split]]. destruct (m !! Views.key k) as [s|] eqn:Hs; [|reflexivity]. destruct (enc_entry _ m He _ s Hs) as [Hkey (_ & Hpos & _)]. lia.
  - destruct (read_good store next h L v (key_bytes (Views.key k)) Hn Hg (key_bytes_ok _)) as [_ (h' & Hrun & Hstab)]. exists h'. split; [|exact Hstab].
    run (run_lower (fun _ => Views.Traversal) _ _ _ _ Hrun). rewrite (enc_lookup _ m _ He Hk). destruct (m !! Views.key k) as [s|] eqn:Hs; cbn [fmap option_fmap option_map]; [|reflexivity].
    destruct (enc_entry _ m He _ s Hs) as [Hkey (_ & _ & _ & _ & Hrt & _)]. unfold parse_state_sle. cbn [item_of item_data]. rewrite <- Hkey at 1. rewrite Hrt. now rewrite (Hfit s eq_refl).
Qed.

(** A ledger among the others is a view of the entries it holds. *)
Lemma ref_view_of w vs i v m : good store w vs -> vs !! i = Some v -> encodes (v_map v) m -> view_of (mkRef w i) m.
Proof.
  intros [Hn Hg] Hv He. destruct (Forall2_lookup_r _ _ _ _ _ Hg Hv) as (L & HL & HgL). constructor.
  - apply (enc_entry _ m He).
  - intros k [Hk _]. destruct (read_good store _ _ L v (key_bytes (Views.key k)) Hn HgL (key_bytes_ok _)) as [(h' & Hrun & _) _].
    cbn. rewrite (ask_ok _ _ _ w i L _ _ HL Hrun). cbn. f_equal. apply bool_decide_ext. now apply enc_key.
  - intros k Hk. destruct (read_entry_spec _ _ L v m k Hn HgL He Hk) as (h' & Hrun & _). exact (ask_ok _ _ _ w i L _ _ HL Hrun).
  - intros k last [Hk Hlast].
    destruct (succ_key_spec store _ _ L v (key_bytes k) (key_bytes <$> last) Hn HgL (key_bytes_ok k)) as (r & h' & Hrun & _ & Hr); [intros l Hl; destruct last; [injection Hl as <-; apply key_bytes_ok|discriminate]|].
    exists (be_value <$> r). split; [exact (ask_ok _ _ _ w i L _ _ HL Hrun)|]. rewrite key_bytes_value in Hr by exact Hk.
    pose proof (g_tree _ _ _ _ _ HgL) as (t & _ & Hst & _).
    assert (forall n, is_Some (m !! n) -> is_uint256 n /\ is_Some (v_map v !! key_bytes n)) as Hup.
    { intros n [s Hs]. destruct (enc_entry _ m He n s Hs) as [<- Ha]. pose proof (admissible_key s Ha) as Hu. split; [exact Hu|]. apply (enc_key _ m _ He Hu). eauto. }
    destruct r as [b|]; cbn [fmap option_fmap option_map is_succ].
    + destruct Hr as (Hb & Hgt & Hlt & Hmin). destruct (map_keys t _ b Hst Hb) as [Kb _]. split; [now apply (enc_from _ m He)|]. split; [exact Hgt|]. split.
      * intros l ->. rewrite <- (key_bytes_value l) by auto. apply Hlt. reflexivity.
      * intros n Hs Hkn. destruct (Hup n Hs) as [Hu Hsn]. rewrite <- (key_bytes_value n Hu). apply Hmin; [exact Hsn|]. now rewrite key_bytes_value.
    + intros n Hs Hkn. destruct (Hup n Hs) as [Hu Hsn]. destruct (Hr _ Hsn ltac:(now rewrite key_bytes_value)) as (l & Hl & Hle). destruct last as [l0|]; [|discriminate]. injection Hl as <-.
      exists l0. split; [reflexivity|]. rewrite !key_bytes_value in Hle by auto. exact Hle.
Qed.

(** *** Writing *)

Lemma bytes_inj k k' : is_uint256 k -> is_uint256 k' -> key_bytes k = key_bytes k' -> k = k'.
Proof. intros Hk Hk' He. rewrite <- (key_bytes_value k Hk), <- (key_bytes_value k' Hk'). now rewrite He. Qed.

Lemma entry_range k s : entry_ok k s -> is_uint256 k.
Proof. intros [<- Ha]. now apply admissible_key. Qed.

Lemma enc_insert st m s : encodes st m -> admissible s -> encodes (<[key_bytes (sle_key s) := item_of s]> st) (<[sle_key s := s]> m).
Proof.
  intros He Ha. pose proof (admissible_key s Ha) as Hu. constructor.
  - intros k s'. rewrite lookup_insert_Some. intros [[<- <-]|[_ Hs]]; [now split|]. now apply (enc_entry st m He).
  - intros k s'. rewrite lookup_insert_Some. intros [[<- <-]|[Hne Hs]]; [apply lookup_insert_eq|]. pose proof (entry_range k s' (enc_entry st m He k s' Hs)) as Hk.
    rewrite lookup_insert_ne; [now apply (enc_to st m He)|]. intros Heq. apply Hne. now apply bytes_inj.
  - intros b Hb. rewrite !lookup_insert_is_Some'. intros [<-|Hs]; [left; symmetry; now apply key_bytes_value|right; now apply (enc_from st m He)].
Qed.

Lemma enc_delete st m k : encodes st m -> is_uint256 k -> encodes (delete (key_bytes k) st) (delete k m).
Proof.
  intros He Hu. constructor.
  - intros k' s. rewrite lookup_delete_Some. intros [_ Hs]. now apply (enc_entry st m He).
  - intros k' s. rewrite lookup_delete_Some. intros [Hne Hs]. pose proof (entry_range k' s (enc_entry st m He k' s Hs)) as Hk.
    rewrite lookup_delete_ne; [now apply (enc_to st m He)|]. intros Heq. apply Hne. now apply bytes_inj.
  - intros b Hb. rewrite !lookup_delete_is_Some. intros [Hne Hs]. split; [intros ->; apply Hne; now apply value_bytes|now apply (enc_from st m He)].
Qed.

Lemma enc_known next h L v m : ledger_good store next h L v -> encodes (v_map v) m -> map_Forall (fun _ => known) (v_map v).
Proof.
  intros Hg He b it Hit. destruct (g_tree _ _ _ _ _ Hg) as (t & _ & Hst & _). destruct (map_keys t _ b Hst ltac:(eauto)) as [Kb _]. destruct (enc_from _ m He b Kb ltac:(eauto)) as [s Hs].
  pose proof (enc_to _ m He _ s Hs) as Hto. rewrite (value_bytes b Kb) in Hto. assert (it = item_of s) as -> by congruence. apply (enc_entry _ m He _ s Hs).
Qed.

(** The ledger [i] is open and holds [m]; the others are as [vs] has them.  There are [n]
    numbers left for owners, and [total] drops with those destroyed. *)
Definition writes_ledger (vs : list view) (i : nat) (total : Z) (n : nat) (r : ledger_ref) (m : State) (d : Z) : Prop :=
  ref_index r = i /\ exists v L, good store (ref_world r) (<[i := v]> vs) /\ (i < length vs)%nat /\ w_ledgers (ref_world r) !! i = Some L /\
    v_closed v = false /\ encodes (v_map v) m /\ drops (header L) + d = total /\ w_next (ref_world r) + Z.of_nat n < 2 ^ 32 - 1.

(** A batch that takes [m] to [m'], or is refused. *)
Definition batch_does (ops : list (LedgerState.StateBatchOp * Uint256 * list Z)) (m : State) (r : option State) : Prop :=
  forall st, encodes st m -> match r with Some m' => exists st', batch_steps st ops = inr st' /\ encodes st' m' | None => exists e, batch_steps st ops = inl e end.

Lemma change_spec vs i total n r m d ops res : writes_ledger vs i total (S n) r m d -> Forall batch_op_ok ops -> Forall known (ops ≫= batch_items) -> batch_does ops m res ->
  match res with Some m' => exists r', change_ledger ops r = Ok r' /\ writes_ledger vs i total n r' m' d | None => change_ledger ops r = Err Mutation end.
Proof.
  intros (Hi & v & L & [Hn Hg] & Hlt & HL & Hcl & He & Hd & Hmax) Hop Hit Hdoes. destruct r as [[h next Ls] j]. cbn [ref_world ref_index w_heap w_next w_ledgers] in *. subst j.
  assert (<[i:=v]> vs !! i = Some v) as Hv by now apply list_lookup_insert_eq. pose proof (Forall2_lookup_lr _ _ _ _ _ _ Hg HL Hv) as HgL. specialize (Hdoes (v_map v) He).
  destruct (batch_good store known Hknown next h L v ops HgL Hcl ltac:(lia) Hop (enc_known next h L v m HgL He) Hit) as (o & L' & next' & h' & Hrun & Hnn & Hstab & Hhd & Hcase).
  unfold change_ledger. cbn [ref_world ref_index w_heap w_next w_ledgers]. rewrite HL, Hrun.
  destruct res as [m'|]; [destruct Hdoes as (st' & Hst' & He')|destruct Hdoes as (e & Hst')]; rewrite Hst' in Hcase; destruct Hcase as [-> HgL']; [|reflexivity].
  assert (v_closed (after_batch v ops st') = false /\ encodes (v_map (after_batch v ops st')) m') as [Hcl' He''].
  { destruct ops as [|op ops]; [|split; [reflexivity|exact He']]. injection Hst' as Heq. cbn [after_batch]. rewrite Heq. auto. }
  cbn. eexists. split; [reflexivity|]. split; [reflexivity|]. exists (after_batch v ops st'), L'. cbn [ref_world w_heap w_next w_ledgers].
  split; [|split; [exact Hlt|split; [apply list_lookup_insert_eq; eapply lookup_lt_Some, HL|split; [exact Hcl'|split; [exact He''|split; [rewrite Hhd; exact Hd|lia]]]]]].
  split; [cbn; lia|]. cbn [w_heap w_next w_ledgers]. rewrite <- (list_insert_insert_eq vs i (after_batch v ops st') v). apply Forall2_insert; [|exact HgL']. apply (others_stable store next next' h h'); [exact Hstab|lia|exact Hg].
Qed.

(** *** One operation *)

(** What an operation does to the entries; it is refused when it makes no sense. *)
Definition sle_step (op : Views.StateBatchOp) (s : Sle) (m : State) : option State :=
  match op, m !! sle_key s with
  | BatchInsert, None | BatchUpdate, Some _ => Some (<[sle_key s := s]> m)
  | BatchDelete, Some _ => Some (delete (sle_key s) m)
  | _, _ => None
  end.

Lemma sle_step_spec op s m payload st : encodes st m -> admissible s -> (op = BatchDelete \/ payload = get_serializer s) ->
  match sle_step op s m with
  | Some m' => exists st', batch_step st ((batch_of op s).1, payload) = inr st' /\ encodes st' m'
  | None => exists e, batch_step st ((batch_of op s).1, payload) = inl e
  end.
Proof.
  intros He Ha Hp. pose proof (admissible_key s Ha) as Hu. pose proof (enc_lookup st m (sle_key s) He Hu) as Hlk. unfold sle_step, batch_of, batch_step. cbn [fst].
  destruct (m !! sle_key s) as [s0|], op; cbn in Hlk; rewrite Hlk; try (eexists; reflexivity); try (destruct Hp as [?| ->]; [discriminate|]); (eexists; split; [reflexivity|]); [apply enc_insert|apply enc_delete|apply enc_insert]; assumption.
Qed.

Lemma sle_op_ok op s payload : admissible s -> (op = BatchDelete \/ payload = get_serializer s) ->
  batch_op_ok ((batch_of op s).1, payload) /\ Forall known (batch_items ((batch_of op s).1, payload)).
Proof.
  intros (_ & _ & Hmin & Hsize & _ & Hk) Hp. unfold batch_of. cbn. split; [split; [apply key_bytes_ok|]; destruct op; auto; right; destruct Hp as [?| ->]; [discriminate|auto|discriminate|auto]|].
  destruct op; [|..|constructor]; (destruct Hp as [?| ->]; [discriminate|]); (constructor; [exact Hk|constructor]).
Qed.

Lemma write_spec vs i total n r m d op s payload : writes_ledger vs i total (S n) r m d -> admissible s -> (op = BatchDelete \/ payload = get_serializer s) ->
  match sle_step op s m with
  | Some m' => exists r', change_ledger [((batch_of op s).1, payload)] r = Ok r' /\ writes_ledger vs i total n r' m' d
  | None => change_ledger [((batch_of op s).1, payload)] r = Err Mutation
  end.
Proof.
  intros Hr Ha Hp. destruct (sle_op_ok op s payload Ha Hp) as [Hok Hk]. apply change_spec with (res := sle_step op s m) (m := m); [exact Hr|now apply Forall_singleton|cbn; now rewrite app_nil_r|].
  intros st He. pose proof (sle_step_spec op s m payload st He Ha Hp) as Hs. cbn [batch_steps]. destruct (sle_step op s m) as [m'|].
  - destruct Hs as (st' & -> & He'). eauto.
  - destruct Hs as (e & ->). eauto.
Qed.

Lemma destroy_spec vs i total n r m d fee : writes_ledger vs i total n r m d -> 0 <= fee -> d + fee <= total ->
  exists r', destroy_in fee r = Ok r' /\ writes_ledger vs i total n r' m (d + fee).
Proof.
  intros (Hi & v & L & [Hn Hg] & Hlt & HL & Hcl & He & Hd & Hmax) Hfee Hle. destruct r as [[h next Ls] j]. cbn [ref_world ref_index w_heap w_next w_ledgers] in *. subst j.
  assert (<[i:=v]> vs !! i = Some v) as Hv by now apply list_lookup_insert_eq. pose proof (Forall2_lookup_lr _ _ _ _ _ _ Hg HL Hv) as HgL.
  unfold destroy_in, destroy_drops. cbn [ref_world ref_index w_heap w_next w_ledgers]. rewrite HL, (proj2 (Z.ltb_ge _ _)), (proj2 (Z.ltb_ge _ _)) by lia. cbn [bind].
  set (L' := set_total_drops _ L). eexists. split; [reflexivity|]. split; [reflexivity|]. exists v, L'. cbn [ref_world w_heap w_next w_ledgers].
  split; [|split; [exact Hlt|split; [apply list_lookup_insert_eq; eapply lookup_lt_Some, HL|split; [exact Hcl|split; [exact He|split; [cbn; lia|exact Hmax]]]]]].
  split; [exact Hn|]. cbn [w_heap w_next w_ledgers]. rewrite <- (list_insert_insert_eq vs i v v). apply Forall2_insert; [exact Hg|].
  destruct HgL as [H1 H2 H3 H4 H5 H6 H7 H8 H9 H10]. assert (immutable L = false) as Him by congruence. constructor; auto. cbn. congruence.
Qed.

#[export] Instance ledger_laws vs i total : RawViewLaws (writes_ledger vs i total) total.
Proof.
  constructor.
  - intros n r m d s Hr Ha Hm. pose proof (write_spec vs i total n r m d BatchInsert s (get_serializer s) Hr Ha (or_intror eq_refl)) as Hw. unfold sle_step in Hw. now rewrite Hm in Hw.
  - intros n r m d s Hr Ha [s0 Hm]. pose proof (write_spec vs i total n r m d BatchUpdate s (get_serializer s) Hr Ha (or_intror eq_refl)) as Hw. unfold sle_step in Hw. now rewrite Hm in Hw.
  - intros n r m d s Hr [s0 Hm] Ha. pose proof (write_spec vs i total n r m d BatchDelete s [] Hr Ha (or_introl eq_refl)) as Hw. unfold sle_step in Hw. now rewrite Hm in Hw.
  - intros n r m d fee Hr _ Hfee Hle. now apply destroy_spec.
Qed.

(** *** A batch of entries *)

Fixpoint sle_steps (ops : list (Views.StateBatchOp * Sle)) (m : State) : option State :=
  match ops with
  | [] => Some m
  | (op, s) :: ops => sle_step op s m ≫= sle_steps ops
  end.

Lemma sle_batch_does ops : Forall (fun op => admissible op.2) ops -> forall m, batch_does ((fun op => batch_of op.1 op.2) <$> ops) m (sle_steps ops m).
Proof.
  induction 1 as [|[op s] ops Ha _ IH]; intros m st He; [exists st; auto|]. cbn [fmap list_fmap sle_steps batch_steps fst snd].
  pose proof (sle_step_spec op s m (get_serializer s) st He Ha (or_intror eq_refl)) as Hs. change ((batch_of op s).1, get_serializer s) with (batch_of op s) in Hs.
  destruct (sle_step op s m) as [m'|]; cbn [mbind option_bind].
  - destruct Hs as (st' & -> & He'). now apply IH.
  - destruct Hs as (e & ->). eauto.
Qed.

(** The ledger's own batch, done with one copy of the tree, is what the operations do one
    after the other; one that makes no sense refuses them all. *)
Lemma sle_batch_spec vs i total n r m d ops : writes_ledger vs i total (S n) r m d -> Forall (fun op => admissible op.2) ops ->
  match sle_steps ops m with
  | Some m' => exists r', ledger_apply_sle_batch ops r = Ok r' /\ writes_ledger vs i total n r' m' d
  | None => ledger_apply_sle_batch ops r = Err Mutation
  end.
Proof.
  intros Hr Ha. apply change_spec with (m := m); [exact Hr| | |now apply sle_batch_does].
  - apply Forall_fmap. eapply Forall_impl; [exact Ha|]. intros [op s] Hs. apply (sle_op_ok op s (get_serializer s) Hs). now right.
  - clear Hr. induction Ha as [|[op s] ops Hs _ IH]; [constructor|]. cbn. apply Forall_app. split; [|exact IH]. apply (sle_op_ok op s (get_serializer s) Hs). now right.
Qed.

End View.
