(* ===== verification/LedgerStore.v ===== *)
(** * LedgerStore: ledgers and the node store

    How [Ledger] (xrpld/ledger/src/lib.rs) writes the nodes of its maps to the node store
    and is loaded from it again.  A server is a number of ledgers over one store; seen from
    outside they stay maps, whether they are in memory or have been loaded by the hashes
    of a header. *)

From stdpp Require Import gmap list.
From Stdlib Require Import ZArith Lia.
From S2P Require Import Prelude Serializer ShamapKey ShamapNode ShamapSlots ShamapTree ShamapHeap ShamapRepr ShamapWalk ShamapMutate ShamapMap ShamapHash ShamapBinding ShamapCodec ShamapStore ShamapFlush LedgerHeader LedgerState LedgerBatch LedgerWorld.
Local Open Scope Z_scope.

Abbreviation writes := (list (SHAMapHash * list Z)).

Section Store.
Context `{Sha512}.

Definition set_state (self : Ledger) (states : SyncTree) (tree : option MutableTree) : Ledger :=
  mkLedger (header self) states (tx_map self) (immutable self) (node_fetcher self) tree.

Definition set_node_fetcher (fetcher : Fetch) (self : Ledger) : Ledger :=
  mkLedger (header self) (state_map self) (tx_map self) (immutable self) (Some fetcher) (mutable_state self).

(** ** Writing *)

(** The map [m] with the flushed root. *)
Definition with_root (m : SyncTree) (root : loc) (seq : Z) : SyncTree :=
  let next := from_root_with_type root (map_type m) (backed m) seq (LedgerState.state m) in
  if is_full m then set_full next else next.

(** [mutable_state.take()], or a tree on the root of the map. *)
Definition take_tree {E} (self : Ledger) : M E MutableTree :=
  match mutable_state self with
  | Some tree => mret tree
  | None => from_loaded_root (sync_root (state_map self)) (Z.max (header_seq (header self)) 1)
  end.

(** [node_writer]: whether there is a writer. *)
Definition flush_state_map_to_store {E} (node_writer : bool) (self : Ledger) : M E (writes * Ledger) :=
  tree ← take_tree self;
  r ← flush_dirty (if node_writer then write_node else keep_node) tree;
  mret (r.1.2, set_state self (with_root (state_map self) (root r.2) (header_seq (header self))) None).

Definition flush_tx_map_to_store {E} (node_writer : bool) (self : Ledger) : M E (writes * Ledger) :=
  let seq := header_seq (header self) in
  tree ← from_loaded_root (sync_root (tx_map self)) (Z.max seq 1);
  r ← flush_dirty (if node_writer then write_node else keep_node) tree;
  mret (r.1.2, mkLedger (header self) (state_map self) (with_root (tx_map self) (root r.2) seq) (immutable self) (node_fetcher self) (mutable_state self)).

(** ** Checked batches *)

Inductive LedgerNodeObjectType : Type := AccountNode | TransactionNode.

Record LedgerNodeWrite : Type := mkWrite { object_type : LedgerNodeObjectType; write_hash : SHAMapHash; write_data : list Z; write_seq : Z }.

(** The messages of the failures: no writer, a node that cannot be written down, the store. *)
Inductive PersistError : Type := MissingWriter | SerializeFailed (e : SHAMapCodecError) | WriteFailed (message : list Z).

(** The store, as the writes it has taken, the last one last. *)
Abbreviation log := writes.

(** A writer adds to the store and says whether it has failed. *)
Definition Writer (A : Type) : Type := A -> log -> outcome PersistError unit * log.

(** The collecting callback: a node that cannot be written down is an error. *)
Definition collect_node : WriteNode (E := PersistError) := fun node =>
  n ← read node;
  data ← lift (map_err SerializeFailed (serialize_with_prefix n));
  mret (node, [(hash n, data)]).

Definition node_writes (ty : LedgerNodeObjectType) (seq : Z) (ws : writes) : list LedgerNodeWrite := (fun w => mkWrite ty w.1 w.2 seq) <$> ws.

(** One by one, up to the first failure. *)
Fixpoint write_each (writer : Writer LedgerNodeWrite) (ws : list LedgerNodeWrite) (db : log) : outcome PersistError unit * log :=
  match ws with
  | [] => (Ok tt, db)
  | w :: ws => match writer w db with (Ok _, db) => write_each writer ws db | (r, db) => (r, db) end
  end.

(** Both trees without touching them: the tree of transactions, and all that is to be written. *)
Definition collect_dirty (self : Ledger) (state_tree : MutableTree) : M PersistError (MutableTree * list LedgerNodeWrite) :=
  let seq := header_seq (header self) in
  a ← try_flush_dirty_detached collect_node state_tree;
  tx_tree ← from_loaded_root (sync_root (tx_map self)) (Z.max seq 1);
  b ← try_flush_dirty_detached collect_node tx_tree;
  mret (tx_tree, node_writes AccountNode seq a.1.2 ++ node_writes TransactionNode seq b.1.2).

(** After the batch has been accepted; without a cache of nodes. *)
Definition install_dirty (self : Ledger) (state_tree tx_tree : MutableTree) : M PersistError Ledger :=
  let seq := header_seq (header self) in
  a ← flush_dirty keep_node state_tree;
  b ← flush_dirty keep_node tx_tree;
  mret (mkLedger (header self) (with_root (state_map self) (root a.2) seq) (with_root (tx_map self) (root b.2) seq) (immutable self) (node_fetcher self) (Some a.2)).

Definition persist_dirty_nodes_to_store_result (batch_writer : option (Writer (list LedgerNodeWrite))) (writer : option (Writer LedgerNodeWrite)) (self : Ledger) (db : log) (h : heap)
    : outcome PersistError unit * Ledger * log * heap :=
  let taken := set_state self (state_map self) None in
  let go (write : Writer (list LedgerNodeWrite)) :=
    match take_tree self h with
    | (Ok state_tree, h) =>
        let restored := set_state self (state_map self) (Some state_tree) in
        match collect_dirty self state_tree h with
        | (Ok (tx_tree, ws), h) =>
            match write ws db with
            | (Ok _, db) =>
                match install_dirty self state_tree tx_tree h with
                | (Ok self, h) => (Ok tt, self, db, h)
                | (r, h) => (_ <- r;; Ok tt, taken, db, h)
                end
            | (Err e, db) => (Err e, restored, db, h)
            | (r, db) => (r, taken, db, h)
            end
        | (Err e, h) => (Err e, restored, db, h)
        | (r, h) => (_ <- r;; Ok tt, taken, db, h)
        end
    | (r, h) => (_ <- r;; Ok tt, taken, db, h)
    end in
  match batch_writer, writer with
  | Some write, _ => go write
  | None, Some write => go (write_each write)
  | None, None => (Err MissingWriter, self, db, h)
  end.

(** ** Loading *)

(** [fetch_root_with_family], the family being what finds a node by its hash. *)
Definition fetch_root_with_family {E} (family : Fetch) (m : SyncTree) (hash : SHAMapHash) : M E (bool * SyncTree) :=
  n ← read (sync_root m);
  if decide (hash = ShamapNode.hash n) then mret (true, m)
  else
    found ← call family hash;
    match found with
    | None => mret (false, m)
    | Some new_root =>
        n ← read new_root;
        debug_assert (bool_decide (ShamapNode.hash n = hash));;
        mret (true, mkSync new_root (map_type m) (backed m) (ledger_seq m) (LedgerState.state m) (is_full m))
    end.

(** The ledger and whether both roots were found; asking for a missing one is left out. *)
Definition load_immutable_with_family {E} (family : Fetch) (h : LedgerHeader) : M E (Ledger * bool) :=
  states ← new_with_type StateMap true (header_seq h);
  txs ← new_with_type TransactionMap true (header_seq h);
  txs ← (if decide (tx_hash h <> uint256_zero) then fetch_root_with_family family txs (tx_hash h) else mret (true, txs));
  states ← (if decide (account_hash h <> uint256_zero) then fetch_root_with_family family states (account_hash h) else mret (true, states));
  let loaded := txs.1 && states.1 in
  txs ← lift (set_immutable txs.2);
  states ← lift (set_immutable states.2);
  let h := if (loaded : bool) then h else set_hashes h (calculate_ledger_hash h) (tx_hash h) (account_hash h) in
  mret (mkLedger h states txs true None None, loaded).

Definition try_load_state_root_from_fetcher {E} (self : Ledger) (account_hash : SHAMapHash) : M E Ledger :=
  match node_fetcher self with
  | None => mret self
  | Some fetcher =>
      found ← call fetcher account_hash;
      match found with
      | None => mret self
      | Some root_node => mret (set_state self (from_root_with_type root_node StateMap (backed (state_map self)) (header_seq (header self)) Immutable) (mutable_state self))
      end
  end.

End Store.
