(* ===== verification/Replay.v ===== *)
(** * Replay: proofs and deltas exchanged between peers

    xrpld/app/src/state/application_root/replay_callback_impl.rs: a node that rebuilds
    history asks its peers for the skip list of a ledger, with a proof, and for the
    transactions of a ledger (a delta).  Modelled are the answer to a request for a proof,
    the check of a proof that arrives, and the check of a delta. *)

From stdpp Require Import gmap list.
From Stdlib Require Import ZArith Lia.
From S2P Require Import Prelude Serializer ShamapKey ShamapNode ShamapHeap ShamapWalk ShamapProof LedgerHeader LedgerState.
Local Open Scope Z_scope.

Definition RE_NO_LEDGER : Z := 1.
Definition RE_NO_NODE : Z := 2.
Definition RE_BAD_REQUEST : Z := 3.
Definition LM_TRANSACTION : Z := 1.
Definition LM_ACCOUNT_STATE : Z := 2.
Definition LEDGER_NAMESPACE_SKIP_LIST : Z := 0x73.

Record TmProofPathRequest : Type := mkRequest { req_key : Blob; req_ledger_hash : Blob; req_type : Z }.

Record TmProofPathResponse : Type := mkResponse {
  resp_key : Blob;
  resp_ledger_hash : Blob;
  resp_type : Z;
  resp_header : option Blob;
  resp_path : list Blob;
  resp_error : option Z
}.

(** The ledgers that the server can get at. *)
Record ApplicationRoot : Type := mkRoot {
  resolve_ledger_by_hash : SHAMapHash -> option Ledger;
  closed_ledger : option Ledger;
  validated_ledger : option Ledger
}.

Section Code.
Context `{Sha512}.

(** [skip_keylet().key] *)
Definition skip_key : Uint256 := sha512_half (to_be_bytes 2 LEDGER_NAMESPACE_SKIP_LIST).

Definition proof_error_response (request : TmProofPathRequest) (error : Z) : TmProofPathResponse :=
  mkResponse (req_key request) (req_ledger_hash request) (req_type request) None [] (Some error).

Definition with_hash (hash : SHAMapHash) (ledger : option Ledger) : option Ledger :=
  match ledger with
  | Some L => if decide (header_hash (header L) = hash) then Some L else None
  | None => None
  end.

Definition ledger_for (self : ApplicationRoot) (hash : SHAMapHash) : option Ledger :=
  match resolve_ledger_by_hash self hash with
  | Some L => Some L
  | None => match with_hash hash (closed_ledger self) with Some L => Some L | None => with_hash hash (validated_ledger self) end
  end.

(** The path is looked for among the nodes in memory. *)
Definition proof_path_response_for {E} (self : ApplicationRoot) (request : TmProofPathRequest) : M E TmProofPathResponse := fun h =>
  match uint256_from_slice (req_key request), uint256_from_slice (req_ledger_hash request) with
  | None, _ | Some _, None => (Ok (proof_error_response request RE_BAD_REQUEST), h)
  | Some key, Some hash =>
      if decide (req_type request <> LM_TRANSACTION /\ req_type request <> LM_ACCOUNT_STATE) then (Ok (proof_error_response request RE_BAD_REQUEST), h)
      else
        match ledger_for self hash with
        | None => (Ok (proof_error_response request RE_NO_LEDGER), h)
        | Some ledger =>
            let map := if decide (req_type request = LM_ACCOUNT_STATE) then state_map ledger else tx_map ledger in
            let '(r, h) := get_proof_path_backed (sync_root map) key (backed map) no_fetch h in
            (path <- attempt r;;
             Ok (match path with
                 | Some (Some path) => mkResponse (req_key request) (req_ledger_hash request) (req_type request) (Some (serialize_ledger_header (header ledger) false)) path None
                 | _ => proof_error_response request RE_NO_NODE
                 end), h)
        end
  end.

Definition set_header_hash (hash : SHAMapHash) (h : LedgerHeader) : LedgerHeader :=
  mkHeader (header_seq h) (drops h) hash (parent_hash h) (tx_hash h) (account_hash h) (parent_close_time h) (close_time h) (validated h) (accepted h) (close_time_resolution h) (close_flags h).

(** [on_proof_path_response] up to the call of [got_skip_list]: the header and the item it
    is called with, or nothing. *)
Definition checked_skip_list {E} (response : TmProofPathResponse) : outcome E (option (LedgerHeader * SHAMapItem)) :=
  if decide (resp_error response <> None \/ resp_type response <> LM_ACCOUNT_STATE \/ resp_path response = []) then Ok None
  else
    match uint256_from_slice (resp_key response), uint256_from_slice (resp_ledger_hash response), resp_header response with
    | Some key, Some reply_hash, Some header_bytes =>
        if decide (key <> skip_key) then Ok None
        else
          info <- attempt (deserialize_ledger_header header_bytes false);;
          match info with
          | None => Ok None
          | Some info =>
              if decide (calculate_ledger_hash info <> reply_hash) then Ok None
              else
                verified <- verify_proof_path (account_hash info) key (resp_path response);;
                if negb verified then Ok None
                else
                  node <- match resp_path response with blob :: _ => attempt (make_from_wire blob) | [] => Panic end;;
                  match node with
                  | Some (Some node) =>
                      match (if is_leaf node then peek_item node else None) with
                      | Some item => if decide (item_key item <> key) then Ok None else Ok (Some (set_header_hash reply_hash info, item))
                      | None => Ok None
                      end
                  | _ => Ok None
                  end
          end
    | _, _, _ => Ok None
    end.

End Code.

(** ** Deltas *)

Record TmReplayDeltaResponse : Type := mkDelta {
  delta_hash : Blob;
  delta_header : option Blob;
  delta_transaction : list Blob;
  delta_error : option Z
}.

(** The messages of the errors. *)
Inductive ReplayError : Type :=
| PeerReturnedError
| InvalidReplayHash
| MissingHeader
| InvalidHeader
| HeaderHashMismatch
| InvalidPayload
| InvalidItem
| DuplicateItem
| DuplicateIndex
| RootMismatch.

(** Transactions and their metadata; a panic of a reader, which is caught, is [None]. *)
Class TxCodec (Tx : Type) : Type := {
  tx_from_serial_iter : Blob -> option Tx;
  get_transaction_id : Tx -> Uint256;
  get_meta_index : Uint256 -> Z -> Blob -> option Z
}.

Section Delta.
Context `{Sha512} `{TxCodec Tx}.

Definition ReplayTransaction : Type := Tx * Blob.

Definition decode_payload (seq : Z) (payload : Blob) : option (Tx * Z * Blob) :=
  match get_vl (E := unit) (iter_new payload) with
  | Ok (tx_bytes, serial) =>
      match get_vl (E := unit) serial with
      | Ok (meta_bytes, _) =>
          tx ← tx_from_serial_iter tx_bytes;
          index ← get_meta_index (get_transaction_id tx) seq meta_bytes;
          Some (tx, index, meta_bytes)
      | _ => None
      end
  | _ => None
  end.

Fixpoint delta_loop (seq : Z) (payloads : list Blob) (tree : MutableTree) (ordered_txs : gmap Z ReplayTransaction) : M ReplayError (MutableTree * gmap Z ReplayTransaction) :=
  match payloads with
  | [] => mret (tree, ordered_txs)
  | payload :: payloads =>
      d ← lift (match decode_payload seq payload with Some d => Ok d | None => Err InvalidPayload end);
      let '(tx, index, metadata) := (d : Tx * Z * Blob) in
      item ← lift (item_new (get_transaction_id tx) payload);
      r ← lower (fun _ => InvalidItem) (add_item tree TransactionMd item);
      if negb r.1 then lift (Err DuplicateItem)
      else
        match ordered_txs !! index with
        | Some _ => lift (Err DuplicateIndex)
        | None => delta_loop seq payloads r.2 (<[index := (tx, metadata)]> ordered_txs)
        end
  end.

Definition decode_replay_delta_response (response : TmReplayDeltaResponse) : M ReplayError (LedgerHeader * gmap Z ReplayTransaction) :=
  if decide (delta_error response <> None) then lift (Err PeerReturnedError)
  else
    reply_hash ← lift (match uint256_from_slice (delta_hash response) with Some hash => Ok hash | None => Err InvalidReplayHash end);
    header_bytes ← lift (match delta_header response with Some bytes => Ok bytes | None => Err MissingHeader end);
    info ← lift (map_err (fun _ => InvalidHeader) (deserialize_ledger_header header_bytes false));
    if decide (calculate_ledger_hash info <> reply_hash) then lift (Err HeaderHashMismatch)
    else
      let info := set_header_hash reply_hash info in
      tree ← mutable_new (Z.max (header_seq info) 1);
      r ← delta_loop (header_seq info) (delta_transaction response) tree ∅;
      n ← read (root r.1);
      if decide (hash n <> tx_hash info) then lift (Err RootMismatch) else mret (info, r.2).

End Delta.

(** ** The hash of a tree that has been changed *)

Lemma mbind_inv {E A B} (m : M E A) (k : A -> M E B) h b h' : (m ≫= k) h = (Ok b, h') -> exists a h1, m h = (Ok a, h1) /\ k a h1 = (Ok b, h').
Proof. unfold mbind, M_bind. destruct (m h) as [[a| | | |] h1]; try discriminate. eauto. Qed.

Ltac undo H := let a := fresh "a" in let h1 := fresh "h" in let H1 := fresh H in apply mbind_inv in H as (a & h1 & H1 & H).

Section Dirty.
Context `{Sha512}.

(** Additions leave the hash of the root at zero; it is filled in by a walk that hashes the
    tree ([recompute_hashes_recursive], [flush_dirty]). *)
Definition dirty_at (h : heap) (l : loc) : Prop := exists n, h !! l = Some n /\ hash n = uint256_zero.

Lemma set_child_dirty {E} n b c n' : set_child (E := E) n b c = Ok n' -> hash n' = uint256_zero.
Proof.
  unfold set_child. destruct (validate_branch b); try discriminate. cbn [bind]. destruct (decide _); [discriminate|]. destruct (as_inner n); try discriminate. cbn [bind].
  destruct (rebuild _ _ _ _); try discriminate. cbn [bind]. destruct c; [destruct (used_index _ _ _); try discriminate; cbn [bind]|cbn [bind]]; intros [= <-]; reflexivity.
Qed.

Lemma change_dirty {E} l b c h h' : change (E := E) l (fun n => set_child n b c) h = (Ok tt, h') -> dirty_at h' l.
Proof.
  unfold change. intros Hc. undo Hc. undo Hc. unfold read in Hc0. destruct (h !! l) as [n|] eqn:Hn; [|discriminate]. injection Hc0 as <- <-. unfold lift in Hc1. injection Hc1 as Hs <-. injection Hc as <-.
  apply set_child_dirty in Hs. exists a0. split; [|exact Hs]. apply list_lookup_insert_eq. eapply lookup_lt_Some, Hn.
Qed.

Lemma dirty_up_dirty entries target : forall self child h r h', dirty_at h child -> dirty_up_loop self entries target child h = (Ok r, h') -> dirty_at h' r.1.
Proof.
  induction entries as [|entry entries IH]; intros self child h r h' Hd Hr; cbn [dirty_up_loop] in Hr; [injection Hr as <- <-; exact Hd|]. undo Hr. undo Hr. undo Hr. destruct a1.
  eapply IH; [|exact Hr]. eapply change_dirty. exact Hr2.
Qed.

Lemma dirty_root_dirty self path target child h r h' : dirty_at h child -> dirty_root self path target child h = (Ok r, h') -> dirty_at h' (root r.2).
Proof. intros Hd Hr. unfold dirty_root in Hr. undo Hr. injection Hr as <- <-. eapply dirty_up_dirty; [exact Hd|exact Hr0]. Qed.

Lemma split_dirty fuel : forall self stack id node target ty item old h r h', split_loop fuel self stack id node target ty item old h = (Ok r, h') -> dirty_at h' (root r.2).
Proof.
  induction fuel as [|fuel IH]; intros self stack id node target ty item old h r h' Hr; [discriminate|]. cbn [split_loop] in Hr. undo Hr. undo Hr. destruct (decide _).
  - undo Hr. undo Hr. undo Hr. undo Hr. undo Hr. undo Hr. destruct a6. eapply dirty_root_dirty; [|exact Hr]. eapply change_dirty. exact Hr7.
  - undo Hr. undo Hr. undo Hr. eapply IH. exact Hr.
Qed.

Lemma add_item_dirty self ty item h self' h' : add_item self ty item h = (Ok (true, self'), h') -> dirty_at h' (root self').
Proof.
  unfold add_item, add_item_in. destruct (decide _); [discriminate|]. intros Hr. undo Hr. destruct a.1 as [leaf|].
  - unfold add_with_leaf_split in Hr. destruct (last a.2); [|discriminate]. undo Hr. destruct (peek_item a0); [|discriminate]. destruct (decide _); [discriminate|]. destruct (decide _); [discriminate|]. undo Hr. undo Hr.
    exact (split_dirty _ _ _ _ _ _ _ _ _ _ _ _ Hr).
  - unfold add_into_empty_branch in Hr. destruct (last a.2); [|discriminate]. do 9 (undo Hr). destruct a8. eapply (dirty_root_dirty _ _ _ _ _ (true, self')); [|exact Hr]. eapply change_dirty. exact Hr9.
Qed.

Lemma mutable_new_dirty {E} c h self h' : mutable_new (E := E) c h = (Ok self, h') -> dirty_at h' (root self).
Proof.
  unfold mutable_new. destruct (decide _); [discriminate|]. intros Hr. undo Hr. undo Hr. injection Hr as <- <-. injection Hr0 as Hn <-. injection Hr1 as <- <-. exists a. split; [cbn [root]; now rewrite lookup_app_r, Nat.sub_diag by lia|]. now rewrite <- Hn.
Qed.

Context `{TxCodec Tx}.

Lemma delta_dirty seq payloads : forall tree txs h r h', dirty_at h (root tree) -> delta_loop seq payloads tree txs h = (Ok r, h') -> dirty_at h' (root r.1).
Proof.
  induction payloads as [|payload payloads IH]; intros tree txs h r h' Hd Hr; cbn [delta_loop] in Hr; [injection Hr as <- <-; exact Hd|]. undo Hr. destruct a as [[tx index] metadata]. undo Hr. undo Hr.
  destruct a0 as [[] self]; cbn [negb fst snd] in Hr; [|discriminate]. destruct (txs !! index); [discriminate|]. eapply IH; [|exact Hr]. unfold lower in Hr2.
  destruct (add_item tree TransactionMd a h1) as [[x| | | |] h3] eqn:Ha; try discriminate. injection Hr2 as -> ->. eapply add_item_dirty, Ha.
Qed.

(** Whatever a delta holds, it is accepted only if the header has no transactions. *)
Lemma delta_accepted response h info txs h' : decode_replay_delta_response response h = (Ok (info, txs), h') -> tx_hash info = uint256_zero.
Proof.
  unfold decode_replay_delta_response. destruct (decide _); [discriminate|]. intros Hr. undo Hr. undo Hr. undo Hr. destruct (decide _); [discriminate|]. undo Hr. undo Hr. undo Hr. destruct (decide _) as [|He]; [discriminate|].
  apply dec_stable in He. injection Hr as <- _ <-. rewrite <- He. destruct (delta_dirty _ _ _ _ _ _ _ (mutable_new_dirty _ _ _ _ Hr3) Hr4) as (n' & Hn' & Hz). unfold read in Hr5. rewrite Hn' in Hr5. injection Hr5 as <- _. exact Hz.
Qed.

End Dirty.
