(* ===== verification/LedgerServer.v ===== *)
(** * LedgerServer: ledgers over a node store

    A server has any number of ledgers over one node store.  Ledgers are changed and
    closed, their nodes are written in one go or as a checked batch that may be refused,
    and ledgers are loaded again by the hashes of a header.  Seen from outside each of
    them is a map that no step on another one changes ([server_spec]). *)

From stdpp Require Import gmap list.
From Stdlib Require Import ZArith Lia.
From S2P Require Import Prelude Serializer ShamapKey ShamapNode ShamapSlots ShamapTree ShamapHeap ShamapRepr ShamapWalk ShamapMutate ShamapMap ShamapHash ShamapBinding ShamapCodec ShamapStore ShamapFlush LedgerHeader LedgerState LedgerBatch LedgerWorld LedgerStore.
Local Open Scope Z_scope.

Section Stored.
Context `{Sha512} (Hlen : forall text, length (sha512 text) = 64%nat).

(** ** Ghosts that grow *)

(** No map changes from one store of nodes to the next. *)
Definition carried (g g' : ghost) (next : Z) (h h' : heap) : Prop :=
  (forall l t, frozen g next h l t -> frozen g' next h' l t) /\
  (forall l t, frozen g next h l t -> hashed h l t -> hashed h' l t) /\
  (forall l, shared_at h l -> shared_at h' l).

Lemma carried_trans g1 g2 g3 next h1 h2 h3 : carried g1 g2 next h1 h2 -> carried g2 g3 next h2 h3 -> carried g1 g3 next h1 h3.
Proof. intros (F1 & H1 & C1) (F2 & H2 & C2). split; auto. Qed.

Lemma flushes_carried known next N h h' l t ws : flushes known next N h h' l t ws -> carried (on_disk known) (saved_since known ws) next h h'.
Proof. intros [[Hf Hh] _ _ _ _ Hk]. split; [exact Hf|]. split; [exact Hh|]. intros m (n & Hn & Hz). exact (Hk m n Hn Hz). Qed.

Lemma larger_carried g g' next h : larger g g' -> carried g g' next h h.
Proof. intros Hl. destruct (rests_grow next g g' h Hl) as [Hf Hh]. split; auto. Qed.

(** Nodes are only added. *)
Lemma prefix_carried g next h h' : 1 <= next -> (forall m, (m < length h)%nat -> h' !! m = h !! m) -> carried g g next h h'.
Proof.
  intros Hn Hp. apply (keeps_stable g next h h' Hn). intros l n Hl _. exists n. rewrite Hp by (eapply lookup_lt_Some, Hl). split; [exact Hl|].
  split; [reflexivity|]. split; [reflexivity|]. destruct (body n); [|auto]. intros Hi. split; [exact Hi|]. apply Forall2_same_length_lookup_2; [reflexivity|]. intros b s s' Hs Hs'. left. congruence.
Qed.

(** What has been written. *)
Definition db_of (log : writes) : database := written log ∅.

Lemma db_of_app a b : db_of (a ++ b) = written b (db_of a).
Proof. unfold db_of, written. apply fold_left_app. Qed.

Lemma db_of_texts log : db_texts (db_of log) ⊆ log.*2.
Proof.
  intros x Hx. apply list_elem_of_fmap in Hx as ([e y] & -> & Hin). apply elem_of_map_to_list in Hin. destruct (written_lookup log ∅ e) as [[Hl _]|(z & Hz & Hl)]; unfold db_of in Hin; rewrite Hl in Hin; [now rewrite lookup_empty in Hin|].
  injection Hin as ->. apply list_elem_of_fmap. exists (e, y). auto.
Qed.

Section Saved.
Context (log : writes) (known : SHAMapHash -> option stree) (t : stree) (ws : list stree).
Hypothesis (Hbk : backs (db_of log) known) (Hr : rooted t) (Hst : storable t) (Hcov : ShamapStore.covered known ws t) (Hws : forall s, s ∈ ws -> s ∈ subtrees t /\ solid s).
Hypothesis (Hb : ~ broken (log ++ (entry <$> ws)).*2).

Lemma saved_includes : includes (log ++ (entry <$> ws)).*2 (db_of log) t.
Proof.
  assert (forall x, x ∈ db_texts (db_of log) -> x ∈ (log ++ (entry <$> ws)).*2) as Hold by (intros x Hx; rewrite fmap_app; apply elem_of_app; left; now apply db_of_texts).
  split; [|exact Hold]. intros s Hs Hsol. destruct (Hcov s Hs Hsol) as [Hk|Hw].
  - apply Hold, list_elem_of_fmap. exists (merkle s, text_of s). split; [reflexivity|]. apply elem_of_map_to_list. exact (bk_text _ _ Hbk _ _ Hk).
  - rewrite fmap_app. apply elem_of_app. right. rewrite <- list_fmap_compose. apply list_elem_of_fmap. exists s. auto.
Qed.

Lemma saved_backs : backs (db_of (log ++ (entry <$> ws))) (adds known t).
Proof. rewrite db_of_app. exact (adds_backs Hlen (db_of log) known t Hbk (rooted_proper t Hr Hst) _ saved_includes Hb ws Hcov Hws). Qed.

Lemma saved_larger us : (forall s, s ∈ us -> s ∈ subtrees t /\ solid s) -> larger (saved_since known us) (on_disk (adds known t)).
Proof.
  intros Hus. split; [intros e s; apply adds_old|]. intros s Hs u Hu Hsol. left. destruct (Hs u Hu Hsol) as [Hk|Hw]; [now apply adds_old|].
  apply (adds_new Hlen (db_of log) known t Hbk (rooted_proper t Hr Hst) _ saved_includes Hb). left. auto.
Qed.

End Saved.

(** ** Flushing a tree *)

Definition tree_at (known : SHAMapHash -> option stree) (next : Z) (h : heap) (tree : MutableTree) (t : stree) : Prop :=
  frozen (on_disk known) next h (root tree) t /\ rooted t /\ 1 <= owner tree /\ (owner tree < next \/ shared_at h (root tree)).

Section Trees.
Context {E : Type} (log : writes) (known : SHAMapHash -> option stree) (next : Z) (Hbk : backs (db_of log) known).

Lemma walk_shared (writer : option WriteNode) o l h n : 1 <= o -> h !! l = Some n -> cowid n = 0 ->
  walk_subtree_impl (E := E) l o writer h = (Ok (l, O, []), h) /\ try_walk_subtree_detached_impl (E := E) l o writer h = (Ok (l, O, []), h).
Proof.
  intros Ho Hn Hz. unfold walk_subtree_impl, try_walk_subtree_detached_impl. rewrite bool_decide_eq_true_2 by lia. unfold debug_assert.
  split; rewrite (mbind_ok (mret tt) _ h tt h eq_refl); run (read_ok (E := E) l h n Hn); now rewrite decide_True.
Qed.

Lemma flush_dirty_ok (writer : WriteNode (E := E)) f h tree t : writes_as next writer f -> tree_at known next h tree t ->
  exists k ws l h', flush_dirty writer tree h = (Ok (k, ws ≫= f, mkTree l (owner tree)), h') /\ flushes known next 0 h h' l t ws.
Proof.
  intros Hw (Hf & Hr & Ho & [Hlt|(n & Hn & Hz)]); unfold flush_dirty.
  - destruct (walk_subtree_ok known (fun e s => backs_covered _ _ s e Hbk) next (owner tree) (conj Ho Hlt) writer f Hw (root tree) h t Hf Hr) as (k & h' & l & ws & Hrun & Hfl).
    exists k, ws, l, h'. split; [run Hrun; reflexivity|exact Hfl].
  - exists 0%nat, [], (root tree), h. split; [|eapply flushes_self; eauto]. run (proj1 (walk_shared (Some writer) (owner tree) (root tree) h n Ho Hn Hz)). now destruct tree.
Qed.

Lemma flush_detached_ok (writer : WriteNode (E := E)) f h tree t : writes_as next writer f -> tree_at known next h tree t ->
  exists k ws l h', try_flush_dirty_detached writer tree h = (Ok (k, ws ≫= f, mkTree l (owner tree)), h') /\ flushes known next (length h) h h' l t ws.
Proof.
  intros Hw (Hf & Hr & Ho & [Hlt|(n & Hn & Hz)]); unfold try_flush_dirty_detached.
  - destruct (walk_detached_ok known (fun e s => backs_covered _ _ s e Hbk) next (owner tree) (conj Ho Hlt) writer f Hw (root tree) h t Hf Hr) as (k & h' & l & ws & Hrun & Hfl).
    exists k, ws, l, h'. split; [run Hrun; reflexivity|exact Hfl].
  - exists 0%nat, [], (root tree), h. split; [|eapply flushes_self; eauto]. run (proj2 (walk_shared (Some writer) (owner tree) (root tree) h n Ho Hn Hz)). now destruct tree.
Qed.

End Trees.

Lemma collect_node_writes next : writes_as next collect_node (fun s => [entry s]).
Proof.
  intros g h l n s Hn Hf Hh Hsol. destruct (serialize_ok next g h l n s Hn Hf Hh Hsol) as [Hs Hm]. unfold collect_node. run (read_ok (E := PersistError) l h n Hn). rewrite Hs. run (lift_ok (E := PersistError) (Ok (text_of s)) _ h eq_refl). now rewrite Hm.
Qed.

(** ** One ledger *)

Definition after_flush (v : view) : view := mkView (v_map v) (v_closed v) false true.
Definition after_persist (v : view) (accepted : bool) : view := mkView (v_map v) (v_closed v) true (accepted || v_saved v).
Definition after_load (v : view) : view := mkView (v_map v) true false true.

Lemma with_root_fields m r seq : let m' := with_root m r seq in sync_root m' = r /\ backed m' = backed m /\ LedgerState.state m' = LedgerState.state m.
Proof. unfold with_root. destruct (is_full m); auto. Qed.

Lemma ledger_carried g g' next h h' L v f : carried g g' next h h' -> fetch_ok g' (backed (state_map L)) f -> ledger_good g next h L v -> ledger_good g' next h' (set_node_fetcher f L) v.
Proof.
  intros (Hf & Hh & Hz) Hfe [(t & Ht & Hst & Hc) (tx & Htx & Hsx & Hzx & Hcx) Hr _ Hs Hcl Ho Hha Hown Hsav]. constructor; auto.
  - exists t. split; [apply Hf, Ht|]. split; [exact Hst|]. intros Hi. destruct (Hc Hi) as [H1 H2]. split; [eapply Hh; [exact Ht|exact H1]|exact H2].
  - exists tx. auto.
  - cbn [mutable_state set_node_fetcher]. destruct (mutable_state L); [|exact Hown]. destruct Hown as (? & ? & [?|?]); auto.
Qed.

Definition flushable (v : view) : Prop := v_own v = true \/ v_saved v = true.

Lemma take_good {E} known next h L v : ledger_good (on_disk known) next h L v -> flushable v -> exists tree t,
  take_tree (E := E) L h = (Ok tree, h) /\ root tree = current_root L /\ tree_at known next h tree t /\ stands_for AccountState t (v_map v) /\ (immutable L = true -> account_hash (header L) = merkle t).
Proof.
  intros [(t & Ht & Hst & Hc) _ Hr _ _ _ _ _ Hown Hsav] Hfl. unfold take_tree, current_root in *. destruct (mutable_state L) as [tree|].
  - destruct Hown as (_ & Ho & Hlt). exists tree, t. split; [reflexivity|]. split; [reflexivity|]. split; [split; [exact Ht|split; [apply Hst|auto]]|]. split; [exact Hst|]. intros Hi. now destruct (Hc Hi).
  - assert (v_saved v = true) as Hv by (destruct Hfl; congruence). destruct (Hsav Hv) as (n & Hn & Hz). eexists (mkTree _ _), t. split.
    + unfold from_loaded_root. rewrite decide_False by lia. run (read_ok (E := E) _ h n Hn). rewrite decide_True by lia. reflexivity.
    + split; [reflexivity|]. split; [split; [exact Ht|split; [apply Hst|split; [cbn; lia|right; exists n; auto]]]|]. split; [exact Hst|]. intros Hi. now destruct (Hc Hi).
Qed.

Lemma items_storable t m : stands_for AccountState t m -> map_Forall (fun _ => codable AccountState) m -> storable t.
Proof.
  intros Hst Hm x Hx. pose proof (stands_lookup AccountState t m (ckey x) Hst) as Hl. destruct Hst as [(kids & _ & Hsh & _) _].
  rewrite (proj2 (contents_lookup [] t (ckey x) x Hsh) (conj Hx eq_refl)) in Hl. destruct (m !! ckey x) as [it|] eqn:Hi; [|discriminate]. injection Hl as ->. exact (Hm _ _ Hi).
Qed.

(** What a flush comes to, the store having taken [out]. *)
Definition stores (log : writes) (known : SHAMapHash -> option stree) (next : Z) (h : heap) (v : view) (out : writes) (L' : Ledger) (h' : heap) : Prop :=
  ~ broken (log ++ out).*2 -> exists known', backs (db_of (log ++ out)) known' /\ carried (on_disk known) (on_disk known') next h h' /\
    forall f, fetch_ok (on_disk known') (backed (state_map L')) f -> ledger_good (on_disk known') next h' (set_node_fetcher f L') v.

Section One.
Context (log : writes) (known : SHAMapHash -> option stree) (next : Z) (Hbk : backs (db_of log) known) (Hnext : 1 <= next).

Lemma flush_good {E} h L v : ledger_good (on_disk known) next h L v -> flushable v -> map_Forall (fun _ => codable AccountState) (v_map v) ->
  exists out L' h', flush_state_map_to_store (E := E) true L h = (Ok (out, L'), h') /\ backed (state_map L') = backed (state_map L) /\ stores log known next h (after_flush v) out L' h'.
Proof.
  intros Hg Hfl Hit. destruct (take_good (E := E) known next h L v Hg Hfl) as (tree & t & Htake & Hroot & Hat & Hst & Hacc).
  destruct (flush_dirty_ok (E := E) log known next Hbk write_node (fun s => [entry s]) h tree t (write_node_writes next) Hat) as (k & ws & l & h' & Hrun & Hfl'). rewrite bind_entries in Hrun.
  destruct (with_root_fields (state_map L) l (header_seq (header L))) as (Hwr & Hwb & Hws). eexists _, _, h'. split; [unfold flush_state_map_to_store; run Htake; run Hrun; reflexivity|].
  cbn [root fst snd set_state state_map]. split; [exact Hwb|]. intros Hb. exists (adds known t). pose proof (items_storable t _ Hst Hit) as Hsto. destruct (flushes_covered _ _ _ _ _ _ _ _ Hfl') as [Hcov Hhd].
  pose proof (saved_larger log known t ws Hbk (proj1 Hst) Hsto Hcov Hb ws (fl_written _ _ _ _ _ _ _ _ Hfl')) as Hlg.
  split; [exact (saved_backs log known t ws Hbk (proj1 Hst) Hsto Hcov (fl_written _ _ _ _ _ _ _ _ Hfl') Hb)|].
  pose proof (carried_trans _ _ _ _ _ _ _ (flushes_carried _ _ _ _ _ _ _ _ Hfl') (larger_carried _ _ next h' Hlg)) as Hcar. split; [exact Hcar|].
  intros f Hfe. destruct Hg as [_ (tx & Htx & Hsx & Hzx & Hcx) Hr _ Hs Hcl Ho Hha _ _]. destruct Hcar as (Cf & Ch & Cz).
  constructor; cbn [set_node_fetcher set_state header state_map tx_map immutable node_fetcher mutable_state current_root after_flush v_map v_closed v_own v_saved] in *; auto.
  - exists t. rewrite Hwr. split; [exact (proj1 (larger_carried _ _ next h' Hlg) _ _ (fl_root _ _ _ _ _ _ _ _ Hfl'))|]. auto.
  - exists tx. auto.
  - rewrite Hws. exact Hs.
  - intros _. unfold current_root. cbn. rewrite Hwr. exact (fl_shared _ _ _ _ _ _ _ _ Hfl').
Qed.

(** The tree of the transactions, which are stored. *)
Lemma tx_tree_ok {E} h L : shared_at h (sync_root (tx_map L)) ->
  from_loaded_root (E := E) (sync_root (tx_map L)) (Z.max (header_seq (header L)) 1) h = (Ok (mkTree (sync_root (tx_map L)) (Z.max (header_seq (header L)) 1)), h).
Proof. intros (n & Hn & Hz). unfold from_loaded_root. rewrite decide_False by lia. run (read_ok (E := E) _ h n Hn). now rewrite decide_True by lia. Qed.

Lemma tx_flush_ok {E} (writer : WriteNode (E := E)) h tree : 1 <= owner tree -> shared_at h (root tree) ->
  flush_dirty writer tree h = (Ok (O, [], tree), h) /\ try_flush_dirty_detached writer tree h = (Ok (O, [], tree), h).
Proof.
  intros Ho (n & Hn & Hz). destruct (walk_shared (E := E) (Some writer) _ _ h n Ho Hn Hz) as [H1 H2]. unfold flush_dirty, try_flush_dirty_detached. destruct tree. split; [run H1|run H2]; reflexivity.
Qed.

Lemma collect_ok h L tree t : tree_at known next h tree t -> shared_at h (sync_root (tx_map L)) -> exists ws h', let tx_tree := mkTree (sync_root (tx_map L)) (Z.max (header_seq (header L)) 1) in
  collect_dirty L tree h = (Ok (tx_tree, node_writes AccountNode (header_seq (header L)) (entry <$> ws)), h') /\ ShamapStore.covered known ws t /\ (forall s, s ∈ ws -> s ∈ subtrees t /\ solid s) /\
  carried (on_disk known) (on_disk known) next h h'.
Proof.
  intros Hat Htx. destruct (flush_detached_ok log known next Hbk collect_node (fun s => [entry s]) h tree t (collect_node_writes next) Hat) as (k & ws & l & h' & Hrun & Hfl). rewrite bind_entries in Hrun.
  pose proof (prefix_carried (on_disk known) next h h' Hnext (fl_before _ _ _ _ _ _ _ _ Hfl)) as Hcar. pose proof (proj2 (proj2 Hcar) _ Htx) as Htx'.
  exists ws, h'. split; [|split; [apply (flushes_covered _ _ _ _ _ _ _ _ Hfl)|split; [apply Hfl|exact Hcar]]].
  unfold collect_dirty. run Hrun. run (tx_tree_ok (E := PersistError) h' L Htx'). run (proj2 (tx_flush_ok collect_node h' (mkTree (sync_root (tx_map L)) (Z.max (header_seq (header L)) 1)) ltac:(cbn; lia) Htx')).
  cbn [fst snd node_writes]. now rewrite app_nil_r.
Qed.

Lemma install_ok h L tree t : tree_at known next h tree t -> shared_at h (sync_root (tx_map L)) -> let tx_tree := mkTree (sync_root (tx_map L)) (Z.max (header_seq (header L)) 1) in exists l ws h',
  install_dirty L tree tx_tree h = (Ok (mkLedger (header L) (with_root (state_map L) l (header_seq (header L))) (with_root (tx_map L) (sync_root (tx_map L)) (header_seq (header L))) (immutable L) (node_fetcher L) (Some (mkTree l (owner tree)))), h') /\
  flushes known next 0 h h' l t ws.
Proof.
  intros Hat Htx tx_tree. destruct (flush_dirty_ok (E := PersistError) log known next Hbk keep_node (fun _ => []) h tree t (keep_node_writes next) Hat) as (k & ws & l & h' & Hrun & Hfl).
  assert (shared_at h' (root tx_tree)) as Htx' by (destruct Htx as (n & Hn & Hz); exact (fl_kept _ _ _ _ _ _ _ _ Hfl _ _ Hn Hz)). exists l, ws, h'. split; [|exact Hfl].
  unfold install_dirty. run Hrun. run (proj1 (tx_flush_ok (E := PersistError) keep_node h' tx_tree ltac:(cbn; lia) Htx')). reflexivity.
Qed.

(** A writer of whole batches: all of it is taken, or nothing. *)
Definition checked_batch (accepted : bool) : Writer (list LedgerNodeWrite) := fun ws log =>
  if accepted then (Ok tt, log ++ ((fun w => (write_hash w, write_data w)) <$> ws)) else (Err (WriteFailed []), log).

(** A refused batch: the tree is put back. *)
Lemma restored_good h h' L v tree : ledger_good (on_disk known) next h L v -> take_tree (E := PersistError) L h = (Ok tree, h) -> root tree = current_root L -> 1 <= owner tree -> (owner tree < next \/ shared_at h (root tree)) ->
  carried (on_disk known) (on_disk known) next h h' -> stores log known next h (after_persist v false) [] (set_state L (state_map L) (Some tree)) h'.
Proof.
  intros Hg _ Hroot Ho Hlt Hcar _. exists known. rewrite app_nil_r. split; [exact Hbk|]. split; [exact Hcar|]. intros f Hfe.
  pose proof (ledger_carried _ _ _ _ _ L v f Hcar Hfe Hg) as [(t & Ht & Hst & Hc) Htx Hr _ Hs Hcl Hop Hha Hown Hsav].
  change (current_root (set_node_fetcher f L)) with (current_root L) in *. rewrite <- Hroot in *.
  constructor; auto.
  - exists t. auto.
  - split; [reflexivity|]. split; [exact Ho|]. destruct Hlt as [|Hz]; [auto|right]. now apply Hcar.
Qed.

(** An accepted batch. *)
Lemma installed_good h h1 h2 L v tree t l ws us : ledger_good (on_disk known) next h L v -> 1 <= owner tree -> stands_for AccountState t (v_map v) -> storable t -> (immutable L = true -> account_hash (header L) = merkle t) ->
  ShamapStore.covered known ws t -> (forall s, s ∈ ws -> s ∈ subtrees t /\ solid s) -> carried (on_disk known) (on_disk known) next h h1 -> flushes known next 0 h1 h2 l t us ->
  stores log known next h (after_persist v true) (entry <$> ws)
    (mkLedger (header L) (with_root (state_map L) l (header_seq (header L))) (with_root (tx_map L) (sync_root (tx_map L)) (header_seq (header L))) (immutable L) (node_fetcher L) (Some (mkTree l (owner tree)))) h2.
Proof.
  intros Hg Ho Hst Hsto Hacc Hcov Hws Hcar1 Hfl Hb. exists (adds known t). destruct (flushes_covered _ _ _ _ _ _ _ _ Hfl) as [_ Hhd].
  pose proof (saved_larger log known t ws Hbk (proj1 Hst) Hsto Hcov Hb us (fl_written _ _ _ _ _ _ _ _ Hfl)) as Hlg. split; [exact (saved_backs log known t ws Hbk (proj1 Hst) Hsto Hcov Hws Hb)|].
  pose proof (carried_trans _ _ _ _ _ _ _ Hcar1 (carried_trans _ _ _ _ _ _ _ (flushes_carried _ _ _ _ _ _ _ _ Hfl) (larger_carried _ _ next h2 Hlg))) as Hcar. split; [exact Hcar|].
  intros f Hfe. destruct Hg as [_ (tx & Htx & Hsx & Hzx & Hcx) Hr _ Hs Hcl Hop Hha _ _]. destruct Hcar as (Cf & Ch & Cz).
  destruct (with_root_fields (state_map L) l (header_seq (header L))) as (Hwr & Hwb & Hwst). destruct (with_root_fields (tx_map L) (sync_root (tx_map L)) (header_seq (header L))) as (Xr & Xb & Xst).
  constructor; cbn [set_node_fetcher header state_map tx_map immutable node_fetcher mutable_state after_persist v_map v_closed v_own v_saved orb] in *; auto; unfold current_root; cbn [mutable_state root owner].
  - exists t. split; [exact (proj1 (larger_carried _ _ next h2 Hlg) _ _ (fl_root _ _ _ _ _ _ _ _ Hfl))|]. auto.
  - exists tx. rewrite Xr. auto.
  - rewrite Hwst, Xst. exact Hs.
  - split; [reflexivity|]. split; [exact Ho|]. right. exact (fl_shared _ _ _ _ _ _ _ _ Hfl).
  - intros _. exact (fl_shared _ _ _ _ _ _ _ _ Hfl).
Qed.

Lemma persist_good accepted h L v : ledger_good (on_disk known) next h L v -> flushable v -> map_Forall (fun _ => codable AccountState) (v_map v) ->
  exists out L' h', persist_dirty_nodes_to_store_result (Some (checked_batch accepted)) None L log h = ((if accepted then Ok tt else Err (WriteFailed [])), L', log ++ out, h') /\
    backed (state_map L') = backed (state_map L) /\ stores log known next h (after_persist v accepted) out L' h'.
Proof.
  intros Hg Hfl Hit. destruct (take_good (E := PersistError) known next h L v Hg Hfl) as (tree & t & Htake & Hroot & Hat & Hst & Hacc). destruct (g_tx _ _ _ _ _ Hg) as (tx & Htx & Hsx & Hzx & Hcx).
  destruct (collect_ok h L tree t Hat Hzx) as (ws & h1 & Hcol & Hcov & Hws & Hcar). unfold persist_dirty_nodes_to_store_result. cbv zeta. rewrite Htake, Hcol. unfold checked_batch. pose proof Hat as (Hf & Hr & Ho & Hlt). destruct accepted.
  - assert (tree_at known next h1 tree t) as Hat1 by (destruct Hcar as (Cf & _ & Cz); split; [apply Cf, Hf|]; split; [exact Hr|]; split; [exact Ho|]; destruct Hlt; auto).
    destruct (install_ok h1 L tree t Hat1 (proj2 (proj2 Hcar) _ Hzx)) as (l & us & h2 & Hins & Hfl2). rewrite Hins. exists (entry <$> ws). eexists _, h2. split; [|split].
    + do 2 f_equal. unfold node_writes. rewrite <- list_fmap_compose. f_equal. f_equal. rewrite <- (list_fmap_id (entry <$> ws)) at 2. apply list_fmap_ext. now intros ? [] _.
    + apply with_root_fields.
    + eapply installed_good; eauto. eapply items_storable; eauto.
  - exists []. eexists _, h1. rewrite app_nil_r. split; [reflexivity|]. split; [reflexivity|]. eapply restored_good; eauto.
Qed.

(** ** Loading a map by its hash *)

Lemma empty_merkle : merkle (Node no_kids) = uint256_zero.
Proof. cbn [merkle]. rewrite decide_True; [reflexivity|]. now apply Forall_replicate. Qed.

Lemma rooted_empty t : rooted t -> ~ solid t -> t = Node no_kids.
Proof.
  intros (kids & -> & Hsh & _) Hns. inversion Hsh as [| |? ? _ _ H16 _]; subst. cbn [solid] in Hns. f_equal.
  destruct (decide (Forall (fun t => t = Empty) kids)) as [Hall|]; [|contradiction]. unfold no_kids. rewrite <- H16. clear -Hall. induction Hall as [|t kids -> _ IH]; [reflexivity|]. cbn. now f_equal.
Qed.

(** The map that a new one becomes, and where. *)
Definition loads (h : heap) (m : SyncTree) (t : stree) (m' : SyncTree) (x : list SHAMapTreeNode) : Prop :=
  frozen (on_disk known) next (h ++ x) (sync_root m') t /\ hashed (h ++ x) (sync_root m') t /\ shared_at (h ++ x) (sync_root m') /\ LedgerState.state m' = LedgerState.state m /\ backed m' = backed m.

Lemma load_root {E} h l t m : frozen (on_disk known) next h l t -> rooted t -> shared_at h l -> frozen (on_disk known) next h (sync_root m) (Node no_kids) -> shared_at h (sync_root m) -> exists m' x,
  (if decide (merkle t <> uint256_zero) then fetch_root_with_family (E := E) (store_fetcher (db_of log)) m (merkle t) else mret (true, m)) h = (Ok (true, m'), h ++ x) /\ loads h m t m' x.
Proof.
  intros Hf Hr (n & Hn & Hz) Hfm (nm & Hnm & Hzm). pose proof (shared_hashed next _ h _ nm _ Hfm Hnm Hzm) as Hhm.
  assert (solid t -> known (merkle t) = Some t) as Hkn.
  { intros Hsol. apply frozen_stands in Hf as (n' & Hn' & _ & Hsh & _). assert (n' = n) as -> by congruence. destruct (Hsh Hz t (subtrees_self t) Hsol) as [Hk|Hk]; [exact Hk|inversion Hk]. }
  destruct (decide (solid t)) as [Hsol|Hns].
  - destruct (bk_hash _ _ Hbk _ _ (Hkn Hsol)) as (_ & Hnz & _). rewrite decide_True by exact Hnz. destruct (store_fetcher_ok Hlen _ _ Hbk _ _ (Hkn Hsol)) as [_ Hfe]. destruct (Hfe h) as (l' & x & Hrun & Hfx).
    destruct (frozen_shared_hash _ _ _ _ Hfx) as (n' & Hn' & Hz' & Hm'). destruct Hhm as (nm' & Hnm' & Hmm & _). assert (nm' = nm) as -> by congruence. rewrite empty_merkle in Hmm.
    eexists _, x. split.
    + unfold fetch_root_with_family. run (read_ok (E := E) _ h nm Hnm). rewrite decide_False by congruence. rewrite (mbind_ok (call (store_fetcher (db_of log)) (merkle t)) _ h (Some l') (h ++ x)) by (unfold call; now rewrite Hrun).
      run (read_ok (E := E) _ (h ++ x) n' Hn'). rewrite bool_decide_eq_true_2 by exact Hm'. reflexivity.
    + cbn [sync_root]. assert (frozen (on_disk known) next (h ++ x) l' t) as Hfn by (eapply frozen_mono; [|exact Hfx]; lia). split; [exact Hfn|]. split; [eapply shared_hashed; eauto|]. split; [exists n'; auto|]. auto.
  - rewrite (rooted_empty t Hr Hns), empty_merkle. exists m, []. rewrite app_nil_r. split; [reflexivity|]. unfold loads. rewrite app_nil_r. split; [exact Hfm|]. split; [exact Hhm|]. split; [exists nm; auto|]. auto.
Qed.

Lemma load_good {E} h L v : ledger_good (on_disk known) next h L v -> v_closed v = true -> v_saved v = true -> exists L' x,
  load_immutable_with_family (E := E) (store_fetcher (db_of log)) (header L) h = (Ok (L', true), h ++ x) /\ backed (state_map L') = true /\
  forall f, fetch_ok (on_disk known) true f -> ledger_good (on_disk known) next (h ++ x) (set_node_fetcher f L') (after_load v).
Proof.
  intros [(t & Ht & Hst & Hc) (tx & Htx & Hsx & Hzx & Hcx) Hr _ _ Hcl _ Hha _ Hsav] Hv Hs. rewrite Hv in Hcl. destruct (Hc Hcl) as [_ Hacc]. specialize (Hcx Hcl). specialize (Hsav Hs).
  assert (forall h l t x, frozen (on_disk known) next h l t -> shared_at h l -> frozen (on_disk known) next (h ++ x) l t /\ shared_at (h ++ x) l) as Hup.
  { intros h0 l t0 x H1 (n & Hn & Hz). split; [apply (rests_app next (on_disk known) h0 x), H1|]. exists n. split; [now apply lookup_app_l_Some|exact Hz]. }
  destruct (new_tree_frozen (E := E) (on_disk known) next h StateMap true (header_seq (header L)) Hnext) as (s1 & x1 & Hn1 & Hf1 & Hm1 & Hb1 & Hz1).
  destruct (new_tree_frozen (E := E) (on_disk known) next (h ++ x1) TransactionMap true (header_seq (header L)) Hnext) as (s2 & x2 & Hn2 & Hf2 & Hm2 & Hb2 & Hz2).
  destruct (Hup _ _ _ x1 Htx Hzx) as [Htx1 Hzx1]. destruct (Hup _ _ _ x2 Htx1 Hzx1) as [Htx2 Hzx2].
  destruct (load_root (E := E) ((h ++ x1) ++ x2) _ tx s2 Htx2 Hsx Hzx2 Hf2 Hz2) as (m2 & x3 & Hl2 & Hg2 & Hh2 & Hs2 & Hst2 & _). rewrite <- Hcx in Hl2.
  destruct (Hup _ _ _ x1 Ht Hsav) as [Ht1 Hsav1]. destruct (Hup _ _ _ x2 Ht1 Hsav1) as [Ht2 Hsav2]. destruct (Hup _ _ _ x3 Ht2 Hsav2) as [Ht3 Hsav3].
  destruct (Hup _ _ _ x2 Hf1 Hz1) as [Hf12 Hz12]. destruct (Hup _ _ _ x3 Hf12 Hz12) as [Hf13 Hz13].
  destruct (load_root (E := E) (((h ++ x1) ++ x2) ++ x3) _ t s1 Ht3 (proj1 Hst) Hsav3 Hf13 Hz13) as (m1 & x4 & Hl1 & Hg1 & Hh1 & Hs1 & Hst1 & Hbm1). rewrite <- Hacc in Hl1.
  eexists _, (((x1 ++ x2) ++ x3) ++ x4). rewrite !app_assoc. split; [|split].
  - unfold load_immutable_with_family. run Hn1. run Hn2. run Hl2. run Hl1. cbn [fst snd andb]. unfold set_immutable. rewrite !decide_False by congruence. reflexivity.
  - cbn. congruence.
  - destruct (Hup _ _ _ x4 Hg2 Hs2) as [Hg2' Hs2']. intros f Hfe. constructor; cbn [set_node_fetcher header state_map tx_map immutable mutable_state backed sync_root LedgerState.state after_load v_map v_closed v_own v_saved current_root]; auto; try (intros; congruence); try discriminate.
    + exists t. split; [exact Hg1|]. auto.
    + exists tx. split; [exact Hg2'|]. auto.
    + cbn. unfold fetch_fn. cbn. now rewrite Hbm1, Hb1.
Qed.

End One.

(** ** Servers *)

Record server : Type := mkServer { s_world : world; s_log : writes }.

Inductive server_op : Type :=
| SLedger (op : world_op)
| SFlush (i : nat)
| SPersist (i : nat) (accepted : bool)
| SLoad (i : nat).

Inductive server_reply : Type :=
| SNone
| SReply (r : world_reply)
| SFlushed (r : outcome TraversalError unit)
| SPersisted (r : outcome PersistError unit)
| SLoaded (r : outcome TraversalError bool).

(** The fetchers of the ledgers read the store as it is. *)
Definition set_fetchers (log : writes) (Ls : list Ledger) : list Ledger := set_node_fetcher (store_fetcher (db_of log)) <$> Ls.

Definition server_step (s : server) (op : server_op) : server_reply * server :=
  let w := s_world s in
  let with_ledger i (k : Ledger -> server_reply * server) := match w_ledgers w !! i with Some self => k self | None => (SNone, s) end in
  match op with
  | SLedger op => let '(r, w) := world_step w op in (SReply r, mkServer w (s_log s))
  | SFlush i => with_ledger i (fun self =>
      match flush_state_map_to_store true self (w_heap w) with
      | (Ok (out, self), h) => (SFlushed (Ok tt), mkServer (mkWorld h (w_next w) (set_fetchers (s_log s ++ out) (<[i := self]> (w_ledgers w)))) (s_log s ++ out))
      | (r, h) => (SFlushed (void r), mkServer (mkWorld h (w_next w) (w_ledgers w)) (s_log s))
      end)
  | SPersist i accepted => with_ledger i (fun self =>
      let '(r, self, log, h) := persist_dirty_nodes_to_store_result (Some (checked_batch accepted)) None self (s_log s) (w_heap w) in
      (SPersisted r, mkServer (mkWorld h (w_next w) (set_fetchers log (<[i := self]> (w_ledgers w)))) log))
  | SLoad i => with_ledger i (fun self =>
      match load_immutable_with_family (store_fetcher (db_of (s_log s))) (header self) (w_heap w) with
      | (Ok (self, loaded), h) => (SLoaded (Ok loaded), mkServer (mkWorld h (w_next w) (w_ledgers w ++ set_fetchers (s_log s) [self])) (s_log s))
      | (r, h) => (SLoaded (_ <- r;; Ok false), mkServer (mkWorld h (w_next w) (w_ledgers w)) (s_log s))
      end)
  end.

Fixpoint server_steps (s : server) (ops : list server_op) : list server_reply * server :=
  match ops with
  | [] => ([], s)
  | op :: ops => let '(r, s) := server_step s op in let '(rs, s) := server_steps s ops in (r :: rs, s)
  end.

(** What is legal: a ledger is flushed when it has a tree of its own or is stored, and loaded
    again when it is closed and stored. *)
Definition server_legal (vs : list view) (op : server_op) : Prop :=
  match op with
  | SLedger op => legal vs op
  | SFlush i | SPersist i _ => exists v, vs !! i = Some v /\ flushable v
  | SLoad i => exists v, vs !! i = Some v /\ v_closed v = true /\ v_saved v = true
  end.

Definition server_items (op : server_op) : list SHAMapItem := match op with SLedger op => world_items op | _ => [] end.

Inductive server_view (vs : list view) : server_op -> server_reply -> list view -> Prop :=
| sv_ledger op r vs' : view_step vs op r vs' -> server_view vs (SLedger op) (SReply r) vs'
| sv_flush i v : vs !! i = Some v -> server_view vs (SFlush i) (SFlushed (Ok tt)) (<[i := after_flush v]> vs)
| sv_persist i v accepted : vs !! i = Some v -> server_view vs (SPersist i accepted) (SPersisted (if accepted then Ok tt else Err (WriteFailed []))) (<[i := after_persist v accepted]> vs)
| sv_load i v : vs !! i = Some v -> server_view vs (SLoad i) (SLoaded (Ok true)) (vs ++ [after_load v]).

Inductive server_views : list view -> list server_op -> list server_reply -> list view -> Prop :=
| server_done vs : server_views vs [] [] vs
| server_more vs op r vs1 ops rs vs2 : server_view vs op r vs1 -> server_views vs1 ops rs vs2 -> server_views vs (op :: ops) (r :: rs) vs2.

Inductive server_legals : list view -> list server_op -> list server_reply -> Prop :=
| server_legal_done vs : server_legals vs [] []
| server_legal_more vs op ops r rs : server_legal vs op -> (forall vs', server_view vs op r vs' -> server_legals vs' ops rs) -> server_legals vs (op :: ops) (r :: rs).

Definition sourced (log : writes) (L : Ledger) : Prop := backed (state_map L) = true /\ node_fetcher L = Some (store_fetcher (db_of log)).

(** What holds of every server. *)
Definition server_good (s : server) (vs : list view) : Prop :=
  exists known, backs (db_of (s_log s)) known /\ good (on_disk known) (s_world s) vs /\ Forall (sourced (s_log s)) (w_ledgers (s_world s)).

(** *** The fetchers *)

Lemma batch_sourced log L ops next h r L' next' h' : apply_state_batch L ops next h = (r, L', next', h') -> sourced log L -> sourced log L'.
Proof.
  intros Hrun Hs. assert (L' = L \/ exists tree, L' = publish L tree) as [->|[tree ->]]; [|exact Hs|].
  - unfold apply_state_batch in Hrun. destruct ops; [injection Hrun as <- <- <- <-; auto|]. destruct (read _ h) as [[n| | | |] h0]; try (injection Hrun as <- <- <- <-; auto). destruct (next_owner _ _) as [o nx].
    destruct ((_ ← _; _ : M MutationError MutableTree) h) as [[tree| | | |] h1]; injection Hrun as <- <- <- <-; eauto.
  - destruct Hs as [H1 H2]. split; [|exact H2]. cbn. destruct (is_full _); exact H1.
Qed.

(** The first step of a run that ends well. *)
Ltac first_step Hrun := unfold mbind at 1, M_bind at 1 in Hrun; match type of Hrun with (let '(_, _) := ?x in _) = _ => destruct x as [[?| | | |] ?] eqn:?; try discriminate end.

Lemma close_sourced {E} log L h L' h' : finalize_immutable (E := E) L true h = (Ok L', h') -> sourced log L -> sourced log L'.
Proof.
  intros Hrun Hs. unfold finalize_immutable in Hrun. cbv zeta in Hrun. first_step Hrun. unfold set_immutable in Hrun. first_step Hrun. first_step Hrun. injection Hrun as <- <-.
  destruct Hs as [H1 H2]. split; [|exact H2]. cbn [state_map]. unfold lift in *. destruct (decide (LedgerState.state (state_map L) = Invalid)); simplify_eq. exact H1.
Qed.

Lemma next_sourced {E} log L time h L' h' : from_previous (E := E) L time h = (Ok L', h') -> sourced log L -> sourced log L'.
Proof.
  intros Hrun Hs. unfold from_previous in Hrun. cbv zeta in Hrun. first_step Hrun. first_step Hrun. first_step Hrun. injection Hrun as <- <-. destruct Hs as [H1 H2]. split; [|exact H2]. cbn [state_map].
  match goal with Hsh : share_root_snapshot _ _ = _ |- _ => unfold share_root_snapshot in Hsh; first_step Hsh; first_step Hsh; injection Hsh as <- <- end. exact H1.
Qed.

Lemma world_sourced log w op r w' : world_step w op = (r, w') -> Forall (sourced log) (w_ledgers w) -> Forall (sourced log) (w_ledgers w').
Proof.
  intros Hrun Hs. unfold world_step in Hrun. destruct (w_ledgers w !! op_index op) as [L|] eqn:HL; [|injection Hrun as <- <-; exact Hs]. pose proof (Forall_lookup_1 _ _ _ _ Hs HL) as HsL. destruct op as [i ops|i|i time|i key|i key].
  - destruct (apply_state_batch _ _ _ _) as [[[r0 L'] nx] h'] eqn:Hb. injection Hrun as <- <-. apply Forall_insert; [exact Hs|]. eapply batch_sourced; eauto.
  - destruct (finalize_immutable L true (w_heap w)) as [[L'| | | |] h'] eqn:Hb; injection Hrun as <- <-; try exact Hs. apply Forall_insert; [exact Hs|]. eapply close_sourced; eauto.
  - destruct (from_previous L time (w_heap w)) as [[L'| | | |] h'] eqn:Hb; injection Hrun as <- <-; try exact Hs. apply Forall_app. split; [exact Hs|]. constructor; [|constructor]. eapply next_sourced; eauto.
  - destruct (exists_key _ _ _) as [r0 h']. injection Hrun as <- <-. exact Hs.
  - destruct (peek_state _ _ _) as [r0 h']. injection Hrun as <- <-. exact Hs.
Qed.

(** *** Steps *)

Lemma fetchers_sourced log Ls : Forall (fun L => backed (state_map L) = true) Ls -> Forall (sourced log) (set_fetchers log Ls).
Proof. intros Hb. apply Forall_fmap. eapply Forall_impl; [exact Hb|]. intros L HL. split; [exact HL|reflexivity]. Qed.

Lemma sourced_backed log Ls : Forall (sourced log) Ls -> Forall (fun L => backed (state_map L) = true) Ls.
Proof. intros Hs. eapply Forall_impl; [exact Hs|]. now intros L []. Qed.

Lemma stores_good s vs known i L v out L' h' v' : backs (db_of (s_log s)) known -> good (on_disk known) (s_world s) vs -> Forall (sourced (s_log s)) (w_ledgers (s_world s)) ->
  w_ledgers (s_world s) !! i = Some L -> vs !! i = Some v -> backed (state_map L') = backed (state_map L) -> stores (s_log s) known (w_next (s_world s)) (w_heap (s_world s)) v' out L' h' -> ~ broken (s_log s ++ out).*2 ->
  server_good (mkServer (mkWorld h' (w_next (s_world s)) (set_fetchers (s_log s ++ out) (<[i := L']> (w_ledgers (s_world s))))) (s_log s ++ out)) (<[i := v']> vs).
Proof.
  intros Hbk [Hn Hg] Hs HL Hv Hb Hst Hnb. destruct (Hst Hnb) as (known' & Hbk' & Hcar & Hnew). exists known'. cbn [s_world s_log w_heap w_next w_ledgers]. pose proof (store_fetcher_ok Hlen _ _ Hbk') as Hfe.
  pose proof (sourced_backed _ _ Hs) as Hbd. split; [exact Hbk'|]. split; [split; [exact Hn|]|].
  - cbn [w_heap w_next w_ledgers]. unfold set_fetchers. rewrite list_fmap_insert. apply Forall2_insert.
    + apply Forall2_fmap_l. apply Forall2_same_length_lookup_2; [eapply Forall2_length, Hg|]. intros j K u HK Hu. apply (ledger_carried (on_disk known) (on_disk known') (w_next (s_world s)) (w_heap (s_world s)) h'); [exact Hcar| |eapply Forall2_lookup_lr; eauto].
      rewrite (Forall_lookup_1 _ _ _ _ Hbd HK). exact Hfe.
    + apply Hnew. rewrite Hb, (Forall_lookup_1 _ _ _ _ Hbd HL). exact Hfe.
  - apply fetchers_sourced. apply Forall_insert; [exact Hbd|]. rewrite Hb. exact (Forall_lookup_1 _ _ _ _ Hbd HL).
Qed.

Context (items : SHAMapItem -> Prop) (Hitems : distinct AccountState items) (Hcodable : forall it, items it -> codable AccountState it).

Lemma server_step_spec s vs op : server_good s vs -> server_legal vs op -> w_next (s_world s) < 2 ^ 32 - 1 -> holds_only items vs -> Forall items (server_items op) ->
  exists r s' vs', server_step s op = (r, s') /\ server_view vs op r vs' /\ w_next (s_world s') <= w_next (s_world s) + 1 /\ holds_only items vs' /\ (~ broken (s_log s').*2 -> server_good s' vs').
Proof.
  intros (known & Hbk & Hg & Hs) Hl Hmax Hvs Hit. pose proof Hg as [Hn Hgl]. unfold server_step. cbv zeta. 
  assert (forall i v, vs !! i = Some v -> exists L, w_ledgers (s_world s) !! i = Some L /\ ledger_good (on_disk known) (w_next (s_world s)) (w_heap (s_world s)) L v) as Hat.
  { intros i v Hv. destruct (Forall2_lookup_r _ _ _ _ _ Hgl Hv) as (L & HL & HgL). eauto. }
  assert (forall v, v ∈ vs -> map_Forall (fun _ => codable AccountState) (v_map v)) as Hcod.
  { intros v Hv k it Hk. apply Hcodable. unfold holds_only in Hvs. rewrite Forall_forall in Hvs. exact (Hvs v Hv k it Hk). }
  assert (forall i v v', vs !! i = Some v -> v_map v' = v_map v -> holds_only items (<[i := v']> vs)) as Hkeep.
  { intros i v v' Hv Hm. apply Forall_insert; [exact Hvs|]. rewrite Hm. exact (Forall_lookup_1 _ _ _ _ Hvs Hv). }
  destruct op as [op|i|i accepted|i].
  - destruct (world_step_spec (on_disk known) items Hitems (s_world s) vs op Hg Hl Hmax Hvs Hit) as (r & w' & vs' & Hrun & Hview & Hg' & Hn'). rewrite Hrun. eexists _, _, vs'. split; [reflexivity|].
    split; [now constructor|]. split; [exact Hn'|]. split; [eapply view_known; eauto|]. intros _. exists known. split; [exact Hbk|]. split; [exact Hg'|]. eapply world_sourced; eauto.
  - destruct Hl as (v & Hv & Hfl). destruct (Hat i v Hv) as (L & HL & HgL). rewrite HL.
    destruct (flush_good (E := TraversalError) (s_log s) known _ Hbk _ L v HgL Hfl (Hcod v (list_elem_of_lookup_2 _ _ _ Hv))) as (out & L' & h' & Hrun & Hb & Hst). rewrite Hrun. eexists _, _, _. split; [reflexivity|].
    split; [eapply sv_flush; eauto|]. split; [cbn; lia|]. split; [eapply Hkeep; eauto; reflexivity|]. intros Hnb. eapply stores_good; eauto.
  - destruct Hl as (v & Hv & Hfl). destruct (Hat i v Hv) as (L & HL & HgL). rewrite HL.
    destruct (persist_good (s_log s) known _ Hbk Hn accepted _ L v HgL Hfl (Hcod v (list_elem_of_lookup_2 _ _ _ Hv))) as (out & L' & h' & Hrun & Hb & Hst). rewrite Hrun. eexists _, _, _. split; [reflexivity|].
    split; [eapply sv_persist; eauto|]. split; [cbn; lia|]. split; [eapply Hkeep; eauto; reflexivity|]. intros Hnb. eapply stores_good; eauto.
  - destruct Hl as (v & Hv & Hcl & Hsv). destruct (Hat i v Hv) as (L & HL & HgL). rewrite HL.
    destruct (load_good (E := TraversalError) (s_log s) known _ Hbk Hn _ L v HgL Hcl Hsv) as (L' & x & Hrun & Hb & HgL'). rewrite Hrun. eexists _, _, _. split; [reflexivity|].
    split; [eapply sv_load; eauto|]. split; [cbn; lia|]. split.
    + apply Forall_app. split; [exact Hvs|]. apply Forall_singleton. exact (Forall_lookup_1 _ _ _ _ Hvs Hv).
    + intros _. exists known. cbn [s_world s_log w_heap w_next w_ledgers]. split; [exact Hbk|]. split; [split; [exact Hn|]|].
      * apply Forall2_app; [|constructor; [apply HgL', (store_fetcher_ok Hlen _ _ Hbk)|constructor]]. eapply (others_stable (on_disk known)); [|reflexivity|exact Hgl]. apply prefix_carried; [exact Hn|]. intros m Hm. now apply lookup_app_l.
      * apply Forall_app. split; [exact Hs|]. apply fetchers_sourced. constructor; [exact Hb|constructor].
Qed.

(** *** Runs *)

Lemma server_step_log s op r s' : server_step s op = (r, s') -> exists out, s_log s' = s_log s ++ out.
Proof.
  assert (exists out, s_log s = s_log s ++ out) as Hsame by (exists []; now rewrite app_nil_r).
  unfold server_step. cbv zeta. intros Hrun. destruct op as [op|i|i accepted|i]; [destruct (world_step _ _); injection Hrun as <- <-; exact Hsame| | |]; (destruct (w_ledgers (s_world s) !! i) as [L|]; [|injection Hrun as <- <-; exact Hsame]).
  - destruct (flush_state_map_to_store true L _) as [[[out L']| | | |] h']; injection Hrun as <- <-; cbn; eauto.
  - destruct (persist_dirty_nodes_to_store_result _ _ _ _ _) as [[[r0 L'] log] h'] eqn:Hp. injection Hrun as <- <-. cbn [s_log]. unfold persist_dirty_nodes_to_store_result, checked_batch in Hp. cbv zeta in Hp.
    destruct (take_tree L _) as [[tree| | | |] h0]; try (injection Hp as <- <- <- <-; exact Hsame). destruct (collect_dirty L tree h0) as [[[tx ws]| | | |] h1]; try (injection Hp as <- <- <- <-; exact Hsame).
    destruct accepted; [|injection Hp as <- <- <- <-; exact Hsame]. destruct (install_dirty L tree tx h1) as [[L1| | | |] h2]; injection Hp as <- <- <- <-; eauto.
  - destruct (load_immutable_with_family _ _ _) as [[[L' loaded]| | | |] h']; injection Hrun as <- <-; exact Hsame.
Qed.

Lemma server_steps_log ops : forall s, exists out, s_log (server_steps s ops).2 = s_log s ++ out.
Proof.
  induction ops as [|op ops IH]; intros s; cbn [server_steps]; [exists []; now rewrite app_nil_r|]. destruct (server_step s op) as [r s1] eqn:Hstep. destruct (IH s1) as [out Hout]. destruct (server_step_log _ _ _ _ Hstep) as [out1 H1].
  destruct (server_steps s1 ops) as [rs s2]. cbn in *. exists (out1 ++ out). now rewrite Hout, H1, app_assoc.
Qed.

Lemma server_spec ops : forall s vs, server_good s vs -> server_legals vs ops (server_steps s ops).1 -> w_next (s_world s) + Z.of_nat (length ops) < 2 ^ 32 - 1 -> holds_only items vs -> Forall items (ops ≫= server_items) ->
  ~ broken (s_log (server_steps s ops).2).*2 -> exists rs s' vs', server_steps s ops = (rs, s') /\ server_views vs ops rs vs' /\ server_good s' vs'.
Proof.
  induction ops as [|op ops IH]; intros s vs Hg Hl Hmax Hvs Hit Hb; cbn [server_steps] in *.
  - eexists _, _, _. split; [reflexivity|]. split; [constructor|exact Hg].
  - cbn in Hit. apply Forall_app in Hit as [Hit Hits]. cbn [length] in Hmax. destruct (server_step s op) as [r s1] eqn:Hstep. pose proof (server_steps_log ops s1) as [out Hout]. destruct (server_steps s1 ops) as [rs s2] eqn:Hsteps. cbn [fst snd] in *.
    inversion Hl as [|? ? ? ? ? Hleg Hrest]; subst. destruct (server_step_spec s vs op Hg Hleg ltac:(lia) Hvs Hit) as (r' & s1' & vs1 & Hrun & Hview & Hn1 & Hvs1 & Hg1). rewrite Hstep in Hrun. injection Hrun as <- <-.
    assert (~ broken (s_log s1).*2) as Hb1 by (intros Hbr; apply Hb; rewrite Hout, fmap_app; eapply broken_mono; [|exact Hbr]; apply list_subseteq_app_l; done).
    destruct (IH s1 vs1 (Hg1 Hb1) ltac:(rewrite Hsteps; exact (Hrest vs1 Hview)) ltac:(lia) Hvs1 Hits ltac:(now rewrite Hsteps)) as (rs' & s2' & vs2 & Hruns & Hviews & Hg2). rewrite Hsteps in Hruns. injection Hruns as <- <-.
    eexists _, _, _. split; [reflexivity|]. split; [econstructor; eauto|exact Hg2].
Qed.

End Stored.
