(* ===== verification/ShamapProps.v ===== *)
(** * ShamapProps: what a SHAMap promises

    The properties of the hash tree of xrpl/shamap/src, each with a witness on a small
    tree.  The hash function is a parameter; where a property fails with it, the failure
    is stated as a pair of texts with one digest. *)

From stdpp Require Import gmap list.
From Stdlib Require Import ZArith Lia Sorted.
From S2P Require Import Prelude Serializer ShamapKey ShamapNode ShamapSlots ShamapInner ShamapTree ShamapHeap ShamapRepr ShamapWalk ShamapOrder ShamapMutate ShamapAdd ShamapDelete ShamapMap ShamapHash ShamapBinding ShamapCodec.
Local Open Scope Z_scope.

Section Props.
Context `{Sha512}.

(** Trees that are all in memory. *)
Definition no_store : ghost := mkGhost (fun _ => None) (fun _ => True) I.

Lemma no_store_fetch : fetch_ok no_store false no_fetch.
Proof. intros e t [=]. Qed.

Lemma empty_stands ty : stands_for ty (Node no_kids) ∅.
Proof.
  split; [|reflexivity]. exists no_kids. split; [reflexivity|]. split.
  - constructor; [split; [cbn; lia|constructor]|cbn; lia|reflexivity|]. intros b t Hb. apply lookup_replicate in Hb as [-> _]. constructor.
  - intros s Hs. apply elem_of_replicate_inv in Hs as ->. constructor.
Qed.

Lemma new_tree_ok {E} store c h : 1 <= c -> exists self n, mutable_new (E := E) c h = (Ok self, h ++ [n]) /\ tree_ok store c (h ++ [n]) self (Node no_kids).
Proof.
  intros Hc. destruct (new_node_ok c Hc (E := E) h) as (n & Hnew & Hn). exists (mkTree (length h) c), n. split.
  - unfold mutable_new. rewrite decide_False by lia. run (lift_ok _ _ h Hnew). reflexivity.
  - split; [reflexivity|]. exists (MNode (length h) bare). split; [constructor; [exact Hn|intros m Hm; exact (bare_hold store c (h ++ [n]) m Hm)]|]. split; [|split; reflexivity].
    cbn [locs]. replace (concat (map locs bare)) with (@nil loc) by reflexivity. apply NoDup_singleton.
Qed.

(** A tree with given items. *)
Lemma added_tree ty l : ty <> Inner -> Forall good_item l -> NoDup (item_key <$> l) ->
  exists h self t, tree_ok no_store 1 h self t /\ stands_for ty t (list_to_map ((fun x => (item_key x, x)) <$> l)).
Proof.
  intros Hty. induction l as [|x l IH]; intros Hg Hnd.
  - destruct (new_tree_ok (E := MutationError) no_store 1 [] ltac:(lia)) as (self & n & _ & Hto). exists ([] ++ [n]), self, (Node no_kids). split; [exact Hto|]. apply empty_stands.
  - apply Forall_cons in Hg as [Hx Hg]. rewrite fmap_cons in Hnd. apply NoDup_cons in Hnd as [Hnx Hnd]. destruct (IH Hg Hnd) as (h & self & t & Hto & Hst). pose proof Hst as [Hr Hct].
    assert (contents t !! item_key x = None) as Hnone.
    { rewrite Hct, lookup_fmap, fmap_None. apply not_elem_of_list_to_map_1. rewrite <- list_fmap_compose. exact Hnx. }
    destruct (add_item_spec no_store 1 ltac:(lia) false no_fetch no_store_fetch self h t ty x Hto Hr Hty Hx) as (h' & r & _ & _ & [(y & Hy & _)|[(_ & self' & t' & _ & Hto' & Hr' & Hct')|(_ & y & Hy & Hne & _)]]).
    + congruence.
    + exists h', self', t'. split; [exact Hto'|]. split; [exact Hr'|]. rewrite Hct', Hct. cbn. now rewrite fmap_insert.
    + destruct Hne. eapply stands_leaf; eauto.
Qed.

(** C5: a new mutable tree, whatever operations are run on it (additions, updates,
    deletions, lookups, in any order, on any keys), answers each of them as a finite map
    does, never panics and never runs out of levels; afterwards it stands for the tree
    that the map determines, and every tree whose nodes have smaller owners stands as
    before.  It relies on different items written under one key having different
    digests. *)
Theorem shamap_refines_map (c : Z) (ty : SHAMapNodeType) (ops : list map_op) (h : heap) : 1 <= c -> ty <> Inner -> Forall op_ok ops ->
  distinct ty (fun x => x ∈ ops ≫= op_items) ->
  exists self h0 self' h' t, mutable_new (E := MutationError) c h = (Ok self, h0) /\ run_ops false no_fetch collapse_loaded ty ops self h0 = ((map_steps ∅ ops).1, self', h') /\
    tree_ok no_store c h' self' t /\ stands_for ty t (map_steps ∅ ops).2 /\ forall l t0, frozen no_store c h l t0 -> frozen no_store c h' l t0.
Proof.
  intros Hc Hty Hok Hd. destruct (new_tree_ok (E := MutationError) no_store c h Hc) as (self & n & Hnew & Hto).
  destruct (ops_spec false no_fetch collapse_loaded ty no_store c Hc no_store_fetch (collapse_loaded_ok no_store c Hc (fun _ => eq_refl)) Hty _ Hd ops self (h ++ [n]) _ ∅ Hto (empty_stands ty) Hok
    (map_Forall_empty _) (proj2 (Forall_forall _ _) (fun _ Hx => Hx))) as (self' & h' & t & Hrun & Hkeep & Hto' & Hst).
  exists self, (h ++ [n]), self', h', t. repeat (split; [assumption|]). intros l t0 Hf. eapply frozen_keeps; [|exact Hf]. eapply keeps_trans; [apply keeps_app|exact Hkeep].
Qed.

(** The items of a tree in the order of their keys. *)
Lemma stands_listing ty t m : stands_for ty t m -> StronglySorted key_lt (leaves t) /\ forall x, x ∈ leaves t <-> x.1 = ty /\ m !! ckey x = Some x.2.
Proof.
  intros Hst. pose proof Hst as [(kids & Heq & Hs & _) Hct]. split; [exact (shaped_sorted [] t Hs)|]. intros x. split.
  - intros Hx. pose proof (stands_leaf ty t m x Hst Hx) as Hty. split; [exact Hty|]. pose proof (proj2 (contents_lookup [] t _ x Hs) (conj Hx eq_refl)) as Hl. clear Hx. rename Hl into Hx. rewrite Hct, lookup_fmap in Hx. destruct (m !! ckey x) as [y|] eqn:Hy; cbn in Hx; [|discriminate].
    injection Hx as <-. reflexivity.
  - intros [<- Hm]. apply (contents_lookup [] t (ckey x) x Hs). rewrite Hct, lookup_fmap, Hm. cbn. now destruct x.
Qed.

(** C18: walks through a tree that stands for a map go by the order of the keys: the
    items of the map in that order are a list from which [upper_bound] answers the first
    one after the given key, [lower_bound] the last one before it, [iterate_from] as many
    as are asked for of those after it, and [peek_first_item] the first.  Whether the key
    is in the map or not makes no difference; none of the walks fails, panics or runs out
    of levels, and no tree is changed for its readers. *)
Theorem walks_follow_the_order (store : ghost) (c : Z) (backed : bool) (fetch : Fetch) (h : heap) (root : loc) (ty : SHAMapNodeType) (t : stree) (m : gmap Uint256 SHAMapItem) (id : Uint256) (limit : nat) :
  1 <= c -> fetch_ok store backed fetch -> frozen store c h root t -> stands_for ty t m -> is_key id ->
  exists l, StronglySorted key_lt l /\ (forall x, x ∈ l <-> x.1 = ty /\ m !! ckey x = Some x.2) /\
    (exists r h', upper_bound backed fetch root id h = (Ok r, h') /\ keeps store c h h' /\ answers store c h' (filter (fun x => key_ltb id (ckey x) = true) l) r) /\
    (exists r h', lower_bound backed fetch root id h = (Ok r, h') /\ keeps store c h h' /\ answers store c h' (filter (fun x => key_ltb (ckey x) id = true) (rev l)) r) /\
    (exists ls h', iterate_from backed fetch root id limit h = (Ok ls, h') /\ keeps store c h h' /\
      Forall2 (fun leaf x => frozen store c h' leaf (Leaf x.1 x.2)) ls (take limit (filter (fun x => key_ltb id (ckey x) = true) l))) /\
    (exists r stack h', peek_first_item backed fetch root h = (Ok (r, stack), h') /\ keeps store c h h' /\ answers store c h' l r).
Proof.
  intros Hc Hfetch Hf Hst Hid. destruct (stands_listing ty t m Hst) as [Hs Hin]. pose proof (proj1 Hst) as Hr. exists (leaves t). split; [exact Hs|]. split; [exact Hin|]. split; [|split; [|split]].
  - exact (bound_spec store c Hc backed fetch Hfetch t Hr id Hid true root h Hf).
  - exact (bound_spec store c Hc backed fetch Hfetch t Hr id Hid false root h Hf).
  - exact (iterate_spec store c Hc backed fetch Hfetch t Hr root h id limit Hid Hf).
  - destruct (first_item_spec store c Hc backed fetch Hfetch t Hr root h Hf) as (r & stack & h' & Hrun & Hk & Hcase). exists r, stack, h'. split; [exact Hrun|]. split; [exact Hk|].
    destruct r as [leaf|]; [|destruct Hcase as [-> _]; reflexivity]. destruct Hcase as (x & k & stack' & -> & _ & _ & Hl). exists leaf. split; [reflexivity|exact Hl].
Qed.

(** C12: the hash of the root, filled in by the recursive computation, is a function of
    the map alone: two trees that stand for one map, whatever their histories and owners,
    get one root hash. *)
Theorem root_hash_canonical (store : ghost) (ty : SHAMapNodeType) (m : gmap Uint256 SHAMapItem) (c c' : Z) (h h' : heap) (l l' : loc) (t t' : stree) :
  frozen store c h l t -> stands_for ty t m -> frozen store c' h' l' t' -> stands_for ty t' m ->
  exists h1 h1' n n', recompute_hashes_recursive (E := TraversalError) LEVELS l h = (Ok tt, h1) /\ recompute_hashes_recursive (E := TraversalError) LEVELS l' h' = (Ok tt, h1') /\
    h1 !! l = Some n /\ h1' !! l' = Some n' /\ hash n = hash n' /\ frozen store c h1 l t.
Proof.
  intros Hf [Hr Hct] Hf' [Hr' Hct']. assert (t' = t) as -> by (apply rooted_unique; congruence). destruct Hr as (kids & -> & Hs & _).
  destruct (recompute_spec (E := TraversalError) store c LEVELS [] h l _ Hf Hs ltac:(unfold LEVELS; cbn; lia)) as (h1 & Hr1 & Hset & n & Hn & Hh & _).
  destruct (recompute_spec (E := TraversalError) store c' LEVELS [] h' l' _ Hf' Hs ltac:(unfold LEVELS; cbn; lia)) as (h1' & Hr1' & _ & n' & Hn' & Hh' & _).
  exists h1, h1', n, n'. repeat (split; [assumption|]). split; [congruence|]. now apply Hset.
Qed.

(** C17: the root hash determines the map: if two trees of account states (or of
    transactions with metadata) get one root hash, they stand for one map, or the hash
    function has failed on the texts of their nodes: two of these have one digest, or one
    has the digest zero. *)
Theorem root_hash_binding (store : ghost) (ty : SHAMapNodeType) (m m' : gmap Uint256 SHAMapItem) (c c' : Z) (h h' h1 h1' : heap) (l l' : loc) (t t' : stree) (n n' : SHAMapTreeNode) :
  (forall text, length (sha512 text) = 64%nat) -> ty <> TransactionNm ->
  frozen store c h l t -> stands_for ty t m -> frozen store c' h' l' t' -> stands_for ty t' m' ->
  recompute_hashes_recursive (E := TraversalError) LEVELS l h = (Ok tt, h1) -> recompute_hashes_recursive (E := TraversalError) LEVELS l' h' = (Ok tt, h1') ->
  h1 !! l = Some n -> h1' !! l' = Some n' -> hash n = hash n' -> m = m' \/ broken (texts t ++ texts t').
Proof.
  intros Hlen Hty Hf Hst Hf' Hst' Hr1 Hr1' Hn Hn' He. pose proof Hst as [Hr Hct]. pose proof Hst' as [Hr' Hct']. pose proof Hr as (kids & _ & Hs & _). pose proof Hr' as (kids' & _ & Hs' & _).
  destruct (recompute_spec (E := TraversalError) store c LEVELS [] h l _ Hf Hs ltac:(unfold LEVELS; cbn; lia)) as (h2 & Hr2 & _ & n2 & Hn2 & Hh2 & _).
  destruct (recompute_spec (E := TraversalError) store c' LEVELS [] h' l' _ Hf' Hs' ltac:(unfold LEVELS; cbn; lia)) as (h2' & Hr2' & _ & n2' & Hn2' & Hh2' & _).
  assert (h2 = h1 /\ h2' = h1') as [-> ->] by (split; congruence). assert (merkle t = merkle t') as Hm by congruence.
  assert (forall u mu x, stands_for ty u mu -> x ∈ leaves u -> named x) as Hnamed by (intros u mu x Hu Hx Hnm; rewrite (stands_leaf ty u mu x Hu Hx) in Hnm; contradiction).
  destruct (root_binding Hlen t t' Hr Hr' (fun x => Hnamed t m x Hst) (fun x => Hnamed t' m' x Hst') Hm) as [->|]; [left|auto].
  rewrite Hct in Hct'. apply (map_fmap_inj (pair ty)) in Hct'; [exact Hct'|]. intros x y [=]. assumption.
Qed.

(** C25: inner nodes keep their type: whatever sequence of operations is run on a well
    formed inner node, each on a branch the node can take it on, none of them panics, the
    node stays an inner node whose arrays have the size for its branches and hold nothing
    else, and answers and contents are those of sixteen slots. *)
Theorem inner_nodes_typed {E} (n : SHAMapTreeNode) (i : SHAMapInnerNode) (ops : list inner_op) :
  body n = InnerBody i -> inner_ok i -> usable_run (mkSlotted (hash n) (cowid n) (slots i)) ops ->
  exists rs n' i', inner_run (E := E) n ops = Ok (rs, n') /\ body n' = InnerBody i' /\ inner_ok i' /\
    slot_run (mkSlotted (hash n) (cowid n) (slots i)) ops = (rs, mkSlotted (hash n') (cowid n') (slots i')).
Proof.
  intros Hb Hi Hu. destruct (inner_run_spec (E := E) ops n _ ltac:(exists i; auto) Hu) as (n' & Hrun & i' & Hb' & Hi' & Hs).
  exists (slot_run (mkSlotted (hash n) (cowid n) (slots i)) ops).1, n', i'. split; [exact Hrun|]. split; [exact Hb'|]. split; [exact Hi'|]. rewrite <- Hs. apply surjective_pairing.
Qed.

(** C24: a node that can be written ([encodable]: an inner node with at least one branch
    and the hashes of its children; a leaf with at most 16 MiB of data, whose key is the
    digest of its data for a transaction without metadata and not zero for an account
    state), written for the store or for the wire, is read back: an inner node
    with its hashes on the branches they were on, a leaf with its item, and a node from
    the wire with the hash of its text. *)
Theorem node_codec_roundtrip (n : SHAMapTreeNode) (e : SHAMapHash) : encodable n ->
  exists data raw n1 n2, serialize_with_prefix n = Ok data /\ make_from_prefix data e = Ok n1 /\ read_back n n1 e /\
    serialize_for_wire n = Ok raw /\ make_from_wire raw = Ok (Some n2) /\ read_back n n2 (sha512_half data).
Proof.
  intros He. destruct (codec_roundtrip n e He) as (Hs & (n1 & Hn1 & Hr1) & raw & n2 & Hw & Hn2 & Hr2). exists (node_text n), raw, n1, n2. auto 8.
Qed.

End Props.

(** ** Witnesses *)

Module Example.

(** A function to run the definitions with. *)
Definition toy_sum (text : list Z) : Z := fold_left (fun acc b => Z.land (acc * 65537 + b + 1) 0xffffffffffffffffffffffffffffffffffffffffffffffffffffffffffffffff) text 1.

(** The bytes of a number, the lowest first. *)
Fixpoint low_bytes (n : nat) (z : Z) : list Z := match n with O => [] | S n => Z.land z 255 :: low_bytes n (Z.shiftr z 8) end.

#[local] Instance toy : Sha512 := fun text => low_bytes 64 (toy_sum text).

Lemma toy_length text : length (sha512 text) = 64%nat.
Proof.
  unfold sha512, toy. generalize (toy_sum text). generalize 64%nat. induction n as [|n IH]; intros z; [reflexivity|]. cbn. now rewrite IH.
Qed.

Definition key (n : Z) : Uint256 := n :: replicate 30 7 ++ [n].
Definition entry (n d : Z) : SHAMapItem := mkItem (key n) (replicate 12 d).

Lemma key_good n : 0 <= n < 256 -> is_key (key n).
Proof. intros Hn. split; [reflexivity|]. unfold bytes_ok, is_byte. repeat constructor; lia. Qed.

Lemma entry_good n d : 0 <= n < 256 -> good_item (entry n d).
Proof. intros Hn. split; [now apply key_good|apply Nat.leb_le; reflexivity]. Qed.

(** Two keys that part at once, two that share a nibble. *)
Definition ops : list map_op := [OpAdd (entry 1 1); OpAdd (entry 2 2); OpAdd (entry 0x21 3); OpAdd (entry 2 4); OpUpdate (entry 1 5); OpDelete (key 0x21); OpPeek (key 1); OpHas (key 0x21)].

Lemma ops_good : Forall op_ok ops.
Proof. unfold ops. repeat (apply Forall_cons; split; [cbn [op_ok]; first [apply entry_good|apply key_good]; lia|]). apply Forall_nil_2. Qed.

Lemma ops_replies : (map_steps ∅ ops).1 =
  [Changed (Ok true); Changed (Ok true); Changed (Ok true); Changed (Ok false); Changed (Ok true); Changed (Ok true); Item (Ok (Some (entry 1 5))); Found (Ok false)].
Proof. vm_compute. reflexivity. Qed.

Lemma distinct_list ty l : bool_decide (Forall (fun a => Forall (fun b => item_key a = item_key b -> leaf_digest ty a = leaf_digest ty b -> a = b) l) l) = true -> distinct ty (fun x => x ∈ l).
Proof. intros Hd%bool_decide_eq_true a b Ha Hb. rewrite Forall_forall in Hd. specialize (Hd a Ha). rewrite Forall_forall in Hd. auto. Qed.

Lemma shamap_refines_map_witness : exists self h0 self' h' t, mutable_new (E := MutationError) 3 [] = (Ok self, h0) /\
  run_ops false no_fetch collapse_loaded AccountState ops self h0 = ((map_steps ∅ ops).1, self', h') /\
  tree_ok no_store 3 h' self' t /\ stands_for AccountState t (map_steps ∅ ops).2 /\ forall l t0, frozen no_store 3 [] l t0 -> frozen no_store 3 h' l t0.
Proof. apply (shamap_refines_map 3 AccountState ops []); [lia|discriminate|exact ops_good|apply distinct_list; vm_compute; reflexivity]. Defined.

(** One map, built in two orders. *)
Definition pair_map : gmap Uint256 SHAMapItem := <[key 1 := entry 1 1]> (<[key 2 := entry 2 2]> ∅).

Lemma built (l : list SHAMapItem) : Forall good_item l -> NoDup (item_key <$> l) -> list_to_map ((fun x => (item_key x, x)) <$> l) = pair_map ->
  exists h l t, frozen no_store 2 h l t /\ stands_for AccountState t pair_map.
Proof.
  intros Hg Hnd Hm. destruct (added_tree AccountState l ltac:(discriminate) Hg Hnd) as (h & self & t & (_ & m & Hh & _ & Hl & He) & Hst). rewrite Hm in Hst.
  exists h, (root self), t. split; [|exact Hst]. rewrite <- He. apply (holds_frozen_up no_store 1); auto. lia.
Qed.

Lemma built_one : exists h l t, frozen no_store 2 h l t /\ stands_for AccountState t pair_map.
Proof. apply (built [entry 1 1; entry 2 2]); [repeat (apply Forall_cons; split; [apply entry_good; lia|]); apply Forall_nil_2| |reflexivity]. apply (bool_decide_unpack _). vm_compute. exact I. Qed.

Lemma built_two : exists h l t, frozen no_store 2 h l t /\ stands_for AccountState t pair_map.
Proof.
  apply (built [entry 2 2; entry 1 1]); [repeat (apply Forall_cons; split; [apply entry_good; lia|]); apply Forall_nil_2| |]; [apply (bool_decide_unpack _); vm_compute; exact I|].
  cbn. unfold pair_map. now apply insert_insert_ne.
Qed.

Lemma after_first l : StronglySorted key_lt l -> (forall x, x ∈ l <-> x.1 = AccountState /\ pair_map !! ckey x = Some x.2) ->
  filter (fun x => key_ltb (key 1) (ckey x) = true) l = [(AccountState, entry 2 2)].
Proof.
  intros Hs Hin. apply Permutation_singleton_r, NoDup_Permutation; [|apply NoDup_singleton|].
  - apply NoDup_filter, (NoDup_fmap_1 ckey), sorted_NoDup; [|exact Hs]. intros x Hx. apply Hin in Hx as [_ Hx]. unfold pair_map in Hx.
    apply lookup_insert_Some in Hx as [[<- _]|[_ Hx]]; [apply key_good; lia|]. apply lookup_insert_Some in Hx as [[<- _]|[_ Hx]]; [apply key_good; lia|discriminate].
  - intros [ty x]. rewrite list_elem_of_filter, Hin, list_elem_of_singleton. cbn [fst snd]. split.
    + intros (Hlt & -> & Hx). unfold pair_map in Hx. apply lookup_insert_Some in Hx as [[Hk _]|[_ Hx]]; [rewrite <- Hk in Hlt; discriminate|].
      apply lookup_insert_Some in Hx as [[_ <-]|[_ Hx]]; [reflexivity|discriminate].
    + intros [= -> ->]. repeat split; reflexivity.
Qed.

Lemma walks_follow_the_order_witness : exists h root r h', upper_bound false no_fetch root (key 1) h = (Ok (Some r), h') /\ frozen no_store 2 h' r (Leaf AccountState (entry 2 2)).
Proof.
  destruct built_one as (h & root & t & Hf & Hst).
  destruct (walks_follow_the_order no_store 2 false no_fetch h root AccountState t pair_map (key 1) 5 ltac:(lia) no_store_fetch Hf Hst ltac:(split; [reflexivity|repeat constructor; cbn; lia]))
    as (l & Hs & Hin & (r & h' & Hup & _ & Ha) & _).
  rewrite (after_first l Hs Hin) in Ha. destruct Ha as (leaf & -> & Hleaf). exists h, root, leaf, h'. auto.
Defined.

Lemma root_hash_canonical_witness : exists h h' l l' h1 h1' n n', recompute_hashes_recursive (E := TraversalError) LEVELS l h = (Ok tt, h1) /\
  recompute_hashes_recursive (E := TraversalError) LEVELS l' h' = (Ok tt, h1') /\ h1 !! l = Some n /\ h1' !! l' = Some n' /\ hash n = hash n'.
Proof.
  destruct built_one as (h & l & t & Hf & Hst), built_two as (h' & l' & t' & Hf' & Hst').
  destruct (root_hash_canonical no_store AccountState pair_map 2 2 h h' l l' t t' Hf Hst Hf' Hst') as (h1 & h1' & n & n' & H1 & H2 & H3 & H4 & H5 & _). eauto 14.
Defined.

Lemma root_hash_binding_witness : exists t, stands_for AccountState t pair_map /\ (pair_map = pair_map \/ broken (texts t ++ texts t)).
Proof.
  destruct built_one as (h & l & t & Hf & Hst), built_two as (h' & l' & t' & Hf' & Hst').
  assert (t' = t) as -> by (destruct Hst, Hst'; apply rooted_unique; congruence). pose proof (proj1 Hst) as (kids & _ & Hs & _).
  destruct (recompute_spec (E := TraversalError) no_store 2 LEVELS [] h l t Hf Hs ltac:(unfold LEVELS; cbn; lia)) as (h1 & Hr & _ & n & Hn & Hh & _).
  destruct (recompute_spec (E := TraversalError) no_store 2 LEVELS [] h' l' t Hf' Hs ltac:(unfold LEVELS; cbn; lia)) as (h1' & Hr' & _ & n' & Hn' & Hh' & _).
  exists t. split; [exact Hst|]. apply (root_hash_binding no_store AccountState pair_map pair_map 2 2 h h' h1 h1' l l' t t n n' toy_length ltac:(discriminate) Hf Hst Hf' Hst' Hr Hr' Hn Hn'). congruence.
Defined.

(** Branches are added until the arrays grow, hooked up, dropped and copied. *)
Definition inner_ops : list inner_op :=
  [ISetChildHash 3 (key 1); ISetChildHash 9 (key 2); ICanonicalize 9 7%nat (key 2); ISetChildHash 0 (key 3); ISetChild 12 (Some 4%nat); IShareChild 3 5%nat; ISetChildHash 3 uint256_zero; IUpdateHash;
   ISetChild 9 None; IClone 8; IUnshare; IRelease; IUpdateHash].

Lemma inner_nodes_typed_witness : exists n i rs n' i', new_inner (E := unit) 1 = Ok n /\ body n = InnerBody i /\ inner_run (E := unit) n inner_ops = Ok (rs, n') /\ body n' = InnerBody i' /\ inner_ok i' /\
  slot_run (mkSlotted (hash n) (cowid n) (slots i)) inner_ops = (rs, mkSlotted (hash n') (cowid n') (slots i')).
Proof.
  destruct (new_inner_ok (E := unit) 1) as (i & Hnew & Hi & Hs). eexists _, i.
  destruct (inner_nodes_typed (E := unit) (mkNode uint256_zero 1 (InnerBody i)) i inner_ops eq_refl Hi) as (rs & n' & i' & Hrest); [|exists rs, n', i'; split; [exact Hnew|split; [reflexivity|exact Hrest]]].
  cbn [hash cowid]. rewrite Hs. cbn. repeat split; eauto; try lia; discriminate.
Defined.

Lemma node_codec_roundtrip_witness : exists data raw n1 n2, let n := mkNode uint256_zero 1 (LeafBody AccountState (entry 1 1)) in
  serialize_with_prefix n = Ok data /\ make_from_prefix data (key 1) = Ok n1 /\ read_back n n1 (key 1) /\
  serialize_for_wire n = Ok raw /\ make_from_wire raw = Ok (Some n2) /\ read_back n n2 (sha512_half data).
Proof.
  apply (node_codec_roundtrip (mkNode uint256_zero 1 (LeafBody AccountState (entry 1 1))) (key 1)). cbn. split; [discriminate|apply entry_good; lia|cbn; lia|discriminate|]. intros _ He. discriminate.
Defined.

End Example.
