(* ===== verification/LedgerProps.v ===== *)
(** * LedgerProps: what the ledgers promise

    The properties of [Ledger] and its state map, with witnesses on small ledgers. *)

From stdpp Require Import gmap list.
From Stdlib Require Import ZArith Lia.
From S2P Require Import Prelude Serializer ShamapKey ShamapNode ShamapSlots ShamapTree ShamapHeap ShamapRepr ShamapWalk ShamapMutate ShamapMap ShamapHash ShamapBinding LedgerHeader LedgerState LedgerBatch LedgerWorld ShamapProps.
Local Open Scope Z_scope.

Section Props.
Context `{Sha512}.

(** The items that the ledgers hold or that are written to them. *)
Definition at_hand (vs : list view) (ops : list world_op) (x : SHAMapItem) : Prop := (exists v k, v ∈ vs /\ v_map v !! k = Some x) \/ x ∈ ops ≫= world_items.

(** C2: ledgers that share the nodes of their state maps are independent maps.  Over any
    sequence of batches, closings, successions and reads on any of the ledgers, every
    answer is the one the map of that ledger gives, a batch is applied as a whole or
    refused with the error of its first bad operation and without a trace, a new ledger
    starts as a copy of its parent, and no step changes what another ledger holds.  It
    relies on different entries of one key having different digests. *)
Theorem ledgers_refine_maps (store : ghost) (w : world) (vs : list view) (ops : list world_op) :
  good store w vs -> legal_steps vs ops (world_steps w ops).1 -> w_next w + Z.of_nat (length ops) < 2 ^ 32 - 1 -> distinct AccountState (at_hand vs ops) ->
  exists rs w' vs', world_steps w ops = (rs, w') /\ view_steps vs ops rs vs' /\ good store w' vs'.
Proof.
  intros Hg Hl Hmax Hd. apply (world_spec store _ Hd); auto; apply Forall_forall.
  - intros v Hv k x Hx. left. eauto.
  - intros x Hx. right. exact Hx.
Qed.

(** C10: a closed ledger is determined by its hash: two closed ledgers with one hash have
    the same number, the same coins, parent, times and flags, the same transactions hash
    and the same state, or the hash function has failed on the texts of their headers and
    of the nodes of their states. *)
Theorem ledger_hash_binding (store : ghost) (w : world) (vs : list view) (i j : nat) (L L' : Ledger) (v v' : view) :
  (forall text, length (sha512 text) = 64%nat) -> good store w vs -> w_ledgers w !! i = Some L -> w_ledgers w !! j = Some L' -> vs !! i = Some v -> vs !! j = Some v' ->
  v_closed v = true -> v_closed v' = true -> header_ok (header L) -> header_ok (header L') -> header_hash (header L) = header_hash (header L') ->
  (received (header L) false = received (header L') false /\ v_map v = v_map v') \/
  exists t t', stands_for AccountState t (v_map v) /\ stands_for AccountState t' (v_map v') /\ broken ([header_text (header L); header_text (header L')] ++ texts t ++ texts t').
Proof.
  intros Hlen [_ Hg] HL HL' Hv Hv' Hc Hc' Hok Hok' He. destruct (Forall2_lookup_lr _ _ _ _ _ _ Hg HL Hv) as [(t & _ & Hst & Ht) _ _ _ _ Hi _ Hh _ _]. destruct (Forall2_lookup_lr _ _ _ _ _ _ Hg HL' Hv') as [(t' & _ & Hst' & Ht') _ _ _ _ Hi' _ Hh' _ _].
  rewrite Hi in Ht, Hh. rewrite Hi' in Ht', Hh'. rewrite (Hh Hc), (Hh' Hc') in He. destruct (header_binding _ _ Hok Hok' He) as [Hr|Hb]; [|right; exists t, t'; split; [exact Hst|]; split; [exact Hst'|]; eapply broken_mono; [|exact Hb]; apply list_subseteq_app_l; done].
  destruct (Ht Hc) as [_ Ha]. destruct (Ht' Hc') as [_ Ha']. assert (merkle t = merkle t') as Hm by (rewrite <- Ha, <- Ha'; unfold received in Hr; now injection Hr).
  assert (forall u mu x, stands_for AccountState u mu -> x ∈ leaves u -> named x) as Hnamed by (intros u mu x Hu Hx Hnm; rewrite (stands_leaf AccountState u mu x Hu Hx) in Hnm; discriminate).
  destruct (root_binding Hlen t t' (proj1 Hst) (proj1 Hst') (fun x => Hnamed t _ x Hst) (fun x => Hnamed t' _ x Hst') Hm) as [->|Hb]; [left|right; exists t, t'; split; [exact Hst|]; split; [exact Hst'|]; eapply broken_mono; [|exact Hb]; apply list_subseteq_app_r; done]. split; [exact Hr|].
  destruct Hst as [_ Hct], Hst' as [_ Hct']. rewrite Hct in Hct'. apply (map_fmap_inj (pair AccountState)) in Hct'; [exact Hct'|]. intros x y [=]. assumption.
Qed.

(** Closing is canonical: closed ledgers that hold the same state have the same
    account hash, whatever batches led to it and whichever nodes they share. *)
Theorem account_hash_canonical (store : ghost) (w : world) (vs : list view) (i j : nat) (L L' : Ledger) (v v' : view) :
  good store w vs -> w_ledgers w !! i = Some L -> w_ledgers w !! j = Some L' -> vs !! i = Some v -> vs !! j = Some v' ->
  v_closed v = true -> v_closed v' = true -> v_map v = v_map v' -> account_hash (header L) = account_hash (header L').
Proof.
  intros [_ Hg] HL HL' Hv Hv' Hc Hc' He. destruct (Forall2_lookup_lr _ _ _ _ _ _ Hg HL Hv) as [(t & _ & [Hr Hct] & Ht) _ _ _ _ Hi _ _ _ _]. destruct (Forall2_lookup_lr _ _ _ _ _ _ Hg HL' Hv') as [(t' & _ & [Hr' Hct'] & Ht') _ _ _ _ Hi' _ _ _ _].
  rewrite Hi in Ht. rewrite Hi' in Ht'. destruct (Ht Hc) as [_ ->]. destruct (Ht' Hc') as [_ ->]. f_equal. apply rooted_unique; congruence.
Qed.

End Props.

(** C34: a header that is sent is read back as it was, whatever follows it on the wire,
    with and without its hash; the marks [validated] and [accepted] are not sent. *)
Theorem header_roundtrip (h : LedgerHeader) (with_hash : bool) (rest : list Z) : header_ok h ->
  deserialize_ledger_header (serialize_ledger_header h with_hash ++ rest) with_hash = Ok (received h with_hash) /\
  deserialize_prefixed_ledger_header (serialize_prefixed_ledger_header h with_hash ++ rest) with_hash = Ok (received h with_hash).
Proof.
  intros Hh. split; [now apply header_roundtrip_raw|]. unfold deserialize_prefixed_ledger_header, serialize_prefixed_ledger_header. rewrite add_raw_covered.
  rewrite (proj2 (Nat.ltb_ge _ _)) by (rewrite !length_app; cbn; lia). change (drop 4 (((add32 HASH_PREFIX_LEDGER_MASTER []).2 ++ ?x) ++ rest)) with (x ++ rest).
  rewrite <- (header_roundtrip_raw h with_hash rest Hh). unfold serialize_ledger_header. now rewrite add_raw_covered.
Qed.

(** ** Witnesses *)

Module Example.
Import ShamapProps.Example.

#[local] Existing Instance toy.

Definition genesis : LedgerHeader := mkHeader 1 100000000000 uint256_zero uint256_zero uint256_zero uint256_zero 0 700000000 false false 30 0.

Definition first : outcome TraversalError Ledger * heap := ledger_new genesis false [].
Definition start : world := mkWorld first.2 100 (match first.1 with Ok L => [L] | _ => [] end).

Lemma start_good : good no_store start [mkView ∅ false false true].
Proof.
  destruct (new_ledger_good (E := TraversalError) no_store 100 [] genesis false (fun _ => eq_refl) ltac:(lia) eq_refl eq_refl) as (L & x & Hnew & Hg).
  unfold start, first. rewrite Hnew. split; [cbn; lia|]. constructor; [exact Hg|constructor].
Qed.

Definition payload (d : Z) : list Z := replicate 12 d.

(** Two successors of one ledger, one of them changed. *)
Definition steps : list world_op :=
  [WBatch 0 [(Insert, key 1, payload 1); (Insert, key 2, payload 2)]; WBatch 0 [(Update, key 1, payload 9); (Delete, key 3, [])]; WClose 0; WNext 0 0; WNext 0 0;
   WBatch 1 [(Update, key 1, payload 3); (Delete, key 2, [])]; WPeek 0 (key 1); WHas 2 (key 2)].

Lemma batches_ok : Forall batch_op_ok [(Insert, key 1, payload 1); (Insert, key 2, payload 2); (Update, key 1, payload 9); (Delete, key 3, []); (Update, key 1, payload 3); (Delete, key 2, [])].
Proof.
  repeat (apply Forall_cons; split; [split; [apply key_good; lia|first [left; reflexivity|right; split; [apply Nat.leb_le; reflexivity|cbn; lia]]]|]). apply Forall_nil_2.
Qed.

Definition answers : list world_reply :=
  [RBatch (Ok tt); RBatch (Err (MissingExactLeaf (key 3))); RDone (Ok tt); RDone (Ok tt); RDone (Ok tt); RBatch (Ok tt); RPeek (Ok (Some (mkItem (key 1) (payload 1)))); RHas (Ok true)].

Lemma steps_answers : (world_steps start steps).1 = answers.
Proof. vm_compute. reflexivity. Qed.

Ltac legal_step := apply legal_more; [eexists; split; [reflexivity|]|let Hstep := fresh in intros ? Hstep; inversion Hstep; clear Hstep; subst; cbn in *; simplify_eq].

Lemma steps_legal : legal_steps [mkView ∅ false false true] steps answers.
Proof.
  pose proof batches_ok as Hok. rewrite !Forall_cons in Hok. destruct Hok as (? & ? & ? & ? & ? & ? & _). unfold steps, answers.
  legal_step. { split; [reflexivity|]. auto. }
  legal_step. { split; [reflexivity|]. auto. }
  legal_step. { exact I. }
  legal_step. { reflexivity. }
  legal_step. { reflexivity. }
  legal_step. { split; [reflexivity|]. auto. }
  legal_step. { apply key_good. lia. }
  legal_step. { apply key_good. lia. }
  constructor.
Qed.

Lemma hand_list ops : distinct AccountState (fun x => x ∈ ops ≫= world_items) -> distinct AccountState (at_hand [mkView ∅ false false true] ops).
Proof.
  intros Hd a b Ha Hb. assert (forall x, at_hand [mkView ∅ false false true] ops x -> x ∈ ops ≫= world_items) as Hx by (intros x [(v & k & ->%list_elem_of_singleton & Hk)|Hx]; [discriminate|exact Hx]). auto.
Qed.

Lemma ledgers_refine_maps_witness : exists rs w' vs', world_steps start steps = (rs, w') /\ view_steps [mkView ∅ false false true] steps rs vs' /\ good no_store w' vs'.
Proof.
  apply (ledgers_refine_maps no_store start [mkView ∅ false false true] steps start_good); [rewrite steps_answers; exact steps_legal|cbn; lia|].
  apply hand_list, distinct_list. vm_compute. reflexivity.
Defined.

(** Two ledgers built alike on one parent, and closed. *)
Definition twins : list world_op := [WBatch 0 [(Insert, key 1, payload 1); (Insert, key 2, payload 2)]; WClose 0; WNext 0 0; WNext 0 0; WClose 1; WClose 2].
Definition twins_answers : list world_reply := [RBatch (Ok tt); RDone (Ok tt); RDone (Ok tt); RDone (Ok tt); RDone (Ok tt); RDone (Ok tt)].

Lemma twins_legal : legal_steps [mkView ∅ false false true] twins twins_answers.
Proof.
  pose proof batches_ok as Hok. rewrite !Forall_cons in Hok. destruct Hok as (? & ? & _). unfold twins, twins_answers.
  legal_step. { split; [reflexivity|]. auto. } legal_step. { exact I. } legal_step. { reflexivity. } legal_step. { reflexivity. } legal_step. { exact I. } legal_step. { exact I. } constructor.
Qed.

Definition born : world := (world_steps start twins).2.
Definition twin (i : nat) : Ledger := default (mkLedger genesis (mkSync 0 StateMap false 0 Modifying false) (mkSync 0 StateMap false 0 Modifying false) false None None) (w_ledgers born !! i).

Lemma twins_good : exists v0 v1 v2, good no_store born [v0; v1; v2] /\ v_closed v1 = true /\ v_closed v2 = true /\ v_map v1 = v_map v2.
Proof.
  assert ((world_steps start twins).1 = twins_answers) as Ha by (vm_compute; reflexivity).
  assert (distinct AccountState (fun x => x ∈ twins ≫= world_items)) as Hd by (apply distinct_list; vm_compute; reflexivity).
  destruct (world_spec no_store _ Hd twins start _ start_good ltac:(rewrite Ha; exact twins_legal) ltac:(cbn; lia) ltac:(apply Forall_singleton, map_Forall_empty) ltac:(now apply Forall_forall)) as (rs & w' & vs' & Hrun & Hviews & Hg). clear Hd.
  assert (rs = twins_answers) as -> by (rewrite <- Ha, Hrun; reflexivity). unfold born. rewrite Hrun. clear Hrun Ha. unfold twins, twins_answers in Hviews.
  do 6 (inversion Hviews as [|? ? ? ? ? ? ? Hstep Hrest]; subst; clear Hviews; inversion Hstep; subst; clear Hstep; rename Hrest into Hviews; cbn in *; simplify_eq).
  inversion Hviews; subst. eexists _, _, _. split; [exact Hg|]. auto.
Qed.

Lemma twins_there : w_ledgers born !! 1%nat = Some (twin 1) /\ w_ledgers born !! 2%nat = Some (twin 2).
Proof.
  assert (length (w_ledgers born) = 3%nat) as Hl by (vm_compute; reflexivity). unfold twin.
  destruct (lookup_lt_is_Some_2 (w_ledgers born) 1) as [x ->]; [lia|]. destruct (lookup_lt_is_Some_2 (w_ledgers born) 2) as [y ->]; [lia|]. auto.
Qed.

Definition header_okb (h : LedgerHeader) : bool :=
  bool_decide (0 <= header_seq h < 2 ^ 32) && bool_decide (0 <= drops h < 2 ^ 64) && bool_decide (0 <= parent_close_time h < 2 ^ 32) && bool_decide (0 <= close_time h < 2 ^ 32) &&
  forallb (fun k => bool_decide (length k = 32%nat) && forallb (fun b => bool_decide (0 <= b < 256)) k) [header_hash h; parent_hash h; tx_hash h; account_hash h] &&
  forallb (fun b => bool_decide (0 <= b < 256)) [close_time_resolution h; close_flags h].

Lemma header_okb_ok h : header_okb h = true -> header_ok h.
Proof.
  unfold header_okb. cbn [forallb]. rewrite !andb_true_iff, !bool_decide_eq_true. intros Hb. repeat match goal with H : _ /\ _ |- _ => destruct H end.
  assert (forall k, forallb (fun b => bool_decide (0 <= b < 256)) k = true -> bytes_ok k) as Hbytes by (intros k Hk; apply Forall_forall; intros b Hin; rewrite forallb_forall in Hk; apply list_elem_of_In in Hin; specialize (Hk b Hin); now apply bool_decide_eq_true in Hk).
  constructor; auto; split; auto.
Qed.

Lemma ledger_hash_binding_witness : (received (header (twin 1)) false = received (header (twin 2)) false /\ account_hash (header (twin 1)) <> uint256_zero) \/
  exists m t t', stands_for AccountState t m /\ stands_for AccountState t' m /\ broken ([header_text (header (twin 1)); header_text (header (twin 2))] ++ texts t ++ texts t').
Proof.
  destruct twins_good as (v0 & v1 & v2 & Hg & Hc1 & Hc2 & Hm). destruct twins_there as [H1 H2].
  destruct (ledger_hash_binding no_store born [v0; v1; v2] 1 2 (twin 1) (twin 2) v1 v2 toy_length Hg H1 H2 eq_refl eq_refl Hc1 Hc2) as [[Hr _]|(t & t' & Ht & Ht' & Hb)];
    [apply header_okb_ok; vm_compute; reflexivity|apply header_okb_ok; vm_compute; reflexivity|vm_compute; reflexivity| |right; exists (v_map v1), t, t'; rewrite <- Hm in Ht'; auto].
  left. split; [exact Hr|]. apply (bool_decide_unpack _). vm_compute. exact I.
Defined.

Lemma account_hash_canonical_witness : account_hash (header (twin 1)) = account_hash (header (twin 2)).
Proof.
  destruct twins_good as (v0 & v1 & v2 & Hg & Hc1 & Hc2 & Hm). destruct twins_there as [H1 H2].
  exact (account_hash_canonical no_store born [v0; v1; v2] 1 2 (twin 1) (twin 2) v1 v2 Hg H1 H2 eq_refl eq_refl Hc1 Hc2 Hm).
Defined.

Lemma header_roundtrip_witness : deserialize_ledger_header (serialize_ledger_header genesis true ++ [1; 2]) true = Ok (received genesis true).
Proof. exact (proj1 (header_roundtrip genesis true [1; 2] (header_okb_ok genesis eq_refl))). Defined.

End Example.
