(* ===== verification/BuildProps.v ===== *)
(** * BuildProps: transactions on a ledger

    Transactions run on an open view whose base is a ledger of the store of nodes, and what
    the view has gathered is written to that ledger: views, sandboxes, ledgers and their
    trees together. *)

From stdpp Require Import gmap sorting list strings.
From Stdlib Require Import ZArith Lia.
From S2P Require Import Prelude Views Sandbox ViewProps Serializer ShamapKey ShamapNode ShamapSlots ShamapTree ShamapHeap ShamapRepr ShamapWalk ShamapOrder ShamapMutate ShamapMap ShamapHash LedgerHeader LedgerState LedgerBatch LedgerWorld LedgerView ShamapProps LedgerProps.
Local Open Scope Z_scope.

Section Build.
Context `{Sha512} {Payload Tx Meta : Type} `{!EntryCodec Payload} (store : ghost) (known : SHAMapItem -> Prop) (kind : Z -> LedgerEntryType).
Abbreviation Sle := (STLedgerEntry Payload).
Abbreviation OV := (OpenView (Payload := Payload) (B := ledger_ref) (Tx := Tx) (Meta := Meta)).

#[local] Instance rule : EntryRule Payload := ledger_rule known.

Lemma burned_range flags (ops : list (tx_op (Payload := Payload))) : 0 <= fees_of ops -> 0 <= burned flags ops <= fees_of ops.
Proof. intros Hf. unfold burned. destruct (any_apply_flags _); lia. Qed.

(** C3: transactions on a ledger.  They run one after the other in sandboxes over an open
    view of the ledger, whose state is a tree of shared and possibly unloaded nodes; the
    view is then written to the ledger.  If their operations make sense on the entries of
    the ledger, nothing fails, and afterwards the ledger holds and shows exactly the
    entries that the operations done one by one on a map lead to, its tree is again the one
    of that map, its coins are fewer by the fees, and every other ledger of the store is as
    it was.  ([w0] and [w] are the store when the view is made and when it is written,
    between which nodes may have been loaded.) *)
Theorem transactions_change_one_ledger (flags : Z) (txs : list (list tx_op)) (w0 w : world) (vs : list view) (i : nat) (v : view) (L : Ledger) (m : gmap Z Sle) :
  distinct AccountState known -> good store w0 vs -> good store w vs -> vs !! i = Some v -> w_ledgers w !! i = Some L -> v_closed v = false ->
  encodes known (v_map v) m -> kinded kind m -> all_allowed kind (concat txs) m ->
  fees_of (concat txs) <= drops (header L) -> fees_of (concat txs) <= max_of I64 ->
  (forall ov : OV, run_transactions flags txs (new_view (mkRef w0 i)) = Ok ov -> w_next w + Z.of_nat (size (Raw.items (Views.items ov))) < 2 ^ 32 - 1) ->
  exists (ov : OV) w' v' L', run_transactions flags txs (new_view (mkRef w0 i)) = Ok ov /\ apply_state_only ov (mkRef w i) = Ok (mkRef w' i) /\
    good store w' (<[i := v']> vs) /\ v_closed v' = false /\ encodes known (v_map v') (spec_ops (concat txs) m) /\
    view_of (mkRef w' i) (spec_ops (concat txs) m) /\
    w_ledgers w' !! i = Some L' /\ drops (header L') = drops (header L) - burned flags (concat txs).
Proof.
  intros Hd Hg0 Hg Hv HL Hcl He Hk Ha Hfees Hmax Hroom. pose proof (ref_view_of store known w0 vs i v m Hg0 Hv He) as Hv0. pose proof (fees_nonneg _ _ _ Ha) as Hpos. pose proof (burned_range flags _ Hpos) as Hb.
  assert (holds_open (new_view (mkRef w0 i) : OV) m 0) as Hopen.
  { exists m. split; [exact Hv0|]. split; [apply raw_wf_new|]. split; [|reflexivity]. apply map_eq. intros k. rewrite lookup_overlay. cbn. now rewrite lookup_empty. }
  destruct (transactions_spec kind flags txs _ m 0 Hopen Hk Ha ltac:(lia) ltac:(lia)) as (ov & Hrun & m0 & Hv1 & Hwf & Ho & Hdr). specialize (Hroom ov Hrun).
  rewrite (transactions_base flags txs _ _ Hrun) in Hv1. assert (m0 = m) as -> by exact (view_of_unique _ _ _ Hv1 Hv0).
  assert (writes_ledger store known vs i (drops (header L)) (size (Raw.items (Views.items ov)) + 0) (mkRef w i) m 0) as Hw.
  { split; [reflexivity|]. exists v, L. cbn [ref_world]. rewrite list_insert_id by exact Hv. split; [exact Hg|]. split; [eapply lookup_lt_Some, Hv|]. repeat (split; [assumption|]). split; lia. }
  pose proof (ledger_laws store known Hd vs i (drops (header L))) as Hlaws.
  destruct (raw_apply_spec (writes_ledger store known vs i (drops (header L))) (drops (header L)) (Views.items ov) 0 (mkRef w i) m 0 Hw Hwf ltac:(lia)) as ([w' j] & Happly & Hi & v' & L' & Hg' & Hlt & HL' & Hcl' & He' & Hd' & _); [lia..|].
  cbn [ref_world ref_index] in *. subst j. rewrite Ho in He'. exists ov, w', v', L'. split; [exact Hrun|]. split; [exact Happly|]. split; [exact Hg'|]. split; [exact Hcl'|]. split; [exact He'|].
  split; [eapply ref_view_of; [exact Hg'|now apply list_lookup_insert_eq|exact He']|]. split; [exact HL'|]. lia.
Qed.

End Build.

(** ** Witness *)

Module Example.
Import ShamapProps.Example LedgerProps.Example.
#[local] Existing Instance toy.

(** Entries whose serialised form is the payload. *)
#[local] Instance plain_codec : EntryCodec (list Z) := {|
  get_serializer s := sle_payload s;
  try_from_serial_iter bytes k := Some (mkSle k AccountRoot bytes, [])
|}.

Definition account (k d : Z) : STLedgerEntry (list Z) := mkSle k AccountRoot (replicate 12 d).
Definition kind (_ : Z) : LedgerEntryType := AccountRoot.

Definition entries : list (STLedgerEntry (list Z)) := [account 1 1; account 5 1; account 7 1; account 1 2].
Definition used (it : SHAMapItem) : Prop := it ∈ item_of <$> entries.

Lemma used_distinct : distinct AccountState used.
Proof. apply distinct_list. vm_compute. reflexivity. Qed.

Lemma entry_storable s : s ∈ entries -> storable_entry used s.
Proof.
  intros Hs. assert (used (item_of s)) as Hu by now apply list_elem_of_fmap_2. unfold entries in Hs. rewrite !elem_of_cons in Hs.
  destruct Hs as [->|[->|[->|[->|Hs]]]]; [..|inversion Hs]; (split; [reflexivity|]); (split; [cbn [sle_key account]; lia|]); (split; [apply Nat.leb_le; reflexivity|]); (split; [apply Z.leb_le; reflexivity|]); (split; [reflexivity|exact Hu]).
Qed.

(** A new ledger with one entry. *)
Definition funded : world := match rw_insert (account 1 1) (mkRef start 0) with Ok r => ref_world r | _ => start end.
Definition holdings : gmap Z (STLedgerEntry (list Z)) := {[ 1 := account 1 1 ]}.

Definition txs : list (list (tx_op (Payload := list Z))) :=
  [[TxInsert (account 5 1); TxInsert (account 7 1); TxDestroy 10]; [TxUpdate (account 1 2); TxErase (account 7 1); TxDestroy 5]].

#[local] Existing Instance rule.

Lemma nothing_encoded : encodes used (∅ : state) ∅.
Proof. constructor; [intros k s Hs|intros k s Hs|intros b Hb [s Hs]]; discriminate. Qed.

Definition fresh_view : view := mkView ∅ false false true.

Lemma funded_ok : exists v L, good no_store funded [v] /\ w_ledgers funded !! 0%nat = Some L /\ v_closed v = false /\ encodes used (v_map v) holdings /\ drops (header L) = 100000000000 /\ w_next funded < 1000.
Proof.
  pose proof start_good as Hg. assert (exists L, w_ledgers start !! 0%nat = Some L /\ drops (header L) = 100000000000) as (L0 & HL0 & Hd0).
  { destruct Hg as [_ Hg]. destruct (Forall2_lookup_r _ _ _ 0%nat _ Hg eq_refl) as (L & HL & _). exists L. split; [exact HL|].
    assert (((fun L => drops (header L)) <$> w_ledgers start) !! 0%nat = Some 100000000000) as Hd by (vm_compute; reflexivity). rewrite list_lookup_fmap, HL in Hd. now injection Hd. }
  assert (writes_ledger no_store used [fresh_view] 0 100000000000 1 (mkRef start 0) ∅ 0) as Hw.
  { split; [reflexivity|]. exists fresh_view, L0. cbn [ref_world]. split; [exact Hg|]. split; [cbn; lia|]. split; [exact HL0|]. split; [reflexivity|]. split; [exact nothing_encoded|]. split; [lia|]. vm_compute. reflexivity. }
  destruct (raw_insert_law (RawViewLaws := ledger_laws no_store used used_distinct [fresh_view] 0 100000000000) 0 _ _ _ (account 1 1) Hw) as (r & Hrun & Hr); [apply entry_storable; left|reflexivity|].
  destruct Hr as (_ & v & L & Hg' & _ & HL & Hcl & He & Hd & _). unfold funded. rewrite Hrun. exists v, L. split; [exact Hg'|]. split; [exact HL|]. split; [exact Hcl|]. split; [exact He|]. split; [lia|].
  assert (bool_decide (w_next (match rw_insert (account 1 1) (mkRef start 0) with Ok r => ref_world r | _ => start end) < 1000) = true) as Hn by (vm_compute; reflexivity). apply bool_decide_eq_true in Hn. now rewrite Hrun in Hn.
Qed.

Abbreviation Accum := (OpenView (Payload := list Z) (B := ledger_ref) (Tx := unit) (Meta := unit)).

Lemma room_left (ov : Accum) : run_transactions NONE txs (new_view (mkRef funded 0)) = Ok ov -> w_next funded + Z.of_nat (size (Raw.items (Views.items ov))) < 2 ^ 32 - 1.
Proof.
  intros Hrun. assert (match run_transactions NONE txs (new_view (mkRef funded 0) : Accum) with
    | Ok ov => w_next funded + Z.of_nat (size (Raw.items (Views.items ov))) <? 2 ^ 32 - 1 | _ => false end = true) as Hb by (vm_compute; reflexivity).
  rewrite Hrun in Hb. now apply Z.ltb_lt.
Qed.

Lemma txs_allowed : all_allowed (EntryRule0 := rule used) kind (concat txs) holdings.
Proof.
  assert (forall s, s ∈ entries -> sle_type s = AccountRoot -> sle_ok (EntryRule0 := rule used) kind s) as Hok by (intros s Hs Ht; split; [now apply entry_storable|exact Ht]).
  repeat (split; [first [split; [apply Hok; [unfold entries; set_solver|reflexivity]|first [reflexivity|eexists; vm_compute; reflexivity]]|vm_compute; discriminate]|]). exact I.
Qed.

Lemma transactions_change_one_ledger_witness : exists (ov : Accum) w', run_transactions NONE txs (new_view (mkRef funded 0)) = Ok ov /\ apply_state_only ov (mkRef funded 0) = Ok (mkRef w' 0) /\
  rv_read (mkRef w' 0) (mkKeylet 5 AccountRoot) = Ok (Some (account 5 1)) /\ exists L, w_ledgers w' !! 0%nat = Some L /\ drops (header L) = 99999999985.
Proof.
  destruct funded_ok as (v & L & Hg & HL & Hcl & He & Hd & Hn).
  destruct (transactions_change_one_ledger (Tx := unit) (Meta := unit) no_store used kind NONE txs funded funded [v] 0 v L holdings used_distinct Hg Hg eq_refl HL Hcl He) as (ov & w' & v' & L' & Hrun & Happly & _ & _ & _ & Hview & HL' & Hd').
  - intros k s. unfold holdings. rewrite lookup_singleton_Some. now intros [_ <-].
  - exact txs_allowed.
  - rewrite Hd. vm_compute. discriminate.
  - vm_compute. discriminate.
  - exact room_left.
  - exists ov, w'. split; [exact Hrun|]. split; [exact Happly|]. split; [|exists L'; split; [exact HL'|rewrite Hd', Hd; reflexivity]].
    rewrite (vo_read _ _ Hview); [vm_compute; reflexivity|]. split; [split; vm_compute; [discriminate|reflexivity]|]. intros s Hs. vm_compute in Hs. injection Hs as <-. reflexivity.
Defined.

End Example.
