(* ===== verification/ReplayProps.v ===== *)
(** * ReplayProps: what proofs and deltas from peers establish

    The properties of proof paths (xrpl/shamap/src/traverse/proof_path.rs) and of the
    messages that carry them
    (xrpld/app/src/state/application_root/replay_callback_impl.rs). *)

From stdpp Require Import gmap list.
From Stdlib Require Import ZArith Lia.
From S2P Require Import Prelude Serializer ShamapKey ShamapNode ShamapSlots ShamapTree ShamapHeap ShamapRepr ShamapWalk ShamapMutate ShamapAdd ShamapMap ShamapHash ShamapBinding ShamapCodec ShamapWire ShamapProof ShamapProps LedgerHeader LedgerState LedgerBatch LedgerWorld LedgerProps Replay.
Local Open Scope Z_scope.

Section Props.
Context `{Sha512}.

(** ** Paths and maps *)

(** The item that a path shows is in the map, and under the key of the path if the map has
    that key at all. *)
Lemma path_shows_item {E : Type} (ty : SHAMapNodeType) (t : stree) (m : gmap Uint256 SHAMapItem) (key : Uint256) (path : list (list Z)) : (forall text, length (sha512 text) = 64%nat) -> ty <> TransactionNm -> stands_for ty t m -> is_key key -> Forall blob_ok path ->
  verify_proof_path (E := E) (merkle t) key path = Ok true ->
  (exists it, shows (rev path) ty it /\ m !! item_key it = Some it /\ forall y, m !! key = Some y -> it = y) \/ broken (texts t ++ (blob_text <$> path)).
Proof.
  intros Hlen Hty Hst Hkey Hall Hv. pose proof Hst as [Hr Hct].
  destruct (verify_path_sound Hlen key Hkey t path Hr ltac:(intros x Hx Hn; destruct Hty; now rewrite <- (stands_leaf ty t m x Hst Hx)) Hall Hv) as [(ty' & it & Hsh & He)|]; [left|auto].
  pose proof (ends_leaves _ _ _ _ _ He) as Hin. assert (ty' = ty) as -> by exact (stands_leaf ty t m (ty', it) Hst Hin). exists it. split; [exact Hsh|]. pose proof (stands_listing ty t m Hst) as [_ Hl]. split; [apply (Hl (ty, it)), Hin|].
  intros y Hy. assert (contents t !! key = Some (ty, y)) as Hc by (rewrite Hct, lookup_fmap, Hy; reflexivity). pose proof Hr as (kids & _ & Hs & _). apply (contents_lookup [] t key (ty, y) Hs) in Hc as [Hy' Hky].
  pose proof (ends_found key 0 t (Leaf ty it) He [] (ty, y) Hs eq_refl Hy' Hky) as Heq. now injection Heq.
Qed.

(** ** Proofs of the skip list *)

(** What the check establishes by itself. *)
Lemma skip_list_checked {E} response info item : (forall bytes, resp_header response = Some bytes -> bytes_ok bytes) -> checked_skip_list (E := E) response = Ok (Some (info, item)) ->
  exists h blob rest n ty, header_ok h /\ info = set_header_hash (resp_ledger_hash response) (received h false) /\ calculate_ledger_hash h = resp_ledger_hash response /\ resp_key response = skip_key /\ length (resp_key response) = 32%nat /\
    resp_path response = blob :: rest /\ verify_proof_path (E := E) (account_hash h) skip_key (resp_path response) = Ok true /\ make_from_wire blob = Ok (Some n) /\ body n = LeafBody ty item /\ item_key item = skip_key.
Proof.
  intros Hbytes Hc. unfold checked_skip_list in Hc. destruct (decide _) as [|Hpre]; [discriminate|]. unfold uint256_from_slice in Hc. destruct (decide (length (resp_key response) = 32%nat)) as [Hk|]; [|discriminate].
  destruct (decide (length (resp_ledger_hash response) = 32%nat)) as [Hh|]; [|discriminate]. destruct (resp_header response) as [bytes|] eqn:Hb; [|discriminate]. destruct (decide _) as [|Hskip]; [discriminate|]. apply dec_stable in Hskip.
  destruct (decide (length bytes < LEDGER_HEADER_WIRE_SIZE)%nat) as [Hshort|Hlong]; [unfold deserialize_ledger_header in Hc; rewrite (proj2 (Nat.ltb_lt _ _) Hshort) in Hc; discriminate|].
  destruct (header_of_bytes bytes (Hbytes bytes eq_refl) ltac:(lia)) as (h & tail & Hok & ->). rewrite header_roundtrip_raw in Hc by exact Hok. cbn [attempt bind] in Hc. destruct (decide _) as [|Hhash]; [discriminate|]. apply dec_stable in Hhash.
  destruct (verify_proof_path (account_hash (received h false)) (resp_key response) (resp_path response)) as [[]|x| | |] eqn:Hv; try discriminate. cbn [bind negb] in Hc. destruct (resp_path response) as [|blob rest] eqn:Hp; [discriminate|].
  destruct (make_from_wire blob) as [[n|]|x| | |] eqn:Hw; try discriminate. cbn [attempt bind] in Hc. unfold is_leaf, is_inner, peek_item in Hc. destruct (body n) as [|ty it] eqn:Hbd; [discriminate|]. cbn [negb] in Hc.
  destruct (decide _) as [|Hkey]; [discriminate|]. apply dec_stable in Hkey. injection Hc as <- <-. exists h, blob, rest, n, ty. rewrite <- Hskip. auto 12.
Qed.

(** C11: a skip list that is accepted with a proof for the hash of a closed ledger is the
    entry that the ledger has under the key of the skip list, and the header that comes
    with it is the header of the ledger; unless the hash function fails on the texts of
    the headers, of the nodes of the ledger and of the blobs.  Nothing is assumed of the
    peer: the bytes of the message are arbitrary. *)
Theorem accepted_skip_list_is_in_the_ledger {E : Type} (store : ghost) (w : world) (vs : list view) (i : nat) (L : Ledger) (v : view) (response : TmProofPathResponse) (info : LedgerHeader) (item : SHAMapItem) :
  (forall text, length (sha512 text) = 64%nat) -> good store w vs -> w_ledgers w !! i = Some L -> vs !! i = Some v -> v_closed v = true -> header_ok (header L) ->
  resp_ledger_hash response = header_hash (header L) -> bytes_ok (resp_key response) -> (forall bytes, resp_header response = Some bytes -> bytes_ok bytes) -> Forall blob_ok (resp_path response) ->
  checked_skip_list (E := E) response = Ok (Some (info, item)) ->
  (v_map v !! skip_key = Some item /\ received info true = received (header L) true) \/
  exists t, stands_for AccountState t (v_map v) /\ broken ([header_text (header L); header_text info] ++ texts t ++ (blob_text <$> resp_path response)).
Proof.
  intros Hlen [_ Hg] HL Hv Hcl Hok Hhash Hkb Hbytes Hall Hc. destruct (skip_list_checked response info item Hbytes Hc) as (h & blob & rest & n & ty & Hh & -> & Hcalc & Hkey & Hk32 & Hp & Hver & Hw & Hbd & Hit).
  destruct (Forall2_lookup_lr _ _ _ _ _ _ Hg HL Hv) as [(t & _ & Hst & Ht) _ _ _ _ Hi _ HhL _ _]. rewrite Hi in Ht, HhL. destruct (Ht Hcl) as [_ Ha]. specialize (HhL Hcl).
  assert (is_key skip_key) as Hkey' by (rewrite <- Hkey; split; assumption). rewrite <- Hcalc in Hhash. rewrite HhL in Hhash.
  destruct (header_binding h (header L) Hh Hok Hhash) as [Hr|Hb]; [|right; exists t; split; [exact Hst|]; eapply broken_mono; [|exact Hb]; intros x Hx; apply elem_of_app; left; set_solver].
  assert (account_hash h = merkle t) as Hacc by (rewrite <- Ha; unfold received in Hr; now injection Hr). rewrite Hacc in Hver.
  destruct (path_shows_item AccountState t (v_map v) skip_key _ Hlen ltac:(discriminate) Hst Hkey' Hall Hver) as [(it & (b' & n' & Hl & Hw' & Hb') & Hm & _)|Hb].
  - left. rewrite Hp in Hl. cbn [rev] in Hl. rewrite last_snoc in Hl. injection Hl as <-. assert (n' = n) as -> by congruence. assert (it = item) as -> by congruence. rewrite Hit in Hm. split; [exact Hm|].
    rewrite <- Hcalc, Hhash. unfold received in *. cbn. injection Hr. intros. congruence.
  - right. exists t. split; [exact Hst|]. eapply broken_mono; [|exact Hb]. apply list_subseteq_app_r, reflexivity.
Qed.

(** ** Serving a proof *)

Lemma no_store_fetch_none b : fetch_ok no_store b no_fetch.
Proof. intros e t [=]. Qed.

(** The answer to a request is accepted, for every ledger whose nodes are in memory and
    have been written. *)
Lemma found_path (root : loc) (h : heap) (b : bool) (t : stree) (m : gmap Uint256 SHAMapItem) (ty : SHAMapNodeType) (key : Uint256) (it : SHAMapItem) : (forall text, length (sha512 text) = 64%nat) -> frozen no_store 1 h root t -> stands_for ty t m -> (forall k x, m !! k = Some x -> codable ty x) -> is_key key -> m !! key = Some it ->
  broken (texts t) \/ exists blob path n h', get_proof_path_backed root key b no_fetch h = (Ok (Some (blob :: path)), h') /\ (forall E, verify_proof_path (E := E) (merkle t) key (blob :: path) = Ok true) /\
    make_from_wire blob = Ok (Some n) /\ body n = LeafBody ty it /\ item_key it = key.
Proof.
  intros Hlen Hf Hst Hco Hkey Hm. destruct (decide (broken (texts t))) as [|Hb]; [auto|right]. pose proof Hst as [Hr Hct]. pose proof (stands_listing ty t m Hst) as [_ Hl].
  destruct (proof_path_spec Hlen no_store b no_fetch (no_store_fetch_none b) t Hr) with (key := key) (root := root) (h := h) as (e & He & r & h' & Hrun & _ & Hcase); try assumption.
  { intros x Hx. apply Hl in Hx as [-> Hx]. exact (Hco _ _ Hx). }
  assert (contents t !! key = Some (ty, it)) as Hc by (rewrite Hct, lookup_fmap, Hm; reflexivity). pose proof Hr as (kids & _ & Hs & _). apply (contents_lookup [] t key (ty, it) Hs) in Hc as [Hin Hk].
  rewrite (ends_found key 0 t e He [] (ty, it) Hs eq_refl Hin Hk) in Hcase. cbn [fst snd] in Hcase. rewrite decide_True in Hcase by exact Hk. destruct Hcase as (blob & path & n & -> & Hv & Hw & Hbd). exists blob, path, n, h'. auto.
Qed.

(** C20: what a node answers to a request for the skip list of a ledger it has in memory,
    closed and written, the peer accepts: it gets the header of the ledger and the entry
    that the ledger has under the key of the skip list; unless the hash function fails on
    the texts of the tree's nodes (two have one digest, or one has the digest zero). *)
Theorem served_skip_list_is_accepted (self : ApplicationRoot) (h : heap) (L : Ledger) (t : stree) (m : gmap Uint256 SHAMapItem) (it : SHAMapItem) :
  (forall text, length (sha512 text) = 64%nat /\ bytes_ok (sha512 text)) -> ledger_for self (header_hash (header L)) = Some L -> header_ok (header L) -> header_hash (header L) = calculate_ledger_hash (header L) ->
  account_hash (header L) = merkle t -> frozen no_store 1 h (sync_root (state_map L)) t -> stands_for AccountState t m -> (forall k x, m !! k = Some x -> codable AccountState x) -> m !! skip_key = Some it ->
  (exists response h', proof_path_response_for (E := unit) self (mkRequest skip_key (header_hash (header L)) LM_ACCOUNT_STATE) h = (Ok response, h') /\
     checked_skip_list (E := unit) response = Ok (Some (received (header L) true, it))) \/ broken (texts t).
Proof.
  intros Hsha Hfor Hok Hhash Hacc Hf Hst Hco Hm. assert (forall text, length (sha512 text) = 64%nat) as Hlen by apply Hsha.
  assert (is_key skip_key) as Hkey by (split; [now apply half_length|]; apply Forall_take, Hsha). destruct (ok_hash _ Hok) as [Hh32 _].
  destruct (found_path _ h (backed (state_map L)) t m AccountState skip_key it Hlen Hf Hst Hco Hkey Hm) as [|(blob & path & n & h' & Hrun & Hver & Hw & Hbd & Hk)]; [auto|left].
  eexists _, h'. split.
  - unfold proof_path_response_for, uint256_from_slice. cbn [req_key req_ledger_hash req_type]. rewrite !decide_True by (exact Hh32 || apply Hkey). rewrite decide_False by (unfold LM_ACCOUNT_STATE; lia). rewrite Hfor, decide_True by reflexivity.
    rewrite Hrun. reflexivity.
  - unfold checked_skip_list, uint256_from_slice. cbn [resp_error resp_type resp_path resp_key resp_ledger_hash resp_header]. rewrite decide_False by (unfold LM_ACCOUNT_STATE; intros [|[|]]; congruence).
    rewrite !decide_True by (exact Hh32 || apply Hkey). rewrite decide_False by auto. rewrite <- (app_nil_r (serialize_ledger_header _ _)), header_roundtrip_raw by exact Hok. cbn [attempt bind].
    rewrite decide_False by (intros Hne; apply Hne; symmetry; exact Hhash). cbn [account_hash received]. rewrite Hacc, Hver. cbn [bind negb]. rewrite Hw. cbn [attempt bind]. unfold is_leaf, is_inner, peek_item. rewrite Hbd. cbn [negb].
    rewrite decide_False by auto. reflexivity.
Qed.

(** ** Long paths *)

(** C21: the check of a path of at most 64 blobs always answers; but there is a message,
    with a proof of 65 inner nodes of 34 bytes each, that makes the handler panic: below
    the last of them [select_branch] reads a byte after the end of the key.  Such a
    message can be made for every hash function, and needs no request. *)
Theorem proof_of_65_inner_nodes_panics : (forall text, length (sha512 text) = 64%nat /\ bytes_ok (sha512 text)) ->
  (forall root key path, is_key key -> Forall blob_ok path -> (length path <= 64)%nat -> exists r, verify_proof_path (E := unit) root key path = Ok r) /\
  exists response, length (resp_path response) = 65%nat /\ Forall (fun blob => length blob = 34%nat) (resp_path response) /\ checked_skip_list (E := unit) response = Panic.
Proof.
  intros Hsha. assert (forall text, length (sha512 text) = 64%nat) as Hlen by apply Hsha. split.
  - intros root key path Hkey Hall Hl. unfold verify_proof_path. destruct (decide _); [eauto|]. apply (verify_loop_total Hlen key Hkey); [now apply Forall_rev|]. rewrite length_rev. exact Hl.
  - assert (is_key skip_key) as Hkey by (split; [now apply half_length|]; apply Forall_take, Hsha).
    destruct (inner_chain Hlen skip_key Hkey (E := unit) 64 ltac:(lia)) as (e & blobs & Hl & He & Hall & Hpanic).
    set (h := mkHeader 0 0 uint256_zero uint256_zero uint256_zero e 0 0 false false 0 0).
    exists (mkResponse skip_key (calculate_ledger_hash h) LM_ACCOUNT_STATE (Some (serialize_ledger_header h false)) (rev blobs) None). cbn [resp_path]. rewrite length_rev. split; [exact Hl|]. split; [now apply Forall_rev|].
    unfold checked_skip_list, uint256_from_slice. cbn [resp_error resp_type resp_path resp_key resp_ledger_hash resp_header]. rewrite decide_False.
    2: { unfold LM_ACCOUNT_STATE. intros [|[|Hnil]]; try congruence. apply (f_equal length) in Hnil. rewrite length_rev, Hl in Hnil. discriminate. }
    rewrite (decide_True (P := length skip_key = 32%nat)) by apply Hkey. rewrite decide_True by now apply half_length. rewrite decide_False by auto.
    assert (forall x, is_digest x -> is_key x) as Hdig by (intros x Hx; split; [now apply (digest_length Hlen)|]; destruct Hx as [->|[text ->]]; [repeat constructor; lia|apply Forall_take, Hsha]).
    assert (header_ok h) as Hok by (constructor; try apply Hdig; try (now left); try exact He; cbn; unfold is_byte; lia). rewrite <- (app_nil_r (serialize_ledger_header _ _)), header_roundtrip_raw by exact Hok. cbn [attempt bind].
    rewrite decide_False by (intros Hne; now apply Hne). unfold verify_proof_path. rewrite decide_False.
    2: { rewrite length_rev. intros [Hnil|]; [|lia]. apply (f_equal length) in Hnil. rewrite length_rev, Hl in Hnil. discriminate. }
    rewrite rev_involutive. cbn [account_hash received h]. now rewrite Hpanic.
Qed.

(** ** Deltas *)

Section Delta.
Context `{TxCodec Tx}.

(** A payload and what it holds: a transaction, its index and its metadata. *)
Record genuine (seq : Z) (payload : Blob) (d : Tx * Z * Blob) : Prop := {
  ge_decoded : decode_payload seq payload = Some d;
  ge_id : is_key (get_transaction_id d.1.1);
  ge_min : (MIN_SHAMAP_ITEM_BYTES <= length payload)%nat;
  ge_max : Z.of_nat (length payload) <= 16 * 1024 * 1024
}.

Definition id_of_tx (d : Tx * Z * Blob) : Uint256 := get_transaction_id d.1.1.
Definition index_of_tx (d : Tx * Z * Blob) : Z := d.1.2.

(** The map of the transactions of a ledger. *)
Definition tx_items (payloads : list Blob) (ds : list (Tx * Z * Blob)) : gmap Uint256 SHAMapItem :=
  list_to_map (zip_with (fun payload d => (id_of_tx d, mkItem (id_of_tx d) payload)) payloads ds).

Lemma delta_loop_ok seq c (Hc : 1 <= c) payloads ds : Forall2 (genuine seq) payloads ds -> forall tree h t (m : gmap Uint256 SHAMapItem) txs, NoDup (id_of_tx <$> ds) -> NoDup (index_of_tx <$> ds) ->
  tree_ok no_store c h tree t -> stands_for TransactionMd t m -> (forall d, d ∈ ds -> m !! id_of_tx d = None /\ txs !! index_of_tx d = None) -> exists r h', delta_loop seq payloads tree txs h = (Ok r, h').
Proof.
  induction 1 as [|payload d payloads ds [Hdec Hid Hmin Hmax] _ IH]; intros tree h t m txs Hids Hidx Hto Hst Hnew; [eexists _, _; reflexivity|].
  rewrite fmap_cons in Hids. rewrite fmap_cons in Hidx. apply NoDup_cons in Hids as [Hni Hids]. apply NoDup_cons in Hidx as [Hnx Hidx]. destruct (Hnew d ltac:(left)) as [Hm Htx]. pose proof Hst as [Hr Hct].
  set (it := mkItem (id_of_tx d) payload). assert (good_item it) as Hit by (split; assumption).
  assert (contents t !! item_key it = None) as Hnone by (rewrite Hct, lookup_fmap; cbn [item_key it]; now rewrite Hm).
  destruct (add_item_spec no_store c Hc false no_fetch no_store_fetch tree h t TransactionMd it Hto Hr ltac:(discriminate) Hit) as (h' & r & Hrun & _ & [(y & Hy & _)|[(_ & self' & t' & -> & Hto' & Hr' & Hct')|(_ & y & Hy & Hne & _)]]);
    [congruence| |destruct Hne; eapply stands_leaf; eauto].
  cbn [delta_loop]. rewrite Hdec. run (lift_ok (E := ReplayError) (Ok d) d h eq_refl). destruct d as [[tx index] metadata]. cbn [fst snd] in *. run (lift_ok (E := ReplayError) _ _ h (item_new_short (get_transaction_id tx) payload Hmax)).
  change (mkItem (get_transaction_id tx) payload) with it. run (run_lower (fun _ : MutationError => InvalidItem) _ _ _ _ Hrun). cbn [fst snd negb]. change (txs !! index) with (txs !! index_of_tx (tx, index, metadata)). rewrite Htx.
  apply (IH self' h' t' (<[id_of_tx (tx, index, metadata) := it]> m)); [exact Hids|exact Hidx|exact Hto'|split; [exact Hr'|rewrite Hct', Hct, fmap_insert; reflexivity]|].
  intros e He. destruct (Hnew e ltac:(now right)) as [He1 He2]. split.
  - rewrite lookup_insert_ne; [exact He1|]. intros Heq. apply Hni. rewrite Heq. now apply list_elem_of_fmap_2.
  - rewrite lookup_insert_ne; [exact He2|]. intros Heq. apply Hnx. unfold index_of_tx at 1. cbn [fst snd]. rewrite Heq. now apply list_elem_of_fmap_2.
Qed.

(** Well formed payloads are accepted if and only if the header has no transactions. *)
Lemma delta_outcome (hd : LedgerHeader) (payloads : list Blob) (ds : list (Tx * Z * Blob)) (h : heap) :
  (forall text, length (sha512 text) = 64%nat) -> header_ok hd -> Forall2 (genuine (header_seq hd)) payloads ds -> NoDup (id_of_tx <$> ds) -> NoDup (index_of_tx <$> ds) ->
  exists txs h', decode_replay_delta_response (mkDelta (calculate_ledger_hash hd) (Some (serialize_ledger_header hd false)) payloads None) h =
    (if decide (tx_hash hd = uint256_zero) then Ok (set_header_hash (calculate_ledger_hash hd) (received hd false), txs) else Err RootMismatch, h').
Proof.
  intros Hlen Hok Hg Hids Hidx. unfold decode_replay_delta_response. cbn [delta_error delta_hash delta_header delta_transaction]. rewrite decide_False by auto. unfold uint256_from_slice. rewrite decide_True by now apply half_length.
  run (lift_ok (E := ReplayError) (Ok (calculate_ledger_hash hd)) _ h eq_refl). run (lift_ok (E := ReplayError) (Ok (serialize_ledger_header hd false)) _ h eq_refl).
  rewrite <- (app_nil_r (serialize_ledger_header _ _)), header_roundtrip_raw by exact Hok. run (lift_ok (E := ReplayError) (Ok (received hd false)) _ h eq_refl). rewrite decide_False by (intros Hx; now apply Hx). cbn [header_seq set_header_hash received].
  destruct (new_tree_ok (E := ReplayError) no_store (Z.max (header_seq hd) 1) h ltac:(lia)) as (tree & n & Hnew & Hto). run Hnew.
  destruct (delta_loop_ok (header_seq hd) (Z.max (header_seq hd) 1) ltac:(lia) payloads ds Hg tree _ _ ∅ ∅ Hids Hidx Hto (empty_stands TransactionMd)) as (r & h' & Hrun); [intros d _; split; apply lookup_empty|].
  run Hrun. destruct (delta_dirty _ _ _ _ _ _ _ (mutable_new_dirty _ _ _ _ Hnew) Hrun) as (n' & Hn' & Hzero). run (read_ok (E := ReplayError) _ _ _ Hn'). exists r.2, h'. cbn [tx_hash]. rewrite Hzero.
  destruct (decide (tx_hash hd = uint256_zero)) as [Hz|Hz]; [rewrite decide_False by (intros Hx; now apply Hx)|rewrite decide_True by auto]; reflexivity.
Qed.

Lemma tx_items_hash payloads ds t : payloads <> [] -> Forall2 (fun _ _ => True) payloads ds -> stands_for TransactionMd t (tx_items payloads ds) -> merkle t = uint256_zero -> broken (texts t).
Proof.
  intros Hne Hg Hst Hz. pose proof (stands_listing _ _ _ Hst) as [_ Hl]. pose proof Hst as [(kids & -> & _ & _) _]. apply (zero_broken _ (Node kids) (own_text _)); [|exact Hz]. intros Hall.
  destruct Hg as [|payload d payloads ds _ _]; [contradiction|]. assert ((TransactionMd, mkItem (id_of_tx d) payload) ∈ leaves (Node kids)) as Hin by (apply Hl; split; [reflexivity|]; unfold tx_items; cbn; apply lookup_insert_eq).
  apply leaves_node_elem in Hin as (b & u & Hu & Hin). rewrite (Forall_lookup_1 _ _ _ _ Hall Hu) in Hin. inversion Hin.
Qed.

(** C22: the delta of a ledger with transactions is refused when it is genuine: its header
    is the header of the ledger, its payloads are the transactions of the ledger, and the
    answer is that the root does not match.  The root that is compared is that of a tree
    that has been filled and never hashed, which is zero; so that, the other way round,
    any well formed transactions are accepted with a header that has none. *)
Theorem genuine_delta_is_refused (hd : LedgerHeader) (payloads : list Blob) (ds : list (Tx * Z * Blob)) (h : heap) :
  (forall text, length (sha512 text) = 64%nat) -> header_ok hd -> Forall2 (genuine (header_seq hd)) payloads ds -> payloads <> [] -> NoDup (id_of_tx <$> ds) -> NoDup (index_of_tx <$> ds) ->
  let answer := decode_replay_delta_response (mkDelta (calculate_ledger_hash hd) (Some (serialize_ledger_header hd false)) payloads None) h in
  (forall t, stands_for TransactionMd t (tx_items payloads ds) -> tx_hash hd = merkle t -> answer.1 = Err RootMismatch \/ broken (texts t)) /\
  (tx_hash hd = uint256_zero -> exists txs, answer.1 = Ok (set_header_hash (calculate_ledger_hash hd) (received hd false), txs)).
Proof.
  intros Hlen Hok Hg Hne Hids Hidx answer. destruct (delta_outcome hd payloads ds h Hlen Hok Hg Hids Hidx) as (txs & h' & Ha). unfold answer. rewrite Ha. cbn [fst]. split.
  - intros t Hst Htx. destruct (decide (tx_hash hd = uint256_zero)) as [Hz|]; [right|auto]. eapply (tx_items_hash payloads ds); [exact Hne| |exact Hst|congruence]. eapply Forall2_impl; [exact Hg|]. auto.
  - intros Hz. rewrite decide_True by exact Hz. eauto.
Qed.

End Delta.

End Props.

(** ** Witnesses *)

Module Example.
Import ShamapProps.Example LedgerProps.Example.

#[local] Existing Instance toy.

Lemma toy_bytes text : length (sha512 text) = 64%nat /\ bytes_ok (sha512 text).
Proof.
  split; [apply toy_length|]. unfold sha512, toy. generalize (toy_sum text). generalize 64%nat. induction n as [|n IH]; intros z; [constructor|]. cbn [low_bytes]. constructor; [|apply IH].
  unfold is_byte. change 255 with (Z.ones 8). rewrite Z.land_ones by lia. apply Z.mod_pos_bound. lia.
Qed.

Lemma skip_key_good : is_key skip_key.
Proof. split; [apply (half_length toy_length)|]. apply Forall_take, toy_bytes. Qed.

(** A ledger with a skip list, closed. *)
Definition publish_steps : list world_op := [WBatch 0 [(Insert, skip_key, payload 1); (Insert, key 2, payload 2)]; WClose 0].

Definition published : world := (world_steps start publish_steps).2.
Definition public : Ledger := default (mkLedger genesis (mkSync 0 StateMap false 0 Modifying false) (mkSync 0 StateMap false 0 Modifying false) false None None) (w_ledgers published !! 0%nat).

Lemma publish_answers : (world_steps start publish_steps).1 = [RBatch (Ok tt); RDone (Ok tt)].
Proof. vm_compute. reflexivity. Qed.

Lemma publish_legal : legal_steps [mkView ∅ false false true] publish_steps [RBatch (Ok tt); RDone (Ok tt)].
Proof.
  assert (forall k d, is_key k -> batch_op_ok (Insert, k, payload d)) as Hok by (intros k d Hk; split; [exact Hk|right; split; [apply Nat.leb_le; reflexivity|cbn; lia]]).
  pose proof (Hok skip_key 1 skip_key_good) as H1. pose proof (Hok (key 2) 2 (key_good 2 ltac:(lia))) as H2. unfold publish_steps. generalize dependent skip_key. intros k H1.
  legal_step. { split; [reflexivity|]. auto. } legal_step. { exact I. } constructor.
Qed.

Definition published_map : gmap Uint256 SHAMapItem := <[key 2 := mkItem (key 2) (payload 2)]> (<[skip_key := mkItem skip_key (payload 1)]> ∅).

#[local] Arguments batch_steps : simpl never.

Lemma publish_views k vs' : view_steps [mkView ∅ false false true] [WBatch 0 [(Insert, k, payload 1); (Insert, key 2, payload 2)]; WClose 0] [RBatch (Ok tt); RDone (Ok tt)] vs' ->
  exists v, vs' = [v] /\ v_closed v = true /\ batch_steps ∅ [(Insert, k, payload 1); (Insert, key 2, payload 2)] = inr (v_map v).
Proof.
  intros Hviews. do 2 (inversion Hviews as [|? ? ? ? ? ? ? Hstep Hrest]; subst; clear Hviews; inversion Hstep; subst; clear Hstep; rename Hrest into Hviews; cbn in *; simplify_eq).
  inversion Hviews; subst. eexists _. split; [reflexivity|]. auto.
Qed.

Lemma published_good : exists v, good no_store published [v] /\ v_closed v = true /\ v_map v = published_map.
Proof.
  assert (distinct AccountState (fun x => x ∈ publish_steps ≫= world_items)) as Hd by (apply distinct_list; vm_compute; reflexivity).
  destruct (world_spec no_store _ Hd publish_steps start _ start_good ltac:(rewrite publish_answers; exact publish_legal) ltac:(cbn; lia) ltac:(apply Forall_singleton, map_Forall_empty) ltac:(now apply Forall_forall)) as (rs & w' & vs' & Hrun & Hviews & Hg). clear Hd.
  assert (rs = [RBatch (Ok tt); RDone (Ok tt)]) as -> by (rewrite <- publish_answers, Hrun; reflexivity). unfold published. rewrite Hrun. destruct (publish_views skip_key vs' Hviews) as (v & -> & Hc & Hb). exists v. split; [exact Hg|]. split; [exact Hc|].
  assert (batch_steps ∅ [(Insert, skip_key, payload 1); (Insert, key 2, payload 2)] = inr published_map) as Hm by (vm_compute; reflexivity). rewrite Hm in Hb. now injection Hb.
Qed.

Definition server : ApplicationRoot := mkRoot (fun _ => None) (Some public) None.
Definition answered : outcome unit TmProofPathResponse := (proof_path_response_for server (mkRequest skip_key (header_hash (header public)) LM_ACCOUNT_STATE) (w_heap published)).1.
Definition served : TmProofPathResponse := match answered with Ok r => r | _ => mkResponse [] [] 0 None [] None end.

Lemma served_ok : checked_skip_list (E := unit) served = Ok (Some (received (header public) true, mkItem skip_key (payload 1))).
Proof. vm_compute. reflexivity. Qed.

Lemma forallb_bytes (bytes : list Z) : forallb (fun b => bool_decide (0 <= b < 256)) bytes = true -> bytes_ok bytes.
Proof. intros Hb. apply Forall_forall. intros b Hin. rewrite forallb_forall in Hb. apply list_elem_of_In in Hin. specialize (Hb b Hin). now apply bool_decide_eq_true in Hb. Qed.

Lemma public_there : w_ledgers published !! 0%nat = Some public.
Proof.
  assert (length (w_ledgers published) = 1%nat) as Hl by (vm_compute; reflexivity). unfold public. destruct (lookup_lt_is_Some_2 (w_ledgers published) 0) as [x ->]; [lia|]. reflexivity.
Qed.

Lemma served_hash : resp_ledger_hash served = header_hash (header public).
Proof. vm_compute. reflexivity. Qed.

Lemma served_key : bytes_ok (resp_key served).
Proof. apply forallb_bytes. vm_compute. reflexivity. Qed.

Lemma served_header : forall bytes, resp_header served = Some bytes -> bytes_ok bytes.
Proof.
  assert (match resp_header served with Some bytes => forallb (fun b => bool_decide (0 <= b < 256)) bytes | None => true end = true) as Hb by (vm_compute; reflexivity).
  intros bytes Hx. rewrite Hx in Hb. now apply forallb_bytes.
Qed.

Lemma served_path : Forall blob_ok (resp_path served).
Proof.
  assert (forallb (fun b => (length b <=? 1000)%nat) (resp_path served) = true) as Hb by (vm_compute; reflexivity).
  apply Forall_forall. intros b Hin. rewrite forallb_forall in Hb. apply list_elem_of_In in Hin. specialize (Hb b Hin). apply Nat.leb_le in Hb. unfold blob_ok. lia.
Qed.

Lemma public_header : header_ok (header public).
Proof. apply header_okb_ok. vm_compute. reflexivity. Qed.

Lemma accepted_skip_list_is_in_the_ledger_witness : exists v, v_map v = published_map /\ (v_map v !! skip_key = Some (mkItem skip_key (payload 1)) \/
  exists t, stands_for AccountState t (v_map v) /\ broken ([header_text (header public); header_text (received (header public) true)] ++ texts t ++ (blob_text <$> resp_path served))).
Proof.
  destruct published_good as (v & Hg & Hc & Hm). exists v. split; [exact Hm|].
  destruct (accepted_skip_list_is_in_the_ledger (E := unit) no_store published [v] 0 public v served _ _ toy_length Hg public_there eq_refl Hc public_header served_hash served_key served_header served_path served_ok) as [[Hk _]|Hb]; [left; exact Hk|right; exact Hb].
Defined.

(** The nodes of the ledger, written. *)
Lemma unshared_frozen c h (ls : list loc) l t : frozen no_store c h l t ->
  (forall x n, x ∈ ls -> h !! x = Some n -> hash n <> uint256_zero /\ forall y, Some y ∈ children_of n -> y ∈ ls) -> l ∈ ls -> frozen no_store 1 (unshare <$> h) l t.
Proof.
  intros Hf Hls. induction Hf as [l n ty it Hl Hcn Hb Hh Hsh|l n i kids Hl Hcn Hb Hi Hh Hs Hk IH Hsh]; intros Hin; destruct (Hls l n Hin Hl) as [Hnz Hch].
  - eapply frozen_leaf; [rewrite list_lookup_fmap, Hl; reflexivity|cbn; lia|exact Hb|exact Hh|exact (fun _ => I)].
  - eapply frozen_node; [rewrite list_lookup_fmap, Hl; reflexivity|cbn; lia|exact Hb|exact Hi| |exact Hs| |exact (fun _ => I)].
    + destruct Hh as [Hh|[Hz _]]; [left; exact Hh|contradiction].
    + intros b e l' u Hsl Hu. eapply IH; [exact Hsl|exact Hu|]. apply Hch. unfold children_of. rewrite Hb. apply list_elem_of_fmap. exists (Some (e, Some l')). split; [reflexivity|]. eapply list_elem_of_lookup_2, Hsl.
Qed.

Definition written : heap := unshare <$> w_heap published.

Fixpoint reach (fuel : nat) (h : heap) (l : loc) : list loc :=
  match fuel with
  | O => []
  | S fuel => l :: match h !! l with Some n => children_of n ≫= (fun c => match c with Some x => reach fuel h x | None => [] end) | None => [] end
  end.

Definition own_nodes : list loc := reach 5 (w_heap published) (sync_root (state_map public)).

Lemma own_nodes_closed x n : x ∈ own_nodes -> w_heap published !! x = Some n -> hash n <> uint256_zero /\ forall y, Some y ∈ children_of n -> y ∈ own_nodes.
Proof.
  assert (forallb (fun x => match w_heap published !! x with
    | Some n => bool_decide (hash n <> uint256_zero) && forallb (fun c => match c with Some y => bool_decide (y ∈ own_nodes) | None => true end) (children_of n) | None => true end) own_nodes = true) as Hb by (vm_compute; reflexivity).
  intros Hx Hn. rewrite forallb_forall in Hb. apply list_elem_of_In, Hb in Hx. rewrite Hn in Hx. apply andb_true_iff in Hx as [H1 H2]. apply bool_decide_eq_true in H1. split; [exact H1|].
  intros y Hy. rewrite forallb_forall in H2. apply list_elem_of_In, H2 in Hy. now apply bool_decide_eq_true in Hy.
Qed.

Lemma published_codable k x : published_map !! k = Some x -> codable AccountState x.
Proof.
  assert (forall k d, is_key k -> k <> uint256_zero -> codable AccountState (mkItem k (payload d))) as Hco.
  { intros k' d Hk Hz. constructor; [discriminate|split; [exact Hk|apply Nat.leb_le; reflexivity]|cbn; lia|discriminate|intros _; exact Hz]. }
  assert (skip_key <> uint256_zero) as Hz by (apply (bool_decide_unpack _); vm_compute; exact I). unfold published_map. intros Hx.
  apply lookup_insert_Some in Hx as [[_ <-]|[_ Hx]]; [apply Hco; [apply key_good; lia|discriminate]|]. apply lookup_insert_Some in Hx as [[_ <-]|[_ Hx]]; [apply Hco; [apply skip_key_good|exact Hz]|discriminate].
Qed.

Lemma published_skip : published_map !! skip_key = Some (mkItem skip_key (payload 1)).
Proof. vm_compute. reflexivity. Qed.

Lemma server_has : ledger_for server (header_hash (header public)) = Some public.
Proof. unfold ledger_for. cbn [resolve_ledger_by_hash closed_ledger server with_hash]. now rewrite decide_True. Qed.

Lemma written_root : sync_root (state_map public) ∈ own_nodes.
Proof. left. Qed.

Lemma served_skip_list_is_accepted_witness : exists t, (exists response h', proof_path_response_for (E := unit) server (mkRequest skip_key (header_hash (header public)) LM_ACCOUNT_STATE) written = (Ok response, h') /\
  checked_skip_list (E := unit) response = Ok (Some (received (header public) true, mkItem skip_key (payload 1)))) \/ broken (texts t).
Proof.
  destruct published_good as (v & [_ Hg] & Hc & Hm). destruct (Forall2_lookup_lr _ _ _ _ _ _ Hg public_there (eq_refl : [v] !! 0%nat = Some v)) as [(t & Hf & Hst & Ht) _ Hroot _ _ Hi _ Hh _ _].
  rewrite Hi in Ht, Hh. rewrite Hm in Hst. exists t.
  apply (served_skip_list_is_accepted server written public t published_map (mkItem skip_key (payload 1)) toy_bytes server_has public_header (Hh Hc) (proj2 (Ht Hc))); [|exact Hst|exact published_codable|exact published_skip].
  rewrite Hroot in Hf. exact (unshared_frozen _ _ own_nodes _ t Hf own_nodes_closed written_root).
Defined.

Lemma proof_of_65_inner_nodes_panics_witness : exists response, length (resp_path response) = 65%nat /\ checked_skip_list (E := unit) response = Panic.
Proof. destruct (proof_of_65_inner_nodes_panics toy_bytes) as [_ (response & Hl & _ & Hp)]. exists response. auto. Defined.

(** Transactions as their bytes, with metadata that start with the index. *)
#[local] Instance plain_tx : TxCodec Blob := {
  tx_from_serial_iter bytes := match bytes with [] => None | _ => Some bytes end;
  get_transaction_id tx := sha512_half tx;
  get_meta_index _ _ bytes := head bytes
}.

Definition tx_payload (n : Z) : Blob :=
  match ('(_, data) <- add_vl (E := unit) (replicate 8 (n + 1)) [];; add_vl [n; 0; 0; 0; 0; 0] data) with Ok r => r.2 | _ => [] end.

Definition sent : list Blob := [tx_payload 0; tx_payload 1].
Definition contents_sent : list (Blob * Z * Blob) := [(replicate 8 1, 0, [0; 0; 0; 0; 0; 0]); (replicate 8 2, 1, [1; 0; 0; 0; 0; 0])].

Lemma sent_genuine seq : Forall2 (genuine seq) sent contents_sent.
Proof.
  assert (forall tx : Blob, is_key (get_transaction_id tx)) as Hid by (intros tx; split; [apply (half_length toy_length)|apply Forall_take, toy_bytes]).
  do 2 (apply Forall2_cons; split; [constructor; [vm_compute; reflexivity|apply Hid|apply Nat.leb_le; vm_compute; reflexivity|vm_compute; discriminate]|]). constructor.
Qed.

Definition with_tx_hash (e : SHAMapHash) : LedgerHeader := mkHeader 1 100000000000 uint256_zero uint256_zero e uint256_zero 0 700000000 false false 30 0.

Lemma with_tx_hash_ok e : is_key e -> header_ok (with_tx_hash e).
Proof. intros He. assert (is_key uint256_zero) as Hz by (split; [reflexivity|repeat constructor; lia]). constructor; try exact Hz; try exact He; cbn; unfold is_byte; lia. Qed.

Lemma merkle_key t : is_key (merkle t).
Proof.
  split; [apply (merkle_length toy_length)|]. assert (bytes_ok uint256_zero) as Hz by (repeat constructor; lia). assert (forall text, bytes_ok (sha512_half text)) as Hd by (intros text; apply Forall_take, toy_bytes).
  destruct t as [|ty it|kids]; cbn [merkle]; [exact Hz|destruct ty; first [exact Hz|apply Hd]|]. destruct (decide _); [exact Hz|apply Hd].
Qed.

Lemma sent_distinct : NoDup (id_of_tx <$> contents_sent) /\ NoDup (index_of_tx <$> contents_sent).
Proof. split; apply (bool_decide_unpack _); vm_compute; exact I. Qed.

Lemma sent_items : Forall good_item (zip_with (fun payload d => mkItem (id_of_tx d) payload) sent contents_sent).
Proof.
  assert (forall tx : Blob, is_key (get_transaction_id tx)) as Hid by (intros tx; split; [apply (half_length toy_length)|apply Forall_take, toy_bytes]).
  repeat (apply Forall_cons; split; [split; [apply Hid|apply Nat.leb_le; vm_compute; reflexivity]|]). constructor.
Qed.

Lemma genuine_delta_is_refused_witness : exists t, tx_items sent contents_sent !! sha512_half (replicate 8 1) = Some (mkItem (sha512_half (replicate 8 1)) (tx_payload 0)) /\
  let hd := with_tx_hash (merkle t) in let answer := decode_replay_delta_response (mkDelta (calculate_ledger_hash hd) (Some (serialize_ledger_header hd false)) sent None) [] in answer.1 = Err RootMismatch \/ broken (texts t).
Proof.
  destruct sent_distinct as [Hids Hidx].
  destruct (added_tree TransactionMd (zip_with (fun payload d => mkItem (id_of_tx d) payload) sent contents_sent) ltac:(discriminate)) as (h & self & t & _ & Hst).
  - exact sent_items.
  - exact Hids.
  - exists t. split; [vm_compute; reflexivity|]. cbv zeta.
    apply (proj1 (genuine_delta_is_refused (with_tx_hash (merkle t)) sent contents_sent [] toy_length (with_tx_hash_ok _ (merkle_key t)) (sent_genuine 1) ltac:(discriminate) Hids Hidx) t Hst eq_refl).
Defined.

End Example.
