(* ===== verification/CompareProps.v ===== *)
(** * CompareProps: comparing two SHAMaps finds their differences

    The property of [compare] of xrpl/shamap/src/operations/compare.rs, with a witness on
    two small trees that lie in one store of nodes. *)

From stdpp Require Import gmap list.
From Stdlib Require Import ZArith Lia.
From S2P Require Import Prelude Serializer ShamapKey ShamapNode ShamapSlots ShamapTree ShamapHeap ShamapRepr ShamapWalk ShamapMutate ShamapDelete ShamapMap ShamapHash ShamapBinding ShamapFlush ShamapProps ShamapCompare ReplayProps.
Local Open Scope Z_scope.

Section Props.
Context `{Sha512}.

Lemma stands_wellformed ty t m : stands_for ty t m -> (forall k x, m !! k = Some x -> named (ty, x)) -> wellformed [] t.
Proof.
  intros Hst Hn. pose proof (proj1 Hst) as (kids & Ht & Hs & Hc). split; [exact Hs| |].
  - intros ks He s. rewrite Ht in He. injection He as <-. apply Hc.
  - intros [ty' x] Hx. apply (proj2 (stands_listing ty t m Hst)) in Hx as [Hty Hx]. cbn in Hty, Hx. subst ty'. exact (Hn _ _ Hx).
Qed.

Lemma stands_get ty t m k : stands_for ty t m -> get t k = m !! k.
Proof. intros [_ Hct]. unfold get. rewrite Hct, lookup_fmap. now destruct (m !! k). Qed.

(** C19: comparing two trees that are shared finds the keys under which their maps differ:
    as many as the caller accepts (one or more) are recorded, each with the item of either side, and all
    of them if there are no more; the answer is whether there are fewer than that.  Subtrees
    are passed over by their hashes.  The comparison fetches what is not loaded, changes no tree for its readers, and
    its loops end within the weights of the two trees.  All this unless the hash function
    fails on the texts of the nodes: two of them have one digest, or one has the digest zero. *)
Theorem compare_finds_the_differences (store : ghost) (ty : SHAMapNodeType) (m m' : gmap Uint256 SHAMapItem) (lb rb : bool) (lf rf : Fetch) (l r : loc) (t t' : stree) (max_count : Z) (fuel : nat) (h : heap) :
  (forall text, length (sha512 text) = 64%nat) -> fetch_ok store lb lf -> fetch_ok store rb rf -> frozen store 1 h l t -> frozen store 1 h r t' -> stands_for ty t m -> stands_for ty t' m' ->
  (forall k x, m !! k = Some x -> named (ty, x)) -> (forall k x, m' !! k = Some x -> named (ty, x)) -> 1 <= max_count <= max_of I32 -> (weight t + weight t' < fuel)%nat ->
  (exists d h', compare lb lf rb rf fuel l r ∅ max_count h = (Ok (bool_decide (Z.of_nat (size (differences m m')) < max_count), d), h') /\
    d ⊆ differences m m' /\ size d = Nat.min (Z.to_nat max_count) (size (differences m m')) /\ (Z.of_nat (size (differences m m')) <= max_count -> d = differences m m') /\
    forall l0 t0, frozen store 1 h l0 t0 -> frozen store 1 h' l0 t0) \/
  broken (texts t ++ texts t').
Proof.
  intros Hlen Hlf Hrf Hl Hr Hst Hst' Hn Hn' Hmax Hfuel. destruct (decide (broken (texts t ++ texts t'))) as [Hb|Hb]; [auto|left].
  pose proof (stands_wellformed ty t m Hst Hn) as Hw. pose proof (stands_wellformed ty t' m' Hst' Hn') as Hw'.
  destruct (compare_spec Hlen store lb lf Hlf rb rf Hrf l r t t' ∅ max_count fuel h Hl Hr (proj1 Hst) (proj1 Hst') (conj Hw (conj Hw' Hb)) Hmax Hfuel) as (h' & Hrun & Hkeep).
  pose proof (diffs_told t [] t' (wf_shaped _ _ Hw) (wf_shaped _ _ Hw')) as Ht. apply (told_ext _ _ _ (fun k => m !! k) _ (fun k => m' !! k)) in Ht; [|intros k; now apply (stands_get ty)|intros k; now apply (stands_get ty)].
  destruct (told_some (diffs t t') m m' (Z.to_nat max_count) Ht) as (Hsub & Hsize & Hlength). destruct (records_map (diffs t t') ∅ max_count Hmax (proj1 Ht) (fun k _ => lookup_empty k)) as (n' & Hrec).
  rewrite Hrec, (right_id_L ∅ (∪)), Hlength in Hrun. exists (list_to_map (take (Z.to_nat max_count) (diffs t t'))), h'. split; [exact Hrun|]. split; [exact Hsub|]. split; [exact Hsize|]. split; [|exact Hkeep].
  intros Hle. apply (map_subseteq_size_eq _ _ Hsub). rewrite Hsize. lia.
Qed.

End Props.

(** ** Witness *)

Module Example.
Import ShamapProps.Example ReplayProps.Example.

#[local] Existing Instance toy.

(** A map is built, and its hashes are filled in. *)
Definition build (c : Z) (ops : list map_op) (h : heap) : loc * heap :=
  match mutable_new (E := MutationError) c h with
  | (Ok self, h) =>
      let '(_, self, h) := run_ops false no_fetch collapse_loaded AccountState ops self h in
      (root self, (recompute_hashes_recursive (E := TraversalError) LEVELS (root self) h).2)
  | (_, h) => (0%nat, h)
  end.

Lemma build_ok c ops h : 1 <= c -> Forall op_ok ops -> distinct AccountState (fun x => x ∈ ops ≫= op_items) ->
  exists l h' t, build c ops h = (l, h') /\ frozen no_store (c + 1) h' l t /\ stands_for AccountState t (map_steps ∅ ops).2 /\ forall l0 t0, frozen no_store c h l0 t0 -> frozen no_store c h' l0 t0.
Proof.
  intros Hc Hok Hd. destruct (new_tree_ok (E := MutationError) no_store c h Hc) as (self & n & Hnew & Hto).
  destruct (ops_spec false no_fetch collapse_loaded AccountState no_store c Hc no_store_fetch (collapse_loaded_ok no_store c Hc (fun _ => eq_refl)) ltac:(discriminate) _ Hd ops self (h ++ [n]) _ ∅ Hto (empty_stands AccountState) Hok
    (map_Forall_empty _) (proj2 (Forall_forall _ _) (fun _ Hx => Hx))) as (self' & h1 & t & Hrun & Hkeep & (_ & m & Hm & _ & Hl & He) & Hst).
  assert (frozen no_store (c + 1) h1 (root self') t) as Hf by (rewrite <- He; apply (holds_frozen_up no_store c); auto). pose proof (proj1 Hst) as (kids & _ & Hs & _).
  destruct (recompute_spec (E := TraversalError) no_store (c + 1) LEVELS [] h1 _ t Hf Hs ltac:(unfold LEVELS; cbn; lia)) as (h2 & Hr2 & Hset & _).
  exists (root self'), h2, t. unfold build. rewrite Hnew, Hrun, Hr2. split; [reflexivity|]. split; [now apply Hset|]. split; [exact Hst|].
  intros l0 t0 Hf0. apply Hset. eapply frozen_keeps; [|exact Hf0]. eapply keeps_trans; [apply keeps_app|exact Hkeep].
Qed.

(** The maps differ under three of four keys: in the data, and in what is there. *)
Definition left_ops : list map_op := [OpAdd (entry 1 1); OpAdd (entry 2 2); OpAdd (entry 0x21 3)].
Definition right_ops : list map_op := [OpAdd (entry 1 1); OpAdd (entry 2 4); OpAdd (entry 0x15 5)].

Definition left_built : loc * heap := build 1 left_ops [].
Definition right_built : loc * heap := build 2 right_ops left_built.2.
Definition shared_heap : heap := unshare <$> right_built.2.

Lemma nodes_closed l : let ls := reach 5 right_built.2 l in
  forallb (fun x => match right_built.2 !! x with
    | Some n => bool_decide (hash n <> uint256_zero) && forallb (fun c => match c with Some y => bool_decide (y ∈ ls) | None => true end) (children_of n) | None => true end) ls = true ->
  forall x n, x ∈ ls -> right_built.2 !! x = Some n -> hash n <> uint256_zero /\ forall y, Some y ∈ children_of n -> y ∈ ls.
Proof.
  cbv zeta. generalize (reach 5 right_built.2 l) right_built.2. intros ls h Hb x n Hx Hn. rewrite forallb_forall in Hb. apply list_elem_of_In, Hb in Hx. rewrite Hn in Hx. apply andb_true_iff in Hx as [H1 H2]. apply bool_decide_eq_true in H1. split; [exact H1|].
  intros y Hy. rewrite forallb_forall in H2. apply list_elem_of_In, H2 in Hy. now apply bool_decide_eq_true in Hy.
Qed.

Lemma both_built : exists t t', frozen no_store 1 shared_heap left_built.1 t /\ stands_for AccountState t (map_steps ∅ left_ops).2 /\
  frozen no_store 1 shared_heap right_built.1 t' /\ stands_for AccountState t' (map_steps ∅ right_ops).2.
Proof.
  assert (Forall op_ok left_ops /\ Forall op_ok right_ops) as [Hl Hr] by (split; repeat (apply Forall_cons; split; [apply entry_good; lia|]); apply Forall_nil_2).
  destruct (build_ok 1 left_ops [] ltac:(lia) Hl) as (l & h & t & Hb & Hf & Hst & _); [apply distinct_list; vm_compute; reflexivity|].
  destruct (build_ok 2 right_ops h ltac:(lia) Hr) as (l' & h' & t' & Hb' & Hf' & Hst' & Hkeep); [apply distinct_list; vm_compute; reflexivity|].
  assert (left_built = (l, h)) as Hlb by exact Hb. assert (right_built = (l', h')) as Hrb by (unfold right_built; rewrite Hlb; exact Hb'). clear Hb Hb' Hl Hr.
  exists t, t'. split; [|split; [exact Hst|split; [|exact Hst']]].
  - eapply (unshared_frozen 2 right_built.2 (reach 5 right_built.2 left_built.1)); [rewrite Hrb, Hlb; exact (Hkeep _ _ Hf)|apply nodes_closed; vm_compute; reflexivity|left].
  - eapply (unshared_frozen 3 right_built.2 (reach 5 right_built.2 right_built.1)); [rewrite Hrb; exact Hf'|apply nodes_closed; vm_compute; reflexivity|left].
Qed.

Lemma maps_differ : size (differences (map_steps ∅ left_ops).2 (map_steps ∅ right_ops).2) = 3%nat.
Proof. vm_compute. reflexivity. Qed.

Lemma compare_finds_the_differences_witness : exists t t', (exists h', compare false no_fetch false no_fetch (S (weight t + weight t')) left_built.1 right_built.1 ∅ 256 shared_heap =
    (Ok (true, differences (map_steps ∅ left_ops).2 (map_steps ∅ right_ops).2), h')) \/ broken (texts t ++ texts t').
Proof.
  destruct both_built as (t & t' & Hf & Hst & Hf' & Hst'). exists t, t'.
  destruct (compare_finds_the_differences no_store AccountState _ _ false false no_fetch no_fetch _ _ t t' 256 (S (weight t + weight t')) _ toy_length no_store_fetch no_store_fetch Hf Hf' Hst Hst'
    ltac:(intros k x _ [=]) ltac:(intros k x _ [=]) ltac:(cbn; lia) ltac:(lia)) as [(d & h' & Hrun & _ & _ & Hd & _)|]; [left|right; assumption].
  exists h'. rewrite Hd in Hrun by (rewrite maps_differ; lia). rewrite bool_decide_eq_true_2 in Hrun by (rewrite maps_differ; lia). exact Hrun.
Defined.

(** The same by running the code. *)
Lemma compare_run : (compare false no_fetch false no_fetch 100 left_built.1 right_built.1 ∅ 256 shared_heap).1 = Ok (true, differences (map_steps ∅ left_ops).2 (map_steps ∅ right_ops).2).
Proof. vm_compute. reflexivity. Qed.

End Example.
