(* ===== verification/ServerProps.v ===== *)
(** * ServerProps: what ledgers over a node store promise

    The property of servers, with a witness in which ledgers are changed, stored, refused by
    the store, loaded again and built upon. *)

From stdpp Require Import gmap list.
From Stdlib Require Import ZArith Lia.
From S2P Require Import Prelude Serializer ShamapKey ShamapNode ShamapSlots ShamapTree ShamapHeap ShamapRepr ShamapWalk ShamapMutate ShamapMap ShamapHash ShamapBinding ShamapCodec ShamapStore ShamapFlush LedgerHeader LedgerState LedgerBatch LedgerWorld LedgerStore LedgerServer ShamapProps LedgerProps.
Local Open Scope Z_scope.

Section Props.
Context `{Sha512}.

(** The items that the ledgers of a server hold or that are written to them. *)
Definition on_server (vs : list view) (ops : list server_op) (x : SHAMapItem) : Prop := (exists v k, v ∈ vs /\ v_map v !! k = Some x) \/ x ∈ ops ≫= server_items.

(** C1: ledgers over one node store are independent maps, in memory or not.  Over any sequence
    of batches, closings, successions, reads, flushes, checked batches of writes that the
    store may refuse, and loadings by the hashes of a header, every answer is the one the
    map of that ledger gives; what is loaded by the hashes of a closed and stored ledger is
    the map of that ledger, whatever has happened since; a refused batch of writes changes
    no map; and no step changes what another ledger holds.  It relies on entries that can
    be stored, on different entries of one key having different digests, and on the hash
    function not failing on the texts the store has taken. *)
Theorem stored_ledgers_refine_maps (s : server) (vs : list view) (ops : list server_op) :
  (forall text, length (sha512 text) = 64%nat) -> server_good s vs -> server_legals vs ops (server_steps s ops).1 -> w_next (s_world s) + Z.of_nat (length ops) < 2 ^ 32 - 1 ->
  distinct AccountState (on_server vs ops) -> (forall it, on_server vs ops it -> codable AccountState it) ->
  (exists rs s' vs', server_steps s ops = (rs, s') /\ server_views vs ops rs vs' /\ server_good s' vs') \/ broken (s_log (server_steps s ops).2).*2.
Proof.
  intros Hlen Hg Hl Hmax Hd Hc. destruct (decide (broken (s_log (server_steps s ops).2).*2)) as [|Hb]; [auto|left].
  apply (server_spec Hlen _ Hd Hc); auto; apply Forall_forall.
  - intros v Hv k x Hx. left. eauto.
  - intros x Hx. right. exact Hx.
Qed.

(** ** A new server *)

Definition server_start (hd : LedgerHeader) (next : Z) : server :=
  let '(r, h) := ledger_new (E := TraversalError) hd true [] in
  mkServer (mkWorld h next (match r with Ok L => set_fetchers [] [L] | _ => [] end)) [].

Lemma server_start_good hd next : 1 <= next -> account_hash hd = uint256_zero -> tx_hash hd = uint256_zero -> server_good (server_start hd next) [mkView ∅ false false true].
Proof.
  intros Hn Ha Hx. destruct (new_ledger_good (E := TraversalError) (on_disk (fun _ => None)) next [] hd true (fun _ => eq_refl) Hn Ha Hx) as (L & x & Hnew & Hg).
  assert (backed (state_map L) = true) as Hb.
  { unfold ledger_new, new_with_type in Hnew. destruct (new_inner_ok (E := TraversalError) 0) as (i & Hi & _). rewrite Hi in Hnew. cbn in Hnew. injection Hnew as <- _. reflexivity. }
  unfold server_start. rewrite Hnew. exists (fun _ => None). split; [split; discriminate|]. cbn [s_world s_log w_ledgers]. split; [split; [exact Hn|]|].
  - constructor; [|constructor]. apply (ledger_carried (on_disk (fun _ => None)) (on_disk (fun _ => None)) next ([] ++ x) ([] ++ x)); [split; auto|intros e t He; discriminate|exact Hg].
  - apply fetchers_sourced. constructor; [exact Hb|constructor].
Qed.

End Props.

(** ** Witnesses *)

Module Example.
Import ShamapProps.Example LedgerProps.Example.

#[local] Existing Instance toy.

Definition begin : server := server_start genesis 100.

(** A ledger is stored after a refusal; its successor is flushed, loaded and built upon; the first one is loaded, too. *)
Definition story : list server_op :=
  [SLedger (WBatch 0 [(Insert, key 1, payload 1); (Insert, key 2, payload 2); (Insert, key 3, payload 3)]); SPersist 0 false; SLedger (WClose 0); SPersist 0 true; SLedger (WNext 0 0);
   SLedger (WBatch 1 [(Update, key 1, payload 9); (Delete, key 2, [])]); SLedger (WClose 1); SFlush 1; SLoad 1; SLedger (WPeek 2 (key 1)); SLedger (WHas 2 (key 2)); SLedger (WNext 2 0);
   SLedger (WBatch 3 [(Insert, key 2, payload 4); (Update, key 3, payload 5)]); SLoad 0; SLedger (WPeek 4 (key 1)); SLedger (WPeek 3 (key 3))].

Definition replies : list server_reply :=
  [SReply (RBatch (Ok tt)); SPersisted (Err (WriteFailed [])); SReply (RDone (Ok tt)); SPersisted (Ok tt); SReply (RDone (Ok tt)); SReply (RBatch (Ok tt)); SReply (RDone (Ok tt)); SFlushed (Ok tt); SLoaded (Ok true);
   SReply (RPeek (Ok (Some (mkItem (key 1) (payload 9))))); SReply (RHas (Ok false)); SReply (RDone (Ok tt)); SReply (RBatch (Ok tt)); SLoaded (Ok true);
   SReply (RPeek (Ok (Some (mkItem (key 1) (payload 1))))); SReply (RPeek (Ok (Some (mkItem (key 3) (payload 5)))))].

Lemma story_replies : (server_steps begin story).1 = replies.
Proof. vm_compute. reflexivity. Qed.

Lemma story_items : Forall batch_op_ok [(Insert, key 1, payload 1); (Insert, key 2, payload 2); (Insert, key 3, payload 3); (Update, key 1, payload 9); (Delete, key 2, []); (Insert, key 2, payload 4); (Update, key 3, payload 5)].
Proof.
  repeat (apply Forall_cons; split; [split; [apply key_good; lia|first [left; reflexivity|right; split; [apply Nat.leb_le; reflexivity|cbn; lia]]]|]). apply Forall_nil_2.
Qed.

Ltac server_step := apply server_legal_more; [|let Hs := fresh in intros ? Hs; inversion Hs as [? ? ? Hv| | | ]; clear Hs; subst; try (inversion Hv; clear Hv; subst); cbn in *; simplify_eq].

Lemma story_legal : server_legals [mkView ∅ false false true] story replies.
Proof.
  pose proof story_items as Hok. rewrite !Forall_cons in Hok. destruct Hok as (? & ? & ? & ? & ? & ? & ? & _). unfold story, replies.
  server_step. { eexists. split; [reflexivity|]. split; [reflexivity|]. auto. }
  server_step. { eexists. split; [reflexivity|]. left. reflexivity. }
  server_step. { eexists. split; [reflexivity|]. exact I. }
  server_step. { eexists. split; [reflexivity|]. left. reflexivity. }
  server_step. { eexists. split; [reflexivity|]. reflexivity. }
  server_step. { eexists. split; [reflexivity|]. split; [reflexivity|]. auto. }
  server_step. { eexists. split; [reflexivity|]. exact I. }
  server_step. { eexists. split; [reflexivity|]. left. reflexivity. }
  server_step. { eexists. split; [reflexivity|]. auto. }
  server_step. { eexists. split; [reflexivity|]. apply key_good. lia. }
  server_step. { eexists. split; [reflexivity|]. apply key_good. lia. }
  server_step. { eexists. split; [reflexivity|]. reflexivity. }
  server_step. { eexists. split; [reflexivity|]. split; [reflexivity|]. auto. }
  server_step. { eexists. split; [reflexivity|]. auto. }
  server_step. { eexists. split; [reflexivity|]. apply key_good. lia. }
  server_step. { eexists. split; [reflexivity|]. apply key_good. lia. }
  constructor.
Qed.

Lemma written_only (P : SHAMapItem -> Prop) : Forall P (story ≫= server_items) -> forall x, on_server [mkView ∅ false false true] story x -> P x.
Proof. rewrite Forall_forall. intros Hw x [(v & k & ->%list_elem_of_singleton & Hk)|Hx]; [discriminate|auto]. Qed.

Lemma story_codable : Forall (codable AccountState) (story ≫= server_items).
Proof.
  assert (forall n d, 0 < n < 256 -> codable AccountState (mkItem (key n) (payload d))) as Hone.
  { intros n d Hn. split; [discriminate|split; [apply key_good; lia|apply Nat.leb_le; reflexivity]|cbn; lia|discriminate|]. intros _. unfold key. intros He. injection He as He _. lia. }
  cbn. repeat (apply Forall_cons; split; [apply Hone; lia|]). apply Forall_nil_2.
Qed.

Lemma story_distinct : distinct AccountState (on_server [mkView ∅ false false true] story).
Proof.
  assert (distinct AccountState (fun x => x ∈ story ≫= server_items)) as Hd by (apply distinct_list; vm_compute; reflexivity).
  intros a b Ha Hb. apply Hd; apply (written_only (fun x => x ∈ story ≫= server_items)); auto; now apply Forall_forall.
Qed.

(** Every text is hashed once. *)
Definition apart (ps : list (list Z)) : bool :=
  let hs := (fun p => (p, sha512_half p)) <$> ps in
  forallb (fun a => bool_decide (a.2 <> uint256_zero) && forallb (fun b => bool_decide (a.2 = b.2 -> a.1 = b.1)) hs) hs.

Lemma apart_ok ps : apart ps = true -> ~ broken ps.
Proof.
  unfold apart. cbv zeta. rewrite forallb_forall. intros Hall. assert (forall p, p ∈ ps -> In (p, sha512_half p) ((fun p => (p, sha512_half p)) <$> ps)) as Hin.
  { intros p Hp. apply list_elem_of_In, list_elem_of_fmap. eauto. }
  intros [(p & q & Hp & Hq & Hne & He)|(p & Hp & Hz)]; pose proof (Hall _ (Hin p Hp)) as Hx; apply andb_true_iff in Hx as [Hx Hy].
  - rewrite forallb_forall in Hy. pose proof (Hy _ (Hin q Hq)) as Hpq. apply bool_decide_eq_true in Hpq. now apply Hne, Hpq.
  - apply bool_decide_eq_true in Hx. now apply Hx.
Qed.

Lemma story_unbroken : ~ broken (s_log (server_steps begin story).2).*2.
Proof. apply apart_ok. vm_compute. reflexivity. Qed.

Lemma story_runs : server_legals [mkView ∅ false false true] story (server_steps begin story).1.
Proof. rewrite story_replies. exact story_legal. Qed.

Lemma begin_good : server_good begin [mkView ∅ false false true].
Proof. apply server_start_good; [lia|reflexivity|reflexivity]. Qed.

Lemma stored_ledgers_refine_maps_witness : exists rs s' vs', server_steps begin story = (rs, s') /\ server_views [mkView ∅ false false true] story rs vs' /\ server_good s' vs'.
Proof.
  destruct (stored_ledgers_refine_maps begin [mkView ∅ false false true] story toy_length begin_good story_runs) as [Hx|Hb].
  - vm_compute. reflexivity.
  - exact story_distinct.
  - exact (written_only _ story_codable).
  - exact Hx.
  - destruct (story_unbroken Hb).
Defined.

End Example.
